(* ===== verification/_CoqProject ===== *)
-Q . S2P
Prelude.v
Bytes.v
Order.v
Uuid.v
Value.v
CompositeKey.v
PkMap.v
Codec.v
Frame.v
Wal.v
Journal.v
Schema.v
Ast.v
Eval.v
Filter.v
Lexer.v
Parser.v
ParserOk.v
ParserRound.v
TopN.v
TopNOk.v
Catalog.v
Plan.v
PlanOk.v
PlanJoin.v
PlanJoinOk.v
Store.v
SecIndex.v
IndexOk.v
StoreOk.v
StoreSim.v
Merge.v
MergeOk.v
MergeSafe.v
Recovery.v
Replayer.v
RecoveryOk.v
Select.v
SelectOk.v
CandOk.v
WalkOk.v
SelectSound.v
SelectMain.v
Join.v
Query.v
QueryOk.v
ParserTree.v
Prepare.v
QueryMain.v
Json.v
Wire.v
WireOk.v
QueryJson.v
Partition.v
PartitionOk.v
PartitionSim.v
Commit.v
CommitOk.v
Exec.v
WriteOk.v
ExecOk.v
WriteMain.v
InsertOk.v
CommitReplay.v
CommitMain.v
Drain.v
Companion.v
Mirror.v
MirrorOk.v
DrainOk.v
DrainMain.v
DbExec.v
Txn.v
TxnOk.v
ExecMain.v
