(* ===== verification/Prelude.v ===== *)
(** * hazedb: a verification library for the storage engine

    hazedb (src/) is an embedded Go database: SQL over in-memory tables, a
    write-ahead log for durability, a SQLite mirror fed in the background. This
    library models its engine in Rocq, file by file, and proves what the parts
    promise to each other and to the caller. The executable definitions follow
    the source; the [...Ok] and [...Main] files hold the theorems.

    ** How the program is put together, and where each part is modelled

    - Cells and keys. [Uuid] (uuid.go), [Value] (value.go), [CompositeKey]
      (composite_key.go, indexKey of secindex.go), over [Bytes] and [Order].
      Every stored cell, SQL argument and index key is one of these.
    - The log. [Codec] (mutation_codec.go) turns rows and mutations into record
      bodies, [Frame] (wal.go) records into segment bytes and back, [Wal]
      (wal.go, wal_segment.go, the boot sequence of db.go) buffers and seals
      segments over a disk that may fail at any call. [Journal] is the
      interface the store sees of it: a class whose laws [Wal] discharges for
      any schedule of faults ([wal_journal]).
    - The table. [PkMap] (pkmap.go) is the open-addressed primary-key table of a
      shard, [Store] (store*.go, compact.go, budget.go, the tally of stats.go)
      the sharded arena with its byte budget and dirty queues, [StoreOk] its
      invariant [tbl_ok] against a finite map and [StoreSim] the refinement:
      operations ([tbl_op]) run as [spec_step] says.
    - Partitioned tables. [Partition] (partition_store.go and its arms of
      store_compact.go) is the other storage layout: rows routed by a partition
      value, a table-wide directory from key to place, a pruned list of row ids
      per partition. [PartitionOk] has its invariant [part_ok] against the list of
      the rows in insertion order, [PartitionSim] compaction, the point reads
      against moving rows, and the refinement.
    - Secondary indexes. [SecIndex] (secindex.go) holds the two index forms,
      [Merge] the background merge as a step machine interleaved with writers;
      [IndexOk], [MergeOk], [MergeSafe] prove lookups exact and no committed row
      invisible.
    - Schema and registry. [Schema] (schema.go) resolves table definitions and
      checks cells, [Catalog] (catalog.go) registers tables and journals DDL,
      [Recovery] (db_replay.go, the storage side of DDL)
      applies log records and mirrored rows to the store; [RecoveryOk].
    - SQL. [Lexer], [Parser] (lexer.go, parser.go) give statements of [Ast]
      (ast.go); [Plan] and [PlanJoin] (plan.go, the planner of join.go) bind
      them to the catalog and choose access paths; [Eval] and [Filter] (eval.go,
      filter.go) evaluate expressions. [ParserOk], [ParserRound], [ParserTree],
      [PlanOk], [PlanJoinOk], [Prepare] hold their theorems.
    - Reading. [TopN] and [Select] (exec_select.go), [Join] (join.go), [Query]
      (db_query.go, query_stream.go, stmt.go) execute SELECT plans over the
      store and its indexes; [TopNOk], [SelectOk], [CandOk], [WalkOk],
      [SelectSound], [SelectMain], [QueryOk], [QueryMain] show what they answer.
    - JSON. [Json] holds the parts of the standard library wire.go leans on
      (encoding/json's decoder, base64), [Wire] is wire.go itself: rows out, SQL
      arguments in. [QueryJson] has the entry points that encode rows as they
      stream (query_stream.go, db_query.go, the point reads under the shard lock);
      [WireOk] and [QueryJson] show that what they write reads back.
    - Writing. [Store] holds the write lanes and [Exec] the statements that
      drive them (exec_write.go): the rows an INSERT builds, the UPDATE and DELETE
      lanes the planner can pick. [Commit] is the atomic commit of txn.go, which a
      transaction and a multi-row INSERT share, [Txn] the staging of statements
      and the closure a caller passes, [DbExec] the entry points (db_exec.go,
      stmt.go) from SQL text to tables, registry and log. [WriteOk] and [ExecOk]
      show what one lane and one plan do, [WriteMain], [InsertOk] and [CommitMain]
      what the statement does on a database, [CommitOk] and [TxnOk] that a commit
      is all or nothing, [CommitReplay] what histories of both leave in the log;
      [ExecMain] runs whole statements.
    - The SQLite companion. [Replayer] is the interface a consumer of the log
      offers, with three instances: the in-memory replay of Open, the bare map,
      and the mirror. [Drain] (drain.go) copies sealed segments into SQLite, one
      transaction a segment, with its gap check; [Companion] (the opening half of
      drain.go, recover_sqlite.go, Open in db.go) opens the file, reconciles the
      registry and recovers from it. SQLite is a parameter: [Drain] takes the effect of each
      statement and the rows of each query as functions, and the theorems assume
      of them what SQLite documents ([Mirror.MirrorSqlite] states it for the
      statements a record turns into; the witnesses give an instance). A statement
      fails when its function has no answer; opening a segment, BEGIN, COMMIT and
      removing the segment fail as a schedule says ([seg_io]). [Mirror], [MirrorOk],
      [DrainOk] and [DrainMain] hold the theorems.

    A statement therefore runs: text, [Lexer.tokenize], [Parser.parseSQL],
    [PlanJoin.prepare] (cached by text and catalog version), arguments
    ([Query.toValues], [PlanJoin.coerceParams]), then [Query.runSelect] or a
    write lane of [Store], which journals through [Journal.jwrite] before it
    applies; the merge of [Merge] brings the indexes up to date later, and
    readers add the dirty overlay meanwhile.

    ** Conventions

    [outcome] (below) is a Go result: a value, an error, or a panic; an error of
    a method that changes state is part of its result instead, because the state
    survives it. Machine integers are [Z] with the wrap-around written out
    ([u8] .. [u64], [s64]) wherever it can matter; counts of bytes and rows in
    memory stay unbounded. A pointer to immutable bytes is the bytes; a slice
    the code reuses is modelled as a store of slots where sharing can be seen
    ([TopN]) and as its contents where it cannot, with the reason in the file. A
    Go map is a [gmap]; none of the modelled code depends on iteration order
    except where a definition takes the order as an argument. Locks are not
    values: a body that runs under one lock is one step, and where the code
    drops a lock halfway the model is a step machine ([Uuid], [Wal], [Merge]).
    Predicates handed to the store's multi-row lanes are boolean: a bound plan
    evaluates without a panic ([Eval.eval_total], [Prepare.prepare_total]), and
    the code itself turns an evaluation error into a row that does not match.

    ** What the theorems show

    - Reads are exact: [QueryMain.query_values_exact] from SQL text to rows,
      resting on [SelectMain.select_answers] (every access path answers the
      window of the matching rows), [PlanOk.select_path_sound] (the planned path's
      source holds every matching row and the re-checked conjuncts keep no other),
      [TopNOk.order_by_window], the index theorems of [IndexOk], and
      [Filter.compileFilter_agrees]; QueryEach visits exactly the rows QueryValues
      returns, in its order ([QueryMain.query_each_visits]), and QueryJSON's text
      decodes to those rows ([QueryJson.query_json_reads_back],
      [QueryJson.json_point_read]); arguments written as JSON arrive as they were
      ([WireOk.args_read_back]).
    - Plans are current and total: [Prepare.plan_never_stale],
      [Prepare.prepare_total], [ParserOk.parseSQL_total], [Eval.eval_total],
      [PlanJoinOk.join_where_split]; the parser reads back what the grammar
      prints ([ParserRound.where_reads_back]).
    - Writes are exact and atomic: [InsertOk.insert_exact],
      [WriteMain.update_exact], [WriteMain.delete_exact] (the rows changed are the
      rows that match, behind one journal record, or none), [CommitMain.commit_atomic],
      [CommitMain.commit_locks], [TxnOk.transaction_rolls_back]; and the log of any
      history of them replays to the live rows ([CommitMain.history_replays]).
    - The companion: [DrainMain.drain_atomic] (whole segments with the cursor, or
      nothing), [DrainMain.mirror_rebuilds] (the mirror and the undrained tail are
      the live table), [DrainMain.companion_survives_crash] (across a crash at any
      moment). The last one is about data records: a CREATE or DROP in the log is
      left out of it, because there the claim is false - after a failed COMMIT the
      code retries with a table map the rollback did not undo, and the Examples
      [DrainMain.drain_retry_stalls] and [DrainMain.retried_drop_keeps_registry_row]
      show what the mirror keeps.
    - The table is a map: [StoreSim.table_refines_map] over any history, on
      [PkMap.pkmap_refines_map]; a partitioned table is the list of its rows
      ([PartitionSim.partition_refines_rows], [PartitionSim.partitioned_point_read]
      for a read that races with writers, [PartitionOk.scan_short] for the length a
      partition's scan walks).
    - Durability: [Wal.wal_crash_recovery] and [Wal.wal_error_sticky] for the
      log, [Frame] and [Codec] for its bytes, [RecoveryOk.log_replays] for its
      meaning, [Catalog.ddl_replays] and [Catalog.ddl_ids_never_reused] for DDL.
    - Indexes follow writes: [MergeSafe.merge_no_gap], [MergeSafe.merge_exact],
      [MergeSafe.merge_terminates].
    - Cells and keys: total orders, injective order-preserving encodings, text
      round trips, identifiers that sort by creation.
    - Where the code falls short of what it documents a theorem or an Example
      exhibits it ([Codec.txn_count_overflow], [StoreSim.update_tally_drift],
      [MergeSafe.index_read_gap], [RecoveryOk.drop_table_leaks_budget] and the
      Examples named [..._another_kind], [each_skips_arg_count],
      [json_count_skips_coercion], [null_partition_answers_zero], ...).

    ** Fuel and bounds

    - The parser's [stack] counts Go call frames: [8 + frames 0] are enough for
      any text (2056 in the examples), because expression nesting is limited by
      the code itself ([ParserOk]); its loops take one round per token plus one.
    - [Frame.scanRecords] takes the segment's length (a record is 12 bytes or
      more); [PkMap] probe loops the table's length; [Select.merge_streams] the
      two streams' lengths plus one; [Join.chunks] the list's length.
    - [Json.json_decode] gives a text of n bytes 2n + 2 frames; [WireOk.reads]
      shows n are enough for what the encoders write.
    - [Merge] has no fuel: it is a step relation, and [MergeSafe.merge_terminates]
      bounds the steps a merge takes whatever writers do in between.
    - [StoreOk.room] asks for fewer than 2^56 slots in a shard's arena, far more
      than memory holds; [Codec] needs lengths below 2^32 and counts below 2^16,
      which is where [Codec.txn_count_overflow] comes from (a transaction and a
      multi-row INSERT stop at 1000 mutations; a multi-row UPDATE or DELETE does
      not).
    - [MirrorOk.per_record], 65536, is the most rows one record can add to a
      table: the count of a TXN record is a u16.

    ** Not modelled, and why
    - The statements over a partitioned table (the partition-pinned SELECT, and
      the [pkDir] arms of joins, multi-row UPDATE and the commit): the executors
      are modelled on tables without a partition key.
    - SQLite itself, and database/sql between it and drain.go: a parameter.
    - Goroutines and timers: the tickers that call the flush, the merge, the
      compaction and the drain (their bodies are modelled), panic recovery,
      Open/Close ordering, the lock file (db_registry.go), options.go defaults,
      the delivery of events.go and the formatting of stats.go.
    - wal_syncdir_*.go: one system call, an event of [Wal].
    - caddymodule/, addons/, spike/, bench*: adapters, prototypes and
      measurements, not the engine. *)
From stdpp Require Export base prelude gmap list strings fin_maps sorting countable.
From Stdlib Require Export ZArith Lia.

#[global] Open Scope Z_scope.

(** ** Sentinel errors (errors.go) and the un-wrapped errors of the modelled code

    The first group is the `var ( Err... )` block; the second one are the
    messages built with a bare [fmt.Errorf]/[errors.New], one constructor per
    message the model distinguishes. *)
Inductive error : Type :=
  | ErrDuplicatePK
  | ErrUnknownTable
  | ErrUnknownColumn
  | ErrTypeMismatch
  | ErrParamMismatch
  | ErrPKUpdate
  | ErrParse
  | ErrUnindexedJoin
  | ErrWALCorrupt
  | ErrWALVersion
  | ErrTableExists
  | ErrTxUnsupported
  | ErrTxConflict
  | ErrBatchTooLarge
  | ErrCapacity
  | ErrReservedName
  | ErrCompanionInMemory
  | ErrClosed
  | ErrMirrorSchema
  | ErrMirrorCorrupt
  | ErrTooManyTables
  | ErrCatalogTooLarge
  (* wal.go *)
  | errWALFraming
  | errWALMissingSegment
  | errInjectedWrite
  | errIO
  (* value.go: AsInt *)
  | errNullToInt
  | errKindToInt
  | errParseInt
  (* schema.go *)
  | errNotNull
  | errExpectsType
  | errExpectsUTF8
  | errSchema
  (* "hazedb: X used with a non-X" messages *)
  | errUsage
  (* "internal: ..." messages *)
  | errInternal
  (* wire.go: "args: ..." messages *)
  | errArgs.

#[export] Instance error_eq_dec : EqDecision error.
Proof. solve_decision. Defined.

(** ** Outcomes

    A Go function that returns [(T, error)] yields [Ok] or [Err]; an index out
    of range, which unwinds the goroutine, yields [Panic]. *)
Inductive outcome (A : Type) : Type :=
  | Ok (a : A)
  | Err (e : error)
  | Panic.
Arguments Ok {A} _.
Arguments Err {A} _.
Arguments Panic {A}.

#[export] Instance outcome_ret : MRet outcome := fun A a => Ok a.
#[export] Instance outcome_bind : MBind outcome := fun A B k m =>
  match m with Ok a => k a | Err e => Err e | Panic => Panic end.

#[export] Instance outcome_eq_dec {A} `{EqDecision A} : EqDecision (outcome A).
Proof. solve_decision. Defined.

(** [index l i] is Go's [l[i]]. *)
Definition index {A} (l : list A) (i : nat) : outcome A :=
  match l !! i with Some x => Ok x | None => Panic end.

(** [l[lo:hi]] with the bounds known to hold, and with Go's bounds check. *)
Definition slice {A} (l : list A) (lo hi : nat) : list A := take (hi - lo) (drop lo l).
Definition zlen {A} (l : list A) : Z := Z.of_nat (length l).
Definition slice_o {A} (l : list A) (lo hi : Z) : outcome (list A) :=
  if (0 <=? lo) && (lo <=? hi) && (hi <=? zlen l)
  then Ok (slice l (Z.to_nat lo) (Z.to_nat hi)) else Panic.

Definition guard_err {A} (b : bool) (e : error) (k : outcome A) : outcome A :=
  if b then k else Err e.

Definition is_ok {A} (o : outcome A) : bool :=
  match o with Ok _ => true | _ => false end.

Lemma bind_Ok {A B} (m : outcome A) (k : A -> outcome B) (b : B) :
  (m ≫= k) = Ok b <-> exists a, m = Ok a /\ k a = Ok b.
Proof.
  split.
  - destruct m; try discriminate. eauto.
  - intros (a & -> & H). exact H.
Qed.

(** A result or an error, never a panic. *)
Definition safe {A} (P : A -> Prop) (o : outcome A) : Prop := match o with Ok a => P a | Err _ => True | Panic => False end.
Lemma safe_bind {A B} (P : A -> Prop) (Q : B -> Prop) (m : outcome A) (k : A -> outcome B) :
  safe P m -> (forall a, P a -> safe Q (k a)) -> safe Q (m ≫= k).
Proof. destruct m; cbn; auto. Qed.
Lemma safe_weaken {A} (P Q : A -> Prop) m : safe P m -> (forall a, P a -> Q a) -> safe Q m.
Proof. destruct m; cbn; auto. Qed.
Lemma index_Ok {A} (l : list A) i x : index l i = Ok x <-> l !! i = Some x.
Proof. unfold index. destruct (l !! i); split; congruence. Qed.

Lemma index_lt {A} (l : list A) i :
  (i < length l)%nat -> exists x, index l i = Ok x /\ l !! i = Some x.
Proof.
  intros H. destruct (lookup_lt_is_Some_2 l i H) as [x Hx].
  exists x. unfold index. by rewrite Hx.
Qed.

Lemma zlen_nil {A} : zlen (@nil A) = 0.
Proof. done. Qed.
Lemma zlen_cons {A} (x : A) l : zlen (x :: l) = 1 + zlen l.
Proof. unfold zlen. simpl length. lia. Qed.
Lemma zlen_app {A} (l k : list A) : zlen (l ++ k) = zlen l + zlen k.
Proof. unfold zlen. rewrite length_app. lia. Qed.
Lemma zlen_pos {A} (l : list A) : 0 <= zlen l.
Proof. unfold zlen. lia. Qed.

Lemma to_nat_zlen {A} (l : list A) : Z.to_nat (zlen l) = length l.
Proof. unfold zlen. lia. Qed.

(** The middle of a concatenation, by its offsets. *)
Lemma slice_o_mid {A} (p m r : list A) lo hi :
  lo = zlen p -> hi = lo + zlen m -> slice_o (p ++ m ++ r) lo hi = Ok m.
Proof.
  intros -> ->. unfold slice_o, slice. pose proof (zlen_pos p). pose proof (zlen_pos m).
  pose proof (zlen_pos r). rewrite !zlen_app.
  destruct (Z.leb_spec 0 (zlen p)), (Z.leb_spec (zlen p) (zlen p + zlen m)),
    (Z.leb_spec (zlen p + zlen m) (zlen p + (zlen m + zlen r))); try lia.
  cbn [andb]. unfold zlen. f_equal.
  replace (Z.to_nat (Z.of_nat (length p))) with (length p) by lia.
  rewrite drop_app_length.
  replace (Z.to_nat (Z.of_nat (length p) + Z.of_nat (length m)) - length p)%nat with (length m) by lia.
  apply take_app_length.
Qed.

Lemma slice_o_tail {A} (p m : list A) lo hi :
  lo = zlen p -> hi = lo + zlen m -> slice_o (p ++ m) lo hi = Ok m.
Proof. intros. rewrite <- (app_nil_r m) at 1. by apply slice_o_mid. Qed.

Lemma slice_o_in {A} (l : list A) lo hi : 0 <= lo <= hi -> hi <= zlen l ->
  exists m, slice_o l lo hi = Ok m /\ zlen m = hi - lo.
Proof.
  intros H1 H2. unfold slice_o, slice.
  destruct (Z.leb_spec 0 lo), (Z.leb_spec lo hi), (Z.leb_spec hi (zlen l)); try lia.
  eexists. split; [done|]. unfold zlen in *. rewrite length_take, length_drop. lia.
Qed.

(** Lists assembled from tagged pieces have no duplicates. *)
Lemma NoDup_concat_imap {A B} (f : nat -> A -> list B) (tag : B -> nat) l (off : nat) :
  (forall i x, NoDup (f i x)) -> (forall i x y, y ∈ f i x -> tag y = (i + off)%nat) ->
  NoDup (concat (imap f l)).
Proof.
  revert f off. induction l as [|x l IH]; intros f off Hn Ht; [constructor|].
  cbn [imap concat]. apply list.NoDup_app. split; [done|]. split.
  - intros y Hy Hin. apply list_elem_of_In, in_concat in Hin as (k & Hk & Hin).
    apply list_elem_of_In, elem_of_lookup_imap in Hk as (i & x' & -> & _).
    apply list_elem_of_In in Hin. apply Ht in Hy, Hin. cbn in *. lia.
  - apply (IH (f ∘ S) (S off)); intros; [apply Hn|]. cbn in *. rewrite (Ht (S i) x0 y); [lia|done].
Qed.
Lemma omap_concat {A B} (f : A -> option B) l :
  omap f l = concat ((fun x => match f x with Some y => [y] | None => [] end) <$> l).
Proof. induction l as [|x l IH]; [done|]. cbn. destruct (f x); cbn; by rewrite IH. Qed.

(** Folding insertions and deletions into a map. *)
Lemma fold_insert_notin `{Countable K} {A} (l : list (K * A)) (g : gmap K A) k :
  k ∉ l.*1 -> fold_left (fun g kv => <[fst kv := snd kv]> g) l g !! k = g !! k.
Proof.
  revert g. induction l as [|[k' v] l IH]; intros g Hk; [done|].
  apply not_elem_of_cons in Hk as [Hne Hk]. cbn [fold_left fst snd]. rewrite IH by done.
  by rewrite lookup_insert_ne.
Qed.
Lemma fold_insert_in `{Countable K} {A} (l : list (K * A)) (g : gmap K A) k v :
  NoDup l.*1 -> (k, v) ∈ l -> fold_left (fun g kv => <[fst kv := snd kv]> g) l g !! k = Some v.
Proof.
  revert g. induction l as [|[k' v'] l IH]; intros g Hn Hin; [by apply not_elem_of_nil in Hin|].
  apply list.NoDup_cons in Hn as [Hk Hn]. cbn [fold_left fst snd].
  apply elem_of_cons in Hin as [[= <- <-]|Hin]; [|by apply IH].
  rewrite fold_insert_notin by done. by apply lookup_insert_eq.
Qed.
Lemma fold_delete_lookup `{Countable K} {A} (l : list K) (g : gmap K A) k :
  fold_left (fun g k => delete k g) l g !! k = if decide (k ∈ l) then None else g !! k.
Proof.
  revert g. induction l as [|k' l IH]; intros g; [by rewrite decide_False by apply not_elem_of_nil|].
  cbn [fold_left]. rewrite IH. destruct (decide (k = k')) as [->|Hne].
  - rewrite lookup_delete_eq, (decide_True (P := _ ∈ k' :: l)) by apply list_elem_of_here.
    by destruct (decide _).
  - rewrite lookup_delete_ne by done. apply decide_ext. rewrite elem_of_cons.
    split; [by right|by intros [?|?]].
Qed.

(** ** Machine integers: Go's fixed-width conversions *)
Definition u8 (z : Z) : Z := z mod 2 ^ 8.
Definition u16 (z : Z) : Z := z mod 2 ^ 16.
Definition u32 (z : Z) : Z := z mod 2 ^ 32.
Definition u64 (z : Z) : Z := z mod 2 ^ 64.
(** int64(z): two's complement reinterpretation of the low 64 bits. *)
Definition s64 (z : Z) : Z :=
  let u := u64 z in if u <? 2 ^ 63 then u else u - 2 ^ 64.

Definition in_u64 (z : Z) : Prop := 0 <= z < 2 ^ 64.
Definition in_s64 (z : Z) : Prop := - 2 ^ 63 <= z < 2 ^ 63.

Lemma u64_range z : in_u64 (u64 z).
Proof. unfold in_u64, u64. apply Z.mod_pos_bound. lia. Qed.

Lemma u64_small z : in_u64 z -> u64 z = z.
Proof. unfold in_u64, u64. intros. apply Z.mod_small. lia. Qed.

Lemma s64_range z : in_s64 (s64 z).
Proof.
  pose proof (u64_range z) as H. unfold in_s64, s64, in_u64 in *.
  destruct (u64 z <? 2 ^ 63) eqn:E; lia.
Qed.

Lemma s64_u64 z : in_s64 z -> s64 (u64 z) = z.
Proof.
  unfold in_s64, s64. intros H. rewrite (u64_small (u64 z)) by apply u64_range.
  unfold u64. destruct (Z.ltb_spec (z mod 2 ^ 64) (2 ^ 63)); destruct (Z.le_gt_cases 0 z).
  - apply Z.mod_small. lia.
  - rewrite <- (Z.mod_add z 1) in * by lia. rewrite Z.mod_small in * by lia. lia.
  - rewrite Z.mod_small in * by lia. lia.
  - rewrite <- (Z.mod_add z 1) by lia. rewrite Z.mod_small by lia. lia.
Qed.

Lemma u64_s64 z : in_u64 z -> u64 (s64 z) = z.
Proof.
  unfold s64. intros H. rewrite (u64_small z) by done. unfold in_u64, u64 in *.
  destruct (Z.ltb_spec z (2 ^ 63)).
  - apply Z.mod_small. lia.
  - rewrite <- (Z.mod_add _ 1) by lia. rewrite Z.mod_small; lia.
Qed.

Lemma s64_idem z : in_s64 z -> s64 z = z.
Proof.
  intros H. pose proof (s64_u64 z H) as E. unfold s64 in E |- *.
  rewrite (u64_small (u64 z)) in E by apply u64_range. exact E.
Qed.

(** Exhaustive checks over a small range of integers. *)
Lemma Z_range_check (n : Z) (P : Z -> bool) :
  forallb P (seqZ 0 n) = true -> forall z, 0 <= z < n -> P z = true.
Proof.
  intros H z Hz. rewrite forallb_forall in H. apply H.
  apply list_elem_of_In, elem_of_seqZ. lia.
Qed.

(** ** Three-way comparison

    Go comparisons return an [int] in {-1, 0, 1}; internally a [comparison]
    is easier to reason about. *)
Definition cmpZ (c : comparison) : Z :=
  match c with Lt => -1 | Eq => 0 | Gt => 1 end.

Lemma cmpZ_lt c : cmpZ c < 0 -> c = Lt.
Proof. by destruct c. Qed.

(** A lawful total three-way comparison. *)
Class TotalCmp {A} (cmp : A -> A -> comparison) : Prop := {
  tc_eq x y : cmp x y = Eq <-> x = y;
  tc_anti x y : cmp y x = CompOpp (cmp x y);
  tc_trans x y z : cmp x y = Lt -> cmp y z = Lt -> cmp x z = Lt;
}.

Lemma tc_refl `{TotalCmp A cmp} x : cmp x x = Eq.
Proof. by apply tc_eq. Qed.

#[export] Instance Zcompare_total : TotalCmp Z.compare.
Proof.
  split.
  - apply Z.compare_eq_iff.
  - intros. by rewrite Z.compare_antisym.
  - intros x y z. rewrite !Z.compare_lt_iff. lia.
Qed.

(** ** The development's hint database and tactics *)
Create HintDb haze.
#[export] Hint Resolve u64_range s64_range : haze.
Create Rewrite HintDb haze.
#[export] Hint Rewrite @bind_Ok @index_Ok : haze.

(** Take one hypothesis about a monadic result apart. *)
Ltac inv_bind :=
  repeat match goal with
  | H : (_ ≫= _) = Ok _ |- _ => apply bind_Ok in H; destruct H as (? & ? & H)
  | H : Ok _ = Ok _ |- _ => injection H as H; try subst
  | H : Err _ = Ok _ |- _ => discriminate H
  | H : Panic = Ok _ |- _ => discriminate H
  | H : index _ _ = Ok _ |- _ => apply index_Ok in H
  | H : mret _ = Ok _ |- _ => injection H as H; try subst
  end.

(** Split on every boolean test of the goal, keeping the equations. *)
Ltac split_ifs :=
  repeat match goal with
  | |- context [if ?b then _ else _] => destruct b eqn:?
  end.
