(* ===== verification/Bytes.v ===== *)
(** * Bytes: Go strings and byte slices as lists of bytes, with the fixed-width
    encodings of encoding/binary (little-endian through coqutil, big-endian as
    its mirror image) and the lexicographic order of [bytes.Compare]. *)
From S2P Require Import Prelude.
From coqutil Require Export Byte Word.LittleEndianList.

Abbreviation bytes := (list Init.Byte.byte).

Definition b2z (b : Init.Byte.byte) : Z := byte.unsigned b.
Definition z2b (z : Z) : Init.Byte.byte := byte.of_Z z.

#[export] Instance byte_eq_dec : EqDecision Init.Byte.byte.
Proof. exact Byte.byte_eq_dec. Defined.
#[export] Instance byte_countable : Countable Init.Byte.byte.
Proof. exact (inj_countable Byte.to_N Byte.of_N Byte.of_to_N). Defined.

(** ASCII literals of the source, as byte lists. *)
Definition lit (s : string) : bytes := String.list_byte_of_string s.

(** encoding/binary: PutUint16/32/64, Uint16/32/64. *)
Definition le_put (n : nat) (z : Z) : bytes := le_split n z.
Definition le_get (b : bytes) : Z := le_combine b.
Definition be_put (n : nat) (z : Z) : bytes := rev (le_split n z).
Definition be_get (b : bytes) : Z := le_combine (rev b).

(** bytes.Compare, and Go's [<] on strings. *)
Fixpoint bytes_cmp (a b : bytes) : comparison :=
  match a, b with
  | [], [] => Eq
  | [], _ :: _ => Lt
  | _ :: _, [] => Gt
  | x :: a, y :: b =>
      match b2z x ?= b2z y with Eq => bytes_cmp a b | c => c end
  end.
Definition bytes_ltb (a b : bytes) : bool :=
  match bytes_cmp a b with Lt => true | _ => false end.

(** strings.HasPrefix *)
Fixpoint has_prefix (s p : bytes) : bool :=
  match p, s with
  | [], _ => true
  | _ :: _, [] => false
  | y :: p, x :: s => bool_decide (x = y) && has_prefix s p
  end.

(** strings.TrimSpace: the UTF-8 forms of the code points with the White_Space
    property. *)
Definition white_space : list bytes :=
  map (fun c => [z2b c]) [9; 10; 11; 12; 13; 32] ++
  map (map z2b) [[0xC2; 0x85]; [0xC2; 0xA0]; [0xE1; 0x9A; 0x80]; [0xE2; 0x80; 0xA8]; [0xE2; 0x80; 0xA9]; [0xE2; 0x80; 0xAF]; [0xE2; 0x81; 0x9F]; [0xE3; 0x80; 0x80]] ++
  map (fun c => map z2b [0xE2; 0x80; c]) (seqZ 0x80 11).
Definition leads (s p : bytes) : bool := bool_decide (take (length p) s = p).
Fixpoint trim_left (fuel : nat) (spaces : list bytes) (s : bytes) : bytes :=
  match fuel with
  | O => s
  | S fuel => match List.find (leads s) spaces with Some p => trim_left fuel spaces (drop (length p) s) | None => s end
  end.
Definition TrimSpace (s : bytes) : bytes :=
  let s := trim_left (length s) white_space s in
  reverse (trim_left (length s) (map reverse white_space) (reverse s)).

Lemma b2z_range b : 0 <= b2z b < 256.
Proof. pose proof (byte.unsigned_range b). unfold b2z. lia. Qed.

Lemma b2z_inj x y : b2z x = b2z y -> x = y.
Proof. apply byte.unsigned_inj. Qed.

Lemma b2z_z2b z : b2z (z2b z) = z mod 256.
Proof. apply byte.unsigned_of_Z. Qed.

Lemma z2b_b2z b : z2b (b2z b) = b.
Proof. apply byte.of_Z_unsigned. Qed.

Lemma length_le_put n z : length (le_put n z) = n.
Proof. apply length_le_split. Qed.
Lemma length_be_put n z : length (be_put n z) = n.
Proof. unfold be_put. rewrite length_rev. apply length_le_split. Qed.

Lemma le_get_put n z : 0 <= z < 2 ^ (Z.of_nat n * 8) -> le_get (le_put n z) = z.
Proof. intros. unfold le_get, le_put. rewrite le_combine_split. by apply Z.mod_small. Qed.
Lemma le_get_put_mod n z : le_get (le_put n z) = z mod 2 ^ (Z.of_nat n * 8).
Proof. apply le_combine_split. Qed.
Lemma be_get_put n z : 0 <= z < 2 ^ (Z.of_nat n * 8) -> be_get (be_put n z) = z.
Proof. unfold be_get, be_put. rewrite rev_involutive. apply le_get_put. Qed.
Lemma be_put_get b : be_put (length b) (be_get b) = b.
Proof.
  unfold be_put, be_get. rewrite <- (length_rev b), split_le_combine. apply rev_involutive.
Qed.
Lemma le_put_get b : le_put (length b) (le_get b) = b.
Proof. apply split_le_combine. Qed.

Lemma le_get_range b : 0 <= le_get b < 2 ^ (Z.of_nat (length b) * 8).
Proof.
  pose proof (le_combine_bound b) as H. unfold le_get.
  replace (Z.of_nat (length b) * 8) with (8 * Z.of_nat (length b)) by lia. lia.
Qed.
Lemma be_get_range b : 0 <= be_get b < 2 ^ (Z.of_nat (length b) * 8).
Proof. unfold be_get. rewrite <- (length_rev b). apply le_get_range. Qed.

(** ** The lexicographic order *)
Lemma bytes_cmp_eq a b : bytes_cmp a b = Eq <-> a = b.
Proof.
  revert b. induction a as [|x a IH]; intros [|y b]; simpl; try (split; congruence).
  destruct (Z.compare_spec (b2z x) (b2z y)) as [E|E|E].
  - rewrite IH. apply b2z_inj in E as ->. split; congruence.
  - split; [discriminate|]. intros [= -> ->]. lia.
  - split; [discriminate|]. intros [= -> ->]. lia.
Qed.

Lemma bytes_cmp_anti a b : bytes_cmp b a = CompOpp (bytes_cmp a b).
Proof.
  revert b. induction a as [|x a IH]; intros [|y b]; simpl; try done.
  rewrite (Z.compare_antisym (b2z x) (b2z y)).
  destruct (b2z x ?= b2z y); simpl; auto.
Qed.

Lemma bytes_cmp_trans a b c :
  bytes_cmp a b = Lt -> bytes_cmp b c = Lt -> bytes_cmp a c = Lt.
Proof.
  revert b c. induction a as [|x a IH]; intros [|y b] [|z c]; simpl; try done.
  destruct (Z.compare_spec (b2z x) (b2z y)), (Z.compare_spec (b2z y) (b2z z)),
    (Z.compare_spec (b2z x) (b2z z)); try done; try lia; eauto.
Qed.

#[export] Instance bytes_cmp_total : TotalCmp bytes_cmp.
Proof.
  split; [apply bytes_cmp_eq | apply bytes_cmp_anti | apply bytes_cmp_trans].
Qed.

Lemma bytes_cmp_app_l p a b : bytes_cmp (p ++ a) (p ++ b) = bytes_cmp a b.
Proof. induction p as [|x p IH]; simpl; [done|]. by rewrite Z.compare_refl. Qed.

(** Equal-length heads decide first. *)
Lemma bytes_cmp_app p q a b :
  length p = length q ->
  bytes_cmp (p ++ a) (q ++ b) =
    match bytes_cmp p q with Eq => bytes_cmp a b | c => c end.
Proof.
  revert q. induction p as [|x p IH]; intros [|y q] Hl; simpl in *; try lia; [done|].
  destruct (b2z x ?= b2z y); auto.
Qed.

Lemma be_put_S n z : be_put (S n) z = be_put n (Z.shiftr z 8) ++ [z2b z].
Proof. reflexivity. Qed.

(** Big-endian encodings of in-range words compare like the words. *)
Lemma be_put_cmp n a b :
  0 <= a < 2 ^ (Z.of_nat n * 8) -> 0 <= b < 2 ^ (Z.of_nat n * 8) ->
  bytes_cmp (be_put n a) (be_put n b) = (a ?= b).
Proof.
  revert a b. induction n as [|n IH]; intros a b Ha Hb.
  - simpl in Ha, Hb. assert (a = 0) as -> by lia. assert (b = 0) as -> by lia. done.
  - rewrite !be_put_S, bytes_cmp_app by (by rewrite !length_be_put).
    assert (Hp : 2 ^ (Z.of_nat (S n) * 8) = 2 ^ (Z.of_nat n * 8) * 256).
    { replace (Z.of_nat (S n) * 8) with (Z.of_nat n * 8 + 8) by lia.
      rewrite Z.pow_add_r by lia. done. }
    rewrite Hp in Ha, Hb. clear Hp.
    rewrite !Z.shiftr_div_pow2 by lia. change (2 ^ 8) with 256.
    rewrite IH by (split; [apply Z.div_pos; lia | apply Z.div_lt_upper_bound; lia]).
    simpl. rewrite !b2z_z2b.
    pose proof (Z.div_mod a 256). pose proof (Z.div_mod b 256).
    pose proof (Z.mod_pos_bound a 256). pose proof (Z.mod_pos_bound b 256).
    destruct (Z.compare_spec (a / 256) (b / 256)),
      (Z.compare_spec (a mod 256) (b mod 256)), (Z.compare_spec a b); lia || done.
Qed.

Lemma has_prefix_spec s p : has_prefix s p = true <-> exists r, s = p ++ r.
Proof.
  revert s. induction p as [|y p IH]; intros s; cbn [has_prefix app].
  - split; [eauto | by destruct s].
  - destruct s as [|x s]; [split; [done | intros [r [=]]]|].
    cbn [has_prefix]. rewrite andb_true_iff, bool_decide_eq_true, IH. split.
    + intros [-> [r ->]]. eauto.
    + intros [r [= -> ->]]. eauto.
Qed.

#[export] Hint Rewrite length_le_put length_be_put : haze.
