(* ===== verification/Order.v ===== *)
(** * Order: what the components share about ordered sequences — lexicographic
    comparisons, sorting with a comparator (slices.SortFunc), binary search
    (sort.Search) and walks over the runs of a sorted slice. *)
From S2P Require Import Prelude Bytes.

(** ** Sorting

    The result of slices.SortFunc for a comparator that is a total order on the
    elements, where only one sorted arrangement exists. *)
Fixpoint insert_by {A} (lt : A -> A -> bool) (x : A) (l : list A) : list A :=
  match l with
  | [] => [x]
  | y :: l => if lt y x then y :: insert_by lt x l else x :: y :: l
  end.
Fixpoint sort_by {A} (lt : A -> A -> bool) (l : list A) : list A :=
  match l with
  | [] => []
  | x :: l => insert_by lt x (sort_by lt l)
  end.

(** ** Binary search: sort.Search. Each turn shrinks the interval, so [n] turns
    are enough. *)
Fixpoint search_loop (fuel : nat) (f : nat -> bool) (i j : nat) : nat :=
  match fuel with
  | O => i
  | S fuel =>
      if (i <? j)%nat then
        let h := Nat.div2 (i + j) in
        if negb (f h) then search_loop fuel f (S h) j else search_loop fuel f i h
      else i
  end.
Definition Search (n : nat) (f : nat -> bool) : nat := search_loop n f 0 n.

(** The closure the code passes, over the slice [l]; Search asks it inside the
    slice only. *)
Definition at_ {A} (l : list A) (p : A -> bool) (i : nat) : bool :=
  match l !! i with Some e => p e | None => true end.

(** A forward walk that breaks at the first element failing [p]. *)
Fixpoint walk_while {A} (p : A -> bool) (l : list A) : list A :=
  match l with
  | [] => []
  | e :: l => if p e then e :: walk_while p l else []
  end.

(** ** Lexicographic comparison *)
Definition lex_cmp {A B} (ca : A -> A -> comparison) (cb : B -> B -> comparison) (x y : A * B) : comparison :=
  match ca (fst x) (fst y) with Eq => cb (snd x) (snd y) | c => c end.

Lemma tc_gt `{TotalCmp A cmp} x y : cmp x y = Gt <-> cmp y x = Lt.
Proof. rewrite (tc_anti (cmp := cmp) x y). destruct (cmp x y); cbn; split; congruence. Qed.

Lemma tc_eq_l `{TotalCmp A cmp} x y z : cmp x y = Eq -> cmp x z = cmp y z.
Proof. intros E. apply (tc_eq (cmp := cmp)) in E. by subst. Qed.

#[export] Instance lex_total {A B} (ca : A -> A -> comparison) (cb : B -> B -> comparison) :
  TotalCmp ca -> TotalCmp cb -> TotalCmp (lex_cmp ca cb).
Proof.
  intros Ha Hb. unfold lex_cmp. split.
  - intros [x x'] [y y']. cbn. split.
    + destruct (ca x y) eqn:E; [|done..]. intros E'. apply tc_eq in E, E'. by subst.
    + intros [= -> ->]. by rewrite !tc_refl.
  - intros [x x'] [y y']. cbn. rewrite (tc_anti x y). destruct (ca x y); cbn; [apply tc_anti|done..].
  - intros [x x'] [y y'] [z z']. cbn. destruct (ca x y) eqn:E; [| |done].
    + rewrite (tc_eq_l _ _ _ E). destruct (ca y z); [|done..]. apply tc_trans.
    + intros _. destruct (ca y z) eqn:E'; [| |done].
      * intros _. apply tc_eq in E'. subst. by rewrite E.
      * by rewrite (tc_trans _ _ _ E E').
Qed.

(** A comparison pulled back along an injection. *)
Lemma inj_total {A B} (f : A -> B) (cb : B -> B -> comparison) : TotalCmp cb -> Inj (=) (=) f ->
  TotalCmp (fun x y => cb (f x) (f y)).
Proof.
  intros Hb Hf. split.
  - intros x y. rewrite tc_eq. split; [apply Hf|by intros ->].
  - intros. apply tc_anti.
  - intros x y z. apply tc_trans.
Qed.

(** ** Facts of sorting *)
Lemma insert_by_perm {A} (lt : A -> A -> bool) x l : insert_by lt x l ≡ₚ x :: l.
Proof.
  induction l as [|y l IH]; cbn; [done|]. destruct (lt y x); [|done]. rewrite IH. apply perm_swap.
Qed.
Lemma sort_by_perm {A} (lt : A -> A -> bool) l : sort_by lt l ≡ₚ l.
Proof. induction l as [|x l IH]; cbn; [done|]. by rewrite insert_by_perm, IH. Qed.

Lemma insert_by_ext {A} (P : A -> Prop) (lt lt' : A -> A -> bool) x l :
  (forall a b, P a -> P b -> lt a b = lt' a b) -> P x -> Forall P l -> insert_by lt x l = insert_by lt' x l.
Proof.
  intros E Hx. induction 1 as [|y l Hy Hl IH]; cbn; [done|]. by rewrite (E y x), IH.
Qed.
Lemma sort_by_ext {A} (P : A -> Prop) (lt lt' : A -> A -> bool) l :
  (forall a b, P a -> P b -> lt a b = lt' a b) -> Forall P l -> sort_by lt l = sort_by lt' l.
Proof.
  intros E. induction 1 as [|x l Hx Hl IH]; cbn; [done|]. rewrite IH.
  apply (insert_by_ext P); [done..|]. by rewrite sort_by_perm.
Qed.

Section sorted.
Context {A} (cmp : A -> A -> comparison) `{!TotalCmp cmp}.
Definition ltb_of (x y : A) : bool := match cmp x y with Lt => true | _ => false end.
Definition le_of (x y : A) : Prop := cmp x y <> Gt.
Definition lt_of (x y : A) : Prop := cmp x y = Lt.

#[export] Instance le_of_trans : Transitive le_of.
Proof.
  unfold le_of. intros x y z Hxy Hyz E. destruct (cmp x y) eqn:E1; [| |done].
  - apply tc_eq in E1. by subst.
  - apply tc_gt in E. destruct (cmp y z) eqn:E2; [| |done].
    + apply tc_eq in E2. subst. apply tc_gt in E1. congruence.
    + pose proof (tc_trans _ _ _ E E1) as E3. apply tc_gt in E3. congruence.
Qed.
#[export] Instance le_of_anti : AntiSymm (=) le_of.
Proof.
  unfold le_of. intros x y Hxy Hyx. rewrite tc_gt in Hyx. destruct (cmp x y) eqn:E; [by apply tc_eq in E|done..].
Qed.

Lemma sort_by_sorted l : StronglySorted le_of (sort_by ltb_of l).
Proof.
  induction l as [|x l IH]; cbn; [constructor|]. revert IH. generalize (sort_by ltb_of l). clear l. intros l.
  induction 1 as [|y l Hl IH Hy]; cbn; [by repeat constructor|]. unfold ltb_of at 1.
  destruct (cmp y x) eqn:E.
  2: { constructor; [done|]. rewrite insert_by_perm. constructor; [unfold le_of; congruence|done]. }
  all: assert (Hxy : le_of x y) by (unfold le_of; rewrite tc_gt; congruence).
  all: constructor; [by constructor|]; constructor; [done|].
  all: eapply Forall_impl; [|exact Hy]; cbv beta; intros z Hz; by etrans.
Qed.

(** Two sorted arrangements of the same elements are the same list. *)
Lemma sorted_unique l k : StronglySorted le_of l -> StronglySorted le_of k -> l ≡ₚ k -> l = k.
Proof. apply StronglySorted_unique, _. Qed.

Lemma sort_by_unique l k : StronglySorted le_of k -> l ≡ₚ k -> sort_by ltb_of l = k.
Proof.
  intros Hk P. apply sorted_unique; [apply sort_by_sorted|done|]. by rewrite sort_by_perm.
Qed.
Lemma sort_by_cong l k : l ≡ₚ k -> sort_by ltb_of l = sort_by ltb_of k.
Proof. intros P. apply sort_by_unique; [apply sort_by_sorted|]. by rewrite sort_by_perm. Qed.

Lemma sorted_filter (P : A -> Prop) `{!forall x, Decision (P x)} l :
  StronglySorted le_of l -> StronglySorted le_of (filter P l).
Proof.
  induction 1 as [|x l Hl IH Hx]; [constructor|]. rewrite list.filter_cons.
  destruct (decide (P x)); [|done]. constructor; [done|].
  rewrite list.Forall_forall in Hx |- *. intros y [_ Hy]%list_elem_of_filter. by apply Hx.
Qed.
End sorted.

(** ** Facts of searching *)

(** On a predicate that never turns back, Search finds the first index where it
    holds, or [n]. *)
Lemma search_loop_ok f fuel : forall i j, (j - i <= fuel)%nat -> (i <= j)%nat ->
  (forall a b, (a <= b)%nat -> f a = true -> f b = true) ->
  let r := search_loop fuel f i j in
  (i <= r <= j)%nat /\ (forall a, (i <= a < r)%nat -> f a = false) /\ ((r < j)%nat -> f r = true).
Proof.
  induction fuel as [|fuel IH]; intros i j Hf Hij Hm; cbv zeta; cbn [search_loop].
  { split; [lia|]. split; lia. }
  destruct (Nat.ltb_spec i j) as [Hlt|]; [|split; [lia|]; split; lia].
  pose proof (Nat.div2_div (i + j)) as Hh. set (h := Nat.div2 (i + j)) in *.
  assert (i <= h < j)%nat.
  { rewrite Hh. split; [apply Nat.div_le_lower_bound; lia|]. apply Nat.Div0.div_lt_upper_bound. lia. }
  destruct (f h) eqn:E; cbn [negb].
  - destruct (IH i h) as (H1 & H2 & H3); [lia..|done|]. split; [lia|]. split; [done|].
    intros _. destruct (decide (search_loop fuel f i h = h)) as [->|]; [done|]. apply H3. lia.
  - destruct (IH (S h) j) as (H1 & H2 & H3); [lia..|done|]. split; [lia|]. split; [|done].
    intros a Ha. destruct (decide (a <= h)%nat) as [Hle|]; [|apply H2; lia].
    destruct (f a) eqn:Ea; [|done]. by rewrite (Hm a h Hle Ea) in E.
Qed.

(** A run of a sorted list: once [p] holds it holds to the end. *)
Definition upward {A} (p : A -> bool) (l : list A) : Prop :=
  forall i j x y, (i <= j)%nat -> l !! i = Some x -> l !! j = Some y -> p x = true -> p y = true.

Lemma upward_cons {A} (p : A -> bool) x l : upward p (x :: l) -> upward p l.
Proof. intros H i j a b Hij Ha Hb. apply (H (S i) (S j) a b); [lia|done..]. Qed.

Lemma upward_sorted {A} (R : A -> A -> Prop) (p : A -> bool) l : StronglySorted R l ->
  (forall x y, x ∈ l -> y ∈ l -> R x y -> p x = true -> p y = true) -> upward p l.
Proof.
  intros Hs Hp i j x y Hij Hx Hy. destruct (decide (i = j)) as [->|Hne].
  { rewrite Hx in Hy. by injection Hy as ->. }
  apply Hp; [by eapply list_elem_of_lookup_2..|].
  rewrite <- (take_drop j l) in Hs. eapply StronglySorted_app_1_elem_of; [exact Hs| |].
  - apply (list_elem_of_lookup_2 _ i). by rewrite lookup_take_lt by lia.
  - apply (list_elem_of_lookup_2 _ 0). by rewrite lookup_drop, Nat.add_0_r.
Qed.

(** Searching splits a list at the first element of the run. *)
Lemma Search_split {A} (l : list A) (p : A -> bool) : upward p l ->
  let lo := Search (length l) (at_ l p) in
  (lo <= length l)%nat /\
  Forall (fun e => p e = false) (take lo l) /\ Forall (fun e => p e = true) (drop lo l).
Proof.
  intros Hu lo. destruct (search_loop_ok (at_ l p) (length l) 0 (length l)) as (H1 & H2 & H3); [lia..| |].
  { unfold at_. intros a b Hab. destruct (l !! b) as [y|] eqn:Hb; [|done].
    destruct (lookup_lt_is_Some_2 l a) as [x Hx]; [apply lookup_lt_Some in Hb; lia|]. rewrite Hx. by apply (Hu a b). }
  fold (Search (length l) (at_ l p)) in *. fold lo in H1, H2, H3. split; [lia|]. split.
  - apply Forall_lookup. intros i x Hx. pose proof (lookup_lt_Some _ _ _ Hx) as Hl. rewrite length_take in Hl.
    rewrite lookup_take_lt in Hx by lia. specialize (H2 i ltac:(lia)). unfold at_ in H2. by rewrite Hx in H2.
  - apply Forall_lookup. intros i x Hx. rewrite lookup_drop in Hx. pose proof (lookup_lt_Some _ _ _ Hx) as Hl.
    specialize (H3 ltac:(lia)). unfold at_ in H3. destruct (l !! lo) as [y|] eqn:Hy.
    + apply (Hu lo (lo + i)%nat y x); [lia|done..].
    + apply lookup_ge_None in Hy. lia.
Qed.

Lemma filter_all {A} (P : A -> Prop) `{!forall x, Decision (P x)} l : Forall P l -> filter P l = l.
Proof. induction 1 as [|x l Hx Hl IH]; [done|]. by rewrite filter_cons_True, IH. Qed.
Lemma filter_nothing {A} (P : A -> Prop) `{!forall x, Decision (P x)} l : Forall (fun x => ~ P x) l -> filter P l = [].
Proof. induction 1 as [|x l Hx Hl IH]; [done|]. by rewrite filter_cons_False, IH. Qed.

Lemma Forall_bool {A} (p : A -> bool) (P : A -> Prop) b l : Forall (fun x => p x = b) l ->
  (forall x, p x = b -> P x) -> Forall P l.
Proof. intros H Hp. eapply Forall_impl; [|exact H]. exact Hp. Qed.

(** What a search drops and keeps, as filters. *)
Lemma Search_filter {A} (l : list A) (p : A -> bool) : upward p l ->
  let lo := Search (length l) (at_ l p) in
  take lo l = filter (fun e => p e = false) l /\ drop lo l = filter (fun e => p e = true) l.
Proof.
  intros Hu lo. destruct (Search_split l p Hu) as (_ & H1 & H2). fold lo in H1, H2.
  rewrite <- (take_drop lo l) at 2 4. rewrite !list.filter_app. split.
  - rewrite (filter_all _ (take lo l)), filter_nothing, app_nil_r; [done| |done].
    eapply Forall_bool; [exact H2|]. cbv beta. congruence.
  - rewrite (filter_nothing _ (take lo l)), filter_all; [done|done|].
    eapply Forall_bool; [exact H1|]. cbv beta. congruence.
Qed.

(** A walk that leaves a run never finds it again. *)
Lemma walk_while_filter {A} (p : A -> bool) l : upward (fun e => negb (p e)) l ->
  walk_while p l = filter (fun e => p e = true) l.
Proof.
  induction l as [|x l IH]; intros Hu; [done|]. cbn [walk_while]. rewrite list.filter_cons.
  destruct (p x) eqn:E; [rewrite decide_True by done; f_equal; apply IH; by eapply upward_cons|].
  rewrite decide_False by done. symmetry. apply filter_nothing, Forall_lookup. intros i y Hy.
  assert (N : negb (p y) = true) by (apply (Hu 0%nat (S i) x y); [lia|done|done|by rewrite E]).
  by destruct (p y).
Qed.
Lemma upward_drop {A} (p : A -> bool) l n : upward p l -> upward p (drop n l).
Proof. intros H i j x y Hij. rewrite !lookup_drop. apply H. lia. Qed.

Lemma Search_ext {A} (l : list A) (p q : A -> bool) : (forall x, x ∈ l -> p x = q x) ->
  Search (length l) (at_ l p) = Search (length l) (at_ l q).
Proof.
  intros E. assert (Ea : forall i, at_ l p i = at_ l q i).
  { intros i. unfold at_. destruct (l !! i) eqn:Hi; [|done]. apply E. by eapply list_elem_of_lookup_2. }
  unfold Search. generalize (length l) at 1 3 as fuel. generalize 0%nat (length l).
  intros i j fuel. revert i j. induction fuel as [|fuel IH]; intros i j; cbn; [done|]. rewrite Ea, !IH. done.
Qed.
Lemma walk_while_ext {A} (p q : A -> bool) l : (forall x, x ∈ l -> p x = q x) -> walk_while p l = walk_while q l.
Proof.
  induction l as [|x l IH]; intros E; [done|]. cbn. rewrite (E x) by by left.
  rewrite IH; [done|]. intros y Hy. apply E. by right.
Qed.
Lemma upward_ext {A} (p q : A -> bool) l : (forall x, p x = q x) -> upward q l -> upward p l.
Proof. intros E H i j x y. rewrite !E. apply H. Qed.

(** The slice between two searches. *)
Lemma Search_slice {A} (l : list A) (p q : A -> bool) : upward p l -> upward q l ->
  (forall x, q x = true -> p x = true) ->
  let lo := Search (length l) (at_ l p) in
  let hi := Search (length l) (at_ l q) in
  slice_o l (Z.of_nat lo) (Z.of_nat hi) = Ok (filter (fun e => p e = true /\ q e = false) l).
Proof.
  intros Hp Hq Hqp lo hi.
  destruct (Search_split l p Hp) as (Bl & Fl & Gl), (Search_split l q Hq) as (Bh & Fh & Gh).
  destruct (Search_filter l q Hq) as [Th _]. cbv zeta in *. fold lo in Bl, Fl, Gl. fold hi in Bh, Fh, Gh, Th.
  assert (Hle : (lo <= hi)%nat).
  { destruct (decide (lo <= hi)%nat) as [|Hn]; [done|]. destruct (lookup_lt_is_Some_2 l hi) as [x Hx]; [lia|].
    assert (P : p x = false) by (apply (Forall_lookup_1 _ _ hi _ Fl); rewrite lookup_take_lt; [done|lia]).
    assert (Q : q x = true) by (apply (Forall_lookup_1 _ _ 0 _ Gh); by rewrite lookup_drop, Nat.add_0_r).
    by rewrite (Hqp x Q) in P. }
  unfold slice_o, zlen. rewrite !(proj2 (Z.leb_le _ _)) by lia. cbn [andb]. rewrite !Nat2Z.id. f_equal.
  assert (E : filter (fun e => p e = true) (take hi l) = slice l lo hi).
  { replace (take hi l) with (take lo l ++ slice l lo hi).
    2: { unfold slice. rewrite take_drop_commute. replace (lo + (hi - lo))%nat with hi by lia.
         rewrite <- (take_drop lo (take hi l)) at 2. by rewrite take_take, Nat.min_l by lia. }
    rewrite list.filter_app, (filter_nothing _ (take lo l)), filter_all; [done| |].
    - unfold slice. by apply Forall_take.
    - eapply Forall_bool; [exact Fl|]. cbv beta. congruence. }
  by rewrite <- E, Th, list_filter_filter.
Qed.
