(* ===== verification/Uuid.v ===== *)
(** * Uuid: uuid.go — the 16-byte identifier, its canonical text form, and the
    lock-free monotonic UUIDv7 generator as an interleaving of load/CAS steps. *)
From S2P Require Import Prelude Bytes.

(** Go's [[16]byte]. *)
Record UUID : Type := MkUUID {
  ubytes : bytes;
  ubytes_len : (length ubytes =? 16)%nat = true;
}.

(** [copy(u[:], b)] into a zero array. *)
Definition pad16 (b : bytes) : bytes := take 16 (b ++ replicate 16 Byte.x00).

Lemma pad16_len b : (length (pad16 b) =? 16)%nat = true.
Proof.
  apply Nat.eqb_eq. unfold pad16. rewrite length_take, length_app, length_replicate. lia.
Qed.

Definition uuid_of (b : bytes) : UUID := MkUUID (pad16 b) (pad16_len b).

Definition zeroUUID : UUID := uuid_of [].

Lemma uuid_eq u v : ubytes u = ubytes v -> u = v.
Proof.
  destruct u as [a p], v as [b q]; simpl. intros ->. f_equal.
  apply Eqdep_dec.UIP_dec. apply Bool.bool_dec.
Qed.

Lemma length_ubytes u : length (ubytes u) = 16%nat.
Proof. apply Nat.eqb_eq, ubytes_len. Qed.

Lemma pad16_id b : length b = 16%nat -> pad16 b = b.
Proof. intros H. unfold pad16. rewrite take_app_le, take_ge by lia. done. Qed.

Lemma uuid_of_ubytes u : uuid_of (ubytes u) = u.
Proof. apply uuid_eq. simpl. apply pad16_id, length_ubytes. Qed.

Lemma ubytes_uuid_of b : length b = 16%nat -> ubytes (uuid_of b) = b.
Proof. apply pad16_id. Qed.

#[export] Instance uuid_eq_dec : EqDecision UUID.
Proof.
  refine (fun u v => cast_if (decide (ubytes u = ubytes v))).
  - by apply uuid_eq.
  - by intros ->.
Defined.

#[export] Instance uuid_countable : Countable UUID.
Proof.
  refine (inj_countable' ubytes uuid_of _). apply uuid_of_ubytes.
Defined.

(** [bytes.Compare(a[:], b[:])] *)
Definition uuid_cmp (u v : UUID) : comparison := bytes_cmp (ubytes u) (ubytes v).

#[export] Instance uuid_cmp_total : TotalCmp uuid_cmp.
Proof.
  split; unfold uuid_cmp.
  - intros u v. rewrite tc_eq. split; [apply uuid_eq | by intros ->].
  - intros u v. apply tc_anti.
  - intros u v w. apply tc_trans.
Qed.

Definition IsZero (u : UUID) : bool := bool_decide (u = zeroUUID).

(** [u[i]] *)
Definition ubyte (u : UUID) (i : nat) : Z := b2z (nth i (ubytes u) Byte.x00).

Definition Version (u : UUID) : Z := Z.shiftr (ubyte u 6) 4.

Definition IsV7 (u : UUID) : bool :=
  (Version u =? 7) && (Z.land (ubyte u 8) 0xC0 =? 0x80).

(** ** Text form *)

(** hex.Encode: two lower-case digits per byte. *)
Definition hexdigits : bytes := lit "0123456789abcdef".
Definition hexdigit (z : Z) : Init.Byte.byte := nth (Z.to_nat z) hexdigits Byte.x00.
Definition hex_encode (b : bytes) : bytes :=
  flat_map (fun x => [hexdigit (Z.shiftr (b2z x) 4); hexdigit (Z.land (b2z x) 15)]) b.

Definition writeHyphenated (u : UUID) : bytes :=
  let b := ubytes u in
  hex_encode (slice b 0 4) ++ lit "-" ++ hex_encode (slice b 4 6) ++ lit "-" ++
  hex_encode (slice b 6 8) ++ lit "-" ++ hex_encode (slice b 8 10) ++ lit "-" ++
  hex_encode (slice b 10 16).

Definition UUID_String (u : UUID) : bytes := writeHyphenated u.
Definition AppendString (u : UUID) (b : bytes) : bytes := b ++ writeHyphenated u.

(** The 256-entry table: hex value, or 0xFF. *)
Definition hexNibble (c : Init.Byte.byte) : Z :=
  let z := b2z c in
  if (48 <=? z) && (z <=? 57) then z - 48
  else if (97 <=? z) && (z <=? 102) then z - 97 + 10
  else if (65 <=? z) && (z <=? 70) then z - 65 + 10
  else 0xFF.

Definition uuidByteOff : list nat :=
  [0; 2; 4; 6; 9; 11; 14; 16; 19; 21; 24; 26; 28; 30; 32; 34]%nat.

(** The decoding loop of ParseUUIDOk, one step per output byte. *)
Fixpoint parse_loop (s : bytes) (offs : list nat) : option bytes :=
  match offs with
  | [] => Some []
  | o :: offs =>
      let hi := hexNibble (nth o s Byte.x00) in
      let lo := hexNibble (nth (S o) s Byte.x00) in
      if (hi =? 0xFF) || (lo =? 0xFF) then None
      else match parse_loop s offs with
           | Some u => Some (z2b (Z.lor (Z.shiftl hi 4) lo) :: u)
           | None => None
           end
  end.

Definition hyphen (s : bytes) (i : nat) : bool :=
  bool_decide (nth i s Byte.x00 = Byte.x2d).

Definition ParseUUIDOk (s : bytes) : option UUID :=
  if negb (length s =? 36)%nat || negb (hyphen s 8) || negb (hyphen s 13)
     || negb (hyphen s 18) || negb (hyphen s 23) then None
  else match parse_loop s uuidByteOff with
       | Some u => Some (uuid_of u)
       | None => None
       end.

Definition ParseUUID (s : bytes) : outcome UUID :=
  match ParseUUIDOk s with Some u => Ok u | None => Err ErrParse end.

(** strings.ToLower on ASCII, used to state what ParseUUID accepts. *)
Definition byte_lower (c : Init.Byte.byte) : Init.Byte.byte :=
  let z := b2z c in
  if (65 <=? z) && (z <=? 90) then z2b (z + 32) else c.

(** ** The generator *)

(** One iteration of the CAS loop's arithmetic: the candidate stamp for the
    loaded word [cur] and the wall clock [now] (unix ms, an int64). *)
Definition next_stamp (cur now : Z) : Z :=
  if now >? s64 (Z.shiftr cur 16) then u64 (Z.shiftl (u64 now) 16)
  else
    let nxt := u64 (cur + 1) in
    if Z.land nxt 0xFFFF >? 0x0FFF then u64 (Z.shiftl (Z.shiftr cur 16 + 1) 16)
    else nxt.

(** What nextUUIDStamp returns for a claimed word. *)
Definition stamp_ms (nxt : Z) : Z := s64 (Z.shiftr nxt 16).
Definition stamp_counter (nxt : Z) : Z := Z.land nxt 0xFFFF.

(** The shared word, what each goroutine inside the loop has loaded (with its
    clock reading), and the stamps claimed so far, oldest first. *)
Record ustate := MkUState {
  uuidStamp : Z;
  loaded : gmap nat (Z * Z);
  claimed : list Z;
}.

(** nextUUIDStamp as an interleaving: each Load and each CompareAndSwap is one
    atomic step of one goroutine; a failed CAS goes back to the Load. *)
Inductive ustep : ustate -> ustate -> Prop :=
  | us_load st t now :
      - 2 ^ 63 <= now < 2 ^ 47 ->
      ustep st (MkUState (uuidStamp st) (<[t := (now, uuidStamp st)]> (loaded st)) (claimed st))
  | us_cas_ok st t now cur :
      loaded st !! t = Some (now, cur) -> uuidStamp st = cur ->
      ustep st (MkUState (next_stamp cur now) (delete t (loaded st))
                  (claimed st ++ [next_stamp cur now]))
  | us_cas_fail st t now cur :
      loaded st !! t = Some (now, cur) -> uuidStamp st <> cur ->
      ustep st (MkUState (uuidStamp st) (delete t (loaded st)) (claimed st)).

Definition uinit : ustate := MkUState 0 ∅ [].

(** The identifier NewUUIDv7 lays out for a claimed stamp and 8 random bytes. *)
Definition NewUUIDv7 (nxt : Z) (rb : bytes) : UUID :=
  let ms := stamp_ms nxt in
  let c := stamp_counter nxt in
  let r i := nth i rb Byte.x00 in
  uuid_of
    [ z2b (Z.shiftr ms 40); z2b (Z.shiftr ms 32); z2b (Z.shiftr ms 24);
      z2b (Z.shiftr ms 16); z2b (Z.shiftr ms 8); z2b ms;
      z2b (Z.lor 0x70 (Z.land (Z.shiftr c 8) 0x0F)); z2b c;
      z2b (Z.lor 0x80 (Z.land (b2z (r 0%nat)) 0x3F));
      r 1%nat; r 2%nat; r 3%nat; r 4%nat; r 5%nat; r 6%nat; r 7%nat ].

(** ** The text form round-trips *)

Lemma hex_byte_decode x :
  (hexNibble (hexdigit (Z.shiftr (b2z x) 4)) =? 0xFF)
    || (hexNibble (hexdigit (Z.land (b2z x) 15)) =? 0xFF) = false /\
  z2b (Z.lor (Z.shiftl (hexNibble (hexdigit (Z.shiftr (b2z x) 4))) 4)
             (hexNibble (hexdigit (Z.land (b2z x) 15)))) = x.
Proof. destruct x; split; reflexivity. Qed.

Lemma parse_loop_hex s o offs x :
  nth o s Byte.x00 = hexdigit (Z.shiftr (b2z x) 4) ->
  nth (S o) s Byte.x00 = hexdigit (Z.land (b2z x) 15) ->
  parse_loop s (o :: offs) =
    match parse_loop s offs with Some u => Some (x :: u) | None => None end.
Proof.
  intros H1 H2. cbn [parse_loop]. rewrite H1, H2.
  destruct (hex_byte_decode x) as [-> ->]. done.
Qed.

(** ParseUUIDOk inverts String on every identifier. *)
Theorem parse_uuid_string u : ParseUUIDOk (UUID_String u) = Some u.
Proof.
  pose proof (length_ubytes u) as Hl.
  assert (H : exists s, UUID_String u = s /\ ParseUUIDOk s = Some (uuid_of (ubytes u))).
  2: { destruct H as (s & -> & ->). by rewrite uuid_of_ubytes. }
  unfold UUID_String, writeHyphenated.
  destruct (ubytes u) as [|x0 [|x1 [|x2 [|x3 [|x4 [|x5 [|x6 [|x7 [|x8 [|x9 [|x10 [|x11
    [|x12 [|x13 [|x14 [|x15 [|? ?]]]]]]]]]]]]]]]]]; try discriminate Hl. clear Hl.
  eexists. split; [reflexivity|].
  unfold ParseUUIDOk, uuidByteOff.
  cbn [slice take drop Nat.sub hex_encode flat_map app length Nat.eqb negb orb hyphen nth].
  cbn [lit String.list_byte_of_string app length Nat.eqb negb orb hyphen nth bool_decide].
  do 16 (erewrite parse_loop_hex by reflexivity). reflexivity.
Qed.

Lemma nibbles_join a b :
  0 <= a < 16 -> 0 <= b < 16 -> b2z (z2b (Z.lor (Z.shiftl a 4) b)) = a * 16 + b.
Proof.
  intros Ha Hb.
  pose proof (Z_range_check 16 (fun a => forallb (fun b =>
    b2z (z2b (Z.lor (Z.shiftl a 4) b)) =? a * 16 + b) (seqZ 0 16)) eq_refl a Ha) as H.
  cbv beta in H. apply (Z_range_check 16 _ H) in Hb. by apply Z.eqb_eq in Hb.
Qed.

Lemma hex_pair_lower c1 c2 :
  (hexNibble c1 =? 0xFF) || (hexNibble c2 =? 0xFF) = false ->
  let x := z2b (Z.lor (Z.shiftl (hexNibble c1) 4) (hexNibble c2)) in
  hexdigit (Z.shiftr (b2z x) 4) = byte_lower c1 /\
  hexdigit (Z.land (b2z x) 15) = byte_lower c2.
Proof.
  intros H x. apply orb_false_iff in H as [H1 H2].
  assert (Hn : forall c, (hexNibble c =? 0xFF) = false ->
             0 <= hexNibble c < 16 /\ hexdigit (hexNibble c) = byte_lower c).
  { intros c. destruct c; vm_compute; intros [=]; repeat split; congruence. }
  apply Hn in H1 as [R1 D1], H2 as [R2 D2].
  assert (E : b2z x = hexNibble c1 * 16 + hexNibble c2) by (by apply nibbles_join).
  rewrite E. split.
  - rewrite Z.shiftr_div_pow2 by lia. change (2 ^ 4) with 16.
    rewrite Z.div_add_l, (Z.div_small (hexNibble c2)), Z.add_0_r by lia. done.
  - change 15 with (Z.ones 4). rewrite Z.land_ones by lia. change (2 ^ 4) with 16.
    rewrite Z.add_comm, Z.mod_add, Z.mod_small by lia. done.
Qed.

(** One decoded byte re-encodes to the two characters it came from. *)
Lemma parse_loop_cons s o offs u :
  parse_loop s (o :: offs) = Some u ->
  exists x u', u = x :: u' /\ parse_loop s offs = Some u' /\
    hexdigit (Z.shiftr (b2z x) 4) = byte_lower (nth o s Byte.x00) /\
    hexdigit (Z.land (b2z x) 15) = byte_lower (nth (S o) s Byte.x00).
Proof.
  cbn [parse_loop].
  destruct (_ || _) eqn:E; [discriminate|].
  destruct (parse_loop s offs) as [u'|]; [|discriminate]. intros [= <-].
  eexists _, u'. split; [done|]. split; [done|]. by apply hex_pair_lower.
Qed.

Lemma hyphen_lower s i : hyphen s i = true -> byte_lower (nth i s Byte.x00) = Byte.x2d.
Proof. unfold hyphen. rewrite bool_decide_eq_true. by intros ->. Qed.

Lemma list_as_nths (s : bytes) : s = map (fun i => nth i s Byte.x00) (seq 0 (length s)).
Proof.
  induction s as [|x s IH]; [done|].
  cbn [length seq map nth]. f_equal. rewrite <- seq_shift, map_map. exact IH.
Qed.

(** Whatever ParseUUIDOk accepts is the canonical text of the result, up to
    letter case. *)
Theorem parse_uuid_accepts s u :
  ParseUUIDOk s = Some u -> UUID_String u = map byte_lower s.
Proof.
  unfold ParseUUIDOk. destruct (_ || _) eqn:E; [discriminate|].
  repeat (apply orb_false_iff in E as [E ?%negb_false_iff%hyphen_lower]).
  apply negb_false_iff, Nat.eqb_eq in E.
  destruct (parse_loop s uuidByteOff) as [b|] eqn:P; [|discriminate]. intros [= <-].
  rewrite (list_as_nths s), E, map_map. cbn [seq map].
  unfold uuidByteOff in P.
  do 16 (apply parse_loop_cons in P as (? & ? & -> & P & ?Hh & ?Hl)).
  injection P as [= <-].
  unfold UUID_String, writeHyphenated. rewrite ubytes_uuid_of by done.
  cbn [slice take drop Nat.sub hex_encode flat_map app lit String.list_byte_of_string].
  repeat match goal with H : _ = byte_lower _ |- _ => rewrite H; clear H end.
  repeat match goal with H : byte_lower _ = Byte.x2d |- _ => rewrite H; clear H end.
  reflexivity.
Qed.

(** ** The generator *)

Lemma land_ffff z : 0 <= z -> Z.land z 0xFFFF = z mod 65536.
Proof. intros. change 0xFFFF with (Z.ones 16). by rewrite Z.land_ones by lia. Qed.

Lemma split16 ms c : 0 <= c < 65536 -> 0 <= ms ->
  Z.shiftr (ms * 65536 + c) 16 = ms /\ Z.land (ms * 65536 + c) 0xFFFF = c.
Proof.
  intros Hc Hm. rewrite land_ffff by lia. rewrite Z.shiftr_div_pow2 by lia.
  change (2 ^ 16) with 65536. split.
  - rewrite Z.div_add_l, Z.div_small by lia. lia.
  - rewrite Z.add_comm, Z.mod_add, Z.mod_small by lia. done.
Qed.

(** A stamp word: 48-bit ms above a counter of at most 12 bits. *)
Definition stamp_at (w ms c : Z) : Prop :=
  w = ms * 65536 + c /\ 0 <= c <= 0x0FFF /\ 0 <= ms < 2 ^ 48.

Lemma stamp_at_fields w ms c :
  stamp_at w ms c -> stamp_ms w = ms /\ stamp_counter w = c.
Proof.
  intros (-> & Hc & Hm). unfold stamp_ms, stamp_counter.
  destruct (split16 ms c) as [-> ->]; [lia..|].
  split; [|done]. apply s64_idem. unfold in_s64. lia.
Qed.

(** The arithmetic of one successful iteration: strictly forward, the counter
    never leaves 12 bits, the ms advances by at most one past the clock. *)
Lemma next_stamp_step w ms c now :
  stamp_at w ms c -> ms < 2 ^ 48 - 1 -> - 2 ^ 63 <= now < 2 ^ 47 ->
  exists ms' c', stamp_at (next_stamp w now) ms' c' /\ w < next_stamp w now /\
    ms' <= Z.max now (ms + 1).
Proof.
  intros (-> & Hc & Hm) Hlt Hnow. unfold next_stamp.
  destruct (split16 ms c) as [E1 E2]; [lia..|]. rewrite E1.
  rewrite (s64_idem ms) by (unfold in_s64; lia).
  rewrite Z.gtb_ltb. destruct (Z.ltb_spec ms now) as [H|H].
  - exists now, 0. rewrite (u64_small now) by (unfold in_u64; lia).
    rewrite Z.shiftl_mul_pow2, u64_small by (unfold in_u64; lia).
    unfold stamp_at. lia.
  - rewrite (u64_small (_ + 1)) by (unfold in_u64; lia).
    replace (ms * 65536 + c + 1) with (ms * 65536 + (c + 1)) by lia.
    destruct (split16 ms (c + 1)) as [_ ->]; [lia..|].
    rewrite Z.gtb_ltb. destruct (Z.ltb_spec 0x0FFF (c + 1)) as [H1|H1].
    + exists (ms + 1), 0. rewrite Z.shiftl_mul_pow2, u64_small by (unfold in_u64; lia).
      unfold stamp_at. lia.
    + exists ms, (c + 1). unfold stamp_at. lia.
Qed.

(** What every reachable generator state satisfies. *)
Record uinv (st : ustate) : Prop := {
  ui_stamp : exists ms c, stamp_at (uuidStamp st) ms c /\
               ms <= 2 ^ 47 + Z.of_nat (length (claimed st));
  ui_clock : forall t now cur, loaded st !! t = Some (now, cur) -> - 2 ^ 63 <= now < 2 ^ 47;
  ui_sorted : StronglySorted Z.lt (claimed st);
  ui_below : Forall (fun n => n <= uuidStamp st /\ exists ms c, stamp_at n ms c) (claimed st);
}.

Lemma uinv_init : uinv uinit.
Proof.
  split; simpl.
  - exists 0, 0. unfold stamp_at. lia.
  - intros t now cur. rewrite lookup_empty. discriminate.
  - constructor.
  - constructor.
Qed.

Lemma StronglySorted_snoc (l : list Z) x :
  StronglySorted Z.lt l -> Forall (fun y => y < x) l -> StronglySorted Z.lt (l ++ [x]).
Proof.
  induction 1 as [|y l HS IH HF]; intros H; simpl; [repeat constructor|].
  inversion H; subst. constructor; [auto|].
  apply Forall_app. auto.
Qed.

Lemma uinv_step st st' :
  ustep st st' -> uinv st -> Z.of_nat (length (claimed st')) <= 2 ^ 46 -> uinv st'.
Proof.
  intros Hs [(ms & c & Hst & Hms) Hclock Hsort Hbelow] Hlen.
  destruct Hs as [st t now Hn | st t now cur Hl Hc | st t now cur Hl Hc]; simpl in *.
  - split; simpl; eauto.
    intros t' now' cur'. rewrite lookup_insert. case_decide; [|by apply Hclock].
    by intros [= <- <-].
  - subst cur. rewrite length_app in *. simpl in *.
    destruct (next_stamp_step _ ms c now Hst) as (ms' & c' & Hst' & Hlt & Hm');
      [lia | by eapply Hclock|].
    pose proof (Hclock _ _ _ Hl).
    split; simpl.
    + exists ms', c'. rewrite length_app. simpl. split; [done|lia].
    + intros t' now' cur' [_ H']%lookup_delete_Some. by eapply Hclock.
    + apply StronglySorted_snoc; [done|].
      eapply Forall_impl; [|exact Hbelow]; cbv beta. intros n [? _]. lia.
    + apply Forall_app. split; [|repeat constructor; eauto; lia].
      eapply Forall_impl; [|exact Hbelow]; cbv beta. intros n [? ?]. split; [lia|done].
  - split; simpl; eauto.
    intros t' now' cur' [_ H']%lookup_delete_Some. by eapply Hclock.
Qed.

Lemma ustep_claimed_len st st' :
  ustep st st' -> (length (claimed st) <= length (claimed st'))%nat.
Proof. destruct 1; simpl; rewrite ?length_app; lia. Qed.

Lemma ureach_inv st :
  rtc ustep uinit st -> Z.of_nat (length (claimed st)) <= 2 ^ 46 -> uinv st.
Proof.
  intros H. revert st H.
  refine (rtc_ind_r (fun st => Z.of_nat (length (claimed st)) <= 2 ^ 46 -> uinv st) uinit _ _).
  - intros _. apply uinv_init.
  - intros x y _ Hyz IH Hl. apply (uinv_step x y); [done| |done].
    apply IH. pose proof (ustep_claimed_len _ _ Hyz). lia.
Qed.

(** Stamps claimed by any interleaving of goroutines are strictly
    increasing in claim order, hence pairwise distinct, and well formed. *)
Theorem uuid_stamps_increasing st :
  rtc ustep uinit st -> Z.of_nat (length (claimed st)) <= 2 ^ 46 ->
  StronglySorted Z.lt (claimed st) /\
  Forall (fun n => in_u64 n /\ 0 <= stamp_counter n <= 0x0FFF) (claimed st).
Proof.
  intros Hr Hl. destruct (ureach_inv st Hr Hl) as [_ _ Hs Hb]. split; [done|].
  eapply Forall_impl; [|exact Hb]. intros n (_ & ms & c & H).
  destruct (stamp_at_fields _ _ _ H) as [_ ->]. destruct H as (-> & ? & ?).
  unfold in_u64. lia.
Qed.

Lemma be6 ms :
  [ z2b (Z.shiftr ms 40); z2b (Z.shiftr ms 32); z2b (Z.shiftr ms 24);
    z2b (Z.shiftr ms 16); z2b (Z.shiftr ms 8); z2b ms ] = be_put 6 ms.
Proof. cbv [be_put le_split rev app]. by rewrite !Z.shiftr_shiftr by lia. Qed.

Lemma version_byte c : 0 <= c <= 0x0FFF ->
  b2z (z2b (Z.lor 0x70 (Z.land (Z.shiftr c 8) 0x0F))) = 112 + c / 256 /\
  b2z (z2b c) = c mod 256.
Proof.
  intros Hc. rewrite !b2z_z2b. split; [|done].
  rewrite Z.shiftr_div_pow2 by lia. change (2 ^ 8) with 256.
  assert (H : 0 <= c / 256 < 16) by (split; [apply Z.div_pos | apply Z.div_lt_upper_bound]; lia).
  pose proof (Z_range_check 16 (fun d => Z.lor 0x70 (Z.land d 0x0F) mod 256 =? 112 + d)
    eq_refl _ H) as E. by apply Z.eqb_eq in E.
Qed.

(** The bytes of a generated identifier. *)
Lemma ubytes_NewUUIDv7 n rb :
  exists b8 rest, ubytes (NewUUIDv7 n rb) =
    be_put 6 (stamp_ms n) ++
    [ z2b (Z.lor 0x70 (Z.land (Z.shiftr (stamp_counter n) 8) 0x0F)); z2b (stamp_counter n) ] ++
    z2b (Z.lor 0x80 (Z.land (b2z b8) 0x3F)) :: rest.
Proof.
  unfold NewUUIDv7. rewrite ubytes_uuid_of by done. rewrite <- be6.
  cbn [app]. eauto.
Qed.

Lemma uuid_v7_order a b ra rb ms c ms' c' :
  stamp_at a ms c -> stamp_at b ms' c' -> a < b ->
  uuid_cmp (NewUUIDv7 a ra) (NewUUIDv7 b rb) = Lt.
Proof.
  intros Ha Hb Hlt. unfold uuid_cmp.
  destruct (ubytes_NewUUIDv7 a ra) as (x & p & ->).
  destruct (ubytes_NewUUIDv7 b rb) as (y & q & ->).
  destruct (stamp_at_fields _ _ _ Ha) as [-> ->], (stamp_at_fields _ _ _ Hb) as [-> ->].
  destruct Ha as (-> & ? & ?), Hb as (-> & ? & ?).
  rewrite bytes_cmp_app by (by rewrite !length_be_put).
  rewrite be_put_cmp by (simpl; lia).
  destruct (Z.compare_spec ms ms') as [<-|?|?]; [|done|lia].
  cbn [bytes_cmp app].
  destruct (version_byte c) as [V1 V2]; [lia|]. destruct (version_byte c') as [V3 V4]; [lia|].
  rewrite V1, V2, V3, V4.
  assert (Hcc : c < c') by lia. clear Hlt.
  pose proof (Z.div_mod c 256). pose proof (Z.div_mod c' 256).
  pose proof (Z.mod_pos_bound c 256). pose proof (Z.mod_pos_bound c' 256).
  destruct (Z.compare_spec (112 + c / 256) (112 + c' / 256)); [|done|lia].
  destruct (Z.compare_spec (c mod 256) (c' mod 256)); [lia|done|lia].
Qed.

Lemma uuid_v7_format n rb ms c : stamp_at n ms c -> IsV7 (NewUUIDv7 n rb) = true.
Proof.
  intros Hn. destruct (ubytes_NewUUIDv7 n rb) as (x & p & E).
  unfold IsV7, Version, ubyte. rewrite E. cbv [be_put le_split rev app nth].
  destruct (stamp_at_fields _ _ _ Hn) as [_ ->]. destruct Hn as (-> & Hc & _).
  destruct (version_byte c Hc) as [-> _].
  assert (H : 0 <= c / 256 < 16) by (split; [apply Z.div_pos | apply Z.div_lt_upper_bound]; lia).
  apply andb_true_iff. split.
  - by apply (Z_range_check 16 (fun d => Z.shiftr (112 + d) 4 =? 7) eq_refl _ H).
  - clear. destruct x; reflexivity.
Qed.

(** C36: identifiers generated by concurrent callers sort in claim order
    whatever the random tails are, and carry version 7 and the RFC variant. *)
Theorem uuid_v7_creation_order st i j a b ra rb :
  rtc ustep uinit st -> Z.of_nat (length (claimed st)) <= 2 ^ 46 ->
  claimed st !! i = Some a -> claimed st !! j = Some b -> (i < j)%nat ->
  uuid_cmp (NewUUIDv7 a ra) (NewUUIDv7 b rb) = Lt /\
  IsV7 (NewUUIDv7 a ra) = true /\ IsV7 (NewUUIDv7 b rb) = true.
Proof.
  intros Hr Hl Ha Hb Hij. destruct (ureach_inv st Hr Hl) as [_ _ Hs Hw].
  rewrite List.Forall_forall in Hw.
  destruct (Hw a) as (_ & ms & c & Sa). { by apply list_elem_of_In, list_elem_of_lookup_2 with i. }
  destruct (Hw b) as (_ & ms' & c' & Sb). { by apply list_elem_of_In, list_elem_of_lookup_2 with j. }
  assert (a < b).
  { clear -Hs Ha Hb Hij. revert i j Ha Hb Hij. induction Hs as [|x l HS IH HF]; [done|].
    intros [|i] [|j] Ha Hb Hij; simpl in *; try lia.
    - injection Ha as ->. rewrite List.Forall_forall in HF. apply HF.
      by apply list_elem_of_In, list_elem_of_lookup_2 with j.
    - apply (IH i j); [done..|lia]. }
  split; [by eapply uuid_v7_order|]. split; by eapply uuid_v7_format.
Qed.

(** ** A racing execution: two callers read the clock in the same millisecond
    and load the same word; one CAS fails and its caller retries. *)
Definition race_state : ustate :=
  MkUState (1000 * 65536 + 1) ∅ [1000 * 65536; 1000 * 65536 + 1].

Lemma race_reachable : rtc ustep uinit race_state.
Proof.
  eapply rtc_l; [apply (us_load _ 1 1000); lia|].
  eapply rtc_l; [apply (us_load _ 2 1000); lia|].
  eapply rtc_l; [eapply (us_cas_ok _ 1 1000 0); reflexivity|].
  eapply rtc_l; [eapply (us_cas_fail _ 2 1000 0); [reflexivity|discriminate]|].
  eapply rtc_l; [apply (us_load _ 2 1000); lia|].
  eapply rtc_l; [eapply (us_cas_ok _ 2 1000 (1000 * 65536)); reflexivity|].
  vm_compute. apply rtc_refl.
Qed.

Lemma uuid_stamps_increasing_witness :
  StronglySorted Z.lt (claimed race_state) /\
  Forall (fun n => in_u64 n /\ 0 <= stamp_counter n <= 0x0FFF) (claimed race_state).
Proof.
  apply (uuid_stamps_increasing race_state); [apply race_reachable | vm_compute; discriminate].
Defined.

Lemma uuid_v7_creation_order_witness :
  uuid_cmp (NewUUIDv7 (1000 * 65536) (replicate 8 Byte.xff)) (NewUUIDv7 (1000 * 65536 + 1) []) = Lt /\
  IsV7 (NewUUIDv7 (1000 * 65536) (replicate 8 Byte.xff)) = true /\
  IsV7 (NewUUIDv7 (1000 * 65536 + 1) []) = true.
Proof.
  apply (uuid_v7_creation_order race_state 0 1);
    [apply race_reachable | vm_compute; discriminate | reflexivity | reflexivity | lia].
Defined.

Lemma parse_uuid_accepts_witness :
  UUID_String (uuid_of (replicate 16 Byte.xab)) =
    map byte_lower (lit "ABababAB-abab-ABAB-abab-abababABABab").
Proof. apply parse_uuid_accepts. vm_compute. reflexivity. Defined.
