(* ===== verification/Value.v ===== *)
(** * Value: value.go — the packed 32-byte tagged union every cell is, its typed
    accessors, text form, comparison, equality and deep copy.

    A pointer is modelled by the bytes behind it ([None] is nil), so a payload
    read through [unsafe.String(ptr, w0)] is the first [w0] of them. *)
From S2P Require Import Prelude Bytes Uuid.

Inductive ValueKind : Type :=
  | KindNull | KindInt | KindString | KindBytes | KindBool | KindUUID.

#[export] Instance kind_eq_dec : EqDecision ValueKind.
Proof. solve_decision. Defined.

(** The iota values. *)
Definition kind_num (k : ValueKind) : Z :=
  match k with
  | KindNull => 0 | KindInt => 1 | KindString => 2
  | KindBytes => 3 | KindBool => 4 | KindUUID => 5
  end.

Record Value : Type := MkValue {
  Kind : ValueKind;
  w0 : Z;
  w1 : Z;
  ptr : option bytes;
}.

#[export] Instance value_eq_dec : EqDecision Value.
Proof. solve_decision. Defined.

Definition boolToWord (b : bool) : Z := if b then 1 else 0.

Definition Int (v : Z) : Value := MkValue KindInt (u64 v) 0 None.
Definition Bool (v : bool) : Value := MkValue KindBool (boolToWord v) 0 None.
Definition Str (v : bytes) : Value :=
  if (length v =? 0)%nat then MkValue KindString 0 0 None
  else MkValue KindString (u64 (Z.of_nat (length v))) 0 (Some v).
Definition Bytes (v : bytes) : Value :=
  if (length v =? 0)%nat then MkValue KindBytes 0 0 None
  else MkValue KindBytes (u64 (Z.of_nat (length v))) 0 (Some v).
Definition UUIDVal (u : UUID) : Value :=
  MkValue KindUUID (be_get (slice (ubytes u) 0 8)) (be_get (slice (ubytes u) 8 16)) None.
Definition Null : Value := MkValue KindNull 0 0 None.

(** Accessors. *)
Definition v_Int (v : Value) : Z := s64 (w0 v).
Definition v_Bool (v : Value) : bool := w0 v =? 1.
Definition v_Str (v : Value) : bytes :=
  match ptr v with None => [] | Some b => take (Z.to_nat (w0 v)) b end.
Definition v_Bytes (v : Value) : bytes :=
  match ptr v with None => [] | Some b => take (Z.to_nat (w0 v)) b end.
Definition v_UUID (v : Value) : UUID := uuid_of (be_put 8 (w0 v) ++ be_put 8 (w1 v)).
Definition uuidWords (v : Value) : Z * Z := (w0 v, w1 v).
Definition IsNull (v : Value) : bool := bool_decide (Kind v = KindNull).

(** strconv.FormatInt(v, 10) and strconv.ParseInt(s, 10, 64). Twenty digits hold
    every 64-bit magnitude. *)
Fixpoint digits (fuel : nat) (n : Z) (acc : bytes) : bytes :=
  match fuel with
  | O => acc
  | S fuel =>
      let acc := z2b (48 + n mod 10) :: acc in
      if n <? 10 then acc else digits fuel (n / 10) acc
  end.
Definition FormatInt (z : Z) : bytes :=
  if z <? 0 then lit "-" ++ digits 20 (- z) [] else digits 20 z [].

Fixpoint parse_digits (s : bytes) (acc : Z) : option Z :=
  match s with
  | [] => Some acc
  | c :: s =>
      let d := b2z c - 48 in
      if (0 <=? d) && (d <=? 9) then parse_digits s (acc * 10 + d) else None
  end.
Definition parse_mag (s : bytes) : option Z :=
  match s with [] => None | _ => parse_digits s 0 end.
Definition ParseInt (s : bytes) : outcome Z :=
  let '(neg, body) :=
    match s with
    | c :: r => if b2z c =? 45 then (true, r) else if b2z c =? 43 then (false, r) else (false, s)
    | [] => (false, s)
    end in
  match parse_mag body with
  | None => Err errParseInt
  | Some m =>
      let z := if neg : bool then - m else m in
      if (- 2 ^ 63 <=? z) && (z <? 2 ^ 63) then Ok z else Err errParseInt
  end.

Definition AsString (v : Value) : bytes :=
  match Kind v with
  | KindNull => []
  | KindInt => FormatInt (v_Int v)
  | KindString => v_Str v
  | KindBytes => v_Bytes v
  | KindUUID => UUID_String (v_UUID v)
  | KindBool => if v_Bool v then lit "true" else lit "false"
  end.

Definition AsInt (v : Value) : outcome Z :=
  match Kind v with
  | KindInt | KindBool => Ok (v_Int v)
  | KindString => ParseInt (v_Str v)
  | KindNull => Err errNullToInt
  | KindBytes | KindUUID => Err errKindToInt
  end.

(** The Go [int] of a [<]/[>] switch. *)
Definition Compare (v o : Value) : Z * bool :=
  if IsNull v || IsNull o then (0, false)
  else match Kind v, Kind o with
  | KindInt, KindInt | KindBool, KindBool => (cmpZ (v_Int v ?= v_Int o), true)
  | KindUUID, KindUUID =>
      if negb (w0 v =? w0 o) then (if w0 v <? w0 o then -1 else 1, true)
      else if negb (w1 v =? w1 o) then (if w1 v <? w1 o then -1 else 1, true)
      else (0, true)
  | KindBytes, KindBytes => (cmpZ (bytes_cmp (v_Bytes v) (v_Bytes o)), true)
  | KindString, KindString => (cmpZ (bytes_cmp (v_Str v) (v_Str o)), true)
  | _, _ => (cmpZ (bytes_cmp (AsString v) (AsString o)), true)
  end.

Definition Equal (v o : Value) : bool :=
  if bool_decide (Kind v <> Kind o) then false
  else match Kind v with
  | KindNull => true
  | KindInt | KindBool => w0 v =? w0 o
  | KindString => bool_decide (v_Str v = v_Str o)
  | KindBytes => bool_decide (v_Bytes v = v_Bytes o)
  | KindUUID => (w0 v =? w0 o) && (w1 v =? w1 o)
  end.

Abbreviation Row := (list Value).

Definition cloneBytes (b : bytes) : bytes := map (fun x => x) b.
Definition cloneValue (v : Value) : Value :=
  if bool_decide (Kind v = KindBytes) && bool_decide (ptr v <> None)
  then Bytes (cloneBytes (v_Bytes v)) else v.
Definition Row_Clone (r : Row) : Row := map cloneValue r.
Definition appendRowClone (dst : list Value) (r : Row) : list Value :=
  fold_left (fun dst v => dst ++ [cloneValue v]) r dst.
Fixpoint appendProjectClone (dst : list Value) (r : Row) (ords : list nat) : outcome (list Value) :=
  match ords with
  | [] => Ok dst
  | ord :: ords => v ← index r ord; appendProjectClone (dst ++ [cloneValue v]) r ords
  end.

(** ** Well-formed cells: exactly what the constructors build *)
Inductive value_ok : Value -> Prop :=
  | ok_null : value_ok Null
  | ok_int z : in_s64 z -> value_ok (Int z)
  | ok_bool b : value_ok (Bool b)
  | ok_str s : Z.of_nat (length s) < 2 ^ 63 -> value_ok (Str s)
  | ok_bytes s : Z.of_nat (length s) < 2 ^ 63 -> value_ok (Bytes s)
  | ok_uuid u : value_ok (UUIDVal u).

#[export] Hint Constructors value_ok : haze.

Lemma v_Int_Int z : in_s64 z -> v_Int (Int z) = z.
Proof. apply s64_u64. Qed.

Lemma v_Str_Str s : Z.of_nat (length s) < 2 ^ 63 -> v_Str (Str s) = s.
Proof.
  intros H. unfold v_Str, Str. destruct s as [|c s]; [done|]. cbn -[u64 Z.of_nat].
  apply take_ge. rewrite u64_small by (unfold in_u64; simpl length in *; lia). simpl. lia.
Qed.

Lemma v_Bytes_Bytes s : Z.of_nat (length s) < 2 ^ 63 -> v_Bytes (Bytes s) = s.
Proof.
  intros H. unfold v_Bytes, Bytes. destruct s as [|c s]; [done|]. cbn -[u64 Z.of_nat].
  apply take_ge. rewrite u64_small by (unfold in_u64; simpl length in *; lia). simpl. lia.
Qed.

Lemma v_Bool_Bool b : v_Bool (Bool b) = b.
Proof. by destruct b. Qed.

Lemma uuid_halves u :
  ubytes u = slice (ubytes u) 0 8 ++ slice (ubytes u) 8 16 /\
  length (slice (ubytes u) 0 8) = 8%nat /\ length (slice (ubytes u) 8 16) = 8%nat.
Proof.
  pose proof (length_ubytes u) as H. unfold slice.
  rewrite !length_take, !length_drop. split; [|lia].
  rewrite drop_0. change (16 - 8)%nat with 8%nat. change (8 - 0)%nat with 8%nat.
  rewrite (take_ge (drop 8 _)) by (rewrite length_drop; lia). by rewrite take_drop.
Qed.

Lemma v_UUID_UUIDVal u : v_UUID (UUIDVal u) = u.
Proof.
  unfold v_UUID, UUIDVal. cbn [w0 w1]. destruct (uuid_halves u) as (E & H0 & H1).
  pose proof (be_put_get (slice (ubytes u) 0 8)) as P0. rewrite H0 in P0.
  pose proof (be_put_get (slice (ubytes u) 8 16)) as P1. rewrite H1 in P1.
  rewrite P0, P1, <- E. apply uuid_of_ubytes.
Qed.

Lemma UUIDVal_words a b :
  w0 (UUIDVal a) = w0 (UUIDVal b) -> w1 (UUIDVal a) = w1 (UUIDVal b) -> UUIDVal a = UUIDVal b.
Proof. unfold UUIDVal. cbn [w0 w1]. by intros -> ->. Qed.

Lemma Kind_Str s : Kind (Str s) = KindString.
Proof. unfold Str. by destruct (length s =? 0)%nat. Qed.
Lemma Kind_Bytes s : Kind (Bytes s) = KindBytes.
Proof. unfold Bytes. by destruct (length s =? 0)%nat. Qed.

#[export] Hint Rewrite v_Str_Str v_Bytes_Bytes v_Int_Int v_Bool_Bool v_UUID_UUIDVal
  Kind_Str Kind_Bytes : haze.

(** Kind decides the constructor. *)
Lemma value_ok_kind v : value_ok v ->
  match Kind v with
  | KindNull => v = Null
  | KindInt => in_s64 (v_Int v) /\ v = Int (v_Int v)
  | KindBool => v = Bool (v_Bool v)
  | KindString => v = Str (v_Str v) /\ Z.of_nat (length (v_Str v)) < 2 ^ 63
  | KindBytes => v = Bytes (v_Bytes v) /\ Z.of_nat (length (v_Bytes v)) < 2 ^ 63
  | KindUUID => v = UUIDVal (v_UUID v)
  end.
Proof.
  destruct 1; rewrite ?Kind_Str, ?Kind_Bytes; cbn [Kind Int Bool Null UUIDVal]; auto.
  - rewrite v_Int_Int; auto.
  - by rewrite v_Bool_Bool.
  - rewrite v_Str_Str; auto.
  - rewrite v_Bytes_Bytes; auto.
  - by rewrite v_UUID_UUIDVal.
Qed.

Lemma cloneValue_ok v : value_ok v -> cloneValue v = v.
Proof.
  intros H. unfold cloneValue. destruct (bool_decide_reflect (Kind v = KindBytes)); [|done].
  apply value_ok_kind in H. rewrite e in H. destruct H as [H _].
  cbn [andb]. case_bool_decide; [|done]. unfold cloneBytes. rewrite map_id. by symmetry.
Qed.

Lemma Row_Clone_ok r : Forall value_ok r -> Row_Clone r = r.
Proof.
  induction 1 as [|v r Hv Hr IH]; [done|]. cbn [Row_Clone map] in *.
  rewrite cloneValue_ok by done. unfold Row_Clone in IH. by rewrite IH.
Qed.

(** Well-formed cells are equal for the code exactly when they are equal. *)
Lemma Equal_spec v o : value_ok v -> value_ok o -> Equal v o = true <-> v = o.
Proof.
  intros Hv%value_ok_kind Ho%value_ok_kind. unfold Equal.
  destruct (decide (Kind v = Kind o)) as [E|E].
  2: { rewrite bool_decide_true by done. split; [done|congruence]. }
  rewrite bool_decide_false by (intros C; by apply C).
  rewrite <- E in Ho.
  assert (S : v = o -> (w0 v =? w0 o) = true /\ (w1 v =? w1 o) = true).
  { intros ->. by rewrite !Z.eqb_refl. }
  destruct (Kind v).
  - rewrite Hv, Ho. done.
  - destruct Hv as [_ Hv], Ho as [_ Ho]. split; [|intros; by apply S].
    intros ?%Z.eqb_eq. rewrite Hv, Ho. unfold v_Int. by f_equal; f_equal.
  - rewrite bool_decide_eq_true. destruct Hv as [Hv _], Ho as [Ho _].
    split; [|by intros ->]. intros H. by rewrite Hv, Ho, H.
  - rewrite bool_decide_eq_true. destruct Hv as [Hv _], Ho as [Ho _].
    split; [|by intros ->]. intros H. by rewrite Hv, Ho, H.
  - split; [|intros; by apply S]. intros H%Z.eqb_eq. rewrite Hv, Ho. unfold v_Bool. by rewrite H.
  - rewrite andb_true_iff. split; [|auto].
    intros [H0%Z.eqb_eq H1%Z.eqb_eq]. rewrite Hv, Ho. unfold v_UUID. by rewrite H0, H1.
Qed.

(** ** Comparison of same-kind cells *)

(** UUID words compare like the 16 bytes. *)
Lemma uuid_words_cmp u u' :
  uuid_cmp u u' =
    match w0 (UUIDVal u) ?= w0 (UUIDVal u') with
    | Eq => w1 (UUIDVal u) ?= w1 (UUIDVal u')
    | c => c
    end.
Proof.
  unfold uuid_cmp, UUIDVal. cbn [w0 w1].
  destruct (uuid_halves u) as (E & H0 & H1), (uuid_halves u') as (E' & H0' & H1').
  rewrite E at 1. rewrite E' at 1. rewrite bytes_cmp_app by congruence.
  assert (G : forall a b, length a = 8%nat -> length b = 8%nat ->
            bytes_cmp a b = (be_get a ?= be_get b)).
  { intros a b Ha Hb. rewrite <- (be_put_get a) at 1. rewrite <- (be_put_get b) at 1.
    rewrite Ha, Hb. pose proof (be_get_range a). pose proof (be_get_range b).
    rewrite Ha, Hb in *. by apply be_put_cmp. }
  by rewrite !G.
Qed.

(** The order the storage engine sorts by, on cells of one kind. *)
Definition vcmp (v o : Value) : comparison :=
  match Kind v with
  | KindNull => Eq
  | KindInt | KindBool => v_Int v ?= v_Int o
  | KindString => bytes_cmp (v_Str v) (v_Str o)
  | KindBytes => bytes_cmp (v_Bytes v) (v_Bytes o)
  | KindUUID => uuid_cmp (v_UUID v) (v_UUID o)
  end.

Lemma Compare_vcmp v o :
  value_ok v -> value_ok o -> Kind v = Kind o -> Kind v <> KindNull ->
  Compare v o = (cmpZ (vcmp v o), true).
Proof.
  intros Hv Ho E N. unfold Compare, vcmp, IsNull.
  rewrite !bool_decide_false by congruence. cbn [orb]. rewrite <- E.
  apply value_ok_kind in Hv, Ho. rewrite <- E in Ho.
  destruct (Kind v); try done. rewrite Hv, Ho, !v_UUID_UUIDVal, uuid_words_cmp.
  remember (w0 (UUIDVal (v_UUID v))) as a. remember (w0 (UUIDVal (v_UUID o))) as a'.
  remember (w1 (UUIDVal (v_UUID v))) as b. remember (w1 (UUIDVal (v_UUID o))) as b'.
  clear.
  destruct (Z.eqb_spec a a') as [->|]; cbn [negb]; [rewrite Z.compare_refl|].
  - destruct (Z.eqb_spec b b') as [->|]; cbn [negb]; [by rewrite Z.compare_refl|].
    destruct (Z.ltb_spec b b'), (Z.compare_spec b b'); try lia; done.
  - destruct (Z.ltb_spec a a'), (Z.compare_spec a a'); try lia; done.
Qed.

Lemma Kind_inv v : value_ok v -> Kind v = KindBool -> v_Int v = boolToWord (v_Bool v).
Proof. intros H E. apply value_ok_kind in H. rewrite E in H. rewrite H. by destruct (v_Bool v). Qed.

Lemma vcmp_eq v o : value_ok v -> value_ok o -> Kind v = Kind o -> vcmp v o = Eq <-> v = o.
Proof.
  intros Hv Ho E. split; [|intros ->; unfold vcmp; destruct (Kind o);
    by rewrite ?Z.compare_refl, ?tc_refl].
  pose proof (Kind_inv v Hv) as Bv. pose proof (Kind_inv o Ho) as Bo. unfold vcmp.
  apply value_ok_kind in Hv, Ho. rewrite <- E in Ho, Bo. destruct (Kind v).
  - congruence.
  - rewrite Z.compare_eq_iff. destruct Hv as [_ Hv], Ho as [_ Ho]. congruence.
  - rewrite tc_eq. destruct Hv as [Hv _], Ho as [Ho _]. congruence.
  - rewrite tc_eq. destruct Hv as [Hv _], Ho as [Ho _]. congruence.
  - rewrite Z.compare_eq_iff, Bv, Bo by done. rewrite Hv, Ho, !v_Bool_Bool.
    destruct (v_Bool v), (v_Bool o); done.
  - rewrite tc_eq. congruence.
Qed.

Lemma vcmp_anti v o : Kind v = Kind o -> vcmp o v = CompOpp (vcmp v o).
Proof.
  intros E. unfold vcmp. rewrite <- E.
  destruct (Kind v); try done; try apply tc_anti; by rewrite Z.compare_antisym.
Qed.

Lemma vcmp_trans v o x : Kind v = Kind o ->
  vcmp v o = Lt -> vcmp o x = Lt -> vcmp v x = Lt.
Proof.
  intros E. unfold vcmp. rewrite <- E.
  destruct (Kind v); try done; apply tc_trans.
Qed.

(** C37: on non-NULL cells of one kind Compare always answers, agrees with
    Equal, is antisymmetric and transitive: a total order. *)
Theorem compare_total_order v o x :
  value_ok v -> value_ok o -> value_ok x ->
  Kind v = Kind o -> Kind o = Kind x -> Kind v <> KindNull ->
  snd (Compare v o) = true /\
  (fst (Compare v o) = 0 <-> Equal v o = true) /\
  fst (Compare o v) = - fst (Compare v o) /\
  (fst (Compare v o) < 0 -> fst (Compare o x) < 0 -> fst (Compare v x) < 0).
Proof.
  intros Hv Ho Hx E1 E2 N.
  rewrite !Compare_vcmp by congruence. cbn [fst snd].
  split; [done|]. split; [|split].
  - rewrite Equal_spec, <- (vcmp_eq v o) by done. by destruct (vcmp v o).
  - rewrite (vcmp_anti v o) by done. by destruct (vcmp v o).
  - intros H1%cmpZ_lt H2%cmpZ_lt. by rewrite (vcmp_trans v o x).
Qed.

Lemma compare_total_order_witness :
  snd (Compare (Int (-5)) (Int 3)) = true /\
  (fst (Compare (Int (-5)) (Int 3)) = 0 <-> Equal (Int (-5)) (Int 3) = true) /\
  fst (Compare (Int 3) (Int (-5))) = - fst (Compare (Int (-5)) (Int 3)) /\
  (fst (Compare (Int (-5)) (Int 3)) < 0 -> fst (Compare (Int 3) (Int 9)) < 0 ->
   fst (Compare (Int (-5)) (Int 9)) < 0).
Proof.
  apply compare_total_order; try (apply ok_int; unfold in_s64; lia); done.
Defined.

(** ** Integer text *)

Lemma parse_digits_app s t acc :
  parse_digits (s ++ t) acc =
    match parse_digits s acc with Some a => parse_digits t a | None => None end.
Proof.
  revert acc. induction s as [|c s IH]; intros acc; simpl; [done|].
  destruct (_ && _); [apply IH|done].
Qed.

Lemma parse_digit d acc t : 0 <= d < 10 ->
  parse_digits (z2b (48 + d) :: t) acc = parse_digits t (acc * 10 + d).
Proof.
  intros H. cbn [parse_digits]. rewrite b2z_z2b, (Z.mod_small (48 + d)) by lia.
  replace (48 + d - 48) with d by lia.
  destruct (Z.leb_spec 0 d), (Z.leb_spec d 9); lia || done.
Qed.

(** The digits come out most significant first, after whatever follows. *)
Lemma digits_parse fuel n acc m :
  0 <= n < 10 ^ Z.of_nat fuel -> (0 < fuel)%nat -> parse_digits (digits fuel n acc) m =
    parse_digits acc (m * 10 ^ Z.of_nat (length (digits fuel n acc) - length acc) + n) /\
    (length acc < length (digits fuel n acc))%nat /\
    exists c r, digits fuel n acc = c :: r /\ 48 <= b2z c <= 57.
Proof.
  revert n acc m. induction fuel as [|fuel IH]; [lia|]. intros n acc m Hn _.
  cbn [digits]. assert (0 <= n mod 10 < 10) by (apply Z.mod_pos_bound; lia). destruct (Z.ltb_spec n 10) as [Hs|Hs].
  - rewrite parse_digit by done. rewrite Z.mod_small by lia. cbn [length].
    replace (S (length acc) - length acc)%nat with 1%nat by lia.
    change (10 ^ Z.of_nat 1) with 10. split; [done|]. split; [lia|].
    eexists _, _. split; [done|]. rewrite b2z_z2b, Z.mod_small; lia.
  - assert (Hf : (0 < fuel)%nat) by (destruct fuel; [simpl in Hn; lia|lia]).
    assert (Hd : 0 <= n / 10 < 10 ^ Z.of_nat fuel).
    { replace (Z.of_nat (S fuel)) with (1 + Z.of_nat fuel) in Hn by lia.
      rewrite Z.pow_add_r in Hn by lia.
      split; [apply Z.div_pos; lia | apply Z.div_lt_upper_bound; lia]. }
    destruct (IH (n / 10) (z2b (48 + n mod 10) :: acc) m Hd Hf) as (-> & L & R).
    rewrite parse_digit by done. cbn [length] in *. split; [|split; [lia|done]].
    f_equal. set (D := digits _ _ _) in *.
    replace (length D - length acc)%nat with (S (length D - S (length acc))) by lia.
    rewrite Nat2Z.inj_succ, Z.pow_succ_r by lia.
    pose proof (Z.div_mod n 10). lia.
Qed.

Lemma parse_mag_digits n : 0 <= n < 10 ^ 20 -> parse_mag (digits 20 n []) = Some n.
Proof.
  intros H. destruct (digits_parse 20 n [] 0) as (E & _ & c & r & E2 & _); [done|lia|].
  rewrite E2 in *. cbn [parse_mag]. rewrite E. by rewrite Z.mul_0_l.
Qed.

Lemma digits_length fuel n acc : (length (digits fuel n acc) <= fuel + length acc)%nat.
Proof.
  revert n acc. induction fuel as [|f IH]; intros n a; [simpl; lia|].
  cbn [digits]. destruct (_ <? _); [simpl; lia|]. rewrite IH. simpl. lia.
Qed.

Lemma FormatInt_length z : (length (FormatInt z) <= 21)%nat.
Proof.
  unfold FormatInt. pose proof (digits_length 20 z []). pose proof (digits_length 20 (- z) []).
  destruct (z <? 0); rewrite ?length_app; change (length (lit "-")) with 1%nat;
    change (length (@nil Init.Byte.byte)) with 0%nat in *; lia.
Qed.

Lemma ParseInt_minus b :
  ParseInt (lit "-" ++ b) =
    match parse_mag b with
    | Some m => if (- 2 ^ 63 <=? - m) && (- m <? 2 ^ 63) then Ok (- m) else Err errParseInt
    | None => Err errParseInt
    end.
Proof. reflexivity. Qed.

Lemma ParseInt_digit c r : 48 <= b2z c <= 57 ->
  ParseInt (c :: r) =
    match parse_mag (c :: r) with
    | Some m => if (- 2 ^ 63 <=? m) && (m <? 2 ^ 63) then Ok m else Err errParseInt
    | None => Err errParseInt
    end.
Proof.
  intros H. unfold ParseInt. destruct (Z.eqb_spec (b2z c) 45); [lia|].
  destruct (Z.eqb_spec (b2z c) 43); [lia|]. done.
Qed.

Lemma ParseInt_FormatInt z : in_s64 z -> ParseInt (FormatInt z) = Ok z.
Proof.
  unfold in_s64. intros Hz. unfold FormatInt. destruct (Z.ltb_spec z 0) as [Hn|Hn].
  - rewrite ParseInt_minus, parse_mag_digits, Z.opp_involutive by lia.
    destruct (Z.leb_spec (- 2 ^ 63) z), (Z.ltb_spec z (2 ^ 63)); lia || done.
  - destruct (digits_parse 20 z [] 0) as (_ & _ & c & r & E & Hc); [lia..|].
    pose proof (parse_mag_digits z) as P. rewrite E in *.
    rewrite ParseInt_digit, P by lia.
    destruct (Z.leb_spec (- 2 ^ 63) z), (Z.ltb_spec z (2 ^ 63)); lia || done.
Qed.

(** An int64 formatted by AsString reads back through AsInt. *)
Theorem int_text_roundtrip z : in_s64 z -> AsInt (Str (AsString (Int z))) = Ok z.
Proof.
  intros Hz. unfold AsInt, AsString. rewrite Kind_Str. cbn [Kind Int].
  change (MkValue KindInt (u64 z) 0 None) with (Int z). rewrite v_Int_Int by done.
  rewrite v_Str_Str; [by apply ParseInt_FormatInt|]. pose proof (FormatInt_length z). lia.
Qed.

Lemma int_text_roundtrip_witness :
  in_s64 (- 2 ^ 63) /\ AsInt (Str (AsString (Int (- 2 ^ 63)))) = Ok (- 2 ^ 63).
Proof. split; [unfold in_s64; lia | apply int_text_roundtrip; unfold in_s64; lia]. Defined.
