(* ===== verification/CompositeKey.v ===== *)
(** * CompositeKey: composite_key.go and the [indexKey] type of secindex.go —
    comparable encodings of indexed cells, scalar and composite, and the proof
    that key order is value order. *)
From S2P Require Import Prelude Bytes Uuid Value.

Record indexKey : Type := MkKey {
  ik_kind : ValueKind;
  ik_w0 : Z;
  ik_w1 : Z;
  ik_s : bytes;
}.

#[export] Instance indexKey_eq_dec : EqDecision indexKey.
Proof. solve_decision. Defined.

Definition kind_of_num (n : Z) : ValueKind :=
  if n =? 1 then KindInt else if n =? 2 then KindString else if n =? 3 then KindBytes
  else if n =? 4 then KindBool else if n =? 5 then KindUUID else KindNull.

#[export] Instance indexKey_countable : Countable indexKey.
Proof.
  refine (inj_countable'
    (fun k => (kind_num (ik_kind k), ik_w0 k, ik_w1 k, ik_s k))
    (fun '(a, b, c, d) => MkKey (kind_of_num a) b c d) _).
  by intros [[] ? ? ?].
Defined.

Definition keyOf (v : Value) : indexKey :=
  match Kind v with
  | KindInt => MkKey KindInt (u64 (v_Int v)) 0 []
  | KindBool => MkKey KindBool (if v_Bool v then 1 else 0) 0 []
  | KindString => MkKey KindString 0 0 (v_Str v)
  | KindBytes => MkKey KindBytes 0 0 (v_Bytes v)
  | KindUUID => let '(hi, lo) := uuidWords v in MkKey KindUUID hi lo []
  | KindNull => MkKey KindNull 0 0 []
  end.

Definition less (k o : indexKey) : bool :=
  match ik_kind k with
  | KindInt | KindBool => s64 (ik_w0 k) <? s64 (ik_w0 o)
  | KindUUID =>
      if negb (ik_w0 k =? ik_w0 o) then ik_w0 k <? ik_w0 o else ik_w1 k <? ik_w1 o
  | _ => bytes_ltb (ik_s k) (ik_s o)
  end.

(** appendEscapedTerminated: the chunked-copy loop over [i], carrying the grown
    buffer and the start of the pending span. *)
Definition esc_step (s : bytes) (st : bytes * nat) (i : nat) : bytes * nat :=
  let '(buf, last) := st in
  if bool_decide (nth i s Byte.x00 = Byte.x00)
  then (buf ++ slice s last i ++ [Byte.x00; Byte.xff], S i) else (buf, last).
Definition appendEscapedTerminated (buf s : bytes) : bytes :=
  let '(buf, last) := fold_left (esc_step s) (seq 0 (length s)) (buf, 0%nat) in
  buf ++ drop last s ++ [Byte.x00; Byte.x00].

Definition appendOrderedColumn (buf : bytes) (v : Value) : bytes :=
  match Kind v with
  | KindInt => buf ++ be_put 8 (Z.lxor (u64 (v_Int v)) (Z.shiftl 1 63))
  | KindBool => if v_Bool v then buf ++ [Byte.x01] else buf ++ [Byte.x00]
  | KindUUID => let '(hi, lo) := uuidWords v in buf ++ be_put 8 hi ++ be_put 8 lo
  | KindString => appendEscapedTerminated buf (v_Str v)
  | KindBytes => appendEscapedTerminated buf (v_Bytes v)
  | KindNull => buf
  end.

Definition encodeCompositeKeyInto (buf : bytes) (vals : list Value) : indexKey * bytes :=
  let buf := fold_left appendOrderedColumn vals (take 0 buf) in
  (MkKey KindBytes 0 0 buf, buf).
Definition encodeCompositeKey (vals : list Value) : indexKey :=
  fst (encodeCompositeKeyInto [] vals).

(** keyFromCells of an index over [nord] ordinals. *)
Definition keyFromCellsInto (nord : nat) (cells : list Value) (buf : bytes)
  : outcome (indexKey * bool * bytes) :=
  if (nord =? 1)%nat then
    c0 ← index cells 0;
    if IsNull c0 then Ok (MkKey KindNull 0 0 [], false, buf) else Ok (keyOf c0, true, buf)
  else if existsb IsNull cells then Ok (MkKey KindNull 0 0 [], false, buf)
  else let '(k, buf) := encodeCompositeKeyInto buf cells in Ok (k, true, buf).
Definition keyFromCells (nord : nat) (cells : list Value) : outcome (indexKey * bool) :=
  r ← keyFromCellsInto nord cells []; Ok (fst r).

(** ** The escape loop against its byte-at-a-time reading *)
Definition esc1 (c : Init.Byte.byte) : bytes :=
  if bool_decide (c = Byte.x00) then [Byte.x00; Byte.xff] else [c].
Definition esc (s : bytes) : bytes := flat_map esc1 s.

Lemma slice_snoc (s : bytes) lo i : (lo <= i < length s)%nat ->
  slice s lo (S i) = slice s lo i ++ [nth i s Byte.x00].
Proof.
  intros H. unfold slice. replace (S i - lo)%nat with (S (i - lo)) by lia.
  apply take_S_r. rewrite lookup_drop. replace (lo + (i - lo))%nat with i by lia.
  rewrite nth_lookup. destruct (lookup_lt_is_Some_2 s i) as [x ->]; [lia|done].
Qed.

Lemma esc_loop s buf i : (i <= length s)%nat ->
  exists b last, fold_left (esc_step s) (seq 0 i) (buf, 0%nat) = (b, last) /\
    (last <= i)%nat /\ b ++ slice s last i = buf ++ esc (take i s).
Proof.
  induction i as [|i IH]; intros Hi.
  - exists buf, 0%nat. split; [done|]. split; [lia|done].
  - destruct IH as (b & last & E & Hl & Hb); [lia|].
    rewrite seq_S, fold_left_app, E. cbn [fold_left esc_step]. rewrite Nat.add_0_l.
    assert (T : take (S i) s = take i s ++ [nth i s Byte.x00]).
    { pose proof (slice_snoc s 0 i) as T. unfold slice in T. rewrite drop_0, !Nat.sub_0_r in T.
      apply T. lia. }
    rewrite T. unfold esc in *. rewrite flat_map_app, (app_assoc buf), <- Hb.
    cbn [flat_map]. rewrite app_nil_r. unfold esc1. case_bool_decide as Z0.
    + exists (b ++ slice s last i ++ [Byte.x00; Byte.xff]), (S i).
      split; [done|]. split; [lia|]. unfold slice at 2. rewrite Nat.sub_diag, take_0, app_nil_r.
      by rewrite app_assoc.
    + exists b, last. split; [done|]. split; [lia|].
      rewrite slice_snoc by lia. by rewrite app_assoc.
Qed.

Lemma appendEscapedTerminated_esc buf s :
  appendEscapedTerminated buf s = buf ++ esc s ++ [Byte.x00; Byte.x00].
Proof.
  unfold appendEscapedTerminated.
  destruct (esc_loop s buf (length s)) as (b & last & -> & Hl & Hb); [lia|].
  unfold slice in Hb. rewrite (take_ge (drop last s)), take_ge in Hb
    by (rewrite ?length_drop; lia).
  by rewrite !app_assoc, Hb.
Qed.

Lemma esc_cmp a b x y :
  bytes_cmp (esc a ++ Byte.x00 :: Byte.x00 :: x) (esc b ++ Byte.x00 :: Byte.x00 :: y) =
    match bytes_cmp a b with Eq => bytes_cmp x y | c => c end.
Proof.
  assert (P : forall c : Init.Byte.byte, c <> Byte.x00 -> 0 < b2z c).
  { intros c Hc. pose proof (b2z_range c). destruct (decide (b2z c = 0)) as [E|]; [|lia].
    destruct Hc. by apply b2z_inj. }
  revert b. induction a as [|c a IH]; intros [|d b]; cbn [esc flat_map app] in *.
  - done.
  - unfold esc1. case_bool_decide; [done|]. cbn [app bytes_cmp].
    change (b2z Byte.x00) with 0. pose proof (P d ltac:(assumption)). destruct (Z.compare_spec 0 (b2z d)); lia || done.
  - unfold esc1. case_bool_decide; [done|]. cbn [app bytes_cmp].
    change (b2z Byte.x00) with 0. pose proof (P c ltac:(assumption)). destruct (Z.compare_spec (b2z c) 0); lia || done.
  - unfold esc1 at 1 3. cbn [bytes_cmp].
    repeat case_bool_decide; subst; cbn [app bytes_cmp];
      rewrite ?Z.compare_refl; cbv iota; try apply IH;
      change (b2z Byte.x00) with 0.
    + pose proof (P d ltac:(assumption)). destruct (Z.compare_spec 0 (b2z d)); lia || done.
    + pose proof (P c ltac:(assumption)). destruct (Z.compare_spec (b2z c) 0); lia || done.
    + destruct (b2z c ?= b2z d); auto.
Qed.

(** ** Order preservation *)

(** Cells an index may hold: well formed and not NULL. *)
Definition indexable (v : Value) : Prop := value_ok v /\ Kind v <> KindNull.

(** Two tuples of the same column types. *)
Definition same_columns (vs os : list Value) : Prop :=
  Forall2 (fun v o => indexable v /\ indexable o /\ Kind v = Kind o) vs os.

Lemma flip_sign z : in_s64 z -> Z.lxor (u64 z) (Z.shiftl 1 63) = z + 2 ^ 63.
Proof.
  intros H. unfold in_s64 in H. change (Z.shiftl 1 63) with (2 ^ 63).
  assert (L : forall a, 0 <= a < 2 ^ 63 -> Z.lxor a (2 ^ 63) = a + 2 ^ 63).
  { intros a Ha. symmetry. apply Z.add_nocarry_lxor. apply Z.bits_inj'. intros n Hn.
    rewrite Z.land_spec, Z.bits_0, Z.pow2_bits_eqb by lia.
    destruct (Z.eqb_spec 63 n) as [<-|]; [|by rewrite andb_false_r].
    rewrite andb_true_r. apply Z.bits_above_log2; [lia|].
    destruct (decide (a = 0)) as [->|]; [done|]. apply Z.log2_lt_pow2; lia. }
  destruct (Z.le_gt_cases 0 z).
  - rewrite u64_small by (unfold in_u64; lia). apply L. lia.
  - assert (E : u64 z = (z + 2 ^ 63) + 2 ^ 63).
    { unfold u64. rewrite <- (Z.mod_add z 1), Z.mod_small by lia. lia. }
    rewrite E, <- (L (z + 2 ^ 63)) by lia.
    by rewrite Z.lxor_assoc, Z.lxor_nilpotent, Z.lxor_0_r.
Qed.

Lemma appendOrderedColumn_buf buf v :
  appendOrderedColumn buf v = buf ++ appendOrderedColumn [] v.
Proof.
  unfold appendOrderedColumn. destruct (Kind v); rewrite ?appendEscapedTerminated_esc;
    [by rewrite app_nil_r | done.. | by destruct (v_Bool v) | done].
Qed.

Lemma column_cmp v o x y :
  indexable v -> indexable o -> Kind v = Kind o ->
  bytes_cmp (appendOrderedColumn [] v ++ x) (appendOrderedColumn [] o ++ y) =
    match vcmp v o with Eq => bytes_cmp x y | c => c end.
Proof.
  intros [Hv N] [Ho _] E. pose proof (Kind_inv v Hv) as Bv. pose proof (Kind_inv o Ho) as Bo.
  unfold appendOrderedColumn, vcmp.
  apply value_ok_kind in Hv, Ho. rewrite <- E in Ho, Bo |- *. destruct (Kind v).
  - done.
  - destruct Hv as [Rv Hv], Ho as [Ro Ho]. rewrite !app_nil_l.
    rewrite bytes_cmp_app by (by rewrite !length_be_put).
    rewrite !flip_sign by done. unfold in_s64 in *. rewrite be_put_cmp by (simpl; lia).
    destruct (Z.compare_spec (v_Int v + 2 ^ 63) (v_Int o + 2 ^ 63)),
      (Z.compare_spec (v_Int v) (v_Int o)); lia || done.
  - rewrite !appendEscapedTerminated_esc, !app_nil_l, <- !app_assoc. apply esc_cmp.
  - rewrite !appendEscapedTerminated_esc, !app_nil_l, <- !app_assoc. apply esc_cmp.
  - rewrite Bv, Bo by done. by destruct (v_Bool v), (v_Bool o).
  - rewrite Hv, Ho, !v_UUID_UUIDVal, uuid_words_cmp. unfold uuidWords. cbn [app].
    assert (R : forall u, 0 <= w0 (UUIDVal u) < 2 ^ 64 /\ 0 <= w1 (UUIDVal u) < 2 ^ 64).
    { intros u. unfold UUIDVal. cbn [w0 w1]. destruct (uuid_halves u) as (_ & H0 & H1).
      pose proof (be_get_range (slice (ubytes u) 0 8)) as P0. rewrite H0 in P0.
      pose proof (be_get_range (slice (ubytes u) 8 16)) as P1. rewrite H1 in P1.
      split; [exact P0|exact P1]. }
    rewrite <- !app_assoc. destruct (R (v_UUID v)), (R (v_UUID o)).
    rewrite bytes_cmp_app by (by rewrite !length_be_put).
    rewrite be_put_cmp by assumption.
    destruct (_ ?= _); [|done..].
    rewrite bytes_cmp_app by (by rewrite !length_be_put).
    by rewrite be_put_cmp by assumption.
Qed.

(** Column-by-column comparison of tuples. *)
Fixpoint tuple_cmp (vs os : list Value) : comparison :=
  match vs, os with
  | v :: vs, o :: os => match vcmp v o with Eq => tuple_cmp vs os | c => c end
  | _, _ => Eq
  end.

Lemma encode_fold buf vs :
  fold_left appendOrderedColumn vs buf = buf ++ fold_left appendOrderedColumn vs [].
Proof.
  revert buf. induction vs as [|v vs IH]; intros buf; simpl; [by rewrite app_nil_r|].
  rewrite IH, (IH (appendOrderedColumn [] v)), (appendOrderedColumn_buf buf v).
  by rewrite app_assoc.
Qed.

Definition encoding (vs : list Value) : bytes := ik_s (encodeCompositeKey vs).

Lemma encoding_cons v vs : encoding (v :: vs) = appendOrderedColumn [] v ++ encoding vs.
Proof. unfold encoding, encodeCompositeKey. simpl. apply encode_fold. Qed.

Lemma encoding_app vs os : encoding (vs ++ os) = encoding vs ++ encoding os.
Proof.
  induction vs as [|v vs IH]; [done|]. simpl app. by rewrite !encoding_cons, IH, app_assoc.
Qed.

Lemma encoding_cmp vs os x y : same_columns vs os ->
  bytes_cmp (encoding vs ++ x) (encoding os ++ y) =
    match tuple_cmp vs os with Eq => bytes_cmp x y | c => c end.
Proof.
  induction 1 as [|v o vs os (Hv & Ho & E) HF IH]; [done|].
  rewrite !encoding_cons, <- !app_assoc, column_cmp by done. cbn [tuple_cmp].
  destruct (vcmp v o); done.
Qed.

Lemma tuple_cmp_eq vs os : same_columns vs os -> tuple_cmp vs os = Eq <-> vs = os.
Proof.
  induction 1 as [|v o vs os ([Hv _] & [Ho _] & E) HF IH]; [done|]. cbn [tuple_cmp].
  pose proof (vcmp_eq v o Hv Ho E) as V.
  destruct (vcmp v o); [rewrite IH|..]; split; try congruence.
  - intros ->. f_equal. by apply V.
  - intros [= -> ->]. by apply V.
  - intros [= -> ->]. by apply V.
Qed.

(** C35: the composite encoding is order-preserving and injective on tuples of
    the same column types. *)
Theorem composite_key_order vs os : same_columns vs os ->
  (less (encodeCompositeKey vs) (encodeCompositeKey os) = true <-> tuple_cmp vs os = Lt) /\
  (encodeCompositeKey vs = encodeCompositeKey os <-> vs = os).
Proof.
  intros H. pose proof (encoding_cmp vs os [] [] H) as C. rewrite !app_nil_r in C.
  split.
  - change (less (encodeCompositeKey vs) (encodeCompositeKey os))
      with (bytes_ltb (encoding vs) (encoding os)).
    unfold bytes_ltb. rewrite C.
    by destruct (tuple_cmp vs os).
  - split; [|by intros ->]. intros E. apply tuple_cmp_eq; [done|].
    assert (E' : encoding vs = encoding os) by (unfold encoding; by rewrite E).
    rewrite <- tc_eq in E'. rewrite C in E'. by destruct (tuple_cmp vs os).
Qed.

Lemma prefix_iff vs p :
  same_columns (take (length p) vs) p ->
  has_prefix (encoding vs) (encoding p) = true <-> take (length p) vs = p.
Proof.
  intros H. rewrite has_prefix_spec.
  assert (D : encoding vs = encoding (take (length p) vs) ++ encoding (drop (length p) vs))
    by (by rewrite <- encoding_app, take_drop).
  rewrite D. split.
  - intros [r E]. apply tuple_cmp_eq; [done|]. rewrite <- tc_eq in E.
    rewrite encoding_cmp in E by done. by destruct (tuple_cmp _ _).
  - intros ->. eauto.
Qed.

(** A key starts with the encoding of a shorter tuple exactly when its
    leading columns are that tuple, which prefix lookups rely on. *)
Theorem composite_key_prefix vs p :
  same_columns (take (length p) vs) p ->
  has_prefix (encoding vs) (encoding p) = true <-> take (length p) vs = p.
Proof. apply prefix_iff. Qed.

(** A scalar index orders its keys as Compare orders the cells, and two
    cells share a key exactly when they are Equal. *)
Theorem scalar_key_order v o :
  indexable v -> indexable o -> Kind v = Kind o ->
  (less (keyOf v) (keyOf o) = true <-> fst (Compare v o) = -1) /\
  (keyOf v = keyOf o <-> Equal v o = true).
Proof.
  intros [Hv N] [Ho N'] E. rewrite Equal_spec, Compare_vcmp by done. cbn [fst].
  assert (L : cmpZ (vcmp v o) = -1 <-> vcmp v o = Lt) by (by destruct (vcmp v o)).
  rewrite L. clear L.
  pose proof (Kind_inv v Hv) as Bv. pose proof (Kind_inv o Ho) as Bo.
  apply value_ok_kind in Hv, Ho. unfold less, keyOf, vcmp.
  rewrite <- E in Ho, Bo |- *. destruct (Kind v) eqn:K; [done|..]; cbn [ik_kind ik_w0 ik_w1 ik_s].
  - destruct Hv as [Rv Hv], Ho as [Ro Ho]. rewrite !s64_u64, Z.ltb_lt, Z.compare_lt_iff by done.
    split; [done|]. split; [|congruence]. intros [= H].
    rewrite Hv, Ho. unfold Int. by rewrite H.
  - unfold bytes_ltb. destruct Hv as [Hv _], Ho as [Ho _].
    split; [by destruct (bytes_cmp _ _)|]. split; congruence.
  - unfold bytes_ltb. destruct Hv as [Hv _], Ho as [Ho _].
    split; [by destruct (bytes_cmp _ _)|]. split; congruence.
  - rewrite Bv, Bo by done. rewrite Hv, Ho, !v_Bool_Bool.
    by destruct (v_Bool v), (v_Bool o).
  - rewrite Hv, Ho, !v_UUID_UUIDVal, uuid_words_cmp.
    unfold uuidWords. cbn [ik_kind ik_w0 ik_w1]. split.
    + set (a := w0 (UUIDVal (v_UUID v))). set (b := w0 (UUIDVal (v_UUID o))).
      destruct (Z.eqb_spec a b) as [->|]; cbn [negb].
      * by rewrite Z.compare_refl, Z.ltb_lt, Z.compare_lt_iff.
      * rewrite Z.ltb_lt. destruct (Z.compare_spec a b); split; done || lia.
    + split; [|by intros ->]. intros H. apply UUIDVal_words.
      * exact (f_equal ik_w0 H).
      * exact (f_equal ik_w1 H).
Qed.

Lemma composite_key_order_witness :
  let vs := [Str [Byte.x61]; Int (-1)] in let os := [Str [Byte.x61; Byte.x00]; Int (-7)] in
  (less (encodeCompositeKey vs) (encodeCompositeKey os) = true <-> tuple_cmp vs os = Lt) /\
  (encodeCompositeKey vs = encodeCompositeKey os <-> vs = os).
Proof.
  apply composite_key_order.
  repeat constructor; try discriminate; unfold in_s64; simpl; lia.
Defined.

Lemma composite_key_prefix_witness :
  has_prefix (encoding [Str [Byte.x61]; Int 4]) (encoding [Str [Byte.x61]]) = true <->
  take (length [Str [Byte.x61]]) [Str [Byte.x61]; Int 4] = [Str [Byte.x61]].
Proof.
  apply composite_key_prefix.
  repeat constructor; try discriminate; unfold in_s64; simpl; lia.
Defined.

Lemma scalar_key_order_witness :
  (less (keyOf (Int (-3))) (keyOf (Int 2)) = true <-> fst (Compare (Int (-3)) (Int 2)) = -1) /\
  (keyOf (Int (-3)) = keyOf (Int 2) <-> Equal (Int (-3)) (Int 2) = true).
Proof.
  apply scalar_key_order; [split; [apply ok_int; unfold in_s64; lia|discriminate]..|done].
Defined.
