(* ===== verification/PkMap.v ===== *)
(** * PkMap: pkmap.go — the per-shard PK index, a linear-probed open-addressed
    table with backward-shift deletion, and its refinement of a finite map.

    Slot indices are naturals; a probe loop takes the table length as fuel, and
    the theorems show it always answers within it. [None] is a loop that would
    not end (or an index out of range). The per-process hash seed is a
    parameter: nothing below depends on its value. *)
From S2P Require Import Prelude Bytes Uuid.

Record pkSlot : Type := MkSlot { key : UUID; ref : Z }.

Record pkMap : Type := MkPkMap {
  slots : list pkSlot;
  shift : Z;
  used : Z;
}.

Definition emptySlot : pkSlot := MkSlot zeroUUID 0.
Definition pk_empty : pkMap := MkPkMap [] 0 0.

(** bits.RotateLeft64(b, 32) and bits.Len. *)
Definition rotl32 (b : Z) : Z := u64 (Z.lor (Z.shiftl b 32) (Z.shiftr b 32)).
Definition bitsLen (n : Z) : Z := if n =? 0 then 0 else Z.log2 n + 1.

Section pkmap.
Context (pkHashSeed : Z).

Definition pkHome (k : UUID) (shift : Z) : nat :=
  let a := le_get (slice (ubytes k) 0 8) in
  let b := le_get (slice (ubytes k) 8 16) in
  Z.to_nat (Z.shiftr (u64 (Z.lxor (Z.lxor a (rotl32 b)) pkHashSeed * 0xBF58476D1CE4E5B9)) shift).

(** [i = (i + 1) & mask] *)
Definition next (n i : nat) : nat := Nat.land (i + 1) (n - 1).

(** The probe loop shared by get, find, reserve and grow: the first slot from
    [i] on which the loop body returns. *)
Fixpoint scan (fuel : nat) (sl : list pkSlot) (stop : pkSlot -> bool) (i : nat)
  : option (nat * pkSlot) :=
  match fuel with
  | O => None
  | S fuel =>
      s ← sl !! i;
      if stop s then Some (i, s) else scan fuel sl stop (next (length sl) i)
  end.

Definition is_empty (s : pkSlot) : bool := ref s =? 0.
Definition stop_at (k : UUID) (s : pkSlot) : bool := is_empty s || bool_decide (key s = k).

Definition shift_of (n : nat) : Z := u8 (64 - bitsLen (Z.of_nat n - 1)).

Fixpoint init_size (fuel : nat) (n : nat) (hint : Z) : option nat :=
  if 4 * hint >? 3 * Z.of_nat n
  then match fuel with O => None | S fuel => init_size fuel (2 * n) hint end
  else Some n.
Definition pk_init (m : pkMap) (hint : Z) : option pkMap :=
  n ← init_size 64 16 hint;
  Some (MkPkMap (replicate n emptySlot) (shift_of n) (used m)).

Definition pk_get (m : pkMap) (k : UUID) : option (Z * bool) :=
  if (length (slots m) =? 0)%nat then Some (0, false)
  else
    r ← scan (length (slots m)) (slots m) (stop_at k) (pkHome k (shift m));
    Some (if is_empty (snd r) then (0, false) else (ref (snd r) - 1, true)).

Definition pk_find (m : pkMap) (k : UUID) : option (nat * Z * bool) :=
  if (length (slots m) =? 0)%nat then Some (0%nat, 0, false)
  else
    r ← scan (length (slots m)) (slots m) (stop_at k) (pkHome k (shift m));
    Some (if is_empty (snd r) then (0%nat, 0, false) else (fst r, ref (snd r) - 1, true)).

(** One step of grow's reinsertion loop. *)
Definition reinsert (sh : Z) (sl : option (list pkSlot)) (s : pkSlot) : option (list pkSlot) :=
  sl ← sl;
  if is_empty s then Some sl
  else r ← scan (length sl) sl is_empty (pkHome (key s) sh); Some (<[fst r := s]> sl).
Definition pk_grow (m : pkMap) : option pkMap :=
  let n := if (length (slots m) * 2 <? 16)%nat then 16%nat else (length (slots m) * 2)%nat in
  let sh := shift_of n in
  sl ← fold_left (reinsert sh) (slots m) (Some (replicate n emptySlot));
  Some (MkPkMap sl sh (used m)).

Definition pk_reserve (m : pkMap) (k : UUID) : option (pkMap * nat * bool) :=
  m ← (if 4 * (used m + 1) >? 3 * Z.of_nat (length (slots m)) then pk_grow m else Some m);
  r ← scan (length (slots m)) (slots m) (stop_at k) (pkHome k (shift m));
  Some (m, fst r, negb (is_empty (snd r))).

Definition pk_commit (m : pkMap) (slot : nat) (k : UUID) (rowID : Z) : pkMap :=
  MkPkMap (<[slot := MkSlot k (u64 (rowID + 1))]> (slots m)) (shift m) (used m + 1).

Definition pk_put (m : pkMap) (k : UUID) (rowID : Z) : option pkMap :=
  r ← pk_reserve m k;
  let '(m, slot, found) := r in
  Some (MkPkMap (<[slot := MkSlot k (u64 (rowID + 1))]> (slots m)) (shift m)
    (if found : bool then used m else used m + 1)).

(** delAt's loop: [i] is the gap, [j] the last slot looked at. *)
Fixpoint shift_back (fuel : nat) (sl : list pkSlot) (sh : Z) (i j : nat)
  : option (list pkSlot * nat) :=
  match fuel with
  | O => None
  | S fuel =>
      let j := next (length sl) j in
      s ← sl !! j;
      if is_empty s then Some (sl, i)
      else
        let h := pkHome (key s) sh in
        if ((i <? j)%nat && ((h <=? i)%nat || (j <? h)%nat))
           || ((j <? i)%nat && ((h <=? i)%nat && (j <? h)%nat))
        then shift_back fuel (<[i := s]> sl) sh j j
        else shift_back fuel sl sh i j
  end.
Definition pk_delAt (m : pkMap) (i : nat) : option pkMap :=
  r ← shift_back (length (slots m)) (slots m) (shift m) i i;
  Some (MkPkMap (<[snd r := emptySlot]> (fst r)) (shift m) (used m - 1)).

Definition pk_del (m : pkMap) (k : UUID) : option (pkMap * Z * bool) :=
  r ← pk_find m k;
  let '(i, rowID, ok) := r in
  if negb ok then Some (m, 0, false)
  else m ← pk_delAt m i; Some (m, rowID, true).

(** ** Cyclic distance *)
Definition dist (n a b : nat) : nat := if (a <=? b)%nat then (b - a)%nat else (b + n - a)%nat.

Lemma next_succ p i : (i < 2 ^ p)%nat ->
  next (2 ^ p) i = if (i + 1 =? 2 ^ p)%nat then 0%nat else (i + 1)%nat.
Proof.
  intros H. unfold next. replace (2 ^ p - 1)%nat with (Nat.ones p)
    by (rewrite Nat.ones_equiv; lia).
  rewrite Nat.land_ones. destruct (Nat.eqb_spec (i + 1) (2 ^ p)) as [->|].
  - apply Nat.Div0.mod_same.
  - apply Nat.mod_small. lia.
Qed.

Ltac cyc := unfold dist in *;
  repeat match goal with
  | |- context [(?a <=? ?b)%nat] => destruct (Nat.leb_spec a b)
  | H : context [(?a <=? ?b)%nat] |- _ => destruct (Nat.leb_spec a b)
  | |- context [(?a =? ?b)%nat] => destruct (Nat.eqb_spec a b)
  | H : context [(?a =? ?b)%nat] |- _ => destruct (Nat.eqb_spec a b)
  end; lia.

(** ** Probing *)
Section table.
Context (p : nat).
Local Abbreviation N := (2 ^ p)%nat.

(** The scan stops at the first stopping slot in cyclic order. *)
Lemma scan_first sl stop fuel i e s :
  length sl = N -> (i < N)%nat -> sl !! e = Some s -> stop s = true ->
  (dist N i e < fuel)%nat ->
  exists q t, scan fuel sl stop i = Some (q, t) /\ sl !! q = Some t /\ stop t = true /\
    (q < N)%nat /\
    forall x u, sl !! x = Some u -> (dist N i x < dist N i q)%nat -> stop u = false.
Proof.
  intros Hl Hi He Hs. revert i Hi. induction fuel as [|fuel IH]; intros i Hi Hd; [lia|].
  cbn [scan]. destruct (lookup_lt_is_Some_2 sl i) as [u Hu]; [lia|].
  rewrite Hu. cbn [mbind option_bind]. destruct (stop u) eqn:Eu.
  - exists i, u. repeat split; try done. intros x v _. cyc.
  - assert (He' : (e < N)%nat) by (apply lookup_lt_Some in He; lia).
    assert (e <> i) by congruence. rewrite Hl, next_succ by done.
    destruct (IH (if (i + 1 =? N)%nat then 0 else i + 1)%nat) as (q & t & -> & Hq & Ht & Hqn & Hall).
    { cyc. } { cyc. }
    exists q, t. repeat split; try done. intros x v Hx Hdx.
    destruct (decide (x = i)) as [->|]; [congruence|].
    assert ((x < N)%nat) by (apply lookup_lt_Some in Hx; lia).
    assert (q <> i) by congruence. apply (Hall x v Hx). cyc.
Qed.

Context (home : UUID -> nat) (Hhome : forall k, (home k < N)%nat).

Definition full (sl : list pkSlot) (x : nat) : Prop :=
  exists s, sl !! x = Some s /\ ref s <> 0.

(** Every occupied slot is reachable from its home without meeting an empty
    one. *)
Definition chained (sl : list pkSlot) (x : nat) (s : pkSlot) : Prop :=
  forall y, (y < N)%nat -> (dist N (home (key s)) y < dist N (home (key s)) x)%nat -> full sl y.

Definition occupied (sl : list pkSlot) : nat := length (filter (fun s => ref s <> 0) sl).

(** The table [sl] represents the map [g]. *)
Record tbl (sl : list pkSlot) (g : gmap UUID Z) : Prop := {
  t_len : length sl = N;
  t_chain x s : sl !! x = Some s -> ref s <> 0 -> chained sl x s;
  t_val x s : sl !! x = Some s -> ref s <> 0 -> g !! key s = Some (ref s - 1);
  t_uniq x y s t : sl !! x = Some s -> sl !! y = Some t -> ref s <> 0 -> ref t <> 0 ->
    key s = key t -> x = y;
  t_all k r : g !! k = Some r -> exists x s, sl !! x = Some s /\ ref s <> 0 /\ key s = k;
  t_count : occupied sl = size g;
}.

Lemma occupied_insert sl x s s' : sl !! x = Some s ->
  (occupied (<[x := s']> sl) + (if decide (ref s <> 0%Z) then 1 else 0) =
   occupied sl + (if decide (ref s' <> 0%Z) then 1 else 0))%nat.
Proof.
  intros H. unfold occupied. rewrite <- (take_drop_middle sl x s H) at 2.
  rewrite insert_take_drop by (by eapply lookup_lt_Some).
  rewrite !list.filter_app, !length_app, !list.filter_cons.
  destruct (decide (ref s <> 0)), (decide (ref s' <> 0)); simpl; lia.
Qed.

Lemma empty_exists sl : (occupied sl < length sl)%nat ->
  exists e s, sl !! e = Some s /\ ref s = 0.
Proof.
  unfold occupied. induction sl as [|s sl IH]; simpl; [lia|].
  rewrite list.filter_cons. destruct (decide (ref s <> 0)) as [n|n].
  - simpl. intros. destruct IH as (e & t & H1 & H2); [lia|]. by exists (S e), t.
  - intros _. exists 0%nat, s. split; [done|]. destruct (Z.eq_dec (ref s) 0); [done|].
    by exfalso; apply n.
Qed.

Lemma is_empty_true s : is_empty s = true <-> ref s = 0.
Proof. apply Z.eqb_eq. Qed.
Lemma is_empty_false s : is_empty s = false <-> ref s <> 0.
Proof. apply Z.eqb_neq. Qed.

(** What the key probe of get, find and reserve finds. *)
Lemma scan_key sl g k :
  tbl sl g -> (size g < N)%nat ->
  exists q t, scan (length sl) sl (stop_at k) (home k) = Some (q, t) /\
    sl !! q = Some t /\ (q < N)%nat /\
    match g !! k with
    | Some r => ref t <> 0 /\ key t = k /\ ref t - 1 = r
    | None => ref t = 0 /\
        forall y, (y < N)%nat -> (dist N (home k) y < dist N (home k) q)%nat -> full sl y
    end.
Proof.
  intros T Hsz. pose proof (t_len _ _ T) as Hl.
  destruct (empty_exists sl) as (e & s0 & He & Hs0); [rewrite (t_count _ _ T); lia|].
  destruct (scan_first sl (stop_at k) (length sl) (home k) e s0) as (q & t & E & Hq & Ht & Hqn & Hall);
    [done|done|done|unfold stop_at, is_empty; by rewrite Hs0| |].
  { apply lookup_lt_Some in He. pose proof (Hhome k). cyc. }
  exists q, t. split; [done|]. split; [done|]. split; [done|].
  assert (Hstop : forall u, stop_at k u = true -> ref u <> 0 -> key u = k).
  { intros u [Hu%is_empty_true|Hu]%orb_true_iff Hn; [done|]. by apply bool_decide_eq_true in Hu. }
  destruct (g !! k) as [r|] eqn:Hk.
  - destruct (t_all _ _ T k r Hk) as (x & s & Hx & Hs & Hks).
    assert (Hd : (dist N (home k) q <= dist N (home k) x)%nat).
    { destruct (Nat.le_gt_cases (dist N (home k) q) (dist N (home k) x)) as [|C]; [done|].
      pose proof (Hall x s Hx C) as F. unfold stop_at in F. rewrite Hks in F.
      rewrite bool_decide_true, orb_true_r in F by done. done. }
    assert (q = x) as ->.
    { destruct (decide (q = x)) as [|Hne]; [done|].
      assert ((x < N)%nat) by (apply lookup_lt_Some in Hx; lia). pose proof (Hhome k).
      destruct (t_chain _ _ T x s Hx Hs q Hqn) as (t' & Ht' & Hr').
      { rewrite Hks. cyc. }
      rewrite Hq in Ht'. injection Ht' as <-.
      apply (t_uniq _ _ T q x t s); try done. rewrite Hks. auto. }
    rewrite Hx in Hq. injection Hq as <-. split; [done|]. split; [done|].
    pose proof (t_val _ _ T x s Hx Hs) as V. rewrite Hks, Hk in V. congruence.
  - assert (Ht0 : ref t = 0).
    { destruct (Z.eq_dec (ref t) 0) as [|Hn]; [done|].
      pose proof (t_val _ _ T q t Hq Hn) as V. rewrite (Hstop t Ht Hn), Hk in V. done. }
    split; [done|]. intros y Hy Hd.
    destruct (lookup_lt_is_Some_2 sl y) as [u Hu]; [lia|].
    pose proof (Hall y u Hu Hd) as F. apply orb_false_iff in F as [F _].
    exists u. split; [done|]. by apply is_empty_false.
Qed.

Lemma full_insert sl x s y : (x < length sl)%nat -> ref s <> 0 -> full sl y -> full (<[x := s]> sl) y.
Proof.
  intros Hx Hs (t & Ht & Hr). destruct (decide (x = y)) as [<-|].
  - exists s. by rewrite list_lookup_insert_eq.
  - exists t. by rewrite list_lookup_insert_ne.
Qed.

(** Filling the empty slot a probe miss returned. *)
Lemma tbl_fill sl g k rr q t :
  tbl sl g -> g !! k = None -> sl !! q = Some t -> ref t = 0 -> rr <> 0 ->
  (forall y, (y < N)%nat -> (dist N (home k) y < dist N (home k) q)%nat -> full sl y) ->
  tbl (<[q := MkSlot k rr]> sl) (<[k := rr - 1]> g).
Proof.
  intros T Hk Hq Ht Hrr Hfull. pose proof (lookup_lt_Some _ _ _ Hq) as Hql.
  assert (Hother : forall x s, sl !! x = Some s -> ref s <> 0 -> key s <> k).
  { intros x s Hx Hs E. pose proof (t_val _ _ T x s Hx Hs) as V. congruence. }
  split.
  - rewrite length_insert. apply (t_len _ _ T).
  - intros x s Hx Hs y Hy Hd. apply full_insert; [done..|].
    apply list_lookup_insert_Some in Hx as [(<- & <- & _)|(Hne & Hx)].
    + by apply Hfull.
    + by apply (t_chain _ _ T x s).
  - intros x s [(<- & <- & _)|(Hne & Hx)]%list_lookup_insert_Some Hs; simpl.
    + by rewrite lookup_insert_eq.
    + rewrite lookup_insert_ne by (symmetry; by eapply Hother). by eapply (t_val _ _ T).
  - intros x y s u [(<- & <- & _)|(Hne & Hx)]%list_lookup_insert_Some
      [(<- & <- & _)|(Hne' & Hy)]%list_lookup_insert_Some Hs Hu; simpl; intros E.
    + done.
    + destruct (Hother y u); congruence.
    + destruct (Hother x s); congruence.
    + by apply (t_uniq _ _ T x y s u).
  - intros k' r. rewrite lookup_insert_Some. intros [[<- <-]|[Hne Hg]].
    + exists q, (MkSlot k rr). by rewrite list_lookup_insert_eq.
    + destruct (t_all _ _ T k' r Hg) as (x & s & Hx & Hs & E). exists x, s.
      rewrite list_lookup_insert_ne; [done|]. intros <-. congruence.
  - pose proof (occupied_insert sl q t (MkSlot k rr) Hq) as O. simpl in O.
    rewrite (t_count _ _ T) in O. rewrite map_size_insert_None by done.
    rewrite decide_False in O by (by intros C; apply C). rewrite decide_True in O by done. lia.
Qed.

(** Overwriting the entry a probe hit returned. *)
Lemma tbl_overwrite sl g q t rr :
  tbl sl g -> sl !! q = Some t -> ref t <> 0 -> rr <> 0 ->
  tbl (<[q := MkSlot (key t) rr]> sl) (<[key t := rr - 1]> g).
Proof.
  intros T Hq Ht Hrr. pose proof (lookup_lt_Some _ _ _ Hq) as Hql.
  assert (Hother : forall x s, sl !! x = Some s -> ref s <> 0 -> x <> q -> key s <> key t).
  { intros x s Hx Hs Hne E. apply Hne. by apply (t_uniq _ _ T x q s t). }
  split.
  - rewrite length_insert. apply (t_len _ _ T).
  - intros x s Hx Hs y Hy Hd. apply full_insert; [done..|].
    apply list_lookup_insert_Some in Hx as [(<- & <- & _)|(Hne & Hx)].
    + by apply (t_chain _ _ T q t).
    + by apply (t_chain _ _ T x s).
  - intros x s [(<- & <- & _)|(Hne & Hx)]%list_lookup_insert_Some Hs; simpl.
    + by rewrite lookup_insert_eq.
    + rewrite lookup_insert_ne by (intros E; by apply (Hother x s)). by eapply (t_val _ _ T).
  - intros x y s u [(<- & <- & _)|(Hne & Hx)]%list_lookup_insert_Some
      [(<- & <- & _)|(Hne' & Hy)]%list_lookup_insert_Some Hs Hu; simpl; intros E.
    + done.
    + by destruct (Hother y u); auto.
    + by destruct (Hother x s); auto.
    + by apply (t_uniq _ _ T x y s u).
  - intros k' r. rewrite lookup_insert_Some. intros [[<- <-]|[Hne Hg]].
    + exists q, (MkSlot (key t) rr). by rewrite list_lookup_insert_eq.
    + destruct (t_all _ _ T k' r Hg) as (x & s & Hx & Hs & E). exists x, s.
      rewrite list_lookup_insert_ne; [done|]. intros <-. congruence.
  - pose proof (occupied_insert sl q t (MkSlot (key t) rr) Hq) as O. simpl in O.
    rewrite (t_count _ _ T) in O.
    rewrite map_size_insert_Some by (rewrite (t_val _ _ T q t) by done; done).
    rewrite !decide_True in O by done. lia.
Qed.

Lemma tbl_replicate : tbl (replicate N emptySlot) ∅.
Proof.
  assert (R : forall x s, replicate N emptySlot !! x = Some s -> ref s = 0)
    by (intros x s [-> _]%lookup_replicate; done).
  split.
  - apply length_replicate.
  - intros x s Hx Hs. destruct Hs. by eapply R.
  - intros x s Hx Hs. destruct Hs. by eapply R.
  - intros x y s t Hx Hy Hs. destruct Hs. by eapply R.
  - intros k r. rewrite lookup_empty. done.
  - unfold occupied. generalize N. induction n as [|n IH]; [done|]. simpl.
    rewrite list.filter_cons_False by (intros C; by apply C). done.
Qed.

(** ** Backward-shift deletion

    While delAt runs, slot [i] is a gap that still holds a stale entry, and the
    slots after the gap up to [j] have been looked at. *)
Record holed (sl : list pkSlot) (g : gmap UUID Z) (i j : nat) : Prop := {
  ho_len : length sl = N;
  ho_gap : full sl i;
  ho_chain x s : sl !! x = Some s -> ref s <> 0 -> x <> i -> chained sl x s;
  ho_val x s : sl !! x = Some s -> ref s <> 0 -> x <> i -> g !! key s = Some (ref s - 1);
  ho_uniq x y s t : sl !! x = Some s -> sl !! y = Some t -> ref s <> 0 -> ref t <> 0 ->
    x <> i -> y <> i -> key s = key t -> x = y;
  ho_all k r : g !! k = Some r -> exists x s, sl !! x = Some s /\ ref s <> 0 /\ x <> i /\ key s = k;
  ho_count : occupied sl = S (size g);
  ho_seen x s : sl !! x = Some s -> ref s <> 0 -> x <> i -> (dist N i x <= dist N i j)%nat ->
    ~ (dist N (home (key s)) i < dist N (home (key s)) x)%nat;
}.

Lemma lookup_N (sl : list pkSlot) x s : length sl = N -> sl !! x = Some s -> (x < N)%nat.
Proof. intros Hl Hx. apply lookup_lt_Some in Hx. lia. Qed.

Lemma tbl_holed sl g i s :
  tbl sl g -> sl !! i = Some s -> ref s <> 0 -> holed sl (delete (key s) g) i i.
Proof.
  intros T Hi Hs. pose proof (t_len _ _ T) as Hl.
  assert (Hother : forall x t, sl !! x = Some t -> ref t <> 0 -> x <> i -> key t <> key s).
  { intros x t Hx Ht Hne E. apply Hne. by apply (t_uniq _ _ T x i t s). }
  split.
  - done.
  - by exists s.
  - intros x t Hx Ht _. by apply (t_chain _ _ T x t).
  - intros x t Hx Ht Hne. rewrite lookup_delete_ne by (intros E; by apply (Hother x t)).
    by apply (t_val _ _ T x t).
  - intros x y t u Hx Hy Ht Hu _ _ E. by apply (t_uniq _ _ T x y t u).
  - intros k r [Hne Hg]%lookup_delete_Some. destruct (t_all _ _ T k r Hg) as (x & t & Hx & Ht & E).
    exists x, t. repeat split; try done. intros ->. congruence.
  - assert (Hg : is_Some (g !! key s)) by (rewrite (t_val _ _ T i s) by done; by eexists).
    rewrite map_size_delete_Some, (t_count _ _ T) by done.
    destruct (size g) eqn:E; [|done]. apply map_size_empty_inv in E. subst.
    rewrite lookup_empty in Hg. by destruct Hg.
  - intros x t Hx Ht Hne Hd. apply (lookup_N _ _ _ Hl) in Hx, Hi. cyc.
Qed.

Lemma holed_skip sl g i j s :
  holed sl g i j -> (i < N)%nat -> (j < N)%nat -> sl !! next N j = Some s -> next N j <> i ->
  ~ (dist N (home (key s)) i < dist N (home (key s)) (next N j))%nat ->
  holed sl g i (next N j).
Proof.
  intros H Hi Hj Hs Hne Hnc. destruct H as [Hl ? ? ? ? ? ? Hseen]. split; try done.
  intros x t Hx Ht Hxi Hd. destruct (decide (x = next N j)) as [->|Hxj]; [congruence|].
  pose proof (lookup_N _ _ _ Hl Hx). apply (Hseen x t); try done.
  rewrite next_succ in * by done. cyc.
Qed.

Lemma full_shift sl i s y : full sl i -> (i < length sl)%nat -> ref s <> 0 ->
  full sl y -> full (<[i := s]> sl) y.
Proof. intros _. apply full_insert. Qed.

Lemma holed_move sl g i j0 j s :
  holed sl g i j0 -> (i < N)%nat -> (j < N)%nat -> sl !! j = Some s -> ref s <> 0 -> j <> i ->
  (dist N (home (key s)) i < dist N (home (key s)) j)%nat ->
  holed (<[i := s]> sl) g j j.
Proof.
  intros [Hl Hgap Hchain Hval Huniq Hall Hcount _] Hi Hj Hs Hr Hne Hcross.
  assert (Hil : (i < length sl)%nat) by lia.
  assert (L : forall x t, <[i := s]> sl !! x = Some t -> x <> j ->
            (x = i /\ t = s) \/ (x <> i /\ sl !! x = Some t)).
  { intros x t [(<- & <- & _)|(Hx & H)]%list_lookup_insert_Some _; auto. }
  split.
  - by rewrite length_insert.
  - exists s. rewrite list_lookup_insert_ne; auto.
  - intros x t Hx Ht Hxj y Hy Hd. apply full_insert; [done..|].
    destruct (L x t Hx Hxj) as [[-> ->]|[Hxi Hx']].
    + apply (Hchain j s); [done..|]. lia.
    + by apply (Hchain x t).
  - intros x t Hx Ht Hxj. destruct (L x t Hx Hxj) as [[-> ->]|[Hxi Hx']].
    + by apply (Hval j s).
    + by apply (Hval x t).
  - intros x y t u Hx Hy Ht Hu Hxj Hyj E.
    destruct (L x t Hx Hxj) as [[-> ->]|[Hxi Hx']], (L y u Hy Hyj) as [[-> ->]|[Hyi Hy']].
    + done.
    + destruct Hyj. symmetry. by apply (Huniq j y s u).
    + destruct Hxj. by apply (Huniq x j t s).
    + by apply (Huniq x y t u).
  - intros k r Hk. destruct (Hall k r Hk) as (x & t & Hx & Ht & Hxi & E).
    destruct (decide (x = j)) as [->|].
    + exists i, s. rewrite list_lookup_insert_eq by done. repeat split; auto. congruence.
    + exists x, t. rewrite list_lookup_insert_ne by auto. auto.
  - destruct Hgap as (t & Ht & Hrt). pose proof (occupied_insert sl i t s Ht) as O.
    rewrite !decide_True in O by done. lia.
  - intros x t Hx Ht Hxj Hd. apply list_lookup_insert_Some in Hx as [(<- & <- & _)|(_ & Hx)];
      [|pose proof (lookup_N _ _ _ Hl Hx)]; cyc.
Qed.

(** When the walk meets an empty slot, clearing the gap restores the table. *)
Lemma holed_finish sl g i j s :
  holed sl g i j -> (i < N)%nat -> (j < N)%nat -> sl !! next N j = Some s -> ref s = 0 ->
  tbl (<[i := emptySlot]> sl) g.
Proof.
  intros [Hl Hgap Hchain Hval Huniq Hall Hcount Hseen] Hi Hj Hs Hr.
  assert (L : forall x t, <[i := emptySlot]> sl !! x = Some t -> ref t <> 0 ->
            x <> i /\ sl !! x = Some t).
  { intros x t [(<- & <- & _)|(Hx & H)]%list_lookup_insert_Some Ht; auto. by destruct Ht. }
  split.
  - by rewrite length_insert.
  - intros x t Hx Ht y Hy Hd. destruct (L x t Hx Ht) as [Hxi Hx'].
    pose proof (Hchain x t Hx' Ht Hxi) as C. destruct (C y Hy Hd) as (u & Hu & Hru).
    destruct (decide (y = i)) as [->|]; [|exists u; by rewrite list_lookup_insert_ne by auto].
    exfalso. pose proof (lookup_N _ _ _ Hl Hx'). pose proof (Hhome (key t)).
    assert (Hxe : x <> next N j) by congruence.
    assert (Hs' : ~ full sl (next N j)) by (intros (? & ? & ?); congruence).
    assert (Hie : i <> next N j).
    { intros E. destruct Hgap as (? & ? & ?). congruence. }
    destruct (le_lt_dec (dist N i x) (dist N i j)) as [Hd'|Hd'].
    { by apply (Hseen x t). }
    apply Hs', C.
    + by apply (lookup_N _ _ _ Hl Hs).
    + rewrite next_succ in * by done. cyc.
  - intros x t Hx Ht. destruct (L x t Hx Ht). by apply (Hval x t).
  - intros x y t u Hx Hy Ht Hu E. destruct (L x t Hx Ht), (L y u Hy Hu).
    by apply (Huniq x y t u).
  - intros k r Hk. destruct (Hall k r Hk) as (x & t & Hx & Ht & Hxi & E).
    exists x, t. by rewrite list_lookup_insert_ne by auto.
  - destruct Hgap as (t & Ht & Hrt). pose proof (occupied_insert sl i t emptySlot Ht) as O.
    rewrite decide_True in O by done. rewrite decide_False in O by (intros C; by apply C). lia.
Qed.

(** The condition of delAt's [if] says that the chain of [s] crosses the gap. *)
Lemma crosses_gap h i j : (h < N)%nat -> (i < N)%nat -> (j < N)%nat -> i <> j ->
  ((i <? j)%nat && ((h <=? i)%nat || (j <? h)%nat))
    || ((j <? i)%nat && ((h <=? i)%nat && (j <? h)%nat)) = true <->
  (dist N h i < dist N h j)%nat.
Proof.
  intros. unfold dist.
  destruct (Nat.ltb_spec i j), (Nat.leb_spec h i), (Nat.ltb_spec j h), (Nat.ltb_spec j i),
    (Nat.leb_spec h j); simpl; split; try done; lia.
Qed.
End table.

Lemma shift_back_ok p sh sl g i j fuel e t :
  (forall k, (pkHome k sh < 2 ^ p)%nat) ->
  holed p (fun k => pkHome k sh) sl g i j -> (i < 2 ^ p)%nat -> (j < 2 ^ p)%nat ->
  sl !! e = Some t -> ref t = 0 ->
  (dist (2 ^ p) i j < dist (2 ^ p) i e)%nat -> (dist (2 ^ p) j e <= fuel)%nat ->
  exists sl' i', shift_back fuel sl sh i j = Some (sl', i') /\
    tbl p (fun k => pkHome k sh) (<[i' := emptySlot]> sl') g.
Proof.
  intros Hh. revert sl i j. induction fuel as [|fuel IH]; intros sl i j H Hi Hj He Ht Hd Hf;
    pose proof (ho_len _ _ _ _ _ _ H) as Hl; pose proof (lookup_N _ _ _ _ Hl He) as Hen.
  { cyc. }
  cbn [shift_back]. rewrite Hl.
  assert (Hn : (next (2 ^ p) j < 2 ^ p)%nat) by (rewrite next_succ by done; cyc).
  destruct (lookup_lt_is_Some_2 sl (next (2 ^ p) j)) as [s Hs]; [lia|].
  rewrite Hs. cbn [mbind option_bind].
  destruct (is_empty s) eqn:E.
  { apply is_empty_true in E. exists sl, i. split; [done|]. by apply (holed_finish _ _ Hh sl g i j s). }
  apply is_empty_false in E.
  assert (Hne : next (2 ^ p) j <> e) by congruence.
  assert (Hni : next (2 ^ p) j <> i /\
    (dist (2 ^ p) i (next (2 ^ p) j) < dist (2 ^ p) i e)%nat /\
    (dist (2 ^ p) (next (2 ^ p) j) e <= fuel)%nat).
  { clear -Hi Hj Hen Hne Hd Hf. rewrite next_succ in * by done. cyc. }
  destruct Hni as (Hni & Hd' & Hf').
  pose proof (crosses_gap p (pkHome (key s) sh) i (next (2 ^ p) j) (Hh _) Hi Hn ltac:(auto)) as C.
  destruct (_ || _) eqn:B.
  - apply IH; try done.
    + apply (holed_move p _ sl g i j _ s); try done. by apply C.
    + rewrite list_lookup_insert_ne; [done|]. intros <-.
      destruct (ho_gap _ _ _ _ _ _ H) as (? & ? & ?). congruence.
    + clear -Hne Hn Hen. cyc.
  - apply IH; try done.
    apply (holed_skip _ _ sl g i j s); try done. intros D. apply C in D. congruence.
Qed.

(** ** The operations refine a finite map *)

(** Table sizes: a power of two between 16 and 2^61 slots, at most 3/4 full. *)
Definition pk_ok (m : pkMap) (g : gmap UUID Z) : Prop :=
  used m = Z.of_nat (size g) /\
  ((slots m = [] /\ g = ∅) \/
   exists p, (4 <= p <= 61)%nat /\ shift m = 64 - Z.of_nat p /\
     4 * used m <= 3 * Z.of_nat (2 ^ p) /\
     tbl p (fun k => pkHome k (shift m)) (slots m) g).

(** A row id whose stored form [rowID+1] is a nonzero uint64. *)
Definition rowid_ok (r : Z) : Prop := 0 <= r < 2 ^ 64 - 1.

Lemma pkHome_lt p k : (p <= 64)%nat -> (pkHome k (64 - Z.of_nat p) < 2 ^ p)%nat.
Proof.
  intros Hp. unfold pkHome. set (x := u64 _).
  assert (Hx : 0 <= x < 2 ^ 64) by apply u64_range.
  rewrite Z.shiftr_div_pow2 by lia.
  apply Nat2Z.inj_lt. rewrite Z2Nat.id by (apply Z.div_pos; lia).
  rewrite Nat2Z.inj_pow. apply Z.div_lt_upper_bound; [lia|].
  rewrite <- Z.pow_add_r by lia. replace (64 - Z.of_nat p + Z.of_nat p) with 64 by lia. lia.
Qed.

Lemma shift_of_pow p : (1 <= p <= 62)%nat -> shift_of (2 ^ p) = 64 - Z.of_nat p.
Proof.
  intros Hp. unfold shift_of, bitsLen. rewrite Nat2Z.inj_pow.
  assert (2 <= 2 ^ Z.of_nat p).
  { change 2 with (2 ^ 1) at 1. apply Z.pow_le_mono_r; lia. }
  change (Z.of_nat 2) with 2. destruct (Z.eqb_spec (2 ^ Z.of_nat p - 1) 0); [lia|].
  assert (E : Z.log2 (2 ^ Z.of_nat p - 1) = Z.of_nat p - 1).
  { replace (2 ^ Z.of_nat p - 1) with (Z.pred (2 ^ Z.of_nat p)) by lia.
    rewrite Z.log2_pred_pow2; lia. }
  rewrite E. unfold u8. rewrite Z.mod_small by lia. lia.
Qed.

Lemma Zof_pow2 p : Z.of_nat (2 ^ p) = 2 ^ Z.of_nat p.
Proof. by rewrite Nat2Z.inj_pow. Qed.

(** Growing: every old entry is reinserted into the doubled table. *)
Lemma reinsert_step p sl g s :
  (4 <= p <= 61)%nat -> let sh := 64 - Z.of_nat p in
  tbl p (fun k => pkHome k sh) sl g -> (size g < 2 ^ p)%nat ->
  ref s <> 0 -> g !! key s = None ->
  exists sl', reinsert sh (Some sl) s = Some sl' /\
    tbl p (fun k => pkHome k sh) sl' (<[key s := ref s - 1]> g).
Proof.
  intros Hp sh T Hsz Hs Hg. unfold reinsert. cbn [mbind option_bind].
  rewrite (proj2 (is_empty_false s) Hs).
  destruct (empty_exists sl) as (e & t & He & Ht).
  { rewrite (t_count _ _ _ _ T), (t_len _ _ _ _ T). done. }
  pose proof (t_len _ _ _ _ T) as Hl. pose proof (pkHome_lt p (key s)) as Hh.
  destruct (scan_first p sl is_empty (length sl) (pkHome (key s) sh) e t)
    as (q & u & -> & Hq & Hu & Hqn & Hall); [done|apply Hh; lia|done|by apply is_empty_true|..].
  { apply lookup_lt_Some in He. specialize (Hh ltac:(lia)). fold sh in Hh. unfold dist.
    destruct (Nat.leb_spec (pkHome (key s) sh) e); lia. }
  cbn [mbind option_bind fst]. eexists. split; [done|].
  destruct s as [k r]. simpl in *. apply is_empty_true in Hu.
  apply (tbl_fill p _ sl g k r q u); try done.
  intros y Hy Hd. destruct (lookup_lt_is_Some_2 sl y) as [v Hv]; [lia|].
  exists v. split; [done|]. apply is_empty_false. by apply (Hall y v).
Qed.

(** The entries of a slot list, as a finite map. *)
Definition contents (sl : list pkSlot) (g : gmap UUID Z) : gmap UUID Z :=
  fold_left (fun g s => if is_empty s then g else <[key s := ref s - 1]> g) sl g.

Lemma contents_lookup_other sl g k :
  (forall x s, sl !! x = Some s -> ref s <> 0 -> key s <> k) -> contents sl g !! k = g !! k.
Proof.
  unfold contents. revert g. induction sl as [|s sl IH]; intros g H; [done|]. simpl.
  rewrite IH by (intros x; apply (H (S x))). destruct (is_empty s) eqn:E; [done|].
  rewrite lookup_insert_ne; [done|]. apply (H 0%nat s); [done|]. by apply is_empty_false.
Qed.

Lemma tbl_contents p home sl g : tbl p home sl g -> contents sl ∅ = g.
Proof.
  intros T. apply map_eq. intros k.
  assert (G : forall l1 l2 h, sl = l1 ++ l2 ->
            (forall r, g !! k = Some r -> (exists x s, l2 !! x = Some s /\ ref s <> 0 /\ key s = k) ->
             contents l2 h !! k = Some r)).
  { intros l1 l2. revert l1. induction l2 as [|s l2 IH]; intros l1 h E r Hg (x & t & Hx & Ht & Hk);
      [done|].
    simpl. destruct x as [|x].
    - injection Hx as ->. rewrite (proj2 (is_empty_false t) Ht).
      assert (Hs : sl !! length l1 = Some t) by (by rewrite E, lookup_app_r, Nat.sub_diag by lia).
      fold (contents l2 (<[key t := ref t - 1]> h)). rewrite contents_lookup_other.
      + rewrite Hk, lookup_insert_eq. rewrite <- Hk in Hg.
        by rewrite (t_val _ _ _ _ T _ t Hs Ht) in Hg.
      + intros y u Hy Hu Ek. assert (Hs' : sl !! (length l1 + S y)%nat = Some u).
        { rewrite E, lookup_app_r by lia. by replace (length l1 + S y - length l1)%nat with (S y) by lia. }
        pose proof (t_uniq _ _ _ _ T _ _ _ _ Hs Hs' Ht Hu ltac:(congruence)). lia.
    - apply (IH (l1 ++ [s])); [by rewrite <- app_assoc|done|]. by exists x, t. }
  destruct (g !! k) as [r|] eqn:Hk.
  - apply (G [] sl ∅); [done..|]. by apply (t_all _ _ _ _ T k r).
  - rewrite contents_lookup_other; [by rewrite lookup_empty|].
    intros x s Hx Hs E. pose proof (t_val _ _ _ _ T x s Hx Hs). congruence.
Qed.

Lemma reinsert_all p home0 q (sl0 : list pkSlot) g0 :
  (4 <= p <= 61)%nat -> let sh := 64 - Z.of_nat p in
  tbl q home0 sl0 g0 -> (size g0 < 2 ^ p)%nat ->
  forall l1 l2 sl g, sl0 = l1 ++ l2 ->
    tbl p (fun k => pkHome k sh) sl g ->
    (forall k r, g !! k = Some r ->
       g0 !! k = Some r /\ exists x s, l1 !! x = Some s /\ ref s <> 0 /\ key s = k) ->
    exists sl', fold_left (reinsert sh) l2 (Some sl) = Some sl' /\
      tbl p (fun k => pkHome k sh) sl' (contents l2 g).
Proof.
  cbv zeta. intros Hp T0 Hsz l1 l2. revert l1. induction l2 as [|s l2 IH]; intros l1 sl g E T Hg.
  - exists sl. done.
  - cbn [fold_left contents].
    assert (Hs : sl0 !! length l1 = Some s) by (by rewrite E, lookup_app_r, Nat.sub_diag by lia).
    destruct (is_empty s) eqn:Es.
    + unfold reinsert at 2. cbn [mbind option_bind]. rewrite Es.
      apply (IH (l1 ++ [s])); [by rewrite <- app_assoc|done|].
      intros k r Hk. destruct (Hg k r Hk) as (H0 & x & t & Hx & Ht). split; [done|].
      exists x, t. rewrite lookup_app_l by (by eapply lookup_lt_Some). done.
    + apply is_empty_false in Es.
      assert (Hsub : g ⊆ g0).
      { apply map_subseteq_spec. intros k r Hk. by apply (Hg k r). }
      destruct (reinsert_step p sl g s Hp T) as (sl' & -> & T').
      { apply map_subseteq_size in Hsub. lia. } { done. }
      { destruct (g !! key s) as [r|] eqn:Hk; [|done].
        destruct (Hg _ _ Hk) as (_ & x & t & Hx & Ht & Ek). exfalso.
        pose proof (lookup_lt_Some _ _ _ Hx).
        assert (sl0 !! x = Some t) by (rewrite E, lookup_app_l; done).
        assert (x = length l1) by (by apply (t_uniq _ _ _ _ T0 x (length l1) t s)). lia. }
      apply (IH (l1 ++ [s])); [by rewrite <- app_assoc|done|].
      intros k r [[<- <-]|[Hne Hk]]%lookup_insert_Some.
      * split; [by apply (t_val _ _ _ _ T0 (length l1) s)|].
        exists (length l1), s. rewrite lookup_app_r, Nat.sub_diag by lia. done.
      * destruct (Hg k r Hk) as (H0 & x & t & Hx & Ht). split; [done|].
        exists x, t. rewrite lookup_app_l by (by eapply lookup_lt_Some). done.
Qed.

Lemma pk_grow_ok m g : pk_ok m g -> Z.of_nat (size g) < 2 ^ 58 ->
  (4 * (used m + 1) > 3 * Z.of_nat (length (slots m))) ->
  exists m', pk_grow m = Some m' /\ pk_ok m' g /\
    4 * (used m' + 1) <= 3 * Z.of_nat (length (slots m')) /\ slots m' <> [].
Proof.
  intros [Hu Hc] Hsz Hload. unfold pk_grow.
  assert (Q : exists p, (4 <= p <= 61)%nat /\
    (if (length (slots m) * 2 <? 16)%nat then 16%nat else (length (slots m) * 2)%nat) = (2 ^ p)%nat /\
    4 * (used m + 1) <= 3 * Z.of_nat (2 ^ p) /\ (size g < 2 ^ p)%nat /\
    exists sl, fold_left (reinsert (64 - Z.of_nat p)) (slots m) (Some (replicate (2 ^ p) emptySlot))
      = Some sl /\ tbl p (fun k => pkHome k (64 - Z.of_nat p)) sl g).
  { destruct Hc as [[-> ->]|(p & Hp & Hsh & Hl & T)].
    - exists 4%nat. rewrite Hu, map_size_empty. simpl. repeat split; try lia.
      eexists. split; [done|]. apply (tbl_replicate 4).
    - rewrite (t_len _ _ _ _ T) in *.
      assert (H16 : (16 <= 2 ^ p)%nat) by (change 16%nat with (2 ^ 4)%nat; apply Nat.pow_le_mono_r; lia).
      assert (Hp' : (p < 60)%nat).
      { rewrite Zof_pow2 in Hload. apply Nat2Z.inj_lt, (Z.pow_lt_mono_r_iff 2); [lia..|].
        change (Z.of_nat 60) with 60. lia. }
      exists (S p). destruct (Nat.ltb_spec (2 ^ p * 2) 16); [lia|]. rewrite Nat.pow_succ_r'.
      repeat split; try lia.
      destruct (reinsert_all (S p) (fun k => pkHome k (shift m)) p (slots m) g) with (l1 := @nil pkSlot) (l2 := slots m)
        (sl := replicate (2 ^ S p) emptySlot) (g := ∅ : gmap UUID Z)
        as (sl & E & T'); [lia|done|simpl; lia|done|apply tbl_replicate|done|].
      exists sl. split; [exact E|]. by rewrite (tbl_contents _ _ _ _ T) in T'. }
  destruct Q as (p & Hp & -> & Hle & Hlt & sl & E & T).
  rewrite shift_of_pow, E by lia. cbn [mbind option_bind]. eexists. split; [done|].
  unfold pk_ok. cbn [used slots shift]. rewrite (t_len _ _ _ _ T). split.
  - split; [done|]. right. exists p. split; [done|]. split; [done|]. split; [lia|done].
  - split; [done|]. intros ->. pose proof (t_len _ _ _ _ T) as L. simpl in L.
    pose proof (Nat.pow_nonzero 2 p). lia.
Qed.

(** reserve: the slot it answers is where [k] is, or where it belongs. *)
Lemma pk_reserve_ok m g k : pk_ok m g -> Z.of_nat (size g) < 2 ^ 58 ->
  exists m' q found, pk_reserve m k = Some (m', q, found) /\ pk_ok m' g /\
    found = bool_decide (is_Some (g !! k)) /\ used m' = used m /\
    forall r, rowid_ok r ->
      pk_ok (MkPkMap (<[q := MkSlot k (u64 (r + 1))]> (slots m')) (shift m')
               (if found then used m' else used m' + 1)) (<[k := r]> g).
Proof.
  intros Hok Hsz. unfold pk_reserve.
  assert (G : exists m', (if 4 * (used m + 1) >? 3 * Z.of_nat (length (slots m))
      then pk_grow m else Some m) = Some m' /\ pk_ok m' g /\
      4 * (used m' + 1) <= 3 * Z.of_nat (length (slots m')) /\ slots m' <> []).
  { rewrite Z.gtb_ltb. destruct (Z.ltb_spec (3 * Z.of_nat (length (slots m))) (4 * (used m + 1))).
    - apply pk_grow_ok; [done..|lia].
    - exists m. split; [done|]. split; [done|]. split; [lia|]. intros E. rewrite E in *. destruct Hok. simpl in *. lia. }
  destruct G as (m' & -> & Hok' & Hload & Hne). cbn [mbind option_bind].
  pose proof Hok' as [Hu [[Es _]|(p & Hp & Hsh & Hle & T)]]; [done|].
  pose proof (t_len _ _ _ _ T) as Hl. rewrite Hl in Hload.
  assert (Hh : forall k, (pkHome k (shift m') < 2 ^ p)%nat)
    by (intros; rewrite Hsh; apply pkHome_lt; lia).
  destruct (scan_key p _ Hh (slots m') g k T) as (q & t & -> & Hq & Hqn & Hm); [lia|].
  cbn [mbind option_bind fst snd].
  eexists m', q, _. split; [done|]. split; [done|].
  assert (Hb : negb (is_empty t) = bool_decide (is_Some (g !! k))).
  { destruct (g !! k); destruct Hm as [Hm _].
    - rewrite bool_decide_true by (by eexists). apply negb_true_iff. by apply is_empty_false.
    - rewrite bool_decide_false by (intros [? ?]; done). apply negb_false_iff. by apply is_empty_true. }
  split; [done|]. split; [destruct Hok; lia|].
  intros r Hr. unfold rowid_ok in Hr. rewrite Hb.
  rewrite u64_small by (unfold in_u64; lia).
  unfold pk_ok. cbn [used slots shift].
  destruct (g !! k) as [r0|] eqn:Hk.
  - destruct Hm as (Ht & <- & _). rewrite bool_decide_true by (by eexists).
    rewrite map_size_insert_Some by (by eexists). split; [done|]. right. exists p.
    repeat (split; [done|]). replace r with (r + 1 - 1) at 2 by lia.
    apply tbl_overwrite; try done. lia.
  - destruct Hm as (Ht & Hf). rewrite bool_decide_false by (intros [? ?]; done).
    rewrite map_size_insert_None by done. split; [lia|]. right. exists p.
    split; [done|]. split; [done|]. split; [lia|]. replace r with (r + 1 - 1) at 2 by lia.
    apply (tbl_fill p _ _ g k _ q t); try done. lia.
Qed.

Lemma pk_scan m g k : pk_ok m g -> slots m <> [] ->
  exists q t, scan (length (slots m)) (slots m) (stop_at k) (pkHome k (shift m)) = Some (q, t) /\
    slots m !! q = Some t /\
    match g !! k with
    | Some r => ref t <> 0 /\ key t = k /\ ref t - 1 = r
    | None => ref t = 0
    end.
Proof.
  intros [Hu [[Es _]|(p & Hp & Hsh & Hle & T)]] Hne; [done|].
  assert (Hpow : (0 < 2 ^ p)%nat) by (pose proof (Nat.pow_nonzero 2 p); lia).
  destruct (scan_key p (fun k => pkHome k (shift m))) with (sl := slots m) (g := g) (k := k)
    as (q & t & E & Hq & _ & Hm); [intros; rewrite Hsh; apply pkHome_lt; lia|done|lia|].
  exists q, t. split; [done|]. split; [done|]. destruct (g !! k); [done|]. by destruct Hm.
Qed.

Definition opt_row (o : option Z) : Z * bool :=
  match o with Some r => (r, true) | None => (0, false) end.

Lemma pk_get_ok m g k : pk_ok m g -> pk_get m k = Some (opt_row (g !! k)).
Proof.
  intros Hok. unfold pk_get. destruct (Nat.eqb_spec (length (slots m)) 0) as [E|E].
  - destruct Hok as [_ [[_ ->]|(p & ? & ? & ? & T)]]; [by rewrite lookup_empty|].
    pose proof (t_len _ _ _ _ T). pose proof (Nat.pow_nonzero 2 p). lia.
  - destruct (pk_scan m g k Hok) as (q & t & -> & _ & Hm); [intros E'; by rewrite E' in E|].
    cbn [mbind option_bind snd]. f_equal. destruct (g !! k) as [r|].
    + destruct Hm as (Ht & _ & <-). by rewrite (proj2 (is_empty_false t) Ht).
    + by rewrite (proj2 (is_empty_true t) Hm).
Qed.

Lemma pk_find_ok m g k : pk_ok m g ->
  match g !! k with
  | None => pk_find m k = Some (0%nat, 0, false)
  | Some r => exists q t, pk_find m k = Some (q, r, true) /\ slots m !! q = Some t /\
                ref t <> 0 /\ key t = k
  end.
Proof.
  intros Hok. unfold pk_find. destruct (Nat.eqb_spec (length (slots m)) 0) as [E|E].
  - destruct Hok as [_ [[_ ->]|(p & ? & ? & ? & T)]]; [by rewrite lookup_empty|].
    pose proof (t_len _ _ _ _ T). pose proof (Nat.pow_nonzero 2 p). lia.
  - destruct (pk_scan m g k Hok) as (q & t & -> & Hq & Hm); [intros E'; by rewrite E' in E|].
    cbn [mbind option_bind fst snd]. destruct (g !! k) as [r|].
    + destruct Hm as (Ht & Hk & <-). rewrite (proj2 (is_empty_false t) Ht). by exists q, t.
    + by rewrite (proj2 (is_empty_true t) Hm).
Qed.

Lemma pk_put_ok m g k r : pk_ok m g -> Z.of_nat (size g) < 2 ^ 58 -> rowid_ok r ->
  exists m', pk_put m k r = Some m' /\ pk_ok m' (<[k := r]> g).
Proof.
  intros Hok Hsz Hr. unfold pk_put.
  destruct (pk_reserve_ok m g k Hok Hsz) as (m' & q & f & -> & _ & _ & _ & H).
  cbn [mbind option_bind]. eexists. split; [done|]. by apply H.
Qed.

Lemma pk_delAt_ok m g q t : pk_ok m g -> slots m !! q = Some t -> ref t <> 0 ->
  exists m', pk_delAt m q = Some m' /\ pk_ok m' (delete (key t) g).
Proof.
  intros [Hu [[E _]|(p & Hp & Hsh & Hle & T)]] Hq Ht; [by rewrite E in Hq|].
  pose proof (t_len _ _ _ _ T) as Hl. unfold pk_delAt. rewrite Hl.
  assert (Hpow : (0 < 2 ^ p)%nat) by (pose proof (Nat.pow_nonzero 2 p); lia).
  destruct (empty_exists (slots m)) as (e & s & He & Hs).
  { rewrite (t_count _ _ _ _ T), Hl. lia. }
  pose proof (lookup_N _ _ _ _ Hl Hq). pose proof (lookup_N _ _ _ _ Hl He).
  assert (q <> e) by congruence.
  destruct (shift_back_ok p (shift m) (slots m) (delete (key t) g) q q (2 ^ p) e s)
    as (sl' & i' & -> & T'); try done.
  { intros. rewrite Hsh. apply pkHome_lt. lia. }
  { by apply tbl_holed. }
  { unfold dist. destruct (Nat.leb_spec q q), (Nat.leb_spec q e); lia. }
  { unfold dist. destruct (Nat.leb_spec q e); lia. }
  cbn [mbind option_bind fst snd]. eexists. split; [done|].
  assert (Hg : is_Some (g !! key t)) by (rewrite (t_val _ _ _ _ T q t) by done; by eexists).
  assert (size g <> 0%nat).
  { intros E%map_size_empty_inv. subst. rewrite lookup_empty in Hg. by destruct Hg. }
  unfold pk_ok. cbn [used slots shift]. rewrite map_size_delete_Some by done.
  split; [lia|]. right. exists p. repeat (split; [done || lia|]). done.
Qed.

Lemma pk_del_ok m g k : pk_ok m g ->
  exists m', pk_del m k = Some (m', fst (opt_row (g !! k)), snd (opt_row (g !! k))) /\
    pk_ok m' (delete k g).
Proof.
  intros Hok. pose proof (pk_find_ok m g k Hok) as F. unfold pk_del.
  destruct (g !! k) as [r|] eqn:Hk.
  - destruct F as (q & t & -> & Hq & Ht & <-). cbn [mbind option_bind negb].
    destruct (pk_delAt_ok m g q t Hok Hq Ht) as (m' & -> & Hok'). by exists m'.
  - rewrite F. exists m. split; [done|]. by rewrite delete_id.
Qed.

Lemma init_size_ok fuel n p hint : n = (2 ^ p)%nat -> (4 <= p)%nat -> 4 * hint <= 2 ^ 58 ->
  (p + fuel = 68)%nat -> (p <= 60)%nat ->
  exists q, init_size fuel n hint = Some (2 ^ q)%nat /\ (4 <= q <= 60)%nat /\
    4 * hint <= 3 * Z.of_nat (2 ^ q).
Proof.
  revert n p. induction fuel as [|fuel IH]; intros n p -> Hp Hh Hf Hp'; [lia|].
  cbn [init_size]. rewrite Z.gtb_ltb.
  destruct (Z.ltb_spec (3 * Z.of_nat (2 ^ p)) (4 * hint)) as [Hlt|Hge].
  - assert ((p < 58)%nat).
    { rewrite Zof_pow2 in Hlt. apply Nat2Z.inj_lt, (Z.pow_lt_mono_r_iff 2); [lia..|].
      change (Z.of_nat 58) with 58. lia. }
    apply (IH _ (S p)); try done; lia.
  - exists p. repeat split; done || lia.
Qed.

Lemma pk_init_ok hint : 4 * hint <= 2 ^ 58 ->
  exists m, pk_init pk_empty hint = Some m /\ pk_ok m ∅ /\
    4 * hint <= 3 * Z.of_nat (length (slots m)).
Proof.
  intros Hh. unfold pk_init.
  destruct (init_size_ok 64 16 4 hint) as (q & -> & Hq & Hle); try done; try lia.
  cbn [mbind option_bind]. eexists. split; [done|]. cbn [slots]. rewrite length_replicate.
  split; [|done]. split; [done|]. right. exists q. cbn [slots shift used pk_empty].
  rewrite shift_of_pow by lia. split; [lia|]. split; [done|]. split; [lia|]. apply tbl_replicate.
Qed.

(** ** The refinement, over whole histories *)
Inductive pkop : Type :=
  | OpGet (k : UUID)
  | OpPut (k : UUID) (r : Z)
  | OpDel (k : UUID)
  | OpInsert (k : UUID) (r : Z).  (* reserve, then commit on a miss *)

Definition pk_run (m : pkMap) (op : pkop) : option (pkMap * (Z * bool)) :=
  match op with
  | OpGet k => a ← pk_get m k; Some (m, a)
  | OpPut k r => m ← pk_put m k r; Some (m, (0, false))
  | OpDel k => r ← pk_del m k; Some (fst (fst r), (snd (fst r), snd r))
  | OpInsert k r =>
      x ← pk_reserve m k;
      let '(m, slot, found) := x in
      Some (if found : bool then (m, (0, true)) else (pk_commit m slot k r, (0, false)))
  end.

(** The same operations on a Go map. *)
Definition map_run (g : gmap UUID Z) (op : pkop) : gmap UUID Z * (Z * bool) :=
  match op with
  | OpGet k => (g, opt_row (g !! k))
  | OpPut k r => (<[k := r]> g, (0, false))
  | OpDel k => (delete k g, opt_row (g !! k))
  | OpInsert k r =>
      if bool_decide (is_Some (g !! k)) then (g, (0, true)) else (<[k := r]> g, (0, false))
  end.

Definition op_ok (op : pkop) : Prop :=
  match op with OpPut _ r | OpInsert _ r => rowid_ok r | _ => True end.

Fixpoint pk_trace (m : pkMap) (ops : list pkop) : option (pkMap * list (Z * bool)) :=
  match ops with
  | [] => Some (m, [])
  | op :: ops =>
      r ← pk_run m op; rs ← pk_trace (fst r) ops; Some (fst rs, snd r :: snd rs)
  end.
Fixpoint map_trace (g : gmap UUID Z) (ops : list pkop) : gmap UUID Z * list (Z * bool) :=
  match ops with
  | [] => (g, [])
  | op :: ops =>
      let '(g, a) := map_run g op in
      let '(g, rs) := map_trace g ops in (g, a :: rs)
  end.

Lemma pk_run_ok m g op : pk_ok m g -> Z.of_nat (size g) < 2 ^ 58 -> op_ok op ->
  exists m', pk_run m op = Some (m', snd (map_run g op)) /\ pk_ok m' (fst (map_run g op)).
Proof.
  intros Hok Hsz Hop. destruct op as [k|k r|k|k r]; simpl in *.
  - rewrite (pk_get_ok m g k Hok). by exists m.
  - destruct (pk_put_ok m g k r Hok Hsz Hop) as (m' & -> & H). by exists m'.
  - destruct (pk_del_ok m g k Hok) as (m' & -> & H). exists m'. simpl.
    by destruct (opt_row (g !! k)).
  - destruct (pk_reserve_ok m g k Hok Hsz) as (m' & q & f & -> & Hok' & Hf & _ & H).
    simpl. subst f. specialize (H r Hop). case_bool_decide; simpl.
    + by exists m'.
    + eexists. split; [done|]. exact H.
Qed.

Lemma map_run_size g op : (size (fst (map_run g op)) <= S (size g))%nat.
Proof.
  destruct op as [k|k r|k|k r]; simpl; try lia; try case_bool_decide; simpl; try lia;
    rewrite ?map_size_insert, ?map_size_delete; destruct (g !! k); simpl; lia.
Qed.

(** C19: over any history of operations the table answers exactly what a map
    would, and always answers: growth and backward-shift deletion lose and
    resurrect nothing, whatever the hash seed. *)
Theorem pkmap_refines_map m g ops :
  pk_ok m g -> Forall op_ok ops -> Z.of_nat (size g) + Z.of_nat (length ops) < 2 ^ 58 ->
  exists m', pk_trace m ops = Some (m', snd (map_trace g ops)) /\
    pk_ok m' (fst (map_trace g ops)).
Proof.
  intros Hok Hops. revert m g Hok. induction Hops as [|op ops Hop Hops IH];
    intros m g Hok Hsz; [by exists m|].
  simpl in Hsz. destruct (pk_run_ok m g op Hok) as (m' & E & Hok'); [lia|done|].
  pose proof (map_run_size g op). cbn [pk_trace map_trace]. rewrite E. cbn [mbind option_bind fst].
  destruct (map_run g op) as [g' a]. simpl in *.
  destruct (IH m' g' Hok') as (m'' & -> & H2); [lia|].
  destruct (map_trace g' ops) as [g'' rs]. simpl in *. by exists m''.
Qed.

(** A table pre-sized for [hint] entries is empty and takes [hint] inserts
    without exceeding its load bound. *)
Theorem pkmap_init hint : 4 * hint <= 2 ^ 58 ->
  exists m, pk_init pk_empty hint = Some m /\ pk_ok m ∅ /\
    4 * hint <= 3 * Z.of_nat (length (slots m)).
Proof. apply pk_init_ok. Qed.
End pkmap.

(** Three keys, two of them forced into one chain by the zero seed, with a
    deletion in the middle. *)
Definition k_of (n : Z) : UUID := uuid_of (be_put 16 n).

Lemma pkmap_refines_map_witness :
  let ops := [OpInsert (k_of 1) 10; OpInsert (k_of 2) 20; OpInsert (k_of 1) 30; OpDel (k_of 1);
              OpPut (k_of 2) 21; OpGet (k_of 2); OpGet (k_of 1)] in
  exists m', pk_trace 0 pk_empty ops = Some (m', snd (map_trace ∅ ops)) /\
    pk_ok 0 m' (fst (map_trace ∅ ops)).
Proof.
  apply pkmap_refines_map.
  - split; [done|]. left. done.
  - repeat constructor; simpl; unfold rowid_ok; lia.
  - vm_compute. reflexivity.
Defined.

Lemma pkmap_init_witness :
  exists m, pk_init pk_empty 100 = Some m /\ pk_ok 7 m ∅ /\
    4 * 100 <= 3 * Z.of_nat (length (slots m)).
Proof. apply pkmap_init. lia. Defined.
