(* ===== verification/Codec.v ===== *)
(** * Codec: mutation_codec.go — the binary form of cells, rows, the three
    mutations and the transaction frame inside a WAL record.

    Offsets and lengths are [Z], as Go's [int] on a 64-bit platform. A callback
    that mutates the caller's state is a function threading that state; an error
    stops the decoder as Go's early return does. Slices are bounds-checked, so
    the "never panics" results below are about the guards of the code. *)
From S2P Require Import Prelude Bytes Uuid Value.

Definition opInsert : Z := 1.
Definition opUpdate : Z := 2.
Definition opDelete : Z := 3.

(** wal.go appendU16LE, mutation_codec.go appendU32LE. *)
Definition appendU16LE (b : bytes) (v : Z) : bytes := b ++ le_put 2 v.
Definition appendU32LE (b : bytes) (v : Z) : bytes := b ++ le_put 4 v.

Definition encodeCell (buf : bytes) (v : Value) : bytes :=
  let buf := buf ++ [z2b (kind_num (Kind v))] in
  match Kind v with
  | KindInt => buf ++ le_put 8 (u64 (v_Int v))
  | KindString => appendU32LE buf (u32 (zlen (v_Str v))) ++ v_Str v
  | KindBytes => let b := v_Bytes v in appendU32LE buf (u32 (zlen b)) ++ b
  | KindUUID => buf ++ ubytes (v_UUID v)
  | KindBool => buf ++ [z2b (v_Int v)]
  | KindNull => buf
  end.

Definition corrupt {A} : outcome A := Err ErrWALCorrupt.

(** ValueKind(b[0]); [None] is a kind no switch case covers. *)
Definition kind_of_byte (z : Z) : option ValueKind :=
  if z =? 0 then Some KindNull else if z =? 1 then Some KindInt
  else if z =? 2 then Some KindString else if z =? 3 then Some KindBytes
  else if z =? 4 then Some KindBool else if z =? 5 then Some KindUUID else None.

Definition decodeCell (b : bytes) : outcome (Value * Z) :=
  if zlen b <? 1 then corrupt
  else
    kb ← index b 0;
    let off := 1 in
    match kind_of_byte (b2z kb) with
    | Some KindNull => Ok (Null, off)
    | Some KindInt =>
        if off + 8 >? zlen b then corrupt
        else s ← slice_o b off (off + 8); Ok (Int (s64 (le_get s)), off + 8)
    | Some KindString =>
        if off + 4 >? zlen b then corrupt
        else
          s ← slice_o b off (off + 4);
          let ln := le_get s in
          let off := off + 4 in
          if (ln <? 0) || (off + ln >? zlen b) then corrupt
          else s ← slice_o b off (off + ln); Ok (Str s, off + ln)
    | Some KindBytes =>
        if off + 4 >? zlen b then corrupt
        else
          s ← slice_o b off (off + 4);
          let ln := le_get s in
          let off := off + 4 in
          if (ln <? 0) || (off + ln >? zlen b) then corrupt
          else s ← slice_o b off (off + ln); Ok (Bytes s, off + ln)
    | Some KindUUID =>
        if off + 16 >? zlen b then corrupt
        else s ← slice_o b off (off + 16); Ok (UUIDVal (uuid_of s), off + 16)
    | Some KindBool =>
        if off + 1 >? zlen b then corrupt
        else x ← index b 1; Ok (Bool (b2z x =? 1), off + 1)
    | None => corrupt
    end.

Definition encodeRow (buf : bytes) (row : Row) : bytes :=
  fold_left encodeCell row (appendU16LE buf (u16 (zlen row))).

Fixpoint decode_cells (n : nat) (b : bytes) (off : Z) : outcome (Row * Z) :=
  match n with
  | O => Ok ([], off)
  | S n =>
      t ← slice_o b off (zlen b);
      vs ← decodeCell t;
      r ← decode_cells n b (off + snd vs);
      Ok (fst vs :: fst r, snd r)
  end.
Definition decodeRow (b : bytes) : outcome Row :=
  if zlen b <? 2 then corrupt
  else
    h ← slice_o b 0 2;
    r ← decode_cells (Z.to_nat (le_get h)) b 2;
    if negb (snd r =? zlen b) then corrupt else Ok (fst r).

Definition encodeInsertMutation (buf : bytes) (tableID : Z) (row : Row) : bytes :=
  encodeRow (appendU16LE (buf ++ [z2b opInsert]) tableID) row.

Fixpoint encode_sets (buf : bytes) (ords : list nat) (row : Row) : outcome bytes :=
  match ords with
  | [] => Ok buf
  | ord :: ords =>
      let buf := appendU16LE buf (u16 (Z.of_nat ord)) in
      c ← index row ord; encode_sets (encodeCell buf c) ords row
  end.
Definition encodeUpdateMutation (buf : bytes) (tableID : Z) (pk : Value) (ords : list nat) (row : Row)
  : outcome bytes :=
  let buf := encodeCell (appendU16LE (buf ++ [z2b opUpdate]) tableID) pk in
  encode_sets (appendU16LE buf (u16 (zlen ords))) ords row.

Definition encodeDeleteMutation (buf : bytes) (tableID : Z) (pk : Value) : bytes :=
  encodeCell (appendU16LE (buf ++ [z2b opDelete]) tableID) pk.

Section callbacks.
Context {S : Type}.

Fixpoint decode_sets (n : nat) (body : bytes) (set : S -> nat -> Value -> outcome S) (s : S)
  : outcome (bytes * S) :=
  match n with
  | O => Ok (body, s)
  | Datatypes.S n =>
      if zlen body <? 2 then corrupt
      else
        h ← slice_o body 0 2;
        body ← slice_o body 2 (zlen body);
        vm ← decodeCell body;
        s ← set s (Z.to_nat (le_get h)) (fst vm);
        body ← slice_o body (snd vm) (zlen body);
        decode_sets n body set s
  end.
Definition decodeUpdateMutation (body : bytes) (set : S -> nat -> Value -> outcome S) (s : S)
  : outcome (Value * S) :=
  pn ← decodeCell body;
  body ← slice_o body (snd pn) (zlen body);
  if zlen body <? 2 then corrupt
  else
    h ← slice_o body 0 2;
    body ← slice_o body 2 (zlen body);
    r ← decode_sets (Z.to_nat (le_get h)) body set s;
    if negb (zlen (fst r) =? 0) then corrupt else Ok (fst pn, snd r).

Fixpoint txn_loop (n : nat) (payload : bytes) (off : Z) (apply : S -> bytes -> outcome S) (s : S)
  : outcome (Z * S) :=
  match n with
  | O => Ok (off, s)
  | Datatypes.S n =>
      if off + 4 >? zlen payload then corrupt
      else
        l ← slice_o payload off (off + 4);
        let mlen := le_get l in
        let off := off + 4 in
        if (mlen <? 0) || (off + mlen >? zlen payload) then corrupt
        else
          m ← slice_o payload off (off + mlen);
          s ← apply s m;
          txn_loop n payload (off + mlen) apply s
  end.
Definition forEachTxnMutation (payload : bytes) (apply : S -> bytes -> outcome S) (s : S) : outcome S :=
  if zlen payload <? 2 then corrupt
  else
    h ← slice_o payload 0 2;
    r ← txn_loop (Z.to_nat (le_get h)) payload 2 apply s;
    if negb (fst r =? zlen payload) then corrupt else Ok (snd r).
End callbacks.

Definition decodeDeleteBody (body : bytes) : outcome Value :=
  pn ← decodeCell body;
  if negb (snd pn =? zlen body) then corrupt else Ok (fst pn).

Definition encodeTxn (buf : bytes) (muts : list bytes) : bytes :=
  fold_left (fun buf m => appendU32LE buf (u32 (zlen m)) ++ m) muts
    (appendU16LE buf (u16 (zlen muts))).

(** ** Round trips *)

(** Cells whose payload length fits the u32 length field. *)
Definition wire_ok (v : Value) : Prop :=
  value_ok v /\ zlen (v_Str v) < 2 ^ 32 /\ zlen (v_Bytes v) < 2 ^ 32.

Lemma zlen_le_put n z : zlen (le_put n z) = Z.of_nat n.
Proof. unfold zlen. by rewrite length_le_put. Qed.

Lemma encodeCell_buf buf v : encodeCell buf v = buf ++ encodeCell [] v.
Proof.
  unfold encodeCell, appendU32LE. destruct (Kind v); rewrite <- ?app_assoc; done.
Qed.

Lemma index_0 {A} (x : A) l : index (x :: l) 0 = Ok x.
Proof. done. Qed.

Lemma slice_o_cons {A} (x : A) (m r : list A) hi :
  hi = 1 + zlen m -> slice_o (x :: m ++ r) 1 hi = Ok m.
Proof. intros ->. apply (slice_o_mid [x]); done. Qed.

Lemma gtb_false a b : a <= b -> (a >? b) = false.
Proof. rewrite Z.gtb_ltb. apply Z.ltb_ge. Qed.
Lemma gtb_true a b : b < a -> (a >? b) = true.
Proof. rewrite Z.gtb_ltb. apply Z.ltb_lt. Qed.

Ltac zlens := rewrite ?zlen_cons, ?zlen_app, ?zlen_le_put, ?zlen_nil.

Lemma u32_small z : 0 <= z < 2 ^ 32 -> u32 z = z.
Proof. intros. unfold u32. by apply Z.mod_small. Qed.
Lemma u16_small z : 0 <= z < 2 ^ 16 -> u16 z = z.
Proof. intros. unfold u16. by apply Z.mod_small. Qed.

Lemma var_cell (x : Init.Byte.byte) s rest (mk : bytes -> Value) : zlen s < 2 ^ 32 ->
  let b := x :: le_put 4 (u32 (zlen s)) ++ s ++ rest in
  (if 1 + 4 >? zlen b then corrupt
   else
     l ← slice_o b 1 (1 + 4);
     let ln := le_get l in
     let off := 1 + 4 in
     if (ln <? 0) || (off + ln >? zlen b) then corrupt
     else s ← slice_o b off (off + ln); Ok (mk s, off + ln)) = Ok (mk s, 5 + zlen s).
Proof.
  intros Hs b. pose proof (zlen_pos s). pose proof (zlen_pos rest).
  assert (E1 : slice_o b 1 (1 + 4) = Ok (le_put 4 (u32 (zlen s))))
    by (apply slice_o_cons; by zlens).
  assert (E2 : slice_o b (1 + 4) (1 + 4 + zlen s) = Ok s).
  { apply (slice_o_mid (x :: le_put 4 (u32 (zlen s))) s rest); zlens; lia. }
  rewrite gtb_false by (unfold b; zlens; lia).
  rewrite E1. cbn [mbind outcome_bind]. rewrite u32_small, le_get_put by (simpl; lia). cbv zeta.
  destruct (Z.ltb_spec (zlen s) 0); [lia|]. cbn [orb].
  rewrite gtb_false by (unfold b; zlens; lia).
  by rewrite E2.
Qed.

Lemma kind_of_byte_num k : kind_of_byte (b2z (z2b (kind_num k))) = Some k.
Proof. by destruct k. Qed.

Lemma decode_encode_cell v rest : wire_ok v ->
  decodeCell (encodeCell [] v ++ rest) = Ok (v, zlen (encodeCell [] v)).
Proof.
  intros (Hv & Hs & Hb). pose proof (Kind_inv v Hv) as Bv.
  apply value_ok_kind in Hv. unfold encodeCell, appendU32LE.
  pose proof (zlen_pos rest).
  destruct (Kind v) eqn:K; cbn [app]; unfold decodeCell at 1; rewrite <- ?app_assoc; cbn [app];
    rewrite zlen_cons;
    match goal with |- context [(1 + zlen ?t <? 1)] => pose proof (zlen_pos t);
      destruct (Z.ltb_spec (1 + zlen t) 1); [lia|] end;
    rewrite index_0; cbn [mbind outcome_bind]; rewrite kind_of_byte_num.
  - by rewrite Hv.
  - destruct Hv as [Rv Hv]. rewrite gtb_false by (zlens; lia).
    rewrite slice_o_cons by (by zlens). cbn [mbind outcome_bind].
    rewrite le_get_put by (apply u64_range). rewrite s64_u64 by done. zlens. by rewrite <- Hv.
  - rewrite <- zlen_cons with (x := z2b (kind_num KindString)). rewrite var_cell by done.
    destruct Hv as [Hv _]. rewrite <- Hv. do 2 f_equal. zlens. lia.
  - rewrite <- zlen_cons with (x := z2b (kind_num KindBytes)). rewrite var_cell by done.
    destruct Hv as [Hv _]. rewrite <- Hv. do 2 f_equal. zlens. lia.
  - rewrite gtb_false by (zlens; lia). cbn [index lookup list_lookup mbind outcome_bind].
    rewrite b2z_z2b, Bv by done. rewrite Hv, v_Bool_Bool. by destruct (v_Bool v).
  - assert (L : zlen (ubytes (v_UUID v)) = 16) by (unfold zlen; by rewrite length_ubytes).
    rewrite gtb_false by (zlens; lia).
    rewrite slice_o_cons by lia. cbn [mbind outcome_bind].
    rewrite uuid_of_ubytes, <- Hv. zlens. by rewrite L.
Qed.

Lemma encode_cells_app buf row :
  fold_left encodeCell row buf = buf ++ fold_left encodeCell row [].
Proof.
  revert buf. induction row as [|v row IH]; intros buf; simpl; [by rewrite app_nil_r|].
  rewrite IH, (IH (encodeCell [] v)), (encodeCell_buf buf v). by rewrite app_assoc.
Qed.

Definition cells (row : Row) : bytes := fold_left encodeCell row [].
Lemma cells_cons v row : cells (v :: row) = encodeCell [] v ++ cells row.
Proof. unfold cells. cbn [fold_left]. apply encode_cells_app. Qed.

Lemma encodeRow_cells buf row : encodeRow buf row = buf ++ le_put 2 (u16 (zlen row)) ++ cells row.
Proof. unfold encodeRow, appendU16LE. rewrite encode_cells_app. by rewrite <- app_assoc. Qed.

Lemma decode_cells_ok p row rest : Forall wire_ok row ->
  decode_cells (length row) (p ++ cells row ++ rest) (zlen p) = Ok (row, zlen p + zlen (cells row)).
Proof.
  intros H. revert p. induction H as [|v row Hv Hr IH]; intros p; cbn [decode_cells length].
  - do 2 f_equal. change (cells []) with (@nil Init.Byte.byte). rewrite zlen_nil. lia.
  - rewrite (slice_o_tail p) by (zlens; lia). cbn [mbind outcome_bind].
    rewrite cells_cons, <- app_assoc, decode_encode_cell by done. cbn [mbind outcome_bind fst snd].
    specialize (IH (p ++ encodeCell [] v)). rewrite <- app_assoc, zlen_app in IH. rewrite IH.
    cbn [mbind outcome_bind fst snd]. do 2 f_equal. zlens. lia.
Qed.

(** The little-endian u16 count in front of [n] things. *)
Lemma count_prefix n : 0 <= n < 2 ^ 16 -> Z.to_nat (le_get (le_put 2 (u16 n))) = Z.to_nat n.
Proof. intros. rewrite u16_small by done. rewrite le_get_put by (simpl; lia). done. Qed.

Lemma slice_o_head {A} (m r : list A) hi : hi = zlen m -> slice_o (m ++ r) 0 hi = Ok m.
Proof. intros. by apply (slice_o_mid []). Qed.

(** An encoded row decodes to itself. *)
Theorem row_roundtrip row :
  Forall wire_ok row -> zlen row < 2 ^ 16 -> decodeRow (encodeRow [] row) = Ok row.
Proof.
  intros Hw Hl. unfold decodeRow. rewrite encodeRow_cells. cbn [app].
  pose proof (zlen_pos (cells row)). pose proof (zlen_pos row).
  destruct (Z.ltb_spec (zlen (le_put 2 (u16 (zlen row)) ++ cells row)) 2) as [C|_];
    [revert C; zlens; lia|].
  rewrite slice_o_head by (by zlens). cbn [mbind outcome_bind].
  rewrite count_prefix by lia. replace (Z.to_nat (zlen row)) with (length row) by (unfold zlen; lia).
  pose proof (decode_cells_ok (le_put 2 (u16 (zlen row))) row [] Hw) as D.
  rewrite app_nil_r, zlen_le_put in D. change (Z.of_nat 2) with 2 in D. rewrite D.
  cbn [mbind outcome_bind fst snd]. zlens. change (Z.of_nat 2) with 2. by rewrite Z.eqb_refl.
Qed.

(** The (ordinal, cell) pairs of an update. *)
Fixpoint sets_bytes (sets : list (nat * Value)) : bytes :=
  match sets with
  | [] => []
  | (o, v) :: sets => le_put 2 (u16 (Z.of_nat o)) ++ encodeCell [] v ++ sets_bytes sets
  end.

(** The pairs encode_sets reads out of the row. *)
Fixpoint sets_of (ords : list nat) (row : Row) : outcome (list (nat * Value)) :=
  match ords with
  | [] => Ok []
  | o :: ords => c ← index row o; s ← sets_of ords row; Ok ((o, c) :: s)
  end.

Lemma encode_sets_bytes buf ords row sets :
  sets_of ords row = Ok sets -> encode_sets buf ords row = Ok (buf ++ sets_bytes sets).
Proof.
  revert buf sets. induction ords as [|o ords IH]; intros buf sets E; simpl in *.
  - injection E as <-. by rewrite app_nil_r.
  - destruct (index row o) as [c| |]; simpl in *; try done.
    destruct (sets_of ords row) as [s| |]; simpl in *; try done. injection E as <-.
    rewrite (IH _ s) by done. rewrite encodeCell_buf. unfold appendU16LE. simpl.
    by rewrite <- !app_assoc.
Qed.

(** What the callback sees: each pair in order. *)
Fixpoint apply_sets {S} (set : S -> nat -> Value -> outcome S) (sets : list (nat * Value)) (s : S)
  : outcome S :=
  match sets with
  | [] => Ok s
  | (o, v) :: sets => s ← set s o v; apply_sets set sets s
  end.

Definition set_ok (ov : nat * Value) : Prop := Z.of_nat (fst ov) < 2 ^ 16 /\ wire_ok (snd ov).

Lemma u16_header_lt {A} (z : Z) (r : bytes) (a b : A) :
  (if zlen (le_put 2 z ++ r) <? 2 then a else b) = b.
Proof.
  pose proof (zlen_pos r). destruct (Z.ltb_spec (zlen (le_put 2 z ++ r)) 2) as [C|_]; [|done].
  revert C. zlens. lia.
Qed.

Lemma decode_sets_ok {S} (set : S -> nat -> Value -> outcome S) sets rest s :
  Forall set_ok sets ->
  decode_sets (length sets) (sets_bytes sets ++ rest) set s = (s ← apply_sets set sets s; Ok (rest, s)).
Proof.
  intros H. revert s. induction H as [|[o v] sets [Ho Hv] Hs IH]; intros s; [done|].
  cbn [length decode_sets sets_bytes apply_sets fst snd] in *. rewrite <- !app_assoc, u16_header_lt.
  rewrite slice_o_head by (by zlens). cbn [mbind outcome_bind].
  rewrite count_prefix, Nat2Z.id by lia.
  rewrite (slice_o_tail (le_put 2 (u16 (Z.of_nat o)))) by (zlens; lia). cbn [mbind outcome_bind].
  rewrite decode_encode_cell by done. cbn [mbind outcome_bind fst snd].
  destruct (set s o v) as [s'| |]; cbn [mbind outcome_bind]; try done.
  rewrite (slice_o_tail (encodeCell [] v)) by (zlens; lia). cbn [mbind outcome_bind]. apply IH.
Qed.

(** The body of an update record, after op and table id. *)
Definition update_body (pk : Value) (sets : list (nat * Value)) : bytes :=
  encodeCell [] pk ++ le_put 2 (u16 (zlen sets)) ++ sets_bytes sets.

Lemma sets_of_length ords row sets : sets_of ords row = Ok sets -> length sets = length ords.
Proof.
  revert sets. induction ords as [|o ords IH]; intros sets E; simpl in *; inv_bind; [done|].
  simpl. f_equal. by apply IH.
Qed.

(** An update mutation decodes to its PK and hands the callback exactly the
    journaled (ordinal, new value) pairs, in order. *)
Theorem update_roundtrip {S} (set : S -> nat -> Value -> outcome S) tableID pk ords row sets s :
  wire_ok pk -> sets_of ords row = Ok sets -> Forall set_ok sets -> zlen ords < 2 ^ 16 ->
  exists body, encodeUpdateMutation [] tableID pk ords row = Ok (z2b opUpdate :: le_put 2 tableID ++ body) /\
    decodeUpdateMutation body set s = (s ← apply_sets set sets s; Ok (pk, s)).
Proof.
  intros Hpk Es Hsets Hn. exists (update_body pk sets). split.
  - unfold encodeUpdateMutation. rewrite (encode_sets_bytes _ _ _ sets) by done.
    rewrite encodeCell_buf. unfold appendU16LE, update_body, zlen.
    rewrite (sets_of_length _ _ _ Es). by rewrite <- !app_assoc.
  - unfold decodeUpdateMutation, update_body. rewrite decode_encode_cell by done.
    cbn [mbind outcome_bind fst snd].
    rewrite (slice_o_tail (encodeCell [] pk)) by (zlens; lia). cbn [mbind outcome_bind].
    rewrite u16_header_lt, slice_o_head by (by zlens). cbn [mbind outcome_bind].
    rewrite (slice_o_tail (le_put 2 (u16 (zlen sets)))) by (zlens; lia). cbn [mbind outcome_bind].
    pose proof (sets_of_length _ _ _ Es) as L. unfold zlen in Hn |- *.
    rewrite count_prefix, Nat2Z.id by lia.
    pose proof (decode_sets_ok set sets [] s Hsets) as D. rewrite app_nil_r in D. rewrite D.
    by destruct (apply_sets set sets s).
Qed.

(** A delete mutation decodes to its PK. *)
Theorem delete_roundtrip tableID pk : wire_ok pk ->
  exists body, encodeDeleteMutation [] tableID pk = z2b opDelete :: le_put 2 tableID ++ body /\
    decodeDeleteBody body = Ok pk.
Proof.
  intros Hpk. exists (encodeCell [] pk). unfold encodeDeleteMutation, decodeDeleteBody.
  rewrite (encodeCell_buf (appendU16LE _ _)). split; [unfold appendU16LE; by rewrite <- !app_assoc|].
  pose proof (decode_encode_cell pk [] Hpk) as D. rewrite app_nil_r in D. rewrite D.
  cbn [mbind outcome_bind fst snd]. by rewrite Z.eqb_refl.
Qed.

(** ** Transactions *)
Fixpoint txn_bytes (muts : list bytes) : bytes :=
  match muts with
  | [] => []
  | m :: muts => le_put 4 (u32 (zlen m)) ++ m ++ txn_bytes muts
  end.

Lemma encodeTxn_bytes buf muts :
  encodeTxn buf muts = buf ++ le_put 2 (u16 (zlen muts)) ++ txn_bytes muts.
Proof.
  unfold encodeTxn, appendU16LE. rewrite app_assoc. generalize (buf ++ le_put 2 (u16 (zlen muts))).
  induction muts as [|m muts IH]; intros b; simpl; [by rewrite app_nil_r|].
  rewrite IH. unfold appendU32LE. by rewrite <- !app_assoc.
Qed.

Fixpoint apply_all {S} (apply : S -> bytes -> outcome S) (muts : list bytes) (s : S) : outcome S :=
  match muts with
  | [] => Ok s
  | m :: muts => s ← apply s m; apply_all apply muts s
  end.

Lemma txn_loop_ok {S} (apply : S -> bytes -> outcome S) p muts rest s :
  Forall (fun m => zlen m < 2 ^ 32) muts ->
  txn_loop (length muts) (p ++ txn_bytes muts ++ rest) (zlen p) apply s =
    (s ← apply_all apply muts s; Ok (zlen p + zlen (txn_bytes muts), s)).
Proof.
  intros H. revert p s. induction H as [|m muts Hm Hs IH]; intros p s; cbn [length txn_loop apply_all].
  - change (txn_bytes []) with (@nil Init.Byte.byte). rewrite zlen_nil. by rewrite Z.add_0_r.
  - cbn [txn_bytes]. pose proof (zlen_pos rest). pose proof (zlen_pos m).
    pose proof (zlen_pos (txn_bytes muts)). rewrite <- !app_assoc.
    rewrite gtb_false by (zlens; lia).
    rewrite slice_o_mid by (zlens; done). cbn [mbind outcome_bind].
    rewrite u32_small, le_get_put by (simpl; lia). cbv zeta.
    destruct (Z.ltb_spec (zlen m) 0); [lia|]. cbn [orb]. rewrite gtb_false by (zlens; lia).
    rewrite (app_assoc p), slice_o_mid by (zlens; lia). cbn [mbind outcome_bind].
    destruct (apply s m) as [s'| |]; cbn [mbind outcome_bind]; try done.
    rewrite (app_assoc _ m). specialize (IH ((p ++ le_put 4 (zlen m)) ++ m) s').
    rewrite !zlen_app, zlen_le_put in IH. change (Z.of_nat 4) with 4 in IH.
    rewrite IH. destruct (apply_all apply muts s'); cbn [mbind outcome_bind]; try done.
    do 2 f_equal. zlens. lia.
Qed.

(** A transaction record applies exactly its mutations, in order, and
    nothing else; an error of one of them stops it. *)
Theorem txn_roundtrip {S} (apply : S -> bytes -> outcome S) muts s :
  Forall (fun m => zlen m < 2 ^ 32) muts -> zlen muts < 2 ^ 16 ->
  forEachTxnMutation (encodeTxn [] muts) apply s = apply_all apply muts s.
Proof.
  intros Hm Hl. unfold forEachTxnMutation. rewrite encodeTxn_bytes. cbn [app].
  pose proof (zlen_pos muts).
  rewrite u16_header_lt, slice_o_head by (by zlens). cbn [mbind outcome_bind].
  rewrite count_prefix by lia. replace (Z.to_nat (zlen muts)) with (length muts) by (unfold zlen; lia).
  pose proof (txn_loop_ok apply (le_put 2 (u16 (zlen muts))) muts [] s Hm) as D.
  rewrite app_nil_r, zlen_le_put in D. change (Z.of_nat 2) with 2 in D. rewrite D.
  destruct (apply_all apply muts s); cbn [mbind outcome_bind fst snd]; try done.
  zlens. change (Z.of_nat 2) with 2. by rewrite Z.eqb_refl.
Qed.

(** The TXN record encoder does not bound its list: given 65536 mutations or
    more it writes a record the decoder rejects, because the u16 count wraps and
    the rest is trailing bytes. A transaction or multi-row INSERT never gets here
    (beyond maxTxnMutations = 1000 it is refused before anything is encoded); a
    multi-row UPDATE or DELETE hands over every row it matched. *)
Theorem txn_count_overflow {S} (apply : S -> bytes -> outcome S) muts s :
  Forall (fun m => zlen m < 2 ^ 32) muts -> 2 ^ 16 <= zlen muts ->
  (forall s m, is_ok (apply s m) = true) ->
  forEachTxnMutation (encodeTxn [] muts) apply s = Err ErrWALCorrupt.
Proof.
  intros Hm Hl Hok. unfold forEachTxnMutation. rewrite encodeTxn_bytes. cbn [app].
  rewrite u16_header_lt, slice_o_head by (by zlens). cbn [mbind outcome_bind].
  set (n := Z.to_nat (le_get (le_put 2 (u16 (zlen muts))))).
  assert (Hn : (n < length muts)%nat).
  { unfold n. pose proof (le_get_range (le_put 2 (u16 (zlen muts)))) as R.
    rewrite length_le_put in R. unfold zlen in *. simpl in R. lia. }
  assert (T : forall a b, txn_bytes (a ++ b) = txn_bytes a ++ txn_bytes b).
  { induction a as [|m a IH]; intros b; simpl; [done|]. by rewrite IH, <- !app_assoc. }
  assert (Em : txn_bytes muts = txn_bytes (take n muts) ++ txn_bytes (drop n muts))
    by (by rewrite <- T, take_drop).
  rewrite Em.
  pose proof (txn_loop_ok apply (le_put 2 (u16 (zlen muts))) (take n muts)
    (txn_bytes (drop n muts)) s) as D.
  rewrite zlen_le_put, length_take_le in D by lia. change (Z.of_nat 2) with 2 in D.
  rewrite D by (by apply Forall_take).
  assert (A : forall l s, exists s', apply_all apply l s = Ok s').
  { induction l as [|m l IH]; intros s0; simpl; [by eexists|]. specialize (Hok s0 m).
    destruct (apply s0 m); try done. apply IH. }
  destruct (A (take n muts) s) as [s' ->]. cbn [mbind outcome_bind fst snd].
  destruct (drop n muts) as [|m l] eqn:E.
  { apply (f_equal length) in E. rewrite length_drop in E. simpl in E. lia. }
  cbn [txn_bytes]. zlens. pose proof (zlen_pos m). pose proof (zlen_pos (txn_bytes l)).
  destruct (Z.eqb_spec (2 + zlen (txn_bytes (take n muts)))
    (Z.of_nat 2 + (zlen (txn_bytes (take n muts)) + (Z.of_nat 4 + (zlen m + zlen (txn_bytes l))))));
    [lia|done].
Qed.

(** ** Decoding arbitrary bytes *)

(** The decoder's answer on bytes it did not write: a value or a clean error. *)
Definition clean {A} (P : A -> Prop) (o : outcome A) : Prop :=
  match o with Ok a => P a | Err e => e = ErrWALCorrupt | Panic => False end.

Lemma clean_bind {A B} (P : A -> Prop) (Q : B -> Prop) (m : outcome A) (k : A -> outcome B) :
  clean P m -> (forall a, P a -> clean Q (k a)) -> clean Q (m ≫= k).
Proof. intros H1 H2. destruct m; simpl in *; auto. Qed.

Lemma clean_slice {B} (Q : B -> Prop) (l : bytes) lo hi (k : bytes -> outcome B) :
  0 <= lo <= hi -> hi <= zlen l -> (forall m, zlen m = hi - lo -> clean Q (k m)) ->
  clean Q (slice_o l lo hi ≫= k).
Proof. intros H1 H2 H3. destruct (slice_o_in l lo hi H1 H2) as (m & -> & Hm). by apply H3. Qed.

Lemma le_get_lt b n : zlen b = n -> 0 <= le_get b < 2 ^ (n * 8).
Proof. intros <-. apply le_get_range. Qed.

Lemma decodeCell_clean b :
  clean (fun vn => value_ok (fst vn) /\ 1 <= snd vn <= zlen b) (decodeCell b).
Proof.
  unfold decodeCell. destruct (Z.ltb_spec (zlen b) 1) as [|H1]; [done|].
  destruct b as [|x b]; [rewrite zlen_nil in H1; lia|]. rewrite index_0. cbn [mbind outcome_bind].
  set (B := x :: b) in *.
  destruct (kind_of_byte (b2z x)) as [[]|]; [|..|done].
  - simpl. split; [constructor|lia].
  - rewrite Z.gtb_ltb. destruct (Z.ltb_spec (zlen B) (1 + 8)); [done|].
    apply clean_slice; [lia..|]. intros m Hm. simpl. split; [|lia]. constructor. apply s64_range.
  - rewrite Z.gtb_ltb. destruct (Z.ltb_spec (zlen B) (1 + 4)); [done|].
    apply clean_slice; [lia..|]. intros m Hm. pose proof (le_get_lt m 4 Hm) as R.
    destruct (Z.ltb_spec (le_get m) 0); [done|]. rewrite Z.gtb_ltb. cbn [orb].
    destruct (Z.ltb_spec (zlen B) (1 + 4 + le_get m)); [done|].
    apply clean_slice; [lia..|]. intros t Ht. simpl. split; [|lia].
    constructor. unfold zlen in Ht. lia.
  - rewrite Z.gtb_ltb. destruct (Z.ltb_spec (zlen B) (1 + 4)); [done|].
    apply clean_slice; [lia..|]. intros m Hm. pose proof (le_get_lt m 4 Hm) as R.
    destruct (Z.ltb_spec (le_get m) 0); [done|]. rewrite Z.gtb_ltb. cbn [orb].
    destruct (Z.ltb_spec (zlen B) (1 + 4 + le_get m)); [done|].
    apply clean_slice; [lia..|]. intros t Ht. simpl. split; [|lia].
    constructor. unfold zlen in Ht. lia.
  - rewrite Z.gtb_ltb. destruct (Z.ltb_spec (zlen B) (1 + 1)); [done|].
    destruct (index_lt B 1) as (y & -> & _); [unfold zlen in *; lia|]. simpl.
    split; [constructor|lia].
  - rewrite Z.gtb_ltb. destruct (Z.ltb_spec (zlen B) (1 + 16)); [done|].
    apply clean_slice; [lia..|]. intros m Hm. simpl. split; [constructor|lia].
Qed.

Lemma decode_cells_clean n b off : 0 <= off <= zlen b ->
  clean (fun r => Forall value_ok (fst r) /\ length (fst r) = n /\ off <= snd r <= zlen b)
    (decode_cells n b off).
Proof.
  revert off. induction n as [|n IH]; intros off Ho; cbn [decode_cells]; [simpl; auto with lia|].
  apply clean_slice; [lia..|]. intros t Ht.
  eapply clean_bind; [apply decodeCell_clean|]. intros [v sz] [Hv Hsz]. cbn [fst snd] in *.
  eapply clean_bind; [apply IH; lia|]. intros [vs off'] (Hvs & Hl & Hr). simpl in *.
  split; [by constructor|]. lia.
Qed.

Lemma decodeRow_clean b : clean (Forall value_ok) (decodeRow b).
Proof.
  unfold decodeRow. destruct (Z.ltb_spec (zlen b) 2); [done|].
  apply clean_slice; [lia..|]. intros h Hh.
  eapply clean_bind; [apply decode_cells_clean; lia|].
  intros [vs off] (Hvs & _ & _). simpl. by destruct (negb _).
Qed.

Lemma decode_sets_clean {S} (set : S -> nat -> Value -> outcome S) n body s :
  (forall s o v, value_ok v -> clean (fun _ => True) (set s o v)) ->
  clean (fun _ => True) (decode_sets n body set s).
Proof.
  intros Hset. revert body s. induction n as [|n IH]; intros body s; cbn [decode_sets]; [done|].
  destruct (Z.ltb_spec (zlen body) 2); [done|].
  apply clean_slice; [lia..|]. intros h Hh. apply clean_slice; [lia..|]. intros b Hb.
  eapply clean_bind; [apply decodeCell_clean|]. intros [v m] [Hv Hm]. cbn [fst snd] in *.
  eapply clean_bind; [by apply Hset|]. intros s' _.
  apply clean_slice; [lia..|]. intros b' _. apply IH.
Qed.

Lemma decodeUpdateMutation_clean {S} (set : S -> nat -> Value -> outcome S) body s :
  (forall s o v, value_ok v -> clean (fun _ => True) (set s o v)) ->
  clean (fun r => value_ok (fst r)) (decodeUpdateMutation body set s).
Proof.
  intros Hset. unfold decodeUpdateMutation.
  eapply clean_bind; [apply decodeCell_clean|]. intros [v m] [Hv Hm]. cbn [fst snd] in *.
  apply clean_slice; [lia..|]. intros b Hb. destruct (Z.ltb_spec (zlen b) 2); [done|].
  apply clean_slice; [lia..|]. intros h Hh. apply clean_slice; [lia..|]. intros b' Hb'.
  eapply clean_bind; [by apply decode_sets_clean|]. intros [r s'] _. simpl. by destruct (negb _).
Qed.

Lemma txn_loop_clean {S} (apply : S -> bytes -> outcome S) n b off s :
  (forall s m, clean (fun _ => True) (apply s m)) -> 0 <= off <= zlen b ->
  clean (fun _ => True) (txn_loop n b off apply s).
Proof.
  intros Ha. revert off s. induction n as [|n IH]; intros off s Ho; cbn [txn_loop]; [done|].
  rewrite Z.gtb_ltb. destruct (Z.ltb_spec (zlen b) (off + 4)); [done|].
  apply clean_slice; [lia..|]. intros l Hl. pose proof (le_get_lt l 4 ltac:(lia)) as R.
  destruct (Z.ltb_spec (le_get l) 0); [done|]. rewrite Z.gtb_ltb. cbn [orb].
  destruct (Z.ltb_spec (zlen b) (off + 4 + le_get l)); [done|].
  apply clean_slice; [lia..|]. intros m Hm.
  eapply clean_bind; [apply Ha|]. intros s' _. apply IH. lia.
Qed.

(** C29: on arbitrary payload bytes every decoder returns a result or
    ErrWALCorrupt - none reads out of range - and the decoded cells are well
    formed. *)
Theorem decoders_total {S} (set : S -> nat -> Value -> outcome S) (apply : S -> bytes -> outcome S) b s :
  (forall s o v, value_ok v -> clean (fun _ => True) (set s o v)) ->
  (forall s m, clean (fun _ => True) (apply s m)) ->
  clean (Forall value_ok) (decodeRow b) /\
  clean value_ok (decodeDeleteBody b) /\
  clean (fun r => value_ok (fst r)) (decodeUpdateMutation b set s) /\
  clean (fun _ => True) (forEachTxnMutation b apply s).
Proof.
  intros Hset Ha. split; [apply decodeRow_clean|]. split; [|split].
  - unfold decodeDeleteBody. eapply clean_bind; [apply decodeCell_clean|].
    intros [v m] [Hv _]. simpl. by destruct (negb _).
  - by apply decodeUpdateMutation_clean.
  - unfold forEachTxnMutation. destruct (Z.ltb_spec (zlen b) 2); [done|].
    apply clean_slice; [lia..|]. intros h Hh.
    eapply clean_bind; [apply txn_loop_clean; [done|lia]|]. intros [off s'] _. simpl.
    by destruct (negb _).
Qed.

(** ** Concrete instances *)
Definition sample_row : Row := [UUIDVal zeroUUID; Int (-1); Str [Byte.x61]; Null; Bool true; Bytes [Byte.x00]].

Lemma sample_row_ok : Forall wire_ok sample_row.
Proof.
  repeat (apply List.Forall_cons; [split; [|split; vm_compute; reflexivity]|]);
    [..|apply List.Forall_nil]; constructor; vm_compute; try done; split; discriminate.
Qed.

Lemma row_roundtrip_witness : decodeRow (encodeRow [] sample_row) = Ok sample_row.
Proof. apply row_roundtrip; [apply sample_row_ok | vm_compute; reflexivity]. Defined.

Definition set_cell (r : Row) (o : nat) (v : Value) : outcome Row :=
  if (o <? length r)%nat then Ok (<[o := v]> r) else Err ErrWALCorrupt.

Lemma update_roundtrip_witness :
  exists body,
    encodeUpdateMutation [] 3 (UUIDVal zeroUUID) [1; 3]%nat sample_row =
      Ok (z2b opUpdate :: le_put 2 3 ++ body) /\
    decodeUpdateMutation body set_cell [Null; Null; Null; Null] =
      (s ← apply_sets set_cell [(1%nat, Int (-1)); (3%nat, Null)] [Null; Null; Null; Null];
       Ok (UUIDVal zeroUUID, s)).
Proof.
  apply update_roundtrip; [|reflexivity| |vm_compute; reflexivity].
  - split; [constructor|]. split; vm_compute; reflexivity.
  - repeat (apply List.Forall_cons; [split; [simpl; lia|split; [|split; vm_compute; reflexivity]]|]);
      [..|apply List.Forall_nil]; constructor. unfold in_s64. lia.
Defined.

Lemma delete_roundtrip_witness :
  exists body, encodeDeleteMutation [] 3 (Int 7) = z2b opDelete :: le_put 2 3 ++ body /\
    decodeDeleteBody body = Ok (Int 7).
Proof.
  apply delete_roundtrip. split; [|split; vm_compute; reflexivity].
  constructor. split; vm_compute; [discriminate|reflexivity].
Defined.

Definition collect (s : list bytes) (m : bytes) : outcome (list bytes) := Ok (s ++ [m]).

Lemma txn_roundtrip_witness :
  forEachTxnMutation (encodeTxn [] [[Byte.x01]; []; [Byte.x02; Byte.x03]]) collect [] =
    apply_all collect [[Byte.x01]; []; [Byte.x02; Byte.x03]] [].
Proof. apply txn_roundtrip; [repeat constructor|]; vm_compute; reflexivity. Defined.

Lemma txn_count_overflow_witness :
  forEachTxnMutation (encodeTxn [] (replicate (Z.to_nat 65536) [Byte.x00])) collect [] =
    Err ErrWALCorrupt.
Proof.
  apply txn_count_overflow; [|unfold zlen; rewrite length_replicate; lia|done].
  apply Forall_replicate. vm_compute. reflexivity.
Defined.

Lemma decoders_total_witness :
  let b := [Byte.x02; Byte.x00; Byte.xff] in
  clean (Forall value_ok) (decodeRow b) /\
  clean value_ok (decodeDeleteBody b) /\
  clean (fun r => value_ok (fst r)) (decodeUpdateMutation b (fun s _ _ => Ok s) tt) /\
  clean (fun _ => True) (forEachTxnMutation b (fun s _ => Ok s) tt).
Proof. apply decoders_total; done. Defined.
