(* ===== verification/Frame.v ===== *)
(** * Frame: the record envelope of wal.go and scanRecords.

    hash/crc32's Castagnoli checksum is written out bit by bit. A segment file is
    its bytes; the loop of scanRecords takes the file length as fuel, which is
    enough because every record consumes at least 12 bytes. *)
From S2P Require Import Prelude Bytes Uuid Value Codec.

Definition walMagic : Z := 0x485A.
Definition walVersion : Z := 2.
Definition recMutation : Z := 1.
Definition recTxn : Z := 2.
Definition recCheckpoint : Z := 3.
Definition recCreateTable : Z := 4.
Definition recDropTable : Z := 5.

(** ** crc32c (reflected polynomial 0x82F63B78) *)
Definition crc_bit (c : Z) : Z :=
  if Z.odd c then Z.lxor (Z.shiftr c 1) 0x82F63B78 else Z.shiftr c 1.
Definition crc_byte (c : Z) (b : Init.Byte.byte) : Z :=
  Nat.iter 8 crc_bit (Z.lxor c (b2z b)).
(** crc32.Update(crc, crc32c, p) and crc32.Checksum(p, crc32c). *)
Definition crc_update (crc : Z) (p : bytes) : Z :=
  Z.lxor 0xFFFFFFFF (fold_left crc_byte p (Z.lxor 0xFFFFFFFF crc)).
Definition checksum (p : bytes) : Z := crc_update 0 p.

Definition header (recType : Z) (plen : Z) : bytes :=
  le_put 2 walMagic ++ [z2b recType; z2b walVersion] ++ le_put 4 (u32 plen).

(** What writeRecord appends to the buffer for one record. *)
Definition frame (recType : Z) (payload : bytes) : bytes :=
  let hp := header recType (zlen payload) ++ payload in
  hp ++ le_put 4 (checksum hp).

Section scan.
Context {S : Type} (apply : S -> Z -> bytes -> outcome S).

(** One iteration per record; [r] is what the reader has not delivered, [pos]
    the offset of its first byte. The state is kept on an error: everything
    applied before it stays applied. *)
Fixpoint scan_loop (fuel : nat) (fileSize : Z) (r : bytes) (pos : Z) (s : S) : S * outcome unit :=
  match fuel with
  | O => (s, Panic)
  | Datatypes.S fuel =>
      if (length r =? 0)%nat then (s, Ok tt)
      else if zlen r <? 8 then (s, Err errWALFraming)
      else
        let hdr := take 8 r in
        let r := drop 8 r in
        let pos := pos + 8 in
        let magic := le_get (slice hdr 0 2) in
        let recType := b2z (nth 2 hdr Byte.x00) in
        let version := b2z (nth 3 hdr Byte.x00) in
        let length := le_get (slice hdr 4 8) in
        if negb (magic =? walMagic) then (s, Err errWALFraming)
        else if negb (version =? walVersion) then (s, Err ErrWALVersion)
        else if length + 4 >? fileSize - pos then (s, Err errWALFraming)
        else
          let need := Z.to_nat (length + 4) in
          let buf := take need r in
          let r := drop need r in
          let pos := pos + length + 4 in
          let payload := take (Z.to_nat length) buf in
          let crc := le_get (drop (Z.to_nat length) buf) in
          let want := crc_update (crc_update 0 hdr) payload in
          if negb (want =? crc) then (s, Err errWALFraming)
          else match apply s recType payload with
               | Ok s => scan_loop fuel fileSize r pos s
               | Err e => (s, Err e)
               | Panic => (s, Panic)
               end
  end.
Definition scanRecords (f : bytes) (s : S) : S * outcome unit :=
  scan_loop (Datatypes.S (length f)) (zlen f) f 0 s.

(** The same walk over records instead of bytes. *)
Fixpoint apply_records (recs : list (Z * bytes)) (s : S) : S * outcome unit :=
  match recs with
  | [] => (s, Ok tt)
  | (t, p) :: recs =>
      match apply s t p with
      | Ok s => apply_records recs s
      | Err e => (s, Err e)
      | Panic => (s, Panic)
      end
  end.
End scan.

(** ** The checksum *)
Lemma crc_update_app a b : crc_update (crc_update 0 a) b = crc_update 0 (a ++ b).
Proof.
  unfold crc_update. rewrite <- Z.lxor_assoc, Z.lxor_nilpotent, Z.lxor_0_l.
  by rewrite fold_left_app.
Qed.

Lemma lxor_range n a b : 0 <= n -> 0 <= a < 2 ^ n -> 0 <= b < 2 ^ n -> 0 <= Z.lxor a b < 2 ^ n.
Proof.
  intros Hn Ha Hb. assert (H0 : 0 <= Z.lxor a b) by (apply Z.lxor_nonneg; lia).
  split; [done|]. destruct (decide (Z.lxor a b = 0)) as [->|Hne]; [lia|].
  apply Z.log2_lt_pow2; [lia|]. pose proof (Z.log2_lxor a b ltac:(lia) ltac:(lia)) as L.
  assert (B : forall z, 0 <= z < 2 ^ n -> Z.log2 z < n \/ z = 0).
  { intros z Hz. destruct (decide (z = 0)); [auto|]. left. apply Z.log2_lt_pow2; lia. }
  destruct (B a Ha) as [?| ->], (B b Hb) as [?| ->]; try lia;
    rewrite ?Z.lxor_0_l, ?Z.lxor_0_r in *; lia.
Qed.

Lemma crc_bit_range c : 0 <= c < 2 ^ 32 -> 0 <= crc_bit c < 2 ^ 32.
Proof.
  intros H. unfold crc_bit.
  assert (0 <= Z.shiftr c 1 < 2 ^ 32).
  { rewrite Z.shiftr_div_pow2 by lia. change (2 ^ 1) with 2.
    split; [apply Z.div_pos; lia | apply Z.div_lt_upper_bound; lia]. }
  destruct (Z.odd c); [|done]. apply lxor_range; lia.
Qed.

Lemma crc_byte_range c b : 0 <= c < 2 ^ 32 -> 0 <= crc_byte c b < 2 ^ 32.
Proof.
  intros H. unfold crc_byte. pose proof (b2z_range b).
  assert (0 <= Z.lxor c (b2z b) < 2 ^ 32) by (apply lxor_range; lia).
  simpl. do 8 apply crc_bit_range. done.
Qed.

Lemma checksum_range p : 0 <= checksum p < 2 ^ 32.
Proof.
  unfold checksum, crc_update. apply lxor_range; [lia..|].
  assert (G : forall c, 0 <= c < 2 ^ 32 -> 0 <= fold_left crc_byte p c < 2 ^ 32).
  { induction p as [|b p IH]; intros c Hc; [done|]. simpl. by apply IH, crc_byte_range. }
  apply G. vm_compute. split; congruence.
Qed.

(** The Castagnoli check value of "123456789". *)
Example checksum_check_value : checksum (lit "123456789") = 0xE3069283.
Proof. vm_compute. reflexivity. Qed.

(** ** Framing *)
Definition rec_ok (tp : Z * bytes) : Prop := 0 <= fst tp < 256 /\ zlen (snd tp) < 2 ^ 32.
Definition frames (recs : list (Z * bytes)) : bytes := flat_map (fun tp => frame (fst tp) (snd tp)) recs.

Lemma frames_app a b : frames (a ++ b) = frames a ++ frames b.
Proof. apply flat_map_app. Qed.

Lemma length_header t n : length (header t n) = 8%nat.
Proof. unfold header. rewrite !length_app, !length_le_put. done. Qed.

Lemma header_fields t n : 0 <= t < 256 -> 0 <= n < 2 ^ 32 ->
  le_get (slice (header t n) 0 2) = walMagic /\
  b2z (nth 2 (header t n) Byte.x00) = t /\
  b2z (nth 3 (header t n) Byte.x00) = walVersion /\
  le_get (slice (header t n) 4 8) = n.
Proof.
  intros Ht Hn. unfold header.
  assert (E : exists a b, le_put 2 walMagic = [a; b] /\ le_get [a; b] = walMagic)
    by (eexists _, _; split; reflexivity).
  destruct E as (a & b & -> & Em). unfold slice. cbn [app drop nth take Nat.sub].
  split; [done|]. rewrite !b2z_z2b, !Z.mod_small by (unfold walVersion; lia).
  split; [done|]. split; [done|]. rewrite drop_0, take_ge by (by rewrite length_le_put).
  rewrite u32_small, le_get_put by (simpl; lia). done.
Qed.

Lemma length_frame t p : length (frame t p) = (12 + length p)%nat.
Proof. unfold frame. rewrite !length_app, length_header, length_le_put. lia. Qed.

(** One intact record in front of anything. *)
Lemma scan_loop_record {S} (apply : S -> Z -> bytes -> outcome S) fuel size t p rest pos s :
  rec_ok (t, p) -> size - pos = zlen (frame t p) + zlen rest ->
  scan_loop apply (Datatypes.S fuel) size (frame t p ++ rest) pos s =
    match apply s t p with
    | Ok s => scan_loop apply fuel size rest (pos + zlen (frame t p)) s
    | Err e => (s, Err e)
    | Panic => (s, Panic)
    end.
Proof.
  intros [Ht Hp] Hsize. cbn [fst snd] in Ht, Hp. pose proof (zlen_pos p). pose proof (zlen_pos rest).
  assert (Hlen : zlen (frame t p) = 12 + zlen p) by (unfold zlen; rewrite length_frame; lia).
  set (crcb := le_put 4 (checksum (header t (zlen p) ++ p))).
  assert (E : frame t p ++ rest = header t (zlen p) ++ p ++ crcb ++ rest).
  { unfold frame. fold crcb. by rewrite <- !app_assoc. }
  assert (Et : take 8 (frame t p ++ rest) = header t (zlen p)).
  { rewrite E. rewrite <- (length_header t (zlen p)) at 1. apply take_app_length. }
  assert (Ed : drop 8 (frame t p ++ rest) = p ++ crcb ++ rest).
  { rewrite E. rewrite <- (length_header t (zlen p)) at 1. apply drop_app_length. }
  cbn [scan_loop]. destruct (Nat.eqb_spec (length (frame t p ++ rest)) 0) as [C|_].
  { rewrite length_app, length_frame in C. lia. }
  destruct (Z.ltb_spec (zlen (frame t p ++ rest)) 8) as [C|_]; [rewrite zlen_app in C; lia|].
  rewrite Et, Ed. destruct (header_fields t (zlen p)) as (-> & -> & -> & ->); [done|lia|].
  rewrite !Z.eqb_refl. cbn [negb]. rewrite gtb_false by lia.
  assert (Hn : Z.to_nat (zlen p + 4) = length (p ++ crcb)).
  { rewrite length_app. unfold crcb. rewrite length_le_put. unfold zlen. lia. }
  assert (Hl : Z.to_nat (zlen p) = length p) by (unfold zlen; lia).
  rewrite Hn, Hl, app_assoc, take_app_length, drop_app_length, take_app_length, drop_app_length.
  rewrite crc_update_app. unfold crcb. rewrite le_get_put by (apply checksum_range).
  unfold checksum. rewrite Z.eqb_refl. cbn [negb].
  by replace (pos + 8 + zlen p + 4) with (pos + zlen (frame t p)) by lia.
Qed.

Lemma scan_loop_frames {S} (apply : S -> Z -> bytes -> outcome S) recs rest :
  Forall rec_ok recs -> forall fuel size pos s,
  (length recs <= fuel)%nat -> size - pos = zlen (frames recs) + zlen rest ->
  scan_loop apply fuel size (frames recs ++ rest) pos s =
    match apply_records apply recs s with
    | (s, Ok _) => scan_loop apply (fuel - length recs) size rest (pos + zlen (frames recs)) s
    | r => r
    end.
Proof.
  induction 1 as [|[t p] recs Hr Hrs IH]; intros fuel size pos s Hf Hs.
  - cbn [frames flat_map app apply_records length]. rewrite zlen_nil, Z.add_0_r, Nat.sub_0_r. done.
  - destruct fuel as [|fuel]; [simpl in Hf; lia|].
    cbn [frames flat_map fst snd] in *. fold (frames recs) in *. rewrite zlen_app in *.
    rewrite <- app_assoc, scan_loop_record by (rewrite ?zlen_app; done || lia).
    cbn [apply_records length]. destruct (apply s t p) as [s'| |]; try done.
    rewrite IH by (simpl in Hf; lia). rewrite Z.add_assoc. done.
Qed.

Lemma length_frames recs : (12 * length recs <= length (frames recs))%nat.
Proof.
  induction recs as [|[t p] recs IH]; [done|]. cbn [frames flat_map fst snd].
  rewrite length_app, length_frame. fold (frames recs). simpl. lia.
Qed.

(** Scanning a segment of written records applies exactly those records, in
    order, and ends cleanly (or with the first error of apply). *)
Theorem scan_written {S} (apply : S -> Z -> bytes -> outcome S) recs s :
  Forall rec_ok recs -> scanRecords apply (frames recs) s = apply_records apply recs s.
Proof.
  intros H. unfold scanRecords. pose proof (length_frames recs).
  pose proof (scan_loop_frames apply recs [] H (Datatypes.S (length (frames recs)))
    (zlen (frames recs)) 0 s) as E.
  rewrite app_nil_r in E. rewrite E by (unfold zlen; simpl; lia).
  destruct (apply_records apply recs s) as [s' [[]| |]]; try done.
  destruct (Datatypes.S (length (frames recs)) - length recs)%nat eqn:Ef; [lia|]. done.
Qed.

(** A segment cut inside its last record. *)
Lemma scan_loop_torn {S} (apply : S -> Z -> bytes -> outcome S) fuel size t p k pos s :
  rec_ok (t, p) -> (0 < k < length (frame t p))%nat -> size - pos = Z.of_nat k ->
  scan_loop apply (Datatypes.S fuel) size (take k (frame t p)) pos s = (s, Err errWALFraming).
Proof.
  intros [Ht Hp] Hk Hsize. cbn [fst snd] in Ht, Hp. pose proof (zlen_pos p).
  cbn [scan_loop]. assert (Hl : length (take k (frame t p)) = k) by (rewrite length_take; lia).
  rewrite Hl. destruct (Nat.eqb_spec k 0); [lia|].
  unfold zlen at 1. rewrite Hl. destruct (Z.ltb_spec (Z.of_nat k) 8); [done|].
  assert (Et : take 8 (take k (frame t p)) = header t (zlen p)).
  { rewrite take_take, Nat.min_l by lia. unfold frame.
    rewrite <- !app_assoc. rewrite <- (length_header t (zlen p)) at 1. apply take_app_length. }
  rewrite Et. destruct (header_fields t (zlen p)) as (-> & -> & -> & ->); [done|lia|].
  rewrite !Z.eqb_refl. cbn [negb]. rewrite length_frame in Hk.
  rewrite gtb_true by (unfold zlen in *; lia). done.
Qed.

Lemma frames_cut recs n : (n < length (frames recs))%nat ->
  exists done_ t p rest k, recs = done_ ++ (t, p) :: rest /\ (k < length (frame t p))%nat /\
    take n (frames recs) = frames done_ ++ take k (frame t p) /\
    n = (length (frames done_) + k)%nat.
Proof.
  revert n. induction recs as [|[t p] recs IH]; intros n Hn; [simpl in Hn; lia|].
  change (frames ((t, p) :: recs)) with (frame t p ++ frames recs) in *.
  destruct (Nat.lt_ge_cases n (length (frame t p))) as [H|H].
  - exists [], t, p, recs, n. split; [done|]. split; [done|]. split; [|done].
    rewrite take_app_le by lia. done.
  - rewrite length_app in Hn. destruct (IH (n - length (frame t p))%nat) as
      (d & t' & p' & rest & k & -> & Hk & Et & En); [lia|].
    exists ((t, p) :: d), t', p', rest, k. split; [done|]. split; [done|].
    change (frames ((t, p) :: d)) with (frame t p ++ frames d).
    rewrite length_app. split; [|lia].
    rewrite take_app_ge, Et by lia. by rewrite <- app_assoc.
Qed.

(** C32: a segment truncated at any byte applies a prefix of its records and
    reports a framing error unless the cut falls on a record boundary; a partial
    record is never applied. *)
Theorem scan_truncated {S} (apply : S -> Z -> bytes -> outcome S) recs n s :
  Forall rec_ok recs -> (n < length (frames recs))%nat ->
  exists pre post, recs = pre ++ post /\ post <> [] /\
    scanRecords apply (take n (frames recs)) s =
      match apply_records apply pre s with
      | (s, Ok _) => (s, if (n =? length (frames pre))%nat then Ok tt else Err errWALFraming)
      | r => r
      end.
Proof.
  intros Hr Hn. destruct (frames_cut recs n Hn) as (d & t & p & rest & k & -> & Hk & Et & En).
  exists d, ((t, p) :: rest). split; [done|]. split; [done|].
  apply Forall_app in Hr as [Hd Hr]. inversion Hr as [|x l Htp Hrest]; subst x l.
  unfold scanRecords. rewrite Et.
  assert (Hl : length (take k (frame t p)) = k) by (rewrite length_take; lia).
  pose proof (length_frames d).
  rewrite scan_loop_frames; [|done| |].
  2: { rewrite length_app, Hl. lia. }
  2: { rewrite zlen_app. lia. }
  destruct (apply_records apply d s) as [s' [[]| |]]; try done.
  rewrite length_app, Hl. destruct (Nat.eqb_spec n (length (frames d))).
  - assert (k = 0%nat) as -> by lia. rewrite take_0.
    destruct (Datatypes.S (length (frames d) + 0) - length d)%nat eqn:Ef; [lia|]. done.
  - destruct (Datatypes.S (length (frames d) + k) - length d)%nat eqn:Ef; [lia|].
    apply scan_loop_torn; [done|lia|]. rewrite zlen_app. unfold zlen. lia.
Qed.

Definition log_record (s : list (Z * bytes)) (t : Z) (p : bytes) : outcome (list (Z * bytes)) :=
  Ok (s ++ [(t, p)]).

Lemma scan_written_witness :
  scanRecords log_record (frames [(1, lit "ab"); (2, [])]) [] =
    apply_records log_record [(1, lit "ab"); (2, [])] [].
Proof. apply scan_written. repeat constructor; simpl; lia. Defined.

Lemma scan_truncated_witness :
  exists pre post, [(1, lit "ab"); (2, [])] = pre ++ post /\ post <> [] /\
    scanRecords log_record (take 17 (frames [(1, lit "ab"); (2, [])])) [] =
      match apply_records log_record pre [] with
      | (s, Ok _) => (s, if (17 =? length (frames pre))%nat then Ok tt else Err errWALFraming)
      | r => r
      end.
Proof. apply scan_truncated; [repeat constructor; simpl; lia|]. vm_compute. lia. Defined.
