(* ===== verification/Wal.v ===== *)
(** * Wal: wal.go and wal_segment.go — the in-memory buffer, sealing it into
    immutable segments, and recovery after a crash.

    ** The disk

    A directory has a visible state, which the running process sees, and a
    durable one, which is the visible state at the last directory fsync; a file
    is its bytes and whether they were fsynced. A crash keeps, name by name,
    either entry, and the bytes only of a fsynced file ([crash]). Any system call
    may fail, a write after writing a part; a crash in the middle of a flush
    leaves the same disk as a failure of the call it interrupts. *)
From S2P Require Import Prelude Bytes Uuid Value Codec Frame.

Definition flushMaxBytes : Z := Z.shiftl 1 20.
Definition segPrefix : bytes := lit "seg-".
Definition segSuffix : bytes := lit ".wal".
Definition segTmpSuffix : bytes := lit ".wal.tmp".

(** fmt.Sprintf("%010d", n) *)
Definition pad10 (n : Z) : bytes :=
  let d := digits 20 n [] in replicate (10 - length d) Byte.x30 ++ d.
(** The base name of segPath(n). *)
Definition segPath (n : Z) : bytes := segPrefix ++ pad10 n ++ segSuffix.
Definition tmpPath (n : Z) : bytes := segPath n ++ lit ".tmp".

Definition has_suffix (s p : bytes) : bool := has_prefix (rev s) (rev p).
(** strconv.ParseUint(s, 10, 64) *)
Definition ParseUint (s : bytes) : option Z :=
  n ← parse_mag s; if n <? 2 ^ 64 then Some n else None.

(** The segment number of a directory entry listSegments keeps. *)
Definition seg_num (name : bytes) : option Z :=
  if negb (has_prefix name segPrefix) || negb (has_suffix name segSuffix) then None
  else ParseUint (slice name (length segPrefix) (length name - length segSuffix)).
Definition isSegmentTemp (name : bytes) : bool :=
  if negb (has_prefix name segPrefix) || negb (has_suffix name segTmpSuffix) then false
  else match ParseUint (slice name (length segPrefix) (length name - length segTmpSuffix)) with
       | Some _ => true | None => false
       end.

(** ** Directories *)
Abbreviation file := (bytes * bool)%type.
Abbreviation dir := (gmap bytes file).

Record disk : Type := MkDisk { vis : dir; dur : dir }.

Inductive sysop : Type :=
  | OCreate (t : bytes)
  | OWrite (t : bytes) (b : bytes)
  | OSync (t : bytes)
  | OClose (t : bytes)
  | ORename (a b : bytes)
  | OSyncDir.

Definition run_op (o : sysop) (d : disk) : disk :=
  match o with
  | OCreate t => MkDisk (<[t := ([], false)]> (vis d)) (dur d)
  | OWrite t b =>
      match vis d !! t with
      | Some (c, _) => MkDisk (<[t := (c ++ b, false)]> (vis d)) (dur d)
      | None => d
      end
  | OSync t =>
      match vis d !! t with
      | Some (c, _) => MkDisk (<[t := (c, true)]> (vis d)) (dur d)
      | None => d
      end
  | OClose _ => d
  | ORename a b =>
      match vis d !! a with
      | Some f => MkDisk (<[b := f]> (delete a (vis d))) (dur d)
      | None => d
      end
  | OSyncDir => MkDisk (vis d) (vis d)
  end.

(** A failing call: a write may have written some of its bytes. *)
Definition fail_op (part : nat) (o : sysop) (d : disk) : disk :=
  match o with OWrite t b => run_op (OWrite t (take part b)) d | _ => d end.

(** A fault hits the call of that index. *)
Abbreviation fault := (option (nat * nat)).

Fixpoint run_ops (flt : fault) (ops : list sysop) (d : disk) : disk * bool :=
  match ops with
  | [] => (d, true)
  | o :: ops =>
      match flt with
      | Some (O, part) => (fail_op part o d, false)
      | Some (S i, part) => run_ops (Some (i, part)) ops (run_op o d)
      | None => run_ops None ops (run_op o d)
      end
  end.

(** What a crash may leave. *)
Definition crash (d : disk) (d' : gmap bytes bytes) : Prop :=
  forall n,
    match d' !! n with
    | Some c => exists f : file, (vis d !! n = Some f \/ dur d !! n = Some f) /\ (f.2 = true -> c = f.1)
    | None => vis d !! n = None \/ dur d !! n = None
    end.

(** The disk a process finds after a restart. *)
Definition booted (d' : gmap bytes bytes) : disk :=
  let v := (fun c => (c, true)) <$> d' in MkDisk v v.

(** ** The writer *)
Record wal : Type := MkWal {
  w_buf : bytes;
  w_seg : Z;
  w_recs : Z;
  w_err : option error;
  w_failWrites : bool;
}.

Definition flush_ops (w : wal) : list sysop :=
  let n := w_seg w + 1 in
  let final := segPath n in
  let tmp := tmpPath n in
  [OCreate tmp; OWrite tmp (w_buf w); OSync tmp; OClose tmp; ORename tmp final; OSyncDir].

Definition flushLocked (flt : fault) (w : wal) (d : disk) : wal * disk * option error :=
  match w_err w with
  | Some e => (w, d, Some e)
  | None =>
      if (length (w_buf w) =? 0)%nat then (w, d, None)
      else
        let '(d, ok) := run_ops flt (flush_ops w) d in
        if ok then (MkWal [] (w_seg w + 1) (w_recs w) None (w_failWrites w), d, None)
        else (MkWal (w_buf w) (w_seg w) (w_recs w) (Some errIO) (w_failWrites w), d, Some errIO)
  end.

Definition writeRecord (flt : fault) (w : wal) (d : disk) (recType : Z) (payload : bytes)
  : wal * disk * option error :=
  match w_err w with
  | Some e => (w, d, Some e)
  | None =>
      if w_failWrites w
      then (MkWal (w_buf w) (w_seg w) (w_recs w) (Some errInjectedWrite) true, d, Some errInjectedWrite)
      else
        let w := MkWal (w_buf w ++ frame recType payload) (w_seg w) (w_recs w + 1) None false in
        if zlen (w_buf w) >=? flushMaxBytes then flushLocked flt w d else (w, d, None)
  end.

(** close(): seal what is left, then refuse further writes. *)
Definition wal_close (flt : fault) (w : wal) (d : disk) : wal * disk * option error :=
  let '(w, d, e) := flushLocked flt w d in
  match w_err w with
  | None => (MkWal (w_buf w) (w_seg w) (w_recs w) (Some ErrClosed) (w_failWrites w), d, e)
  | Some _ => (w, d, e)
  end.

(** ** Opening and replaying *)
Definition listSegments (d : disk) : list Z :=
  merge_sort Z.le (omap seg_num (map fst (map_to_list (vis d)))).
Definition scanMaxSeg (d : disk) : Z := List.last (listSegments d) 0.
Definition removeStaleTemps (d : disk) : disk :=
  MkDisk (filter (fun nf => isSegmentTemp nf.1 = false) (vis d)) (dur d).

Definition openWAL (d : disk) : wal * disk :=
  let d := removeStaleTemps d in
  (MkWal [] (scanMaxSeg d) 0 None false, d).

Definition removeDrainedSegments (d : disk) (minSeg : Z) : disk :=
  fold_left (fun d n => if n <=? minSeg then MkDisk (delete (segPath n) (vis d)) (dur d) else d)
    (listSegments d) d.

Section replay.
Context {S : Type} (apply : S -> Z -> bytes -> outcome S).

(** The corrupt segments reported to onCorrupt are collected. *)
Fixpoint replay_loop (d : disk) (segs : list Z) (minSeg expected : Z) (s : S) (bad : list Z)
  : S * list Z * outcome unit :=
  match segs with
  | [] => (s, bad, Ok tt)
  | n :: segs =>
      if n <=? minSeg then replay_loop d segs minSeg expected s bad
      else if negb (n =? expected) then (s, bad, Err errWALMissingSegment)
      else
        match vis d !! segPath n with
        | None => (s, bad, Err errIO)
        | Some (f, _) =>
            match scanRecords apply f s with
            | (s, Ok _) => replay_loop d segs minSeg (n + 1) s bad
            | (s, Err e) =>
                if bool_decide (e = errWALFraming)
                then replay_loop d segs minSeg (n + 1) s (bad ++ [n])
                else (s, bad, Err e)
            | (s, Panic) => (s, bad, Panic)
            end
        end
  end.
Definition replaySegments (d : disk) (minSeg : Z) (s : S) : S * list Z * outcome unit :=
  replay_loop d (listSegments d) minSeg (minSeg + 1) s [].
End replay.

(** Open's WAL sequence above the drained cursor [lo]: clear temps, drop drained
    segments, replay the rest, and keep numbering above the cursor. *)
Definition bootWAL {S} (apply : S -> Z -> bytes -> outcome S) (lo : Z) (d : disk) (s : S)
  : wal * disk * (S * list Z * outcome unit) :=
  let '(w, d) := openWAL d in
  let d := removeDrainedSegments d lo in
  let r := replaySegments apply d lo s in
  (if w_seg w <? lo then MkWal (w_buf w) lo (w_recs w) (w_err w) (w_failWrites w) else w, d, r).

(** ** Segment names *)
Lemma parse_zeros k s : parse_digits (replicate k Byte.x30 ++ s) 0 = parse_digits s 0.
Proof. induction k as [|k IH]; [done|]. cbn. exact IH. Qed.

Lemma parse_pad10 n : 0 <= n < 2 ^ 64 -> ParseUint (pad10 n) = Some n.
Proof.
  intros H. unfold ParseUint, pad10.
  assert (P : parse_digits (replicate (10 - length (digits 20 n [])) Byte.x30 ++ digits 20 n []) 0 = Some n).
  { rewrite parse_zeros. destruct (digits_parse 20 n [] 0) as (-> & _); [lia..|].
    cbn [parse_digits]. by rewrite Z.mul_0_l. }
  assert (N : replicate (10 - length (digits 20 n [])) Byte.x30 ++ digits 20 n [] <> []).
  { destruct (digits_parse 20 n [] 0) as (_ & _ & c & r & -> & _); [lia..|].
    by intros [_ ?]%app_eq_nil. }
  unfold parse_mag. destruct (replicate _ _ ++ _) eqn:E; [done|]. rewrite P. simpl.
  destruct (Z.ltb_spec n (2 ^ 64)); [done|lia].
Qed.

Lemma has_suffix_app s p : has_suffix (s ++ p) p = true.
Proof. unfold has_suffix. rewrite rev_app_distr. apply has_prefix_spec. by eexists. Qed.

Lemma seg_num_segPath n : 0 <= n < 2 ^ 64 -> seg_num (segPath n) = Some n.
Proof.
  intros H. unfold seg_num, segPath.
  assert (E1 : has_prefix (segPrefix ++ pad10 n ++ segSuffix) segPrefix = true)
    by (apply has_prefix_spec; by eexists).
  assert (E2 : has_suffix (segPrefix ++ pad10 n ++ segSuffix) segSuffix = true)
    by (rewrite app_assoc; apply has_suffix_app).
  rewrite E1, E2. cbn [negb orb]. unfold slice.
  rewrite drop_app_length, !length_app.
  replace (length segPrefix + (length (pad10 n) + length segSuffix) - length segSuffix - length segPrefix)%nat
    with (length (pad10 n)) by lia.
  rewrite take_app_length. by apply parse_pad10.
Qed.

Lemma segPath_inj n m : 0 <= n < 2 ^ 64 -> 0 <= m < 2 ^ 64 -> segPath n = segPath m -> n = m.
Proof.
  intros Hn Hm E. pose proof (seg_num_segPath n Hn) as A. rewrite E, seg_num_segPath in A by done.
  congruence.
Qed.

Lemma seg_num_tmp n : seg_num (tmpPath n) = None.
Proof.
  unfold seg_num. assert (E : has_suffix (tmpPath n) segSuffix = false).
  { unfold has_suffix, tmpPath. rewrite rev_app_distr. reflexivity. }
  by rewrite E, orb_true_r.
Qed.

Lemma tmp_ne_seg n m : 0 <= m < 2 ^ 64 -> tmpPath n <> segPath m.
Proof. intros Hm E. pose proof (seg_num_tmp n) as A. rewrite E, seg_num_segPath in A by done. done. Qed.

Lemma isSegmentTemp_segPath n : isSegmentTemp (segPath n) = false.
Proof.
  unfold isSegmentTemp. assert (E : has_suffix (segPath n) segTmpSuffix = false).
  { unfold has_suffix, segPath. rewrite app_assoc, rev_app_distr. reflexivity. }
  by rewrite E, orb_true_r.
Qed.

(** ** What a directory holds above [lo]: the segments of [m] and nothing else
    that looks like one. Segments at or below [lo] are drained leftovers. *)
Definition segs_are (lo : Z) (D : dir) (m : gmap Z bytes) : Prop :=
  (forall n c, m !! n = Some c -> lo < n < 2 ^ 64 /\ D !! segPath n = Some (c, true)) /\
  (forall name f n, D !! name = Some f -> seg_num name = Some n -> lo < n ->
     name = segPath n /\ exists c, m !! n = Some c).

Lemma parse_digits_ge s acc n : 0 <= acc -> parse_digits s acc = Some n -> 0 <= n.
Proof.
  revert acc. induction s as [|c s IH]; intros acc Ha; simpl; [by intros [= <-]|].
  destruct (Z.leb_spec 0 (b2z c - 48)); simpl; [|done].
  destruct (_ <=? 9); [|done]. apply IH. lia.
Qed.

Lemma seg_num_range name n : seg_num name = Some n -> 0 <= n < 2 ^ 64.
Proof.
  unfold seg_num. destruct (_ || _); [done|]. unfold ParseUint, parse_mag.
  destruct (slice _ _ _) as [|c s]; [done|].
  destruct (parse_digits (c :: s) 0) as [m|] eqn:E; [|done]. simpl.
  destruct (Z.ltb_spec m (2 ^ 64)); [|done]. intros [= <-].
  apply parse_digits_ge in E; lia.
Qed.

Lemma listSegments_elem d n :
  n ∈ listSegments d <-> exists name f, vis d !! name = Some f /\ seg_num name = Some n.
Proof.
  unfold listSegments. rewrite merge_sort_Permutation, list_elem_of_omap. split.
  - intros (name & Hn & E). apply (list_elem_of_fmap fst) in Hn as ([x f] & -> & Hf%elem_of_map_to_list).
    by exists x, f.
  - intros (name & f & Hf & E). exists name. split; [|done].
    apply (list_elem_of_fmap fst). exists (name, f). split; [done|]. by apply elem_of_map_to_list.
Qed.

Section dirs.
Context (lo : Z) (Hlo : 0 <= lo).

Lemma segs_are_other D m t x : seg_num t = None -> segs_are lo D m -> segs_are lo (<[t := x]> D) m.
Proof.
  intros Ht [H1 H2]. split.
  - intros n c Hn. destruct (H1 n c Hn) as [Hr Hd]. split; [done|].
    rewrite lookup_insert_ne; [done|]. intros ->. rewrite seg_num_segPath in Ht; [done|lia].
  - intros name f n [[<- <-]|[Hne Hd]]%lookup_insert_Some Hs; [congruence|]. by apply (H2 name f).
Qed.

Lemma segs_are_del_other D m t :
  (forall n, seg_num t = Some n -> n <= lo) -> segs_are lo D m -> segs_are lo (delete t D) m.
Proof.
  intros Ht [H1 H2]. split.
  - intros n c Hn. destruct (H1 n c Hn) as [Hr Hd]. split; [done|].
    rewrite lookup_delete_ne; [done|]. intros ->.
    specialize (Ht n). rewrite seg_num_segPath in Ht by lia. specialize (Ht eq_refl). lia.
  - intros name f n [Hne Hd]%lookup_delete_Some Hs. by apply (H2 name f).
Qed.

Lemma segs_are_add D m n c : lo < n < 2 ^ 64 -> segs_are lo D m ->
  segs_are lo (<[segPath n := (c, true)]> D) (<[n := c]> m).
Proof.
  intros Hr [H1 H2]. split.
  - intros k x [[<- <-]|[Hne Hk]]%lookup_insert_Some.
    + by rewrite lookup_insert_eq.
    + destruct (H1 k x Hk) as [Hkr Hd]. split; [done|].
      rewrite lookup_insert_ne; [done|]. intros E. apply Hne, segPath_inj; [lia..|done].
  - intros name f k [[<- <-]|[Hne Hd]]%lookup_insert_Some Hs Hk.
    + rewrite seg_num_segPath in Hs by lia. injection Hs as <-. split; [done|].
      exists c. by rewrite lookup_insert_eq.
    + destruct (H2 name f k Hd Hs Hk) as [-> [x Hx]]. split; [done|].
      destruct (decide (k = n)) as [->|]; [by exists c; rewrite lookup_insert_eq|].
      exists x. by rewrite lookup_insert_ne.
Qed.

Lemma segs_are_temps D m :
  segs_are lo D m -> segs_are lo (filter (fun nf => isSegmentTemp nf.1 = false) D) m.
Proof.
  intros [H1 H2]. split.
  - intros n c Hn. destruct (H1 n c Hn) as [Hr Hd]. split; [done|].
    apply map_lookup_filter_Some. split; [done|]. apply isSegmentTemp_segPath.
  - intros name f n [Hd _]%map_lookup_filter_Some Hs. by apply (H2 name f).
Qed.

Lemma segs_are_removeDrained d m k : k <= lo ->
  segs_are lo (vis d) m -> segs_are lo (vis (removeDrainedSegments d k)) m.
Proof.
  intros Hk. unfold removeDrainedSegments.
  assert (Hr : forall n, n ∈ listSegments d -> 0 <= n < 2 ^ 64).
  { intros n (name & f & _ & E)%listSegments_elem. by apply seg_num_range in E. }
  revert Hr. generalize (listSegments d). intros l. revert d.
  induction l as [|n l IH]; intros d Hr H; [done|]. simpl. apply IH.
  { intros x Hx. apply Hr. by apply elem_of_cons; right. }
  destruct (Z.leb_spec n k); [|done]. simpl. apply segs_are_del_other; [|done].
  intros x. rewrite seg_num_segPath by (apply Hr, list_elem_of_here). intros [= <-]. lia.
Qed.

Lemma removeDrained_dur d k : dur (removeDrainedSegments d k) = dur d.
Proof.
  unfold removeDrainedSegments. generalize (listSegments d). intros l. revert d.
  induction l as [|n l IH]; intros d; [done|]. simpl. rewrite IH. by destruct (n <=? k).
Qed.

(** The numbers listSegments reports above [lo]. *)
Lemma NoDup_omap_inj {A B} (f : A -> option B) (P : B -> Prop) `{forall b, Decision (P b)} (l : list A) :
  NoDup l -> (forall x y z, x ∈ l -> y ∈ l -> f x = Some z -> f y = Some z -> P z -> x = y) ->
  NoDup (filter P (omap f l)).
Proof.
  induction 1 as [|x l Hx Hl IH]; intros Hi; simpl; [constructor|].
  assert (IH' : NoDup (filter P (omap f l))).
  { apply IH. intros a b c Ha Hb. apply Hi; by apply elem_of_cons; right. }
  destruct (f x) as [z|] eqn:E; [|done]. rewrite list.filter_cons.
  destruct (decide (P z)) as [Pz|]; [|done].
  constructor; [|done]. intros [_ (y & Hy & Ey)%list_elem_of_omap]%list_elem_of_filter. apply Hx.
  rewrite (Hi x y z); [done|apply list_elem_of_here|by apply elem_of_cons; right|done|done|done].
Qed.

Lemma StronglySorted_filter_le (l : list Z) : Sorted Z.le l -> Sorted Z.le (filter (fun n => lo < n) l).
Proof.
  intros H. apply StronglySorted_Sorted. apply Sorted_StronglySorted in H; [|intros ???; lia].
  induction H as [|x l HS IH HF]; [constructor|]. rewrite list.filter_cons.
  destruct (decide (lo < x)); [|done]. constructor; [done|].
  apply List.Forall_forall. intros y Hy%list_elem_of_In.
  apply list_elem_of_filter in Hy as [_ Hy].
  rewrite List.Forall_forall in HF. apply HF. by apply list_elem_of_In.
Qed.

Lemma listSegments_sorted d : Sorted Z.le (listSegments d).
Proof.
  apply Sorted_merge_sort. intros x y. destruct (Z.le_ge_cases x y); auto.
Qed.

Lemma seqZ_sorted a n : Sorted Z.le (seqZ a n).
Proof.
  unfold seqZ. generalize (Z.to_nat n). clear. intros n. generalize 0%nat.
  induction n as [|n IH]; intros k; simpl; [constructor|].
  constructor; [apply IH|]. destruct n; simpl; constructor. lia.
Qed.

Lemma listSegments_seqZ d (fs : list bytes) :
  segs_are lo (vis d) (map_seqZ (lo + 1) fs) ->
  filter (fun n => lo < n) (listSegments d) = seqZ (lo + 1) (zlen fs).
Proof.
  intros [H1 H2].
  apply (Sorted_unique Z.le); [apply StronglySorted_filter_le, listSegments_sorted|apply seqZ_sorted|].
  apply NoDup_Permutation.
  - unfold listSegments. rewrite merge_sort_Permutation.
    apply NoDup_omap_inj; [apply NoDup_fst_map_to_list|].
    intros x y z Hx Hy Ex Ey Hz.
    apply (list_elem_of_fmap fst) in Hx as ([x' f] & -> & Hf%elem_of_map_to_list).
    apply (list_elem_of_fmap fst) in Hy as ([y' g] & -> & Hg%elem_of_map_to_list).
    destruct (H2 x' f z Hf Ex Hz) as [-> _], (H2 y' g z Hg Ey Hz) as [-> _]. done.
  - apply NoDup_seqZ.
  - intros n. rewrite list_elem_of_filter, listSegments_elem, elem_of_seqZ. split.
    + intros (Hn & name & f & Hf & E). destruct (H2 name f n Hf E Hn) as [_ [c Hc]].
      apply lookup_map_seqZ_Some in Hc as [Hle Hc]. apply lookup_lt_Some in Hc. unfold zlen. lia.
    + intros Hn. destruct (lookup_lt_is_Some_2 fs (Z.to_nat (n - (lo + 1)))) as [c Hc];
        [unfold zlen in Hn; lia|].
      assert (Hm : (map_seqZ (lo + 1) fs : gmap Z bytes) !! n = Some c)
        by (apply lookup_map_seqZ_Some; split; [lia|done]).
      destruct (H1 n c Hm) as [Hr Hd]. split; [lia|]. exists (segPath n), (c, true).
      split; [done|]. apply seg_num_segPath. lia.
Qed.

(** The next number handed out after a boot is the one after the last segment. *)
Lemma scanMaxSeg_max d (fs : list bytes) :
  segs_are lo (vis d) (map_seqZ (lo + 1) fs) ->
  (if scanMaxSeg d <? lo then lo else scanMaxSeg d) = lo + zlen fs.
Proof.
  intros H. pose proof (listSegments_seqZ d fs H) as E. pose proof (listSegments_sorted d) as Hs.
  pose proof (zlen_pos fs). unfold scanMaxSeg.
  assert (Hle : forall n, n ∈ listSegments d -> n <= lo + zlen fs).
  { intros n Hn. destruct (Z.le_gt_cases n lo); [lia|].
    assert (Hf : n ∈ filter (fun n => lo < n) (listSegments d)) by (by apply list_elem_of_filter).
    rewrite E in Hf. apply elem_of_seqZ in Hf. lia. }
  assert (Hlast : forall l : list Z, Sorted Z.le l ->
            (l = [] \/ List.last l 0 ∈ l) /\ forall n, n ∈ l -> n <= List.last l 0).
  { clear. intros l Hl. apply Sorted_StronglySorted in Hl; [|intros ???; lia].
    induction Hl as [|x l HS [IH1 IH2] HF]; [split; [by left|by intros n ?%elem_of_nil]|].
    destruct l as [|y l]; [split; [right; apply list_elem_of_here|]; intros n [-> | ?%elem_of_nil]%elem_of_cons; simpl; [lia|done]|].
    change (List.last (x :: y :: l) 0) with (List.last (y :: l) 0).
    destruct IH1 as [?|IH1]; [done|]. split; [right; by apply elem_of_cons; right|].
    intros n [->|Hn]%elem_of_cons; [|by apply IH2].
    rewrite List.Forall_forall in HF. apply HF. by apply list_elem_of_In. }
  destruct (Hlast _ Hs) as [Hin Hmax]. destruct (decide (zlen fs = 0)) as [Hz|Hz].
  - assert (List.last (listSegments d) 0 <= lo).
    { destruct Hin as [->|Hin]; [simpl; lia|]. specialize (Hle _ Hin). lia. }
    destruct (Z.ltb_spec (List.last (listSegments d) 0) lo); lia.
  - assert (Hk : lo + zlen fs ∈ filter (fun n => lo < n) (listSegments d)).
    { rewrite E. apply elem_of_seqZ. lia. }
    apply list_elem_of_filter in Hk as [_ Hk]. pose proof (Hmax _ Hk).
    destruct Hin as [Hnil|Hin]; [rewrite Hnil in Hk; by apply elem_of_nil in Hk|].
    specialize (Hle _ Hin).
    destruct (Z.ltb_spec (List.last (listSegments d) 0) lo); lia.
Qed.
End dirs.

(** ** The writer's invariant *)

(** [chunks] are the sealed segments above [lo], [pend] the records in the
    buffer. A failed flush may have left the next segment in the visible
    directory. *)
Definition sealed_map (lo : Z) (chunks : list (list (Z * bytes))) : gmap Z bytes :=
  map_seqZ (lo + 1) (map frames chunks).

Record winv (lo : Z) (w : wal) (d : disk) (chunks : list (list (Z * bytes))) (pend : list (Z * bytes))
  : Prop := {
  wi_lo : 0 <= lo;
  wi_seg : w_seg w = lo + zlen chunks;
  wi_buf : w_buf w = frames pend;
  wi_ok : Forall rec_ok pend /\ Forall (Forall rec_ok) chunks;
  wi_dur : segs_are lo (dur d) (sealed_map lo chunks);
  wi_vis : segs_are lo (vis d) (sealed_map lo chunks) \/
    (w_err w <> None /\
     segs_are lo (vis d) (<[lo + zlen chunks + 1 := frames pend]> (sealed_map lo chunks)));
}.

Lemma sealed_map_snoc lo chunks c :
  sealed_map lo (chunks ++ [c]) = <[lo + zlen chunks + 1 := frames c]> (sealed_map lo chunks).
Proof.
  unfold sealed_map. rewrite map_app. change (map frames [c]) with [frames c].
  rewrite map_seqZ_snoc, length_map. unfold zlen.
  f_equal. lia.
Qed.

(** Every step of a flush: success, or a failure at any call. *)
Lemma run_flush lo w d chunks pend flt :
  winv lo w d chunks pend -> w_err w = None -> w_seg w + 1 < 2 ^ 64 ->
  let '(d', ok) := run_ops flt (flush_ops w) d in
  if ok then segs_are lo (vis d') (sealed_map lo (chunks ++ [pend])) /\
             segs_are lo (dur d') (sealed_map lo (chunks ++ [pend]))
  else segs_are lo (dur d') (sealed_map lo chunks) /\
       (segs_are lo (vis d') (sealed_map lo chunks) \/
        segs_are lo (vis d') (<[lo + zlen chunks + 1 := frames pend]> (sealed_map lo chunks))).
Proof.
  intros [Hlo Hseg Hbuf _ Hdur Hvis] Herr Hb.
  destruct Hvis as [Hvis|[C _]]; [|done].
  unfold flush_ops. set (T := tmpPath (w_seg w + 1)). set (F := segPath (w_seg w + 1)).
  pose proof (seg_num_tmp (w_seg w + 1)) as HT. fold T in HT.
  assert (Hn : lo < w_seg w + 1 < 2 ^ 64) by (pose proof (zlen_pos chunks); lia).
  assert (Hfin : forall b D, segs_are lo D (sealed_map lo chunks) ->
            segs_are lo (<[F := (w_buf w, true)]> (delete T (<[T := b]> D)))
              (sealed_map lo (chunks ++ [pend]))).
  { intros b D HD. rewrite sealed_map_snoc, <- Hbuf, <- Hseg. apply segs_are_add; [done..|].
    apply segs_are_del_other; [done|by rewrite HT|]. by apply segs_are_other. }
  pose proof (sealed_map_snoc lo chunks pend) as Hsn.
  destruct flt as [[[|[|[|[|[|[|i]]]]]] part]|];
    repeat (cbn [run_ops run_op fail_op vis dur]; rewrite ?lookup_insert_eq, ?insert_insert_eq);
    rewrite ?app_nil_l; split;
    repeat first [ done | by left | rewrite <- Hsn; right; by apply Hfin | left; by apply segs_are_other
                 | by apply Hfin ].
Qed.

Lemma flushLocked_inv lo w d chunks pend flt w' d' e :
  winv lo w d chunks pend -> w_seg w + 1 < 2 ^ 64 ->
  flushLocked flt w d = (w', d', e) ->
  (e = None /\ w_err w' = None /\ w_buf w' = [] /\
     exists chunks', winv lo w' d' chunks' [] /\ concat chunks' = concat chunks ++ pend /\
       zlen chunks <= zlen chunks' <= zlen chunks + 1) \/
  (e <> None /\ w_err w' <> None /\ winv lo w' d' chunks pend).
Proof.
  intros Hi Hb. unfold flushLocked. destruct (w_err w) as [er|] eqn:Herr.
  { intros [= <- <- <-]. right. by rewrite Herr. }
  pose proof Hi as [Hlo Hseg Hbuf Hok Hdur Hvis].
  destruct (Nat.eqb_spec (length (w_buf w)) 0) as [E|E].
  - intros [= <- <- <-]. left.
    assert (Hp : pend = []).
    { destruct pend as [|[t p] pend]; [done|]. rewrite Hbuf in E.
      cbn [frames flat_map fst snd] in E. rewrite length_app, length_frame in E. lia. }
    subst pend. split; [done|]. split; [done|]. split; [done|].
    exists chunks. split; [done|]. rewrite app_nil_r. split; [done|lia].
  - pose proof (run_flush lo w d chunks pend flt Hi Herr Hb) as R.
    destruct (run_ops flt (flush_ops w) d) as [d1 [|]]; intros [= <- <- <-].
    + destruct R as [Rv Rd]. left. cbn [w_err w_buf]. split; [done|]. split; [done|]. split; [done|].
      exists (chunks ++ [pend]). rewrite zlen_app. change (zlen [pend]) with 1. split.
      * split; cbn [w_seg w_buf w_err]; try done.
        -- rewrite Hseg, zlen_app. change (zlen [pend]) with 1. lia.
        -- split; [constructor|]. apply Forall_app. split; [apply Hok|].
           apply List.Forall_cons; [apply Hok|constructor].
        -- by left.
      * split; [|lia]. rewrite concat_app. cbn [concat]. by rewrite app_nil_r.
    + right. cbn [w_err]. split; [done|]. split; [done|].
      destruct R as [Rd Rv]. split; cbn [w_seg w_buf w_err]; try done.
      destruct Rv as [Rv|Rv]; [by left|]. by right.
Qed.

(** ** Recovery *)
Lemma apply_records_app {S} (apply : S -> Z -> bytes -> outcome S) a b s :
  apply_records apply (a ++ b) s =
    match apply_records apply a s with (s, Ok _) => apply_records apply b s | r => r end.
Proof.
  revert s. induction a as [|[t p] a IH]; intros s; [done|]. simpl.
  destruct (apply s t p); done.
Qed.

Lemma replay_skip {S} (apply : S -> Z -> bytes -> outcome S) d segs lo x s bad :
  replay_loop apply d segs lo x s bad =
    replay_loop apply d (filter (fun n => lo < n) segs) lo x s bad.
Proof.
  revert x s bad. induction segs as [|n segs IH]; intros x s bad; [done|].
  rewrite list.filter_cons. destruct (decide (lo < n)) as [H|H]; cbn [replay_loop].
  - destruct (Z.leb_spec n lo); [lia|]. destruct (negb _); [done|].
    destruct (vis d !! segPath n) as [[f ?]|]; [|done].
    destruct (scanRecords apply f s) as [s' [[]|e|]]; try done.
    destruct (bool_decide _); [apply IH|done].
  - destruct (Z.leb_spec n lo); [apply IH|lia].
Qed.

Lemma replay_chunks {S} (apply : S -> Z -> bytes -> outcome S) d lo chunks s :
  (forall s t p, apply s t p <> Err errWALFraming) ->
  0 <= lo -> Forall (Forall rec_ok) chunks -> segs_are lo (vis d) (sealed_map lo chunks) ->
  replaySegments apply d lo s =
    (let '(s, r) := apply_records apply (concat chunks) s in (s, [], r)).
Proof.
  intros Hap Hlo Hok Hs. unfold replaySegments.
  rewrite replay_skip, (listSegments_seqZ lo Hlo d (map frames chunks)) by done.
  unfold zlen. rewrite length_map.
  assert (G : forall suf pre s, chunks = pre ++ suf ->
    replay_loop apply d (seqZ (lo + 1 + zlen pre) (zlen suf)) lo (lo + 1 + zlen pre) s [] =
      (let '(s, r) := apply_records apply (concat suf) s in (s, [], r))).
  { induction suf as [|c suf IH]; intros pre s0 E; [done|].
    replace (zlen (c :: suf)) with (zlen suf + 1) by (rewrite zlen_cons; lia).
    rewrite seqZ_cons by (pose proof (zlen_pos suf); lia). cbn [replay_loop].
    pose proof (zlen_pos pre). destruct (Z.leb_spec (lo + 1 + zlen pre) lo); [lia|].
    rewrite Z.eqb_refl. cbn [negb].
    assert (Hm : sealed_map lo chunks !! (lo + 1 + zlen pre) = Some (frames c)).
    { unfold sealed_map. apply lookup_map_seqZ_Some. split; [lia|].
      replace (Z.to_nat (lo + 1 + zlen pre - (lo + 1))) with (length pre) by (unfold zlen; lia).
      rewrite E, map_app. rewrite <- (length_map frames pre). by rewrite lookup_app_r, Nat.sub_diag. }
    destruct Hs as [Hs1 _]. destruct (Hs1 _ _ Hm) as [_ ->].
    assert (Hc : Forall rec_ok c).
    { rewrite E in Hok. apply Forall_app in Hok as [_ Hok]. by inversion Hok. }
    rewrite scan_written by done. cbn [concat]. rewrite apply_records_app.
    assert (Hnf : forall recs s, snd (apply_records apply recs s) <> Err errWALFraming).
    { induction recs as [|[t p] recs IHr]; intros s1; simpl; [done|].
      pose proof (Hap s1 t p). destruct (apply s1 t p); simpl; [apply IHr|congruence|done]. }
    specialize (Hnf c s0). destruct (apply_records apply c s0) as [s1 [[]|e|]]; simpl in Hnf.
    - specialize (IH (pre ++ [c]) s1). rewrite zlen_app in IH. change (zlen [c]) with 1 in IH.
      replace (Z.succ (lo + 1 + zlen pre)) with (lo + 1 + (zlen pre + 1)) by lia.
      replace (Z.pred (zlen suf + 1)) with (zlen suf) by lia.
      replace (lo + 1 + zlen pre + 1) with (lo + 1 + (zlen pre + 1)) by lia.
      apply IH. by rewrite <- app_assoc.
    - rewrite bool_decide_false by congruence. done.
    - done. }
  specialize (G chunks [] s eq_refl). change (zlen []) with 0 in G. rewrite Z.add_0_r in G.
  exact G.
Qed.

(** What a crash leaves of the segments: the sealed ones, and possibly the one
    whose flush failed. *)
Lemma crash_segs lo w d chunks pend d' :
  winv lo w d chunks pend -> w_seg w + 1 < 2 ^ 64 -> crash d d' ->
  segs_are lo (vis (booted d')) (sealed_map lo chunks) \/
  (w_err w <> None /\ segs_are lo (vis (booted d')) (sealed_map lo (chunks ++ [pend]))).
Proof.
  intros [Hlo Hseg Hbuf _ Hdur Hvis] Hb Hc.
  assert (L : forall name c, vis (booted d') !! name = Some c <->
                exists x, d' !! name = Some x /\ c = (x, true)).
  { intros name c. cbn [booted vis]. rewrite lookup_fmap_Some. split.
    - intros (x & <- & Hx). eauto.
    - intros (x & Hx & ->). eauto. }
  set (M := sealed_map lo chunks) in *. set (k := lo + zlen chunks + 1) in *.
  assert (Hk : lo < k < 2 ^ 64) by (pose proof (zlen_pos chunks); unfold k in *; lia).
  (* every sealed segment survives *)
  assert (Hkeep : forall n c, M !! n = Some c -> lo < n < 2 ^ 64 /\
            vis (booted d') !! segPath n = Some (c, true)).
  { intros n c Hn. destruct Hdur as [D1 _]. destruct (D1 n c Hn) as [Hr Hd]. split; [done|].
    assert (Hv : vis d !! segPath n = Some (c, true)).
    { destruct Hvis as [[V1 _]|[_ [V1 _]]]; apply V1; [done|].
      rewrite lookup_insert_ne; [done|]. intros <-.
      apply lookup_map_seqZ_Some in Hn as [_ Hn]. apply lookup_lt_Some in Hn.
      rewrite length_map in Hn. unfold k, zlen in Hn. lia. }
    apply L. specialize (Hc (segPath n)). destruct (d' !! segPath n) as [x|].
    - destruct Hc as (f & [Hf|Hf] & Hx); exists x; split; try done;
        rewrite ?Hv, ?Hd in Hf; injection Hf as <-; by rewrite Hx.
    - destruct Hc; congruence. }
  (* and any surviving segment was in one of the two directories *)
  assert (Hfrom : forall name f n, vis (booted d') !! name = Some f -> seg_num name = Some n -> lo < n ->
            name = segPath n /\ ((exists c, M !! n = Some c) \/
              (w_err w <> None /\ n = k /\ f = (frames pend, true)))).
  { intros name f n (x & Hx & ->)%L Hn Hl. specialize (Hc name). rewrite Hx in Hc.
    destruct Hc as (g & [Hg|Hg] & Hxg).
    - destruct Hvis as [[_ V2]|[He [V1 V2]]].
      + destruct (V2 name g n Hg Hn Hl) as [-> Hm]. eauto.
      + destruct (V2 name g n Hg Hn Hl) as [-> [c Hm]]. split; [done|].
        destruct (decide (n = k)) as [->|Hne].
        * right. split; [done|]. split; [done|]. destruct (V1 k (frames pend)) as [_ Hv];
            [by rewrite lookup_insert_eq|]. rewrite Hg in Hv. injection Hv as ->.
          by rewrite Hxg.
        * left. exists c. by rewrite lookup_insert_ne in Hm.
    - destruct Hdur as [_ D2]. destruct (D2 name g n Hg Hn Hl) as [-> Hm]. eauto. }
  destruct (vis (booted d') !! segPath k) as [f|] eqn:Ek.
  - right. destruct (Hfrom _ f k Ek) as [_ [[c Hm]|(He & _ & ->)]].
    { apply seg_num_segPath. lia. } { lia. }
    { apply lookup_map_seqZ_Some in Hm as [_ Hm]. apply lookup_lt_Some in Hm.
      rewrite length_map in Hm. unfold k, zlen in Hm. lia. }
    split; [done|]. rewrite sealed_map_snoc. fold M k. split.
    + intros n c [[<- <-]|[Hne Hn]]%lookup_insert_Some; [done|]. by apply Hkeep.
    + intros name f n Hf Hn Hl. destruct (Hfrom name f n Hf Hn Hl) as [-> [[c Hm]|(_ & -> & _)]].
      * split; [done|]. destruct (decide (n = k)) as [->|]; [by exists (frames pend); rewrite lookup_insert_eq|].
        exists c. by rewrite lookup_insert_ne.
      * split; [done|]. exists (frames pend). by rewrite lookup_insert_eq.
  - left. split; [done|]. intros name f n Hf Hn Hl.
    destruct (Hfrom name f n Hf Hn Hl) as [-> [Hm|(_ & -> & _)]]; [done|]. congruence.
Qed.

(** ** Whole lifetimes of the log *)
Inductive wev : Type :=
  | EvWrite (flt : fault) (t : Z) (p : bytes)
  | EvFlush (flt : fault)    (* the ticker, FlushWAL, or the drain's seal *)
  | EvClose (flt : fault).

Definition wal_step (w : wal) (d : disk) (ev : wev) : wal * disk * option error :=
  match ev with
  | EvWrite flt t p => writeRecord flt w d t p
  | EvFlush flt => flushLocked flt w d
  | EvClose flt => wal_close flt w d
  end.

(** The record a step puts in the buffer. *)
Definition accepted (w : wal) (ev : wev) : list (Z * bytes) :=
  match ev with
  | EvWrite _ t p => match w_err w with None => if w_failWrites w then [] else [(t, p)] | Some _ => [] end
  | _ => []
  end.

(** A run, with two ghosts: every record buffered so far, and how many of them
    the last successful seal covered. *)
Record lifetime : Type := MkLife {
  l_wal : wal;
  l_disk : disk;
  l_log : list (Z * bytes);
  l_sealed : nat;
}.
Definition life_step (l : lifetime) (ev : wev) : lifetime :=
  let '(w, d, _) := wal_step (l_wal l) (l_disk l) ev in
  let log := l_log l ++ accepted (l_wal l) ev in
  MkLife w d log (if (length (w_buf w) =? 0)%nat then length log else l_sealed l).
Definition life_run (l : lifetime) (evs : list wev) : lifetime := fold_left life_step evs l.

Definition ev_ok (ev : wev) : Prop := match ev with EvWrite _ t p => rec_ok (t, p) | _ => True end.

(** The run's invariant over the records [base] already in segments at its start;
    the segments of [gone] are drained. *)
Definition linv (lo : Z) (base gone : list (Z * bytes)) (w : wal) (d : disk) (log : list (Z * bytes))
    (sealed : nat) : Prop :=
  exists chunks pend, winv lo w d chunks pend /\ base ++ log = gone ++ concat chunks ++ pend /\
    (sealed + length pend = length log)%nat.

Lemma frames_nil_inv pend : frames pend = [] -> pend = [].
Proof.
  destruct pend as [|[t p] pend]; [done|]. intros E. apply (f_equal length) in E.
  cbn [frames flat_map fst snd] in E. rewrite length_app, length_frame in E. simpl in E. lia.
Qed.

(** Sealing what is buffered, and a failed attempt to. *)
Lemma linv_flush lo base gone w d log sealed flt w' d' e :
  linv lo base gone w d log sealed -> w_seg w + 1 < 2 ^ 64 -> flushLocked flt w d = (w', d', e) ->
  linv lo base gone w' d' log (if (length (w_buf w') =? 0)%nat then length log else sealed) /\
  w_seg w' <= w_seg w + 1.
Proof.
  intros (chunks & pend & Hi & Hl & Hs) Hb Hf.
  destruct (flushLocked_inv lo w d chunks pend flt w' d' e Hi Hb Hf) as
    [(_ & _ & Hbuf & chunks' & Hi' & Hcc & Hn)|(_ & _ & Hi')];
    pose proof (wi_seg _ _ _ _ _ Hi); pose proof (wi_seg _ _ _ _ _ Hi'); (split; [|lia]).
  - exists chunks', []. rewrite Hbuf, app_nil_r, Hcc. split; [done|]. split; [done|]. simpl. lia.
  - exists chunks, pend. split; [done|]. split; [done|].
    destruct (Nat.eqb_spec (length (w_buf w')) 0) as [E|E]; [|done].
    apply length_zero_iff_nil in E. rewrite (wi_buf _ _ _ _ _ Hi') in E.
    apply frames_nil_inv in E as ->. simpl. lia.
Qed.

(** A record joins the buffer. *)
Lemma linv_append lo base gone w d log sealed t p :
  linv lo base gone w d log sealed -> w_err w = None -> rec_ok (t, p) ->
  linv lo base gone (MkWal (w_buf w ++ frame t p) (w_seg w) (w_recs w + 1) None false) d
    (log ++ [(t, p)]) sealed.
Proof.
  intros (chunks & pend & [? ? Hb [? ?] ? Hv] & Hl & Hs) He Hr. exists chunks, (pend ++ [(t, p)]).
  split; [|split].
  - split; cbn [w_buf w_seg w_err]; try done.
    + rewrite Hb, frames_app. cbn [frames flat_map fst snd]. by rewrite app_nil_r.
    + split; [|done]. apply Forall_app. by split; [|apply List.Forall_cons].
    + destruct Hv as [Hv|[C _]]; [by left|done].
  - by rewrite app_assoc, Hl, <- !app_assoc.
  - rewrite !length_app. simpl. lia.
Qed.

(** Only the sticky error changes. *)
Lemma linv_err lo base gone w d log sealed b e :
  linv lo base gone w d log sealed -> e <> None ->
  linv lo base gone (MkWal (w_buf w) (w_seg w) (w_recs w) e b) d log sealed.
Proof.
  intros (chunks & pend & [? ? ? ? ? Hv] & Hl & Hs) He. exists chunks, pend.
  split; [|done]. split; try done. destruct Hv as [?|[_ ?]]; [by left|by right].
Qed.

Lemma sealed_now lo base gone w d log sealed :
  linv lo base gone w d log sealed ->
  linv lo base gone w d log (if (length (w_buf w) =? 0)%nat then length log else sealed).
Proof.
  intros (chunks & pend & Hi & Hl & Hs). exists chunks, pend. split; [done|]. split; [done|].
  destruct (Nat.eqb_spec (length (w_buf w)) 0) as [E|E]; [|done].
  apply length_zero_iff_nil in E. rewrite (wi_buf _ _ _ _ _ Hi) in E.
  apply frames_nil_inv in E as ->. simpl. lia.
Qed.

Lemma life_step_inv lo base gone l ev :
  linv lo base gone (l_wal l) (l_disk l) (l_log l) (l_sealed l) -> ev_ok ev ->
  w_seg (l_wal l) + 1 < 2 ^ 64 ->
  let l' := life_step l ev in
  linv lo base gone (l_wal l') (l_disk l') (l_log l') (l_sealed l') /\
  w_seg (l_wal l') <= w_seg (l_wal l) + 1.
Proof.
  intros Hl Hev Hb. unfold life_step. destruct l as [w d log sealed]. cbn [l_wal l_disk l_log l_sealed] in *.
  destruct ev as [flt t p|flt|flt]; cbn [wal_step accepted ev_ok] in *.
  - unfold writeRecord. destruct (w_err w) as [e|] eqn:He.
    { rewrite app_nil_r. split; [by apply sealed_now|simpl; lia]. }
    destruct (w_failWrites w) eqn:Hf.
    { rewrite app_nil_r. cbn [w_buf w_seg l_wal l_disk l_log l_sealed]. split; [|lia].
      by apply linv_err; [apply sealed_now|]. }
    pose proof (linv_append lo base gone w d log sealed t p Hl He Hev) as Ha.
    cbn [w_buf]. destruct (_ >=? flushMaxBytes).
    + destruct (flushLocked flt _ d) as [[w' d'] e] eqn:E.
      apply (linv_flush lo base gone _ _ _ _ _ _ _ _ Ha Hb E).
    + cbn [l_wal l_disk l_log l_sealed w_seg]. split; [by apply sealed_now in Ha|lia].
  - destruct (flushLocked flt w d) as [[w' d'] e] eqn:E. rewrite app_nil_r.
    apply (linv_flush lo base gone _ _ _ _ _ _ _ _ Hl Hb E).
  - unfold wal_close. destruct (flushLocked flt w d) as [[w' d'] e] eqn:E. rewrite app_nil_r.
    destruct (linv_flush lo base gone _ _ _ _ _ _ _ _ Hl Hb E) as [H1 H2].
    destruct (w_err w') eqn:He; cbn [l_wal l_disk l_log l_sealed w_buf w_seg]; [done|].
    split; [|done]. by apply linv_err.
Qed.

Lemma life_run_inv lo base gone evs l :
  linv lo base gone (l_wal l) (l_disk l) (l_log l) (l_sealed l) -> Forall ev_ok evs ->
  w_seg (l_wal l) + zlen evs + 1 < 2 ^ 64 ->
  let l' := life_run l evs in
  linv lo base gone (l_wal l') (l_disk l') (l_log l') (l_sealed l') /\ w_seg (l_wal l') + 1 < 2 ^ 64.
Proof.
  intros Hl Hev. revert l Hl. induction Hev as [|ev evs He Hes IH]; intros l Hl Hb.
  - change (zlen []) with 0 in Hb. split; [done|]. simpl. lia.
  - rewrite zlen_cons in Hb. pose proof (zlen_pos evs).
    destruct (life_step_inv lo base gone l ev Hl He) as [H1 H2]; [lia|].
    apply (IH (life_step l ev) H1). lia.
Qed.

(** Restarting on what a crash left. *)
Lemma boot_segs {S} (apply : S -> Z -> bytes -> outcome S) lo d' chunks s :
  (forall s t p, apply s t p <> Err errWALFraming) ->
  0 <= lo -> Forall (Forall rec_ok) chunks ->
  segs_are lo (vis (booted d')) (sealed_map lo chunks) ->
  let '(w, d, r) := bootWAL apply lo (booted d') s in
  winv lo w d chunks [] /\ w_err w = None /\
  r = (let '(s, o) := apply_records apply (concat chunks) s in (s, [], o)).
Proof.
  intros Hap Hlo Hok Hs. unfold bootWAL, openWAL.
  set (d1 := removeStaleTemps (booted d')).
  assert (H1 : segs_are lo (vis d1) (sealed_map lo chunks)) by (by apply segs_are_temps).
  pose proof (segs_are_removeDrained lo Hlo d1 _ lo ltac:(lia) H1) as H2.
  pose proof (scanMaxSeg_max lo Hlo d1 (map frames chunks) H1) as Hm.
  unfold zlen in Hm. rewrite length_map in Hm. cbn [w_seg w_buf w_recs w_err w_failWrites].
  split; [|split; [by destruct (_ <? _)|by apply replay_chunks]].
  split; cbn [dur vis].
  - done.
  - by destruct (scanMaxSeg d1 <? lo) eqn:E; cbn [w_seg].
  - by destruct (_ <? _).
  - done.
  - by rewrite removeDrained_dur.
  - by left.
Qed.

(** C14: whatever calls fail during a process's lifetime and whenever it
    crashes, recovery rebuilds a prefix of the records it logged, in order, that
    covers everything up to the last completed seal; the reopened log satisfies
    the invariant the next lifetime starts from. *)
Theorem wal_crash_recovery {S} (apply : S -> Z -> bytes -> outcome S) lo w d chunks evs d' s :
  (forall s t p, apply s t p <> Err errWALFraming) ->
  winv lo w d chunks [] -> w_err w = None -> Forall ev_ok evs ->
  w_seg w + zlen evs + 1 < 2 ^ 64 ->
  let l := life_run (MkLife w d [] 0) evs in
  crash (l_disk l) d' ->
  exists n chunks', (l_sealed l <= n <= length (l_log l))%nat /\
    concat chunks' = concat chunks ++ take n (l_log l) /\
    let '(w', d'', r) := bootWAL apply lo (booted d') s in
    winv lo w' d'' chunks' [] /\ w_err w' = None /\
    r = (let '(s, o) := apply_records apply (concat chunks') s in (s, [], o)).
Proof.
  intros Hap Hi He Hev Hb l Hcr.
  assert (H0 : linv lo (concat chunks) [] w d [] 0).
  { exists chunks, []. by rewrite !app_nil_r. }
  destruct (life_run_inv lo (concat chunks) [] evs (MkLife w d [] 0) H0 Hev Hb) as [Hl Hb'].
  fold l in Hl, Hb'. destruct Hl as (ch & pend & Hi' & Hlog & Hs). rewrite app_nil_l in Hlog.
  assert (Hsplit : concat ch = concat chunks ++ take (l_sealed l) (l_log l)).
  { assert (El : length (concat ch) = (length (concat chunks) + l_sealed l)%nat).
    { apply (f_equal length) in Hlog. rewrite !length_app in Hlog. lia. }
    rewrite <- (take_app_length (concat ch) pend), <- Hlog, El.
    by rewrite take_app_add. }
  destruct (wi_ok _ _ _ _ _ Hi') as [Hokp Hokc].
  destruct (crash_segs lo _ _ ch pend d' Hi' Hb' Hcr) as [Hseg|[_ Hseg]].
  - exists (l_sealed l), ch. split; [lia|]. split; [done|].
    apply boot_segs; try done. by apply (wi_lo _ _ _ _ _ Hi).
  - exists (length (l_log l)), (ch ++ [pend]). split; [lia|]. split.
    + rewrite concat_app. cbn [concat]. by rewrite app_nil_r, <- Hlog, firstn_all.
    + apply boot_segs; try done; [by apply (wi_lo _ _ _ _ _ Hi)|].
      apply Forall_app. split; [done|]. by apply List.Forall_cons.
Qed.

(** A failed log refuses every step. *)
Lemma wal_sticky w d ev e : w_err w = Some e -> wal_step w d ev = (w, d, Some e).
Proof.
  intros He. destruct ev; cbn [wal_step]; unfold writeRecord, wal_close, flushLocked; rewrite He; [done..|].
  by rewrite He.
Qed.

(** A write or flush that reports success leaves no error behind, a failed
    one makes the log refuse everything after it: no record follows a lost one. *)
Theorem wal_error_sticky w d ev evs e :
  w_err w = Some e ->
  let l := life_run (MkLife w d [] 0) (ev :: evs) in
  wal_step w d ev = (w, d, Some e) /\ l_wal l = w /\ l_disk l = d /\ l_log l = [].
Proof.
  intros He.
  pose proof (fun ev => wal_sticky w d ev e He) as Hs.
  split; [apply Hs|].
  assert (G : forall evs n, let l := life_run (MkLife w d [] n) evs in
            l_wal l = w /\ l_disk l = d /\ l_log l = []).
  { clear evs ev. induction evs as [|ev evs IH]; intros n; [done|].
    assert (E : exists n', life_step (MkLife w d [] n) ev = MkLife w d [] n').
    { unfold life_step. cbn [l_wal l_disk l_log]. rewrite Hs.
      assert (accepted w ev = []) as -> by (destruct ev; cbn; by rewrite ?He). by eexists. }
    destruct E as [n' E]. cbn [life_run fold_left]. rewrite E. apply (IH n'). }
  apply G.
Qed.

(** A fresh directory. *)
Lemma winv_fresh : winv 0 (MkWal [] 0 0 None false) (booted ∅) [] [].
Proof.
  assert (H : segs_are 0 (fmap (fun c => (c, true)) (∅ : gmap bytes bytes)) (sealed_map 0 [])).
  { split; [intros n c; change (sealed_map 0 []) with (∅ : gmap Z bytes); by rewrite lookup_empty|].
    intros name f n. rewrite fmap_empty. by rewrite lookup_empty. }
  split; cbn [booted vis dur]; try done. by left.
Qed.

(** A crash may keep everything that was visible. *)
Lemma crash_visible d : crash d (fst <$> vis d).
Proof.
  intros n. rewrite lookup_fmap. destruct (vis d !! n) as [f|] eqn:E; simpl; [|by left].
  exists f. split; [by left|done].
Qed.

(** Two records sealed, a third whose flush fails at the directory fsync, then a
    crash that keeps the renamed segment. *)
Definition demo_evs : list wev :=
  [EvWrite None 1 (lit "a"); EvWrite None 1 (lit "b"); EvFlush None;
   EvWrite None 2 (lit "c"); EvFlush (Some (5, 0)%nat); EvWrite None 1 (lit "d")].
Definition demo_disk : gmap bytes bytes :=
  fst <$> vis (l_disk (life_run (MkLife (MkWal [] 0 0 None false) (booted ∅) [] 0) demo_evs)).

Lemma wal_crash_recovery_witness :
  let l := life_run (MkLife (MkWal [] 0 0 None false) (booted ∅) [] 0) demo_evs in
  exists n chunks', (l_sealed l <= n <= length (l_log l))%nat /\
    concat chunks' = [] ++ take n (l_log l) /\
    let '(w', d'', r) := bootWAL log_record 0 (booted demo_disk) [] in
    winv 0 w' d'' chunks' [] /\ w_err w' = None /\
    r = (let '(s, o) := apply_records log_record (concat chunks') [] in (s, [], o)).
Proof.
  apply (wal_crash_recovery log_record 0 _ _ [] demo_evs demo_disk []).
  - discriminate.
  - apply winv_fresh.
  - done.
  - repeat constructor; simpl; lia.
  - vm_compute. reflexivity.
  - apply crash_visible.
Defined.

Lemma wal_error_sticky_witness :
  let w := MkWal [] 3 0 (Some errIO) false in
  let l := life_run (MkLife w (booted ∅) [] 0) [EvWrite None 1 (lit "x"); EvFlush None] in
  wal_step w (booted ∅) (EvWrite None 1 (lit "x")) = (w, booted ∅, Some errIO) /\
  l_wal l = w /\ l_disk l = booted ∅ /\ l_log l = [].
Proof. apply wal_error_sticky. reflexivity. Defined.
