(* ===== verification/Journal.v ===== *)
(** * Journal: what the storage engine relies on from its write-ahead log.

    [jwrite] is writeRecord; [jlog] is a ghost, the records recovery may at most
    see. A successful write extends it by that record. A failed one may have
    logged the record or not - the caller is told to abort either way - and every
    write after it fails with the same error. *)
From S2P Require Import Prelude Bytes Frame Wal.

Class Journal (J : Type) : Type := {
  jwrite : J -> Z -> bytes -> J * option error;
  jlog : J -> list (Z * bytes);
  jwrite_ok j t p j' : jwrite j t p = (j', None) -> jlog j' = jlog j ++ [(t, p)];
  jwrite_err j t p j' e : jwrite j t p = (j', Some e) ->
    (jlog j' = jlog j \/ jlog j' = jlog j ++ [(t, p)]) /\
    forall t p, jwrite j' t p = (j', Some e);
}.

(** The segment log keeps the promise, for any schedule of system-call faults. *)
Record walj : Type := MkWalJ { wj_life : lifetime; wj_faults : nat -> fault }.

Definition walj_write (j : walj) (t : Z) (p : bytes) : walj * option error :=
  let l := wj_life j in
  match w_err (l_wal l) with
  | Some e => (j, Some e)
  | None =>
      let ev := EvWrite (wj_faults j 0%nat) t p in
      (MkWalJ (life_step l ev) (fun n => wj_faults j (S n)),
       snd (wal_step (l_wal l) (l_disk l) ev))
  end.

Lemma flushLocked_err flt w d w' d' e :
  flushLocked flt w d = (w', d', e) -> w_err w = None -> w_err w' = e.
Proof.
  unfold flushLocked. intros H Hn. rewrite Hn in H.
  destruct (_ =? 0)%nat; [by injection H as <- <- <-|].
  destruct (run_ops _ _ _) as [? [|]]; by injection H as <- <- <-.
Qed.

Lemma walj_write_err j t p j' e : walj_write j t p = (j', e) -> w_err (l_wal (wj_life j')) = e.
Proof.
  unfold walj_write. destruct (w_err (l_wal (wj_life j))) as [e0|] eqn:E; [by intros [= <- <-]|].
  intros [= <- He].
  change (snd (wal_step (l_wal (wj_life j)) (l_disk (wj_life j)) (EvWrite (wj_faults j 0%nat) t p)) = e) in He.
  cbn [wj_life]. unfold life_step.
  destruct (wal_step _ _ _) as [[w d] e1] eqn:Es. cbn [snd] in He. subst e1.
  cbn [l_wal wal_step] in *.
  unfold writeRecord in Es. rewrite E in Es.
  destruct (w_failWrites _); [by injection Es as <- <- <-|].
  destruct (_ >=? _); [|by injection Es as <- <- <-].
  by eapply flushLocked_err.
Qed.

Lemma walj_write_log j t p : w_err (l_wal (wj_life j)) = None ->
  l_log (wj_life (fst (walj_write j t p))) =
    l_log (wj_life j) ++ (if w_failWrites (l_wal (wj_life j)) then [] else [(t, p)]).
Proof.
  intros E. unfold walj_write. rewrite E. cbn [fst wj_life]. unfold life_step.
  destruct (wal_step _ _ _) as [[w d] e]. cbn [l_log accepted]. by rewrite E.
Qed.

#[export, refine] Instance wal_journal : Journal walj := {|
  jwrite := walj_write;
  jlog j := l_log (wj_life j);
|}.
Proof.
  - intros j t p j' H. pose proof (walj_write_err _ _ _ _ _ H) as Ee.
    unfold walj_write in H. destruct (w_err (l_wal (wj_life j))) as [e0|] eqn:E; [done|].
    pose proof (walj_write_log j t p E) as L. unfold walj_write in L. rewrite E in L. cbn [fst] in L.
    injection H as <- Hs. rewrite L. destruct (w_failWrites _) eqn:F; [|done].
    cbn [wal_step] in Hs. unfold writeRecord in Hs. rewrite E, F in Hs. done.
  - intros j t p j' e H. pose proof (walj_write_err _ _ _ _ _ H) as Ee.
    split; [|intros t' p'; unfold walj_write; by rewrite Ee].
    destruct (w_err (l_wal (wj_life j))) as [e0|] eqn:E.
    + unfold walj_write in H. rewrite E in H. injection H as <- <-. by left.
    + pose proof (walj_write_log j t p E) as L. rewrite H in L. cbn [fst] in L.
      destruct (w_failWrites _); [left; by rewrite L, app_nil_r | by right].
Qed.

(** A journal that always succeeds, for concrete runs. *)
#[export, refine] Instance list_journal : Journal (list (Z * bytes)) := {|
  jwrite j t p := (j ++ [(t, p)], None);
  jlog j := j;
|}.
Proof.
  - by intros j t p j' [= <-].
  - by intros j t p j' e [=].
Defined.

(** Writing through an optional journal: a memory-only database has none. *)
Definition jwrite_opt {J} `{Journal J} (w : option J) (t : Z) (p : bytes) : option J * option error :=
  match w with
  | None => (None, None)
  | Some j => let '(j, e) := jwrite j t p in (Some j, e)
  end.
