(* ===== verification/Schema.v ===== *)
(** * Schema: schema.go — table definitions, their resolution, and the cell and
    row checks of the write path. Names are byte strings; a column type is the
    uint8 it is stored as, so that the values no constant names are covered. *)
From S2P Require Import Prelude Bytes Uuid Value.

Definition TypeInt : Z := 1.
Definition TypeString : Z := 2.
Definition TypeBytes : Z := 3.
Definition TypeBool : Z := 4.
Definition TypeUUID : Z := 5.

Record ColumnDef : Type := MkCol {
  c_Name : bytes;
  c_Type : Z;
  c_PK : bool;
  c_Immutable : bool;
  c_PartitionKey : bool;
  c_Nullable : bool;
}.
Record IndexDef : Type := MkIndex {
  ix_Name : bytes;
  ix_Columns : list bytes;
  ix_Ordered : bool;
}.
Record TableDef : Type := MkTable {
  t_Name : bytes;
  t_Columns : list ColumnDef;
  t_Indexes : list IndexDef;
}.
Record resolvedIndex : Type := MkResolvedIndex {
  ri_name : bytes;
  ri_ordinals : list nat;
  ri_ordered : bool;
}.
Record resolvedTable : Type := MkResolved {
  rt_def : TableDef;
  rt_colByName : gmap bytes nat;
  rt_pkOrdinal : Z;
  rt_partitionOrdinal : Z;
  rt_indexes : list resolvedIndex;
}.

Definition singleOn (ri : resolvedIndex) (ord : nat) : bool :=
  (length (ri_ordinals ri) =? 1)%nat && bool_decide (ri_ordinals ri !! 0%nat = Some ord).
Definition indexOfColumn (rt : resolvedTable) (ord : nat) : option resolvedIndex :=
  List.find (fun ri => singleOn ri ord) (rt_indexes rt).
Definition partitioned (rt : resolvedTable) : bool := 0 <=? rt_partitionOrdinal rt.

(** The loop over the columns. *)
Fixpoint resolve_cols (cols : list ColumnDef) (i : nat) (colByName : gmap bytes nat) (pk part : Z)
  : outcome (gmap bytes nat * Z * Z) :=
  match cols with
  | [] => Ok (colByName, pk, part)
  | c :: cols =>
      if (length (c_Name c) =? 0)%nat then Err errSchema
      else match colByName !! c_Name c with
      | Some _ => Err errSchema
      | None =>
          let colByName := <[c_Name c := i]> colByName in
          pk ← (if c_PK c then
                  if 0 <=? pk then Err errSchema
                  else if negb (c_Type c =? TypeUUID) then Err errSchema
                  else Ok (Z.of_nat i)
                else Ok pk);
          part ← (if c_PartitionKey c then
                    if 0 <=? part then Err errSchema
                    else if negb (c_Type c =? TypeUUID) then Err errSchema
                    else Ok (Z.of_nat i)
                  else Ok part);
          resolve_cols cols (S i) colByName pk part
      end
  end.

(** The columns of one index, to ordinals. *)
Fixpoint resolve_index_cols (cols : list bytes) (colByName : gmap bytes nat) (pk : Z)
    (seenCol : gset nat) (ords : list nat) : outcome (list nat) :=
  match cols with
  | [] => Ok ords
  | col :: cols =>
      match colByName !! col with
      | None => Err errSchema
      | Some ord =>
          if Z.of_nat ord =? pk then Err errSchema
          else if bool_decide (ord ∈ seenCol) then Err errSchema
          else resolve_index_cols cols colByName pk ({[ord]} ∪ seenCol) (ords ++ [ord])
      end
  end.

(** strings.Join(cols, "_") *)
Fixpoint join_underscore (cols : list bytes) : bytes :=
  match cols with
  | [] => []
  | [c] => c
  | c :: cols => c ++ lit "_" ++ join_underscore cols
  end.

(** The signature fmt.Sprint(ords) stands for the ordinal list itself. *)
Fixpoint resolve_indexes (ixs : list IndexDef) (colByName : gmap bytes nat) (pk : Z)
    (seenIdxSig : gset (list nat)) (seenIdxName : gset bytes) (acc : list resolvedIndex)
  : outcome (list resolvedIndex) :=
  match ixs with
  | [] => Ok acc
  | ix :: ixs =>
      if (length (ix_Columns ix) =? 0)%nat then Err errSchema
      else
        ords ← resolve_index_cols (ix_Columns ix) colByName pk ∅ [];
        if bool_decide (ords ∈ seenIdxSig) then Err errSchema
        else
          let name := if (length (ix_Name ix) =? 0)%nat
                      then lit "idx_" ++ join_underscore (ix_Columns ix) else ix_Name ix in
          if bool_decide (name ∈ seenIdxName) then Err errSchema
          else resolve_indexes ixs colByName pk ({[ords]} ∪ seenIdxSig) ({[name]} ∪ seenIdxName)
                 (acc ++ [MkResolvedIndex name ords (ix_Ordered ix)])
  end.

Definition resolve_table (t : TableDef) : outcome resolvedTable :=
  r ← resolve_cols (t_Columns t) 0 ∅ (-1) (-1);
  let '(colByName, pk, part) := r in
  if pk <? 0 then Err errSchema
  else if part =? pk then Err errSchema
  else if (0 <=? part) && negb (length (t_Indexes t) =? 0)%nat then Err errSchema
  else
    ixs ← resolve_indexes (t_Indexes t) colByName pk ∅ ∅ [];
    Ok (MkResolved t colByName pk part ixs).

Fixpoint resolve_tables (ts : list TableDef) (out : gmap bytes resolvedTable)
  : outcome (gmap bytes resolvedTable) :=
  match ts with
  | [] => Ok out
  | t :: ts =>
      if (length (t_Name t) =? 0)%nat then Err errSchema
      else match out !! t_Name t with
      | Some _ => Err errSchema
      | None => rt ← resolve_table t; resolve_tables ts (<[t_Name t := rt]> out)
      end
  end.
Definition resolveSchema (s : list TableDef) : outcome (gmap bytes resolvedTable) :=
  resolve_tables s ∅.

(** utf8.ValidString: [need] continuation bytes are due, the next one within
    [lo, hi] (the range that rules out overlong forms and surrogates). *)
Fixpoint utf8_loop (s : bytes) (need : nat) (lo hi : Z) : bool :=
  match s with
  | [] => (need =? 0)%nat
  | b :: s =>
      let c := b2z b in
      match need with
      | S need => (lo <=? c) && (c <=? hi) && utf8_loop s need 0x80 0xBF
      | O =>
          if c <? 0x80 then utf8_loop s 0 0x80 0xBF
          else if (0xC2 <=? c) && (c <=? 0xDF) then utf8_loop s 1 0x80 0xBF
          else if c =? 0xE0 then utf8_loop s 2 0xA0 0xBF
          else if c =? 0xED then utf8_loop s 2 0x80 0x9F
          else if (0xE1 <=? c) && (c <=? 0xEF) then utf8_loop s 2 0x80 0xBF
          else if c =? 0xF0 then utf8_loop s 3 0x90 0xBF
          else if (0xF1 <=? c) && (c <=? 0xF3) then utf8_loop s 3 0x80 0xBF
          else if c =? 0xF4 then utf8_loop s 3 0x80 0x8F
          else false
      end
  end.
Definition ValidString (s : bytes) : bool := utf8_loop s 0 0x80 0xBF.

Definition validateValue (c : ColumnDef) (v : Value) : outcome unit :=
  if IsNull v then if negb (c_Nullable c) then Err errNotNull else Ok tt
  else if c_Type c =? TypeInt then
    if bool_decide (Kind v = KindInt) then Ok tt else Err errExpectsType
  else if c_Type c =? TypeString then
    if negb (bool_decide (Kind v = KindString)) then Err errExpectsType
    else if negb (ValidString (v_Str v)) then Err errExpectsUTF8 else Ok tt
  else if c_Type c =? TypeBytes then
    if bool_decide (Kind v = KindBytes) then Ok tt else Err errExpectsType
  else if c_Type c =? TypeBool then
    if bool_decide (Kind v = KindBool) then Ok tt else Err errExpectsType
  else if c_Type c =? TypeUUID then
    if bool_decide (Kind v = KindUUID) then Ok tt else Err errExpectsType
  else Ok tt.

(** Both error returns of validateInsertRow wrap ErrWALCorrupt. *)
Fixpoint validate_cells (cols : list ColumnDef) (row : Row) : outcome unit :=
  match row, cols with
  | [], _ => Ok tt
  | _ :: _, [] => Panic
  | v :: row, c :: cols =>
      match validateValue c v with
      | Ok _ => validate_cells cols row
      | Err _ => Err ErrWALCorrupt
      | Panic => Panic
      end
  end.
Definition validateInsertRow (cols : list ColumnDef) (row : Row) : outcome unit :=
  if negb (length row =? length cols)%nat then Err ErrWALCorrupt else validate_cells cols row.

(** ** What a resolved table guarantees *)

Definition column_at (t : TableDef) (i : nat) (name : bytes) : Prop :=
  exists c, t_Columns t !! i = Some c /\ c_Name c = name.

Record resolved_ok (t : TableDef) (rt : resolvedTable) : Prop := {
  ro_def : rt_def rt = t;
  ro_cols name i : rt_colByName rt !! name = Some i <-> column_at t i name;
  ro_pk : exists p c, rt_pkOrdinal rt = Z.of_nat p /\ t_Columns t !! p = Some c /\
            c_PK c = true /\ c_Type c = TypeUUID;
  ro_pk_unique i c : t_Columns t !! i = Some c -> c_PK c = true -> Z.of_nat i = rt_pkOrdinal rt;
  ro_part : rt_partitionOrdinal rt = -1 \/
            (exists p c, rt_partitionOrdinal rt = Z.of_nat p /\ t_Columns t !! p = Some c /\
              c_PartitionKey c = true /\ c_Type c = TypeUUID /\
              rt_partitionOrdinal rt <> rt_pkOrdinal rt /\ rt_indexes rt = []);
  ro_index ri : ri ∈ rt_indexes rt ->
    ri_ordinals ri <> [] /\ NoDup (ri_ordinals ri) /\
    Forall (fun o => (o < length (t_Columns t))%nat /\ Z.of_nat o <> rt_pkOrdinal rt) (ri_ordinals ri);
  ro_sigs : NoDup (map ri_ordinals (rt_indexes rt));
  ro_names : NoDup (map ri_name (rt_indexes rt));
}.

(** The column loop, by the columns already seen. *)
Record cols_inv (done_ : list ColumnDef) (m : gmap bytes nat) (pk part : Z) : Prop := {
  ci_map name i : m !! name = Some i <-> exists c, done_ !! i = Some c /\ c_Name c = name;
  ci_pk : (pk = -1 /\ Forall (fun c => c_PK c = false) done_) \/
    (exists p c, pk = Z.of_nat p /\ done_ !! p = Some c /\ c_PK c = true /\ c_Type c = TypeUUID /\
      forall i c, done_ !! i = Some c -> c_PK c = true -> i = p);
  ci_part : part = -1 \/
    (exists p c, part = Z.of_nat p /\ done_ !! p = Some c /\ c_PartitionKey c = true /\
      c_Type c = TypeUUID);
}.

Lemma lookup_snoc_inv {A} (l : list A) x i y :
  (l ++ [x]) !! i = Some y -> l !! i = Some y \/ (i = length l /\ y = x).
Proof.
  intros [H|[Hl H]]%lookup_app_Some; [by left|]. right.
  destruct (i - length l)%nat eqn:E; [|done]. injection H as ->. split; [lia|done].
Qed.

Lemma lookup_snoc_last {A} (l : list A) x : (l ++ [x]) !! length l = Some x.
Proof. by rewrite lookup_app_r, Nat.sub_diag by lia. Qed.

Lemma lookup_snoc_old {A} (l : list A) x i y : l !! i = Some y -> (l ++ [x]) !! i = Some y.
Proof. intros H. rewrite lookup_app_l; [done|]. by eapply lookup_lt_Some. Qed.

Lemma resolve_cols_inv cols done_ m pk part m' pk' part' :
  cols_inv done_ m pk part ->
  resolve_cols cols (length done_) m pk part = Ok (m', pk', part') ->
  cols_inv (done_ ++ cols) m' pk' part'.
Proof.
  revert done_ m pk part. induction cols as [|c cols IH]; intros done_ m pk part Hi.
  - intros [= <- <- <-]. by rewrite app_nil_r.
  - cbn [resolve_cols]. destruct (_ =? 0)%nat; [done|].
    destruct (m !! c_Name c) as [|] eqn:Em; [done|].
    intros H. inv_bind. rename x into pk1, x0 into part1, H0 into Hpk, H1 into Hpart.
    replace (done_ ++ c :: cols) with ((done_ ++ [c]) ++ cols) by (by rewrite <- app_assoc).
    eapply IH; [|rewrite length_app; simpl; rewrite Nat.add_1_r; exact H].
    destruct Hi as [Hm Hk Hr]. split.
    + intros name i. rewrite lookup_insert_Some, Hm. split.
      * intros [[<- <-]|[_ (c' & Hc & En)]].
        -- exists c. split; [apply lookup_snoc_last|done].
        -- exists c'. split; [by apply lookup_snoc_old|done].
      * intros (c' & [Hc|[-> ->]]%lookup_snoc_inv & En); [|by left].
        right. split; [|eauto]. intros E. rewrite E in Em.
        assert (Hs : m !! name = Some i) by (apply Hm; eauto). congruence.
    + destruct (c_PK c) eqn:Ec.
      * destruct (Z.leb_spec 0 pk); [done|]. destruct (Z.eqb_spec (c_Type c) TypeUUID); [|done].
        simpl in Hpk. inv_bind. right. exists (length done_), c.
        split; [done|]. split; [apply lookup_snoc_last|]. split; [done|]. split; [done|].
        intros i c' [Hc|[-> _]]%lookup_snoc_inv Hpkc; [|done].
        destruct Hk as [[_ Hk]|(p & ? & -> & _)]; [|lia].
        rewrite List.Forall_forall in Hk. rewrite (Hk c') in Hpkc; [done|].
        by apply list_elem_of_In, list_elem_of_lookup_2 with i.
      * inv_bind. destruct Hk as [[-> Hk]|(p & c' & -> & Hc & ? & ? & Hu)]; [left|right].
        -- split; [done|]. apply Forall_app. by split; [|constructor].
        -- exists p, c'. split; [done|]. split; [by apply lookup_snoc_old|].
           split; [done|]. split; [done|].
           intros i c2 [Hc2|[-> ->]]%lookup_snoc_inv Hp2; [by eapply Hu|congruence].
    + destruct (c_PartitionKey c) eqn:Ec.
      * destruct (Z.leb_spec 0 part); [done|]. destruct (Z.eqb_spec (c_Type c) TypeUUID); [|done].
        simpl in Hpart. inv_bind. right. exists (length done_), c. split; [done|].
        split; [apply lookup_snoc_last|done].
      * inv_bind. destruct Hr as [->|(p & c' & -> & Hc & ?)]; [by left|right].
        exists p, c'. split; [done|]. split; [by apply lookup_snoc_old|done].
Qed.

Lemma resolve_index_cols_inv cols m pk n seen acc ords :
  (forall name i, m !! name = Some i -> (i < n)%nat) ->
  (forall o, o ∈ seen <-> o ∈ acc) -> NoDup acc ->
  Forall (fun o => (o < n)%nat /\ Z.of_nat o <> pk) acc ->
  resolve_index_cols cols m pk seen acc = Ok ords ->
  NoDup ords /\ Forall (fun o => (o < n)%nat /\ Z.of_nat o <> pk) ords /\
  length ords = (length acc + length cols)%nat.
Proof.
  intros Hm. revert seen acc. induction cols as [|col cols IH]; intros seen acc Hs Hn Hf; simpl.
  - intros [= <-]. split; [done|]. split; [done|lia].
  - destruct (m !! col) as [o|] eqn:E; [|done]. destruct (Z.eqb_spec (Z.of_nat o) pk); [done|].
    case_bool_decide as Hin; [done|]. intros H. apply IH in H.
    + rewrite length_app in H. simpl in H. split; [apply H|]. split; [apply H|lia].
    + intros x. rewrite elem_of_union, elem_of_singleton, elem_of_app, list_elem_of_singleton, Hs. tauto.
    + apply list.NoDup_app. split; [done|]. split; [|apply NoDup_singleton].
      intros x Hx ->%list_elem_of_singleton. by apply Hin, Hs.
    + apply Forall_app. split; [done|]. apply List.Forall_cons; [|constructor].
      split; [by eapply Hm|done].
Qed.

Definition index_ok (n : nat) (pk : Z) (ri : resolvedIndex) : Prop :=
  ri_ordinals ri <> [] /\ NoDup (ri_ordinals ri) /\
  Forall (fun o => (o < n)%nat /\ Z.of_nat o <> pk) (ri_ordinals ri).

Lemma resolve_indexes_inv ixs m pk n sigs names acc out :
  (forall name i, m !! name = Some i -> (i < n)%nat) ->
  (forall o, o ∈ sigs <-> o ∈ map ri_ordinals acc) -> (forall o, o ∈ names <-> o ∈ map ri_name acc) ->
  NoDup (map ri_ordinals acc) -> NoDup (map ri_name acc) -> Forall (index_ok n pk) acc ->
  resolve_indexes ixs m pk sigs names acc = Ok out ->
  NoDup (map ri_ordinals out) /\ NoDup (map ri_name out) /\ Forall (index_ok n pk) out /\
  length out = (length acc + length ixs)%nat.
Proof.
  intros Hm. revert sigs names acc. induction ixs as [|ix ixs IH];
    intros sigs names acc Hs Hna N1 N2 Hf; cbn [resolve_indexes length].
  - intros [= <-]. split; [done|]. split; [done|]. split; [done|lia].
  - destruct (Nat.eqb_spec (length (ix_Columns ix)) 0) as [|Hne]; [done|].
    intros H. inv_bind. rename x into ords, H0 into Ho.
    apply (resolve_index_cols_inv _ _ _ n) in Ho as (Nd & Fd & Ld); [|done|by intros o; rewrite elem_of_empty, elem_of_nil|constructor|constructor].
    case_bool_decide as B1; [done|]. cbv zeta in H. revert H.
    generalize (if (length (ix_Name ix) =? 0)%nat
                then lit "idx_" ++ join_underscore (ix_Columns ix) else ix_Name ix).
    intros name. case_bool_decide as B2; [done|]. intros H.
    apply IH in H.
    + rewrite length_app in H. simpl in H.
      destruct H as (? & ? & ? & ?). split; [done|]. split; [done|]. split; [done|lia].
    + intros o. rewrite map_app, elem_of_union, elem_of_singleton, elem_of_app, Hs. simpl.
      rewrite list_elem_of_singleton. tauto.
    + intros o. rewrite map_app, elem_of_union, elem_of_singleton, elem_of_app, Hna. simpl.
      rewrite list_elem_of_singleton. tauto.
    + rewrite map_app. apply list.NoDup_app. split; [done|]. split; [|apply NoDup_singleton].
      intros o Ho ->%list_elem_of_singleton. by apply B1, Hs.
    + rewrite map_app. apply list.NoDup_app. split; [done|]. split; [|apply NoDup_singleton].
      intros o Ho ->%list_elem_of_singleton. by apply B2, Hna.
    + apply Forall_app. split; [done|]. apply List.Forall_cons; [|constructor].
      split; [|done]. simpl. intros ->. simpl in Ld. lia.
Qed.

Lemma resolve_table_def t rt : resolve_table t = Ok rt -> rt_def rt = t.
Proof.
  unfold resolve_table. intros H. inv_bind. destruct x as [[m pk] part].
  destruct (pk <? 0); [done|]. destruct (part =? pk); [done|]. destruct (_ && _); [done|].
  by inv_bind.
Qed.

Lemma resolved_table t rt : resolve_table t = Ok rt -> resolved_ok t rt.
Proof.
  unfold resolve_table. intros H. inv_bind. destruct x as [[m pk] part].
  rename H0 into Hc. apply (resolve_cols_inv _ []) in Hc as [Hm Hpk Hpart].
  2: { split; [|by left|by left]. intros name i. rewrite lookup_empty.
       split; [done|]. by intros (c & ? & _). }
  rewrite app_nil_l in *.
  destruct (Z.ltb_spec pk 0); [done|]. destruct (Z.eqb_spec part pk); [done|].
  destruct (_ && _) eqn:Ep; [done|]. inv_bind. rename x into ixs, H1 into Hix.
  apply (resolve_indexes_inv _ _ _ (length (t_Columns t))) in Hix as (N1 & N2 & Hf & Hl);
    [|intros name i (c & ? & _)%Hm; by eapply lookup_lt_Some
     |by intros o; rewrite elem_of_empty, elem_of_nil
     |by intros o; rewrite elem_of_empty, elem_of_nil|constructor..].
  split; cbn; try done.
  - destruct Hpk as [[-> _]|(p & c & -> & Hc & ? & ? & _)]; [lia|]. by exists p, c.
  - destruct Hpk as [[-> _]|(p & c & -> & Hc & ? & ? & Hu)]; [lia|].
    intros i c' Hi Hp. by rewrite (Hu i c').
  - destruct Hpart as [->|(p & c & -> & Hc & ? & ?)]; [by left|right]. exists p, c.
    repeat (split; [done|]). destruct (Z.leb_spec 0 (Z.of_nat p)); [|lia].
    cbn [andb] in Ep. apply negb_false_iff, Nat.eqb_eq in Ep. rewrite Ep in Hl.
    by apply nil_length_inv.
  - intros ri Hri. rewrite List.Forall_forall in Hf. apply Hf. by apply list_elem_of_In.
Qed.
(** A table that resolves has one UUID primary key, a faithful name map,
    and indexes on distinct known non-key columns, no two alike. *)
Theorem resolve_table_ok t rt : resolve_table t = Ok rt -> resolved_ok t rt.
Proof. apply resolved_table. Qed.

(** ** Typed rows *)

(** The cells a column accepts. *)
Definition cell_fits (c : ColumnDef) (v : Value) : Prop := validateValue c v = Ok tt.

Lemma validateValue_null c v : cell_fits c v -> Kind v = KindNull -> c_Nullable c = true.
Proof.
  unfold cell_fits, validateValue, IsNull. intros H E. rewrite bool_decide_true in H by done.
  by destruct (c_Nullable c).
Qed.

Lemma validateValue_uuid c v :
  cell_fits c v -> c_Type c = TypeUUID -> c_Nullable c = false -> Kind v = KindUUID.
Proof.
  unfold cell_fits, validateValue. intros H E N. rewrite E, N in H. simpl in H.
  destruct (IsNull v); [done|]. by destruct (bool_decide_reflect (Kind v = KindUUID)).
Qed.

(** A row of a table: one fitting cell per column. *)
Definition row_fits (cols : list ColumnDef) (row : Row) : Prop := Forall2 cell_fits cols row.

Lemma validateInsertRow_ok cols row : validateInsertRow cols row = Ok tt <-> row_fits cols row.
Proof.
  unfold validateInsertRow, row_fits.
  assert (G : length row = length cols -> validate_cells cols row = Ok tt <-> Forall2 cell_fits cols row).
  { revert cols. induction row as [|v row IH]; intros [|c cols] Hl; simpl in *; try lia.
    - split; [constructor|done].
    - unfold cell_fits at 1. destruct (validateValue c v) as [[]|e|] eqn:E.
      + rewrite IH by lia. split; [intros; by constructor|]. intros HF. by inversion HF.
      + split; [done|]. intros HF. inversion HF as [|? ? ? ? C]. unfold cell_fits in C. congruence.
      + split; [done|]. intros HF. inversion HF as [|? ? ? ? C]. unfold cell_fits in C. congruence. }
  destruct (Nat.eqb_spec (length row) (length cols)) as [E|E]; simpl; [by apply G|].
  split; [done|]. intros HF. apply Forall2_length in HF. lia.
Qed.

(** Replay accepts an insert row exactly when the write path would have: every
    other answer is ErrWALCorrupt, and no row, short or long, reads out of range. *)
Theorem validateInsertRow_total cols row :
  (validateInsertRow cols row = Ok tt /\ row_fits cols row) \/
  (validateInsertRow cols row = Err ErrWALCorrupt /\ ~ row_fits cols row).
Proof.
  destruct (validateInsertRow cols row) as [[]|e|] eqn:E.
  - left. split; [done|]. by apply validateInsertRow_ok.
  - right. split.
    + f_equal. revert E. unfold validateInsertRow. destruct (negb _); [congruence|].
      revert cols. induction row as [|v row IH]; intros [|c cols]; simpl; try done.
      destruct (validateValue c v); try congruence. apply IH.
    + rewrite <- validateInsertRow_ok. congruence.
  - exfalso. revert E. unfold validateInsertRow.
    destruct (Nat.eqb_spec (length row) (length cols)) as [Hl|]; simpl; [|done].
    revert cols Hl. induction row as [|v row IH]; intros [|c cols] Hl; simpl in *; try done; try lia.
    destruct (validateValue c v) eqn:Ev; try done; [by apply IH; lia|].
    unfold validateValue in Ev. repeat (destruct (_ : bool) in Ev; try done).
Qed.

Definition users_def : TableDef :=
  MkTable (lit "users")
    [MkCol (lit "id") TypeUUID true false false false;
     MkCol (lit "age") TypeInt false false false true;
     MkCol (lit "name") TypeString false false false false]
    [MkIndex [] [lit "age"] false; MkIndex (lit "by") [lit "age"; lit "name"] true].

Definition users_rt : resolvedTable :=
  match resolve_table users_def with Ok rt => rt | _ => MkResolved users_def ∅ 0 0 [] end.

Lemma resolve_table_ok_witness : resolved_ok users_def users_rt.
Proof. apply resolve_table_ok. vm_compute. reflexivity. Defined.

(** A composite index is not required to be ordered. *)
Example composite_hash_index_accepted :
  is_ok (resolve_table (MkTable (lit "t") (t_Columns users_def)
    [MkIndex [] [lit "age"; lit "name"] false])) = true.
Proof. vm_compute. reflexivity. Qed.
