(* ===== verification/Ast.v ===== *)
(** * Ast: token kinds (lexer.go) and the syntax trees (ast.go). *)
From S2P Require Import Prelude Bytes Value Schema.

Inductive tokenKind : Type :=
  | tkEOF | tkIdent | tkInt | tkString | tkParam | tkComma | tkDot | tkLParen | tkRParen
  | tkSemi | tkStar | tkPlus | tkMinus | tkEq | tkNeq | tkLt | tkLte | tkGt
  | tkGte | tkSelect | tkFrom | tkWhere | tkOrder | tkBy | tkAsc | tkDesc | tkLimit
  | tkOffset | tkJoin | tkOn | tkInner | tkLeft | tkRight | tkOuter | tkInsert | tkInto
  | tkValues | tkUpdate | tkSet | tkDelete | tkAnd | tkOr | tkNot | tkNull | tkTrue
  | tkFalse | tkIs | tkCreate | tkTable | tkDrop.

(** The enum in iota order; a kind's byte is its position. *)
Definition all_kinds : list tokenKind :=
  [tkEOF; tkIdent; tkInt; tkString; tkParam; tkComma; tkDot; tkLParen; tkRParen;
   tkSemi; tkStar; tkPlus; tkMinus; tkEq; tkNeq; tkLt; tkLte; tkGt;
   tkGte; tkSelect; tkFrom; tkWhere; tkOrder; tkBy; tkAsc; tkDesc; tkLimit;
   tkOffset; tkJoin; tkOn; tkInner; tkLeft; tkRight; tkOuter; tkInsert; tkInto;
   tkValues; tkUpdate; tkSet; tkDelete; tkAnd; tkOr; tkNot; tkNull; tkTrue;
   tkFalse; tkIs; tkCreate; tkTable; tkDrop].
Definition tk_num (k : tokenKind) : nat :=
  match k with
  | tkEOF => 0%nat
  | tkIdent => 1%nat
  | tkInt => 2%nat
  | tkString => 3%nat
  | tkParam => 4%nat
  | tkComma => 5%nat
  | tkDot => 6%nat
  | tkLParen => 7%nat
  | tkRParen => 8%nat
  | tkSemi => 9%nat
  | tkStar => 10%nat
  | tkPlus => 11%nat
  | tkMinus => 12%nat
  | tkEq => 13%nat
  | tkNeq => 14%nat
  | tkLt => 15%nat
  | tkLte => 16%nat
  | tkGt => 17%nat
  | tkGte => 18%nat
  | tkSelect => 19%nat
  | tkFrom => 20%nat
  | tkWhere => 21%nat
  | tkOrder => 22%nat
  | tkBy => 23%nat
  | tkAsc => 24%nat
  | tkDesc => 25%nat
  | tkLimit => 26%nat
  | tkOffset => 27%nat
  | tkJoin => 28%nat
  | tkOn => 29%nat
  | tkInner => 30%nat
  | tkLeft => 31%nat
  | tkRight => 32%nat
  | tkOuter => 33%nat
  | tkInsert => 34%nat
  | tkInto => 35%nat
  | tkValues => 36%nat
  | tkUpdate => 37%nat
  | tkSet => 38%nat
  | tkDelete => 39%nat
  | tkAnd => 40%nat
  | tkOr => 41%nat
  | tkNot => 42%nat
  | tkNull => 43%nat
  | tkTrue => 44%nat
  | tkFalse => 45%nat
  | tkIs => 46%nat
  | tkCreate => 47%nat
  | tkTable => 48%nat
  | tkDrop => 49%nat
  end.
Lemma tk_num_lookup k : all_kinds !! tk_num k = Some k.
Proof. by destruct k. Qed.
#[export] Instance tk_num_inj : Inj (=) (=) tk_num.
Proof. intros k k' E. pose proof (tk_num_lookup k) as H. rewrite E, tk_num_lookup in H. by injection H. Qed.
#[export] Instance tokenKind_eq_dec : EqDecision tokenKind.
Proof. intros k k'. destruct (decide (tk_num k = tk_num k')) as [E|E]; [left; by apply (inj tk_num)|right; congruence]. Defined.

Definition keywords : list (bytes * tokenKind) :=
  [(lit "select", tkSelect); (lit "from", tkFrom); (lit "where", tkWhere); (lit "order", tkOrder);
   (lit "by", tkBy); (lit "asc", tkAsc); (lit "desc", tkDesc); (lit "limit", tkLimit);
   (lit "offset", tkOffset); (lit "join", tkJoin); (lit "on", tkOn); (lit "inner", tkInner);
   (lit "left", tkLeft); (lit "right", tkRight); (lit "outer", tkOuter); (lit "insert", tkInsert);
   (lit "into", tkInto); (lit "values", tkValues); (lit "update", tkUpdate); (lit "set", tkSet);
   (lit "delete", tkDelete); (lit "and", tkAnd); (lit "or", tkOr); (lit "not", tkNot);
   (lit "null", tkNull); (lit "true", tkTrue); (lit "false", tkFalse); (lit "is", tkIs);
   (lit "create", tkCreate); (lit "table", tkTable); (lit "drop", tkDrop)].

Record token : Type := MkToken {
  tok_kind : tokenKind;
  tok_text : bytes;
  tok_pos : Z;
}.

(** A nil [expr], an absent WHERE, is [None] of an [option expr]. *)
Inductive expr : Type :=
  | colRef (qual name : bytes) (ord : Z)
  | litValue (v : Value)
  | paramRef (index : Z)
  | binOp (op : tokenKind) (lhs rhs : expr)
  | notExpr (e : expr)
  | isNullExpr (e : expr) (not : bool).

Record joinClause : Type := MkJoin {
  j_typ : tokenKind;
  j_table : bytes;
  j_alias : bytes;
  j_lref : bytes * bytes;   (* qualifier and name; ord is -1 *)
  j_rref : bytes * bytes;
}.
Record resultCol : Type := MkResultCol {
  rc_qual : bytes;
  rc_col : bytes;
}.
Record selectStmt : Type := MkSelect {
  sel_cols : list resultCol;
  sel_starAll : bool;
  sel_countStar : bool;
  sel_table : bytes;
  sel_alias : bytes;
  sel_joins : list joinClause;
  sel_where : option expr;
  sel_orderCol : bytes;
  sel_orderQual : bytes;
  sel_orderDesc : bool;
  sel_limit : Z;
  sel_offset : Z;
}.
Record setAssign : Type := MkSet {
  set_col : bytes;
  set_val : expr;
}.
Inductive stmt : Type :=
  | SSelect (st : selectStmt)
  | SInsert (table : bytes) (cols : list bytes) (rows : list (list expr))
  | SUpdate (table : bytes) (sets : list setAssign) (where_ : option expr)
  | SDelete (table : bytes) (where_ : option expr)
  | SCreate (def : TableDef)
  | SDrop (name : bytes).
