(* ===== verification/Eval.v ===== *)
(** * Eval: expression evaluation (eval.go). *)
From S2P Require Import Prelude Bytes Uuid Value Schema Ast.

Record evalCtx : Type := MkCtx {
  c_row : Row;
  c_cols : gmap bytes nat;   (* resolvedTable.colByName *)
  c_args : list Value;
}.

(** Only a true BOOL or a non-zero INT matches. *)
Definition truthy (v : Value) : bool :=
  if bool_decide (Kind v = KindBool) then v_Int v =? 1
  else if bool_decide (Kind v = KindInt) then negb (v_Int v =? 0)
  else false.

Definition param (args : list Value) (i : Z) : outcome Value :=
  if (i <? 0) || (i >=? zlen args) then Err ErrParamMismatch else index args (Z.to_nat i).

(** A comparison or an arithmetic operator on evaluated operands. The error of
    AsInt is returned as it is. *)
Definition eval_op (op : tokenKind) (lv rv : Value) : outcome Value :=
  match op with
  | tkPlus | tkMinus | tkStar =>
      if IsNull lv || IsNull rv then Ok Null
      else
        a ← AsInt lv;
        b ← AsInt rv;
        Ok (Int (s64 (match op with tkPlus => a + b | tkMinus => a - b | _ => a * b end)))
  | tkEq => Ok (Bool (Equal lv rv))
  | tkNeq => Ok (Bool (negb (Equal lv rv)))
  | _ =>
      let '(cmp, ok) := Compare lv rv in
      if negb ok then Ok (Bool false)
      else match op with
           | tkLt => Ok (Bool (cmp <? 0))
           | tkLte => Ok (Bool (cmp <=? 0))
           | tkGt => Ok (Bool (cmp >? 0))
           | tkGte => Ok (Bool (cmp >=? 0))
           | _ => Err errInternal
           end
  end.

Fixpoint eval (e : expr) (ctx : evalCtx) : outcome Value :=
  match e with
  | colRef _ name ord =>
      if ord >=? 0 then index (c_row ctx) (Z.to_nat ord)
      else index (c_row ctx) (default 0%nat (c_cols ctx !! name))
  | litValue v => Ok v
  | paramRef i => param (c_args ctx) i
  | binOp tkAnd lhs rhs =>
      lv ← eval lhs ctx;
      if negb (truthy lv) then Ok (Bool false)
      else rv ← eval rhs ctx; Ok (Bool (truthy rv))
  | binOp tkOr lhs rhs =>
      lv ← eval lhs ctx;
      if truthy lv then Ok (Bool true)
      else rv ← eval rhs ctx; Ok (Bool (truthy rv))
  | binOp op lhs rhs =>
      lv ← eval lhs ctx;
      rv ← eval rhs ctx;
      eval_op op lv rv
  | notExpr e => v ← eval e ctx; Ok (Bool (negb (truthy v)))
  | isNullExpr e not =>
      v ← eval e ctx;
      let isn := IsNull v in
      if not : bool then Ok (Bool (negb isn)) else Ok (Bool isn)
  end.
Definition evalExpr (e : option expr) (ctx : evalCtx) : outcome Value :=
  match e with None => Ok (Bool true) | Some e => eval e ctx end.

Definition evalLitOrParamValue (e : expr) (args : list Value) : outcome Value :=
  match e with
  | litValue v => Ok v
  | paramRef i => param args i
  | _ => Err errInternal
  end.

(** ** What evaluation promises

    [bound] is what the planner leaves: every column resolved to a cell of the
    row, every operator one the evaluator knows, every literal well formed. *)
Definition known_op (op : tokenKind) : bool :=
  match op with
  | tkPlus | tkMinus | tkStar | tkEq | tkNeq | tkLt | tkLte | tkGt | tkGte | tkAnd | tkOr => true
  | _ => false
  end.
Fixpoint bound (ncols : nat) (e : expr) : Prop :=
  match e with
  | colRef _ _ ord => 0 <= ord < Z.of_nat ncols
  | litValue v => value_ok v
  | paramRef _ => True
  | binOp op l r => known_op op = true /\ bound ncols l /\ bound ncols r
  | notExpr e | isNullExpr e _ => bound ncols e
  end.

Lemma Bool_ok b : value_ok (Bool b).
Proof. constructor. Qed.
#[export] Hint Resolve Bool_ok : haze.

Lemma param_cases args i : Forall value_ok args -> (exists v, param args i = Ok v /\ value_ok v) \/ param args i = Err ErrParamMismatch.
Proof.
  intros Ha. unfold param. destruct ((i <? 0) || (i >=? zlen args)) eqn:E; [by right|left].
  apply orb_false_iff in E as [E1 E2]. rewrite Z.geb_leb in E2. apply Z.leb_gt in E2. apply Z.ltb_ge in E1.
  destruct (index_lt args (Z.to_nat i)) as (v & -> & Hv); [unfold zlen in E2; lia|]. exists v. split; [done|].
  by eapply Forall_lookup_1.
Qed.

Definition value_or_err (o : outcome Value) : Prop :=
  match o with Ok v => value_ok v | Err _ => True | Panic => False end.
Lemma vb_bind (m : outcome Value) (k : Value -> outcome Value) : value_or_err m ->
  (forall v, value_ok v -> value_or_err (k v)) -> value_or_err (m ≫= k).
Proof. destruct m; cbn; auto. Qed.
Lemma AsInt_cases v : (exists z, AsInt v = Ok z) \/ (exists e, AsInt v = Err e).
Proof.
  unfold AsInt. destruct (Kind v); eauto. unfold ParseInt. destruct (match v_Str v with [] => _ | _ => _ end) as [neg body].
  destruct (parse_mag body); [|by right; eexists]. case_match; eauto.
Qed.
Lemma eval_op_ok op lv rv : known_op op = true -> value_or_err (eval_op op lv rv).
Proof.
  intros Hk. assert (Hc : forall (c : Z * bool) (f : Z -> bool), value_or_err (let '(cmp, ok) := c in if negb ok then Ok (Bool false) else Ok (Bool (f cmp)))).
  { intros [c []] f; cbn; auto with haze. }
  destruct op; try done; cbn [eval_op]; try apply (Hc _ (fun c => _)); try (cbn; auto with haze; fail);
    try (destruct (Compare lv rv) as [c []]; cbn; auto with haze; fail).
  all: destruct (IsNull lv || IsNull rv); [exact ok_null|];
    destruct (AsInt_cases lv) as [[a ->]|[e ->]]; [|done]; destruct (AsInt_cases rv) as [[b ->]|[e ->]]; [|done];
    apply ok_int, s64_range.
Qed.

Lemma eval_typed e ctx : bound (length (c_row ctx)) e -> Forall value_ok (c_row ctx) -> Forall value_ok (c_args ctx) ->
  match eval e ctx with
  | Ok v => value_ok v /\
      match e with
      | binOp (tkPlus | tkMinus | tkStar) _ _ => Kind v = KindInt \/ v = Null
      | binOp _ _ _ | notExpr _ | isNullExpr _ _ => exists b, v = Bool b
      | _ => True
      end
  | Err _ => True
  | Panic => False
  end.
Proof.
  intros Hb Hr Ha. assert (G : value_or_err (eval e ctx)).
  { revert Hb. induction e as [q n ord|v|i|op l IHl r IHr|e IH|e IH nt]; cbn [bound eval].
    - intros Ho. rewrite (proj2 (Z.geb_le _ _)) by lia. destruct (index_lt (c_row ctx) (Z.to_nat ord)) as (v & -> & Hv); [lia|].
      exact (Forall_lookup_1 _ _ _ _ Hr Hv).
    - done.
    - intros _. destruct (param_cases (c_args ctx) i Ha) as [(v & -> & Hv)| ->]; done.
    - intros (Hk & Hl & Hr'). specialize (IHl Hl). specialize (IHr Hr').
      destruct op; try done; apply vb_bind; auto; intros lv _; try (apply vb_bind; auto; intros; by apply eval_op_ok).
      all: destruct (truthy lv); cbn [negb]; auto with haze; try (apply vb_bind; auto; intros; cbn; auto with haze); cbn; auto with haze.
    - intros H. apply vb_bind; [by apply IH|]. intros. cbn. auto with haze.
    - intros H. apply vb_bind; [by apply IH|]. intros v _. destruct nt; cbn; auto with haze. }
  destruct (eval e ctx) as [v| |] eqn:E; [|done..]. split; [done|]. clear G.
  destruct e as [q n ord|w|i|op l r|e|e nt]; cbn [eval] in E; try done.
  - cbn [bound] in Hb. destruct Hb as [Hk _].
    destruct op; try done; cbn [eval_op] in E; repeat first [case_match; subst|inv_bind]; simplify_eq; eauto.
  - inv_bind. eauto.
  - inv_bind. destruct nt; simplify_eq; eauto.
Qed.

(** C38: evaluation is total on what the planner binds: over a row and arguments
    of well-formed cells a bound expression never indexes out of range and never
    meets an unknown operator silently; it yields a well-formed value or an
    error, and the logical and comparison operators yield a BOOL. *)
Theorem eval_total e ctx : bound (length (c_row ctx)) e -> Forall value_ok (c_row ctx) -> Forall value_ok (c_args ctx) ->
  match eval e ctx with
  | Ok v => value_ok v /\
      match e with
      | binOp (tkPlus | tkMinus | tkStar) _ _ => Kind v = KindInt \/ v = Null
      | binOp _ _ _ | notExpr _ | isNullExpr _ _ => exists b, v = Bool b
      | _ => True
      end
  | Err _ => True
  | Panic => False
  end.
Proof. apply eval_typed. Qed.

Lemma eval_total_witness : match eval (binOp tkMinus (colRef [] (lit "age") 0) (paramRef 0)) (MkCtx [Int 36] ∅ [Int 6]) with
  | Ok v => Kind v = KindInt \/ v = Null | Err _ => True | Panic => False end.
Proof.
  pose proof (eval_total (binOp tkMinus (colRef [] (lit "age") 0) (paramRef 0)) (MkCtx [Int 36] ∅ [Int 6])) as H.
  destruct (eval _ _) as [v| |]; [|exact I|]; apply H; try (cbn; lia); try (repeat constructor; cbn; lia).
Defined.

(** NULL is an ordinary value of [=] and [!=] here: it equals itself and differs
    from everything else, where the ordered operators never hold on it. *)
Example null_comparisons :
  map (fun op => eval (binOp op (litValue Null) (litValue (Int 5))) (MkCtx [] ∅ [])) [tkEq; tkNeq; tkLt; tkGte] =
    [Ok (Bool false); Ok (Bool true); Ok (Bool false); Ok (Bool false)] /\
  eval (binOp tkEq (litValue Null) (litValue Null)) (MkCtx [] ∅ []) = Ok (Bool true).
Proof. vm_compute. done. Qed.
