(* ===== verification/Filter.v ===== *)
(** * Filter: the compiled row filters (filter.go) and their agreement with the
    interpreter. A closure is a function from the row; it can only panic. *)
From S2P Require Import Prelude Bytes Uuid Value Schema Ast Eval.

Definition predicate : Type := Row -> outcome bool.

Definition cell_test (ord : nat) (f : Value -> bool) : predicate := fun row => c ← index row ord; Ok (f c).

Definition compileEq (ord : nat) (rhs : Value) : predicate :=
  match Kind rhs with
  | KindString => cell_test ord (fun c => bool_decide (Kind c = KindString) && bool_decide (v_Str c = v_Str rhs))
  | KindInt | KindBool => cell_test ord (fun c => bool_decide (Kind c = Kind rhs) && (w0 c =? w0 rhs))
  | KindUUID => cell_test ord (fun c => bool_decide (Kind c = KindUUID) && (w0 c =? w0 rhs) && (w1 c =? w1 rhs))
  | KindBytes | KindNull => cell_test ord (fun c => Equal c rhs)
  end.

(** The four tests of an ordered operator, on the three-way result. *)
Definition ord_test (op : tokenKind) : option (Z -> bool) :=
  match op with
  | tkLt => Some (fun c => c <? 0)
  | tkLte => Some (fun c => c <=? 0)
  | tkGt => Some (fun c => c >? 0)
  | tkGte => Some (fun c => c >=? 0)
  | _ => None
  end.
(** cc, ok := c.Compare(rhs); return ok && cc OP 0 *)
Definition cmp_test (f : Z -> bool) (rhs c : Value) : bool :=
  let '(cc, ok) := Compare c rhs in ok && f cc.

(** A nil closure panics when it is called. *)
Definition compileOrdGeneric (ord : nat) (op : tokenKind) (rhs : Value) : predicate :=
  match ord_test op with
  | Some f => cell_test ord (cmp_test f rhs)
  | None => fun _ => Panic
  end.

Definition int_test (op : tokenKind) : option (Z -> Z -> bool) :=
  match op with
  | tkLt => Some Z.ltb | tkLte => Some Z.leb | tkGt => Some Z.gtb | tkGte => Some Z.geb | _ => None
  end.
Definition str_test (op : tokenKind) : option (bytes -> bytes -> bool) :=
  match op with
  | tkLt => Some bytes_ltb
  | tkLte => Some (fun a b => negb (bytes_ltb b a))
  | tkGt => Some (fun a b => bytes_ltb b a)
  | tkGte => Some (fun a b => negb (bytes_ltb a b))
  | _ => None
  end.

Definition compileOrd (ord : nat) (op : tokenKind) (rhs : Value) : predicate :=
  match Kind rhs, int_test op, str_test op, ord_test op with
  | (KindInt | KindBool), Some t, _, Some f =>
      let rw := v_Int rhs in
      cell_test ord (fun c => if bool_decide (Kind c = Kind rhs) then t (v_Int c) rw else cmp_test f rhs c)
  | KindString, _, Some t, Some f =>
      let rs := v_Str rhs in
      cell_test ord (fun c => if bool_decide (Kind c = KindString) then t (v_Str c) rs else cmp_test f rhs c)
  | _, _, _, _ => compileOrdGeneric ord op rhs
  end.

Definition resolveOperand (e : expr) (args : list Value) : option Value :=
  match e with
  | litValue v => Some v
  | paramRef i => if (i <? 0) || (i >=? zlen args) then None else args !! Z.to_nat i
  | _ => None
  end.

Definition compileCmp (op : tokenKind) (lhs rhs : expr) (args : list Value) : option predicate :=
  match lhs with
  | colRef _ _ ord =>
      if ord <? 0 then None
      else
        rhs ← resolveOperand rhs args;
        match op with
        | tkEq => Some (compileEq (Z.to_nat ord) rhs)
        | tkNeq => Some (fun row => b ← compileEq (Z.to_nat ord) rhs row; Ok (negb b))
        | tkLt | tkLte | tkGt | tkGte => Some (compileOrd (Z.to_nat ord) op rhs)
        | _ => None
        end
  | _ => None
  end.

Fixpoint compileFilter (e : expr) (args : list Value) : option predicate :=
  match e with
  | binOp tkAnd lhs rhs =>
      match compileFilter lhs args, compileFilter rhs args with
      | Some l, Some r => Some (fun row => b ← l row; if b : bool then r row else Ok false)
      | _, _ => None
      end
  | binOp tkOr lhs rhs =>
      match compileFilter lhs args, compileFilter rhs args with
      | Some l, Some r => Some (fun row => b ← l row; if b : bool then Ok true else r row)
      | _, _ => None
      end
  | binOp op lhs rhs =>
      match op with
      | tkEq | tkNeq | tkLt | tkLte | tkGt | tkGte => compileCmp op lhs rhs args
      | _ => None
      end
  | notExpr e => inner ← compileFilter e args; Some (fun row => b ← inner row; Ok (negb b))
  | isNullExpr (colRef _ _ ord) not =>
      if ord >=? 0 then Some (cell_test (Z.to_nat ord) (fun c => xorb (IsNull c) not)) else None
  | _ => None
  end.

(** The fallback swallows an evaluation error. *)
Definition interpret (where_ : option expr) (cols : gmap bytes nat) (args : list Value) : predicate := fun row =>
  match evalExpr where_ (MkCtx row cols args) with
  | Ok v => Ok (truthy v)
  | Err _ => Ok false
  | Panic => Panic
  end.
Definition rowMatcher (where_ : option expr) (cols : gmap bytes nat) (args : list Value) : predicate :=
  match where_ with
  | None => fun _ => Ok true
  | Some e => match compileFilter e args with Some fast => fast | None => interpret where_ cols args end
  end.

Fixpoint all_match (ms : list predicate) : predicate := fun row =>
  match ms with
  | [] => Ok true
  | m :: ms => b ← m row; if b : bool then all_match ms row else Ok false
  end.
Definition conjunctsMatcher (conj : list expr) (cols : gmap bytes nat) (args : list Value) : predicate :=
  match conj with
  | [] => fun _ => Ok true
  | [c] => rowMatcher (Some c) cols args
  | _ => all_match (map (fun c => rowMatcher (Some c) cols args) conj)
  end.

(** ** Agreement *)
Lemma truthy_Bool b : truthy (Bool b) = b.
Proof. by destruct b. Qed.
#[export] Hint Rewrite truthy_Bool : haze.

Lemma Equal_kind c rhs : Equal c rhs = bool_decide (Kind c = Kind rhs) && match Kind rhs with
  | KindNull => true | KindInt | KindBool => w0 c =? w0 rhs | KindString => bool_decide (v_Str c = v_Str rhs)
  | KindBytes => bool_decide (v_Bytes c = v_Bytes rhs) | KindUUID => (w0 c =? w0 rhs) && (w1 c =? w1 rhs) end.
Proof.
  unfold Equal. destruct (decide (Kind c = Kind rhs)) as [E|E].
  - rewrite bool_decide_false by (intros C; by apply C). rewrite (bool_decide_true (Kind c = Kind rhs)) by done. by rewrite E.
  - by rewrite (bool_decide_true (Kind c <> Kind rhs)), (bool_decide_false (Kind c = Kind rhs)) by done.
Qed.
Lemma cell_test_ext ord f g row : (forall c, f c = g c) -> cell_test ord f row = cell_test ord g row.
Proof. intros H. unfold cell_test. destruct (index row ord); cbn; [by rewrite H|done..]. Qed.

Lemma compileEq_Equal ord rhs row : compileEq ord rhs row = cell_test ord (fun c => Equal c rhs) row.
Proof.
  unfold compileEq. destruct (Kind rhs) eqn:Ek; apply cell_test_ext; intros c; rewrite Equal_kind, Ek, ?andb_assoc; done.
Qed.

Lemma compileOrd_Compare ord op rhs f : ord_test op = Some f ->
  forall row, compileOrd ord op rhs row = cell_test ord (cmp_test f rhs) row.
Proof.
  intros Hf row. unfold compileOrd, compileOrdGeneric. rewrite Hf.
  assert (Hi : exists t, int_test op = Some t /\ forall a b, t a b = f (cmpZ (a ?= b))).
  { destruct op; try done; injection Hf as <-; eexists; (split; [done|]); intros a b;
      unfold Z.ltb, Z.leb, Z.gtb, Z.geb; by destruct (a ?= b). }
  assert (Hs : exists t, str_test op = Some t /\ forall a b, t a b = f (cmpZ (bytes_cmp a b))).
  { destruct op; try done; injection Hf as <-; eexists; (split; [done|]); intros a b;
      unfold bytes_ltb; rewrite ?(bytes_cmp_anti a b); by destruct (bytes_cmp a b). }
  destruct Hi as (ti & -> & Hi), Hs as (ts & -> & Hs).
  assert (Hn : forall c, Kind rhs <> KindNull -> Kind c = Kind rhs -> IsNull c || IsNull rhs = false).
  { intros c H1 H2. unfold IsNull. rewrite H2. by rewrite bool_decide_false by done. }
  destruct (Kind rhs) eqn:Ek; try done; apply cell_test_ext; intros c; (case_bool_decide as E; [|done]);
    unfold cmp_test, Compare; rewrite Hn by (done || by rewrite ?Ek); rewrite E, Ek; cbn [andb]; by rewrite ?Hi, ?Hs.
Qed.

(** What a compiled filter has to agree with. *)
Definition interpreted (e : expr) (cols : gmap bytes nat) (args : list Value) (row : Row) : outcome bool :=
  v ← eval e (MkCtx row cols args); Ok (truthy v).

Lemma interpreted_bin op l r cols args row : interpreted (binOp op l r) cols args row =
  match op with
  | tkAnd => b ← interpreted l cols args row; if b : bool then interpreted r cols args row else Ok false
  | tkOr => b ← interpreted l cols args row; if b : bool then Ok true else interpreted r cols args row
  | _ => lv ← eval l (MkCtx row cols args); rv ← eval r (MkCtx row cols args); v ← eval_op op lv rv; Ok (truthy v)
  end.
Proof.
  unfold interpreted. destruct op; cbn [eval];
    (destruct (eval l _) as [lv| |]; [|done..]); cbn [mbind outcome_bind]; try by (destruct (eval r _)).
  all: destruct (truthy lv); cbn [negb mbind outcome_bind]; rewrite ?truthy_Bool; try done;
    (destruct (eval r _); cbn [mbind outcome_bind]; by rewrite ?truthy_Bool).
Qed.

Lemma resolveOperand_eval e args v : resolveOperand e args = Some v -> forall row cols, eval e (MkCtx row cols args) = Ok v.
Proof.
  destruct e; try done; cbn [resolveOperand eval]; [by intros [= ->]|]. unfold param. intros H row cols.
  destruct (_ || _); [done|]. cbn [c_args]. by apply index_Ok.
Qed.

Lemma compileCmp_agrees op lhs rhs args f : compileCmp op lhs rhs args = Some f ->
  (op = tkEq \/ op = tkNeq \/ is_Some (ord_test op)) ->
  forall cols row, f row = interpreted (binOp op lhs rhs) cols args row.
Proof.
  intros Hc Hop cols row. destruct lhs as [q n ord| | | | |]; try done. cbn [compileCmp] in Hc.
  destruct (ord <? 0) eqn:Eo; [done|]. apply Z.ltb_ge in Eo. destruct (resolveOperand rhs args) as [v|] eqn:Er; [|done].
  pose proof (resolveOperand_eval _ _ _ Er) as Hv. cbn [mbind option_bind] in Hc.
  assert (E : interpreted (binOp op (colRef q n ord) rhs) cols args row =
    (c ← index row (Z.to_nat ord); w ← eval_op op c v; Ok (truthy w))).
  { rewrite interpreted_bin. cbn [eval]. rewrite (proj2 (Z.geb_le _ _)) by done. rewrite Hv. cbn [c_row].
    destruct op; try (by destruct (index row _)); by destruct Hop as [?|[?|[? ?]]]. }
  rewrite E. clear E.
  assert (Ho : forall t, ord_test op = Some t -> compileOrd (Z.to_nat ord) op v row =
    (c ← index row (Z.to_nat ord); w ← eval_op op c v; Ok (truthy w))).
  { intros t Ht. rewrite (compileOrd_Compare _ _ _ _ Ht). unfold cell_test, cmp_test.
    destruct (index row _) as [c| |]; [|done..]. cbn [mbind outcome_bind].
    destruct op; try done; injection Ht as <-; unfold eval_op; destruct (Compare c v) as [cc []];
      cbn [negb andb mbind outcome_bind]; by rewrite truthy_Bool. }
  destruct op; try done; injection Hc as <-; try by (eapply Ho).
  all: rewrite ?compileEq_Equal; unfold cell_test; destruct (index row _) as [c| |]; [|done..];
    cbn [mbind outcome_bind eval_op]; by rewrite truthy_Bool.
Qed.

Lemma compileFilter_ok e args f : compileFilter e args = Some f ->
  forall cols row, f row = interpreted e cols args row.
Proof.
  revert f. induction e as [q n ord|v|i|op l IHl r IHr|e IH|e IH nt]; intros f Hf cols row; try done.
  - cbn [compileFilter] in Hf. destruct op; try done.
    all: try (apply (compileCmp_agrees _ _ _ _ _ Hf); cbn; eauto; fail).
    all: rewrite interpreted_bin; destruct (compileFilter l args) as [fl|], (compileFilter r args) as [fr|]; try done; injection Hf as <-;
      rewrite (IHl _ eq_refl cols); destruct (interpreted l cols args row) as [[]| |]; cbn; try done; by apply IHr.
  - cbn [compileFilter] in Hf. destruct (compileFilter e args) as [fe|]; [|done]. injection Hf as <-.
    rewrite (IH _ eq_refl cols). unfold interpreted. cbn [eval]. destruct (eval e _); cbn [mbind outcome_bind]; try done. by rewrite truthy_Bool.
  - destruct e as [q n ord| | | | |]; try done. cbn [compileFilter] in Hf. destruct (ord >=? 0) eqn:E; [|done]. injection Hf as <-.
    unfold interpreted, cell_test. cbn [eval]. rewrite E. cbn [c_row].
    destruct (index row (Z.to_nat ord)) as [c| |]; cbn [mbind outcome_bind]; try done. destruct nt; cbn [mbind outcome_bind]; rewrite truthy_Bool; by destruct (IsNull c).
Qed.

Lemma compile_no_err e args f : compileFilter e args = Some f -> forall row x, f row <> Err x.
Proof.
  revert f. induction e as [q n ord|v|i|op l IHl r IHr|e IH|e IH nt]; intros f Hf row x; try done.
  - assert (Hc : forall f, compileCmp op l r args = Some f -> f row <> Err x).
    { clear f Hf. intros f Hf. destruct l as [q n ord| | | | |]; try done. cbn [compileCmp] in Hf. destruct (ord <? 0); [done|].
      destruct (resolveOperand r args) as [v|]; [|done]. cbn [mbind option_bind] in Hf.
      assert (Ht : forall t, cell_test (Z.to_nat ord) t row <> Err x).
      { intros t. unfold cell_test, index. by destruct (row !! _). }
      destruct op; try done; injection Hf as <-; rewrite ?compileEq_Equal; try (erewrite compileOrd_Compare by reflexivity); try apply Ht.
      specialize (Ht (fun c => Equal c v)). by destruct (cell_test _ _ row). }
    cbn [compileFilter] in Hf. destruct op; try done; try by apply Hc.
    all: destruct (compileFilter l args) as [fl|], (compileFilter r args) as [fr|]; try done; injection Hf as <-;
      pose proof (IHl _ eq_refl row x); destruct (fl row) as [[]| |]; cbn; try done; try (by apply IHr); congruence.
  - cbn [compileFilter] in Hf. destruct (compileFilter e args) as [fe|]; [|done]. injection Hf as <-.
    pose proof (IH _ eq_refl row x). destruct (fe row); cbn; congruence.
  - destruct e as [q n ord| | | | |]; try done. cbn [compileFilter] in Hf. destruct (ord >=? 0); [|done]. injection Hf as <-.
    unfold cell_test, index. by destruct (row !! _).
Qed.

(** C23: a compiled filter is the interpreter. Whenever a WHERE expression
    compiles, the closure answers on every row exactly what evaluating the
    expression on that row and reducing it to a boolean answers, cross-kind
    comparisons, NULLs and out-of-range cells included; in particular it
    never masks an evaluation error. *)
Theorem compileFilter_agrees e args f : compileFilter e args = Some f ->
  forall cols row, f row = interpreted e cols args row /\ forall x, f row <> Err x.
Proof. intros Hf cols row. split; [by apply compileFilter_ok|]. intros x. by eapply compile_no_err. Qed.

(** A row test with the errors swallowed. *)
Definition lenient (o : outcome bool) : outcome bool := match o with Err _ => Ok false | o => o end.
Lemma rowMatcher_lenient e cols args row : rowMatcher (Some e) cols args row = lenient (interpreted e cols args row).
Proof.
  unfold rowMatcher. destruct (compileFilter e args) as [f|] eqn:E.
  - rewrite (compileFilter_ok e args f E cols). pose proof (compile_no_err e args f E row) as Hn.
    rewrite (compileFilter_ok e args f E cols) in Hn. destruct (interpreted e cols args row); [done| |done]. by destruct (Hn e0).
  - unfold interpret, interpreted, evalExpr. by destruct (eval e _).
Qed.

(** The conjuncts of a WHERE: the planner splits on AND only. *)
Fixpoint conjoin (e : expr) (l : list expr) : expr :=
  match l with [] => e | x :: l => binOp tkAnd e (conjoin x l) end.

Lemma all_match_cons m ms row : all_match (m :: ms) row = (b ← m row; if b : bool then all_match ms row else Ok false).
Proof. done. Qed.

(** The residual test of a plan is the WHERE it came from: matching
    conjunct by conjunct, each compiled or interpreted on its own, decides a row
    as matching the whole conjunction decides it. *)
Theorem conjunctsMatcher_agrees e l cols args row :
  conjunctsMatcher (e :: l) cols args row = rowMatcher (Some (conjoin e l)) cols args row.
Proof.
  assert (G : forall e, all_match (map (fun c => rowMatcher (Some c) cols args) (e :: l)) row = lenient (interpreted (conjoin e l) cols args row)).
  { induction l as [|x l IH]; intros y; rewrite map_cons, all_match_cons; cbn [conjoin].
    - rewrite rowMatcher_lenient. by destruct (interpreted y cols args row) as [[]| |].
    - rewrite interpreted_bin, (rowMatcher_lenient y), IH.
      destruct (interpreted y cols args row) as [[]| |]; by cbn [lenient mbind outcome_bind]. }
  rewrite rowMatcher_lenient, <- G. destruct l; [|done]. cbn [conjunctsMatcher map all_match].
  by destruct (rowMatcher (Some e) cols args row) as [[]| |].
Qed.

Definition demo_where : expr :=
  binOp tkAnd (binOp tkGte (colRef [] (lit "age") 1) (paramRef 0)) (notExpr (isNullExpr (colRef [] (lit "name") 2) false)).
Lemma compileFilter_agrees_witness : exists f, compileFilter demo_where [Int 30] = Some f /\
  f [Null; Int 36; Str (lit "ada")] = interpreted demo_where ∅ [Int 30] [Null; Int 36; Str (lit "ada")] /\
  f [Null; Str (lit "4"); Null] = interpreted demo_where ∅ [Int 30] [Null; Str (lit "4"); Null].
Proof.
  assert (E : is_Some (compileFilter demo_where [Int 30])) by (eexists; reflexivity). destruct E as [f E].
  exists f. split; [exact E|]. split; apply (compileFilter_agrees demo_where [Int 30] f E ∅).
Defined.
