(* ===== verification/Lexer.v ===== *)
(** * Lexer: SQL text to tokens (lexer.go).

    Lower-casing a word with non-ASCII bytes goes through the Unicode tables of
    strings.Map, which are a parameter; the ASCII case is written out. *)
From S2P Require Import Prelude Bytes Value Schema Ast.

(** [unicode.IsLetter] on a byte read as a rune: Latin-1. *)
Definition latin1_letter (c : Z) : bool :=
  (c =? 0xAA) || (c =? 0xB5) || (c =? 0xBA) || ((0xC0 <=? c) && negb (c =? 0xD7) && negb (c =? 0xF7)).
Definition ascii_lower (c : Z) : bool := (97 <=? c) && (c <=? 122).
Definition ascii_upper (c : Z) : bool := (65 <=? c) && (c <=? 90).
Definition ascii_digit (c : Z) : bool := (48 <=? c) && (c <=? 57).

Definition isIdentStart (c : byte) : bool :=
  (b2z c =? 95) || ascii_lower (b2z c) || ascii_upper (b2z c) || ((0x80 <=? b2z c) && latin1_letter (b2z c)).
Definition isIdentPart (c : byte) : bool := isIdentStart c || ascii_digit (b2z c).
Definition isSpace (c : byte) : bool :=
  bool_decide (c = Byte.x20) || bool_decide (c = Byte.x09) || bool_decide (c = Byte.x0d) || bool_decide (c = Byte.x0a).
Definition isDigit (c : byte) : bool := ascii_digit (b2z c).

(** How many leading bytes pass: [for i < len(s) && p(s[i]) { i++ }]. *)
Fixpoint run_len (p : byte -> bool) (l : bytes) : nat :=
  match l with c :: l => if p c then S (run_len p l) else 0%nat | [] => 0%nat end.

Definition lower_byte (c : byte) : byte := if ascii_upper (b2z c) then z2b (b2z c + 32) else c.

Section lexer.
Context (mapLower : bytes -> bytes).   (* strings.Map(unicode.ToLower, s) *)

Definition ToLower (s : bytes) : bytes :=
  if forallb (fun c => b2z c <? 0x80) s then map lower_byte s else mapLower s.

Definition keyword (word : bytes) : option tokenKind :=
  snd <$> find (fun kw => bool_decide (fst kw = word)) keywords.

(** The body of a string literal after its opening quote, decoded, with the
    number of bytes read including the closing quote. *)
Fixpoint string_body (l : bytes) : option (bytes * nat) :=
  match l with
  | [] => None
  | Byte.x27 :: l =>
      match l with
      | Byte.x27 :: l => '(b, n) ← string_body l; Some (Byte.x27 :: b, S (S n))
      | _ => Some ([], 1%nat)
      end
  | c :: l => '(b, n) ← string_body l; Some (c :: b, S n)
  end.

(** The one-byte tokens. *)
Definition punct (c : byte) : option tokenKind :=
  match c with
  | Byte.x2c => Some tkComma
  | Byte.x2e => Some tkDot
  | Byte.x28 => Some tkLParen
  | Byte.x29 => Some tkRParen
  | Byte.x3b => Some tkSemi
  | Byte.x2a => Some tkStar
  | Byte.x2b => Some tkPlus
  | Byte.x2d => Some tkMinus
  | Byte.x3f => Some tkParam
  | Byte.x3d => Some tkEq
  | _ => None
  end.

(** One round of the loop at byte [i], with [r] = s[i:] not empty: a token or
    nothing, and the next position. *)
Definition lex_step (r : bytes) (i : nat) : outcome (option token * nat) :=
  let emit k text n := Ok (Some (MkToken k text (Z.of_nat i)), (i + n)%nat) in
  match r with
  | [] => Panic
  | c :: l =>
      if isSpace c then Ok (None, S i)
      else if bool_decide (c = Byte.x2d) && bool_decide (head l = Some Byte.x2d)
      then Ok (None, (i + run_len (fun c => negb (bool_decide (c = Byte.x0a))) r)%nat)
      else match punct c with
      | Some k => emit k [] 1%nat
      | None =>
          let eq := bool_decide (head l = Some Byte.x3d) in
          if bool_decide (c = Byte.x21) then if eq then emit tkNeq [] 2%nat else Err ErrParse
          else if bool_decide (c = Byte.x3c) then
            if eq then emit tkLte [] 2%nat
            else if bool_decide (head l = Some Byte.x3e) then emit tkNeq [] 2%nat
            else emit tkLt [] 1%nat
          else if bool_decide (c = Byte.x3e) then if eq then emit tkGte [] 2%nat else emit tkGt [] 1%nat
          else if bool_decide (c = Byte.x27) then
            match string_body l with Some (b, n) => emit tkString b (S n) | None => Err ErrParse end
          else if isDigit c then let n := run_len isDigit r in emit tkInt (take n r) n
          else if isIdentStart c then
            let n := run_len isIdentPart r in
            let word := ToLower (take n r) in
            emit (default tkIdent (keyword word)) word n
          else Err ErrParse
      end
  end.

Fixpoint lex_loop (fuel : nat) (s : bytes) (i : nat) (out : list token) : outcome (list token) :=
  match drop i s with
  | [] => Ok (out ++ [MkToken tkEOF [] (Z.of_nat i)])
  | r =>
      match fuel with
      | O => Panic
      | S fuel =>
          '(t, i) ← lex_step r i;
          lex_loop fuel s i (out ++ option_list t)
      end
  end.
Definition tokenize (s : bytes) : outcome (list token) := lex_loop (length s) s 0 [].

(** ** Totality *)
Lemma run_len_le p l : (run_len p l <= length l)%nat.
Proof. induction l as [|c l IH]; cbn; [lia|]. destruct (p c); lia. Qed.
Lemma string_body_cons c l : string_body (c :: l) =
  if bool_decide (c = Byte.x27) then
    match l with
    | d :: l' => if bool_decide (d = Byte.x27) then '(b, n) ← string_body l'; Some (Byte.x27 :: b, S (S n)) else Some ([], 1%nat)
    | [] => Some ([], 1%nat)
    end
  else '(b, n) ← string_body l; Some (c :: b, S n).
Proof. destruct c; try done. destruct l as [|d l]; [done|]. by destruct d. Qed.
Lemma string_body_len m : forall l b n, (length l <= m)%nat -> string_body l = Some (b, n) -> (0 < n <= length l)%nat.
Proof.
  induction m as [|m IH]; intros [|c l] b n Hl; try done; cbn [length] in Hl; try lia.
  rewrite string_body_cons. case_bool_decide.
  - destruct l as [|d l]; cbn [length] in *; [intros [= _ <-]; lia|]. case_bool_decide; [|intros [= _ <-]; lia].
    destruct (string_body l) as [[b' n']|] eqn:E; [|done]. intros [= _ <-]. specialize (IH l b' n' ltac:(lia) E). lia.
  - destruct (string_body l) as [[b' n']|] eqn:E; [|done]. intros [= _ <-]. specialize (IH l b' n' ltac:(lia) E). cbn [length]. lia.
Qed.

Lemma keyword_not k w : keyword w = Some k -> k <> tkEOF.
Proof.
  unfold keyword. destruct (find _ keywords) as [kw|] eqn:E; [|done]. apply find_some in E as [E _]. intros [= <-].
  assert (F : Forall (fun kw => snd kw <> tkEOF) keywords) by (repeat constructor; done).
  rewrite list.Forall_forall in F. apply F. by apply list_elem_of_In.
Qed.
Lemma punct_not c k : punct c = Some k -> k <> tkEOF.
Proof. by destruct c; try done; intros [= <-]. Qed.

(** What a round does to the position, and what it emits. *)
Definition step_ok (r : bytes) (i : nat) (o : outcome (option token * nat)) : Prop :=
  match o with
  | Ok (t, i') => (i < i' <= i + length r)%nat /\
      match t with Some t => tok_pos t = Z.of_nat i /\ tok_kind t <> tkEOF | None => True end
  | Err e => e = ErrParse
  | Panic => False
  end.
Lemma lex_step_ok r i : r <> [] -> step_ok r i (lex_step r i).
Proof.
  destruct r as [|c l]; [done|]. intros _. unfold lex_step.
  assert (He : forall k text n, k <> tkEOF -> (0 < n <= length (c :: l))%nat ->
    step_ok (c :: l) i (Ok (Some (MkToken k text (Z.of_nat i)), (i + n)%nat))).
  { intros k text n Hk Hn. cbn [step_ok tok_pos tok_kind]. split; [lia|done]. }
  assert (H2 : forall x, bool_decide (head l = Some x) = true -> (2 <= length (c :: l))%nat).
  { intros x Hx. apply bool_decide_eq_true in Hx. destruct l; cbn; [done|lia]. }
  assert (Hn : forall n, (0 < n <= length (c :: l))%nat -> step_ok (c :: l) i (Ok (None, (i + n)%nat))) by (intros n Hn; cbn [step_ok]; lia).
  assert (Hrun : forall p, p c = true -> (0 < run_len p (c :: l) <= length (c :: l))%nat).
  { intros p Hp. split; [cbn; rewrite Hp; lia|apply run_len_le]. }
  destruct (isSpace c); [cbn; lia|].
  destruct (bool_decide (c = Byte.x2d) && _) eqn:E.
  { apply Hn, Hrun. apply andb_prop in E as [E%bool_decide_eq_true _]. by subst c. }
  destruct (punct c) as [k|] eqn:Ep; [apply He; [by eapply punct_not|cbn; lia]|]. cbv zeta.
  assert (H1 : (0 < 1 <= length (c :: l))%nat) by (cbn; lia).
  destruct (bool_decide (c = Byte.x21)); [destruct (bool_decide (head l = Some Byte.x3d)) eqn:B; [apply He; [done|specialize (H2 _ B); lia]|done]|].
  destruct (bool_decide (c = Byte.x3c)).
  { destruct (bool_decide (head l = Some Byte.x3d)) eqn:B; [apply He; [done|specialize (H2 _ B); lia]|].
    destruct (bool_decide (head l = Some Byte.x3e)) eqn:B'; [apply He; [done|specialize (H2 _ B'); lia]|by apply He]. }
  destruct (bool_decide (c = Byte.x3e)).
  { destruct (bool_decide (head l = Some Byte.x3d)) eqn:B; [apply He; [done|specialize (H2 _ B); lia]|by apply He]. }
  destruct (bool_decide (c = Byte.x27)).
  { destruct (string_body l) as [[b n]|] eqn:Es; [|done]. apply He; [done|].
    apply (string_body_len (length l)) in Es; [cbn; lia|done]. }
  destruct (isDigit c) eqn:Ed; [apply He; [done|by apply Hrun]|].
  destruct (isIdentStart c) eqn:Ei; [|done]. apply He.
  - destruct (keyword _) as [k|] eqn:Ek; [by eapply keyword_not|done].
  - apply Hrun. unfold isIdentPart. by rewrite Ei.
Qed.

(** The output so far: positions strictly increase and stay below [i]. *)
Definition laid (i : nat) (out : list token) : Prop :=
  StronglySorted Z.lt (map tok_pos out) /\ Forall (fun t => 0 <= tok_pos t < Z.of_nat i /\ tok_kind t <> tkEOF) out.
Lemma laid_step r i t i' out : laid i out -> step_ok r i (Ok (t, i')) -> laid i' (out ++ option_list t).
Proof.
  intros [H1 H2] [Hi Ht].
  assert (H2' : Forall (fun t => 0 <= tok_pos t < Z.of_nat i' /\ tok_kind t <> tkEOF) out).
  { eapply Forall_impl; [|exact H2]. cbv beta. intros x [? ?]. split; [lia|done]. }
  destruct t as [t|]; cbn [option_list]; [|by rewrite app_nil_r]. destruct Ht as [Hp Hk]. split.
  - rewrite map_app. apply StronglySorted_app. split_and!; [|done|by repeat constructor].
    intros x y Hx Hy%list_elem_of_singleton. subst y. apply list_elem_of_fmap in Hx as (z & -> & Hz).
    rewrite list.Forall_forall in H2. specialize (H2 z Hz). lia.
  - apply Forall_app. split; [done|]. repeat constructor; [lia..|done].
Qed.

Definition lexed (s : bytes) (toks : list token) : Prop :=
  exists body, toks = body ++ [MkToken tkEOF [] (zlen s)] /\
    StronglySorted Z.lt (map tok_pos body) /\ Forall (fun t => 0 <= tok_pos t < zlen s /\ tok_kind t <> tkEOF) body.
Lemma lex_loop_ok fuel s : forall i out, (length s <= i + fuel)%nat -> (i <= length s)%nat -> laid i out ->
  match lex_loop fuel s i out with Ok toks => lexed s toks | Err e => e = ErrParse | Panic => False end.
Proof.
  induction fuel as [|fuel IH]; intros i out Hf Hi Hl; cbn [lex_loop]; destruct (drop i s) as [|c r] eqn:Ed.
  1, 3: apply (f_equal length) in Ed; rewrite length_drop in Ed; cbn in Ed; destruct Hl as [H1 H2];
    assert (i = length s) as -> by lia; by exists out.
  - apply (f_equal length) in Ed. rewrite length_drop in Ed. cbn in Ed. lia.
  - assert (Hlen : (length (c :: r) = length s - i)%nat) by (by rewrite <- Ed, length_drop).
    pose proof (lex_step_ok (c :: r) i ltac:(done)) as Hs.
    destruct (lex_step (c :: r) i) as [[t i']|e|] eqn:Es; cbn [mbind outcome_bind]; [|exact Hs|done].
    apply IH; [destruct Hs; lia..|]. by eapply laid_step.
Qed.

Lemma tokenize_ok s : match tokenize s with Ok toks => lexed s toks | Err e => e = ErrParse | Panic => False end.
Proof. apply lex_loop_ok; [lia..|]. split; constructor. Qed.

(** The lexer is total. On any text it ends, with the tokens followed by
    the one end marker at the text's end, their positions strictly increasing
    inside the text, or with a parse error; it never reads past the text. *)
Theorem tokenize_total s : match tokenize s with Ok toks => lexed s toks | Err e => e = ErrParse | Panic => False end.
Proof. apply tokenize_ok. Qed.

(** ** Printing and reading back *)
Definition symbols : list (tokenKind * bytes) :=
  [(tkComma, lit ","); (tkDot, lit "."); (tkLParen, lit "("); (tkRParen, lit ")"); (tkSemi, lit ";"); (tkStar, lit "*");
   (tkPlus, lit "+"); (tkMinus, lit "-"); (tkParam, lit "?"); (tkEq, lit "="); (tkNeq, lit "!="); (tkNeq, lit "<>");
   (tkLt, lit "<"); (tkLte, lit "<="); (tkGt, lit ">"); (tkGte, lit ">=")].
Definition escape_quotes (b : bytes) : bytes :=
  concat (map (fun c => if bool_decide (c = Byte.x27) then [c; c] else [c]) b).

(** The texts a token can be written as: words in any case. *)
Inductive spells : tokenKind -> bytes -> bytes -> Prop :=
  | sp_word c w : isIdentStart c = true -> Forall (fun d => isIdentPart d = true /\ b2z d < 0x80) (c :: w) ->
      let text := map lower_byte (c :: w) in
      spells (default tkIdent (keyword text)) text (c :: w)
  | sp_int d ds : Forall (fun d => isDigit d = true) (d :: ds) -> spells tkInt (d :: ds) (d :: ds)
  | sp_string b : spells tkString b (Byte.x27 :: escape_quotes b ++ [Byte.x27])
  | sp_symbol k w : (k, w) ∈ symbols -> spells k [] w.

(** Whitespace and comments. *)
Inductive layout : bytes -> Prop :=
  | lay_nil : layout []
  | lay_space c l : isSpace c = true -> layout l -> layout (c :: l)
  | lay_comment b l : Forall (fun c => c <> Byte.x0a) b -> layout l -> layout (lit "--" ++ b ++ Byte.x0a :: l).

Lemma start_byte c : isIdentStart c = true -> isSpace c = false /\ punct c = None /\ isDigit c = false /\
  c ∉ [Byte.x21; Byte.x3c; Byte.x3e; Byte.x27; Byte.x2d].
Proof. destruct c; intros H; try (vm_compute in H; discriminate H); split_and!; try (vm_compute; reflexivity); by apply (bool_decide_unpack _); vm_compute. Qed.
Lemma digit_byte c : isDigit c = true -> isSpace c = false /\ punct c = None /\ c ∉ [Byte.x21; Byte.x3c; Byte.x3e; Byte.x27; Byte.x2d].
Proof. destruct c; intros H; try (vm_compute in H; discriminate H); split_and!; try (vm_compute; reflexivity); by apply (bool_decide_unpack _); vm_compute. Qed.
Lemma space_byte c : isSpace c = true -> isIdentPart c = false /\ isDigit c = false /\ c ∉ [Byte.x3d; Byte.x3e; Byte.x27; Byte.x2d].
Proof. destruct c; intros H; try (vm_compute in H; discriminate H); split_and!; try (vm_compute; reflexivity); by apply (bool_decide_unpack _); vm_compute. Qed.

Lemma run_len_app p w c l : Forall (fun d => p d = true) w -> p c = false -> run_len p (w ++ c :: l) = length w.
Proof. induction 1 as [|d w Hd _ IH]; intros Hc; cbn; [by rewrite Hc|]. by rewrite Hd, IH. Qed.
Lemma string_body_escaped b c l : c <> Byte.x27 ->
  string_body (escape_quotes b ++ Byte.x27 :: c :: l) = Some (b, S (length (escape_quotes b))).
Proof.
  intros Hc. induction b as [|d b IH]; [cbn [escape_quotes map concat app]; rewrite string_body_cons; by rewrite bool_decide_true, bool_decide_false|].
  unfold escape_quotes. cbn [map concat]. fold (escape_quotes b). destruct (decide (d = Byte.x27)) as [->|Hd].
  - rewrite bool_decide_true by done. cbn [app]. rewrite string_body_cons, !bool_decide_true by done. by rewrite IH.
  - rewrite bool_decide_false by done. cbn [app]. rewrite string_body_cons, bool_decide_false by done. by rewrite IH.
Qed.
Lemma ToLower_ascii w : Forall (fun d => b2z d < 0x80) w -> ToLower w = map lower_byte w.
Proof.
  intros H. unfold ToLower. assert (E : forallb (fun c => b2z c <? 0x80) w = true).
  { apply forallb_forall. intros c Hc%list_elem_of_In. rewrite list.Forall_forall in H. apply Z.ltb_lt. by apply H. }
  by rewrite E.
Qed.

Lemma lex_step_word c w sp l i : isIdentStart c = true -> Forall (fun d => isIdentPart d = true /\ b2z d < 0x80) (c :: w) ->
  isSpace sp = true -> let text := map lower_byte (c :: w) in
  lex_step ((c :: w) ++ sp :: l) i = Ok (Some (MkToken (default tkIdent (keyword text)) text (Z.of_nat i)), (i + length (c :: w))%nat).
Proof.
  intros Hc Hw Hsp text. destruct (start_byte c Hc) as (S1 & S2 & S3 & S4). destruct (space_byte sp Hsp) as (P1 & _).
  rewrite !not_elem_of_cons in S4. destruct S4 as (N1 & N2 & N3 & N4 & N5 & _).
  unfold lex_step. cbn [app]. rewrite S1, (bool_decide_false (c = Byte.x2d)), S2 by done. cbn [andb]. cbv zeta.
  rewrite !(bool_decide_false (c = _)) by done. rewrite S3, Hc. change (c :: w ++ sp :: l) with ((c :: w) ++ sp :: l).
  assert (Hp : Forall (fun d => isIdentPart d = true) (c :: w)) by (eapply Forall_impl; [|exact Hw]; by intros ? []).
  assert (Ha : Forall (fun d => b2z d < 0x80) (c :: w)) by (eapply Forall_impl; [|exact Hw]; by intros ? []).
  rewrite (run_len_app _ _ _ _ Hp P1), take_app_length, (ToLower_ascii _ Ha). done.
Qed.
Lemma lex_step_int d w sp l i : Forall (fun d => isDigit d = true) (d :: w) -> isSpace sp = true ->
  lex_step ((d :: w) ++ sp :: l) i = Ok (Some (MkToken tkInt (d :: w) (Z.of_nat i)), (i + length (d :: w))%nat).
Proof.
  intros Hw Hsp. destruct (space_byte sp Hsp) as (_ & P1 & _). pose proof Hw as Hd. apply list.Forall_cons in Hd as [Hd _].
  destruct (digit_byte d Hd) as (S1 & S2 & S4). rewrite !not_elem_of_cons in S4. destruct S4 as (N1 & N2 & N3 & N4 & N5 & _).
  unfold lex_step. cbn [app]. rewrite S1, (bool_decide_false (d = Byte.x2d)), S2 by done. cbn [andb]. cbv zeta.
  rewrite !(bool_decide_false (d = _)) by done. rewrite Hd. change (d :: w ++ sp :: l) with ((d :: w) ++ sp :: l).
  rewrite (run_len_app _ _ _ _ Hw P1), take_app_length. done.
Qed.
Lemma lex_step_string b sp l i : isSpace sp = true ->
  lex_step ((Byte.x27 :: escape_quotes b ++ [Byte.x27]) ++ sp :: l) i =
    Ok (Some (MkToken tkString b (Z.of_nat i)), (i + length (Byte.x27 :: escape_quotes b ++ [Byte.x27]))%nat).
Proof.
  intros Hsp. destruct (space_byte sp Hsp) as (_ & _ & N). rewrite !not_elem_of_cons in N. destruct N as (_ & _ & N & _).
  unfold lex_step. cbn -[string_body escape_quotes]. rewrite <- app_assoc. cbn [app].
  rewrite string_body_escaped by done. cbn [length]. rewrite length_app. cbn [length]. do 2 f_equal. lia.
Qed.
Lemma lex_step_symbol k w sp l i : (k, w) ∈ symbols -> isSpace sp = true ->
  lex_step (w ++ sp :: l) i = Ok (Some (MkToken k [] (Z.of_nat i)), (i + length w)%nat).
Proof.
  intros Hw Hsp. destruct (space_byte sp Hsp) as (_ & _ & N). rewrite !not_elem_of_cons in N. destruct N as (N1 & N2 & _ & N4 & _).
  unfold symbols in Hw. repeat (apply elem_of_cons in Hw as [[= -> ->]|Hw]); [..|by apply elem_of_nil in Hw].
  all: cbn -[bool_decide]; rewrite ?(bool_decide_false (Some sp = Some _)) by congruence; done.
Qed.
Lemma lex_step_spells k t w sp l i : spells k t w -> isSpace sp = true ->
  lex_step (w ++ sp :: l) i = Ok (Some (MkToken k t (Z.of_nat i)), (i + length w)%nat).
Proof. destruct 1; [by apply lex_step_word|by apply lex_step_int|apply lex_step_string|by apply lex_step_symbol]. Qed.

Definition goes (s : bytes) (fuel i n : nat) (out more : list token) : Prop :=
  exists fuel', (length s <= i + n + fuel')%nat /\ lex_loop fuel s i out = lex_loop fuel' s (i + n) (out ++ more).
Lemma goes_0 s fuel i out : (length s <= i + fuel)%nat -> goes s fuel i 0 out [].
Proof. intros H. exists fuel. rewrite Nat.add_0_r, app_nil_r. done. Qed.
Lemma goes_step s fuel i out c r t n : drop i s = c :: r -> (length s <= i + fuel)%nat ->
  lex_step (c :: r) i = Ok (t, (i + n)%nat) -> (0 < n)%nat -> goes s fuel i n out (option_list t).
Proof.
  intros Hd Hf Hs Hn. pose proof (f_equal length Hd) as El. rewrite length_drop in El. cbn in El.
  destruct fuel as [|fuel]; [lia|]. exists fuel. split; [lia|]. cbn [lex_loop]. rewrite Hd, Hs. done.
Qed.
Lemma goes_trans s fuel i n n' out m m' : goes s fuel i n out m ->
  (forall fuel', (length s <= i + n + fuel')%nat -> goes s fuel' (i + n) n' (out ++ m) m') -> goes s fuel i (n + n') out (m ++ m').
Proof.
  intros (f1 & H1 & E1) H. destruct (H f1 H1) as (f2 & H2 & E2). exists f2. rewrite E1, E2, app_assoc, Nat.add_assoc.
  split; [lia|done].
Qed.

Lemma lex_step_comment b l i : Forall (fun c => c <> Byte.x0a) b ->
  lex_step (lit "--" ++ b ++ Byte.x0a :: l) i = Ok (None, (i + (2 + length b))%nat).
Proof.
  intros Hb. unfold lex_step. cbn -[bool_decide run_len]. rewrite !bool_decide_true by done. cbn [andb]. do 3 f_equal.
  change (Byte.x2d :: Byte.x2d :: b ++ Byte.x0a :: l) with ((Byte.x2d :: Byte.x2d :: b) ++ Byte.x0a :: l).
  rewrite run_len_app; [done| |by rewrite bool_decide_true].
  repeat (apply Forall_cons_2; [by vm_compute|]). eapply Forall_impl; [|exact Hb]. cbv beta. intros c Hc. by rewrite bool_decide_false.
Qed.
Lemma goes_layout sep : layout sep -> forall s fuel i out tl, drop i s = sep ++ tl -> (length s <= i + fuel)%nat ->
  goes s fuel i (length sep) out [].
Proof.
  induction 1 as [|c l Hc _ IH|b l Hb _ IH]; intros s fuel i out tl Hd Hf; [by apply goes_0|..].
  - apply (goes_trans s fuel i 1 (length l) out [] []).
    + eapply (goes_step s fuel i out c (l ++ tl) None 1 Hd Hf); [|lia]. unfold lex_step. rewrite Hc. do 2 f_equal. lia.
    + intros f' Hf'. apply (IH s f' _ _ tl); [|done]. rewrite <- drop_drop, Hd. done.
  - rewrite <- !app_assoc in Hd. cbn [app] in Hd. rewrite !length_app. cbn [length]. 
    replace (length (lit "--") + (length b + S (length l)))%nat with ((2 + length b) + (1 + length l))%nat by (cbn; lia).
    assert (Hd' : drop (i + (2 + length b)) s = Byte.x0a :: l ++ tl).
    { rewrite <- drop_drop, Hd, app_assoc. apply drop_app_length'. rewrite length_app. done. }
    apply (goes_trans s fuel i _ _ out [] []).
    + eapply (goes_step s fuel i out _ _ None _ Hd Hf); [|lia]. apply (lex_step_comment b (l ++ tl) i Hb).
    + intros f' Hf'. apply (goes_trans s f' _ 1 (length l) _ [] []).
      * apply (goes_step s f' _ _ _ _ None 1 Hd' Hf'); [|lia]. unfold lex_step. cbn. do 2 f_equal. lia.
      * intros f2 Hf2. apply (IH s f2 _ _ tl); [|done]. rewrite <- drop_drop, Hd'. done.
Qed.

(** One written token: its kind, its text, its spelling and what follows it. *)
Definition written : Type := tokenKind * bytes * bytes * bytes.
Definition w_ok (x : written) : Prop :=
  let '(k, t, w, sep) := x in spells k t w /\ layout sep /\ exists c l, sep = c :: l /\ isSpace c = true.
Definition written_text (l : list written) : bytes := concat (map (fun '(_, _, w, sep) => w ++ sep) l).
Definition token_text (t : token) : tokenKind * bytes := (tok_kind t, tok_text t).

Lemma spells_pos k t w : spells k t w -> (0 < length w)%nat.
Proof.
  destruct 1; cbn; try lia. unfold symbols in *. repeat (match goal with H : _ ∈ _ :: _ |- _ => apply elem_of_cons in H as [[= -> ->]|H] end; [cbn; lia|]).
  by match goal with H : _ ∈ [] |- _ => apply elem_of_nil in H end.
Qed.
Lemma goes_written l : Forall w_ok l -> forall s fuel i out, drop i s = written_text l -> (length s <= i + fuel)%nat ->
  exists more, goes s fuel i (length (written_text l)) out more /\ map token_text more = map (fun '(k, t, _, _) => (k, t)) l.
Proof.
  induction 1 as [|[[[k t] w] sep] l (Hs & Hsep & c & r & -> & Hc) _ IH]; intros s fuel i out Hd Hf.
  { exists []. split; [by apply goes_0|done]. }
  unfold written_text in *. cbn [map concat] in *. rewrite <- app_assoc in Hd. cbn [app] in Hd.
  pose proof (spells_pos _ _ _ Hs) as Hw. set (tk := MkToken k t (Z.of_nat i)).
  assert (G : goes s fuel i (length w + length (c :: r)) out ([tk] ++ [])).
  { apply goes_trans.
    - destruct w as [|x w]; [cbn in Hw; lia|]. eapply (goes_step s fuel i out _ _ (Some tk) _ Hd Hf); [|done].
      by apply (lex_step_spells k t (x :: w)).
    - intros f' Hf'. eapply (goes_layout _ Hsep); [|done]. rewrite <- drop_drop, Hd. apply drop_app_length. }
  destruct G as (f1 & Hf1 & E1). edestruct (IH s f1 (i + (length w + length (c :: r)))%nat (out ++ [tk])) as (more & (f2 & Hf2 & E2) & Em).
  { rewrite <- !drop_drop, Hd, drop_app_length. change (c :: r ++ ?x) with ((c :: r) ++ x). apply drop_app_length. }
  { lia. }
  exists (tk :: more). split; [|by rewrite map_cons, Em]. exists f2. rewrite !length_app. split; [lia|].
  rewrite app_nil_r in E1. rewrite E1, E2, <- app_assoc. f_equal. lia.
Qed.

Lemma tokenize_reads lay l : layout lay -> Forall w_ok l ->
  exists toks, tokenize (lay ++ written_text l) = Ok toks /\
    map token_text toks = map (fun '(k, t, _, _) => (k, t)) l ++ [(tkEOF, [])].
Proof.
  intros Hlay Hl. set (s := lay ++ written_text l). unfold tokenize.
  destruct (goes_layout lay Hlay s (length s) 0 [] (written_text l)) as (f1 & Hf1 & E1); [done|done|].
  destruct (goes_written l Hl s f1 (0 + length lay) []) as (more & (f2 & Hf2 & E2) & Em); [apply drop_app_length|done|].
  rewrite E1. cbn [app] in *. rewrite E2. exists (more ++ [MkToken tkEOF [] (zlen s)]). split.
  - assert (Ed : drop (0 + length lay + length (written_text l)) s = []) by (apply drop_ge; unfold s; rewrite length_app; lia).
    unfold zlen. replace (length s) with (0 + length lay + length (written_text l))%nat by (unfold s; rewrite length_app; lia).
    destruct f2; cbn [lex_loop]; by rewrite Ed.
  - by rewrite map_app, Em.
Qed.

(** The lexer reads back what is written. Write any tokens one after the
    other, words in any mixture of cases, quotes inside strings doubled, each
    followed by whitespace and comments of any shape: the lexer returns exactly
    those tokens, words lower-cased, and the end marker. *)
Theorem tokenize_written lay l : layout lay -> Forall w_ok l ->
  exists toks, tokenize (lay ++ written_text l) = Ok toks /\
    map token_text toks = map (fun '(k, t, _, _) => (k, t)) l ++ [(tkEOF, [])].
Proof. apply tokenize_reads. Qed.
End lexer.

Definition demo_written : list written :=
  [(tkSelect, lit "select", lit "SeLect", lit " "); (tkStar, [], lit "*", lit " -- all" ++ [Byte.x0a]);
   (tkIdent, lit "t_1", lit "T_1", lit " "); (tkNeq, [], lit "<>", lit " ");
   (tkString, lit "it's", Byte.x27 :: lit "it" ++ [Byte.x27; Byte.x27] ++ lit "s" ++ [Byte.x27], lit " ")].
Lemma tokenize_written_witness : exists toks, tokenize id (lit "  " ++ written_text demo_written) = Ok toks /\
  map tok_kind toks = [tkSelect; tkStar; tkIdent; tkNeq; tkString; tkEOF].
Proof.
  destruct (tokenize_written id (lit "  ") demo_written) as (toks & E & Em).
  - repeat (apply lay_space; [reflexivity|]). constructor.
  - assert (Hl : layout (lit " ")) by (apply lay_space; [reflexivity|constructor]).
    assert (Hc : layout (lit " -- all" ++ [Byte.x0a])).
    { apply lay_space; [reflexivity|]. apply (lay_comment (lit " all") []); [repeat constructor; discriminate|constructor]. }
    unfold demo_written. repeat (apply Forall_cons_2; [split; [|split; [done|eexists _, _; split; [reflexivity|reflexivity]]]|]); [..|constructor].
    + apply (sp_word Byte.x53 (lit "eLect")); [reflexivity|]. repeat constructor; reflexivity.
    + by apply sp_symbol, (bool_decide_unpack _); vm_compute.
    + apply (sp_word Byte.x54 (lit "_1")); [reflexivity|]. repeat constructor; reflexivity.
    + by apply sp_symbol, (bool_decide_unpack _); vm_compute.
    + exact (sp_string (lit "it's")).
  - exists toks. split; [exact E|]. apply (f_equal (map fst)) in Em. rewrite map_map in Em. exact Em.
Defined.
