(* ===== verification/Parser.v ===== *)
(** * Parser: tokens to statements (parser.go).

    The parser is a struct that its methods mutate: a state monad over
    [outcome]. A method that fails leaves no state behind, because every caller
    returns the error up to [parseSQL]. Expression methods call each other
    recursively; [stack] counts the call frames left, and a call without one is
    the fatal stack overflow, a [Panic]. A loop that does not end within one
    round per token is a [Panic] as well; both are proved impossible. *)
From S2P Require Import Prelude Bytes Value Schema Ast Lexer.

Record parser : Type := MkParser {
  p_toks : list token;
  p_pos : nat;
  p_depth : Z;
}.
Definition P (A : Type) : Type := parser -> outcome (A * parser).
#[export] Instance P_ret : MRet P := fun A a p => Ok (a, p).
#[export] Instance P_bind : MBind P := fun A B k m p =>
  match m p with Ok (a, p) => k a p | Err e => Err e | Panic => Panic end.
Definition fail {A} : P A := fun _ => Err ErrParse.
Definition lift_o {A} (o : outcome A) : P A := fun p => match o with Ok a => Ok (a, p) | Err e => Err e | Panic => Panic end.

Definition maxExprDepth : Z := 256.
Definition enter : P unit := fun p =>
  let p := MkParser (p_toks p) (p_pos p) (p_depth p + 1) in
  if p_depth p >? maxExprDepth then Err ErrParse else Ok (tt, p).
Definition leave : P unit := fun p => Ok (tt, MkParser (p_toks p) (p_pos p) (p_depth p - 1)).

Definition peek : P token := fun p => match p_toks p !! p_pos p with Some t => Ok (t, p) | None => Panic end.
Definition advance : P token := fun p =>
  match p_toks p !! p_pos p with
  | Some t =>
      Ok (t, if (p_pos p <? length (p_toks p) - 1)%nat then MkParser (p_toks p) (S (p_pos p)) (p_depth p) else p)
  | None => Panic
  end.
Definition expect (k : tokenKind) : P token :=
  t ← peek; if bool_decide (tok_kind t <> k) then fail else advance.
Definition peek_is (k : tokenKind) : P bool := t ← peek; mret (bool_decide (tok_kind t = k)).

(** [for cond { body }] with the accumulator threaded; one round per token. *)
Fixpoint loop {A} (fuel : nat) (round : A -> P (A * bool)) (a : A) : P A := fun p =>
  match fuel with
  | O => Panic
  | S fuel => (x ← round a; if snd x : bool then loop fuel round (fst x) else mret (fst x)) p
  end.
Definition loop_toks {A} (round : A -> P (A * bool)) (a : A) : P A := fun p => loop (S (length (p_toks p))) round a p.

(** strconv.ParseInt(s, 10, 64) and strconv.Atoi, their errors wrapped in ErrParse. *)
Definition parse_int (s : bytes) : P Z :=
  match ParseInt s with Ok n => mret n | Err _ => fail | Panic => fun _ => Panic end.

(** ** Expressions *)
Definition bin_round (ops : tokenKind -> bool) (operand : P expr) (lhs : expr) : P (expr * bool) :=
  t ← peek;
  if ops (tok_kind t) then
    op ← advance;
    rhs ← operand;
    mret (binOp (tok_kind op) lhs rhs, true)
  else mret (lhs, false).
Definition bin_chain (ops : tokenKind -> bool) (operand : P expr) : P expr :=
  lhs ← operand;
  loop_toks (bin_round ops operand) lhs.

Definition is_or (k : tokenKind) : bool := bool_decide (k = tkOr).
Definition is_and (k : tokenKind) : bool := bool_decide (k = tkAnd).
Definition is_add (k : tokenKind) : bool := bool_decide (k = tkPlus) || bool_decide (k = tkMinus).
Definition is_mul (k : tokenKind) : bool := bool_decide (k = tkStar).

Fixpoint parseExpr (stack : nat) : P expr := fun p =>
  match stack with O => Panic | S stack => parseOr stack p end
with parseOr (stack : nat) : P expr := fun p =>
  match stack with O => Panic | S stack => bin_chain is_or (parseAnd stack) p end
with parseAnd (stack : nat) : P expr := fun p =>
  match stack with O => Panic | S stack => bin_chain is_and (parseNot stack) p end
with parseNot (stack : nat) : P expr := fun p =>
  match stack with
  | O => Panic
  | S stack =>
      (n ← peek_is tkNot;
       if n : bool then
         _ ← advance;
         _ ← enter;
         inner ← parseNot stack;
         _ ← leave;
         mret (notExpr inner)
       else parseCmp stack) p
  end
with parseCmp (stack : nat) : P expr := fun p =>
  match stack with
  | O => Panic
  | S stack =>
      (lhs ← parseAddSub stack;
       t ← peek;
       match tok_kind t with
       | tkEq | tkNeq | tkLt | tkLte | tkGt | tkGte =>
           op ← advance;
           rhs ← parseAddSub stack;
           mret (binOp (tok_kind op) lhs rhs)
       | tkIs =>
           _ ← advance;
           n ← peek_is tkNot;
           _ ← (if n : bool then _ ← advance; mret tt else mret tt);
           _ ← expect tkNull;
           mret (isNullExpr lhs n)
       | _ => mret lhs
       end) p
  end
with parseAddSub (stack : nat) : P expr := fun p =>
  match stack with O => Panic | S stack => bin_chain is_add (parseMulDiv stack) p end
with parseMulDiv (stack : nat) : P expr := fun p =>
  match stack with O => Panic | S stack => bin_chain is_mul (parseAtom stack) p end
with parseAtom (stack : nat) : P expr := fun p =>
  match stack with
  | O => Panic
  | S stack =>
      (t ← peek;
       match tok_kind t with
       | tkLParen =>
           _ ← advance;
           _ ← enter;
           e ← parseExpr stack;
           _ ← leave;
           _ ← expect tkRParen;
           mret e
       | tkIdent =>
           _ ← advance;
           d ← peek_is tkDot;
           if d : bool then
             _ ← advance;
             c ← expect tkIdent;
             mret (colRef (tok_text t) (tok_text c) (-1))
           else mret (colRef [] (tok_text t) (-1))
       | tkInt =>
           _ ← advance;
           n ← parse_int (tok_text t);
           mret (litValue (Int n))
       | tkString => _ ← advance; mret (litValue (Str (tok_text t)))
       | tkParam => _ ← advance; mret (paramRef (-1))
       | tkNull => _ ← advance; mret (litValue Null)
       | tkTrue => _ ← advance; mret (litValue (Bool true))
       | tkFalse => _ ← advance; mret (litValue (Bool false))
       | _ => fail
       end) p
  end.

(** ** Statements *)
(** An optional element introduced by [k]. *)
Definition when (k : tokenKind) {A} (m : P A) (none : A) : P A :=
  b ← peek_is k; if b : bool then m else mret none.
(** A comma: consume it and go round again. *)
Definition more_comma {A} (a : A) : P (A * bool) :=
  b ← peek_is tkComma; if b : bool then _ ← advance; mret (a, true) else mret (a, false).
Definition comma_list {A} (item : P A) : P (list A) :=
  loop_toks (fun l => x ← item; more_comma (l ++ [x])) [].
Definition ident : P bytes := t ← expect tkIdent; mret (tok_text t).
(** An optional alias. *)
Definition opt_ident : P bytes := when tkIdent (t ← advance; mret (tok_text t)) [].

Definition parseColName : P (bytes * bytes) :=
  id ← ident;
  when tkDot (_ ← advance; c ← ident; mret (id, c)) ([], id).

Definition parseColType (s : bytes) : outcome Z :=
  if bool_decide (s = lit "int") then Ok TypeInt
  else if bool_decide (s = lit "text") || bool_decide (s = lit "string") then Ok TypeString
  else if bool_decide (s = lit "bool") then Ok TypeBool
  else if bool_decide (s = lit "bytes") || bool_decide (s = lit "blob") then Ok TypeBytes
  else if bool_decide (s = lit "uuid") then Ok TypeUUID
  else Err ErrParse.

Definition text_is (t : token) (s : bytes) : bool := bool_decide (tok_text t = s).
Definition key_word : P unit := w ← advance; if text_is w (lit "key") then mret tt else fail.

(** One column constraint; [false] when the list of them is over. *)
Definition constraint_round (col : ColumnDef) : P (ColumnDef * bool) :=
  let 'MkCol name ty pk imm part nullable := col in
  t ← peek;
  match tok_kind t with
  | tkComma | tkRParen | tkEOF => mret (col, false)
  | _ =>
      t ← advance;
      if bool_decide (tok_kind t = tkNull) then mret (MkCol name ty pk imm part true, true)
      else if bool_decide (tok_kind t = tkNot) then
        _ ← when tkNull (_ ← advance; mret tt) tt;
        mret (col, true)
      else if text_is t (lit "primary") then _ ← key_word; mret (MkCol name ty true imm part nullable, true)
      else if text_is t (lit "partition") then _ ← key_word; mret (MkCol name ty pk imm true nullable, true)
      else if text_is t (lit "immutable") then mret (MkCol name ty pk true part nullable, true)
      else fail
  end.

Definition ordered_round (ordered : bool) : P (bool * bool) :=
  t ← peek;
  if text_is t (lit "ordered") then _ ← advance; mret (true, true) else mret (ordered, false).
Definition parseIndexClause : P IndexDef :=
  ordered ← loop_toks ordered_round false;
  w ← advance;
  if negb (text_is w (lit "index")) then fail
  else
    name ← opt_ident;
    _ ← expect tkLParen;
    cols ← comma_list ident;
    _ ← expect tkRParen;
    if (1 <? length cols)%nat && negb ordered then fail
    else mret (MkIndex name cols ordered).

(** One element of the parenthesised list of CREATE TABLE. *)
Definition create_round (def : TableDef) : P (TableDef * bool) :=
  t ← peek;
  if bool_decide (tok_kind t = tkIdent) && (text_is t (lit "index") || text_is t (lit "ordered")) then
    ix ← parseIndexClause;
    more_comma (MkTable (t_Name def) (t_Columns def) (t_Indexes def ++ [ix]))
  else
    cn ← ident;
    tt_ ← ident;
    ct ← lift_o (parseColType tt_);
    col ← loop_toks constraint_round (MkCol cn ct false false false false);
    more_comma (MkTable (t_Name def) (t_Columns def ++ [col]) (t_Indexes def)).
Definition parseCreate : P stmt :=
  _ ← advance;
  _ ← expect tkTable;
  tn ← ident;
  _ ← expect tkLParen;
  def ← loop_toks create_round (MkTable tn [] []);
  _ ← expect tkRParen;
  mret (SCreate def).

Definition parseDrop : P stmt :=
  _ ← advance;
  _ ← expect tkTable;
  tn ← ident;
  mret (SDrop tn).

Definition join_round (joins : list joinClause) : P (list joinClause * bool) :=
  t ← peek;
  let k := tok_kind t in
  let body (joinType : tokenKind) : P (list joinClause * bool) :=
    tn ← ident;
    alias ← opt_ident;
    _ ← expect tkOn;
    l ← parseColName;
    _ ← expect tkEq;
    r ← parseColName;
    mret (joins ++ [MkJoin joinType tn alias l r], true) in
  match k with
  | tkJoin => _ ← advance; body tkInner
  | tkInner | tkLeft | tkRight =>
      _ ← advance;
      _ ← (if bool_decide (k = tkLeft) || bool_decide (k = tkRight) then when tkOuter (_ ← advance; mret tt) tt else mret tt);
      _ ← expect tkJoin;
      body k
  | _ => mret (joins, false)
  end.
Definition parseJoins : P (list joinClause) := loop_toks join_round [].

Section statements.
Context (stack : nat).   (* the frames left when a statement parser calls parseExpr *)

Definition opt_where : P (option expr) := when tkWhere (_ ← advance; e ← parseExpr stack; mret (Some e)) None.

Definition parse_count (none : Z) (k : tokenKind) : P Z :=
  when k (_ ← advance; t ← expect tkInt; parse_int (tok_text t)) none.

(** The projection: columns, [*] flag, COUNT flag. *)
Definition parse_projection : P (list resultCol * bool * bool) :=
  t ← peek;
  if bool_decide (tok_kind t = tkIdent) && bool_decide (map lower_byte (tok_text t) = lit "count") then
    _ ← advance;
    _ ← expect tkLParen;
    _ ← expect tkStar;
    _ ← expect tkRParen;
    mret ([], false, true)
  else if bool_decide (tok_kind t = tkStar) then _ ← advance; mret ([], true, false)
  else
    cols ← comma_list (qn ← parseColName; mret (MkResultCol (fst qn) (snd qn)));
    mret (cols, false, false).

Definition parse_order : P (bytes * bytes * bool) :=
  when tkOrder
    (_ ← advance;
     _ ← expect tkBy;
     qn ← parseColName;
     t ← peek;
     match tok_kind t with
     | tkAsc => _ ← advance; mret (snd qn, fst qn, false)
     | tkDesc => _ ← advance; mret (snd qn, fst qn, true)
     | _ => mret (snd qn, fst qn, false)
     end) ([], [], false).

Definition parseSelect : P stmt :=
  _ ← advance;
  proj ← parse_projection;
  let '(cols, starAll, countStar) := proj in
  _ ← expect tkFrom;
  table ← ident;
  alias ← opt_ident;
  joins ← parseJoins;
  where_ ← opt_where;
  ord ← parse_order;
  let '(orderCol, orderQual, orderDesc) := ord in
  limit ← parse_count (-1) tkLimit;
  offset ← parse_count 0 tkOffset;
  if countStar && (negb (bool_decide (orderCol = [])) || negb (limit =? -1) || negb (offset =? 0) || negb (length joins =? 0)%nat)
  then fail
  else mret (SSelect (MkSelect cols starAll countStar table alias joins where_ orderCol orderQual orderDesc limit offset)).

Definition tuple_round (ncols : nat) (rows : list (list expr)) : P (list (list expr) * bool) :=
  _ ← expect tkLParen;
  tuple ← comma_list (parseExpr stack);
  _ ← expect tkRParen;
  if negb (length tuple =? ncols)%nat then fail else more_comma (rows ++ [tuple]).
Definition parseInsert : P stmt :=
  _ ← advance;
  _ ← expect tkInto;
  tn ← ident;
  _ ← expect tkLParen;
  cols ← comma_list ident;
  _ ← expect tkRParen;
  _ ← expect tkValues;
  rows ← loop_toks (tuple_round (length cols)) [];
  mret (SInsert tn cols rows).

Definition parseUpdate : P stmt :=
  _ ← advance;
  tn ← ident;
  _ ← expect tkSet;
  sets ← comma_list (id ← ident; _ ← expect tkEq; v ← parseExpr stack; mret (MkSet id v));
  where_ ← opt_where;
  mret (SUpdate tn sets where_).

Definition parseDelete : P stmt :=
  _ ← advance;
  _ ← expect tkFrom;
  tn ← ident;
  where_ ← opt_where;
  mret (SDelete tn where_).

Definition parseStmt : P stmt :=
  t ← peek;
  match tok_kind t with
  | tkSelect => parseSelect
  | tkInsert => parseInsert
  | tkUpdate => parseUpdate
  | tkDelete => parseDelete
  | tkCreate => parseCreate
  | tkDrop => parseDrop
  | _ => fail
  end.

Definition parse_rest : P stmt :=
  st ← parseStmt;
  _ ← when tkSemi (_ ← advance; mret tt) tt;
  e ← peek_is tkEOF;
  if e : bool then mret st else fail.
Definition parseSQL (mapLower : bytes -> bytes) (sql : bytes) : outcome stmt :=
  toks ← tokenize mapLower sql;
  r ← parse_rest (MkParser toks 0 0);
  Ok (fst r).
End statements.
