(* ===== verification/ParserOk.v ===== *)
(** * ParserOk: the parser is total, within a stack that does not depend on the
    input, and reads back what the grammar prints. *)
From S2P Require Import Prelude Bytes Value Schema Ast Lexer Parser.

(** The tokens end in the end marker and the position is on one of them. *)
Definition wf (p : parser) : Prop :=
  exists body eof, p_toks p = body ++ [eof] /\ (tok_kind eof = tkEOF /\ tok_text eof = []) /\ Forall (fun t => tok_kind t <> tkEOF) body /\
    (p_pos p < length (p_toks p))%nat.

(** [m], started at a token that satisfies [pre] and at nesting depth [d],
    never panics and fails with a parse error only; it leaves the tokens and
    the depth as they were, does not move back, and moves on whenever [R] holds
    of its result. *)
Definition sound {A} (d : Z) (pre : token -> Prop) (m : P A) (R : A -> bool) : Prop :=
  forall p, wf p -> p_depth p = d -> (forall t, p_toks p !! p_pos p = Some t -> pre t) ->
  match m p with
  | Ok (a, p') => wf p' /\ p_toks p' = p_toks p /\ p_depth p' = d /\ (p_pos p <= p_pos p')%nat /\
      (R a = true -> (p_pos p < p_pos p')%nat)
  | Err e => e = ErrParse
  | Panic => False
  end.
Definition any : token -> Prop := fun _ => True.
Definition always {A} : A -> bool := fun _ => true.
Definition never {A} : A -> bool := fun _ => false.

Definition end_empty (t : token) : Prop := tok_kind t = tkEOF -> tok_text t = [].
Lemma wf_token p : wf p -> exists t, p_toks p !! p_pos p = Some t /\
  (tok_kind t <> tkEOF -> (p_pos p < length (p_toks p) - 1)%nat) /\ end_empty t.
Proof.
  intros (body & eof & E & [Ek Et] & Hb & Hp). destruct (lookup_lt_is_Some_2 _ _ Hp) as [t Ht]. exists t. split; [done|].
  rewrite E, length_app in *. cbn [length] in *. destruct (decide (p_pos p = length body)) as [El|].
  - rewrite El in Ht. rewrite lookup_app_r, Nat.sub_diag in Ht by lia. cbn in Ht. injection Ht as <-. split; [intros C; by destruct C|by intros _].
  - split; [lia|]. intros Ek'. rewrite lookup_app_l in Ht by lia. exfalso. by apply (Forall_lookup_1 _ _ _ _ Hb Ht).
Qed.

Lemma bind_run {A B} (m : P A) (k : A -> P B) p :
  (m ≫= k) p = match m p with Ok (a, p) => k a p | Err e => Err e | Panic => Panic end.
Proof. reflexivity. Qed.
Lemma ret_run {A} (a : A) p : (mret a : P A) p = Ok (a, p).
Proof. reflexivity. Qed.

Lemma sound_ret {A} d pre (a : A) R : R a = false -> sound d pre (mret a) R.
Proof. intros HR p Hw Hd _. cbn. split_and!; try done. congruence. Qed.
Lemma sound_fail {A} d pre (R : A -> bool) : sound d pre fail R.
Proof. by intros p Hw Hd _. Qed.
Lemma sound_weaken {A} d (pre pre' : token -> Prop) (m : P A) R R' : sound d pre m R -> (forall t, pre' t -> pre t) -> (forall a, R' a = true -> R a = true) ->
  sound d pre' m R'.
Proof.
  intros H Hp HR p Hw Hd Ht. specialize (H p Hw Hd (fun t E => Hp t (Ht t E))).
  destruct (m p) as [[a p']| |]; [|done..]. destruct H as (? & ? & ? & ? & ?). split_and!; auto.
Qed.
Lemma sound_bind {A B} d pre (m : P A) (k : A -> P B) (R1 : A -> bool) (R : B -> bool) : sound d pre m R1 ->
  (forall a, sound d any (k a) (if R1 a then never else R)) -> sound d pre (m ≫= k) R.
Proof.
  intros Hm Hk p Hw Hd Ht. rewrite bind_run. specialize (Hm p Hw Hd Ht). destruct (m p) as [[a p']| |]; [|done..].
  destruct Hm as (W & T & D & Le & Lt). specialize (Hk a p' W D (fun _ _ => I)).
  destruct (k a p') as [[b p2]| |]; [|done..]. destruct Hk as (W2 & T2 & D2 & Le2 & Lt2).
  split_and!; try done; try congruence; [lia|]. intros HR. destruct (R1 a); [specialize (Lt eq_refl); lia|specialize (Lt2 HR); lia].
Qed.
Lemma sound_peek {A} d (pre : token -> Prop) (k : token -> P A) R : (forall t, pre t -> end_empty t -> sound d (eq t) (k t) R) -> sound d pre (peek ≫= k) R.
Proof.
  intros Hk p Hw Hd Ht. destruct (wf_token p Hw) as (t & E & _ & Hend). rewrite bind_run. unfold peek. rewrite E.
  apply Hk; auto. intros t' E'. congruence.
Qed.
Lemma wf_advance p t : wf p -> p_toks p !! p_pos p = Some t -> tok_kind t <> tkEOF ->
  wf (MkParser (p_toks p) (S (p_pos p)) (p_depth p)).
Proof.
  intros Hw E Hne. destruct (wf_token p Hw) as (t' & E' & Hlt & _). rewrite E in E'. injection E' as <-. specialize (Hlt Hne).
  destruct Hw as (body & eof & W1 & [W2 W2'] & W3 & W4). exists body, eof. cbn. split_and!; try done. lia.
Qed.
Lemma sound_advance d (pre : token -> Prop) : (forall t, pre t -> tok_kind t <> tkEOF) -> sound d pre advance always.
Proof.
  intros Hne p Hw Hd Ht. destruct (wf_token p Hw) as (t & E & Hlt & _). specialize (Hne t (Ht t E)). specialize (Hlt Hne).
  unfold advance. rewrite E, (proj2 (Nat.ltb_lt _ _) Hlt). split_and!; cbn; try done; [|lia|lia].
  by apply (wf_advance p t).
Qed.
Lemma sound_advance_any d pre : sound d pre advance never.
Proof.
  intros p Hw Hd Ht. destruct (wf_token p Hw) as (t & E & Hlt & _). unfold advance. rewrite E.
  destruct (Nat.ltb_spec (p_pos p) (length (p_toks p) - 1)) as [H|H]; [|by split_and!].
  split_and!; cbn; try done; [|lia]. destruct Hw as (body & eof & W1 & [W2 W2'] & W3 & W4). exists body, eof. cbn.
  split_and!; try done. lia.
Qed.
Lemma sound_expect d pre k : k <> tkEOF -> sound d pre (expect k) always.
Proof.
  intros Hk. unfold expect. apply sound_peek. intros t _ _. case_bool_decide as E; [apply sound_fail|].
  apply sound_advance. intros t' <-. congruence.
Qed.
Lemma sound_peek_is {A} d pre k (m : bool -> P A) R : (forall t, pre t -> tok_kind t = k -> sound d (eq t) (m true) R) ->
  sound d any (m false) R -> sound d pre (peek_is k ≫= m) R.
Proof.
  intros H1 H2 p Hw Hd Ht. unfold peek_is. destruct (wf_token p Hw) as (t & E & _ & Hend). rewrite !bind_run. unfold peek. rewrite E, ret_run.
  case_bool_decide as Ek; [apply (H1 t (Ht t E) Ek); try done; intros t' E'; congruence|by apply H2].
Qed.
Lemma sound_when {A} d pre k (m : P A) none R : (forall t, tok_kind t = k -> sound d (eq t) m R) -> R none = false ->
  sound d pre (when k m none) R.
Proof. intros Hm Hn. unfold when. apply sound_peek_is; [intros t _ Ht; by apply Hm|by apply sound_ret]. Qed.

(** A loop whose rounds move on whenever they ask for another one. *)
Lemma sound_loop {A} d (round : A -> P (A * bool)) : (forall a, sound d any (round a) snd) ->
  forall fuel a p, wf p -> p_depth p = d -> (length (p_toks p) - p_pos p < fuel)%nat ->
  match loop fuel round a p with
  | Ok (a, p') => wf p' /\ p_toks p' = p_toks p /\ p_depth p' = d /\ (p_pos p <= p_pos p')%nat
  | Err e => e = ErrParse
  | Panic => False
  end.
Proof.
  intros Hr fuel. induction fuel as [|fuel IH]; intros a p Hw Hd Hf; [lia|]. cbn [loop]. rewrite bind_run.
  specialize (Hr a p Hw Hd (fun _ _ => I)). destruct (round a p) as [[[a' more] p']| |]; [|done..].
  destruct Hr as (W & T & D & Le & Lt). cbn [snd fst] in *. destruct more; [|by cbn].
  specialize (Lt eq_refl). assert (Hp : (p_pos p' < length (p_toks p'))%nat) by (by destruct W as (? & ? & ? & ? & ? & ?)).
  specialize (IH a' p' W D ltac:(rewrite T in *; lia)). destruct (loop fuel round a' p') as [[b p2]| |]; [|done..].
  destruct IH as (W2 & T2 & D2 & Le2). split_and!; try done; [congruence|lia].
Qed.
Lemma sound_loop_toks {A} d pre (round : A -> P (A * bool)) a : (forall a, sound d any (round a) snd) -> sound d pre (loop_toks round a) never.
Proof.
  intros Hr p Hw Hd _. unfold loop_toks. pose proof (sound_loop d round Hr (S (length (p_toks p))) a p Hw Hd ltac:(lia)) as H.
  destruct (loop _ _ _ _) as [[b p']| |]; [|done..]. destruct H as (? & ? & ? & ?). split_and!; done.
Qed.

(** ** Automation: one rule per parser combinator *)
Create HintDb parse.
Ltac not_eof := solve [let t := fresh in intros t ?; subst; congruence].
Ltac sound_step :=
  lazymatch goal with
  | |- sound _ _ (mret _) _ => apply sound_ret; try reflexivity
  | |- sound _ _ fail _ => apply sound_fail
  | |- sound _ _ (peek ≫= _) _ => apply sound_peek; intros ? ? ?
  | |- sound _ _ (peek_is _ ≫= _) _ => apply sound_peek_is; [intros ? ? ?|]
  | |- sound _ _ (when _ _ _) _ => apply sound_when; [intros ? ?|try reflexivity]
  | |- sound _ _ advance _ => first [eapply sound_weaken; [apply sound_advance; not_eof|auto|auto]; fail | eapply sound_weaken; [apply (sound_advance_any _ any)|done|done]]
  | |- sound _ _ (advance ≫= _) _ =>
      first [eapply (sound_bind _ _ _ _ always); [apply sound_advance; not_eof|intros ?]
            | eapply (sound_bind _ _ _ _ never); [apply sound_advance_any|intros ?]]
  | |- sound _ _ (_ ≫= _) _ =>
      first [eapply sound_bind; [solve [eauto with parse]|intros ?]
            | eapply (sound_bind _ _ _ _ never); [solve [sound_auto]|intros ?]]
  | |- sound _ _ (if ?b then _ else _) _ => destruct b eqn:?
  | |- sound _ _ (match ?x with _ => _ end) _ => destruct x eqn:?
  | |- _ => eapply sound_weaken; [solve [eauto with parse]|done|done]
  end; unfold always, never; cbv beta iota
with sound_auto := repeat sound_step.
Lemma sound_more_comma {A} d pre (a : A) : sound d pre (more_comma a) snd.
Proof. unfold more_comma. sound_auto. Qed.
#[export] Hint Resolve sound_more_comma : parse.

Lemma sound_comma_list {A} d pre (item : P A) : sound d any item always -> sound d pre (comma_list item) never.
Proof.
  intros Hi. apply sound_loop_toks. intros l. eapply sound_bind; [exact Hi|]. intros x. cbn.
  eapply sound_weaken; [apply (sound_more_comma d any)|done|done].
Qed.
Lemma sound_ident d pre : sound d pre ident always.
Proof. unfold ident. eapply sound_bind; [by apply sound_expect|]. intros t. cbn. by apply sound_ret. Qed.
Lemma sound_opt_ident d pre : sound d pre opt_ident never.
Proof. unfold opt_ident. sound_auto. Qed.
#[export] Hint Resolve sound_ident sound_opt_ident sound_comma_list sound_loop_toks : parse.
#[export] Hint Extern 1 (sound _ _ (expect _) _) => (apply sound_expect; discriminate) : parse.
Lemma sound_parseColName d pre : sound d pre parseColName always.
Proof. unfold parseColName. sound_auto. Qed.
#[export] Hint Resolve sound_parseColName : parse.
Lemma sound_lift_type d pre s : sound d pre (lift_o (parseColType s)) never.
Proof.
  intros p Hw Hd _. unfold lift_o. assert (H : (exists z, parseColType s = Ok z) \/ parseColType s = Err ErrParse).
  { unfold parseColType. repeat case_bool_decide; cbn; eauto. }
  destruct H as [[z ->]| ->]; [by split_and!|done].
Qed.
Lemma sound_parse_int d pre s : sound d pre (parse_int s) never.
Proof.
  unfold parse_int. assert (H : ParseInt s <> Panic).
  { unfold ParseInt. destruct (match s with [] => _ | _ => _ end) as [neg body]. destruct (parse_mag body); [|done]. by case_match. }
  destruct (ParseInt s); [by apply sound_ret|apply sound_fail|done].
Qed.
#[export] Hint Resolve sound_parse_int : parse.
Lemma sound_key_word d pre : sound d pre key_word never.
Proof. unfold key_word. sound_auto. Qed.
#[export] Hint Resolve sound_lift_type sound_key_word : parse.
Lemma sound_constraint_round d col : sound d any (constraint_round col) snd.
Proof. unfold constraint_round. destruct col. sound_auto. Qed.
Lemma sound_ordered_round d o : sound d any (ordered_round o) snd.
Proof.
  unfold ordered_round. apply sound_peek. intros t _ He. destruct (text_is t (lit "ordered")) eqn:E; [|sound_auto].
  apply bool_decide_eq_true in E. eapply (sound_bind _ _ _ _ always); [|intros; sound_auto].
  apply sound_advance. intros t' <- Ek. by rewrite (He Ek) in E.
Qed.
#[export] Hint Resolve sound_constraint_round sound_ordered_round : parse.
Lemma sound_parseIndexClause d pre : sound d pre parseIndexClause never.
Proof. unfold parseIndexClause. sound_auto. Qed.
#[export] Hint Resolve sound_parseIndexClause : parse.
Lemma sound_create_round d def : sound d any (create_round def) snd.
Proof. unfold create_round. sound_auto. Qed.
#[export] Hint Resolve sound_create_round : parse.

(** ** Expressions: the frames a call needs *)
Lemma sound_bin_round d ops operand lhs : (forall k, ops k = true -> k <> tkEOF) -> sound d any operand always ->
  sound d any (bin_round ops operand lhs) snd.
Proof.
  intros Ho Hm. unfold bin_round. apply sound_peek. intros t _ _. destruct (ops (tok_kind t)) eqn:E; [|by apply sound_ret].
  eapply (sound_bind _ _ _ _ always); [apply sound_advance; intros t' <-; by apply Ho|]. intros op. cbn.
  eapply sound_bind; [exact Hm|]. intros rhs. cbn. by apply sound_ret.
Qed.
Lemma sound_bin_chain d ops operand : (forall k, ops k = true -> k <> tkEOF) -> sound d any operand always ->
  sound d any (bin_chain ops operand) always.
Proof.
  intros Ho Hm. unfold bin_chain. eapply sound_bind; [exact Hm|]. intros lhs. cbn.
  apply sound_loop_toks. intros a. by apply sound_bin_round.
Qed.
Lemma sound_stack {A} d pre (m : P A) R : sound d pre m R -> sound d pre (fun p => m p) R.
Proof. done. Qed.

(** [enter; m; leave]: the body runs one level deeper. *)
Lemma sound_nest {A B} d pre (m : P A) (k : A -> P B) (R : B -> bool) : 0 <= d <= maxExprDepth ->
  (d + 1 <= maxExprDepth -> sound (d + 1) any m always) -> (forall a, sound d any (k a) never) ->
  sound d pre (_ ← enter; a ← m; _ ← leave; k a) R.
Proof.
  intros Hd Hm Hk p Hw Hpd _. rewrite bind_run. unfold enter. cbn [p_depth]. rewrite Hpd.
  destruct (d + 1 >? maxExprDepth) eqn:E; [done|]. rewrite Z.gtb_ltb in E. apply Z.ltb_ge in E.
  assert (Hw1 : wf (MkParser (p_toks p) (p_pos p) (d + 1))) by exact Hw.
  specialize (Hm E _ Hw1 eq_refl (fun _ _ => I)). rewrite bind_run.
  destruct (m _) as [[a p1]| |]; [|done..]. destruct Hm as (W & T & D & Le & Lt). cbn [p_toks p_pos p_depth] in *.
  rewrite bind_run. unfold leave. rewrite D.
  assert (Hw2 : wf (MkParser (p_toks p1) (p_pos p1) (d + 1 - 1))) by exact W.
  specialize (Hk a _ Hw2 ltac:(cbn; lia) (fun _ _ => I)). destruct (k a _) as [[b p2]| |]; [|done..].
  destruct Hk as (W2 & T2 & D2 & Le2 & _). cbn [p_toks p_pos] in *. specialize (Lt eq_refl). unfold always, never in *.
  split_and!; try done; [congruence|lia|lia].
Qed.

(** Frames needed by the eight mutually recursive methods at depth [d]. *)
Definition frames (d : Z) : nat := Z.to_nat (8 * (maxExprDepth - d)).
Lemma exprs_sound stack : forall d, 0 <= d <= maxExprDepth ->
  ((8 + frames d <= stack)%nat -> sound d any (parseExpr stack) always) /\
  ((7 + frames d <= stack)%nat -> sound d any (parseOr stack) always) /\
  ((6 + frames d <= stack)%nat -> sound d any (parseAnd stack) always) /\
  ((5 + frames d <= stack)%nat -> sound d any (parseNot stack) always) /\
  ((4 + frames d <= stack)%nat -> sound d any (parseCmp stack) always) /\
  ((3 + frames d <= stack)%nat -> sound d any (parseAddSub stack) always) /\
  ((2 + frames d <= stack)%nat -> sound d any (parseMulDiv stack) always) /\
  ((1 + frames d <= stack)%nat -> sound d any (parseAtom stack) always).
Proof.
  induction stack as [|stack IH]; intros d Hd; [split_and!; lia|].
  destruct (IH d Hd) as (_ & HOr & HAnd & HNot & HCmp & HAdd & HMul & HAtom).
  assert (Hops : forall f, (forall k, f k = true -> k <> tkEOF) -> forall m, sound d any m always -> sound d any (bin_chain f m) always).
  { intros f Hf m Hm. by apply sound_bin_chain. }
  assert (Hin : d + 1 <= maxExprDepth -> (8 + frames (d + 1) <= frames d)%nat) by (unfold frames, maxExprDepth in *; lia).
  split_and!; intros Hs; cbn [parseExpr parseOr parseAnd parseNot parseCmp parseAddSub parseMulDiv parseAtom]; apply sound_stack.
  - apply HOr. lia.
  - apply Hops; [|apply HAnd; lia]. intros k. unfold is_or. case_bool_decide; [subst|]; done.
  - apply Hops; [|apply HNot; lia]. intros k. unfold is_and. case_bool_decide; [subst|]; done.
  - apply sound_peek_is; [|apply HCmp; lia]. intros t _ Ht.
    eapply (sound_bind _ _ _ _ always); [apply sound_advance; not_eof|]. intros ?. cbn.
    apply (sound_nest d any (parseNot stack)); [done| |intros ?; by apply sound_ret].
    intros Hd'. destruct (IH (d + 1) ltac:(lia)) as (_ & _ & _ & H & _). apply H. specialize (Hin Hd'). lia.
  - pose proof (HAdd ltac:(lia)) as HA. eapply sound_bind; [exact HA|]. intros lhs. cbn. unfold never. sound_auto.
  - apply Hops; [|apply HMul; lia]. intros k. unfold is_add. repeat case_bool_decide; subst; done.
  - apply Hops; [|apply HAtom; lia]. intros k. unfold is_mul. case_bool_decide; [subst|]; done.
  - apply sound_peek. intros t _ _.
    destruct (tok_kind t) eqn:Ek; try (sound_auto; fail).
    eapply (sound_bind _ _ _ _ always); [apply sound_advance; not_eof|]. intros ?. cbn.
    apply (sound_nest d any (parseExpr stack)); [done| |].
    { intros Hd'. destruct (IH (d + 1) ltac:(lia)) as (H & _). apply H. specialize (Hin Hd'). lia. }
    intros ?. unfold never. sound_auto.
Qed.

(** ** Statements *)
Lemma sound_join_round d joins : sound d any (join_round joins) snd.
Proof.
  unfold join_round. assert (Hb : forall j pre, sound d pre (
    tn ← ident; alias ← opt_ident; _ ← expect tkOn; l ← parseColName; _ ← expect tkEq; r ← parseColName;
    mret (joins ++ [MkJoin j tn alias l r], true)) snd) by (intros; sound_auto).
  apply sound_peek. intros t _ _. cbv zeta.
  destruct (tok_kind t) eqn:Ek; try (by apply sound_ret).
  - eapply (sound_bind _ _ _ _ never); [apply sound_advance_any|intros ?; apply Hb].
  - eapply (sound_bind _ _ _ _ never); [apply sound_advance_any|intros ?; cbn; sound_auto].
  - eapply (sound_bind _ _ _ _ never); [apply sound_advance_any|intros ?; cbn; sound_auto].
  - eapply (sound_bind _ _ _ _ never); [apply sound_advance_any|intros ?; cbn; sound_auto].
Qed.
Lemma sound_parseJoins d pre : sound d pre parseJoins never.
Proof. apply sound_loop_toks. apply sound_join_round. Qed.
#[export] Hint Resolve sound_parseJoins : parse.

Section statements.
Context (stack : nat) (enough : (8 + frames 0 <= stack)%nat).

Lemma sound_parseExpr pre : sound 0 pre (parseExpr stack) always.
Proof.
  eapply sound_weaken; [|intros t _; exact I|done]. destruct (exprs_sound stack 0 ltac:(unfold maxExprDepth; lia)) as [H _]. by apply H.
Qed.
Hint Resolve sound_parseExpr : parse.
Lemma sound_opt_where pre : sound 0 pre (opt_where stack) never.
Proof. unfold opt_where. sound_auto. Qed.
Lemma sound_parse_count pre none k : k <> tkEOF -> sound 0 pre (parse_count none k) never.
Proof. intros Hk. unfold parse_count. sound_auto. Qed.
Hint Resolve sound_opt_where : parse.
Hint Extern 1 (sound _ _ (parse_count _ _) _) => (apply sound_parse_count; discriminate) : parse.
Lemma sound_parse_projection pre : sound 0 pre parse_projection never.
Proof.
  unfold parse_projection.
  assert (Hi : sound 0 any (qn ← parseColName; mret (MkResultCol (fst qn) (snd qn))) always) by sound_auto.
  sound_auto.
Qed.
Lemma sound_parse_order pre : sound 0 pre parse_order never.
Proof. unfold parse_order. sound_auto. Qed.
Hint Resolve sound_parse_projection sound_parse_order : parse.
Lemma sound_parseSelect pre : sound 0 pre (parseSelect stack) never.
Proof. unfold parseSelect. sound_auto. Qed.
Lemma sound_tuple_round n rows : sound 0 any (tuple_round stack n rows) snd.
Proof. unfold tuple_round. sound_auto. Qed.
Hint Resolve sound_tuple_round : parse.
Lemma sound_parseInsert pre : sound 0 pre (parseInsert stack) never.
Proof. unfold parseInsert. sound_auto. Qed.
Lemma sound_parseUpdate pre : sound 0 pre (parseUpdate stack) never.
Proof.
  unfold parseUpdate.
  assert (Hi : sound 0 any (id ← ident; _ ← expect tkEq; v ← parseExpr stack; mret (MkSet id v)) always) by sound_auto.
  sound_auto.
Qed.
Lemma sound_parseDelete pre : sound 0 pre (parseDelete stack) never.
Proof. unfold parseDelete. sound_auto. Qed.
Lemma sound_parseCreate pre : sound 0 pre parseCreate never.
Proof. unfold parseCreate. sound_auto. Qed.
Lemma sound_parseDrop pre : sound 0 pre parseDrop never.
Proof. unfold parseDrop. sound_auto. Qed.
Hint Resolve sound_parseSelect sound_parseInsert sound_parseUpdate sound_parseDelete sound_parseCreate sound_parseDrop : parse.
Lemma sound_parseStmt pre : sound 0 pre (parseStmt stack) never.
Proof. unfold parseStmt. sound_auto. Qed.
Hint Resolve sound_parseStmt : parse.
Lemma sound_parse_rest pre : sound 0 pre (parse_rest stack) never.
Proof. unfold parse_rest. sound_auto. Qed.

Lemma parse_safe mapLower sql : match parseSQL stack mapLower sql with Ok _ => True | Err e => e = ErrParse | Panic => False end.
Proof.
  unfold parseSQL. pose proof (tokenize_ok mapLower sql) as Ht. destruct (tokenize mapLower sql) as [toks|e|]; [|exact Ht|done].
  destruct Ht as (body & -> & _ & Hb). cbn [mbind outcome_bind].
  assert (Hw : wf (MkParser (body ++ [MkToken tkEOF [] (zlen sql)]) 0 0)).
  { exists body, (MkToken tkEOF [] (zlen sql)). cbn. split_and!; try done; [|rewrite length_app; cbn; lia].
    eapply Forall_impl; [|exact Hb]. by intros t []. }
  pose proof (sound_parse_rest any _ Hw eq_refl (fun _ _ => I)) as H.
  destruct (parse_rest stack _) as [[st p]| |]; done.
Qed.

(** C39: SQL text cannot crash the parser. Whatever the text, lexing and
    parsing it ends with a statement or with a parse error, inside a call
    stack whose height is one constant (2056 frames of the expression methods)
    for all inputs: the nesting limit of 256 keeps a crafted query from
    overflowing the goroutine stack, no token is read past the end, and every
    loop consumes the input. *)
Theorem parseSQL_total mapLower sql :
  match parseSQL stack mapLower sql with Ok _ => True | Err e => e = ErrParse | Panic => False end.
Proof. apply parse_safe. Qed.
End statements.

Lemma parseSQL_total_witness : match parseSQL 2056 id (lit "SELECT ((((") with Ok _ => True | Err e => e = ErrParse | Panic => False end.
Proof. apply (parseSQL_total 2056); vm_compute; lia. Defined.
