(* ===== verification/ParserRound.v ===== *)
(** * ParserRound: the parser reads back the expressions the grammar prints. *)
From S2P Require Import Prelude Bytes Value Schema Ast Lexer Parser ParserOk.

(** ** The grammar, as a printer

    Levels: 0 OR, 1 AND, 2 NOT, 3 comparison, 4 sum, 5 product, 6 atom. *)
Definition op_level (op : tokenKind) : nat :=
  match op with tkOr => 0 | tkAnd => 1 | tkPlus | tkMinus => 4 | tkStar => 5 | _ => 3 end%nat.
Definition node (e : expr) : nat :=
  match e with binOp op _ _ => op_level op | notExpr _ => 2%nat | isNullExpr _ _ => 3%nat | _ => 6%nat end.
(** The levels of the operands: left-associative chains, comparisons once. *)
Definition left_level (op : tokenKind) : nat := match op_level op with 3 => 4 | l => l end%nat.
Definition right_level (op : tokenKind) : nat := S (op_level op).

Abbreviation lexeme := (tokenKind * bytes)%type.
Definition op_lexeme (op : tokenKind) : lexeme :=
  (op, match op with tkOr => lit "or" | tkAnd => lit "and" | _ => [] end).
Definition lit_lexeme (v : Value) : lexeme :=
  match Kind v with
  | KindInt => (tkInt, FormatInt (v_Int v))
  | KindBool => if v_Bool v then (tkTrue, lit "true") else (tkFalse, lit "false")
  | KindNull => (tkNull, lit "null")
  | _ => (tkString, v_Str v)
  end.
Definition paren (l : list lexeme) : list lexeme := (tkLParen, []) :: l ++ [(tkRParen, [])].
Fixpoint print (L : nat) (e : expr) : list lexeme :=
  let body :=
    match e with
    | colRef q n _ => match q with [] => [(tkIdent, n)] | _ => [(tkIdent, q); (tkDot, []); (tkIdent, n)] end
    | litValue v => [lit_lexeme v]
    | paramRef _ => [(tkParam, [])]
    | binOp op l r => print (left_level op) l ++ op_lexeme op :: print (right_level op) r
    | notExpr e => (tkNot, lit "not") :: print 2 e
    | isNullExpr e nt => print 4 e ++ (tkIs, lit "is") :: (if nt then [(tkNot, lit "not")] else []) ++ [(tkNull, lit "null")]
    end in
  if (node e <? L)%nat then paren body else body.
(** Parentheses and NOTs around one another. *)
Fixpoint nesting (L : nat) (e : expr) : Z :=
  let body :=
    match e with
    | binOp op l r => Z.max (nesting (left_level op) l) (nesting (right_level op) r)
    | notExpr e => 1 + nesting 2 e
    | isNullExpr e _ => nesting 4 e
    | _ => 0
    end in
  if (node e <? L)%nat then 1 + body else body.

Definition expr_op (op : tokenKind) : bool :=
  match op with
  | tkPlus | tkMinus | tkStar | tkEq | tkNeq | tkLt | tkLte | tkGt | tkGte | tkAnd | tkOr => true
  | _ => false
  end.
(** What the parser can build: literals of the language, unbound columns and
    parameters. A negative integer has no literal. *)
Fixpoint printable (e : expr) : Prop :=
  match e with
  | colRef q n ord => ord = -1
  | litValue v => v = Null \/ (exists b, v = Bool b) \/ (exists n, v = Int n /\ 0 <= n < 2 ^ 63) \/ (exists s, v = Str s /\ zlen s < 2 ^ 63)
  | paramRef i => i = -1
  | binOp op l r => expr_op op = true /\ printable l /\ printable r
  | notExpr e | isNullExpr e _ => printable e
  end.

(** The level at which a token continues an expression. *)
Definition cont (k : tokenKind) : option nat :=
  match k with
  | tkOr => Some 0 | tkAnd => Some 1
  | tkEq | tkNeq | tkLt | tkLte | tkGt | tkGte | tkIs => Some 3
  | tkPlus | tkMinus => Some 4 | tkStar => Some 5 | tkDot => Some 6
  | _ => None
  end%nat.
Definition follow (L : nat) (rest : list lexeme) : Prop :=
  match rest with (k, _) :: _ => forall l, cont k = Some l -> (l < L)%nat | [] => False end.
Lemma follow_mono L L' rest : (L <= L')%nat -> follow L rest -> follow L' rest.
Proof. destruct rest as [|[k t] r]; [done|]. cbn. intros HL H l Hl. specialize (H l Hl). lia. Qed.

(** ** Running on a known sequence of lexemes *)
Definition ahead (p : parser) (ks : list lexeme) : Prop := map token_text (drop (p_pos p) (p_toks p)) = ks.
Definition moved (p : parser) (n : nat) : parser := MkParser (p_toks p) (p_pos p + n) (p_depth p).
Lemma moved_0 p : moved p 0 = p.
Proof. destruct p. unfold moved. cbn. by rewrite Nat.add_0_r. Qed.
Lemma moved_moved p n m : moved (moved p n) m = moved p (n + m).
Proof. unfold moved. cbn. by rewrite Nat.add_assoc. Qed.
Lemma ahead_moved p ks rest : ahead p (ks ++ rest) -> ahead (moved p (length ks)) rest.
Proof.
  unfold ahead, moved. cbn [p_toks p_pos]. intros H. rewrite <- drop_drop.
  change (map ?f ?l) with (f <$> l). rewrite fmap_drop. change (token_text <$> ?l) with (map token_text l). rewrite H. apply drop_app_length.
Qed.
Lemma ahead_peek p k t rest : ahead p ((k, t) :: rest) -> exists x, peek p = Ok (x, p) /\ tok_kind x = k /\ tok_text x = t.
Proof.
  unfold ahead, peek. intros H. destruct (drop (p_pos p) (p_toks p)) as [|x l] eqn:E; [done|]. injection H as <- <- _.
  exists x. split; [|done]. assert (Ex : p_toks p !! p_pos p = Some x) by (rewrite <- (Nat.add_0_r (p_pos p)), <- lookup_drop, E; done).
  by rewrite Ex.
Qed.
Lemma ahead_advance p k t rest : ahead p ((k, t) :: rest) -> rest <> [] ->
  exists x, advance p = Ok (x, moved p 1) /\ tok_kind x = k /\ tok_text x = t.
Proof.
  intros H Hr. destruct (ahead_peek _ _ _ _ H) as (x & Ex & Hx). exists x. split; [|done]. unfold peek in Ex. unfold advance.
  destruct (p_toks p !! p_pos p) as [y|]; [|done]. injection Ex as ->.
  unfold ahead in H. apply (f_equal length) in H. rewrite length_map, length_drop in H. cbn in H. destruct rest; [done|]. cbn in H.
  rewrite (proj2 (Nat.ltb_lt _ _)) by lia. unfold moved. by rewrite Nat.add_1_r.
Qed.

(** [m] reads [ks] and returns [a], whatever acceptable [rest] follows. *)
Definition yields {A} (m : P A) (d : Z) (ks : list lexeme) (ok : list lexeme -> Prop) (a : A) : Prop :=
  forall p rest, p_depth p = d -> ahead p (ks ++ rest) -> ok rest -> m p = Ok (a, moved p (length ks)).
Lemma ahead_tl p k rest : ahead p (k :: rest) -> ahead (moved p 1) rest.
Proof. apply (ahead_moved p [k] rest). Qed.
Lemma ahead_left p ks : ahead p ks -> (length (p_toks p) - p_pos p = length ks)%nat.
Proof. unfold ahead. intros H. apply (f_equal length) in H. by rewrite length_map, length_drop in H. Qed.
Lemma follow_ne L rest : follow L rest -> rest <> [].
Proof. by destruct rest. Qed.

(** ** Left-associative chains *)
Section chain.
Context (ops : tokenKind -> bool) (operand : P expr) (d : Z).
Definition reach (p : parser) (n : nat) (e : expr) : Prop :=
  exists f, (length (p_toks p) - (p_pos p + n) < f)%nat /\
    bin_chain ops operand p = loop f (bin_round ops operand) e (moved p n).
Lemma reach_base p n e : operand p = Ok (e, moved p n) -> reach p n e.
Proof.
  intros E. exists (S (length (p_toks p))). split; [lia|]. unfold bin_chain. rewrite bind_run, E. done.
Qed.
Lemma reach_step p n e op t ks rest ok r : p_depth p = d -> reach p n e -> ahead (moved p n) ((op, t) :: ks ++ rest) ->
  ops op = true -> yields operand d ks ok r -> ok rest -> rest <> [] -> reach p (n + S (length ks)) (binOp op e r).
Proof.
  intros Hd (f & Hf & E) Ha Hop Hy Hok Hne. pose proof (ahead_left _ _ Ha) as Hl. cbn [p_toks p_pos moved length] in Hl.
  rewrite length_app in Hl. destruct f as [|f]; [lia|]. exists f. split; [lia|]. rewrite E. cbn [loop]. rewrite bind_run. unfold bin_round at 1.
  rewrite bind_run. destruct (ahead_peek _ _ _ _ Ha) as (x & -> & Ex & _). rewrite Ex, Hop, bind_run.
  destruct (ahead_advance _ _ _ _ Ha) as (y & -> & Ey & _); [by destruct ks|]. rewrite bind_run.
  rewrite (Hy (moved (moved p n) 1) rest); [|done|by eapply ahead_tl|done]. rewrite ret_run, Ey. cbn [snd fst].
  by rewrite !moved_moved.
Qed.
Lemma reach_stop p n e k t rest : reach p n e -> ahead (moved p n) ((k, t) :: rest) -> ops k = false ->
  bin_chain ops operand p = Ok (e, moved p n).
Proof.
  intros (f & Hf & ->) Ha Hk. destruct f as [|f]; [lia|]. cbn [loop]. rewrite bind_run. unfold bin_round at 1. rewrite bind_run.
  destruct (ahead_peek _ _ _ _ Ha) as (x & -> & Ex & _). by rewrite Ex, Hk.
Qed.
End chain.

(** ** The claim, level by level *)
Definition parse_at (L : nat) (stack : nat) : P expr :=
  match L with
  | 0 => parseOr stack | 1 => parseAnd stack | 2 => parseNot stack | 3 => parseCmp stack
  | 4 => parseAddSub stack | 5 => parseMulDiv stack | _ => parseAtom stack
  end%nat.
Definition ops_of (L : nat) : tokenKind -> bool :=
  match L with 0 => is_or | 1 => is_and | 4 => is_add | _ => is_mul end%nat.
Definition chain_level (L : nat) : bool := match L with 0 | 1 | 4 | 5 => true | _ => false end%nat.
Definition claim (e : expr) (L : nat) : Prop :=
  forall d stack, 0 <= d -> d + nesting L e <= maxExprDepth -> (7 - L + frames d <= stack)%nat ->
  yields (parse_at L stack) d (print L e) (follow L) e.

Lemma print_level L e : print L e = if (node e <? L)%nat then paren (print 0 e) else print 0 e.
Proof. by destruct e. Qed.
Lemma nesting_level L e : nesting L e = if (node e <? L)%nat then 1 + nesting 0 e else nesting 0 e.
Proof. by destruct e. Qed.
Lemma nesting_pos L e : 0 <= nesting L e.
Proof.
  revert L. induction e as [q n ord|v|i|op l IHl r IHr|e IH|e IH nt]; intros L; rewrite nesting_level.
  all: match goal with |- context [nesting 0 ?e] => assert (H : 0 <= nesting 0 e) end; [|by destruct (Nat.ltb _ L); lia].
  all: cbn [nesting Nat.ltb Nat.leb]; try lia.
  - specialize (IHl (left_level op)). lia.
  - specialize (IH 2%nat). lia.
  - apply (IH 4%nat).
Qed.
Lemma level_skip L e : node e <> L -> print L e = print (S L) e /\ nesting L e = nesting (S L) e.
Proof.
  intros Hne. rewrite (print_level L), (print_level (S L)), (nesting_level L), (nesting_level (S L)).
  destruct (Nat.ltb_spec (node e) L), (Nat.ltb_spec (node e) (S L)); try lia; done.
Qed.
Lemma print_head L e : exists k t l, print L e = (k, t) :: l /\ ((3 <= L)%nat -> k <> tkNot).
Proof.
  assert (Hup : forall e L, (exists k t l, print 0 e = (k, t) :: l /\ ((3 <= node e)%nat -> k <> tkNot)) ->
    exists k t l, print L e = (k, t) :: l /\ ((3 <= L)%nat -> k <> tkNot)).
  { clear. intros e L (k & t & l & E & H). rewrite print_level. destruct (Nat.ltb_spec (node e) L); [by eexists _, _, _|].
    eexists _, _, _. split; [exact E|]. intros. apply H. lia. }
  apply Hup. clear L. induction e as [q n ord|v|i|op l IHl r IHr|e IH|e IH nt]; cbn [print Nat.ltb Nat.leb node].
  - by destruct q; eexists _, _, _.
  - unfold lit_lexeme. destruct (Kind v); [..|destruct (v_Bool v)|]; by eexists _, _, _.
  - by eexists _, _, _.
  - destruct (Hup l (left_level op) IHl) as (k & t & l' & -> & Hk). eexists _, _, _. split; [done|]. intros HL. apply Hk.
    unfold left_level. destruct (op_level op) as [|[|[|[|[|]]]]]; lia.
  - eexists _, _, _. split; [done|]. lia.
  - destruct (Hup e 4%nat IH) as (k & t & l' & -> & Hk). eexists _, _, _. split; [done|]. intros _. apply Hk. lia.
Qed.

Lemma ops_cont L k : chain_level L = true -> ops_of L k = true <-> cont k = Some L.
Proof. destruct L as [|[|[|[|[|[|L]]]]]]; try done; intros _; destruct k; vm_compute; split; congruence. Qed.
Lemma parse_at_chain L stack : chain_level L = true -> parse_at L (S stack) = fun p => bin_chain (ops_of L) (parse_at (S L) stack) p.
Proof. by destruct L as [|[|[|[|[|[|L]]]]]]. Qed.

(** A level that does not occur at the top is passed through. *)
Lemma claim_skip L e : (L < 6)%nat -> node e <> L -> claim e (S L) -> claim e L.
Proof.
  intros HL Hne H d stack Hd Hn Hs p rest Hpd Ha Hf. destruct (level_skip L e Hne) as [Ep En]. rewrite Ep, En in *.
  destruct stack as [|stack]; [lia|].
  assert (E : parse_at (S L) stack p = Ok (e, moved p (length (print (S L) e)))).
  { apply (H d stack Hd Hn ltac:(lia) p rest); try done. eapply follow_mono; [|exact Hf]. lia. }
  pose proof (ahead_moved _ _ _ Ha) as Hr. destruct rest as [|[k t] rest]; [done|].
  assert (Hk : cont k <> Some L) by (intros C; specialize (Hf L C); lia).
  destruct (chain_level L) eqn:HcL.
  - rewrite (parse_at_chain L stack HcL). eapply reach_stop; [by apply reach_base|exact Hr|].
    destruct (ops_of L k) eqn:Eo; [|done]. by apply (ops_cont L k HcL) in Eo.
  - assert (L = 2 \/ L = 3)%nat as [->| ->] by (destruct L as [|[|[|[|[|[|L]]]]]]; try done; lia || auto); cbn [parse_at] in *.
    + cbn [parseNot]. destruct (print_head 3 e) as (k' & t' & l & El & Hk'). rewrite El in Ha.
      unfold peek_is. rewrite !bind_run. destruct (ahead_peek _ _ _ _ Ha) as (x & -> & Ex & _). rewrite ret_run, Ex.
      rewrite bool_decide_false by (apply Hk'; lia). exact E.
    + cbn [parseCmp]. rewrite bind_run, E, bind_run. destruct (ahead_peek _ _ _ _ Hr) as (x & -> & Ex & _). rewrite Ex.
      destruct k; try done; by destruct Hk.
Qed.

Fixpoint size (e : expr) : nat :=
  match e with
  | binOp _ l r => S (size l + size r)
  | notExpr e | isNullExpr e _ => S (size e)
  | _ => 1%nat
  end.
Lemma nest_run {A B} (m : P A) (k : A -> P B) ks ok a p rest : p_depth p + 1 <= maxExprDepth ->
  yields m (p_depth p + 1) ks ok a -> ahead p (ks ++ rest) -> ok rest ->
  (_ ← enter; a ← m; _ ← leave; k a) p = k a (moved p (length ks)).
Proof.
  intros Hd Hm Ha Hok. rewrite bind_run. unfold enter. cbn [p_depth]. rewrite Z.gtb_ltb.
  destruct (Z.ltb_spec maxExprDepth (p_depth p + 1)); [lia|]. rewrite bind_run.
  rewrite (Hm (MkParser (p_toks p) (p_pos p) (p_depth p + 1)) rest) by done. rewrite bind_run. unfold leave, moved. cbn [p_toks p_pos p_depth].
  by replace (p_depth p + 1 - 1) with (p_depth p) by lia.
Qed.

Lemma op_node op : expr_op op = true -> cont op = Some (op_level op) \/ False.
Proof. by destruct op; try done; left. Qed.
Lemma print_bin L op l r : (op_level op <? L)%nat = false ->
  print L (binOp op l r) = print (left_level op) l ++ op_lexeme op :: print (right_level op) r /\
  nesting L (binOp op l r) = Z.max (nesting (left_level op) l) (nesting (right_level op) r).
Proof. intros H. cbn [print nesting node]. by rewrite H. Qed.

Lemma spine L d stack : chain_level L = true -> 0 <= d -> (7 - L + frames d <= S stack)%nat -> forall x,
  (node x <> L -> claim x (S L)) -> (forall y, (size y < size x)%nat -> printable y -> claim y (S L)) -> printable x -> d + nesting L x <= maxExprDepth ->
  forall p rest, p_depth p = d -> ahead p (print L x ++ rest) -> follow (S L) rest ->
  reach (ops_of L) (parse_at (S L) stack) p (length (print L x)) x.
Proof.
  intros HL Hd Hs x. assert (L < 6)%nat as HL6 by (destruct L as [|[|[|[|[|[|L]]]]]]; done || lia).
  induction x as [q n ord|v|i|op l IHl r _|e _|e _ nt]; intros Hx Hy Hp Hn p rest Hpd Ha Hf.
  4: destruct (decide (op_level op = L)) as [El|Hne].
  4: { destruct Hp as (Hop & Hpl & Hpr). destruct (op_node op Hop) as [Hc|[]]. rewrite El in Hc.
    assert (Hw : (op_level op <? L)%nat = false) by (apply Nat.ltb_ge; lia).
    destruct (print_bin L op l r Hw) as [E1 E2]. rewrite E1, E2 in *.
    assert (Ell : left_level op = L) by (unfold left_level; rewrite El; destruct L as [|[|[|[|[|[|L]]]]]]; done).
    assert (Err : right_level op = S L) by (unfold right_level; by rewrite El). rewrite Ell, Err in *.
    unfold op_lexeme in *. rewrite <- app_assoc in Ha. cbn [app] in Ha. rewrite length_app. cbn [length].
    eapply reach_step; [exact Hpd| |by eapply ahead_moved|by apply ops_cont| |exact Hf|by eapply follow_ne].
    - apply (IHl ltac:(intros _; apply Hy; [cbn [size]; lia|done]) ltac:(intros y Hsz; apply Hy; cbn [size]; lia) Hpl ltac:(lia) p _ Hpd Ha). cbn. intros l' Hl'. rewrite Hc in Hl'. injection Hl' as <-. lia.
    - apply (Hy r ltac:(cbn [size]; lia) Hpr d stack); lia. }
  all: match goal with |- reach _ _ _ _ ?e => assert (Hnode : node e <> L) by (cbn [node]; first [done|lia|destruct L as [|[|[|[|]]]]; done]) end;
    destruct (level_skip L _ Hnode) as [E1 E2]; rewrite E1, E2 in *;
    apply reach_base; apply (Hx Hnode d stack Hd Hn ltac:(lia) p rest Hpd Ha Hf).
Qed.

Lemma claim_atom e : node e = 6%nat -> printable e -> claim e 6.
Proof.
  intros Hnode Hp d stack Hd Hn Hs p rest Hpd Ha Hf. destruct stack as [|stack]; [lia|]. pose proof (follow_ne _ _ Hf) as Hne.
  cbn [parse_at parseAtom].
  destruct e as [q n ord|v|i|op l r|e|e nt]; try done.
  - cbn [printable] in Hp. subst ord. cbn [print node Nat.ltb Nat.leb] in *.
    rewrite bind_run. destruct q as [|c q]; cbn [app] in Ha; destruct (ahead_peek _ _ _ _ Ha) as (x & -> & Ex & Et); rewrite Ex, bind_run, Et.
    + destruct (ahead_advance _ _ _ _ Ha Hne) as (y & -> & _). apply ahead_tl in Ha. destruct rest as [|[k t] rest]; [done|].
      unfold peek_is. rewrite !bind_run. destruct (ahead_peek _ _ _ _ Ha) as (z & -> & Ez & _). rewrite ret_run, Ez.
      rewrite bool_decide_false by (intros ->; specialize (Hf 6%nat eq_refl); lia). done.
    + destruct (ahead_advance _ _ _ _ Ha) as (y & -> & _); [done|]. apply ahead_tl in Ha.
      unfold peek_is. rewrite !bind_run. destruct (ahead_peek _ _ _ _ Ha) as (z & -> & Ez & _). rewrite ret_run, Ez, bool_decide_true by done.
      rewrite bind_run. destruct (ahead_advance _ _ _ _ Ha) as (y' & -> & _); [done|]. apply ahead_tl in Ha.
      unfold expect. rewrite !bind_run. destruct (ahead_peek _ _ _ _ Ha) as (w & -> & Ew & _). rewrite Ew, bool_decide_false by (intros C; by apply C).
      destruct (ahead_advance _ _ _ _ Ha) as (w' & -> & _ & Ew'); [done|]. rewrite ret_run, Ew', !moved_moved. done.
  - cbn [printable] in Hp. cbn [print node Nat.ltb Nat.leb] in *. cbn [app] in Ha. rewrite bind_run.
    destruct Hp as [->|[[b ->]|[(n & -> & Hn1)|(s & -> & Hs1)]]].
    + destruct (ahead_peek _ _ _ _ Ha) as (x & -> & Ex & Et). rewrite Ex, bind_run. by destruct (ahead_advance _ _ _ _ Ha Hne) as (y & -> & _).
    + destruct b; destruct (ahead_peek _ _ _ _ Ha) as (x & -> & Ex & Et); rewrite Ex, bind_run; by destruct (ahead_advance _ _ _ _ Ha Hne) as (y & -> & _).
    + assert (Ei : in_s64 n) by (unfold in_s64; lia). unfold lit_lexeme in Ha. cbn [Kind Int] in Ha. fold (Int n) in Ha. rewrite (v_Int_Int n Ei) in Ha.
      destruct (ahead_peek _ _ _ _ Ha) as (x & -> & Ex & Et). rewrite Ex, bind_run.
      destruct (ahead_advance _ _ _ _ Ha Hne) as (y & -> & _). rewrite Et. unfold parse_int. rewrite (ParseInt_FormatInt n Ei). done.
    + unfold lit_lexeme in Ha. rewrite Kind_Str, (v_Str_Str s Hs1) in Ha.
      destruct (ahead_peek _ _ _ _ Ha) as (x & -> & Ex & Et). rewrite Ex, bind_run, Et. destruct (ahead_advance _ _ _ _ Ha Hne) as (y & -> & _). done.
  - cbn [printable] in Hp. subst i. cbn [print node Nat.ltb Nat.leb app] in *. rewrite bind_run.
    destruct (ahead_peek _ _ _ _ Ha) as (x & -> & Ex & Et). rewrite Ex, bind_run. by destruct (ahead_advance _ _ _ _ Ha Hne) as (y & -> & _).
  - cbn [node] in Hnode. destruct op; done.
Qed.

(** Everything smaller reads back. *)
Definition below (e : expr) : Prop := forall y, (size y < size e)%nat -> printable y -> forall L, (L <= 6)%nat -> claim y L.
Lemma claim_cmp op l r : op_level op = 3%nat -> below (binOp op l r) -> printable (binOp op l r) -> claim (binOp op l r) 3.
Proof.
  intros El IH (Hop & Hpl & Hpr). intros d stack Hd Hn Hs p rest Hpd Ha Hf. destruct stack as [|stack]; [lia|].
  destruct (print_bin 3 op l r) as [E1 E2]; [by rewrite El|]. rewrite E1, E2 in *.
  assert (Ell : left_level op = 4%nat) by (unfold left_level; by rewrite El).
  assert (Err : right_level op = 4%nat) by (unfold right_level; by rewrite El). rewrite Ell, Err in *.
  pose proof (IH l ltac:(cbn [size]; lia) Hpl 4%nat ltac:(lia) d stack Hd ltac:(lia) ltac:(lia)) as Cl.
  pose proof (IH r ltac:(cbn [size]; lia) Hpr 4%nat ltac:(lia) d stack Hd ltac:(lia) ltac:(lia)) as Cr. cbn [parse_at] in Cl, Cr.
  unfold op_lexeme in *. rewrite <- app_assoc in Ha. cbn [app] in Ha. cbn [parse_at parseCmp]. rewrite bind_run.
  assert (Hc : cont op = Some 3%nat) by (by destruct op).
  rewrite (Cl p _ Hpd Ha) by (cbn; intros l' Hl'; rewrite Hc in Hl'; injection Hl' as <-; lia).
  apply ahead_moved in Ha. rewrite bind_run. destruct (ahead_peek _ _ _ _ Ha) as (x & -> & Ex & _). rewrite Ex.
  pose proof (follow_ne _ _ Hf) as Hne.
  assert (Hgo : forall p', p' = moved p (length (print 4 l)) ->
    (op ← advance; rhs ← parseAddSub stack; mret (binOp (tok_kind op) l rhs)) p' =
      Ok (binOp op l r, moved p (length (print 4 l ++ (op, match op with tkOr => lit "or" | tkAnd => lit "and" | _ => [] end) :: print 4 r)))).
  { intros p' ->. rewrite bind_run. destruct (ahead_advance _ _ _ _ Ha) as (y & -> & Ey & _); [by destruct (print 4 r)|].
    apply ahead_tl in Ha. rewrite bind_run. rewrite (Cr _ rest) by first [done|eapply follow_mono; [|exact Hf]; lia].
    rewrite ret_run, Ey, !moved_moved, length_app. done. }
  destruct op; try done; by apply Hgo.
Qed.
Lemma claim_not e : below (notExpr e) -> printable e -> claim (notExpr e) 2.
Proof.
  intros IH Hp. intros d stack Hd Hn Hs p rest Hpd Ha Hf. destruct stack as [|stack]; [lia|].
  cbn [print nesting node Nat.ltb Nat.leb] in *. cbn [app] in Ha. cbn [parse_at parseNot].
  unfold peek_is. rewrite !bind_run. destruct (ahead_peek _ _ _ _ Ha) as (x & -> & Ex & _). rewrite ret_run, Ex, bool_decide_true by done.
  pose proof (follow_ne _ _ Hf) as Hne. rewrite bind_run. destruct (ahead_advance _ _ _ _ Ha) as (y & -> & _); [by destruct (print 2 e)|]. apply ahead_tl in Ha.
  pose proof (nesting_pos 2 e). rewrite (nest_run (parseNot stack) _ (print 2 e) (follow 2) e _ rest); [|cbn; lia| |done|done].
  * by rewrite ret_run, moved_moved.
  * cbn [moved p_depth]. rewrite Hpd. apply (IH e ltac:(cbn [size]; lia) Hp 2%nat ltac:(lia) (d + 1) stack); [lia|lia|].
    unfold frames, maxExprDepth in *. lia.
Qed.
Lemma claim_isnull e nt : below (isNullExpr e nt) -> printable e -> claim (isNullExpr e nt) 3.
Proof.
  intros IH Hp. intros d stack Hd Hn Hs p rest Hpd Ha Hf. destruct stack as [|stack]; [lia|].
  cbn [print nesting node Nat.ltb Nat.leb] in *. rewrite <- app_assoc in Ha. cbn [app] in Ha. cbn [parse_at parseCmp]. rewrite bind_run.
  pose proof (IH e ltac:(cbn [size]; lia) Hp 4%nat ltac:(lia) d stack Hd ltac:(lia) ltac:(lia)) as Ce. cbn [parse_at] in Ce.
  rewrite (Ce p _ Hpd Ha) by (cbn; intros l' [= <-]; lia). pose proof (follow_ne _ _ Hf) as Hne.
  apply ahead_moved in Ha. rewrite bind_run. destruct (ahead_peek _ _ _ _ Ha) as (x & -> & Ex & _). rewrite Ex, bind_run.
  destruct (ahead_advance _ _ _ _ Ha) as (y & -> & _); [by destruct nt|]. apply ahead_tl in Ha.
  unfold peek_is. rewrite !bind_run. destruct nt; cbn [app] in Ha; destruct (ahead_peek _ _ _ _ Ha) as (z & -> & Ez & _);
    rewrite ret_run, Ez; [rewrite bool_decide_true by done|rewrite bool_decide_false by done].
  * rewrite !bind_run. destruct (ahead_advance _ _ _ _ Ha) as (y' & -> & _); [done|]. apply ahead_tl in Ha. rewrite ret_run.
    unfold expect. rewrite !bind_run. destruct (ahead_peek _ _ _ _ Ha) as (w & -> & Ew & _). rewrite Ew, bool_decide_false by (intros C; by apply C).
    destruct (ahead_advance _ _ _ _ Ha Hne) as (w' & -> & _). rewrite ret_run, !moved_moved, length_app. done.
  * rewrite !bind_run, ret_run. unfold expect. rewrite !bind_run. destruct (ahead_peek _ _ _ _ Ha) as (w & -> & Ew & _).
    rewrite Ew, bool_decide_false by (intros C; by apply C).
    destruct (ahead_advance _ _ _ _ Ha Hne) as (w' & -> & _). rewrite ret_run, !moved_moved, length_app. done.
Qed.
Lemma claim_node e : below e -> printable e -> claim e (node e).
Proof.
  intros IH Hp. destruct (chain_level (node e)) eqn:HcL.
  - intros d stack Hd Hn Hs p rest Hpd Ha Hf.
    assert (node e < 6)%nat as HL6 by (destruct (node e) as [|[|[|[|[|[|L]]]]]]; done || lia).
    destruct stack as [|stack]; [lia|]. rewrite (parse_at_chain _ _ HcL).
    pose proof (ahead_moved _ _ _ Ha) as Hr. destruct rest as [|[k t] rest]; [done|]. eapply reach_stop; [|exact Hr|].
    + eapply (spine (node e) d stack HcL Hd Hs e); try done; [|eapply follow_mono; [|exact Hf]; lia].
      intros y Hy Hpy. apply IH; [done|done|lia].
    + destruct (ops_of (node e) k) eqn:Eo; [|done]. apply (ops_cont _ k HcL) in Eo. specialize (Hf _ Eo). lia.
  - destruct e as [q n ord|v|i|op l r|e|e nt]; [by apply claim_atom..| |by apply claim_not|by apply claim_isnull].
    cbn [node] in *. assert (El : op_level op = 3%nat) by (destruct op; done). rewrite El. by apply claim_cmp.
Qed.

Lemma claim_all e : printable e -> forall L, (L <= 6)%nat -> claim e L.
Proof.
  remember (size e) as n eqn:En. revert e En. induction n as [n IH] using lt_wf_ind. intros e -> Hp.
  assert (Hb : below e) by (intros y Hy Hpy L HL; by apply (IH (size y) Hy)).
  assert (H6 : (node e <= 6)%nat) by (destruct e as [| | |op| |]; cbn [node]; try lia; destruct op; cbn; lia).
  assert (Hlow : forall k, (k <= node e)%nat -> claim e (node e - k)).
  { induction k as [|k IHk]; intros Hk; [rewrite Nat.sub_0_r; by apply claim_node|].
    apply claim_skip; [lia|lia|]. replace (S (node e - S k)) with (node e - k)%nat by lia. apply IHk. lia. }
  assert (H0 : claim e 0) by (specialize (Hlow (node e) ltac:(lia)); by rewrite Nat.sub_diag in Hlow).
  assert (Htop : claim e 6).
  { destruct (decide (node e = 6%nat)) as [E|E]; [rewrite <- E; by apply claim_node|].
    intros d stack Hd Hn Hs p rest Hpd Ha Hf. rewrite (print_level 6), (nesting_level 6) in *.
    destruct (Nat.ltb_spec (node e) 6) as [Hlt|?]; [|lia]. unfold paren in *. destruct stack as [|stack]; [lia|].
    cbn [app] in Ha. rewrite <- app_assoc in Ha. cbn [parse_at parseAtom]. rewrite bind_run.
    destruct (ahead_peek _ _ _ _ Ha) as (x & -> & Ex & _). rewrite Ex, bind_run.
    destruct (ahead_advance _ _ _ _ Ha) as (y & -> & _); [by destruct (print 0 e)|]. apply ahead_tl in Ha.
    pose proof (nesting_pos 0 e). pose proof (follow_ne _ _ Hf) as Hne.
    rewrite (nest_run (parseExpr stack) _ (print 0 e) (follow 0) e _ ((tkRParen, []) :: rest)); [|cbn; lia| |done|by intros l].
    - apply ahead_moved in Ha. unfold expect. rewrite !bind_run.
      destruct (ahead_peek _ _ _ _ Ha) as (w & -> & Ew & _). rewrite Ew, bool_decide_false by (intros C; by apply C).
      destruct (ahead_advance _ _ _ _ Ha Hne) as (w' & -> & _). rewrite ret_run, !moved_moved. cbn [length]. rewrite length_app. done.
    - cbn [moved p_depth]. rewrite Hpd. assert (Hs' : (8 + frames (d + 1) <= stack)%nat) by (unfold frames, maxExprDepth in *; lia).
      destruct stack as [|stack]; [lia|]. intros p' rest' Hp' Ha' Hf'. cbn [parseExpr].
      apply (H0 (d + 1) stack ltac:(lia) ltac:(lia) ltac:(lia) p' rest' Hp' Ha' Hf'). }
  intros L HL. destruct (le_lt_dec L (node e)) as [Hle|Hgt].
  { replace L with (node e - (node e - L))%nat by lia. apply Hlow. lia. }
  assert (Hhigh : forall k, (k <= 6)%nat -> (node e < 6 - k)%nat -> claim e (6 - k)).
  { induction k as [|k IHk]; intros Hk1 Hk2; [done|]. apply claim_skip; [lia|lia|].
    replace (S (6 - S k)) with (6 - k)%nat by lia. apply IHk; lia. }
  replace L with (6 - (6 - L))%nat by lia. apply Hhigh; lia.
Qed.

(** ** A statement *)
Definition delete_lexemes (t : bytes) (e : expr) : list lexeme :=
  [(tkDelete, lit "delete"); (tkFrom, lit "from"); (tkIdent, t); (tkWhere, lit "where")] ++ print 0 e.
Lemma parseExpr_reads stack e : (8 + frames 0 <= stack)%nat -> printable e -> nesting 0 e <= maxExprDepth ->
  yields (parseExpr stack) 0 (print 0 e) (follow 0) e.
Proof.
  intros Hs Hp Hn. destruct stack as [|stack]; [lia|]. intros p rest Hpd Ha Hf.
  apply (claim_all e Hp 0%nat ltac:(lia) 0 stack ltac:(lia) ltac:(lia) ltac:(lia) p rest Hpd Ha Hf).
Qed.

(** C24: what the grammar prints, the parser reads. Take any WHERE expression
    the language can write, nested at most 256 deep, printed with the fewest
    parentheses its precedences and left associativity need, and spell it as
    text in any case, spacing and commenting: lexing and parsing the DELETE
    statement around it returns the expression itself. *)
Theorem where_reads_back stack mapLower lay l t e : (8 + frames 0 <= stack)%nat -> layout lay -> Forall w_ok l ->
  map (fun '(k, x, _, _) => (k, x)) l = delete_lexemes t e -> printable e -> nesting 0 e <= maxExprDepth ->
  parseSQL stack mapLower (lay ++ written_text l) = Ok (SDelete t (Some e)).
Proof.
  intros Hs Hlay Hl El Hp Hn. destruct (tokenize_reads mapLower lay l Hlay Hl) as (toks & Et & Em). unfold parseSQL. rewrite Et.
  cbn [mbind outcome_bind]. rewrite El in Em. unfold delete_lexemes in Em. cbn [app] in Em. set (p := MkParser toks 0 0).
  assert (Ha : ahead p ((tkDelete, lit "delete") :: (tkFrom, lit "from") :: (tkIdent, t) :: (tkWhere, lit "where") :: print 0 e ++ [(tkEOF, [])])).
  { unfold ahead, p. cbn [p_pos p_toks]. rewrite drop_0. exact Em. }
  clear Em El Et. unfold parse_rest. rewrite bind_run. unfold parseStmt. rewrite bind_run.
  destruct (ahead_peek _ _ _ _ Ha) as (x & -> & Ex & _). rewrite Ex. unfold parseDelete. rewrite bind_run.
  destruct (ahead_advance _ _ _ _ Ha) as (y & -> & _); [done|]. apply ahead_tl in Ha.
  unfold expect at 1. rewrite !bind_run. destruct (ahead_peek _ _ _ _ Ha) as (x1 & -> & Ex1 & _). rewrite Ex1, bool_decide_false by (intros C; by apply C).
  destruct (ahead_advance _ _ _ _ Ha) as (y1 & -> & _); [done|]. apply ahead_tl in Ha.
  unfold ident, expect. rewrite !bind_run. destruct (ahead_peek _ _ _ _ Ha) as (x2 & -> & Ex2 & _). rewrite Ex2, bool_decide_false by (intros C; by apply C).
  destruct (ahead_advance _ _ _ _ Ha) as (y2 & -> & _ & Ey2); [done|]. apply ahead_tl in Ha. rewrite ret_run, Ey2.
  unfold opt_where, when, peek_is. rewrite !bind_run. destruct (ahead_peek _ _ _ _ Ha) as (x3 & -> & Ex3 & _). rewrite ret_run, Ex3, bool_decide_true by done.
  rewrite bind_run. destruct (ahead_advance _ _ _ _ Ha) as (y3 & -> & _); [by destruct (print 0 e)|]. apply ahead_tl in Ha.
  rewrite bind_run. rewrite (parseExpr_reads stack e Hs Hp Hn _ [(tkEOF, [])]) by done. apply ahead_moved in Ha.
  rewrite !ret_run, !bind_run. destruct (ahead_peek _ _ _ _ Ha) as (x4 & -> & Ex4 & _). rewrite ret_run, Ex4, bool_decide_false by done.
  rewrite !ret_run, !bind_run. destruct (ahead_peek _ _ _ _ Ha) as (x5 & -> & Ex5 & _). rewrite !ret_run, Ex5, bool_decide_true by done. done.
Qed.

(** ** Witness: [DELETE FROM T WHERE a = 5 OR NOT b IS NULL] *)
Lemma spells_word w : match w with c :: _ => isIdentStart c | [] => false end = true ->
  forallb (fun d => isIdentPart d && (b2z d <? 0x80)) w = true ->
  spells (default tkIdent (keyword (map lower_byte w))) (map lower_byte w) w.
Proof.
  destruct w as [|c w]; [done|]. intros Hc Hw. apply sp_word; [done|]. apply list.Forall_forall. intros d Hd.
  rewrite forallb_forall in Hw. apply list_elem_of_In in Hd. specialize (Hw d Hd). apply andb_prop in Hw as [H1 H2%Z.ltb_lt]. done.
Qed.
Definition word (w : bytes) : written := (default tkIdent (keyword (map lower_byte w)), map lower_byte w, w, lit " ").
Lemma space_ok : layout (lit " ") /\ exists c l, lit " " = c :: l /\ isSpace c = true.
Proof. split; [apply lay_space; [reflexivity|constructor]|by eexists _, _]. Qed.
Lemma word_ok w : match w with c :: _ => isIdentStart c | [] => false end = true ->
  forallb (fun d => isIdentPart d && (b2z d <? 0x80)) w = true -> w_ok (word w).
Proof. intros H1 H2. destruct space_ok. split; [by apply spells_word|done]. Qed.
Definition demo_delete : list written :=
  [word (lit "DELETE"); word (lit "From"); word (lit "T"); word (lit "where"); word (lit "a"); (tkEq, [], lit "=", lit " ");
   (tkInt, lit "5", lit "5", lit " "); word (lit "OR"); word (lit "not"); word (lit "b"); word (lit "Is"); word (lit "NULL")].
Definition demo_expr : expr :=
  binOp tkOr (binOp tkEq (colRef [] (lit "a") (-1)) (litValue (Int 5))) (notExpr (isNullExpr (colRef [] (lit "b") (-1)) false)).
Lemma where_reads_back_witness :
  parseSQL 2056 id (lit "DELETE From T where a = 5 OR not b Is NULL ") = Ok (SDelete (lit "t") (Some demo_expr)).
Proof.
  apply (where_reads_back 2056 id [] demo_delete).
  - vm_compute. lia.
  - constructor.
  - unfold demo_delete. repeat (apply Forall_cons_2; [first [apply word_ok; reflexivity|split; [|exact space_ok]]|]); [..|constructor].
    + apply sp_symbol. by apply (bool_decide_unpack _); vm_compute.
    + apply (sp_int Byte.x35 []). repeat constructor.
  - vm_compute. reflexivity.
  - cbn. split; [done|]. split; [|done]. split; [done|]. split; [done|]. right; right; left. exists 5. split; [done|lia].
  - vm_compute. discriminate.
Defined.

(** The lexer has no sign: the only negative number is a subtraction. *)
Example no_negative_literal : parseSQL 2056 id (lit "DELETE FROM t WHERE a = -5") = Err ErrParse /\
  is_ok (parseSQL 2056 id (lit "DELETE FROM t WHERE a = 0-5")) = true.
Proof. vm_compute. done. Qed.
(** Column constraints and the words of an index clause are told by their text
    alone, so a string literal is taken for one. *)
Example string_as_constraint :
  parseSQL 2056 id (lit "CREATE TABLE t (id uuid 'primary' 'key')") = parseSQL 2056 id (lit "CREATE TABLE t (id uuid PRIMARY KEY)").
Proof. vm_compute. reflexivity. Qed.
