(* ===== verification/TopN.v ===== *)
(** * TopN: ORDER BY with LIMIT and OFFSET — the bounded heap and the window
    arithmetic of exec_select.go.

    A kept row is either its own allocation or a window of the shared backing
    array; the windows are modelled as numbered slots, so that reusing one for
    another row is an update of the store the entries point into. *)
From S2P Require Import Prelude Bytes Order Uuid Value.

(** ** Windows *)
(** int addition: it wraps. *)
Definition fetchBound (limit offset : Z) : Z := if limit <? 0 then -1 else s64 (limit + offset).
Definition sliceOffsetLimit {A} (rows : list A) (offset limit : Z) : list A :=
  if (0 <? offset) && (offset >=? zlen rows) then []
  else
    let rows := if 0 <? offset then drop (Z.to_nat offset) rows else rows in
    if (0 <=? limit) && (limit <? zlen rows) then take (Z.to_nat limit) rows else rows.

(** ** The heap loops *)
Section heap.
Context {A : Type} (worse : A -> A -> bool).

Definition swap (h : list A) (i j : nat) : list A :=
  match h !! i, h !! j with Some x, Some y => <[i := y]> (<[j := x]> h) | _, _ => h end.
Definition worse_at (h : list A) (i j : nat) : bool :=
  match h !! i, h !! j with Some x, Some y => worse x y | _, _ => false end.

(** for i := len-1; i > 0; { p := (i-1)/2; ... } *)
Fixpoint sift_up (fuel : nat) (h : list A) (i : nat) : list A :=
  match fuel with
  | O => h
  | S fuel =>
      if (i =? 0)%nat then h
      else
        let p := ((i - 1) / 2)%nat in
        if worse_at h i p then sift_up fuel (swap h i p) p else h
  end.
Fixpoint sift_down (fuel : nat) (h : list A) (i : nat) : list A :=
  match fuel with
  | O => h
  | S fuel =>
      let n := length h in
      let l := (2 * i + 1)%nat in
      let rr := (2 * i + 2)%nat in
      let worst := if (l <? n)%nat && worse_at h l i then l else i in
      let worst := if (rr <? n)%nat && worse_at h rr worst then rr else worst in
      if (worst =? i)%nat then h else sift_down fuel (swap h i worst) worst
  end.
End heap.

(** ** The top-N *)
Inductive kept : Type :=
  | Own (r : Row)
  | Slot (i : nat).
Record topEntry : Type := MkEntry {
  te_key : Value;
  te_row : kept;
}.

Section topn.
Context (t_ord : nat) (t_desc : bool) (t_capN : Z) (t_proj : option (list nat)).
Record topN : Type := MkTop {
  t_h : list topEntry;
  t_backing : option (list Row);   (* slot by slot *)
}.

Definition evictable (a b : Value) : bool :=
  let '(c, ok) := Compare a b in
  if negb ok then false else if t_desc then c <? 0 else c >? 0.
Definition worse_entry (a b : topEntry) : bool := evictable (te_key a) (te_key b).

Fixpoint proj_cells (r : Row) (ords : list nat) : outcome Row :=
  match ords with
  | [] => Ok []
  | o :: ords => v ← index r o; l ← proj_cells r ords; Ok (cloneValue v :: l)
  end.
Definition take_row (r : Row) : outcome Row :=
  match t_proj with None => Ok (Row_Clone r) | Some ords => proj_cells r ords end.

Definition topPackCap : Z := 1024.
Definition packs : bool := match t_proj with None => false | Some _ => (0 <? t_capN) && (t_capN <=? topPackCap) end.
Definition zeroCell : Value := MkValue KindNull 0 0 None.
Definition fresh_backing : list Row :=
  replicate (Z.to_nat t_capN) (replicate (match t_proj with Some p => length p | None => 0%nat end) zeroCell).

Definition fillSlot (t : topN) (r : Row) (i : nat) : outcome (kept * option (list Row)) :=
  if negb packs then x ← take_row r; Ok (Own x, t_backing t)
  else
    let b := default fresh_backing (t_backing t) in
    x ← take_row r;
    _ ← index b i;
    Ok (Slot i, Some (<[i := x]> b)).
Definition reuseSlot (t : topN) (r : Row) (slot : kept) : outcome (kept * option (list Row)) :=
  if negb packs then x ← take_row r; Ok (Own x, t_backing t)
  else
    x ← take_row r;
    match slot, t_backing t with
    | Slot i, Some b => Ok (Slot i, Some (<[i := x]> b))
    | _, _ => Panic
    end.

Definition offer (t : topN) (r : Row) : outcome topN :=
  v ← index r t_ord;
  let key := cloneValue v in
  let n := length (t_h t) in
  if Z.of_nat n <? t_capN then
    kb ← fillSlot t r n;
    let h := t_h t ++ [MkEntry key (fst kb)] in
    Ok (MkTop (sift_up worse_entry (length h) h n) (snd kb))
  else
    root ← index (t_h t) 0;
    if negb (evictable (te_key root) key) then Ok t
    else
      kb ← reuseSlot t r (te_row root);
      let h := <[0%nat := MkEntry key (fst kb)]> (t_h t) in
      Ok (MkTop (sift_down worse_entry (length h) h 0) (snd kb)).

Definition collect (t : topN) (r : Row) : outcome topN :=
  v ← index r t_ord;
  x ← take_row r;
  Ok (MkTop (t_h t ++ [MkEntry (cloneValue v) (Own x)]) (t_backing t)).

Definition kept_row (t : topN) (k : kept) : Row :=
  match k with
  | Own r => r
  | Slot i => default [] (default [] (t_backing t) !! i)
  end.

(** The comparator of sorted(): incomparable keys count as equal. *)
Definition orderCmp (a b : Value) : Z :=
  let '(c, ok) := Compare a b in
  if negb ok then 0 else if t_desc then - c else c.

(** slices.SortFunc is not stable; which of the orders allowed by ties it
    leaves is its own business. *)
Context (SortFunc : (topEntry -> topEntry -> Z) -> list topEntry -> list topEntry).
Definition sorted_rows (t : topN) : list Row :=
  map (fun e => kept_row t (te_row e)) (SortFunc (fun a b => orderCmp (te_key a) (te_key b)) (t_h t)).

Fixpoint offer_all (t : topN) (rows : list Row) : outcome topN :=
  match rows with [] => Ok t | r :: rows => t ← offer t r; offer_all t rows end.
Fixpoint collect_all (t : topN) (rows : list Row) : outcome topN :=
  match rows with [] => Ok t | r :: rows => t ← collect t r; collect_all t rows end.
Definition topN_empty : topN := MkTop [] None.
End topn.

(** ORDER BY col [LIMIT n] [OFFSET m] over the rows that match, in scan order. *)
Definition order_by (ord : nat) (desc : bool) (proj : option (list nat)) (limit offset : Z)
    (SortFunc : (topEntry -> topEntry -> Z) -> list topEntry -> list topEntry) (rows : list Row) : outcome (list Row) :=
  if limit =? 0 then Ok []
  else if 0 <=? limit then
    t ← offer_all ord desc (fetchBound limit offset) proj topN_empty rows;
    Ok (sliceOffsetLimit (sorted_rows desc SortFunc t) offset limit)
  else
    t ← collect_all ord proj topN_empty rows;
    Ok (sliceOffsetLimit (sorted_rows desc SortFunc t) offset limit).
