(* ===== verification/TopNOk.v ===== *)
(** * TopNOk: the bounded heap keeps the best rows, and ORDER BY with LIMIT and
    OFFSET is the window of a sorted list. *)
From S2P Require Import Prelude Bytes Order Uuid Value TopN.

(** ** The heap *)
Section heap.
Context {A : Type} (worse : A -> A -> bool) (Q : A -> Prop).
Hypothesis worse_asym : forall a b, Q a -> Q b -> worse a b = true -> worse b a = false.
Hypothesis worse_negtrans : forall a b c, Q a -> Q b -> Q c -> worse a b = false -> worse b c = false -> worse a c = false.
Local Abbreviation par j := ((j - 1) / 2)%nat.

Lemma worse_trans a b c : Q a -> Q b -> Q c -> worse a b = true -> worse b c = true -> worse a c = true.
Proof.
  intros Ha Hb Hc H1 H2. destruct (worse a c) eqn:E; [done|]. pose proof (worse_asym _ _ Hb Hc H2) as H3.
  by rewrite (worse_negtrans a c b Ha Hc Hb E H3) in H1.
Qed.

(** [ok h i j]: the entry at [i] is not worse than the one at [j]. *)
Definition ok (h : list A) (i j : nat) : Prop := worse_at worse h i j = false.
Definition is_heap (h : list A) : Prop := forall j, (0 < j < length h)%nat -> ok h j (par j).

Lemma par_lt j : (0 < j)%nat -> (par j < j)%nat.
Proof. intros H. apply Nat.Div0.div_lt_upper_bound; lia. Qed.
Lemma par_child j p : (0 < j)%nat -> par j = p -> j = (2 * p + 1)%nat \/ j = (2 * p + 2)%nat.
Proof. intros H <-. pose proof (Nat.div_mod_eq (j - 1) 2). pose proof (Nat.mod_upper_bound (j - 1) 2). lia. Qed.
Lemma child_par p : par (2 * p + 1) = p /\ par (2 * p + 2) = p.
Proof.
  replace (2 * p + 1 - 1)%nat with (p * 2)%nat by lia. replace (2 * p + 2 - 1)%nat with (1 + p * 2)%nat by lia.
  rewrite Nat.div_mul, Nat.div_add by lia. done.
Qed.

Lemma length_swap (h : list A) i j : length (swap h i j) = length h.
Proof. unfold swap. destruct (h !! i), (h !! j); by rewrite ?length_insert. Qed.
Lemma swap_lookup (h : list A) i j k : (i < length h)%nat -> (j < length h)%nat ->
  swap h i j !! k = if decide (k = i) then h !! j else if decide (k = j) then h !! i else h !! k.
Proof.
  intros [x Hx]%lookup_lt_is_Some_2 [y Hy]%lookup_lt_is_Some_2. unfold swap. rewrite Hx, Hy.
  destruct (decide (k = i)) as [->|Hi].
  - rewrite list_lookup_insert_eq; [done|]. rewrite length_insert. by eapply lookup_lt_Some.
  - rewrite list_lookup_insert_ne by done. destruct (decide (k = j)) as [->|Hj].
    + rewrite list_lookup_insert_eq; [done|by eapply lookup_lt_Some].
    + by rewrite list_lookup_insert_ne.
Qed.
Lemma swap_perm (h : list A) i j : (i < length h)%nat -> (j < length h)%nat -> swap h i j ≡ₚ h.
Proof.
  intros Hi Hj. destruct (decide (i = j)) as [<-|Hne].
  - destruct (lookup_lt_is_Some_2 _ _ Hi) as [x Hx]. unfold swap. rewrite Hx. rewrite list_insert_insert_eq. by rewrite list_insert_id.
  - apply Permutation_inj. split; [by rewrite length_swap|].
    exists (fun k => if decide (k = i) then j else if decide (k = j) then i else k). split.
    + intros a b. repeat destruct (decide _); subst; congruence.
    + intros k. rewrite swap_lookup by done. repeat destruct (decide _); subst; done.
Qed.
Lemma swap_Q (h : list A) i j : Forall Q h -> Forall Q (swap h i j).
Proof.
  intros H. unfold swap. destruct (h !! i) eqn:Ei; [|done]. destruct (h !! j) eqn:Ej; [|done].
  repeat apply Forall_insert; try done; by eapply Forall_lookup_1.
Qed.

Lemma ok_neg h i j k : Forall Q h -> (j < length h)%nat -> ok h i j -> ok h j k -> ok h i k.
Proof.
  intros HQ Hj. unfold ok, worse_at. destruct (h !! i) as [x|] eqn:Ei; [|done].
  destruct (lookup_lt_is_Some_2 _ _ Hj) as [y Ey]. rewrite Ey. destruct (h !! k) as [z|] eqn:Ek; [|done].
  apply worse_negtrans; by eapply Forall_lookup_1.
Qed.
Lemma ok_asym h i j : Forall Q h -> worse_at worse h i j = true -> ok h j i.
Proof.
  intros HQ. unfold ok, worse_at. destruct (h !! i) as [x|] eqn:Ei; [|done]. destruct (h !! j) as [y|] eqn:Ej; [|done].
  apply worse_asym; by eapply Forall_lookup_1.
Qed.
Lemma root_worst h : Forall Q h -> is_heap h -> forall j, (j < length h)%nat -> ok h j 0.
Proof.
  intros HQ Hh j. induction j as [j IH] using lt_wf_ind. intros Hj. destruct (decide (j = 0)%nat) as [->|Hne].
  - unfold ok, worse_at. destruct (h !! 0%nat) as [x|] eqn:E; [|done]. destruct (worse x x) eqn:Ew; [|done].
    assert (Qx : Q x) by (by eapply Forall_lookup_1). by rewrite (worse_asym x x Qx Qx Ew) in Ew.
  - pose proof (par_lt j ltac:(lia)). eapply (ok_neg h j (par j) 0); [done|lia|apply Hh; lia|apply IH; lia].
Qed.

Lemma sift_up_perm fuel : forall h i, (i < length h)%nat -> sift_up worse fuel h i ≡ₚ h.
Proof.
  induction fuel as [|fuel IH]; intros h i Hi; cbn [sift_up]; [done|]. destruct (Nat.eqb_spec i 0) as [|Hne]; [done|].
  pose proof (par_lt i ltac:(lia)). destruct (worse_at worse h i (par i)); [|done].
  rewrite IH by (rewrite length_swap; lia). apply swap_perm; lia.
Qed.
Lemma sift_down_perm fuel : forall h i, (i < length h)%nat -> sift_down worse fuel h i ≡ₚ h.
Proof.
  induction fuel as [|fuel IH]; intros h i Hi; cbn [sift_down]; [done|].
  match goal with |- context [(?e =? i)%nat] => assert (Hw : (e < length h)%nat); [|set (w := e) in *; clearbody w] end.
  { destruct (Nat.ltb_spec (2 * i + 1) (length h)), (Nat.ltb_spec (2 * i + 2) (length h)); cbn [andb];
      repeat match goal with |- context [worse_at ?w ?l ?x ?y] => destruct (worse_at w l x y) end; lia. }
  destruct (w =? i)%nat; [done|]. rewrite IH by (by rewrite length_swap). by apply swap_perm.
Qed.

(** *** Sifting up *)
Record up_inv (h : list A) (i : nat) : Prop := {
  up_rest : forall j, (0 < j < length h)%nat -> j <> i -> ok h j (par j);
  up_skip : forall j, (0 < j < length h)%nat -> par j = i -> (0 < i)%nat -> ok h j (par i);
}.
Lemma worse_at_swap h i j k l : (i < length h)%nat -> (j < length h)%nat ->
  let f k := if decide (k = i) then j else if decide (k = j) then i else k in
  worse_at worse (swap h i j) k l = worse_at worse h (f k) (f l).
Proof. intros Hi Hj f. unfold worse_at, f. rewrite !swap_lookup by done. by repeat destruct (decide _). Qed.
Lemma up_step h i : Forall Q h -> (0 < i < length h)%nat -> worse_at worse h i (par i) = true -> up_inv h i ->
  up_inv (swap h i (par i)) (par i).
Proof.
  intros HQ Hi Hw [Hr Hs]. pose proof (par_lt i ltac:(lia)) as Hp. pose proof (ok_asym _ _ _ HQ Hw) as Ha.
  split; rewrite length_swap; unfold ok.
  - intros j Hj Hne. rewrite worse_at_swap by lia. pose proof (par_lt j ltac:(lia)) as Hpj.
    destruct (decide (j = i)) as [->|Hji].
    + rewrite (decide_False (P := par i = i)), decide_True by lia. exact Ha.
    + rewrite (decide_False (P := j = par i)) by done. destruct (decide (par j = i)) as [Ej|Ej].
      * by apply Hs; [|done|lia].
      * destruct (decide (par j = par i)) as [Ep|Ep]; [|by apply Hr].
        eapply (ok_neg h j (par i) i); [done|lia|rewrite <- Ep; by apply Hr|exact Ha].
  - intros j Hj Hpj Hpi. rewrite worse_at_swap by lia. pose proof (par_lt (par i) Hpi) as Hpp.
    rewrite (decide_False (P := par (par i) = i)), (decide_False (P := par (par i) = par i)) by lia.
    assert (Hip : ok h (par i) (par (par i))) by (apply Hr; lia).
    destruct (decide (j = i)) as [->|Hji]; [exact Hip|].
    assert (j <> par i) by (pose proof (par_lt j ltac:(lia)); lia). rewrite decide_False by done.
    eapply (ok_neg h j (par i)); [done|lia|rewrite <- Hpj; by apply Hr|exact Hip].
Qed.
Lemma sift_up_ok fuel : forall h i, Forall Q h -> (i <= fuel)%nat -> (i < length h)%nat -> up_inv h i ->
  is_heap (sift_up worse fuel h i) /\ sift_up worse fuel h i ≡ₚ h.
Proof.
  assert (Hz : forall h, up_inv h 0 -> is_heap h) by (intros h H j Hj; apply (up_rest _ _ H); lia).
  induction fuel as [|fuel IH]; intros h i HQ Hf Hi Hu; cbn [sift_up].
  { assert (i = 0%nat) as -> by lia. split; [by apply Hz|done]. }
  destruct (Nat.eqb_spec i 0) as [->|Hne]; [split; [by apply Hz|done]|].
  pose proof (par_lt i ltac:(lia)) as Hp. destruct (worse_at worse h i (par i)) eqn:Hw.
  - destruct (IH (swap h i (par i)) (par i)) as [H1 H2]; [by apply swap_Q|lia|rewrite length_swap; lia|apply up_step; [done|lia|done|done]|].
    split; [done|]. rewrite H2. apply swap_perm; lia.
  - split; [|done]. intros j Hj. destruct (decide (j = i)) as [->|]; [done|by apply (up_rest _ _ Hu)].
Qed.

(** *** Sifting down *)
Record down_inv (h : list A) (i : nat) : Prop := {
  down_rest : forall j, (0 < j < length h)%nat -> par j <> i -> ok h j (par j);
  down_skip : forall j, (0 < j < length h)%nat -> par j = i -> (0 < i)%nat -> ok h j (par i);
}.
Lemma down_step h i w : Forall Q h -> (0 < w < length h)%nat -> par w = i -> worse_at worse h w i = true ->
  (forall c, (0 < c < length h)%nat -> par c = i -> ok h c w) -> down_inv h i -> down_inv (swap h i w) w.
Proof.
  intros HQ Hw Hpw Hww Hc [Hr Hs]. pose proof (par_lt w ltac:(lia)) as Hp. rewrite Hpw in Hp.
  pose proof (ok_asym _ _ _ HQ Hww) as Ha. split; rewrite length_swap; unfold ok.
  - intros j Hj Hne. rewrite worse_at_swap by lia. pose proof (par_lt j ltac:(lia)) as Hpj.
    rewrite (decide_False (P := par j = w)) by done. destruct (decide (j = w)) as [->|Hjw].
    + rewrite Hpw, (decide_False (P := w = i)), decide_True by lia. exact Ha.
    + destruct (decide (j = i)) as [->|Hji].
      * rewrite decide_False by lia. by apply Hs; [lia|done|lia].
      * destruct (decide (par j = i)) as [E|E]; [by apply Hc|by apply Hr].
  - intros j Hj Hpj _. rewrite worse_at_swap by lia. pose proof (par_lt j ltac:(lia)) as Hlt.
    rewrite Hpw, (decide_True (P := i = i)), (decide_False (P := j = i)), (decide_False (P := j = w)) by lia.
    change (ok h j w). rewrite <- Hpj. apply Hr; [lia|lia].
Qed.

(** The child the loop swaps with. *)
Lemma pick_worst h i : Forall Q h -> (i < length h)%nat ->
  let w := (if (2 * i + 1 <? length h)%nat && worse_at worse h (2 * i + 1) i then 2 * i + 1 else i)%nat in
  let w := (if (2 * i + 2 <? length h)%nat && worse_at worse h (2 * i + 2) w then 2 * i + 2 else w)%nat in
  (forall c, (0 < c < length h)%nat -> par c = i -> ok h c w) /\
  (w = i \/ ((0 < w < length h)%nat /\ par w = i /\ worse_at worse h w i = true)).
Proof.
  intros HQ Hi. pose proof (child_par i) as [P1 P2].
  assert (Hcc : forall c, (0 < c)%nat -> par c = i -> c = (2 * i + 1)%nat \/ c = (2 * i + 2)%nat)
    by (intros c H1 H2; by apply par_child).
  revert P1 P2 Hcc. generalize (2 * i + 1)%nat (2 * i + 2)%nat. intros l r P1 P2 Hcc w1 w2.
  assert (Hrefl : forall k, ok h k k).
  { intros k. unfold ok. destruct (worse_at worse h k k) eqn:E; [|done]. pose proof (ok_asym _ _ _ HQ E) as E'. congruence. }
  assert (H1 : (w1 = i \/ ((0 < w1 < length h)%nat /\ par w1 = i /\ worse_at worse h w1 i = true)) /\
               ((l < length h)%nat -> ok h l w1)).
  { unfold w1. destruct (Nat.ltb_spec l (length h)) as [Hl|Hl]; cbn [andb]; [|split; [by left|lia]].
    destruct (worse_at worse h l i) eqn:E; [|split; [by left|done]].
    split; [|intros _; apply Hrefl]. right. assert (l <> 0)%nat; [|done || (repeat split; try done; lia)].
    intros ->. change (par 0) with 0%nat in P1. subst i. by rewrite (Hrefl 0%nat) in E. }
  clearbody w1. destruct H1 as [Hw1 Hl1]. unfold w2.
  destruct (Nat.ltb_spec r (length h)) as [Hr|Hr]; cbn [andb].
  2:{ split; [|done]. intros c Hc Hpc. destruct (Hcc c) as [->| ->]; [lia|done|apply Hl1; lia|lia]. }
  destruct (worse_at worse h r w1) eqn:E.
  - assert (Hri : worse_at worse h r i = true).
    { destruct Hw1 as [->|(L & _ & Hww)]; [done|]. destruct (worse_at worse h r i) eqn:Er; [done|].
      pose proof (ok_neg h r i w1 HQ Hi Er (ok_asym _ _ _ HQ Hww)) as K. unfold ok in K. congruence. }
    split.
    + intros c Hc Hpc. destruct (Hcc c) as [->| ->]; [lia|done| |apply Hrefl].
      assert (w1 < length h)%nat by (destruct Hw1 as [->|(L & _)]; lia).
      eapply (ok_neg h l w1 r); [done|done|apply Hl1; lia|by apply ok_asym].
    + right. assert (r <> 0)%nat; [|repeat split; try done; lia].
      intros E0. rewrite E0 in P2, Hri. change (par 0) with 0%nat in P2. rewrite <- P2, (Hrefl 0%nat) in Hri. done.
  - split; [|done]. intros c Hc Hpc. destruct (Hcc c) as [->| ->]; [lia|done|apply Hl1; lia|done].
Qed.
Lemma sift_down_ok fuel : forall h i, Forall Q h -> (length h <= fuel + i)%nat -> (i < length h)%nat -> down_inv h i ->
  is_heap (sift_down worse fuel h i) /\ sift_down worse fuel h i ≡ₚ h.
Proof.
  induction fuel as [|fuel IH]; intros h i HQ Hf Hi Hd; cbn [sift_down]; [lia|].
  destruct (pick_worst h i HQ Hi) as [Hc Hw]. cbv zeta in Hc, Hw.
  match goal with |- context [(?e =? i)%nat] => set (w := e) in * end. clearbody w.
  destruct (Nat.eqb_spec w i) as [->|Hne].
  - split; [|done]. intros j Hj. destruct (decide (par j = i)) as [E|E]; [rewrite E; by apply Hc|by apply (down_rest _ _ Hd)].
  - destruct Hw as [|(Hw & Hp & Hww)]; [done|]. pose proof (par_lt w ltac:(lia)).
    destruct (IH (swap h i w) w) as [H1 H2]; [by apply swap_Q|rewrite length_swap; lia|rewrite length_swap; lia|by apply down_step|].
    split; [done|]. rewrite H2. apply swap_perm; lia.
Qed.
Lemma push_ok h x : Forall Q h -> Q x -> is_heap h ->
  is_heap (sift_up worse (length (h ++ [x])) (h ++ [x]) (length h)) /\
  sift_up worse (length (h ++ [x])) (h ++ [x]) (length h) ≡ₚ h ++ [x].
Proof.
  intros HQ Hx Hh. apply sift_up_ok; rewrite ?length_app; cbn [length]; try lia; [by apply Forall_app_2; [|constructor]|].
  split; rewrite length_app; cbn [length].
  - intros j Hj Hne. pose proof (par_lt j ltac:(lia)). unfold ok, worse_at. rewrite !lookup_app_l by lia. apply Hh. lia.
  - intros j Hj Hp Hi. pose proof (par_lt j ltac:(lia)). lia.
Qed.
Lemma replace_root_ok h x y : Forall Q h -> Q x -> is_heap h -> h !! 0%nat = Some y ->
  is_heap (sift_down worse (length (<[0%nat := x]> h)) (<[0%nat := x]> h) 0) /\
  exists h', h = y :: h' /\ sift_down worse (length (<[0%nat := x]> h)) (<[0%nat := x]> h) 0 ≡ₚ x :: h'.
Proof.
  intros HQ Hx Hh Hy. destruct h as [|y' h']; [done|]. injection Hy as ->. cbn [list_insert insert].
  destruct (sift_down_ok (length (x :: h')) (x :: h') 0) as [H1 H2]; try (cbn; lia).
  - apply list.Forall_cons in HQ as [_ HQ]. by constructor.
  - split; [|lia]. cbn [length]. intros j Hj Hne. specialize (Hh j Hj). unfold ok, worse_at in *.
    destruct j as [|j]; [lia|]. destruct (par (S j)) as [|p] eqn:E; [done|]. exact Hh.
  - split; [exact H1|]. by exists h'.
Qed.
End heap.

(** ** The heap loops see only the keys *)
Section fmap.
Context {A B : Type} (f : A -> B) (worse : A -> A -> bool) (worse' : B -> B -> bool).
Hypothesis Hf : forall a b, worse' (f a) (f b) = worse a b.
Lemma swap_map h i j : swap (map f h) i j = map f (swap h i j).
Proof.
  unfold swap. rewrite !list_lookup_fmap. destruct (h !! i); [|done]. destruct (h !! j); [|done]. cbn.
  by rewrite <- !list_fmap_insert.
Qed.
Lemma worse_at_map h i j : worse_at worse' (map f h) i j = worse_at worse h i j.
Proof. unfold worse_at. rewrite !list_lookup_fmap. destruct (h !! i); [|done]. destruct (h !! j); [|done]. apply Hf. Qed.
Lemma sift_up_map fuel : forall h i, sift_up worse' fuel (map f h) i = map f (sift_up worse fuel h i).
Proof.
  induction fuel as [|fuel IH]; intros h i; cbn [sift_up]; [done|]. destruct (i =? 0)%nat; [done|].
  rewrite worse_at_map. destruct (worse_at worse h i _); [|done]. by rewrite swap_map, IH.
Qed.
Lemma sift_down_map fuel : forall h i, sift_down worse' fuel (map f h) i = map f (sift_down worse fuel h i).
Proof.
  induction fuel as [|fuel IH]; intros h i; cbn [sift_down]; [done|]. rewrite length_map, !worse_at_map.
  match goal with |- (if ?b then _ else _) = _ => destruct b end; [done|]. by rewrite swap_map, IH.
Qed.
End fmap.

(** ** The documented contract of slices.SortFunc *)
Definition weak_order {A} (cmp : A -> A -> Z) (l : list A) : Prop :=
  (forall x y, x ∈ l -> y ∈ l -> cmp x y < 0 <-> 0 < cmp y x) /\
  (forall x y z, x ∈ l -> y ∈ l -> z ∈ l -> cmp x y <= 0 -> cmp y z <= 0 -> cmp x z <= 0).
Class SortsFunc {A} (SortFunc : (A -> A -> Z) -> list A -> list A) : Prop := {
  SortFunc_perm : forall cmp l, SortFunc cmp l ≡ₚ l;
  SortFunc_sorted : forall cmp l, weak_order cmp l -> StronglySorted (fun x y => cmp x y <= 0) (SortFunc cmp l);
}.
Lemma weak_order_sub {A} (cmp : A -> A -> Z) l l' : (forall x, x ∈ l' -> x ∈ l) -> weak_order cmp l -> weak_order cmp l'.
Proof. intros H [H1 H2]. split; [intros x y ??; apply H1; by apply H|intros x y z ???; apply H2; by apply H]. Qed.
Lemma insert_sorted_weak {A} (cmp : A -> A -> Z) x l : weak_order cmp (x :: l) -> StronglySorted (fun x y => cmp x y <= 0) l ->
  StronglySorted (fun x y => cmp x y <= 0) (insert_by (fun a b => cmp a b <? 0) x l).
Proof.
  induction l as [|y l IH]; intros [Hw Ht] Hl; cbn [insert_by]; [by repeat constructor|].
  inversion Hl as [|? ? Hl' Hy]; subst.
  assert (Hx : x ∈ x :: y :: l) by constructor. assert (Hy' : y ∈ x :: y :: l) by (constructor; constructor).
  destruct (Z.ltb_spec (cmp y x) 0) as [H|H].
  - constructor.
    + apply IH; [|done]. eapply (weak_order_sub cmp (x :: y :: l)); [|done]. intros z [->|Hz]%elem_of_cons; [done|by repeat apply list_elem_of_further].
    + rewrite insert_by_perm. constructor; [lia|done].
  - assert (cmp x y <= 0) by (destruct (Z.le_gt_cases (cmp x y) 0); [done|]; apply Hw in H0; [lia|done..]).
    constructor; [done|]. constructor; [done|]. rewrite list.Forall_forall in *. intros z Hz.
    eapply (Ht x y z); [done|done|by repeat apply list_elem_of_further|done|by apply Hy].
Qed.
#[export] Instance insertion_sorts {A} : SortsFunc (A := A) (fun cmp => sort_by (fun a b => cmp a b <? 0)).
Proof.
  split; intros cmp l; [apply sort_by_perm|]. induction l as [|x l IH]; intros [Hw Ht]; cbn [sort_by]; [constructor|].
  apply insert_sorted_weak.
  - eapply (weak_order_sub cmp (x :: l)); [|done]. intros y. by rewrite sort_by_perm.
  - apply IH. eapply (weak_order_sub cmp (x :: l)); [|done]. intros y Hy. by apply list_elem_of_further.
Qed.

(** ** The window *)
Lemma sliceOffsetLimit_window {A} (l : list A) offset limit : 0 <= offset -> 0 <= limit ->
  sliceOffsetLimit l offset limit = take (Z.to_nat limit) (drop (Z.to_nat offset) l).
Proof.
  intros Ho Hl. unfold sliceOffsetLimit, zlen.
  assert (E : (if 0 <? offset then drop (Z.to_nat offset) l else l) = drop (Z.to_nat offset) l).
  { destruct (Z.ltb_spec 0 offset); [done|]. by replace (Z.to_nat offset) with 0%nat by lia. }
  rewrite E. destruct ((0 <? offset) && (offset >=? Z.of_nat (length l))) eqn:E1.
  - apply andb_true_iff in E1 as [_ E1]. rewrite Z.geb_le in E1. rewrite drop_ge by lia. by rewrite take_nil.
  - destruct (Z.leb_spec 0 limit); [|lia]. cbn [andb]. destruct (Z.ltb_spec limit (Z.of_nat (length (drop (Z.to_nat offset) l)))); [done|].
    by rewrite take_ge by lia.
Qed.
Lemma sliceOffsetLimit_rest {A} (l : list A) offset limit : 0 <= offset -> limit < 0 ->
  sliceOffsetLimit l offset limit = drop (Z.to_nat offset) l.
Proof.
  intros Ho Hl. unfold sliceOffsetLimit, zlen. destruct (Z.leb_spec 0 limit); [lia|]. cbn [andb].
  destruct (Z.ltb_spec 0 offset); cbn [andb]; [|by replace (Z.to_nat offset) with 0%nat by lia].
  destruct (Z.geb_spec offset (Z.of_nat (length l))); [by rewrite drop_ge by lia|done].
Qed.
(** Keeping the best offset+limit entries is enough for the window. *)
Lemma window_of_best {A} (best rest : list A) offset limit :
  (length best = offset + limit)%nat \/ rest = [] -> take limit (drop offset (best ++ rest)) = take limit (drop offset best).
Proof.
  intros [H| ->]; [|by rewrite app_nil_r]. rewrite drop_app_le, take_app_le by (rewrite ?length_drop; lia). done.
Qed.

(** ** Keys of one kind *)
Section keys.
Context (desc : bool) (k : ValueKind).
Hypothesis k_nonnull : k <> KindNull.
Definition key_ok (v : Value) : Prop := value_ok v /\ Kind v = k.
Lemma evictable_vcmp a b : key_ok a -> key_ok b -> evictable desc a b = match (if desc then vcmp b a else vcmp a b) with Gt => true | _ => false end.
Proof.
  intros [Ha Ka] [Hb Kb]. unfold evictable. rewrite Compare_vcmp by congruence. cbn [negb].
  destruct desc; [rewrite (vcmp_anti a b) by congruence|]; by destruct (vcmp a b).
Qed.
Lemma orderCmp_vcmp a b : key_ok a -> key_ok b -> orderCmp desc a b = cmpZ (if desc then vcmp b a else vcmp a b).
Proof.
  intros [Ha Ka] [Hb Kb]. unfold orderCmp. rewrite Compare_vcmp by congruence. cbn [negb].
  destruct desc; [rewrite (vcmp_anti a b) by congruence|]; by destruct (vcmp a b).
Qed.
Lemma orderCmp_le a b : key_ok a -> key_ok b -> orderCmp desc a b <= 0 <-> evictable desc a b = false.
Proof. intros Ha Hb. rewrite evictable_vcmp, orderCmp_vcmp by done. by destruct (if desc then _ else _). Qed.
Lemma evictable_asym a b : key_ok a -> key_ok b -> evictable desc a b = true -> evictable desc b a = false.
Proof.
  intros Ha Hb. rewrite !evictable_vcmp by done. destruct Ha as [_ Ka], Hb as [_ Kb].
  destruct desc; [rewrite (vcmp_anti b a) by congruence; by destruct (vcmp b a)|rewrite (vcmp_anti a b) by congruence; by destruct (vcmp a b)].
Qed.
Lemma vcmp_le_trans a b c : key_ok a -> key_ok b -> key_ok c -> vcmp a b <> Gt -> vcmp b c <> Gt -> vcmp a c <> Gt.
Proof.
  intros [Ha Ka] [Hb Kb] [Hc Kc] H1 H2. destruct (vcmp a b) eqn:E1; [| |done].
  - apply vcmp_eq in E1; [by subst|done..|congruence].
  - destruct (vcmp b c) eqn:E2; [| |done].
    + apply vcmp_eq in E2; [subst; congruence|done..|congruence].
    + rewrite (vcmp_trans a b c) by congruence. done.
Qed.
Lemma evictable_negtrans a b c : key_ok a -> key_ok b -> key_ok c ->
  evictable desc a b = false -> evictable desc b c = false -> evictable desc a c = false.
Proof.
  intros Ha Hb Hc. rewrite !evictable_vcmp by done.
  assert (E : forall c, match c with Gt => true | _ => false end = false <-> c <> Gt) by (intros []; split; congruence).
  rewrite !E. destruct desc; [intros H1 H2; by apply (vcmp_le_trans c b a)|by apply vcmp_le_trans].
Qed.

(** *** The heap of (key, kept cells) pairs the windows stand for *)
Definition entry : Type := (Value * Row)%type.
Definition vworse (a b : entry) : bool := evictable desc (fst a) (fst b).
Definition entry_ok (e : entry) : Prop := key_ok (fst e).
Definition voffer (capN : Z) (h : list entry) (e : entry) : list entry :=
  if Z.of_nat (length h) <? capN then sift_up vworse (length (h ++ [e])) (h ++ [e]) (length h)
  else
    match h with
    | [] => []
    | root :: _ =>
        if negb (vworse root e) then h
        else sift_down vworse (length (<[0%nat := e]> h)) (<[0%nat := e]> h) 0
    end.
(** [h] holds the best [capN] of the entries seen: nothing discarded beats a kept one. *)
Record best (capN : Z) (seen h : list entry) : Prop := {
  best_heap : is_heap vworse h;
  best_ok : Forall entry_ok h;
  best_full : exists dropped, h ++ dropped ≡ₚ seen /\ (dropped = [] \/ Z.of_nat (length h) = capN) /\
    Forall entry_ok dropped /\ forall x y, x ∈ h -> y ∈ dropped -> vworse x y = false;
  best_len : Z.of_nat (length h) <= capN;
}.
Lemma asym_e a b : entry_ok a -> entry_ok b -> vworse a b = true -> vworse b a = false.
Proof. apply evictable_asym. Qed.
Lemma negtrans_e a b c : entry_ok a -> entry_ok b -> entry_ok c -> vworse a b = false -> vworse b c = false -> vworse a c = false.
Proof. apply evictable_negtrans. Qed.
Lemma best_root capN seen h root h' : best capN seen h -> h = root :: h' -> forall x, x ∈ h -> vworse x root = false.
Proof.
  intros [Hh Hok _ _] -> x [j Hj]%list_elem_of_lookup_1.
  pose proof (root_worst vworse entry_ok asym_e negtrans_e _ Hok Hh j) as R. unfold ok, worse_at in R. rewrite Hj in R.
  apply R. by eapply lookup_lt_Some.
Qed.
Lemma voffer_best capN seen h e : 0 < capN -> entry_ok e -> best capN seen h -> best capN (e :: seen) (voffer capN h e).
Proof.
  intros Hcap He Hb. pose proof Hb as [Hh Hok (d & Hp & Hfull & Hd & Hbest) Hlen]. unfold voffer.
  destruct (Z.ltb_spec (Z.of_nat (length h)) capN) as [L|L].
  { destruct Hfull as [->|]; [|lia]. rewrite app_nil_r in Hp.
    destruct (push_ok vworse entry_ok asym_e negtrans_e h e Hok He Hh) as [H1 H2].
    set (h2 := sift_up _ _ _ _) in *. clearbody h2. split; [done|rewrite H2; by apply Forall_app_2; [|constructor]| |].
    - exists []. rewrite app_nil_r. split_and!; [|by left|constructor|intros x y _ Hy; by apply not_elem_of_nil in Hy].
      rewrite H2, Hp. by rewrite Permutation_app_comm.
    - rewrite (Permutation_length H2), length_app. cbn. lia. }
  destruct h as [|root h']; [cbn in L; lia|]. pose proof (best_root _ _ _ _ _ Hb eq_refl) as Hroot.
  assert (Kroot : entry_ok root) by (by apply list.Forall_cons in Hok as [? _]).
  destruct (vworse root e) eqn:Ew; cbn [negb].
  - destruct (replace_root_ok vworse entry_ok asym_e negtrans_e (root :: h') e root Hok He Hh eq_refl) as (H1 & h2 & [= <-] & H2).
    set (hh := sift_down _ _ _ _) in *. clearbody hh.
    assert (Hok2 : Forall entry_ok hh) by (rewrite H2; constructor; [done|]; by apply list.Forall_cons in Hok as [_ ?]).
    assert (Hall : forall x, x ∈ hh -> entry_ok x /\ vworse x root = false).
    { intros x. rewrite H2. intros [->|Hx]%elem_of_cons.
      - split; [done|by apply asym_e].
      - assert (x ∈ root :: h') by (by apply list_elem_of_further). split; [by rewrite list.Forall_forall in Hok; apply Hok|by apply Hroot]. }
    split; [done|done| |].
    + exists (root :: d). split_and!.
      * rewrite H2. cbn. rewrite <- Hp. cbn. rewrite <- Permutation_middle. apply perm_skip, perm_skip. done.
      * right. rewrite (Permutation_length H2). cbn in *. lia.
      * by constructor.
      * intros x y Hx%Hall [->|Hy]%elem_of_cons; [tauto|]. destruct Hx as [Kx Hx].
        eapply (negtrans_e x root y); [done..|by rewrite list.Forall_forall in Hd; apply Hd|done|].
        apply Hbest; [apply list_elem_of_here|done].
    + rewrite (Permutation_length H2). exact Hlen.
  - split; [done|done| |done]. exists (e :: d). split_and!; [|right; lia|by constructor|].
    + rewrite <- Hp. by rewrite Permutation_middle.
    + intros x y Hx [->|Hy]%elem_of_cons; [|by apply Hbest].
      eapply (negtrans_e x root e); [by rewrite list.Forall_forall in Hok; apply Hok|done..|by apply Hroot|done].
Qed.
Lemma best_nil capN : 0 <= capN -> best capN [] [].
Proof.
  intros H. split; [intros j; cbn; lia|constructor| |cbn; lia]. exists []. split_and!; [done|by left|constructor|].
  intros x y Hx. by apply not_elem_of_nil in Hx.
Qed.
End keys.

(** ** The windows of the packed buffer *)
Lemma index_cons {A} (x : A) l : index (x :: l) 0 = Ok x.
Proof. done. Qed.
Lemma ok_bind {A B} (x : A) (f : A -> outcome B) : Ok x ≫= f = f x.
Proof. done. Qed.
Section packed.
Context (ord : nat) (desc : bool) (capN : Z) (proj : option (list nat)).
Local Abbreviation packs := (packs capN proj).
Definition view_entry (t : topN) (e : topEntry) : entry := (te_key e, kept_row t (te_row e)).
Definition view (t : topN) : list entry := map (view_entry t) (t_h t).
(** Every kept row has a window of its own, below [capN]; unpacked rows own
    their cells. *)
Definition windows (t : topN) : Prop :=
  if packs then
    map te_row (t_h t) ≡ₚ map Slot (seq 0 (length (t_h t))) /\
    match t_backing t with Some b => length b = Z.to_nat capN | None => t_h t = [] end
  else Forall (fun e => exists r, te_row e = Own r) (t_h t).

Lemma view_ext t t' : (forall e, e ∈ t_h t -> kept_row t' (te_row e) = kept_row t (te_row e)) ->
  map (view_entry t') (t_h t) = view t.
Proof. intros H. apply map_ext_in. intros e He%list_elem_of_In. unfold view_entry. by rewrite H. Qed.
Lemma window_slot t e : packs = true -> windows t -> e ∈ t_h t -> exists i, te_row e = Slot i /\ (i < length (t_h t))%nat.
Proof.
  unfold windows. intros -> [Hp _] He. assert (He' : te_row e ∈ map te_row (t_h t)) by (by apply list_elem_of_fmap_2).
  rewrite Hp in He'. apply list_elem_of_fmap in He' as (i & -> & Hi%elem_of_seq). exists i. split; [done|lia].
Qed.
Lemma kept_own t t' e : packs = false -> windows t -> e ∈ t_h t -> kept_row t' (te_row e) = kept_row t (te_row e).
Proof. unfold windows. intros -> H He. rewrite list.Forall_forall in H. by destruct (H e He) as [r ->]. Qed.

Lemma offer_fill t r v x : 0 < capN -> Z.of_nat (length (t_h t)) < capN -> windows t ->
  index r ord = Ok v -> take_row proj r = Ok x ->
  exists t', offer ord desc capN proj t r = Ok t' /\ windows t' /\ view t' = voffer desc capN (view t) (cloneValue v, x).
Proof.
  intros Hcap Hl Hw Hv Hx. unfold offer, voffer. rewrite Hv, ok_bind. cbv zeta.
  unfold view at 2. rewrite length_map. destruct (Z.ltb_spec (Z.of_nat (length (t_h t))) capN); [|lia].
  unfold fillSlot. rewrite Hx, ok_bind. destruct packs eqn:Ep; cbn [negb].
  - unfold windows in Hw. rewrite Ep in Hw. destruct Hw as [Hp Hb].
    set (b := default _ _). assert (Lb : length b = Z.to_nat capN).
    { unfold b. destruct (t_backing t); [done|]. cbn. unfold fresh_backing. by rewrite length_replicate. }
    destruct (index_lt b (length (t_h t))) as (y & -> & Hy); [lia|]. rewrite !ok_bind. cbn [fst snd].
    set (h2 := t_h t ++ [MkEntry (cloneValue v) (Slot (length (t_h t)))]).
    set (t' := MkTop (sift_up _ _ _ _) _). exists t'. split; [done|].
    assert (P : sift_up (worse_entry desc) (length h2) h2 (length (t_h t)) ≡ₚ h2) by (apply sift_up_perm; unfold h2; rewrite length_app; cbn; lia).
    assert (Hk : forall e, e ∈ t_h t -> kept_row t' (te_row e) = kept_row t (te_row e)).
    { intros e He. destruct (window_slot t e Ep) as (i & -> & Hi); [unfold windows; by rewrite Ep|done|].
      unfold t'. cbn. rewrite list_lookup_insert_ne by lia. unfold b. destruct (t_backing t); [done|]. rewrite Hb in Hi; cbn in Hi; lia. }
    split.
    + unfold windows. rewrite Ep. split; [|unfold t'; cbn; by rewrite length_insert].
      assert (P' : t_h t' ≡ₚ h2) by exact P. rewrite (Permutation_length P'), P'. unfold h2. rewrite map_app, length_app, seq_app, map_app. cbn [map length seq te_row].
      by rewrite Hp.
    + unfold view, t' at 2. cbn [t_h].
      rewrite <- (sift_up_map (view_entry t') (worse_entry desc) (vworse desc)) by done.
      assert (E : map (view_entry t') h2 = view t ++ [(cloneValue v, x)]).
      { unfold h2. rewrite map_app, view_ext by done. cbn [map]. unfold view_entry at 1. cbn [te_key te_row kept_row t' t_backing].
        cbn. rewrite list_lookup_insert_eq by lia. done. }
      rewrite E. unfold h2. rewrite !length_app. unfold view. by rewrite length_map.
  - set (h2 := t_h t ++ [MkEntry (cloneValue v) (Own x)]).
    rewrite !ok_bind. cbn [fst snd]. fold h2. set (t' := MkTop (sift_up _ _ _ _) _). exists t'. split; [done|].
    assert (P : t_h t' ≡ₚ h2) by (apply sift_up_perm; unfold h2; rewrite length_app; cbn; lia).
    split.
    + unfold windows in *. rewrite Ep in *. rewrite P. apply Forall_app_2; [done|]. constructor; [by eexists|constructor].
    + unfold view, t' at 2. cbn [t_h].
      rewrite <- (sift_up_map (view_entry t') (worse_entry desc) (vworse desc)) by done.
      assert (E : map (view_entry t') h2 = view t ++ [(cloneValue v, x)]).
      { unfold h2. rewrite map_app, view_ext by (intros e He; by apply kept_own). done. }
      rewrite E. unfold h2. rewrite !length_app. unfold view. by rewrite length_map.
Qed.

Lemma offer_replace t r v x : 0 < capN -> Z.of_nat (length (t_h t)) = capN -> windows t ->
  index r ord = Ok v -> take_row proj r = Ok x ->
  exists t', offer ord desc capN proj t r = Ok t' /\ windows t' /\ view t' = voffer desc capN (view t) (cloneValue v, x).
Proof.
  intros Hcap Hl Hw Hv Hx. unfold offer, voffer. rewrite Hv, ok_bind. cbv zeta.
  unfold view at 2. rewrite length_map. destruct (Z.ltb_spec (Z.of_nat (length (t_h t))) capN); [lia|].
  unfold view at 2. destruct (t_h t) as [|root h'] eqn:Eh; [cbn in Hl; lia|]. rewrite index_cons, ok_bind. cbn [map].
  unfold vworse at 1. cbn [view_entry fst]. destruct (evictable desc (te_key root) (cloneValue v)); cbn [negb].
  2:{ exists t. split_and!; [done|done|]. unfold view. by rewrite Eh. }
  assert (K : exists k b', reuseSlot capN proj t r (te_row root) = Ok (k, b') /\
    let t2 := MkTop (MkEntry (cloneValue v) k :: h') b' in windows t2 /\ view t2 = (cloneValue v, x) :: map (view_entry t) h').
  { pose proof Hw as Hw0. unfold reuseSlot. rewrite Hx, ok_bind. unfold windows in Hw. destruct packs eqn:Ep; cbn [negb].
    - destruct Hw as [Hp Hb]. destruct (t_backing t) as [b|] eqn:Eb; [|congruence].
      destruct (window_slot t root Ep Hw0) as (i & Hi & Li); [rewrite Eh; constructor|].
      rewrite Hi. exists (Slot i), (Some (<[i := x]> b)). split; [done|]. cbv zeta. rewrite Eh in Hp, Li. split.
      + unfold windows. rewrite Ep. cbn [t_h t_backing map te_row] in *. rewrite length_insert, <- Hi. split; [exact Hp|done].
      + unfold view. cbn [t_h map]. f_equal.
        * unfold view_entry. cbn. rewrite list_lookup_insert_eq; [done|]. lia.
        * apply map_ext_in. intros e He%list_elem_of_In. unfold view_entry. f_equal.
          destruct (window_slot t e Ep Hw0) as (j & Hj & Lj); [rewrite Eh; by apply list_elem_of_further|].
          rewrite Hj. unfold kept_row. cbn [t_backing default from_option]. rewrite Eb. cbn.
          rewrite list_lookup_insert_ne; [done|]. intros ->.
          assert (N : NoDup (map te_row (root :: h'))).
          { rewrite Hp. apply NoDup_fmap_2; [by intros ?? [= ->]|apply NoDup_ListNoDup, seq_NoDup]. }
          cbn [map] in N. apply list.NoDup_cons in N as [N _]. apply N. rewrite Hi, <- Hj. by apply list_elem_of_fmap_2.
    - exists (Own x), (t_backing t). split; [done|]. cbv zeta. split.
      + unfold windows. rewrite Ep. rewrite Eh in Hw. apply list.Forall_cons in Hw as [_ Hw]. constructor; [by eexists|exact Hw].
      + done. }
  destruct K as (k & b' & -> & K). cbv zeta in K. destruct K as [Kw Kv]. rewrite ok_bind. cbn [fst snd list_insert insert].
  set (h2 := MkEntry (cloneValue v) k :: h') in *. set (t2 := MkTop h2 b') in *.
  set (t' := MkTop (sift_down _ _ _ _) b'). exists t'. split; [done|].
  assert (P : t_h t' ≡ₚ t_h t2) by (apply sift_down_perm; cbn; lia). split.
  - unfold windows in *. destruct packs; [|by rewrite P]. rewrite (Permutation_length P), P. split; [apply Kw|].
    destruct Kw as [_ Kw]. cbn [t_backing t' t2] in *. destruct b'; [done|discriminate].
  - assert (E : view t' = map (view_entry t2) (t_h t')) by done. rewrite E. unfold t' at 1. cbn [t_h].
    rewrite <- (sift_down_map (view_entry t2) (worse_entry desc) (vworse desc)) by done.
    change (map (view_entry t2) h2) with (view t2). rewrite Kv. unfold view, h2. rewrite Eh. cbn [map list_insert insert length].
    by rewrite length_map.
Qed.
End packed.

(** ** ORDER BY *)
Section order_by.
Context (ord : nat) (desc : bool) (k : ValueKind) (proj : option (list nat)).
Context (SortFunc : (topEntry -> topEntry -> Z) -> list topEntry -> list topEntry) `{!SortsFunc SortFunc}.
Hypothesis k_nonnull : k <> KindNull.
Definition order_key (r : Row) : Value := default zeroCell (r !! ord).
Definition shown (r : Row) : Row := match proj with None => r | Some ords => map (fun o => default zeroCell (r !! o)) ords end.
(** The columns exist and the key is a cell of the column's kind, not NULL. *)
Definition fits (r : Row) : Prop :=
  Forall value_ok r /\ (ord < length r)%nat /\ Kind (order_key r) = k /\ Forall (fun o => o < length r)%nat (default [] proj).
Definition as_entry (r : Row) : entry := (order_key r, shown r).

Lemma fits_key r : fits r -> exists v, index r ord = Ok v /\ cloneValue v = order_key r /\ key_ok k (order_key r).
Proof.
  intros (Hr & Ho & Hk & _). unfold order_key in *. destruct (index_lt r ord Ho) as (v & -> & E). rewrite E in *. cbn in *.
  assert (value_ok v) by (by eapply Forall_lookup_1). exists v. by rewrite cloneValue_ok.
Qed.
Lemma fits_take r : fits r -> take_row proj r = Ok (shown r).
Proof.
  intros (Hr & _ & _ & Hp). unfold take_row, shown. destruct proj as [ords|]; [|by rewrite Row_Clone_ok].
  cbn in Hp. induction Hp as [|o ords Ho _ IH]; [done|]. cbn [proj_cells map].
  destruct (index_lt r o Ho) as (v & -> & E). rewrite ok_bind, IH, ok_bind, E. cbn.
  rewrite cloneValue_ok; [done|by eapply Forall_lookup_1].
Qed.

Lemma offer_step capN seen t r : 0 < capN -> fits r -> windows capN proj t -> best desc k capN seen (view t) ->
  exists t', offer ord desc capN proj t r = Ok t' /\ windows capN proj t' /\ best desc k capN (as_entry r :: seen) (view t').
Proof.
  intros Hcap Hr Hw Hb. destruct (fits_key r Hr) as (v & Hv & Ev & Kv). pose proof (fits_take r Hr) as Hx.
  assert (L : Z.of_nat (length (t_h t)) <= capN) by (pose proof (best_len _ _ _ _ _ Hb) as L; unfold view in L; by rewrite length_map in L).
  assert (E : exists t', offer ord desc capN proj t r = Ok t' /\ windows capN proj t' /\ view t' = voffer desc capN (view t) (cloneValue v, shown r)).
  { destruct (Z.le_gt_cases capN (Z.of_nat (length (t_h t)))); [apply offer_replace|apply offer_fill]; try done; lia. }
  destruct E as (t' & E1 & E2 & E3). exists t'. split_and!; [done|done|]. rewrite E3, Ev. by apply voffer_best.
Qed.
Lemma offer_all_best capN rows : 0 < capN -> Forall fits rows -> forall t seen, windows capN proj t -> best desc k capN seen (view t) ->
  exists t', offer_all ord desc capN proj t rows = Ok t' /\ best desc k capN (rev (map as_entry rows) ++ seen) (view t').
Proof.
  intros Hcap. induction 1 as [|r rows Hr _ IH]; intros t seen Hw Hb; cbn [offer_all map rev]; [by exists t|].
  destruct (offer_step capN seen t r Hcap Hr Hw Hb) as (t' & -> & Hw' & Hb'). rewrite ok_bind.
  destruct (IH t' _ Hw' Hb') as (t2 & E & Hb2). exists t2. split; [done|]. by rewrite <- app_assoc.
Qed.
Lemma collect_all_entries rows : Forall fits rows -> forall t,
  exists t', collect_all ord proj t rows = Ok t' /\ t_backing t' = t_backing t /\
    t_h t' = t_h t ++ map (fun r => MkEntry (order_key r) (Own (shown r))) rows.
Proof.
  induction 1 as [|r rows Hr _ IH]; intros t; cbn [collect_all map]; [exists t; by rewrite app_nil_r|].
  unfold collect. destruct (fits_key r Hr) as (v & -> & Ev & _). rewrite ok_bind, fits_take, !ok_bind, Ev by done.
  destruct (IH (MkTop (t_h t ++ [MkEntry (order_key r) (Own (shown r))]) (t_backing t))) as (t' & -> & E1 & E2).
  exists t'. split_and!; [done|done|]. rewrite E2. cbn [t_h]. by rewrite <- app_assoc.
Qed.

(** *** Sorting the kept rows *)
Definition in_order (a b : entry) : Prop := evictable desc (fst a) (fst b) = false.
Lemma StronglySorted_map {A B} (f : A -> B) (R : B -> B -> Prop) l :
  StronglySorted (fun x y => R (f x) (f y)) l <-> StronglySorted R (map f l).
Proof.
  induction l as [|x l IH]; cbn [map]; split; intros Hs; try constructor; inversion Hs; subst; (by apply IH) || idtac.
  - by apply Forall_map.
  - rewrite Forall_map in *. done.
Qed.
Lemma sorted_entries t : Forall (entry_ok k) (view t) ->
  exists s, s ≡ₚ view t /\ StronglySorted in_order s /\ sorted_rows desc SortFunc t = map snd s.
Proof.
  intros Hok. set (cmp := fun a b => orderCmp desc (te_key a) (te_key b)).
  exists (map (view_entry t) (SortFunc cmp (t_h t))). split_and!.
  - by rewrite SortFunc_perm.
  - apply (StronglySorted_map (view_entry t)). assert (Hk : forall e, e ∈ t_h t -> key_ok k (te_key e)).
    { intros e He. unfold view in Hok. rewrite Forall_map, list.Forall_forall in Hok. by apply (Hok e). }
    assert (Hs : StronglySorted (fun x y => cmp x y <= 0) (SortFunc cmp (t_h t))).
    { apply SortFunc_sorted. unfold cmp. split.
      - intros x y Hx%Hk Hy%Hk. rewrite !(orderCmp_vcmp desc k) by done. destruct Hx as [_ Kx], Hy as [_ Ky].
        destruct desc; rewrite (vcmp_anti (te_key x) (te_key y)) by congruence; destruct (vcmp (te_key x) (te_key y)); cbn; lia.
      - intros x y z Hx%Hk Hy%Hk Hz%Hk. rewrite !(orderCmp_le desc k) by done. by apply (evictable_negtrans desc k). }
    assert (Hm : Forall (fun e => key_ok k (te_key e)) (SortFunc cmp (t_h t))).
    { rewrite SortFunc_perm. by apply list.Forall_forall. }
    revert Hs Hm. generalize (SortFunc cmp (t_h t)). induction 1 as [|e l _ IH He]; intros Hm; [constructor|].
    apply list.Forall_cons in Hm as [Ke Hm]. constructor; [by apply IH|]. rewrite list.Forall_forall in He, Hm |- *.
    intros e' He'. apply (orderCmp_le desc k); [done..|by apply Hm|by apply He].
  - unfold sorted_rows. by rewrite map_map.
Qed.
(** A sorted arrangement of the rows behind a sorted list of their entries. *)
Lemma rows_behind s rows : s ≡ₚ map as_entry rows -> StronglySorted in_order s ->
  exists S, S ≡ₚ rows /\ StronglySorted (fun r r' => evictable desc (order_key r) (order_key r') = false) S /\ map snd s = map shown S.
Proof.
  intros (S & -> & HS)%Permutation_map_inv Hs. exists S. split_and!; [done| |by rewrite map_map].
  by apply (StronglySorted_map as_entry in_order).
Qed.
Lemma sorted_app s d : StronglySorted in_order s -> StronglySorted in_order d ->
  (forall x y, x ∈ s -> y ∈ d -> in_order x y) -> StronglySorted in_order (s ++ d).
Proof.
  intros Hs Hd. induction Hs as [|x s _ IH Hx]; intros H; [done|]. cbn. constructor.
  - apply IH. intros y z Hy Hz. apply H; [by apply list_elem_of_further|done].
  - apply Forall_app_2; [done|]. apply list.Forall_forall. intros y Hy. apply H; [constructor|done].
Qed.

Lemma sort_exists l : Forall (entry_ok k) l -> exists s, s ≡ₚ l /\ StronglySorted in_order s.
Proof.
  intros Hl. set (t := MkTop (map (fun e : entry => MkEntry (fst e) (Own (snd e))) l) None).
  assert (E : view t = l). { unfold view. cbn. rewrite map_map. rewrite <- (map_id l) at 2. apply map_ext. by intros []. }
  destruct (sorted_entries t) as (s & Hp & Hs & _); rewrite E in *; [done|]. by exists s.
Qed.
Lemma entries_ok rows : Forall fits rows -> Forall (entry_ok k) (map as_entry rows).
Proof.
  intros H. rewrite Forall_map. eapply Forall_impl; [|exact H]. cbv beta. intros r Hr. by destruct (fits_key r Hr) as (_ & _ & _ & ?).
Qed.
Lemma heap_window limit offset rows : Forall fits rows -> 0 < limit -> 0 <= offset ->
  exists S t, S ≡ₚ rows /\ StronglySorted (fun r r' => evictable desc (order_key r) (order_key r') = false) S /\
    offer_all ord desc (limit + offset) proj topN_empty rows = Ok t /\
    take (Z.to_nat limit) (drop (Z.to_nat offset) (sorted_rows desc SortFunc t)) =
    take (Z.to_nat limit) (drop (Z.to_nat offset) (map shown S)).
Proof.
  intros Hr Hl Ho.
  destruct (offer_all_best (limit + offset) rows ltac:(lia) Hr topN_empty []) as (t & E & Hb).
  { unfold windows. destruct (packs _ _); [done|constructor]. }
  { apply best_nil. lia. }
  rewrite app_nil_r in Hb. destruct Hb as [_ Hok (d & Hp & Hfull & Hd & Hbest) _].
  destruct (sorted_entries t Hok) as (s & Ps & Ss & Es). destruct (sort_exists d Hd) as (s' & Ps' & Ss').
  destruct (rows_behind (s ++ s') rows) as (S & PS & SS & ES).
  - rewrite Ps, Ps', Hp. symmetry. apply Permutation_rev.
  - apply sorted_app; [done..|]. intros x y. rewrite Ps, Ps'. apply Hbest.
  - exists S, t. split_and!; [done..|]. rewrite Es, <- ES, map_app. symmetry. apply window_of_best.
    pose proof (Permutation_length Ps) as L. rewrite length_map. unfold entry in *. destruct Hfull as [->|Hlen]; [right|left; lia].
    symmetry in Ps'. by apply Permutation_nil in Ps' as ->.
Qed.
Lemma collect_window rows : Forall fits rows ->
  exists S t, S ≡ₚ rows /\ StronglySorted (fun r r' => evictable desc (order_key r) (order_key r') = false) S /\
    collect_all ord proj topN_empty rows = Ok t /\ sorted_rows desc SortFunc t = map shown S.
Proof.
  intros Hr. destruct (collect_all_entries rows Hr topN_empty) as (t & E & _ & Eh).
  assert (Ev : view t = map as_entry rows) by (unfold view; rewrite Eh; cbn [topN_empty t_h app]; by rewrite map_map).
  destruct (sorted_entries t) as (s & Ps & Ss & Es); [rewrite Ev; by apply entries_ok|].
  destruct (rows_behind s rows) as (S & PS & SS & ES); [by rewrite Ps, Ev|done|]. exists S, t. by rewrite Es.
Qed.
End order_by.

Lemma order_by_arranged ord desc k proj SortFunc limit offset rows : SortsFunc SortFunc -> k <> KindNull ->
  Forall (fits ord k proj) rows -> 0 <= offset -> limit + offset < 2 ^ 63 ->
  exists S, S ≡ₚ rows /\ StronglySorted (fun r r' => evictable desc (order_key ord r) (order_key ord r') = false) S /\
    order_by ord desc proj limit offset SortFunc rows =
    Ok (let w := drop (Z.to_nat offset) (map (shown proj) S) in if limit <? 0 then w else take (Z.to_nat limit) w).
Proof.
  intros HS Hk Hr Ho Hlim. unfold order_by. destruct (Z.eqb_spec limit 0) as [->|Hz].
  - destruct (collect_window ord desc k proj SortFunc Hk rows Hr) as (S & _ & PS & SS & _). by exists S.
  - destruct (Z.leb_spec 0 limit), (Z.ltb_spec limit 0); try lia.
    + destruct (heap_window ord desc k proj SortFunc Hk limit offset rows Hr) as (S & t & PS & SS & E & W); [lia..|].
      exists S. split_and!; [done..|]. unfold fetchBound. destruct (Z.ltb_spec limit 0); [lia|].
      rewrite s64_idem by (unfold in_s64; lia). rewrite E, ok_bind, sliceOffsetLimit_window by lia. by rewrite W.
    + destruct (collect_window ord desc k proj SortFunc Hk rows Hr) as (S & t & PS & SS & E & W).
      exists S. split_and!; [done..|]. by rewrite E, ok_bind, sliceOffsetLimit_rest, W by lia.
Qed.

(** C22: ORDER BY col LIMIT n OFFSET m answers the window [m, m+n) of the
    matching rows arranged by the column — the bounded heap, its packed windows
    and their reuse included — when the column holds no NULL and n+m fits an
    int. *)
Theorem order_by_window ord desc k proj SortFunc limit offset rows : SortsFunc SortFunc -> k <> KindNull ->
  Forall (fits ord k proj) rows -> 0 <= offset -> limit + offset < 2 ^ 63 ->
  exists S, S ≡ₚ rows /\ StronglySorted (fun r r' => evictable desc (order_key ord r) (order_key ord r') = false) S /\
    order_by ord desc proj limit offset SortFunc rows =
    Ok (let w := drop (Z.to_nat offset) (map (shown proj) S) in if limit <? 0 then w else take (Z.to_nat limit) w).
Proof. apply order_by_arranged. Qed.
Definition top_rows : list Row := [[Int 5; Str (lit "e")]; [Int 2; Str (lit "b")]; [Int 9; Str (lit "i")]; [Int 1; Str (lit "a")]; [Int 7; Str (lit "g")]].
Lemma order_by_window_witness :
  exists S, S ≡ₚ top_rows /\ StronglySorted (fun r r' => evictable false (order_key 0 r) (order_key 0 r') = false) S /\
    order_by 0 false (Some [1%nat]) 2 1 (fun cmp => sort_by (fun a b => cmp a b <? 0)) top_rows =
    Ok (take 2 (drop 1 (map (shown (Some [1%nat])) S))).
Proof.
  apply (order_by_window 0 false KindInt (Some [1%nat]) (fun cmp => sort_by (fun a b => cmp a b <? 0)) 2 1 top_rows); [apply _|done| |lia|lia].
  repeat (constructor; [split_and!; [repeat constructor; vm_compute; done|cbn; lia|done|repeat constructor]|]). constructor.
Defined.

(** offset+limit wraps: with one matching row the heap's capacity is negative
    and offer reads the root of an empty heap. *)
Example order_by_limit_overflow :
  order_by 0 false None (2 ^ 63 - 1) 1 (fun cmp => sort_by (fun a b => cmp a b <? 0)) [[Int 5]] = Panic.
Proof. reflexivity. Qed.
(** A NULL key is equal to every key for the heap, which is not transitive: the
    two smallest of NULL, 5, 3 come out as NULL and 5 wherever NULL sorts. *)
Example order_by_null_key :
  order_by 0 false None 2 0 (fun cmp => sort_by (fun a b => cmp a b <? 0)) [[Null]; [Int 5]; [Int 3]] = Ok [[Null]; [Int 5]].
Proof. reflexivity. Qed.
