(* ===== verification/Catalog.v ===== *)
(** * Catalog: catalog.go — the catalog record codec and the registry of tables
    with its CREATE and DROP. Tables are references of an abstract type, as the
    registry maps hold pointers. *)
From S2P Require Import Prelude Bytes Uuid Value Codec Frame Journal Schema.

(** ** The CREATE and DROP records *)

Definition checkU16 (n : Z) : outcome unit :=
  if n >? 65535 then Err ErrCatalogTooLarge else Ok tt.

Fixpoint all_ok {A} (f : A -> outcome unit) (l : list A) : outcome unit :=
  match l with
  | [] => Ok tt
  | x :: l => _ ← f x; all_ok f l
  end.

Definition validateCatalogWireDef (td : TableDef) : outcome unit :=
  _ ← checkU16 (zlen (t_Name td));
  _ ← checkU16 (zlen (t_Columns td));
  _ ← all_ok (fun c => checkU16 (zlen (c_Name c))) (t_Columns td);
  _ ← checkU16 (zlen (t_Indexes td));
  all_ok (fun ix =>
    _ ← checkU16 (zlen (ix_Name ix));
    _ ← checkU16 (zlen (ix_Columns ix));
    all_ok (fun col => checkU16 (zlen col)) (ix_Columns ix)) (t_Indexes td).

Definition put_str (buf : bytes) (s : bytes) : bytes := appendU16LE buf (u16 (zlen s)) ++ s.

Definition col_flags (c : ColumnDef) : Z :=
  let flags := 0 in
  let flags := if c_PK c then Z.lor flags 1 else flags in
  let flags := if c_PartitionKey c then Z.lor flags 2 else flags in
  let flags := if c_Immutable c then Z.lor flags 4 else flags in
  if c_Nullable c then Z.lor flags 8 else flags.

Definition encode_col (buf : bytes) (c : ColumnDef) : bytes :=
  let buf := put_str buf (c_Name c) in
  let buf := buf ++ [z2b (c_Type c)] in
  buf ++ [z2b (col_flags c)].

Definition encode_index (buf : bytes) (ix : IndexDef) : bytes :=
  let buf := put_str buf (ix_Name ix) in
  let buf := appendU16LE buf (u16 (zlen (ix_Columns ix))) in
  let buf := fold_left put_str (ix_Columns ix) buf in
  buf ++ [z2b (if ix_Ordered ix then Z.lor 0 2 else 0)].

Definition encodeCreateTable (buf : bytes) (tableID : Z) (td : TableDef) : bytes :=
  let buf := appendU16LE buf tableID in
  let buf := put_str buf (t_Name td) in
  let buf := appendU16LE buf (u16 (zlen (t_Columns td))) in
  let buf := fold_left encode_col (t_Columns td) buf in
  let buf := appendU16LE buf (u16 (zlen (t_Indexes td))) in
  fold_left encode_index (t_Indexes td) buf.

Definition encodeDropTable (buf : bytes) (name : bytes) : bytes := put_str buf name.

Definition getLenStr (b : bytes) : outcome (bytes * Z) :=
  if zlen b <? 2 then corrupt
  else
    h ← slice_o b 0 2;
    let n := le_get h in
    if 2 + n >? zlen b then corrupt
    else s ← slice_o b 2 (2 + n); Ok (s, 2 + n).

(** [getLenStr(b[off:])], advancing [off]. *)
Definition take_str (b : bytes) (off : Z) : outcome (bytes * Z) :=
  t ← slice_o b off (zlen b);
  r ← getLenStr t;
  Ok (fst r, off + snd r).
(** The u16 at [off], when the record still has two bytes. *)
Definition take_u16 (b : bytes) (off : Z) : outcome (Z * Z) :=
  if off + 2 >? zlen b then corrupt
  else h ← slice_o b off (off + 2); Ok (le_get h, off + 2).

Fixpoint decode_cols (n : nat) (b : bytes) (off : Z) (acc : list ColumnDef)
  : outcome (list ColumnDef * Z) :=
  match n with
  | O => Ok (acc, off)
  | S n =>
      r ← take_str b off;
      let '(cn, off) := r in
      if off + 2 >? zlen b then corrupt
      else
        ty ← index b (Z.to_nat off);
        fl ← index b (Z.to_nat (off + 1));
        let flags := b2z fl in
        let c := MkCol cn (b2z ty) (negb (Z.land flags 1 =? 0)) (negb (Z.land flags 4 =? 0))
                   (negb (Z.land flags 2 =? 0)) (negb (Z.land flags 8 =? 0)) in
        decode_cols n b (off + 2) (acc ++ [c])
  end.

Fixpoint decode_strs (n : nat) (b : bytes) (off : Z) (acc : list bytes) : outcome (list bytes * Z) :=
  match n with
  | O => Ok (acc, off)
  | S n => r ← take_str b off; decode_strs n b (snd r) (acc ++ [fst r])
  end.

Fixpoint decode_indexes (n : nat) (b : bytes) (off : Z) (acc : list IndexDef)
  : outcome (list IndexDef * Z) :=
  match n with
  | O => Ok (acc, off)
  | S n =>
      r ← take_str b off;
      let '(name, off) := r in
      r ← take_u16 b off;
      let '(ncol, off) := r in
      r ← decode_strs (Z.to_nat ncol) b off [];
      let '(cols, off) := r in
      if off >=? zlen b then corrupt
      else
        fl ← index b (Z.to_nat off);
        decode_indexes n b (off + 1)
          (acc ++ [MkIndex name cols (negb (Z.land (b2z fl) 2 =? 0))])
  end.

Definition decodeCreateTable (b : bytes) : outcome (Z * TableDef) :=
  if zlen b <? 4 then corrupt
  else
    h ← slice_o b 0 2;
    let tableID := le_get h in
    r ← take_str b 2;
    let '(name, off) := r in
    r ← take_u16 b off;
    let '(ncols, off) := r in
    r ← decode_cols (Z.to_nat ncols) b off [];
    let '(cols, off) := r in
    if off =? zlen b then Ok (tableID, MkTable name cols [])
    else
      r ← take_u16 b off;
      let '(nidx, off) := r in
      r ← decode_indexes (Z.to_nat nidx) b off [];
      let '(ixs, off) := r in
      if negb (off =? zlen b) then corrupt
      else Ok (tableID, MkTable name cols ixs).

Definition decodeDropTable (b : bytes) : outcome bytes :=
  r ← getLenStr b;
  if negb (snd r =? zlen b) then corrupt else Ok (fst r).

(** ** Round trips *)

Lemma checkU16_ok n : checkU16 n = Ok tt <-> n < 2 ^ 16.
Proof.
  unfold checkU16. rewrite Z.gtb_ltb. destruct (Z.ltb_spec 65535 n); split; try done; lia.
Qed.

Lemma all_ok_Forall {A} (f : A -> outcome unit) l :
  all_ok f l = Ok tt <-> Forall (fun x => f x = Ok tt) l.
Proof.
  induction l as [|x l IH]; cbn [all_ok]; [split; [constructor|done]|].
  rewrite bind_Ok, List.Forall_cons_iff, <- IH. split.
  - intros ([] & H & H'). done.
  - intros [H H']. exists tt. done.
Qed.

Definition str_bytes (s : bytes) : bytes := le_put 2 (u16 (zlen s)) ++ s.
Definition col_bytes (c : ColumnDef) : bytes :=
  str_bytes (c_Name c) ++ [z2b (c_Type c); z2b (col_flags c)].
Definition index_bytes (ix : IndexDef) : bytes :=
  str_bytes (ix_Name ix) ++ le_put 2 (u16 (zlen (ix_Columns ix))) ++
  flat_map str_bytes (ix_Columns ix) ++ [z2b (if ix_Ordered ix then 2 else 0)].

Lemma put_str_bytes buf s : put_str buf s = buf ++ str_bytes s.
Proof. unfold put_str, appendU16LE, str_bytes. by rewrite <- app_assoc. Qed.

Lemma fold_append {A} (f : bytes -> A -> bytes) (g : A -> bytes) l buf :
  (forall b x, f b x = b ++ g x) -> fold_left f l buf = buf ++ flat_map g l.
Proof.
  intros H. revert buf. induction l as [|x l IH]; intros buf; simpl; [by rewrite app_nil_r|].
  by rewrite IH, H, app_assoc.
Qed.

Lemma encodeCreateTable_bytes tableID td :
  encodeCreateTable [] tableID td =
    le_put 2 tableID ++ str_bytes (t_Name td) ++ le_put 2 (u16 (zlen (t_Columns td))) ++
    flat_map col_bytes (t_Columns td) ++ le_put 2 (u16 (zlen (t_Indexes td))) ++
    flat_map index_bytes (t_Indexes td).
Proof.
  unfold encodeCreateTable.
  rewrite (fold_append encode_index index_bytes), (fold_append encode_col col_bytes).
  - rewrite put_str_bytes. unfold appendU16LE. cbn [app]. by rewrite <- !app_assoc.
  - intros b c. unfold encode_col, col_bytes. rewrite put_str_bytes.
    cbv zeta. by rewrite <- !app_assoc.
  - intros b ix. unfold encode_index, index_bytes.
    rewrite (fold_append put_str str_bytes) by apply put_str_bytes.
    rewrite put_str_bytes. unfold appendU16LE. cbv zeta. by rewrite <- !app_assoc.
Qed.

Lemma zlen_str_bytes s : zlen (str_bytes s) = 2 + zlen s.
Proof. unfold str_bytes. by zlens. Qed.

Lemma getLenStr_ok s rest : zlen s < 2 ^ 16 -> getLenStr (str_bytes s ++ rest) = Ok (s, 2 + zlen s).
Proof.
  intros Hs. unfold getLenStr. pose proof (zlen_pos s). pose proof (zlen_pos rest).
  assert (Hl : zlen (str_bytes s ++ rest) = 2 + zlen s + zlen rest)
    by (rewrite zlen_app, zlen_str_bytes; lia).
  rewrite Hl. destruct (Z.ltb_spec (2 + zlen s + zlen rest) 2); [lia|].
  unfold str_bytes. rewrite <- app_assoc.
  rewrite slice_o_head by (by zlens). cbn [mbind outcome_bind].
  rewrite u16_small, le_get_put by (simpl; lia). rewrite gtb_false by lia.
  by rewrite slice_o_mid by (zlens; lia).
Qed.

Lemma take_str_ok p s rest off : off = zlen p -> zlen s < 2 ^ 16 ->
  take_str (p ++ str_bytes s ++ rest) off = Ok (s, zlen (p ++ str_bytes s)).
Proof.
  intros -> Hs. unfold take_str. rewrite slice_o_tail by (zlens; lia). cbn [mbind outcome_bind].
  rewrite getLenStr_ok by done. cbn [mbind outcome_bind fst snd]. do 2 f_equal.
  rewrite zlen_app, zlen_str_bytes. done.
Qed.

Lemma take_u16_ok p n rest off : off = zlen p -> 0 <= n < 2 ^ 16 ->
  take_u16 (p ++ le_put 2 (u16 n) ++ rest) off = Ok (n, zlen (p ++ le_put 2 (u16 n))).
Proof.
  intros -> Hn. unfold take_u16. pose proof (zlen_pos rest).
  rewrite gtb_false by (zlens; lia). rewrite slice_o_mid by (by zlens). cbn [mbind outcome_bind].
  rewrite u16_small, le_get_put by (simpl; lia). by zlens.
Qed.

Lemma index_app_mid (p : bytes) x rest i : i = length p -> index (p ++ x :: rest) i = Ok x.
Proof. intros ->. apply index_Ok. by rewrite lookup_app_r, Nat.sub_diag by lia. Qed.

Definition col_wire (c : ColumnDef) : Prop := zlen (c_Name c) < 2 ^ 16 /\ 0 <= c_Type c < 256.
Definition index_wire (ix : IndexDef) : Prop :=
  zlen (ix_Name ix) < 2 ^ 16 /\ zlen (ix_Columns ix) < 2 ^ 16 /\
  Forall (fun s => zlen s < 2 ^ 16) (ix_Columns ix).

Lemma col_flags_back c rest_ty :
  let fl := b2z (z2b (col_flags c)) in
  MkCol (c_Name c) rest_ty (negb (Z.land fl 1 =? 0)) (negb (Z.land fl 4 =? 0))
    (negb (Z.land fl 2 =? 0)) (negb (Z.land fl 8 =? 0)) =
  MkCol (c_Name c) rest_ty (c_PK c) (c_Immutable c) (c_PartitionKey c) (c_Nullable c).
Proof. destruct c as [n t [] [] [] []]; reflexivity. Qed.

Lemma decode_cols_ok cols p rest acc : Forall col_wire cols ->
  decode_cols (length cols) (p ++ flat_map col_bytes cols ++ rest) (zlen p) acc =
    Ok (acc ++ cols, zlen (p ++ flat_map col_bytes cols)).
Proof.
  intros H. revert p acc. induction H as [|c cols [Hn Ht] Hc IH]; intros p acc.
  - cbn [decode_cols length flat_map]. by rewrite !app_nil_r.
  - cbn [decode_cols length flat_map]. rewrite <- app_assoc.
    change (col_bytes c) with (str_bytes (c_Name c) ++ [z2b (c_Type c); z2b (col_flags c)]).
    rewrite <- !app_assoc.
    rewrite take_str_ok by done. cbn [mbind outcome_bind].
    set (q := p ++ str_bytes (c_Name c)).
    rewrite (app_assoc p). fold q. cbn [app].
    pose proof (zlen_pos (flat_map col_bytes cols ++ rest)).
    rewrite gtb_false by (rewrite zlen_app, !zlen_cons; lia).
    rewrite (index_app_mid q _ _ (Z.to_nat (zlen q))) by (apply to_nat_zlen).
    cbn [mbind outcome_bind].
    change (q ++ z2b (c_Type c) :: z2b (col_flags c) :: flat_map col_bytes cols ++ rest)
      with (q ++ [z2b (c_Type c)] ++ z2b (col_flags c) :: flat_map col_bytes cols ++ rest).
    rewrite (app_assoc q).
    rewrite index_app_mid by (change 1 with (zlen [z2b (c_Type c)]); rewrite <- zlen_app; apply to_nat_zlen).
    cbn [mbind outcome_bind].
    rewrite col_flags_back, b2z_z2b, Z.mod_small by done.
    replace (MkCol (c_Name c) (c_Type c) (c_PK c) (c_Immutable c) (c_PartitionKey c) (c_Nullable c))
      with c by (by destruct c).
    specialize (IH (q ++ [z2b (c_Type c); z2b (col_flags c)]) (acc ++ [c])).
    rewrite zlen_app in IH. change (zlen [z2b (c_Type c); z2b (col_flags c)]) with 2 in IH.
    rewrite <- !app_assoc in IH |- *. cbn [app] in *. rewrite IH.
    do 2 f_equal; [by rewrite <- app_assoc | unfold q; by rewrite <- !app_assoc].
Qed.

Lemma decode_strs_ok l p rest acc : Forall (fun s => zlen s < 2 ^ 16) l ->
  decode_strs (length l) (p ++ flat_map str_bytes l ++ rest) (zlen p) acc =
    Ok (acc ++ l, zlen (p ++ flat_map str_bytes l)).
Proof.
  intros H. revert p acc. induction H as [|s l Hs Hl IH]; intros p acc.
  - cbn [decode_strs length flat_map]. by rewrite !app_nil_r.
  - cbn [decode_strs length flat_map]. rewrite <- !app_assoc, take_str_ok by done.
    cbn [mbind outcome_bind fst snd]. rewrite (app_assoc p), IH, <- !app_assoc. done.
Qed.

Lemma decode_indexes_ok ixs p rest acc : Forall index_wire ixs ->
  decode_indexes (length ixs) (p ++ flat_map index_bytes ixs ++ rest) (zlen p) acc =
    Ok (acc ++ ixs, zlen (p ++ flat_map index_bytes ixs)).
Proof.
  intros H. revert p acc. induction H as [|ix ixs (Hn & Hc & Hf) Hs IH]; intros p acc.
  - cbn [decode_indexes length flat_map]. by rewrite !app_nil_r.
  - cbn [decode_indexes length flat_map].
    change (index_bytes ix) with (str_bytes (ix_Name ix) ++ le_put 2 (u16 (zlen (ix_Columns ix))) ++
      flat_map str_bytes (ix_Columns ix) ++ [z2b (if ix_Ordered ix then 2 else 0)]).
    rewrite <- !app_assoc.
    rewrite take_str_ok by done. cbn [mbind outcome_bind].
    rewrite (app_assoc p). set (q := p ++ str_bytes (ix_Name ix)).
    pose proof (zlen_pos (ix_Columns ix)).
    rewrite take_u16_ok by (done || lia). cbn [mbind outcome_bind].
    replace (Z.to_nat (zlen (ix_Columns ix))) with (length (ix_Columns ix)) by (unfold zlen; lia).
    rewrite (app_assoc q). set (q2 := q ++ le_put 2 (u16 (zlen (ix_Columns ix)))).
    rewrite decode_strs_ok by done. cbn [mbind outcome_bind app].
    rewrite (app_assoc q2). set (q3 := q2 ++ flat_map str_bytes (ix_Columns ix)).
    set (fl := z2b (if ix_Ordered ix then 2 else 0)).
    pose proof (zlen_pos (flat_map index_bytes ixs ++ rest)).
    destruct (Z.geb_spec (zlen q3) (zlen (q3 ++ fl :: flat_map index_bytes ixs ++ rest))) as [C|_].
    { rewrite zlen_app, zlen_cons in C. lia. }
    rewrite index_app_mid by (apply to_nat_zlen). cbn [mbind outcome_bind].
    replace (MkIndex (ix_Name ix) (ix_Columns ix) (negb (Z.land (b2z fl) 2 =? 0))) with ix
      by (unfold fl; by destruct ix as [? ? []]).
    specialize (IH (q3 ++ [fl]) (acc ++ [ix])). rewrite zlen_app in IH.
    change (zlen [fl]) with 1 in IH. rewrite <- !app_assoc in IH. cbn [app] in *. rewrite IH.
    do 2 f_equal. unfold q3, q2, q. by rewrite <- !app_assoc.
Qed.

Lemma wire_def_ok td : validateCatalogWireDef td = Ok tt ->
  zlen (t_Name td) < 2 ^ 16 /\ zlen (t_Columns td) < 2 ^ 16 /\ zlen (t_Indexes td) < 2 ^ 16 /\
  Forall (fun c => zlen (c_Name c) < 2 ^ 16) (t_Columns td) /\ Forall index_wire (t_Indexes td).
Proof.
  unfold validateCatalogWireDef. intros H.
  apply bind_Ok in H as ([] & H1%checkU16_ok & H).
  apply bind_Ok in H as ([] & H2%checkU16_ok & H).
  apply bind_Ok in H as ([] & H3%all_ok_Forall & H).
  apply bind_Ok in H as ([] & H4%checkU16_ok & H5%all_ok_Forall).
  repeat (split; [done|]). split.
  - eapply Forall_impl; [|exact H3]. intros c. cbv beta. apply checkU16_ok.
  - eapply Forall_impl; [|exact H5]. intros ix. cbv beta. intros H.
    apply bind_Ok in H as ([] & G1%checkU16_ok & H).
    apply bind_Ok in H as ([] & G2%checkU16_ok & G3%all_ok_Forall).
    split; [done|]. split; [done|]. eapply Forall_impl; [|exact G3]. intros s. apply checkU16_ok.
Qed.

(** A definition CREATE accepts is journaled losslessly. *)
Lemma decode_encode_create tableID td :
  0 <= tableID < 2 ^ 16 -> validateCatalogWireDef td = Ok tt ->
  Forall (fun c => 0 <= c_Type c < 256) (t_Columns td) ->
  decodeCreateTable (encodeCreateTable [] tableID td) = Ok (tableID, td).
Proof.
  intros Hid Hv Hty. apply wire_def_ok in Hv as (Hn & Hc & Hi & Hcn & Hix).
  assert (Hcols : Forall col_wire (t_Columns td)).
  { apply List.Forall_forall. intros c Hin. rewrite List.Forall_forall in Hcn, Hty. split; auto. }
  rewrite encodeCreateTable_bytes. unfold decodeCreateTable.
  set (cb := flat_map col_bytes (t_Columns td)). set (ib := flat_map index_bytes (t_Indexes td)).
  pose proof (zlen_pos (t_Columns td)). pose proof (zlen_pos (t_Indexes td)).
  pose proof (zlen_pos (t_Name td)). pose proof (zlen_pos cb). pose proof (zlen_pos ib).
  match goal with |- context [zlen ?b <? 4] => set (B := b) end.
  assert (HB : zlen B = 8 + zlen (t_Name td) + zlen cb + zlen ib).
  { unfold B. rewrite !zlen_app, zlen_str_bytes, !zlen_le_put. lia. }
  rewrite HB at 1. destruct (Z.ltb_spec (8 + zlen (t_Name td) + zlen cb + zlen ib) 4); [lia|].
  assert (E0 : slice_o B 0 2 = Ok (le_put 2 tableID)) by (apply slice_o_head; by zlens).
  rewrite E0. cbn [mbind outcome_bind]. rewrite le_get_put by (simpl; lia).
  assert (E1 : take_str B 2 = Ok (t_Name td, zlen (le_put 2 tableID ++ str_bytes (t_Name td))))
    by (apply take_str_ok; [by zlens|done]).
  rewrite E1. cbn [mbind outcome_bind]. set (q := le_put 2 tableID ++ str_bytes (t_Name td)).
  assert (EB : B = q ++ le_put 2 (u16 (zlen (t_Columns td))) ++ cb ++
            le_put 2 (u16 (zlen (t_Indexes td))) ++ ib) by (unfold B, q; by rewrite <- !app_assoc).
  rewrite EB at 1. rewrite take_u16_ok by (done || lia). cbn [mbind outcome_bind].
  replace (Z.to_nat (zlen (t_Columns td))) with (length (t_Columns td)) by (unfold zlen; lia).
  set (q2 := q ++ le_put 2 (u16 (zlen (t_Columns td)))) in *.
  assert (EB2 : B = q2 ++ cb ++ le_put 2 (u16 (zlen (t_Indexes td))) ++ ib)
    by (rewrite EB; unfold q2; by rewrite <- !app_assoc).
  rewrite EB2 at 1. rewrite decode_cols_ok by done. cbn [mbind outcome_bind app]. fold cb.
  assert (EB3 : B = (q2 ++ cb) ++ le_put 2 (u16 (zlen (t_Indexes td))) ++ ib)
    by (rewrite EB2; by rewrite <- !app_assoc).
  destruct (Z.eqb_spec (zlen (q2 ++ cb)) (zlen B)) as [C|_].
  { rewrite EB3, !zlen_app, !zlen_le_put in C. lia. }
  rewrite EB3 at 1. rewrite take_u16_ok by (done || lia). cbn [mbind outcome_bind].
  replace (Z.to_nat (zlen (t_Indexes td))) with (length (t_Indexes td)) by (unfold zlen; lia).
  set (q3 := (q2 ++ cb) ++ le_put 2 (u16 (zlen (t_Indexes td)))).
  assert (EB4 : B = q3 ++ ib ++ []) by (rewrite EB3, app_nil_r; unfold q3; by rewrite <- !app_assoc).
  rewrite EB4 at 1. rewrite decode_indexes_ok by done. cbn [mbind outcome_bind app]. fold ib.
  rewrite EB4, app_nil_r, Z.eqb_refl. cbn [negb]. by destruct td.
Qed.

Lemma drop_table_roundtrip name : zlen name < 2 ^ 16 ->
  decodeDropTable (encodeDropTable [] name) = Ok name.
Proof.
  intros H. unfold decodeDropTable, encodeDropTable. rewrite put_str_bytes. cbn [app].
  pose proof (getLenStr_ok name [] H) as E. rewrite app_nil_r in E. rewrite E.
  cbn [mbind outcome_bind fst snd]. by rewrite zlen_str_bytes, Z.eqb_refl.
Qed.

(** C34: CREATE and DROP records are lossless: a definition that passes the wire
    check decodes to the same id, columns, flags and indexes. *)
Theorem catalog_roundtrip tableID td :
  0 <= tableID < 2 ^ 16 -> validateCatalogWireDef td = Ok tt ->
  Forall (fun c => 0 <= c_Type c < 256) (t_Columns td) ->
  decodeCreateTable (encodeCreateTable [] tableID td) = Ok (tableID, td) /\
  decodeDropTable (encodeDropTable [] (t_Name td)) = Ok (t_Name td).
Proof.
  intros Hid Hv Hty. split; [by apply decode_encode_create|].
  apply drop_table_roundtrip. by apply wire_def_ok in Hv as [? _].
Qed.

Lemma catalog_roundtrip_witness :
  decodeCreateTable (encodeCreateTable [] 7 users_def) = Ok (7, users_def) /\
  decodeDropTable (encodeDropTable [] (t_Name users_def)) = Ok (t_Name users_def).
Proof.
  apply catalog_roundtrip; [lia|reflexivity|].
  repeat constructor; simpl; unfold TypeUUID, TypeInt, TypeString; lia.
Defined.

(** ** Arbitrary CREATE and DROP records decode cleanly *)
Lemma getLenStr_clean b : clean (fun r => 0 <= snd r <= zlen b) (getLenStr b).
Proof.
  unfold getLenStr. destruct (Z.ltb_spec (zlen b) 2); [done|].
  apply clean_slice; [lia..|]. intros h Hh. pose proof (le_get_lt h 2 ltac:(lia)).
  rewrite Z.gtb_ltb. destruct (Z.ltb_spec (zlen b) (2 + le_get h)); [done|].
  apply clean_slice; [lia..|]. intros s Hs. simpl. lia.
Qed.

Lemma take_str_clean b off : 0 <= off <= zlen b ->
  clean (fun r => off <= snd r <= zlen b) (take_str b off).
Proof.
  intros Ho. unfold take_str. apply clean_slice; [lia..|]. intros t Ht.
  eapply clean_bind; [apply getLenStr_clean|]. intros [s n] Hn. simpl in *. lia.
Qed.

Lemma take_u16_clean b off : 0 <= off ->
  clean (fun r => snd r = off + 2 /\ off + 2 <= zlen b) (take_u16 b off).
Proof.
  intros Ho. unfold take_u16. rewrite Z.gtb_ltb. destruct (Z.ltb_spec (zlen b) (off + 2)); [done|].
  apply clean_slice; [lia..|]. intros h Hh. simpl. lia.
Qed.

Lemma clean_index {B} (Q : B -> Prop) (b : bytes) off (k : _ -> outcome B) :
  0 <= off < zlen b -> (forall x, clean Q (k x)) -> clean Q (index b (Z.to_nat off) ≫= k).
Proof.
  intros Ho Hk. destruct (index_lt b (Z.to_nat off)) as (x & -> & _); [unfold zlen in Ho; lia|].
  apply Hk.
Qed.

Lemma decode_cols_clean n b off acc : 0 <= off <= zlen b ->
  clean (fun r => 0 <= snd r <= zlen b) (decode_cols n b off acc).
Proof.
  revert off acc. induction n as [|n IH]; intros off acc Ho; cbn [decode_cols]; [simpl; lia|].
  eapply clean_bind; [by apply take_str_clean|]. intros [cn off'] Hn. cbn [snd] in Hn.
  rewrite Z.gtb_ltb. destruct (Z.ltb_spec (zlen b) (off' + 2)); [done|].
  apply clean_index; [lia|]. intros ty. apply clean_index; [lia|]. intros fl. apply IH. lia.
Qed.

Lemma decode_strs_clean n b off acc : 0 <= off <= zlen b ->
  clean (fun r => 0 <= snd r <= zlen b) (decode_strs n b off acc).
Proof.
  revert off acc. induction n as [|n IH]; intros off acc Ho; cbn [decode_strs]; [simpl; lia|].
  eapply clean_bind; [by apply take_str_clean|]. intros [s off'] Hn. cbn [snd] in Hn.
  apply IH. simpl. lia.
Qed.

Lemma decode_indexes_clean n b off acc : 0 <= off <= zlen b ->
  clean (fun r => 0 <= snd r <= zlen b) (decode_indexes n b off acc).
Proof.
  revert off acc. induction n as [|n IH]; intros off acc Ho; cbn [decode_indexes]; [simpl; lia|].
  eapply clean_bind; [by apply take_str_clean|]. intros [s o1] H1. cbn [snd] in H1.
  eapply clean_bind; [apply take_u16_clean; lia|]. intros [nc o2] H2. cbn [snd] in H2.
  eapply clean_bind; [apply decode_strs_clean; lia|]. intros [cols o3] H3. cbn [snd] in H3.
  destruct (Z.geb_spec o3 (zlen b)); [done|]. apply clean_index; [lia|]. intros fl. apply IH. lia.
Qed.

(** On arbitrary bytes the catalog decoders answer a definition or
    ErrWALCorrupt, never reading out of range. *)
Theorem catalog_decoders_total b :
  clean (fun _ => True) (decodeCreateTable b) /\ clean (fun _ => True) (decodeDropTable b).
Proof.
  split.
  - unfold decodeCreateTable. destruct (Z.ltb_spec (zlen b) 4); [done|].
    apply clean_slice; [lia..|]. intros h Hh.
    eapply clean_bind; [apply take_str_clean; lia|]. intros [name o1] H1. cbn [snd] in H1.
    eapply clean_bind; [apply take_u16_clean; lia|]. intros [nc o2] H2. cbn [snd] in H2.
    eapply clean_bind; [apply decode_cols_clean; lia|]. intros [cols o3] H3. cbn [snd] in H3.
    destruct (o3 =? zlen b); [done|].
    eapply clean_bind; [apply take_u16_clean; lia|]. intros [ni o4] H4. cbn [snd] in H4.
    eapply clean_bind; [apply decode_indexes_clean; lia|]. intros [ixs o5] H5.
    by destruct (negb _).
  - unfold decodeDropTable. eapply clean_bind; [apply getLenStr_clean|]. intros [s n] _.
    by destruct (negb _).
Qed.

(** ** The registry *)

(** A registered table; its storage lives elsewhere, under the same id. *)
Record tableRT : Type := MkTableRT { tableID : Z; table : resolvedTable }.
Definition rt_name (rt : tableRT) : bytes := t_Name (rt_def (table rt)).

Record catalog : Type := MkCatalog {
  version : Z;
  byName : gmap bytes tableRT;
  byID : list (option tableRT);
}.

Definition withTable (c : catalog) (rt : tableRT) : catalog :=
  let id := Z.to_nat (tableID rt) in
  let ids := byID c ++ replicate (S id - length (byID c)) None in
  MkCatalog (u64 (version c + 1)) (<[rt_name rt := rt]> (byName c)) (<[id := Some rt]> ids).

Definition withoutTable (c : catalog) (name : bytes) : catalog :=
  MkCatalog (u64 (version c + 1)) (delete name (byName c))
    (match byName c !! name with
     | Some old =>
         if (Z.to_nat (tableID old) <? length (byID c))%nat
         then <[Z.to_nat (tableID old) := None]> (byID c) else byID c
     | None => byID c
     end).

(** The bootstrap catalog. *)
Fixpoint boot_tables (ts : list TableDef) (resolved : gmap bytes resolvedTable) (i : Z) (c : catalog)
  : outcome catalog :=
  match ts with
  | [] => Ok c
  | td :: ts =>
      match resolved !! t_Name td with
      | None => Panic
      | Some r =>
          let rt := MkTableRT (u16 i) r in
          boot_tables ts resolved (i + 1)
            (MkCatalog (version c) (<[t_Name td := rt]> (byName c)) (byID c ++ [Some rt]))
      end
  end.
Definition newCatalog (schema : list TableDef) : outcome catalog :=
  if zlen schema >? 65535 + 1 then Err ErrTooManyTables
  else resolved ← resolveSchema schema; boot_tables schema resolved 0 (MkCatalog 1 ∅ []).

Definition reservedTablePrefix : bytes := lit "_hz_".

Section ddl.
Context {J : Type} `{Journal J}.

(** createTable: the new catalog, the journal, and the error if any. *)
Definition createTable (cur : catalog) (w : option J) (td : TableDef)
  : catalog * option J * outcome unit :=
  match byName cur !! t_Name td with
  | Some _ => (cur, w, Err ErrTableExists)
  | None =>
      if has_prefix (map byte_lower (t_Name td)) reservedTablePrefix then (cur, w, Err ErrReservedName)
      else if zlen (byID cur) >? 65535 then (cur, w, Err ErrTooManyTables)
      else match validateCatalogWireDef td with
      | Err e => (cur, w, Err e)
      | Panic => (cur, w, Panic)
      | Ok _ =>
          match resolveSchema [td] with
          | Err e => (cur, w, Err e)
          | Panic => (cur, w, Panic)
          | Ok resolved =>
              match resolved !! t_Name td with
              | None => (cur, w, Panic)
              | Some r =>
                  let rt := MkTableRT (u16 (zlen (byID cur))) r in
                  let '(w, werr) := jwrite_opt w recCreateTable (encodeCreateTable [] (tableID rt) td) in
                  match werr with
                  | Some e => (cur, w, Err e)
                  | None => (withTable cur rt, w, Ok tt)
                  end
              end
          end
      end
  end.

Definition dropTable (cur : catalog) (w : option J) (name : bytes) : catalog * option J * outcome unit :=
  match byName cur !! name with
  | None => (cur, w, Err ErrUnknownTable)
  | Some _ =>
      match checkU16 (zlen name) with
      | Err e => (cur, w, Err e)
      | Panic => (cur, w, Panic)
      | Ok _ =>
          let '(w, werr) := jwrite_opt w recDropTable (encodeDropTable [] name) in
          match werr with
          | Some e => (cur, w, Err e)
          | None => (withoutTable cur name, w, Ok tt)
          end
      end
  end.
End ddl.

(** The catalog cases of applyReplayRecord. *)
Definition replay_catalog (c : catalog) (t : Z) (payload : bytes) : outcome catalog :=
  if t =? recCreateTable then
    r ← decodeCreateTable payload;
    let '(id, td) := r in
    resolved ← resolveSchema [td];
    match resolved !! t_Name td with
    | None => Panic
    | Some rt => Ok (withTable c (MkTableRT id rt))
    end
  else if t =? recDropTable then
    name ← decodeDropTable payload; Ok (withoutTable c name)
  else Err ErrWALCorrupt.

(** ** The registry invariant *)

(** Both indexes of the registry hold the same tables, each at its own id; the
    ids handed out are the positions of [byID], dead ones included. *)
Record cat_ok (c : catalog) : Prop := {
  co_name name rt : byName c !! name = Some rt ->
    rt_name rt = name /\ byID c !! Z.to_nat (tableID rt) = Some (Some rt);
  co_id i rt : byID c !! i = Some (Some rt) ->
    tableID rt = Z.of_nat i /\ byName c !! rt_name rt = Some rt;
  co_len : zlen (byID c) <= 2 ^ 16;
}.

(** What never changes about the ids between two states: they are only ever
    appended, and a slot changes only by losing its table. *)
Definition ids_kept (c c' : catalog) : Prop :=
  (length (byID c) <= length (byID c'))%nat /\
  forall i, (i < length (byID c))%nat ->
    byID c' !! i = byID c !! i \/ byID c' !! i = Some None.

Lemma ids_kept_refl c : ids_kept c c.
Proof. split; [done|]. by left. Qed.

Lemma ids_kept_trans a b c : ids_kept a b -> ids_kept b c -> ids_kept a c.
Proof.
  intros [H1 H2] [H3 H4]. split; [lia|]. intros i Hi.
  destruct (H4 i) as [E|E]; [lia| |by right]. rewrite E. by apply H2.
Qed.

Lemma withTable_fresh c rt : cat_ok c -> tableID rt = zlen (byID c) -> zlen (byID c) < 2 ^ 16 ->
  byName c !! rt_name rt = None ->
  byID (withTable c rt) = byID c ++ [Some rt] /\ cat_ok (withTable c rt) /\ ids_kept c (withTable c rt).
Proof.
  intros [Hn Hi Hl] Hid Hlt Hfresh.
  assert (E : byID (withTable c rt) = byID c ++ [Some rt]).
  { unfold withTable. cbn [byID]. rewrite Hid, to_nat_zlen.
    replace (S (length (byID c)) - length (byID c))%nat with 1%nat by lia.
    rewrite insert_app_r_alt by lia. by rewrite Nat.sub_diag. }
  split; [done|]. split.
  - split.
    + intros name r. cbn [withTable byName]. rewrite lookup_insert_Some.
      intros [[<- <-]|[Hne Hr]].
      * split; [done|]. rewrite E, Hid, to_nat_zlen. apply lookup_snoc_last.
      * destruct (Hn name r Hr) as [-> Hb]. split; [done|]. rewrite E. by apply lookup_snoc_old.
    + intros i r. rewrite E. intros [Hr|[-> [= ->]]]%lookup_snoc_inv.
      * destruct (Hi i r Hr) as [Ht Hb]. split; [done|]. cbn [withTable byName].
        rewrite lookup_insert_ne; [done|]. intros En. rewrite En in Hfresh. congruence.
      * split; [done|]. cbn [withTable byName]. by rewrite lookup_insert_eq.
    + rewrite E, zlen_app. change (zlen [Some rt]) with 1. lia.
  - split; [rewrite E, length_app; lia|]. intros i Hlt'. left. rewrite E. by rewrite lookup_app_l.
Qed.

Lemma withoutTable_ok c name : cat_ok c ->
  cat_ok (withoutTable c name) /\ ids_kept c (withoutTable c name) /\
  length (byID (withoutTable c name)) = length (byID c).
Proof.
  intros [Hn Hi Hl]. unfold withoutTable. destruct (byName c !! name) as [old|] eqn:Eo.
  - destruct (Hn name old Eo) as [En Eb]. pose proof (lookup_lt_Some _ _ _ Eb) as Hlt.
    destruct (Nat.ltb_spec (Z.to_nat (tableID old)) (length (byID c))); [|lia].
    split; [|split; [|by cbn [byID]; rewrite length_insert]].
    + split; cbn [byName byID].
      * intros n r [Hne Hr]%lookup_delete_Some. destruct (Hn n r Hr) as [<- Hb]. split; [done|].
        rewrite list_lookup_insert_ne; [done|]. intros E. rewrite E in Eb. congruence.
      * intros i r [(_ & [=] & _)|(Hne & Hr)]%list_lookup_insert_Some.
        destruct (Hi i r Hr) as [Ht Hb]. split; [done|].
        rewrite lookup_delete_ne; [done|]. intros E. rewrite <- E in Hb.
        assert (r = old) as -> by congruence. rewrite Ht, Nat2Z.id in Hne. done.
      * unfold zlen in *. by rewrite length_insert.
    + split; cbn [byID]; rewrite ?length_insert; [done|]. intros i Hlt'.
      destruct (decide (Z.to_nat (tableID old) = i)) as [->|].
      * right. by rewrite list_lookup_insert_eq.
      * left. by rewrite list_lookup_insert_ne.
  - split; [|split; [split; [done|by left]|done]].
    split; cbn [byName byID]; [|intros i r Hr|done].
    + intros n r [Hne Hr]%lookup_delete_Some. by apply Hn.
    + destruct (Hi i r Hr) as [Ht Hb]. split; [done|].
      rewrite lookup_delete_ne; [done|]. intros E. rewrite <- E in Hb. congruence.
Qed.

Lemma resolveSchema_one td m : resolveSchema [td] = Ok m ->
  exists rt, m = {[ t_Name td := rt ]} /\ resolve_table td = Ok rt.
Proof.
  unfold resolveSchema. cbn [resolve_tables]. destruct (_ =? 0)%nat; [done|].
  rewrite lookup_empty. intros E. inv_bind. eexists. split; [|done]. by rewrite insert_empty.
Qed.

(** ** DDL histories *)
Inductive ddl : Type := Create (td : TableDef) | Drop (name : bytes).

Definition ddl_ok (o : ddl) : Prop :=
  match o with Create td => Forall (fun c => 0 <= c_Type c < 256) (t_Columns td) | Drop _ => True end.

Definition ddl_step {J} `{Journal J} (s : catalog * option J) (o : ddl) : catalog * option J :=
  fst (match o with Create td => createTable (fst s) (snd s) td | Drop n => dropTable (fst s) (snd s) n end).

Definition jrecs {J} `{Journal J} (w : option J) : list (Z * bytes) :=
  match w with Some j => jlog j | None => [] end.

(** A journal that has failed and refuses everything from then on. *)
Definition dead {J} `{Journal J} (w : option J) : Prop :=
  exists j e, w = Some j /\ forall t p, jwrite j t p = (j, Some e).

(** What a refused statement may do to the journal. *)
Definition refused {J} `{Journal J} (w w' : option J) : Prop :=
  w' = w \/ (dead w' /\ (jrecs w' = jrecs w \/ exists r, jrecs w' = jrecs w ++ [r])).

(** One statement: either it is refused and the catalog stays, or it is journaled
    and its record replays to exactly the published catalog. *)
Definition ddl_effect {J} `{Journal J} (s s' : catalog * option J) : Prop :=
  (fst s' = fst s /\ refused (snd s) (snd s')) \/
  (exists t p, replay_catalog (fst s) t p = Ok (fst s') /\
     match snd s with
     | Some j => jrecs (snd s') = jlog j ++ [(t, p)]
     | None => snd s' = None
     end).

(** What CREATE and DROP promise, in one predicate over the step. *)
Definition ddl_post {J} `{Journal J} (s s' : catalog * option J) : Prop :=
  cat_ok (fst s') /\ ids_kept (fst s) (fst s') /\ ddl_effect s s'.

Lemma ddl_refused {J} `{Journal J} c (w w' : option J) :
  cat_ok c -> refused w w' -> ddl_post (c, w) (c, w').
Proof. intros Hc Hw. split; [done|]. split; [apply ids_kept_refl|]. by left. Qed.

Lemma jwrite_opt_err {J} `{Journal J} (w w' : option J) t p e :
  jwrite_opt w t p = (w', Some e) -> refused w w'.
Proof.
  unfold jwrite_opt. destruct w as [j|]; [|done].
  destruct (jwrite j t p) as [j' e'] eqn:E. intros [= <- ->].
  destruct (jwrite_err _ _ _ _ _ E) as [Hl Hd]. right. split; [by exists j', e|].
  destruct Hl as [Hl|Hl]; [by left|right; by eexists].
Qed.

Lemma jwrite_opt_ok {J} `{Journal J} (w w' : option J) t p :
  jwrite_opt w t p = (w', None) ->
  match w with Some j => jrecs w' = jlog j ++ [(t, p)] | None => w' = None end.
Proof.
  unfold jwrite_opt. destruct w as [j|]; [|by intros [= <-]].
  destruct (jwrite j t p) as [j' e'] eqn:E. intros [= <- ->]. by apply jwrite_ok in E.
Qed.

Lemma createTable_post {J} `{Journal J} c (w : option J) td :
  cat_ok c -> Forall (fun c => 0 <= c_Type c < 256) (t_Columns td) ->
  let '(c', w', o) := createTable c w td in
  ddl_post (c, w) (c', w') /\
  (o = Ok tt -> exists rt, resolve_table td = Ok rt /\
     byID c' = byID c ++ [Some (MkTableRT (zlen (byID c)) rt)]).
Proof.
  intros Hc Hty. unfold createTable.
  destruct (byName c !! t_Name td) eqn:En; [split; [apply ddl_refused; [done|by left]|done]|].
  destruct (has_prefix _ _); [split; [apply ddl_refused; [done|by left]|done]|].
  rewrite Z.gtb_ltb. destruct (Z.ltb_spec 65535 (zlen (byID c)));
    [split; [apply ddl_refused; [done|by left]|done]|].
  destruct (validateCatalogWireDef td) as [[]|e|] eqn:Ev;
    [|split; [apply ddl_refused; [done|by left]|done]..].
  destruct (resolveSchema [td]) as [m|e|] eqn:Er;
    [|split; [apply ddl_refused; [done|by left]|done]..].
  destruct (resolveSchema_one td m Er) as (rt & -> & Ert). rewrite lookup_singleton_eq.
  pose proof (zlen_pos (byID c)) as Hp. cbn [tableID]. rewrite u16_small by lia.
  set (r := MkTableRT (zlen (byID c)) rt).
  assert (Hname : rt_name r = t_Name td)
    by (unfold rt_name; cbn [r table]; by rewrite (resolve_table_def td rt Ert)).
  destruct (jwrite_opt w recCreateTable _) as [w' [e|]] eqn:Ew.
  { split; [|done]. apply ddl_refused; [done|]. by eapply jwrite_opt_err. }
  destruct (withTable_fresh c r Hc) as (Eb & Hc' & Hk); [done|lia|by rewrite Hname|].
  split; [|intros _; by exists rt].
  split; [done|]. split; [done|]. right.
  exists recCreateTable, (encodeCreateTable [] (zlen (byID c)) td). split.
  - unfold replay_catalog. cbn [fst]. rewrite Z.eqb_refl, decode_encode_create by (done || lia).
    cbn [mbind outcome_bind]. rewrite Er. cbn [mbind outcome_bind]. by rewrite lookup_singleton_eq.
  - cbn [snd]. by apply jwrite_opt_ok in Ew.
Qed.

Lemma dropTable_post {J} `{Journal J} c (w : option J) name :
  cat_ok c -> let '(c', w', o) := dropTable c w name in
  ddl_post (c, w) (c', w') /\ length (byID c') = length (byID c).
Proof.
  intros Hc. unfold dropTable.
  destruct (byName c !! name) eqn:En; [|split; [apply ddl_refused; [done|by left]|done]].
  destruct (checkU16 (zlen name)) as [[]|e|] eqn:Ec;
    [|split; [apply ddl_refused; [done|by left]|done]..].
  destruct (jwrite_opt w recDropTable _) as [w' [e|]] eqn:Ew.
  { split; [|done]. apply ddl_refused; [done|]. by eapply jwrite_opt_err. }
  destruct (withoutTable_ok c name Hc) as (Hc' & Hk & Hl). split; [|done].
  split; [done|]. split; [done|]. right.
  exists recDropTable, (encodeDropTable [] name). split.
  - unfold replay_catalog. cbn [fst]. change (recDropTable =? recCreateTable) with false.
    cbv iota. rewrite Z.eqb_refl, drop_table_roundtrip by (by apply checkU16_ok). done.
  - cbn [snd]. by apply jwrite_opt_ok in Ew.
Qed.

Lemma ddl_step_post {J} `{Journal J} (s : catalog * option J) o :
  cat_ok (fst s) -> ddl_ok o -> ddl_post s (ddl_step s o).
Proof.
  intros Hc Ho. destruct s as [c w]. destruct o as [td|n]; unfold ddl_step; cbn [fst snd ddl_ok] in *.
  - pose proof (createTable_post c w td Hc Ho) as P. by destruct (createTable c w td) as [[? ?] ?], P.
  - pose proof (dropTable_post c w n Hc) as P. by destruct (dropTable c w n) as [[? ?] ?], P.
Qed.

(** C33: over any history of CREATE and DROP, whatever the journal answers, the
    registry's two indexes agree, a table keeps its id for life and an id is
    never given to a second table. *)
Theorem ddl_ids_never_reused {J} `{Journal J} (s : catalog * option J) os i rt :
  cat_ok (fst s) -> Forall ddl_ok os ->
  let s' := fold_left ddl_step os s in
  cat_ok (fst s') /\ ids_kept (fst s) (fst s') /\
  ((i < length (byID (fst s)))%nat -> byID (fst s') !! i = Some (Some rt) ->
   byID (fst s) !! i = Some (Some rt)).
Proof.
  intros Hc Ho s'. assert (G : cat_ok (fst s') /\ ids_kept (fst s) (fst s')).
  { unfold s'. clear s'. revert s Hc. induction Ho as [|o os Ho Hos IH]; intros s Hc.
    - split; [done|apply ids_kept_refl].
    - destruct (ddl_step_post s o Hc Ho) as (H1 & H2 & _). destruct (IH _ H1) as [H3 H4].
      split; [done|]. by eapply ids_kept_trans. }
  destruct G as [G1 G2]. split; [done|]. split; [done|].
  intros Hi Hr. destruct G2 as [_ G2]. destruct (G2 i Hi) as [E|E]; congruence.
Qed.

(** Records replayed in order. *)
Fixpoint replay_all (c : catalog) (recs : list (Z * bytes)) : outcome catalog :=
  match recs with
  | [] => Ok c
  | (t, p) :: recs => c ← replay_catalog c t p; replay_all c recs
  end.

Lemma replay_all_snoc c recs t p c1 c2 :
  replay_all c recs = Ok c1 -> replay_catalog c1 t p = Ok c2 -> replay_all c (recs ++ [(t, p)]) = Ok c2.
Proof.
  revert c. induction recs as [|[t' p'] recs IH]; intros c; simpl.
  - intros [= ->] H2. by rewrite H2.
  - intros H1 H2. apply bind_Ok in H1 as (c' & E & H1). rewrite E. cbn [mbind outcome_bind].
    by apply IH.
Qed.

(** After the journal died nothing changes any more. *)
Lemma dead_step {J} `{Journal J} (s : catalog * option J) o : dead (snd s) -> ddl_step s o = s.
Proof.
  intros (j & e & Ej & Hd). destruct s as [c w]. cbn [snd] in Ej. subst w.
  assert (W : forall t p, jwrite_opt (Some j) t p = (Some j, Some e)).
  { intros t p. unfold jwrite_opt. by rewrite Hd. }
  unfold ddl_step, createTable, dropTable. destruct o as [td|n]; cbn [fst snd].
  - destruct (byName c !! t_Name td); [done|]. destruct (has_prefix _ _); [done|].
    destruct (_ >? _); [done|]. destruct (validateCatalogWireDef td); [|done..].
    destruct (resolveSchema [td]) as [m| |]; [|done..]. destruct (m !! t_Name td); [|done].
    by rewrite W.
  - destruct (byName c !! n); [|done]. destruct (checkU16 (zlen n)); [|done..]. by rewrite W.
Qed.

(** C20: whatever the journal answers, the records of a DDL history replay to
    exactly the published catalog, ids and version included; a failing journal
    may hold one record more, and then nothing follows it. *)
Theorem ddl_replays {J} `{Journal J} (j : J) c os :
  cat_ok c -> Forall ddl_ok os ->
  let s' := fold_left ddl_step os (c, Some j) in
  exists recs extra, jrecs (snd s') = jlog j ++ recs ++ extra /\ replay_all c recs = Ok (fst s') /\
    (extra = [] \/ (length extra = 1%nat /\ dead (snd s'))).
Proof.
  intros Hc Ho. cbv zeta.
  assert (G : forall s recs extra, cat_ok (fst s) -> is_Some (snd s) ->
    jrecs (snd s) = jlog j ++ recs ++ extra -> replay_all c recs = Ok (fst s) ->
    (extra = [] \/ (length extra = 1%nat /\ dead (snd s))) ->
    exists recs extra, jrecs (snd (fold_left ddl_step os s)) = jlog j ++ recs ++ extra /\
      replay_all c recs = Ok (fst (fold_left ddl_step os s)) /\
      (extra = [] \/ (length extra = 1%nat /\ dead (snd (fold_left ddl_step os s))))).
  2: { apply (G (c, Some j) [] []); [done|by eexists|by rewrite app_nil_r|done|by left]. }
  induction Ho as [|o os Ho Hos IH]; intros s recs extra H1 H2 H3 H4 H5; [by exists recs, extra|].
  cbn [fold_left]. destruct H5 as [->|[Hx Hd]].
  2: { rewrite dead_step by done. apply (IH s recs extra); auto. }
  destruct (ddl_step_post s o H1 Ho) as (C1 & _ & [[Ef R]|(t & p & Er & Hj)]).
  - destruct R as [Ew|[Hd [Ej|[r Ej]]]].
    + apply (IH _ recs []); rewrite ?Ew, ?Ef; auto.
    + apply (IH _ recs []); rewrite ?Ef; auto; [|by rewrite Ej].
      destruct Hd as (? & ? & -> & _). by eexists.
    + apply (IH _ recs [r]); rewrite ?Ef; auto.
      * destruct Hd as (? & ? & -> & _). by eexists.
      * by rewrite Ej, H3, app_nil_r, app_assoc.
  - destruct H2 as [j0 Ej0]. rewrite Ej0 in Hj, H3. cbn [jrecs] in H3.
    apply (IH _ (recs ++ [(t, p)]) []); auto.
    + destruct (snd (ddl_step s o)); [by eexists|]. cbn [jrecs] in Hj. by destruct (jlog j0).
    + by rewrite Hj, H3, !app_nil_r, app_assoc.
    + by apply replay_all_snoc with (fst s).
Qed.

(** Resolution of a whole schema: distinct names, each resolved from its own
    definition. *)
Lemma resolve_tables_ok ts out m : resolve_tables ts out = Ok m ->
  out ⊆ m /\ NoDup (map t_Name ts) /\
  (forall td, td ∈ ts -> out !! t_Name td = None /\
     exists rt, m !! t_Name td = Some rt /\ resolve_table td = Ok rt).
Proof.
  revert out. induction ts as [|t ts IH]; intros out; cbn [resolve_tables map].
  - intros [= ->]. split; [done|]. split; [constructor|]. by intros td ?%elem_of_nil.
  - destruct (_ =? 0)%nat; [done|]. destruct (out !! t_Name t) eqn:Eo; [done|].
    intros H. apply bind_Ok in H as (rt & Ert & H). apply IH in H as (Hsub & Hnd & Hall).
    assert (Hm : m !! t_Name t = Some rt).
    { eapply lookup_weaken; [|exact Hsub]. by rewrite lookup_insert_eq. }
    split; [|split].
    + etransitivity; [|exact Hsub]. by apply insert_subseteq.
    + constructor; [|done]. intros (td & En & Htd)%(list_elem_of_fmap t_Name).
      destruct (Hall td Htd) as [C _]. rewrite <- En, lookup_insert_eq in C. done.
    + intros td [->|Htd]%elem_of_cons; [split; [done|by exists rt]|].
      destruct (Hall td Htd) as [C R]. split; [|done].
      apply lookup_insert_None in C. by destruct C.
Qed.

Lemma boot_tables_ok ts m c c' : boot_tables ts m (zlen (byID c)) c = Ok c' ->
  cat_ok c -> zlen (byID c) + zlen ts <= 2 ^ 16 -> NoDup (map t_Name ts) ->
  (forall td, td ∈ ts -> byName c !! t_Name td = None /\
     exists rt, m !! t_Name td = Some rt /\ rt_def rt = td) ->
  cat_ok c' /\ exists new, byID c' = byID c ++ new /\ zlen new = zlen ts /\
    forall i td, ts !! i = Some td -> exists rt,
      new !! i = Some (Some (MkTableRT (zlen (byID c) + Z.of_nat i) rt)) /\ rt_def rt = td.
Proof.
  revert c. induction ts as [|td ts IH]; intros c; cbn [boot_tables map].
  - intros [= <-] Hc _ _ _. split; [done|]. exists []. rewrite app_nil_r. done.
  - rewrite zlen_cons. intros H Hc Hl Hnd Hall. pose proof (zlen_pos ts). pose proof (zlen_pos (byID c)).
    destruct (Hall td (list_elem_of_here _ _)) as (Hn & rt & Hm & Hd). rewrite Hm in H.
    rewrite u16_small in H by lia. set (r := MkTableRT (zlen (byID c)) rt) in *.
    assert (Hname : rt_name r = t_Name td) by (unfold rt_name; cbn [r table]; by rewrite Hd).
    (* one bootstrap step is withTable, but for the version *)
    destruct (withTable_fresh c r Hc eq_refl) as (Eb & Hc1 & _); [lia|by rewrite Hname|].
    set (c1 := MkCatalog (version c) (<[t_Name td := r]> (byName c)) (byID c ++ [Some r])) in *.
    assert (Hc1' : cat_ok c1).
    { destruct Hc1 as [A B C]. rewrite Eb in A, B, C. unfold withTable in *. cbn [byName] in *.
      rewrite Hname in *. by split. }
    assert (El : zlen (byID c) + 1 = zlen (byID c1)) by (unfold c1; cbn [byID]; by rewrite zlen_app).
    rewrite El in H. apply list.NoDup_cons in Hnd as [Hni Hnd].
    destruct (IH c1 H Hc1') as (Hc' & new & En & Hz & Hnew); [lia|done| |].
    + intros td' Htd. destruct (Hall td') as [Hf R]; [by apply elem_of_cons; right|].
      split; [|done]. unfold c1. cbn [byName]. rewrite lookup_insert_ne; [done|].
      intros E. apply Hni. rewrite E. apply (list_elem_of_fmap t_Name). by exists td'.
    + split; [done|]. exists (Some r :: new). split; [|split].
      * rewrite En. unfold c1. cbn [byID]. by rewrite <- app_assoc.
      * rewrite !zlen_cons. lia.
      * intros [|i] td' Hi; cbn in Hi.
        -- injection Hi as <-. exists rt. unfold r. cbn. by rewrite Z.add_0_r.
        -- destruct (Hnew i td' Hi) as (rt' & E & Hd'). exists rt'. split; [|done].
           change ((Some r :: new) !! S i) with (new !! i). rewrite E, <- El. do 3 f_equal. lia.
Qed.

(** The bootstrap catalog gives the tables of the schema the ids 0, 1, ... in
    order and satisfies the registry invariant. *)
Theorem newCatalog_ok schema c : newCatalog schema = Ok c ->
  cat_ok c /\ zlen (byID c) = zlen schema /\
  forall i td, schema !! i = Some td -> exists rt,
    byID c !! i = Some (Some (MkTableRT (Z.of_nat i) rt)) /\ rt_def rt = td.
Proof.
  unfold newCatalog. rewrite Z.gtb_ltb.
  destruct (Z.ltb_spec (65535 + 1) (zlen schema)) as [|Hlen]; [done|]. intros H.
  apply bind_Ok in H as (m & Hm & H). apply resolve_tables_ok in Hm as (_ & Hnd & Hall).
  change 0 with (zlen (byID (MkCatalog 1 ∅ []))) in H.
  apply boot_tables_ok in H as (Hc & new & En & Hz & Hnew).
  - cbn [byID app] in *. split; [done|]. rewrite En. split; [done|]. exact Hnew.
  - split; [intros n r; cbn; by rewrite lookup_empty|done|done].
  - cbn [byID]. change (zlen []) with 0. lia.
  - done.
  - intros td Htd. split; [apply lookup_empty|]. destruct (Hall td Htd) as (_ & rt & E & R).
    exists rt. split; [done|]. by apply resolve_table_def.
Qed.

Lemma newCatalog_ok_witness :
  match newCatalog [users_def] with
  | Ok c => cat_ok c /\ zlen (byID c) = zlen [users_def] /\
      forall i td, [users_def] !! i = Some td -> exists rt,
        byID c !! i = Some (Some (MkTableRT (Z.of_nat i) rt)) /\ rt_def rt = td
  | _ => False
  end.
Proof.
  assert (E : exists c, newCatalog [users_def] = Ok c) by (eexists; vm_compute; reflexivity).
  destruct E as [c E]. rewrite E. by apply newCatalog_ok.
Defined.

Lemma ddl_ids_never_reused_witness :
  let s := (MkCatalog 1 ∅ [], Some ([] : list (Z * bytes))) in
  let os := [Create users_def; Drop (lit "users"); Create users_def] in
  let s' := fold_left ddl_step os s in
  cat_ok (fst s') /\ ids_kept (fst s) (fst s') /\
  ((0 < length (byID (fst s)))%nat -> byID (fst s') !! 0%nat = Some (Some (MkTableRT 0 users_rt)) ->
   byID (fst s) !! 0%nat = Some (Some (MkTableRT 0 users_rt))).
Proof.
  apply ddl_ids_never_reused.
  - split; [intros n r; cbn; by rewrite lookup_empty|done|done].
  - repeat constructor; simpl; unfold TypeUUID, TypeInt, TypeString; lia.
Defined.

Lemma ddl_replays_witness :
  let os := [Create users_def; Drop (lit "users"); Create users_def] in
  let s' := fold_left ddl_step os (MkCatalog 1 ∅ [], Some ([] : list (Z * bytes))) in
  exists recs extra, jrecs (snd s') = jlog ([] : list (Z * bytes)) ++ recs ++ extra /\
    replay_all (MkCatalog 1 ∅ []) recs = Ok (fst s') /\
    (extra = [] \/ (length extra = 1%nat /\ dead (snd s'))).
Proof.
  apply (ddl_replays ([] : list (Z * bytes))).
  - split; [intros n r; cbn; by rewrite lookup_empty|done|done].
  - repeat constructor; simpl; unfold TypeUUID, TypeInt, TypeString; lia.
Defined.
