(* ===== verification/Plan.v ===== *)
(** * Plan: what the planner reads off a statement (plan.go and the helpers of
    join.go it shares): parameter numbering, column binding, conjuncts, pinned
    columns and the choice of composite indexes. *)
From S2P Require Import Prelude Bytes Uuid Value Schema Ast.

#[export] Instance expr_eq_dec : EqDecision expr.
Proof. solve_decision. Defined.

(** Go's [l[z]] for an int index. *)
Definition index_z {A} (l : list A) (z : Z) : outcome A := if z <? 0 then Panic else index l (Z.to_nat z).

(** ** Statement-wide walks *)
Fixpoint has_literal (e : expr) : bool :=
  match e with
  | litValue _ => true
  | binOp _ l r => has_literal l || has_literal r
  | notExpr e | isNullExpr e _ => has_literal e
  | _ => false
  end.
Definition opt_any (f : expr -> bool) (e : option expr) : bool := match e with Some e => f e | None => false end.
Definition rejectValueLiterals (st : stmt) : outcome unit :=
  let bad :=
    match st with
    | SSelect s => opt_any has_literal (sel_where s)
    | SInsert _ _ rows => existsb (existsb has_literal) rows
    | SUpdate _ sets w => existsb (fun s => has_literal (set_val s)) sets || opt_any has_literal w
    | SDelete _ w => opt_any has_literal w
    | _ => false
    end in
  if bad then Err ErrParse else Ok tt.

(** assignParamIndices: the running count is threaded through the statement in
    source order. *)
Fixpoint number (e : expr) (n : Z) : expr * Z :=
  match e with
  | paramRef _ => (paramRef n, n + 1)
  | binOp op l r => let '(l, n) := number l n in let '(r, n) := number r n in (binOp op l r, n)
  | notExpr e => let '(e, n) := number e n in (notExpr e, n)
  | isNullExpr e not => let '(e, n) := number e n in (isNullExpr e not, n)
  | _ => (e, n)
  end.
Definition number_opt (e : option expr) (n : Z) : option expr * Z :=
  match e with Some e => let '(e, n) := number e n in (Some e, n) | None => (None, n) end.
Fixpoint number_list {A} (f : A -> Z -> A * Z) (l : list A) (n : Z) : list A * Z :=
  match l with
  | [] => ([], n)
  | e :: l => let '(e, n) := f e n in let '(l, n) := number_list f l n in (e :: l, n)
  end.
Definition number_set (s : setAssign) (n : Z) : setAssign * Z :=
  let '(v, n) := number (set_val s) n in (MkSet (set_col s) v, n).
Definition sel_set_where (s : selectStmt) (w : option expr) : selectStmt :=
  MkSelect (sel_cols s) (sel_starAll s) (sel_countStar s) (sel_table s) (sel_alias s) (sel_joins s) w
    (sel_orderCol s) (sel_orderQual s) (sel_orderDesc s) (sel_limit s) (sel_offset s).
Definition assignParamIndices (st : stmt) : stmt * Z :=
  match st with
  | SSelect s => let '(w, n) := number_opt (sel_where s) 0 in (SSelect (sel_set_where s w), n)
  | SInsert t cols rows => let '(rows, n) := number_list (number_list number) rows 0 in (SInsert t cols rows, n)
  | SUpdate t sets w =>
      let '(sets, n) := number_list number_set sets 0 in
      let '(w, n) := number_opt w n in (SUpdate t sets w, n)
  | SDelete t w => let '(w, n) := number_opt w 0 in (SDelete t w, n)
  | _ => (st, 0)
  end.

(** ** Expressions *)
Definition isLitOrParam (e : expr) : bool := match e with litValue _ | paramRef _ => true | _ => false end.
Fixpoint exprRefsColumn (e : expr) : bool :=
  match e with
  | colRef _ _ _ => true
  | binOp _ l r => exprRefsColumn l || exprRefsColumn r
  | notExpr e | isNullExpr e _ => exprRefsColumn e
  | _ => false
  end.

Definition qualifierMatches (qual table alias : bytes) : bool :=
  bool_decide (qual = []) || bool_decide (qual = table) || (negb (bool_decide (alias = [])) && bool_decide (qual = alias)).

(** validateExpr binds the columns in place; here it answers the bound tree. *)
Fixpoint validateExpr (e : expr) (rt : resolvedTable) (alias : bytes) : outcome expr :=
  match e with
  | colRef qual name _ =>
      if negb (qualifierMatches qual (t_Name (rt_def rt)) alias) then Err ErrUnknownColumn
      else match rt_colByName rt !! name with
           | None => Err ErrUnknownColumn
           | Some ord => Ok (colRef qual name (Z.of_nat ord))
           end
  | binOp op l r =>
      l ← validateExpr l rt alias;
      r ← validateExpr r rt alias;
      Ok (binOp op l r)
  | notExpr e => e ← validateExpr e rt alias; Ok (notExpr e)
  | isNullExpr e not => e ← validateExpr e rt alias; Ok (isNullExpr e not)
  | _ => Ok e
  end.
Definition validateOpt (e : option expr) (rt : resolvedTable) (alias : bytes) : outcome (option expr) :=
  match e with Some e => e ← validateExpr e rt alias; Ok (Some e) | None => Ok None end.

(** The value side of a bare [col = value], either operand order. *)
Definition detectColEq (e : expr) (rt : resolvedTable) (ordinal : Z) : outcome (option expr) :=
  match e with
  | binOp tkEq lhs rhs =>
      c ← index_z (t_Columns (rt_def rt)) ordinal;
      let named e := match e with colRef _ name _ => bool_decide (name = c_Name c) | _ => false end in
      if named lhs && isLitOrParam rhs then Ok (Some rhs)
      else if named rhs && isLitOrParam lhs then Ok (Some lhs)
      else Ok None
  | _ => Ok None
  end.
Definition detectPKEq (e : expr) (rt : resolvedTable) : outcome (option expr) := detectColEq e rt (rt_pkOrdinal rt).

Fixpoint collectConjuncts (e : expr) : list expr :=
  match e with binOp tkAnd l r => collectConjuncts l ++ collectConjuncts r | _ => [e] end.
Definition conjuncts (e : option expr) : list expr := match e with Some e => collectConjuncts e | None => [] end.

(** The columns a WHERE pins: the last [col = value] conjunct of each wins. *)
Definition pin_of (lhs rhs : expr) : option (nat * expr) :=
  match lhs, rhs with
  | colRef _ _ ord, v | v, colRef _ _ ord => if (0 <=? ord) && isLitOrParam v then Some (Z.to_nat ord, v) else None
  | _, _ => None
  end.
Fixpoint collectEqConjuncts (e : expr) (out : gmap nat expr) : gmap nat expr :=
  match e with
  | binOp tkAnd l r => collectEqConjuncts r (collectEqConjuncts l out)
  | binOp tkEq l r =>
      match pin_of l r with
      | Some (ord, v) => <[ord := v]> out
      | None => out
      end
  | _ => out
  end.
Definition pins (e : option expr) : gmap nat expr := match e with Some e => collectEqConjuncts e ∅ | None => ∅ end.

(** The column and value sides of an equality, either order. *)
Definition colAndLit (lhs rhs : expr) : option (Z * expr) :=
  match lhs, rhs with
  | colRef _ _ ord, v | v, colRef _ _ ord => if isLitOrParam v then Some (ord, v) else None
  | _, _ => None
  end.
Definition eq_parts (e : expr) : option (Z * expr) := match e with binOp tkEq l r => colAndLit l r | _ => None end.

(** ** Composite indexes *)
Fixpoint anyNullable (rt : resolvedTable) (ords : list nat) : outcome bool :=
  match ords with
  | [] => Ok false
  | o :: ords => c ← index (t_Columns (rt_def rt)) o; if c_Nullable c then Ok true else anyNullable rt ords
  end.
Fixpoint prefix_len (ords : list nat) (eqs : gmap nat expr) : nat :=
  match ords with
  | [] => 0
  | o :: ords => match eqs !! o with Some _ => S (prefix_len ords eqs) | None => 0 end
  end.
Definition compositePrefix (rt : resolvedTable) (ri : resolvedIndex) (eqs : gmap nat expr) : outcome nat :=
  if (length (ri_ordinals ri) <? 2)%nat || negb (ri_ordered ri) then Ok 0%nat
  else
    nullable ← anyNullable rt (ri_ordinals ri);
    Ok (if nullable : bool then 0%nat else prefix_len (ri_ordinals ri) eqs).
(** The map's zero value, a nil expr, cannot occur: the first [k] are pinned. *)
Definition prefixSrcs (ri : resolvedIndex) (eqs : gmap nat expr) (k : nat) : list expr :=
  omap (fun o => eqs !! o) (take k (ri_ordinals ri)).

Definition orderedIndexOn (rt : resolvedTable) (ord : nat) : bool :=
  existsb (fun ri => singleOn ri ord && ri_ordered ri) (rt_indexes rt).

(** The WHERE conjuncts a pinned prefix leaves to check. Dropping compares value
    nodes by identity; placeholders are numbered apart, so equal ones are one
    node. *)
Definition pinned_by (eqs : gmap nat expr) (ords : list nat) (c : expr) : bool :=
  match eq_parts c with
  | Some (ord, v) => (0 <=? ord) && bool_decide (Z.to_nat ord ∈ ords) && bool_decide (eqs !! Z.to_nat ord = Some v)
  | None => false
  end.
Fixpoint find_walk (rt : resolvedTable) (ixs : list resolvedIndex) (eqs : gmap nat expr) (orderOrdinal : Z)
  : outcome (option (resolvedIndex * nat)) :=
  match ixs with
  | [] => Ok None
  | ri :: ixs =>
      k ← compositePrefix rt ri eqs;
      if (k =? 0)%nat || (length (ri_ordinals ri) <=? k)%nat
         || negb (bool_decide (Z.of_nat <$> (ri_ordinals ri !! k) = Some orderOrdinal))
      then find_walk rt ixs eqs orderOrdinal
      else Ok (Some (ri, k))
  end.
Fixpoint find_prefix (rt : resolvedTable) (ixs : list resolvedIndex) (eqs : gmap nat expr) : outcome (option (resolvedIndex * nat)) :=
  match ixs with
  | [] => Ok None
  | ri :: ixs =>
      k ← compositePrefix rt ri eqs;
      if (k =? 0)%nat then find_prefix rt ixs eqs else Ok (Some (ri, k))
  end.

(** ** The access path of a plan *)
Record access : Type := MkAccess {
  pkLookup : bool;
  pkSource : option expr;
  pkProbe : option expr;
  partLookup : bool;
  partSource : option expr;
  idxLookup : bool;
  idxCols : list nat;
  idxSrcs : list expr;
  idxExact : bool;
  countIdxBucket : bool;
  orderWalk : bool;
  compLookup : bool;
  compWalk : bool;
  compOrdinals : list nat;
  compPrefixSrcs : list expr;
  compResidual : list expr;
}.
Definition scan_path : access := MkAccess false None None false None false [] [] false false false false false [] [] [].
Definition with_pk (src : expr) : access :=
  MkAccess true (Some src) None false None false [] [] false false false false false [] [] [].
Definition with_part (src : expr) : access :=
  MkAccess false None None true (Some src) false [] [] false false false false false [] [] [].
Definition with_idx (cols : list nat) (srcs : list expr) (exact count : bool) : access :=
  MkAccess false None None false None (bool_decide (cols <> [])) cols srcs exact count false false false [] [] [].
Definition with_comp_walk (ri : resolvedIndex) (k : nat) (eqs : gmap nat expr) (residual : list expr) : access :=
  MkAccess false None None false None false [] [] false false false false true (ri_ordinals ri) (prefixSrcs ri eqs k) residual.
Definition with_comp_lookup (ri : resolvedIndex) (k : nat) (eqs : gmap nat expr) : access :=
  MkAccess false None None false None false [] [] false false false true false (ri_ordinals ri) (prefixSrcs ri eqs k) [].
Definition set_orderWalk (a : access) : access :=
  MkAccess (pkLookup a) (pkSource a) (pkProbe a) (partLookup a) (partSource a) (idxLookup a) (idxCols a) (idxSrcs a) (idxExact a)
    (countIdxBucket a) true (compLookup a) (compWalk a) (compOrdinals a) (compPrefixSrcs a) (compResidual a).
Definition set_pkProbe (a : access) (src : expr) : access :=
  MkAccess (pkLookup a) (pkSource a) (Some src) (partLookup a) (partSource a) (idxLookup a) (idxCols a) (idxSrcs a) (idxExact a)
    (countIdxBucket a) (orderWalk a) (compLookup a) (compWalk a) (compOrdinals a) (compPrefixSrcs a) (compResidual a).

(** The single-column indexes on pinned columns, in declaration order. *)
Definition pinned_singles (ixs : list resolvedIndex) (eqs : gmap nat expr) : list (nat * expr) :=
  omap (fun ri => match ri_ordinals ri with [o] => (fun v => (o, v)) <$> eqs !! o | _ => None end) ixs.

Definition planPKProbe (rt : resolvedTable) (a : access) (where_ : option expr) : access :=
  if bool_decide (where_ = None) || pkLookup a || idxLookup a || partLookup a || compLookup a || compWalk a || orderWalk a then a
  else if partitioned rt then a
  else match pins where_ !! Z.to_nat (rt_pkOrdinal rt) with
       | Some src => if 0 <=? rt_pkOrdinal rt then set_pkProbe a src else a
       | None => a
       end.
Definition planIndexEq (rt : resolvedTable) (where_ : option expr) : access :=
  let l := pinned_singles (rt_indexes rt) (pins where_) in
  if bool_decide (where_ = None) || bool_decide (rt_indexes rt = []) then scan_path
  else with_idx (map fst l) (map snd l) false false.

Definition planCompositeWalk (rt : resolvedTable) (where_ : option expr) (eqs : gmap nat expr) (orderOrdinal : Z) : outcome (option access) :=
  if orderOrdinal <? 0 then Ok None
  else
    w ← find_walk rt (rt_indexes rt) eqs orderOrdinal;
    Ok (match w with
        | None => None
        | Some (ri, k) =>
            let pinned := take k (ri_ordinals ri) in
            Some (with_comp_walk ri k eqs (List.filter (fun c => negb (pinned_by eqs pinned c)) (conjuncts where_)))
        end).
Definition planCompositeLookup (rt : resolvedTable) (eqs : gmap nat expr) : outcome access :=
  w ← find_prefix rt (rt_indexes rt) eqs;
  Ok (match w with None => scan_path | Some (ri, k) => with_comp_lookup ri k eqs end).

(** The WHERE of a SELECT: the first of PK equality, partition pin, composite
    walk, indexed equalities, composite prefix that applies. *)
Definition plan_index (rt : resolvedTable) (w : expr) (orderOrdinal : Z) (countStar : bool) : outcome access :=
  let eqs := collectEqConjuncts w ∅ in
  walk ← planCompositeWalk rt (Some w) eqs orderOrdinal;
  match walk with
  | Some a => Ok a
  | None =>
      let l := pinned_singles (rt_indexes rt) eqs in
      if bool_decide (l = []) then planCompositeLookup rt eqs
      else
        let exact := bool_decide (length (collectConjuncts w) = length l) in
        let bare := match w with binOp tkEq _ _ => true | _ => false end in
        Ok (with_idx (map fst l) (map snd l) exact (countStar && (length l =? 1)%nat && bare))
  end.
Definition plan_where (rt : resolvedTable) (where_ : option expr) (orderOrdinal : Z) (countStar : bool) : outcome access :=
  match where_ with
  | None => Ok scan_path
  | Some w =>
      pk ← detectPKEq w rt;
      match pk with
      | Some src => Ok (with_pk src)
      | None =>
          if partitioned rt then
            part ← detectColEq w rt (rt_partitionOrdinal rt);
            Ok (match part with Some src => with_part src | None => scan_path end)
          else if bool_decide (rt_indexes rt = []) then Ok scan_path
          else plan_index rt w orderOrdinal countStar
      end
  end.
Definition plan_select_path (rt : resolvedTable) (where_ : option expr) (hasOrder : bool) (orderOrdinal : Z) (countStar : bool) : outcome access :=
  a ← plan_where rt where_ orderOrdinal countStar;
  a ← (if hasOrder && negb (idxLookup a) && negb (compLookup a) && negb (compWalk a) && orderedIndexOn rt (Z.to_nat orderOrdinal)
       then c ← index_z (t_Columns (rt_def rt)) orderOrdinal; Ok (if c_Nullable c then a else set_orderWalk a)
       else Ok a);
  Ok (planPKProbe rt a where_).
(** UPDATE and DELETE. *)
Definition plan_write_path (rt : resolvedTable) (where_ : option expr) : outcome access :=
  match where_ with
  | None => Ok scan_path
  | Some w =>
      pk ← detectPKEq w rt;
      match pk with
      | Some src => Ok (with_pk src)
      | None => Ok (planPKProbe rt (planIndexEq rt where_) where_)
      end
  end.
