(* ===== verification/PlanOk.v ===== *)
(** * PlanOk: the access path of a plan reads every row the WHERE can match, and
    re-checks what it does not guarantee. *)
From S2P Require Import Prelude Bytes Uuid Value Schema Ast Eval Filter Plan.

(** ** Matching, conjunct by conjunct *)
Section matches.
Context (cols : gmap bytes nat) (args : list Value) (row : Row).
Definition matches (e : expr) : Prop := exists v, eval e (MkCtx row cols args) = Ok v /\ truthy v = true.
(** The cell at [fst p] equals the value of [snd p]. *)
Definition pinned (p : nat * expr) : Prop :=
  exists cell v, row !! fst p = Some cell /\ eval (snd p) (MkCtx row cols args) = Ok v /\ Equal cell v = true.

Lemma matches_interpreted e : matches e <-> interpreted e cols args row = Ok true.
Proof.
  unfold matches, interpreted. destruct (eval e _) as [v| |]; cbn [mbind outcome_bind]; split; try done.
  - by intros (v' & [= <-] & ->).
  - intros [= H]. by exists v.
  - by intros (v' & ? & _).
  - by intros (v' & ? & _).
Qed.
Lemma matches_and l r : matches (binOp tkAnd l r) <-> matches l /\ matches r.
Proof.
  rewrite !matches_interpreted, interpreted_bin. destruct (interpreted l cols args row) as [[]| |]; cbn [mbind outcome_bind];
    (split; [intros H; split; (done || congruence)|intros [??]; (done || congruence)]).
Qed.
Lemma matches_conjuncts e : matches e <-> Forall matches (collectConjuncts e).
Proof.
  induction e as [q n o|v|i|op l IHl r IHr|e IH|e IH b]; cbn [collectConjuncts]; rewrite ?list.Forall_singleton; try done.
  destruct op; cbn [collectConjuncts]; rewrite ?list.Forall_singleton; try done. by rewrite matches_and, Forall_app, IHl, IHr.
Qed.

Context (row_ok : Forall value_ok row) (args_ok : Forall value_ok args).
Lemma Equal_comm v o : value_ok v -> value_ok o -> Equal v o = Equal o v.
Proof.
  intros Hv Ho. destruct (Equal v o) eqn:E.
  - apply Equal_spec in E; [|done..]. subst. symmetry. by apply Equal_spec.
  - destruct (Equal o v) eqn:E'; [|done]. apply Equal_spec in E'; [|done..]. subst. rewrite <- E. by apply Equal_spec.
Qed.
Definition lit_ok (e : expr) : Prop := match e with litValue v => value_ok v | _ => True end.
Lemma litparam_ok e v : isLitOrParam e = true -> lit_ok e -> eval e (MkCtx row cols args) = Ok v -> value_ok v.
Proof.
  destruct e; try done; cbn [eval lit_ok]; intros _ Hl H; [by injection H as <-|].
  destruct (param_cases args index args_ok) as [(u & E & Hu)|E]; cbn [c_args] in H; rewrite E in H; by simplify_eq.
Qed.
Lemma matches_eq l r : matches (binOp tkEq l r) <->
  exists a b, eval l (MkCtx row cols args) = Ok a /\ eval r (MkCtx row cols args) = Ok b /\ Equal a b = true.
Proof.
  unfold matches. cbn [eval eval_op]. destruct (eval l _) as [a| |]; cbn [mbind outcome_bind]; [|split; [by intros (? & ? & _)|by intros (? & ? & ? & _)]..].
  destruct (eval r _) as [b| |]; cbn [mbind outcome_bind]; [|split; [by intros (? & ? & _)|by intros (? & ? & _ & ? & _)]..]. split.
  - intros (v & [= <-] & H). rewrite truthy_Bool in H. eauto.
  - intros (? & ? & [= <-] & [= <-] & H). eexists. split; [done|]. by rewrite truthy_Bool.
Qed.
Lemma eval_col q n o : eval (colRef q n (Z.of_nat o)) (MkCtx row cols args) = index row o.
Proof. cbn [eval c_row]. rewrite (proj2 (Z.geb_le _ _)) by lia. by rewrite Nat2Z.id. Qed.
(** An equality between a column and a value is a pin. *)
Lemma matches_pin l r ord v : colAndLit l r = Some (ord, v) -> 0 <= ord -> lit_ok l -> lit_ok r ->
  matches (binOp tkEq l r) <-> pinned (Z.to_nat ord, v).
Proof.
  intros H Ho Hl Hr. rewrite matches_eq. unfold pinned. cbn [fst snd].
  assert (Hc : forall q n, eval (colRef q n ord) (MkCtx row cols args) = index row (Z.to_nat ord)).
  { intros q n. rewrite <- eval_col with (q := q) (n := n). by rewrite Z2Nat.id. }
  assert (C : (exists q n, l = colRef q n ord /\ r = v /\ isLitOrParam v = true) \/
              (exists q n, r = colRef q n ord /\ l = v /\ isLitOrParam v = true)).
  { destruct l; destruct r; cbn in H; try done; simplify_eq; eauto 10. }
  destruct C as [(q & n & -> & -> & Hv)|(q & n & -> & -> & Hv)]; rewrite Hc.
  - split; [intros (a & b & Ha%index_Ok & Hb & E); eauto|].
    intros (a & b & Ha%index_Ok & Hb & E). eauto.
  - split.
    + intros (a & b & Ha & Hb%index_Ok & E). exists b, a. split_and!; [done..|].
      rewrite Equal_comm; [done|exact (Forall_lookup_1 _ _ _ _ row_ok Hb)|by apply (litparam_ok v)].
    + intros (b & a & Hb & Ha & E). exists a, b. rewrite index_Ok. split_and!; [done..|].
      rewrite Equal_comm; [done|by apply (litparam_ok v)|exact (Forall_lookup_1 _ _ _ _ row_ok Hb)].
Qed.
End matches.

(** ** Pins *)
Definition pin_conj (c : expr) : option (nat * expr) := match c with binOp tkEq l r => pin_of l r | _ => None end.
Definition pin_list (e : expr) : list (nat * expr) := omap pin_conj (collectConjuncts e).
Definition add_pin (m : gmap nat expr) (p : nat * expr) : gmap nat expr := <[fst p := snd p]> m.

Lemma pin_of_parts l r o v : pin_of l r = Some (o, v) <-> exists ord, colAndLit l r = Some (ord, v) /\ 0 <= ord /\ o = Z.to_nat ord.
Proof.
  unfold pin_of, colAndLit. destruct l; destruct r; cbn; try (split; [done|by intros (? & ? & _)]);
    (split; [destruct (Z.leb_spec 0 ord); cbn [andb]; [intros [= <- <-]; eauto|done]
            |intros (? & [= <- <-] & Ho & ->); by rewrite (proj2 (Z.leb_le _ _) Ho)]).
Qed.
Lemma pin_conj_parts c o v : pin_conj c = Some (o, v) <-> exists ord, eq_parts c = Some (ord, v) /\ 0 <= ord /\ o = Z.to_nat ord.
Proof.
  unfold pin_conj, eq_parts. destruct c as [q n ord|u|i|op l r|e|e b]; try (split; [done|by intros (? & ? & _)]).
  destruct op; try (split; [done|by intros (? & ? & _)]). apply pin_of_parts.
Qed.
Lemma collectEq_fold e : forall out, collectEqConjuncts e out = fold_left add_pin (pin_list e) out.
Proof.
  unfold pin_list. induction e as [q n o|v|i|op l IHl r IHr|e IH|e IH b]; intros out; try done.
  destruct op; try done; cbn [collectEqConjuncts collectConjuncts omap list_omap pin_conj].
  - destruct (pin_of l r) as [[o v]|]; done.
  - rewrite IHr, IHl, omap_app, fold_left_app. done.
Qed.
Lemma fold_pins l : forall out o v, fold_left add_pin l out !! o = Some v -> (o, v) ∈ l \/ out !! o = Some v.
Proof.
  induction l as [|[o' v'] l IH]; intros out o v H; cbn [fold_left] in H; [by right|].
  apply IH in H as [H|H]; [left; by apply list_elem_of_further|]. unfold add_pin in H. cbn in H.
  destruct (decide (o' = o)) as [->|Hne]; [|rewrite lookup_insert_ne in H by done; by right].
  rewrite lookup_insert_eq in H. injection H as ->. left. constructor.
Qed.
Lemma eqs_pin e o v : collectEqConjuncts e ∅ !! o = Some v -> (o, v) ∈ pin_list e.
Proof. rewrite collectEq_fold. intros [H|H]%fold_pins; [done|]. by rewrite lookup_empty in H. Qed.
Lemma fold_pins_nodup l : NoDup (map fst l) -> forall out o v, (o, v) ∈ l -> fold_left add_pin l out !! o = Some v.
Proof.
  assert (Hout : forall l out o, o ∉ map fst l -> fold_left add_pin l out !! o = out !! o).
  { clear l. induction l as [|[o' v'] l IH]; intros out o Ho; [done|]. cbn in *. rewrite not_elem_of_cons in Ho. destruct Ho as [Hne Ho].
    rewrite IH by done. unfold add_pin. cbn. by rewrite lookup_insert_ne. }
  induction l as [|[o' v'] l IH]; intros Hn out o v H; [by apply not_elem_of_nil in H|]. cbn [map fst] in Hn.
  apply list.NoDup_cons in Hn as [Hni Hn]. cbn [fold_left]. apply elem_of_cons in H as [[= -> ->]|H]; [|by apply IH].
  rewrite Hout by done. unfold add_pin. cbn. apply lookup_insert_eq.
Qed.

(** ** Bound WHERE clauses *)
(** What validateExpr leaves: every column at the ordinal of its name. *)
Fixpoint named (rt : resolvedTable) (e : expr) : Prop :=
  match e with
  | colRef _ name ord => exists o, rt_colByName rt !! name = Some o /\ ord = Z.of_nat o
  | litValue v => value_ok v
  | paramRef _ => True
  | binOp _ l r => named rt l /\ named rt r
  | notExpr e | isNullExpr e _ => named rt e
  end.
Fixpoint lits_ok (e : expr) : Prop :=
  match e with
  | litValue v => value_ok v
  | binOp _ l r => lits_ok l /\ lits_ok r
  | notExpr e | isNullExpr e _ => lits_ok e
  | _ => True
  end.
Lemma validateExpr_named rt alias e e' : lits_ok e -> validateExpr e rt alias = Ok e' -> named rt e'.
Proof.
  revert e'. induction e as [q n o|v|i|op l IHl r IHr|e IH|e IH b]; intros e' Hl H; cbn [validateExpr lits_ok] in *.
  - destruct (negb _); [done|]. destruct (rt_colByName rt !! n) as [o'|] eqn:E; [|done]. injection H as <-. by exists o'.
  - by injection H as <-.
  - by injection H as <-.
  - inv_bind. destruct Hl. split; [by apply IHl|by apply IHr].
  - inv_bind. cbn [named]. by apply IH.
  - inv_bind. cbn [named]. by apply IH.
Qed.
Lemma named_conjuncts rt e : named rt e -> Forall (named rt) (collectConjuncts e).
Proof.
  induction e as [q n o|v|i|op l IHl r IHr|e IH|e IH b]; intros H; try (by constructor).
  destruct op; try (by constructor). destruct H. cbn [collectConjuncts]. apply Forall_app. split; [by apply IHl|by apply IHr].
Qed.
Lemma named_lit rt e : named rt e -> lit_ok e.
Proof. by destruct e. Qed.
Lemma named_parts rt c ord v : named rt c -> eq_parts c = Some (ord, v) -> 0 <= ord.
Proof.
  destruct c as [q n o|u|i|op l r|e|e b]; try done. destruct op; try done. cbn [eq_parts named]. intros [Hl Hr] H.
  unfold colAndLit in H. destruct l; destruct r; cbn in H, Hl, Hr; try done; simplify_eq;
    repeat match goal with H : exists _, _ |- _ => destruct H as (? & ? & ->) end; lia.
Qed.

Section sound.
Context (t : TableDef) (rt : resolvedTable) (Hrt : resolved_ok t rt).
Context (cols : gmap bytes nat) (args : list Value) (row : Row).
Context (row_ok : Forall value_ok row) (args_ok : Forall value_ok args).
Local Abbreviation matches := (matches cols args row).
Local Abbreviation pinned := (pinned cols args row).

Lemma pin_matches c o v : named rt c -> pin_conj c = Some (o, v) -> (matches c <-> pinned (o, v)).
Proof.
  intros Hc (ord & H & Ho & ->)%pin_conj_parts. destruct c as [q n x|u|i|op l r|e|e b]; try done. destruct op; try done.
  destruct Hc as [Hl Hr]. by apply matches_pin; try (by eapply named_lit).
Qed.
Lemma where_pins w o v : named rt w -> matches w -> collectEqConjuncts w ∅ !! o = Some v -> pinned (o, v).
Proof.
  intros Hn Hw H%eqs_pin. unfold pin_list in H. apply list_elem_of_omap in H as (c & Hc & Hp).
  pose proof (named_conjuncts _ _ Hn) as Hnc. rewrite matches_conjuncts in Hw. rewrite list.Forall_forall in Hw, Hnc.
  apply (pin_matches c); auto.
Qed.

(** *** A bare equality *)
Lemma bare_matches e ordinal src : named rt e -> detectColEq e rt (Z.of_nat ordinal) = Ok (Some src) -> (ordinal < length (t_Columns t))%nat ->
  (matches e <-> pinned (ordinal, src)).
Proof.
  intros Hn H Ho. destruct e as [q n x|u|i|op l r|e|e b]; try done. destruct op; try done. cbn [detectColEq] in H.
  unfold index_z in H. rewrite (proj2 (Z.ltb_ge _ _)) in H by lia. rewrite Nat2Z.id in H. rewrite (ro_def _ _ Hrt) in H.
  destruct (index_lt (t_Columns t) ordinal Ho) as (c & Ec & Hc). rewrite Ec in H. cbn [mbind outcome_bind] in H.
  assert (Hcol : forall q ord, named rt (colRef q (c_Name c) ord) -> ord = Z.of_nat ordinal).
  { intros q ord (o & Eo & ->). f_equal. apply (ro_cols _ _ Hrt) in Eo.
    assert (E2 : rt_colByName rt !! c_Name c = Some ordinal) by (apply (ro_cols _ _ Hrt); by exists c).
    destruct Eo as (c' & Hc' & En). assert (E3 : rt_colByName rt !! c_Name c = Some o) by (apply (ro_cols _ _ Hrt); by exists c'). congruence. }
  destruct Hn as [Hl Hr].
  assert (C : colAndLit l r = Some (Z.of_nat ordinal, src)).
  { destruct l as [q n ord|u|i|op l1 l2|e|e b]; destruct r as [q' n' ord'|u'|i'|op' r1 r2|e'|e' b']; cbn in H |- *; try done;
      repeat case_bool_decide; cbn [andb] in H; try done; simplify_eq; by erewrite (Hcol _ _) by done. }
  pose proof (matches_pin cols args row row_ok args_ok l r _ _ C ltac:(lia) (named_lit _ _ Hl) (named_lit _ _ Hr)) as G.
  by rewrite Nat2Z.id in G.
Qed.

(** *** Index choices *)
Lemma prefix_pairs eqs ords : forall k, (k <= prefix_len ords eqs)%nat ->
  Forall (fun '(o, v) => eqs !! o = Some v) (zip ords (omap (fun o => eqs !! o) (take k ords))) /\
  map fst (zip ords (omap (fun o => eqs !! o) (take k ords))) = take k ords.
Proof.
  induction ords as [|o ords IH]; intros [|k] Hk; cbn in Hk |- *; try (by split).
  destruct (eqs !! o) as [v|] eqn:E; [|lia]. destruct (IH k ltac:(lia)) as [H1 H2]. cbn. split; [by constructor|by rewrite H2].
Qed.
Lemma compositePrefix_len ri eqs k : compositePrefix rt ri eqs = Ok k -> (k <= prefix_len (ri_ordinals ri) eqs)%nat.
Proof.
  unfold compositePrefix. destruct (_ || _); [intros [= <-]; lia|]. destruct (anyNullable rt _) as [[]| |]; cbn; intros [= <-]; lia.
Qed.
Lemma find_walk_prefix ixs eqs ord ri k : find_walk rt ixs eqs ord = Ok (Some (ri, k)) ->
  (k <= prefix_len (ri_ordinals ri) eqs)%nat /\ ri ∈ ixs /\ compositePrefix rt ri eqs = Ok k /\ (0 < k)%nat.
Proof.
  induction ixs as [|ri' ixs IH]; cbn [find_walk]; [done|]. intros H. destruct (compositePrefix rt ri' eqs) as [k'| |] eqn:E; cbn [mbind outcome_bind] in H; [|done..].
  destruct ((k' =? 0)%nat || _ || _) eqn:Eb.
  - destruct (IH H) as (? & ? & ?). split_and!; try tauto. by apply list_elem_of_further.
  - injection H as <- <-. apply orb_false_iff in Eb as [Eb _]. apply orb_false_iff in Eb as [Eb _]. apply Nat.eqb_neq in Eb.
    split_and!; [by apply compositePrefix_len|constructor|done|lia].
Qed.
Lemma find_prefix_prefix ixs eqs ri k : find_prefix rt ixs eqs = Ok (Some (ri, k)) ->
  (k <= prefix_len (ri_ordinals ri) eqs)%nat /\ ri ∈ ixs /\ compositePrefix rt ri eqs = Ok k /\ (0 < k)%nat.
Proof.
  induction ixs as [|ri' ixs IH]; cbn [find_prefix]; [done|]. intros H. destruct (compositePrefix rt ri' eqs) as [k'| |] eqn:E; cbn [mbind outcome_bind] in H; [|done..].
  destruct (Nat.eqb_spec k' 0) as [Eb|Eb].
  - destruct (IH H) as (? & ? & ?). split_and!; try tauto. by apply list_elem_of_further.
  - injection H as <- <-. split_and!; [by apply compositePrefix_len|constructor|done|lia].
Qed.
Lemma eqs_pinned w l : named rt w -> matches w -> Forall (fun '(o, v) => collectEqConjuncts w ∅ !! o = Some v) l -> Forall pinned l.
Proof. intros Hn Hw Hl. eapply Forall_impl; [|exact Hl]. intros [o v] H. by apply (where_pins w). Qed.

(** The residual of a composite walk and its prefix make up the WHERE. *)
Lemma walk_matches w eqs ri k : named rt w -> eqs = collectEqConjuncts w ∅ -> (k <= prefix_len (ri_ordinals ri) eqs)%nat ->
  (matches w <-> Forall pinned (zip (ri_ordinals ri) (prefixSrcs ri eqs k)) /\
                 Forall matches (List.filter (fun c => negb (pinned_by eqs (take k (ri_ordinals ri)) c)) (collectConjuncts w))).
Proof.
  intros Hn He Hk. destruct (prefix_pairs eqs (ri_ordinals ri) k Hk) as [Hp Hf]. fold (prefixSrcs ri eqs k) in Hp, Hf.
  pose proof (named_conjuncts _ _ Hn) as Hnc. rewrite list.Forall_forall in Hnc. split.
  - intros Hw. split; [apply (eqs_pinned w); [done..|by subst]|].
    apply matches_conjuncts in Hw. rewrite list.Forall_forall in *. intros c Hc%list_elem_of_In. apply filter_In in Hc as [Hc _]. by apply Hw, list_elem_of_In.
  - intros [Hpin Hres]. apply matches_conjuncts. rewrite list.Forall_forall in Hp. rewrite list.Forall_forall in Hpin.
    rewrite list.Forall_forall in Hres. apply list.Forall_forall. intros c Hc.
    destruct (pinned_by eqs (take k (ri_ordinals ri)) c) eqn:Eb.
    + unfold pinned_by in Eb. destruct (eq_parts c) as [[ord v]|] eqn:Ec; [|done].
      apply andb_true_iff in Eb as [Eb E3]. apply andb_true_iff in Eb as [E1 E2]. apply Z.leb_le in E1.
      apply bool_decide_eq_true in E2, E3. apply (pin_matches c (Z.to_nat ord) v); [auto|apply pin_conj_parts; eauto|].
      apply Hpin. rewrite <- Hf in E2. apply list_elem_of_fmap in E2 as ([o' v'] & Eo & H). cbn in Eo. subst o'.
      pose proof (Hp _ H) as Ev. cbn in Ev. rewrite E3 in Ev. by injection Ev as ->.
    + apply Hres. apply list_elem_of_In, filter_In. split; [by apply list_elem_of_In|by rewrite Eb].
Qed.

(** As many indexed columns as conjuncts: every conjunct is one of the pins. *)
Lemma singles_nodup ixs eqs : NoDup (map ri_ordinals ixs) -> NoDup (map fst (pinned_singles ixs eqs)).
Proof.
  induction ixs as [|ri ixs IH]; cbn [map]; intros Hn; [constructor|]. apply list.NoDup_cons in Hn as [Hni Hn]. unfold pinned_singles. cbn [omap list_omap].
  destruct (ri_ordinals ri) as [|o [|]] eqn:Eo; try by apply IH. destruct (eqs !! o) as [v|] eqn:Ev; cbn [fmap option_fmap option_map]; [|by apply IH].
  cbn [map fst]. apply list.NoDup_cons. split; [|by apply IH]. intros ([o' v'] & Ef & H)%list_elem_of_fmap. cbn in Ef. subst o'.
  apply list_elem_of_omap in H as (ri' & Hri & H). destruct (ri_ordinals ri') as [|o2 [|]] eqn:Eo2; try done.
  destruct (eqs !! o2); [|done]. cbn in H. injection H as -> ->. apply Hni. rewrite <- Eo2. by apply list_elem_of_fmap_2.
Qed.
Lemma singles_eqs ixs eqs o v : (o, v) ∈ pinned_singles ixs eqs -> eqs !! o = Some v.
Proof.
  intros (ri & _ & H)%list_elem_of_omap. destruct (ri_ordinals ri) as [|o2 [|]]; try done. destruct (eqs !! o2) eqn:E; [|done].
  cbn in H. by injection H as -> ->.
Qed.
Lemma omap_all {A B} (f : A -> option B) l : length (omap f l) = length l -> Forall (fun x => is_Some (f x)) l.
Proof.
  assert (Hle : forall l, (length (omap f l) <= length l)%nat) by (clear; intros l; induction l as [|x l IH]; cbn; [lia|]; destruct (f x); cbn; lia).
  induction l as [|x l IH]; cbn; [constructor|]. destruct (f x) as [y|] eqn:E; cbn; [intros [= H]; constructor; [by eexists|by apply IH]|].
  specialize (Hle l). lia.
Qed.
Lemma exact_matches w : named rt w ->
  length (collectConjuncts w) = length (pinned_singles (rt_indexes rt) (collectEqConjuncts w ∅)) ->
  Forall pinned (pinned_singles (rt_indexes rt) (collectEqConjuncts w ∅)) -> matches w.
Proof.
  intros Hn Hlen Hpin. set (eqs := collectEqConjuncts w ∅) in *. set (l := pinned_singles (rt_indexes rt) eqs) in *.
  assert (Hk : NoDup (map fst l)) by (apply singles_nodup, (ro_sigs _ _ Hrt)).
  assert (Hsub : map fst l ⊆+ map fst (pin_list w)).
  { apply NoDup_submseteq; [done|]. intros o ([o' v] & -> & H)%list_elem_of_fmap. cbn.
    apply (list_elem_of_fmap_2 fst (pin_list w) (o', v)), eqs_pin. by eapply singles_eqs. }
  assert (Hle : (length (pin_list w) <= length (collectConjuncts w))%nat).
  { unfold pin_list. clear. induction (collectConjuncts w) as [|c cs IH]; cbn; [lia|]. destruct (pin_conj c); cbn; lia. }
  pose proof (submseteq_length _ _ Hsub) as Hge. rewrite !length_map in Hge.
  assert (Hperm : map fst l ≡ₚ map fst (pin_list w)) by (apply submseteq_length_Permutation; [done|]; rewrite !length_map; lia).
  assert (Hall : Forall (fun c => is_Some (pin_conj c)) (collectConjuncts w)) by (apply omap_all; change (omap pin_conj (collectConjuncts w)) with (pin_list w); lia).
  apply matches_conjuncts. pose proof (named_conjuncts _ _ Hn) as Hnc. rewrite list.Forall_forall in Hnc. rewrite list.Forall_forall in Hall.
  rewrite list.Forall_forall in Hpin. apply list.Forall_forall. intros c Hc.
  destruct (Hall c Hc) as [[o v] Hp]. apply (pin_matches c o v); [auto|done|].
  assert (Hin : (o, v) ∈ pin_list w) by (apply list_elem_of_omap; eauto).
  assert (Hol : o ∈ map fst l) by (rewrite Hperm; by apply (list_elem_of_fmap_2 fst (pin_list w) (o, v))).
  apply list_elem_of_fmap in Hol as ([o' v'] & Eo & Hl). cbn in Eo. subst o'.
  assert (E : eqs !! o = Some v) by (unfold eqs; rewrite collectEq_fold; apply fold_pins_nodup; [by rewrite <- Hperm|done]).
  pose proof (singles_eqs _ _ _ _ Hl) as E'. rewrite E in E'. injection E' as ->. by apply Hpin.
Qed.

(** *** Access paths *)
(** The equalities an access path guarantees of the rows it reads, and the
    conjuncts the executor re-checks on them. *)
Definition opt_pin (ord : Z) (e : option expr) : list (nat * expr) := match e with Some e => [(Z.to_nat ord, e)] | None => [] end.
Definition access_pins (a : access) : list (nat * expr) :=
  opt_pin (rt_pkOrdinal rt) (pkSource a) ++ opt_pin (rt_pkOrdinal rt) (pkProbe a) ++ opt_pin (rt_partitionOrdinal rt) (partSource a) ++
  zip (idxCols a) (idxSrcs a) ++ zip (compOrdinals a) (compPrefixSrcs a).
Definition access_rest (a : access) (w : expr) : list expr :=
  if pkLookup a || partLookup a || idxExact a then [] else if compWalk a then compResidual a else collectConjuncts w.
Definition sound (w : expr) (a : access) : Prop :=
  matches w <-> Forall pinned (access_pins a) /\ Forall matches (access_rest a w).

Lemma sound_scan w : sound w scan_path.
Proof. unfold sound. cbn. rewrite matches_conjuncts. split; [by split; [constructor|]|by intros [_ ?]]. Qed.
Lemma sound_bare w a p : access_pins a = [p] -> access_rest a w = [] -> (matches w <-> pinned p) -> sound w a.
Proof. intros Hp Hr H. unfold sound. rewrite Hp, Hr, list.Forall_singleton, H. split; [by intros ?; split; [|constructor]|by intros [? _]]. Qed.
Lemma sound_recheck w a : named rt w -> access_rest a w = collectConjuncts w ->
  Forall (fun '(o, v) => collectEqConjuncts w ∅ !! o = Some v) (access_pins a) -> sound w a.
Proof.
  intros Hn Hr Hp. unfold sound. rewrite Hr, <- matches_conjuncts. split; [|by intros [_ ?]].
  intros Hw. split; [|done]. by apply (eqs_pinned w).
Qed.
Lemma zip_pairs {A B} (l : list (A * B)) : zip (map fst l) (map snd l) = l.
Proof. induction l as [|[a b] l IH]; cbn; [done|by rewrite IH]. Qed.
Lemma singles_forall ixs eqs : Forall (fun '(o, v) => eqs !! o = Some v) (pinned_singles ixs eqs).
Proof. apply list.Forall_forall. intros [o v] H. by eapply singles_eqs. Qed.
Lemma pk_valid : exists p, rt_pkOrdinal rt = Z.of_nat p /\ (p < length (t_Columns t))%nat.
Proof. destruct (ro_pk _ _ Hrt) as (p & c & E & Hc & _). exists p. split; [done|by eapply lookup_lt_Some]. Qed.

Lemma sound_pk w src : named rt w -> detectPKEq w rt = Ok (Some src) -> sound w (with_pk src).
Proof.
  intros Hn H. destruct pk_valid as (p & Ep & Hp). unfold detectPKEq in H. rewrite Ep in H.
  eapply sound_bare; [|done|by apply (bare_matches w p src)]. unfold access_pins. cbn. by rewrite Ep, Nat2Z.id.
Qed.
Lemma sound_part w src : named rt w -> partitioned rt = true -> detectColEq w rt (rt_partitionOrdinal rt) = Ok (Some src) -> sound w (with_part src).
Proof.
  intros Hn Hpart H. unfold partitioned in Hpart. apply Z.leb_le in Hpart.
  destruct (ro_part _ _ Hrt) as [E|(p & c & E & Hc & _)]; [lia|]. rewrite E in H.
  eapply sound_bare; [|done|apply (bare_matches w p src); [done..|by eapply lookup_lt_Some]]. unfold access_pins. cbn. by rewrite E, Nat2Z.id.
Qed.
Lemma sound_idx w count : named rt w -> let l := pinned_singles (rt_indexes rt) (collectEqConjuncts w ∅) in
  sound w (with_idx (map fst l) (map snd l) (bool_decide (length (collectConjuncts w) = length l)) count).
Proof.
  intros Hn l. case_bool_decide as E.
  - unfold sound. unfold access_pins, access_rest. cbn. rewrite app_nil_r, zip_pairs. split.
    + intros Hw. split; [|constructor]. apply (eqs_pinned w); [done..|apply singles_forall].
    + intros [Hp _]. by apply exact_matches.
  - apply sound_recheck; [done..|]. unfold access_pins. cbn. rewrite app_nil_r, zip_pairs. apply singles_forall.
Qed.
Lemma sound_idx_eq w : named rt w -> sound w (planIndexEq rt (Some w)).
Proof.
  intros Hn. unfold planIndexEq. cbv zeta. rewrite (bool_decide_false (Some w = None)) by done. cbn [orb]. case_bool_decide; [apply sound_scan|]. apply sound_recheck; [done..|].
  unfold access_pins. cbn. rewrite app_nil_r, zip_pairs. apply singles_forall.
Qed.
Lemma sound_lookup w a : named rt w -> planCompositeLookup rt (collectEqConjuncts w ∅) = Ok a -> sound w a.
Proof.
  intros Hn H. unfold planCompositeLookup in H. inv_bind. destruct x as [[ri k]|]; [|apply sound_scan].
  apply sound_recheck; [done..|]. cbn. by destruct (prefix_pairs _ _ _ (proj1 (find_prefix_prefix _ _ _ _ H0))).
Qed.
Lemma sound_walk w ord a : named rt w -> planCompositeWalk rt (Some w) (collectEqConjuncts w ∅) ord = Ok (Some a) -> sound w a.
Proof.
  intros Hn H. unfold planCompositeWalk in H. destruct (ord <? 0); [done|]. inv_bind. destruct x as [[ri k]|]; [|done].
  injection H as <-. unfold sound. cbn. by apply walk_matches; [| |apply (find_walk_prefix _ _ _ _ _ H0)].
Qed.

(** What planPKProbe and the ORDER BY test need to know of a path. *)
Definition is_scan (a : access) : bool := negb (pkLookup a || idxLookup a || partLookup a || compLookup a || compWalk a).
Definition scan_shaped (a : access) : Prop := is_scan a = true -> access_pins a = [] /\ idxExact a = false.
Lemma plan_where_sound w ord count a : named rt w -> plan_where rt (Some w) ord count = Ok a -> sound w a /\ scan_shaped a.
Proof.
  intros Hn H. unfold plan_where in H. inv_bind. destruct x as [src|].
  { injection H as <-. split; [by apply sound_pk|done]. }
  destruct (partitioned rt) eqn:Ep.
  { inv_bind. destruct x as [src|]; [split; [by apply sound_part|done]|split; [apply sound_scan|done]]. }
  case_bool_decide; [injection H as <-; split; [apply sound_scan|done]|]. unfold plan_index in H. inv_bind. destruct x as [a'|].
  { injection H as ->. split; [by eapply sound_walk|]. unfold planCompositeWalk in H2. destruct (ord <? 0); [done|]. inv_bind.
    destruct x as [[ri k]|]; [|done]. by injection H2 as <-. }
  case_bool_decide as El.
  - split; [by apply sound_lookup|]. unfold planCompositeLookup in H. inv_bind. by destruct x as [[ri k]|].
  - injection H as <-. split; [by apply sound_idx|]. unfold scan_shaped, is_scan. cbn. rewrite bool_decide_true; [done|].
    intros E. by apply map_eq_nil in E.
Qed.
Lemma sound_probe w a : named rt w -> sound w a -> scan_shaped a -> sound w (planPKProbe rt a (Some w)).
Proof.
  intros Hn Ha Hs. unfold planPKProbe. destruct (bool_decide (Some w = None) || _ || _ || _ || _ || _ || _) eqn:E; [done|].
  destruct (partitioned rt); [done|]. cbn [pins]. destruct (collectEqConjuncts w ∅ !! _) as [src|] eqn:Ev; [|done].
  destruct (0 <=? rt_pkOrdinal rt); [|done]. rewrite !orb_false_iff in E. destruct E as ((((((_ & E1) & E2) & E3) & E4) & E5) & _).
  destruct (Hs ltac:(unfold is_scan; by rewrite E1, E2, E3, E4, E5)) as [Hp Hx].
  unfold access_pins in Hp. apply app_eq_nil in Hp as [P1 Hp]. apply app_eq_nil in Hp as [P2 Hp]. apply app_eq_nil in Hp as [P3 Hp].
  apply sound_recheck; [done| |].
  - unfold access_rest, set_pkProbe. cbn. by rewrite Hx, E1, E3, E5.
  - unfold access_pins, set_pkProbe. cbn. rewrite P1, P3, Hp. cbn. by constructor.
Qed.
Lemma select_path_ok w hasOrder ord count a : named rt w -> plan_select_path rt (Some w) hasOrder ord count = Ok a -> sound w a.
Proof.
  intros Hn H. unfold plan_select_path in H. inv_bind. destruct (plan_where_sound w ord count x Hn H0) as [Hs Hsh].
  assert (Hx : x0 = x \/ x0 = set_orderWalk x).
  { destruct (hasOrder && _ && _ && _ && _); [|injection H1 as <-; by left]. inv_bind. destruct (c_Nullable _); [by left|by right]. }
  apply sound_probe; [done|by destruct Hx as [->| ->]..].
Qed.
Lemma write_path_ok w a : named rt w -> plan_write_path rt (Some w) = Ok a -> sound w a.
Proof.
  intros Hn H. unfold plan_write_path in H. inv_bind. destruct x as [src|]; injection H as <-; [by apply sound_pk|].
  apply sound_probe; [done|by apply sound_idx_eq|]. unfold planIndexEq. cbv zeta. rewrite (bool_decide_false (Some w = None)) by done. cbn [orb]. case_bool_decide; [done|].
  unfold scan_shaped, is_scan, with_idx. cbn. case_bool_decide as E; [done|]. intros _. unfold access_pins. cbn.
  rewrite app_nil_r, zip_pairs. destruct (pinned_singles _ _); [done|]. done.
Qed.
End sound.

(** ** Row sources *)
Definition not_null (rt : resolvedTable) (o : nat) : Prop := exists c, t_Columns (rt_def rt) !! o = Some c /\ c_Nullable c = false.
Lemma anyNullable_false rt ords : anyNullable rt ords = Ok false -> Forall (not_null rt) ords.
Proof.
  induction ords as [|o ords IH]; cbn [anyNullable]; intros H; [constructor|]. inv_bind. destruct (c_Nullable x) eqn:E; [done|].
  constructor; [by exists x|by apply IH].
Qed.
(** An index that may stand for the table: ordered, composite, and on NOT NULL
    columns, whose leading [k] the WHERE pins. *)
Definition covering (rt : resolvedTable) (ri : resolvedIndex) : Prop :=
  ri ∈ rt_indexes rt /\ ri_ordered ri = true /\ (2 <= length (ri_ordinals ri))%nat /\ Forall (not_null rt) (ri_ordinals ri).
Lemma compositePrefix_covering rt ri eqs k : ri ∈ rt_indexes rt -> compositePrefix rt ri eqs = Ok k -> (0 < k)%nat -> covering rt ri.
Proof.
  intros Hin H Hk. unfold compositePrefix in H. destruct (Nat.ltb_spec (length (ri_ordinals ri)) 2); cbn [orb] in H; [injection H as <-; lia|].
  destruct (ri_ordered ri) eqn:Eo; cbn [negb] in H; [|injection H as <-; lia]. inv_bind. destruct x; [lia|].
  split_and!; [done..|by apply anyNullable_false].
Qed.
Definition row_source_ok (rt : resolvedTable) (ord : Z) (a : access) : Prop :=
  (compWalk a || compLookup a = true -> exists ri, covering rt ri /\ compOrdinals a = ri_ordinals ri /\
     (compWalk a = true -> ri_ordinals ri !! length (compPrefixSrcs a) = Some (Z.to_nat ord))) /\
  (orderWalk a = true -> exists ri, ri ∈ rt_indexes rt /\ ri_ordered ri = true /\ ri_ordinals ri = [Z.to_nat ord] /\ not_null rt (Z.to_nat ord)).
Lemma prefixSrcs_len ri eqs k : (k <= prefix_len (ri_ordinals ri) eqs)%nat -> length (prefixSrcs ri eqs k) = k.
Proof.
  unfold prefixSrcs. generalize (ri_ordinals ri). intros l. revert k. induction l as [|o l IH]; intros [|k] Hk; cbn in Hk |- *; try done; [lia|].
  destruct (eqs !! o); [|lia]. cbn. by rewrite IH by lia.
Qed.
Lemma find_walk_next rt ixs eqs ord ri k : find_walk rt ixs eqs ord = Ok (Some (ri, k)) -> Z.of_nat <$> ri_ordinals ri !! k = Some ord.
Proof.
  induction ixs as [|ri' ixs IH]; cbn [find_walk]; [done|]. intros H. inv_bind. destruct (_ || _ || _) eqn:E; [by apply IH|].
  injection H as <- <-. apply orb_false_iff in E as [_ E]. apply negb_false_iff, bool_decide_eq_true in E. done.
Qed.
Lemma source_plain rt ord a : compWalk a || compLookup a = false -> orderWalk a = false -> row_source_ok rt ord a.
Proof. intros H1 H2. split; [by rewrite H1|by rewrite H2]. Qed.
Lemma plan_where_source rt w ord count a : plan_where rt w ord count = Ok a -> row_source_ok rt ord a /\ orderWalk a = false.
Proof.
  intros H. unfold plan_where in H. destruct w as [w|]; [|injection H as <-; split; [by apply source_plain|done]]. inv_bind.
  destruct x as [src|]; [injection H as <-; split; [by apply source_plain|done]|].
  destruct (partitioned rt). { inv_bind. destruct x as [src|]; (split; [by apply source_plain|done]). }
  case_bool_decide; [injection H as <-; split; [by apply source_plain|done]|]. unfold plan_index in H. inv_bind. destruct x as [a'|].
  - injection H as ->. unfold planCompositeWalk in H2. destruct (ord <? 0); [done|]. inv_bind. destruct x as [[ri k]|]; [|done].
    injection H2 as <-. split; [|done]. split; [|done]. intros _. destruct (find_walk_prefix _ _ _ _ _ _ H) as (Hk & Hin & Hc & Hpos).
    exists ri. split_and!; [by eapply compositePrefix_covering|done|]. intros _. cbn. rewrite prefixSrcs_len by done.
    apply find_walk_next in H. destruct (ri_ordinals ri !! k); [|done]. injection H as <-. by rewrite Nat2Z.id.
  - case_bool_decide; [|injection H as <-; split; [by apply source_plain|done]]. unfold planCompositeLookup in H. inv_bind.
    destruct x as [[ri k]|]; [|split; [by apply source_plain|done]]. split; [|done]. split; [|done]. intros _.
    destruct (find_prefix_prefix _ _ _ _ _ H4) as (Hk & Hin & Hc & Hpos). exists ri. split_and!; [by eapply compositePrefix_covering|done|done].
Qed.
Lemma orderedIndexOn_ri rt o : orderedIndexOn rt o = true -> exists ri, ri ∈ rt_indexes rt /\ ri_ordered ri = true /\ ri_ordinals ri = [o].
Proof.
  unfold orderedIndexOn. intros (ri & Hin%list_elem_of_In & H)%existsb_exists. apply andb_true_iff in H as [H Ho]. unfold singleOn in H.
  apply andb_true_iff in H as [H1 H2]. apply Nat.eqb_eq in H1. apply bool_decide_eq_true in H2. exists ri. split_and!; [done..|].
  destruct (ri_ordinals ri) as [|x [|]]; try done. by injection H2 as ->.
Qed.

Lemma sources_cover rt w hasOrder ord count a : plan_select_path rt w hasOrder ord count = Ok a -> row_source_ok rt ord a.
Proof.
  intros H. unfold plan_select_path in H. inv_bind. destruct (plan_where_source _ _ _ _ _ H0) as [Hs Ho].
  assert (G : row_source_ok rt ord x0).
  { destruct (hasOrder && _ && _ && _ && _) eqn:E; [|by injection H1 as <-]. inv_bind. destruct (c_Nullable _) eqn:En; [done|].
    rewrite !andb_true_iff in E. destruct E as ((((_ & _) & E1) & E2) & E3). rewrite negb_true_iff in E1, E2.
    split; [cbn; by rewrite E1, E2|]. intros _. destruct (orderedIndexOn_ri _ _ E3) as (ri & ? & ? & ?). exists ri. split_and!; [done..|].
    unfold index_z in H. destruct (ord <? 0); [done|]. apply index_Ok in H. by eexists. }
  unfold planPKProbe. destruct (_ || orderWalk x0); [done|]. destruct (partitioned rt); [done|]. destruct (pins w !! _); [|done].
  by destruct (0 <=? rt_pkOrdinal rt).
Qed.
(** *** What a source holds *)
(** The row has a key under the columns [os]: no NULL, which an index leaves out. *)
Definition has_key (os : list nat) (row : Row) : Prop := Forall (fun o => exists v, row !! o = Some v /\ Kind v <> KindNull) os.
Lemma not_null_cell rt row o : row_fits (t_Columns (rt_def rt)) row -> not_null rt o -> exists v, row !! o = Some v /\ Kind v <> KindNull.
Proof.
  intros Hf (c & Hc & Hn). destruct (Forall2_lookup_l _ _ _ _ _ Hf Hc) as (v & Hv & Hcell). exists v. split; [done|].
  intros K. unfold cell_fits, validateValue, IsNull in Hcell. rewrite (bool_decide_eq_true_2 _ K), Hn in Hcell. done.
Qed.
Lemma not_null_key rt row os : row_fits (t_Columns (rt_def rt)) row -> Forall (not_null rt) os -> has_key os row.
Proof. intros Hf Hos. unfold has_key. rewrite list.Forall_forall in *. intros o Ho. apply (not_null_cell rt); auto. Qed.
Lemma pinned_cell cols args row o src v : pinned cols args row (o, src) -> evalLitOrParamValue src args = Ok v -> Kind v <> KindNull -> has_key [o] row.
Proof.
  intros (c & v' & Hc & Hv & He) Ev Kv. assert (E : eval src (MkCtx row cols args) = Ok v) by (by destruct src). cbn [snd] in Hv. rewrite E in Hv. injection Hv as <-.
  apply list.Forall_singleton. exists c. split; [done|]. intros Kc. unfold Equal in He. rewrite Kc in He. by rewrite bool_decide_eq_true_2 in He.
Qed.
(** The index a path reads in place of the table holds the row. A composite
    walk or lookup and an ORDER BY walk are over an ordered index under whose
    columns the row has a key, the walk's order column the one after the pinned
    prefix; each bucket looked up is of an index on that column alone, under which
    the row has a key unless the value looked up is NULL. *)
Definition source_holds (rt : resolvedTable) (args : list Value) (ord : Z) (a : access) (row : Row) : Prop :=
  (compWalk a || compLookup a = true -> exists ri, ri ∈ rt_indexes rt /\ ri_ordered ri = true /\ ri_ordinals ri = compOrdinals a /\
     has_key (ri_ordinals ri) row /\ (compWalk a = true -> ri_ordinals ri !! length (compPrefixSrcs a) = Some (Z.to_nat ord))) /\
  (orderWalk a = true -> exists ri, ri ∈ rt_indexes rt /\ ri_ordered ri = true /\ ri_ordinals ri = [Z.to_nat ord] /\ has_key (ri_ordinals ri) row) /\
  Forall (fun '(o, src) => exists ri, ri ∈ rt_indexes rt /\ ri_ordinals ri = [o] /\
    forall v, evalLitOrParamValue src args = Ok v -> Kind v <> KindNull -> has_key [o] row) (zip (idxCols a) (idxSrcs a)).

(** The buckets of a path are indexes of the table. *)
Definition bucketed (rt : resolvedTable) (a : access) : Prop :=
  Forall (fun o => exists ri, ri ∈ rt_indexes rt /\ ri_ordinals ri = [o]) (idxCols a).
Lemma singles_bucketed ixs eqs : Forall (fun o => exists ri, ri ∈ ixs /\ ri_ordinals ri = [o]) (map fst (pinned_singles ixs eqs)).
Proof.
  apply list.Forall_forall. intros o ([o' v] & -> & H)%list_elem_of_fmap. apply list_elem_of_omap in H as (ri & Hri & H).
  destruct (ri_ordinals ri) as [|x [|]] eqn:E; try done. destruct (eqs !! x); [|done]. cbn in H. injection H as -> ->. by exists ri.
Qed.
Lemma plan_where_bucketed rt w ord count a : plan_where rt w ord count = Ok a -> bucketed rt a.
Proof.
  intros H. unfold plan_where in H. destruct w as [w|]; [|injection H as <-; constructor]. inv_bind. destruct x as [src|]; [injection H as <-; constructor|].
  destruct (partitioned rt). { inv_bind. destruct x as [src|]; constructor. }
  case_bool_decide; [injection H as <-; constructor|]. unfold plan_index in H. inv_bind. destruct x as [a'|].
  - injection H as ->. unfold planCompositeWalk in H2. destruct (ord <? 0); [done|]. inv_bind. destruct x as [[ri k]|]; [|done]. injection H2 as <-. constructor.
  - case_bool_decide; [|injection H as <-; apply singles_bucketed]. unfold planCompositeLookup in H. inv_bind. destruct x as [[ri k]|]; constructor.
Qed.
Lemma path_bucketed rt w hasOrder ord count a : plan_select_path rt w hasOrder ord count = Ok a -> bucketed rt a.
Proof.
  intros H. unfold plan_select_path in H. inv_bind. pose proof (plan_where_bucketed _ _ _ _ _ H0) as Hb.
  assert (Hx : bucketed rt x0). { destruct (hasOrder && _ && _ && _ && _); [|by injection H1 as <-]. inv_bind. by destruct (c_Nullable _). }
  unfold planPKProbe. destruct (_ || orderWalk x0); [done|]. destruct (partitioned rt); [done|]. destruct (pins w !! _); [|done]. by destruct (0 <=? rt_pkOrdinal rt).
Qed.
Lemma path_holds t rt w hasOrder ord count a cols args row : resolved_ok t rt -> named rt w -> plan_select_path rt (Some w) hasOrder ord count = Ok a ->
  Forall value_ok row -> Forall value_ok args -> row_fits (t_Columns (rt_def rt)) row -> matches cols args row w -> source_holds rt args ord a row.
Proof.
  intros Hrt Hn Hp Hr Ha Hf Hm. destruct (sources_cover _ _ _ _ _ _ Hp) as [Hc Ho]. split; [|split].
  - intros Hw. destruct (Hc Hw) as (ri & (Hin & Hord & _ & Hnn) & E & Hnext). exists ri. split_and!; [done..|by eapply not_null_key|done].
  - intros Hw. destruct (Ho Hw) as (ri & Hin & Hord & E & Hnn). exists ri. split_and!; [done..|]. rewrite E. eapply not_null_key; [done|]. by apply list.Forall_singleton.
  - apply (select_path_ok t rt Hrt cols args row Hr Ha w hasOrder ord count a Hn Hp) in Hm as [Hpin _].
    pose proof (path_bucketed _ _ _ _ _ _ Hp) as Hb. apply list.Forall_forall. intros [o src] Hos.
    assert (Ho' : o ∈ idxCols a) by (apply elem_of_zip_l in Hos; done).
    unfold bucketed in Hb. rewrite list.Forall_forall in Hb. destruct (Hb o Ho') as (ri & Hin & E). exists ri. split_and!; [done..|]. intros v Ev Kv.
    eapply pinned_cell; [|done..]. rewrite list.Forall_forall in Hpin. apply Hpin. unfold access_pins. rewrite !elem_of_app. auto.
Qed.

(** C17: the path a SELECT gets misses no matching row and admits no other. For
    every row, the WHERE matches exactly when the pins of the path hold of the row
    and the conjuncts left to re-check match; and a row the table's columns accept
    that matches is in every index the path reads instead of the table: under the
    composite index of a walk or lookup and under the index of an ORDER BY walk it
    has a key (no NULL among the columns), and so under the index of each bucket
    looked up by a value that is not NULL. *)
Theorem select_path_sound t rt alias w w' hasOrder ord count a cols args row :
  resolve_table t = Ok rt -> lits_ok w -> validateExpr w rt alias = Ok w' ->
  plan_select_path rt (Some w') hasOrder ord count = Ok a ->
  Forall value_ok row -> Forall value_ok args ->
  (matches cols args row w' <-> Forall (pinned cols args row) (access_pins rt a) /\ Forall (matches cols args row) (access_rest a w')) /\
  (row_fits (t_Columns t) row -> matches cols args row w' -> source_holds rt args ord a row).
Proof.
  intros Hrt Hl Hv Hp Hr Ha. pose proof (validateExpr_named _ _ _ _ Hl Hv) as Hn. pose proof (resolved_table t rt Hrt) as Hok. split.
  - exact (select_path_ok t rt Hok cols args row Hr Ha w' hasOrder ord count a Hn Hp).
  - intros Hf. rewrite <- (ro_def _ _ Hok) in Hf. by apply (path_holds t rt w' hasOrder ord count a cols args row).
Qed.

Definition demo_sql : expr :=
  binOp tkAnd (binOp tkEq (colRef [] (lit "age") (-1)) (paramRef 0)) (binOp tkGt (paramRef 1) (colRef [] (lit "name") (-1))).
Definition demo_bound : expr := match validateExpr demo_sql users_rt [] with Ok e => e | _ => demo_sql end.
Definition demo_path : access := match plan_select_path users_rt (Some demo_bound) false (-1) false with Ok a => a | _ => scan_path end.
Definition demo_row : Row := [UUIDVal zeroUUID; Int 36; Str (lit "ada")].
Lemma select_path_sound_witness :
  (matches ∅ [Int 36; Str (lit "bob")] demo_row demo_bound <->
  Forall (pinned ∅ [Int 36; Str (lit "bob")] demo_row) (access_pins users_rt demo_path) /\
  Forall (matches ∅ [Int 36; Str (lit "bob")] demo_row) (access_rest demo_path demo_bound)) /\
  source_holds users_rt [Int 36; Str (lit "bob")] (-1) demo_path demo_row.
Proof.
  destruct (select_path_sound users_def users_rt [] demo_sql demo_bound false (-1) false demo_path ∅ [Int 36; Str (lit "bob")] demo_row) as [H1 H2];
    [vm_compute; reflexivity|repeat split|vm_compute; reflexivity|vm_compute; reflexivity|repeat constructor; vm_compute; done|repeat constructor; vm_compute; done|].
  split; [exact H1|]. apply H2; [apply validateInsertRow_ok; vm_compute; reflexivity|]. exists (Bool true). split; vm_compute; reflexivity.
Defined.
