(* ===== verification/PlanJoin.v ===== *)
(** * PlanJoin: the two-table join planner (join.go: planJoin and its helpers)
    and the statement planner (plan.go: plan, bindParamUUIDCoercion,
    coerceParams).

    Whether a column of a table can be probed is a matter of its declared
    indexes; how many rows it holds is the storage's answer, an argument. *)
From S2P Require Import Prelude Bytes Uuid Value Schema Ast Parser Catalog Plan.

Record joinPlan : Type := MkJoinPlan {
  jp_leftRT : tableRT;
  jp_rightRT : tableRT;
  jp_typ : tokenKind;
  jp_driverIsLeft : bool;
  jp_driverOnOrd : nat;
  jp_probeOnOrd : nat;
  jp_driverPreds : list expr;
  jp_driverIdx : option (nat * expr * bool);   (* driverIdxOrd, driverIdxSrc, driverIdxByPK *)
  jp_residualPreds : list expr;
  jp_orderOrdinal : Z;
  jp_probeWalk : option (list nat);            (* probeWalkOrdinals *)
  jp_driverWalk : option nat;                  (* driverSortOrd *)
  jp_driverCompWalk : option (list nat * list expr);
}.
Definition ncols (rt : tableRT) : nat := length (t_Columns (rt_def (table rt))).
Definition jp_nLeft (jp : joinPlan) : nat := ncols (jp_leftRT jp).
Definition jp_nRight (jp : joinPlan) : nat := ncols (jp_rightRT jp).
Definition jp_driverRT (jp : joinPlan) : tableRT := if jp_driverIsLeft jp then jp_leftRT jp else jp_rightRT jp.
Definition jp_probeRT (jp : joinPlan) : tableRT := if jp_driverIsLeft jp then jp_rightRT jp else jp_leftRT jp.
Definition is_pk (rt : tableRT) (ord : nat) : bool := Z.of_nat ord =? rt_pkOrdinal (table rt).
Definition jp_probeByPK (jp : joinPlan) : bool := is_pk (jp_probeRT jp) (jp_probeOnOrd jp).

(** tableRT.probeIndexFor on the indexes the table declares. *)
Definition has_probe_index (rt : tableRT) (ord : nat) : bool :=
  existsb (fun ri => match ri_ordinals ri with o :: _ => (o =? ord)%nat | [] => false end) (rt_indexes (table rt)).
Definition indexed (rt : tableRT) (ord : nat) : bool := is_pk rt ord || has_probe_index rt ord.

(** ** Names *)
Section names.
Context (st : selectStmt) (jc : joinClause) (lrt rrt : tableRT).
Definition qual_of (table alias qual : bytes) : bool :=
  bool_decide (qual = table) || (negb (bool_decide (alias = [])) && bool_decide (qual = alias)).
(** (side, within): false is the left table. *)
Definition resolveCol (qual name : bytes) : outcome (bool * nat) :=
  let cl := rt_colByName (table lrt) !! name in
  let cr := rt_colByName (table rrt) !! name in
  if negb (bool_decide (qual = [])) then
    let inL := qual_of (sel_table st) (sel_alias st) qual in
    let inR := qual_of (j_table jc) (j_alias jc) qual in
    if inL && inR then Err ErrParse
    else if inL then match cl with Some o => Ok (false, o) | None => Err ErrUnknownColumn end
    else if inR then match cr with Some o => Ok (true, o) | None => Err ErrUnknownColumn end
    else Err ErrParse
  else match cl, cr with
       | Some _, Some _ => Err ErrParse
       | Some o, None => Ok (false, o)
       | None, Some o => Ok (true, o)
       | None, None => Err ErrUnknownColumn
       end.
Definition globalOf (c : bool * nat) : nat := if fst c then (ncols lrt + snd c)%nat else snd c.
Definition resolveGlobal (qual name : bytes) : outcome nat := c ← resolveCol qual name; Ok (globalOf c).
End names.

Fixpoint bindJoinExpr (e : expr) (resolve : bytes -> bytes -> outcome nat) : outcome expr :=
  match e with
  | colRef qual name _ => ord ← resolve qual name; Ok (colRef qual name (Z.of_nat ord))
  | binOp op l r => l ← bindJoinExpr l resolve; r ← bindJoinExpr r resolve; Ok (binOp op l r)
  | notExpr e => e ← bindJoinExpr e resolve; Ok (notExpr e)
  | isNullExpr e not => e ← bindJoinExpr e resolve; Ok (isNullExpr e not)
  | _ => Ok e
  end.

Fixpoint ords_of (e : expr) : list Z :=
  match e with
  | colRef _ _ ord => [ord]
  | binOp _ l r => ords_of l ++ ords_of r
  | notExpr e | isNullExpr e _ => ords_of e
  | _ => []
  end.
Definition exprOrdsWithin (e : expr) (lo hi : Z) : bool :=
  negb (bool_decide (ords_of e = [])) && forallb (fun o => (lo <=? o) && (o <? hi)) (ords_of e).

(** ** The drive side *)
Definition pick_side (live : tableRT -> Z) (typ : tokenKind) (lrt rrt : tableRT) (leftOnOrd rightOnOrd : nat) (hasL hasR : bool) : outcome bool :=
  let leftIdx := indexed lrt leftOnOrd in
  let rightIdx := indexed rrt rightOnOrd in
  match typ with
  | tkLeft => if negb rightIdx then Err ErrUnindexedJoin else Ok true
  | tkRight => if negb leftIdx then Err ErrUnindexedJoin else Ok false
  | _ =>
      if hasL && negb hasR && rightIdx then Ok true
      else if hasR && negb hasL && leftIdx then Ok false
      else if is_pk rrt rightOnOrd then Ok true
      else if is_pk lrt leftOnOrd then Ok false
      else if leftIdx && rightIdx then Ok (live lrt <=? live rrt)
      else if rightIdx then Ok true
      else if leftIdx then Ok false
      else Err ErrUnindexedJoin
  end.

(** The fetch key: the first PK equality among the driver's conjuncts, else the
    first on an indexed column. Answers the conjunct too. *)
Definition driver_eq (off : Z) (rt : tableRT) (c : expr) : option (nat * expr) :=
  match eq_parts c with
  | Some (ord, v) => let within := ord - off in
      if (within <? 0) || (within >=? Z.of_nat (ncols rt)) then None else Some (Z.to_nat within, v)
  | None => None
  end.
Fixpoint pick_fetch (off : Z) (rt : tableRT) (cs : list expr) (secondary : option (expr * (nat * expr * bool))) : option (expr * (nat * expr * bool)) :=
  match cs with
  | [] => secondary
  | c :: cs =>
      match driver_eq off rt c with
      | None => pick_fetch off rt cs secondary
      | Some (o, v) =>
          if is_pk rt o then Some (c, (o, v, true))
          else pick_fetch off rt cs
                 (match secondary with
                  | None => if has_probe_index rt o then Some (c, (o, v, false)) else None
                  | Some _ => secondary
                  end)
      end
  end.

(** ** Walks *)
Definition within_of (orderOrdinal off width : Z) : option nat :=
  let w := orderOrdinal - off in if (w <? 0) || (w >=? width) then None else Some (Z.to_nat w).
Fixpoint find_probe_walk (rt : resolvedTable) (ixs : list resolvedIndex) (on order : nat) : outcome (option (list nat)) :=
  match ixs with
  | [] => Ok None
  | ri :: ixs =>
      match ri_ordinals ri with
      | o0 :: o1 :: _ =>
          if negb (ri_ordered ri) || negb (o0 =? on)%nat || negb (o1 =? order)%nat then find_probe_walk rt ixs on order
          else nullable ← anyNullable rt (ri_ordinals ri);
               if nullable : bool then find_probe_walk rt ixs on order else Ok (Some (ri_ordinals ri))
      | _ => find_probe_walk rt ixs on order
      end
  end.
Definition add_driver_pin (off : Z) (rt : tableRT) (m : gmap nat expr) (c : expr) : gmap nat expr :=
  match driver_eq off rt c with Some (o, v) => <[o := v]> m | None => m end.
Definition driver_pins (off : Z) (rt : tableRT) (cs : list expr) : gmap nat expr := fold_left (add_driver_pin off rt) cs ∅.
(** The composite walk of the driver: the scan over its indexes is
    planCompositeWalk's. *)
Definition planDriverCompWalk (rt : tableRT) (cs : list expr) (off : Z) (order : option nat) : outcome (option (list nat * list expr)) :=
  match order with
  | None => Ok None
  | Some order =>
      let pinned := driver_pins off rt cs in
      if bool_decide (pinned = ∅) then Ok None
      else
        w ← find_walk (table rt) (rt_indexes (table rt)) pinned (Z.of_nat order);
        Ok (match w with Some (ri, k) => Some (ri_ordinals ri, prefixSrcs ri pinned k) | None => None end)
  end.

Definition planProbeWalk (typ : tokenKind) (order probeOff : Z) (probe : tableRT) (probeOn : nat) : outcome (option (list nat)) :=
  match typ, within_of order probeOff (Z.of_nat (ncols probe)) with
  | tkInner, Some o => if order <? 0 then Ok None else find_probe_walk (table probe) (rt_indexes (table probe)) probeOn o
  | _, _ => Ok None
  end.
(** Not when the driver is fetched by key; any ordered index will do. *)
Definition planDriverWalk (driver : tableRT) (fetched : bool) (orderWithin : option nat) : option nat :=
  match orderWithin with
  | Some o => if negb fetched && orderedIndexOn (table driver) o then Some o else None
  | None => None
  end.

(** ** planJoin *)
(** The resolved join before the output columns: everything that depends on
    the WHERE and the ON only. *)
Definition join_sides (live : tableRT -> Z) (st : selectStmt) (jc : joinClause) (lrt rrt : tableRT)
  : outcome (option expr * bool * nat * nat * list expr * list expr) :=
  l ← resolveCol st jc lrt rrt (fst (j_lref jc)) (snd (j_lref jc));
  r ← resolveCol st jc lrt rrt (fst (j_rref jc)) (snd (j_rref jc));
  if Bool.eqb (fst l) (fst r) then Err ErrParse
  else
    let '(leftOnOrd, rightOnOrd) := if fst l : bool then (snd r, snd l) else (snd l, snd r) in
    w ← (match sel_where st with
         | None => Ok None
         | Some e => e ← bindJoinExpr e (resolveGlobal st jc lrt rrt); Ok (Some e)
         end);
    let nLeft := Z.of_nat (ncols lrt) in
    let nRight := Z.of_nat (ncols rrt) in
    let leftConj := List.filter (fun c => exprOrdsWithin c 0 nLeft) (conjuncts w) in
    let rightConj := List.filter (fun c => negb (exprOrdsWithin c 0 nLeft) && exprOrdsWithin c nLeft (nLeft + nRight)) (conjuncts w) in
    drive ← pick_side live (j_typ jc) lrt rrt leftOnOrd rightOnOrd (negb (bool_decide (leftConj = []))) (negb (bool_decide (rightConj = [])));
    Ok (w, drive, leftOnOrd, rightOnOrd, leftConj, rightConj).
Fixpoint resolve_proj (resolve : bytes -> bytes -> outcome nat) (cols : list resultCol) : outcome (list nat) :=
  match cols with
  | [] => Ok []
  | c :: cols => g ← resolve (rc_qual c) (rc_col c); l ← resolve_proj resolve cols; Ok (g :: l)
  end.
Definition dotted (q : bytes) (c : ColumnDef) : bytes := q ++ lit "." ++ c_Name c.
Definition or_name (alias name : bytes) : bytes := if bool_decide (alias = []) then name else alias.
Definition join_output (st : selectStmt) (jc : joinClause) (lrt rrt : tableRT) : outcome (list nat * list bytes) :=
  if sel_starAll st then
    let lq := or_name (sel_alias st) (sel_table st) in
    let rq := or_name (j_alias jc) (j_table jc) in
    Ok ([], map (dotted lq) (t_Columns (rt_def (table lrt))) ++ map (dotted rq) (t_Columns (rt_def (table rrt))))
  else
    ords ← resolve_proj (resolveGlobal st jc lrt rrt) (sel_cols st);
    Ok (ords, map rc_col (sel_cols st)).
(** A conjunct the composite walk guarantees: an equality on a prefix column. *)
Definition prefix_conjunct (off : Z) (prefix : list nat) (c : expr) : bool :=
  match eq_parts c with Some (ord, _) => bool_decide (ord - off ∈ map Z.of_nat prefix) | None => false end.
(** Dropping the fetch conjunct compares nodes by identity: the first of several
    equal ones is the one picked. *)
Fixpoint remove_first (c : expr) (l : list expr) : list expr :=
  match l with
  | [] => []
  | d :: l => if decide (c = d) then l else d :: remove_first c l
  end.
Definition driver_preds (off : Z) (cs : list expr) (compWalk : option (list nat * list expr)) (fetch : option expr) : list expr :=
  match compWalk with
  | Some (ords, srcs) => List.filter (fun c => negb (prefix_conjunct off (take (length srcs) ords) c)) cs
  | None => match fetch with Some c => remove_first c cs | None => cs end
  end.

Definition planJoin (live : tableRT -> Z) (st : selectStmt) (cat : catalog) : outcome (option expr * list nat * list bytes * joinPlan) :=
  match sel_joins st with
  | [jc] =>
      if bool_decide (sel_table st = j_table jc) then Err ErrParse
      else
        match byName cat !! sel_table st with
        | None => Err ErrUnknownTable
        | Some lrt =>
            match byName cat !! j_table jc with
            | None => Err ErrUnknownTable
            | Some rrt =>
                s ← join_sides live st jc lrt rrt;
                let '(w, drive, leftOnOrd, rightOnOrd, leftConj, rightConj) := s in
                let nLeft := Z.of_nat (ncols lrt) in
                let '(driver, probe) := if drive : bool then (lrt, rrt) else (rrt, lrt) in
                let '(driverOn, probeOn) := if drive then (leftOnOrd, rightOnOrd) else (rightOnOrd, leftOnOrd) in
                let '(driverConj, driverOff, probeOff) := if drive then (leftConj, 0, nLeft) else (rightConj, nLeft, 0) in
                let residual := List.filter (fun c => negb (bool_decide (c ∈ driverConj))) (conjuncts w) in
                let fetch := pick_fetch driverOff driver driverConj None in
                out ← join_output st jc lrt rrt;
                order ← (if bool_decide (sel_orderCol st = []) then Ok (-1)
                         else g ← resolveGlobal st jc lrt rrt (sel_orderQual st) (sel_orderCol st); Ok (Z.of_nat g));
                probeWalk ← planProbeWalk (j_typ jc) order probeOff probe probeOn;
                let orderWithin := if order <? 0 then None else within_of order driverOff (Z.of_nat (ncols driver)) in
                let driverWalk := match probeWalk with None => planDriverWalk driver (bool_decide (fetch <> None)) orderWithin | Some _ => None end in
                compWalk ← (match probeWalk, driverWalk, fetch with
                            | None, None, Some (_, (_, _, true)) => Ok None
                            | None, None, _ => planDriverCompWalk driver driverConj driverOff orderWithin
                            | _, _, _ => Ok None
                            end);
                let preds := driver_preds driverOff driverConj compWalk (fst <$> fetch) in
                Ok (w, fst out, snd out,
                    MkJoinPlan lrt rrt (j_typ jc) drive driverOn probeOn preds (snd <$> fetch) residual order probeWalk driverWalk compWalk)
            end
        end
  | _ => Err ErrParse
  end.

(** ** plan *)
(** One VALUES cell: a parameter read by index, or an expression. *)
Record insCell : Type := MkInsCell {
  ic_ord : nat;
  ic_arg : Z;
  ic_expr : option expr;
}.
Definition insCellExpr : Z := -2.

Record plan : Type := MkPlan {
  pl_st : stmt;
  pl_rt : option tableRT;
  pl_catVersion : Z;
  pl_nparams : Z;
  pl_paramWantUUID : list bool;
  pl_projOrdinals : list nat;
  pl_colNames : list bytes;
  pl_orderOrdinal : Z;
  pl_insertOrdinals : list nat;
  pl_insertTmpl : list (list insCell);
  pl_updateOrdinals : list nat;
  pl_setRowDependent : bool;
  pl_countStar : bool;
  pl_access : access;
  pl_joinPlan : option joinPlan;
}.
Definition blank_plan (st : stmt) (rt : option tableRT) (cat : catalog) : plan :=
  MkPlan st rt (version cat) 0 [] [] [] (-1) [] [] [] false false scan_path None.

Definition colOrd (rt : resolvedTable) (name : bytes) : outcome nat :=
  match rt_colByName rt !! name with Some o => Ok o | None => Err ErrUnknownColumn end.
Fixpoint select_ords (rt : resolvedTable) (tname alias : bytes) (cols : list resultCol) : outcome (list nat) :=
  match cols with
  | [] => Ok []
  | c :: cols =>
      if negb (qualifierMatches (rc_qual c) tname alias) then Err ErrUnknownColumn
      else o ← colOrd rt (rc_col c); l ← select_ords rt tname alias cols; Ok (o :: l)
  end.
Definition plan_select (rt : tableRT) (s : selectStmt) (cat : catalog) : outcome plan :=
  let def := table rt in
  ords ← (if sel_countStar s || sel_starAll s then Ok [] else select_ords def (sel_table s) (sel_alias s) (sel_cols s));
  let names := if sel_countStar s then [lit "count"]
               else if sel_starAll s then map c_Name (t_Columns (rt_def def)) else map rc_col (sel_cols s) in
  let hasOrder := negb (bool_decide (sel_orderCol s = [])) in
  order ← (if hasOrder then
             if negb (qualifierMatches (sel_orderQual s) (sel_table s) (sel_alias s)) then Err ErrUnknownColumn
             else o ← colOrd def (sel_orderCol s); Ok (Z.of_nat o)
           else Ok (-1));
  w ← validateOpt (sel_where s) def (sel_alias s);
  a ← plan_select_path def w hasOrder order (sel_countStar s);
  Ok (MkPlan (SSelect (sel_set_where s w)) (Some rt) (version cat) 0 [] ords names order [] [] [] false (sel_countStar s) a None).

Fixpoint insert_ords (rt : resolvedTable) (cols : list bytes) (provided : list nat) : outcome (list nat) :=
  match cols with
  | [] => Ok []
  | c :: cols =>
      o ← colOrd rt c;
      if bool_decide (o ∈ provided) then Err ErrParse
      else l ← insert_ords rt cols (o :: provided); Ok (o :: l)
  end.
(** for i, ord := range insertOrdinals: tuple[i], beyond the list a panic. *)
Fixpoint tuple_cells (ords : list nat) (tuple : list expr) : outcome (list insCell) :=
  match ords with
  | [] => Ok []
  | o :: ords =>
      match tuple with
      | [] => Panic
      | e :: tuple =>
          if exprRefsColumn e then Err ErrParse
          else
            l ← tuple_cells ords tuple;
            Ok ((match e with paramRef i => MkInsCell o i None | _ => MkInsCell o insCellExpr (Some e) end) :: l)
      end
  end.
Fixpoint all_tuples (ords : list nat) (rows : list (list expr)) : outcome (list (list insCell)) :=
  match rows with
  | [] => Ok []
  | r :: rows => c ← tuple_cells ords r; l ← all_tuples ords rows; Ok (c :: l)
  end.
(** A NOT NULL column left out can never be filled; the PK is generated. *)
Fixpoint omitted_ok (cols : list ColumnDef) (ord : nat) (provided : list nat) (pk : Z) : outcome unit :=
  match cols with
  | [] => Ok tt
  | c :: cols =>
      if negb (bool_decide (ord ∈ provided)) && negb (Z.of_nat ord =? pk) && negb (c_Nullable c) then Err errNotNull
      else omitted_ok cols (S ord) provided pk
  end.
Definition plan_insert (rt : tableRT) (st : stmt) (cols : list bytes) (rows : list (list expr)) (cat : catalog) : outcome plan :=
  let def := table rt in
  ords ← insert_ords def cols [];
  tmpl ← all_tuples ords rows;
  _ ← omitted_ok (t_Columns (rt_def def)) 0 ords (rt_pkOrdinal def);
  Ok (MkPlan st (Some rt) (version cat) 0 [] [] [] (-1) ords tmpl [] false false scan_path None).

Fixpoint plan_sets (rt : resolvedTable) (sets : list setAssign) : outcome (list setAssign * list nat * bool) :=
  match sets with
  | [] => Ok ([], [], false)
  | s :: sets =>
      o ← colOrd rt (set_col s);
      if Z.of_nat o =? rt_pkOrdinal rt then Err ErrPKUpdate
      else if Z.of_nat o =? rt_partitionOrdinal rt then Err ErrPKUpdate
      else
        c ← index (t_Columns (rt_def rt)) o;
        if c_Immutable c then Err ErrPKUpdate
        else
          v ← validateExpr (set_val s) rt [];
          r ← plan_sets rt sets;
          let '(ss, os, dep) := r in
          Ok (MkSet (set_col s) v :: ss, o :: os, exprRefsColumn v || dep)
  end.
Definition plan_update (rt : tableRT) (t : bytes) (sets : list setAssign) (w : option expr) (cat : catalog) : outcome plan :=
  r ← plan_sets (table rt) sets;
  let '(ss, os, dep) := r in
  w ← validateOpt w (table rt) [];
  a ← plan_write_path (table rt) w;
  Ok (MkPlan (SUpdate t ss w) (Some rt) (version cat) 0 [] [] [] (-1) [] [] os dep false a None).
Definition plan_delete (rt : tableRT) (t : bytes) (w : option expr) (cat : catalog) : outcome plan :=
  w ← validateOpt w (table rt) [];
  a ← plan_write_path (table rt) w;
  Ok (MkPlan (SDelete t w) (Some rt) (version cat) 0 [] [] [] (-1) [] [] [] false false a None).

Definition stmt_table (st : stmt) : bytes :=
  match st with SSelect s => sel_table s | SInsert t _ _ | SUpdate t _ _ | SDelete t _ => t | _ => [] end.
Definition do_plan (live : tableRT -> Z) (st : stmt) (cat : catalog) : outcome plan :=
  match st with
  | SCreate _ | SDrop _ => Ok (blank_plan st None cat)
  | _ =>
      match byName cat !! stmt_table st with
      | None => Err ErrUnknownTable
      | Some rt =>
          match st with
          | SSelect s =>
              if bool_decide (sel_joins s = []) then plan_select rt s cat
              else
                r ← planJoin live s cat;
                let '(w, ords, names, jp) := r in
                Ok (MkPlan (SSelect (sel_set_where s w)) (Some rt) (version cat) 0 [] ords names (-1) [] [] [] false false scan_path (Some jp))
          | SInsert _ cols rows => plan_insert rt st cols rows cat
          | SUpdate t sets w => plan_update rt t sets w cat
          | SDelete t w => plan_delete rt t w cat
          | _ => Ok (blank_plan st (Some rt) cat)
          end
      end
  end.

(** ** Parameters bound to UUID columns *)
Definition uuid_typed (cols : list ColumnDef) (ord : Z) : bool :=
  (0 <=? ord) && match cols !! Z.to_nat ord with Some c => c_Type c =? TypeUUID | None => false end.
Definition isUUIDCol (rt : option tableRT) (jp : option joinPlan) (name : bytes) (ord : Z) : bool :=
  match jp with
  | Some jp =>
      if ord <? 0 then false
      else if ord <? Z.of_nat (jp_nLeft jp) then uuid_typed (t_Columns (rt_def (table (jp_leftRT jp)))) ord
      else uuid_typed (t_Columns (rt_def (table (jp_rightRT jp)))) (ord - Z.of_nat (jp_nLeft jp))
  | None =>
      match rt with
      | None => false
      | Some rt =>
          let cols := t_Columns (rt_def (table rt)) in
          if ord <? 0
          then match rt_colByName (table rt) !! name with Some o => uuid_typed cols (Z.of_nat o) | None => false end
          else uuid_typed cols ord
      end
  end.

(** Marking a value: a parameter is recorded, a string literal rewritten. *)
Definition markValue (e : expr) (want : list bool) : expr * list bool :=
  match e with
  | paramRef i => (e, if (0 <=? i) && (i <? zlen want) then <[Z.to_nat i := true]> want else want)
  | litValue v =>
      if bool_decide (Kind v = KindString)
      then match ParseUUID (v_Str v) with Ok u => (litValue (UUIDVal u), want) | _ => (e, want) end
      else (e, want)
  | _ => (e, want)
  end.
Section coercion.
Context (is_uuid : bytes -> Z -> bool).
Definition side (c : expr) : bool := match c with colRef _ name ord => is_uuid name ord | _ => false end.
Fixpoint walkWhere (e : expr) (want : list bool) : expr * list bool :=
  match e with
  | binOp ((tkAnd | tkOr) as op) l r =>
      let '(l, want) := walkWhere l want in
      let '(r, want) := walkWhere r want in
      (binOp op l r, want)
  | binOp ((tkEq | tkNeq | tkLt | tkLte | tkGt | tkGte) as op) l r =>
      let '(r', want) := if side l then markValue r want else (r, want) in
      let '(l', want) := if side r' then markValue l want else (l, want) in
      (binOp op l' r', want)
  | notExpr e => let '(e, want) := walkWhere e want in (notExpr e, want)
  | _ => (e, want)
  end.
Definition walk_opt (e : option expr) (want : list bool) : option expr * list bool :=
  match e with Some e => let '(e, want) := walkWhere e want in (Some e, want) | None => (None, want) end.
End coercion.
Fixpoint mark_sets (rt : resolvedTable) (sets : list setAssign) (want : list bool) : list setAssign * list bool :=
  match sets with
  | [] => ([], want)
  | s :: sets =>
      let uuid := match rt_colByName rt !! set_col s with Some o => uuid_typed (t_Columns (rt_def rt)) (Z.of_nat o) | None => false end in
      let '(v, want) := if uuid then markValue (set_val s) want else (set_val s, want) in
      let '(ss, want) := mark_sets rt sets want in
      (MkSet (set_col s) v :: ss, want)
  end.
(** The access path and the join plan hold value nodes of the WHERE: a literal
    rewritten there is rewritten here. *)
Section shared.
Context (is_uuid : bytes -> Z -> bool).
Definition share_lit (uuid : bool) (e : expr) : expr := if uuid then fst (markValue e []) else e.
Definition share_pred (e : expr) : expr := fst (walkWhere is_uuid e []).
Definition share_cols (ords : list Z) (srcs : list expr) : list expr :=
  zip_with (fun o e => share_lit (is_uuid [] o) e) ords srcs.
Definition share_access (pk part : Z) (a : access) : access :=
  MkAccess (pkLookup a) (share_lit (is_uuid [] pk) <$> pkSource a) (share_lit (is_uuid [] pk) <$> pkProbe a)
    (partLookup a) (share_lit (is_uuid [] part) <$> partSource a)
    (idxLookup a) (idxCols a) (share_cols (map Z.of_nat (idxCols a)) (idxSrcs a)) (idxExact a) (countIdxBucket a) (orderWalk a)
    (compLookup a) (compWalk a) (compOrdinals a) (share_cols (map Z.of_nat (compOrdinals a)) (compPrefixSrcs a)) (map share_pred (compResidual a)).
Definition share_join (jp : joinPlan) : joinPlan :=
  let off := if jp_driverIsLeft jp then 0 else Z.of_nat (jp_nLeft jp) in
  MkJoinPlan (jp_leftRT jp) (jp_rightRT jp) (jp_typ jp) (jp_driverIsLeft jp) (jp_driverOnOrd jp) (jp_probeOnOrd jp)
    (map share_pred (jp_driverPreds jp))
    ((fun '(o, e, byPK) => (o, share_lit (is_uuid [] (off + Z.of_nat o)) e, byPK)) <$> jp_driverIdx jp)
    (map share_pred (jp_residualPreds jp)) (jp_orderOrdinal jp) (jp_probeWalk jp) (jp_driverWalk jp)
    ((fun '(ords, srcs) => (ords, share_cols (map (fun o => off + Z.of_nat o) ords) srcs)) <$> jp_driverCompWalk jp).
End shared.
Definition set_params (pl : plan) (st : stmt) (want : list bool) : plan :=
  let is_uuid := isUUIDCol (pl_rt pl) (pl_joinPlan pl) in
  let a := match pl_rt pl with
           | Some rt => share_access is_uuid (rt_pkOrdinal (table rt)) (rt_partitionOrdinal (table rt)) (pl_access pl)
           | None => pl_access pl
           end in
  MkPlan st (pl_rt pl) (pl_catVersion pl) (pl_nparams pl) (if existsb id want then want else []) (pl_projOrdinals pl) (pl_colNames pl)
    (pl_orderOrdinal pl) (pl_insertOrdinals pl) (pl_insertTmpl pl) (pl_updateOrdinals pl) (pl_setRowDependent pl) (pl_countStar pl)
    a (share_join is_uuid <$> pl_joinPlan pl).
Definition bindParamUUIDCoercion (pl : plan) : plan :=
  let want := replicate (Z.to_nat (pl_nparams pl)) false in
  let is_uuid := isUUIDCol (pl_rt pl) (pl_joinPlan pl) in
  match pl_st pl with
  | SSelect s => let '(w, want) := walk_opt is_uuid (sel_where s) want in set_params pl (SSelect (sel_set_where s w)) want
  | SDelete t w => let '(w, want) := walk_opt is_uuid w want in set_params pl (SDelete t w) want
  | SUpdate t sets w =>
      let '(w, want) := walk_opt is_uuid w want in
      match pl_rt pl with
      | Some rt => let '(sets, want) := mark_sets (table rt) sets want in set_params pl (SUpdate t sets w) want
      | None => set_params pl (SUpdate t sets w) want
      end
  | st => set_params pl st want
  end.

(** coerceParams: every string bound to a UUID column becomes a UUID. *)
Fixpoint coerceParams (want : list bool) (args : list Value) : outcome (list Value) :=
  match want, args with
  | _, [] => Ok []
  | [], _ => Ok args
  | w :: want, v :: args =>
      v ← (if w && bool_decide (Kind v = KindString)
           then match ParseUUID (v_Str v) with Ok u => Ok (UUIDVal u) | _ => Err ErrTypeMismatch end
           else Ok v);
      rest ← coerceParams want args;
      Ok (v :: rest)
  end.

(** ** prepare *)
(** A cached plan is served while the catalog version it was bound to is
    current. The trusted boot script skips the ban on literals. *)
Definition set_nparams (pl : plan) (n : Z) : plan :=
  MkPlan (pl_st pl) (pl_rt pl) (pl_catVersion pl) n (pl_paramWantUUID pl) (pl_projOrdinals pl) (pl_colNames pl)
    (pl_orderOrdinal pl) (pl_insertOrdinals pl) (pl_insertTmpl pl) (pl_updateOrdinals pl) (pl_setRowDependent pl) (pl_countStar pl)
    (pl_access pl) (pl_joinPlan pl).
Section prepare.
Context (stack : nat) (mapLower : bytes -> bytes) (live : tableRT -> Z).
Definition prepareTrusted (sql : bytes) (cat : catalog) : outcome plan :=
  st ← parseSQL stack mapLower sql;
  let '(st, nparams) := assignParamIndices st in
  pl ← do_plan live st cat;
  Ok (bindParamUUIDCoercion (set_nparams pl nparams)).
Definition build_plan (sql : bytes) (cat : catalog) (cache : gmap bytes plan)
  : outcome (plan * gmap bytes plan) :=
  st ← parseSQL stack mapLower sql;
  _ ← rejectValueLiterals st;
  let '(st, nparams) := assignParamIndices st in
  pl ← do_plan live st cat;
  let pl := bindParamUUIDCoercion (set_nparams pl nparams) in
  Ok (pl, <[sql := pl]> cache).
Definition prepare (closed : bool) (sql : bytes) (cat : catalog) (cache : gmap bytes plan)
  : outcome (plan * gmap bytes plan) :=
  if closed then Err ErrClosed
  else
    match cache !! sql with
    | Some pl => if pl_catVersion pl =? version cat then Ok (pl, cache) else build_plan sql cat cache
    | None => build_plan sql cat cache
    end.
End prepare.
