(* ===== verification/PlanJoinOk.v ===== *)
(** * PlanJoinOk: what a plan guarantees — parameters numbered in source order,
    every name bound inside the row, and a join's WHERE split without loss. *)
From S2P Require Import Prelude Bytes Uuid Value Schema Ast Parser Eval Filter Catalog Plan PlanOk PlanJoin.

(** ** Parameters *)
Fixpoint params (e : expr) : list Z :=
  match e with
  | paramRef i => [i]
  | binOp _ l r => params l ++ params r
  | notExpr e | isNullExpr e _ => params e
  | _ => []
  end.
Definition opt_params (e : option expr) : list Z := match e with Some e => params e | None => [] end.
Definition stmt_params (st : stmt) : list Z :=
  match st with
  | SSelect s => opt_params (sel_where s)
  | SInsert _ _ rows => concat (map (fun r => concat (map params r)) rows)
  | SUpdate _ sets w => concat (map (fun s => params (set_val s)) sets) ++ opt_params w
  | SDelete _ w => opt_params w
  | _ => []
  end.
(** [l] counts from [n] to [m]. *)
Definition counts (l : list Z) (n m : Z) : Prop := n <= m /\ l = seqZ n (m - n).
Lemma counts_nil n : counts [] n n.
Proof. split; [lia|]. by rewrite Z.sub_diag. Qed.
Lemma counts_app l l' n m k : counts l n m -> counts l' m k -> counts (l ++ l') n k.
Proof.
  intros [H1 ->] [H2 ->]. split; [lia|]. replace (k - n) with ((m - n) + (k - m)) by lia. rewrite seqZ_app by lia.
  by replace (n + (m - n)) with m by lia.
Qed.
Lemma number_counts e : forall n, counts (params (fst (number e n))) n (snd (number e n)).
Proof.
  induction e as [q x o|v|i|op l IHl r IHr|e IH|e IH b]; intros n; cbn [number]; try apply counts_nil.
  - cbn. split; [lia|]. by replace (n + 1 - n) with 1 by lia.
  - specialize (IHl n). destruct (number l n) as [l' m]. specialize (IHr m). destruct (number r m) as [r' k]. cbn in *. by eapply counts_app.
  - specialize (IH n). destruct (number e n) as [e' m]. exact IH.
  - specialize (IH n). destruct (number e n) as [e' m]. exact IH.
Qed.
Lemma number_list_counts {A} (f : A -> Z -> A * Z) (ps : A -> list Z) l : (forall a n, counts (ps (fst (f a n))) n (snd (f a n))) ->
  forall n, counts (concat (map ps (fst (number_list f l n)))) n (snd (number_list f l n)).
Proof.
  intros Hf. induction l as [|a l IH]; intros n; cbn [number_list]; [apply counts_nil|].
  specialize (Hf a n). destruct (f a n) as [a' m]. specialize (IH m). destruct (number_list f l m) as [l' k]. cbn in *. by eapply counts_app.
Qed.
Lemma number_opt_counts e n : counts (opt_params (fst (number_opt e n))) n (snd (number_opt e n)).
Proof. destruct e as [e|]; cbn; [|apply counts_nil]. pose proof (number_counts e n) as H. by destruct (number e n). Qed.
Lemma number_set_counts s n : counts (params (set_val (fst (number_set s n)))) n (snd (number_set s n)).
Proof. unfold number_set. pose proof (number_counts (set_val s) n) as H. by destruct (number (set_val s) n). Qed.

(** The placeholders of a statement are numbered 0, 1, 2, ... in source
    order and the count is how many there are, so that argument i is the i-th
    [?] and a call with that many arguments has a value for each. *)
Theorem params_in_order st : counts (stmt_params (fst (assignParamIndices st))) 0 (snd (assignParamIndices st)).
Proof.
  destruct st as [s|t cols rows|t sets w|t w|d|nm]; cbn [assignParamIndices]; try apply counts_nil.
  - pose proof (number_opt_counts (sel_where s) 0) as H. by destruct (number_opt (sel_where s) 0).
  - pose proof (number_list_counts (number_list number) (fun r => concat (map params r)) rows
      (fun r n => number_list_counts number params r number_counts n) 0) as H.
    by destruct (number_list (number_list number) rows 0).
  - pose proof (number_list_counts number_set (fun s => params (set_val s)) sets number_set_counts 0) as H.
    destruct (number_list number_set sets 0) as [ss n]. pose proof (number_opt_counts w n) as H'. destruct (number_opt w n) as [w' m].
    cbn in *. by eapply counts_app.
  - pose proof (number_opt_counts w 0) as H. by destruct (number_opt w 0).
Qed.

(** ** Binding *)
(** What the parser hands over: literals are values, operators are known. *)
Fixpoint raw_ok (e : expr) : Prop :=
  match e with
  | litValue v => value_ok v
  | binOp op l r => known_op op = true /\ raw_ok l /\ raw_ok r
  | notExpr e | isNullExpr e _ => raw_ok e
  | _ => True
  end.
Definition opt_raw (e : option expr) : Prop := match e with Some e => raw_ok e | None => True end.
Definition opt_bound (n : nat) (e : option expr) : Prop := match e with Some e => bound n e | None => True end.
Lemma bound_conjuncts n e : bound n e -> Forall (bound n) (collectConjuncts e).
Proof.
  induction e as [q x o|v|i|op l IHl r IHr|e IH|e IH b]; intros H; try (by constructor).
  destruct op; try (by constructor). destruct H as (_ & ? & ?). cbn [collectConjuncts]. apply Forall_app. split; [by apply IHl|by apply IHr].
Qed.
Lemma resolved_col t rt name o : resolve_table t = Ok rt -> rt_colByName rt !! name = Some o -> (o < length (t_Columns (rt_def rt)))%nat.
Proof.
  intros H Ho. apply resolved_table in H as Hr. apply (ro_cols _ _ Hr) in Ho as (c & Hc & _). rewrite (ro_def _ _ Hr). by eapply lookup_lt_Some.
Qed.
Lemma validateExpr_bound t rt alias e e' : resolve_table t = Ok rt -> raw_ok e -> validateExpr e rt alias = Ok e' ->
  bound (length (t_Columns (rt_def rt))) e'.
Proof.
  intros Hrt. revert e'. induction e as [q x o|v|i|op l IHl r IHr|e IH|e IH b]; intros e' Hr H; cbn [validateExpr raw_ok] in *.
  - destruct (negb _); [done|]. destruct (rt_colByName rt !! x) as [o'|] eqn:E; [|done]. injection H as <-. cbn.
    apply (resolved_col t) in E; [lia|done].
  - by injection H as <-.
  - by injection H as <-.
  - inv_bind. destruct Hr as (? & ? & ?). cbn. split_and!; [done|by apply IHl|by apply IHr].
  - inv_bind. cbn. by apply IH.
  - inv_bind. cbn. by apply IH.
Qed.
Lemma bindJoin_bound resolve n e e' : (forall q x o, resolve q x = Ok o -> (o < n)%nat) -> raw_ok e -> bindJoinExpr e resolve = Ok e' -> bound n e'.
Proof.
  intros Hres. revert e'. induction e as [q x o|v|i|op l IHl r IHr|e IH|e IH b]; intros e' Hr H; cbn [bindJoinExpr raw_ok] in *.
  - inv_bind. apply Hres in H0. cbn. lia.
  - by injection H as <-.
  - by injection H as <-.
  - inv_bind. destruct Hr as (? & ? & ?). cbn. split_and!; [done|by apply IHl|by apply IHr].
  - inv_bind. cbn. by apply IH.
  - inv_bind. cbn. by apply IH.
Qed.
Lemma bound_lit n e : bound n e -> lit_ok e.
Proof. by destruct e. Qed.
Lemma bound_parts n c ord v : bound n c -> eq_parts c = Some (ord, v) -> 0 <= ord.
Proof.
  destruct c as [q x o|u|i|op l r|e|e b]; try done. destruct op; try done. cbn [eq_parts bound]. intros (_ & Hl & Hr) H.
  unfold colAndLit in H. destruct l; destruct r; cbn in H, Hl, Hr; try done; simplify_eq; lia.
Qed.

(** *** The planner never panics *)
Definition tables_resolved (cat : catalog) : Prop := forall name rt, byName cat !! name = Some rt -> exists t, resolve_table t = Ok (table rt).
Definition below (n : nat) (l : list nat) : Prop := Forall (fun o => o < n)%nat l.
Section resolved.
Context (t : TableDef) (rt : resolvedTable) (Hrt : resolve_table t = Ok rt).
Local Abbreviation n := (length (t_Columns (rt_def rt))).
Lemma index_below o : (o < n)%nat -> exists c, index (t_Columns (rt_def rt)) o = Ok c.
Proof. intros H. destruct (index_lt _ _ H) as (c & -> & _). by exists c. Qed.
Lemma index_z_below o : (o < n)%nat -> exists c, index_z (t_Columns (rt_def rt)) (Z.of_nat o) = Ok c.
Proof. intros H. unfold index_z. rewrite (proj2 (Z.ltb_ge _ _)) by lia. rewrite Nat2Z.id. by apply index_below. Qed.
Lemma anyNullable_Ok ords : below n ords -> exists b, anyNullable rt ords = Ok b.
Proof.
  induction 1 as [|o ords Ho _ IH]; cbn [anyNullable]; [eauto|]. destruct (index_below o Ho) as [c ->]. cbn. destruct (c_Nullable c); [eauto|done].
Qed.
Lemma index_ords ri : ri ∈ rt_indexes rt -> below n (ri_ordinals ri).
Proof.
  intros H. apply resolved_table in Hrt as Hr. destruct (ro_index _ _ Hr ri H) as (_ & _ & Hf). rewrite (ro_def _ _ Hr).
  eapply Forall_impl; [|exact Hf]. cbv beta. tauto.
Qed.
Lemma compositePrefix_Ok ri eqs : ri ∈ rt_indexes rt -> exists k, compositePrefix rt ri eqs = Ok k.
Proof.
  intros H. unfold compositePrefix. destruct (_ || _); [eauto|]. destruct (anyNullable_Ok _ (index_ords ri H)) as [b ->]. cbn. eauto.
Qed.
Lemma find_walk_Ok eqs ord ixs : (forall ri, ri ∈ ixs -> ri ∈ rt_indexes rt) -> exists r, find_walk rt ixs eqs ord = Ok r.
Proof.
  induction ixs as [|ri ixs IH]; intros H; cbn [find_walk]; [eauto|]. destruct (compositePrefix_Ok ri eqs) as [k ->]; [apply H; constructor|].
  cbn [mbind outcome_bind]. destruct (_ || _); [|eauto]. apply IH. intros ri' Hri. apply H. by constructor.
Qed.
Lemma find_prefix_Ok eqs ixs : (forall ri, ri ∈ ixs -> ri ∈ rt_indexes rt) -> exists r, find_prefix rt ixs eqs = Ok r.
Proof.
  induction ixs as [|ri ixs IH]; intros H; cbn [find_prefix]; [eauto|]. destruct (compositePrefix_Ok ri eqs) as [k ->]; [apply H; constructor|].
  cbn [mbind outcome_bind]. destruct (k =? 0)%nat; [|eauto]. apply IH. intros ri' Hri. apply H. by constructor.
Qed.
Lemma find_probe_walk_Ok on order ixs : (forall ri, ri ∈ ixs -> ri ∈ rt_indexes rt) -> exists r, find_probe_walk rt ixs on order = Ok r.
Proof.
  induction ixs as [|ri ixs IH]; intros H; cbn [find_probe_walk]; [eauto|].
  assert (IH' : exists r, find_probe_walk rt ixs on order = Ok r) by (apply IH; intros ri' Hri; apply H; by constructor).
  destruct (anyNullable_Ok (ri_ordinals ri)) as [b Eb]; [apply index_ords, H; constructor|].
  destruct (ri_ordinals ri) as [|o0 [|o1 l]]; [done..|]. destruct (_ || _ || _); [done|]. rewrite Eb. cbn. destruct b; [done|eauto].
Qed.
Lemma detectColEq_Ok e o : (o < n)%nat -> exists r, detectColEq e rt (Z.of_nat o) = Ok r.
Proof.
  intros Ho. destruct (index_z_below o Ho) as [c Ec]. destruct e as [q x ord|v|i|op l r|e|e b]; cbn; eauto. destruct op; eauto.
  rewrite Ec. cbn. repeat (destruct (_ && _); [eauto|]). eauto.
Qed.
Lemma pk_below : exists p, rt_pkOrdinal rt = Z.of_nat p /\ (p < n)%nat.
Proof. apply resolved_table in Hrt as Hr. rewrite (ro_def _ _ Hr). by apply pk_valid. Qed.
Lemma plan_where_Ok w ord count : exists a, plan_where rt w ord count = Ok a.
Proof.
  unfold plan_where. destruct w as [w|]; [|eauto]. destruct pk_below as (p & Ep & Hp). unfold detectPKEq. rewrite Ep.
  destruct (detectColEq_Ok w p Hp) as [r ->]. cbn [mbind outcome_bind]. destruct r; [eauto|].
  destruct (partitioned rt) eqn:Epart.
  - apply resolved_table in Hrt as Hr. unfold partitioned in Epart. apply Z.leb_le in Epart.
    destruct (ro_part _ _ Hr) as [E|(q & c & E & Hc & _)]; [lia|]. rewrite E.
    destruct (detectColEq_Ok w q) as [r ->]; [rewrite (ro_def _ _ Hr); by eapply lookup_lt_Some|]. cbn. eauto.
  - case_bool_decide; [eauto|]. unfold plan_index, planCompositeWalk. destruct (ord <? 0).
    + cbn [mbind outcome_bind]. case_bool_decide; [|eauto]. unfold planCompositeLookup.
      destruct (find_prefix_Ok (collectEqConjuncts w ∅) (rt_indexes rt)) as [r ->]; [done|]. cbn. eauto.
    + destruct (find_walk_Ok (collectEqConjuncts w ∅) ord (rt_indexes rt)) as [r ->]; [done|]. cbn [mbind outcome_bind]. destruct r as [[ri k]|]; [eauto|].
      case_bool_decide; [|eauto]. unfold planCompositeLookup.
      destruct (find_prefix_Ok (collectEqConjuncts w ∅) (rt_indexes rt)) as [r ->]; [done|]. cbn. eauto.
Qed.
Lemma plan_select_path_Ok w hasOrder ord count : (hasOrder = true -> exists o, ord = Z.of_nat o /\ (o < n)%nat) ->
  exists a, plan_select_path rt w hasOrder ord count = Ok a.
Proof.
  intros Ho. unfold plan_select_path. destruct (plan_where_Ok w ord count) as [a ->]. cbn [mbind outcome_bind].
  destruct (hasOrder && _ && _ && _ && _) eqn:E; [|cbn; eauto]. rewrite !andb_true_iff in E. destruct E as ((((E & _) & _) & _) & _).
  destruct (Ho E) as (o & -> & Hlt). destruct (index_z_below o Hlt) as [c ->]. cbn. eauto.
Qed.
Lemma plan_write_path_Ok w : exists a, plan_write_path rt w = Ok a.
Proof.
  unfold plan_write_path. destruct w as [w|]; [|eauto]. destruct pk_below as (p & Ep & Hp). unfold detectPKEq. rewrite Ep.
  destruct (detectColEq_Ok w p Hp) as [r ->]. cbn [mbind outcome_bind]. destruct r; eauto.
Qed.
End resolved.

Lemma colOrd_safe t rt name : resolve_table t = Ok rt -> safe (fun o => o < length (t_Columns (rt_def rt)))%nat (colOrd rt name).
Proof. intros H. unfold colOrd. destruct (rt_colByName rt !! name) as [o|] eqn:E; cbn; [by eapply resolved_col|done]. Qed.
Lemma select_ords_safe t rt tname alias cols : resolve_table t = Ok rt ->
  safe (below (length (t_Columns (rt_def rt)))) (select_ords rt tname alias cols).
Proof.
  intros H. induction cols as [|c cols IH]; cbn [select_ords]; [constructor|]. destruct (negb _); [done|].
  eapply safe_bind; [by eapply colOrd_safe|]. intros o Ho. eapply safe_bind; [exact IH|]. intros l Hl. by constructor.
Qed.
Lemma validateExpr_safe t rt alias e : resolve_table t = Ok rt -> raw_ok e ->
  safe (bound (length (t_Columns (rt_def rt)))) (validateExpr e rt alias).
Proof.
  intros Hrt Hr. destruct (validateExpr e rt alias) as [e'| |] eqn:E; cbn; [by eapply validateExpr_bound|done|].
  clear Hr. induction e as [q x o|v|i|op l IHl r IHr|e IH|e IH b]; cbn [validateExpr] in E; try done.
  - destruct (negb _); [done|]. by destruct (rt_colByName rt !! x).
  - destruct (validateExpr l rt alias); [|done|by apply IHl]. destruct (validateExpr r rt alias); [done..|by apply IHr].
  - destruct (validateExpr e rt alias); [done..|by apply IH].
  - destruct (validateExpr e rt alias); [done..|by apply IH].
Qed.
Lemma validateOpt_safe t rt alias w : resolve_table t = Ok rt -> opt_raw w ->
  safe (opt_bound (length (t_Columns (rt_def rt)))) (validateOpt w rt alias).
Proof.
  intros Hrt Hr. destruct w as [e|]; cbn [validateOpt]; [|done]. eapply safe_bind; [by eapply validateExpr_safe|]. done.
Qed.

(** What a plan promises the executor: every ordinal and every bound column is
    inside the row it reads, and an INSERT cell reads no column. *)
Definition plan_width (pl : plan) : nat :=
  match pl_joinPlan pl, pl_rt pl with
  | Some jp, _ => (jp_nLeft jp + jp_nRight jp)%nat
  | None, Some rt => ncols rt
  | None, None => 0
  end.
Definition cell_ok (n : nat) (c : insCell) : Prop :=
  (ic_ord c < n)%nat /\ match ic_expr c with Some e => bound 0 e | None => True end.
Definition join_bound (jp : joinPlan) : Prop :=
  let n := (jp_nLeft jp + jp_nRight jp)%nat in
  Forall (bound n) (jp_driverPreds jp) /\ Forall (bound n) (jp_residualPreds jp) /\ jp_orderOrdinal jp < Z.of_nat n /\
  (jp_driverOnOrd jp < ncols (jp_driverRT jp))%nat /\ (jp_probeOnOrd jp < ncols (jp_probeRT jp))%nat.
Definition plan_bound (pl : plan) : Prop :=
  let n := plan_width pl in
  below n (pl_projOrdinals pl) /\ pl_orderOrdinal pl < Z.of_nat n.
Definition stmt_bound (pl : plan) : Prop :=
  let n := plan_width pl in
  match pl_st pl with
  | SSelect s => opt_bound n (sel_where s)
  | SInsert _ _ _ => below n (pl_insertOrdinals pl) /\ Forall (Forall (cell_ok n)) (pl_insertTmpl pl)
  | SUpdate _ sets w => Forall (fun s => bound n (set_val s)) sets /\ opt_bound n w /\ below n (pl_updateOrdinals pl)
  | SDelete _ w => opt_bound n w
  | _ => True
  end.
Definition plan_ready (pl : plan) : Prop :=
  plan_bound pl /\ stmt_bound pl /\ match pl_joinPlan pl with Some jp => join_bound jp | None => True end.
(** What parseSQL guarantees of a statement. *)
Definition stmt_raw (st : stmt) : Prop :=
  match st with
  | SSelect s => opt_raw (sel_where s)
  | SInsert _ cols rows => Forall (fun r => length r = length cols /\ Forall raw_ok r) rows
  | SUpdate _ sets w => Forall (fun s => raw_ok (set_val s)) sets /\ opt_raw w
  | SDelete _ w => opt_raw w
  | _ => True
  end.

Lemma plan_select_safe t rt s cat : resolve_table t = Ok (table rt) -> opt_raw (sel_where s) -> safe plan_ready (plan_select rt s cat).
Proof.
  intros Hrt Hw. unfold plan_select. set (n := ncols rt).
  eapply (safe_bind (below n)). { destruct (_ || _); [constructor|by eapply select_ords_safe]. }
  intros ords Hords. destruct (bool_decide (sel_orderCol s = [])) eqn:Eo; cbn [negb].
  - cbn [mbind outcome_bind]. eapply safe_bind; [by eapply validateOpt_safe|]. intros w Hb.
    destruct (plan_select_path_Ok t (table rt) Hrt w false (-1) (sel_countStar s)) as [a ->]; [done|]. cbn [mbind outcome_bind].
    split; [split; [exact Hords|cbn; lia]|split; [exact Hb|exact I]].
  - destruct (negb (qualifierMatches _ _ _)); [done|]. eapply (safe_bind (fun z => exists o, z = Z.of_nat o /\ (o < n)%nat)).
    { eapply safe_bind; [by eapply colOrd_safe|]. intros o Ho. by exists o. }
    intros z (o & -> & Ho). eapply safe_bind; [by eapply validateOpt_safe|]. intros w Hb.
    destruct (plan_select_path_Ok t (table rt) Hrt w true (Z.of_nat o) (sel_countStar s)) as [a ->]; [eauto|]. cbn [mbind outcome_bind].
    split; [split; [exact Hords|cbn; fold n; lia]|split; [exact Hb|exact I]].
Qed.

Lemma insert_ords_safe t rt cols : forall provided, resolve_table t = Ok rt ->
  safe (fun l => below (length (t_Columns (rt_def rt))) l /\ length l = length cols) (insert_ords rt cols provided).
Proof.
  induction cols as [|c cols IH]; intros p H; cbn [insert_ords]; [split; [constructor|done]|].
  eapply safe_bind; [by eapply colOrd_safe|]. intros o Ho. case_bool_decide; [done|].
  eapply safe_bind; [by apply IH|]. intros l [Hl Hlen]. split; [by constructor|cbn; lia].
Qed.
Lemma no_column_bound e : raw_ok e -> exprRefsColumn e = false -> bound 0 e.
Proof.
  induction e as [q x o|v|i|op l IHl r IHr|e IH|e IH b]; cbn; intros Hr H; try done; auto.
  apply orb_false_iff in H as [H1 H2]. destruct Hr as (? & ? & ?). auto.
Qed.
Lemma tuple_cells_safe n ords : forall tuple, below n ords -> length tuple = length ords -> Forall raw_ok tuple ->
  safe (Forall (cell_ok n)) (tuple_cells ords tuple).
Proof.
  induction ords as [|o ords IH]; intros tuple Ho Hlen Hr; cbn [tuple_cells]; [constructor|].
  destruct tuple as [|e tuple]; [done|]. apply list.Forall_cons in Hr as [He Hr], Ho as [Ho Hos].
  destruct (exprRefsColumn e) eqn:E; [done|]. eapply safe_bind; [apply IH; [done|by injection Hlen|done]|]. intros l Hl.
  assert (Hb : bound 0 e) by (by apply no_column_bound). constructor; [|done]. by destruct e; split; cbn.
Qed.
Lemma plan_insert_safe t rt tname cols rows cat : resolve_table t = Ok (table rt) ->
  Forall (fun r => length r = length cols /\ Forall raw_ok r) rows -> safe plan_ready (plan_insert rt (SInsert tname cols rows) cols rows cat).
Proof.
  intros Hrt Hr. unfold plan_insert. eapply safe_bind; [by eapply insert_ords_safe|]. intros ords [Ho Hlen].
  eapply (safe_bind (Forall (Forall (cell_ok (ncols rt))))).
  { induction Hr as [|r rows [Hl Hraw] _ IH]; cbn [all_tuples]; [constructor|].
    eapply safe_bind; [apply (tuple_cells_safe (ncols rt)); [done|lia|done]|]. intros c Hc.
    eapply safe_bind; [exact IH|]. intros l Hl'. by constructor. }
  intros tmpl Ht. assert (Hom : forall cs i p pk, safe (fun _ => True) (omitted_ok cs i p pk)).
  { induction cs as [|c cs IH]; intros i p pk; cbn; [done|]. destruct (_ && _ && _); [done|apply IH]. }
  eapply safe_bind; [apply Hom|]. intros _ _. split; [split; [constructor|cbn; lia]|split; [split; [exact Ho|exact Ht]|exact I]].
Qed.

Lemma plan_sets_safe t rt sets : resolve_table t = Ok rt -> Forall (fun s => raw_ok (set_val s)) sets ->
  safe (fun r => Forall (fun s => bound (length (t_Columns (rt_def rt))) (set_val s)) (fst (fst r)) /\
                 below (length (t_Columns (rt_def rt))) (snd (fst r))) (plan_sets rt sets).
Proof.
  intros Hrt. induction 1 as [|s sets Hs _ IH]; cbn [plan_sets]; [split; constructor|].
  eapply safe_bind; [by eapply colOrd_safe|]. intros o Ho. destruct (_ =? _); [done|]. destruct (_ =? _); [done|].
  destruct (index_below rt o Ho) as [c ->]. cbn [mbind outcome_bind]. destruct (c_Immutable c); [done|].
  eapply safe_bind; [by eapply validateExpr_safe|]. intros v Hv. eapply safe_bind; [exact IH|].
  intros [[ss os] dep] [H1 H2]. split; cbn; by constructor.
Qed.
Lemma plan_update_safe t rt tname sets w cat : resolve_table t = Ok (table rt) -> Forall (fun s => raw_ok (set_val s)) sets -> opt_raw w ->
  safe plan_ready (plan_update rt tname sets w cat).
Proof.
  intros Hrt Hs Hw. unfold plan_update. eapply safe_bind; [by eapply plan_sets_safe|]. intros [[ss os] dep] [H1 H2].
  eapply safe_bind; [by eapply validateOpt_safe|]. intros w' Hb. destruct (plan_write_path_Ok t (table rt) Hrt w') as [a ->].
  cbn [mbind outcome_bind]. split; [split; [constructor|cbn; lia]|split; [split; [exact H1|split; [exact Hb|exact H2]]|exact I]].
Qed.
Lemma plan_delete_safe t rt tname w cat : resolve_table t = Ok (table rt) -> opt_raw w -> safe plan_ready (plan_delete rt tname w cat).
Proof.
  intros Hrt Hw. unfold plan_delete. eapply safe_bind; [by eapply validateOpt_safe|]. intros w' Hb.
  destruct (plan_write_path_Ok t (table rt) Hrt w') as [a ->]. cbn [mbind outcome_bind].
  split; [split; [constructor|cbn; lia]|split; [exact Hb|exact I]].
Qed.

(** *** Joins *)
Lemma resolveCol_safe tl tr st jc lrt rrt q x : resolve_table tl = Ok (table lrt) -> resolve_table tr = Ok (table rrt) ->
  safe (fun c : bool * nat => (snd c < ncols (if fst c then rrt else lrt))%nat) (resolveCol st jc lrt rrt q x).
Proof.
  intros Hl Hr. unfold resolveCol. pose proof (fun o => resolved_col tl (table lrt) x o Hl) as Kl. pose proof (fun o => resolved_col tr (table rrt) x o Hr) as Kr.
  destruct (rt_colByName (table lrt) !! x) as [ol|] eqn:El; destruct (rt_colByName (table rrt) !! x) as [orr|] eqn:Er;
    repeat (match goal with |- context [if ?b then _ else _] => destruct b end); cbn; try done; try (by apply Kl); try (by apply Kr).
Qed.
Lemma resolveGlobal_safe tl tr st jc lrt rrt q x : resolve_table tl = Ok (table lrt) -> resolve_table tr = Ok (table rrt) ->
  safe (fun o => o < ncols lrt + ncols rrt)%nat (resolveGlobal st jc lrt rrt q x).
Proof.
  intros Hl Hr. unfold resolveGlobal. eapply safe_bind; [by eapply resolveCol_safe|]. intros [[] o] Ho; cbn in *; lia.
Qed.
Lemma bindJoin_safe resolve n e : (forall q x, safe (fun o => o < n)%nat (resolve q x)) -> raw_ok e -> safe (bound n) (bindJoinExpr e resolve).
Proof.
  intros Hres. induction e as [q x o|v|i|op l IHl r IHr|e IH|e IH b]; cbn [bindJoinExpr raw_ok]; intros Hr; try done.
  - eapply safe_bind; [apply Hres|]. intros o' Ho; cbv beta in Ho; cbn; lia.
  - destruct Hr as (? & ? & ?). eapply safe_bind; [exact (IHl ltac:(done))|]. intros l' Hl. eapply safe_bind; [exact (IHr ltac:(done))|]. intros r' Hr'. done.
  - eapply safe_bind; [exact (IH Hr)|]. done.
  - eapply safe_bind; [exact (IH Hr)|]. done.
Qed.
Definition left_part (lrt : tableRT) (l : list expr) : list expr := List.filter (fun c => exprOrdsWithin c 0 (Z.of_nat (ncols lrt))) l.
Definition right_part (lrt rrt : tableRT) (l : list expr) : list expr :=
  List.filter (fun c => negb (exprOrdsWithin c 0 (Z.of_nat (ncols lrt))) && exprOrdsWithin c (Z.of_nat (ncols lrt)) (Z.of_nat (ncols lrt) + Z.of_nat (ncols rrt))) l.
Lemma join_sides_safe live tl tr st jc lrt rrt : resolve_table tl = Ok (table lrt) -> resolve_table tr = Ok (table rrt) -> opt_raw (sel_where st) ->
  safe (fun '(w, drive, lo, ro, lc, rc) => opt_bound (ncols lrt + ncols rrt) w /\ (lo < ncols lrt)%nat /\ (ro < ncols rrt)%nat /\
          lc = left_part lrt (conjuncts w) /\ rc = right_part lrt rrt (conjuncts w)) (join_sides live st jc lrt rrt).
Proof.
  intros Hl Hr Hw. unfold join_sides. eapply safe_bind; [by eapply resolveCol_safe|]. intros [ls lw] Hlo.
  eapply safe_bind; [by eapply resolveCol_safe|]. intros [rs rw] Hro. cbn [fst snd] in *. destruct (Bool.eqb ls rs) eqn:Es; [done|].
  assert (Hs : forall lo ro, (if ls then (rw, lw) else (lw, rw)) = (lo, ro) -> (lo < ncols lrt)%nat /\ (ro < ncols rrt)%nat).
  { intros lo ro E. destruct ls, rs; try done; by injection E as <- <-. }
  destruct (if ls then (rw, lw) else (lw, rw)) as [lo ro]. destruct (Hs lo ro eq_refl) as [H1 H2].
  eapply (safe_bind (opt_bound (ncols lrt + ncols rrt))).
  { destruct (sel_where st) as [e|]; [|done]. eapply safe_bind; [apply bindJoin_safe; [intros; by eapply resolveGlobal_safe|exact Hw]|]. done. }
  intros w Hb. eapply (safe_bind (fun _ => True)).
  { unfold pick_side. destruct (j_typ jc); repeat (match goal with |- context [if ?b then _ else _] => destruct b end); done. }
  intros drive _. by split_and!.
Qed.
Lemma resolve_proj_safe n resolve cols : (forall q x, safe (fun o => o < n)%nat (resolve q x)) -> safe (below n) (resolve_proj resolve cols).
Proof.
  intros H. induction cols as [|c cols IH]; cbn [resolve_proj]; [constructor|]. eapply safe_bind; [apply H|]. intros g Hg.
  eapply safe_bind; [exact IH|]. intros l Hl. by constructor.
Qed.
Lemma filter_bound n f l : Forall (bound n) l -> Forall (bound n) (List.filter f l).
Proof. rewrite !List.Forall_forall. intros H c [Hc _]%filter_In. by apply H. Qed.
Lemma remove_first_bound n c l : Forall (bound n) l -> Forall (bound n) (remove_first c l).
Proof. induction 1 as [|d l Hd Hl IH]; cbn; [constructor|]. destruct (decide (c = d)); [done|by constructor]. Qed.
Lemma driver_preds_bound n off l cw f : Forall (bound n) l -> Forall (bound n) (driver_preds off l cw f).
Proof. intros H. unfold driver_preds. destruct cw as [[ords srcs]|]; [by apply filter_bound|]. destruct f; [by apply remove_first_bound|done]. Qed.
Lemma conjuncts_bound n w : opt_bound n w -> Forall (bound n) (conjuncts w).
Proof. destruct w as [e|]; [apply bound_conjuncts|constructor]. Qed.

Definition join_result (r : option expr * list nat * list bytes * joinPlan) : Prop :=
  let '(w, ords, _, jp) := r in
  let n := (jp_nLeft jp + jp_nRight jp)%nat in
  opt_bound n w /\ below n ords /\ join_bound jp.
Lemma planDriverCompWalk_safe t rt cs off order : resolve_table t = Ok (table rt) -> safe (fun _ => True) (planDriverCompWalk rt cs off order).
Proof.
  intros Hrt. unfold planDriverCompWalk. destruct order as [o|]; [|done]. case_bool_decide; [done|].
  destruct (find_walk_Ok t (table rt) Hrt (driver_pins off rt cs) (Z.of_nat o) (rt_indexes (table rt))) as [r ->]; [done|]. done.
Qed.
Lemma planJoin_safe live st cat : tables_resolved cat -> opt_raw (sel_where st) -> safe join_result (planJoin live st cat).
Proof.
  intros Hcat Hw. unfold planJoin. destruct (sel_joins st) as [|jc [|]]; [done| |done]. case_bool_decide; [done|].
  destruct (byName cat !! sel_table st) as [lrt|] eqn:El; [|done]. destruct (byName cat !! j_table jc) as [rrt|] eqn:Er; [|done].
  destruct (Hcat _ _ El) as [tl Hl], (Hcat _ _ Er) as [tr Hr].
  eapply safe_bind; [by eapply join_sides_safe|]. intros [[[[[w drive] lo] ro] lc] rc] (Hb & Hlo & Hro & -> & ->).
  set (n := (ncols lrt + ncols rrt)%nat). pose proof (conjuncts_bound n w Hb) as Hcs.
  assert (G : forall driver probe driverOn probeOn,
    (if drive then (lrt, rrt) else (rrt, lrt)) = (driver, probe) -> (if drive then (lo, ro) else (ro, lo)) = (driverOn, probeOn) ->
    (driverOn < ncols driver)%nat /\ (probeOn < ncols probe)%nat /\ (exists t, resolve_table t = Ok (table driver)) /\ (exists t, resolve_table t = Ok (table probe))).
  { intros. destruct drive; simplify_eq; eauto 10. }
  destruct (if drive then (lrt, rrt) else (rrt, lrt)) as [driver probe] eqn:E1. destruct (if drive then (lo, ro) else (ro, lo)) as [driverOn probeOn] eqn:E2.
  destruct (if drive then (left_part lrt (conjuncts w), 0, Z.of_nat (ncols lrt)) else _) as [[driverConj driverOff] probeOff] eqn:E3.
  destruct (G driver probe driverOn probeOn eq_refl eq_refl) as (Hd & Hp & (td & Htd) & (tp & Htp)). clear G.
  assert (Hdc : Forall (bound n) driverConj) by (destruct drive; simplify_eq; by apply filter_bound).
  eapply (safe_bind (fun out => below n (fst out))).
  { unfold join_output. destruct (sel_starAll st); [constructor|].
    eapply safe_bind; [apply (resolve_proj_safe n); intros; by eapply resolveGlobal_safe|]. done. }
  intros [ords names] Hords. eapply (safe_bind (fun z => z < Z.of_nat n)).
  { case_bool_decide; [cbn; lia|]. eapply safe_bind; [by eapply resolveGlobal_safe|]. intros g Hg. cbv beta in Hg. cbn. unfold n. lia. }
  intros order Hord. eapply (safe_bind (fun _ => True)).
  { unfold planProbeWalk. destruct (j_typ jc); try done. destruct (within_of _ _ _) as [o|]; [|done]. destruct (order <? 0); [done|].
    destruct (find_probe_walk_Ok tp (table probe) Htp probeOn o (rt_indexes (table probe))) as [r ->]; done. }
  intros pw _. eapply (safe_bind (fun _ => True)).
  { pose proof (fun o => planDriverCompWalk_safe td driver driverConj driverOff o Htd) as K.
    repeat (match goal with |- context [match ?b with _ => _ end] => destruct b end; try done; try apply K). }
  intros cw _. cbn [safe]. split; [|split; [|split_and!]]; cbn; [exact Hb|exact Hords|by apply driver_preds_bound|by apply filter_bound|exact Hord| |].
  - unfold jp_driverRT. cbn. destruct drive; simplify_eq; done.
  - unfold jp_probeRT. cbn. destruct drive; simplify_eq; done.
Qed.

(** Planning is total: over tables the schema resolved, any statement the
    parser produces is either refused with an error or gets a plan whose every
    ordinal — projection, ORDER BY, SET, INSERT and both sides of a join — and
    every column of its expressions lies inside the row it will be read from. *)
Theorem do_plan_total live st cat : tables_resolved cat -> stmt_raw st -> safe plan_ready (do_plan live st cat).
Proof.
  intros Hcat Hst. unfold do_plan. destruct st as [s|tn cols rows|tn sets w|tn w|d|nm]; cbn [stmt_table]; try done.
  - destruct (byName cat !! sel_table s) as [rt|] eqn:E; [|done]. destruct (Hcat _ _ E) as [t Ht]. case_bool_decide; [by eapply plan_select_safe|].
    eapply safe_bind; [by apply planJoin_safe|]. intros [[[w ords] names] jp] (H1 & H2 & H3). split; [split; [exact H2|cbn; lia]|split; [exact H1|exact H3]].
  - destruct (byName cat !! tn) as [rt|] eqn:E; [|done]. destruct (Hcat _ _ E) as [t Ht]. by eapply plan_insert_safe.
  - destruct (byName cat !! tn) as [rt|] eqn:E; [|done]. destruct (Hcat _ _ E) as [t Ht]. destruct Hst. by eapply plan_update_safe.
  - destruct (byName cat !! tn) as [rt|] eqn:E; [|done]. destruct (Hcat _ _ E) as [t Ht]. by eapply plan_delete_safe.
  - split; [split; [constructor|cbn; lia]|split; exact I].
  - split; [split; [constructor|cbn; lia]|split; exact I].
Qed.
#[local] Instance ColumnDef_eq_dec : EqDecision ColumnDef.
Proof. solve_decision. Defined.
#[local] Instance IndexDef_eq_dec : EqDecision IndexDef.
Proof. solve_decision. Defined.
#[local] Instance TableDef_eq_dec : EqDecision TableDef.
Proof. solve_decision. Defined.
#[local] Instance resolvedIndex_eq_dec : EqDecision resolvedIndex.
Proof. solve_decision. Defined.
#[local] Instance resolvedTable_eq_dec : EqDecision resolvedTable.
Proof. solve_decision. Defined.
Definition demo_cat : catalog := match newCatalog [users_def] with Ok c => c | _ => MkCatalog 0 ∅ [] end.
Definition demo_stmt : stmt := SDelete (lit "users") (Some demo_sql).
Lemma demo_cat_resolved : tables_resolved demo_cat.
Proof.
  intros name rt H. assert (E : map_Forall (fun _ rt => bool_decide (resolve_table users_def = Ok (table rt)) = true) (byName demo_cat))
    by (apply (bool_decide_unpack _); vm_compute; exact I). specialize (E name rt H). apply bool_decide_eq_true in E. eauto.
Qed.
Lemma do_plan_total_witness : safe plan_ready (do_plan (fun _ => 0) demo_stmt demo_cat).
Proof. apply (do_plan_total (fun _ => 0) demo_stmt demo_cat demo_cat_resolved). cbn. repeat split. Defined.

(** ** The WHERE of a join *)
(** The equalities the driver's access path guarantees, at the ordinals of the
    joined row. *)
Definition jp_driverOff (jp : joinPlan) : nat := if jp_driverIsLeft jp then 0%nat else jp_nLeft jp.
Definition shift (off : nat) (l : list (nat * expr)) : list (nat * expr) := map (fun '(o, v) => ((off + o)%nat, v)) l.
Definition driver_access (jp : joinPlan) : list (nat * expr) :=
  match jp_driverCompWalk jp, jp_driverIdx jp with
  | Some (ords, srcs), _ => shift (jp_driverOff jp) (zip ords srcs)
  | None, Some (o, v, _) => shift (jp_driverOff jp) [(o, v)]
  | None, None => []
  end.

Section split.
Context (args : list Value) (row : Row) (row_ok : Forall value_ok row) (args_ok : Forall value_ok args).
Local Abbreviation matches := (matches ∅ args row).
Local Abbreviation pinned := (pinned ∅ args row).

Lemma bound_pin n c o v : bound n c -> pin_conj c = Some (o, v) -> (matches c <-> pinned (o, v)).
Proof.
  intros Hc (ord & H & Ho & ->)%pin_conj_parts. destruct c as [q x w|u|i|op l r|e|e b]; try done. destruct op; try done.
  destruct Hc as (_ & Hl & Hr). by apply matches_pin; try (by eapply bound_lit).
Qed.
Lemma driver_eq_pin off rt n c o v : bound n c -> driver_eq (Z.of_nat off) rt c = Some (o, v) ->
  (matches c <-> pinned ((off + o)%nat, v)) /\ pin_conj c = Some ((off + o)%nat, v).
Proof.
  intros Hc H. unfold driver_eq in H. destruct (eq_parts c) as [[ord u]|] eqn:E; [|done]. cbv zeta in H.
  destruct (_ || _) eqn:Eb; [done|]. injection H as <- <-. apply orb_false_iff in Eb as [E1 _]. apply Z.ltb_ge in E1.
  assert (Ep : pin_conj c = Some ((off + Z.to_nat (ord - Z.of_nat off))%nat, u)) by (apply pin_conj_parts; exists ord; split_and!; [done|lia|lia]).
  split; [by apply (bound_pin n)|done].
Qed.
Lemma pick_fetch_in off rt cs : forall sec c r, pick_fetch off rt cs sec = Some (c, r) ->
  (c ∈ cs /\ driver_eq off rt c = Some (fst r)) \/ sec = Some (c, r).
Proof.
  induction cs as [|d cs IH]; intros sec c r H; cbn [pick_fetch] in H; [by right|].
  destruct (driver_eq off rt d) as [[o v]|] eqn:E.
  - destruct (is_pk rt o); [injection H as <- <-; left; split; [constructor|done]|].
    apply IH in H as [[H1 H2]|H]; [left; split; [by apply list_elem_of_further|done]|].
    destruct sec as [s|]; [by right|]. destruct (has_probe_index rt o); [|done]. injection H as <- <-. left. split; [constructor|done].
  - apply IH in H as [[H1 H2]|H]; [left; split; [by apply list_elem_of_further|done]|by right].
Qed.
Lemma remove_first_split (P : expr -> Prop) c l : c ∈ l -> (Forall P l <-> P c /\ Forall P (remove_first c l)).
Proof.
  induction l as [|d l IH]; intros H; [by apply not_elem_of_nil in H|]. cbn [remove_first].
  destruct (decide (c = d)) as [->|Hne]; [by rewrite list.Forall_cons|]. apply elem_of_cons in H as [->|H]; [done|].
  rewrite !list.Forall_cons, (IH H). tauto.
Qed.
Lemma filter_split (P : expr -> Prop) f l : Forall P l <-> Forall P (List.filter f l) /\ Forall P (List.filter (fun c => negb (f c)) l).
Proof.
  rewrite !List.Forall_forall. split.
  - intros H. split; intros c [Hc _]%filter_In; by apply H.
  - intros [H1 H2] c Hc. destruct (f c) eqn:E; [apply H1|apply H2]; apply filter_In; by rewrite ?E.
Qed.
Lemma driver_pins_from off rt cs : forall m o v,
  fold_left (add_driver_pin off rt) cs m !! o = Some v ->
  (exists c, c ∈ cs /\ driver_eq off rt c = Some (o, v)) \/ m !! o = Some v.
Proof.
  induction cs as [|d cs IH]; intros m o v H; cbn [fold_left] in H; [by right|].
  apply IH in H as [(c & Hc & E)|H]; [left; exists c; split; [by apply list_elem_of_further|done]|].
  unfold add_driver_pin in H. destruct (driver_eq off rt d) as [[o' v']|] eqn:E; [|by right]. destruct (decide (o' = o)) as [->|Hne].
  - rewrite lookup_insert_eq in H. injection H as ->. left. exists d. split; [constructor|done].
  - rewrite lookup_insert_ne in H by done. by right.
Qed.

(** Without a composite walk: the fetch key and the rest. *)
Lemma fetch_split n off rt cs : Forall (bound n) cs ->
  let fetch := pick_fetch (Z.of_nat off) rt cs None in
  Forall matches cs <-> Forall pinned (match snd <$> fetch with Some (o, v, _) => shift off [(o, v)] | None => [] end) /\
                        Forall matches (match fst <$> fetch with Some c => remove_first c cs | None => cs end).
Proof.
  intros Hcs fetch. destruct fetch as [[c [[o v] byPK]]|] eqn:E; cbn [fmap option_fmap option_map fst snd]; [|split; [by split; [constructor|]|by intros [_ ?]]].
  apply pick_fetch_in in E as [[Hin E]|E]; [|done]. cbn [fst] in E. rewrite (remove_first_split _ c cs Hin).
  rewrite list.Forall_forall in Hcs. destruct (driver_eq_pin off rt n c o v (Hcs c Hin) E) as [-> _].
  cbn [shift map]. by rewrite list.Forall_singleton.
Qed.
(** With one: an equality on a prefix column is implied by the prefix when no
    column is pinned twice. *)
Lemma comp_split n off rt cs all ords k eqs : Forall (bound n) cs -> (forall c, c ∈ cs -> c ∈ all) ->
  NoDup (map fst (omap pin_conj all)) -> eqs = driver_pins (Z.of_nat off) rt cs -> (k <= prefix_len ords eqs)%nat ->
  let srcs := omap (fun o => eqs !! o) (take k ords) in
  Forall matches cs <-> Forall pinned (shift off (zip ords srcs)) /\
                        Forall matches (List.filter (fun c => negb (prefix_conjunct (Z.of_nat off) (take k ords) c)) cs).
Proof.
  intros Hcs Hall Hnd He Hk srcs. destruct (prefix_pairs eqs ords k Hk) as [Hp Hf]. fold srcs in Hp, Hf.
  rewrite list.Forall_forall in Hcs. rewrite list.Forall_forall in Hp.
  assert (Hpin : forall o v, (o, v) ∈ zip ords srcs -> exists c, c ∈ cs /\ driver_eq (Z.of_nat off) rt c = Some (o, v)).
  { intros o v H%Hp. cbv beta iota in H. rewrite He in H. apply driver_pins_from in H as [H|H]; [done|]. by rewrite lookup_empty in H. }
  rewrite (filter_split matches (prefix_conjunct (Z.of_nat off) (take k ords))). split; intros [H1 H2]; (split; [|done]).
  - apply list.Forall_forall. intros p ([o v] & -> & Hin)%list_elem_of_fmap. destruct (Hpin o v Hin) as (c & Hc & E).
    destruct (driver_eq_pin off rt n c o v (Hcs c Hc) E) as [Hm Ep]. apply Hm. rewrite List.Forall_forall in H1, H2.
    destruct (prefix_conjunct (Z.of_nat off) (take k ords) c) eqn:Eb; [apply H1|apply H2]; apply filter_In; rewrite ?Eb; split; try done; by apply list_elem_of_In.
  - apply List.Forall_forall. intros c [Hc%list_elem_of_In Eb]%filter_In. unfold prefix_conjunct in Eb.
    destruct (eq_parts c) as [[ord v]|] eqn:Ec; [|done]. apply bool_decide_eq_true in Eb. apply list_elem_of_fmap in Eb as (o & Eo & Ho).
    assert (Ep : pin_conj c = Some ((off + o)%nat, v)) by (apply pin_conj_parts; exists ord; split_and!; [done|lia|lia]).
    apply (bound_pin n c _ _ (Hcs c Hc) Ep). rewrite <- Hf in Ho. apply list_elem_of_fmap in Ho as ([o' v'] & Eo' & Hin). cbn in Eo'. subst o'.
    destruct (Hpin o v' Hin) as (c' & Hc' & E'). destruct (driver_eq_pin off rt n c' o v' (Hcs c' Hc') E') as [_ Ep'].
    assert (v' = v) as <-.
    { apply Hall in Hc, Hc'. assert (F : forall d p, d ∈ all -> pin_conj d = Some p -> p ∈ omap pin_conj all) by (intros d p Hd Hdp; apply list_elem_of_omap; eauto).
      apply (F _ _ Hc) in Ep as Hc2. apply (F _ _ Hc') in Ep' as Hc2'.
      pose proof (fold_pins_nodup _ Hnd ∅ _ _ Hc2) as F1. pose proof (fold_pins_nodup _ Hnd ∅ _ _ Hc2') as F2. congruence. }
    rewrite list.Forall_forall in H1. apply H1. apply (list_elem_of_fmap_2 (fun '(o, v) => ((off + o)%nat, v)) _ (o, v')). done.
Qed.
End split.

(** What a successful planJoin computed. *)
Record join_shape (cat : catalog) (w : option expr) (jp : joinPlan) (cs : list expr) : Prop := {
  js_bound : opt_bound (jp_nLeft jp + jp_nRight jp) w;
  js_sub c : c ∈ cs -> c ∈ conjuncts w;
  js_residual : jp_residualPreds jp = List.filter (fun c => negb (bool_decide (c ∈ cs))) (conjuncts w);
  js_idx : jp_driverIdx jp = snd <$> pick_fetch (Z.of_nat (jp_driverOff jp)) (jp_driverRT jp) cs None;
  js_preds : jp_driverPreds jp = driver_preds (Z.of_nat (jp_driverOff jp)) cs (jp_driverCompWalk jp)
               (fst <$> pick_fetch (Z.of_nat (jp_driverOff jp)) (jp_driverRT jp) cs None);
  js_walk ords srcs : jp_driverCompWalk jp = Some (ords, srcs) -> exists k eqs,
    eqs = driver_pins (Z.of_nat (jp_driverOff jp)) (jp_driverRT jp) cs /\ (k <= prefix_len ords eqs)%nat /\
    srcs = omap (fun o => eqs !! o) (take k ords) /\ length srcs = k;
}.
Lemma planDriverCompWalk_shape rt cs off order ords srcs : planDriverCompWalk rt cs off order = Ok (Some (ords, srcs)) ->
  exists k, (k <= prefix_len ords (driver_pins off rt cs))%nat /\ srcs = omap (fun o => driver_pins off rt cs !! o) (take k ords) /\ length srcs = k.
Proof.
  unfold planDriverCompWalk. destruct order as [o|]; [|done]. case_bool_decide; [done|]. intros Hw. inv_bind. destruct x as [[ri k]|]; [|done].
  injection Hw as <- <-. destruct (find_walk_prefix _ _ _ _ _ _ H0) as (Hk & _). exists k. split_and!; [done..|by apply prefixSrcs_len].
Qed.
Lemma planJoin_shape live st cat w ords names jp : tables_resolved cat -> opt_raw (sel_where st) ->
  planJoin live st cat = Ok (w, ords, names, jp) -> exists cs, join_shape cat w jp cs.
Proof.
  intros Hcat Hw H. pose proof (planJoin_safe live st cat Hcat Hw) as Hsafe. rewrite H in Hsafe. destruct Hsafe as (Hb & _ & _).
  unfold planJoin in H. destruct (sel_joins st) as [|jc [|]]; [done| |done]. case_bool_decide; [done|].
  destruct (byName cat !! sel_table st) as [lrt|] eqn:El; [|done]. destruct (byName cat !! j_table jc) as [rrt|] eqn:Er; [|done].
  destruct (Hcat _ _ El) as [tl Hl], (Hcat _ _ Er) as [tr Hr].
  pose proof (join_sides_safe live tl tr st jc lrt rrt Hl Hr Hw) as Hs. destruct (join_sides live st jc lrt rrt) as [s| |]; [|done..].
  cbn [mbind outcome_bind] in H. destruct s as [[[[[w0 drive] lo] ro] lc] rc]. destruct Hs as (_ & _ & _ & -> & ->).
  assert (Hsub : forall f c, c ∈ List.filter f (conjuncts w0) -> c ∈ conjuncts w0).
  { intros f c Hc%list_elem_of_In. apply filter_In in Hc as [Hc _]. by apply list_elem_of_In. }
  assert (Fin : forall cs cw fetch x1 x2 order pw dw, cs = (if drive then left_part lrt (conjuncts w0) else right_part lrt rrt (conjuncts w0)) ->
    fetch = pick_fetch (if drive then 0 else Z.of_nat (ncols lrt)) (if drive then lrt else rrt) cs None ->
    (forall ords srcs, cw = Some (ords, srcs) -> exists orderWithin, planDriverCompWalk (if drive then lrt else rrt) cs (if drive then 0 else Z.of_nat (ncols lrt)) orderWithin = Ok (Some (ords, srcs))) ->
    jp = MkJoinPlan lrt rrt (j_typ jc) drive x1 x2 (driver_preds (if drive then 0 else Z.of_nat (ncols lrt)) cs cw (fst <$> fetch)) (snd <$> fetch)
           (List.filter (fun c => negb (bool_decide (c ∈ cs))) (conjuncts w0)) order pw dw cw -> w = w0 -> exists cs, join_shape cat w jp cs).
  { intros cs cw fetch x1 x2 order pw dw Hcs Hf Hcw -> ->. exists cs.
    assert (Eoff : Z.of_nat (if drive then 0%nat else ncols lrt) = (if drive then 0 else Z.of_nat (ncols lrt))) by (by destruct drive).
    split; unfold jp_driverOff, jp_driverRT, jp_nLeft in *; cbn [jp_driverIsLeft jp_leftRT jp_rightRT jp_residualPreds jp_driverIdx jp_driverPreds jp_driverCompWalk] in *; rewrite ?Eoff.
    - exact Hb.
    - intros c Hc. rewrite Hcs in Hc. destruct drive; by apply Hsub in Hc.
    - done.
    - by rewrite Hf.
    - by rewrite Hf.
    - intros os ss E. destruct (Hcw os ss E) as (ow & Ew). apply planDriverCompWalk_shape in Ew as (k & ? & ? & ?). by eexists k, _. }
  destruct drive; inv_bind;
    (eapply Fin; [reflexivity|reflexivity| |reflexivity|reflexivity]);
    intros os ss ->; repeat match goal with H : match ?x with _ => _ end = Ok (Some _) |- _ => destruct x; try done end; eauto.
Qed.

(** C25: a two-table join evaluates its WHERE in three places — the driver's
    access path, the driver's remaining conjuncts, the residual on the joined row
    — and together they are the WHERE, when the driver is not walked along a
    composite index or no column is pinned twice. *)
Theorem join_where_split live st cat w ords names jp args row : tables_resolved cat -> opt_raw (sel_where st) ->
  planJoin live st cat = Ok (w, ords, names, jp) -> Forall value_ok row -> Forall value_ok args ->
  (jp_driverCompWalk jp = None \/ NoDup (map fst (omap pin_conj (conjuncts w)))) ->
  Forall (matches ∅ args row) (conjuncts w) <->
  Forall (pinned ∅ args row) (driver_access jp) /\ Forall (matches ∅ args row) (jp_driverPreds jp) /\ Forall (matches ∅ args row) (jp_residualPreds jp).
Proof.
  intros Hcat Hw H Hrow Hargs Hdup. destruct (planJoin_shape live st cat w ords names jp Hcat Hw H) as (cs & [Hb Hsub Hres Hidx Hpreds Hwalk]).
  set (n := (jp_nLeft jp + jp_nRight jp)%nat) in *. pose proof (conjuncts_bound n w Hb) as Hcb.
  assert (Hcsb : Forall (bound n) cs) by (rewrite list.Forall_forall in *; auto).
  assert (Hsplit : Forall (matches ∅ args row) (conjuncts w) <->
    Forall (matches ∅ args row) cs /\ Forall (matches ∅ args row) (jp_residualPreds jp)).
  { rewrite Hres, !list.Forall_forall. split.
    - intros HA. split; intros c Hc; [by apply HA, Hsub|]. apply list_elem_of_In, filter_In in Hc as [Hc _]. by apply HA, list_elem_of_In.
    - intros [H1 H2] c Hc. destruct (decide (c ∈ cs)) as [Hin|Hni]; [by apply H1|]. apply H2, list_elem_of_In, filter_In.
      split; [by apply list_elem_of_In|by rewrite bool_decide_false]. }
  rewrite Hsplit, Hpreds. unfold driver_access. destruct (jp_driverCompWalk jp) as [[os ss]|] eqn:Ew.
  - destruct Hdup as [|Hnd]; [done|]. destruct (Hwalk os ss eq_refl) as (k & eqs & He & Hk & Hs & Hl). unfold driver_preds. rewrite Hl, Hs.
    rewrite (comp_split args row Hrow Hargs n (jp_driverOff jp) (jp_driverRT jp) cs (conjuncts w) os k eqs Hcsb Hsub Hnd He Hk). cbv zeta. tauto.
  - rewrite (fetch_split args row Hrow Hargs n (jp_driverOff jp) (jp_driverRT jp) cs Hcsb). rewrite Hidx.
    unfold driver_preds. destruct (pick_fetch _ _ cs None) as [[c [[o v] b]]|]; cbn; tauto.
Qed.

(** ** Two tables *)
Definition a_def : TableDef :=
  MkTable (lit "a")
    [MkCol (lit "id") TypeUUID true false false false;
     MkCol (lit "k") TypeInt false false false false;
     MkCol (lit "d") TypeInt false false false false;
     MkCol (lit "n") TypeInt false false false true]
    [MkIndex [] [lit "k"; lit "d"] true; MkIndex [] [lit "n"] true].
Definition b_def : TableDef :=
  MkTable (lit "b")
    [MkCol (lit "bid") TypeUUID true false false false;
     MkCol (lit "aid") TypeUUID false false false false]
    [MkIndex [] [lit "aid"] false].
Definition ab_cat : catalog := match newCatalog [a_def; b_def] with Ok c => c | _ => MkCatalog 0 ∅ [] end.
Definition ab_plan (sql : string) : outcome plan :=
  r ← prepare 2056 id (fun _ => 0) false (lit sql) ab_cat ∅; Ok (fst r).
Definition ab_join (sql : string) : option (option expr * joinPlan) :=
  match ab_plan sql with
  | Ok pl => match pl_st pl, pl_joinPlan pl with SSelect s, Some jp => Some (sel_where s, jp) | _, _ => None end
  | _ => None
  end.
Definition ab_row : Row := [UUIDVal zeroUUID; Int 2; Int 7; Null; UUIDVal zeroUUID; UUIDVal zeroUUID].
Definition walk_sql : string := "SELECT * FROM a JOIN b ON a.id = b.aid WHERE a.k = ? AND a.k = ? ORDER BY a.d".

Definition ab_parsed (sql : string) : selectStmt :=
  match parseSQL 2056 id (lit sql) with
  | Ok st => match fst (assignParamIndices st) with SSelect s => s | _ => MkSelect [] false false [] [] [] None [] [] false 0 0 end
  | _ => MkSelect [] false false [] [] [] None [] [] false 0 0
  end.
Definition one_sql : string := "SELECT * FROM a JOIN b ON a.id = b.aid WHERE a.k = ? AND b.aid = a.id ORDER BY a.d".
Lemma ab_resolved : tables_resolved ab_cat.
Proof.
  intros name rt H. assert (E : map_Forall (fun _ rt => existsb (fun t => bool_decide (resolve_table t = Ok (table rt))) [a_def; b_def] = true) (byName ab_cat))
    by (apply (bool_decide_unpack _); vm_compute; exact I). specialize (E name rt H). apply existsb_exists in E as (t & _ & E). apply bool_decide_eq_true in E. eauto.
Qed.
Lemma join_where_split_witness : exists w ords names jp, planJoin (fun _ => 0) (ab_parsed one_sql) ab_cat = Ok (w, ords, names, jp) /\
  (Forall (matches ∅ [Int 2] ab_row) (conjuncts w) <->
   Forall (pinned ∅ [Int 2] ab_row) (driver_access jp) /\ Forall (matches ∅ [Int 2] ab_row) (jp_driverPreds jp) /\
   Forall (matches ∅ [Int 2] ab_row) (jp_residualPreds jp)).
Proof.
  assert (Hok : is_ok (planJoin (fun _ => 0) (ab_parsed one_sql) ab_cat) = true) by (vm_compute; reflexivity).
  destruct (planJoin (fun _ => 0) (ab_parsed one_sql) ab_cat) as [[[[w ords] names] jp]| |] eqn:E; [|discriminate Hok..].
  exists w, ords, names, jp. split; [reflexivity|].
  apply (join_where_split (fun _ => 0) (ab_parsed one_sql) ab_cat w ords names jp [Int 2] ab_row ab_resolved);
    [vm_compute; tauto|exact E|repeat constructor; vm_compute; done|repeat constructor; vm_compute; done|].
  right. assert (Ew : w = match planJoin (fun _ => 0) (ab_parsed one_sql) ab_cat with Ok (w, _, _, _) => w | _ => None end) by (rewrite E; reflexivity).
  rewrite Ew. apply (bool_decide_unpack _). vm_compute. exact I.
Defined.

(** A column pinned twice under a composite walk of the driver: the earlier
    equality is enforced nowhere. The row has k = 2; the WHERE asks for k = 1 and
    k = 2. *)
Example join_walk_drops_a_conjunct :
  match ab_join walk_sql with
  | Some (w, jp) =>
      jp_driverCompWalk jp = Some ([1%nat; 2%nat], [paramRef 1]) /\ driver_access jp = [(1%nat, paramRef 1)] /\
      jp_driverPreds jp = [] /\ jp_residualPreds jp = [] /\
      map (fun c => interpreted c ∅ [Int 1; Int 2] ab_row) (conjuncts w) = [Ok false; Ok true]
  | None => False
  end.
Proof. vm_compute. done. Qed.
(** The driver of a join is walked along an index on a nullable column, which
    holds no row whose cell is NULL; the same ORDER BY without the join is not. *)
Example join_walk_on_nullable_column :
  match ab_plan "SELECT * FROM a LEFT JOIN b ON a.id = b.aid ORDER BY a.n", ab_plan "SELECT * FROM a ORDER BY n" with
  | Ok pj, Ok ps => (jp_driverWalk <$> pl_joinPlan pj) = Some (Some 3%nat) /\ c_Nullable <$> (t_Columns a_def !! 3%nat) = Some true /\
      orderWalk (pl_access ps) = false
  | _, _ => False
  end.
Proof. vm_compute. done. Qed.
