(* ===== verification/Store.v ===== *)
(** * Store: budget.go, store.go, store_read.go, store_write.go, store_compact.go,
    compact.go and the tally of stats.go — the in-memory arena of one table.

    The definitions are the bodies for a non-partitioned table (after the
    [t.pkDir != nil] dispatch). Every method runs under the shard lock or locks
    it takes, so it is one atomic step of the table's state; a row slice aliases
    its arena slot, so writing through it is a write of the slot. The outer
    [outcome] of a method is only ever [Ok] or [Panic]; its Go [error] is part of
    the result, because the state survives it. Byte counts are unbounded
    integers: they measure memory the process holds, far below 2^63. *)
From S2P Require Import Prelude Bytes Uuid Value PkMap Codec Frame Journal Schema.

Definition lift {A} (o : option A) : outcome A :=
  match o with Some a => Ok a | None => Panic end.

(** ** The byte budget *)
Definition budget_reserve (max total cost : Z) : Z * bool :=
  if max =? 0 then (total, true)
  else
    let total := total + cost in
    if total >? max then (total + - cost, false) else (total, true).
Definition budget_release (max total cost : Z) : Z :=
  if negb (max =? 0) then total + - cost else total.
Definition budget_adjust (max total delta : Z) : Z :=
  if negb (max =? 0) && negb (delta =? 0) then total + delta else total.

(** ** Row cost *)
Definition rowFixedOverhead : Z := 64.
Definition perIndexRowOverhead : Z := 48.
Definition approxBytes (v : Value) : Z :=
  if bool_decide (Kind v = KindString) || bool_decide (Kind v = KindBytes) then 32 + w0 v else 32.
Definition rowCost (row : Row) (nIdx : Z) : Z :=
  fold_left (fun cells v => cells + approxBytes v) row 0 + rowFixedOverhead + nIdx * perIndexRowOverhead.
Definition cellDelta (oldv newv : Value) : Z :=
  let d := if bool_decide (Kind newv = KindString) || bool_decide (Kind newv = KindBytes)
           then 0 + w0 newv else 0 in
  if bool_decide (Kind oldv = KindString) || bool_decide (Kind oldv = KindBytes) then d - w0 oldv else d.

(** ** Tables *)
Record tableShard : Type := MkShard {
  s_rows : list (option Row);
  s_pk : pkMap;
  s_live : Z;
  s_bytes : Z;
  s_dirtyRead : list UUID;
  s_dirtyDel : list UUID;
}.
Record tbl_state : Type := MkTbl {
  t_shards : list tableShard;
  t_total : Z;      (* the shared budget's running total *)
  t_readDirty : Z;
  t_delDirty : Z;
}.

(** shardCount() on [ncpu] processors. *)
Definition shardCount (ncpu : Z) : Z :=
  let n := ncpu * 4 in
  let n := if n <? 64 then 64 else n in
  let n := if n >? 1024 then 1024 else n in
  Z.shiftl 1 (bitsLen (n - 1)).

Definition shardIdxOf (mask : Z) (u : UUID) : nat :=
  let a := le_get (slice (ubytes u) 0 8) in
  let b := le_get (slice (ubytes u) 8 16) in
  let h := u64 (Z.lxor a (rotl32 b) * 0x9E3779B97F4A7C15) in
  Z.to_nat (Z.land (u32 (Z.shiftr h 32)) mask).

(** mutJournal: the WAL is [None] for a memory-only database, which is when the
    zero mutJournal is passed. *)
Record mutJournal : Type := MkMJ {
  mj_tableID : Z;
  mj_ords : list nat;
  mj_pkOrd : nat;
  mj_pkVal : Value;
}.

Section store.
Context (pkHashSeed : Z) {J : Type} `{Journal J}.

(** What is fixed for the life of a table: its definition and the budget's cap. *)
Context (def : resolvedTable) (max : Z).

Definition pkOrd : nat := Z.to_nat (rt_pkOrdinal def).
Definition nIndexes : Z := zlen (rt_indexes def).

Definition mj_insert (j : mutJournal) (w : option J) (row : Row) : option J * option error :=
  jwrite_opt w recMutation (encodeInsertMutation [] (mj_tableID j) row).
Definition mj_update (j : mutJournal) (w : option J) (nr : Row) : outcome (option J * option error) :=
  match w with
  | None => Ok (w, None)
  | Some _ =>
      pk ← index nr (mj_pkOrd j);
      buf ← encodeUpdateMutation [] (mj_tableID j) pk (mj_ords j) nr;
      Ok (jwrite_opt w recMutation buf)
  end.
Definition mj_delete (j : mutJournal) (w : option J) : option J * option error :=
  jwrite_opt w recMutation (encodeDeleteMutation [] (mj_tableID j) (mj_pkVal j)).

Definition newTable (ncpu sizeHint total : Z) : outcome tbl_state :=
  let n := shardCount ncpu in
  let per := sizeHint / n in
  let per := if per <? 16 then 16 else per in
  pk ← lift (pk_init pk_empty per);
  Ok (MkTbl (replicate (Z.to_nat n) (MkShard [] pk 0 0 [] [])) total 0 0).

Definition mask (t : tbl_state) : Z := zlen (t_shards t) - 1.
Definition idx (t : tbl_state) (u : UUID) : nat := shardIdxOf (mask t) u.
Definition put_shard (t : tbl_state) (i : nat) (s : tableShard) : tbl_state :=
  MkTbl (<[i := s]> (t_shards t)) (t_total t) (t_readDirty t) (t_delDirty t).
Definition set_total (t : tbl_state) (total : Z) : tbl_state :=
  MkTbl (t_shards t) total (t_readDirty t) (t_delDirty t).

Definition markDirtyLocked (t : tbl_state) (i : nat) (s : tableShard) (pk : UUID) : tbl_state :=
  if 0 <? nIndexes then
    MkTbl (<[i := MkShard (s_rows s) (s_pk s) (s_live s) (s_bytes s) (s_dirtyRead s ++ [pk]) (s_dirtyDel s)]>
      (t_shards t)) (t_total t) (t_readDirty t + 1) (t_delDirty t)
  else put_shard t i s.
Definition markDelDirtyLocked (t : tbl_state) (i : nat) (s : tableShard) (pk : UUID) : tbl_state :=
  if 0 <? nIndexes then
    MkTbl (<[i := MkShard (s_rows s) (s_pk s) (s_live s) (s_bytes s) (s_dirtyRead s) (s_dirtyDel s ++ [pk])]>
      (t_shards t)) (t_total t) (t_readDirty t) (t_delDirty t + 1)
  else put_shard t i s.

Definition addRowLocked (s : tableShard) (row : Row) (cost : Z) : tableShard * Z :=
  let rowID := zlen (s_rows s) in
  (MkShard (s_rows s ++ [Some row]) (s_pk s) (s_live s + 1) (s_bytes s + cost) (s_dirtyRead s) (s_dirtyDel s),
   rowID).
Definition set_pk (s : tableShard) (pk : pkMap) : tableShard :=
  MkShard (s_rows s) pk (s_live s) (s_bytes s) (s_dirtyRead s) (s_dirtyDel s).
Definition set_row (s : tableShard) (n : nat) (r : option Row) : tableShard :=
  MkShard (<[n := r]> (s_rows s)) (s_pk s) (s_live s) (s_bytes s) (s_dirtyRead s) (s_dirtyDel s).
(** addBytesLocked's two halves. *)
Definition add_bytes (s : tableShard) (delta : Z) : tableShard :=
  MkShard (s_rows s) (s_pk s) (s_live s) (s_bytes s + delta) (s_dirtyRead s) (s_dirtyDel s).
Definition addBytesLocked (t : tbl_state) (s : tableShard) (delta : Z) : tbl_state * tableShard :=
  (set_total t (budget_adjust max (t_total t) delta), add_bytes s delta).

Definition ordIsIndexed (ord : nat) : bool :=
  existsb (fun ix => existsb (fun o => (ord =? o)%nat) (ri_ordinals ix)) (rt_indexes def).
Definition updateTouchesIndex (ords : list nat) : bool := existsb ordIsIndexed ords.

Definition tombstoneLocked (t : tbl_state) (s : tableShard) (rowID : nat) : outcome (tbl_state * tableShard) :=
  r ← index (s_rows s) rowID;
  let cost := rowCost (default [] r) nIndexes in
  Ok (set_total t (budget_release max (t_total t) cost),
      MkShard (<[rowID := None]> (s_rows s)) (s_pk s) (s_live s - 1) (s_bytes s - cost)
        (s_dirtyRead s) (s_dirtyDel s)).

(** *** Inserts *)
Definition insert_with (mark : bool) (t : tbl_state) (w : option J) (row : Row) (journal : option J -> option J * option error)
  : outcome (tbl_state * option J * option error) :=
  pkv ← index row pkOrd;
  let pk := v_UUID pkv in
  let i := idx t pk in
  s ← index (t_shards t) i;
  r ← lift (pk_reserve pkHashSeed (s_pk s) pk);
  let '(m, slot, exists_) := r in
  let s := set_pk s m in
  if exists_ : bool then Ok (put_shard t i s, w, Some ErrDuplicatePK)
  else
    let cost := rowCost row nIndexes in
    let '(total, ok) := budget_reserve max (t_total t) cost in
    let t := set_total t total in
    if negb ok then Ok (put_shard t i s, w, Some ErrCapacity)
    else
      let '(w, jerr) := journal w in
      match jerr with
      | Some e => Ok (put_shard (set_total t (budget_release max (t_total t) cost)) i s, w, Some e)
      | None =>
          let '(s, rowID) := addRowLocked s row cost in
          let s := set_pk s (pk_commit (s_pk s) slot pk rowID) in
          Ok (if mark then markDirtyLocked t i s pk else put_shard t i s, w, None)
      end.
Definition t_insert (t : tbl_state) (row : Row) : outcome (tbl_state * option error) :=
  r ← insert_with false t None row (fun w => (w, None)); Ok (fst (fst r), snd r).
Definition insertJournaled (t : tbl_state) (w : option J) (row : Row) (j : mutJournal)
  : outcome (tbl_state * option J * option error) :=
  insert_with true t w row (fun w => mj_insert j w row).

(** *** Updates *)

(** [for i, ord := range ords { r[ord] = vals[i] }] *)
Fixpoint set_cells (r : Row) (ords : list nat) (vals : list Value) : outcome Row :=
  match ords with
  | [] => Ok r
  | ord :: ords =>
      match vals with
      | [] => Panic
      | v :: vals => if (ord <? length r)%nat then set_cells (<[ord := v]> r) ords vals else Panic
      end
  end.
(** The memory-only loop, which also sums the cell deltas as it goes. *)
Fixpoint set_cells_delta (r : Row) (ords : list nat) (vals : list Value) (delta : Z) : outcome (Row * Z) :=
  match ords with
  | [] => Ok (r, delta)
  | ord :: ords =>
      match vals with
      | [] => Panic
      | v :: vals =>
          old ← index r ord;
          set_cells_delta (<[ord := v]> r) ords vals (delta + cellDelta old v)
      end
  end.
Fixpoint get_cells (r : Row) (ords : list nat) : outcome (list Value) :=
  match ords with
  | [] => Ok []
  | ord :: ords => v ← index r ord; vs ← get_cells r ords; Ok (v :: vs)
  end.
Definition sum_deltas (old vals : list Value) : Z :=
  fold_left (fun d ov => d + cellDelta (fst ov) (snd ov)) (zip old vals) 0.

Definition live_row (s : tableShard) (rowID : Z) : outcome Row :=
  r ← index (s_rows s) (Z.to_nat rowID); lift r.

(** One row's SET under its shard lock, shared by the PK-pinned and the
    index-candidate lanes: apply, journal, revert on failure. *)
Definition set_row_journaled (t : tbl_state) (w : option J) (i : nat) (s : tableShard) (rowID : Z)
    (pk : UUID) (r : Row) (ords : list nat) (vals : list Value) (j : mutJournal)
  : outcome (tbl_state * option J * option error) :=
  let touch := updateTouchesIndex ords in
  match w with
  | None =>
      rd ← set_cells_delta r ords vals 0;
      let '(r, delta) := rd in
      let '(t, s) := addBytesLocked t (set_row s (Z.to_nat rowID) (Some r)) delta in
      Ok (if touch then markDirtyLocked t i s pk else put_shard t i s, w, None)
  | Some _ =>
      old ← get_cells r ords;
      nr ← set_cells r ords vals;
      je ← mj_update j w nr;
      let '(w, jerr) := je in
      match jerr with
      | Some e =>
          r ← set_cells nr ords old;
          Ok (put_shard t i (set_row s (Z.to_nat rowID) (Some r)), w, Some e)
      | None =>
          let delta := sum_deltas old (take (length ords) vals) in
          let '(t, s) := addBytesLocked t (set_row s (Z.to_nat rowID) (Some nr)) delta in
          Ok (if touch then markDirtyLocked t i s pk else put_shard t i s, w, None)
      end
  end.

Definition updateByPKJournaled (t : tbl_state) (w : option J) (pk : UUID) (ords : list nat)
    (compute : Row -> outcome (list Value)) (j : mutJournal)
  : outcome (tbl_state * option J * (bool * option error)) :=
  let i := idx t pk in
  s ← index (t_shards t) i;
  g ← lift (pk_get pkHashSeed (s_pk s) pk);
  let '(rowID, ok) := g in
  if negb ok then Ok (t, w, (false, None))
  else
    r ← live_row s rowID;
    match compute r with
    | Err e => Ok (t, w, (false, Some e))
    | Panic => Panic
    | Ok vals =>
        x ← set_row_journaled t w i s rowID pk r ords vals j;
        let '(t, w, e) := x in
        Ok (t, w, (match e with None => true | _ => false end, e))
    end.

(** The one-column lanes build no slices; the effect is the same lane at one
    ordinal. *)
Definition updateByPKOneJournaled (t : tbl_state) (w : option J) (pk : UUID) (ord : nat)
    (compute : Row -> outcome Value) (j : mutJournal)
  : outcome (tbl_state * option J * (bool * option error)) :=
  let i := idx t pk in
  s ← index (t_shards t) i;
  g ← lift (pk_get pkHashSeed (s_pk s) pk);
  let '(rowID, ok) := g in
  if negb ok then Ok (t, w, (false, None))
  else
    r ← live_row s rowID;
    match compute r with
    | Err e => Ok (t, w, (false, Some e))
    | Panic => Panic
    | Ok val =>
        x ← set_row_journaled t w i s rowID pk r [ord] [val] j;
        let '(t, w, e) := x in
        Ok (t, w, (match e with None => true | _ => false end, e))
    end.

Definition updateOneByCandidate (t : tbl_state) (w : option J) (pk : UUID) (ord : nat)
    (match_ : Row -> bool) (computeOne : Row -> outcome Value) (j : mutJournal)
  : outcome (tbl_state * option J * (Z * option error)) :=
  let i := idx t pk in
  s ← index (t_shards t) i;
  g ← lift (pk_get pkHashSeed (s_pk s) pk);
  let '(rowID, ok) := g in
  if negb ok then Ok (t, w, (0, None))
  else
    r ← index (s_rows s) (Z.to_nat rowID);
    match r with
    | None => Ok (t, w, (0, None))
    | Some r =>
        if negb (match_ r) then Ok (t, w, (0, None))
        else match computeOne r with
        | Err e => Ok (t, w, (0, Some e))
        | Panic => Panic
        | Ok val =>
            x ← set_row_journaled t w i s rowID pk r [ord] [val] j;
            let '(t, w, e) := x in
            Ok (t, w, (match e with None => 1 | _ => 0 end, e))
        end
    end.

(** The replay path. [mutate] edits the arena row in place ([fst]) and returns a
    row or nil ([snd]). *)
Definition t_update (t : tbl_state) (pk : UUID) (mutate : Row -> Row * option Row)
  : outcome (tbl_state * bool) :=
  let i := idx t pk in
  s ← index (t_shards t) i;
  g ← lift (pk_get pkHashSeed (s_pk s) pk);
  let '(rowID, ok) := g in
  if negb ok then Ok (t, false)
  else
    r ← live_row s rowID;
    let before := rowCost r nIndexes in
    let '(r', res) := mutate r in
    let bad := put_shard t i (set_row s (Z.to_nat rowID) (Some r')) in
    match res with
    | None => Ok (bad, false)
    | Some nr =>
        pkv ← index nr pkOrd;
        if bool_decide (v_UUID pkv <> pk) then Ok (bad, false)
        else
          let '(t, s) := addBytesLocked t (set_row s (Z.to_nat rowID) (Some nr)) (rowCost nr nIndexes - before) in
          Ok (markDirtyLocked t i s pk, true)
    end.

(** *** Deletes *)
Definition deleteByPKJournaled (t : tbl_state) (w : option J) (pk : UUID) (j : mutJournal)
  : outcome (tbl_state * option J * (bool * option error)) :=
  let i := idx t pk in
  s ← index (t_shards t) i;
  f ← lift (pk_find pkHashSeed (s_pk s) pk);
  let '(slot, rowID, ok) := f in
  if negb ok then Ok (t, w, (false, None))
  else
    let '(w, jerr) := mj_delete j w in
    match jerr with
    | Some e => Ok (t, w, (false, Some e))
    | None =>
        ts ← tombstoneLocked t s (Z.to_nat rowID);
        let '(t, s) := ts in
        m ← lift (pk_delAt pkHashSeed (s_pk s) slot);
        Ok (markDelDirtyLocked t i (set_pk s m) pk, w, (true, None))
    end.

Definition deleteOneByCandidate (t : tbl_state) (w : option J) (pk : UUID)
    (match_ : option (Row -> bool)) (j : mutJournal)
  : outcome (tbl_state * option J * (bool * option error)) :=
  let i := idx t pk in
  s ← index (t_shards t) i;
  f ← lift (pk_find pkHashSeed (s_pk s) pk);
  let '(slot, rowID, ok) := f in
  if negb ok then Ok (t, w, (false, None))
  else
    r ← index (s_rows s) (Z.to_nat rowID);
    match r with
    | None => Ok (t, w, (false, None))
    | Some r =>
        if match match_ with Some f => negb (f r) | None => false end then Ok (t, w, (false, None))
        else
          let '(w, jerr) := mj_delete j w in
          match jerr with
          | Some e => Ok (t, w, (false, Some e))
          | None =>
              ts ← tombstoneLocked t s (Z.to_nat rowID);
              let '(t, s) := ts in
              m ← lift (pk_delAt pkHashSeed (s_pk s) slot);
              Ok (markDelDirtyLocked t i (set_pk s m) pk, w, (true, None))
          end
    end.

Definition deleteByPK (t : tbl_state) (pk : UUID) : outcome (tbl_state * bool) :=
  let i := idx t pk in
  s ← index (t_shards t) i;
  d ← lift (pk_del pkHashSeed (s_pk s) pk);
  let '(m, rowID, ok) := d in
  let s := set_pk s m in
  if negb ok then Ok (put_shard t i s, false)
  else
    ts ← tombstoneLocked t s (Z.to_nat rowID);
    let '(t, s) := ts in
    Ok (markDelDirtyLocked t i s pk, true).

(** *** Multi-row statements *)

(** The nested loop of pass 1: every live arena row with its place. *)
Definition live_cells_of (i : nat) (s : tableShard) : list (nat * nat * Row) :=
  omap (fun jr => match snd jr with Some r => Some (i, fst jr, r) | None => None end)
    (imap (fun j r => (j, r)) (s_rows s)).
Definition live_cells (t : tbl_state) : list (nat * nat * Row) :=
  concat (imap live_cells_of (t_shards t)).

(** The places the candidate lanes visit: one per PK that still resolves. *)
Fixpoint candidate_cells (t : tbl_state) (pks : list UUID) : outcome (list (nat * nat * Row)) :=
  match pks with
  | [] => Ok []
  | pk :: pks =>
      let i := idx t pk in
      s ← index (t_shards t) i;
      g ← lift (pk_get pkHashSeed (s_pk s) pk);
      let '(rowID, ok) := g in
      if negb ok then candidate_cells t pks
      else
        r ← index (s_rows s) (Z.to_nat rowID);
        cs ← candidate_cells t pks;
        Ok (match r with Some r => (i, Z.to_nat rowID, r) :: cs | None => cs end)
  end.

Fixpoint pend_updates (cells : list (nat * nat * Row)) (match_ : Row -> bool) (ords : list nat)
    (compute : Row -> outcome (list Value)) : outcome (list (nat * nat * Row)) :=
  match cells with
  | [] => Ok []
  | (i, j, r) :: cells =>
      if negb (match_ r) then pend_updates cells match_ ords compute
      else
        vals ← compute r;
        nr ← set_cells (Row_Clone r) ords vals;
        p ← pend_updates cells match_ ords compute;
        Ok ((i, j, nr) :: p)
  end.

Definition apply_update (ords : list nat) (t : tbl_state) (p : nat * nat * Row) : outcome tbl_state :=
  let '(i, j, nr) := p in
  s ← index (t_shards t) i;
  r ← index (s_rows s) j;
  let '(t, s) := addBytesLocked t s (rowCost nr nIndexes - rowCost (default [] r) nIndexes) in
  let s := set_row s j (Some nr) in
  pkv ← index nr pkOrd;
  Ok (if updateTouchesIndex ords then markDirtyLocked t i s (v_UUID pkv) else put_shard t i s).
Fixpoint apply_updates (ords : list nat) (t : tbl_state) (ps : list (nat * nat * Row)) : outcome tbl_state :=
  match ps with
  | [] => Ok t
  | p :: ps => t ← apply_update ords t p; apply_updates ords t ps
  end.

(** [encode] and [journalAll] are nil for a memory-only database. *)
Definition journal_bodies (w : option J) (bodies : list bytes) : option J * option error :=
  match w, bodies with
  | None, _ | _, [] => (w, None)
  | Some _, _ => jwrite_opt w recTxn (encodeTxn [] bodies)
  end.

Fixpoint encode_pending (encode : Row -> outcome bytes) (ps : list (nat * nat * Row)) : outcome (list bytes) :=
  match ps with
  | [] => Ok []
  | (_, _, nr) :: ps => b ← encode nr; bs ← encode_pending encode ps; Ok (b :: bs)
  end.
Definition update_cells (t : tbl_state) (w : option J) (cells : list (nat * nat * Row))
    (match_ : Row -> bool) (ords : list nat) (compute : Row -> outcome (list Value))
    (encode : Row -> outcome bytes)
  : outcome (tbl_state * option J * (Z * option error)) :=
  match pend_updates cells match_ ords compute with
  | Err e => Ok (t, w, (0, Some e))
  | Panic => Panic
  | Ok pending =>
      bodies ← encode_pending encode pending;
      let '(w, jerr) := journal_bodies w bodies in
      match jerr with
      | Some e => Ok (t, w, (0, Some e))
      | None => t ← apply_updates ords t pending; Ok (t, w, (zlen pending, None))
      end
  end.
Definition updateWhereAll (t : tbl_state) (w : option J) (match_ : Row -> bool) (ords : list nat)
    (compute : Row -> outcome (list Value)) (encode : Row -> outcome bytes) :=
  update_cells t w (live_cells t) match_ ords compute encode.
Definition updateByCandidates (t : tbl_state) (w : option J) (pks : list UUID) (match_ : Row -> bool)
    (ords : list nat) (compute : Row -> outcome (list Value)) (encode : Row -> outcome bytes) :=
  cells ← candidate_cells t pks; update_cells t w cells match_ ords compute encode.

Definition apply_delete (t : tbl_state) (p : nat * nat * UUID) : outcome tbl_state :=
  let '(i, j, pk) := p in
  s ← index (t_shards t) i;
  d ← lift (pk_del pkHashSeed (s_pk s) pk);
  ts ← tombstoneLocked t (set_pk s (fst (fst d))) j;
  let '(t, s) := ts in
  Ok (markDelDirtyLocked t i s pk).
Fixpoint apply_deletes (t : tbl_state) (ps : list (nat * nat * UUID)) : outcome tbl_state :=
  match ps with
  | [] => Ok t
  | p :: ps => t ← apply_delete t p; apply_deletes t ps
  end.
Fixpoint pend_deletes (cells : list (nat * nat * Row)) (match_ : Row -> bool)
  : outcome (list (nat * nat * UUID) * list Value) :=
  match cells with
  | [] => Ok ([], [])
  | (i, j, r) :: cells =>
      if negb (match_ r) then pend_deletes cells match_
      else
        pkv ← index r pkOrd;
        p ← pend_deletes cells match_;
        Ok ((i, j, v_UUID pkv) :: fst p, pkv :: snd p)
  end.
Definition delete_cells (t : tbl_state) (w : option J) (cells : list (nat * nat * Row))
    (match_ : Row -> bool) (encode : Value -> bytes)
  : outcome (tbl_state * option J * (Z * option error)) :=
  p ← pend_deletes cells match_;
  let '(pending, pkvs) := p in
  let '(w, jerr) := journal_bodies w (map encode pkvs) in
  match jerr with
  | Some e => Ok (t, w, (0, Some e))
  | None => t ← apply_deletes t pending; Ok (t, w, (zlen pending, None))
  end.
Definition deleteWhereAll (t : tbl_state) (w : option J) (match_ : Row -> bool) (encode : Value -> bytes) :=
  delete_cells t w (live_cells t) match_ encode.
Definition deleteByCandidates (t : tbl_state) (w : option J) (pks : list UUID) (match_ : Row -> bool)
    (encode : Value -> bytes) :=
  cells ← candidate_cells t pks; delete_cells t w cells match_ encode.

Definition liveCount (t : tbl_state) : Z := fold_left (fun n s => n + s_live s) (t_shards t) 0.
Definition dirtyTooDenseForScan (t : tbl_state) : bool :=
  if t_readDirty t =? 0 then false else t_readDirty t >=? liveCount t.

(** *** Reads *)
Definition getByPK (t : tbl_state) (pk : UUID) : outcome (option Row) :=
  s ← index (t_shards t) (idx t pk);
  g ← lift (pk_get pkHashSeed (s_pk s) pk);
  let '(rowID, ok) := g in
  if negb ok then Ok None
  else r ← index (s_rows s) (Z.to_nat rowID);
       Ok (match r with Some r => Some (Row_Clone r) | None => None end).

Fixpoint projectClone (r : Row) (ords : list nat) : outcome Row :=
  match ords with
  | [] => Ok []
  | ord :: ords => v ← index r ord; vs ← projectClone r ords; Ok (cloneValue v :: vs)
  end.
Definition getByPKProject (t : tbl_state) (pk : UUID) (ords : list nat) : outcome (option Row) :=
  s ← index (t_shards t) (idx t pk);
  g ← lift (pk_get pkHashSeed (s_pk s) pk);
  let '(rowID, ok) := g in
  if negb ok then Ok None
  else r ← index (s_rows s) (Z.to_nat rowID);
       match r with Some r => pr ← projectClone r ords; Ok (Some pr) | None => Ok None end.
Definition getByPKProjectInto (t : tbl_state) (pk : UUID) (ords : option (list nat)) (dst : list Value)
  : outcome (list Value * bool) :=
  s ← index (t_shards t) (idx t pk);
  let out := take 0 dst in
  g ← lift (pk_get pkHashSeed (s_pk s) pk);
  let '(rowID, ok) := g in
  if negb ok then Ok (out, false)
  else r ← index (s_rows s) (Z.to_nat rowID);
       match r with
       | None => Ok (out, false)
       | Some r =>
           out ← match ords with
                 | None => Ok (appendRowClone out r)
                 | Some ords => appendProjectClone out r ords
                 end;
           Ok (out, true)
       end.

(** scanAll with a callback threading a state; [false] stops the walk. *)
Fixpoint scan_rows {A} (rows : list (option Row)) (fn : A -> Row -> A * bool) (a : A) : A * bool :=
  match rows with
  | [] => (a, true)
  | None :: rows => scan_rows rows fn a
  | Some r :: rows => let '(a, go) := fn a r in if negb go then (a, false) else scan_rows rows fn a
  end.
Fixpoint scan_shards {A} (shards : list tableShard) (fn : A -> Row -> A * bool) (a : A) : A :=
  match shards with
  | [] => a
  | s :: shards =>
      let '(a, go) := scan_rows (s_rows s) fn a in
      if negb go then a else scan_shards shards fn a
  end.
Definition scanAll {A} (t : tbl_state) (fn : A -> Row -> A * bool) (a : A) : A :=
  scan_shards (t_shards t) fn a.

(** *** Compaction *)
Definition compactMinSlots : Z := 64.
Definition shardDense (s : tableShard) : bool :=
  (zlen (s_rows s) - s_live s >? s_live s) && (zlen (s_rows s) >=? compactMinSlots).
Fixpoint compact_rows (rows : list (option Row)) (newRows : list (option Row)) (newPk : pkMap)
  : outcome (list (option Row) * pkMap) :=
  match rows with
  | [] => Ok (newRows, newPk)
  | None :: rows => compact_rows rows newRows newPk
  | Some r :: rows =>
      pkv ← index r pkOrd;
      m ← lift (pk_put pkHashSeed newPk (v_UUID pkv) (zlen newRows));
      compact_rows rows (newRows ++ [Some r]) m
  end.
Definition compactShardLocked (s : tableShard) : outcome tableShard :=
  newPk ← lift (pk_init pk_empty (s_live s));
  rp ← compact_rows (s_rows s) [] newPk;
  Ok (MkShard (fst rp) (snd rp) (s_live s) (s_bytes s) (s_dirtyRead s) (s_dirtyDel s)).
Definition compactShardIfDense (t : tbl_state) (i : nat) : outcome tbl_state :=
  s ← index (t_shards t) i;
  if negb (shardDense s) then Ok t
  else s ← compactShardLocked s; Ok (put_shard t i s).

(** liveStats: rows, tombstones, bytes. *)
Definition liveStats (t : tbl_state) : Z * Z * Z :=
  fold_left (fun acc s => let '(r, d, b) := acc in (r + s_live s, d + (zlen (s_rows s) - s_live s), b + s_bytes s))
    (t_shards t) (0, 0, 0).
End store.
