(* ===== verification/SecIndex.v ===== *)
(** * SecIndex: the in-memory secondary index of secindex.go — the hash and the
    sorted form, their maintenance and every lookup. An index is a value here;
    each method holds the index lock for its whole body, so it is one step. *)
From S2P Require Import Prelude Bytes Order Uuid Value CompositeKey.

Record ordEntry : Type := MkEntry {
  oe_key : indexKey;
  oe_pk : UUID;
}.

Record secIndex : Type := MkSecIndex {
  si_ordinals : list nat;
  si_ordered : bool;
  si_fwd : gmap indexKey (list UUID);
  si_rev : gmap UUID indexKey;
  si_sorted : list ordEntry;
}.

Definition newSecIndex (ordinals : list nat) (ordered : bool) : secIndex :=
  MkSecIndex ordinals ordered ∅ ∅ [].
Definition si_set (si : secIndex) (fwd : gmap indexKey (list UUID)) (rev : gmap UUID indexKey) : secIndex :=
  MkSecIndex (si_ordinals si) (si_ordered si) fwd rev (si_sorted si).
Definition si_set_sorted (si : secIndex) (sorted : list ordEntry) : secIndex :=
  MkSecIndex (si_ordinals si) (si_ordered si) (si_fwd si) (si_rev si) sorted.

Definition bucket (fwd : gmap indexKey (list UUID)) (k : indexKey) : list UUID := default [] (fwd !! k).

(** The loop stops at the first hit: the last PK takes its place. *)
Definition removeFwdLocked (fwd : gmap indexKey (list UUID)) (k : indexKey) (pk : UUID)
  : gmap indexKey (list UUID) :=
  let b := bucket fwd k in
  let b := match list_find (fun x => x = pk) b with
           | Some (i, _) =>
               let last := (length b - 1)%nat in
               take last (<[i := nth last b pk]> b)
           | None => b
           end in
  if (length b =? 0)%nat then delete k fwd else <[k := b]> fwd.

Definition apply (si : secIndex) (pk : UUID) (newKey : indexKey) (indexable : bool) : secIndex * bool :=
  let old := si_rev si !! pk in
  if si_ordered si then
    if indexable then
      if bool_decide (old = Some newKey) then (si, false)
      else (si_set si (si_fwd si) (<[pk := newKey]> (si_rev si)), true)
    else match old with
         | None => (si, false)
         | Some _ => (si_set si (si_fwd si) (delete pk (si_rev si)), true)
         end
  else if indexable && bool_decide (old = Some newKey) then (si, false)
  else
    let '(fwd, rev) := match old with
                       | Some o => (removeFwdLocked (si_fwd si) o pk, delete pk (si_rev si))
                       | None => (si_fwd si, si_rev si)
                       end in
    if indexable then (si_set si (<[newKey := bucket fwd newKey ++ [pk]]> fwd) (<[pk := newKey]> rev), true)
    else (si_set si fwd rev, true).

(** ** The sorted view *)
Definition ordCmp (a b : ordEntry) : Z :=
  if less (oe_key a) (oe_key b) then -1
  else if less (oe_key b) (oe_key a) then 1
  else cmpZ (bytes_cmp (ubytes (oe_pk a)) (ubytes (oe_pk b))).
Definition ordLess (a b : ordEntry) : bool := ordCmp a b <? 0.

Definition entry_of (pk : UUID) (key : indexKey) : ordEntry := MkEntry key pk.

(** slices.SortFunc with ordCmp; Go's map iteration order does not matter,
    because the sort has one result. *)
Definition rebuildSorted (si : secIndex) : secIndex :=
  si_set_sorted si (sort_by ordLess ((fun e => entry_of (fst e) (snd e)) <$> map_to_list (si_rev si))).

Fixpoint merge_loop (dirty : gset UUID) (old : list ordEntry) : list ordEntry -> list ordEntry :=
  fix inner (add : list ordEntry) : list ordEntry :=
    match old, add with
    | [], _ => add
    | _, [] => filter (fun e => oe_pk e ∉ dirty) old
    | o :: old', a :: add' =>
        if bool_decide (oe_pk o ∈ dirty) then merge_loop dirty old' add
        else if ordLess o a then o :: merge_loop dirty old' add
        else a :: inner add'
    end.
Definition mergeSorted (si : secIndex) (dirtyPKs : list UUID) : secIndex :=
  let dirty : gset UUID := list_to_set dirtyPKs in
  let add := sort_by ordLess (omap (fun pk => entry_of pk <$> si_rev si !! pk) (elements dirty)) in
  si_set_sorted si (merge_loop dirty (si_sorted si) add).

(** ** Lookups *)

Definition lookup (si : secIndex) (k : indexKey) : list UUID :=
  if si_ordered si then
    let l := si_sorted si in
    let lo := Search (length l) (at_ l (fun e => negb (less (oe_key e) k))) in
    map oe_pk (walk_while (fun e => negb (less k (oe_key e))) (drop lo l))
  else bucket (si_fwd si) k.

Definition lookupOne (si : secIndex) (k : indexKey) : UUID * bool * bool :=
  if si_ordered si then
    let l := si_sorted si in
    let lo := Search (length l) (at_ l (fun e => negb (less (oe_key e) k))) in
    match l !! lo with
    | None => (zeroUUID, false, false)
    | Some e =>
        if less k (oe_key e) then (zeroUUID, false, false)
        else match l !! S lo with
             | Some e' => if negb (less k (oe_key e')) then (zeroUUID, true, false) else (oe_pk e, true, true)
             | None => (oe_pk e, true, true)
             end
    end
  else match bucket (si_fwd si) k with
       | [] => (zeroUUID, false, false)
       | [pk] => (pk, true, true)
       | _ => (zeroUUID, true, false)
       end.

Definition prefixLookup (si : secIndex) (prefix : indexKey) : list UUID :=
  let l := si_sorted si in
  let lo := Search (length l) (at_ l (fun e => negb (bytes_ltb (ik_s (oe_key e)) (ik_s prefix)))) in
  map oe_pk (walk_while (fun e => has_prefix (ik_s (oe_key e)) (ik_s prefix)) (drop lo l)).

Fixpoint ub_loop (b : bytes) (n : nat) : bytes :=
  match n with
  | O => []
  | S i => let c := nth i b Byte.x00 in
           if negb (bool_decide (c = Byte.xff)) then take i b ++ [z2b (b2z c + 1)] else ub_loop b i
  end.
Definition prefixUpperBound (p : bytes) : bytes := ub_loop p (length p).

Definition snapshotPrefix (si : secIndex) (prefix : indexKey) : outcome (list ordEntry) :=
  let s := si_sorted si in
  let lo := Search (length s) (at_ s (fun e => negb (bytes_ltb (ik_s (oe_key e)) (ik_s prefix)))) in
  let ub := prefixUpperBound (ik_s prefix) in
  let hi := if bool_decide (ub = []) then length s
            else Search (length s) (at_ s (fun e => negb (bytes_ltb (ik_s (oe_key e)) ub))) in
  slice_o s (Z.of_nat lo) (Z.of_nat hi).

Definition intersectPKs (a b : list UUID) : list UUID :=
  let '(a, b) := if (length b <? length a)%nat then (b, a) else (a, b) in
  if (length a =? 0)%nat then []
  else let set : gset UUID := list_to_set a in filter (fun pk => pk ∈ set) b.

Definition snapshot (si : secIndex) : list ordEntry := si_sorted si.

Definition lookupLeading (si : secIndex) (key : Value) : list UUID :=
  if (length (si_ordinals si) =? 1)%nat then lookup si (keyOf key)
  else prefixLookup si (encodeCompositeKey [key]).

Definition countKey (si : secIndex) (key : Value) : Z :=
  let k := keyOf key in
  if negb (si_ordered si) then zlen (bucket (si_fwd si) k)
  else
    let l := si_sorted si in
    let lo := Search (length l) (at_ l (fun e => negb (less (oe_key e) k))) in
    let hi := Search (length l) (at_ l (fun e => less k (oe_key e))) in
    Z.of_nat hi - Z.of_nat lo.

(** The index list of a table; first match wins. *)
Definition indexFor (indexes : list secIndex) (ord : nat) : option secIndex :=
  find (fun si => match si_ordinals si with [o] => (o =? ord)%nat | _ => false end) indexes.
Definition probeIndexFor (indexes : list secIndex) (ord : nat) : option secIndex :=
  find (fun si => match si_ordinals si with o :: _ => (o =? ord)%nat | _ => false end) indexes.
Definition indexByOrdinals (indexes : list secIndex) (ords : list nat) : option secIndex :=
  find (fun si => bool_decide (si_ordinals si = ords)) indexes.

(** ** Key order as a total order

    [less] looks at the payload of the left key's kind only, so it orders the
    keys one index holds: same kind, unused fields zero. [kcmp] is a total order
    on all keys that agrees with it there. *)
Definition key_canon (kd : ValueKind) (k : indexKey) : Prop :=
  ik_kind k = kd /\ in_u64 (ik_w0 k) /\
  match kd with
  | KindInt | KindBool => ik_w1 k = 0 /\ ik_s k = []
  | KindUUID => ik_s k = []
  | KindString | KindBytes => ik_w0 k = 0 /\ ik_w1 k = 0
  | KindNull => False
  end.

Definition key_tuple (k : indexKey) : Z * (Z * (Z * (Z * bytes))) :=
  (kind_num (ik_kind k),
   (match ik_kind k with KindInt | KindBool => s64 (ik_w0 k) | _ => 0 end, (ik_w0 k, (ik_w1 k, ik_s k)))).
Definition kcmp (k o : indexKey) : comparison :=
  lex_cmp Z.compare (lex_cmp Z.compare (lex_cmp Z.compare (lex_cmp Z.compare bytes_cmp)))
    (key_tuple k) (key_tuple o).
Definition ecmp (a b : ordEntry) : comparison :=
  lex_cmp kcmp uuid_cmp (oe_key a, oe_pk a) (oe_key b, oe_pk b).

#[export] Instance key_tuple_inj : Inj (=) (=) key_tuple.
Proof.
  intros [k a b s] [k' a' b' s'] [= E1 _ E2 E3 E4]. cbn in *. subst. f_equal. by destruct k, k'.
Qed.
#[export] Instance kcmp_total : TotalCmp kcmp.
Proof. apply (inj_total key_tuple); apply _. Qed.
#[export] Instance ecmp_total : TotalCmp ecmp.
Proof.
  apply (inj_total (fun e => (oe_key e, oe_pk e))); [apply _|]. intros [k p] [k' p'] [= -> ->]. done.
Qed.

Definition kltb : indexKey -> indexKey -> bool := ltb_of kcmp.
Definition eltb : ordEntry -> ordEntry -> bool := ltb_of ecmp.

Lemma s64_inj a b : in_u64 a -> in_u64 b -> s64 a = s64 b -> a = b.
Proof. intros Ha Hb E. by rewrite <- (u64_s64 a Ha), <- (u64_s64 b Hb), E. Qed.

Lemma less_kltb kd k o : key_canon kd k -> key_canon kd o -> less k o = kltb k o.
Proof.
  intros (Ek & Rk & Hk) (Eo & Ro & Ho). unfold less, kltb, ltb_of, kcmp, key_tuple, lex_cmp. cbn [fst snd].
  rewrite Ek, Eo, Z.compare_refl. destruct kd; [done|..].
  1,4: destruct Hk as [-> ->], Ho as [-> ->]; rewrite !Z.ltb_compare; destruct (Z.compare_spec (s64 (ik_w0 k)) (s64 (ik_w0 o))) as [E| |]; [|done..];
    by rewrite (s64_inj _ _ Rk Ro E), !Z.compare_refl.
  1,2: destruct Hk as [-> ->], Ho as [-> ->]; done.
  rewrite Hk, Ho, !Z.compare_refl. destruct (Z.eqb_spec (ik_w0 k) (ik_w0 o)) as [->|Hne]; cbn [negb].
  - rewrite Z.compare_refl, Z.ltb_compare. by destruct (_ ?= _).
  - rewrite Z.ltb_compare. destruct (Z.compare_spec (ik_w0 k) (ik_w0 o)); lia || done.
Qed.

Lemma ordLess_eltb kd a b : key_canon kd (oe_key a) -> key_canon kd (oe_key b) -> ordLess a b = eltb a b.
Proof.
  intros Ha Hb. unfold ordLess, ordCmp, eltb, ltb_of, ecmp, lex_cmp. cbn [fst snd].
  rewrite (less_kltb kd _ _ Ha Hb), (less_kltb kd _ _ Hb Ha). unfold kltb, ltb_of.
  rewrite (tc_anti (oe_key a) (oe_key b)). destruct (kcmp (oe_key a) (oe_key b)); cbn; [|done..].
  unfold uuid_cmp. by destruct (bytes_cmp _ _).
Qed.

Lemma keyOf_canon v : indexable v -> key_canon (Kind v) (keyOf v).
Proof.
  intros [Hv N]. apply value_ok_kind in Hv. unfold keyOf, key_canon. destruct (Kind v) eqn:K; [done|..];
    cbn [ik_kind ik_w0 ik_w1 ik_s]; (split; [done|]); try (split; [unfold in_u64; lia|done]).
  - split; [apply u64_range|done].
  - split; [|done]. unfold in_u64. destruct (v_Bool v); lia.
  - unfold uuidWords. cbn [ik_kind ik_w0 ik_w1 ik_s]. split; [|done]. rewrite Hv. unfold UUIDVal. cbn [w0].
    destruct (uuid_halves (v_UUID v)) as (_ & H0 & _).
    pose proof (be_get_range (slice (ubytes (v_UUID v)) 0 8)) as P0. rewrite H0 in P0. exact P0.
Qed.
Lemma composite_canon vs : key_canon KindBytes (encodeCompositeKey vs).
Proof. split; [done|]. split; [|done]. unfold in_u64. cbn. lia. Qed.

(** ** The sorted view of a map from PK to key *)
Definition entries (m : gmap UUID indexKey) : list ordEntry :=
  (fun e => entry_of (fst e) (snd e)) <$> map_to_list m.
Definition sorted_view (m : gmap UUID indexKey) : list ordEntry := sort_by eltb (entries m).
Definition canon_map (kd : ValueKind) (m : gmap UUID indexKey) : Prop := map_Forall (fun _ => key_canon kd) m.

Lemma entries_elem m e : e ∈ entries m <-> m !! oe_pk e = Some (oe_key e).
Proof.
  unfold entries. rewrite list_elem_of_fmap. split.
  - intros ([pk key] & -> & H%elem_of_map_to_list). done.
  - intros H. exists (oe_pk e, oe_key e). split; [by destruct e|]. by apply elem_of_map_to_list.
Qed.
Lemma entries_nodup m : NoDup (entries m).
Proof.
  apply NoDup_fmap_2; [|apply NoDup_map_to_list]. intros [a b] [a' b'] [= -> ->]. done.
Qed.
Lemma sorted_view_elem m e : e ∈ sorted_view m <-> m !! oe_pk e = Some (oe_key e).
Proof. rewrite <- entries_elem. unfold sorted_view. by rewrite sort_by_perm. Qed.
Lemma sorted_view_sorted m : StronglySorted (le_of ecmp) (sorted_view m).
Proof. apply sort_by_sorted, _. Qed.
Lemma sorted_view_unique m l : StronglySorted (le_of ecmp) l -> NoDup l ->
  (forall e, e ∈ l <-> m !! oe_pk e = Some (oe_key e)) -> l = sorted_view m.
Proof.
  intros Hs Hn He. symmetry. apply sort_by_unique; [apply _|done|].
  apply NoDup_Permutation; [apply entries_nodup|done|]. intros e. by rewrite entries_elem, He.
Qed.
Lemma view_pks_nodup (P : ordEntry -> Prop) `{!forall e, Decision (P e)} m :
  NoDup (map oe_pk (filter P (sorted_view m))).
Proof.
  apply NoDup_fmap_2_strong.
  - intros [k p] [k' p'] [_ Ha%sorted_view_elem]%list_elem_of_filter [_ Hb%sorted_view_elem]%list_elem_of_filter E.
    cbn in *. subst. rewrite Ha in Hb. by injection Hb as ->.
  - apply list.NoDup_filter. unfold sorted_view. rewrite sort_by_perm. apply entries_nodup.
Qed.

(** Sorting with the code's comparator on keys of one kind. *)
Lemma sort_ordLess kd l : Forall (fun e => key_canon kd (oe_key e)) l -> sort_by ordLess l = sort_by eltb l.
Proof. apply (sort_by_ext (fun e => key_canon kd (oe_key e))). apply ordLess_eltb. Qed.

Lemma merge_loop_nil_r dirty old : merge_loop dirty old [] = filter (fun e => oe_pk e ∉ dirty) old.
Proof. by destruct old. Qed.
Lemma merge_loop_cons dirty o old a add :
  merge_loop dirty (o :: old) (a :: add) =
    if bool_decide (oe_pk o ∈ dirty) then merge_loop dirty old (a :: add)
    else if ordLess o a then o :: merge_loop dirty old (a :: add)
    else a :: merge_loop dirty (o :: old) add.
Proof. done. Qed.

Lemma merge_loop_ok kd dirty old : forall add,
  Forall (fun e => key_canon kd (oe_key e)) old -> Forall (fun e => key_canon kd (oe_key e)) add ->
  StronglySorted (le_of ecmp) old -> StronglySorted (le_of ecmp) add ->
  merge_loop dirty old add ≡ₚ filter (fun e => oe_pk e ∉ dirty) old ++ add /\
  StronglySorted (le_of ecmp) (merge_loop dirty old add).
Proof.
  induction old as [|o old IH]; [intros [|a add]; cbn; by split|]. induction add as [|a add IHa]; intros Ho Ha Hso Hsa.
  { rewrite merge_loop_nil_r, app_nil_r. split; [done|]. by apply sorted_filter. }
  rewrite merge_loop_cons, list.filter_cons. apply list.Forall_cons in Ho as [Co Ho].
  apply StronglySorted_cons in Hso as [Hlo Hso]. case_bool_decide as Hd.
  { rewrite decide_False by tauto. by apply IH. }
  rewrite decide_True by done. assert (Ca : key_canon kd (oe_key a)) by by apply list.Forall_cons in Ha as [? _].
  rewrite (ordLess_eltb kd _ _ Co Ca). unfold eltb, ltb_of. destruct (ecmp o a) eqn:E.
  2: { destruct (IH (a :: add) Ho Ha Hso Hsa) as [P S]. split; [by rewrite P|].
       constructor; [done|]. rewrite P. apply Forall_app. split.
       - rewrite list.Forall_forall in Hlo |- *. intros x [_ Hx]%list_elem_of_filter. by apply Hlo.
       - apply StronglySorted_cons in Hsa as [Hla _]. constructor; [unfold le_of; congruence|].
         eapply Forall_impl; [|exact Hla]. cbv beta. intros x Hx. etrans; [|exact Hx]. unfold le_of. congruence. }
  all: apply list.Forall_cons in Ha as [_ Ha]; apply StronglySorted_cons in Hsa as [Hla Hsa].
  all: assert (Hao : le_of ecmp a o) by (unfold le_of; rewrite tc_gt; congruence).
  all: destruct IHa as [P S]; [by constructor|done|by constructor|done|].
  all: rewrite list.filter_cons, decide_True in P by done.
  all: split; [rewrite P; apply Permutation_middle|].
  all: constructor; [done|]; rewrite P; constructor; [done|].
  all: apply Forall_app; split; [|done].
  all: rewrite list.Forall_forall in Hlo |- *; intros x [_ Hx]%list_elem_of_filter; etrans; [exact Hao|by apply Hlo].
Qed.

Lemma changed_elem (rev : gmap UUID indexKey) (dirty : gset UUID) e :
  e ∈ omap (fun pk => entry_of pk <$> rev !! pk) (elements dirty) <->
    oe_pk e ∈ dirty /\ rev !! oe_pk e = Some (oe_key e).
Proof.
  rewrite list_elem_of_omap. split.
  - intros (pk & Hpk%elem_of_elements & E). destruct (rev !! pk) as [key|] eqn:Hr; [|done].
    injection E as <-. done.
  - intros [Hd Hr]. exists (oe_pk e). rewrite elem_of_elements, Hr. split; [done|]. by destruct e.
Qed.
Lemma changed_nodup (rev : gmap UUID indexKey) (dirty : gset UUID) :
  NoDup (omap (fun pk => entry_of pk <$> rev !! pk) (elements dirty)).
Proof.
  generalize (NoDup_elements dirty). generalize (elements dirty). induction l as [|pk l IH]; intros Hn; [constructor|].
  apply list.NoDup_cons in Hn as [Hin Hn]. cbn [omap list_omap]. destruct (rev !! pk) as [key|] eqn:E; cbn; [|by apply IH].
  apply list.NoDup_cons. split; [|by apply IH].
  intros (x & Hx & Ex)%list_elem_of_omap. destruct (rev !! x); [|done]. injection Ex as _ <-. done.
Qed.

Lemma rebuildSorted_view kd si : canon_map kd (si_rev si) ->
  rebuildSorted si = si_set_sorted si (sorted_view (si_rev si)).
Proof.
  intros Hc. unfold rebuildSorted. f_equal. apply (sort_ordLess kd). apply list.Forall_forall.
  intros e He%entries_elem. by eapply Hc.
Qed.

Lemma mergeSorted_view kd si m dirty : si_sorted si = sorted_view m -> canon_map kd m -> canon_map kd (si_rev si) ->
  (forall pk, pk ∉ dirty -> si_rev si !! pk = m !! pk) ->
  mergeSorted si dirty = si_set_sorted si (sorted_view (si_rev si)).
Proof.
  intros Hs Hm Hr Hd. unfold mergeSorted. f_equal. set (ds := list_to_set dirty : gset UUID).
  set (add := omap _ _). rewrite (sort_ordLess kd add).
  2: { apply list.Forall_forall. intros e [_ He]%changed_elem. by eapply Hr. }
  destruct (merge_loop_ok kd ds (si_sorted si) (sort_by eltb add)) as [P S].
  - rewrite Hs. apply list.Forall_forall. intros e He%sorted_view_elem. by eapply Hm.
  - rewrite sort_by_perm. apply list.Forall_forall. intros e [_ He]%changed_elem. by eapply Hr.
  - rewrite Hs. apply sorted_view_sorted.
  - apply sort_by_sorted, _.
  - assert (Hin : forall pk, pk ∈ ds <-> pk ∈ dirty) by (intros; apply elem_of_list_to_set).
    apply sorted_view_unique; [done| |].
    + rewrite P. apply list.NoDup_app. split; [|split].
      * rewrite Hs. apply list.NoDup_filter. unfold sorted_view. rewrite sort_by_perm. apply entries_nodup.
      * intros e [Hn _]%list_elem_of_filter He. rewrite sort_by_perm in He. by apply changed_elem in He as [? _].
      * rewrite sort_by_perm. apply changed_nodup.
    + intros e. rewrite P, elem_of_app, list_elem_of_filter, sort_by_perm. unfold add. rewrite changed_elem, Hs, sorted_view_elem.
      rewrite Hin. destruct (decide (oe_pk e ∈ dirty)) as [Hi|Hi]; [tauto|]. rewrite (Hd _ Hi). tauto.
Qed.
