(* ===== verification/IndexOk.v ===== *)
(** * IndexOk: a secondary index holds a finite map from PK to key, whichever
    form it takes, and its lookups answer from that map. *)
From S2P Require Import Prelude Bytes Order Uuid Value CompositeKey SecIndex.

(** ** The hash form *)
Definition hash_ok (fwd : gmap indexKey (list UUID)) (rev : gmap UUID indexKey) : Prop :=
  forall k, NoDup (bucket fwd k) /\ forall pk, pk ∈ bucket fwd k <-> rev !! pk = Some k.

Lemma bucket_insert fwd k b k' : bucket (<[k := b]> fwd) k' = if decide (k = k') then b else bucket fwd k'.
Proof.
  unfold bucket. destruct (decide (k = k')) as [<-|]; [by rewrite lookup_insert_eq|by rewrite lookup_insert_ne].
Qed.
Lemma bucket_delete fwd k k' : bucket (delete k fwd) k' = if decide (k = k') then [] else bucket fwd k'.
Proof.
  unfold bucket. destruct (decide (k = k')) as [<-|]; [by rewrite lookup_delete_eq|by rewrite lookup_delete_ne].
Qed.

(** Moving the last element into the hole removes one element. *)
Lemma swap_remove_perm (b l : list UUID) (pk x : UUID) : b = l ++ x :: drop (S (length l)) b ->
  x :: take (length b - 1) (<[length l := nth (length b - 1) b pk]> b) ≡ₚ b.
Proof.
  intros E. remember (drop _ _) as r eqn:Er. clear Er. subst b.
  rewrite length_app, insert_app_r_alt, Nat.sub_diag by lia. cbn [length].
  destruct (exists_last (l := x :: r)) as (q & z & Ez); [done|].
  assert (El : (length l + S (length r) - 1 = length (l ++ q))%nat).
  { apply (f_equal length) in Ez. rewrite length_app in Ez. cbn in Ez. rewrite length_app. lia. }
  rewrite El, Ez. rewrite app_assoc at 1. rewrite nth_middle. destruct q as [|y q]; cbn in Ez; injection Ez as <- ->.
  - cbn [app list_insert insert]. rewrite take_app_length' by (by rewrite app_nil_r).
    rewrite Permutation_app_comm. done.
  - change (<[0%nat := z]> ((x :: q) ++ [z])) with (z :: q ++ [z]).
    replace (l ++ z :: q ++ [z]) with ((l ++ z :: q) ++ [z]) by (by rewrite <- app_assoc).
    rewrite take_app_length' by (rewrite !length_app; done).
    cbn [app]. rewrite <- (Permutation_middle l (q ++ [z]) x). constructor. apply Permutation_app_head, Permutation_cons_append.
Qed.

Lemma removeFwd_bucket fwd k pk k' : NoDup (bucket fwd k) ->
  let b' := bucket (removeFwdLocked fwd k pk) k' in
  if decide (k = k') then NoDup b' /\ (forall x, x ∈ b' <-> x ∈ bucket fwd k /\ x <> pk)
  else b' = bucket fwd k'.
Proof.
  intros Hn b'. unfold b', removeFwdLocked. set (b := bucket fwd k) in *. cbv zeta.
  set (c := match list_find _ b with Some (i, _) => _ | None => b end).
  assert (Hc : NoDup c /\ forall x, x ∈ c <-> x ∈ b /\ x <> pk).
  { subst c. destruct (list_find (fun x => x = pk) b) as [[i x]|] eqn:F.
    - apply list_find_Some in F as (Hi & -> & _). apply list_elem_of_split_length in Hi as (l & r & Eb & ->).
      assert (P : pk :: take (length b - 1) (<[length l := nth (length b - 1) b pk]> b) ≡ₚ b).
      { apply swap_remove_perm. rewrite Eb at 1. f_equal. f_equal. rewrite Eb.
        rewrite drop_app_ge by lia. replace (S (length l) - length l)%nat with 1%nat by lia. done. }
      rewrite <- P in Hn. apply list.NoDup_cons in Hn as [Hnin Hn]. split; [done|].
      intros y. assert (Hyb : y ∈ b <-> y ∈ pk :: take (length b - 1) (<[length l := nth (length b - 1) b pk]> b)) by (by rewrite P).
      rewrite Hyb, elem_of_cons. split.
      + intros Hy. split; [by right|]. by intros ->.
      + by intros [[->|?] ?].
    - apply list_find_None in F. split; [done|]. intros x. split; [|tauto]. intros Hx. split; [done|].
      rewrite list.Forall_forall in F. by apply F. }
  destruct (Nat.eqb_spec (length c) 0) as [E|E].
  - rewrite bucket_delete. destruct (decide (k = k')); [|done]. apply nil_length_inv in E. by rewrite E in Hc.
  - rewrite bucket_insert. by destruct (decide (k = k')).
Qed.

(** ** What an index holds

    [kd] is the kind of its keys and [m] what its readers see: for the hash form
    the reverse map, for the sorted form the map the sorted slice was last
    folded from ([si_rev] may be ahead of it while a merge runs). *)
Definition idx_ok (kd : ValueKind) (si : secIndex) (m : gmap UUID indexKey) : Prop :=
  canon_map kd (si_rev si) /\
  if si_ordered si then canon_map kd m /\ si_sorted si = sorted_view m
  else hash_ok (si_fwd si) (si_rev si) /\ m = si_rev si.

Lemma newSecIndex_ok kd ordinals ordered : idx_ok kd (newSecIndex ordinals ordered) ∅.
Proof.
  split; [done|]. cbn. destruct ordered; [done|]. split; [|done]. intros k. unfold bucket.
  rewrite lookup_empty. cbn. split; [constructor|]. intros pk. rewrite lookup_empty. split; [by intros ?%elem_of_nil|done].
Qed.

(** [apply] moves one PK: the reverse map is updated, the hash form's buckets
    follow, the sorted view waits for the fold; [changed] is false only when
    nothing moved, and on a sorted index exactly then. *)
Definition moved (rev : gmap UUID indexKey) (pk : UUID) (key : option indexKey) : gmap UUID indexKey :=
  match key with Some k => <[pk := k]> rev | None => delete pk rev end.
Definition key_opt (k : indexKey) (indexable : bool) : option indexKey := if indexable then Some k else None.

Lemma moved_lookup rev pk key q : moved rev pk key !! q = if decide (pk = q) then key else rev !! q.
Proof.
  unfold moved. destruct key; destruct (decide (pk = q)) as [<-|];
    rewrite ?lookup_insert_eq, ?lookup_delete_eq, ?lookup_insert_ne, ?lookup_delete_ne; done.
Qed.
Lemma moved_same rev pk key : rev !! pk = key -> moved rev pk key = rev.
Proof. intros E. apply map_eq. intros q. rewrite moved_lookup. by destruct (decide (pk = q)) as [<-|]. Qed.
Lemma moved_canon kd rev pk key : canon_map kd rev -> (forall k, key = Some k -> key_canon kd k) ->
  canon_map kd (moved rev pk key).
Proof.
  intros Hr Hk q k. rewrite moved_lookup. destruct (decide (pk = q)); [apply Hk|apply Hr].
Qed.

Lemma hash_remove fwd rev pk o : hash_ok fwd rev -> rev !! pk = Some o ->
  hash_ok (removeFwdLocked fwd o pk) (delete pk rev).
Proof.
  intros Hh Hr k. pose proof (removeFwd_bucket fwd o pk k (proj1 (Hh o))) as R. cbv zeta in R.
  destruct (Hh k) as [Hn Hin]. destruct (decide (o = k)) as [->|Hne].
  - destruct R as [R1 R2]. split; [done|]. intros x. rewrite R2, Hin, lookup_delete_Some. split; intros [? ?]; by split.
  - rewrite R. split; [done|]. intros x. rewrite Hin, lookup_delete_Some. split; [|by intros [_ ?]].
    intros Hx. split; [|done]. intros <-. rewrite Hr in Hx. by injection Hx.
Qed.
Lemma hash_add fwd rev pk k : hash_ok fwd rev -> rev !! pk = None ->
  hash_ok (<[k := bucket fwd k ++ [pk]]> fwd) (<[pk := k]> rev).
Proof.
  intros Hh Hr k'. rewrite bucket_insert. destruct (Hh k') as [Hn Hin]. destruct (decide (k = k')) as [<-|Hne].
  - split.
    + apply list.NoDup_app. split; [done|]. split; [|apply NoDup_singleton].
      intros x Hx ->%list_elem_of_singleton. apply Hin in Hx. congruence.
    + intros x. rewrite elem_of_app, list_elem_of_singleton, Hin, lookup_insert_Some.
      split; [intros [Hx| ->]; [right; split; [congruence|done]|by left]|intros [[-> _]|[_ Hx]]; auto].
  - split; [done|]. intros x. rewrite Hin, lookup_insert_Some. split; [|by intros [[_ ?]|[_ ?]]].
    intros Hx. right. split; [|done]. intros <-. congruence.
Qed.

Lemma apply_ok kd si m pk k indexable : idx_ok kd si m -> (indexable = true -> key_canon kd k) ->
  let si' := fst (apply si pk k indexable) in
  let changed := snd (apply si pk k indexable) in
  let rev' := moved (si_rev si) pk (key_opt k indexable) in
  si_rev si' = rev' /\ si_ordinals si' = si_ordinals si /\ si_ordered si' = si_ordered si /\
  idx_ok kd si' (if si_ordered si then m else rev') /\
  (changed = false -> rev' = si_rev si) /\
  (si_ordered si = true -> changed = true -> rev' <> si_rev si).
Proof.
  intros [Hc Hv] Hk. unfold apply, idx_ok. assert (Hcan : canon_map kd (moved (si_rev si) pk (key_opt k indexable))).
  { apply moved_canon; [done|]. unfold key_opt. destruct indexable; [|done]. intros ? [= <-]. by apply Hk. }
  destruct (si_ordered si) eqn:Ho.
  - destruct indexable; cbn [key_opt] in *.
    + case_bool_decide as E; cbn [fst snd].
      * rewrite (moved_same _ _ _ E), Ho in *. by split_and!; try apply Hv.
      * cbn. rewrite Ho. split_and!; try done; try apply Hv. intros _ _ Em. apply E. rewrite <- Em. cbn. apply lookup_insert_eq.
    + destruct (si_rev si !! pk) as [o|] eqn:E; cbn [fst snd].
      * cbn. rewrite Ho. split_and!; try done; try apply Hv. intros _ _ Em. rewrite <- Em, lookup_delete_eq in E. done.
      * rewrite (moved_same _ _ _ E), Ho in *. by split_and!; try apply Hv.
  - destruct Hv as [Hh ->]. destruct (indexable && bool_decide (si_rev si !! pk = Some k)) eqn:E; cbn [fst snd].
    { apply andb_prop in E as [-> E%bool_decide_eq_true]. cbn [key_opt] in *.
      rewrite (moved_same _ _ _ E), Ho in *. by split_and!; try apply Hv. }
    assert (Hd : forall o, si_rev si !! pk = o -> exists fwd, (match o with
        | Some o => (removeFwdLocked (si_fwd si) o pk, delete pk (si_rev si))
        | None => (si_fwd si, si_rev si) end) = (fwd, delete pk (si_rev si)) /\ hash_ok fwd (delete pk (si_rev si))).
    { intros [o|] Eo; [|rewrite (delete_id _ _ Eo)]; eexists; (split; [done|]); [by apply hash_remove|done]. }
    destruct (Hd _ eq_refl) as (fwd & -> & Hfwd). destruct indexable; cbn; rewrite Ho; [|by split_and!].
    rewrite insert_delete_eq. split_and!; try done. rewrite <- (insert_delete_eq (si_rev si) pk k). apply hash_add; [done|].
    apply lookup_delete_eq.
Qed.

(** ** Lookups on the sorted view *)
Lemma le_ecmp_key x y : le_of ecmp x y -> le_of kcmp (oe_key x) (oe_key y).
Proof. unfold le_of, ecmp, lex_cmp. cbn. by destruct (kcmp (oe_key x) (oe_key y)). Qed.

Lemma kltb_le_l k a b : le_of kcmp a b -> kltb a k = false -> kltb b k = false.
Proof.
  unfold kltb, ltb_of, le_of. intros Hab Ha. destruct (kcmp b k) eqn:E; [done| |done].
  destruct (kcmp a b) eqn:E'; [|by rewrite (tc_trans _ _ _ E' E) in Ha|done].
  apply tc_eq in E'. subst. by rewrite E in Ha.
Qed.
Lemma kltb_le_r k a b : le_of kcmp a b -> kltb k a = true -> kltb k b = true.
Proof.
  unfold kltb, ltb_of, le_of. intros Hab Ha. destruct (kcmp k a) eqn:E; [done| |done].
  destruct (kcmp a b) eqn:E'; [|by rewrite (tc_trans _ _ _ E E')|done].
  apply tc_eq in E'. subst. by rewrite E.
Qed.
Lemma kltb_antisym a b : kltb a b = false -> kltb b a = false -> a = b.
Proof.
  unfold kltb, ltb_of. rewrite (tc_anti a b). destruct (kcmp a b) eqn:E; cbn; [|done..].
  intros _ _. by apply tc_eq in E.
Qed.

Lemma view_upward (p : indexKey -> bool) m :
  (forall a b, le_of kcmp a b -> p a = true -> p b = true) -> upward (fun e => p (oe_key e)) (sorted_view m).
Proof.
  intros Hp. eapply upward_sorted; [apply sorted_view_sorted|]. intros x y _ _ Hxy%le_ecmp_key. by apply Hp.
Qed.

(** The run of one key, as both the walk and the two searches find it. *)
Section equal_run.
Context (kd : ValueKind) (m : gmap UUID indexKey) (k : indexKey).
Hypothesis (Hm : canon_map kd m) (Hk : key_canon kd k).
Let l := sorted_view m.

Lemma view_canon e : e ∈ sorted_view m -> key_canon kd (oe_key e).
Proof. intros He%sorted_view_elem. by eapply Hm. Qed.

Lemma search_ge : Search (length l) (at_ l (fun e => negb (less (oe_key e) k))) =
  Search (length l) (at_ l (fun e => negb (kltb (oe_key e) k))).
Proof.
  apply Search_ext. intros e He. f_equal. apply (less_kltb kd); [by apply view_canon|done].
Qed.
Lemma search_gt : Search (length l) (at_ l (fun e => less k (oe_key e))) =
  Search (length l) (at_ l (fun e => kltb k (oe_key e))).
Proof. apply Search_ext. intros e He. apply (less_kltb kd); [done|by apply view_canon]. Qed.

Lemma ge_upward : upward (fun e => negb (kltb (oe_key e) k)) l.
Proof.
  apply (view_upward (fun a => negb (kltb a k))). intros a b Hab. rewrite !negb_true_iff. by apply kltb_le_l.
Qed.
Lemma gt_upward : upward (fun e => kltb k (oe_key e)) l.
Proof. apply (view_upward (fun a => kltb k a)). intros a b Hab. by apply kltb_le_r. Qed.

Lemma equal_run : let lo := Search (length l) (at_ l (fun e => negb (less (oe_key e) k))) in
  walk_while (fun e => negb (less k (oe_key e))) (drop lo l) = filter (fun e => oe_key e = k) l.
Proof.
  intros lo. unfold lo. rewrite search_ge. destruct (Search_filter l _ ge_upward) as [_ Hd]. cbv zeta in Hd.
  rewrite (walk_while_ext _ (fun e => negb (kltb k (oe_key e)))).
  2: { intros e He. f_equal. apply (less_kltb kd); [done|]. apply view_canon. rewrite <- (take_drop (Search (length l) (at_ l (fun e => negb (kltb (oe_key e) k)))) (sorted_view m)). apply elem_of_app. by right. }
  rewrite walk_while_filter.
  2: { eapply upward_ext; [|apply upward_drop, gt_upward]. cbv beta. intros. by rewrite negb_involutive. }
  rewrite Hd, list_filter_filter. apply list_filter_iff. intros e.
  rewrite !negb_true_iff. split; [intros [H1 H2]; by apply kltb_antisym|].
  intros ->. unfold kltb, ltb_of. by rewrite tc_refl.
Qed.

Lemma equal_count : let lo := Search (length l) (at_ l (fun e => negb (less (oe_key e) k))) in
  let hi := Search (length l) (at_ l (fun e => less k (oe_key e))) in
  Z.of_nat hi - Z.of_nat lo = zlen (filter (fun e => oe_key e = k) l).
Proof.
  cbv zeta. rewrite search_ge, search_gt.
  destruct (Search_filter l _ ge_upward) as [Hl _], (Search_filter l _ gt_upward) as [Hh _].
  destruct (Search_split l _ ge_upward) as [Bl _], (Search_split l _ gt_upward) as [Bh _]. cbv zeta in *.
  set (hi := Search _ (at_ l (fun e => kltb k (oe_key e)))) in *. set (lo := Search _ _) in *.
  assert (El : length (filter (fun e => negb (kltb (oe_key e) k) = false) l) = lo).
  { rewrite <- Hl, length_take. lia. }
  assert (Eh : length (filter (fun e => kltb k (oe_key e) = false) l) = hi).
  { rewrite <- Hh, length_take. lia. }
  enough (E : (length (filter (fun e => kltb k (oe_key e) = false) l) =
    length (filter (fun e => negb (kltb (oe_key e) k) = false) l) + length (filter (fun e => oe_key e = k) l))%nat)
    by (unfold zlen; lia).
  clear. induction l as [|e r IH]; [done|]. rewrite !list.filter_cons.
  destruct (decide (oe_key e = k)) as [->|Hne].
  - rewrite decide_True, decide_False by (unfold kltb, ltb_of; by rewrite tc_refl). cbn. lia.
  - destruct (kltb (oe_key e) k) eqn:E1, (kltb k (oe_key e)) eqn:E2; cbn [negb].
    + exfalso. unfold kltb, ltb_of in *. rewrite (tc_anti (oe_key e) k) in E2. by destruct (kcmp (oe_key e) k).
    + rewrite !decide_True by done. cbn. lia.
    + rewrite !decide_False by done. done.
    + by destruct Hne; apply kltb_antisym.
Qed.
End equal_run.

(** The PKs of a key, whichever form. *)
Lemma lookup_pks kd si m k : idx_ok kd si m -> key_canon kd k ->
  NoDup (lookup si k) /\ forall pk, pk ∈ lookup si k <-> m !! pk = Some k.
Proof.
  intros [Hc Hv] Hk. unfold lookup. destruct (si_ordered si).
  - destruct Hv as [Hm ->]. rewrite (equal_run kd m k Hm Hk). split; [apply view_pks_nodup|].
    intros pk. rewrite list_elem_of_In, in_map_iff. split.
    + intros (e & <- & He%list_elem_of_In). apply list_elem_of_filter in He as [<- He]. by apply sorted_view_elem.
    + intros Hpk. exists (entry_of pk k). rewrite <- list_elem_of_In, list_elem_of_filter, sorted_view_elem. done.
  - destruct Hv as [Hh ->]. apply Hh.
Qed.

(** ** Prefix runs *)
Lemma between_prefix p x y : bytes_ltb x p = false -> bytes_cmp x y <> Gt -> has_prefix y p = true ->
  has_prefix x p = true.
Proof.
  unfold bytes_ltb. revert x y. induction p as [|c p IH]; intros x y; [by destruct x|].
  destruct x as [|a x], y as [|b y]; cbn [has_prefix bytes_cmp]; try done.
  rewrite !andb_true_iff, !bool_decide_eq_true. intros Hx Hxy [-> Hy].
  destruct (Z.compare_spec (b2z a) (b2z c)) as [E|E|E]; [|done|done].
  apply b2z_inj in E as ->. split; [done|]. by apply (IH x y).
Qed.

Lemma bytes_ltb_trans a b c : bytes_ltb a b = true -> bytes_ltb b c = true -> bytes_ltb a c = true.
Proof.
  unfold bytes_ltb. destruct (bytes_cmp a b) eqn:E1; [done| |done]. destruct (bytes_cmp b c) eqn:E2; [done| |done].
  intros _ _. by rewrite (tc_trans _ _ _ E1 E2).
Qed.
Lemma bytes_ltb_le_l x y p : bytes_cmp x y <> Gt -> bytes_ltb x p = false -> bytes_ltb y p = false.
Proof.
  unfold bytes_ltb. intros Hxy Hx. destruct (bytes_cmp y p) eqn:E; [done| |done].
  destruct (bytes_cmp x y) eqn:E'; [|by rewrite (tc_trans _ _ _ E' E) in Hx|done].
  apply tc_eq in E'. subst. by rewrite E in Hx.
Qed.

Lemma has_prefix_refl p : has_prefix p p = true.
Proof. apply has_prefix_spec. exists []. by rewrite app_nil_r. Qed.
Lemma prefix_not_ltb s p : has_prefix s p = true -> bytes_ltb s p = false.
Proof.
  intros [r ->]%has_prefix_spec. unfold bytes_ltb. rewrite <- (app_nil_r p) at 2. rewrite bytes_cmp_app_l.
  by destruct r.
Qed.

(** The upper bound, read from the front. *)
Lemma ub_loop_cons c b n : (n <= length b)%nat ->
  ub_loop (c :: b) (S n) =
    match ub_loop b n with
    | [] => if bool_decide (c = Byte.xff) then [] else [z2b (b2z c + 1)]
    | u => c :: u
    end.
Proof.
  induction n as [|n IH]; intros Hn.
  - cbn. by case_bool_decide.
  - cbn [ub_loop] in IH |- *. cbn [nth]. destruct (bool_decide (nth n b Byte.x00 = Byte.xff)) eqn:E; cbn [negb].
    + apply IH. lia.
    + cbn [take app]. destruct (take n b); done.
Qed.
Lemma prefixUpperBound_cons c b : prefixUpperBound (c :: b) =
  match prefixUpperBound b with
  | [] => if bool_decide (c = Byte.xff) then [] else [z2b (b2z c + 1)]
  | u => c :: u
  end.
Proof. apply ub_loop_cons. done. Qed.

(** The strings from [p] up to its bound are those that start with [p]. *)
Lemma prefix_range p s : bytes_ltb s p = false ->
  has_prefix s p = (if bool_decide (prefixUpperBound p = []) then true else bytes_ltb s (prefixUpperBound p)).
Proof.
  revert s. induction p as [|c p IH]; intros s Hs; [by destruct s|]. rewrite prefixUpperBound_cons.
  destruct s as [|d s]; [done|]. unfold bytes_ltb in Hs. cbn [has_prefix bytes_cmp] in *.
  pose proof (b2z_range c). pose proof (b2z_range d).
  assert (Hff : c <> Byte.xff -> b2z c < 255).
  { intros Hc. destruct (decide (b2z c = 255)) as [E|]; [|lia]. destruct Hc. by apply b2z_inj. }
  destruct (Z.compare_spec (b2z d) (b2z c)) as [E|E|E]; [|done|].
  - apply b2z_inj in E as ->. rewrite (bool_decide_eq_true_2 (c = c)) by done. cbn [andb].
    fold (bytes_ltb s p) in Hs. rewrite (IH s Hs). destruct (prefixUpperBound p) as [|u us].
    + destruct (decide (c = Byte.xff)) as [E|E]; [by rewrite (bool_decide_eq_true_2 (c = _))|].
      rewrite (bool_decide_eq_false_2 (c = _)) by done.
      rewrite (bool_decide_eq_true_2 ([] = [])), bool_decide_eq_false_2 by done.
      unfold bytes_ltb. cbn [bytes_cmp]. rewrite b2z_z2b, Z.mod_small by (specialize (Hff E); lia).
      destruct (Z.compare_spec (b2z c) (b2z c + 1)); done || lia.
    + unfold bytes_ltb. cbn [bytes_cmp]. by rewrite Z.compare_refl.
  - rewrite (bool_decide_eq_false_2 (d = c)) by (intros ->; lia). cbn [andb].
    destruct (prefixUpperBound p) as [|u us].
    + destruct (decide (c = Byte.xff)) as [E'|E']; [subst c; change (b2z Byte.xff) with 255 in *; lia|].
      rewrite (bool_decide_eq_false_2 (c = _)), bool_decide_eq_false_2 by done.
      unfold bytes_ltb. cbn [bytes_cmp]. rewrite b2z_z2b, Z.mod_small by (specialize (Hff E'); lia).
      destruct (Z.compare_spec (b2z d) (b2z c + 1)); [by destruct s|lia|done].
    + unfold bytes_ltb. cbn [bytes_cmp]. destruct (Z.compare_spec (b2z d) (b2z c)); done || lia.
Qed.

Section prefix_run.
Context (m : gmap UUID indexKey) (prefix : indexKey).
Hypothesis Hm : canon_map KindBytes m.
Let l := sorted_view m.
Let p := ik_s prefix.

Lemma le_bytes a b : key_canon KindBytes a -> key_canon KindBytes b -> le_of kcmp a b ->
  bytes_cmp (ik_s a) (ik_s b) <> Gt.
Proof.
  intros (Ea & _ & A0 & A1) (Eb & _ & B0 & B1). unfold le_of, kcmp, key_tuple, lex_cmp. cbn [fst snd].
  by rewrite Ea, Eb, A0, A1, B0, B1.
Qed.
Lemma view_le x y : x ∈ l -> y ∈ l -> le_of ecmp x y -> bytes_cmp (ik_s (oe_key x)) (ik_s (oe_key y)) <> Gt.
Proof. intros Hx%(view_canon _ _ Hm) Hy%(view_canon _ _ Hm) H%le_ecmp_key. by apply le_bytes. Qed.

Lemma prefix_ge_upward q : upward (fun e => negb (bytes_ltb (ik_s (oe_key e)) q)) l.
Proof.
  eapply upward_sorted; [apply sorted_view_sorted|]. intros x y Hx Hy Hxy. rewrite !negb_true_iff.
  by apply bytes_ltb_le_l, view_le.
Qed.

Lemma prefix_walk : let lo := Search (length l) (at_ l (fun e => negb (bytes_ltb (ik_s (oe_key e)) p))) in
  walk_while (fun e => has_prefix (ik_s (oe_key e)) p) (drop lo l) = filter (fun e => has_prefix (ik_s (oe_key e)) p = true) l.
Proof.
  intros lo. destruct (Search_filter l _ (prefix_ge_upward p)) as [_ Hd]. cbv zeta in Hd. fold lo in Hd.
  rewrite walk_while_filter.
  - rewrite Hd, list_filter_filter. apply list_filter_iff. intros e. rewrite negb_true_iff.
    split; [tauto|]. intros H. split; [done|]. by apply prefix_not_ltb.
  - rewrite Hd. eapply upward_sorted; [by apply sorted_filter, sorted_view_sorted|].
    intros x y [Hx1 Hx]%list_elem_of_filter [_ Hy]%list_elem_of_filter Hxy. apply negb_true_iff in Hx1.
    rewrite !negb_true_iff. intros Hn. destruct (has_prefix (ik_s (oe_key y)) p) eqn:E; [|done].
    by rewrite (between_prefix p _ _ Hx1 (view_le _ _ Hx Hy Hxy) E) in Hn.
Qed.

Lemma prefix_slice si : si_sorted si = l -> snapshotPrefix si prefix = Ok (filter (fun e => has_prefix (ik_s (oe_key e)) p = true) l).
Proof.
  intros E. unfold snapshotPrefix. rewrite E. fold p.
  case_bool_decide as U.
  - destruct (Search_split l _ (prefix_ge_upward p)) as (Bl & _), (Search_filter l _ (prefix_ge_upward p)) as [_ Dl].
    cbv zeta in *. unfold slice_o, zlen. rewrite !(proj2 (Z.leb_le _ _)) by lia. cbn [andb]. rewrite !Nat2Z.id.
    unfold slice. rewrite take_ge by (rewrite length_drop; lia). rewrite Dl. f_equal.
    apply list_filter_iff. intros e. rewrite negb_true_iff. split; [|apply prefix_not_ltb].
    intros H. rewrite prefix_range by done. by rewrite bool_decide_eq_true_2.
  - assert (Hpu : bytes_ltb p (prefixUpperBound p) = true).
    { pose proof (prefix_range p p (prefix_not_ltb _ _ (has_prefix_refl p))) as R. rewrite has_prefix_refl in R.
      by rewrite bool_decide_eq_false_2 in R. }
    rewrite Search_slice; [|apply prefix_ge_upward..|].
    + f_equal. apply list_filter_iff. intros e. rewrite negb_true_iff, negb_false_iff. split.
      * intros [H1 H2]. rewrite prefix_range by done. by rewrite bool_decide_eq_false_2.
      * intros H. pose proof (prefix_not_ltb _ _ H) as Hl. split; [done|].
        rewrite prefix_range in H by done. by rewrite bool_decide_eq_false_2 in H.
    + intros e. rewrite !negb_true_iff. intros H. destruct (bytes_ltb (ik_s (oe_key e)) p) eqn:E'; [|done].
      by rewrite (bytes_ltb_trans _ _ _ E' Hpu) in H.
Qed.
End prefix_run.

(** ** What the index promises

    An index at rest: what its readers see is what it has been told. *)
Definition settled (kd : ValueKind) (si : secIndex) : Prop := idx_ok kd si (si_rev si).

Lemma equal_run_lookup kd si m k : idx_ok kd si m -> key_canon kd k -> si_ordered si = true ->
  lookup si k = map oe_pk (filter (fun e => oe_key e = k) (sorted_view m)).
Proof. intros [_ Hv] Hk Ho. unfold lookup. rewrite Ho in *. destruct Hv as [Hm ->]. by rewrite (equal_run kd m k Hm Hk). Qed.

Lemma intersectPKs_ok a b : NoDup a -> NoDup b ->
  NoDup (intersectPKs a b) /\ forall pk, pk ∈ intersectPKs a b <-> pk ∈ a /\ pk ∈ b.
Proof.
  intros Ha Hb. unfold intersectPKs. destruct (if (length b <? length a)%nat then (b, a) else (a, b)) as [x y] eqn:E.
  assert (H : NoDup y /\ forall pk, pk ∈ a /\ pk ∈ b <-> pk ∈ x /\ pk ∈ y).
  { destruct (_ <? _)%nat; injection E as <- <-; split; (done || (intros; tauto)). }
  destruct H as [Hy H]. setoid_rewrite H. destruct (Nat.eqb_spec (length x) 0) as [El|El].
  - apply nil_length_inv in El. subst x. split; [constructor|]. intros pk. split; [by intros ?%elem_of_nil|by intros [?%elem_of_nil _]].
  - split; [by apply list.NoDup_filter|]. intros pk. rewrite list_elem_of_filter, elem_of_list_to_set. done.
Qed.

(** Folding the changed keys into the sorted view gives exactly the view a
    rebuild from scratch gives, provided every PK whose key changed is named;
    naming others, or naming one twice, changes nothing. *)
Theorem mergeSorted_rebuilds kd si m dirty : si_sorted si = sort_by ordLess (entries m) -> canon_map kd m ->
  canon_map kd (si_rev si) -> (forall pk, pk ∉ dirty -> si_rev si !! pk = m !! pk) ->
  mergeSorted si dirty = rebuildSorted si.
Proof.
  intros Hs Hm Hr Hd. rewrite (rebuildSorted_view kd si Hr). apply (mergeSorted_view kd si m); [|done..].
  rewrite Hs. apply (sort_ordLess kd). apply list.Forall_forall. intros e He%entries_elem. by eapply Hm.
Qed.

Lemma lookupOne_classifies si k : lookupOne si k =
  match lookup si k with [] => (zeroUUID, false, false) | [pk] => (pk, true, true) | _ => (zeroUUID, true, false) end.
Proof.
  unfold lookupOne, lookup. destruct (si_ordered si); [|done]. cbv zeta. set (lo := Search _ _). set (l := si_sorted si).
  destruct (l !! lo) as [e|] eqn:E; [|by rewrite drop_ge by (by apply lookup_ge_None)].
  rewrite (drop_S _ _ _ E). cbn [walk_while]. destruct (less k (oe_key e)); [done|]. cbn [negb map].
  destruct (l !! S lo) as [e'|] eqn:E'; [|by rewrite drop_ge by (by apply lookup_ge_None)].
  rewrite (drop_S _ _ _ E'). cbn [walk_while]. by destruct (less k (oe_key e')).
Qed.

Lemma countKey_length kd si m v : idx_ok kd si m -> key_canon kd (keyOf v) -> countKey si v = zlen (lookup si (keyOf v)).
Proof.
  intros Hi Hk. unfold countKey. destruct (si_ordered si) eqn:Ho; cbn [negb].
  - rewrite (equal_run_lookup kd si m _ Hi Hk Ho). unfold zlen. rewrite length_map.
    destruct Hi as [_ Hv]. rewrite Ho in Hv. destruct Hv as [Hm ->]. by apply (equal_count kd).
  - unfold lookup. by rewrite Ho.
Qed.

(** C28: equality lookups are exact. Over an index that holds the map [m], the
    PKs of a key are those [m] gives it, once each; the one-row shortcut and the
    counter agree with that list; and intersecting two such lists keeps exactly
    the PKs in both. *)
Theorem index_lookup_exact kd si m k : idx_ok kd si m -> key_canon kd k ->
  NoDup (lookup si k) /\ (forall pk, pk ∈ lookup si k <-> m !! pk = Some k) /\
  lookupOne si k = match lookup si k with
    [] => (zeroUUID, false, false) | [pk] => (pk, true, true) | _ => (zeroUUID, true, false) end /\
  (forall v, keyOf v = k -> countKey si v = zlen (lookup si k)) /\
  forall other, NoDup other -> NoDup (intersectPKs (lookup si k) other) /\
    forall pk, pk ∈ intersectPKs (lookup si k) other <-> m !! pk = Some k /\ pk ∈ other.
Proof.
  intros Hi Hk. destruct (lookup_pks kd si m k Hi Hk) as [L1 L2].
  split; [done|]. split; [done|]. split; [apply lookupOne_classifies|]. split.
  - intros v <-. by apply (countKey_length kd si m).
  - intros other Ho. setoid_rewrite <- L2. by apply intersectPKs_ok.
Qed.

Lemma prefix_run_exact si m prefix : idx_ok KindBytes si m -> si_ordered si = true ->
  exists run, snapshotPrefix si prefix = Ok run /\ prefixLookup si prefix = map oe_pk run /\
    StronglySorted (le_of ecmp) run /\ NoDup (map oe_pk run) /\
    forall e, e ∈ run <-> m !! oe_pk e = Some (oe_key e) /\ has_prefix (ik_s (oe_key e)) (ik_s prefix) = true.
Proof.
  intros [_ Hv] Ho. rewrite Ho in Hv. destruct Hv as [Hm Es]. eexists. split; [by apply prefix_slice|]. split.
  - unfold prefixLookup. rewrite Es. f_equal. by apply prefix_walk.
  - split; [apply sorted_filter, sorted_view_sorted|]. split; [apply view_pks_nodup|].
    intros e. rewrite list_elem_of_filter, sorted_view_elem. tauto.
Qed.

(** A prefix lookup of an ordered composite index is the run of the keys
    that start with the prefix, in key order and then PK order, each once, with
    the key it was stored under; the upper bound computed by incrementing the
    prefix finds the same run as testing every key. *)
Theorem index_prefix_exact si m prefix : idx_ok KindBytes si m -> si_ordered si = true ->
  exists run, snapshotPrefix si prefix = Ok run /\ prefixLookup si prefix = map oe_pk run /\
    StronglySorted (le_of ecmp) run /\ NoDup (map oe_pk run) /\
    forall e, e ∈ run <-> m !! oe_pk e = Some (oe_key e) /\ has_prefix (ik_s (oe_key e)) (ik_s prefix) = true.
Proof. apply prefix_run_exact. Qed.

(** A batch as the merge runs it: every PK of the batch is applied, the ordered
    form collects the ones that changed and is folded once at the end. *)
Fixpoint apply_batch (si : secIndex) (ops : list (UUID * indexKey * bool)) : secIndex * list UUID :=
  match ops with
  | [] => (si, [])
  | (pk, k, ok) :: ops =>
      let '(si, ch) := apply si pk k ok in
      let '(si, chs) := apply_batch si ops in (si, if ch : bool then pk :: chs else chs)
  end.
Definition batch_run (si : secIndex) (ops : list (UUID * indexKey * bool)) : secIndex :=
  let '(si, chs) := apply_batch si ops in
  if si_ordered si && negb (length chs =? 0)%nat then mergeSorted si chs else si.
(** The same batch on a map: the last word about a PK stands. *)
Definition batch_map (m : gmap UUID indexKey) (ops : list (UUID * indexKey * bool)) : gmap UUID indexKey :=
  fold_left (fun m '(pk, k, ok) => if ok : bool then <[pk := k]> m else delete pk m) ops m.

Lemma apply_batch_ok kd m ops : Forall (fun '(pk, k, ok) => ok = true -> key_canon kd k) ops ->
  forall si, idx_ok kd si m ->
  let si' := fst (apply_batch si ops) in
  si_rev si' = batch_map (si_rev si) ops /\ si_ordered si' = si_ordered si /\ si_ordinals si' = si_ordinals si /\
  idx_ok kd si' (if si_ordered si then m else si_rev si') /\
  forall pk, pk ∉ snd (apply_batch si ops) -> si_rev si' !! pk = si_rev si !! pk.
Proof.
  revert m. induction ops as [|[[pk k] ok] ops IH]; intros m Hops si Hi.
  { cbn. split_and!; try done. destruct (si_ordered si) eqn:E; [done|]. destruct Hi as [Hc Hv]. unfold idx_ok. rewrite E in *. by destruct Hv. }
  apply list.Forall_cons in Hops as [Hk Hops]. destruct (apply_ok kd si m pk k ok Hi Hk) as (A1 & A2 & A3 & A4 & A5 & _).
  cbn [apply_batch batch_map fold_left]. destruct (apply si pk k ok) as [si1 ch] eqn:E1. cbn [fst snd] in *.
  destruct (IH _ Hops si1 A4) as (B1 & B2 & B3 & B4 & B5). destruct (apply_batch si1 ops) as [si2 chs] eqn:E2. cbn [fst snd] in *.
  rewrite B1, B2, B3, A1, A2, A3 in *. split; [by destruct ok|]. split; [done|]. split; [done|]. split.
  { by destruct (si_ordered si). }
  intros q Hq. destruct ch.
  - apply not_elem_of_cons in Hq as [Hne Hq]. rewrite (B5 q Hq), moved_lookup, decide_False; [done|congruence].
  - by rewrite (B5 q Hq), (A5 eq_refl).
Qed.

Lemma index_batch_settled kd si ops : settled kd si -> Forall (fun '(pk, k, ok) => ok = true -> key_canon kd k) ops ->
  settled kd (batch_run si ops) /\ si_rev (batch_run si ops) = batch_map (si_rev si) ops.
Proof.
  intros Hi Hops. destruct (apply_batch_ok kd _ ops Hops si Hi) as (B1 & B2 & B3 & B4 & B5). unfold batch_run, settled.
  destruct (apply_batch si ops) as [si2 chs]. cbn [fst snd] in *. destruct (si_ordered si2) eqn:Ho; cbn [andb].
  - rewrite <- B2 in B4. pose proof B4 as [C1 C2]. rewrite Ho in C2. destruct C2 as [C2 C3].
    destruct (Nat.eqb_spec (length chs) 0) as [El|El]; cbn [negb].
    + apply nil_length_inv in El. subst chs. rewrite B1 in *.
      assert (Em : batch_map (si_rev si) ops = si_rev si).
      { apply map_eq. intros q. apply B5. apply not_elem_of_nil. }
      by rewrite Em in *.
    + rewrite (mergeSorted_view kd si2 (si_rev si) chs C3 C2 C1 B5). cbn [si_set_sorted si_rev].
      split; [|done]. split; [done|]. cbn [si_ordered si_set_sorted si_sorted]. by rewrite Ho.
  - rewrite <- B2 in B4. by split.
Qed.

(** C21: a batch of changes leaves an index exact: applying it entry by entry,
    re-files, duplicates and removals of absent PKs included, and folding the
    ordered form once, gives an index of the map the batch produces. *)
Theorem index_batch_exact kd si ops : settled kd si -> Forall (fun '(pk, k, ok) => ok = true -> key_canon kd k) ops ->
  settled kd (batch_run si ops) /\ si_rev (batch_run si ops) = batch_map (si_rev si) ops.
Proof. apply index_batch_settled. Qed.

(** ** Witnesses: an ordered and a hash index over three rows *)
Definition pk1 : UUID := uuid_of (replicate 16 (z2b 1)).
Definition pk2 : UUID := uuid_of (replicate 16 (z2b 2)).
Definition pk3 : UUID := uuid_of (replicate 16 (z2b 3)).
Definition two_cells (n : Z) (s : bytes) : indexKey := encodeCompositeKey [Int n; Str s].
Definition demo_ops : list (UUID * indexKey * bool) :=
  [(pk1, two_cells 7 (lit "b"), true); (pk2, two_cells 7 (lit "a"), true); (pk3, two_cells (-1) (lit "z"), true);
   (pk1, two_cells 7 (lit "c"), true); (pk2, two_cells 0 [], false); (pk2, two_cells 8 (lit "a"), true)].
Lemma demo_canon : Forall (fun '(pk, k, ok) => ok = true -> key_canon KindBytes k) demo_ops.
Proof. repeat (apply Forall_cons_2; [intros _; apply composite_canon|]). constructor. Qed.
Definition demo_ix : secIndex := batch_run (newSecIndex [1%nat; 2%nat] true) demo_ops.
Definition demo_hash : secIndex := batch_run (newSecIndex [1%nat; 2%nat] false) demo_ops.
Example demo_view : map oe_pk (si_sorted demo_ix) = [pk3; pk1; pk2].
Proof. by vm_compute. Qed.

Lemma index_batch_exact_witness : settled KindBytes demo_ix /\ settled KindBytes demo_hash.
Proof.
  split; apply (index_batch_exact KindBytes _ demo_ops (newSecIndex_ok KindBytes _ _) demo_canon).
Defined.
Lemma demo_settled : settled KindBytes demo_ix.
Proof. apply (index_batch_settled KindBytes _ demo_ops (newSecIndex_ok KindBytes _ _) demo_canon). Qed.
Lemma index_lookup_exact_witness : NoDup (lookup demo_ix (two_cells 7 (lit "c"))) /\ lookupOne demo_ix (two_cells 7 (lit "c")) = (pk1, true, true).
Proof.
  pose proof demo_settled as H.
  destruct (index_lookup_exact KindBytes demo_ix _ (two_cells 7 (lit "c")) H (composite_canon _)) as (Hn & _ & H1 & _).
  split; [exact Hn|]. rewrite H1. vm_compute. reflexivity.
Defined.
Lemma index_prefix_exact_witness : exists run, snapshotPrefix demo_ix (encodeCompositeKey [Int 7]) = Ok run /\ map oe_pk run = [pk1].
Proof.
  pose proof demo_settled as H.
  destruct (index_prefix_exact demo_ix _ (encodeCompositeKey [Int 7]) H eq_refl) as (run & E & Ep & _).
  exists run. split; [exact E|]. rewrite <- Ep. by vm_compute.
Defined.
Lemma mergeSorted_rebuilds_witness : exists si, si_rev si !! pk2 = Some (two_cells (-9) []) /\
  mergeSorted si [pk2; pk3; pk2] = rebuildSorted si.
Proof.
  destruct demo_settled as [Hc Hv]. assert (Ho : si_ordered demo_ix = true) by (vm_compute; reflexivity).
  rewrite Ho in Hv. destruct Hv as [_ Es].
  exists (MkSecIndex [1%nat; 2%nat] true ∅ (<[pk2 := two_cells (-9) []]> (si_rev demo_ix)) (si_sorted demo_ix)).
  split; [apply lookup_insert_eq|].
  apply (mergeSorted_rebuilds KindBytes _ (si_rev demo_ix)); cbn [si_sorted si_rev].
  - rewrite Es. symmetry. apply (sort_ordLess KindBytes). apply list.Forall_forall. intros e He%entries_elem.
    exact (Hc _ _ He).
  - exact Hc.
  - apply map_Forall_insert_2; [apply composite_canon|exact Hc].
  - intros pk Hpk. apply lookup_insert_ne. intros <-. apply Hpk. left.
Defined.
