(* ===== verification/StoreOk.v ===== *)
(** * StoreOk: a table's shards implement a finite map from primary key to row.

    [tbl_ok ext t g]: every shard holds exactly the rows of [g] that hash to it,
    its row count and byte tally are those of the rows it holds, and the budget's
    running total is the table's bytes plus what other tables hold ([ext]).

    The invariant also carries what the index merger relies on ([track]): a
    primary key whose indexed cells are not what an observer last saw is on a
    dirty queue of its shard, past a given position. *)
From S2P Require Import Prelude Bytes Uuid Value PkMap Codec Frame Journal Schema Store.

(** An observer of the indexed cells: [tk_key] is what it keeps of a row,
    [tk_seen] what it last saw of each primary key, and [tk_base] the positions
    of the two dirty queues it has already consumed for that key, among a fixed
    number of shards whose queues are at least [tk_low] long. *)
Record track (def : resolvedTable) : Type := MkTrack {
  tk_A : Type;
  tk_key : Row -> option tk_A;
  tk_seen : UUID -> option tk_A;
  tk_base : UUID -> nat * nat;
  tk_shards : nat;
  tk_low : nat -> nat * nat;
  tk_on : 0 < nIndexes def;
  tk_dep r r' : (forall o, ordIsIndexed def o = true -> r !! o = r' !! o) -> tk_key r = tk_key r';
}.
Arguments tk_A {def}.
Arguments tk_key {def}.
Arguments tk_seen {def}.
Arguments tk_base {def}.
Arguments tk_shards {def}.
Arguments tk_low {def}.
Arguments tk_on {def}.
Arguments tk_dep {def}.

Definition tracked {def} (tk : track def) (g : gmap UUID Row) (s : tableShard) (k : UUID) : Prop :=
  let b := tk_base tk k in
  (fst b <= length (s_dirtyRead s))%nat /\ (snd b <= length (s_dirtyDel s))%nat /\
  match g !! k with
  | Some r => tk_seen tk k = tk_key tk r \/ k ∈ drop (fst b) (s_dirtyRead s)
  | None => tk_seen tk k = None \/ k ∈ drop (fst b) (s_dirtyRead s) \/ k ∈ drop (snd b) (s_dirtyDel s)
  end.

(** From [g] to [g'], every primary key whose indexed cells changed is in [er],
    and every one that disappeared in [ed]. *)
Definition marked {def} (tk : track def) (g g' : gmap UUID Row) (er ed : list UUID) (k : UUID) : Prop :=
  match g' !! k with
  | Some r' => (exists r, g !! k = Some r /\ tk_key tk r = tk_key tk r') \/ k ∈ er
  | None => g !! k = None \/ k ∈ ed
  end.

Lemma drop_snoc_elem {A} n (l e : list A) x : x ∈ drop n l -> x ∈ drop n (l ++ e).
Proof. rewrite drop_app, elem_of_app. auto. Qed.
Lemma drop_new_elem {A} n (l e : list A) x : (n <= length l)%nat -> x ∈ e -> x ∈ drop n (l ++ e).
Proof. intros Hn Hx. rewrite drop_app_le, elem_of_app by done. auto. Qed.

Lemma tracked_step {def} (tk : track def) g g' s s' er ed k : tracked tk g s k ->
  marked tk g g' er ed k -> s_dirtyRead s' = s_dirtyRead s ++ er -> s_dirtyDel s' = s_dirtyDel s ++ ed ->
  tracked tk g' s' k.
Proof.
  unfold tracked, marked. intros (B1 & B2 & H) Hm -> ->. rewrite !length_app.
  split; [lia|]. split; [lia|]. destruct (g' !! k) as [r'|].
  - destruct Hm as [(r & Hr & E)|Hin]; [|right; by apply drop_new_elem].
    rewrite Hr in H. destruct H as [H|H]; [left; congruence|right; by apply drop_snoc_elem].
  - destruct Hm as [Hr|Hin]; [|right; right; by apply drop_new_elem].
    rewrite Hr in H. destruct H as [H|[H|H]]; [by left|right; left|right; right]; by apply drop_snoc_elem.
Qed.
Lemma marked_same {def} (tk : track def) g g' er ed k : g' !! k = g !! k -> marked tk g g' er ed k.
Proof. intros E. unfold marked. rewrite E. destruct (g !! k) as [r|]; left; [by exists r|done]. Qed.

Lemma fold_queue (f : tableShard -> Z) (l : list tableShard) i s s' z : l !! i = Some s ->
  fold_left (fun z s => z + f s) (<[i:=s']> l) z = fold_left (fun z s => z + f s) l z + (f s' - f s).
Proof.
  assert (Hz : forall l z d, fold_left (fun z s => z + f s) l (z + d) = fold_left (fun z s => z + f s) l z + d).
  { induction l0 as [|x l0 IH]; intros z0 d; [done|]. cbn [fold_left].
    replace (z0 + d + f x) with (z0 + f x + d) by lia. apply IH. }
  revert i z. induction l as [|x l IH]; intros [|i] z Hi; [done..| |].
  - injection Hi as ->. change (<[0%nat:=s']> (s :: l)) with (s' :: l). cbn [fold_left]. rewrite !Hz. lia.
  - change (<[S i:=s']> (x :: l)) with (x :: <[i:=s']> l). cbn [fold_left]. by apply IH.
Qed.

Section store_ok.
Context (pkHashSeed : Z) (def : resolvedTable) (max : Z) (tr : option (track def)).
Let ncols : nat := length (t_Columns (rt_def def)).

Definition pkof (r : Row) : UUID := v_UUID (default Null (r !! pkOrd def)).
Definition row_wf (r : Row) : Prop := length r = ncols /\ Forall value_ok r.
Definition cost_of (r : Row) : Z := rowCost r (nIndexes def).
Definition map_cost (m : gmap UUID Row) : Z := map_fold (fun _ r acc => acc + cost_of r) 0 m.

(** The arena, the pk map's row ids and the contents agree. *)
Record rows_ok (rows : list (option Row)) (gi : gmap UUID Z) (m : gmap UUID Row) : Prop := {
  ro_id k z : gi !! k = Some z ->
    exists n r, z = Z.of_nat n /\ rows !! n = Some (Some r) /\ pkof r = k;
  ro_row n r : rows !! n = Some (Some r) -> gi !! pkof r = Some (Z.of_nat n) /\ m !! pkof r = Some r;
  ro_dom k r : m !! k = Some r -> is_Some (gi !! k);
}.

Record sh_ok (s : tableShard) (m : gmap UUID Row) : Prop := {
  sh_rows : exists gi, pk_ok pkHashSeed (s_pk s) gi /\ rows_ok (s_rows s) gi m;
  sh_wf : map_Forall (fun _ r => row_wf r) m;
  sh_live : s_live s = Z.of_nat (size m);
  sh_bytes : s_bytes s = map_cost m;
}.

(** The part of [g] that lives in shard [i] of a table whose mask is [mk]. *)
Definition part (mk : Z) (g : gmap UUID Row) (i : nat) : gmap UUID Row :=
  filter (fun kr => shardIdxOf mk (fst kr) = i) g.

Record tbl_ok (ext : Z) (t : tbl_state) (g : gmap UUID Row) : Prop := {
  tb_count : exists p, length (t_shards t) = (2 ^ p)%nat /\ (p <= 32)%nat;
  tb_shards i s : t_shards t !! i = Some s -> sh_ok s (part (mask t) g i);
  tb_total : max <> 0 -> t_total t = ext + map_cost g;
  tb_dirty : t_readDirty t = fold_left (fun z s => z + zlen (s_dirtyRead s)) (t_shards t) 0 /\
             t_delDirty t = fold_left (fun z s => z + zlen (s_dirtyDel s)) (t_shards t) 0;
  tb_size tk : tr = Some tk -> length (t_shards t) = tk_shards tk;
  tb_low tk i s : tr = Some tk -> t_shards t !! i = Some s ->
    (fst (tk_low tk i) <= length (s_dirtyRead s))%nat /\ (snd (tk_low tk i) <= length (s_dirtyDel s))%nat;
  tb_track tk k s : tr = Some tk -> t_shards t !! idx t k = Some s -> tracked tk g s k;
}.

(** Fewer than 2^56 slots in any shard's arena. *)
Definition room (n : nat) (t : tbl_state) : Prop :=
  Forall (fun s => zlen (s_rows s) + Z.of_nat n <= 2 ^ 56) (t_shards t).

(** ** Costs *)
Lemma map_cost_insert m k r : m !! k = None -> map_cost (<[k:=r]> m) = map_cost m + cost_of r.
Proof. intros H. unfold map_cost. rewrite map_fold_insert_L; [done| |done]. intros. lia. Qed.
Lemma map_cost_delete m k r : m !! k = Some r -> map_cost (delete k m) = map_cost m - cost_of r.
Proof.
  intros H. rewrite <- (insert_delete_id m k r H) at 2. rewrite map_cost_insert by apply lookup_delete_eq.
  lia.
Qed.
Lemma map_cost_replace m k r r' : m !! k = Some r ->
  map_cost (<[k:=r']> m) = map_cost m + (cost_of r' - cost_of r).
Proof.
  intros H. rewrite <- insert_delete_eq, map_cost_insert by apply lookup_delete_eq.
  rewrite (map_cost_delete _ _ _ H). lia.
Qed.

Lemma size_delete_Z (m : gmap UUID Row) k r : m !! k = Some r ->
  Z.of_nat (size (delete k m)) = Z.of_nat (size m) - 1.
Proof.
  intros H. rewrite <- (insert_delete_id m k r H) at 2.
  rewrite map_size_insert_None by apply lookup_delete_eq. lia.
Qed.
Lemma size_replace (m : gmap UUID Row) k r r' : m !! k = Some r -> size (<[k:=r']> m) = size m.
Proof. intros H. by rewrite (map_size_insert_Some _ _ _ (ex_intro _ r H)). Qed.

(** ** The arena *)
Lemma ro_lookup rows gi m k r : rows_ok rows gi m -> m !! k = Some r ->
  exists n, gi !! k = Some (Z.of_nat n) /\ rows !! n = Some (Some r) /\ pkof r = k.
Proof.
  intros Ho Hk. destruct (ro_dom _ _ _ Ho _ _ Hk) as [z Hz].
  destruct (ro_id _ _ _ Ho _ _ Hz) as (n & r' & -> & Hn & <-).
  destruct (ro_row _ _ _ Ho _ _ Hn) as [? Hm]. rewrite Hk in Hm. injection Hm as <-. by exists n.
Qed.
Lemma ro_none rows gi m k : rows_ok rows gi m -> m !! k = None -> gi !! k = None.
Proof.
  intros Ho Hk. apply eq_None_not_Some. intros [z Hz].
  destruct (ro_id _ _ _ Ho _ _ Hz) as (n & r & -> & Hn & <-).
  destruct (ro_row _ _ _ Ho _ _ Hn). congruence.
Qed.

Lemma ro_size rows gi m : rows_ok rows gi m -> Z.of_nat (size gi) <= zlen rows.
Proof.
  intros Ho. rewrite <- length_map_to_list. unfold zlen. apply inj_le.
  assert (Hl : length (seqZ 0 (zlen rows)) = length rows) by (rewrite length_seqZ; apply to_nat_zlen).
  rewrite <- Hl, <- (length_fmap snd (map_to_list gi)). apply submseteq_length, NoDup_submseteq.
  - apply NoDup_fmap_2_strong; [|apply NoDup_map_to_list].
    intros [k z] [k' z'] H1%elem_of_map_to_list H2%elem_of_map_to_list E. cbn in E. subst z'.
    destruct (ro_id _ _ _ Ho _ _ H1) as (n & r & -> & Hn & <-).
    destruct (ro_id _ _ _ Ho _ _ H2) as (n' & r' & En & Hn' & <-).
    apply Nat2Z.inj in En as <-. rewrite Hn in Hn'. by injection Hn' as <-.
  - intros z ((k & z') & -> & H%elem_of_map_to_list)%list_elem_of_fmap.
    destruct (ro_id _ _ _ Ho _ _ H) as (n & r & -> & Hn & _). cbn.
    apply lookup_lt_Some in Hn. apply elem_of_seqZ. unfold zlen. lia.
Qed.

Lemma ro_append rows gi m r : rows_ok rows gi m -> m !! pkof r = None ->
  rows_ok (rows ++ [Some r]) (<[pkof r := zlen rows]> gi) (<[pkof r := r]> m).
Proof.
  intros Ho Hm. pose proof (ro_none _ _ _ _ Ho Hm) as Hg. split.
  - intros k z. rewrite lookup_insert_Some. intros [[<- <-]|[Hne Hk]].
    + exists (length rows), r. split; [done|]. split; [|done].
      rewrite lookup_app_r by done. by rewrite Nat.sub_diag.
    + destruct (ro_id _ _ _ Ho _ _ Hk) as (n & r' & -> & Hn & <-). exists n, r'.
      split; [done|]. split; [|done]. rewrite lookup_app_l; [done|]. by eapply lookup_lt_Some.
  - intros n r' [Hn|[Hl Hn]]%lookup_app_Some.
    + destruct (ro_row _ _ _ Ho _ _ Hn) as [H1 H2]. rewrite !lookup_insert_ne by congruence. done.
    + apply list_lookup_singleton_Some in Hn as [Hn [= <-]]. rewrite !lookup_insert_eq.
      split; [|done]. f_equal. unfold zlen. lia.
  - intros k r'. rewrite lookup_insert_Some, lookup_insert_is_Some. intros [[<- _]|[Hne Hk]]; [by left|].
    right. split; [done|]. by eapply ro_dom.
Qed.

Lemma ro_replace rows gi m n r r' : rows_ok rows gi m -> rows !! n = Some (Some r) -> pkof r' = pkof r ->
  rows_ok (<[n := Some r']> rows) gi (<[pkof r := r']> m).
Proof.
  intros Ho Hn Hp. destruct (ro_row _ _ _ Ho _ _ Hn) as [Hg Hm].
  pose proof (lookup_lt_Some _ _ _ Hn) as Hlt. split.
  - intros k z Hk. destruct (ro_id _ _ _ Ho _ _ Hk) as (n0 & r0 & -> & Hn0 & <-).
    destruct (decide (n = n0)) as [<-|Hne].
    + exists n, r'. rewrite Hn in Hn0. injection Hn0 as <-. split; [done|].
      split; [|done]. by apply list_lookup_insert_eq.
    + exists n0, r0. split; [done|]. split; [|done]. by rewrite list_lookup_insert_ne.
  - intros n0 r0. rewrite list_lookup_insert_Some. intros [(<- & [= <-] & _)|[Hne H0]].
    + rewrite Hp. split; [done|]. by rewrite lookup_insert_eq.
    + destruct (ro_row _ _ _ Ho _ _ H0) as [Hg0 Hm0]. split; [done|].
      rewrite lookup_insert_ne; [done|]. intros E. rewrite <- E, Hg in Hg0. injection Hg0 as E'. lia.
  - intros k r0. rewrite lookup_insert_Some. intros [[<- _]|[Hne Hk]]; [by eexists|]. by eapply ro_dom.
Qed.

Lemma ro_delete rows gi m n r : rows_ok rows gi m -> rows !! n = Some (Some r) ->
  rows_ok (<[n := None]> rows) (delete (pkof r) gi) (delete (pkof r) m).
Proof.
  intros Ho Hn. destruct (ro_row _ _ _ Ho _ _ Hn) as [Hg Hm]. split.
  - intros k z. rewrite lookup_delete_Some. intros [Hne Hk].
    destruct (ro_id _ _ _ Ho _ _ Hk) as (n0 & r0 & -> & Hn0 & <-). exists n0, r0.
    split; [done|]. split; [|done]. rewrite list_lookup_insert_ne; [done|].
    intros <-. congruence.
  - intros n0 r0. rewrite list_lookup_insert_Some. intros [(_ & [=] & _)|[Hne H0]].
    destruct (ro_row _ _ _ Ho _ _ H0) as [Hg0 Hm0].
    assert (pkof r <> pkof r0) by (intros E; rewrite <- E, Hg in Hg0; injection Hg0; lia).
    by rewrite !lookup_delete_ne.
  - intros k r0. rewrite lookup_delete_Some. intros [Hne Hk]. rewrite lookup_delete_ne by done.
    by eapply ro_dom.
Qed.

(** ** One shard's steps *)
Lemma sh_ok_proj s s' m : sh_ok s m -> s_rows s' = s_rows s -> s_pk s' = s_pk s ->
  s_live s' = s_live s -> s_bytes s' = s_bytes s -> sh_ok s' m.
Proof. intros [H1 H2 H3 H4] Er Ep El Eb. split; rewrite ?Er, ?Ep, ?El, ?Eb; done. Qed.

Lemma sh_get s m k : sh_ok s m ->
  match m !! k with
  | None => pk_get pkHashSeed (s_pk s) k = Some (0, false)
  | Some r => exists n, pk_get pkHashSeed (s_pk s) k = Some (Z.of_nat n, true) /\
                s_rows s !! n = Some (Some r) /\ pkof r = k
  end.
Proof.
  intros [(gi & Hpk & Ho) _ _ _]. rewrite (pk_get_ok _ _ _ _ Hpk). destruct (m !! k) as [r|] eqn:Hk.
  - destruct (ro_lookup _ _ _ _ _ Ho Hk) as (n & -> & Hn & E). by exists n.
  - by rewrite (ro_none _ _ _ _ Ho Hk).
Qed.

(** Deleting row [n] by its slot. *)
Lemma sh_find s m k : sh_ok s m ->
  match m !! k with
  | None => pk_find pkHashSeed (s_pk s) k = Some (0%nat, 0, false)
  | Some r => exists q n pk', pk_find pkHashSeed (s_pk s) k = Some (q, Z.of_nat n, true) /\
      s_rows s !! n = Some (Some r) /\ pkof r = k /\
      pk_delAt pkHashSeed (s_pk s) q = Some pk' /\
      sh_ok (MkShard (<[n:=None]> (s_rows s)) pk' (s_live s - 1) (s_bytes s - cost_of r)
               (s_dirtyRead s) (s_dirtyDel s)) (delete k m)
  end.
Proof.
  intros [(gi & Hpk & Ho) Hwf Hl Hb]. pose proof (pk_find_ok _ _ _ k Hpk) as F.
  destruct (m !! k) as [r|] eqn:Hk; [|by rewrite (ro_none _ _ _ _ Ho Hk) in F].
  destruct (ro_lookup _ _ _ _ _ Ho Hk) as (n & Hg & Hn & E). rewrite Hg in F.
  destruct F as (q & t & Hf & Hq & Ht & Ek).
  destruct (pk_delAt_ok _ _ _ _ _ Hpk Hq Ht) as (pk' & Hd & Hpk'). rewrite Ek in Hpk'.
  exists q, n, pk'. do 4 (split; [done|]). split; cbn.
  - exists (delete k gi). split; [done|]. rewrite <- E. by apply ro_delete.
  - by apply map_Forall_delete.
  - rewrite (size_delete_Z _ _ _ Hk). lia.
  - rewrite (map_cost_delete _ _ _ Hk). lia.
Qed.

Lemma sh_del s m n r : sh_ok s m -> s_rows s !! n = Some (Some r) ->
  exists pk', pk_del pkHashSeed (s_pk s) (pkof r) = Some (pk', Z.of_nat n, true) /\
    sh_ok (MkShard (<[n:=None]> (s_rows s)) pk' (s_live s - 1) (s_bytes s - cost_of r)
             (s_dirtyRead s) (s_dirtyDel s)) (delete (pkof r) m).
Proof.
  intros [(gi & Hpk & Ho) Hwf Hl Hb] Hn. destruct (ro_row _ _ _ Ho _ _ Hn) as [Hg Hm].
  destruct (pk_del_ok _ _ _ (pkof r) Hpk) as (pk' & -> & Hpk'). rewrite Hg. exists pk'.
  split; [done|]. split; cbn.
  - exists (delete (pkof r) gi). split; [done|]. by apply ro_delete.
  - by apply map_Forall_delete.
  - rewrite (size_delete_Z _ _ _ Hm). lia.
  - rewrite (map_cost_delete _ _ _ Hm). lia.
Qed.

Lemma sh_reserve s m row : sh_ok s m -> row_wf row -> zlen (s_rows s) < 2 ^ 56 ->
  exists pk' q, pk_reserve pkHashSeed (s_pk s) (pkof row) =
      Some (pk', q, bool_decide (is_Some (m !! pkof row))) /\
    sh_ok (set_pk s pk') m /\
    (m !! pkof row = None ->
     sh_ok (MkShard (s_rows s ++ [Some row]) (pk_commit pk' q (pkof row) (zlen (s_rows s)))
              (s_live s + 1) (s_bytes s + cost_of row) (s_dirtyRead s) (s_dirtyDel s))
       (<[pkof row := row]> m)).
Proof.
  intros [(gi & Hpk & Ho) Hwf Hl Hb] Hrow Hsz. pose proof (ro_size _ _ _ Ho) as Hgi.
  destruct (pk_reserve_ok _ _ _ (pkof row) Hpk) as (pk' & q & f & -> & Hpk' & -> & Hu & Hput); [lia|].
  exists pk', q. split; [|split].
  - do 2 f_equal. apply bool_decide_ext. split; intros [x Hx].
    + destruct (ro_id _ _ _ Ho _ _ Hx) as (n & r & -> & Hn & E).
      destruct (ro_row _ _ _ Ho _ _ Hn) as [_ Hm]. rewrite E in Hm. by eexists.
    + by eapply ro_dom.
  - split; [|done..]. by exists gi.
  - intros Hm. pose proof (ro_none _ _ _ _ Ho Hm) as Hg. split; cbn.
    + exists (<[pkof row := zlen (s_rows s)]> gi). split; [|by apply ro_append].
      rewrite bool_decide_eq_false_2 in Hput by (rewrite Hg; by intros [? [=]]).
      apply Hput. unfold rowid_ok. pose proof (zlen_pos (s_rows s)). lia.
    + by apply map_Forall_insert_2.
    + rewrite map_size_insert_None by done. lia.
    + rewrite map_cost_insert by done. lia.
Qed.

Lemma sh_replace s m n r r' : sh_ok s m -> s_rows s !! n = Some (Some r) -> pkof r' = pkof r ->
  row_wf r' ->
  sh_ok (add_bytes (set_row s n (Some r')) (cost_of r' - cost_of r)) (<[pkof r := r']> m).
Proof.
  intros [(gi & Hpk & Ho) Hwf Hl Hb] Hn Hp Hr. destruct (ro_row _ _ _ Ho _ _ Hn) as [Hg Hm].
  split; cbn.
  - exists gi. split; [done|]. by eapply ro_replace.
  - by apply map_Forall_insert_2.
  - by rewrite (size_replace _ _ _ _ Hm).
  - rewrite (map_cost_replace _ _ _ _ Hm). lia.
Qed.

(** ** The table: one shard at a time *)
Lemma part_lookup mk g i k : part mk g i !! k = if decide (shardIdxOf mk k = i) then g !! k else None.
Proof.
  unfold part. destruct (decide (shardIdxOf mk k = i)) as [E|E].
  - destruct (g !! k) as [r|] eqn:Hk.
    + by apply map_lookup_filter_Some_2.
    + by apply map_lookup_filter_None_2; left.
  - apply map_lookup_filter_None_2. by right.
Qed.
Lemma part_insert mk g k r :
  part mk (<[k:=r]> g) (shardIdxOf mk k) = <[k:=r]> (part mk g (shardIdxOf mk k)).
Proof. unfold part. by apply map_filter_insert_True. Qed.
Lemma part_delete mk g k i : part mk (delete k g) i = delete k (part mk g i).
Proof. unfold part. apply map_filter_delete. Qed.

Lemma shardIdxOf_lt p u : (p <= 32)%nat -> (shardIdxOf (Z.of_nat (2 ^ p) - 1) u < 2 ^ p)%nat.
Proof.
  intros Hp. unfold shardIdxOf. set (x := u32 _).
  rewrite Nat2Z.inj_pow. change (Z.of_nat 2) with 2.
  replace (2 ^ Z.of_nat p - 1) with (Z.ones (Z.of_nat p)) by (rewrite Z.ones_equiv; lia).
  rewrite Z.land_ones by lia. apply Nat2Z.inj_lt.
  pose proof (Z.mod_pos_bound x (2 ^ Z.of_nat p)). rewrite Z2Nat.id by lia. rewrite Nat2Z.inj_pow. lia.
Qed.

Section table.
Context (ext : Z).

Lemma tbl_shard t g u : tbl_ok ext t g ->
  exists s, t_shards t !! idx t u = Some s /\ sh_ok s (part (mask t) g (idx t u)) /\
    part (mask t) g (idx t u) !! u = g !! u.
Proof.
  intros [(p & Hl & Hp) Hs _ _ _ _ _]. destruct (lookup_lt_is_Some_2 (t_shards t) (idx t u)) as [s E].
  - unfold idx, mask, zlen. rewrite Hl. by apply shardIdxOf_lt.
  - exists s. split; [done|]. split; [by apply Hs|]. rewrite part_lookup. by rewrite decide_True.
Qed.

(** [t'] is [t] with the data of [s] at shard [i], a new running total and [er]
    and [ed] added to the dirty queues of [s]. *)
Definition same_data (s s' : tableShard) : Prop :=
  s_rows s' = s_rows s /\ s_pk s' = s_pk s /\ s_live s' = s_live s /\ s_bytes s' = s_bytes s.
Definition same_queues (s s' : tableShard) : Prop :=
  s_dirtyRead s' = s_dirtyRead s /\ s_dirtyDel s' = s_dirtyDel s.
Definition puts (t : tbl_state) (i : nat) (s : tableShard) (total : Z) (er ed : list UUID) (t' : tbl_state) : Prop :=
  exists s', same_data s s' /\ s_dirtyRead s' = s_dirtyRead s ++ er /\ s_dirtyDel s' = s_dirtyDel s ++ ed /\
    t_shards t' = <[i:=s']> (t_shards t) /\ t_total t' = total /\
    t_readDirty t' = t_readDirty t + zlen er /\ t_delDirty t' = t_delDirty t + zlen ed.
Definition marks (k : UUID) : list UUID := if 0 <? nIndexes def then [k] else [].

Lemma puts_put t i s : puts t i s (t_total t) [] [] (put_shard t i s).
Proof. exists s. rewrite !app_nil_r, zlen_nil, !Z.add_0_r. done. Qed.
Lemma puts_mark t i s k : puts t i s (t_total t) (marks k) [] (markDirtyLocked def t i s k).
Proof.
  unfold markDirtyLocked, marks. destruct (0 <? nIndexes def); [|apply puts_put].
  exists (MkShard (s_rows s) (s_pk s) (s_live s) (s_bytes s) (s_dirtyRead s ++ [k]) (s_dirtyDel s)).
  rewrite app_nil_r, zlen_nil, Z.add_0_r. by split_and!.
Qed.
Lemma puts_markdel t i s k : puts t i s (t_total t) [] (marks k) (markDelDirtyLocked def t i s k).
Proof.
  unfold markDelDirtyLocked, marks. destruct (0 <? nIndexes def); [|apply puts_put].
  exists (MkShard (s_rows s) (s_pk s) (s_live s) (s_bytes s) (s_dirtyRead s) (s_dirtyDel s ++ [k])).
  rewrite app_nil_r, zlen_nil, Z.add_0_r. by split_and!.
Qed.
Lemma puts_if (b : bool) t i s total k t1 t2 : puts t i s total (marks k) [] t1 -> puts t i s total [] [] t2 ->
  puts t i s total (if b then marks k else []) [] (if b then t1 else t2).
Proof. by destruct b. Qed.

(** [s] is shard [i] of [t] with new data and the same queues. *)
Definition stands_at (t : tbl_state) (i : nat) (s : tableShard) : Prop :=
  exists s0, t_shards t !! i = Some s0 /\ same_queues s0 s.

Lemma stands_of t i s0 s : t_shards t !! i = Some s0 -> s_dirtyRead s = s_dirtyRead s0 ->
  s_dirtyDel s = s_dirtyDel s0 -> stands_at t i s.
Proof. intros. by exists s0. Qed.
Lemma marks_in tk k : tr = Some tk -> k ∈ marks k.
Proof. intros _. unfold marks. rewrite (proj2 (Z.ltb_lt _ _) (tk_on tk)). by left. Qed.

Lemma tbl_put_at t g i s g' total er ed t' : tbl_ok ext t g -> puts t i s total er ed t' -> stands_at t i s ->
  sh_ok s (part (mask t) g' i) -> (forall k, idx t k <> i -> g' !! k = g !! k) ->
  (forall tk k, tr = Some tk -> marked tk g g' er ed k) ->
  (max <> 0 -> total = ext + map_cost g') -> tbl_ok ext t' g'.
Proof.
  intros Ht (s' & (Er & Ep & El & Eb) & Eq1 & Eq2 & Es & Et & Er' & Ed') (s0 & Hs0 & Q1 & Q2) Hs Hg Hmk Htot.
  destruct Ht as [(p & Hl & Hp) Hsh _ [D1 D2] Hsz Hlow Htk].
  assert (Em : mask t' = mask t) by (unfold mask, zlen; by rewrite Es, length_insert).
  rewrite Q1 in Eq1. rewrite Q2 in Eq2.
  split; rewrite ?Em, ?Et; [exists p; by rewrite Es, length_insert| |done| | | |].
  - intros j x. rewrite Es, list_lookup_insert_Some. intros [(<- & <- & _)|[Hne Hx]].
    + by eapply sh_ok_proj.
    + replace (part (mask t) g' j) with (part (mask t) g j); [by apply Hsh|].
      apply map_eq. intros k'. rewrite !part_lookup. destruct (decide _) as [E|E]; [|done].
      symmetry. apply Hg. unfold idx. congruence.
  - rewrite Er', Ed', D1, D2, Es, !(fold_queue _ _ _ _ _ _ Hs0), Eq1, Eq2, !zlen_app. lia.
  - intros tk Etr. rewrite Es, length_insert. by apply Hsz.
  - intros tk j x Etr. rewrite Es, list_lookup_insert_Some. intros [(<- & <- & _)|[Hne Hx]]; [|by eapply Hlow].
    destruct (Hlow tk i s0 Etr Hs0). rewrite Eq1, Eq2, !length_app. lia.
  - intros tk k x Etr. assert (Ei : idx t' k = idx t k) by (unfold idx; by rewrite Em). rewrite Ei, Es.
    rewrite list_lookup_insert_Some. intros [(-> & <- & _)|[Hne Hx]].
    + by eapply tracked_step; [apply Htk|apply Hmk|..].
    + eapply (tracked_step _ g g' x x [] []); [by apply Htk| |by rewrite app_nil_r..].
      apply marked_same, Hg. congruence.
Qed.
Lemma tbl_put t g k s g' total er ed t' : tbl_ok ext t g -> puts t (idx t k) s total er ed t' ->
  stands_at t (idx t k) s ->
  sh_ok s (part (mask t) g' (idx t k)) -> (forall k', k' <> k -> g' !! k' = g !! k') ->
  (forall tk, tr = Some tk -> marked tk g g' er ed k) ->
  (max <> 0 -> total = ext + map_cost g') -> tbl_ok ext t' g'.
Proof.
  intros Ht Hp Hat Hs Hg Hmk Htot. eapply tbl_put_at; [done..| | |done].
  - intros k' Hne. apply Hg. by intros ->.
  - intros tk k' Etr. destruct (decide (k' = k)) as [->|Hne]; [by apply Hmk|]. by apply marked_same, Hg.
Qed.

Lemma tbl_insert t g row s total er t' : tbl_ok ext t g -> g !! pkof row = None ->
  puts t (idx t (pkof row)) s total er [] t' -> stands_at t (idx t (pkof row)) s ->
  sh_ok s (<[pkof row := row]> (part (mask t) g (idx t (pkof row)))) ->
  (forall tk, tr = Some tk -> pkof row ∈ er) ->
  (max <> 0 -> total = t_total t + cost_of row) -> tbl_ok ext t' (<[pkof row := row]> g).
Proof.
  intros Ht Hk Hp Hat Hs Hmk Htot. eapply tbl_put; [done|done|done| | | |].
  - by rewrite part_insert.
  - intros. by rewrite lookup_insert_ne.
  - intros tk Etr. unfold marked. rewrite lookup_insert_eq. right. by eapply Hmk.
  - intros Hm. rewrite map_cost_insert by done. rewrite (Htot Hm), (tb_total _ _ _ Ht Hm). lia.
Qed.
Lemma tbl_replace t g k r r' s total er t' : tbl_ok ext t g -> g !! k = Some r ->
  puts t (idx t k) s total er [] t' -> stands_at t (idx t k) s ->
  sh_ok s (<[k := r']> (part (mask t) g (idx t k))) ->
  (forall tk, tr = Some tk -> tk_key tk r = tk_key tk r' \/ k ∈ er) ->
  (max <> 0 -> total = t_total t + (cost_of r' - cost_of r)) -> tbl_ok ext t' (<[k := r']> g).
Proof.
  intros Ht Hk Hp Hat Hs Hmk Htot. eapply tbl_put; [done|done|done| | | |].
  - by rewrite part_insert.
  - intros. by rewrite lookup_insert_ne.
  - intros tk Etr. unfold marked. rewrite lookup_insert_eq. destruct (Hmk tk Etr); [left; by exists r|by right].
  - intros Hm. rewrite (map_cost_replace _ _ _ _ Hk), (Htot Hm), (tb_total _ _ _ Ht Hm). lia.
Qed.
Lemma tbl_delete t g k r s total ed t' : tbl_ok ext t g -> g !! k = Some r ->
  puts t (idx t k) s total [] ed t' -> stands_at t (idx t k) s ->
  sh_ok s (delete k (part (mask t) g (idx t k))) -> (forall tk, tr = Some tk -> k ∈ ed) ->
  (max <> 0 -> total = t_total t - cost_of r) -> tbl_ok ext t' (delete k g).
Proof.
  intros Ht Hk Hp Hat Hs Hmk Htot. eapply tbl_put; [done|done|done| | | |].
  - by rewrite part_delete.
  - intros. by rewrite lookup_delete_ne.
  - intros tk Etr. unfold marked. rewrite lookup_delete_eq. right. by eapply Hmk.
  - intros Hm. rewrite (map_cost_delete _ _ _ Hk), (Htot Hm), (tb_total _ _ _ Ht Hm). lia.
Qed.
Lemma tbl_same t g k s total t' : tbl_ok ext t g -> puts t (idx t k) s total [] [] t' ->
  stands_at t (idx t k) s ->
  sh_ok s (part (mask t) g (idx t k)) -> (max <> 0 -> total = t_total t) -> tbl_ok ext t' g.
Proof.
  intros Ht Hp Hat Hs Htot. eapply tbl_put; [done..| | |]; [done|intros; by apply marked_same|].
  intros Hm. rewrite (Htot Hm). by apply (tb_total _ _ _ Ht).
Qed.

Lemma room_put n m t i s total er ed t' s0 : room n t -> puts t i s total er ed t' -> t_shards t !! i = Some s0 ->
  zlen (s_rows s) + Z.of_nat m <= zlen (s_rows s0) + Z.of_nat n -> (m <= n)%nat -> room m t'.
Proof.
  intros Hr (s' & (Er & _) & _ & _ & Es & _) Hi Hz Hmn. unfold room in *. rewrite Es.
  rewrite Forall_lookup in Hr |- *. intros j x [(_ & <- & _)|[_ Hx]]%list_lookup_insert_Some.
  - rewrite Er. pose proof (Hr _ _ Hi). cbn in *. lia.
  - pose proof (Hr _ _ Hx). cbn in *. lia.
Qed.
Lemma room_mono n m t : (m <= n)%nat -> room n t -> room m t.
Proof. intros H. apply Forall_impl. intros s Hs. lia. Qed.
End table.

(** ** Cells: assignments and their cost *)
Fixpoint assign (r : Row) (ords : list nat) (vals : list Value) : Row :=
  match ords, vals with
  | ord :: ords, v :: vals => assign (<[ord := v]> r) ords vals
  | _, _ => r
  end.
Definition args_wf (ords : list nat) (vals : list Value) : Prop :=
  (length ords <= length vals)%nat /\ Forall value_ok vals /\
  Forall (fun o => (o < ncols)%nat /\ o <> pkOrd def) ords.

Lemma cost_cells (row : Row) a : fold_left (fun cells v => cells + approxBytes v) row a =
  a + foldr (fun v c => approxBytes v + c) 0 row.
Proof. revert a. induction row as [|v row IH]; intros a; cbn; [lia|]. rewrite IH. lia. Qed.
Lemma cost_set row i old v : row !! i = Some old -> cost_of (<[i:=v]> row) = cost_of row + cellDelta old v.
Proof.
  unfold cost_of, rowCost. rewrite !cost_cells. revert i.
  assert (E : cellDelta old v = approxBytes v - approxBytes old).
  { unfold cellDelta, approxBytes. repeat case_match; lia. }
  induction row as [|x row IH]; intros [|i] H; try done.
  - injection H as ->. cbn. lia.
  - specialize (IH i H). change (<[S i:=v]> (x :: row)) with (x :: <[i:=v]> row). cbn [foldr]. lia.
Qed.

Lemma assign_length r ords vals : length (assign r ords vals) = length r.
Proof.
  revert r vals. induction ords as [|o ords IH]; intros r [|v vals]; cbn; try done.
  by rewrite IH, length_insert.
Qed.
Lemma assign_notin r ords vals k : k ∉ ords -> assign r ords vals !! k = r !! k.
Proof.
  revert r vals. induction ords as [|o ords IH]; intros r [|v vals] Hk; cbn; try done.
  apply not_elem_of_cons in Hk as [? ?]. rewrite IH by done. by rewrite list_lookup_insert_ne.
Qed.
Lemma assign_wf r ords vals : row_wf r -> args_wf ords vals -> row_wf (assign r ords vals).
Proof.
  intros [Hl Hr] (_ & Hv & _). split; [by rewrite assign_length|]. clear Hl. revert r vals Hr Hv.
  induction ords as [|o ords IH]; intros r [|v vals] Hr Hv; cbn; try done.
  inversion Hv; subst. apply IH; [|done]. by apply Forall_insert.
Qed.
Lemma assign_pk r ords vals : args_wf ords vals -> pkof (assign r ords vals) = pkof r.
Proof.
  intros (_ & _ & Ho). unfold pkof. rewrite assign_notin; [done|].
  intros Hin. rewrite list.Forall_forall in Ho. by destruct (Ho _ Hin).
Qed.

Lemma set_cells_assign r ords vals : length r = ncols -> args_wf ords vals ->
  set_cells r ords vals = Ok (assign r ords vals).
Proof.
  intros Hl (Hn & _ & Ho). revert r vals Hl Hn.
  induction Ho as [|o ords [Hlt _] Ho IH]; intros r [|v vals] Hl Hn; try done; [cbn in Hn; lia|].
  cbn [set_cells assign length] in *. rewrite (proj2 (Nat.ltb_lt _ _)) by lia. apply IH; [by rewrite length_insert|lia].
Qed.
Lemma set_cells_delta_assign r ords vals d : length r = ncols -> args_wf ords vals ->
  set_cells_delta r ords vals d =
    Ok (assign r ords vals, d + (cost_of (assign r ords vals) - cost_of r)).
Proof.
  intros Hl (Hn & _ & Ho). revert r vals d Hl Hn.
  induction Ho as [|o ords [Hlt _] Ho IH]; intros r [|v vals] d Hl Hn; cbn [set_cells_delta assign length] in *; [..|lia|].
  - rewrite Z.sub_diag, Z.add_0_r. done.
  - rewrite Z.sub_diag, Z.add_0_r. done.
  - destruct (lookup_lt_is_Some_2 r o) as [old E]; [lia|]. unfold index. rewrite E. cbn.
    rewrite IH by (rewrite ?length_insert; lia). rewrite (cost_set _ _ _ v E). do 2 f_equal. lia.
Qed.

(** The journaled lane: the originals, their restoration, and the sum of the
    deltas against them, which is the cost change when no column repeats. *)
Lemma get_cells_ok r ords : Forall (fun o => (o < length r)%nat) ords ->
  exists old, get_cells r ords = Ok old /\ Forall2 (fun o v => r !! o = Some v) ords old.
Proof.
  induction 1 as [|o ords Hlt Ho (old & IH & H2)]; [by exists []|].
  destruct (lookup_lt_is_Some_2 r o Hlt) as [v E]. exists (v :: old). cbn. unfold index.
  rewrite E. cbn. rewrite IH. split; [done|by constructor].
Qed.
Lemma assign_revert r r' ords old : Forall2 (fun o v => r !! o = Some v) ords old ->
  length r' = length r -> (forall k, k ∉ ords -> r' !! k = r !! k) -> assign r' ords old = r.
Proof.
  intros H. revert r'. induction H as [|o v ords old Hv H IH]; intros r' Hl Hk; cbn.
  - apply list_eq. intros k. apply Hk, not_elem_of_nil.
  - apply IH; [by rewrite length_insert|]. intros k Hn. destruct (decide (k = o)) as [->|Hne].
    + rewrite list_lookup_insert_eq; [done|]. rewrite Hl. by eapply lookup_lt_Some.
    + rewrite list_lookup_insert_ne by done. apply Hk. by apply not_elem_of_cons.
Qed.
Lemma sum_deltas_app old vals d :
  fold_left (fun d ov => d + cellDelta (fst ov) (snd ov)) (zip old vals) d = d + sum_deltas old vals.
Proof.
  unfold sum_deltas. generalize (zip old vals). intros l. revert d.
  induction l as [|[o v] l IH]; intros d; cbn [fold_left fst snd]; [lia|].
  rewrite IH, (IH (0 + cellDelta o v)). lia.
Qed.
Lemma sum_deltas_cost r ords vals old : NoDup ords -> (length ords <= length vals)%nat ->
  Forall2 (fun o v => r !! o = Some v) ords old ->
  sum_deltas old (take (length ords) vals) = cost_of (assign r ords vals) - cost_of r.
Proof.
  intros Hnd Hn H. revert r vals Hnd Hn H. revert old.
  induction ords as [|o ords IH]; intros old r vals Hnd Hn H;
    inversion H as [|? v0 ? old' Hv Ho]; subst; cbn; [unfold sum_deltas; cbn; lia|].
  destruct vals as [|v vals]; [cbn in Hn; lia|]. apply list.NoDup_cons in Hnd as [Hnin Hnd].
  cbn in Hn. cbn [take]. unfold sum_deltas. cbn [zip zip_with fold_left fst snd].
  rewrite sum_deltas_app, (IH old' (<[o:=v]> r)); [|done|lia|].
  - rewrite (cost_set _ _ _ v Hv). lia.
  - rewrite Forall2_lookup in Ho |- *. intros k. specialize (Ho k).
    inversion Ho as [? ? E Eo Ev|]; constructor. rewrite list_lookup_insert_ne; [done|].
    intros ->. apply Hnin. symmetry in Eo. by eapply list_elem_of_lookup_2.
Qed.

(** ** The operations *)
Section ops.
Context {J : Type} `{Journal J} (ext : Z).

Lemma lift_Some {A} (o : option A) a : o = Some a -> lift o = Ok a.
Proof. by intros ->. Qed.
Lemma index_Some {A} (l : list A) i x : l !! i = Some x -> index l i = Ok x.
Proof. intros E. unfold index. by rewrite E. Qed.
Lemma index_pk row : row_wf row -> (pkOrd def < ncols)%nat ->
  exists v, index row (pkOrd def) = Ok v /\ v_UUID v = pkof row.
Proof.
  intros [Hl _] Hp. destruct (lookup_lt_is_Some_2 row (pkOrd def)) as [v E]; [by rewrite Hl|].
  exists v. unfold index, pkof. by rewrite E.
Qed.

Hypothesis pk_in : (pkOrd def < ncols)%nat.

(** A duplicate and a full budget are refused, in that order, before anything is
    journaled; then the outcome is the journal's. *)
Definition insert_result (t : tbl_state) (g : gmap UUID Row) (w : option J) (row : Row)
    (journal : option J -> option J * option error) : option J * option error :=
  match g !! pkof row with
  | Some _ => (w, Some ErrDuplicatePK)
  | None => if negb (max =? 0) && (t_total t + cost_of row >? max) then (w, Some ErrCapacity) else journal w
  end.

Lemma insert_refused t g k s pk' total n : tbl_ok ext t g -> room (S n) t ->
  t_shards t !! idx t k = Some s -> sh_ok (set_pk s pk') (part (mask t) g (idx t k)) ->
  (max <> 0 -> total = t_total t) ->
  let t' := put_shard (set_total t total) (idx t k) (set_pk s pk') in tbl_ok ext t' g /\ room n t'.
Proof.
  intros Ht Hroom Hs Hsh Htot t'.
  assert (Hp : puts t (idx t k) (set_pk s pk') total [] [] t') by apply (puts_put (set_total t total)).
  split; [eapply tbl_same; [done|done|by eapply stands_of|done..]|]. eapply room_put; [done..| |]; cbn; lia.
Qed.
Lemma insert_applied (mark : bool) t g row s pk' q total n : tbl_ok ext t g -> room (S n) t ->
  let i := idx t (pkof row) in
  t_shards t !! i = Some s -> g !! pkof row = None ->
  let s' := MkShard (s_rows s ++ [Some row]) (pk_commit pk' q (pkof row) (zlen (s_rows s)))
              (s_live s + 1) (s_bytes s + cost_of row) (s_dirtyRead s) (s_dirtyDel s) in
  sh_ok s' (<[pkof row := row]> (part (mask t) g i)) ->
  (max <> 0 -> total = t_total t + cost_of row) -> (tr = None \/ mark = true) ->
  let t' := if mark then markDirtyLocked def (set_total t total) i s' (pkof row)
            else put_shard (set_total t total) i s' in
  tbl_ok ext t' (<[pkof row := row]> g) /\ room n t'.
Proof.
  intros Ht Hroom i Hs Hk s' Hsh Htot Hmk t'.
  assert (Hp : puts t i s' total (if mark then marks (pkof row) else []) [] t').
  { subst t'. apply puts_if; [apply (puts_mark (set_total t total))|apply (puts_put (set_total t total))]. }
  split; [eapply tbl_insert; [done|done|done|by eapply stands_of|done| |done]|eapply room_put; [done..| |]; subst s'; cbn [s_rows];
    rewrite ?zlen_app, ?zlen_cons, ?zlen_nil; lia].
  intros tk Etr. destruct Hmk as [E| ->]; [congruence|]. by eapply marks_in.
Qed.

Lemma insert_ok mark t w row jf g n : tbl_ok ext t g -> room (S n) t -> row_wf row ->
  (tr = None \/ mark = true) ->
  let out := insert_result t g w row jf in
  exists t', insert_with pkHashSeed def max mark t w row jf = Ok (t', fst out, snd out) /\
    tbl_ok ext t' (match snd out with None => <[pkof row := row]> g | Some _ => g end) /\ room n t'.
Proof.
  intros Ht Hroom Hrow Hmk out. unfold insert_with.
  destruct (index_pk row Hrow pk_in) as (v & -> & Ev). cbn [mbind outcome_bind]. rewrite Ev.
  destruct (tbl_shard ext t g (pkof row) Ht) as (s & Hs & Hsh & Hg).
  rewrite (index_Some _ _ _ Hs). cbn [mbind outcome_bind].
  pose proof (Forall_lookup_1 _ _ _ _ Hroom Hs) as Hsz. cbv beta in Hsz.
  destruct (sh_reserve s _ row Hsh Hrow) as (pk' & q & Hr & Hsame & Hins); [lia|].
  rewrite (lift_Some _ _ Hr). cbn [mbind outcome_bind]. rewrite Hg in *. subst out.
  unfold insert_result, budget_reserve, budget_release. fold (cost_of row).
  destruct (g !! pkof row) as [r0|] eqn:Hk.
  { rewrite bool_decide_eq_true_2 by by eexists. eexists. split; [done|].
    by apply (insert_refused t g _ s pk' (t_total t)). }
  rewrite bool_decide_eq_false_2 by (by intros [? [=]]).
  destruct (Z.eqb_spec max 0) as [E0|E0]; cbn [negb andb];
    [|destruct (t_total t + cost_of row >? max); cbn [negb fst snd]];
    [destruct (jf w) as [w0 [e|]]| |destruct (jf w) as [w0 [e|]]]; cbn [fst snd];
    eexists; (split; [reflexivity|]);
    first [apply (insert_refused t g _ s pk') | apply (insert_applied mark t g row s pk' q)];
    try done; try (by apply Hins); cbn; lia.
Qed.

(** Writing one row in place, under any accounting that adds the cost change. *)
Lemma row_replaced (mark : bool) t g s n r r' k delta m : tbl_ok ext t g -> room m t ->
  t_shards t !! idx t k = Some s -> s_rows s !! n = Some (Some r) -> pkof r = k -> pkof r' = k ->
  row_wf r' -> delta = cost_of r' - cost_of r ->
  (forall tk, tr = Some tk -> mark = true \/ tk_key tk r = tk_key tk r') ->
  let t1 := set_total t (budget_adjust max (t_total t) delta) in
  let s1 := add_bytes (set_row s n (Some r')) delta in
  let t' := if mark then markDirtyLocked def t1 (idx t k) s1 k else put_shard t1 (idx t k) s1 in
  tbl_ok ext t' (<[k := r']> g) /\ room m t' /\ g !! k = Some r.
Proof.
  intros Ht Hroom Hs Hn Hk Hk' Hr' -> Hmk t1 s1 t'.
  destruct (tbl_shard ext t g k Ht) as (s0 & Hs0 & Hsh & Hg). rewrite Hs in Hs0. injection Hs0 as <-.
  assert (Hgr : g !! k = Some r).
  { destruct (sh_rows _ _ Hsh) as (gi & _ & Ho). destruct (ro_row _ _ _ Ho _ _ Hn) as [_ E].
    rewrite Hk in E. by rewrite <- Hg. }
  assert (Hp : puts t (idx t k) s1 (t_total t1) (if mark then marks k else []) [] t').
  { subst t'. apply puts_if; [apply (puts_mark t1)|apply (puts_put t1)]. }
  split; [|split; [|done]].
  - eapply tbl_replace; [done|done|done|by eapply stands_of| | |].
    + subst s1. pose proof (sh_replace s _ n r r' Hsh Hn) as R. rewrite Hk in R. by apply R.
    + intros tk Etr. destruct (Hmk tk Etr) as [->|]; [right; by eapply marks_in|by left].
    + intros Hm. subst t1. cbn. unfold budget_adjust. rewrite (proj2 (Z.eqb_neq _ _) Hm). cbn [negb andb].
      destruct (Z.eqb_spec (cost_of r' - cost_of r) 0); cbn [negb]; lia.
  - eapply room_put; [done..| |lia]. subst s1. cbn [s_rows add_bytes set_row]. unfold zlen.
    rewrite length_insert. lia.
Qed.

(** An update that touches no indexed column keeps the observed key. *)
Definition agree_off (ords : list nat) (r r' : Row) : Prop := forall o, o ∉ ords -> r' !! o = r !! o.
Lemma agree_key tk ords r r' : agree_off ords r r' ->
  updateTouchesIndex def ords = true \/ tk_key (def := def) tk r = tk_key tk r'.
Proof.
  intros Ha. destruct (updateTouchesIndex def ords) eqn:E; [by left|right]. apply tk_dep. intros o Ho.
  symmetry. apply Ha. intros Hin%list_elem_of_In. unfold updateTouchesIndex in E.
  assert (existsb (ordIsIndexed def) ords = true) by (apply existsb_exists; by exists o). congruence.
Qed.

Lemma put_same t g k s m r n : tbl_ok ext t g -> room m t -> t_shards t !! idx t k = Some s ->
  s_rows s !! n = Some (Some r) ->
  let t' := put_shard t (idx t k) (set_row s n (Some r)) in tbl_ok ext t' g /\ room m t'.
Proof.
  intros Ht Hroom Hs Hn t'.
  assert (Es : set_row s n (Some r) = s).
  { unfold set_row. rewrite list_insert_id by done. by destruct s. }
  assert (Hp : puts t (idx t k) s (t_total t) [] [] t') by (subst t'; rewrite Es; apply puts_put).
  destruct (tbl_shard ext t g k Ht) as (s0 & Hs0 & Hsh & Hg). rewrite Hs in Hs0. injection Hs0 as <-.
  split; [eapply tbl_same; [done|done|by eapply stands_of|done..]|]. eapply room_put; [done..|lia|lia].
Qed.

(** The UPDATE of one row: the journal decides, and a refusal leaves the table
    as it was. With a journal the SET columns must be distinct. *)
Lemma set_row_ok t w g s n r k ords vals j w' e m : tbl_ok ext t g -> room m t ->
  t_shards t !! idx t k = Some s -> s_rows s !! n = Some (Some r) -> pkof r = k ->
  args_wf ords vals -> (is_Some w -> NoDup ords) ->
  mj_update j w (assign r ords vals) = Ok (w', e) ->
  exists t', set_row_journaled def max t w (idx t k) s (Z.of_nat n) k r ords vals j = Ok (t', w', e) /\
    tbl_ok ext t' (match e with None => <[k := assign r ords vals]> g | Some _ => g end) /\ room m t'.
Proof.
  intros Ht Hroom Hs Hn Hk Hargs Hnd Hj.
  assert (Hwf : row_wf r).
  { destruct (tbl_shard ext t g k Ht) as (s0 & Hs0 & Hsh & _). rewrite Hs in Hs0. injection Hs0 as <-.
    destruct (sh_rows _ _ Hsh) as (gi & _ & Ho). destruct (ro_row _ _ _ Ho _ _ Hn) as [_ E].
    exact (sh_wf _ _ Hsh _ _ E). }
  destruct Hwf as [Hlen Hvals].
  pose proof (set_cells_assign r ords vals Hlen Hargs) as Hset.
  assert (Hnew : row_wf (assign r ords vals)) by by apply assign_wf.
  assert (Hpk : pkof (assign r ords vals) = k) by (rewrite assign_pk; done).
  unfold set_row_journaled, addBytesLocked. rewrite Nat2Z.id. destruct w as [w|].
  - destruct (get_cells_ok r ords) as (old & Hget & Hold).
    { destruct Hargs as (_ & _ & Ho). eapply Forall_impl; [|exact Ho]. cbv beta. intros ? [? _]. by rewrite Hlen. }
    rewrite Hget. cbn [mbind outcome_bind]. rewrite Hset. cbn [mbind outcome_bind]. rewrite Hj.
    cbn [mbind outcome_bind]. destruct e as [e|].
    + rewrite set_cells_assign; [|by rewrite assign_length|].
      2: { destruct Hargs as (_ & _ & Ho). split; [by rewrite (Forall2_length Hold)|].
           split; [|done]. apply Forall_lookup. intros i x Hx.
           destruct (Forall2_lookup_r _ _ _ _ _ Hold Hx) as (o & _ & E). by eapply Forall_lookup_1. }
      cbn [mbind outcome_bind].
      rewrite (assign_revert r _ _ _ Hold); [|by rewrite assign_length|intros; by rewrite assign_notin].
      eexists. split; [done|]. by eapply put_same.
    + eexists. split; [done|].
      destruct (row_replaced (updateTouchesIndex def ords) t g s n r (assign r ords vals) k
        (sum_deltas old (take (length ords) vals)) m) as (H1 & H2 & _); try done.
      * apply sum_deltas_cost; [apply Hnd; by eexists|apply Hargs|done].
      * intros tk _. apply agree_key. intros o Ho. by apply assign_notin.
  - injection Hj as <- <-. rewrite set_cells_delta_assign by done. cbn [mbind outcome_bind].
    eexists. split; [done|].
    destruct (row_replaced (updateTouchesIndex def ords) t g s n r (assign r ords vals) k
        (0 + (cost_of (assign r ords vals) - cost_of r)) m) as (H1 & H2 & _); try done.
    intros tk _. apply agree_key. intros o Ho. by apply assign_notin.
Qed.

(** Looking up the row of a key, as every keyed operation starts. *)
Lemma lookup_row t g k : tbl_ok ext t g ->
  exists s, t_shards t !! idx t k = Some s /\
  match g !! k with
  | None => pk_get pkHashSeed (s_pk s) k = Some (0, false)
  | Some r => exists n, pk_get pkHashSeed (s_pk s) k = Some (Z.of_nat n, true) /\
      s_rows s !! n = Some (Some r) /\ pkof r = k /\ row_wf r
  end.
Proof.
  intros Ht. destruct (tbl_shard ext t g k Ht) as (s & Hs & Hsh & Hg). exists s. split; [done|].
  pose proof (sh_get s _ k Hsh) as G. rewrite Hg in G. destruct (g !! k) as [r|] eqn:Hk; [|done].
  destruct G as (n & G & Hn & E). exists n. split; [done|]. split; [done|]. split; [done|].
  exact (sh_wf _ _ Hsh _ _ Hg).
Qed.

Ltac start_row t g k Ht :=
  let s := fresh "s" in let Hs := fresh "Hs" in let G := fresh "G" in
  destruct (lookup_row t g k Ht) as (s & Hs & G);
  rewrite (index_Some _ _ _ Hs); cbn [mbind outcome_bind].
Ltac found_row G :=
  let E := fresh in
  destruct G as (n & E & Hn & Hpk & Hrow); rewrite (lift_Some _ _ E);
  cbn [mbind outcome_bind negb]; unfold live_row;
  rewrite Nat2Z.id, (index_Some _ _ _ Hn); cbn [mbind outcome_bind lift].

Lemma getByPK_ok t g k : tbl_ok ext t g -> getByPK pkHashSeed t k = Ok (g !! k).
Proof.
  intros Ht. unfold getByPK. start_row t g k Ht. destruct (g !! k) as [r|]; [|by rewrite (lift_Some _ _ G)].
  found_row G. by rewrite Row_Clone_ok by apply Hrow.
Qed.

(** What an UPDATE of the row of [k] answers, given the journal's answer. *)
Lemma update_ok t w g k ords compute j m : tbl_ok ext t g -> room m t ->
  let run := updateByPKJournaled pkHashSeed def max t w k ords compute j in
  match g !! k with
  | None => run = Ok (t, w, (false, None))
  | Some r =>
      match compute r with
      | Err e => run = Ok (t, w, (false, Some e))
      | Panic => run = Panic
      | Ok vals => forall w' e, args_wf ords vals -> (is_Some w -> NoDup ords) ->
          mj_update j w (assign r ords vals) = Ok (w', e) ->
          exists t', run = Ok (t', w', (bool_decide (e = None), e)) /\ room m t' /\
            tbl_ok ext t' (match e with None => <[k := assign r ords vals]> g | Some _ => g end)
      end
  end.
Proof.
  intros Ht Hroom. cbv zeta. unfold updateByPKJournaled. start_row t g k Ht.
  destruct (g !! k) as [r|] eqn:Hk; [|by rewrite (lift_Some _ _ G)].
  found_row G. destruct (compute r) as [vals| |]; [|done..]. intros w' e Hargs Hnd Hj.
  destruct (set_row_ok t w g s n r k ords vals j w' e m) as (t' & -> & H1 & H2); try done.
  exists t'. cbn [mbind outcome_bind]. split; [by destruct e|]. by split.
Qed.
Lemma updateOne_ok t w g k ord compute j m : tbl_ok ext t g -> room m t ->
  let run := updateByPKOneJournaled pkHashSeed def max t w k ord compute j in
  match g !! k with
  | None => run = Ok (t, w, (false, None))
  | Some r =>
      match compute r with
      | Err e => run = Ok (t, w, (false, Some e))
      | Panic => run = Panic
      | Ok v => forall w' e, args_wf [ord] [v] ->
          mj_update j w (assign r [ord] [v]) = Ok (w', e) ->
          exists t', run = Ok (t', w', (bool_decide (e = None), e)) /\ room m t' /\
            tbl_ok ext t' (match e with None => <[k := assign r [ord] [v]]> g | Some _ => g end)
      end
  end.
Proof.
  intros Ht Hroom. cbv zeta. unfold updateByPKOneJournaled. start_row t g k Ht.
  destruct (g !! k) as [r|] eqn:Hk; [|by rewrite (lift_Some _ _ G)].
  found_row G. destruct (compute r) as [v| |]; [|done..]. intros w' e Hargs Hj.
  destruct (set_row_ok t w g s n r k [ord] [v] j w' e m) as (t' & -> & H1 & H2); try done.
  { intros _. apply NoDup_singleton. }
  exists t'. cbn [mbind outcome_bind]. split; [by destruct e|]. by split.
Qed.

(** Removing the row of [k] by its slot and its row id. *)
Lemma row_removed t g k s r n pk' m : tbl_ok ext t g -> room m t -> g !! k = Some r ->
  t_shards t !! idx t k = Some s -> s_rows s !! n = Some (Some r) ->
  sh_ok (MkShard (<[n:=None]> (s_rows s)) pk' (s_live s - 1) (s_bytes s - cost_of r)
               (s_dirtyRead s) (s_dirtyDel s)) (delete k (part (mask t) g (idx t k))) ->
  let t1 := set_total t (budget_release max (t_total t) (cost_of r)) in
  let s1 := MkShard (<[n:=None]> (s_rows s)) pk' (s_live s - 1) (s_bytes s - cost_of r)
              (s_dirtyRead s) (s_dirtyDel s) in
  let t' := markDelDirtyLocked def t1 (idx t k) s1 k in
  tbl_ok ext t' (delete k g) /\ room m t'.
Proof.
  intros Ht Hroom Hk Hs Hn Hsh t1 s1 t'.
  assert (Hp : puts t (idx t k) s1 (t_total t1) [] (marks k) t') by apply (puts_markdel t1).
  split.
  - eapply tbl_delete; [done|done|done|by eapply stands_of|done|intros tk Etr; by eapply marks_in|]. intros Hm. subst t1. cbn. unfold budget_release.
    rewrite (proj2 (Z.eqb_neq _ _) Hm). cbn [negb]. lia.
  - eapply room_put; [done..| |lia]. subst s1. cbn [s_rows]. unfold zlen. rewrite length_insert. lia.
Qed.

Lemma delete_ok t w g k j m : tbl_ok ext t g -> room m t ->
  let run := deleteByPKJournaled pkHashSeed def max t w k j in
  match g !! k with
  | None => run = Ok (t, w, (false, None))
  | Some _ => forall w' e, mj_delete j w = (w', e) ->
      exists t', run = Ok (t', w', (bool_decide (e = None), e)) /\ room m t' /\
        tbl_ok ext t' (match e with None => delete k g | Some _ => g end)
  end.
Proof.
  intros Ht Hroom. cbv zeta. unfold deleteByPKJournaled.
  destruct (tbl_shard ext t g k Ht) as (s & Hs & Hsh & Hg).
  rewrite (index_Some _ _ _ Hs). cbn [mbind outcome_bind].
  pose proof (sh_find s _ k Hsh) as F. rewrite Hg in F.
  destruct (g !! k) as [r|] eqn:Hk; [|by rewrite (lift_Some _ _ F)].
  destruct F as (q & n & pk' & F & Hn & Epk & Hd & Hsh'). rewrite (lift_Some _ _ F).
  cbn [mbind outcome_bind negb]. intros w' e ->. destruct e as [e|].
  { exists t. by split. }
  unfold tombstoneLocked. rewrite Nat2Z.id, (index_Some _ _ _ Hn). cbn [mbind outcome_bind].
  cbn [s_pk]. rewrite (lift_Some _ _ Hd). cbn [mbind outcome_bind].
  eexists. split; [done|]. by destruct (row_removed t g k s r n pk' m) as [? ?].
Qed.

Lemma deleteByPK_ok t g k m : tbl_ok ext t g -> room m t ->
  exists t', deleteByPK pkHashSeed def max t k = Ok (t', bool_decide (is_Some (g !! k))) /\ room m t' /\
    tbl_ok ext t' (delete k g).
Proof.
  intros Ht Hroom. unfold deleteByPK.
  destruct (tbl_shard ext t g k Ht) as (s & Hs & Hsh & Hg).
  rewrite (index_Some _ _ _ Hs). cbn [mbind outcome_bind].
  destruct (g !! k) as [r|] eqn:Hk.
  - pose proof (sh_get s _ k Hsh) as F. rewrite Hg in F. destruct F as (n & _ & Hn & Epk).
    destruct (sh_del s _ n r Hsh Hn) as (pk' & Hd & Hsh'). rewrite Epk in Hd, Hsh'.
    rewrite (lift_Some _ _ Hd). cbn [mbind outcome_bind negb]. unfold tombstoneLocked.
    rewrite Nat2Z.id. cbn [s_rows set_pk]. rewrite (index_Some _ _ _ Hn). cbn [mbind outcome_bind].
    eexists. split; [done|]. by destruct (row_removed t g k s r n pk' m) as [? ?].
  - destruct (sh_rows _ _ Hsh) as (gi & Hpk & Ho).
    destruct (pk_del_ok pkHashSeed _ _ k Hpk) as (pk' & Hd & Hpk').
    pose proof (ro_none _ _ _ _ Ho Hg) as Hgi.
    rewrite Hgi in Hd. rewrite delete_id in Hpk' by done. rewrite (lift_Some _ _ Hd).
    cbn [mbind outcome_bind negb opt_row fst snd]. eexists. split; [done|].
    rewrite delete_id by done. split.
    + eapply room_put; [done|apply puts_put|done| |]; cbn; lia.
    + eapply tbl_same; [done|apply puts_put|by eapply stands_of| |done]. destruct Hsh. split; try done. by exists gi.
Qed.

(** ** Walking the arena *)

(** Slot [j] of shard [i] holds the row of [k]. *)
Definition cell_at (t : tbl_state) (i j : nat) (k : UUID) : Prop :=
  exists s r, t_shards t !! i = Some s /\ s_rows s !! j = Some (Some r) /\ pkof r = k.
Definition live_cell (t : tbl_state) (c : nat * nat * Row) : Prop :=
  exists s, t_shards t !! fst (fst c) = Some s /\ s_rows s !! snd (fst c) = Some (Some (snd c)).

Lemma live_cell_ok t g c : tbl_ok ext t g -> live_cell t c ->
  fst (fst c) = idx t (pkof (snd c)) /\ g !! pkof (snd c) = Some (snd c) /\ row_wf (snd c).
Proof.
  intros Ht (s & Hs & Hj). destruct c as [[i j] r]. cbn in *.
  pose proof (tb_shards _ _ _ Ht _ _ Hs) as Hsh. destruct (sh_rows _ _ Hsh) as (gi & _ & Ho).
  destruct (ro_row _ _ _ Ho _ _ Hj) as [_ E]. pose proof (sh_wf _ _ Hsh _ _ E).
  rewrite part_lookup in E. by case_decide.
Qed.

Lemma live_cells_of_elem i s c : c ∈ live_cells_of i s <->
  fst (fst c) = i /\ s_rows s !! snd (fst c) = Some (Some (snd c)).
Proof.
  unfold live_cells_of. rewrite list_elem_of_omap. destruct c as [[i' j] r]. cbn. split.
  - intros ([j' [r'|]] & Hin & E); [|done]. injection E as <- <- <-. split; [done|].
    apply elem_of_lookup_imap in Hin as (n & x & [= -> ->] & ?). done.
  - intros [<- Hj]. exists (j, Some r). split; [|done]. apply elem_of_lookup_imap. by eexists _, _.
Qed.
Lemma live_cells_elem t c : c ∈ live_cells t <-> live_cell t c.
Proof.
  unfold live_cells, live_cell. rewrite list_elem_of_In, in_concat. split.
  - intros (l & Hl & Hc). apply list_elem_of_In, elem_of_lookup_imap in Hl as (i & s & -> & Hs).
    apply list_elem_of_In, live_cells_of_elem in Hc as [<- Hj]. by exists s.
  - intros (s & Hs & Hj). exists (live_cells_of (fst (fst c)) s).
    rewrite <- !list_elem_of_In. split; [|by apply live_cells_of_elem].
    apply elem_of_lookup_imap. by eexists _, _.
Qed.
Lemma live_cells_nodup t : NoDup (live_cells t).
Proof.
  apply (NoDup_concat_imap _ (fun c => fst (fst c)) _ 0).
  - intros i s. unfold live_cells_of. rewrite omap_concat, fmap_imap.
    apply (NoDup_concat_imap _ (fun c => snd (fst c)) _ 0); intros j [r|]; cbn.
    + apply NoDup_singleton.
    + constructor.
    + intros y ->%list_elem_of_singleton. cbn. lia.
    + by intros y ?%not_elem_of_nil.
  - intros i s c [<- _]%live_cells_of_elem. lia.
Qed.

(** The walk meets every row of the table once. *)
Lemma live_cells_perm t g : tbl_ok ext t g ->
  ((fun c => (pkof (snd c), snd c)) <$> live_cells t) ≡ₚ map_to_list g.
Proof.
  intros Ht. apply NoDup_Permutation.
  - apply NoDup_fmap_2_strong; [|apply live_cells_nodup].
    intros c c' Hc%live_cells_elem Hc'%live_cells_elem E.
    destruct (live_cell_ok t g c Ht Hc) as (Ei & _ & _), (live_cell_ok t g c' Ht Hc') as (Ei' & _ & _).
    destruct c as [[i j] r], c' as [[i' j'] r']. apply pair_equal_spec in E as [Ek Er].
    cbn [fst snd] in *. subst r'. rewrite <- Ei' in Ei. subst i. destruct Hc as (s & Hs & Hj), Hc' as (s' & Hs' & Hj'). cbn [fst snd] in *.
    rewrite Hs in Hs'. injection Hs' as <-.
    pose proof (tb_shards _ _ _ Ht _ _ Hs) as Hsh. destruct (sh_rows _ _ Hsh) as (gi & _ & Ho).
    destruct (ro_row _ _ _ Ho _ _ Hj) as [E1 _], (ro_row _ _ _ Ho _ _ Hj') as [E2 _].
    rewrite E1 in E2. injection E2 as ->%Nat2Z.inj. done.
  - apply NoDup_map_to_list.
  - intros [k r]. rewrite elem_of_map_to_list, list_elem_of_fmap. split.
    + intros (c & [= -> ->] & Hc%live_cells_elem). by apply (live_cell_ok t g c).
    + intros Hk. destruct (tbl_shard ext t g k Ht) as (s & Hs & Hsh & Hg). rewrite Hk in Hg.
      destruct (sh_rows _ _ Hsh) as (gi & _ & Ho). destruct (ro_lookup _ _ _ _ _ Ho Hg) as (n & _ & Hn & E).
      exists (idx t k, n, r). cbn. rewrite E. split; [done|]. apply live_cells_elem. by exists s.
Qed.

(** ** Multi-row statements: match and compute first, journal once, then apply *)
Section multi.
Context (match_ : Row -> bool) (ords : list nat) (compute : Row -> outcome (list Value)).
Context (compute_wf : forall r vals, row_wf r -> compute r = Ok vals -> args_wf ords vals).

Definition new_row (r : Row) : Row :=
  match compute r with Ok vals => assign r ords vals | _ => r end.
Definition pend_cell (c : nat * nat * Row) : nat * nat * Row :=
  (fst c, new_row (snd c)).

Lemma pend_updates_ok cells : Forall (fun c => row_wf (snd c)) cells ->
  match pend_updates cells match_ ords compute with
  | Ok p => p = pend_cell <$> filter (fun c => match_ (snd c)) cells
  | Err e => exists c, c ∈ cells /\ match_ (snd c) = true /\ compute (snd c) = Err e
  | Panic => exists c, c ∈ cells /\ match_ (snd c) = true /\ compute (snd c) = Panic
  end.
Proof.
  induction 1 as [|[[i j] r] cells Hr Hcs IH]; [done|]. cbn [pend_updates snd] in *.
  rewrite list.filter_cons. destruct (match_ r) eqn:Hm; cbn [negb].
  2: { rewrite decide_False by (cbn; rewrite Hm; by intros []). destruct (pend_updates _ _ _ _); [done| |];
       destruct IH as (c & ? & ?); exists c; rewrite elem_of_cons; auto. }
  rewrite decide_True by (cbn; by rewrite Hm). destruct (compute r) as [vals|e|] eqn:Hc;
    cbn [mbind outcome_bind];
    [|by exists (i, j, r); rewrite elem_of_cons; auto|by exists (i, j, r); rewrite elem_of_cons; auto].
  rewrite Row_Clone_ok by apply Hr. rewrite set_cells_assign; [|apply Hr|by eapply compute_wf].
  cbn [mbind outcome_bind]. destruct (pend_updates _ _ _ _); cbn [mbind outcome_bind].
  - rewrite IH, fmap_cons. unfold pend_cell at 2, new_row. cbn [fst snd]. by rewrite Hc.
  - destruct IH as (c & ? & ?). exists c. rewrite elem_of_cons. auto.
  - destruct IH as (c & ? & ?). exists c. rewrite elem_of_cons. auto.
Qed.

Lemma new_row_ok r : row_wf r -> row_wf (new_row r) /\ pkof (new_row r) = pkof r.
Proof.
  intros Hr. unfold new_row. destruct (compute r) as [vals| |] eqn:E; [|done..].
  pose proof (compute_wf _ _ Hr E). split; [by apply assign_wf|by apply assign_pk].
Qed.
End multi.

(** The second pass of UPDATE: each pending row overwrites the row of its key. *)
Lemma cell_at_put t i s total er ed t' s0 i' j k : puts t i s total er ed t' -> t_shards t !! i = Some s0 ->
  (forall j r, s_rows s0 !! j = Some (Some r) -> pkof r = k ->
     exists r', s_rows s !! j = Some (Some r') /\ pkof r' = k) ->
  cell_at t i' j k -> cell_at t' i' j k.
Proof.
  intros (s' & (Er & _) & _ & _ & Es & _) Hi Hr (x & r & Hx & Hj & Hk). unfold cell_at. rewrite Es.
  destruct (decide (i' = i)) as [->|Hne].
  - rewrite Hi in Hx. injection Hx as <-. destruct (Hr _ _ Hj Hk) as (r' & Hj' & Hk').
    exists s', r'. rewrite list_lookup_insert_eq by (by eapply lookup_lt_Some). by rewrite Er.
  - exists x, r. by rewrite list_lookup_insert_ne.
Qed.

Lemma apply_update_ok ords t g p m : tbl_ok ext t g -> room m t ->
  cell_at t (fst (fst p)) (snd (fst p)) (pkof (snd p)) -> row_wf (snd p) ->
  (exists r, g !! pkof (snd p) = Some r /\ agree_off ords r (snd p)) ->
  exists t', apply_update def max ords t p = Ok t' /\ tbl_ok ext t' (<[pkof (snd p) := snd p]> g) /\
    room m t' /\ (forall i j k, cell_at t i j k -> cell_at t' i j k).
Proof.
  destruct p as [[i j] nr]. cbn [fst snd]. intros Ht Hroom (s & r & Hs & Hj & Hk) Hnr (r0 & Hr0 & Hag).
  destruct (live_cell_ok t g (i, j, r) Ht) as (Hi & Hg & Hr); [by exists s|]. cbn [fst snd] in *.
  rewrite Hk in Hi. subst i. unfold apply_update. rewrite (index_Some _ _ _ Hs). cbn [mbind outcome_bind].
  rewrite (index_Some _ _ _ Hj). cbn [mbind outcome_bind default]. unfold addBytesLocked.
  destruct (index_pk nr Hnr pk_in) as (v & Hv & Ev). rewrite Hv. cbn [mbind outcome_bind]. rewrite Ev.
  eexists. split; [done|].
  destruct (row_replaced (updateTouchesIndex def ords) t g s j r nr (pkof nr)
    (cost_of nr - cost_of r) m) as (H1 & H2 & _); try done.
  { intros tk _. apply agree_key. rewrite Hk, Hr0 in Hg. by injection Hg as <-. }
  split; [done|]. split; [done|]. intros i' j' k'. eapply cell_at_put; [|done|].
  - set (t1 := set_total t _). apply puts_if; [apply (puts_mark t1)|apply (puts_put t1)].
  - intros n x Hx Hkx. cbn [s_rows set_row add_bytes]. destruct (decide (n = j)) as [->|Hne].
    + rewrite Hj in Hx. injection Hx as ->. exists nr.
      rewrite list_lookup_insert_eq by (by eapply lookup_lt_Some). split; [done|]. congruence.
    + exists x. by rewrite list_lookup_insert_ne.
Qed.

Lemma apply_updates_ok ords ps : forall t g m, tbl_ok ext t g -> room m t ->
  Forall (fun p => cell_at t (fst (fst p)) (snd (fst p)) (pkof (snd p)) /\ row_wf (snd p) /\
    exists r, g !! pkof (snd p) = Some r /\ agree_off ords r (snd p)) ps ->
  exists t', apply_updates def max ords t ps = Ok t' /\ room m t' /\
    tbl_ok ext t' (fold_left (fun g kv => <[fst kv := snd kv]> g)
      ((fun p => (pkof (snd p), snd p)) <$> ps) g).
Proof.
  induction ps as [|p ps IH]; intros t g m Ht Hroom Hps; [by exists t|].
  inversion Hps as [|? ? (Hc & Hw & Ha) Hps']; subst.
  destruct (apply_update_ok ords t g p m Ht Hroom Hc Hw Ha) as (t1 & E & Ht1 & Hroom1 & Hmono).
  cbn [apply_updates]. rewrite E. cbn [mbind outcome_bind].
  destruct (IH t1 _ m Ht1 Hroom1) as (t' & E' & Hroom' & Ht'); [|by exists t'].
  eapply Forall_impl; [|exact Hps']. cbv beta. intros q (Hq & Hwq & r & Hr & Hag).
  split; [by apply Hmono|]. split; [done|]. destruct (decide (pkof (snd q) = pkof (snd p))) as [E'|Hne].
  - rewrite E', lookup_insert_eq. exists (snd p). split; [done|]. destruct Ha as (r' & Hr' & Hag').
    rewrite E', Hr' in Hr. injection Hr as <-. intros o Ho. by rewrite Hag, Hag'.
  - rewrite lookup_insert_ne by done. by exists r.
Qed.

(** The places a statement visits: live cells, each key at most once. *)
Record cells_ok (t : tbl_state) (g : gmap UUID Row) (cells : list (nat * nat * Row)) : Prop := {
  co_live : Forall (live_cell t) cells;
  co_nodup : NoDup ((fun c => pkof (snd c)) <$> cells);
}.
Lemma co_row t g cells c : tbl_ok ext t g -> cells_ok t g cells -> c ∈ cells ->
  g !! pkof (snd c) = Some (snd c) /\ row_wf (snd c).
Proof.
  intros Ht [Hl _] Hc. rewrite list.Forall_forall in Hl. by apply (live_cell_ok t g c Ht), Hl.
Qed.
Lemma live_cells_ok t g : tbl_ok ext t g -> cells_ok t g (live_cells t).
Proof.
  intros Ht. split.
  - apply list.Forall_forall. intros c. by rewrite live_cells_elem.
  - pose proof (live_cells_perm t g Ht) as P. apply (fmap_Permutation fst) in P.
    rewrite <- list_fmap_compose in P. unfold compose in P. cbn [fst] in P. rewrite P.
    apply NoDup_fst_map_to_list.
Qed.

(** The rows of [g] visited by [cells] that match. *)
Definition hit (match_ : Row -> bool) (cells : list (nat * nat * Row)) (k : UUID) (r : Row) : Prop :=
  match_ r = true /\ k ∈ (fun c => pkof (snd c)) <$> cells.

#[global] Instance hit_dec match_ cells k r : Decision (hit match_ cells k r).
Proof. unfold hit. apply _. Defined.

Lemma elem_hit t g (match_ : Row -> bool) cells c : tbl_ok ext t g -> cells_ok t g cells ->
  c ∈ filter (fun c => match_ (snd c)) cells ->
  g !! pkof (snd c) = Some (snd c) /\ row_wf (snd c) /\ hit match_ cells (pkof (snd c)) (snd c).
Proof.
  intros Ht Hco [Hm Hc]%list_elem_of_filter. destruct (co_row t g cells c Ht Hco Hc) as [Hg Hw].
  split; [done|]. split; [done|]. split; [by apply Is_true_true|].
  apply list_elem_of_fmap. by exists c.
Qed.
Lemma hit_elem t g (match_ : Row -> bool) cells k r : tbl_ok ext t g -> cells_ok t g cells -> g !! k = Some r ->
  hit match_ cells k r -> exists c, c ∈ filter (fun c => match_ (snd c)) cells /\ pkof (snd c) = k /\ snd c = r.
Proof.
  intros Ht Hco Hk [Hm (c & -> & Hc)%list_elem_of_fmap].
  destruct (co_row t g cells c Ht Hco Hc) as [Hg _]. rewrite Hk in Hg. injection Hg as ->.
  exists c. split; [|done]. apply list_elem_of_filter. split; [by apply Is_true_true|done].
Qed.

Lemma nodup_filter_keys (f : nat * nat * Row -> UUID) (P : nat * nat * Row -> bool) cells :
  NoDup (f <$> cells) -> NoDup (f <$> filter P cells).
Proof. intros Hn. eapply sublist_NoDup; [exact Hn|]. apply fmap_sublist, sublist_filter. Qed.

Lemma update_fold t g (match_ : Row -> bool) ords compute cells : tbl_ok ext t g -> cells_ok t g cells ->
  (forall r vals, row_wf r -> compute r = Ok vals -> args_wf ords vals) ->
  let ps := pend_cell ords compute <$> filter (fun c => match_ (snd c)) cells in
  let g' := fold_left (fun g kv => <[fst kv := snd kv]> g) ((fun p => (pkof (snd p), snd p)) <$> ps) g in
  forall k r, g !! k = Some r ->
    (hit match_ cells k r -> g' !! k = Some (new_row ords compute r)) /\
    (~ hit match_ cells k r -> g' !! k = Some r).
Proof.
  intros Ht Hco Hwf ps g' k r Hk.
  assert (Hkeys : ((fun p => (pkof (snd p), snd p)) <$> ps).*1 =
    (fun c => pkof (snd c)) <$> filter (fun c => match_ (snd c)) cells).
  { subst ps. rewrite <- !list_fmap_compose. apply list_fmap_ext. intros i c Hc%list_elem_of_lookup_2.
    destruct (elem_hit t g match_ cells c Ht Hco Hc) as (_ & Hw & _). unfold compose, pend_cell. cbn [fst snd].
    by apply (new_row_ok ords compute Hwf). }
  split.
  - intros Hh. destruct (hit_elem t g match_ cells k r Ht Hco Hk Hh) as (c & Hc & <- & <-).
    apply fold_insert_in.
    + rewrite Hkeys. apply nodup_filter_keys, Hco.
    + apply list_elem_of_fmap. exists (pend_cell ords compute c).
      destruct (elem_hit t g match_ cells c Ht Hco Hc) as (_ & Hw & _). unfold pend_cell. cbn [snd].
      rewrite (proj2 (new_row_ok ords compute Hwf _ Hw)). split; [done|].
      apply list_elem_of_fmap. by exists c.
  - intros Hh. unfold g'. rewrite fold_insert_notin; [done|]. rewrite Hkeys.
    intros (c & -> & Hc)%list_elem_of_fmap. destruct (elem_hit t g match_ cells c Ht Hco Hc) as (Hg & _ & ?).
    rewrite Hk in Hg. injection Hg as ->. by apply Hh.
Qed.

(** The outcome of a multi-row UPDATE over [cells]: an error of the SET
    expressions or of the journal leaves the table untouched; otherwise exactly
    the matching rows become their new rows, one record having been journaled. *)
Lemma update_cells_ok t w g cells (match_ : Row -> bool) ords compute encode m : tbl_ok ext t g -> room m t ->
  cells_ok t g cells -> (forall r vals, row_wf r -> compute r = Ok vals -> args_wf ords vals) ->
  let run := update_cells def max t w cells match_ ords compute encode in
  match pend_updates cells match_ ords compute with
  | Err e => run = Ok (t, w, (0, Some e)) /\ exists k r, g !! k = Some r /\ hit match_ cells k r /\ compute r = Err e
  | Panic => exists k r, g !! k = Some r /\ hit match_ cells k r /\ compute r = Panic
  | Ok ps => ps = pend_cell ords compute <$> filter (fun c => match_ (snd c)) cells /\ forall bodies w' e, encode_pending encode ps = Ok bodies -> journal_bodies w bodies = (w', e) ->
      match e with
      | Some _ => run = Ok (t, w', (0, e))
      | None => exists t' g', run = Ok (t', w', (zlen ps, None)) /\ room m t' /\ tbl_ok ext t' g' /\
          dom g' = dom g /\
          (forall k r, g !! k = Some r ->
            (hit match_ cells k r -> g' !! k = Some (new_row ords compute r)) /\
            (~ hit match_ cells k r -> g' !! k = Some r))
      end
  end.
Proof.
  intros Ht Hroom Hco Hwf run.
  assert (Hrows : Forall (fun c => row_wf (snd c)) cells).
  { apply list.Forall_forall. intros c Hc. by apply (co_row t g cells c Ht Hco Hc). }
  pose proof (pend_updates_ok match_ ords compute Hwf cells Hrows) as Hp. subst run.
  unfold update_cells. destruct (pend_updates cells match_ ords compute) as [ps|e|] eqn:Hps.
  2-3: destruct Hp as (c & Hc & Hm & Ec); destruct (co_row t g cells c Ht Hco Hc) as [Hg _];
    assert (hit match_ cells (pkof (snd c)) (snd c)) by (split; [done|]; apply list_elem_of_fmap; by exists c);
    eauto 6.
  split; [done|].
  intros bodies w' e Henc Hjb. rewrite Henc. cbn [mbind outcome_bind]. rewrite Hjb.
  destruct e as [e|]; [done|].
  destruct (apply_updates_ok ords ps t g m Ht Hroom) as (t' & E & Hroom' & Ht').
  { rewrite Hp. apply list.Forall_forall. intros q (c & -> & Hc)%list_elem_of_fmap.
    destruct (elem_hit t g match_ cells c Ht Hco Hc) as (_ & Hw & _).
    destruct (new_row_ok ords compute Hwf _ Hw) as [Hw' Hpk]. unfold pend_cell. cbn [fst snd].
    rewrite Hpk. split; [|split; [done|]].
    2: { exists (snd c). split; [by apply (elem_hit t g match_ cells c Ht Hco Hc)|]. intros o Ho. unfold new_row.
         destruct (compute (snd c)); [by apply assign_notin|done..]. }
    apply list_elem_of_filter in Hc as [_ Hc].
    pose proof (co_live _ _ _ Hco) as Hl. rewrite list.Forall_forall in Hl.
    destruct (Hl _ Hc) as (s & Hs & Hj). exists s, (snd c). done. }
  rewrite E. cbn [mbind outcome_bind]. rewrite Hp in Ht'. eexists t', _. split; [done|].
  split; [done|]. split; [done|].
  pose proof (update_fold t g match_ ords compute cells Ht Hco Hwf) as Hf. cbv zeta in Hf.
  split; [|done]. apply set_eq. intros k. rewrite !elem_of_dom.
  destruct (g !! k) as [r|] eqn:Hk.
  - destruct (Hf k r Hk) as [H1 H2]. split; [by eexists|]. intros _.
    destruct (decide (match_ r = true /\ k ∈ (fun c => pkof (snd c)) <$> cells)) as [Hh|Hh].
    + rewrite (H1 Hh). by eexists.
    + rewrite (H2 Hh). by eexists.
  - rewrite fold_insert_notin; [by rewrite Hk|]. intros (p & -> & (q & -> & (c & -> & Hc)%list_elem_of_fmap)%list_elem_of_fmap)%list_elem_of_fmap.
    cbn [fst snd] in Hk. destruct (elem_hit t g match_ cells c Ht Hco Hc) as (Hg & Hw & _).
    unfold pend_cell in Hk. cbn [snd] in Hk. rewrite (proj2 (new_row_ok ords compute Hwf _ Hw)) in Hk. congruence.
Qed.

(** DELETE: the second pass removes each pending key; a row never moves. *)
Definition pend_key (c : nat * nat * Row) : nat * nat * UUID := (fst c, pkof (snd c)).

Definition pk_cell (r : Row) : Value := default Null (r !! pkOrd def).

Lemma pend_deletes_ok (match_ : Row -> bool) cells : Forall (fun c => row_wf (snd c)) cells ->
  let hits := filter (fun c => match_ (snd c)) cells in
  pend_deletes def cells match_ = Ok (pend_key <$> hits, (fun c => pk_cell (snd c)) <$> hits).
Proof.
  induction 1 as [|[[i j] r] cells Hr Hcs IH]; [done|]. cbn [pend_deletes snd] in *. cbv zeta in *.
  rewrite list.filter_cons. destruct (match_ r) eqn:Hm; cbn [negb].
  2: { by rewrite decide_False by (cbn; rewrite Hm; by intros []). }
  rewrite decide_True by (cbn; by rewrite Hm). destruct (lookup_lt_is_Some_2 r (pkOrd def)) as [v E].
  { by rewrite (proj1 Hr). }
  rewrite (index_Some _ _ _ E). cbn [mbind outcome_bind]. rewrite IH. cbn [mbind outcome_bind fst snd].
  rewrite !fmap_cons. unfold pend_key at 2, pkof, pk_cell at 2. cbn [fst snd]. by rewrite E.
Qed.

Lemma apply_delete_ok t g p m : tbl_ok ext t g -> room m t ->
  cell_at t (fst (fst p)) (snd (fst p)) (snd p) ->
  exists t', apply_delete pkHashSeed def max t p = Ok t' /\ tbl_ok ext t' (delete (snd p) g) /\ room m t' /\
    (forall i j k, k <> snd p -> cell_at t i j k -> cell_at t' i j k).
Proof.
  destruct p as [[i j] pk]. cbn [fst snd]. intros Ht Hroom (s & r & Hs & Hj & Hk).
  destruct (live_cell_ok t g (i, j, r) Ht) as (Hi & Hg & Hr); [by exists s|]. cbn [fst snd] in *.
  rewrite Hk in Hi, Hg. subst i. unfold apply_delete. rewrite (index_Some _ _ _ Hs). cbn [mbind outcome_bind].
  destruct (sh_del s _ j r (tb_shards _ _ _ Ht _ _ Hs) Hj) as (pk' & Hd & Hsh'). rewrite Hk in Hd, Hsh'.
  rewrite (lift_Some _ _ Hd). cbn [mbind outcome_bind fst snd]. unfold tombstoneLocked.
  cbn [s_rows set_pk]. rewrite (index_Some _ _ _ Hj). cbn [mbind outcome_bind default].
  eexists. split; [done|]. destruct (row_removed t g pk s r j pk' m) as [H1 H2]; try done.
  split; [done|]. split; [done|]. intros i' j' k' Hne. eapply cell_at_put; [|done|].
  - set (t1 := set_total t _). apply (puts_markdel t1).
  - intros n x Hx Hkx. cbn [s_rows]. exists x. rewrite list_lookup_insert_ne; [done|].
    intros <-. congruence.
Qed.

Lemma apply_deletes_ok ps : forall t g m, tbl_ok ext t g -> room m t -> NoDup ps.*2 ->
  Forall (fun p => cell_at t (fst (fst p)) (snd (fst p)) (snd p)) ps ->
  exists t', apply_deletes pkHashSeed def max t ps = Ok t' /\ room m t' /\
    tbl_ok ext t' (fold_left (fun g k => delete k g) ps.*2 g).
Proof.
  induction ps as [|p ps IH]; intros t g m Ht Hroom Hnd Hps; [by exists t|].
  inversion Hps as [|? ? Hc Hps']; subst. apply list.NoDup_cons in Hnd as [Hnin Hnd].
  destruct (apply_delete_ok t g p m Ht Hroom Hc) as (t1 & E & Ht1 & Hroom1 & Hmono).
  cbn [apply_deletes]. rewrite E. cbn [mbind outcome_bind].
  destruct (IH t1 _ m Ht1 Hroom1 Hnd) as (t' & E' & Hroom' & Ht'); [|by exists t'].
  apply list.Forall_forall. intros q Hq. rewrite list.Forall_forall in Hps'.
  apply Hmono; [|by apply Hps']. intros Eq. apply Hnin. apply list_elem_of_fmap. by exists q.
Qed.

Lemma delete_cells_ok t w g cells (match_ : Row -> bool) encode m w' e : tbl_ok ext t g -> room m t ->
  cells_ok t g cells ->
  let run := delete_cells pkHashSeed def max t w cells match_ encode in
  let hits := filter (fun c => match_ (snd c)) cells in
  journal_bodies w (map encode ((fun c => pk_cell (snd c)) <$> hits)) = (w', e) ->
  match e with
  | Some _ => run = Ok (t, w', (0, e))
  | None => exists t' g', run = Ok (t', w', (zlen hits, None)) /\ room m t' /\ tbl_ok ext t' g' /\
      forall k, g' !! k = match g !! k with
                          | Some r => if decide (hit match_ cells k r) then None else Some r
                          | None => None
                          end
  end.
Proof.
  intros Ht Hroom Hco run hits Hj.
  assert (Hrows : Forall (fun c => row_wf (snd c)) cells).
  { apply list.Forall_forall. intros c Hc. by apply (co_row t g cells c Ht Hco Hc). }
  subst run. unfold delete_cells. rewrite (pend_deletes_ok match_ cells Hrows). cbn [mbind outcome_bind].
  fold hits. rewrite Hj.
  destruct e as [e|]; [done|]. set (ps := pend_key <$> _).
  assert (Hkeys : ps.*2 = (fun c => pkof (snd c)) <$> filter (fun c => match_ (snd c)) cells).
  { unfold ps. by rewrite <- list_fmap_compose. }
  destruct (apply_deletes_ok ps t g m Ht Hroom) as (t' & E & Hroom' & Ht').
  { rewrite Hkeys. apply nodup_filter_keys, Hco. }
  { apply list.Forall_forall. intros q (c & -> & [Hm Hc]%list_elem_of_filter)%list_elem_of_fmap.
    pose proof (co_live _ _ _ Hco) as Hl. rewrite list.Forall_forall in Hl.
    destruct (Hl _ Hc) as (s & Hs & Hj'). exists s, (snd c). done. }
  rewrite E. cbn [mbind outcome_bind]. eexists t', _. split.
  { do 4 f_equal. unfold ps, zlen. by rewrite length_fmap. }
  split; [done|]. split; [done|]. intros k. rewrite fold_delete_lookup, Hkeys.
  destruct (g !! k) as [r|] eqn:Hk; [|by case_decide]. apply decide_ext.
  split.
  - intros (c & -> & Hc)%list_elem_of_fmap. destruct (elem_hit t g match_ cells c Ht Hco Hc) as (Hg & _ & Hh).
    rewrite Hk in Hg. by injection Hg as ->.
  - intros Hh. destruct (hit_elem t g match_ cells k r Ht Hco Hk Hh) as (c & Hc & <- & _).
    apply list_elem_of_fmap. by exists c.
Qed.

(** The candidate lanes visit the rows of the keys that still resolve. *)
Lemma candidate_cells_ok t g pks : tbl_ok ext t g -> NoDup pks ->
  exists cells, candidate_cells pkHashSeed t pks = Ok cells /\ cells_ok t g cells /\
    ((fun c => pkof (snd c)) <$> cells) = filter (fun k => is_Some (g !! k)) pks.
Proof.
  intros Ht Hn. enough (exists cells, candidate_cells pkHashSeed t pks = Ok cells /\
    Forall (live_cell t) cells /\
    ((fun c => pkof (snd c)) <$> cells) = filter (fun k => is_Some (g !! k)) pks) as (cells & E & Hl & Ek).
  { exists cells. split; [done|]. split; [|done]. split; [done|]. rewrite Ek. by apply list.NoDup_filter. }
  clear Hn. induction pks as [|k pks (cells & IH & Hl & Ek)]; [by exists []|].
  cbn [candidate_cells]. start_row t g k Ht. rewrite list.filter_cons. destruct (g !! k) as [r|] eqn:Hk.
  - rewrite decide_True by by eexists. found_row G. rewrite IH. cbn [mbind outcome_bind].
    eexists. split; [done|]. split; [constructor; [by exists s|done]|]. rewrite fmap_cons, Ek. cbn [snd].
    by rewrite Hpk.
  - rewrite decide_False by (by intros [? [=]]). rewrite (lift_Some _ _ G). cbn [mbind outcome_bind negb].
    by exists cells.
Qed.

(** ** Compaction *)
Definition row_entries (rows : list (option Row)) : list (UUID * Row) :=
  (fun r => (pkof r, r)) <$> omap id rows.

Lemma row_entries_nodup rows :
  (forall n n' r r', rows !! n = Some (Some r) -> rows !! n' = Some (Some r') -> pkof r = pkof r' -> n = n') ->
  NoDup (row_entries rows).*1.
Proof.
  unfold row_entries. rewrite <- list_fmap_compose. unfold compose. cbn [fst].
  induction rows as [|[r|] rows IH]; intros Hinj; cbn [omap list_omap id]; [constructor| |].
  - cbn [id fmap list_fmap]. apply list.NoDup_cons. split.
    + intros (r' & E & Hin)%list_elem_of_fmap. apply list_elem_of_omap in Hin as (x & Hx & Ex).
      unfold id in Ex. subst x. apply list_elem_of_lookup_1 in Hx as [n Hn].
      by specialize (Hinj 0%nat (S n) r r' eq_refl Hn E).
    + apply IH. intros n n' x x' Hx Hx' E. specialize (Hinj (S n) (S n') x x' Hx Hx' E). lia.
  - apply IH. intros n n' x x' Hx Hx' E. specialize (Hinj (S n) (S n') x x' Hx Hx' E). lia.
Qed.

Lemma compact_rows_ok rest : forall newRows newPk gi m,
  rows_ok newRows gi m -> pk_ok pkHashSeed newPk gi -> zlen newRows + zlen rest <= 2 ^ 56 ->
  Forall (fun r => row_wf r) (omap id rest) -> NoDup (row_entries rest).*1 ->
  (forall k, k ∈ (row_entries rest).*1 -> m !! k = None) ->
  exists rows' pk' gi', compact_rows pkHashSeed def rest newRows newPk = Ok (rows', pk') /\
    pk_ok pkHashSeed pk' gi' /\ zlen rows' <= zlen newRows + zlen rest /\
    rows_ok rows' gi' (fold_left (fun g kv => <[fst kv := snd kv]> g) (row_entries rest) m).
Proof.
  induction rest as [|[r|] rest IH]; intros newRows newPk gi m Ho Hpk Hsz Hwf Hnd Hm.
  - exists newRows, newPk, gi. rewrite zlen_nil, Z.add_0_r. done.
  - cbn [omap list_omap id] in Hwf. inversion Hwf as [|? ? Hr Hwf']; subst.
    unfold row_entries in Hnd, Hm. cbn [omap list_omap id fmap list_fmap fst] in Hnd, Hm.
    apply list.NoDup_cons in Hnd as [Hnin Hnd]. cbn [compact_rows].
    destruct (index_pk r Hr pk_in) as (v & -> & Ev). cbn [mbind outcome_bind]. rewrite Ev.
    rewrite zlen_cons in Hsz. pose proof (ro_size _ _ _ Ho) as Hgi.
    pose proof (zlen_pos rest). pose proof (zlen_pos newRows).
    destruct (pk_put_ok pkHashSeed _ _ (pkof r) (zlen newRows) Hpk) as (m1 & E & Hpk1); [lia|unfold rowid_ok; lia|].
    rewrite (lift_Some _ _ E). cbn [mbind outcome_bind].
    destruct (IH (newRows ++ [Some r]) m1 (<[pkof r := zlen newRows]> gi) (<[pkof r := r]> m))
      as (rows' & pk' & gi' & E' & Hpk' & Hlen & Ho'); try done.
    + apply ro_append; [done|]. apply Hm. by left.
    + rewrite zlen_app, zlen_cons, zlen_nil. lia.
    + intros k Hk. rewrite lookup_insert_ne by (intros <-; done). apply Hm. by right.
    + exists rows', pk', gi'. rewrite zlen_app, zlen_cons, zlen_nil in Hlen. rewrite zlen_cons.
      split; [done|]. split; [done|]. split; [lia|done].
  - rewrite zlen_cons in *. cbn [compact_rows].
    destruct (IH newRows newPk gi m) as (rows' & pk' & gi' & E' & Hpk' & Hlen & Ho'); try done; [lia|].
    exists rows', pk', gi'. split; [done|]. split; [done|]. split; [lia|done].
Qed.

Lemma row_entries_fold rows gi m : rows_ok rows gi m ->
  fold_left (fun g kv => <[fst kv := snd kv]> g) (row_entries rows) ∅ = m.
Proof.
  intros Ho. assert (Hin : forall n n' r r', rows !! n = Some (Some r) -> rows !! n' = Some (Some r') ->
    pkof r = pkof r' -> n = n').
  { intros n n' r r' Hn Hn' E. destruct (ro_row _ _ _ Ho _ _ Hn) as [E1 _], (ro_row _ _ _ Ho _ _ Hn') as [E2 _].
    rewrite E, E2 in E1. injection E1. lia. }
  pose proof (row_entries_nodup rows Hin) as Hnd. apply map_eq. intros k.
  destruct (m !! k) as [r|] eqn:Hk.
  - apply fold_insert_in; [done|]. destruct (ro_lookup _ _ _ _ _ Ho Hk) as (n & _ & Hn & <-).
    apply list_elem_of_fmap. exists r. split; [done|]. apply list_elem_of_omap. exists (Some r).
    split; [|done]. by eapply list_elem_of_lookup_2.
  - rewrite fold_insert_notin; [by apply lookup_empty|].
    intros ((k' & r) & -> & (r' & [= -> ->] & Hr)%list_elem_of_fmap)%list_elem_of_fmap.
    apply list_elem_of_omap in Hr as (x & Hx & Ex). unfold id in Ex. subst x.
    apply list_elem_of_lookup_1 in Hx as [n Hn]. destruct (ro_row _ _ _ Ho _ _ Hn). cbn in Hk. congruence.
Qed.

Lemma compact_ok t g i s m : tbl_ok ext t g -> room m t -> t_shards t !! i = Some s ->
  exists t', compactShardIfDense pkHashSeed def t i = Ok t' /\ tbl_ok ext t' g /\ room m t'.
Proof.
  intros Ht Hroom Hs. unfold compactShardIfDense. rewrite (index_Some _ _ _ Hs). cbn [mbind outcome_bind].
  destruct (shardDense s); cbn [negb]; [|by exists t]. unfold compactShardLocked.
  pose proof (tb_shards _ _ _ Ht _ _ Hs) as Hsh. destruct (sh_rows _ _ Hsh) as (gi & Hpk & Ho).
  pose proof (Forall_lookup_1 _ _ _ _ Hroom Hs) as Hsz. cbv beta in Hsz.
  pose proof (ro_size _ _ _ Ho) as Hgi.
  assert (Hgs : size gi = size (part (mask t) g i)).
  { rewrite <- !size_dom. f_equal. apply set_eq. intros k. rewrite !elem_of_dom. split; intros [x Hx].
    - destruct (ro_id _ _ _ Ho _ _ Hx) as (n & r & -> & Hn & <-). by destruct (ro_row _ _ _ Ho _ _ Hn) as [_ ->].
    - by eapply ro_dom. }
  destruct (pk_init_ok pkHashSeed (s_live s)) as (pk0 & E0 & Hpk0 & _); [rewrite (sh_live _ _ Hsh); lia|].
  rewrite (lift_Some _ _ E0). cbn [mbind outcome_bind].
  destruct (compact_rows_ok (s_rows s) [] pk0 ∅ ∅) as (rows' & pk' & gi' & E & Hpk' & Hlen & Ho'); try done.
  - rewrite zlen_nil. lia.
  - apply list.Forall_forall. intros r (x & Hx & Ex)%list_elem_of_omap. unfold id in Ex. subst x.
    apply list_elem_of_lookup_1 in Hx as [n Hn]. destruct (ro_row _ _ _ Ho _ _ Hn) as [_ Hm].
    exact (sh_wf _ _ Hsh _ _ Hm).
  - apply row_entries_nodup. intros n n' r r' Hn Hn' Ek.
    destruct (ro_row _ _ _ Ho _ _ Hn) as [E1 _], (ro_row _ _ _ Ho _ _ Hn') as [E2 _].
    rewrite Ek, E2 in E1. injection E1. lia.
  - rewrite E. cbn [mbind outcome_bind fst snd]. eexists. split; [done|].
    rewrite (row_entries_fold _ _ _ Ho) in Ho'. rewrite zlen_nil in Hlen. split.
    + eapply tbl_put_at; [done|apply puts_put|by eapply stands_of| |done|intros; by apply marked_same|apply (tb_total _ _ _ Ht)].
      destruct Hsh. split; try done. by exists gi'.
    + eapply room_put; [done|apply puts_put|done| |lia]. cbn [s_rows]. lia.
Qed.

(** ** Counts *)
Lemma sum_parts (f : gmap UUID Row -> Z) mk g n :
  f ∅ = 0 -> (forall m1 m2, m1 ##ₘ m2 -> f (m1 ∪ m2) = f m1 + f m2) ->
  (forall k, is_Some (g !! k) -> (shardIdxOf mk k < n)%nat) ->
  f g = fold_left (fun z i => z + f (part mk g i)) (seq 0 n) 0.
Proof.
  intros H0 Hadd Hlt. enough (E : f (filter (fun kr => (shardIdxOf mk (fst kr) < n)%nat) g) =
    fold_left (fun z i => z + f (part mk g i)) (seq 0 n) 0).
  { rewrite <- E. f_equal. symmetry. apply map_filter_id. intros k r Hk. apply Hlt. by eexists. }
  clear Hlt. induction n as [|n IH].
  - cbn. rewrite <- H0. f_equal. apply map_eq. intros k. rewrite lookup_empty.
    apply map_lookup_filter_None_2. right. intros x _. cbn. lia.
  - rewrite seq_S, fold_left_app. cbn [fold_left Nat.add]. rewrite <- IH, <- Hadd.
    + f_equal. apply map_eq. intros k. apply option_eq. intros r.
      rewrite lookup_union_Some_raw, !map_lookup_filter_Some. unfold part.
      rewrite map_lookup_filter_Some, map_lookup_filter_None. cbn. split.
      * intros [Hk Hle]. destruct (decide (shardIdxOf mk k = n)); [right|left; split; [done|lia]].
        split; [|done]. right. intros x _. lia.
      * intros [[Hk Hl]|[_ [Hk Hl]]]; (split; [done|lia]).
    + apply map_disjoint_spec. intros k x y [_ Hx]%map_lookup_filter_Some [_ Hy]%map_lookup_filter_Some.
      cbn in *. lia.
Qed.

(** ** The state, counted *)
Lemma map_cost_union m1 m2 : m1 ##ₘ m2 -> map_cost (m1 ∪ m2) = map_cost m1 + map_cost m2.
Proof.
  induction m1 as [|k r m1 Hk IH] using map_ind; intros Hd.
  - rewrite map_empty_union. unfold map_cost at 2. rewrite map_fold_empty. lia.
  - apply map_disjoint_insert_l in Hd as [Hk2 Hd]. rewrite <- insert_union_l, !map_cost_insert, IH; try done; [lia|].
    by apply lookup_union_None.
Qed.
Lemma fold_left_shards (f : tableShard -> Z) (h : nat -> Z) (l : list tableShard) (z : Z) n :
  (forall i s, l !! i = Some s -> f s = h (n + i)%nat) ->
  fold_left (fun z s => z + f s) l z = fold_left (fun z i => z + h i) (seq n (length l)) z.
Proof.
  revert z n. induction l as [|s l IH]; intros z n Hf; [done|]. cbn [fold_left length seq].
  rewrite (Hf 0%nat s eq_refl), Nat.add_0_r. apply IH. intros i x Hx.
  rewrite (Hf (S i) x Hx). f_equal. lia.
Qed.
Lemma sum_shards t g (f : gmap UUID Row -> Z) (h : tableShard -> Z) : tbl_ok ext t g ->
  f ∅ = 0 -> (forall m1 m2, m1 ##ₘ m2 -> f (m1 ∪ m2) = f m1 + f m2) ->
  (forall s m, sh_ok s m -> h s = f m) ->
  fold_left (fun z s => z + h s) (t_shards t) 0 = f g.
Proof.
  intros Ht H0 Hadd Hh.
  rewrite (sum_parts f (mask t) g (length (t_shards t)) H0 Hadd).
  - apply (fold_left_shards h (fun i => f (part (mask t) g i)) _ 0 0). intros i s Hs.
    apply Hh. by apply (tb_shards _ _ _ Ht).
  - intros k _. destruct (tb_count _ _ _ Ht) as (p & Hl & Hp). unfold mask, zlen. rewrite Hl.
    by apply shardIdxOf_lt.
Qed.

Lemma liveStats_ok t g : tbl_ok ext t g ->
  fst (fst (liveStats t)) = Z.of_nat (size g) /\ snd (liveStats t) = map_cost g.
Proof.
  intros Ht. unfold liveStats.
  assert (E : forall l a b c, fold_left (fun acc s => let '(r, d, b) := acc in
      (r + s_live s, d + (zlen (s_rows s) - s_live s), b + s_bytes s)) l (a, b, c) =
    (fold_left (fun z s => z + s_live s) l a, fold_left (fun z s => z + (zlen (s_rows s) - s_live s)) l b,
     fold_left (fun z s => z + s_bytes s) l c)).
  { induction l as [|s l IH]; intros; [done|]. cbn [fold_left]. by rewrite IH. }
  rewrite E. cbn [fst snd]. split.
  - apply (sum_shards t g (fun m => Z.of_nat (size m))); [done..| |].
    + intros. rewrite map_size_disj_union by done. lia.
    + intros s m [_ _ Hl _]. done.
  - apply (sum_shards t g map_cost); [done..| |].
    + apply map_cost_union.
    + intros s m [_ _ _ Hb]. done.
Qed.

(** scanAll is one walk over the live cells, stopped where the callback says. *)
Lemma scan_rows_live {A} i (s : tableShard) (fn : A -> Row -> A * bool) a :
  scan_rows (s_rows s) fn a = scan_rows ((fun c => Some (snd c)) <$> live_cells_of i s) fn a.
Proof.
  unfold live_cells_of. generalize (s_rows s). intros rows.
  enough (E : forall off, scan_rows rows fn a = scan_rows ((fun c => Some (snd c)) <$>
    omap (fun jr => match snd jr with Some r => Some (i, fst jr, r) | None => None end)
      (imap (fun j r => ((off + j)%nat, r)) rows)) fn a) by apply (E 0%nat).
  revert a. induction rows as [|x rows IH]; intros a off; [done|].
  assert (Ei : imap (fun j (r : option Row) => ((S off + j)%nat, r)) rows =
               imap ((fun j r => ((off + j)%nat, r)) ∘ S) rows).
  { apply imap_ext. intros j y _. unfold compose. f_equal. lia. }
  cbn [imap]. rewrite <- Ei. destruct x as [r|]; cbn [omap list_omap snd scan_rows]; [|apply IH].
  cbn [fmap list_fmap scan_rows snd]. destruct (fn a r) as [a' []]; cbn [negb]; [apply IH|done].
Qed.
Lemma scan_rows_app {A} l k (fn : A -> Row -> A * bool) a :
  scan_rows (l ++ k) fn a =
    let '(a', go) := scan_rows l fn a in if go : bool then scan_rows k fn a' else (a', false).
Proof.
  revert a. induction l as [|[r|] l IH]; intros a; [done| |apply IH]. cbn [app scan_rows].
  destruct (fn a r) as [a' []]; cbn [negb]; [apply IH|done].
Qed.
Lemma scanAll_live {A} t (fn : A -> Row -> A * bool) a :
  scanAll t fn a = fst (scan_rows ((fun c => Some (snd c)) <$> live_cells t) fn a).
Proof.
  unfold scanAll, live_cells. generalize (t_shards t). intros l.
  enough (E : forall off, scan_shards l fn a = fst (scan_rows ((fun c => Some (snd c)) <$>
    concat (imap (fun i s => live_cells_of (off + i) s) l)) fn a)) by apply (E 0%nat).
  revert a. induction l as [|s l IH]; intros a off; [done|].
  assert (Ei : imap (fun i s => live_cells_of (S off + i) s) l =
               imap ((fun i s => live_cells_of (off + i) s) ∘ S) l).
  { apply imap_ext. intros j y _. unfold compose. f_equal. lia. }
  cbn [imap concat scan_shards]. rewrite <- Ei, fmap_app, scan_rows_app, (scan_rows_live (off + 0) s).
  destruct (scan_rows _ fn a) as [a' []]; cbn [negb]; [apply IH|done].
Qed.

Lemma shardCount_pow ncpu : exists p, shardCount ncpu = Z.of_nat (2 ^ p) /\ (6 <= p <= 10)%nat.
Proof.
  unfold shardCount. set (a := if ncpu * 4 <? 64 then 64 else ncpu * 4).
  set (b := if a >? 1024 then 1024 else a).
  assert (Hb : 64 <= b <= 1024).
  { assert (64 <= a) by (subst a; destruct (Z.ltb_spec (ncpu * 4) 64); lia).
    subst b. rewrite Z.gtb_ltb. destruct (Z.ltb_spec 1024 a); lia. }
  exists (Z.to_nat (bitsLen (b - 1))). unfold bitsLen. rewrite (proj2 (Z.eqb_neq _ _)) by lia.
  assert (5 <= Z.log2 (b - 1) < 10).
  { split; [apply (Z.log2_le_mono 63 (b - 1)); lia|]. apply Z.log2_lt_pow2; lia. }
  split; [|lia]. rewrite Z.shiftl_1_l, Nat2Z.inj_pow. f_equal. lia.
Qed.

Lemma newTable_ok ncpu sizeHint total m : 0 <= sizeHint < 2 ^ 50 -> Z.of_nat m <= 2 ^ 56 ->
  (max <> 0 -> total = ext) ->
  (forall tk, tr = Some tk -> Z.of_nat (tk_shards tk) = shardCount ncpu /\
    (forall i, tk_low tk i = (0%nat, 0%nat)) /\
    forall k, tk_seen tk k = None /\ tk_base tk k = (0%nat, 0%nat)) ->
  exists t, newTable ncpu sizeHint total = Ok t /\ tbl_ok ext t ∅ /\ room m t.
Proof.
  intros Hh Hmr Htot Hnew. unfold newTable. destruct (shardCount_pow ncpu) as (p & Esc & Hp). rewrite Esc in *.
  set (per := if _ <? 16 then 16 else _).
  assert (Hper : 16 <= per <= 2 ^ 50).
  { subst per. assert (sizeHint / Z.of_nat (2 ^ p) <= 2 ^ 50).
    { apply Z.div_le_upper_bound; [pose proof (Nat.pow_nonzero 2 p); lia|].
      pose proof (Nat.pow_nonzero 2 p). nia. }
    destruct (Z.ltb_spec (sizeHint / Z.of_nat (2 ^ p)) 16); lia. }
  destruct (pk_init_ok pkHashSeed per) as (pk & E & Hpk & _); [lia|].
  rewrite (lift_Some _ _ E). cbn [mbind outcome_bind]. rewrite Nat2Z.id. eexists. split; [done|].
  split; [split|].
  - exists p. cbn. rewrite length_replicate. split; [done|lia].
  - cbn [t_shards]. intros i s [-> _]%lookup_replicate.
    replace (part _ ∅ i) with (∅ : gmap UUID Row) by (unfold part; by rewrite map_filter_empty).
    split; try done. exists ∅. split; [done|]. split; done.
  - intros Hm. cbn. rewrite (Htot Hm). unfold map_cost. rewrite map_fold_empty. lia.
  - cbn [t_shards t_readDirty t_delDirty]. generalize (2 ^ p)%nat. intros n.
    induction n as [|n IH]; [done|]. exact IH.
  - intros tk Etr. cbn. rewrite length_replicate. pose proof (proj1 (Hnew tk Etr)). lia.
  - intros tk i s Etr _. rewrite (proj1 (proj2 (Hnew tk Etr))). cbn. lia.
  - cbn [t_shards]. intros tk k s Etr [-> _]%lookup_replicate. destruct (proj2 (proj2 (Hnew tk Etr)) k) as [E1 E2].
    unfold tracked. rewrite E2, lookup_empty. cbn. split; [lia|]. split; [lia|]. by left.
  - unfold room. cbn [t_shards]. apply Forall_replicate. cbn. change (zlen []) with 0. lia.
Qed.
End ops.
End store_ok.
