(* ===== verification/StoreSim.v ===== *)
(** * StoreSim: the table as a refinement of a map from primary key to row.

    [spec_step] says what each operation promises on the abstract map: what it
    answers, what it leaves, and what it hands to the journal. The theorem at the
    end shows that every history of operations on the sharded arena is a history
    of the map. *)
From S2P Require Import Prelude Bytes Uuid Value PkMap Codec Frame Journal Schema Store StoreOk.

Inductive tbl_op : Type :=
  | OGet (k : UUID)
  | OScan
  | OStats
  | OInsert (row : Row) (j : mutJournal)
  | OUpdate (k : UUID) (ords : list nat) (compute : Row -> outcome (list Value)) (j : mutJournal)
  | OUpdateOne (k : UUID) (ord : nat) (compute : Row -> outcome Value) (j : mutJournal)
  | ODelete (k : UUID) (j : mutJournal)
  | OUpdateWhere (pks : option (list UUID)) (match_ : Row -> bool) (ords : list nat)
      (compute : Row -> outcome (list Value)) (encode : Row -> outcome bytes)
  | ODeleteWhere (pks : option (list UUID)) (match_ : Row -> bool) (encode : Value -> bytes)
  | OCompact (i : nat).

Inductive answer : Type :=
  | ARow (r : option Row)
  | ARows (rs : list Row)
  | AStats (rows bytes : Z)
  | ADone (n : Z) (e : option error).

Lemma encode_sets_total buf ords row : Forall (fun o => (o < length row)%nat) ords ->
  exists b, encode_sets buf ords row = Ok b.
Proof.
  intros Ho. revert buf. induction Ho as [|o ords Hlt Ho IH]; intros buf; [by eexists|].
  cbn [encode_sets]. destruct (index_lt row o Hlt) as (v & -> & _). cbn [mbind outcome_bind]. apply IH.
Qed.
Lemma encode_pending_Forall2 encode ps bodies : encode_pending encode ps = Ok bodies ->
  Forall2 (fun p b => encode (snd p) = Ok b) ps bodies.
Proof.
  revert bodies. induction ps as [|[[i j] r] ps IH]; intros bodies E; cbn [encode_pending] in E.
  - injection E as <-. constructor.
  - inv_bind. constructor; [done|]. by apply IH.
Qed.
Lemma encode_pending_total encode ps : Forall (fun p => exists b, encode (snd p) = Ok b) ps ->
  exists bodies, encode_pending encode ps = Ok bodies.
Proof.
  induction 1 as [|[[i j] r] ps [b Hb] Hps [bs IH]]; [by eexists|]. cbn [encode_pending snd] in *.
  rewrite Hb. cbn [mbind outcome_bind]. rewrite IH. by eexists.
Qed.

Section sim.
Context (pkHashSeed : Z) {J : Type} `{Journal J} (def : resolvedTable) (max : Z) (tr : option (track def)) (ext : Z).

Definition b2n (b : bool) : Z := if b then 1 else 0.

(** One operation on the arena. [pks = None] is the full walk, [Some pks] the
    walk over index candidates. *)
Definition run_op (t : tbl_state) (w : option J) (op : tbl_op) : outcome (tbl_state * option J * answer) :=
  match op with
  | OGet k => r ← getByPK pkHashSeed t k; Ok (t, w, ARow r)
  | OScan => Ok (t, w, ARows (scanAll t (fun acc r => (acc ++ [r], true)) []))
  | OStats => let '(rows, _, bytes) := liveStats t in Ok (t, w, AStats rows bytes)
  | OInsert row j =>
      x ← insertJournaled pkHashSeed def max t w row j;
      let '(t, w, e) := x in Ok (t, w, ADone (b2n (bool_decide (e = None))) e)
  | OUpdate k ords compute j =>
      x ← updateByPKJournaled pkHashSeed def max t w k ords compute j;
      let '(t, w, (ok, e)) := x in Ok (t, w, ADone (b2n ok) e)
  | OUpdateOne k ord compute j =>
      x ← updateByPKOneJournaled pkHashSeed def max t w k ord compute j;
      let '(t, w, (ok, e)) := x in Ok (t, w, ADone (b2n ok) e)
  | ODelete k j =>
      x ← deleteByPKJournaled pkHashSeed def max t w k j;
      let '(t, w, (ok, e)) := x in Ok (t, w, ADone (b2n ok) e)
  | OUpdateWhere pks match_ ords compute encode =>
      x ← match pks with
          | None => updateWhereAll def max t w match_ ords compute encode
          | Some pks => updateByCandidates pkHashSeed def max t w pks match_ ords compute encode
          end;
      let '(t, w, (n, e)) := x in Ok (t, w, ADone n e)
  | ODeleteWhere pks match_ encode =>
      x ← match pks with
          | None => deleteWhereAll pkHashSeed def max t w match_ encode
          | Some pks => deleteByCandidates pkHashSeed def max t w pks match_ encode
          end;
      let '(t, w, (n, e)) := x in Ok (t, w, ADone n e)
  | OCompact i =>
      (* the sweeper ranges over the table's shards *)
      if (i <? length (t_shards t))%nat
      then t ← compactShardIfDense pkHashSeed def t i; Ok (t, w, ADone 0 None)
      else Ok (t, w, ADone 0 None)
  end.

Fixpoint run_ops (t : tbl_state) (w : option J) (ops : list tbl_op)
  : outcome (tbl_state * option J * list answer) :=
  match ops with
  | [] => Ok (t, w, [])
  | op :: ops =>
      x ← run_op t w op; let '(t, w, a) := x in
      y ← run_ops t w ops; let '(t, w, l) := y in Ok (t, w, a :: l)
  end.

(** ** The promise *)
Local Abbreviation pkof := (pkof def).
Local Abbreviation cost_of := (cost_of def).
Local Abbreviation map_cost := (map_cost def).

Definition visited (pks : option (list UUID)) (k : UUID) : Prop :=
  match pks with None => True | Some pks => k ∈ pks end.
(** [l] lists, once each, the rows a multi-row statement affects. *)
Definition affected (g : gmap UUID Row) (pks : option (list UUID)) (match_ : Row -> bool)
    (l : list (UUID * Row)) : Prop :=
  NoDup l.*1 /\ forall k r, (k, r) ∈ l <-> g !! k = Some r /\ match_ r = true /\ visited pks k.

Inductive spec_step (g : gmap UUID Row) (w : option J)
  : tbl_op -> gmap UUID Row -> option J -> answer -> Prop :=
  | sp_get k : spec_step g w (OGet k) g w (ARow (g !! k))
  | sp_scan rs : rs ≡ₚ (map_to_list g).*2 -> spec_step g w OScan g w (ARows rs)
  | sp_stats : spec_step g w OStats g w (AStats (Z.of_nat (size g)) (map_cost g))
  | sp_insert_dup row j r : g !! pkof row = Some r ->
      spec_step g w (OInsert row j) g w (ADone 0 (Some ErrDuplicatePK))
  | sp_insert_full row j : g !! pkof row = None -> max <> 0 -> max < ext + map_cost g + cost_of row ->
      spec_step g w (OInsert row j) g w (ADone 0 (Some ErrCapacity))
  | sp_insert row j w' : g !! pkof row = None ->
      (max <> 0 -> ext + map_cost (<[pkof row := row]> g) <= max) ->
      mj_insert j w row = (w', None) ->
      spec_step g w (OInsert row j) (<[pkof row := row]> g) w' (ADone 1 None)
  | sp_insert_err row j w' e : g !! pkof row = None -> mj_insert j w row = (w', Some e) ->
      spec_step g w (OInsert row j) g w' (ADone 0 (Some e))
  | sp_update_none k ords compute j : g !! k = None ->
      spec_step g w (OUpdate k ords compute j) g w (ADone 0 None)
  | sp_update_err k ords compute j r e : g !! k = Some r -> compute r = Err e ->
      spec_step g w (OUpdate k ords compute j) g w (ADone 0 (Some e))
  | sp_update k ords compute j r vals w' e : g !! k = Some r -> compute r = Ok vals ->
      mj_update j w (assign r ords vals) = Ok (w', e) ->
      spec_step g w (OUpdate k ords compute j)
        (match e with None => <[k := assign r ords vals]> g | Some _ => g end) w'
        (ADone (b2n (bool_decide (e = None))) e)
  | sp_update1_none k ord compute j : g !! k = None ->
      spec_step g w (OUpdateOne k ord compute j) g w (ADone 0 None)
  | sp_update1_err k ord compute j r e : g !! k = Some r -> compute r = Err e ->
      spec_step g w (OUpdateOne k ord compute j) g w (ADone 0 (Some e))
  | sp_update1 k ord compute j r v w' e : g !! k = Some r -> compute r = Ok v ->
      mj_update j w (<[ord := v]> r) = Ok (w', e) ->
      spec_step g w (OUpdateOne k ord compute j)
        (match e with None => <[k := <[ord := v]> r]> g | Some _ => g end) w'
        (ADone (b2n (bool_decide (e = None))) e)
  | sp_delete_none k j : g !! k = None -> spec_step g w (ODelete k j) g w (ADone 0 None)
  | sp_delete k j r w' e : g !! k = Some r -> mj_delete j w = (w', e) ->
      spec_step g w (ODelete k j) (match e with None => delete k g | Some _ => g end) w'
        (ADone (b2n (bool_decide (e = None))) e)
  | sp_updatew_err pks match_ ords compute encode k r e :
      g !! k = Some r -> match_ r = true -> visited pks k -> compute r = Err e ->
      spec_step g w (OUpdateWhere pks match_ ords compute encode) g w (ADone 0 (Some e))
  | sp_updatew_jerr pks match_ ords compute encode l bodies w' e :
      affected g pks match_ l ->
      (forall k r, (k, r) ∈ l -> exists vals, compute r = Ok vals) ->
      Forall2 (fun kr b => encode (new_row ords compute (snd kr)) = Ok b) l bodies ->
      journal_bodies w bodies = (w', Some e) ->
      spec_step g w (OUpdateWhere pks match_ ords compute encode) g w' (ADone 0 (Some e))
  | sp_updatew pks match_ ords compute encode l bodies w' g' :
      affected g pks match_ l ->
      (forall k r, (k, r) ∈ l -> exists vals, compute r = Ok vals) ->
      Forall2 (fun kr b => encode (new_row ords compute (snd kr)) = Ok b) l bodies ->
      journal_bodies w bodies = (w', None) ->
      (forall k, g' !! k = match g !! k with
                           | Some r => Some (if decide ((k, r) ∈ l) then new_row ords compute r else r)
                           | None => None
                           end) ->
      spec_step g w (OUpdateWhere pks match_ ords compute encode) g' w' (ADone (zlen l) None)
  | sp_deletew_jerr pks match_ encode l w' e :
      affected g pks match_ l ->
      journal_bodies w (map (fun kr => encode (pk_cell def (snd kr))) l) = (w', Some e) ->
      spec_step g w (ODeleteWhere pks match_ encode) g w' (ADone 0 (Some e))
  | sp_deletew pks match_ encode l w' g' :
      affected g pks match_ l ->
      journal_bodies w (map (fun kr => encode (pk_cell def (snd kr))) l) = (w', None) ->
      (forall k, g' !! k = match g !! k with
                           | Some r => if decide ((k, r) ∈ l) then None else Some r
                           | None => None
                           end) ->
      spec_step g w (ODeleteWhere pks match_ encode) g' w' (ADone (zlen l) None)
  | sp_compact i : spec_step g w (OCompact i) g w (ADone 0 None).

Inductive spec_steps : gmap UUID Row -> option J -> list tbl_op -> gmap UUID Row -> option J -> list answer -> Prop :=
  | sps_nil g w : spec_steps g w [] g w []
  | sps_cons g w op g1 w1 a ops g2 w2 l : spec_step g w op g1 w1 a -> spec_steps g1 w1 ops g2 w2 l ->
      spec_steps g w (op :: ops) g2 w2 (a :: l).

(** What callers guarantee: validated rows, SET lists that avoid the primary key
    and name no column twice, callbacks that do not panic on such rows, candidate
    keys listed once. *)
Local Abbreviation row_wf := (row_wf def).
Local Abbreviation args_wf := (args_wf def).
Definition ncols : nat := length (t_Columns (rt_def def)).
Definition mj_wf (j : mutJournal) : Prop :=
  (mj_pkOrd j < ncols)%nat /\ Forall (fun o => (o < ncols)%nat) (mj_ords j).
Definition pks_wf (pks : option (list UUID)) : Prop :=
  match pks with None => True | Some pks => NoDup pks end.
Definition op_wf (op : tbl_op) : Prop :=
  match op with
  | OGet _ | OScan | OStats | ODelete _ _ | OCompact _ => True
  | OInsert row _ => row_wf row
  | OUpdate k ords compute j =>
      NoDup ords /\ mj_wf j /\ (forall r, row_wf r -> compute r <> Panic) /\
      forall r vals, row_wf r -> compute r = Ok vals -> args_wf ords vals
  | OUpdateOne k ord compute j =>
      mj_wf j /\ (forall r, row_wf r -> compute r <> Panic) /\
      forall r v, row_wf r -> compute r = Ok v -> args_wf [ord] [v]
  | OUpdateWhere pks match_ ords compute encode =>
      pks_wf pks /\ (forall r, row_wf r -> compute r <> Panic) /\
      (forall r vals, row_wf r -> compute r = Ok vals -> args_wf ords vals) /\
      forall r, row_wf r -> exists b, encode r = Ok b
  | ODeleteWhere pks match_ encode => pks_wf pks
  end.

(** ** The simulation *)
Hypothesis pk_in : (pkOrd def < ncols)%nat.
Local Abbreviation tbl_ok := (tbl_ok pkHashSeed def max tr ext).

Lemma mj_update_total j w nr : mj_wf j -> row_wf nr -> exists w' e, mj_update j w nr = Ok (w', e).
Proof.
  intros [Hp Ho] [Hl _]. unfold mj_update. destruct w as [w|]; [|by eexists _, _].
  destruct (index_lt nr (mj_pkOrd j)) as (pk & -> & _); [by rewrite Hl|]. cbn [mbind outcome_bind].
  unfold encodeUpdateMutation.
  destruct (encode_sets_total (appendU16LE (encodeCell (appendU16LE ([] ++ [z2b opUpdate]) (mj_tableID j)) pk)
    (u16 (zlen (mj_ords j)))) (mj_ords j) nr) as (b & ->).
  { eapply Forall_impl; [|exact Ho]. cbv beta. intros o Hlt. by rewrite Hl. }
  cbn [mbind outcome_bind]. destruct (jwrite_opt _ _ _) as [w' e]. by eexists _, _.
Qed.

Lemma sim_insert t g w row j n : tbl_ok t g -> room (S n) t -> row_wf row ->
  exists t' g' w' a, run_op t w (OInsert row j) = Ok (t', w', a) /\
    spec_step g w (OInsert row j) g' w' a /\ tbl_ok t' g' /\ room n t'.
Proof.
  intros Ht Hroom Hrow. cbn [run_op]. unfold insertJournaled.
  destruct (insert_ok pkHashSeed def max tr ext pk_in true t w row (fun w => mj_insert j w row) g n Ht Hroom Hrow (or_intror eq_refl))
    as (t' & E & Ht' & Hr'). rewrite E. cbn [mbind outcome_bind]. unfold insert_result in *.
  destruct (g !! pkof row) as [r|] eqn:Hk.
  { eexists _, _, _, _. split; [done|]. split; [by eapply sp_insert_dup|by split]. }
  destruct (negb (max =? 0) && (t_total t + cost_of row >? max)) eqn:Ec.
  - apply andb_prop in Ec as [Hm%negb_true_iff%Z.eqb_neq Hc]. rewrite Z.gtb_ltb in Hc. apply Z.ltb_lt in Hc.
    rewrite (tb_total _ _ _ _ _ _ _ Ht Hm) in Hc. eexists _, _, _, _. split; [done|].
    split; [by apply sp_insert_full|by split].
  - destruct (mj_insert j w row) as [w' [e|]] eqn:Ej; cbn [fst snd] in *; eexists _, _, _, _;
      (split; [done|]); (split; [|by split]); [by apply sp_insert_err|].
    apply sp_insert; [done| |done]. intros Hm. rewrite map_cost_insert by done.
    rewrite (proj2 (Z.eqb_neq _ _) Hm) in Ec. cbn [negb andb] in Ec. rewrite Z.gtb_ltb in Ec.
    apply Z.ltb_ge in Ec. rewrite (tb_total _ _ _ _ _ _ _ Ht Hm) in Ec. lia.
Qed.

Lemma sim_update t g w k ords compute j n : tbl_ok t g -> room n t -> op_wf (OUpdate k ords compute j) ->
  exists t' g' w' a, run_op t w (OUpdate k ords compute j) = Ok (t', w', a) /\
    spec_step g w (OUpdate k ords compute j) g' w' a /\ tbl_ok t' g' /\ room n t'.
Proof.
  intros Ht Hroom (Hnd & Hj & Hnp & Hc). cbn [run_op].
  pose proof (update_ok pkHashSeed def max tr ext pk_in t w g k ords compute j n Ht Hroom) as U. cbv zeta in U.
  destruct (g !! k) as [r|] eqn:Hk.
  2: { rewrite U. eexists _, _, _, _. split; [done|]. split; [by apply sp_update_none|by split]. }
  assert (Hr : row_wf r).
  { destruct (lookup_row pkHashSeed def max tr ext t g k Ht) as (s & _ & G). rewrite Hk in G.
    by destruct G as (? & _ & _ & _ & ?). }
  destruct (compute r) as [vals|e|] eqn:Ec.
  - destruct (mj_update_total j w (assign r ords vals) Hj) as (w' & e & Ej); [apply assign_wf; eauto|].
    destruct (U w' e) as (t' & E & Hr' & Ht'); eauto. rewrite E. cbn [mbind outcome_bind].
    eexists _, _, _, _. split; [done|]. split; [by eapply sp_update|by split].
  - rewrite U. eexists _, _, _, _. split; [done|]. split; [by eapply sp_update_err|by split].
  - by destruct (Hnp r Hr).
Qed.

Lemma sim_update1 t g w k ord compute j n : tbl_ok t g -> room n t -> op_wf (OUpdateOne k ord compute j) ->
  exists t' g' w' a, run_op t w (OUpdateOne k ord compute j) = Ok (t', w', a) /\
    spec_step g w (OUpdateOne k ord compute j) g' w' a /\ tbl_ok t' g' /\ room n t'.
Proof.
  intros Ht Hroom (Hj & Hnp & Hc). cbn [run_op].
  pose proof (updateOne_ok pkHashSeed def max tr ext pk_in t w g k ord compute j n Ht Hroom) as U. cbv zeta in U.
  destruct (g !! k) as [r|] eqn:Hk.
  2: { rewrite U. eexists _, _, _, _. split; [done|]. split; [by apply sp_update1_none|by split]. }
  assert (Hr : row_wf r).
  { destruct (lookup_row pkHashSeed def max tr ext t g k Ht) as (s & _ & G). rewrite Hk in G.
    by destruct G as (? & _ & _ & _ & ?). }
  destruct (compute r) as [v|e|] eqn:Ec.
  - destruct (mj_update_total j w (assign r [ord] [v]) Hj) as (w' & e & Ej); [apply assign_wf; eauto|].
    destruct (U w' e) as (t' & E & Hr' & Ht'); eauto. rewrite E. cbn [mbind outcome_bind].
    eexists _, _, _, _. split; [done|]. split; [by eapply sp_update1|by split].
  - rewrite U. eexists _, _, _, _. split; [done|]. split; [by eapply sp_update1_err|by split].
  - by destruct (Hnp r Hr).
Qed.

Lemma sim_delete t g w k j n : tbl_ok t g -> room n t ->
  exists t' g' w' a, run_op t w (ODelete k j) = Ok (t', w', a) /\
    spec_step g w (ODelete k j) g' w' a /\ tbl_ok t' g' /\ room n t'.
Proof.
  intros Ht Hroom. cbn [run_op].
  pose proof (delete_ok pkHashSeed def max tr ext pk_in t w g k j n Ht Hroom) as U. cbv zeta in U.
  destruct (g !! k) as [r|] eqn:Hk.
  2: { rewrite U. eexists _, _, _, _. split; [done|]. split; [by apply sp_delete_none|by split]. }
  destruct (mj_delete j w) as [w' e] eqn:Ej. destruct (U w' e eq_refl) as (t' & E & Hr' & Ht').
  rewrite E. cbn [mbind outcome_bind]. eexists _, _, _, _. split; [done|].
  split; [by eapply sp_delete|by split].
Qed.

(** The affected rows, from the cells the walk visits. *)
Local Abbreviation hits_of cells match_ :=
  ((fun c : nat * nat * Row => (pkof (snd c), snd c)) <$> filter (fun c => Is_true (match_ (snd c))) cells).

Lemma affected_cells t g cells pks (match_ : Row -> bool) : tbl_ok t g -> cells_ok def t g cells ->
  (forall k r, g !! k = Some r -> k ∈ (fun c => pkof (snd c)) <$> cells <-> visited pks k) ->
  affected g pks match_ (hits_of cells match_).
Proof.
  intros Ht Hco Hv. split.
  - rewrite <- list_fmap_compose. apply nodup_filter_keys, Hco.
  - intros k r. rewrite list_elem_of_fmap. split.
    + intros (c & [= -> ->] & Hc). destruct (elem_hit pkHashSeed def max tr ext t g match_ cells c Ht Hco Hc) as (Hg & _ & [Hm Hk]).
      split; [done|]. split; [done|]. by eapply Hv.
    + intros (Hg & Hm & Hk). apply (Hv _ _ Hg) in Hk.
      destruct (hit_elem pkHashSeed def max tr ext t g match_ cells k r Ht Hco Hg (conj Hm Hk)) as (c & Hc & <- & <-).
      by exists c.
Qed.
Lemma hit_affected t g cells pks (match_ : Row -> bool) k r : tbl_ok t g -> cells_ok def t g cells ->
  (forall k r, g !! k = Some r -> k ∈ (fun c => pkof (snd c)) <$> cells <-> visited pks k) ->
  g !! k = Some r -> hit def match_ cells k r <-> (k, r) ∈ hits_of cells match_.
Proof.
  intros Ht Hco Hv Hg. destruct (affected_cells t g cells pks match_ Ht Hco Hv) as [_ Ha].
  rewrite Ha. unfold hit. rewrite (Hv _ _ Hg). tauto.
Qed.

(** Both walks visit cells the multi-row lemmas accept. *)
Lemma walk_cells t g pks : tbl_ok t g -> pks_wf pks ->
  exists cells, match pks with None => Ok (live_cells t) | Some pks => candidate_cells pkHashSeed t pks end = Ok cells /\
    cells_ok def t g cells /\
    (forall k r, g !! k = Some r -> k ∈ (fun c => pkof (snd c)) <$> cells <-> visited pks k).
Proof.
  intros Ht Hp. destruct pks as [pks|].
  - destruct (candidate_cells_ok pkHashSeed def max tr ext t g pks Ht Hp) as (cells & E & Hco & Ek).
    exists cells. split; [done|]. split; [done|]. intros k r Hg. rewrite Ek, list_elem_of_filter. cbn.
    split; [by intros [_ ?]|]. intros ?. split; [by eexists|done].
  - exists (live_cells t). split; [done|]. split; [by eapply live_cells_ok|]. intros k r Hg. split; [done|].
    intros _. pose proof (live_cells_perm pkHashSeed def max tr ext pk_in t g Ht) as P.
    assert (Hin : (k, r) ∈ (fun c => (pkof (snd c), snd c)) <$> live_cells t).
    { rewrite P. by apply elem_of_map_to_list. }
    apply list_elem_of_fmap in Hin as (c & [= -> ->] & Hc). apply list_elem_of_fmap. by exists c.
Qed.

Lemma pend_updates_all (match_ : Row -> bool) ords (compute : Row -> outcome (list Value)) cells ps c :
  pend_updates cells match_ ords compute = Ok ps -> c ∈ cells -> match_ (snd c) = true -> exists vals, compute (snd c) = Ok vals.
Proof.
  revert ps. induction cells as [|[[i j] r] cells IH]; intros ps; cbn [pend_updates]; [by intros _ ?%elem_of_nil|].
  intros E [->|Hin]%elem_of_cons Hm.
  - cbn [snd] in Hm |- *. rewrite Hm in E. cbn [negb] in E. destruct (compute r) as [vals| |]; [by exists vals|done..].
  - destruct (negb (match_ r)); [by eapply IH|]. apply bind_Ok in E as (vals & _ & E). apply bind_Ok in E as (row & _ & E).
    apply bind_Ok in E as (ps' & E & _). by eapply IH.
Qed.
Lemma sim_update_where t g w pks match_ ords compute encode n : tbl_ok t g -> room n t ->
  op_wf (OUpdateWhere pks match_ ords compute encode) ->
  exists t' g' w' a, run_op t w (OUpdateWhere pks match_ ords compute encode) = Ok (t', w', a) /\
    spec_step g w (OUpdateWhere pks match_ ords compute encode) g' w' a /\ tbl_ok t' g' /\ room n t'.
Proof.
  intros Ht Hroom (Hp & Hnp & Hc & He). destruct (walk_cells t g pks Ht Hp) as (cells & Ecells & Hco & Hv).
  cbn [run_op].
  replace (match pks with None => _ | Some _ => _ end) with (update_cells def max t w cells match_ ords compute encode).
  2: { destruct pks; [unfold updateByCandidates; by rewrite Ecells|by injection Ecells as <-]. }
  pose proof (update_cells_ok pkHashSeed def max tr ext pk_in t w g cells match_ ords compute encode n Ht Hroom Hco Hc) as U.
  pose proof (affected_cells t g cells pks match_ Ht Hco Hv) as Ha.
  assert (Hw : forall c, c ∈ filter (fun c => Is_true (match_ (snd c))) cells -> row_wf (new_row ords compute (snd c))).
  { intros c Hin. apply (new_row_ok def ords compute Hc).
    by destruct (elem_hit pkHashSeed def max tr ext t g match_ cells c Ht Hco Hin) as (_ & ? & _). }
  cbv zeta in U. destruct (pend_updates cells match_ ords compute) as [ps|e|] eqn:Eps.
  - destruct U as [Eps' U]. subst ps.
    destruct (encode_pending_total encode (pend_cell ords compute <$> filter (fun c => Is_true (match_ (snd c))) cells)) as (bodies & Eb).
    { apply list.Forall_forall. intros p (c & -> & Hin)%list_elem_of_fmap. apply He. by apply Hw. }
    destruct (journal_bodies w bodies) as [w' e] eqn:Ej. specialize (U bodies w' e Eb Ej).
    apply encode_pending_Forall2 in Eb. rewrite Forall2_fmap_l in Eb.
    assert (Hb : Forall2 (fun kr b => encode (new_row ords compute (snd kr)) = Ok b) (hits_of cells match_) bodies)
      by (by rewrite Forall2_fmap_l).
    assert (Hrun : forall k r, (k, r) ∈ hits_of cells match_ -> exists vals, compute r = Ok vals).
    { intros k r (c & [= -> ->] & [Hm Hin]%list_elem_of_filter)%list_elem_of_fmap. eapply pend_updates_all; [exact Eps|exact Hin|by apply Is_true_true]. }
    destruct e as [e|].
    + rewrite U. eexists _, _, _, _. split; [done|]. split; [by eapply sp_updatew_jerr|by split].
    + destruct U as (t' & g' & -> & Hr' & Ht' & Hdom & Hg'). cbn [mbind outcome_bind].
      exists t', g'. eexists _, _. split; [done|]. split; [|by split].
      replace (zlen (pend_cell ords compute <$> _)) with (zlen (hits_of cells match_))
        by (unfold zlen; by rewrite !length_fmap).
      eapply sp_updatew; [done..|]. intros k. destruct (g !! k) as [r|] eqn:Hk.
      * destruct (Hg' k r Hk) as [H1 H2]. pose proof (hit_affected t g cells pks match_ k r Ht Hco Hv Hk) as Hh.
        case_decide as Hd; [apply H1, Hh, Hd|apply H2]. intros X. by apply Hd, Hh.
      * apply not_elem_of_dom. rewrite Hdom. by apply not_elem_of_dom.
  - destruct U as [-> (k & r & Hk & Hh & Ec)]. eexists _, _, _, _. split; [done|].
    split; [|by split]. destruct Hh as [Hm Hin]. apply (Hv _ _ Hk) in Hin. by eapply sp_updatew_err.
  - destruct U as (k & r & Hk & [Hm Hin] & Ec). apply list_elem_of_fmap in Hin as (c & -> & Hin).
    destruct (co_row pkHashSeed def max tr ext t g cells c Ht Hco Hin) as [Hg Hr].
    rewrite Hk in Hg. injection Hg as ->. by destruct (Hnp _ Hr).
Qed.

Lemma sim_delete_where t g w pks match_ encode n : tbl_ok t g -> room n t -> pks_wf pks ->
  exists t' g' w' a, run_op t w (ODeleteWhere pks match_ encode) = Ok (t', w', a) /\
    spec_step g w (ODeleteWhere pks match_ encode) g' w' a /\ tbl_ok t' g' /\ room n t'.
Proof.
  intros Ht Hroom Hp. destruct (walk_cells t g pks Ht Hp) as (cells & Ecells & Hco & Hv).
  cbn [run_op].
  replace (match pks with None => _ | Some _ => _ end) with (delete_cells pkHashSeed def max t w cells match_ encode).
  2: { destruct pks; [unfold deleteByCandidates; by rewrite Ecells|by injection Ecells as <-]. }
  pose proof (affected_cells t g cells pks match_ Ht Hco Hv) as Ha.
  set (bodies := map encode ((fun c => pk_cell def (snd c)) <$> filter (fun c => Is_true (match_ (snd c))) cells)).
  destruct (journal_bodies w bodies) as [w' e] eqn:Ej.
  pose proof (delete_cells_ok pkHashSeed def max tr ext pk_in t w g cells match_ encode n w' e Ht Hroom Hco Ej) as U.
  assert (Eb : map (fun kr => encode (pk_cell def (snd kr))) (hits_of cells match_) = bodies).
  { unfold bodies. generalize (filter (fun c : nat * nat * Row => Is_true (match_ (snd c))) cells).
    intros l. induction l as [|c l IH]; [done|]. cbn [map fmap list_fmap fst snd]. f_equal. exact IH. }
  rewrite <- Eb in Ej. destruct e as [e|]; cbv zeta in U.
  - rewrite U. eexists _, _, _, _. split; [done|]. split; [by eapply sp_deletew_jerr|by split].
  - destruct U as (t' & g' & -> & Hr' & Ht' & Hg'). cbn [mbind outcome_bind].
    exists t', g'. eexists _, _. split; [done|]. split; [|by split].
    replace (zlen (filter _ cells)) with (zlen (hits_of cells match_)) by (unfold zlen; by rewrite !length_fmap).
    eapply sp_deletew; [done..|]. intros k. rewrite Hg'. destruct (g !! k) as [r|] eqn:Hk; [|done].
    apply decide_ext. exact (hit_affected t g cells pks match_ k r Ht Hco Hv Hk).
Qed.

Lemma sim_scan t g : tbl_ok t g ->
  scanAll t (fun acc r => (acc ++ [r], true)) [] ≡ₚ (map_to_list g).*2.
Proof.
  intros Ht. rewrite (scanAll_live def pk_in).
  assert (E : forall l a, fst (scan_rows (Some <$> l) (fun (acc : list Row) r => (acc ++ [r], true)) a) = a ++ l).
  { induction l as [|r l IH]; intros a; cbn [fmap list_fmap scan_rows negb]; [by rewrite app_nil_r|].
    rewrite IH, <- app_assoc. done. }
  change (fun c : nat * nat * Row => Some (snd c)) with (Some ∘ @snd (nat * nat) Row).
  rewrite (list_fmap_compose snd Some (live_cells t)), E.
  rewrite <- (live_cells_perm pkHashSeed def max tr ext pk_in t g Ht), <- list_fmap_compose. done.
Qed.

Lemma sim_step t g w op n : tbl_ok t g -> room (S n) t -> op_wf op ->
  exists t' g' w' a, run_op t w op = Ok (t', w', a) /\ spec_step g w op g' w' a /\ tbl_ok t' g' /\ room n t'.
Proof.
  intros Ht Hroom Hop. assert (Hr : room n t) by (eapply Forall_impl; [|exact Hroom]; cbv beta; lia).
  destruct op as [k| | |row j|k ords compute j|k ord compute j|k j|pks match_ ords compute encode|pks match_ encode|i].
  - cbn [run_op]. rewrite (getByPK_ok pkHashSeed def max tr ext t g k Ht).
    eexists _, _, _, _. split; [done|]. split; [constructor|by split].
  - eexists _, _, _, _. split; [done|]. split; [|by split]. constructor. by apply sim_scan.
  - cbn [run_op]. destruct (liveStats_ok pkHashSeed def max tr ext pk_in t g Ht) as [E1 E2].
    destruct (liveStats t) as [[rows d] b]. cbn [fst snd] in *. subst.
    eexists _, _, _, _. split; [done|]. split; [constructor|by split].
  - by apply sim_insert.
  - by apply sim_update.
  - by apply sim_update1.
  - by apply sim_delete.
  - by apply sim_update_where.
  - by apply sim_delete_where.
  - cbn [run_op]. destruct (Nat.ltb_spec i (length (t_shards t))) as [Hi|Hi].
    2: { eexists _, _, _, _. split; [done|]. split; [constructor|by split]. }
    destruct (lookup_lt_is_Some_2 (t_shards t) i Hi) as [s Hs].
    destruct (compact_ok pkHashSeed def max tr ext pk_in t g i s n Ht Hr Hs) as (t' & -> & Ht' & Hr').
    eexists _, _, _, _. split; [done|]. split; [constructor|by split].
Qed.

(** C13: every history of operations on the sharded arena is a history of the map.
    Starting from a table that holds [g], with room for the inserts to come, a
    sequence of reads, scans, statistics, journaled inserts, updates, deletes,
    multi-row statements and compactions runs without a panic, and its answers,
    the journal and the final contents are those [spec_step] allows one by one:
    lookups and scans see exactly the rows of the map; a duplicate key, a full
    budget, a failing SET expression or a failing journal leaves the contents as
    they were; a multi-row statement journals the new rows of all the matching
    rows in one call and applies all of them or none; compaction is invisible;
    the byte tally is the exact cost of the rows. *)
Theorem table_refines_map t g w ops :
  tbl_ok t g -> room (length ops) t -> Forall op_wf ops ->
  exists t' g' w' l, run_ops t w ops = Ok (t', w', l) /\ spec_steps g w ops g' w' l /\ tbl_ok t' g'.
Proof.
  intros Ht Hroom Hops. revert t g w Ht Hroom.
  induction Hops as [|op ops Hop Hops IH]; intros t g w Ht Hroom.
  - eexists _, _, _, _. split; [done|]. by split; [constructor|].
  - destruct (sim_step t g w op (length ops) Ht Hroom Hop) as (t1 & g1 & w1 & a & E & Hs & Ht1 & Hr1).
    destruct (IH t1 g1 w1 Ht1 Hr1) as (t2 & g2 & w2 & l & E2 & Hss & Ht2). cbn [run_ops]. rewrite E.
    cbn [mbind outcome_bind]. rewrite E2. cbn [mbind outcome_bind].
    eexists _, _, _, _. split; [done|]. split; [by econstructor|done].
Qed.

Definition bytes_of (t : tbl_state) : Z := snd (liveStats t).
Lemma bytes_of_fold t : bytes_of t = fold_left (fun z s => z + s_bytes s) (t_shards t) 0.
Proof.
  unfold bytes_of, liveStats.
  assert (E : forall l a b c, snd (fold_left (fun acc s => let '(r, d, b) := acc in
      (r + s_live s, d + (zlen (s_rows s) - s_live s), b + s_bytes s)) l (a, b, c)) =
    fold_left (fun z s => z + s_bytes s) l c); [|apply E].
  induction l as [|s l IH]; intros; [done|]. cbn [fold_left]. by rewrite IH.
Qed.

(** Naming a column twice in SET breaks the byte accounting. The planner does
    not reject [SET c = v1, c = v2]; the journaled lane sums the cell deltas
    against the value before the statement for both assignments, so the tally
    (and, with a cap, the budget) is off by the first assignment's delta for the
    rest of the process's life. The memory-only lane, which sums as it assigns,
    is exact. *)
Theorem update_tally_drift t g w k o v1 v2 j r old w' :
  tbl_ok t g -> g !! k = Some r -> r !! o = Some old -> o <> pkOrd def -> value_ok v1 -> value_ok v2 ->
  mj_update j (Some w) (<[o := v2]> r) = Ok (w', None) ->
  let run w := updateByPKJournaled pkHashSeed def max t w k [o; o] (fun _ => Ok [v1; v2]) j in
  exists t' t'', run (Some w) = Ok (t', w', (true, None)) /\ run None = Ok (t'', None, (true, None)) /\
    bytes_of t'' = map_cost (<[k := <[o := v2]> r]> g) /\
    bytes_of t' = map_cost (<[k := <[o := v2]> r]> g) + cellDelta old v1.
Proof.
  intros Ht Hk Ho Hpk Hv1 Hv2 Hj. cbv zeta.
  assert (Hr : row_wf r /\ exists s n, t_shards t !! idx t k = Some s /\ s_rows s !! n = Some (Some r) /\
    pk_get pkHashSeed (s_pk s) k = Some (Z.of_nat n, true)).
  { destruct (lookup_row pkHashSeed def max tr ext t g k Ht) as (s & Hs & G). rewrite Hk in G.
    destruct G as (n & ? & ? & _ & ?). split; [done|]. by exists s, n. }
  destruct Hr as [Hr (s & n & Hs & Hn & Hget)].
  assert (Hargs : args_wf [o; o] [v1; v2]).
  { assert ((o < ncols)%nat) by (unfold ncols; rewrite <- (proj1 Hr); by eapply lookup_lt_Some).
    split; [done|]. split; repeat constructor; done. }
  assert (Hnew : assign r [o; o] [v1; v2] = <[o := v2]> r) by (cbn [assign]; by rewrite list_insert_insert_eq).
  pose proof (map_cost_replace def g k r (<[o := v2]> r) Hk) as Hcost.
  rewrite (StoreOk.cost_set def _ _ _ v2 Ho) in Hcost.
  assert (E0 : bytes_of t = map_cost g) by apply (liveStats_ok pkHashSeed def max tr ext pk_in t g Ht).
  unfold updateByPKJournaled. rewrite (index_Some _ _ _ Hs). cbn [mbind outcome_bind].
  rewrite (lift_Some _ _ Hget). cbn [mbind outcome_bind negb]. unfold live_row. rewrite Nat2Z.id.
  rewrite (index_Some _ _ _ Hn). cbn [mbind outcome_bind lift]. unfold set_row_journaled.
  rewrite (set_cells_assign def r _ _ (proj1 Hr) Hargs), (set_cells_delta_assign def r _ _ 0 (proj1 Hr) Hargs).
  cbn [get_cells mbind outcome_bind]. rewrite (index_Some _ _ _ Ho). cbn [mbind outcome_bind].
  rewrite Hnew, Hj. cbn [mbind outcome_bind]. rewrite (StoreOk.cost_set def _ _ _ v2 Ho).
  unfold addBytesLocked. rewrite Nat2Z.id.
  eexists _, _. split; [done|]. split; [done|]. rewrite !bytes_of_fold in *.
  split; [|unfold sum_deltas; cbn [take length zip zip_with fold_left fst snd]];
    destruct (updateTouchesIndex def [o; o]); unfold markDirtyLocked;
    try destruct (0 <? nIndexes def); cbn [t_shards set_total put_shard];
    rewrite (fold_queue s_bytes _ _ s) by done; cbn [s_bytes add_bytes set_row]; lia.
Qed.
End sim.

(** ** A run of the users table *)
Definition t0 : tbl_state :=
  match newTable 1 0 0 with Ok t => t | _ => MkTbl [] 0 0 0 end.
Definition ada_id : UUID := uuid_of (replicate 16 (z2b 1)).
Definition ada (age : Z) (name : bytes) : Row := [UUIDVal ada_id; Int age; Str name].
Definition users_mj : mutJournal := MkMJ 0 [1%nat] 0 (UUIDVal ada_id).
Definition users_ops : list tbl_op :=
  [OInsert (ada 36 (lit "ada")) users_mj;
   OInsert (ada 37 (lit "twin")) users_mj;
   OUpdate ada_id [1%nat] (fun _ => Ok [Int 40]) users_mj;
   OUpdateWhere None (fun r => bool_decide (length r = 3%nat)) [2%nat] (fun _ => Ok [Str (lit "bea")])
     (fun r => Ok (encodeRow [] r));
   OStats;
   OGet ada_id;
   ODeleteWhere None (fun r => bool_decide (length r = 3%nat)) (fun _ => []);
   OScan;
   OCompact 0].

Lemma ada_wf age name : in_s64 age -> zlen name < 2 ^ 63 -> row_wf users_rt (ada age name).
Proof.
  intros. split; [done|]. unfold ada. apply Forall_cons_2; [apply ok_uuid|].
  apply Forall_cons_2; [by apply ok_int|]. apply Forall_cons_2; [by apply ok_str|]. constructor.
Qed.
Lemma t0_ok : tbl_ok 0 users_rt 1000 None 0 t0 ∅ /\ room 9 t0.
Proof.
  destruct (newTable_ok 0 users_rt 1000 None 0 ltac:(vm_compute; lia) 1 0 0 9) as (t & E & H1 & H2); try done; try lia.
  unfold t0. by rewrite E.
Qed.

(** The answers of the run, and the number of records it journals. *)
Example users_run :
  (match run_ops 0 users_rt 1000 t0 (Some ([] : list (Z * bytes))) users_ops with
   | Ok (_, Some w, l) => (length w, l)
   | _ => (0%nat, [])
   end) =
  (4%nat, [ADone 1 None; ADone 0 (Some ErrDuplicatePK); ADone 1 None; ADone 1 None;
    AStats 1 (32 * 3 + 3 + 64 + 2 * 48); ARow (Some (ada 40 (lit "bea"))); ADone 1 None; ARows []; ADone 0 None]).
Proof. vm_compute. reflexivity. Qed.

Lemma table_refines_map_witness :
  exists t' g' w' l, run_ops 0 users_rt 1000 t0 (Some ([] : list (Z * bytes))) users_ops = Ok (t', w', l) /\
    spec_steps users_rt 1000 0 ∅ (Some []) users_ops g' w' l /\ tbl_ok 0 users_rt 1000 None 0 t' g'.
Proof.
  apply table_refines_map; [vm_compute; lia|apply t0_ok|apply t0_ok|].
  assert (Hargs : forall o v, (o < 3)%nat -> o <> 0%nat -> value_ok v -> args_wf users_rt [o] [v]).
  { intros o v Ho Hn Hv. split; [done|]. split; (apply Forall_cons_2; [done|constructor]). }
  assert (Hj : mj_wf users_rt users_mj) by (split; [vm_compute; lia|repeat constructor]).
  assert (Hnp : forall vals r, row_wf users_rt r -> (fun _ : Row => Ok vals) r <> @Panic (list Value)) by done.
  unfold users_ops. repeat apply Forall_cons_2; try constructor; try done.
  - by apply ada_wf.
  - by apply ada_wf.
  - repeat constructor. by intros ?%not_elem_of_nil.
  - split; [done|]. split; [done|]. intros r vals Hr [= <-]. apply Hargs; [lia|done|by apply ok_int].
  - split; [done|]. split; [|by eexists]. intros r vals Hr [= <-]. apply Hargs; [lia|done|by apply ok_str].
Defined.

(** The table after one insert. *)
Definition t1 : tbl_state :=
  match insertJournaled 0 users_rt 1000 t0 (None : option (list (Z * bytes))) (ada 36 (lit "0123456789")) users_mj with
  | Ok (t, _, _) => t
  | _ => t0
  end.
Lemma t1_ok : tbl_ok 0 users_rt 1000 None 0 t1 {[ada_id := ada 36 (lit "0123456789")]}.
Proof.
  destruct (insert_ok 0 users_rt 1000 None 0 ltac:(vm_compute; lia) true t0 (None : option (list (Z * bytes)))
    (ada 36 (lit "0123456789")) (fun w => mj_insert users_mj w (ada 36 (lit "0123456789"))) ∅ 8)
    as (t' & E & H1 & _); [apply t0_ok|apply t0_ok|by apply ada_wf|by left|].
  unfold t1, insertJournaled. rewrite E. cbv beta iota.
  assert (Ek : pkof users_rt (ada 36 (lit "0123456789")) = ada_id) by by vm_compute.
  rewrite Ek in H1. exact H1.
Qed.
Lemma update_tally_drift_witness :
  let j := [] : list (Z * bytes) in
  let run w := updateByPKJournaled 0 users_rt 1000 t1 w ada_id [2%nat; 2%nat]
                 (fun _ => Ok [Str []; Str (lit "bb")]) users_mj in
  exists w' t' t'', run (Some j) = Ok (t', w', (true, None)) /\ run None = Ok (t'', None, (true, None)) /\
    bytes_of t'' = map_cost users_rt (<[ada_id := ada 36 (lit "bb")]> {[ada_id := ada 36 (lit "0123456789")]}) /\
    bytes_of t' = map_cost users_rt (<[ada_id := ada 36 (lit "bb")]> {[ada_id := ada 36 (lit "0123456789")]}) + -10.
Proof.
  destruct (mj_update users_mj (Some ([] : list (Z * bytes))) (ada 36 (lit "bb"))) as [[w' [e|]]| |] eqn:E;
    try (vm_compute in E; discriminate E).
  exists w'. apply (update_tally_drift 0 users_rt 1000 None 0 ltac:(vm_compute; lia) t1 _ [] ada_id 2
    (Str []) (Str (lit "bb")) users_mj (ada 36 (lit "0123456789")) (Str (lit "0123456789")) w' t1_ok);
    [apply lookup_singleton_eq|done|done|by apply ok_str|by apply ok_str|exact E].
Defined.
