(* ===== verification/Merge.v ===== *)
(** * Merge: the index merger of secindex.go over the table's dirty queues.

    mergeIndexes holds [mergeMu], so one merge runs at a time, but it takes each
    shard's lock and each index's lock only for one access and lets writers and
    readers in between. It is therefore a machine: [mstep] is the code from one
    such access to the next, and a merge alone is its iteration. The reused
    buffers (scratch, encBuf, batch) are the merge's own and hold no state from
    one use to the next; they are modelled as fresh. *)
From S2P Require Import Prelude Bytes Order Uuid Value CompositeKey PkMap Codec Frame Journal Schema SecIndex Store.

Section merge.
Context (pkHashSeed : Z) (def : resolvedTable).

(** Where a merge stands: about to snapshot shard [i]; in shard [i], whose queue
    lengths were [nr] and [nd], with [todo] left of the batch; holding the
    projected row [pr] of [pk], about to apply it to index [k]; about to fold
    index [k]; dropping consumed prefixes. *)
Inductive mpc : Type :=
  | MShard (i : nat)
  | MRow (i nr nd : nat) (todo : list UUID)
  | MApply (i nr nd : nat) (todo : list UUID) (pk : UUID) (pr : list Value) (ok : bool) (k : nat)
  | MFold (k : nat)
  | MDrop (ds : list (nat * nat * nat))
  | MDone.

Record merger : Type := MkMerger {
  m_pc : mpc;
  m_drops : list (nat * nat * nat);   (* drops: shard, nr, nd *)
  m_changed : list (list UUID);       (* changedPerIdx *)
}.

Definition ords_of (ixs : list secIndex) : list nat := concat (map si_ordinals ixs).
(** spans[k]. *)
Definition span (ixs : list secIndex) (k : nat) : nat * nat :=
  (length (ords_of (take k ixs)), match ixs !! k with Some si => length (si_ordinals si) | None => 0%nat end).

(** One index's turn for the row fetched last. *)
Definition apply_index (ixs : list secIndex) (k : nat) (si : secIndex) (pk : UUID) (pr : list Value) (ok : bool)
  : outcome (secIndex * bool) :=
  if negb ok then Ok (apply si pk (MkKey KindNull 0 0 []) false)
  else
    let '(off, n) := span ixs k in
    cells ← slice_o pr (Z.of_nat off) (Z.of_nat (off + n));
    kb ← keyFromCells n cells;
    Ok (apply si pk (fst kb) (snd kb)).

Definition drop_shard (s : tableShard) (nr nd : nat) : tableShard :=
  MkShard (s_rows s) (s_pk s) (s_live s) (s_bytes s) (drop nr (s_dirtyRead s)) (drop nd (s_dirtyDel s)).

(** The counters' atomic adds follow the unlock; until then the overlay is
    over-counted, which only sends a reader to look at it. *)
Definition mstep (t : tbl_state) (ixs : list secIndex) (m : merger)
  : outcome (tbl_state * list secIndex * merger) :=
  let 'MkMerger pc drops changed := m in
  match pc with
  | MShard i =>
      match t_shards t !! i with
      | None => Ok (t, ixs, MkMerger (if (length drops =? 0)%nat then MDone else MFold 0) drops changed)
      | Some s =>
          let nr := length (s_dirtyRead s) in
          let nd := length (s_dirtyDel s) in
          let batch := take nr (s_dirtyRead s) ++ take nd (s_dirtyDel s) in
          Ok (t, ixs, MkMerger (if (length batch =? 0)%nat then MShard (S i) else MRow i nr nd batch) drops changed)
      end
  | MRow i nr nd [] => Ok (t, ixs, MkMerger (MShard (S i)) (drops ++ [(i, nr, nd)]) changed)
  | MRow i nr nd (pk :: todo) =>
      pr ← getByPKProjectInto pkHashSeed t pk (Some (ords_of ixs)) [];
      Ok (t, ixs, MkMerger (MApply i nr nd todo pk (fst pr) (snd pr) 0) drops changed)
  | MApply i nr nd todo pk pr ok k =>
      match ixs !! k with
      | None => Ok (t, ixs, MkMerger (MRow i nr nd todo) drops changed)
      | Some si =>
          sc ← apply_index ixs k si pk pr ok;
          ch ← index changed k;
          let changed := if snd sc && si_ordered si then <[k := ch ++ [pk]]> changed else changed in
          Ok (t, <[k := fst sc]> ixs, MkMerger (MApply i nr nd todo pk pr ok (S k)) drops changed)
      end
  | MFold k =>
      match ixs !! k with
      | None => Ok (t, ixs, MkMerger (MDrop drops) drops changed)
      | Some si =>
          ch ← index changed k;
          let si := if si_ordered si && negb (length ch =? 0)%nat then mergeSorted si ch else si in
          Ok (t, <[k := si]> ixs, MkMerger (MFold (S k)) drops changed)
      end
  | MDrop [] => Ok (t, ixs, MkMerger MDone drops changed)
  | MDrop ((i, nr, nd) :: ds) =>
      s ← index (t_shards t) i;
      Ok (MkTbl (<[i := drop_shard s nr nd]> (t_shards t)) (t_total t)
            (t_readDirty t + - Z.of_nat nr) (t_delDirty t + - Z.of_nat nd),
          ixs, MkMerger (MDrop ds) drops changed)
  | MDone => Ok (t, ixs, m)
  end.

Definition merge_start (ixs : list secIndex) : merger :=
  MkMerger (if (length ixs =? 0)%nat then MDone else MShard 0) [] (replicate (length ixs) []).

(** A merge with nobody in between. *)
Fixpoint merge_run (fuel : nat) (t : tbl_state) (ixs : list secIndex) (m : merger)
  : outcome (option (tbl_state * list secIndex)) :=
  match m_pc m with
  | MDone => Ok (Some (t, ixs))
  | _ =>
      match fuel with
      | O => Ok None
      | S fuel => x ← mstep t ixs m; let '(t, ixs, m) := x in merge_run fuel t ixs m
      end
  end.
Definition mergeIndexes (fuel : nat) (t : tbl_state) (ixs : list secIndex)
  : outcome (option (tbl_state * list secIndex)) :=
  merge_run fuel t ixs (merge_start ixs).

(** ** The overlay *)
Fixpoint live_pks (pk : pkMap) (l : list UUID) : outcome (list UUID) :=
  match l with
  | [] => Ok []
  | k :: l => g ← lift (pk_get pkHashSeed pk k); r ← live_pks pk l; Ok (if snd g : bool then k :: r else r)
  end.
Fixpoint dirty_shards (shards : list tableShard) : outcome (list UUID) :=
  match shards with
  | [] => Ok []
  | s :: shards => l ← live_pks (s_pk s) (s_dirtyRead s); r ← dirty_shards shards; Ok (l ++ r)
  end.
Definition dirtyPKs (t : tbl_state) : outcome (list UUID) :=
  if t_readDirty t =? 0 then Ok [] else dirty_shards (t_shards t).

(** ** Rebuilding from the rows (after WAL replay)

    The scan fills fresh maps; one pass per index here, which is what the
    per-row loop over the indexes does to each. *)
Definition row_key (ords : list nat) (r : Row) : outcome (option indexKey) :=
  match ords with
  | [ord] => v ← index r ord; Ok (if IsNull v then None else Some (keyOf v))
  | _ => comp ← get_cells r ords; kb ← keyFromCells (length ords) comp;
         Ok (if snd kb : bool then Some (fst kb) else None)
  end.
Definition rebuild_row (ords : list nat) (ordered : bool)
    (acc : outcome (gmap indexKey (list UUID) * gmap UUID indexKey)) (r : Row)
  : outcome (gmap indexKey (list UUID) * gmap UUID indexKey) :=
  fr ← acc;
  pkv ← index r (pkOrd def);
  k ← row_key ords r;
  Ok (match k with
      | None => fr
      | Some key =>
          (if ordered then fst fr else <[key := bucket (fst fr) key ++ [v_UUID pkv]]> (fst fr),
           <[v_UUID pkv := key]> (snd fr))
      end).
Definition rebuild_index (t : tbl_state) (si : secIndex) : outcome secIndex :=
  fr ← scanAll t (fun acc r => (rebuild_row (si_ordinals si) (si_ordered si) acc r, true)) (Ok (∅, ∅));
  let si := MkSecIndex (si_ordinals si) (si_ordered si) (fst fr) (snd fr) [] in
  Ok (if si_ordered si then rebuildSorted si else si).
Fixpoint rebuild_all (t : tbl_state) (ixs : list secIndex) : outcome (list secIndex) :=
  match ixs with
  | [] => Ok []
  | si :: ixs => si ← rebuild_index t si; r ← rebuild_all t ixs; Ok (si :: r)
  end.
Definition rebuildIndexes (t : tbl_state) (ixs : list secIndex) : outcome (tbl_state * list secIndex) :=
  if (length ixs =? 0)%nat then Ok (t, ixs)
  else
    ixs ← rebuild_all t ixs;
    Ok (MkTbl (map (fun s => MkShard (s_rows s) (s_pk s) (s_live s) (s_bytes s) [] []) (t_shards t))
          (t_total t) 0 0, ixs).

(** ** When the merger runs early *)
Definition totalDirty (tabs : list tbl_state) : Z :=
  fold_left (fun n t => n + (t_readDirty t + t_delDirty t)) tabs 0.
Definition size_floor : Z := 256.
Fixpoint adaptive_fires (tabs : list tbl_state) : bool :=
  match tabs with
  | [] => false
  | t :: tabs =>
      let d := t_readDirty t + t_delDirty t in
      if d <? size_floor then adaptive_fires tabs
      else
        let thr := Z.quot (liveCount t) 4 in
        let thr := if thr <? size_floor then size_floor else thr in
        if d >=? thr then true else adaptive_fires tabs
  end.
Definition sizeTriggerFired (tabs : list tbl_state) (fixed : Z) : bool :=
  if fixed >? 0 then totalDirty tabs >=? fixed else adaptive_fires tabs.
End merge.
