(* ===== verification/MergeOk.v ===== *)
(** * MergeOk: between writes, merges and reads, no committed row is invisible.

    The invariant has two observers of the table's rows per index: what readers
    see of the index, with nothing consumed from the dirty queues, and what the
    running merge will have applied, with the snapshotted prefixes consumed. *)
From S2P Require Import Prelude Bytes Order Uuid Value CompositeKey PkMap Codec Frame Journal Schema SecIndex IndexOk Store StoreOk StoreSim Merge.

(** ** Keys of rows *)
Definition cells_of (ords : list nat) (r : Row) : list Value := (fun o => default Null (r !! o)) <$> ords.
Definition key_of (ords : list nat) (r : Row) : option indexKey :=
  match keyFromCells (length ords) (cells_of ords r) with Ok (k, true) => Some k | _ => None end.

Section keys.
Context (ck : nat -> ValueKind).   (* the kind each column holds *)
Definition row_typed (r : Row) : Prop := forall o v, r !! o = Some v -> Kind v = KindNull \/ Kind v = ck o.
Definition kd_of (ords : list nat) : ValueKind := match ords with [o] => ck o | _ => KindBytes end.

Lemma key_dep ords r r' : (forall o, o ∈ ords -> r !! o = r' !! o) -> key_of ords r = key_of ords r'.
Proof.
  intros E. unfold key_of, cells_of. replace ((fun o => default Null (r' !! o)) <$> ords)
    with ((fun o => default Null (r !! o)) <$> ords); [done|].
  apply list_fmap_ext. intros i o Ho%list_elem_of_lookup_2. by rewrite E.
Qed.

Lemma keyFromCells_key ords r : Forall value_ok r ->
  exists k b, keyFromCells (length ords) (cells_of ords r) = Ok (k, b) /\ key_of ords r = key_opt k b /\
    (row_typed r -> b = true -> key_canon (kd_of ords) k).
Proof.
  intros Hv. unfold key_of, keyFromCells, keyFromCellsInto.
  destruct (decide (length ords = 1%nat)) as [E|E].
  - destruct ords as [|o [|? ?]]; [done| |done]. cbn [length Nat.eqb].
    change (index (cells_of [o] r) 0) with (Ok (default Null (r !! o))). cbn [mbind outcome_bind].
    destruct (IsNull (default Null (r !! o))) eqn:N; cbn [mbind outcome_bind fst snd]; eexists _, _; (do 2 (split; [done|])); [done|].
    intros Ht _. apply bool_decide_eq_false in N. cbn [kd_of]. destruct (r !! o) as [v|] eqn:Ho; [|done]. cbn in N |- *.
    destruct (Ht _ _ Ho) as [|<-]; [done|]. apply keyOf_canon. split; [|done]. by eapply Forall_lookup_1.
  - rewrite (proj2 (Nat.eqb_neq _ _) E). replace (kd_of ords) with KindBytes by (by destruct ords as [|? [|? ?]]).
    destruct (existsb IsNull (cells_of ords r)); cbn [mbind outcome_bind fst snd]; eexists _, _;
      (do 2 (split; [done|])); [done|]. intros _ _. apply (composite_canon (cells_of ords r)).
Qed.

Lemma key_of_canon ords r k : Forall value_ok r -> row_typed r -> key_of ords r = Some k -> key_canon (kd_of ords) k.
Proof.
  intros Hv Ht. destruct (keyFromCells_key ords r Hv) as (k' & b & _ & -> & Hc). unfold key_opt.
  destruct b; [|done]. intros [= <-]. by apply Hc.
Qed.
End keys.

(** The projection the merge reads. *)
Lemma appendProjectClone_ok ords : forall dst r, Forall value_ok r -> Forall (fun o => (o < length r)%nat) ords ->
  appendProjectClone dst r ords = Ok (dst ++ cells_of ords r).
Proof.
  induction ords as [|o ords IH]; intros dst r Hv Ho; cbn; [by rewrite app_nil_r|].
  apply list.Forall_cons in Ho as [Hlt Ho]. destruct (lookup_lt_is_Some_2 r o Hlt) as [v E].
  rewrite (index_Some _ _ _ E). cbn. rewrite IH by done. rewrite E, <- app_assoc. cbn.
  rewrite cloneValue_ok; [done|]. by eapply Forall_lookup_1.
Qed.

Section merge_ok.
Context (pkHashSeed : Z) {J : Type} `{Journal J} (def : resolvedTable) (max ext : Z) (ck : nat -> ValueKind).
Local Abbreviation ncols := (length (t_Columns (rt_def def))).
Hypothesis pk_in : (pkOrd def < ncols)%nat.
Hypothesis has_index : 0 < nIndexes def.
Hypothesis ords_in : Forall (fun ri => Forall (fun o => (o < ncols)%nat) (ri_ordinals ri)) (rt_indexes def).

Definition index_ords (ords : list nat) : Prop := ords ∈ map ri_ordinals (rt_indexes def).
Lemma index_ords_indexed ords o : index_ords ords -> o ∈ ords -> ordIsIndexed def o = true.
Proof.
  unfold index_ords. intros (ri & <- & Hri)%list_elem_of_In%in_map_iff Ho. unfold ordIsIndexed.
  apply existsb_exists. exists ri. split; [done|]. apply existsb_exists. exists o.
  split; [by apply list_elem_of_In|]. apply Nat.eqb_refl.
Qed.
Lemma index_ords_lt ords : index_ords ords -> Forall (fun o => (o < ncols)%nat) ords.
Proof.
  unfold index_ords. intros (ri & <- & Hri)%list_elem_of_In%in_map_iff. rewrite list.Forall_forall in ords_in.
  apply ords_in. by apply list_elem_of_In.
Qed.

(** An observer of the rows through the index over [ords]. *)
Definition obs (ords : list nat) (Ho : index_ords ords) (seen : UUID -> option indexKey) (base : UUID -> nat * nat)
    (n : nat) (low : nat -> nat * nat) : track def :=
  MkTrack def indexKey (key_of ords) seen base n low has_index
    (fun r r' E => key_dep ords r r' (fun o Hin => E o (index_ords_indexed ords o Ho Hin))).

Definition watched_at (ords : list nat) (seen : option indexKey) (b : nat * nat) (row : option Row) (s : tableShard)
    (k : UUID) : Prop :=
  (fst b <= length (s_dirtyRead s))%nat /\ (snd b <= length (s_dirtyDel s))%nat /\
  match row with
  | Some r => seen = key_of ords r \/ k ∈ drop (fst b) (s_dirtyRead s)
  | None => seen = None \/ k ∈ drop (fst b) (s_dirtyRead s) \/ k ∈ drop (snd b) (s_dirtyDel s)
  end.
Definition watched (ords : list nat) (seen : UUID -> option indexKey) (base : UUID -> nat * nat)
    (t : tbl_state) (g : gmap UUID Row) : Prop :=
  forall k s, t_shards t !! idx t k = Some s -> watched_at ords (seen k) (base k) (g !! k) s k.
Definition low_ok (low : nat -> nat * nat) (t : tbl_state) : Prop :=
  forall i s, t_shards t !! i = Some s ->
    (fst (low i) <= length (s_dirtyRead s))%nat /\ (snd (low i) <= length (s_dirtyDel s))%nat.

Local Abbreviation tbl_ok tr := (tbl_ok pkHashSeed def max tr ext).

Lemma tbl_ok_obs ords Ho seen base n low t g :
  tbl_ok (Some (obs ords Ho seen base n low)) t g <->
  tbl_ok None t g /\ length (t_shards t) = n /\ low_ok low t /\ watched ords seen base t g.
Proof.
  split.
  - intros [H1 H2 H3 H4 H5 H6 H7]. split; [by split|]. split; [by apply (H5 _ eq_refl)|]. split.
    + intros i s. by apply (H6 _ _ _ eq_refl).
    + intros k s. by apply (H7 _ _ _ eq_refl).
  - intros ([H1 H2 H3 H4 _ _ _] & Hn & Hl & Hw). split; try done.
    + by intros ? [= <-].
    + intros ? i s [= <-]. apply Hl.
    + intros ? k s [= <-]. apply Hw.
Qed.

Lemma tbl_ok_unique tr tr' t g g' : tbl_ok tr t g -> tbl_ok tr' t g' -> g = g'.
Proof.
  intros Ht Ht'. apply map_eq. intros k. pose proof (getByPK_ok _ _ _ _ _ _ _ k Ht) as E.
  rewrite (getByPK_ok _ _ _ _ _ _ _ k Ht') in E. by injection E.
Qed.

(** A write keeps every observer's promise. *)
Lemma write_watched t g (w : option J) op t' w' a : tbl_ok None t g -> room 1 t -> op_wf def op ->
  run_op pkHashSeed def max t w op = Ok (t', w', a) ->
  exists g', tbl_ok None t' g' /\ length (t_shards t') = length (t_shards t) /\
    (forall low, low_ok low t -> low_ok low t') /\
    (forall ords seen base, index_ords ords -> watched ords seen base t g -> watched ords seen base t' g').
Proof.
  intros Ht Hr Hop Hrun.
  assert (S : forall tr, tbl_ok tr t g -> exists g', tbl_ok tr t' g').
  { intros tr Htr. destruct (sim_step pkHashSeed def max tr ext pk_in t g w op 0 Htr Hr Hop) as (t2 & g' & ? & ? & E & _ & Hg' & _).
    rewrite Hrun in E. injection E as <- <- <-. by exists g'. }
  destruct (S None Ht) as [g' Hg']. exists g'. split; [done|].
  assert (O : forall ords (Ho : index_ords ords) seen base low, low_ok low t -> watched ords seen base t g ->
    length (t_shards t') = length (t_shards t) /\ low_ok low t' /\ watched ords seen base t' g').
  { intros ords Ho seen base low Hl Hw.
    destruct (S (Some (obs ords Ho seen base (length (t_shards t)) low))) as [g2 Hg2].
    { apply tbl_ok_obs. done. }
    rewrite (tbl_ok_unique _ _ _ _ _ Hg' Hg2). apply tbl_ok_obs in Hg2. tauto. }
  assert (L0 : low_ok (fun _ => (0%nat, 0%nat)) t) by (intros i s _; cbn; lia).
  destruct (rt_indexes def) as [|ri rs] eqn:Eix; [unfold nIndexes in has_index; by rewrite Eix in has_index|].
  assert (Ho : index_ords (ri_ordinals ri)) by (unfold index_ords; rewrite Eix; by left).
  assert (W : watched (ri_ordinals ri) (fun k => g !! k ≫= key_of (ri_ordinals ri)) (fun _ => (0%nat, 0%nat)) t g).
  { intros k s _. unfold watched_at. cbn. split; [lia|]. split; [lia|]. destruct (g !! k); by left. }
  split; [by apply (O _ Ho _ _ _ L0 W)|]. split.
  - intros low Hl. by apply (O _ Ho _ _ _ Hl W).
  - intros ords seen base Ho' Hw. by apply (O _ Ho' _ _ _ L0 Hw).
Qed.

(** ** The invariant of a running merge *)
Definition pend_drops (m : merger) : list (nat * nat * nat) :=
  match m_pc m with
  | MRow i nr nd _ | MApply i nr nd _ _ _ _ _ => m_drops m ++ [(i, nr, nd)]
  | MDrop ds => ds
  | MDone => []
  | _ => m_drops m
  end.
Definition todo_of (m : merger) : nat * list UUID :=
  match m_pc m with
  | MRow i _ _ todo | MApply i _ _ todo _ _ _ _ => (i, todo)
  | _ => (0%nat, [])
  end.
Definition drop_base (ds : list (nat * nat * nat)) (i : nat) : nat * nat :=
  match find (fun d => (fst (fst d) =? i)%nat) ds with Some d => (snd (fst d), snd d) | None => (0%nat, 0%nat) end.
(** What the merge has consumed of the queues of shard [i] as far as [k] goes. *)
Definition base_of (m : merger) (i : nat) (k : UUID) : nat * nat :=
  if decide (i = fst (todo_of m) /\ k ∈ snd (todo_of m)) then (0%nat, 0%nat) else drop_base (pend_drops m) i.

(** What index [x], over [ords] and with reverse map [rev], will hold for [k] once
    the row in flight, [fr], has been applied. *)
Definition seen_of (m : merger) (fr : option Row) (ords : list nat) (x : nat) (rev : gmap UUID indexKey) (k : UUID)
  : option indexKey :=
  match m_pc m with
  | MApply _ _ _ _ pk _ _ x' => if decide ((x' <= x)%nat /\ k = pk) then fr ≫= key_of ords else rev !! k
  | _ => rev !! k
  end.
Definition folded (m : merger) (x : nat) : Prop :=
  match m_pc m with MFold x' => (x < x')%nat | MDrop _ | MDone => True | _ => False end.

Definition index_inv (t : tbl_state) (g : gmap UUID Row) (m : merger) (fr : option Row) (x : nat) (si : secIndex)
    (ch : list UUID) : Prop :=
  exists vis, idx_ok (kd_of ck (si_ordinals si)) si vis /\
    watched (si_ordinals si) (fun k => vis !! k) (fun _ => (0%nat, 0%nat)) t g /\
    watched (si_ordinals si) (seen_of m fr (si_ordinals si) x (si_rev si)) (fun k => base_of m (idx t k) k) t g /\
    (folded m x -> vis = si_rev si) /\
    (forall k, k ∉ ch -> si_rev si !! k = vis !! k).

Record merge_inv (fr : option Row) (t : tbl_state) (g : gmap UUID Row) (ixs : list secIndex) (m : merger) : Prop := {
  iv_tbl : tbl_ok None t g;
  iv_typed : map_Forall (fun _ => row_typed ck) g;
  iv_ords : map si_ordinals ixs = map ri_ordinals (rt_indexes def);
  iv_drops : Forall (fun d => exists s, t_shards t !! fst (fst d) = Some s /\
    (snd (fst d) <= length (s_dirtyRead s))%nat /\ (snd d <= length (s_dirtyDel s))%nat) (pend_drops m);
  iv_nodup : NoDup (map (fun d => fst (fst d)) (pend_drops m));
  iv_next : match m_pc m with
    | MShard i | MRow i _ _ _ | MApply i _ _ _ _ _ _ _ => Forall (fun d => (fst (fst d) < i)%nat) (m_drops m)
    | _ => True end;
  iv_fold0 : match m_pc m with MShard _ => m_drops m = [] -> Forall (fun ch => ch = []) (m_changed m) | _ => True end;
  iv_flight : match m_pc m with
    | MApply _ _ _ _ _ pr ok _ => match fr with
        | Some r => ok = true /\ pr = cells_of (ords_of ixs) r /\ Forall value_ok r /\ row_typed ck r
        | None => ok = false end
    | _ => True end;
  iv_idx : Forall2 (fun xi ch => index_inv t g m fr (fst xi) (snd xi) ch) (imap pair ixs) (m_changed m);
}.

Lemma watched_ext ords seen seen' base base' t g : (forall k, seen k = seen' k) ->
  (forall k, base k = base' k) -> watched ords seen base t g -> watched ords seen' base' t g.
Proof. intros E1 E2 Hw k s Hs. specialize (Hw k s Hs). by rewrite E1, E2 in Hw. Qed.
Lemma watched_base0 ords seen base t g : watched ords seen base t g -> watched ords seen (fun _ => (0%nat, 0%nat)) t g.
Proof.
  assert (D : forall n (q : list UUID) k, k ∈ drop n q -> k ∈ drop 0 q).
  { intros n q k Hk. rewrite drop_0, <- (take_drop n q). apply elem_of_app. by right. }
  intros Hw k s Hs. destruct (Hw k s Hs) as (_ & _ & Hc). split; [cbn; lia|]. split; [cbn; lia|]. cbn.
  destruct (g !! k) as [r|]; [destruct Hc as [?|Hc]; [by left|right; by eapply D]|].
  destruct Hc as [?|[Hc|Hc]]; [by left|right; left; by eapply D|right; right; by eapply D].
Qed.
Lemma drop_base_notin ds i : i ∉ map (fun d => fst (fst d)) ds -> drop_base ds i = (0%nat, 0%nat).
Proof.
  intros Hn. unfold drop_base. destruct (find _ ds) as [d|] eqn:F; [|done]. apply find_some in F as [Hd E%Nat.eqb_eq].
  destruct Hn. rewrite <- E. apply list_elem_of_fmap. exists d. split; [done|]. by apply list_elem_of_In.
Qed.
Lemma drop_base_snoc ds i nr nd j : i ∉ map (fun d => fst (fst d)) ds ->
  drop_base (ds ++ [(i, nr, nd)]) j = if decide (j = i) then (nr, nd) else drop_base ds j.
Proof.
  intros Hn. unfold drop_base. induction ds as [|d ds IH]; cbn.
  - destruct (Nat.eqb_spec i j); case_decide; congruence || done.
  - apply not_elem_of_cons in Hn as [Hne Hn]. destruct (Nat.eqb_spec (fst (fst d)) j); [by rewrite decide_False by congruence|].
    by apply IH.
Qed.
Lemma lt_notin ds i : Forall (fun d : nat * nat * nat => (fst (fst d) < i)%nat) ds -> i ∉ map (fun d => fst (fst d)) ds.
Proof.
  intros Hf (d & E & Hd)%list_elem_of_fmap. rewrite list.Forall_forall in Hf. specialize (Hf d Hd). lia.
Qed.

(** A step that touches neither the table nor the indexes. *)
Lemma inv_pc fr t g ixs m m' fr' : merge_inv fr t g ixs m -> m_changed m' = m_changed m ->
  pend_drops m' = pend_drops m ->
  (forall k, base_of m' (idx t k) k = base_of m (idx t k) k) ->
  (forall x si k, ixs !! x = Some si ->
    seen_of m' fr' (si_ordinals si) x (si_rev si) k = seen_of m fr (si_ordinals si) x (si_rev si) k) ->
  (forall x si ch vis, ixs !! x = Some si -> m_changed m !! x = Some ch -> (folded m x -> vis = si_rev si) ->
    (forall k, k ∉ ch -> si_rev si !! k = vis !! k) -> folded m' x -> vis = si_rev si) ->
  match m_pc m' with
    | MShard i | MRow i _ _ _ | MApply i _ _ _ _ _ _ _ => Forall (fun d => (fst (fst d) < i)%nat) (m_drops m')
    | _ => True end ->
  match m_pc m' with MShard _ => m_drops m' = [] -> Forall (fun ch => ch = []) (m_changed m') | _ => True end ->
  match m_pc m' with
    | MApply _ _ _ _ _ pr ok _ => match fr' with
        | Some r => ok = true /\ pr = cells_of (ords_of ixs) r /\ Forall value_ok r /\ row_typed ck r
        | None => ok = false end
    | _ => True end ->
  merge_inv fr' t g ixs m'.
Proof.
  intros [H1 H2 H3 H4 H5 _ _ _ H9] Ec Ep Eb Es Ef N1 N2 N3. split; rewrite ?Ep, ?Ec; try done.
  { by rewrite Ec in N2. }
  rewrite Forall2_lookup in H9 |- *. intros x. specialize (H9 x). rewrite list_lookup_imap in H9 |- *.
  destruct (ixs !! x) as [si|] eqn:Ex; cbn in *; inversion H9 as [? ch I Ea Ech|]; subst; [|by constructor].
  constructor. destruct I as (vis & I1 & I2 & I3 & I4 & I5). cbn [fst snd] in *. exists vis.
  split; [done|]. split; [done|]. split; [|split; [|done]].
  - eapply watched_ext; [| |exact I3]; intros k; symmetry; [by apply Es|apply Eb].
  - by eapply Ef.
Qed.

Lemma inv_start t g ixs : tbl_ok None t g -> map_Forall (fun _ => row_typed ck) g ->
  map si_ordinals ixs = map ri_ordinals (rt_indexes def) ->
  Forall (fun si => idx_ok (kd_of ck (si_ordinals si)) si (si_rev si) /\
    watched (si_ordinals si) (fun k => si_rev si !! k) (fun _ => (0%nat, 0%nat)) t g) ixs ->
  merge_inv None t g ixs (merge_start ixs).
Proof.
  intros Ht Hty Ho Hi.
  assert (Hpc : m_pc (merge_start ixs) = MShard 0 \/ m_pc (merge_start ixs) = MDone).
  { unfold merge_start. cbn. destruct (length ixs =? 0)%nat; auto. }
  assert (Hp : pend_drops (merge_start ixs) = []) by (unfold pend_drops; by destruct Hpc as [-> | ->]).
  assert (Ht0 : todo_of (merge_start ixs) = (0%nat, [])) by (unfold todo_of; by destruct Hpc as [-> | ->]).
  split; rewrite ?Hp; [done|done|done|constructor|constructor|..].
  - destruct Hpc as [-> | ->]; [constructor|done].
  - destruct Hpc as [-> | ->]; [|done]. intros _. cbn [m_changed merge_start]. by apply list.Forall_replicate.
  - by destruct Hpc as [-> | ->].
  - rewrite Forall2_lookup. intros x. rewrite list_lookup_imap. cbn [m_changed merge_start].
    destruct (ixs !! x) as [si|] eqn:Ex; cbn.
    + rewrite lookup_replicate_2 by (by eapply lookup_lt_Some). constructor.
      destruct (Forall_lookup_1 _ _ _ _ Hi Ex) as [I1 I2]. exists (si_rev si). do 2 (split; [done|]).
      split; [|done]. eapply watched_ext; [| |exact I2].
      * intros k. unfold seen_of. by destruct Hpc as [-> | ->].
      * intros k. unfold base_of. rewrite Ht0, Hp. by destruct (decide _).
    + assert (E : replicate (length ixs) ([] : list UUID) !! x = None).
      { apply lookup_ge_None. rewrite length_replicate. by apply lookup_ge_None. }
      rewrite E. constructor.
Qed.

Lemma shard_at t g i s : tbl_ok None t g -> t_shards t !! i = Some s -> sh_ok pkHashSeed def s (part (mask t) g i).
Proof. intros Ht Hs. by apply (tb_shards _ _ _ _ _ _ _ Ht). Qed.

(** Reading the projection of one row. *)
Lemma getByPKProjectInto_ok t g k ords : tbl_ok None t g -> Forall (fun o => (o < ncols)%nat) ords ->
  getByPKProjectInto pkHashSeed t k (Some ords) [] =
    Ok (match g !! k with Some r => (cells_of ords r, true) | None => ([], false) end).
Proof.
  intros Ht Ho. unfold getByPKProjectInto. destruct (lookup_row pkHashSeed def max None ext t g k Ht) as (s & Hs & G).
  rewrite (index_Some _ _ _ Hs). cbn [mbind outcome_bind]. destruct (g !! k) as [r|].
  - destruct G as (n & G & Hn & _ & Hl & Hv). rewrite (lift_Some _ _ G). cbn [mbind outcome_bind negb].
    rewrite Nat2Z.id, (index_Some _ _ _ Hn). cbn [mbind outcome_bind]. rewrite appendProjectClone_ok; [done|done|].
    eapply Forall_impl; [|exact Ho]. cbv beta. intros o Hlt. by rewrite Hl.
  - rewrite (lift_Some _ _ G). done.
Qed.

Lemma ix_index_ords ixs x si : map si_ordinals ixs = map ri_ordinals (rt_indexes def) -> ixs !! x = Some si ->
  index_ords (si_ordinals si).
Proof.
  intros E Hx. unfold index_ords. rewrite <- E. apply list_elem_of_fmap. exists si. split; [done|].
  by eapply list_elem_of_lookup_2.
Qed.
Lemma ords_of_lt ixs : map si_ordinals ixs = map ri_ordinals (rt_indexes def) ->
  Forall (fun o => (o < ncols)%nat) (ords_of ixs).
Proof.
  intros E. unfold ords_of. rewrite E. apply list.Forall_forall. intros o Ho%list_elem_of_In.
  apply in_concat in Ho as (l & Hl & Ho). pose proof (index_ords_lt l) as Hi. rewrite list.Forall_forall in Hi.
  apply Hi; [by apply list_elem_of_In|by apply list_elem_of_In].
Qed.

(** The cells of one index inside the projection of all. *)
Lemma span_cells ixs x si r : ixs !! x = Some si ->
  let '(off, n) := span ixs x in
  n = length (si_ordinals si) /\
  slice_o (cells_of (ords_of ixs) r) (Z.of_nat off) (Z.of_nat (off + n)) = Ok (cells_of (si_ordinals si) r).
Proof.
  intros Hx. unfold span. rewrite Hx. split; [done|]. unfold ords_of.
  rewrite <- (take_drop_middle ixs x si Hx) at 1. rewrite map_app, concat_app. cbn [map concat].
  unfold cells_of. rewrite !fmap_app. apply slice_o_mid; unfold zlen; rewrite !length_fmap; lia.
Qed.

Lemma apply_index_ok ixs x si pk pr ok fr : ixs !! x = Some si ->
  match fr with
  | Some r => ok = true /\ pr = cells_of (ords_of ixs) r /\ Forall value_ok r /\ row_typed ck r
  | None => ok = false
  end ->
  exists k b, apply_index ixs x si pk pr ok = Ok (apply si pk k b) /\
    key_opt k b = fr ≫= key_of (si_ordinals si) /\ (b = true -> key_canon (kd_of ck (si_ordinals si)) k).
Proof.
  intros Hx Hf. unfold apply_index. destruct fr as [r|].
  - destruct Hf as (-> & -> & Hv & Ht). cbn [negb]. pose proof (span_cells ixs x si r Hx) as S.
    destruct (span ixs x) as [off n]. destruct S as [-> ->]. cbn [mbind outcome_bind].
    destruct (keyFromCells_key ck (si_ordinals si) r Hv) as (k & b & -> & Ek & Hc). cbn [mbind outcome_bind fst snd].
    exists k, b. split; [done|]. split; [done|]. by apply Hc.
  - subst ok. cbn [negb]. eexists _, _. split; [done|]. done.
Qed.

Lemma Forall2_idx {A B} (P : nat -> A -> B -> Prop) (l : list A) (k : list B) :
  Forall2 (fun xi ch => P (fst xi) (snd xi) ch) (imap pair l) k <->
  length l = length k /\ forall x a b, l !! x = Some a -> k !! x = Some b -> P x a b.
Proof.
  split.
  - intros H2. split; [apply Forall2_length in H2; by rewrite length_imap in H2|].
    intros x a b Ha Hb. rewrite Forall2_lookup in H2. specialize (H2 x). rewrite list_lookup_imap, Ha, Hb in H2.
    by inversion H2.
  - intros [Hl Hp]. apply Forall2_same_length_lookup. rewrite length_imap. split; [done|].
    intros x xi b. rewrite list_lookup_imap. destruct (l !! x) as [a|] eqn:Ha; [|done]. cbn. intros [= <-] Hb.
    by apply Hp.
Qed.
Lemma iv_ix fr t g ixs m : merge_inv fr t g ixs m ->
  length ixs = length (m_changed m) /\
  forall x si ch, ixs !! x = Some si -> m_changed m !! x = Some ch -> index_inv t g m fr x si ch.
Proof. intros [_ _ _ _ _ _ _ _ Hi]. by apply (Forall2_idx (fun x si ch => index_inv t g m fr x si ch)) in Hi. Qed.

Local Abbreviation steps_to t g ixs m :=
  (exists t' ixs' m' fr', mstep pkHashSeed t ixs m = Ok (t', ixs', m') /\ merge_inv fr' t' g ixs' m').

Lemma step_shard_end fr t g ixs i drops changed : merge_inv fr t g ixs (MkMerger (MShard i) drops changed) ->
  t_shards t !! i = None -> steps_to t g ixs (MkMerger (MShard i) drops changed).
Proof.
  intros Hi Hs. cbn [mstep]. rewrite Hs. eexists _, _, _, fr. split; [done|].
  pose proof (iv_fold0 _ _ _ _ _ Hi) as H0. cbn in H0.
  destruct (Nat.eqb_spec (length drops) 0) as [E|E].
  - apply nil_length_inv in E. subst drops. eapply inv_pc; try done.
    intros x si ch vis _ Hch _ Hv _. apply map_eq. intros k. symmetry. apply Hv.
    cbn in Hch. assert (ch = []) as -> by exact (Forall_lookup_1 _ _ _ _ (H0 eq_refl) Hch). by intros ?%elem_of_nil.
  - eapply inv_pc; try done. cbn. intros. lia.
Qed.

Lemma step_shard fr t g ixs i s drops changed : merge_inv fr t g ixs (MkMerger (MShard i) drops changed) ->
  t_shards t !! i = Some s -> steps_to t g ixs (MkMerger (MShard i) drops changed).
Proof.
  intros Hi Hs. cbn [mstep]. rewrite Hs. set (nr := length (s_dirtyRead s)). set (nd := length (s_dirtyDel s)).
  rewrite !take_ge by lia. eexists _, _, _, fr. split; [done|].
  pose proof (iv_next _ _ _ _ _ Hi) as Hn. cbn in Hn. pose proof (iv_fold0 _ _ _ _ _ Hi) as H0. cbn in H0.
  destruct (Nat.eqb_spec (length (s_dirtyRead s ++ s_dirtyDel s)) 0) as [E|E].
  { eapply inv_pc; try done. cbn. eapply Forall_impl; [|exact Hn]. cbv beta. intros; lia. }
  pose proof (lt_notin _ _ Hn) as Hni. destruct Hi as [H1 H2 H3 H4 H5 _ _ _ H9]. split; try done; cbn [m_pc m_drops m_changed pend_drops] in *.
  - apply Forall_app. split; [done|]. constructor; [|done]. by exists s.
  - rewrite map_app. apply list.NoDup_app. split; [done|]. split; [|apply NoDup_singleton].
    intros j Hj ->%list_elem_of_singleton. done.
  - eapply Forall2_impl; [|exact H9]. cbv beta. intros xi ch (vis & I1 & I2 & I3 & I4 & I5). exists vis.
    split; [done|]. split; [done|]. split; [|split; [done|done]]. intros k s' Hs'. specialize (I3 k s' Hs').
    unfold seen_of, base_of in *. cbn [m_pc pend_drops todo_of m_drops fst snd] in *.
    rewrite drop_base_snoc by done. rewrite decide_False in I3 by (intros [_ ?%elem_of_nil]; done).
    destruct (decide (idx t k = i)) as [Ei|Ei].
    2: { rewrite decide_False by tauto. done. }
    rewrite Ei, drop_base_notin in I3 by done. rewrite Ei in Hs'. rewrite Hs in Hs'. injection Hs' as <-.
    destruct (decide (idx t k = i /\ k ∈ s_dirtyRead s ++ s_dirtyDel s)) as [_|Hk]; [done|].
    assert (Hk1 : k ∉ s_dirtyRead s) by (intros ?; apply Hk; split; [done|]; apply elem_of_app; by left).
    assert (Hk2 : k ∉ s_dirtyDel s) by (intros ?; apply Hk; split; [done|]; apply elem_of_app; by right).
    destruct I3 as (_ & _ & I3). split; [done|]. split; [done|]. cbn in I3. rewrite !drop_0 in I3.
    destruct (g !! k); tauto.
Qed.

Lemma step_row_end fr t g ixs i nr nd drops changed : merge_inv fr t g ixs (MkMerger (MRow i nr nd []) drops changed) ->
  steps_to t g ixs (MkMerger (MRow i nr nd []) drops changed).
Proof.
  intros Hi. eexists _, _, _, fr. split; [done|]. pose proof (iv_next _ _ _ _ _ Hi) as Hn. cbn in Hn.
  eapply inv_pc; try done; cbn.
  - intros k. unfold base_of. cbn. rewrite !decide_False by (intros [_ ?%elem_of_nil]; done). done.
  - apply Forall_app. split; [|constructor; [cbn; lia|done]]. eapply Forall_impl; [|exact Hn]. cbv beta. intros; lia.
  - by destruct drops.
Qed.

(** A fetched row is what the row is: from here on the merge has seen it. *)
Lemma step_fetch fr t g ixs i nr nd pk todo drops changed :
  merge_inv fr t g ixs (MkMerger (MRow i nr nd (pk :: todo)) drops changed) ->
  steps_to t g ixs (MkMerger (MRow i nr nd (pk :: todo)) drops changed).
Proof.
  intros [H1 H2 H3 H4 H5 H6 _ _ H9]. cbn [mstep].
  rewrite (getByPKProjectInto_ok t g pk _ H1 (ords_of_lt _ H3)). cbn [mbind outcome_bind].
  eexists _, _, _, (g !! pk). split; [done|]. split; try done.
  - cbn. destruct (g !! pk) as [r|] eqn:E; [|done]. split; [done|]. split; [done|]. split; [|by eapply H2].
    destruct (lookup_row pkHashSeed def max None ext t g pk H1) as (s & _ & G). rewrite E in G.
    by destruct G as (? & _ & _ & _ & _ & ?).
  - eapply Forall2_impl; [|exact H9]. cbv beta. intros xi ch (vis & I1 & I2 & I3 & I4 & I5). exists vis.
    split; [done|]. split; [done|]. split; [|by split]. intros k s Hs. specialize (I3 k s Hs).
    unfold seen_of, base_of in *. cbn [m_pc pend_drops todo_of m_drops fst snd] in *.
    destruct (decide (k = pk)) as [->|Hne].
    + rewrite (decide_True _ _ (conj (Nat.le_0_l _) eq_refl)). destruct I3 as (B1 & B2 & _).
      set (b := if decide (idx t pk = i /\ pk ∈ todo) then _ else _).
      assert (B : (fst b <= length (s_dirtyRead s))%nat /\ (snd b <= length (s_dirtyDel s))%nat).
      { subst b. destruct (decide (idx t pk = i)) as [Ei|Ei].
        - destruct (decide (idx t pk = i /\ pk ∈ todo)); [split; apply Nat.le_0_l|]. rewrite Ei. unfold pend_drops in H4. cbn in H4.
          pose proof (lt_notin _ _ H6) as Hni. rewrite drop_base_snoc, decide_True by done. cbn.
          apply Forall_app in H4 as [_ H4]. inversion H4 as [|? ? (s' & Hs' & ?) _]; subst. cbn in *.
          rewrite Hs in Hs'. by injection Hs' as <-.
        - rewrite decide_False by tauto. rewrite decide_False in B1, B2 by tauto. done. }
      split; [apply B|]. split; [apply B|]. destruct (g !! pk); by left.
    + rewrite (decide_False (P := (0 <= fst xi)%nat /\ k = pk)) by tauto. rewrite (decide_ext (idx t k = i /\ k ∈ todo) (idx t k = i /\ k ∈ pk :: todo)); [done|].
      rewrite elem_of_cons. tauto.
Qed.

Lemma step_apply_end fr t g ixs i nr nd todo pk pr ok x drops changed :
  merge_inv fr t g ixs (MkMerger (MApply i nr nd todo pk pr ok x) drops changed) -> ixs !! x = None ->
  steps_to t g ixs (MkMerger (MApply i nr nd todo pk pr ok x) drops changed).
Proof.
  intros Hi Hx. cbn [mstep]. rewrite Hx. eexists _, _, _, fr. split; [done|].
  pose proof (iv_next _ _ _ _ _ Hi) as Hn. cbn in Hn. eapply inv_pc; try done.
  intros x' si k Hx'. unfold seen_of. cbn. rewrite decide_False; [done|]. intros [Hle _].
  apply lookup_ge_None in Hx. apply lookup_lt_Some in Hx'. lia.
Qed.

Lemma step_fold_end fr t g ixs x drops changed : merge_inv fr t g ixs (MkMerger (MFold x) drops changed) ->
  ixs !! x = None -> steps_to t g ixs (MkMerger (MFold x) drops changed).
Proof.
  intros Hi Hx. cbn [mstep]. rewrite Hx. eexists _, _, _, fr. split; [done|].
  eapply inv_pc; try done. cbn. intros x' si ch vis Hx' _ Hf _ _. apply Hf.
  apply lookup_ge_None in Hx. apply lookup_lt_Some in Hx'. lia.
Qed.

Lemma step_drop_end fr t g ixs drops changed : merge_inv fr t g ixs (MkMerger (MDrop []) drops changed) ->
  steps_to t g ixs (MkMerger (MDrop []) drops changed).
Proof.
  intros Hi. eexists _, _, _, fr. split; [done|]. eapply inv_pc; done.
Qed.

(** Updating one index of the list. *)
Lemma idx_replaced m m' fr fr' t g ixs changed x si0 si ch0 ch :
  ixs !! x = Some si0 -> changed !! x = Some ch0 ->
  Forall2 (fun xi ch => index_inv t g m fr (fst xi) (snd xi) ch) (imap pair ixs) changed ->
  index_inv t g m' fr' x si ch ->
  (forall x' si' ch', x' <> x -> index_inv t g m fr x' si' ch' -> index_inv t g m' fr' x' si' ch') ->
  Forall2 (fun xi ch => index_inv t g m' fr' (fst xi) (snd xi) ch) (imap pair (<[x := si]> ixs)) (<[x := ch]> changed).
Proof.
  intros Hx Hc H2 Hnew Hold.
  apply (Forall2_idx (fun x si ch => index_inv t g m fr x si ch)) in H2 as [Hl H2].
  apply (Forall2_idx (fun x si ch => index_inv t g m' fr' x si ch)). rewrite !length_insert. split; [done|].
  intros x' a b. rewrite !list_lookup_insert_Some.
  intros [(<- & <- & _)|[Hne Ha]] [(E & <- & _)|[Hne' Hb]]; [done|congruence|congruence|].
  apply Hold; [congruence|]. by apply H2.
Qed.
Lemma ords_replaced ixs x si0 si : ixs !! x = Some si0 -> si_ordinals si = si_ordinals si0 ->
  map si_ordinals (<[x := si]> ixs) = map si_ordinals ixs.
Proof.
  intros Hx E. change (map si_ordinals) with (fmap (M := list) si_ordinals).
  rewrite list_fmap_insert, E. apply list_insert_id. by rewrite list_lookup_fmap, Hx.
Qed.

Lemma step_apply fr t g ixs i nr nd todo pk pr ok x si drops changed :
  merge_inv fr t g ixs (MkMerger (MApply i nr nd todo pk pr ok x) drops changed) -> ixs !! x = Some si ->
  steps_to t g ixs (MkMerger (MApply i nr nd todo pk pr ok x) drops changed).
Proof.
  intros Hi Hx. destruct (iv_ix _ _ _ _ _ Hi) as [Hlen Hix]. cbn [m_changed] in *.
  destruct (lookup_lt_is_Some_2 changed x) as [ch Hch]; [rewrite <- Hlen; by eapply lookup_lt_Some|].
  pose proof (Hix _ _ _ Hx Hch) as (vis & I1 & I2 & I3 & I4 & I5). clear Hix.
  destruct Hi as [H1 H2 H3 H4 H5 H6 _ H8 H9]. cbn [m_pc m_drops m_changed] in *.
  destruct (apply_index_ok ixs x si pk pr ok fr Hx H8) as (k & b & Ea & Ek & Hc).
  cbn [mstep]. rewrite Hx, Ea. cbn [mbind outcome_bind]. rewrite (index_Some _ _ _ Hch). cbn [mbind outcome_bind].
  pose proof (apply_ok _ _ _ pk k b I1 Hc) as (A1 & A2 & A3 & A4 & A5 & A6). cbv zeta in *.
  set (si' := fst (apply si pk k b)) in *. rewrite Ek in *.
  set (ch' := if snd (apply si pk k b) && si_ordered si then ch ++ [pk] else ch).
  assert (Ech : (if snd (apply si pk k b) && si_ordered si then <[x := ch ++ [pk]]> changed else changed) = <[x := ch']> changed).
  { subst ch'. destruct (_ && _); [done|]. by rewrite list_insert_id. }
  rewrite Ech. eexists _, _, _, fr. split; [done|].
  assert (Eo : ords_of (<[x := si']> ixs) = ords_of ixs) by (unfold ords_of; by rewrite (ords_replaced ixs x si)).
  assert (Hseen : forall q, seen_of (MkMerger (MApply i nr nd todo pk pr ok x) drops changed) fr (si_ordinals si) x (si_rev si) q =
    si_rev si' !! q).
  { intros q. unfold seen_of. cbn [m_pc]. rewrite A1, moved_lookup. destruct (decide (pk = q)) as [<-|Hne].
    - by rewrite decide_True by (split; [lia|done]).
    - by rewrite decide_False by (intros [_ ?]; congruence). }
  split; try done.
  { by rewrite (ords_replaced ixs x si). }
  { cbn [m_pc]. by rewrite Eo. }
  eapply idx_replaced; [done|done|exact H9| |].
  - exists (if si_ordered si then vis else si_rev si'). rewrite A2. split; [by rewrite A1|]. split; [|split; [|split; [done|]]].
    + destruct (si_ordered si); [done|]. apply (watched_base0 _ _ _ _ _ (watched_ext _ _ _ _ _ _ _ Hseen (fun k => eq_refl) I3)).
    + eapply watched_ext; [|reflexivity|exact I3]. intros q. rewrite Hseen. unfold seen_of. cbn [m_pc].
      by rewrite decide_False by (intros [? _]; lia).
    + intros q Hq. destruct (si_ordered si) eqn:Eord; [|done]. rewrite A1, moved_lookup.
      subst ch'. destruct (snd (apply si pk k b)) eqn:Ec; cbn [andb] in Hq.
      * apply not_elem_of_app in Hq as [Hq Hq2]. rewrite decide_False by (intros ->; apply Hq2; by left). by apply I5.
      * rewrite <- moved_lookup, (A5 eq_refl). by apply I5.
  - intros x' si2 ch2 Hne (vis2 & J1 & J2 & J3 & J4 & J5). exists vis2. split; [done|]. split; [done|]. split; [|by split].
    eapply watched_ext; [|reflexivity|exact J3]. intros q. unfold seen_of. cbn [m_pc].
    rewrite (decide_ext ((S x <= x')%nat /\ q = pk) ((x <= x')%nat /\ q = pk)); [done|].
    split; intros [? ->]; (split; [lia|done]).
Qed.

Lemma step_fold fr t g ixs x si drops changed : merge_inv fr t g ixs (MkMerger (MFold x) drops changed) ->
  ixs !! x = Some si -> steps_to t g ixs (MkMerger (MFold x) drops changed).
Proof.
  intros Hi Hx. destruct (iv_ix _ _ _ _ _ Hi) as [Hlen Hix]. cbn [m_changed] in *.
  destruct (lookup_lt_is_Some_2 changed x) as [ch Hch]; [rewrite <- Hlen; by eapply lookup_lt_Some|].
  pose proof (Hix _ _ _ Hx Hch) as (vis & I1 & I2 & I3 & I4 & I5). clear Hix.
  destruct Hi as [H1 H2 H3 H4 H5 _ _ _ H9]. cbn [m_pc m_drops m_changed] in *.
  cbn [mstep]. rewrite Hx, (index_Some _ _ _ Hch). cbn [mbind outcome_bind].
  set (si' := if si_ordered si && negb (length ch =? 0)%nat then mergeSorted si ch else si).
  assert (Hnew : idx_ok (kd_of ck (si_ordinals si)) si' (si_rev si) /\ si_ordinals si' = si_ordinals si /\ si_rev si' = si_rev si).
  { subst si'. destruct I1 as [C1 C2]. destruct (si_ordered si) eqn:Eo; cbn [andb].
    - destruct C2 as [C2 C3]. destruct (Nat.eqb_spec (length ch) 0) as [E|E]; cbn [negb].
      + assert (Ev : vis = si_rev si).
        { apply map_eq. intros q. symmetry. apply I5. apply nil_length_inv in E. subst ch. by intros ?%elem_of_nil. }
        subst vis. split; [|done]. split; [done|]. by rewrite Eo.
      + rewrite (mergeSorted_view _ si vis ch C3 C2 C1 I5). split; [|done]. split; [done|]. cbn. by rewrite Eo.
    - destruct C2 as [C2 C3]. split; [|done]. split; [done|]. by rewrite Eo. }
  destruct Hnew as (N1 & N2 & N3). eexists _, _, _, fr. split; [done|].
  assert (Eo : ords_of (<[x := si']> ixs) = ords_of ixs) by (unfold ords_of; by rewrite (ords_replaced ixs x si)).
  split; try done.
  { by rewrite (ords_replaced ixs x si). }
  rewrite <- (list_insert_id changed x ch Hch).
  eapply idx_replaced; [done|done|exact H9| |].
  - exists (si_rev si). rewrite N2, N3. split; [done|]. split; [|by split]. by eapply watched_base0.
  - intros x' si2 ch2 Hne (vis2 & J1 & J2 & J3 & J4 & J5). exists vis2. split; [done|]. split; [done|].
    split; [done|]. split; [|done]. cbn. intros Hlt. apply J4. cbn. lia.
Qed.

(** Dropping a consumed prefix. *)
Definition dropped (t : tbl_state) (i : nat) (s : tableShard) (nr nd : nat) : tbl_state :=
  MkTbl (<[i := drop_shard s nr nd]> (t_shards t)) (t_total t)
    (t_readDirty t + - Z.of_nat nr) (t_delDirty t + - Z.of_nat nd).

Lemma dropped_ok t g i s nr nd : tbl_ok None t g -> t_shards t !! i = Some s ->
  (nr <= length (s_dirtyRead s))%nat -> (nd <= length (s_dirtyDel s))%nat -> tbl_ok None (dropped t i s nr nd) g.
Proof.
  intros [(p & Hl & Hp) Hsh Ht [D1 D2] _ _ _] Hs Hr Hd.
  assert (Em : mask (dropped t i s nr nd) = mask t) by (unfold mask, zlen; cbn; by rewrite length_insert).
  split; rewrite ?Em; try done.
  - exists p. cbn. by rewrite length_insert.
  - cbn. intros j x. rewrite list_lookup_insert_Some. intros [(<- & <- & _)|[_ Hx]]; [|by apply Hsh].
    by eapply sh_ok_proj; [apply Hsh|..].
  - cbn [t_shards t_readDirty t_delDirty dropped]. rewrite !(fold_queue _ _ _ _ _ _ Hs), D1, D2. cbn. unfold zlen.
    rewrite !length_drop. lia.
Qed.

Lemma step_drop fr t g ixs i nr nd ds drops changed :
  merge_inv fr t g ixs (MkMerger (MDrop ((i, nr, nd) :: ds)) drops changed) ->
  steps_to t g ixs (MkMerger (MDrop ((i, nr, nd) :: ds)) drops changed).
Proof.
  intros [H1 H2 H3 H4 H5 _ _ _ H9]. cbn [m_pc m_drops m_changed pend_drops] in *.
  apply list.Forall_cons in H4 as [(s & Hs & Hr & Hd) H4]. cbn [fst snd] in *. cbn [map fst] in H5.
  apply list.NoDup_cons in H5 as [Hni H5]. cbn [mstep]. rewrite (index_Some _ _ _ Hs). cbn [mbind outcome_bind].
  fold (dropped t i s nr nd). eexists _, _, _, fr. split; [done|].
  assert (Em : forall k, idx (dropped t i s nr nd) k = idx t k).
  { intros k. unfold idx, mask, zlen. cbn. by rewrite length_insert. }
  split; try done; cbn [m_pc m_drops m_changed pend_drops].
  - by apply dropped_ok.
  - rewrite list.Forall_forall in H4 |- *. intros d Hdin. destruct (H4 d Hdin) as (s' & Hs' & Hb). exists s'.
    split; [|done]. cbn. rewrite list_lookup_insert_ne; [done|]. intros ->. apply Hni, list_elem_of_fmap. by exists d.
  - eapply Forall2_impl; [|exact H9]. cbv beta. intros xi ch (vis & I1 & I2 & I3 & I4 & I5). cbn [folded m_pc] in I4.
    pose proof (I4 I) as ->. exists (si_rev (snd xi)). split; [done|].
    assert (W : forall k s', t_shards (dropped t i s nr nd) !! idx (dropped t i s nr nd) k = Some s' ->
      watched_at (si_ordinals (snd xi)) (si_rev (snd xi) !! k)
        (base_of (MkMerger (MDrop ds) drops changed) (idx t k) k) (g !! k) s' k).
    { intros k s'. rewrite Em. cbn. intros Hs'. apply list_lookup_insert_Some in Hs'.
      unfold base_of. cbn [todo_of m_pc fst snd pend_drops]. rewrite decide_False by (intros [_ ?%elem_of_nil]; done).
      destruct Hs' as [(Ei & <- & _)|[Hne Hs']].
      - rewrite <- Ei, (drop_base_notin _ _ Hni). specialize (I3 k s). rewrite <- Ei in I3. specialize (I3 Hs).
        unfold base_of, seen_of in I3. cbn [todo_of m_pc fst snd pend_drops] in I3.
        rewrite decide_False in I3 by (intros [_ ?%elem_of_nil]; done). unfold drop_base in I3. cbn in I3.
        rewrite (proj2 (Nat.eqb_eq _ _) Ei) in I3. cbn in I3. destruct I3 as (_ & _ & I3).
        split; [cbn; lia|]. split; [cbn; lia|]. cbn. by rewrite !drop_0.
      - specialize (I3 k s' Hs'). unfold base_of, seen_of in I3. cbn [todo_of m_pc fst snd pend_drops] in I3.
        rewrite decide_False in I3 by (intros [_ ?%elem_of_nil]; done). unfold drop_base in I3 |- *. cbn in I3.
        rewrite (proj2 (Nat.eqb_neq _ _)) in I3 by done. exact I3. }
    split; [|split; [|by split]].
    + apply (watched_base0 _ _ (fun k => base_of (MkMerger (MDrop ds) drops changed) (idx t k) k)). exact W.
    + intros k s' Hs'. unfold seen_of. cbn [m_pc]. rewrite Em. by apply W.
Qed.

(** A merge never gets stuck before it is done. *)
Lemma inv_step fr t g ixs m : merge_inv fr t g ixs m -> m_pc m <> MDone -> steps_to t g ixs m.
Proof.
  intros Hi Hne. destruct m as [pc drops changed]. destruct pc as [i|i nr nd [|pk todo]|i nr nd todo pk pr ok x|x|[|[[i nr] nd] ds]|].
  - destruct (t_shards t !! i) as [s|] eqn:Hs; [by eapply step_shard|by eapply step_shard_end].
  - by eapply step_row_end.
  - by eapply step_fetch.
  - destruct (ixs !! x) as [si|] eqn:Hx; [by eapply step_apply|by eapply step_apply_end].
  - destruct (ixs !! x) as [si|] eqn:Hx; [by eapply step_fold|by eapply step_fold_end].
  - by eapply step_drop_end.
  - by eapply step_drop.
  - done.
Qed.

(** A write in the middle of a merge. *)
Lemma inv_write fr t g ixs m (w : option J) op t' w' a : merge_inv fr t g ixs m -> room 1 t -> op_wf def op ->
  run_op pkHashSeed def max t w op = Ok (t', w', a) ->
  (forall k r, getByPK pkHashSeed t' k = Ok (Some r) -> row_typed ck r) ->
  exists g', merge_inv fr t' g' ixs m.
Proof.
  intros [H1 H2 H3 H4 H5 H6 H7 H8 H9] Hr Hop Hrun Hty.
  destruct (write_watched t g w op t' w' a H1 Hr Hop Hrun) as (g' & Hg' & Hl & Hlow & Hw). exists g'.
  assert (Em : forall k, idx t' k = idx t k) by (intros k; unfold idx, mask, zlen; by rewrite Hl).
  split; try done.
  - intros k r Hk. apply (Hty k). by rewrite (getByPK_ok _ _ _ _ _ _ _ k Hg'), Hk.
  - rewrite list.Forall_forall in H4 |- *. intros d Hd. destruct (H4 d Hd) as (s & Hs & B1 & B2).
    destruct (lookup_lt_is_Some_2 (t_shards t') (fst (fst d))) as [s' Hs']; [rewrite Hl; by eapply lookup_lt_Some|].
    exists s'. split; [done|].
    destruct (Hlow (fun j => if decide (j = fst (fst d)) then (snd (fst d), snd d) else (0%nat, 0%nat))) with (i := fst (fst d)) (s := s') as [L1 L2]; [|done|].
    + intros j s0 Hs0. destruct (decide (j = fst (fst d))) as [->|]; [|cbn; lia]. rewrite Hs in Hs0. by injection Hs0 as <-.
    + rewrite decide_True in L1, L2 by done. done.
  - rewrite Forall2_idx in H9 |- *. destruct H9 as [Hlen H9]. split; [done|]. intros x si ch Hx Hch.
    destruct (H9 x si ch Hx Hch) as (vis & I1 & I2 & I3 & I4 & I5). exists vis. split; [done|].
    pose proof (ix_index_ords _ _ _ H3 Hx) as Ho. split; [by apply Hw|]. split; [|by split].
    eapply watched_ext; [reflexivity| |by apply Hw]. intros k. cbn. by rewrite Em.
Qed.

(** ** The overlay *)
Lemma live_pks_ok (pk : pkMap) gi l : pk_ok pkHashSeed pk gi ->
  live_pks pkHashSeed pk l = Ok (filter (fun k => is_Some (gi !! k)) l).
Proof.
  intros Hp. induction l as [|k l IH]; [done|]. cbn [live_pks]. rewrite (pk_get_ok _ _ _ k Hp), IH, list.filter_cons.
  destruct (gi !! k) eqn:E; cbn; [by rewrite decide_True|]. by rewrite decide_False by (by intros [? ?]).
Qed.
Lemma live_pks_shard t g i s : tbl_ok None t g -> t_shards t !! i = Some s ->
  exists d, live_pks pkHashSeed (s_pk s) (s_dirtyRead s) = Ok d /\
    forall k, k ∈ d <-> idx t k = i /\ is_Some (g !! k) /\ k ∈ s_dirtyRead s.
Proof.
  intros Ht Hs. destruct (sh_rows _ _ _ _ (shard_at _ _ _ _ Ht Hs)) as (gi & Hpk & Ho).
  eexists. split; [by apply live_pks_ok|]. intros k. rewrite list_elem_of_filter.
  enough (E : is_Some (gi !! k) <-> idx t k = i /\ is_Some (g !! k)) by tauto. split.
  - intros [z Hz]. destruct (ro_id _ _ _ _ Ho _ _ Hz) as (n & r & -> & Hn & <-).
    destruct (ro_row _ _ _ _ Ho _ _ Hn) as [_ Hm]. rewrite part_lookup in Hm. unfold idx. case_decide; [|done].
    split; [done|by eexists].
  - intros [Hi [r Hr]]. eapply ro_dom; [exact Ho|]. rewrite part_lookup. by rewrite decide_True.
Qed.
Lemma dirty_zero (l : list tableShard) : fold_left (fun z s => z + zlen (s_dirtyRead s)) l 0 = 0 ->
  Forall (fun s => s_dirtyRead s = []) l.
Proof.
  assert (G : forall l z, z <= fold_left (fun z s => z + zlen (s_dirtyRead s)) l z).
  { induction l0 as [|s l0 IH]; intros z; [done|]. cbn [fold_left]. specialize (IH (z + zlen (s_dirtyRead s))).
    pose proof (zlen_pos (s_dirtyRead s)). lia. }
  induction l as [|s l IH]; [constructor|]. cbn [fold_left]. intros E.
  pose proof (G l (0 + zlen (s_dirtyRead s))). pose proof (zlen_pos (s_dirtyRead s)).
  assert (E0 : zlen (s_dirtyRead s) = 0) by lia. rewrite E0 in E. constructor; [|by apply IH].
  unfold zlen in E0. apply nil_length_inv. lia.
Qed.
Lemma dirtyPKs_ok t g : tbl_ok None t g -> exists d, dirtyPKs pkHashSeed t = Ok d /\
  forall k, k ∈ d <-> is_Some (g !! k) /\ exists s, t_shards t !! idx t k = Some s /\ k ∈ s_dirtyRead s.
Proof.
  intros Ht. unfold dirtyPKs. destruct (Z.eqb_spec (t_readDirty t) 0) as [E|E].
  - exists []. split; [done|]. intros k. split; [by intros ?%elem_of_nil|]. intros (_ & s & Hs & Hk).
    rewrite (proj1 (tb_dirty _ _ _ _ _ _ _ Ht)) in E. apply dirty_zero in E.
    rewrite (Forall_lookup_1 _ _ _ _ E Hs) in Hk. by apply elem_of_nil in Hk.
  - assert (G : forall l off, (forall i s, l !! i = Some s -> t_shards t !! (off + i)%nat = Some s) ->
      exists d, dirty_shards pkHashSeed l = Ok d /\ forall k, k ∈ d <-> is_Some (g !! k) /\
        exists i s, l !! i = Some s /\ idx t k = (off + i)%nat /\ k ∈ s_dirtyRead s).
    { induction l as [|s l IH]; intros off Hl.
      - exists []. split; [done|]. intros k. split; [by intros ?%elem_of_nil|]. by intros (_ & i & s & ? & _).
      - destruct (live_pks_shard t g (off + 0) s Ht (Hl 0%nat s eq_refl)) as (d1 & E1 & H1).
        destruct (IH (S off)) as (d2 & E2 & H2). { intros i s' Hs'. rewrite <- (Hl (S i) s' Hs'). f_equal. lia. }
        cbn [dirty_shards]. rewrite E1. cbn [mbind outcome_bind]. rewrite E2. cbn [mbind outcome_bind].
        eexists. split; [done|]. intros k. rewrite elem_of_app, H1, H2. split.
        + intros [(? & ? & ?)|(? & i & s' & ? & ? & ?)]; (split; [done|]); [by exists 0%nat, s|].
          exists (S i), s'. split; [done|]. split; [lia|done].
        + intros (? & [|i] & s' & Hs' & ? & ?); [left|right].
          * cbn in Hs'. by injection Hs' as ->.
          * split; [done|]. exists i, s'. split; [done|]. split; [lia|done]. }
    destruct (G (t_shards t) 0%nat) as (d & -> & Hd); [done|]. exists d. split; [done|]. intros k. rewrite Hd.
    split; intros [Hl Hx]; (split; [done|]).
    + destruct Hx as (i & s & Hs & Ei & Hk). exists s. by rewrite Ei.
    + destruct Hx as (s & Hs & Hk). by exists (idx t k), s.
Qed.

(** What a reader that consults both finds, at any point of a merge. *)
Definition covered (t : tbl_state) (ixs : list secIndex) : Prop :=
  exists d, dirtyPKs pkHashSeed t = Ok d /\
  forall x si k r key, ixs !! x = Some si -> getByPK pkHashSeed t k = Ok (Some r) ->
    key_of (si_ordinals si) r = Some key -> k ∈ lookup si key \/ k ∈ d.

Lemma inv_covered fr t g ixs m : merge_inv fr t g ixs m -> covered t ixs.
Proof.
  intros Hi. destruct (iv_ix _ _ _ _ _ Hi) as [Hlen Hix]. destruct Hi as [H1 H2 H3 _ _ _ _ _ _].
  destruct (dirtyPKs_ok t g H1) as (d & Hd & Hin). exists d. split; [done|]. intros x si k r key Hx Hk Hkey.
  destruct (lookup_lt_is_Some_2 (m_changed m) x) as [ch Hch]; [rewrite <- Hlen; by eapply lookup_lt_Some|].
  destruct (Hix _ _ _ Hx Hch) as (vis & I1 & I2 & _). rewrite (getByPK_ok _ _ _ _ _ _ _ k H1) in Hk. injection Hk as Hk.
  destruct (lookup_row pkHashSeed def max None ext t g k H1) as (s & Hs & G). rewrite Hk in G.
  destruct G as (_ & _ & _ & _ & _ & Hv). destruct (I2 k s Hs) as (_ & _ & W). rewrite Hk in W. cbn in W. rewrite drop_0 in W.
  destruct W as [W|W]; [left|right; apply Hin; split; [by eexists|by exists s]].
  apply (lookup_pks _ si vis key I1); [|by rewrite W, Hkey]. eapply key_of_canon; [exact Hv|by eapply H2|done].
Qed.

(** ** Histories: merges, writes and new merges in any order *)
Record sys : Type := MkSys {
  y_t : tbl_state;
  y_ix : list secIndex;
  y_m : merger;
  y_w : option J;
}.
Inductive sys_step : sys -> sys -> Prop :=
  | ss_merge t ixs m w t' ixs' m' : m_pc m <> MDone -> mstep pkHashSeed t ixs m = Ok (t', ixs', m') ->
      sys_step (MkSys t ixs m w) (MkSys t' ixs' m' w)
  | ss_start t ixs m w : m_pc m = MDone -> sys_step (MkSys t ixs m w) (MkSys t ixs (merge_start ixs) w)
  | ss_write t ixs m w op t' w' a : op_wf def op -> room 1 t ->
      run_op pkHashSeed def max t w op = Ok (t', w', a) ->
      (forall k r, getByPK pkHashSeed t' k = Ok (Some r) -> row_typed ck r) ->
      sys_step (MkSys t ixs m w) (MkSys t' ixs m w').
Definition sys_inv (y : sys) : Prop := exists fr g, merge_inv fr (y_t y) g (y_ix y) (y_m y).

Lemma inv_done_start fr t g ixs m : merge_inv fr t g ixs m -> m_pc m = MDone ->
  merge_inv None t g ixs (merge_start ixs).
Proof.
  intros Hi Hpc. destruct (iv_ix _ _ _ _ _ Hi) as [Hlen Hix]. destruct Hi as [H1 H2 H3 _ _ _ _ _ _].
  apply inv_start; try done. apply Forall_lookup. intros x si Hx.
  destruct (lookup_lt_is_Some_2 (m_changed m) x) as [ch Hch]; [rewrite <- Hlen; by eapply lookup_lt_Some|].
  destruct (Hix _ _ _ Hx Hch) as (vis & I1 & I2 & _ & I4 & _). unfold folded in I4. rewrite Hpc in I4.
  by rewrite (I4 I) in I1, I2.
Qed.
Lemma sys_inv_step y y' : sys_inv y -> sys_step y y' -> sys_inv y'.
Proof.
  intros (fr & g & Hi) Hs. destruct Hs as [t ixs m w t' ixs' m' Hne Hst|t ixs m w Hd|t ixs m w op t' w' a Hop Hr Hrun Hty]; cbn in Hi.
  - destruct (inv_step fr t g ixs m Hi Hne) as (t2 & ixs2 & m2 & fr' & E & Hi'). rewrite Hst in E. injection E as <- <- <-.
    by exists fr', g.
  - exists None, g. by eapply inv_done_start.
  - destruct (inv_write fr t g ixs m w op t' w' a Hi Hr Hop Hrun Hty) as [g' Hi']. by exists fr, g'.
Qed.
Lemma sys_inv_rtc y y' : sys_inv y -> rtc sys_step y y' -> sys_inv y'.
Proof. intros Hi. induction 1; [done|]. by eauto using sys_inv_step. Qed.

(** ** A merge comes to an end *)
Definition rank (nsh nix : nat) (m : merger) : nat * nat * nat :=
  match m_pc m with
  | MShard i => (3, 2 * (nsh - i), 0)
  | MRow i _ _ todo => (3, 2 * (nsh - i) - 1, length todo * (nix + 2))
  | MApply i _ _ todo _ _ _ x => (3, 2 * (nsh - i) - 1, length todo * (nix + 2) + 1 + (nix - x))
  | MFold x => (2, nix - x, 0)
  | MDrop ds => (1, length ds, 0)
  | MDone => (0, 0, 0)
  end%nat.
Definition lex3 (a b : nat * nat * nat) : Prop :=
  (fst (fst a) < fst (fst b))%nat \/ fst (fst a) = fst (fst b) /\
    ((snd (fst a) < snd (fst b))%nat \/ snd (fst a) = snd (fst b) /\ (snd a < snd b)%nat).
Lemma lex3_wf : well_founded lex3.
Proof.
  intros [[a b] c]. revert b c. induction a as [a IHa] using lt_wf_ind. intros b.
  induction b as [b IHb] using lt_wf_ind. intros c. induction c as [c IHc] using lt_wf_ind.
  constructor. intros [[a' b'] c'] H'. unfold lex3 in H'. cbn in H'.
  destruct H' as [?|[-> [?|[-> ?]]]]; [by apply IHa|by apply IHb|by apply IHc].
Qed.

Lemma rank_step fr t g ixs m t' ixs' m' : merge_inv fr t g ixs m -> m_pc m <> MDone ->
  mstep pkHashSeed t ixs m = Ok (t', ixs', m') ->
  lex3 (rank (length (t_shards t')) (length ixs') m') (rank (length (t_shards t)) (length ixs) m).
Proof.
  intros Hi Hne. assert (Hrow : forall i nr nd, (i, nr, nd) ∈ pend_drops m -> (i < length (t_shards t))%nat).
  { intros i nr nd Hin. pose proof (iv_drops _ _ _ _ _ Hi) as Hd. rewrite list.Forall_forall in Hd.
    destruct (Hd _ Hin) as (s & Hs & _). by eapply lookup_lt_Some. }
  destruct m as [pc drops changed]. unfold rank, lex3, pend_drops in *.
  destruct pc as [i|i nr nd [|pk todo]|i nr nd todo pk pr ok x|x|[|[[i nr] nd] ds]|]; cbn [mstep m_pc m_drops] in *; intros E.
  - destruct (t_shards t !! i) as [s|] eqn:Hs; injection E as <- <- <-; cbn.
    + apply lookup_lt_Some in Hs. destruct (_ =? 0)%nat; cbn; right; (split; [done|]); left; lia.
    + destruct (_ =? 0)%nat; cbn; left; lia.
  - injection E as <- <- <-. cbn. right. split; [done|]. left.
    specialize (Hrow i nr nd ltac:(apply elem_of_app; right; by left)). lia.
  - inv_bind. cbn. right. split; [done|]. right. split; [done|]. lia.
  - destruct (ixs !! x) as [si|] eqn:Hx; [inv_bind; cbn|injection E as <- <- <-; cbn];
      right; (split; [done|]); right; (split; [done|]); rewrite ?length_insert; [apply lookup_lt_Some in Hx; lia|lia].
  - destruct (ixs !! x) as [si|] eqn:Hx; [inv_bind; cbn|injection E as <- <- <-; cbn; left; lia].
    right. split; [done|]. left. rewrite length_insert. apply lookup_lt_Some in Hx. lia.
  - injection E as <- <- <-. cbn. left. lia.
  - inv_bind. cbn. right. split; [done|]. left. lia.
  - done.
Qed.
End merge_ok.
