(* ===== verification/MergeSafe.v ===== *)
(** * MergeSafe: what the asynchronous index maintenance guarantees, from the
    rebuild at boot through any interleaving of writes and merges. *)
From S2P Require Import Prelude Bytes Order Uuid Value CompositeKey PkMap Codec Frame Journal Schema SecIndex IndexOk Store StoreOk StoreSim Merge MergeOk.

Section safe.
Context (pkHashSeed : Z) {J : Type} `{Journal J} (def : resolvedTable) (max ext : Z) (ck : nat -> ValueKind).
Local Abbreviation ncols := (length (t_Columns (rt_def def))).
Hypothesis pk_in : (pkOrd def < ncols)%nat.
Hypothesis has_index : 0 < nIndexes def.
Hypothesis ords_in : Forall (fun ri => Forall (fun o => (o < ncols)%nat) (ri_ordinals ri)) (rt_indexes def).
Local Abbreviation tbl_ok := (tbl_ok pkHashSeed def max None ext).
Local Abbreviation pkof := (pkof def).
Local Abbreviation row_wf := (row_wf def).

(** ** Rebuilding *)
Lemma get_cells_of r ords : Forall (fun o => (o < length r)%nat) ords -> get_cells r ords = Ok (cells_of ords r).
Proof.
  induction 1 as [|o ords Hlt _ IH]; [done|]. destruct (lookup_lt_is_Some_2 r o Hlt) as [v E]. cbn.
  rewrite (index_Some _ _ _ E). cbn. rewrite IH. cbn. by rewrite E.
Qed.
Lemma row_key_ok ords r : Forall value_ok r -> Forall (fun o => (o < length r)%nat) ords ->
  row_key ords r = Ok (key_of ords r).
Proof.
  intros Hv Ho. unfold row_key. destruct (decide (length ords = 1%nat)) as [E|E].
  - destruct ords as [|o [|? ?]]; [done| |done]. apply list.Forall_cons in Ho as [Hlt _].
    destruct (lookup_lt_is_Some_2 r o Hlt) as [v Eo]. rewrite (index_Some _ _ _ Eo). cbn [mbind outcome_bind].
    unfold key_of, cells_of, keyFromCells, keyFromCellsInto. cbn [length Nat.eqb].
    change (index _ 0) with (Ok (default Null (r !! o))). rewrite Eo. cbn. by destruct (IsNull v).
  - destruct (keyFromCells_key ck ords r Hv) as (k & b & Ek & Eb & _).
    rewrite (get_cells_of r ords Ho). cbn [mbind outcome_bind]. rewrite Ek. cbn [mbind outcome_bind fst snd].
    rewrite Eb. by destruct ords as [|o [|o' ords]].
Qed.

Lemma rebuild_fold ords ordered l : Forall (fun o => (o < ncols)%nat) ords -> Forall row_wf l -> NoDup (pkof <$> l) ->
  forall fwd rev, (forall k, k ∈ pkof <$> l -> rev !! k = None) ->
  exists fwd' rev', fold_left (rebuild_row def ords ordered) l (Ok (fwd, rev)) = Ok (fwd', rev') /\
    (ordered = true -> fwd' = fwd) /\ (ordered = false -> hash_ok fwd rev -> hash_ok fwd' rev') /\
    (forall r, r ∈ l -> rev' !! pkof r = key_of ords r) /\
    (forall k, k ∉ pkof <$> l -> rev' !! k = rev !! k).
Proof.
  intros Ho. induction 1 as [|r l Hr Hl IH]; intros Hnd fwd rev Hnew.
  { exists fwd, rev. split_and!; try done. by intros ? ?%elem_of_nil. }
  cbn [fmap list_fmap] in Hnd, Hnew. apply list.NoDup_cons in Hnd as [Hni Hnd].
  assert (Hrn : rev !! pkof r = None) by (apply Hnew; by left).
  assert (Es : rebuild_row def ords ordered (Ok (fwd, rev)) r = Ok (match key_of ords r with
      | None => (fwd, rev)
      | Some key => (if ordered then fwd else <[key := bucket fwd key ++ [pkof r]]> fwd, <[pkof r := key]> rev) end)).
  { unfold rebuild_row. cbn [mbind outcome_bind]. destruct (index_pk def r Hr pk_in) as (v & -> & Ev).
    cbn [mbind outcome_bind]. rewrite row_key_ok; [|by apply Hr|].
    - cbn [mbind outcome_bind fst snd]. by rewrite Ev.
    - eapply Forall_impl; [|exact Ho]. cbv beta. intros o Hlt. by rewrite (proj1 Hr). }
  cbn [fold_left]. rewrite Es. clear Es. destruct (key_of ords r) as [key|] eqn:Ek.
  - destruct (IH Hnd (if ordered then fwd else <[key := bucket fwd key ++ [pkof r]]> fwd) (<[pkof r := key]> rev))
      as (fwd' & rev' & E & P1 & P2 & P3 & P4).
    { intros k Hk. rewrite lookup_insert_ne by (by intros <-). apply Hnew. by right. }
    exists fwd', rev'. split; [done|]. split; [intros ->; by apply P1|]. split; [|split].
    + intros -> Hh. apply P2; [done|]. by apply hash_add.
    + intros x [->|Hx]%elem_of_cons; [|by apply P3]. by rewrite P4, lookup_insert_eq.
    + intros k [Hne Hk]%not_elem_of_cons. by rewrite P4, lookup_insert_ne.
  - destruct (IH Hnd fwd rev) as (fwd' & rev' & E & P1 & P2 & P3 & P4).
    { intros k Hk. apply Hnew. by right. }
    exists fwd', rev'. split; [done|]. split; [done|]. split; [done|]. split.
    + intros x [->|Hx]%elem_of_cons; [|by apply P3]. by rewrite P4, Hrn.
    + intros k [Hne Hk]%not_elem_of_cons. by apply P4.
Qed.

Lemma scan_fold {A} (f : A -> Row -> A) l : forall a,
  fst (scan_rows (Some <$> l) (fun a r => (f a r, true)) a) = fold_left f l a.
Proof. induction l as [|r l IH]; intros a; [done|]. cbn. apply IH. Qed.

Definition rows_of (t : tbl_state) : list Row := snd <$> live_cells t.
Lemma rows_of_ok t g : tbl_ok t g -> NoDup (pkof <$> rows_of t) /\ Forall row_wf (rows_of t) /\
  forall r, r ∈ rows_of t <-> g !! pkof r = Some r.
Proof.
  intros Ht. pose proof (live_cells_perm pkHashSeed def max None ext pk_in t g Ht) as P. unfold rows_of.
  assert (Ek : (pkof <$> (snd <$> live_cells t)) ≡ₚ (map_to_list g).*1).
  { rewrite <- P, <- !list_fmap_compose. done. }
  assert (Hin : forall r, r ∈ snd <$> live_cells t <-> g !! pkof r = Some r).
  { intros r. rewrite list_elem_of_fmap. split.
    - intros (c & -> & Hc). apply live_cells_elem in Hc. by apply (live_cell_ok pkHashSeed def max None ext t g c Ht).
    - intros Hg. apply elem_of_map_to_list in Hg. rewrite <- P in Hg. apply list_elem_of_fmap in Hg as (c & E & Hc).
      exists c. split; [by apply (f_equal snd) in E|done]. }
  split; [rewrite Ek; apply NoDup_fst_map_to_list|]. split; [|done]. apply list.Forall_forall. intros r Hr%Hin.
  destruct (lookup_row pkHashSeed def max None ext t g (pkof r) Ht) as (s & _ & G). rewrite Hr in G.
  by destruct G as (_ & _ & _ & _ & ?).
Qed.

(** After a rebuild each index is exactly the keys of the rows. *)
Definition key_map (g : gmap UUID Row) (ords : list nat) (m : gmap UUID indexKey) : Prop :=
  forall k, m !! k = g !! k ≫= key_of ords.

Lemma key_map_canon g ords m : map_Forall (fun _ r => Forall value_ok r /\ row_typed ck r) g -> key_map g ords m ->
  canon_map (kd_of ck ords) m.
Proof.
  intros Hg Hm k key. rewrite Hm. destruct (g !! k) as [r|] eqn:E; [|done]. cbn. destruct (Hg _ _ E).
  by apply key_of_canon.
Qed.
Lemma rows_good t g : tbl_ok t g -> map_Forall (fun _ => row_typed ck) g ->
  map_Forall (fun _ r => Forall value_ok r /\ row_typed ck r) g.
Proof.
  intros Ht Hty k r Hk. split; [|by eapply Hty].
  destruct (lookup_row pkHashSeed def max None ext t g k Ht) as (s & _ & G). rewrite Hk in G.
  by destruct G as (_ & _ & _ & _ & _ & ?).
Qed.

Lemma rebuild_index_ok t g si : tbl_ok t g -> map_Forall (fun _ => row_typed ck) g ->
  Forall (fun o => (o < ncols)%nat) (si_ordinals si) ->
  exists si', rebuild_index def t si = Ok si' /\ si_ordinals si' = si_ordinals si /\
    idx_ok (kd_of ck (si_ordinals si)) si' (si_rev si') /\ key_map g (si_ordinals si) (si_rev si').
Proof.
  intros Ht Hty Ho. unfold rebuild_index. rewrite (scanAll_live def pk_in).
  change (fun c : nat * nat * Row => Some (snd c)) with (Some ∘ @snd (nat * nat) Row).
  rewrite (list_fmap_compose snd Some (live_cells t)), scan_fold. fold (rows_of t).
  destruct (rows_of_ok t g Ht) as (Hnd & Hwf & Hin).
  destruct (rebuild_fold (si_ordinals si) (si_ordered si) (rows_of t) Ho Hwf Hnd ∅ ∅) as (fwd & rev & E & P1 & P2 & P3 & P4).
  { intros k _. apply lookup_empty. }
  rewrite E. cbn [mbind outcome_bind fst snd].
  assert (Hm : key_map g (si_ordinals si) rev).
  { intros k. destruct (g !! k) as [r|] eqn:Hk.
    - assert (Epk : pkof r = k).
      { destruct (lookup_row pkHashSeed def max None ext t g k Ht) as (s & _ & G). rewrite Hk in G. by destruct G as (_ & _ & _ & ? & _). }
      cbn. rewrite <- Epk in Hk |- *. by apply P3, Hin.
    - rewrite P4; [done|]. intros (r & -> & Hr%Hin)%list_elem_of_fmap. congruence. }
  pose proof (key_map_canon g _ _ (rows_good t g Ht Hty) Hm) as Hc.
  eexists. split; [done|]. destruct (si_ordered si) eqn:Eo.
  - rewrite (rebuildSorted_view (kd_of ck (si_ordinals si))) by exact Hc. split; [done|]. split; [|done]. by split.
  - split; [done|]. split; [|done]. split; [done|]. cbn. split; [|done]. apply P2; [done|]. intros k. unfold bucket.
    rewrite lookup_empty. split; [constructor|]. intros pk. rewrite lookup_empty. split; [by intros ?%elem_of_nil|done].
Qed.
Lemma rebuild_all_ok t g ixs : tbl_ok t g -> map_Forall (fun _ => row_typed ck) g ->
  Forall (fun si => Forall (fun o => (o < ncols)%nat) (si_ordinals si)) ixs ->
  exists ixs', rebuild_all def t ixs = Ok ixs' /\ map si_ordinals ixs' = map si_ordinals ixs /\
    Forall (fun si => idx_ok (kd_of ck (si_ordinals si)) si (si_rev si) /\ key_map g (si_ordinals si) (si_rev si)) ixs'.
Proof.
  intros Ht Hty. induction 1 as [|si ixs Hsi _ (ixs' & E & Eo & Hi)]; [by exists []|].
  destruct (rebuild_index_ok t g si Ht Hty Hsi) as (si' & E1 & E2 & I1 & I2). cbn [rebuild_all]. rewrite E1.
  cbn [mbind outcome_bind]. rewrite E. cbn [mbind outcome_bind]. eexists. split; [done|]. cbn. rewrite E2, Eo.
  split; [done|]. constructor; [by rewrite E2|done].
Qed.

Definition quiet (t : tbl_state) : Prop := Forall (fun s => s_dirtyRead s = [] /\ s_dirtyDel s = []) (t_shards t).

Lemma quiet_count (f : tableShard -> list UUID) (l : list tableShard) : Forall (fun s => f s = []) l ->
  fold_left (fun z s => z + zlen (f s)) l 0 = 0.
Proof. induction 1 as [|s l E _ IH]; [done|]. cbn [fold_left]. by rewrite E. Qed.

Lemma cleared_ok t g : tbl_ok t g ->
  tbl_ok (MkTbl (map (fun s => MkShard (s_rows s) (s_pk s) (s_live s) (s_bytes s) [] []) (t_shards t)) (t_total t) 0 0) g.
Proof.
  intros [(p & Hl & Hp) Hsh Ht _ _ _ _]. set (t' := MkTbl _ _ _ _).
  assert (Em : mask t' = mask t) by (unfold mask, zlen; cbn; by rewrite length_map).
  split; rewrite ?Em; try done.
  - exists p. cbn. by rewrite length_map.
  - cbn. intros i s Hs. apply list_lookup_fmap_Some in Hs as (s0 & -> & Hs0). by eapply sh_ok_proj; [apply Hsh|..].
  - cbn. split; symmetry; apply quiet_count; apply list.Forall_forall; intros s (s0 & -> & _)%list_elem_of_fmap; done.
Qed.

Lemma rebuild_inv t0 ixs0 g t ixs : tbl_ok t0 g -> map_Forall (fun _ => row_typed ck) g ->
  map si_ordinals ixs0 = map ri_ordinals (rt_indexes def) -> rebuildIndexes def t0 ixs0 = Ok (t, ixs) ->
  merge_inv pkHashSeed def max ext ck None t g ixs (merge_start ixs) /\ quiet t.
Proof.
  intros Ht Hty Ho. unfold rebuildIndexes. destruct (Nat.eqb_spec (length ixs0) 0) as [E0|E0].
  { apply nil_length_inv in E0. subst ixs0. symmetry in Ho. apply fmap_nil_inv in Ho.
    unfold nIndexes in has_index. by rewrite Ho in has_index. }
  destruct (rebuild_all_ok t0 g ixs0 Ht Hty) as (ixs' & E & Eo & Hi).
  { apply list.Forall_forall. intros si Hsi. apply (index_ords_lt def ords_in). unfold index_ords. rewrite <- Ho.
    apply list_elem_of_fmap. by exists si. }
  rewrite E. cbn [mbind outcome_bind]. intros [= <- <-]. pose proof (cleared_ok t0 g Ht) as Hc.
  assert (Hq : quiet (MkTbl (map (fun s => MkShard (s_rows s) (s_pk s) (s_live s) (s_bytes s) [] []) (t_shards t0)) (t_total t0) 0 0)).
  { apply list.Forall_forall. intros s (s0 & -> & _)%list_elem_of_fmap. done. }
  split; [|done]. apply inv_start; [done|done|by rewrite Eo|].
  eapply Forall_impl; [|exact Hi]. cbv beta. intros si [I1 I2]. split; [done|]. intros k s Hs.
  split; [cbn; lia|]. split; [cbn; lia|]. rewrite (I2 k). destruct (g !! k); by left.
Qed.

(** ** The system from boot on *)
Record booted (y : sys (J := J)) : Prop := {
  bo_tab : exists t0 ixs0 g, tbl_ok t0 g /\ map_Forall (fun _ => row_typed ck) g /\
    map si_ordinals ixs0 = map ri_ordinals (rt_indexes def) /\
    rebuildIndexes def t0 ixs0 = Ok (y_t y, y_ix y);
  bo_idle : y_m y = merge_start (y_ix y);
}.
Local Abbreviation sys_step := (sys_step pkHashSeed def max ck).
Local Abbreviation sys_inv := (sys_inv pkHashSeed def max ext ck).

Lemma booted_inv y : booted y -> sys_inv y.
Proof.
  intros [(t0 & ixs0 & g & Ht & Hty & Ho & E) Em]. exists None, g. rewrite Em.
  by eapply rebuild_inv.
Qed.
Lemma reach_inv y y' : booted y -> rtc sys_step y y' -> sys_inv y'.
Proof. intros Hb. apply (sys_inv_rtc pkHashSeed def max ext ck pk_in has_index ords_in). by apply booted_inv. Qed.

(** Nothing of a merge is under way: it ended, or is about to begin. *)
Definition idle (y : sys (J := J)) : Prop := m_pc (y_m y) = MDone \/ y_m y = merge_start (y_ix y).
Lemma idle_inv y : sys_inv y -> idle y -> exists fr g, merge_inv pkHashSeed def max ext ck fr (y_t y) g (y_ix y) (merge_start (y_ix y)).
Proof. intros (fr & g & Hi) [E|E]; [exists None, g; by eapply inv_done_start|exists fr, g; by rewrite <- E]. Qed.

(** ** One merge, alone *)

(** The shards the merge has been at are consumed to the end, or were empty. *)
Definition seq_inv (t : tbl_state) (m : merger) : Prop :=
  (match m_pc m with MShard i | MRow i _ _ _ | MApply i _ _ _ _ _ _ _ => (i <= length (t_shards t))%nat | _ => True end) /\
  forall i s, t_shards t !! i = Some s ->
    match m_pc m with
    | MShard i' => (i < i')%nat
    | MRow i' _ _ _ | MApply i' _ _ _ _ _ _ _ => (i <= i')%nat
    | _ => True
    end ->
    (s_dirtyRead s = [] /\ s_dirtyDel s = []) \/
    (i, length (s_dirtyRead s), length (s_dirtyDel s)) ∈ pend_drops m.

Lemma seq_step fr t g ixs m t' ixs' m' : merge_inv pkHashSeed def max ext ck fr t g ixs m -> m_pc m <> MDone ->
  seq_inv t m -> mstep pkHashSeed t ixs m = Ok (t', ixs', m') -> seq_inv t' m'.
Proof.
  intros Hi Hne (Hb & Hq). destruct m as [pc drops changed]. unfold seq_inv, pend_drops in *. cbn [m_pc m_drops] in *.
  destruct pc as [i|i nr nd [|pk todo]|i nr nd todo pk pr ok x|x|[|[[i nr] nd] ds]|]; cbn [mstep] in *; intros E.
  - destruct (t_shards t !! i) as [s|] eqn:Hs; injection E as <- <- <-; cbn [m_pc m_drops].
    + pose proof (lookup_lt_Some _ _ _ Hs) as Hlt.
      rewrite !take_ge by done. destruct (Nat.eqb_spec (length (s_dirtyRead s ++ s_dirtyDel s)) 0) as [El|El].
      * split; [lia|]. intros j s' Hs' Hj. destruct (decide (j = i)) as [->|]; [|apply Hq; [done|lia]].
        rewrite Hs in Hs'. injection Hs' as <-. left. apply nil_length_inv, app_nil in El. done.
      * split; [lia|]. intros j s' Hs' Hj. rewrite elem_of_app.
        destruct (decide (j = i)) as [->|]; [|destruct (Hq j s' Hs' ltac:(lia)); auto].
        rewrite Hs in Hs'. injection Hs' as <-. right. right. by left.
    + assert (Hall : forall j s, t_shards t !! j = Some s -> (j < i)%nat).
      { intros j s Hj. apply lookup_ge_None in Hs. apply lookup_lt_Some in Hj. lia. }
      destruct (Nat.eqb_spec (length drops) 0) as [El|El]; cbn [m_pc m_drops].
      * apply nil_length_inv in El. subst drops. split; [done|]. intros j s Hj _. by apply Hq, Hall with s.
      * split; [done|]. intros j s Hj _. by eapply Hq, Hall.
  - injection E as <- <- <-. cbn [m_pc m_drops]. split.
    { pose proof (iv_drops _ _ _ _ _ _ _ _ _ _ Hi) as Hd. unfold pend_drops in Hd. cbn in Hd.
      apply Forall_app in Hd as [_ Hd]. inversion Hd as [|? ? (s & Hs & _) _]; subst. apply lookup_lt_Some in Hs. cbn in Hs. lia. }
    intros j s Hj Hlt. apply Hq; [done|lia].
  - inv_bind. done.
  - destruct (ixs !! x) as [si|]; [inv_bind|injection E as <- <- <-]; done.
  - destruct (ixs !! x) as [si|]; [inv_bind|injection E as <- <- <-]; done.
  - injection E as <- <- <-. cbn. done.
  - pose proof (iv_drops _ _ _ _ _ _ _ _ _ _ Hi) as Hd. unfold pend_drops in Hd. cbn in Hd.
    apply list.Forall_cons in Hd as [(s & Hs & Hr & Hdl) _]. cbn in Hs, Hr, Hdl.
    rewrite (index_Some _ _ _ Hs) in E. cbn [mbind outcome_bind] in E. injection E as <- <- <-. cbn [m_pc m_drops t_shards].
    pose proof (iv_nodup _ _ _ _ _ _ _ _ _ _ Hi) as Hnd. unfold pend_drops in Hnd. cbn in Hnd.
    apply list.NoDup_cons in Hnd as [Hni _].
    split; [done|]. intros j s' Hj _. apply list_lookup_insert_Some in Hj as [(<- & <- & _)|[Hne' Hj]].
    + left. cbn. destruct (Hq i s Hs I) as [[-> ->]|Hin]; [by rewrite !drop_nil|].
      apply elem_of_cons in Hin as [[= <- <-]|Hin]; [by rewrite !drop_all|].
      destruct Hni. apply list_elem_of_fmap. eexists; (split; [|exact Hin]); done.
    + destruct (Hq j s' Hj I) as [?|Hin]; [by left|]. right. apply elem_of_cons in Hin as [[= ? _ _]|?]; [congruence|done].
  - done.
Qed.

Lemma seq_done t m : m_pc m = MDone -> seq_inv t m -> quiet t.
Proof.
  intros E (_ & Hq). apply Forall_lookup. intros i s Hs. specialize (Hq i s Hs). rewrite E in Hq.
  destruct (Hq I) as [?|Hin]; [done|]. unfold pend_drops in Hin. rewrite E in Hin. by apply elem_of_nil in Hin.
Qed.

Lemma merge_run_S fuel t ixs m : m_pc m <> MDone -> merge_run pkHashSeed (S fuel) t ixs m =
  (mstep pkHashSeed t ixs m ≫= (fun x => let '(t, ixs, m) := x in merge_run pkHashSeed fuel t ixs m)).
Proof. cbn [merge_run]. by destruct (m_pc m). Qed.

Lemma merge_runs fr t g ixs m : merge_inv pkHashSeed def max ext ck fr t g ixs m -> seq_inv t m ->
  exists fuel t' ixs' m' fr', merge_run pkHashSeed fuel t ixs m = Ok (Some (t', ixs')) /\ m_pc m' = MDone /\
    merge_inv pkHashSeed def max ext ck fr' t' g ixs' m' /\ quiet t'.
Proof.
  remember (rank (length (t_shards t)) (length ixs) m) as rk eqn:Erk. revert fr t ixs m Erk.
  induction (lex3_wf rk) as [rk _ IH]. intros fr t ixs m -> Hi Hq.
  assert (m_pc m = MDone \/ m_pc m <> MDone) as [E|E] by (destruct (m_pc m); auto).
  { exists 0%nat, t, ixs, m, fr. cbn. rewrite E. split_and!; try done. by eapply seq_done. }
  destruct (inv_step pkHashSeed def max ext ck pk_in ords_in fr t g ixs m Hi E) as (t1 & ixs1 & m1 & fr1 & Es & Hi1).
  destruct (IH _ (rank_step pkHashSeed def max ext ck pk_in fr t g ixs m _ _ _ Hi E Es) fr1 t1 ixs1 m1 eq_refl Hi1)
    as (fuel & t' & ixs' & m' & fr' & Er & H'); [exact (seq_step fr t g ixs m _ _ _ Hi E Hq Es)|].
  exists (S fuel), t', ixs', m', fr'. split; [|done]. rewrite merge_run_S by done. by rewrite Es.
Qed.

Lemma quiet_dirty t g : tbl_ok t g -> quiet t -> dirtyPKs pkHashSeed t = Ok [] /\ t_readDirty t = 0 /\ t_delDirty t = 0.
Proof.
  intros Ht Hq. destruct (tb_dirty _ _ _ _ _ _ _ Ht) as [E1 E2].
  rewrite (quiet_count s_dirtyRead) in E1 by (eapply Forall_impl; [|exact Hq]; by intros s []).
  rewrite (quiet_count s_dirtyDel) in E2 by (eapply Forall_impl; [|exact Hq]; by intros s []).
  unfold dirtyPKs. rewrite E1. done.
Qed.

Lemma done_exact fr t g ixs m : merge_inv pkHashSeed def max ext ck fr t g ixs m -> m_pc m = MDone -> quiet t ->
  forall x si, ixs !! x = Some si -> idx_ok (kd_of ck (si_ordinals si)) si (si_rev si) /\
    forall k, si_rev si !! k = g !! k ≫= key_of (si_ordinals si).
Proof.
  intros Hi Hpc Hq x si Hx. destruct (iv_ix _ _ _ _ _ _ _ _ _ _ Hi) as [Hlen Hix].
  destruct (lookup_lt_is_Some_2 (m_changed m) x) as [ch Hch]; [rewrite <- Hlen; by eapply lookup_lt_Some|].
  destruct (Hix _ _ _ Hx Hch) as (vis & I1 & I2 & _ & I4 & _). unfold folded in I4. rewrite Hpc in I4.
  rewrite (I4 I) in I1, I2. split; [done|]. intros k.
  destruct (lookup_row pkHashSeed def max None ext t g k (iv_tbl _ _ _ _ _ _ _ _ _ _ Hi)) as (s & Hs & _).
  destruct (I2 k s Hs) as (_ & _ & W). cbn in W. rewrite !drop_0 in W.
  destruct (Forall_lookup_1 _ _ _ _ Hq Hs) as [E1 E2]. rewrite E1, E2 in W.
  destruct (g !! k) as [r|]; cbn; [destruct W as [?|?%elem_of_nil]; done|].
  by destruct W as [?|[?%elem_of_nil|?%elem_of_nil]].
Qed.

(** C16: no gap. From the rebuild at boot on, in every state of every interleaving
    of committed writes with the steps of merges, a committed row whose indexed
    cells are not NULL is found by the lookup of its key or is on the dirty
    overlay, for every index of the table. *)
Theorem merge_no_gap y y' : booted y -> rtc sys_step y y' -> covered pkHashSeed (y_t y') (y_ix y').
Proof.
  intros Hb Hs. destruct (reach_inv y y' Hb Hs) as (fr & g & Hi). by eapply (inv_covered _ _ _ _ _ pk_in).
Qed.

Lemma start_seq t ixs : map si_ordinals ixs = map ri_ordinals (rt_indexes def) -> seq_inv t (merge_start ixs).
Proof.
  intros Ho. split; unfold merge_start; cbn; destruct (Nat.eqb_spec (length ixs) 0) as [E|E]; try lia; try done.
  intros i s _ _. exfalso. apply nil_length_inv in E. rewrite E in Ho. symmetry in Ho. apply fmap_nil_inv in Ho.
  unfold nIndexes in has_index. by rewrite Ho in has_index.
Qed.

(** C18: a merge nobody interrupts finishes, empties the dirty queues and their
    counters, changes no row, and leaves every index exact: the lookup of a key
    lists, once each, exactly the rows that hold it. *)
Theorem merge_exact y y' : booted y -> rtc sys_step y y' -> idle y' ->
  exists fuel t ixs, mergeIndexes pkHashSeed fuel (y_t y') (y_ix y') = Ok (Some (t, ixs)) /\
    dirtyPKs pkHashSeed t = Ok [] /\ t_readDirty t = 0 /\ t_delDirty t = 0 /\
    (forall k, getByPK pkHashSeed t k = getByPK pkHashSeed (y_t y') k) /\
    forall x si key, ixs !! x = Some si -> key_canon (kd_of ck (si_ordinals si)) key ->
      NoDup (lookup si key) /\
      forall k, k ∈ lookup si key <->
        exists r, getByPK pkHashSeed t k = Ok (Some r) /\ key_of (si_ordinals si) r = Some key.
Proof.
  intros Hb Hs Hd. destruct (idle_inv y' (reach_inv y y' Hb Hs) Hd) as (fr0 & g & Hi).
  destruct (merge_runs fr0 (y_t y') g (y_ix y') _ Hi) as (fuel & t & ixs & m & fr & Er & Em & Hi' & Hq).
  { apply start_seq, (iv_ords _ _ _ _ _ _ _ _ _ _ Hi). }
  exists fuel, t, ixs. split; [exact Er|]. pose proof (iv_tbl _ _ _ _ _ _ _ _ _ _ Hi') as Ht.
  destruct (quiet_dirty t g Ht Hq) as (Q1 & Q2 & Q3). do 3 (split; [done|]).
  split.
  { intros k. by rewrite (getByPK_ok _ _ _ _ _ _ _ k Ht), (getByPK_ok _ _ _ _ _ _ _ k (iv_tbl _ _ _ _ _ _ _ _ _ _ Hi)). }
  intros x si key Hx Hkey. destruct (done_exact _ _ _ _ _ Hi' Em Hq x si Hx) as [I1 I2].
  destruct (lookup_pks _ si _ key I1 Hkey) as [L1 L2]. split; [done|]. intros k.
  rewrite L2, I2, (getByPK_ok _ _ _ _ _ _ _ k Ht). split.
  - destruct (g !! k) as [r|]; [|done]. cbn. intros E. by exists r.
  - intros (r & [= ->] & E). done.
Qed.

(** ** A merge among writers *)
Inductive write_step : sys -> sys -> Prop :=
  | ws t ixs m (w : option J) op t' w' a : op_wf def op -> room 1 t ->
      run_op pkHashSeed def max t w op = Ok (t', w', a) ->
      (forall k r, getByPK pkHashSeed t' k = Ok (Some r) -> row_typed ck r) ->
      write_step (MkSys t ixs m w) (MkSys t' ixs m w').
Definition merge_step (y y' : sys (J := J)) : Prop :=
  m_pc (y_m y) <> MDone /\ mstep pkHashSeed (y_t y) (y_ix y) (y_m y) = Ok (y_t y', y_ix y', y_m y') /\ y_w y' = y_w y.
(** One merge step after any number of writes. *)
Definition progress (y' y : sys) : Prop := exists ym, rtc write_step y ym /\ merge_step ym y'.
Definition sys_rank (y : sys (J := J)) : nat * nat * nat := rank (length (t_shards (y_t y))) (length (y_ix y)) (y_m y).

Lemma write_sys y y' : write_step y y' -> sys_step y y'.
Proof. intros []. by econstructor. Qed.
Lemma merge_sys y y' : merge_step y y' -> sys_step y y'.
Proof. destruct y, y'. intros (Hne & Hs & E). cbn in *. subst. by constructor. Qed.
Lemma write_rank y y' : sys_inv y -> write_step y y' -> sys_rank y' = sys_rank y.
Proof.
  intros (fr & g & Hi) Hs. destruct Hs as [t ixs m w op t' w' a Hop Hr Hrun Hty]. unfold sys_rank. cbn in *.
  by destruct (write_watched pkHashSeed def max ext pk_in has_index ords_in t g w op t' w' a (iv_tbl _ _ _ _ _ _ _ _ _ _ Hi) Hr Hop Hrun)
    as (g' & _ & -> & _).
Qed.
Lemma write_ranks y y' : sys_inv y -> rtc write_step y y' -> sys_inv y' /\ sys_rank y' = sys_rank y.
Proof.
  intros Hi. induction 1 as [|y y1 y' Hs _ IH]; [done|]. pose proof (write_rank _ _ Hi Hs) as <-.
  apply IH. eapply (sys_inv_step _ _ _ _ _ pk_in has_index ords_in); [done|by apply write_sys].
Qed.
Lemma progress_rank y y' : sys_inv y -> progress y' y -> sys_inv y' /\ lex3 (sys_rank y') (sys_rank y).
Proof.
  intros Hi (ym & Hw & Hm). destruct (write_ranks _ _ Hi Hw) as [Him <-].
  split; [eapply (sys_inv_step _ _ _ _ _ pk_in has_index ords_in); [done|by apply merge_sys]|].
  destruct Him as (fr & g & Him). destruct Hm as (Hne & Hs & _). by eapply rank_step.
Qed.

(** C26: the merge ends. Between two steps of a merge writers may commit as often
    as they like and enqueue more dirty rows; still no merge goes on for ever,
    from any state the table reaches, and while it is not done its next step
    is defined: it never panics. *)
Theorem merge_terminates y y' : booted y -> rtc sys_step y y' ->
  Acc progress y' /\ (m_pc (y_m y') <> MDone -> exists y2, merge_step y' y2).
Proof.
  intros Hb Hs. pose proof (reach_inv y y' Hb Hs) as Hi. clear Hb Hs y. split.
  - remember (sys_rank y') as rk eqn:Erk. revert y' Erk Hi. induction (lex3_wf rk) as [rk _ IH]. intros y -> Hi.
    constructor. intros y2 Hp. destruct (progress_rank y y2 Hi Hp) as [Hi2 Hl]. by eapply IH.
  - intros Hne. destruct Hi as (fr & g & Hi).
    destruct (inv_step pkHashSeed def max ext ck pk_in ords_in fr _ g _ _ Hi Hne) as (t1 & ixs1 & m1 & fr1 & Es & _).
    by exists (MkSys t1 ixs1 m1 (y_w y')).
Qed.

Lemma merge_run_steps fuel : forall t ixs m t' ixs' (w : option J), merge_run pkHashSeed fuel t ixs m = Ok (Some (t', ixs')) ->
  exists m', m_pc m' = MDone /\ rtc merge_step (MkSys t ixs m w) (MkSys t' ixs' m' w).
Proof.
  induction fuel as [|fuel IH]; intros t ixs m t' ixs' w;
    (assert (m_pc m = MDone \/ m_pc m <> MDone) as [E|E] by (destruct (m_pc m); auto);
      [cbn; rewrite E; intros [= <- <-]; by exists m|]).
  { cbn. by destruct (m_pc m). }
  rewrite merge_run_S by done. destruct (mstep pkHashSeed t ixs m) as [[[t1 ixs1] m1]| |] eqn:Es; [|done..]. cbn [mbind outcome_bind].
  intros Hr. destruct (IH t1 ixs1 m1 t' ixs' w Hr) as (m' & Em & Hs). exists m'. split; [done|].
  eapply rtc_l; [|exact Hs]. by split.
Qed.
Lemma merge_steps_rows y y' k : sys_inv y -> rtc merge_step y y' -> getByPK pkHashSeed (y_t y') k = getByPK pkHashSeed (y_t y) k.
Proof.
  intros (fr & g & Hi) Hs. revert fr Hi. induction Hs as [|y y1 y' (Hne & Hs & _) _ IH]; [done|]. intros fr Hi.
  destruct (inv_step pkHashSeed def max ext ck pk_in ords_in fr _ g _ _ Hi Hne) as (t1 & ixs1 & m1 & fr1 & E & Hi1).
  rewrite Hs in E. injection E as <- <- <-. rewrite (IH _ Hi1).
  by rewrite (getByPK_ok _ _ _ _ _ _ _ k (iv_tbl _ _ _ _ _ _ _ _ _ _ Hi)), (getByPK_ok _ _ _ _ _ _ _ k (iv_tbl _ _ _ _ _ _ _ _ _ _ Hi1)).
Qed.

(** C27: the read gap. Readers look the key up first and take the dirty overlay
    second. If the lookup comes before a merge and the overlay after it, a row
    committed before either is in neither, although no write touched it and it
    was readable at every moment in between. *)
Theorem index_read_gap y y1 x si k r key : booted y -> rtc sys_step y y1 -> y_m y1 = merge_start (y_ix y1) ->
  y_ix y1 !! x = Some si -> getByPK pkHashSeed (y_t y1) k = Ok (Some r) -> key_of (si_ordinals si) r = Some key ->
  k ∉ lookup si key ->
  exists y2 d, rtc merge_step y1 y2 /\ dirtyPKs pkHashSeed (y_t y2) = Ok d /\ (k ∉ (lookup si key ++ d)) /\
    forall ym, rtc merge_step y1 ym -> getByPK pkHashSeed (y_t ym) k = Ok (Some r).
Proof.
  intros Hb Hs Em Hx Hk Hkey Hn. pose proof (reach_inv y y1 Hb Hs) as Hi1.
  destruct (idle_inv y1 Hi1 (or_intror Em)) as (fr0 & g & Hi).
  destruct (merge_runs fr0 (y_t y1) g (y_ix y1) _ Hi) as (fuel & t & ixs & m & fr & Er & Em' & Hi' & Hq).
  { apply start_seq, (iv_ords _ _ _ _ _ _ _ _ _ _ Hi). }
  destruct (merge_run_steps fuel _ _ _ _ _ (y_w y1) Er) as (m' & _ & Hr).
  destruct (quiet_dirty t g (iv_tbl _ _ _ _ _ _ _ _ _ _ Hi') Hq) as (Q & _).
  exists (MkSys t ixs m' (y_w y1)), []. split_and!.
  - rewrite <- Em in Hr. by destruct y1.
  - done.
  - by rewrite app_nil_r.
  - intros ym Hm. by rewrite (merge_steps_rows y1 ym k Hi1 Hm).
Qed.
End safe.

(** ** The users table, booted empty, then one insert *)
Definition users_ck (o : nat) : ValueKind := match o with 0%nat => KindUUID | 1%nat => KindInt | _ => KindString end.
Definition users_ix : list secIndex := map (fun ri => newSecIndex (ri_ordinals ri) (ri_ordered ri)) (rt_indexes users_rt).
Definition users_boot : sys (J := list (Z * bytes)) :=
  match rebuildIndexes users_rt t0 users_ix with
  | Ok (t, ixs) => MkSys t ixs (merge_start ixs) None
  | _ => MkSys t0 users_ix (merge_start users_ix) None
  end.
Definition users_wrote : sys (J := list (Z * bytes)) :=
  match run_op 0 users_rt 1000 (y_t users_boot) None (OInsert (ada 36 (lit "ada")) users_mj) with
  | Ok (t, w, _) => MkSys t (y_ix users_boot) (y_m users_boot) w
  | _ => users_boot
  end.
Lemma users_boots : booted 0 users_rt 1000 0 users_ck users_boot.
Proof.
  split; [|by vm_compute]. exists t0, users_ix, ∅. split; [apply t0_ok|]. split; [apply map_Forall_empty|].
  split; [by vm_compute|]. by vm_compute.
Qed.
Lemma users_writes : rtc (sys_step 0 users_rt 1000 users_ck) users_boot users_wrote.
Proof.
  apply rtc_once. assert (Hb : users_boot = MkSys t0 (y_ix users_boot) (y_m users_boot) None) by by vm_compute.
  destruct (insert_ok 0 users_rt 1000 None 0 ltac:(vm_compute; lia) true t0 (None : option (list (Z * bytes)))
    (ada 36 (lit "ada")) (fun w => mj_insert users_mj w (ada 36 (lit "ada"))) ∅ 8)
    as (t' & E & H1 & _); [apply t0_ok|apply t0_ok|by apply ada_wf|by left|].
  assert (Er : run_op 0 users_rt 1000 t0 (None : option (list (Z * bytes))) (OInsert (ada 36 (lit "ada")) users_mj) =
    Ok (t', None, ADone 1 None)).
  { cbn [run_op]. unfold insertJournaled. rewrite E. reflexivity. }
  unfold users_wrote. rewrite Hb at 1. cbn [y_t]. replace (y_t users_boot) with t0 by by vm_compute. rewrite Er. cbv beta iota.
  eapply ss_write; [|apply (room_mono users_rt 9); [lia|apply t0_ok]|exact Er|].
  - apply ada_wf; [vm_compute; split; congruence|vm_compute; reflexivity].
  - intros k r. cbn in H1. rewrite (getByPK_ok _ _ _ _ _ _ _ k H1). intros [= Hg].
    apply lookup_singleton_Some in Hg as [_ <-]. intros [|[|[|o]]] v [= <-]; by right.
Qed.
Lemma users_side : (pkOrd users_rt < length (t_Columns (rt_def users_rt)))%nat /\ 0 < nIndexes users_rt /\
  Forall (fun ri => Forall (fun o => (o < length (t_Columns (rt_def users_rt)))%nat) (ri_ordinals ri)) (rt_indexes users_rt).
Proof. split; [vm_compute; lia|]. split; [by vm_compute|]. by repeat constructor. Qed.

Lemma merge_no_gap_witness : covered 0 (y_t users_wrote) (y_ix users_wrote).
Proof.
  destruct users_side as (H1 & H2 & H3).
  exact (merge_no_gap 0 users_rt 1000 0 users_ck H1 H2 H3 users_boot users_wrote users_boots users_writes).
Defined.
Lemma merge_exact_witness : exists fuel t ixs, mergeIndexes 0 fuel (y_t users_wrote) (y_ix users_wrote) = Ok (Some (t, ixs)) /\
  forall x si key, ixs !! x = Some si -> key_canon (kd_of users_ck (si_ordinals si)) key ->
    forall k, k ∈ lookup si key <-> exists r, getByPK 0 t k = Ok (Some r) /\ key_of (si_ordinals si) r = Some key.
Proof.
  destruct users_side as (H1 & H2 & H3).
  destruct (merge_exact 0 users_rt 1000 0 users_ck H1 H2 H3 users_boot users_wrote users_boots users_writes)
    as (fuel & t & ixs & E & _ & _ & _ & _ & H); [by right; vm_compute|].
  exists fuel, t, ixs. split; [exact E|]. intros x si key Hx Hk. apply (H x si key Hx Hk).
Defined.
Lemma merge_terminates_witness : Acc (progress 0 users_rt 1000 users_ck) users_wrote.
Proof.
  destruct users_side as (H1 & H2 & H3).
  apply (merge_terminates 0 users_rt 1000 0 users_ck H1 H2 H3 users_boot users_wrote users_boots users_writes).
Defined.
Lemma index_read_gap_witness : exists si y2 d, y_ix users_wrote !! 0%nat = Some si /\
  rtc (merge_step 0) users_wrote y2 /\ dirtyPKs 0 (y_t y2) = Ok d /\ ada_id ∉ (lookup si (keyOf (Int 36)) ++ d).
Proof.
  destruct users_side as (H1 & H2 & H3). destruct (y_ix users_wrote) as [|si l] eqn:Ei; [by vm_compute in Ei|]. exists si.
  destruct (index_read_gap 0 users_rt 1000 0 users_ck H1 H2 H3 users_boot users_wrote 0%nat si ada_id (ada 36 (lit "ada")) (keyOf (Int 36))
    users_boots users_writes) as (y2 & d & R & D & N & _).
  - by vm_compute.
  - by rewrite Ei.
  - by vm_compute.
  - assert (Es : y_ix users_wrote !! 0%nat = Some (newSecIndex [1%nat] false)) by by vm_compute.
    rewrite Ei in Es. injection Es as ->. by vm_compute.
  - assert (Es : y_ix users_wrote !! 0%nat = Some (newSecIndex [1%nat] false)) by by vm_compute.
    rewrite Ei in Es. injection Es as ->. vm_compute. by intros ?%elem_of_nil.
  - exists y2, d. split; [reflexivity|]. split; [exact R|]. split; [exact D|exact N].
Defined.
