(* ===== verification/Recovery.v ===== *)
(** * Recovery: db_replay.go, loadTableRows of recover_sqlite.go, and the store of
    all tables that DDL and recovery act on.

    [rdb] is what Open rebuilds: the registry, each table's storage by its id, and
    the byte budget they share. *)
From S2P Require Import Prelude Bytes Uuid Value PkMap Codec Frame Journal Schema Catalog Store StoreOk StoreSim.

Record rdb : Type := MkRdb {
  r_cat : catalog;
  r_tabs : gmap Z tbl_state;
  r_total : Z;
}.

(** coerceToUUID (plan.go). *)
Definition coerceToUUID (v : Value) : outcome UUID :=
  match Kind v with
  | KindUUID => Ok (v_UUID v)
  | KindString => ParseUUID (v_Str v)
  | _ => Err ErrTypeMismatch
  end.

(** Wrap any error of a call in [e]. *)
Definition wrap {A} (e : error) (m : outcome A) : outcome A :=
  match m with Err _ => Err e | m => m end.

Section recovery.
Context (pkHashSeed max ncpu sizeHint : Z).

(** A table's storage with the shared total plugged in, and back. *)
Definition get_tab (db : rdb) (id : Z) : outcome tbl_state :=
  match r_tabs db !! id with Some t => Ok (set_total t (r_total db)) | None => Panic end.
Definition put_tab (db : rdb) (id : Z) (t : tbl_state) : rdb :=
  MkRdb (r_cat db) (<[id := t]> (r_tabs db)) (t_total t).

Definition tab_insert (db : rdb) (rt : tableRT) (row : Row) : outcome rdb :=
  t ← get_tab db (tableID rt);
  r ← t_insert (J := list (Z * bytes)) pkHashSeed (table rt) max t row;
  match snd r with None => Ok (put_tab db (tableID rt) (fst r)) | Some e => Err e end.

(** The SET callback of an update record. *)
Definition replay_set (cols : list ColumnDef) (a : list nat * list Value) (ord : nat) (v : Value)
  : outcome (list nat * list Value) :=
  if (length cols <=? ord)%nat then Err ErrWALCorrupt
  else
    c ← index cols ord;
    _ ← wrap ErrWALCorrupt (validateValue c v);
    Ok (fst a ++ [ord], snd a ++ [v]).

Definition applyMutation (db : rdb) (rt : tableRT) (op : Z) (body : bytes) : outcome rdb :=
  let cols := t_Columns (rt_def (table rt)) in
  if op =? opInsert then
    row ← decodeRow body;
    _ ← validateInsertRow cols row;
    tab_insert db rt row
  else if op =? opUpdate then
    pu ← decodeUpdateMutation body (replay_set cols) ([], []);
    let '(pk, (ords, vals)) := pu in
    pkU ← wrap ErrWALCorrupt (coerceToUUID pk);
    t ← get_tab db (tableID rt);
    r ← t_update pkHashSeed (table rt) max t pkU
          (fun r => let r := assign r ords vals in (r, Some r));
    if negb (snd r) then Err ErrWALCorrupt else Ok (put_tab db (tableID rt) (fst r))
  else if op =? opDelete then
    pk ← decodeDeleteBody body;
    pkU ← wrap ErrWALCorrupt (coerceToUUID pk);
    t ← get_tab db (tableID rt);
    r ← deleteByPK pkHashSeed (table rt) max t pkU;
    Ok (put_tab db (tableID rt) (fst r))
  else Err ErrWALCorrupt.

Definition applyMutationRecord (db : rdb) (payload : bytes) : outcome rdb :=
  if zlen payload <? 3 then Err ErrWALCorrupt
  else
    op ← index payload 0;
    h ← slice_o payload 1 3;
    match byID (r_cat db) !! Z.to_nat (le_get h) with
    | Some (Some rt) => body ← slice_o payload 3 (zlen payload); applyMutation db rt (b2z op) body
    | _ => Err ErrWALCorrupt
    end.

Definition applyReplayRecord (db : rdb) (recType : Z) (payload : bytes) : outcome rdb :=
  if recType =? recCreateTable then
    r ← decodeCreateTable payload;
    let '(id, td) := r in
    resolved ← resolveSchema [td];
    match resolved !! t_Name td with
    | None => Panic
    | Some rt =>
        t ← newTable ncpu sizeHint (r_total db);
        Ok (MkRdb (withTable (r_cat db) (MkTableRT id rt)) (<[id := t]> (r_tabs db)) (r_total db))
    end
  else if recType =? recDropTable then
    name ← decodeDropTable payload;
    Ok (MkRdb (withoutTable (r_cat db) name) (r_tabs db) (r_total db))
  else if recType =? recCheckpoint then Ok db
  else if recType =? recMutation then applyMutationRecord db payload
  else if recType =? recTxn then forEachTxnMutation payload applyMutationRecord db
  else Err ErrWALCorrupt.

(** loadTableRows from the scanned, already typed rows of one mirror table. *)
Fixpoint validate_mirror (cols : list ColumnDef) (row : Row) : outcome unit :=
  match cols, row with
  | c :: cols, v :: row => _ ← wrap ErrMirrorCorrupt (validateValue c v); validate_mirror cols row
  | _, _ => Ok tt
  end.
Fixpoint loadTableRows (db : rdb) (rt : tableRT) (rows : list Row) : outcome rdb :=
  match rows with
  | [] => Ok db
  | row :: rows =>
      _ ← validate_mirror (t_Columns (rt_def (table rt))) row;
      db ← tab_insert db rt row;
      loadTableRows db rt rows
  end.

(** CREATE and DROP at runtime: the registry step of catalog.go with the storage
    it publishes or lets go of. *)
Definition db_create {J} `{Journal J} (db : rdb) (w : option J) (td : TableDef)
  : outcome (rdb * option J * outcome unit) :=
  let id := u16 (zlen (byID (r_cat db))) in
  match createTable (r_cat db) w td with
  | (c, w, Ok _) =>
      t ← newTable ncpu sizeHint (r_total db);
      Ok (MkRdb c (<[id := t]> (r_tabs db)) (r_total db), w, Ok tt)
  | (c, w, e) => Ok (MkRdb c (r_tabs db) (r_total db), w, e)
  end.
Definition db_drop {J} `{Journal J} (db : rdb) (w : option J) (name : bytes)
  : rdb * option J * outcome unit :=
  let '(c, w', e) := dropTable (r_cat db) w name in
  match byName (r_cat db) !! name, e with
  | Some rt, Ok _ => (MkRdb c (delete (tableID rt) (r_tabs db)) (r_total db), w', e)
  | _, _ => (MkRdb c (r_tabs db) (r_total db), w', e)
  end.
End recovery.
