(* ===== verification/Replayer.v ===== *)
(** * Replayer: what replays the mutation records of a table, and the records the
    journaled operations of a table write.

    [Replayer] is the promise of a consumer of the log - Open's in-memory replay,
    the SQLite mirror, or the bare map - to the theorems on histories: it holds a
    map of rows, and the records of the codec change it as they say. *)
From S2P Require Import Prelude Bytes Uuid Value PkMap Codec Frame Journal Schema Catalog Store StoreOk StoreSim Recovery.

Lemma delete_size tid v : Kind v = KindUUID -> zlen (encodeDeleteMutation [] tid v) = 20.
Proof.
  intros E. unfold encodeDeleteMutation. rewrite encodeCell_buf. unfold encodeCell, appendU16LE.
  rewrite E. rewrite !zlen_app, zlen_le_put. unfold zlen. by rewrite length_ubytes.
Qed.

Lemma wire_uuid u : wire_ok (UUIDVal u).
Proof. split; [constructor|]. done. Qed.

Section replayer.
Context (max : Z).

(** One table, by its registry entry. *)
Context (rt : tableRT) (ext : Z).
Local Abbreviation def := (table rt).
Local Abbreviation id := (tableID rt).
Local Abbreviation cols := (t_Columns (rt_def (table rt))).
Local Abbreviation pkof := (pkof (table rt)).
Hypothesis ncols_u16 : zlen (t_Columns (rt_def (table rt))) < 2 ^ 16.
Hypothesis pk_in : (pkOrd (table rt) < length (t_Columns (rt_def (table rt))))%nat.
Hypothesis pk_uuid : forall c, t_Columns (rt_def (table rt)) !! pkOrd (table rt) = Some c ->
  c_Type c = TypeUUID /\ c_Nullable c = false.

(** A row the engine may hold: well formed, validated, and encodable. *)
Definition row_good (r : Row) : Prop := row_wf def r /\ row_fits cols r /\ Forall wire_ok r.
(** The same without the codec's length limit. *)
Definition row_held (r : Row) : Prop := row_wf def r /\ row_fits cols r.
Lemma good_held r : row_good r -> row_held r.
Proof. by intros (? & ? & _). Qed.

Lemma good_pk r : row_good r -> exists v, r !! pkOrd def = Some v /\ Kind v = KindUUID /\
  coerceToUUID v = Ok (pkof r) /\ wire_ok v.
Proof.
  intros ([Hl _] & Hf & Hw). destruct (lookup_lt_is_Some_2 r (pkOrd def)) as [v E]; [by rewrite Hl|].
  destruct (lookup_lt_is_Some_2 cols (pkOrd def) pk_in) as [c Ec]. destruct (pk_uuid c Ec) as [Hty Hnn].
  assert (Hk : Kind v = KindUUID).
  { apply (validateValue_uuid c); [|done..]. by eapply (Forall2_lookup_lr _ _ _ _ _ _ Hf). }
  exists v. split; [done|]. split; [done|]. split.
  - unfold coerceToUUID, StoreOk.pkof. rewrite Hk, E. done.
  - by eapply Forall_lookup_1.
Qed.

(** The SET cells of an update: one per named column, all validated. *)
Definition sets_good (ords : list nat) (nr : Row) : Prop :=
  Forall (fun o => (o < length cols)%nat) ords /\ zlen ords < 2 ^ 16 /\
  row_fits cols nr /\ Forall wire_ok nr.

Lemma replay_sets ords nr sets a : sets_good ords nr -> sets_of ords nr = Ok sets ->
  apply_sets (replay_set cols) sets a = Ok (fst a ++ ords, snd a ++ map snd sets) /\
  Forall set_ok sets /\ Forall2 (fun o v => nr !! o = Some v) ords (map snd sets).
Proof.
  intros (Ho & _ & Hf & Hw) Es. revert sets Es a.
  induction Ho as [|o ords Hlt Ho IH]; intros sets Es a; cbn [sets_of] in Es.
  - injection Es as <-. cbn. rewrite !app_nil_r. destruct a. by repeat constructor.
  - inv_bind. match goal with H : nr !! o = Some ?y |- _ => rename y into v, H into Hv end.
    match goal with H : sets_of ords nr = Ok ?y |- _ => rename y into ss, H into Hss end.
    destruct (lookup_lt_is_Some_2 cols o Hlt) as [c Ec]. cbn [apply_sets].
    assert (Er : replay_set cols a o v = Ok (fst a ++ [o], snd a ++ [v])).
    { unfold replay_set. rewrite (proj2 (Nat.leb_gt _ _) Hlt), (index_Some _ _ _ Ec). cbn [mbind outcome_bind].
      by rewrite (Forall2_lookup_lr _ _ _ _ _ _ Hf Ec Hv : validateValue c v = Ok tt). }
    rewrite Er. cbn [mbind outcome_bind].
    destruct (IH ss Hss (fst a ++ [o], snd a ++ [v])) as (E & Hs & H2). rewrite E. cbn [fst snd map].
    rewrite <- !app_assoc. split; [done|]. split; [|by constructor].
    constructor; [|done]. split; cbn; [unfold zlen in ncols_u16; lia|]. by eapply Forall_lookup_1.
Qed.

Lemma sets_of_total ords (nr : Row) : Forall (fun o => (o < length nr)%nat) ords -> exists sets, sets_of ords nr = Ok sets.
Proof.
  induction 1 as [|o ords Hlt Ho [ss IH]]; [by eexists|]. cbn [sets_of].
  destruct (index_lt nr o Hlt) as (v & -> & _). cbn [mbind outcome_bind]. rewrite IH. by eexists.
Qed.

(** [mut] applies a mutation payload and [rc] a record; the state holds [g] in the
    table, with room for [n] more inserts, when [rp_rep n s g]. *)
Class Replayer {S : Type} (mut : S -> bytes -> outcome S) (rc : S -> Z -> bytes -> outcome S) : Type := {
  rp_rep : nat -> S -> gmap UUID Row -> Prop;
  rp_mono n m s g : (m <= n)%nat -> rp_rep n s g -> rp_rep m s g;
  rp_insert n s g row : rp_rep (Datatypes.S n) s g -> row_good row -> g !! pkof row = None ->
    (max <> 0 -> ext + map_cost def (<[pkof row := row]> g) <= max) ->
    exists s', mut s (encodeInsertMutation [] id row) = Ok s' /\ rp_rep n s' (<[pkof row := row]> g);
  rp_update n s g k r nr ords pk : rp_rep n s g -> g !! k = Some r -> row_good nr -> pkof nr = k ->
    nr !! pkOrd def = Some pk -> length nr = length r -> (forall i, i ∉ ords -> nr !! i = r !! i) ->
    sets_good ords nr ->
    exists body s', encodeUpdateMutation [] id pk ords nr = Ok body /\ mut s body = Ok s' /\
      rp_rep n s' (<[k := nr]> g);
  rp_delete n s g k pk : rp_rep n s g -> coerceToUUID pk = Ok k -> wire_ok pk ->
    exists s', mut s (encodeDeleteMutation [] id pk) = Ok s' /\ rp_rep n s' (delete k g);
  rp_rec_mut s p : rc s recMutation p = mut s p;
  rp_rec_txn s p : rc s recTxn p = forEachTxnMutation p mut s;
}.

Section generic.
Context {ST : Type} {mut : ST -> bytes -> outcome ST} {rc : ST -> Z -> bytes -> outcome ST} {R : Replayer mut rc}.
Local Abbreviation rep := (rp_rep (mut := mut) (rc := rc)).
Local Abbreviation apply_mut := mut.
Local Abbreviation apply_rec := rc.
(** The mutations of a multi-row statement, one after the other. *)
Lemma rep_updates n ords (new : Row -> Row) l : forall bodies db g, rep n db g -> NoDup l.*1 ->
  (forall k r, (k, r) ∈ l -> g !! k = Some r /\ row_good r /\ row_good (new r) /\ pkof (new r) = k /\
     sets_good ords (new r) /\ length (new r) = length r /\ (forall i, i ∉ ords -> new r !! i = r !! i)) ->
  Forall2 (fun kr b => (pk ← index (new (snd kr)) (pkOrd def);
                        encodeUpdateMutation [] id pk ords (new (snd kr))) = Ok b) l bodies ->
  exists db', apply_all apply_mut bodies db = Ok db' /\
    rep n db' (fold_left (fun g kr => <[fst kr := snd kr]> g) ((fun kr => (fst kr, new (snd kr))) <$> l) g).
Proof.
  induction l as [|[k r] l IH]; intros bodies db g Hrep Hnd Hl Hb; inversion Hb as [|? b ? bs E Hbs]; subst.
  - by exists db.
  - apply list.NoDup_cons in Hnd as [Hnin Hnd]. cbn [fst snd] in *.
    destruct (Hl k r) as (Hk & Hg & Hg' & Hp & Hs & Hlen & Hsame); [by left|].
    destruct (good_pk (new r) Hg') as (v & Ev & _). rewrite (index_Some _ _ _ Ev) in E.
    cbn [mbind outcome_bind] in E.
    destruct (rp_update n db g k r (new r) ords v Hrep Hk Hg' Hp Ev Hlen Hsame Hs) as (body & db1 & Eb & Ea & Hrep1).
    rewrite E in Eb. injection Eb as <-. cbn [apply_all]. rewrite Ea. cbn [mbind outcome_bind].
    destruct (IH bs db1 (<[k := new r]> g) Hrep1 Hnd) as (db' & E' & Hrep'); [|done|by exists db'].
    intros k' r' Hin. destruct (Hl k' r') as (Hk' & ?); [by right|]. split; [|done].
    rewrite lookup_insert_ne; [done|]. intros <-. apply Hnin. apply list_elem_of_fmap. by exists (k, r').
Qed.
Lemma rep_deletes n l : forall db g, rep n db g ->
  (forall k r, (k, r) ∈ l -> row_good r /\ pkof r = k) ->
  exists db', apply_all apply_mut (map (fun kr => encodeDeleteMutation [] id (pk_cell def (snd kr))) l) db = Ok db' /\
    rep n db' (fold_left (fun g k => delete k g) l.*1 g).
Proof.
  induction l as [|[k r] l IH]; intros db g Hrep Hl; [by exists db|].
  destruct (Hl k r) as [Hg Hp]; [by left|].
  destruct (good_pk r Hg) as (v & Ev & _ & Hco & Hw). cbn [map apply_all snd].
  assert (Epk : pk_cell def r = v) by (unfold pk_cell; by rewrite Ev). rewrite Epk, Hp in *.
  destruct (rp_delete n db g k v Hrep Hco Hw) as (db1 & E1 & Hrep1).
  rewrite E1. cbn [mbind outcome_bind].
  apply IH; [done|]. intros k' r' Hin. apply Hl. by right.
Qed.

Lemma apply_rec_txn db bodies : Forall (fun m => zlen m < 2 ^ 32) bodies -> zlen bodies < 2 ^ 16 ->
  apply_rec db recTxn (encodeTxn [] bodies) = apply_all apply_mut bodies db.
Proof. intros. rewrite rp_rec_txn. by apply txn_roundtrip. Qed.

End generic.

(** ** Journaled operations *)

(** What the executors pass down: the journal's fields are the table's, the
    encoders are the codec's, and every SET cell has been validated. *)
Definition set_fits (ords : list nat) (vals : list Value) : Prop :=
  Forall2 (fun o v => exists c, cols !! o = Some c /\ cell_fits c v /\ wire_ok v) ords vals.
Definition mj_for (j : mutJournal) (ords : list nat) : Prop :=
  mj_tableID j = id /\ mj_ords j = ords /\ mj_pkOrd j = pkOrd def /\ zlen ords < 2 ^ 16.
Definition op_good (op : tbl_op) : Prop :=
  match op with
  | OGet _ | OScan | OStats | OCompact _ => True
  | OInsert row j => row_good row /\ mj_tableID j = id
  | OUpdate _ ords compute j => mj_for j ords /\
      forall r vals, row_wf def r -> compute r = Ok vals -> set_fits ords vals
  | OUpdateOne _ ord compute j => mj_for j [ord] /\
      forall r v, row_wf def r -> compute r = Ok v -> set_fits [ord] [v]
  | ODelete k j => mj_tableID j = id /\ mj_pkVal j = UUIDVal k
  | OUpdateWhere _ _ ords compute encode => zlen ords < 2 ^ 16 /\
      Forall (fun o => (o < length cols)%nat) ords /\
      (forall r, encode r = (pk ← index r (pkOrd def); encodeUpdateMutation [] id pk ords r)) /\
      (forall r b, encode r = Ok b -> zlen b < 2 ^ 32) /\
      forall r vals, row_wf def r -> compute r = Ok vals -> set_fits ords vals
  | ODeleteWhere _ _ encode => forall pk, encode pk = encodeDeleteMutation [] id pk
  end.

(** Fewer than 65536 rows in one statement: the record's count is 16 bits wide. *)
Definition small (a : answer) : Prop := match a with ADone n _ => n < 2 ^ 16 | _ => True end.

Lemma assign_good r ords vals : row_good r -> args_wf def ords vals -> set_fits ords vals ->
  row_good (assign r ords vals).
Proof.
  intros (Hwf & Hf & Hw) Ha Hs. split; [by apply assign_wf|]. clear Hwf Ha.
  revert r Hf Hw. induction Hs as [|o v ords vals (c & Hc & Hfit & Hwire) Hs IH]; intros r Hf Hw; [by split|].
  cbn [assign]. apply IH.
  - unfold row_fits in *. rewrite Forall2_lookup in Hf |- *. intros i.
    specialize (Hf i). destruct (decide (i = o)) as [->|Hne].
    + rewrite Hc in *. inversion Hf as [? x Hx Eo Ex|]; subst.
      rewrite list_lookup_insert_eq by (by eapply lookup_lt_Some). by constructor.
    + by rewrite list_lookup_insert_ne.
  - by apply Forall_insert.
Qed.
Lemma set_fits_ords ords vals : set_fits ords vals -> Forall (fun o => (o < length cols)%nat) ords.
Proof.
  induction 1 as [|o v ords vals (c & Hc & _) Hs IH]; constructor; [|done]. by eapply lookup_lt_Some.
Qed.
Lemma sets_good_assign r ords vals : row_good (assign r ords vals) -> set_fits ords vals -> zlen ords < 2 ^ 16 ->
  sets_good ords (assign r ords vals).
Proof. intros (_ & Hf & Hw) Hs Hl. split; [by eapply set_fits_ords|]. by split. Qed.

Section run.
Context {ST : Type} {mut : ST -> bytes -> outcome ST} {rc : ST -> Z -> bytes -> outcome ST} {R : Replayer mut rc}.
Local Abbreviation rep := (rp_rep (mut := mut) (rc := rc)).
Local Abbreviation apply_mut := mut.
Local Abbreviation apply_rec := rc.

Lemma rep_assign n db g k r ords vals : rep n db g -> g !! k = Some r -> row_good r -> pkof r = k ->
  args_wf def ords vals -> set_fits ords vals -> zlen ords < 2 ^ 16 ->
  exists pk body db', assign r ords vals !! pkOrd def = Some pk /\
    encodeUpdateMutation [] id pk ords (assign r ords vals) = Ok body /\
    apply_mut db body = Ok db' /\ rep n db' (<[k := assign r ords vals]> g).
Proof.
  intros Hrep Hk Hg Hp Ha Hs Hl. pose proof (assign_good r ords vals Hg Ha Hs) as Hg'.
  destruct (good_pk _ Hg') as (v & Ev & _).
  destruct (rp_update n db g k r (assign r ords vals) ords v Hrep Hk Hg') as (body & db' & E1 & E2 & Hrep');
    try done.
  - by rewrite assign_pk.
  - by rewrite assign_length.
  - intros i Hi. by apply assign_notin.
  - by apply sets_good_assign.
  - by exists v, body, db'.
Qed.

Section journal.
Context {J : Type} `{Journal J}.

(** What one step did to the journal: it wrote records that replay to the new
    contents, or the journal refused and the contents stay. *)
Definition replays (n : nat) (j : J) (db : ST) (w' : option J) (g g' : gmap UUID Row) : Prop :=
  (exists j' recs db', w' = Some j' /\ jlog j' = jlog j ++ recs /\
     apply_records apply_rec recs db = (db', Ok tt) /\ rep n db' g') \/
  (dead w' /\ g' = g /\ exists j', w' = Some j' /\ (jlog j' = jlog j \/ exists r, jlog j' = jlog j ++ [r])).

Lemma replays_none n (j : J) db g : rep n db g -> replays n j db (Some j) g g.
Proof. intros Hr. left. exists j, [], db. by rewrite app_nil_r. Qed.
Lemma replays_err n (j : J) db w' t p e g : jwrite_opt (Some j) t p = (w', Some e) -> rep n db g ->
  replays n j db w' g g.
Proof.
  intros E Hr. destruct (jwrite_opt_err _ _ _ _ _ E) as [->|[Hd Hl]]; [by apply replays_none|].
  right. split; [done|]. split; [done|]. destruct Hd as (j' & e' & -> & _). by exists j'.
Qed.
Lemma replays_ok n (j : J) db w' t p g g' db' : jwrite_opt (Some j) t p = (w', None) ->
  apply_rec db t p = Ok db' -> rep n db' g' -> replays n j db w' g g'.
Proof.
  intros E Ha Hr. pose proof (jwrite_opt_ok _ _ _ _ E) as Hl. cbn in Hl. left.
  unfold jwrite_opt in E. destruct (jwrite j t p) as [j' e']. injection E as <- ->.
  exists j', [(t, p)], db'. split; [done|]. split; [exact Hl|]. cbn [apply_records]. by rewrite Ha.
Qed.

Definition good_map (g : gmap UUID Row) : Prop := map_Forall (fun k r => row_good r /\ pkof r = k) g.

Lemma good_insert g k r : good_map g -> row_good r -> pkof r = k -> good_map (<[k := r]> g).
Proof. intros. by apply map_Forall_insert_2. Qed.

Lemma replays_updatew n (j : J) db g pks match_ ords compute encode l bodies w' g' :
  good_map g -> rep n db g -> op_wf def (OUpdateWhere pks match_ ords compute encode) ->
  op_good (OUpdateWhere pks match_ ords compute encode) -> zlen l < 2 ^ 16 ->
  affected g pks match_ l ->
  Forall2 (fun kr b => encode (new_row ords compute (snd kr)) = Ok b) l bodies ->
  journal_bodies (Some j) bodies = (w', None) ->
  (forall k, g' !! k = match g !! k with
                       | Some r => Some (if decide ((k, r) ∈ l) then new_row ords compute r else r)
                       | None => None
                       end) ->
  good_map g' /\ replays n j db w' g g'.
Proof.
  intros Hgood Hrep (_ & _ & Hargs & _) (Hlo & Hrange & Henc & Hb32 & Hfits) Hl [Hnd Hin] Hb Hj Hg'.
  set (new := new_row ords compute) in *.
  assert (Hnew : forall k r, g !! k = Some r -> row_good (new r) /\ pkof (new r) = k /\
    sets_good ords (new r) /\ length (new r) = length r /\ (forall i, i ∉ ords -> new r !! i = r !! i)).
  { intros k r Hk. destruct (Hgood k r Hk) as [Hr Hp]. pose proof Hr as (Hw & Hf & Hwi). unfold new, new_row.
    destruct (compute r) as [vals| |] eqn:Ec; [|done..]. split; [by apply assign_good; eauto|].
    split; [by rewrite assign_pk; eauto|]. split; [apply sets_good_assign; eauto using assign_good|].
    split; [apply assign_length|]. intros i Hi. by apply assign_notin. }
  assert (Egg : g' = fold_left (fun g kr => <[fst kr := snd kr]> g) ((fun kr => (fst kr, new (snd kr))) <$> l) g).
  { apply map_eq. intros k. rewrite Hg'.
    assert (Ek : ((fun kr : UUID * Row => (fst kr, new (snd kr))) <$> l).*1 = l.*1)
      by (rewrite <- list_fmap_compose; by apply list_fmap_ext).
    destruct (decide (k ∈ l.*1)) as [Hk|Hk].
    - apply list_elem_of_fmap in Hk as ([k' r] & -> & Hkr). pose proof (proj1 (Hin k' r) Hkr) as (Hr & _).
      cbn [fst]. rewrite Hr, decide_True by done. symmetry. apply fold_insert_in; [by rewrite Ek|].
      apply list_elem_of_fmap. by exists (k', r).
    - rewrite fold_insert_notin by (by rewrite Ek). destruct (g !! k) as [r|] eqn:Hr; [|done].
      rewrite decide_False; [done|]. intros C. apply Hk. apply list_elem_of_fmap. by exists (k, r). }
  split.
  { intros k x. rewrite Hg'. destruct (g !! k) as [r|] eqn:Hk; [|done]. intros [= <-].
    case_decide; [|by apply Hgood]. by destruct (Hnew k r Hk) as (? & ? & _). }
  destruct bodies as [|b bs].
  { inversion Hb; subst l. injection Hj as <-. cbn [fmap list_fmap fold_left] in Egg. subst g'. by apply replays_none. }
  cbn [journal_bodies] in Hj.
  destruct (rep_updates n ords new l (b :: bs) db g Hrep Hnd) as (db' & Ea & Hrep').
  - intros k r Hkr. apply Hin in Hkr as (Hk & _). destruct (Hgood k r Hk) as [Hr _].
    destruct (Hnew k r Hk) as (? & ? & ? & ? & ?). done.
  - eapply Forall2_impl; [|exact Hb]. cbv beta. intros [k r] x. by rewrite Henc.
  - rewrite <- Egg in Hrep'. eapply replays_ok; [exact Hj| |exact Hrep'].
    rewrite apply_rec_txn; [exact Ea| |].
    + apply Forall_lookup. intros i x Hx. destruct (Forall2_lookup_r _ _ _ _ _ Hb Hx) as (kr & _ & E). by eapply Hb32.
    + unfold zlen in *. by rewrite <- (Forall2_length Hb).
Qed.

Lemma replays_deletew n (j : J) db g pks match_ encode l w' g' :
  good_map g -> rep n db g -> op_good (ODeleteWhere pks match_ encode) -> zlen l < 2 ^ 16 ->
  affected g pks match_ l ->
  journal_bodies (Some j) (map (fun kr => encode (pk_cell def (snd kr))) l) = (w', None) ->
  (forall k, g' !! k = match g !! k with
                       | Some r => if decide ((k, r) ∈ l) then None else Some r
                       | None => None
                       end) ->
  good_map g' /\ replays n j db w' g g'.
Proof.
  intros Hgood Hrep Henc Hl [Hnd Hin] Hj Hg'.
  assert (Egg : g' = fold_left (fun g k => delete k g) l.*1 g).
  { apply map_eq. intros k. rewrite Hg', fold_delete_lookup. destruct (g !! k) as [r|] eqn:Hk; [|by case_decide].
    apply decide_ext. rewrite list_elem_of_fmap. split; [by exists (k, r)|]. intros ([k' r'] & -> & Hkr).
    pose proof (proj1 (Hin k' r') Hkr) as (Hr & _). cbn [fst] in *. rewrite Hk in Hr. by injection Hr as ->. }
  split.
  { intros k x. rewrite Hg'. destruct (g !! k) as [r|] eqn:Hk; [|done]. case_decide; [done|].
    intros [= <-]. by apply Hgood. }
  destruct (rep_deletes n l db g Hrep) as (db' & Ea & Hrep').
  { intros k r Hkr. apply Hin in Hkr as (Hk & _). by apply Hgood. }
  rewrite <- Egg in Hrep'.
  assert (Eb : map (fun kr => encode (pk_cell def (snd kr))) l =
    map (fun kr => encodeDeleteMutation [] id (pk_cell def (snd kr))) l)
    by (apply map_ext; intros kr; apply Henc).
  rewrite Eb in Hj. destruct l as [|kr l].
  { injection Hj as <-. cbn [fmap list_fmap fold_left] in Egg. subst g'. by apply replays_none. }
  cbn [map journal_bodies] in Hj. eapply replays_ok; [exact Hj| |exact Hrep'].
  change (encodeDeleteMutation [] id (pk_cell def (snd kr)) :: ?x) with
    (map (fun kr => encodeDeleteMutation [] id (pk_cell def (snd kr))) (kr :: l)).
  rewrite apply_rec_txn; [exact Ea| |unfold zlen in *; by rewrite length_map].
  apply list.Forall_forall. intros b (kr' & <- & Hkr)%list_elem_of_In%in_map_iff. apply list_elem_of_In in Hkr.
  destruct kr' as [k r]. apply Hin in Hkr as (Hk & _). destruct (Hgood k r Hk) as [Hr _].
  destruct (good_pk r Hr) as (v & Ev & Hkv & _ & Hw & _). cbn [snd]. unfold pk_cell. rewrite Ev. cbn [default].
  rewrite delete_size by done. lia.
Qed.

Lemma step_replays n (j : J) db g op g' w' a : spec_step def max ext g (Some j) op g' w' a ->
  op_wf def op -> op_good op -> small a -> good_map g -> rep (S n) db g ->
  good_map g' /\ replays n j db w' g g'.
Proof.
  intros Hs Hwf Hop Ha Hg Hrep. assert (Hr : rep n db g) by (eapply rp_mono; [|exact Hrep]; lia).
  inversion Hs; subst; try (split; [done|]; by apply replays_none).
  - (* insert *)
    destruct Hop as [Hrow Hid]. split; [by apply good_insert|].
    match goal with H : mj_insert _ _ _ = _ |- _ => unfold mj_insert in H; rewrite Hid in H; rename H into Hj end.
    destruct (rp_insert n db g row Hrep Hrow) as (db' & Ea & Hrep'); try done.
    eapply replays_ok; [exact Hj|by rewrite rp_rec_mut|done].
  - split; [done|]. by eapply replays_err.
  - (* update *)
    destruct Hop as [(Hid & Ho & Hp & Hl) Hfit]. destruct Hwf as (_ & _ & _ & Hargs).
    match goal with H : g !! k = Some r |- _ => rename H into Hk end. destruct (Hg k r Hk) as [Hrow Hpk].
    match goal with H : compute r = Ok vals |- _ => rename H into Hc end. pose proof (proj1 Hrow) as Hw.
    destruct (rep_assign n db g k r ords vals Hr Hk Hrow Hpk (Hargs _ _ Hw Hc) (Hfit _ _ Hw Hc) Hl)
      as (pk & body & db' & Ev & Eb & Ea & Hrep').
    match goal with H : mj_update _ _ _ = _ |- _ => unfold mj_update in H; rewrite Hid, Ho, Hp, (index_Some _ _ _ Ev) in H;
      cbn [mbind outcome_bind] in H; rewrite Eb in H; cbn [mbind outcome_bind] in H; injection H as Hj end.
    destruct e as [e|]; [split; [done|]; by eapply replays_err|]. split.
    + apply good_insert; [done|apply assign_good; eauto|]. rewrite assign_pk; eauto.
    + eapply replays_ok; [exact Hj|by rewrite rp_rec_mut|done].
  - (* one column *)
    destruct Hop as [(Hid & Ho & Hp & Hl) Hfit]. destruct Hwf as (_ & _ & Hargs).
    match goal with H : g !! k = Some r |- _ => rename H into Hk end. destruct (Hg k r Hk) as [Hrow Hpk].
    match goal with H : compute r = Ok v |- _ => rename H into Hc end. pose proof (proj1 Hrow) as Hw.
    destruct (rep_assign n db g k r [ord] [v] Hr Hk Hrow Hpk (Hargs _ _ Hw Hc) (Hfit _ _ Hw Hc) Hl)
      as (pk & body & db' & Ev & Eb & Ea & Hrep'). cbn [assign] in *.
    match goal with H : mj_update _ _ _ = _ |- _ => unfold mj_update in H; rewrite Hid, Ho, Hp, (index_Some _ _ _ Ev) in H;
      cbn [mbind outcome_bind] in H; rewrite Eb in H; cbn [mbind outcome_bind] in H; injection H as Hj end.
    destruct e as [e|]; [split; [done|]; by eapply replays_err|]. split.
    + apply good_insert; [done|apply (assign_good r [ord] [v]); eauto|]. rewrite <- Hpk. apply (assign_pk def r [ord] [v]); eauto.
    + eapply replays_ok; [exact Hj|by rewrite rp_rec_mut|done].
  - (* delete *)
    destruct Hop as [Hid Hpk].
    match goal with H : mj_delete _ _ = _ |- _ => unfold mj_delete in H; rewrite Hid, Hpk in H; rename H into Hj end.
    destruct e as [e|]; [split; [done|]; by eapply replays_err|]. split; [by apply map_Forall_delete|].
    destruct (rp_delete n db g k (UUIDVal k) Hr) as (db' & Ea & Hrep').
    + unfold coerceToUUID. cbn [Kind UUIDVal]. by rewrite v_UUID_UUIDVal.
    + by apply wire_uuid.
    + eapply replays_ok; [exact Hj|by rewrite rp_rec_mut|done].
  - split; [done|]. destruct bodies; [done|]. by eapply replays_err.
  - by eapply replays_updatew.
  - split; [done|]. match goal with H : journal_bodies _ ?b = _ |- _ => destruct b; [done|] end. by eapply replays_err.
  - by eapply replays_deletew.
Qed.

(** After a failed write nothing changes any more. *)
Lemma step_dead (j : J) g op g' w' a : dead (Some j) -> op_wf def op -> good_map g ->
  spec_step def max ext g (Some j) op g' w' a -> g' = g /\ w' = Some j.
Proof.
  intros (j0 & e0 & [= <-] & Hd) Hop Hg Hs.
  assert (Hw : forall t p w' e, jwrite_opt (Some j) t p = (w', e) -> w' = Some j /\ e = Some e0).
  { intros t p w0 e E. unfold jwrite_opt in E. rewrite Hd in E. by injection E as <- <-. }
  assert (Hu : forall mj nr w' e, mj_update mj (Some j) nr = Ok (w', e) -> w' = Some j /\ e = Some e0).
  { intros mj nr w0 e E. unfold mj_update in E. inv_bind. by eapply Hw. }
  assert (Hb : forall b w' e, journal_bodies (Some j) b = (w', e) -> w' = Some j /\ (e = None -> b = [])).
  { intros [|x b] w0 e E; cbn in E; [by injection E as <- <-|]. apply Hw in E as [-> ->]. done. }
  inversion Hs; subst; try done;
    repeat match goal with
    | H : mj_insert _ _ _ = _ |- _ => apply Hw in H as [-> E]; try discriminate E
    | H : mj_delete _ _ = _ |- _ => apply Hw in H as [-> E]; subst e
    | H : mj_update _ _ _ = _ |- _ => apply Hu in H as [-> E]; subst e
    | H : journal_bodies _ _ = _ |- _ => apply Hb in H as [-> E]
    end; try done.
  - specialize (E eq_refl). subst bodies.
    match goal with H : Forall2 _ l [] |- _ => inversion H; subst l end. split; [|done]. apply map_eq. intros k.
    match goal with H : forall k, g' !! k = _ |- _ => rewrite H end. destruct (g !! k); [|done].
    by rewrite decide_False by apply not_elem_of_nil.
  - specialize (E eq_refl). destruct l; [|done]. split; [|done]. apply map_eq. intros k.
    match goal with H : forall k, g' !! k = _ |- _ => rewrite H end. destruct (g !! k); [|done].
    by rewrite decide_False by apply not_elem_of_nil.
Qed.

Section live.
Context (pkHashSeed : Z).
Lemma run_dead ops : forall (j : J) t g t' w' l, dead (Some j) -> tbl_ok pkHashSeed def max None ext t g ->
  room (length ops) t -> Forall (op_wf def) ops -> good_map g ->
  run_ops pkHashSeed def max t (Some j) ops = Ok (t', w', l) -> tbl_ok pkHashSeed def max None ext t' g /\ w' = Some j.
Proof.
  induction ops as [|op ops IH]; intros j t g t' w' l Hd Ht Hroom Hops Hg E; [by injection E as <- <- <-|].
  inversion Hops as [|? ? Hop Hops']; subst. cbn [run_ops] in E.
  destruct (sim_step pkHashSeed def max None ext pk_in t g (Some j) op (length ops) Ht Hroom Hop)
    as (t1 & g1 & w1 & a & E1 & Hs & Ht1 & Hr1). rewrite E1 in E. cbn [mbind outcome_bind] in E.
  destruct (step_dead j g op g1 w1 a Hd Hop Hg Hs) as [-> ->].
  destruct (run_ops pkHashSeed def max t1 (Some j) ops) as [[[t2 w2] l2]| |] eqn:E2;
    cbn [mbind outcome_bind] in E; [injection E as <- <- <-|done..].
  by eapply IH.
Qed.

Lemma replay_app recs1 recs2 db db1 : apply_records apply_rec recs1 db = (db1, Ok tt) ->
  apply_records apply_rec (recs1 ++ recs2) db = apply_records apply_rec recs2 db1.
Proof.
  revert db. induction recs1 as [|[t p] recs1 IH]; intros db E; cbn [apply_records app] in *; [by injection E as <-|].
  destruct (apply_rec db t p) as [db2| |]; [|done..]. by apply IH.
Qed.

Lemma run_replays (j : J) t g ops t' w' l db :
  tbl_ok pkHashSeed def max None ext t g -> room (length ops) t ->
  Forall (op_wf def) ops -> Forall op_good ops -> good_map g -> rep (length ops) db g ->
  run_ops pkHashSeed def max t (Some j) ops = Ok (t', w', l) -> Forall small l ->
  exists j' recs g' db', w' = Some j' /\ tbl_ok pkHashSeed def max None ext t' g' /\
    apply_records apply_rec recs db = (db', Ok tt) /\ rep 0 db' g' /\
    (jlog j' = jlog j ++ recs \/ (dead w' /\ exists r, jlog j' = jlog j ++ recs ++ [r])).
Proof.
  revert j t g l db. induction ops as [|op ops IH]; intros j t g l db Ht Hroom Hwf Hgood Hg Hrep E Hsm.
  { injection E as <- <- <-. exists j, [], g, db. rewrite app_nil_r. by auto 10. }
  inversion Hwf as [|? ? Hop Hwf']; inversion Hgood as [|? ? Hgo Hgood']; subst. cbn [run_ops] in E.
  destruct (sim_step pkHashSeed def max None ext pk_in t g (Some j) op (length ops) Ht Hroom Hop)
    as (t1 & g1 & w1 & a & E1 & Hs & Ht1 & Hr1). rewrite E1 in E. cbn [mbind outcome_bind] in E.
  destruct (run_ops pkHashSeed def max t1 w1 ops) as [[[t2 w2] l2]| |] eqn:E2;
    cbn [mbind outcome_bind] in E; [injection E as <- <- <-|done..].
  inversion Hsm as [|? ? Ha Hsm']; subst.
  destruct (step_replays (length ops) j db g op g1 w1 a Hs Hop Hgo Ha Hg Hrep)
    as [Hg1 [(j1 & recs & db1 & -> & Hl & Happ & Hrep1)|(Hd & -> & j1 & -> & Hl)]].
  - destruct (IH j1 t1 g1 l2 db1 Ht1 Hr1 Hwf' Hgood' Hg1 Hrep1 E2 Hsm')
      as (j' & recs' & g' & db' & -> & Ht' & Happ' & Hrep' & Hlog).
    exists j', (recs ++ recs'), g', db'. rewrite (replay_app _ _ _ _ Happ).
    split; [done|]. split; [done|]. split; [done|]. split; [done|].
    destruct Hlog as [Hlog|(Hd & x & Hlog)]; [left|right; split; [done|]; exists x];
      by rewrite Hlog, Hl, <- !app_assoc.
  - destruct (run_dead ops j1 t1 g t2 w2 l2 Hd Ht1 Hr1 Hwf' Hg1 E2) as [Ht2 ->].
    exists j1, [], g, db. split; [done|]. split; [done|]. split; [done|].
    split; [eapply rp_mono; [|exact Hrep]; lia|]. cbn [app]. rewrite app_nil_r.
    destruct Hl as [Hl|Hl]; [by left|by right].
Qed.
End live.
End journal.
End run.
End replayer.
