(* ===== verification/RecoveryOk.v ===== *)
(** * RecoveryOk: Open's replay as a [Replayer], and loading the mirror's rows. *)
From S2P Require Import Prelude Bytes Uuid Value PkMap Codec Frame Journal Schema Catalog Store StoreOk StoreSim Recovery Replayer.

Section replay.
Context (pkHashSeed max ncpu sizeHint : Z).

(** One table, by its registry entry. *)
Context (rt : tableRT) (ext : Z).
Local Abbreviation def := (table rt).
Local Abbreviation id := (tableID rt).
Local Abbreviation cols := (t_Columns (rt_def (table rt))).
Local Abbreviation pkof := (pkof (table rt)).
Local Abbreviation row_good := (row_good rt).
Local Abbreviation row_held := (row_held rt).
Local Abbreviation sets_good := (sets_good rt).
Local Abbreviation good_map := (good_map rt).
Local Abbreviation op_good := (op_good rt).
Local Abbreviation apply_mut := (applyMutationRecord pkHashSeed max).
Local Abbreviation apply_rec := (applyReplayRecord pkHashSeed max ncpu sizeHint).
Hypothesis id_u16 : 0 <= tableID rt < 2 ^ 16.
Hypothesis ncols_u16 : zlen (t_Columns (rt_def (table rt))) < 2 ^ 16.
Hypothesis pk_in : (pkOrd (table rt) < length (t_Columns (rt_def (table rt))))%nat.
Hypothesis pk_uuid : forall c, t_Columns (rt_def (table rt)) !! pkOrd (table rt) = Some c ->
  c_Type c = TypeUUID /\ c_Nullable c = false.

(** The database holds [g] in this table, with room for [n] more inserts. *)
Definition rep (n : nat) (db : rdb) (g : gmap UUID Row) : Prop :=
  byID (r_cat db) !! Z.to_nat id = Some (Some rt) /\
  exists t, r_tabs db !! id = Some t /\ tbl_ok pkHashSeed def max None ext (set_total t (r_total db)) g /\ room n t.

Lemma rep_put n db g t : rep n db g -> forall g' m, tbl_ok pkHashSeed def max None ext t g' -> room m t ->
  rep m (put_tab db id t) g'.
Proof.
  intros [Hid _] g' m Ht Hr. split; [done|]. exists t. cbn. rewrite lookup_insert_eq.
  split; [done|]. split; [|done]. replace (set_total t (t_total t)) with t by by destruct t. done.
Qed.

Lemma rep_get n db g : rep n db g -> exists t, get_tab db id = Ok t /\ tbl_ok pkHashSeed def max None ext t g /\ room n t.
Proof. intros (_ & t & Ht & Hok & Hr). unfold get_tab. rewrite Ht. by eexists. Qed.

(** The record header: op and table id. *)
Lemma apply_header db op body : byID (r_cat db) !! Z.to_nat id = Some (Some rt) -> 0 <= op < 256 ->
  apply_mut db (z2b op :: le_put 2 id ++ body) = applyMutation pkHashSeed max db rt op body.
Proof.
  intros Hid Hop. unfold applyMutationRecord.
  pose proof (zlen_pos body). rewrite zlen_cons, zlen_app, zlen_le_put.
  destruct (Z.ltb_spec (1 + (Z.of_nat 2 + zlen body)) 3) as [C|_]; [lia|].
  cbn [index lookup list_lookup mbind outcome_bind].
  change (z2b op :: le_put 2 id ++ body) with ([z2b op] ++ le_put 2 id ++ body).
  rewrite (slice_o_mid [z2b op] (le_put 2 id) body 1 3); [|done|by rewrite zlen_le_put]. cbn [mbind outcome_bind].
  rewrite le_get_put by (cbn; lia). rewrite Hid.
  rewrite app_assoc, (slice_o_tail ([z2b op] ++ le_put 2 id) body); [|done|lia].
  cbn [mbind outcome_bind]. by rewrite b2z_z2b, Z.mod_small.
Qed.

Lemma rep_insert n db g row : rep (S n) db g -> row_good row -> g !! pkof row = None ->
  (max <> 0 -> ext + map_cost def (<[pkof row := row]> g) <= max) ->
  exists db', apply_mut db (encodeInsertMutation [] id row) = Ok db' /\ rep n db' (<[pkof row := row]> g).
Proof.
  intros Hrep (Hwf & Hfit & Hwire) Hk Hmax.
  assert (Eb : encodeInsertMutation [] id row = z2b opInsert :: le_put 2 id ++ encodeRow [] row).
  { unfold encodeInsertMutation. rewrite encodeRow_cells, (encodeRow_cells []).
    unfold appendU16LE. by rewrite <- app_assoc. }
  rewrite Eb, (apply_header _ _ _ (proj1 Hrep)) by done. unfold applyMutation.
  change (opInsert =? opInsert) with true. cbv iota.
  rewrite row_roundtrip; [|done|unfold zlen in *; by rewrite (proj1 Hwf)]. cbn [mbind outcome_bind].
  rewrite (proj2 (validateInsertRow_ok cols row) Hfit). cbn [mbind outcome_bind]. unfold tab_insert.
  destruct (rep_get _ _ _ Hrep) as (t & -> & Ht & Hr). cbn [mbind outcome_bind]. unfold t_insert.
  destruct (insert_ok pkHashSeed def max None ext pk_in false t (None : option (list (Z * bytes))) row
    (fun w => (w, None)) g n Ht Hr Hwf (or_introl eq_refl)) as (t' & -> & Ht' & Hr'). cbn [mbind outcome_bind fst snd].
  unfold insert_result in *. rewrite Hk in *.
  assert (Ec : negb (max =? 0) && (t_total t + cost_of def row >? max) = false).
  { destruct (Z.eqb_spec max 0) as [|Hm]; [done|]. cbn [negb andb]. specialize (Hmax Hm).
    rewrite map_cost_insert in Hmax by done. rewrite (tb_total _ _ _ _ _ _ _ Ht Hm). apply gtb_false. lia. }
  rewrite Ec in *. cbn [fst snd] in *. eexists. split; [done|]. by eapply rep_put.
Qed.

Lemma t_update_ok t g k r nr mutate m : tbl_ok pkHashSeed def max None ext t g -> room m t -> g !! k = Some r ->
  mutate r = (nr, Some nr) -> row_wf def nr -> pkof nr = k ->
  exists t', t_update pkHashSeed def max t k mutate = Ok (t', true) /\
    tbl_ok pkHashSeed def max None ext t' (<[k := nr]> g) /\ room m t'.
Proof.
  intros Ht Hr Hk Hm Hw Hp. unfold t_update.
  destruct (lookup_row pkHashSeed def max None ext t g k Ht) as (s & Hs & G). rewrite Hk in G.
  destruct G as (n & Hget & Hn & Hpr & _). rewrite (index_Some _ _ _ Hs). cbn [mbind outcome_bind].
  rewrite (lift_Some _ _ Hget). cbn [mbind outcome_bind negb]. unfold live_row. rewrite Nat2Z.id.
  rewrite (index_Some _ _ _ Hn). cbn [mbind outcome_bind lift]. rewrite Hm.
  destruct (index_pk def nr Hw pk_in) as (v & -> & Ev). cbn [mbind outcome_bind]. rewrite Ev, Hp.
  rewrite bool_decide_eq_false_2 by (intros C; by apply C). unfold addBytesLocked.
  eexists. split; [done|].
  by destruct (row_replaced pkHashSeed def max None ext pk_in true t g s n r nr k (cost_of def nr - cost_of def r) m)
    as (H1 & H2 & _).
Qed.

Lemma rep_update n db g k r nr ords pk : rep n db g -> g !! k = Some r -> row_good nr -> pkof nr = k ->
  nr !! pkOrd def = Some pk -> length nr = length r -> (forall i, i ∉ ords -> nr !! i = r !! i) ->
  sets_good ords nr ->
  exists body db', encodeUpdateMutation [] id pk ords nr = Ok body /\ apply_mut db body = Ok db' /\
    rep n db' (<[k := nr]> g).
Proof.
  intros Hrep Hk Hgood Hp Hpk Hlen Hsame Hsets. pose proof Hgood as (Hwf & _ & _).
  destruct (good_pk rt pk_in pk_uuid nr Hgood) as (v & Ev & Hkind & Hco & Hwire). rewrite Hpk in Ev. injection Ev as <-.
  destruct (sets_of_total ords nr) as [sets Es].
  { destruct Hsets as (Ho & _). eapply Forall_impl; [|exact Ho]. cbv beta. intros ? ?. by rewrite (proj1 Hwf). }
  destruct (replay_sets rt ncols_u16 pk_in ords nr sets ([], []) Hsets Es) as (Ea & Hok & H2).
  destruct (update_roundtrip (replay_set cols) id pk ords nr sets ([], []) Hwire Es Hok) as (body & Eb & Ed);
    [apply Hsets|].
  exists (z2b opUpdate :: le_put 2 id ++ body).
  enough (exists db', apply_mut db (z2b opUpdate :: le_put 2 id ++ body) = Ok db' /\ rep n db' (<[k := nr]> g))
    as (db' & ? & ?) by by exists db'.
  rewrite (apply_header _ _ _ (proj1 Hrep)) by done.
  unfold applyMutation. change (opUpdate =? opInsert) with false. change (opUpdate =? opUpdate) with true. cbv iota.
  rewrite Ed, Ea. cbn [mbind outcome_bind fst snd app]. rewrite Hco. cbn [wrap mbind outcome_bind].
  destruct (rep_get _ _ _ Hrep) as (t & -> & Ht & Hr). cbn [mbind outcome_bind].
  assert (Eas : assign r ords (map snd sets) = nr).
  { apply (assign_revert nr r); [done|done|]. intros i Hi. by rewrite Hsame. }
  rewrite Hp. destruct (t_update_ok t g k r nr (fun r => (assign r ords (map snd sets), Some (assign r ords (map snd sets)))) n)
    as (t' & E & Ht' & Hr'); try done; [by rewrite Eas|].
  rewrite E. cbn [mbind outcome_bind fst snd negb]. eexists. split; [done|]. by eapply rep_put.
Qed.

Lemma rep_delete n db g k pk : rep n db g -> coerceToUUID pk = Ok k -> wire_ok pk ->
  exists db', apply_mut db (encodeDeleteMutation [] id pk) = Ok db' /\ rep n db' (delete k g).
Proof.
  intros Hrep Hco Hw. destruct (delete_roundtrip id pk Hw) as (body & -> & Ed).
  rewrite (apply_header _ _ _ (proj1 Hrep)) by done. unfold applyMutation.
  change (opDelete =? opInsert) with false. change (opDelete =? opUpdate) with false.
  change (opDelete =? opDelete) with true. cbv iota. rewrite Ed. cbn [mbind outcome_bind]. rewrite Hco.
  cbn [wrap mbind outcome_bind].
  destruct (rep_get _ _ _ Hrep) as (t & -> & Ht & Hr). cbn [mbind outcome_bind].
  destruct (deleteByPK_ok pkHashSeed def max None ext pk_in t g k n Ht Hr) as (t' & -> & Hr' & Ht').
  cbn [mbind outcome_bind fst]. eexists. split; [done|]. by eapply rep_put.
Qed.

Lemma rep_mono n m db g : (m <= n)%nat -> rep n db g -> rep m db g.
Proof.
  intros Hle (Hid & t & Ht & Hok & Hr). split; [done|]. exists t. split; [done|]. split; [done|].
  eapply Forall_impl; [|exact Hr]. cbv beta. lia.
Qed.


(** Open's replay of one table. *)
#[local] Instance rdb_replayer : Replayer max rt ext apply_mut apply_rec.
Proof.
  refine {| rp_rep := rep |}.
  - intros. by eapply rep_mono.
  - exact rep_insert.
  - exact rep_update.
  - exact rep_delete.
  - done.
  - done.
Defined.

Section journal.
Context {J : Type} `{Journal J}.
(** The write-ahead log is enough. Run any history of journaled statements on
    a table, with any journal that keeps the [Journal] promise - the segment log,
    under any schedule of I/O faults, does - and stop anywhere: the records the
    journal then holds, replayed by applyReplayRecord on a database with the
    initial contents, succeed one after the other and rebuild exactly the
    contents the live table has. Only a write that failed may have left one more
    record behind; nothing is journaled after it, and nothing after it is
    applied. Single-row statements, multi-row statements (one TXN record each),
    deletes and admission control are covered; statements touch fewer than 65536
    rows, the width of the record's count. *)
Theorem log_replays (j : J) t g ops t' w' l db :
  tbl_ok pkHashSeed def max None ext t g -> room (length ops) t ->
  Forall (op_wf def) ops -> Forall op_good ops -> good_map g -> rep (length ops) db g ->
  run_ops pkHashSeed def max t (Some j) ops = Ok (t', w', l) -> Forall small l ->
  exists j' recs g' db', w' = Some j' /\ tbl_ok pkHashSeed def max None ext t' g' /\
    apply_records apply_rec recs db = (db', Ok tt) /\ rep 0 db' g' /\
    (jlog j' = jlog j ++ recs \/ (dead w' /\ exists r, jlog j' = jlog j ++ recs ++ [r])).
Proof. apply (run_replays (R := rdb_replayer) max rt ext pk_in pk_uuid pkHashSeed). Qed.
End journal.

(** ** Loading the mirror *)
Lemma tab_insert_ok n db g row : rep (S n) db g -> row_held row -> g !! pkof row = None ->
  if negb (max =? 0) && (ext + map_cost def g + cost_of def row >? max)
  then tab_insert pkHashSeed max db rt row = Err ErrCapacity
  else exists db', tab_insert pkHashSeed max db rt row = Ok db' /\ rep n db' (<[pkof row := row]> g).
Proof.
  intros Hrep (Hwf & _) Hk. unfold tab_insert.
  destruct (rep_get _ _ _ Hrep) as (t & -> & Ht & Hr). cbn [mbind outcome_bind]. unfold t_insert.
  destruct (insert_ok pkHashSeed def max None ext pk_in false t (None : option (list (Z * bytes))) row
    (fun w => (w, None)) g n Ht Hr Hwf (or_introl eq_refl)) as (t' & -> & Ht' & Hr'). cbn [mbind outcome_bind fst snd].
  unfold insert_result in *. rewrite Hk in *.
  assert (Et : negb (max =? 0) && (t_total t + cost_of def row >? max) =
    negb (max =? 0) && (ext + map_cost def g + cost_of def row >? max)).
  { destruct (Z.eqb_spec max 0) as [|Hm]; [done|]. by rewrite (tb_total _ _ _ _ _ _ _ Ht Hm). }
  rewrite Et in *. destruct (_ && _); cbn [fst snd] in *; [done|]. eexists. split; [done|]. by eapply rep_put.
Qed.

Lemma validate_mirror_ok cs (r : Row) : row_fits cs r -> validate_mirror cs r = Ok tt.
Proof.
  induction 1 as [|c v cs r Hc Hr IH]; [done|]. cbn [validate_mirror]. rewrite (Hc : validateValue c v = Ok tt).
  cbn [wrap mbind outcome_bind]. exact IH.
Qed.

Definition rows_cost (rows : list Row) : Z := foldr (fun r z => cost_of def r + z) 0 rows.
Lemma approx_pos v : value_ok v -> 0 <= approxBytes v.
Proof.
  intros Hv. assert (Hw : 0 <= w0 v); [|unfold approxBytes; destruct (_ || _); lia].
  destruct Hv as [|z Hz|b|s Hs|s Hs|u]; unfold Str, Bytes; try (case_match; cbn [w0]; [lia|]); cbn [w0 Int Bool Null UUIDVal];
    first [apply u64_range | apply be_get_range | lia | by destruct b].
Qed.
Lemma cost_pos r : row_held r -> 0 <= cost_of def r.
Proof.
  intros ((_ & Hv) & _). unfold cost_of, rowCost. rewrite (cost_cells def).
  assert (0 <= foldr (fun v c => approxBytes v + c) 0 r).
  { induction Hv as [|v r Hv Hr IH]; cbn [foldr]; [lia|]. pose proof (approx_pos v Hv). lia. }
  unfold nIndexes, rowFixedOverhead, perIndexRowOverhead. pose proof (zlen_pos (rt_indexes def)). lia.
Qed.
Lemma rows_cost_pos rows : Forall row_held rows -> 0 <= rows_cost rows.
Proof.
  induction 1 as [|r rows Hr Hrs IH]; cbn [rows_cost foldr]; [lia|]. pose proof (cost_pos r Hr).
  unfold rows_cost in IH. lia.
Qed.

(** What a database may hold and what it can be opened with are not the same.
    An UPDATE that grows a row is never refused, so under a cap the live bytes can
    pass MaxBytes; loading the mirror inserts row by row under admission control.
    The load succeeds, with exactly the mirrored rows, if and only if their total
    cost fits the cap; otherwise Open fails with ErrCapacity, whatever the order
    the rows come in. *)
Theorem mirror_load_budget n rows : forall db g, rep (length rows + n) db g -> Forall row_held rows ->
  NoDup (pkof <$> rows) -> Forall (fun r => g !! pkof r = None) rows ->
  (max <> 0 -> ext + map_cost def g <= max) ->
  if negb (max =? 0) && (ext + map_cost def g + rows_cost rows >? max)
  then loadTableRows pkHashSeed max db rt rows = Err ErrCapacity
  else exists db', loadTableRows pkHashSeed max db rt rows = Ok db' /\
    rep n db' (fold_left (fun g kr => <[fst kr := snd kr]> g) ((fun r => (pkof r, r)) <$> rows) g).
Proof.
  induction rows as [|r rows IH]; intros db g Hrep Hg Hnd Hnew Hfit.
  { cbn [rows_cost foldr]. rewrite Z.add_0_r. destruct (Z.eqb_spec max 0) as [|Hm]; cbn [negb andb]; [by exists db|].
    rewrite gtb_false by auto. by exists db. }
  inversion Hg as [|? ? Hr Hg']; inversion Hnew as [|? ? Hk Hnew']; subst.
  cbn [fmap list_fmap] in Hnd. apply list.NoDup_cons in Hnd as [Hnin Hnd].
  pose proof (tab_insert_ok (length rows + n) db g r Hrep Hr Hk) as Hins.
  cbn [loadTableRows]. rewrite (validate_mirror_ok cols r) by apply Hr. cbn [mbind outcome_bind].
  pose proof (rows_cost_pos rows Hg') as Hpos. cbn [rows_cost foldr]. fold (rows_cost rows).
  destruct (negb (max =? 0) && (ext + map_cost def g + cost_of def r >? max)) eqn:Ec.
  - rewrite Hins. cbn [mbind outcome_bind]. apply andb_prop in Ec as [-> Ec]. cbn [andb].
    rewrite Z.gtb_ltb in Ec. apply Z.ltb_lt in Ec. by rewrite gtb_true by lia.
  - destruct Hins as (db1 & -> & Hrep1). cbn [mbind outcome_bind].
    specialize (IH db1 (<[pkof r := r]> g) Hrep1 Hg' Hnd). rewrite map_cost_insert in IH by done.
    replace (ext + map_cost def g + (cost_of def r + rows_cost rows)) with
      (ext + (map_cost def g + cost_of def r) + rows_cost rows) by lia.
    apply IH.
    + rewrite list.Forall_forall in Hnew' |- *. intros x Hx. rewrite lookup_insert_ne; [by apply Hnew'|].
      intros E. apply Hnin. rewrite E. apply list_elem_of_fmap. by exists x.
    + intros Hm. rewrite (proj2 (Z.eqb_neq _ _) Hm) in Ec. cbn [negb andb] in Ec. rewrite Z.gtb_ltb in Ec.
      apply Z.ltb_ge in Ec. lia.
Qed.
End replay.

(** ** Records no replay accepts *)

(** A NULL primary key poisons the log. resolveSchema accepts a nullable PK
    column ([CREATE TABLE t (id UUID PRIMARY KEY NULL, ...)]), an INSERT of NULL
    passes validation, and the row is live under the zero UUID; but the UPDATE
    record of that row carries the NULL cell, and so does the record of a DELETE by
    filter, and replay refuses both with ErrWALCorrupt - the next Open fails on a
    log of acknowledged writes. *)
Theorem null_pk_unreplayable pkHashSeed max rt db ords nr :
  byID (r_cat db) !! Z.to_nat (tableID rt) = Some (Some rt) -> 0 <= tableID rt < 2 ^ 16 ->
  (pkOrd (table rt) < length (t_Columns (rt_def (table rt))))%nat ->
  zlen (t_Columns (rt_def (table rt))) < 2 ^ 16 ->
  row_wf (table rt) nr -> sets_good rt ords nr -> nr !! pkOrd (table rt) = Some Null ->
  validateInsertRow (t_Columns (rt_def (table rt))) nr = Ok tt /\
  (exists body, encodeUpdateMutation [] (tableID rt) (pk_cell (table rt) nr) ords nr = Ok body /\
     applyMutationRecord pkHashSeed max db body = Err ErrWALCorrupt) /\
  applyMutationRecord pkHashSeed max db (encodeDeleteMutation [] (tableID rt) (pk_cell (table rt) nr)) =
    Err ErrWALCorrupt.
Proof.
  intros Hid Hu Hpk Hn Hwf Hs Enull. pose proof Hs as (Ho & Hlo & Hf & Hw).
  assert (Epk : pk_cell (table rt) nr = Null) by (unfold pk_cell; by rewrite Enull). rewrite Epk.
  assert (Hnull : wire_ok Null) by (split; [constructor|done]).
  split; [by apply validateInsertRow_ok|]. split.
  - destruct (sets_of_total ords nr) as [sets Es].
    { eapply Forall_impl; [|exact Ho]. cbv beta. intros ? ?. by rewrite (proj1 Hwf). }
    destruct (replay_sets rt Hn Hpk ords nr sets ([], []) Hs Es) as (Ea & Hok & _).
    destruct (update_roundtrip (replay_set (t_Columns (rt_def (table rt)))) (tableID rt) Null ords nr sets ([], [])
      Hnull Es Hok Hlo) as (body & Eb & Ed).
    eexists. split; [exact Eb|]. rewrite (apply_header pkHashSeed max rt Hu Hpk _ _ _ Hid) by done.
    unfold applyMutation. change (opUpdate =? opInsert) with false. change (opUpdate =? opUpdate) with true. cbv iota.
    by rewrite Ed, Ea.
  - destruct (delete_roundtrip (tableID rt) Null Hnull) as (body & -> & Ed).
    rewrite (apply_header pkHashSeed max rt Hu Hpk _ _ _ Hid) by done. unfold applyMutation.
    change (opDelete =? opInsert) with false. change (opDelete =? opUpdate) with false.
    change (opDelete =? opDelete) with true. cbv iota. by rewrite Ed.
Qed.

(** ** Admission control and DROP TABLE *)

(** C31: DROP TABLE does not give its bytes back. The dropped table's storage is
    unreachable, but the shared total still counts every row it held. After the
    DROP, and after any further DDL (which leaves the total alone), an insert into
    any table is refused as soon as it does not fit beside the dropped rows,
    although the live tables hold only [ext] bytes. *)
Theorem drop_table_leaks_budget {J} `{Journal J} pkHashSeed max (w w' : option J) db db' name rt ext g n :
  max <> 0 -> byName (r_cat db) !! name = Some rt -> rep pkHashSeed max rt ext n db g ->
  db_drop db w name = (db', w', Ok tt) ->
  r_tabs db' !! tableID rt = None /\ r_total db' = ext + map_cost (table rt) g /\
  forall db2 rt2 ext2 g2 m row, r_total db2 = r_total db' ->
    (pkOrd (table rt2) < length (t_Columns (rt_def (table rt2))))%nat ->
    rep pkHashSeed max rt2 ext2 (S m) db2 g2 -> row_good rt2 row -> g2 !! pkof (table rt2) row = None ->
    max < ext + map_cost (table rt) g + cost_of (table rt2) row ->
    tab_insert pkHashSeed max db2 rt2 row = Err ErrCapacity.
Proof.
  intros Hm Hname (Hid & t & Ht & Hok & _) E.
  assert (Etot : r_total db = ext + map_cost (table rt) g) by apply (tb_total _ _ _ _ _ _ _ Hok Hm).
  unfold db_drop in E. destruct (dropTable (r_cat db) w name) as [[c w1] o]. rewrite Hname in E.
  destruct o as [[]| |]; [|discriminate E|discriminate E]. injection E as <- <-. cbn [r_tabs r_total].
  split; [by rewrite lookup_delete_eq|]. split; [done|]. intros db2 rt2 ext2 g2 m row Etot3 Hpk Hrep Hrow Hk Hover.
  pose proof (tab_insert_ok pkHashSeed max rt2 ext2 Hpk m _ g2 row Hrep (good_held _ _ Hrow) Hk) as Hins.
  destruct Hrep as (_ & t2 & _ & Hok2 & _).
  pose proof (tb_total _ _ _ _ _ _ _ Hok2 Hm) as Etot2. cbn [t_total set_total] in Etot2.
  rewrite (proj2 (Z.eqb_neq _ _) Hm) in Hins. cbn [negb andb] in Hins.
  by rewrite gtb_true in Hins by lia.
Qed.

(** ** A small database *)
Definition cat0 : catalog := match newCatalog [users_def] with Ok c => c | _ => MkCatalog 0 ∅ [] end.
Definition users_tab : tableRT := MkTableRT 0 users_rt.
Definition db0 : rdb := MkRdb cat0 {[0 := t0]} 0.
Definition users_encode (ords : list nat) (r : Row) : outcome bytes :=
  pk ← index r 0; encodeUpdateMutation [] 0 pk ords r.
Definition log_ops : list tbl_op :=
  [OInsert (ada 36 (lit "ada")) users_mj;
   OInsert (ada 37 (lit "twin")) users_mj;
   OUpdate ada_id [1%nat] (fun _ => Ok [Int 40]) users_mj;
   ODeleteWhere None (fun r => bool_decide (length r = 2%nat)) (fun pk => encodeDeleteMutation [] 0 pk);
   ODelete ada_id users_mj;
   OInsert (ada 41 (lit "ada")) users_mj].

Lemma ada_good age name : in_s64 age -> zlen name < 2 ^ 32 -> ValidString name = true ->
  row_good users_tab (ada age name).
Proof.
  intros Ha Hn Hv. split; [apply ada_wf; [done|lia]|]. unfold zlen in Hn.
  assert (Hs : value_ok (Str name)) by (apply ok_str; lia).
  split.
  - apply validateInsertRow_ok. unfold validateInsertRow, ada. cbn [length negb Nat.eqb].
    change (t_Columns (rt_def (table users_tab))) with (t_Columns users_def).
    cbn [validate_cells t_Columns users_def]. unfold validateValue at 1. cbn.
    unfold validateValue, IsNull. rewrite Kind_Str. cbn. rewrite v_Str_Str by lia. by rewrite Hv.
  - unfold ada. apply Forall_cons_2; [apply wire_uuid|]. apply Forall_cons_2; [split; [by apply ok_int|done]|].
    apply Forall_cons_2; [|constructor]. split; [done|]. rewrite v_Str_Str by lia. split; [done|].
    unfold Str, v_Bytes. destruct (length name =? 0)%nat; cbn [ptr w0]; [done|].
    unfold zlen. rewrite length_take. lia.
Qed.

Lemma db0_rep n : Z.of_nat n <= 2 ^ 50 -> rep 0 1000 users_tab 0 n db0 ∅.
Proof.
  intros Hn. split; [by vm_compute|]. exists t0. split; [apply lookup_singleton_eq|].
  destruct (newTable_ok 0 users_rt 1000 None 0 ltac:(vm_compute; lia) 1 0 0 n) as (t & E & H1 & H2); try done; try lia.
  unfold t0. rewrite E. split; [|done]. change (r_total db0) with 0.
  unfold newTable in E. replace (set_total t 0) with t; [done|].
  destruct (lift _) in E; [|done..]. by injection E as <-.
Qed.
Lemma users_pk_uuid c : t_Columns (rt_def (table users_tab)) !! pkOrd (table users_tab) = Some c ->
  c_Type c = TypeUUID /\ c_Nullable c = false.
Proof. by intros [= <-]. Qed.

Lemma log_ops_wf : Forall (op_wf users_rt) log_ops.
Proof.
  unfold log_ops. apply Forall_cons_2; [by apply ada_wf|]. apply Forall_cons_2; [by apply ada_wf|].
  apply Forall_cons_2.
  { split; [apply list.NoDup_singleton|]. split; [split; [vm_compute; lia|repeat constructor]|].
    split; [done|]. intros r vals Hr [= <-]. split; [done|].
    split; (apply Forall_cons_2; [|constructor]); [by apply ok_int|vm_compute; split; lia]. }
  apply Forall_cons_2; [exact I|]. apply Forall_cons_2; [exact I|].
  apply Forall_cons_2; [by apply ada_wf|constructor].
Qed.
Lemma log_ops_good : Forall (op_good users_tab) log_ops.
Proof.
  unfold log_ops. apply Forall_cons_2; [split; [by apply ada_good|reflexivity]|].
  apply Forall_cons_2; [split; [by apply ada_good|reflexivity]|].
  apply Forall_cons_2.
  { split; [repeat split; vm_compute; reflexivity|]. intros r vals _ [= <-]. constructor; [|constructor].
    eexists. split; [vm_compute; reflexivity|]. split; [reflexivity|]. split; [by apply ok_int|done]. }
  apply Forall_cons_2; [intros pk; reflexivity|]. apply Forall_cons_2; [split; reflexivity|].
  apply Forall_cons_2; [split; [by apply ada_good|reflexivity]|constructor].
Qed.

Lemma log_replays_witness : exists t' j' l recs g' db',
  run_ops 0 users_rt 1000 t0 (Some ([] : list (Z * bytes))) log_ops = Ok (t', Some j', l) /\
  tbl_ok 0 users_rt 1000 None 0 t' g' /\
  apply_records (applyReplayRecord 0 1000 1 0) recs db0 = (db', Ok tt) /\
  rep 0 1000 users_tab 0 0 db' g' /\ (j' = recs \/ dead (Some j') /\ exists r, j' = recs ++ [r]).
Proof.
  destruct (run_ops 0 users_rt 1000 t0 (Some ([] : list (Z * bytes))) log_ops) as [[[t' w'] l]| |] eqn:E;
    [|exfalso; vm_compute in E; discriminate E..].
  assert (El : l = [ADone 1 None; ADone 0 (Some ErrDuplicatePK); ADone 1 None; ADone 0 None; ADone 1 None; ADone 1 None]).
  { assert (X : match run_ops 0 users_rt 1000 t0 (Some ([] : list (Z * bytes))) log_ops with Ok (_, _, l) => l | _ => [] end =
      [ADone 1 None; ADone 0 (Some ErrDuplicatePK); ADone 1 None; ADone 0 None; ADone 1 None; ADone 1 None])
      by (vm_compute; reflexivity).
    by rewrite E in X. }
  destruct (log_replays 0 1000 1 0 users_tab 0 ltac:(vm_compute; split; congruence) ltac:(vm_compute; congruence)
    ltac:(vm_compute; lia) users_pk_uuid ([] : list (Z * bytes)) t0 ∅ log_ops t' w' l db0)
    as (j' & recs & g' & db' & -> & H1 & H2 & H3 & H4).
  - apply t0_ok.
  - eapply Forall_impl; [|apply t0_ok]. cbv beta. intros s. change (length log_ops) with 6%nat. lia.
  - exact log_ops_wf.
  - exact log_ops_good.
  - apply map_Forall_empty.
  - by apply db0_rep.
  - exact E.
  - rewrite El. repeat constructor.
  - exists t', j', l, recs, g', db'. split; [done|]. split; [done|]. split; [done|]. split; [done|].
    destruct H4 as [H4|[Hd [r H4]]]; [left; exact H4|right; split; [exact Hd|]; exists r; exact H4].
Defined.

Definition big_name : bytes := replicate 1000 (z2b 97).
Definition growth_ops : list tbl_op :=
  [OInsert (ada 36 (lit "ada")) users_mj;
   OUpdateOne ada_id 2 (fun _ => Ok (Str big_name)) users_mj;
   OStats; OGet ada_id].
(** A cap of 1000 bytes: the insert fits, the update grows the row past the cap,
    and the row it leaves is the one the mirror holds. *)
Lemma mirror_load_budget_witness :
  match run_ops 0 users_rt 1000 t0 (Some ([] : list (Z * bytes))) growth_ops with
  | Ok (_, _, l) => l = [ADone 1 None; ADone 1 None; AStats 1 1256; ARow (Some (ada 36 big_name))]
  | _ => False
  end /\
  loadTableRows 0 1000 db0 users_tab [ada 36 big_name] = Err ErrCapacity.
Proof.
  split; [vm_compute; reflexivity|].
  pose proof (mirror_load_budget 0 1000 users_tab 0 ltac:(vm_compute; lia) 0 [ada 36 big_name] db0 ∅) as H.
  change (rows_cost users_tab [ada 36 big_name]) with 1256 in H. apply H.
  - by apply db0_rep.
  - constructor; [|constructor]. apply good_held, ada_good; [split; vm_compute; congruence|vm_compute; reflexivity|vm_compute; reflexivity].
  - apply list.NoDup_singleton.
  - constructor; [apply lookup_empty|constructor].
  - done.
Defined.

(** A 3-column row whose key is NULL, of a table the schema accepts. *)
Definition nullpk_def : TableDef :=
  MkTable (lit "t") [MkCol (lit "id") TypeUUID true false false true; MkCol (lit "n") TypeInt false false false false] [].
Definition nullpk_rt : resolvedTable :=
  match resolve_table nullpk_def with Ok rt => rt | _ => users_rt end.
Definition nullpk_tab : tableRT := MkTableRT 0 nullpk_rt.
Definition nullpk_db : rdb := MkRdb (withTable (MkCatalog 0 ∅ []) nullpk_tab) ∅ 0.
Lemma null_pk_unreplayable_witness :
  resolve_table nullpk_def = Ok nullpk_rt /\
  validateInsertRow (t_Columns nullpk_def) [Null; Int 7] = Ok tt /\
  (exists body, encodeUpdateMutation [] 0 Null [1%nat] [Null; Int 7] = Ok body /\
     applyMutationRecord 0 0 nullpk_db body = Err ErrWALCorrupt) /\
  applyMutationRecord 0 0 nullpk_db (encodeDeleteMutation [] 0 Null) = Err ErrWALCorrupt.
Proof.
  split; [vm_compute; reflexivity|].
  assert (Hw : Forall wire_ok [Null; Int 7]).
  { apply Forall_cons_2; [by split; [constructor|]|]. apply Forall_cons_2; [|constructor]. by split; [apply ok_int|]. }
  assert (Hv : Forall value_ok [Null; Int 7]).
  { eapply Forall_impl; [|exact Hw]. by intros v [? _]. }
  apply (null_pk_unreplayable 0 0 nullpk_tab nullpk_db [1%nat] [Null; Int 7]);
    [vm_compute; reflexivity|done|vm_compute; lia|vm_compute; reflexivity|by split| |reflexivity].
  split; [repeat constructor|]. split; [done|]. split; [|done]. repeat constructor.
Defined.

(** One row of 856 bytes under a cap of 1000, then DROP. *)
Definition db1 : rdb :=
  match tab_insert 0 1000 db0 users_tab (ada 36 (replicate 600 (z2b 97))) with Ok db => db | _ => db0 end.
Definition db2 : rdb := fst (fst (db_drop db1 (None : option (list (Z * bytes))) (lit "users"))).
Definition db3 : rdb :=
  match db_create 1 0 db2 (None : option (list (Z * bytes))) users_def with Ok (db, _, _) => db | _ => db2 end.
Lemma db1_rep : rep 0 1000 users_tab 0 0 db1 {[ada_id := ada 36 (replicate 600 (z2b 97))]}.
Proof.
  pose proof (tab_insert_ok 0 1000 users_tab 0 ltac:(vm_compute; lia) 0 db0 ∅ (ada 36 (replicate 600 (z2b 97)))
    ltac:(by apply db0_rep) ltac:(apply good_held, ada_good; [done|done|vm_compute; reflexivity]) (lookup_empty _)) as H.
  destruct (negb (1000 =? 0) && _) eqn:Ec in H; [vm_compute in Ec; discriminate Ec|].
  destruct H as (db' & E & Hrep).
  unfold db1. rewrite E.
  replace (pkof (table users_tab) (ada 36 (replicate 600 (z2b 97)))) with ada_id in Hrep; [exact Hrep|].
  change (pkof (table users_tab) (ada 36 (replicate 600 (z2b 97)))) with (v_UUID (UUIDVal ada_id)).
  by rewrite v_UUID_UUIDVal.
Qed.
Lemma db3_rep : rep 0 1000 (MkTableRT 1 users_rt) 856 1 db3 ∅.
Proof.
  split; [by vm_compute|].
  destruct (newTable_ok 0 users_rt 1000 None 856 ltac:(vm_compute; lia) 1 0 856 1) as (t & E & H1 & H2); try done; try lia.
  exists t. split; [|split; [|exact H2]].
  - assert (X : match newTable 1 0 856 with Ok t => r_tabs db3 !! 1 = Some t | _ => False end)
      by (vm_compute; reflexivity).
    by rewrite E in X.
  - change (r_total db3) with 856. unfold newTable in E. replace (set_total t 856) with t; [done|].
    destruct (lift _) in E; [|done..]. by injection E as <-.
Qed.
Lemma ada300_good : row_good (MkTableRT 1 users_rt) (ada 36 (replicate 300 (z2b 97))).
Proof.
  pose proof (ada_good 36 (replicate 300 (z2b 97))) as H.
  apply H; [split; vm_compute; congruence|vm_compute; reflexivity|vm_compute; reflexivity].
Qed.
Lemma drop_table_leaks_budget_witness :
  r_tabs db2 !! 0 = None /\ r_total db2 = 0 + map_cost users_rt {[ada_id := ada 36 (replicate 600 (z2b 97))]} /\
  tab_insert 0 1000 db3 (MkTableRT 1 users_rt) (ada 36 (replicate 300 (z2b 97))) = Err ErrCapacity.
Proof.
  destruct (drop_table_leaks_budget 0 1000 (None : option (list (Z * bytes))) None db1 db2 (lit "users") users_tab 0
    {[ada_id := ada 36 (replicate 600 (z2b 97))]} 0) as (H1 & H2 & H3);
    [done|by vm_compute|exact db1_rep|by vm_compute|].
  split; [exact H1|]. split; [exact H2|].
  apply (H3 db3 (MkTableRT 1 users_rt) 856 ∅ 0%nat); [by vm_compute|vm_compute; lia|exact db3_rep| |apply lookup_empty|by vm_compute].
  exact ada300_good.
Defined.
