(* ===== verification/Select.v ===== *)
(** * Select: the single-table SELECT executors of exec_select.go over the rows
    and the indexes of a table without a partition key.

    A reader takes the shard and index locks one at a time; here it runs on one
    state of the table, nobody in between (MergeSafe.index_read_gap is what an
    interleaved merge can do). The column names every executor answers are the
    plan's and are left out. A result row is a view of its own span of one packed
    buffer that only grows: the cells it was appended with. *)
From S2P Require Import Prelude Bytes Order Uuid Value CompositeKey PkMap Schema Catalog SecIndex Store Merge Ast Eval Filter TopN Plan PlanJoin Recovery.

(** ** One row under its shard lock *)
Section rows.
Context (pkHashSeed : Z) (t : tbl_state).

(** [s.pk.get(pk)], then the arena slot: nil for a deleted row. *)
Definition live_row_at (pk : UUID) : outcome (option Row) :=
  s ← index (t_shards t) (idx t pk);
  g ← lift (pk_get pkHashSeed (s_pk s) pk);
  let '(rowID, ok) := g in
  if negb ok then Ok None else index (s_rows s) (Z.to_nat rowID).

Definition offerLiveRow (ord : nat) (desc : bool) (capN : Z) (proj : option (list nat)) (pk : UUID) (pred : predicate) (top : topN)
  : outcome topN :=
  r ← live_row_at pk;
  match r with
  | None => Ok top
  | Some r => b ← pred r; if b : bool then offer ord desc capN proj top r else Ok top
  end.
Definition collectLiveRow (ord : nat) (proj : option (list nat)) (pk : UUID) (pred : predicate) (top : topN) : outcome topN :=
  r ← live_row_at pk;
  match r with
  | None => Ok top
  | Some r => b ← pred r; if b : bool then collect ord proj top r else Ok top
  end.

Definition getMatchProject (pk : UUID) (pred : predicate) (ords : list nat) (starAll : bool) : outcome (option Row) :=
  r ← live_row_at pk;
  match r with
  | None => Ok None
  | Some r =>
      b ← pred r;
      if negb b then Ok None
      else if starAll then Ok (Some (Row_Clone r))
      else pr ← projectClone r ords; Ok (Some pr)
  end.
(** A nil [pred] guarantees the match. *)
Definition appendMatchProject (pk : UUID) (pred : option predicate) (ords : list nat) (starAll : bool) (dst : list Value)
  : outcome (list Value * bool) :=
  r ← live_row_at pk;
  match r with
  | None => Ok (dst, false)
  | Some r =>
      b ← match pred with Some p => p r | None => Ok true end;
      if negb b then Ok (dst, false)
      else if starAll then Ok (appendRowClone dst r, true)
      else d ← appendProjectClone dst r ords; Ok (d, true)
  end.
Definition getMatchProjectInto (pk : UUID) (pred : predicate) (ords : list nat) (starAll : bool) (dst : list Value)
  : outcome (list Value * bool) :=
  appendMatchProject pk (Some pred) ords starAll (take 0 dst).
End rows.

(** ** Candidates *)
Record idxCandidateSet : Type := MkCand {
  cs_pks : list UUID;
  cs_dirty : list UUID;
}.
Definition capHint (c : idxCandidateSet) (limit : Z) : Z :=
  let n := zlen (cs_pks c) + zlen (cs_dirty c) in
  let n := if (0 <=? limit) && (limit <? n) then limit else n in
  if n >? 1024 then 1024 else n.

(** The visitor threads a state and answers true to stop. *)
Section emit.
Context {A : Type} (fn : A -> UUID -> outcome (A * bool)).
Fixpoint each_pk (pks : list UUID) (a : A) : outcome (A * bool) :=
  match pks with
  | [] => Ok (a, false)
  | pk :: pks => x ← fn a pk; if snd x : bool then Ok x else each_pk pks (fst x)
  end.
Fixpoint each_new (pks : list UUID) (seen : gset UUID) (a : A) : outcome (A * gset UUID * bool) :=
  match pks with
  | [] => Ok (a, seen, false)
  | pk :: pks =>
      if bool_decide (pk ∈ seen) then each_new pks seen a
      else
        let seen := {[pk]} ∪ seen in
        x ← fn a pk;
        if snd x : bool then Ok (fst x, seen, true) else each_new pks seen (fst x)
  end.
Definition emit (c : idxCandidateSet) (a : A) : outcome A :=
  if (length (cs_dirty c) =? 0)%nat then x ← each_pk (cs_pks c) a; Ok (fst x)
  else
    x ← each_new (cs_pks c) ∅ a;
    let '(a, seen, stop) := x in
    if stop : bool then Ok a else y ← each_new (cs_dirty c) seen a; Ok (fst (fst y)).
End emit.

(** ** Ordered streams *)
Record dcand : Type := MkDcand {
  dc_key : indexKey;
  dc_row : Row;
}.
Definition dcand_cmp (a b : dcand) : Z :=
  if less (dc_key a) (dc_key b) then -1 else if less (dc_key b) (dc_key a) then 1 else 0.

(** Both streams in walking order: the two indexes run down when [desc], which is
    the reversed lists here. *)
Section streams.
Context {A : Type} (dirtySet : gset UUID) (desc : bool) (done : A -> bool)
  (emitIdx : A -> UUID -> outcome A) (emitDirty : A -> Row -> outcome A).
Definition before (a b : indexKey) : bool := if desc then less b a else less a b.
Fixpoint skip_shadowed (snap : list ordEntry) : list ordEntry :=
  match snap with
  | [] => []
  | e :: rest => if bool_decide (oe_pk e ∈ dirtySet) then skip_shadowed rest else snap
  end.
Fixpoint merge_streams (fuel : nat) (snap : list ordEntry) (dc : list dcand) (a : A) : outcome A :=
  match fuel with
  | O => Ok a
  | S fuel =>
      if done a then Ok a
      else
        let snap := skip_shadowed snap in
        match snap, dc with
        | e :: snap', d :: dc' =>
            if before (dc_key d) (oe_key e) then a ← emitDirty a (dc_row d); merge_streams fuel snap dc' a
            else a ← emitIdx a (oe_pk e); merge_streams fuel snap' dc a
        | [], d :: dc' => a ← emitDirty a (dc_row d); merge_streams fuel snap dc' a
        | e :: snap', [] => a ← emitIdx a (oe_pk e); merge_streams fuel snap' dc a
        | [], [] => Ok a
        end
  end.
(** Every round but the last takes an element of one of the two. *)
Definition mergeOrderedStreams (snap : list ordEntry) (dc : list dcand) (a : A) : outcome A :=
  merge_streams (S (length snap + length dc))
    (if desc then rev snap else snap) (if desc then rev dc else dc) a.
End streams.

(** ** The window of an ordered walk *)
Definition flipRangeOp (op : tokenKind) : tokenKind :=
  match op with tkLt => tkGt | tkLte => tkGte | tkGt => tkLt | tkGte => tkLte | _ => op end.
(** One side of a range: None until a bound is found. *)
Definition rangeBound : Type := option (Value * tokenKind).
Definition is_col (ord : nat) (e : expr) : bool := match e with colRef _ _ o => o =? Z.of_nat ord | _ => false end.
Definition range_of (ord : nat) (e : expr) : option (tokenKind * expr) :=
  match e with
  | binOp op lhs rhs =>
      if is_col ord lhs && isLitOrParam rhs then Some (op, rhs)
      else if is_col ord rhs && isLitOrParam lhs then Some (flipRangeOp op, lhs)
      else None
  | _ => None
  end.
Definition take_bound (b : rangeBound) (op : tokenKind) (e : expr) (args : list Value) : rangeBound :=
  match b with
  | Some _ => b
  | None => match evalLitOrParamValue e args with Ok v => Some (v, op) | _ => None end
  end.
Fixpoint range_loop (conjs : list expr) (ord : nat) (args : list Value) (lo hi : rangeBound) : rangeBound * rangeBound :=
  match conjs with
  | [] => (lo, hi)
  | c :: conjs =>
      match range_of ord c with
      | Some ((tkGt | tkGte) as op, e) => range_loop conjs ord args (take_bound lo op e args) hi
      | Some ((tkLt | tkLte) as op, e) => range_loop conjs ord args lo (take_bound hi op e args)
      | _ => range_loop conjs ord args lo hi
      end
  end.
Definition orderColumnRange (conjs : list expr) (ord : nat) (args : list Value) : rangeBound * rangeBound :=
  range_loop conjs ord args None None.

Definition seek_start (snap : list ordEntry) (kd : ValueKind) (lo : rangeBound) : nat :=
  match lo with
  | Some (v, op) =>
      let lk := keyOf v in
      if IsNull v || negb (bool_decide (ik_kind lk = kd)) then 0%nat
      else if bool_decide (op = tkGt) then Search (length snap) (at_ snap (fun e => less lk (oe_key e)))
      else Search (length snap) (at_ snap (fun e => negb (less (oe_key e) lk)))
  | None => 0%nat
  end.
Definition seek_end (snap : list ordEntry) (kd : ValueKind) (hi : rangeBound) : nat :=
  match hi with
  | Some (v, op) =>
      let hk := keyOf v in
      if IsNull v || negb (bool_decide (ik_kind hk = kd)) then length snap
      else if bool_decide (op = tkLt) then Search (length snap) (at_ snap (fun e => negb (less (oe_key e) hk)))
      else Search (length snap) (at_ snap (fun e => less hk (oe_key e)))
  | None => length snap
  end.
Definition seekOrderedSnap (snap : list ordEntry) (conjs : list expr) (ord : nat) (args : list Value) : list ordEntry :=
  match snap with
  | [] => snap
  | e0 :: _ =>
      let '(lo, hi) := orderColumnRange conjs ord args in
      let start := seek_start snap (ik_kind (oe_key e0)) lo in
      let end_ := seek_end snap (ik_kind (oe_key e0)) hi in
      if (end_ <=? start)%nat then [] else slice snap start end_
  end.

(** ** Result rows *)
Record packed_out : Type := MkOut {
  po_packed : list Value;
  po_out : list Row;
}.
Definition full (eff : Z) (o : packed_out) : bool := (0 <=? eff) && (zlen (po_out o) >=? eff).
(** One more row at the end of the backing, or of its own when unbounded. *)
Definition appendProjected (ords : list nat) (starAll bounded : bool) (o : packed_out) (src : Row) : outcome packed_out :=
  if negb bounded then
    r ← (if starAll then Ok (Row_Clone src) else projectClone src ords);
    Ok (MkOut (po_packed o) (po_out o ++ [r]))
  else
    let start := length (po_packed o) in
    packed ← (if starAll then Ok (appendRowClone (po_packed o) src) else appendProjectClone (po_packed o) src ords);
    Ok (MkOut packed (po_out o ++ [drop start packed])).

(** ** The executors *)
(** [projOrNil] *)
Definition projOrNil (starAll : bool) (ords : list nat) : option (list nat) := if starAll then None else Some ords.
Section select.
Context (pkHashSeed : Z) (SortFunc : forall A : Type, (A -> A -> Z) -> list A -> list A).
(** The largest capacity [make] accepts for a []Value. *)
Context (maxCells : Z).
Context (t : tbl_state) (ixs : list secIndex).
(** [pl], [pl.st] and [pl.rt.def]. *)
Context (pl : plan) (st : selectStmt) (rt : resolvedTable).
Local Abbreviation acc := (pl_access pl).
Local Abbreviation ords := (pl_projOrdinals pl).
Local Abbreviation starAll := (sel_starAll st).
Local Abbreviation desc := (sel_orderDesc st).
Local Abbreviation limit := (sel_limit st).
Local Abbreviation offset := (sel_offset st).
Local Abbreviation where_ := (sel_where st).
Definition orderOrd : nat := Z.to_nat (pl_orderOrdinal pl).
Definition matcher (args : list Value) : predicate := rowMatcher where_ (rt_colByName rt) args.
Definition sel_ctx (args : list Value) : evalCtx := MkCtx [] (rt_colByName rt) args.

(** *** By primary key *)
Definition execSelectPKResolved (pk : UUID) : outcome (list Row) :=
  if (limit =? 0) || (0 <? offset) then Ok []
  else if starAll then r ← getByPK pkHashSeed t pk; Ok (match r with Some r => [r] | None => [] end)
  else pr ← getByPKProject pkHashSeed t pk ords; Ok (match pr with Some pr => [pr] | None => [] end).
Definition execSelectPK (keyVal : Value) : outcome (list Row) :=
  if IsNull keyVal then Ok [] else pk ← coerceToUUID keyVal; execSelectPKResolved pk.
(** The QueryRow form: a nil row for none. *)
Definition execSelectPKOneResolved (pk : UUID) : outcome (option Row) :=
  if (limit =? 0) || (0 <? offset) then Ok None
  else if starAll then getByPK pkHashSeed t pk
  else getByPKProject pkHashSeed t pk ords.
Definition execSelectPKOne (keyVal : Value) : outcome (option Row) :=
  if IsNull keyVal then Ok None else pk ← coerceToUUID keyVal; execSelectPKOneResolved pk.
(** [proj[i] = r[ord]]: the row is already a clone. *)
Definition execSelectPKResidual (keyVal : Value) (args : list Value) : outcome (list Row) :=
  if (limit =? 0) || (0 <? offset) then Ok []
  else if IsNull keyVal then Ok []
  else
    pk ← coerceToUUID keyVal;
    r ← getByPK pkHashSeed t pk;
    match r with
    | None => Ok []
    | Some r =>
        b ← matcher args r;
        if negb b then Ok []
        else if starAll then Ok [r]
        else pr ← get_cells r ords; Ok [pr]
    end.

(** *** Candidates of an indexed SELECT: None when provably empty *)
Fixpoint idx_loop (pins : list (nat * expr)) (pks : option (list UUID)) (ctx : evalCtx) : outcome (option (list UUID)) :=
  match pins with
  | [] => Ok (Some (default [] pks))
  | (ord, src) :: pins =>
      keyVal ← evalExpr (Some src) ctx;
      if IsNull keyVal then Ok None
      else match indexFor ixs ord with
      | None => Ok None
      | Some si =>
          let bucket := lookup si (keyOf keyVal) in
          let pks := match pks with None => bucket | Some p => intersectPKs p bucket end in
          if (length pks =? 0)%nat then Ok (Some []) else idx_loop pins (Some pks) ctx
      end
  end.
Definition with_overlay (pks : list UUID) : outcome (option idxCandidateSet) :=
  dirty ← dirtyPKs pkHashSeed t;
  Ok (if (length pks =? 0)%nat && (length dirty =? 0)%nat then None else Some (MkCand pks dirty)).
Definition idxCandidates (ctx : evalCtx) : outcome (option idxCandidateSet) :=
  pks ← idx_loop (zip (idxCols acc) (idxSrcs acc)) None ctx;
  match pks with None => Ok None | Some pks => with_overlay pks end.
Fixpoint prefix_values (srcs : list expr) (ctx : evalCtx) : outcome (option (list Value)) :=
  match srcs with
  | [] => Ok (Some [])
  | src :: srcs =>
      v ← evalExpr (Some src) ctx;
      if IsNull v then Ok None
      else l ← prefix_values srcs ctx; Ok (match l with Some l => Some (v :: l) | None => None end)
  end.
Definition compositeCandidates (ctx : evalCtx) : outcome (option idxCandidateSet) :=
  match indexByOrdinals ixs (compOrdinals acc) with
  | None => Ok None
  | Some si =>
      prefix ← prefix_values (compPrefixSrcs acc) ctx;
      match prefix with
      | None => Ok None
      | Some prefix => with_overlay (prefixLookup si (encodeCompositeKey prefix))
      end
  end.

(** *** Materializing candidates *)
Definition pack_match (pred : option predicate) (eff : Z) (o : packed_out) (pk : UUID) : outcome (packed_out * bool) :=
  let start := length (po_packed o) in
  x ← appendMatchProject pkHashSeed t pk pred ords starAll (po_packed o);
  let '(packed, ok) := x in
  if negb ok then Ok (MkOut packed (po_out o), false)
  else let o := MkOut packed (po_out o ++ [drop start packed]) in Ok (o, full eff o).
Definition execCandidates (args : list Value) (cand : idxCandidateSet) : outcome (list Row) :=
  let proj := projOrNil starAll ords in
  if 0 <=? pl_orderOrdinal pl then
    let pred := matcher args in
    if 0 <=? limit then
      let capN := fetchBound limit offset in
      top ← emit (fun top pk => top ← offerLiveRow pkHashSeed t orderOrd desc capN proj pk pred top; Ok (top, false)) cand topN_empty;
      Ok (sliceOffsetLimit (sorted_rows desc (SortFunc topEntry) top) offset limit)
    else
      top ← emit (fun top pk => top ← collectLiveRow pkHashSeed t orderOrd proj pk pred top; Ok (top, false)) cand topN_empty;
      Ok (sliceOffsetLimit (sorted_rows desc (SortFunc topEntry) top) offset limit)
  else
    let eff := fetchBound limit offset in
    let pred := if idxExact acc && (length (cs_dirty cand) =? 0)%nat then None else Some (matcher args) in
    o ← (if (length (cs_dirty cand) =? 0)%nat
         then x ← each_pk (pack_match pred eff) (cs_pks cand) (MkOut [] []); Ok (fst x)
         else emit (pack_match pred eff) cand (MkOut [] []));
    Ok (sliceOffsetLimit (po_out o) offset limit).

(** The point-read shortcut of an exact single-column index: None falls through
    to the general path. *)
Definition point_read (off : Z) (args : list Value) : outcome (option (option Row)) :=
  if negb (idxExact acc && (length (idxCols acc) =? 1)%nat && (t_readDirty t =? 0)) then Ok None
  else
    src ← index (idxSrcs acc) 0;
    keyVal ← evalLitOrParamValue src args;
    if IsNull keyVal then Ok (Some None)
    else
      ord ← index (idxCols acc) 0;
      match indexFor ixs ord with
      | None => Ok None
      | Some si =>
          let '(pk, found, one) := lookupOne si (keyOf keyVal) in
          if negb found then Ok (Some None)
          else if negb one then Ok None
          else if 0 <? off then Ok (Some None)
          else if starAll then r ← getByPK pkHashSeed t pk; Ok (Some r)
          else r ← getByPKProject pkHashSeed t pk ords; Ok (Some r)
      end.
Definition opt_row (r : option Row) : list Row := match r with Some r => [r] | None => [] end.
Definition execSelectIdx (args : list Value) : outcome (list Row) :=
  if limit =? 0 then Ok []
  else
    fast ← (if pl_orderOrdinal pl <? 0 then point_read offset args else Ok None);
    match fast with
    | Some r => Ok (opt_row r)
    | None =>
        cand ← idxCandidates (sel_ctx args);
        match cand with None => Ok [] | Some cand => execCandidates args cand end
    end.
Fixpoint first_match (pks : list UUID) (pred : predicate) : outcome (option Row) :=
  match pks with
  | [] => Ok None
  | pk :: pks =>
      r ← getMatchProject pkHashSeed t pk pred ords starAll;
      match r with Some r => Ok (Some r) | None => first_match pks pred end
  end.
(** queryRowPlanV comes here without ORDER BY or OFFSET only. *)
Definition execSelectIdxOne (args : list Value) : outcome (option Row) :=
  if limit =? 0 then Ok None
  else
    fast ← point_read 0 args;
    match fast with
    | Some r => Ok r
    | None =>
        pks ← idx_loop (zip (idxCols acc) (idxSrcs acc)) None (sel_ctx args);
        match pks with
        | None => Ok None
        | Some pks =>
            let pred := matcher args in
            r ← first_match pks pred;
            match r with
            | Some r => Ok (Some r)
            | None => d ← dirtyPKs pkHashSeed t; first_match d pred
            end
        end
    end.
Definition execSelectCompositeLookup (args : list Value) : outcome (list Row) :=
  if limit =? 0 then Ok []
  else
    cand ← compositeCandidates (sel_ctx args);
    match cand with None => Ok [] | Some cand => execCandidates args cand end.

(** *** Ordered walks *)
(** The inputs of a walk: the slice, the key of a dirty row and the conjuncts
    the slice does not guarantee. *)
Definition walk_args : Type := (list ordEntry * (Row -> outcome indexKey) * list expr)%type.
Definition compositeWalkArgs (args : list Value) : outcome (option walk_args) :=
  match indexByOrdinals ixs (compOrdinals acc) with
  | None => Ok None
  | Some si =>
      prefix ← prefix_values (compPrefixSrcs acc) (sel_ctx args);
      match prefix with
      | None => Ok None
      | Some prefix =>
          snap ← snapshotPrefix si (encodeCompositeKey prefix);
          Ok (Some (snap, (fun r => cells ← get_cells r (si_ordinals si); Ok (encodeCompositeKey cells)), compResidual acc))
      end
  end.
Definition orderedWalkArgs (args : list Value) : option walk_args :=
  match indexFor ixs orderOrd with
  | None => None
  | Some si =>
      let residual := conjuncts where_ in
      Some (seekOrderedSnap (snapshot si) residual orderOrd args, (fun r => v ← index r orderOrd; Ok (keyOf v)), residual)
  end.

(** The dirty rows that match, with their keys; [dirtySet] is every dirty PK. *)
Fixpoint dirty_loop (match_ : predicate) (keyFn : Row -> outcome indexKey) (dirty : list UUID) (dirtySet : gset UUID) (dc : list dcand)
  : outcome (list dcand * gset UUID) :=
  match dirty with
  | [] => Ok (dc, dirtySet)
  | pk :: dirty =>
      if bool_decide (pk ∈ dirtySet) then dirty_loop match_ keyFn dirty dirtySet dc
      else
        let dirtySet := {[pk]} ∪ dirtySet in
        r ← getByPK pkHashSeed t pk;
        match r with
        | None => dirty_loop match_ keyFn dirty dirtySet dc
        | Some r =>
            b ← match_ r;
            if negb b then dirty_loop match_ keyFn dirty dirtySet dc
            else k ← keyFn r; dirty_loop match_ keyFn dirty dirtySet (dc ++ [MkDcand k r])
        end
  end.
Definition buildDirtyCands (match_ : predicate) (keyFn : Row -> outcome indexKey) : outcome (list dcand * gset UUID) :=
  dirty ← dirtyPKs pkHashSeed t;
  if (length dirty =? 0)%nat then Ok ([], ∅)
  else
    x ← dirty_loop match_ keyFn dirty ∅ [];
    Ok (SortFunc dcand dcand_cmp (fst x), snd x).

(** [make([]Value, 0, n)] *)
Definition make_cells (n : Z) : outcome unit := if (0 <=? n) && (n <=? maxCells) then Ok tt else Panic.
Definition walk_emit (bounded : bool) (pred : option predicate) (o : packed_out) (pk : UUID) : outcome packed_out :=
  if bounded then
    let start := length (po_packed o) in
    x ← appendMatchProject pkHashSeed t pk pred ords starAll (po_packed o);
    let '(packed, ok) := x in
    Ok (MkOut packed (if ok : bool then po_out o ++ [drop start packed] else po_out o))
  else
    x ← appendMatchProject pkHashSeed t pk pred ords starAll [];
    let '(cells, ok) := x in
    Ok (if ok : bool then MkOut (po_packed o) (po_out o ++ [cells]) else o).
Definition orderedWalk (args : list Value) (w : walk_args) : outcome (list Row) :=
  let '(snap, dirtyKey, residual) := w in
  if limit =? 0 then Ok []
  else
    x ← buildDirtyCands (matcher args) dirtyKey;
    let '(dc, dirtySet) := x in
    let eff := fetchBound limit offset in
    let width := if starAll then zlen (t_Columns (rt_def rt)) else zlen ords in
    let bounded := 0 <=? eff in
    _ ← (if bounded then make_cells (s64 (eff * width)) else Ok tt);
    let pred := if (length residual =? 0)%nat then None else Some (conjunctsMatcher residual (rt_colByName rt) args) in
    o ← mergeOrderedStreams dirtySet desc (full eff) (walk_emit bounded pred) (appendProjected ords starAll bounded)
          snap dc (MkOut [] []);
    Ok (sliceOffsetLimit (po_out o) offset limit).
Definition execSelectCompositeWalk (args : list Value) : outcome (list Row) :=
  w ← compositeWalkArgs args;
  match w with None => Ok [] | Some w => orderedWalk args w end.
Definition execSelectOrderedWalk (args : list Value) : outcome (list Row) :=
  match orderedWalkArgs args with None => Ok [] | Some w => orderedWalk args w end.

(** *** Streaming walks: [visit] threads the caller's state and answers false to
    stop. *)
Section each.
Context {A : Type} (visit : A -> Row -> A * bool).
Record stream : Type := MkStream {
  sm_state : A;
  sm_skipped : Z;
  sm_n : Z;
  sm_stop : bool;
}.
Definition deliver (o : stream) (r : Row) : outcome stream :=
  if sm_skipped o <? offset then Ok (MkStream (sm_state o) (sm_skipped o + 1) (sm_n o) (sm_stop o))
  else
    row ← (if starAll then Ok r else get_cells r ords);
    let '(a, go) := visit (sm_state o) row in
    if negb go then Ok (MkStream a (sm_skipped o) (sm_n o) true)
    else
      let n := sm_n o + 1 in
      Ok (MkStream a (sm_skipped o) n ((0 <=? limit) && (n >=? limit))).
Definition stream_emit (pred : option predicate) (o : stream) (pk : UUID) : outcome stream :=
  r ← live_row_at pkHashSeed t pk;
  match r with
  | None => Ok o
  | Some r => b ← match pred with Some p => p r | None => Ok true end; if b : bool then deliver o r else Ok o
  end.
Definition orderedWalkEach (args : list Value) (w : walk_args) (a : A) : outcome A :=
  let '(snap, dirtyKey, residual) := w in
  if limit =? 0 then Ok a
  else
    x ← buildDirtyCands (matcher args) dirtyKey;
    let '(dc, dirtySet) := x in
    let pred := if (length residual =? 0)%nat then None else Some (conjunctsMatcher residual (rt_colByName rt) args) in
    o ← mergeOrderedStreams dirtySet desc sm_stop (stream_emit pred) deliver snap dc (MkStream a 0 0 false);
    Ok (sm_state o).
Definition execSelectOrderedWalkEach (args : list Value) (a : A) : outcome A :=
  match orderedWalkArgs args with None => Ok a | Some w => orderedWalkEach args w a end.
Definition execSelectCompositeWalkEach (args : list Value) (a : A) : outcome A :=
  w ← compositeWalkArgs args;
  match w with None => Ok a | Some w => orderedWalkEach args w a end.
End each.

(** *** Scans *)
Definition scan_pack (match_ : predicate) (eff : Z) (acc : outcome packed_out) (r : Row) : outcome packed_out * bool :=
  match
    (o ← acc;
     b ← match_ r;
     if negb b then Ok (o, false)
     else
       o ← appendProjected ords starAll true o r;
       Ok (o, full eff o))
  with
  | Ok (o, stop) => (Ok o, negb stop)
  | Err e => (Err e, false)
  | Panic => (Panic, false)
  end.
Definition scan_top (step : topN -> Row -> outcome topN) (match_ : predicate) (acc : outcome topN) (r : Row) : outcome topN * bool :=
  (top ← acc; b ← match_ r; if b : bool then step top r else Ok top, true).
Definition execScan (args : list Value) : outcome (list Row) :=
  let match_ := matcher args in
  let proj := projOrNil starAll ords in
  if pl_orderOrdinal pl <? 0 then
    if limit =? 0 then Ok []
    else
      o ← scanAll t (scan_pack match_ (fetchBound limit offset)) (Ok (MkOut [] []));
      Ok (sliceOffsetLimit (po_out o) offset limit)
  else if 0 <=? limit then
    if limit =? 0 then Ok []
    else
      top ← scanAll t (scan_top (offer orderOrd desc (fetchBound limit offset) proj) match_) (Ok topN_empty);
      Ok (sliceOffsetLimit (sorted_rows desc (SortFunc topEntry) top) offset limit)
  else
    top ← scanAll t (scan_top (collect orderOrd proj) match_) (Ok topN_empty);
    Ok (sliceOffsetLimit (sorted_rows desc (SortFunc topEntry) top) offset limit).

(** *** execSelect on one table; a partition is never pinned here *)
Definition execSelect (args : list Value) : outcome (list Row) :=
  if pkLookup acc then
    keyVal ← evalExpr (pkSource acc) (sel_ctx args);
    execSelectPK keyVal
  else if idxLookup acc then execSelectIdx args
  else if compWalk acc then execSelectCompositeWalk args
  else if compLookup acc then execSelectCompositeLookup args
  else if orderWalk acc then execSelectOrderedWalk args
  else match pkProbe acc with
  | Some src => keyVal ← evalExpr (Some src) (sel_ctx args); execSelectPKResidual keyVal args
  | None => execScan args
  end.
End select.
