(* ===== verification/SelectOk.v ===== *)
(** * SelectOk: what a reader finds in a table, and the executors that fetch the
    rows they answer in no particular order or through the top-N. *)
From S2P Require Import Prelude Bytes Order Uuid Value CompositeKey PkMap Codec Frame Journal Schema Catalog SecIndex IndexOk Store StoreOk Merge MergeOk MergeSafe Ast Eval Filter TopN TopNOk Plan PlanJoin PlanOk PlanJoinOk Recovery Select.

(** ** Lists *)
(** The elements of [l] not in [seen], first occurrences only. *)
Fixpoint fresh (seen : gset UUID) (l : list UUID) : list UUID :=
  match l with
  | [] => []
  | x :: l => if bool_decide (x ∈ seen) then fresh seen l else x :: fresh ({[x]} ∪ seen) l
  end.
Fixpoint seen_after (seen : gset UUID) (l : list UUID) : gset UUID :=
  match l with [] => seen | x :: l => seen_after ({[x]} ∪ seen) l end.
Lemma fresh_elem l : forall seen x, x ∈ fresh seen l <-> x ∈ l /\ x ∉ seen.
Proof.
  induction l as [|y l IH]; intros seen x; cbn [fresh]; [split; [by intros ?%elem_of_nil|by intros [?%elem_of_nil _]]|].
  case_bool_decide as E.
  - rewrite IH, elem_of_cons. split; [by intros [? ?]; auto|]. intros [[->|?] ?]; done.
  - rewrite !elem_of_cons, IH, not_elem_of_union, not_elem_of_singleton. destruct (decide (x = y)) as [->|]; tauto.
Qed.
Lemma fresh_nodup l : forall seen, NoDup (fresh seen l).
Proof.
  induction l as [|y l IH]; intros seen; cbn [fresh]; [constructor|]. case_bool_decide; [apply IH|].
  apply list.NoDup_cons. split; [|apply IH]. rewrite fresh_elem, not_elem_of_union, not_elem_of_singleton. tauto.
Qed.
Lemma fresh_in seen l x : x ∈ seen -> fresh ({[x]} ∪ seen) l = fresh seen l.
Proof. intros H. f_equal. apply set_eq. intros y. rewrite elem_of_union, elem_of_singleton. split; [by intros [->|?]|auto]. Qed.
Lemma seen_after_in l : forall seen x, x ∈ seen -> seen_after ({[x]} ∪ seen) l = seen_after seen l.
Proof. intros seen x H. f_equal. apply set_eq. intros y. rewrite elem_of_union, elem_of_singleton. split; [by intros [->|?]|auto]. Qed.
Lemma fresh_app l k : forall seen, fresh seen (l ++ k) = fresh seen l ++ fresh (seen_after seen l) k.
Proof.
  induction l as [|x l IH]; intros seen; cbn [app fresh seen_after]; [done|]. case_bool_decide as E.
  - by rewrite IH, seen_after_in.
  - by rewrite IH.
Qed.

Section each.
Context {A : Type} (fn : A -> UUID -> outcome (A * bool)).
Lemma each_new_fresh l : forall seen a, match each_pk fn (fresh seen l) a with
  | Ok (b, true) => exists s, each_new fn l seen a = Ok (b, s, true)
  | Ok (b, false) => each_new fn l seen a = Ok (b, seen_after seen l, false)
  | Err e => each_new fn l seen a = Err e
  | Panic => each_new fn l seen a = Panic
  end.
Proof.
  induction l as [|pk l IH]; intros seen a; cbn [each_new fresh seen_after]; [done|].
  case_bool_decide as E; [rewrite seen_after_in by done; apply IH|].
  cbn [each_pk]. destruct (fn a pk) as [[b []]| |]; cbn [mbind outcome_bind fst snd]; [by eexists|apply IH|done..].
Qed.
Lemma each_pk_app l k a : each_pk fn (l ++ k) a = (x ← each_pk fn l a; if snd x : bool then Ok x else each_pk fn k (fst x)).
Proof.
  revert a. induction l as [|pk l IH]; intros a; cbn [app each_pk]; [done|].
  destruct (fn a pk) as [[b []]| |]; cbn; done.
Qed.
(** What [emit] visits. *)
Definition visited (c : idxCandidateSet) : list UUID :=
  if (length (cs_dirty c) =? 0)%nat then cs_pks c else fresh ∅ (cs_pks c ++ cs_dirty c).
Lemma emit_visits c a : emit fn c a = (x ← each_pk fn (visited c) a; Ok (fst x)).
Proof.
  unfold emit, visited. destruct (length (cs_dirty c) =? 0)%nat; [done|]. rewrite fresh_app, each_pk_app.
  pose proof (each_new_fresh (cs_pks c) ∅ a) as H. destruct (each_pk fn (fresh ∅ (cs_pks c)) a) as [[b []]| |];
    [destruct H as [s ->]; done| |by rewrite H..].
  rewrite H. cbn [mbind outcome_bind fst snd]. pose proof (each_new_fresh (cs_dirty c) (seen_after ∅ (cs_pks c)) b) as H'.
  destruct (each_pk fn _ b) as [[d []]| |]; [destruct H' as [s ->]; done|by rewrite H'..].
Qed.
End each.
Lemma visited_nodup c : NoDup (cs_pks c) -> NoDup (visited c).
Proof. intros H. unfold visited. destruct (_ =? _)%nat; [done|apply fresh_nodup]. Qed.
Lemma visited_elem c x : x ∈ visited c <-> x ∈ cs_pks c \/ x ∈ cs_dirty c.
Proof.
  unfold visited. destruct (Nat.eqb_spec (length (cs_dirty c)) 0) as [E|E].
  - apply nil_length_inv in E. rewrite E. split; [auto|]. by intros [?|?%elem_of_nil].
  - rewrite fresh_elem, elem_of_app. split; [by intros [? _]|]. intros H. split; [done|apply not_elem_of_empty].
Qed.

(** ** What a reader finds

    [g] is the table, [d] the dirty overlay; an index vouches for the rows that
    are not in it. *)
Section reader.
Context (pkHashSeed : Z) (def : resolvedTable) (ck : nat -> ValueKind).
Local Abbreviation ncols := (length (t_Columns (rt_def def))).
Definition shape (ixs : list secIndex) : Prop :=
  map (fun si => (si_ordinals si, si_ordered si)) ixs = map (fun ri => (ri_ordinals ri, ri_ordered ri)) (rt_indexes def).
Record stored (t : tbl_state) (g : gmap UUID Row) (d : list UUID) : Prop := {
  rd_get pk : live_row_at pkHashSeed t pk = Ok (g !! pk);
  rd_rows pk r : g !! pk = Some r -> row_wf def r /\ row_typed ck r /\ pkof def r = pk;
  rd_scan : rows_of t ≡ₚ (map_to_list g).*2;
  rd_dirty : dirtyPKs pkHashSeed t = Ok d;
  rd_clean : t_readDirty t = 0 -> d = [];
  rd_live pk : pk ∈ d <-> is_Some (g !! pk) /\ exists s, t_shards t !! idx t pk = Some s /\ pk ∈ s_dirtyRead s;
}.
Definition vouches (g : gmap UUID Row) (d : list UUID) (si : secIndex) : Prop :=
  exists vis, idx_ok (kd_of ck (si_ordinals si)) si vis /\
    forall pk r, g !! pk = Some r -> pk ∉ d -> vis !! pk = key_of (si_ordinals si) r.
Record readable (t : tbl_state) (ixs : list secIndex) (g : gmap UUID Row) (d : list UUID) : Prop := {
  rd_stored : stored t g d;
  rd_ix si : si ∈ ixs -> vouches g d si;
  rd_shape : shape ixs;
}.

Lemma live_row_at_ok max ext t g pk : tbl_ok pkHashSeed def max None ext t g -> live_row_at pkHashSeed t pk = Ok (g !! pk).
Proof.
  intros Ht. unfold live_row_at. destruct (lookup_row pkHashSeed def max None ext t g pk Ht) as (s & Hs & G).
  rewrite (index_Some _ _ _ Hs). cbn [mbind outcome_bind]. destruct (g !! pk) as [r|].
  - destruct G as (n & G & Hn & _). rewrite G. cbn. rewrite Nat2Z.id. by rewrite (index_Some _ _ _ Hn).
  - by rewrite G.
Qed.
Lemma getByPK_live t pk : getByPK pkHashSeed t pk = (r ← live_row_at pkHashSeed t pk; Ok (match r with Some r => Some (Row_Clone r) | None => None end)).
Proof.
  unfold getByPK, live_row_at. destruct (index (t_shards t) _) as [s| |]; [|done..]. cbn [mbind outcome_bind].
  destruct (lift _) as [[rowID []]| |]; [|done..]. cbn. by destruct (index (s_rows s) _) as [[]| |].
Qed.
Lemma getByPKProject_live t pk ords : getByPKProject pkHashSeed t pk ords =
  (r ← live_row_at pkHashSeed t pk; match r with Some r => pr ← projectClone r ords; Ok (Some pr) | None => Ok None end).
Proof.
  unfold getByPKProject, live_row_at. destruct (index (t_shards t) _) as [s| |]; [|done..]. cbn [mbind outcome_bind].
  destruct (lift _) as [[rowID []]| |]; [|done..]. done.
Qed.

Lemma tbl_stored max ext t g : (pkOrd def < ncols)%nat -> tbl_ok pkHashSeed def max None ext t g ->
  map_Forall (fun _ => row_typed ck) g -> exists d, stored t g d.
Proof.
  intros Hpk Ht Hty. destruct (dirtyPKs_ok pkHashSeed def max ext ck Hpk t g Ht) as (d & Hd & Hin). exists d. split.
  - intros pk. by eapply live_row_at_ok.
  - intros pk r Hr. destruct (lookup_row pkHashSeed def max None ext t g pk Ht) as (s & _ & G). rewrite Hr in G.
    destruct G as (_ & _ & _ & E & Hwf). split_and!; [apply Hwf..|by eapply Hty|done].
  - unfold rows_of. pose proof (live_cells_perm pkHashSeed def max None ext Hpk t g Ht) as P. rewrite <- P.
    by rewrite <- list_fmap_compose.
  - done.
  - intros Hz. unfold dirtyPKs in Hd. rewrite Hz in Hd. by injection Hd.
  - apply Hin.
Qed.
(** A table without indexes has no merger. *)
Lemma plain_readable max ext t g : (pkOrd def < ncols)%nat -> rt_indexes def = [] -> tbl_ok pkHashSeed def max None ext t g ->
  map_Forall (fun _ => row_typed ck) g -> exists d, readable t [] g d.
Proof.
  intros Hpk Hno Ht Hty. destruct (tbl_stored max ext t g Hpk Ht Hty) as [d Hd]. exists d. split; [done|by intros si ?%elem_of_nil|].
  unfold shape. by rewrite Hno.
Qed.
Lemma inv_readable {J} `{Journal J} max ext fr t g ixs m : (pkOrd def < ncols)%nat -> shape ixs ->
  merge_inv pkHashSeed def max ext ck fr t g ixs m -> exists d, readable t ixs g d.
Proof.
  intros Hpk Hs Hi. destruct (iv_ix _ _ _ _ _ _ _ _ _ _ Hi) as [Hlen Hix].
  pose proof (iv_tbl _ _ _ _ _ _ _ _ _ _ Hi) as Ht. pose proof (iv_typed _ _ _ _ _ _ _ _ _ _ Hi) as Hty.
  destruct (tbl_stored max ext t g Hpk Ht Hty) as [d Hd]. exists d. split; [done| |done].
  intros si (x & Hx)%list_elem_of_lookup_1.
  destruct (lookup_lt_is_Some_2 (m_changed m) x) as [ch Hch]; [rewrite <- Hlen; by eapply lookup_lt_Some|].
  destruct (Hix _ _ _ Hx Hch) as (vis & I1 & I2 & _). exists vis. split; [done|]. intros pk r Hr Hnd.
  destruct (lookup_row pkHashSeed def max None ext t g pk Ht) as (s & Hst & _). destruct (I2 pk s Hst) as (_ & _ & W).
  rewrite Hr in W. cbn in W. rewrite drop_0 in W. destruct W as [W|W]; [done|]. destruct Hnd. apply (rd_live _ _ _ Hd).
  split; [by eexists|by exists s].
Qed.

(** *** Merges and writes keep the shape of the indexes *)
Lemma insert_shape ixs k si si' : ixs !! k = Some si -> si_ordinals si' = si_ordinals si -> si_ordered si' = si_ordered si ->
  shape ixs -> shape (<[k := si']> ixs).
Proof.
  intros Hk E1 E2 Hs. unfold shape in *. rewrite <- Hs. set (f := fun s => (si_ordinals s, si_ordered s)).
  change (f <$> <[k := si']> ixs = f <$> ixs). rewrite list_fmap_insert, list_insert_id; [done|].
  rewrite list_lookup_fmap, Hk. unfold f. cbn. by rewrite E1, E2.
Qed.
Lemma apply_shape si pk k b : si_ordinals (fst (apply si pk k b)) = si_ordinals si /\ si_ordered (fst (apply si pk k b)) = si_ordered si.
Proof. unfold apply. destruct (si_ordered si) eqn:E; repeat case_match; by rewrite ?E. Qed.
Lemma mstep_shape t ixs m t' ixs' m' : mstep pkHashSeed t ixs m = Ok (t', ixs', m') -> shape ixs -> shape ixs'.
Proof.
  intros E Hs. destruct m as [pc drops changed]. destruct pc as [i|i nr nd [|pk todo]|i nr nd todo pk pr ok x|x|[|[[i nr] nd] ds]|]; cbn [mstep] in E.
  - destruct (t_shards t !! i); by simplify_eq.
  - by simplify_eq.
  - inv_bind. by simplify_eq.
  - destruct (ixs !! x) as [si|] eqn:Hx; [|by simplify_eq]. inv_bind. simplify_eq. eapply insert_shape; [exact Hx|..|done].
    + unfold apply_index in H. destruct (negb ok); [injection H as <-; apply apply_shape|]. destruct (span ixs x). inv_bind. apply apply_shape.
    + unfold apply_index in H. destruct (negb ok); [injection H as <-; apply apply_shape|]. destruct (span ixs x). inv_bind. apply apply_shape.
  - destruct (ixs !! x) as [si|] eqn:Hx; [|by simplify_eq]. inv_bind. simplify_eq. by eapply insert_shape; [exact Hx|by destruct (_ && _)..|].
  - by simplify_eq.
  - inv_bind. by simplify_eq.
  - by simplify_eq.
Qed.

(** *** Decided predicates *)
Definition good (r : Row) : Prop := row_wf def r /\ row_typed ck r.
(** [p] decides [b] on the rows of the table; a nil predicate passes all. *)
Definition decides (p : option predicate) (b : Row -> bool) : Prop :=
  forall r, good r -> match p with Some p => p r = Ok (b r) | None => b r = true end.

Section matching.
Context (cols : gmap bytes nat) (args : list Value) (args_ok : Forall value_ok args).
Definition matchb (w : option expr) (r : Row) : bool :=
  match w with None => true | Some e => bool_decide (interpreted e cols args r = Ok true) end.
Lemma matchb_matches e r : matchb (Some e) r = true <-> matches cols args r e.
Proof. unfold matchb. by rewrite bool_decide_eq_true, matches_interpreted. Qed.
Lemma lenient_ok e r : bound ncols e -> good r -> lenient (interpreted e cols args r) = Ok (matchb (Some e) r).
Proof.
  intros Hb ((Hl & Hv) & _). unfold matchb, interpreted. pose proof (eval_typed e (MkCtx r cols args)) as T. cbn [c_row c_args] in T.
  rewrite Hl in T. specialize (T Hb Hv args_ok). destruct (eval e _) as [v|x|]; [|by rewrite bool_decide_eq_false_2|done].
  cbn. destruct (truthy v); [by rewrite bool_decide_eq_true_2|by rewrite bool_decide_eq_false_2].
Qed.
Lemma matcher_decides w : opt_bound ncols w -> decides (Some (rowMatcher w cols args)) (matchb w).
Proof.
  intros Hw r Hr. destruct w as [e|]; [|done]. rewrite rowMatcher_lenient. by apply lenient_ok.
Qed.
Lemma conjuncts_decide l : Forall (bound ncols) l ->
  decides (if (length l =? 0)%nat then None else Some (conjunctsMatcher l cols args)) (fun r => forallb (fun e => matchb (Some e) r) l).
Proof.
  intros Hl r Hr. assert (G : forall l, Forall (bound ncols) l ->
    all_match (map (fun c => rowMatcher (Some c) cols args) l) r = Ok (forallb (fun e => matchb (Some e) r) l)).
  { clear l Hl. induction 1 as [|e l He _ IH]; [done|]. rewrite map_cons, all_match_cons, (matcher_decides (Some e) He r Hr), ok_bind. cbn [forallb].
    by destruct (matchb (Some e) r). }
  destruct l as [|e [|e' l]]; [done| |by apply G]. cbn [length Nat.eqb conjunctsMatcher forallb]. apply list.Forall_cons in Hl as [Hl _].
  rewrite (matcher_decides (Some e) Hl r Hr). by rewrite andb_true_r.
Qed.
End matching.

(** *** Rows by candidate *)
Section found.
Context (t : tbl_state) (ixs : list secIndex) (g : gmap UUID Row) (d : list UUID) (R : readable t ixs g d).
Lemma rd_good pk r : g !! pk = Some r -> good r.
Proof. intros H. destruct (rd_rows _ _ _ (rd_stored _ _ _ _ R) pk r H) as (? & ? & _). by split. Qed.
Definition hits (b : Row -> bool) (l : list UUID) : list Row := filter (fun r => b r = true) (omap (fun pk => g !! pk) l).
Definition matching (b : Row -> bool) : list Row := filter (fun r => b r = true) (rows_of t).
Lemma hits_cons b pk l : hits b (pk :: l) = match g !! pk with Some r => if b r then r :: hits b l else hits b l | None => hits b l end.
Proof. unfold hits. cbn [omap list_omap]. destruct (g !! pk) as [r|]; [|done]. rewrite list.filter_cons. destruct (b r); [by rewrite decide_True|by rewrite decide_False]. Qed.
Lemma hits_ext b b' l : (forall pk r, pk ∈ l -> g !! pk = Some r -> b r = b' r) -> hits b l = hits b' l.
Proof.
  induction l as [|pk l IH]; intros H; [done|]. rewrite !hits_cons, IH by (intros pk' r ?; apply H; by apply list_elem_of_further).
  destruct (g !! pk) as [r|] eqn:E; [|done]. by rewrite (H pk r) by (done || constructor).
Qed.
Lemma hits_elem b l r : r ∈ hits b l <-> b r = true /\ exists pk, pk ∈ l /\ g !! pk = Some r.
Proof. unfold hits. by rewrite list_elem_of_filter, list_elem_of_omap. Qed.
Lemma matching_elem b r : r ∈ matching b <-> b r = true /\ exists pk, g !! pk = Some r.
Proof.
  unfold matching. rewrite list_elem_of_filter, (rd_scan _ _ _ (rd_stored _ _ _ _ R)), list_elem_of_fmap. split; intros [Hb H]; (split; [done|]).
  - destruct H as ([pk r'] & -> & H%elem_of_map_to_list). by exists pk.
  - destruct H as [pk H]. exists (pk, r). split; [done|]. by apply elem_of_map_to_list.
Qed.
Lemma hits_nodup b l : NoDup l -> NoDup (hits b l).
Proof.
  intros Hn. apply list.NoDup_filter. induction Hn as [|pk l Hni _ IH]; [constructor|]. cbn [omap list_omap].
  destruct (g !! pk) as [r|] eqn:E; [|done]. constructor; [|done]. intros (pk' & Hpk' & E')%list_elem_of_omap. apply Hni.
  destruct (rd_rows _ _ _ (rd_stored _ _ _ _ R) _ _ E) as (_ & _ & <-), (rd_rows _ _ _ (rd_stored _ _ _ _ R) _ _ E') as (_ & _ & Ek). by rewrite Ek.
Qed.
Lemma matching_nodup b : NoDup (matching b).
Proof.
  unfold matching. apply list.NoDup_filter. rewrite (rd_scan _ _ _ (rd_stored _ _ _ _ R)). apply NoDup_fmap_2_strong; [|apply NoDup_map_to_list].
  intros [pk r] [pk' r'] H%elem_of_map_to_list H'%elem_of_map_to_list E. cbn in E. subst r'.
  destruct (rd_rows _ _ _ (rd_stored _ _ _ _ R) _ _ H) as (_ & _ & <-), (rd_rows _ _ _ (rd_stored _ _ _ _ R) _ _ H') as (_ & _ & <-). done.
Qed.
(** Distinct candidates that miss no matching row give the matching rows. *)
Lemma hits_all b l : NoDup l -> (forall pk r, g !! pk = Some r -> b r = true -> pk ∈ l) -> hits b l ≡ₚ matching b.
Proof.
  intros Hn Hc. apply NoDup_Permutation; [by apply hits_nodup|apply matching_nodup|]. intros r. rewrite hits_elem, matching_elem.
  split; intros [Hb H]; (split; [done|]); [destruct H as (pk & _ & H)|destruct H as (pk & H)]; exists pk; auto. split; [by eapply Hc|done].
Qed.

(** *** Result rows *)
Section output.
Context (ords : list nat) (starAll : bool).
Hypothesis ords_in : Forall (fun o => (o < ncols)%nat) ords.
Local Abbreviation show := (shown (projOrNil starAll ords)).
Lemma project_ok r : good r -> projectClone r ords = Ok (shown (Some ords) r).
Proof.
  intros ((Hl & Hv) & _). rewrite <- Hl in ords_in. clear Hl. induction ords_in as [|o os Ho _ IH]; [done|]. cbn [projectClone].
  destruct (index_lt r o Ho) as (v & -> & E). rewrite ok_bind, IH, ok_bind. cbn. rewrite E. cbn.
  rewrite cloneValue_ok; [done|by eapply Forall_lookup_1].
Qed.
Lemma clone_app dst r : Forall value_ok r -> appendRowClone dst r = dst ++ r.
Proof.
  intros Hv. unfold appendRowClone. revert dst. induction Hv as [|v r Hv _ IH]; intros dst; cbn [fold_left]; [by rewrite app_nil_r|].
  rewrite IH, cloneValue_ok by done. by rewrite <- app_assoc.
Qed.
Lemma append_shown dst r : good r ->
  (if starAll then Ok (appendRowClone dst r) else appendProjectClone dst r ords) = Ok (dst ++ show r).
Proof.
  intros ((Hl & Hv) & _). destruct starAll; cbn [projOrNil shown]; [by rewrite clone_app|]. rewrite appendProjectClone_ok; [done|done|by rewrite Hl].
Qed.
Lemma append_match p b pk dst : decides p b -> appendMatchProject pkHashSeed t pk p ords starAll dst =
  Ok (match g !! pk with Some r => if b r then (dst ++ show r, true) else (dst, false) | None => (dst, false) end).
Proof.
  intros Hp. unfold appendMatchProject. rewrite (rd_get _ _ _ (rd_stored _ _ _ _ R)), ok_bind. destruct (g !! pk) as [r|] eqn:E; [|done].
  pose proof (rd_good pk r E) as Hr. assert (Eb : match p with Some p => p r | None => Ok true end = Ok (b r)).
  { specialize (Hp r Hr). destruct p; [done|by rewrite Hp]. }
  rewrite Eb, ok_bind. destruct (b r); cbn [negb]; [|done]. pose proof (append_shown dst r Hr) as A. by destruct starAll; [injection A as ->|rewrite A].
Qed.
Lemma appendProjected_ok bounded o r : good r ->
  exists packed, appendProjected ords starAll bounded o r = Ok (MkOut packed (po_out o ++ [show r])).
Proof.
  intros Hr. unfold appendProjected. destruct bounded; cbn [negb].
  - rewrite (append_shown _ r Hr), ok_bind. eexists. by rewrite drop_app_length.
  - pose proof Hr as ((_ & Hv) & _). destruct starAll; [rewrite ok_bind, Row_Clone_ok by done; by eexists|].
    rewrite (project_ok r Hr), ok_bind. by eexists.
Qed.

(** A window of [eff] rows, all of them when negative, [n] already there. *)
Definition upto {A} (eff : Z) (n : nat) (l : list A) : list A := if 0 <=? eff then take (Z.to_nat eff - n) l else l.
Lemma upto_cons {A} eff n (x : A) l : 0 <= eff -> (n < Z.to_nat eff)%nat -> upto eff n (x :: l) = x :: upto eff (S n) l.
Proof.
  intros He Hn. unfold upto. rewrite (proj2 (Z.leb_le _ _)) by done. replace (Z.to_nat eff - n)%nat with (S (Z.to_nat eff - S n)) by lia. done.
Qed.
Lemma full_spec eff o : full eff o = true <-> 0 <= eff /\ (Z.to_nat eff <= length (po_out o))%nat.
Proof. unfold full, zlen. rewrite andb_true_iff, Z.leb_le, Z.geb_leb, Z.leb_le. lia. Qed.
Lemma upto_full {A} eff o (l : list A) : full eff o = true -> upto eff (length (po_out o)) l = [].
Proof.
  intros [He Hn]%full_spec. unfold upto. rewrite (proj2 (Z.leb_le _ _)) by done. by replace (Z.to_nat eff - length (po_out o))%nat with 0%nat by lia.
Qed.
Lemma upto_more {A} eff o (x : A) l : full eff o = false -> upto eff (length (po_out o)) (x :: l) = x :: upto eff (S (length (po_out o))) l.
Proof.
  intros Hf. destruct (Z.leb_spec 0 eff) as [He|He].
  - apply upto_cons; [done|]. destruct (Nat.le_gt_cases (Z.to_nat eff) (length (po_out o))) as [H|H]; [|done].
    rewrite (proj2 (full_spec eff o)) in Hf by done. done.
  - unfold upto. by rewrite (proj2 (Z.leb_gt _ _)).
Qed.
End output.

(** ** What a SELECT promises *)
Section exec.
Context (SortFunc : forall A : Type, (A -> A -> Z) -> list A -> list A) {sorts : forall A, SortsFunc (SortFunc A)}.
Context (pl : plan) (st : selectStmt) (args : list Value).
Local Abbreviation ords := (pl_projOrdinals pl).
Local Abbreviation limit := (sel_limit st).
Local Abbreviation offset := (sel_offset st).
Local Abbreviation proj := (projOrNil (sel_starAll st) ords).
Definition mb : Row -> bool := matchb (rt_colByName def) args (sel_where st).
Definition in_order (r r' : Row) : Prop :=
  evictable (sel_orderDesc st) (order_key (orderOrd pl) r) (order_key (orderOrd pl) r') = false.
Definition window (l : list Row) : list Row :=
  let w := drop (Z.to_nat offset) l in if limit <? 0 then w else take (Z.to_nat limit) w.
(** The window of some arrangement of the matching rows, a sorted one when the
    statement has an ORDER BY. *)
Definition answers (o : outcome (list Row)) : Prop :=
  exists S, S ≡ₚ matching mb /\ (0 <= pl_orderOrdinal pl -> StronglySorted in_order S) /\ o = Ok (window (map (shown proj) S)).

Record sound_plan : Prop := {
  sp_ords : Forall (fun o => (o < ncols)%nat) ords;
  sp_where : opt_bound ncols (sel_where st);
  sp_args : Forall value_ok args;
  sp_offset : 0 <= offset;
  sp_sum : limit + offset < 2 ^ 63;
  sp_order : 0 <= pl_orderOrdinal pl -> (orderOrd pl < ncols)%nat /\
    exists k, k <> KindNull /\ forall r, r ∈ matching mb -> Kind (order_key (orderOrd pl) r) = k;
}.
Hypothesis P : sound_plan.

Lemma matching_fits k r : (orderOrd pl < ncols)%nat -> (forall r, r ∈ matching mb -> Kind (order_key (orderOrd pl) r) = k) ->
  r ∈ matching mb -> fits (orderOrd pl) k proj r.
Proof.
  intros Ho Hk Hr. pose proof Hr as (_ & pk & Hg)%matching_elem. destruct (rd_good pk r Hg) as ((Hl & Hv) & _).
  split_and!; [done|by rewrite Hl|by apply Hk|]. rewrite Hl. destruct (sel_starAll st); [constructor|apply sp_ords, P].
Qed.
Lemma window_slice l : sliceOffsetLimit (upto (fetchBound limit offset) 0 l) offset limit = window l.
Proof.
  pose proof (sp_offset P) as Ho. pose proof (sp_sum P) as Hs. unfold window, fetchBound, upto. destruct (Z.ltb_spec limit 0) as [Hl|Hl].
  - by rewrite sliceOffsetLimit_rest.
  - rewrite s64_idem by (unfold in_s64; lia). rewrite (proj2 (Z.leb_le _ _)) by lia. rewrite sliceOffsetLimit_window by done.
    rewrite Nat.sub_0_r, Z2Nat.inj_add by done. rewrite skipn_firstn_comm.
    replace (Z.to_nat limit + Z.to_nat offset - Z.to_nat offset)%nat with (Z.to_nat limit) by lia. by rewrite take_take, Nat.min_id.
Qed.
Lemma upto_map {A B} (f : A -> B) eff n l : upto eff n (map f l) = map f (upto eff n l).
Proof. unfold upto. destruct (0 <=? eff); [|done]. symmetry. apply (fmap_take f). Qed.

Lemma answers_zero : limit = 0 -> answers (Ok []).
Proof.
  intros Hl. assert (Hw : forall l, window l = []) by (intros l; unfold window; by rewrite Hl).
  destruct (Z.ltb_spec (pl_orderOrdinal pl) 0) as [Hneg|Hpos].
  - exists (matching mb). split_and!; [done|lia|by rewrite Hw].
  - destruct (sp_order P Hpos) as (Ho & k & Hk & Hfit). destruct (order_by_arranged (orderOrd pl) (sel_orderDesc st) k proj (SortFunc topEntry) 0 offset (matching mb)) as (S & PS & SS & _);
      [apply sorts|done|by apply list.Forall_forall; intros r; by apply matching_fits|apply P|pose proof (sp_sum P); lia|].
    exists S. split_and!; [done..|by rewrite Hw].
Qed.
Lemma answers_none : matching mb = [] -> answers (Ok []).
Proof.
  intros E. exists []. rewrite E. split_and!; [done|intros; constructor|]. unfold window. cbn [map]. rewrite drop_nil.
  by destruct (limit <? 0); rewrite ?take_nil.
Qed.

(** Where at most one row matches, there is only one answer. *)
Lemma answers_single o o' : (length (matching mb) <= 1)%nat -> answers o -> answers o' -> o = o'.
Proof.
  assert (U : forall S, (length (matching mb) <= 1)%nat -> S ≡ₚ matching mb -> S = matching mb).
  { intros S Hl HS. destruct (matching mb) as [|r [|]]; [by apply Permutation_nil_r|by apply Permutation_singleton_r|cbn in Hl; lia]. }
  intros Hl (S & PS & _ & ->) (S' & PS' & _ & ->). by rewrite (U S), (U S').
Qed.

(** *** The top-N over candidates *)
Lemma offer_live capN pred b top pk : decides (Some pred) b ->
  offerLiveRow pkHashSeed t (orderOrd pl) (sel_orderDesc st) capN proj pk pred top =
  match g !! pk with Some r => if b r then offer (orderOrd pl) (sel_orderDesc st) capN proj top r else Ok top | None => Ok top end.
Proof.
  intros Hd. unfold offerLiveRow. rewrite (rd_get _ _ _ (rd_stored _ _ _ _ R)), ok_bind. destruct (g !! pk) as [r|] eqn:E; [|done].
  by rewrite (Hd r (rd_good pk r E)), ok_bind.
Qed.
Lemma collect_live pred b top pk : decides (Some pred) b ->
  collectLiveRow pkHashSeed t (orderOrd pl) proj pk pred top =
  match g !! pk with Some r => if b r then collect (orderOrd pl) proj top r else Ok top | None => Ok top end.
Proof.
  intros Hd. unfold collectLiveRow. rewrite (rd_get _ _ _ (rd_stored _ _ _ _ R)), ok_bind. destruct (g !! pk) as [r|] eqn:E; [|done].
  by rewrite (Hd r (rd_good pk r E)), ok_bind.
Qed.
Lemma offers_hits capN pred b l : decides (Some pred) b -> forall top,
  each_pk (fun top pk => top ← offerLiveRow pkHashSeed t (orderOrd pl) (sel_orderDesc st) capN proj pk pred top; Ok (top, false)) l top =
  (t ← offer_all (orderOrd pl) (sel_orderDesc st) capN proj top (hits b l); Ok (t, false)).
Proof.
  intros Hd. induction l as [|pk l IH]; intros top; [done|]. cbn [each_pk]. rewrite (offer_live capN pred b top pk Hd), hits_cons.
  destruct (g !! pk) as [r|]; [|apply IH]. destruct (b r); [|apply IH]. cbn [offer_all].
  destruct (offer _ _ _ _ top r) as [top'| |]; [|done..]. apply IH.
Qed.
Lemma collects_hits pred b l : decides (Some pred) b -> forall top,
  each_pk (fun top pk => top ← collectLiveRow pkHashSeed t (orderOrd pl) proj pk pred top; Ok (top, false)) l top =
  (t ← collect_all (orderOrd pl) proj top (hits b l); Ok (t, false)).
Proof.
  intros Hd. induction l as [|pk l IH]; intros top; [done|]. cbn [each_pk]. rewrite (collect_live pred b top pk Hd), hits_cons.
  destruct (g !! pk) as [r|]; [|apply IH]. destruct (b r); [|apply IH]. cbn [collect_all].
  destruct (collect _ _ top r) as [top'| |]; [|done..]. apply IH.
Qed.
Lemma where_decides : decides (Some (matcher st def args)) mb.
Proof. apply matcher_decides; apply P. Qed.
(** ORDER BY over an arrangement of the matching rows. *)
Lemma answers_order_by rows : 0 <= pl_orderOrdinal pl -> limit <> 0 -> rows ≡ₚ matching mb ->
  answers (order_by (orderOrd pl) (sel_orderDesc st) proj limit offset (SortFunc topEntry) rows).
Proof.
  intros Hpos Hl Hr. destruct (sp_order P Hpos) as (Ho & k & Hk & Hfit).
  destruct (order_by_arranged (orderOrd pl) (sel_orderDesc st) k proj (SortFunc topEntry) limit offset rows) as (S & PS & SS & E);
    [apply sorts|done| |apply P|apply P|].
  - apply list.Forall_forall. intros r Hin. apply matching_fits; [done..|by rewrite <- Hr].
  - exists S. split_and!; [by rewrite PS|done|by rewrite E].
Qed.

Lemma pack_live p b eff o pk : decides p b -> pack_match pkHashSeed t pl st p eff o pk =
  Ok (match g !! pk with
      | Some r => if b r then let o' := MkOut (po_packed o ++ shown proj r) (po_out o ++ [shown proj r]) in (o', full eff o') else (o, false)
      | None => (o, false) end).
Proof.
  intros Hp. unfold pack_match. rewrite (append_match ords (sel_starAll st) (sp_ords P) p b pk _ Hp), ok_bind.
  destruct (g !! pk) as [r|]; [|by destruct o]. destruct (b r); [|by destruct o]. cbn [negb]. by rewrite drop_app_length.
Qed.
Lemma pack_hits p b eff l : decides p b -> forall o, full eff o = false -> exists packed stop,
  each_pk (pack_match pkHashSeed t pl st p eff) l o =
  Ok (MkOut packed (po_out o ++ map (shown proj) (upto eff (length (po_out o)) (hits b l))), stop).
Proof.
  intros Hp. induction l as [|pk l IH]; intros o Hf; cbn [each_pk].
  { exists (po_packed o), false. unfold hits. cbn. unfold upto. destruct (0 <=? eff); rewrite ?take_nil; cbn; rewrite app_nil_r; by destruct o. }
  rewrite (pack_live p b eff o pk Hp), ok_bind, hits_cons. destruct (g !! pk) as [r|]; [|by apply IH]. destruct (b r); [|by apply IH]. cbv zeta. cbn [fst snd].
  rewrite (upto_more _ _ _ _ Hf). set (o' := MkOut (po_packed o ++ shown proj r) (po_out o ++ [shown proj r])).
  assert (El : length (po_out o') = S (length (po_out o))) by (unfold o'; cbn; rewrite length_app; cbn; lia).
  destruct (full eff o') eqn:Ef.
  - exists (po_packed o'), true. pose proof (upto_full eff o' (hits b l) Ef) as E. rewrite El in E. by rewrite E.
  - destruct (IH o' Ef) as (packed & stop & E). exists packed, stop. rewrite E, El. cbn [map po_out o']. by rewrite <- app_assoc.
Qed.
Lemma bound_open : limit <> 0 -> full (fetchBound limit offset) (MkOut [] []) = false.
Proof.
  intros Hl. pose proof (sp_offset P). pose proof (sp_sum P). apply not_true_iff_false. rewrite full_spec. unfold fetchBound. cbn.
  destruct (Z.ltb_spec limit 0); [lia|]. rewrite s64_idem by (unfold in_s64; lia). lia.
Qed.
(** Without ORDER BY the result is the window of the candidates visited, in that
    order. *)
Lemma candidates_unordered cand : pl_orderOrdinal pl < 0 -> limit <> 0 ->
  (idxExact (pl_access pl) = true -> cs_dirty cand = [] -> forall pk r, pk ∈ cs_pks cand -> g !! pk = Some r -> mb r = true) ->
  execCandidates pkHashSeed SortFunc t pl st def args cand = Ok (window (map (shown proj) (hits mb (visited cand)))).
Proof.
  intros Hneg Hl Hx. unfold execCandidates. rewrite (proj2 (Z.leb_gt _ _) Hneg).
  set (p := if idxExact (pl_access pl) && _ then None else _). set (b := if idxExact (pl_access pl) && (length (cs_dirty cand) =? 0)%nat then fun _ => true else mb).
  assert (Hp : decides p b). { unfold p, b. destruct (_ && _); [done|exact where_decides]. }
  assert (Hb : hits b (visited cand) = hits mb (visited cand)).
  { apply hits_ext. intros pk r Hpk Hg. unfold b. destruct (idxExact (pl_access pl)) eqn:Ex; cbn [andb]; [|done].
    destruct (Nat.eqb_spec (length (cs_dirty cand)) 0) as [E|E]; [|done]. apply nil_length_inv in E. symmetry. eapply (Hx eq_refl E pk); [|done].
    apply visited_elem in Hpk as [?|Hpk]; [done|]. rewrite E in Hpk. by apply elem_of_nil in Hpk. }
  destruct (pack_hits p b (fetchBound limit offset) (visited cand) Hp (MkOut [] []) (bound_open Hl)) as (packed & stop & E).
  cbn [po_out length app] in E. rewrite Hb in E. rewrite emit_visits.
  assert (Ev : (length (cs_dirty cand) =? 0)%nat = true -> visited cand = cs_pks cand) by (unfold visited; by intros ->).
  rewrite <- window_slice, upto_map. destruct (length (cs_dirty cand) =? 0)%nat; [rewrite <- Ev by done|]; by rewrite E, !ok_bind.
Qed.
(** Candidates that are distinct and miss no matching row answer the SELECT. *)
Lemma answers_candidates cand : limit <> 0 -> NoDup (cs_pks cand) ->
  (forall pk r, g !! pk = Some r -> mb r = true -> pk ∈ cs_pks cand \/ pk ∈ cs_dirty cand) ->
  (idxExact (pl_access pl) = true -> cs_dirty cand = [] -> forall pk r, pk ∈ cs_pks cand -> g !! pk = Some r -> mb r = true) ->
  answers (execCandidates pkHashSeed SortFunc t pl st def args cand).
Proof.
  intros Hl Hn Hc Hx. pose proof where_decides as Hd.
  assert (Hall : hits mb (visited cand) ≡ₚ matching mb).
  { apply hits_all; [by apply visited_nodup|]. intros pk r Hg Hm. apply visited_elem. by eapply Hc. }
  destruct (Z.leb_spec 0 (pl_orderOrdinal pl)) as [Hpos|Hneg].
  - unfold execCandidates. rewrite (proj2 (Z.leb_le _ _) Hpos).
    assert (Ho : answers (order_by (orderOrd pl) (sel_orderDesc st) proj limit offset (SortFunc topEntry) (hits mb (visited cand)))) by by apply answers_order_by.
    unfold order_by in Ho. rewrite (proj2 (Z.eqb_neq _ _) Hl) in Ho. destruct (0 <=? limit); rewrite emit_visits.
      + rewrite (offers_hits _ _ mb _ Hd). by destruct (offer_all _ _ _ _ _ _).
      + rewrite (collects_hits _ mb _ Hd). by destruct (collect_all _ _ _ _).
  - exists (hits mb (visited cand)). split_and!; [done|lia|by apply candidates_unordered].
Qed.

(** *** The scan *)
Hypothesis pk_in : (pkOrd def < ncols)%nat.
Lemma scan_good r : r ∈ rows_of t -> good r.
Proof.
  rewrite (rd_scan _ _ _ (rd_stored _ _ _ _ R)), list_elem_of_fmap. intros ([pk r'] & -> & H%elem_of_map_to_list). by apply (rd_good pk).
Qed.
Lemma scanAll_rows {A} (fn : A -> Row -> A * bool) a : scanAll t fn a = fst (scan_rows (Some <$> rows_of t) fn a).
Proof. rewrite (scanAll_live def pk_in). unfold rows_of. by rewrite <- list_fmap_compose. Qed.
Definition failed {A} (x : outcome A) : Prop := match x with Ok _ => False | _ => True end.
Lemma fold_failed (f : topN -> Row -> outcome topN) l x : failed x -> fold_left (fun a r => t ← a; f t r) l x = x.
Proof. intros Hx. induction l as [|r l IH]; [done|]. cbn [fold_left]. destruct x; [done|exact IH..]. Qed.
Lemma scan_failed step m rows x : failed x -> fst (scan_rows (Some <$> rows) (scan_top step m) x) = x.
Proof. intros Hx. induction rows as [|r rows IH]; [done|]. cbn [fmap list_fmap scan_rows]. destruct x; [done|exact IH..]. Qed.
Lemma scan_tops step rows : Forall good rows -> forall top,
  fst (scan_rows (Some <$> rows) (scan_top step (matcher st def args)) (Ok top)) =
  fold_left (fun a r => t ← a; step t r) (filter (fun r => mb r = true) rows) (Ok top).
Proof.
  intros Hr. induction Hr as [|r rows Hr _ IH]; intros top; [done|]. cbn [fmap list_fmap scan_rows]. unfold scan_top at 1.
  rewrite ok_bind, (where_decides r Hr), ok_bind, list.filter_cons. cbn [negb]. destruct (mb r) eqn:Em; [rewrite decide_True by done|rewrite decide_False by done; apply IH].
  cbn [fold_left]. rewrite ok_bind. destruct (step top r) as [top'|e|]; [apply IH|by rewrite scan_failed, fold_failed..].
Qed.
Lemma offer_all_fold capN rows : forall top, offer_all (orderOrd pl) (sel_orderDesc st) capN proj top rows =
  fold_left (fun a r => t ← a; offer (orderOrd pl) (sel_orderDesc st) capN proj t r) rows (Ok top).
Proof.
  induction rows as [|r rows IH]; intros top; [done|]. cbn [offer_all fold_left]. rewrite ok_bind. destruct (offer _ _ _ _ top r); [apply IH|by rewrite fold_failed..].
Qed.
Lemma collect_all_fold rows : forall top, collect_all (orderOrd pl) proj top rows =
  fold_left (fun a r => t ← a; collect (orderOrd pl) proj t r) rows (Ok top).
Proof.
  induction rows as [|r rows IH]; intros top; [done|]. cbn [collect_all fold_left]. rewrite ok_bind. destruct (collect _ _ top r); [apply IH|by rewrite fold_failed..].
Qed.
Lemma scan_packs eff rows : Forall good rows -> forall o, full eff o = false -> exists packed,
  fst (scan_rows (Some <$> rows) (scan_pack pl st (matcher st def args) eff) (Ok o)) =
  Ok (MkOut packed (po_out o ++ map (shown proj) (upto eff (length (po_out o)) (filter (fun r => mb r = true) rows)))).
Proof.
  intros Hr. induction Hr as [|r rows Hr _ IH]; intros o Hf; cbn [fmap list_fmap scan_rows].
  { exists (po_packed o). cbn. unfold upto. destruct (0 <=? eff); rewrite ?take_nil; cbn; rewrite app_nil_r; by destruct o. }
  unfold scan_pack at 1. rewrite ok_bind, (where_decides r Hr), ok_bind, list.filter_cons.
  destruct (mb r) eqn:Em; cbn [negb]; [rewrite decide_True by done|rewrite decide_False by done; by apply IH].
  destruct (appendProjected_ok ords (sel_starAll st) (sp_ords P) true o r Hr) as [packed ->]. rewrite ok_bind.
  rewrite (upto_more _ _ _ _ Hf). set (o' := MkOut packed (po_out o ++ [shown proj r])).
  assert (El : length (po_out o') = S (length (po_out o))) by (unfold o'; cbn; rewrite length_app; cbn; lia).
  destruct (full eff o') eqn:Ef; cbn [negb fst].
  - exists packed. pose proof (upto_full eff o' (filter (fun r => mb r = true) rows) Ef) as E. rewrite El in E. by rewrite E.
  - destruct (IH o' Ef) as (packed' & E). exists packed'. rewrite E, El. cbn [map po_out o']. by rewrite <- app_assoc.
Qed.
Lemma scan_unordered : pl_orderOrdinal pl < 0 -> limit <> 0 ->
  execScan SortFunc t pl st def args = Ok (window (map (shown proj) (matching mb))).
Proof.
  intros Hneg Hz. unfold execScan. rewrite (proj2 (Z.ltb_lt _ _) Hneg), (proj2 (Z.eqb_neq _ _) Hz), scanAll_rows.
  destruct (scan_packs (fetchBound limit offset) (rows_of t) ltac:(apply list.Forall_forall; apply scan_good) (MkOut [] []) (bound_open Hz)) as [packed E].
  rewrite E, ok_bind. cbn [po_out length app]. by rewrite <- upto_map, window_slice.
Qed.
Lemma answers_scan : answers (execScan SortFunc t pl st def args).
Proof.
  destruct (Z.ltb_spec (pl_orderOrdinal pl) 0) as [Hneg|Hpos].
  - destruct (Z.eqb_spec limit 0) as [Hz|Hz].
    + unfold execScan. rewrite (proj2 (Z.ltb_lt _ _) Hneg), Hz. by apply answers_zero.
    + exists (matching mb). split_and!; [done|lia|by apply scan_unordered].
  - assert (Hg : Forall good (rows_of t)) by (apply list.Forall_forall; apply scan_good). unfold execScan. rewrite (proj2 (Z.ltb_ge _ _) Hpos).
    destruct (Z.eqb_spec limit 0) as [Hz|Hz]; [rewrite Hz; by apply answers_zero|].
    pose proof (answers_order_by (matching mb) Hpos Hz ltac:(done)) as Ho. unfold order_by in Ho. rewrite (proj2 (Z.eqb_neq _ _) Hz) in Ho.
    rewrite !scanAll_rows, !scan_tops by done. destruct (0 <=? limit).
    + by rewrite offer_all_fold in Ho.
    + by rewrite collect_all_fold in Ho.
Qed.
(** *** By primary key *)
Lemma get_cells_shown r : good r -> get_cells r ords = Ok (shown (Some ords) r).
Proof.
  intros ((Hl & Hv) & _). pose proof (sp_ords P) as Ho. rewrite <- Hl in Ho. clear Hl.
  induction Ho as [|o os Ho _ IH]; [done|]. cbn [get_cells]. destruct (index_lt r o Ho) as (v & -> & E).
  rewrite ok_bind, IH, ok_bind. cbn. by rewrite E.
Qed.
Lemma read_pk u : (if sel_starAll st then getByPK pkHashSeed t u else getByPKProject pkHashSeed t u ords) = Ok (shown proj <$> g !! u).
Proof.
  rewrite getByPK_live, getByPKProject_live, (rd_get _ _ _ (rd_stored _ _ _ _ R)), !ok_bind. destruct (g !! u) as [r|] eqn:E; [|by destruct (sel_starAll st)].
  pose proof (rd_good u r E) as Hr. destruct (sel_starAll st); [by rewrite Row_Clone_ok by apply Hr|]. by rewrite (project_ok ords (sp_ords P) r Hr).
Qed.
(** At most one row can match. *)
Lemma answers_one u : (forall pk r, g !! pk = Some r -> mb r = true -> pk = u) ->
  answers (Ok (if (limit =? 0) || (0 <? offset) then [] else map (shown proj) (hits mb [u]))).
Proof.
  intros Hu. exists (hits mb [u]). pose proof (sp_offset P) as Hoff.
  assert (Hs : (length (hits mb [u]) <= 1)%nat) by (rewrite hits_cons; destruct (g !! u) as [r|]; [destruct (mb r)|]; cbn; lia).
  split_and!; [|intros _|].
  - apply hits_all; [repeat constructor; by intros ?%elem_of_nil|]. intros pk r Hg Hm. rewrite (Hu pk r Hg Hm). by left.
  - destruct (hits mb [u]) as [|x [|]]; [constructor|repeat constructor|cbn in Hs; lia].
  - f_equal. unfold window. destruct (Z.eqb_spec limit 0) as [Hz|Hz]; cbn [orb]; [by rewrite Hz|].
    destruct (Z.ltb_spec 0 offset) as [Ho|Ho].
    + rewrite drop_ge by (rewrite length_map; lia). by destruct (limit <? 0); rewrite ?take_nil.
    + replace (Z.to_nat offset) with 0%nat by lia. rewrite drop_0. destruct (Z.ltb_spec limit 0); [done|]. rewrite take_ge; [done|]. rewrite length_map. lia.
Qed.
Lemma answers_pk v : value_ok v -> Kind v = KindUUID -> (forall pk r, g !! pk = Some r -> mb r = true <-> pk = v_UUID v) ->
  answers (execSelectPK pkHashSeed t pl st v).
Proof.
  intros Hv Kv Hu. unfold execSelectPK, IsNull. rewrite bool_decide_false by congruence.
  assert (Ec : coerceToUUID v = Ok (v_UUID v)) by (unfold coerceToUUID; by rewrite Kv). rewrite Ec, ok_bind.
  assert (Ho : forall pk r, g !! pk = Some r -> mb r = true -> pk = v_UUID v) by (intros pk r Hg; by apply (Hu pk r Hg)).
  pose proof (answers_one _ Ho) as A. unfold execSelectPKResolved. destruct ((limit =? 0) || (0 <? offset)); [done|].
  assert (E : map (shown proj) (hits mb [v_UUID v]) = opt_row (shown proj <$> g !! v_UUID v)).
  { rewrite hits_cons. destruct (g !! v_UUID v) as [r|] eqn:Eg; [|done]. by rewrite (proj2 (Hu _ r Eg) eq_refl). }
  rewrite E in A. pose proof (read_pk (v_UUID v)) as Er. destruct (sel_starAll st); rewrite Er, ok_bind; by destruct (g !! v_UUID v).
Qed.
Lemma answers_probe v : value_ok v -> Kind v = KindUUID -> (forall pk r, g !! pk = Some r -> mb r = true -> pk = v_UUID v) ->
  answers (execSelectPKResidual pkHashSeed t pl st def v args).
Proof.
  intros Hv Kv Hu. pose proof (answers_one _ Hu) as A. unfold execSelectPKResidual. destruct ((limit =? 0) || (0 <? offset)); [done|].
  unfold IsNull. rewrite bool_decide_false by congruence.
  assert (Ec : coerceToUUID v = Ok (v_UUID v)) by (unfold coerceToUUID; by rewrite Kv). rewrite Ec, ok_bind.
  rewrite hits_cons in A. rewrite getByPK_live, (rd_get _ _ _ (rd_stored _ _ _ _ R)), ok_bind. destruct (g !! v_UUID v) as [r|] eqn:Eg; rewrite ok_bind; [|done].
  pose proof (rd_good _ r Eg) as Hr. rewrite Row_Clone_ok by apply Hr. rewrite (where_decides r Hr), ok_bind. destruct (mb r); cbn [negb]; [|done].
  pose proof (get_cells_shown r Hr) as Ec'. by destruct (sel_starAll st); [|rewrite Ec'].
Qed.
End exec.
End found.
End reader.
