(* ===== verification/CandOk.v ===== *)
(** * CandOk: the candidates of an indexed SELECT — equality buckets and
    composite prefixes — miss no row the pins admit, and without a dirty overlay
    hold no other. *)
From S2P Require Import Prelude Bytes Order Uuid Value CompositeKey PkMap Codec Frame Journal Schema Catalog SecIndex IndexOk Store StoreOk Merge MergeOk MergeSafe Ast Eval Filter TopN TopNOk Plan PlanJoin PlanOk PlanJoinOk Recovery Select SelectOk.

(** ** Pinned values *)
Lemma value_of_eval e args v : evalLitOrParamValue e args = Ok v -> forall row cols, eval e (MkCtx row cols args) = Ok v.
Proof. destruct e; try done. Qed.
Lemma keyOf_inj v o : indexable v -> indexable o -> Kind v = Kind o -> keyOf v = keyOf o -> v = o.
Proof.
  intros Hv Ho K E. apply (Equal_spec v o (proj1 Hv) (proj1 Ho)). by apply (scalar_key_order v o).
Qed.

Section pins.
Context (def : resolvedTable) (ck : nat -> ValueKind) (cols : gmap bytes nat) (args : list Value).
Local Abbreviation ncols := (length (t_Columns (rt_def def))).
(** The value a pin compares with has the column's kind; in particular it is not
    NULL. *)
Definition pin_val (p : nat * expr) (v : Value) : Prop :=
  evalLitOrParamValue (snd p) args = Ok v /\ indexable v /\ Kind v = ck (fst p).
Definition pin_ok (p : nat * expr) : Prop := exists v, pin_val p v.

Lemma pinned_value p v r : pin_val p v -> Forall value_ok r -> (pinned cols args r p <-> r !! fst p = Some v).
Proof.
  intros (Ev & [Hv _] & _) Hr. unfold pinned. split.
  - intros (c & v' & Hc & E & Heq). rewrite (value_of_eval _ _ _ Ev) in E. injection E as <-.
    apply Equal_spec in Heq; [by subst|by eapply Forall_lookup_1|done].
  - intros Hc. exists v, v. split_and!; [done|by apply value_of_eval|]. by apply Equal_spec.
Qed.

(** The key a row of the pinned value has. *)
Lemma pinned_key o src v r : pin_val (o, src) v -> Forall value_ok r -> row_typed ck r ->
  key_of [o] r = Some (keyOf v) <-> pinned cols args r (o, src).
Proof.
  intros Hp Hr Ht. pose proof Hp as (_ & Hv & Kv). cbn in Kv. rewrite (pinned_value (o, src) v r Hp Hr). cbn [fst].
  unfold key_of, cells_of, keyFromCells, keyFromCellsInto. cbn [length Nat.eqb].
  change (index ((fun o => default Null (r !! o)) <$> [o]) 0) with (Ok (default Null (r !! o))). rewrite ok_bind.
  destruct (r !! o) as [c|] eqn:Ec; [|cbn; by split]; cbn [default from_option id].
  pose proof (Forall_lookup_1 _ _ _ _ Hr Ec) as Hcv. destruct (IsNull c) eqn:En; cbn.
  - split; [done|]. intros [= ->]. destruct Hv as [_ Hv]. unfold IsNull in En. by apply bool_decide_eq_true in En.
  - apply bool_decide_eq_false in En. split; [|by intros [= ->]]. intros [= E]. f_equal.
    apply keyOf_inj; [by split|done| |done]. destruct (Ht _ _ Ec) as [|Hk]; [done|]. congruence.
Qed.

Section found.
Context (pkHashSeed : Z) (t : tbl_state) (ixs : list secIndex) (g : gmap UUID Row) (d : list UUID).
Hypothesis R : readable pkHashSeed def ck t ixs g d.
Local Abbreviation pinned := (pinned cols args).

(** *** One equality bucket *)
Lemma bucket_exact si o src v : si ∈ ixs -> si_ordinals si = [o] -> pin_val (o, src) v ->
  NoDup (lookup si (keyOf v)) /\ forall pk r, g !! pk = Some r -> pk ∉ d -> (pk ∈ lookup si (keyOf v) <-> pinned r (o, src)).
Proof.
  intros Hsi Ho Hp. destruct (rd_ix _ _ _ _ _ _ _ R si Hsi) as (vis & Hi & Hvis). pose proof Hp as (_ & Hv & Kv). cbn in Kv.
  assert (Hc : key_canon (kd_of ck (si_ordinals si)) (keyOf v)) by (rewrite Ho; cbn; rewrite <- Kv; by apply keyOf_canon).
  destruct (lookup_pks _ _ _ _ Hi Hc) as [Hn Hl]. split; [done|]. intros pk r Hg Hd. rewrite Hl, (Hvis pk r Hg Hd), Ho.
  destruct (rd_good _ _ _ _ _ _ _ R pk r Hg) as ((_ & Hr) & Ht). by apply pinned_key.
Qed.

Definition single_index (o : nat) : Prop := exists si, indexFor ixs o = Some si /\ si ∈ ixs /\ si_ordinals si = [o].
Lemma indexFor_single o : (exists ri, ri ∈ rt_indexes def /\ ri_ordinals ri = [o]) -> single_index o.
Proof.
  intros (ri & Hri & Ho). pose proof (rd_shape _ _ _ _ _ _ _ R) as Hs. unfold shape in Hs.
  assert (Hin : ([o], ri_ordered ri) ∈ map (fun si => (si_ordinals si, si_ordered si)) ixs).
  { rewrite Hs, <- Ho. by apply (list_elem_of_fmap_2 (fun ri => (ri_ordinals ri, ri_ordered ri))). }
  apply list_elem_of_fmap in Hin as (si & E & Hsi). injection E as E _. unfold single_index, indexFor.
  destruct (find _ ixs) as [si'|] eqn:F.
  - apply find_some in F as [Hin F]. exists si'. split_and!; [done|by apply list_elem_of_In|].
    destruct (si_ordinals si') as [|x [|]]; try done. by apply Nat.eqb_eq in F as ->.
  - pose proof (find_none _ _ F si (proj1 (list_elem_of_In _ _) Hsi)) as N. cbv beta in N. rewrite <- E in N. by rewrite Nat.eqb_refl in N.
Qed.

(** *** The intersection of the buckets *)
Definition exact_for (pins : list (nat * expr)) (pks : list UUID) : Prop :=
  NoDup pks /\ forall pk r, g !! pk = Some r -> pk ∉ d ->
    (Forall (pinned r) pins -> pk ∈ pks) /\ (pk ∈ pks -> Forall (pinned r) pins).
Lemma idx_loop_ok ctx pins : c_args ctx = args -> Forall pin_ok pins -> Forall (fun p => single_index (fst p)) pins ->
  forall pks, match pks with Some l => NoDup l | None => pins <> [] end -> exists l, idx_loop ixs pins pks ctx = Ok (Some l) /\ NoDup l /\
    forall pk r, g !! pk = Some r -> pk ∉ d ->
      (pk ∈ l <-> match pks with Some l => pk ∈ l | None => True end /\ Forall (pinned r) pins).
Proof.
  intros Ha. induction pins as [|[o src] pins IH]; intros Hp Hs pks Hn; cbn [idx_loop].
  { destruct pks as [l|]; [|done]. exists l. split_and!; [done..|]. intros. split; [by split; [|constructor]|by intros [? _]]. }
  apply list.Forall_cons in Hp as [[v Hv] Hp]. apply list.Forall_cons in Hs as [(si & Ei & Hsi & Hord) Hs]. pose proof Hv as (Ev & [_ Hnn] & _).
  cbn [evalExpr]. destruct ctx as [row cc a]. cbn in Ha. subst a. rewrite (value_of_eval _ _ _ Ev), ok_bind.
  unfold IsNull. rewrite bool_decide_false by done. cbn [fst] in Ei. rewrite Ei. cbv zeta.
  destruct (bucket_exact si o src v Hsi Hord Hv) as [Bn Bx].
  set (cur := match pks with Some p => intersectPKs p (lookup si (keyOf v)) | None => lookup si (keyOf v) end).
  assert (Hcur : NoDup cur /\ forall pk r, g !! pk = Some r -> pk ∉ d ->
    (pk ∈ cur <-> match pks with Some l => pk ∈ l | None => True end /\ pinned r (o, src))).
  { unfold cur. destruct pks as [l|].
    - destruct (intersectPKs_ok l (lookup si (keyOf v)) Hn Bn) as [In Ix]. split; [done|]. intros pk r Hg Hd. rewrite Ix. by rewrite (Bx pk r Hg Hd).
    - split; [done|]. intros pk r Hg Hd. rewrite (Bx pk r Hg Hd). tauto. }
  destruct Hcur as [Cn Cx]. fold cur.
  destruct (Nat.eqb_spec (length cur) 0) as [E|E].
  - exists []. split_and!; [done|constructor|]. intros pk r Hg Hd. rewrite list.Forall_cons. apply nil_length_inv in E. rewrite E in Cx.
    specialize (Cx pk r Hg Hd). rewrite elem_of_nil in *. tauto.
  - destruct (IH Hp Hs (Some cur) Cn) as (l & El & Ln & Lx). exists l. split_and!; [done..|]. intros pk r Hg Hd.
    rewrite (Lx pk r Hg Hd), (Cx pk r Hg Hd), list.Forall_cons. tauto.
Qed.
Lemma overlay_ok pks : with_overlay pkHashSeed t pks = Ok (if (length pks =? 0)%nat && (length d =? 0)%nat then None else Some (MkCand pks d)).
Proof. unfold with_overlay. by rewrite (rd_dirty _ _ _ _ _ _ (rd_stored _ _ _ _ _ _ _ R)), ok_bind. Qed.
Lemma dirty_decided pk : pk ∈ d \/ pk ∉ d.
Proof. destruct (decide (pk ∈ d)); auto. Qed.

(** *** Composite prefixes *)
Lemma composite_index ri : resolved_ok (rt_def def) def -> ri ∈ rt_indexes def -> exists si, indexByOrdinals ixs (ri_ordinals ri) = Some si /\
  si ∈ ixs /\ si_ordinals si = ri_ordinals ri /\ si_ordered si = ri_ordered ri.
Proof.
  intros Hrt Hri. pose proof (rd_shape _ _ _ _ _ _ _ R) as Hs. unfold shape in Hs.
  assert (Hin : (ri_ordinals ri, ri_ordered ri) ∈ map (fun si => (si_ordinals si, si_ordered si)) ixs).
  { rewrite Hs. by apply (list_elem_of_fmap_2 (fun ri => (ri_ordinals ri, ri_ordered ri))). }
  apply list_elem_of_fmap in Hin as (si & E & Hsi). injection E as E _. unfold indexByOrdinals. destruct (find _ ixs) as [si'|] eqn:F.
  - apply find_some in F as [Hin F]. apply bool_decide_eq_true in F. exists si'. apply list_elem_of_In in Hin. split_and!; [done..|].
    assert (Hin' : (si_ordinals si', si_ordered si') ∈ map (fun ri => (ri_ordinals ri, ri_ordered ri)) (rt_indexes def)).
    { rewrite <- Hs. by apply (list_elem_of_fmap_2 (fun si => (si_ordinals si, si_ordered si))). }
    apply list_elem_of_fmap in Hin' as (ri' & E' & Hri'). injection E' as E1 ->.
    pose proof (ro_sigs _ _ Hrt) as Hn. apply list_elem_of_lookup_1 in Hri as [i Hi]. apply list_elem_of_lookup_1 in Hri' as [j Hj].
    assert (i = j) as ->; [|congruence]. eapply (NoDup_lookup (map ri_ordinals (rt_indexes def))); [exact Hn|..].
    + change (map ri_ordinals (rt_indexes def)) with (ri_ordinals <$> rt_indexes def). rewrite list_lookup_fmap, Hi. done.
    + change (map ri_ordinals (rt_indexes def)) with (ri_ordinals <$> rt_indexes def). rewrite list_lookup_fmap, Hj. cbn. congruence.
  - pose proof (find_none _ _ F si (proj1 (list_elem_of_In _ _) Hsi)) as N. cbv beta in N. rewrite bool_decide_eq_false in N. congruence.
Qed.

(** A row with no NULL among the columns of an index. *)
Definition full_on (os : list nat) (r : Row) : Prop := forall o, o ∈ os -> exists v, r !! o = Some v /\ indexable v /\ Kind v = ck o.
Lemma full_cells os r : full_on os r -> existsb IsNull (cells_of os r) = false /\ Forall2 (fun o v => indexable v /\ Kind v = ck o) os (cells_of os r).
Proof.
  induction os as [|o os IH]; intros Hf; cbn; [by split|]. destruct (Hf o) as (v & E & Hv & K); [by left|]. rewrite E. cbn.
  destruct IH as [I1 I2]; [intros x Hx; apply Hf; by right|]. split; [|by constructor]. unfold cells_of in I1. rewrite I1.
  unfold IsNull. rewrite bool_decide_false by apply Hv. done.
Qed.
Lemma full_key os r : (2 <= length os)%nat -> full_on os r -> key_of os r = Some (encodeCompositeKey (cells_of os r)).
Proof.
  intros Hl Hf. unfold key_of, keyFromCells, keyFromCellsInto. rewrite (proj2 (Nat.eqb_neq _ _)) by lia. by rewrite (proj1 (full_cells os r Hf)).
Qed.
Lemma full_kd os : (2 <= length os)%nat -> kd_of ck os = KindBytes.
Proof. destruct os as [|? [|]]; cbn; [lia..|done]. Qed.

(** The values of a pinned prefix, and the rows that have them. *)
Lemma prefix_vals ctx srcs : forall os, c_args ctx = args -> (length srcs <= length os)%nat -> Forall pin_ok (zip os srcs) ->
  exists vs, prefix_values srcs ctx = Ok (Some vs) /\ length vs = length srcs /\ Forall2 pin_val (zip os srcs) vs.
Proof.
  induction srcs as [|src srcs IH]; intros [|o os] Ha Hl Hp; cbn in Hl; cbn [prefix_values zip zip_with]; try (exists []; split_and!; [done..|constructor]); [lia|].
  cbn in Hp. apply list.Forall_cons in Hp as [[v Hv] Hp]. destruct (IH os Ha ltac:(lia) Hp) as (vs & E & El & HF). pose proof Hv as (Ev & [_ Hnn] & _).
  cbn [evalExpr]. destruct ctx as [row cc a]. cbn in Ha. subst a. cbn [snd] in Ev. rewrite (value_of_eval _ _ _ Ev), ok_bind. unfold IsNull. rewrite bool_decide_false by done.
  rewrite E, ok_bind. exists (v :: vs). split_and!; [done|cbn; lia|by constructor].
Qed.
Lemma prefix_cells srcs : forall os vs r, length vs = length srcs -> (length srcs <= length os)%nat -> Forall2 pin_val (zip os srcs) vs ->
  Forall value_ok r -> full_on os r ->
  same_columns (take (length vs) (cells_of os r)) vs /\ (Forall (pinned r) (zip os srcs) <-> take (length vs) (cells_of os r) = vs).
Proof.
  induction srcs as [|src srcs IH]; intros [|o os] vs r El Hl HF Hr Hf; cbn in Hl, El; cbn [zip zip_with] in *; try lia;
    try (apply nil_length_inv in El; subst vs; cbn; split; [constructor|by split]).
  inversion HF as [|p v l vs' Hv HF' E1 E2]; subst. cbn in El. destruct (Hf o) as (c & Ec & Hc & Kc); [by left|].
  destruct (IH os vs' r ltac:(lia) ltac:(lia) HF' Hr) as [I1 I2]; [intros x Hx; apply Hf; by right|].
  cbn [length take cells_of fmap list_fmap]. rewrite Ec. cbn [default from_option id]. pose proof Hv as (_ & Hv' & Kv). cbn in Kv. split.
  - constructor; [|exact I1]. split_and!; [done..|congruence].
  - rewrite list.Forall_cons, (pinned_value (o, src) v r Hv Hr). cbn [fst]. rewrite Ec. unfold cells_of in I2. rewrite I2.
    split; [by intros [[= ->] ->]|by intros [= -> ->]].
Qed.

Section prefix.
Context (si : secIndex) (srcs : list expr) (vs : list Value).
Hypothesis Hsi : si ∈ ixs.
Hypothesis Hord : si_ordered si = true.
Hypothesis Hlen : (2 <= length (si_ordinals si))%nat.
Hypothesis Hk : (length srcs <= length (si_ordinals si))%nat.
Hypothesis Hvs : length vs = length srcs.
Hypothesis HF : Forall2 pin_val (zip (si_ordinals si) srcs) vs.
Hypothesis Hfull : forall pk r, g !! pk = Some r -> full_on (si_ordinals si) r.
(** The run of the prefix: sorted, each PK once, and for a row outside the
    overlay present exactly when the row is pinned, under the row's own key. *)
Lemma prefix_found : exists run, snapshotPrefix si (encodeCompositeKey vs) = Ok run /\ prefixLookup si (encodeCompositeKey vs) = map oe_pk run /\
  StronglySorted (le_of ecmp) run /\ NoDup (map oe_pk run) /\ Forall (fun e => key_canon KindBytes (oe_key e)) run /\
  forall pk r, g !! pk = Some r -> pk ∉ d ->
    (Forall (pinned r) (zip (si_ordinals si) srcs) <-> pk ∈ map oe_pk run) /\
    (forall e, e ∈ run -> oe_pk e = pk -> oe_key e = encodeCompositeKey (cells_of (si_ordinals si) r)).
Proof.
  destruct (rd_ix _ _ _ _ _ _ _ R si Hsi) as (vis & Hi & Hvis). rewrite full_kd in Hi by done.
  destruct (prefix_run_exact si vis (encodeCompositeKey vs) Hi Hord) as (run & E1 & E2 & Hs & Hn & Hr). exists run. split_and!; try done.
  - destruct Hi as [_ Hi]. rewrite Hord in Hi. apply list.Forall_forall. intros e He. apply Hr in He as [He _]. by eapply (proj1 Hi).
  - intros pk r Hg Hd. destruct (rd_good _ _ _ _ _ _ _ R pk r Hg) as ((_ & Hv) & _). pose proof (Hfull pk r Hg) as Hf.
    pose proof (Hvis pk r Hg Hd) as Ek. rewrite full_key in Ek by done.
    destruct (prefix_cells srcs (si_ordinals si) vs r Hvs Hk HF Hv Hf) as [S1 S2]. pose proof (prefix_iff _ _ S1) as Hpre. split.
    + rewrite S2, <- Hpre. split.
      * intros Hp. apply (list_elem_of_fmap_2' oe_pk run (entry_of pk (encodeCompositeKey (cells_of (si_ordinals si) r)))); [|done]. apply Hr. by split.
      * intros (e & -> & He)%list_elem_of_fmap. apply Hr in He as [He Hp]. rewrite Ek in He. injection He as He. by rewrite <- He in Hp.
    + intros e He <-. apply Hr in He as [He _]. rewrite Ek in He. by injection He.
Qed.
End prefix.
End found.
End pins.
