(* ===== verification/WalkOk.v ===== *)
(** * WalkOk: an ordered walk merges the index slice and the dirty overlay into
    one sorted sequence of the matching rows; the streaming form visits the same
    rows. *)
From S2P Require Import Prelude Bytes Order Uuid Value CompositeKey PkMap Codec Frame Journal Schema Catalog SecIndex IndexOk Store StoreOk Merge MergeOk MergeSafe Ast Eval Filter TopN TopNOk Plan PlanJoin PlanOk PlanJoinOk Recovery Select SelectOk.

Lemma StronglySorted_rev {A} (Rl : A -> A -> Prop) l : StronglySorted Rl l -> StronglySorted (fun x y => Rl y x) (rev l).
Proof.
  induction 1 as [|x l _ IH Hx]; [constructor|]. cbn [rev]. revert IH. assert (Hr : Forall (fun y => Rl x y) (rev l)) by (by rewrite <- Permutation_rev).
  revert Hr. generalize (rev l). clear. induction 1 as [|y l Hy _ IH]; intros Hs; cbn [app]; [by repeat constructor|].
  inversion Hs as [|? ? Hs' Hy']; subst. constructor; [by apply IH|]. apply Forall_app. split; [done|by constructor].
Qed.

Lemma StronglySorted_impl {A} (R S : A -> A -> Prop) l : (forall x y, R x y -> S x y) -> StronglySorted R l -> StronglySorted S l.
Proof. intros H. induction 1 as [|x l _ IH Hx]; constructor; [done|]. eapply Forall_impl; [|exact Hx]. apply H. Qed.

(** ** Weaving two sorted streams *)
Section weave.
Context (dirtySet : gset UUID) (desc : bool).
Definition item : Type := (indexKey * (UUID + Row))%type.
Definition of_entry (e : ordEntry) : item := (oe_key e, inl (oe_pk e)).
Definition of_dcand (d : dcand) : item := (dc_key d, inr (dc_row d)).
Fixpoint weave (fuel : nat) (snap : list ordEntry) (dc : list dcand) : list item :=
  match fuel with
  | O => []
  | S fuel =>
      match skip_shadowed dirtySet snap, dc with
      | e :: snap', d :: dc' =>
          if before desc (dc_key d) (oe_key e) then of_dcand d :: weave fuel (e :: snap') dc' else of_entry e :: weave fuel snap' dc
      | [], d :: dc' => of_dcand d :: weave fuel [] dc'
      | e :: snap', [] => of_entry e :: weave fuel snap' dc
      | [], [] => []
      end
  end.
Fixpoint run {A} (done : A -> bool) (emitIdx : A -> UUID -> outcome A) (emitDirty : A -> Row -> outcome A) (l : list item) (a : A) : outcome A :=
  match l with
  | [] => Ok a
  | (_, x) :: l =>
      if done a then Ok a
      else a ← match x with inl pk => emitIdx a pk | inr r => emitDirty a r end; run done emitIdx emitDirty l a
  end.
Lemma skip_skip snap : skip_shadowed dirtySet (skip_shadowed dirtySet snap) = skip_shadowed dirtySet snap.
Proof. induction snap as [|e snap IH]; [done|]. cbn [skip_shadowed]. case_bool_decide as E; [done|]. cbn [skip_shadowed]. by rewrite bool_decide_false. Qed.
Lemma merge_weave {A} (done : A -> bool) emitIdx emitDirty fuel : forall snap dc a,
  merge_streams dirtySet desc done emitIdx emitDirty fuel snap dc a = run done emitIdx emitDirty (weave fuel snap dc) a.
Proof.
  induction fuel as [|fuel IH]; intros snap dc a; [done|]. cbn [merge_streams weave]. cbv zeta. destruct (skip_shadowed dirtySet snap) as [|e snap'], dc as [|d dc'].
  - by destruct (done a).
  - cbn [run of_dcand]. destruct (done a); [done|]. destruct (emitDirty a _); [apply IH|done..].
  - cbn [run of_entry]. destruct (done a); [done|]. destruct (emitIdx a _); [apply IH|done..].
  - destruct (before _ _ _); cbn [run of_dcand of_entry]; (destruct (done a); [done|]).
    + destruct (emitDirty a _); [apply IH|done..].
    + destruct (emitIdx a _); [apply IH|done..].
Qed.

Local Abbreviation kept := (filter (fun e => oe_pk e ∉ dirtySet)).
Lemma skip_kept snap : kept (skip_shadowed dirtySet snap) = kept snap.
Proof.
  induction snap as [|e snap IH]; [done|]. cbn [skip_shadowed]. case_bool_decide as E; [|done]. rewrite IH, list.filter_cons. by rewrite decide_False by tauto.
Qed.
Lemma skip_head snap e l : skip_shadowed dirtySet snap = e :: l -> oe_pk e ∉ dirtySet.
Proof. induction snap as [|x snap IH]; cbn [skip_shadowed]; [done|]. case_bool_decide as E; [done|]. by intros [= -> _]. Qed.
Lemma skip_length snap : (length (skip_shadowed dirtySet snap) <= length snap)%nat.
Proof. induction snap as [|x snap IH]; cbn [skip_shadowed]; [done|]. case_bool_decide; cbn; lia. Qed.
Lemma weave_perm fuel : forall snap dc, (length snap + length dc < fuel)%nat ->
  weave fuel snap dc ≡ₚ map of_entry (kept snap) ++ map of_dcand dc.
Proof.
  induction fuel as [|fuel IH]; intros snap dc Hf; [lia|]. cbn [weave]. rewrite <- (skip_kept snap). pose proof (skip_length snap) as Hl.
  destruct (skip_shadowed dirtySet snap) as [|e snap'] eqn:E; cbn in Hl; destruct dc as [|d dc']; cbn in Hf; [done| | |].
  - rewrite IH by (cbn; lia). done.
  - rewrite IH by (cbn; lia). rewrite list.filter_cons, decide_True by (by eapply skip_head). done.
  - destruct (before _ _ _); rewrite IH by (cbn; lia).
    + cbn [map]. apply Permutation_middle.
    + rewrite (list.filter_cons _ e), decide_True by (by eapply skip_head). done.
Qed.

(** In the walking order of keys. *)
Definition key_le (a b : indexKey) : Prop := if desc then le_of kcmp b a else le_of kcmp a b.
Definition item_le (x y : item) : Prop := key_le (fst x) (fst y).
Lemma key_le_trans a b c : key_le a b -> key_le b c -> key_le a c.
Proof. unfold key_le. destruct desc; intros H1 H2; etrans; eassumption. Qed.
Lemma before_le kd a b : key_canon kd a -> key_canon kd b -> if before desc a b then key_le a b else key_le b a.
Proof.
  intros Ha Hb. unfold before, key_le. destruct desc; rewrite (less_kltb kd) by done; unfold kltb, ltb_of, le_of.
  - destruct (kcmp b a) eqn:E; [rewrite (tc_anti b a), E|..]; try done; rewrite (tc_anti b a), E; done.
  - destruct (kcmp a b) eqn:E; [rewrite (tc_anti a b), E|..]; try done; rewrite (tc_anti a b), E; done.
Qed.
Lemma skip_sorted (Rl : ordEntry -> ordEntry -> Prop) snap : StronglySorted Rl snap -> StronglySorted Rl (skip_shadowed dirtySet snap).
Proof. induction 1 as [|e l Hs IH He]; cbn [skip_shadowed]; [constructor|]. case_bool_decide; [done|by constructor]. Qed.
Lemma skip_forall (Q : ordEntry -> Prop) snap : Forall Q snap -> Forall Q (skip_shadowed dirtySet snap).
Proof. induction 1 as [|e l He Hs IH]; cbn [skip_shadowed]; [constructor|]. case_bool_decide; [done|by constructor]. Qed.
Lemma weave_sorted kd fuel : forall snap dc, (length snap + length dc < fuel)%nat ->
  Forall (fun e => key_canon kd (oe_key e)) snap -> Forall (fun d => key_canon kd (dc_key d)) dc ->
  StronglySorted (fun a b => key_le (oe_key a) (oe_key b)) snap -> StronglySorted (fun a b => key_le (dc_key a) (dc_key b)) dc ->
  StronglySorted item_le (weave fuel snap dc).
Proof.
  induction fuel as [|fuel IH]; intros snap dc Hf Ks Kd Ss Sd; [lia|]. cbn [weave]. pose proof (skip_length snap) as Hl.
  apply skip_sorted in Ss. apply skip_forall in Ks. destruct (skip_shadowed dirtySet snap) as [|e snap'] eqn:E; cbn in Hl; destruct dc as [|d dc']; cbn in Hf; [constructor|..].
  - apply list.Forall_cons in Kd as [_ Kd]. apply StronglySorted_cons in Sd as [Hd Sd]. constructor; [apply IH; cbn; done || lia|].
    rewrite weave_perm by (cbn; lia). apply Forall_app. split; [by apply Forall_nil_2|]. rewrite Forall_map. exact Hd.
  - apply list.Forall_cons in Ks as [_ Ks]. apply StronglySorted_cons in Ss as [He Ss]. constructor; [apply IH; cbn; done || lia|].
    rewrite weave_perm by (cbn; lia). cbn [map]. rewrite app_nil_r, Forall_map. rewrite list.Forall_forall in He |- *.
    intros x [_ Hx]%list_elem_of_filter. by apply He.
  - pose proof Ks as Ks0. pose proof Kd as Kd0. pose proof Ss as Ss0. pose proof Sd as Sd0.
    apply list.Forall_cons in Ks as [Ke Ks]. apply list.Forall_cons in Kd as [Kx Kd].
    apply StronglySorted_cons in Ss as [He Ss]. apply StronglySorted_cons in Sd as [Hd Sd].
    pose proof (before_le kd _ _ Kx Ke) as Hb. rewrite list.Forall_forall in He. rewrite list.Forall_forall in Hd.
    destruct (before _ _ _); (constructor; [apply IH; cbn; done || lia|]); rewrite weave_perm by (cbn; lia); apply Forall_app; rewrite !Forall_map, !list.Forall_forall; split.
    + intros x [_ [->|Hx]%elem_of_cons]%list_elem_of_filter; [done|]. eapply key_le_trans; [exact Hb|by apply He].
    + exact Hd.
    + intros x [_ Hx]%list_elem_of_filter. by apply He.
    + intros x [->|Hx]%elem_of_cons; [done|]. eapply key_le_trans; [exact Hb|by apply Hd].
Qed.
End weave.

(** ** The walk of a SELECT *)
Section walk.
Context (pkHashSeed : Z) (def : resolvedTable) (ck : nat -> ValueKind).
Local Abbreviation ncols := (length (t_Columns (rt_def def))).
Context (t : tbl_state) (ixs : list secIndex) (g : gmap UUID Row) (d : list UUID).
Hypothesis R : readable pkHashSeed def ck t ixs g d.
Context (SortFunc : forall A : Type, (A -> A -> Z) -> list A -> list A) {sorts : forall A, SortsFunc (SortFunc A)}.
Context (pl : plan) (st : selectStmt) (args : list Value).
Hypothesis P : sound_plan def t pl st args.
Local Abbreviation ords := (pl_projOrdinals pl).
Local Abbreviation limit := (sel_limit st).
Local Abbreviation offset := (sel_offset st).
Local Abbreviation proj := (projOrNil (sel_starAll st) ords).
Local Abbreviation desc := (sel_orderDesc st).
Local Abbreviation mb := (mb def st args).
Local Abbreviation matching := (matching t mb).
Local Abbreviation live := (rd_get _ _ _ _ _ _ (rd_stored _ _ _ _ _ _ _ R)).

(** What a walk needs of its slice, [rk] being a row's key: sorted, each PK once,
    fresh outside the overlay, and without a gap. *)
Record walk_ok (kd : ValueKind) (rk : Row -> indexKey) (w : walk_args) : Prop := {
  wk_sorted : StronglySorted (fun a b => le_of kcmp (oe_key a) (oe_key b)) (fst (fst w));
  wk_nodup : NoDup (map oe_pk (fst (fst w)));
  wk_canon : Forall (fun e => key_canon kd (oe_key e)) (fst (fst w));
  wk_fresh e r : e ∈ fst (fst w) -> g !! oe_pk e = Some r -> oe_pk e ∉ d ->
    oe_key e = rk r /\ forallb (fun c => matchb (rt_colByName def) args (Some c) r) (snd w) = mb r;
  wk_cover pk r : g !! pk = Some r -> mb r = true -> pk ∉ d -> pk ∈ map oe_pk (fst (fst w));
  wk_bound : Forall (bound ncols) (snd w);
  wk_key r : r ∈ matching -> snd (fst w) r = Ok (rk r) /\ key_canon kd (rk r);
  wk_order r r' : r ∈ matching -> r' ∈ matching -> key_le desc (rk r) (rk r') -> in_order pl st r r';
}.

Definition item_row (b : Row -> bool) (x : item) : option Row :=
  match snd x with
  | inl pk => match g !! pk with Some r => if b r then Some r else None | None => None end
  | inr r => Some r
  end.

(** *** The overlay's candidates *)
Lemma dirty_loop_ok kd rk w dirty : walk_ok kd rk w -> forall ds dc,
  dirty_loop pkHashSeed t (matcher st def args) (snd (fst w)) dirty ds dc =
  Ok (dc ++ map (fun r => MkDcand (rk r) r) (hits g mb (fresh ds dirty)), seen_after ds dirty).
Proof.
  intros W. induction dirty as [|pk dirty IH]; intros ds dc; cbn [dirty_loop fresh seen_after]; [by rewrite app_nil_r|].
  case_bool_decide as E; [by rewrite IH, seen_after_in|]. rewrite getByPK_live, live, ok_bind, hits_cons. cbv zeta.
  destruct (g !! pk) as [r|] eqn:Eg; rewrite ok_bind; [|apply IH]. pose proof (rd_good _ _ _ _ _ _ _ R pk r Eg) as Hr. rewrite Row_Clone_ok by apply Hr.
  rewrite (where_decides def ck t pl st args P r Hr), ok_bind. destruct (mb r) eqn:Em; cbn [negb]; [|apply IH].
  assert (Hm : r ∈ matching) by (apply (matching_elem _ _ _ _ _ _ _ R); eauto). rewrite (proj1 (wk_key _ _ _ W r Hm)), ok_bind, IH. cbn [map]. by rewrite <- app_assoc.
Qed.
Lemma seen_after_elem l : forall ds x, x ∈ seen_after ds l <-> x ∈ ds \/ x ∈ l.
Proof.
  induction l as [|y l IH]; intros ds x; cbn [seen_after]; [rewrite elem_of_nil; tauto|]. rewrite IH, elem_of_union, elem_of_singleton, elem_of_cons. tauto.
Qed.
Lemma dcand_weak kd l : Forall (fun x => key_canon kd (dc_key x)) l -> weak_order dcand_cmp l.
Proof.
  intros Hl. rewrite list.Forall_forall in Hl.
  assert (E : forall x y, x ∈ l -> y ∈ l -> dcand_cmp x y = cmpZ (kcmp (dc_key x) (dc_key y))).
  { intros x y Hx%Hl Hy%Hl. unfold dcand_cmp. rewrite !(less_kltb kd) by done. unfold kltb, ltb_of. rewrite (tc_anti (dc_key x) (dc_key y)). by destruct (kcmp _ _). }
  split.
  - intros x y Hx Hy. rewrite !E by done. rewrite (tc_anti (dc_key x) (dc_key y)). destruct (kcmp _ _); cbn; lia.
  - intros x y z Hx Hy Hz. rewrite !E by done. intros H1 H2.
    assert (L : forall c, cmpZ c <= 0 <-> c <> Gt) by (intros []; cbn; split; try congruence; lia). rewrite L in *.
    change (le_of kcmp (dc_key x) (dc_key z)). etrans; [exact H1|exact H2].
Qed.
Lemma dirty_cands kd rk w : walk_ok kd rk w -> exists dc ds,
  buildDirtyCands pkHashSeed SortFunc t (matcher st def args) (snd (fst w)) = Ok (dc, ds) /\
  (forall x, x ∈ ds <-> x ∈ d) /\ dc ≡ₚ map (fun r => MkDcand (rk r) r) (hits g mb (fresh ∅ d)) /\
  Forall (fun x => key_canon kd (dc_key x)) dc /\ StronglySorted (fun a b => le_of kcmp (dc_key a) (dc_key b)) dc.
Proof.
  intros W. unfold buildDirtyCands. rewrite (rd_dirty _ _ _ _ _ _ (rd_stored _ _ _ _ _ _ _ R)), ok_bind.
  destruct (Nat.eqb_spec (length d) 0) as [E|E].
  { apply nil_length_inv in E. exists [], ∅. rewrite E. split_and!; [done| |done|constructor|constructor]. intros x. by rewrite elem_of_nil, elem_of_empty. }
  rewrite (dirty_loop_ok kd rk w d W), ok_bind. cbn [app fst snd]. set (l := map _ _).
  assert (Hc : Forall (fun x => key_canon kd (dc_key x)) l).
  { unfold l. rewrite Forall_map. apply list.Forall_forall. intros r [Hb (pk & _ & Hg)]%hits_elem. cbn.
    apply (wk_key _ _ _ W). apply (matching_elem _ _ _ _ _ _ _ R). eauto. }
  exists (SortFunc dcand dcand_cmp l), (seen_after ∅ d). split_and!; [done| | | |].
  - intros x. rewrite seen_after_elem. split; [by intros [?%elem_of_empty|?]|auto].
  - by rewrite (SortFunc_perm (SortsFunc := sorts _)).
  - by rewrite (SortFunc_perm (SortsFunc := sorts _)).
  - pose proof (SortFunc_sorted (SortsFunc := sorts _) dcand_cmp l (dcand_weak kd l Hc)) as Hs.
    assert (Hc' : Forall (fun x => key_canon kd (dc_key x)) (SortFunc dcand dcand_cmp l)) by (by rewrite (SortFunc_perm (SortsFunc := sorts _))).
    revert Hs Hc'. generalize (SortFunc dcand dcand_cmp l). clear. induction 1 as [|x l _ IH Hx]; intros Hc; [constructor|].
    apply list.Forall_cons in Hc as [Kx Hc]. constructor; [by apply IH|]. rewrite list.Forall_forall in Hx. rewrite list.Forall_forall in Hc.
    apply list.Forall_forall. intros y Hy. specialize (Hx y Hy). specialize (Hc y Hy). unfold dcand_cmp in Hx. rewrite !(less_kltb kd) in Hx by done.
    unfold kltb, ltb_of, le_of in *. rewrite (tc_anti (dc_key x) (dc_key y)) in Hx. by destruct (kcmp _ _).
Qed.

(** *** The merged rows *)
Definition walk_items (w : walk_args) (dc : list dcand) (ds : gset UUID) : list item :=
  weave ds desc (S (length (fst (fst w)) + length dc)) (if desc then rev (fst (fst w)) else fst (fst w)) (if desc then rev dc else dc).
Local Abbreviation rest w := (fun r => forallb (fun c => matchb (rt_colByName def) args (Some c) r) (snd w)).
Definition walk_rows (w : walk_args) (dc : list dcand) (ds : gset UUID) : list Row := omap (item_row (rest w)) (walk_items w dc ds).

Section merged.
Context (kd : ValueKind) (rk : Row -> indexKey) (w : walk_args) (W : walk_ok kd rk w) (dc : list dcand) (ds : gset UUID).
Hypothesis Hds : forall x, x ∈ ds <-> x ∈ d.
Hypothesis Hdc : dc ≡ₚ map (fun r => MkDcand (rk r) r) (hits g mb (fresh ∅ d)).
Hypothesis Kdc : Forall (fun x => key_canon kd (dc_key x)) dc.
Hypothesis Sdc : StronglySorted (fun a b => le_of kcmp (dc_key a) (dc_key b)) dc.
Local Abbreviation snap := (fst (fst w)).
Local Abbreviation kept := (filter (fun e => oe_pk e ∉ ds)).

Lemma items_perm : walk_items w dc ds ≡ₚ map of_entry (kept snap) ++ map of_dcand dc.
Proof.
  unfold walk_items. destruct desc.
  - rewrite weave_perm by (rewrite !length_rev; lia). by rewrite <- !Permutation_rev.
  - by rewrite weave_perm by lia.
Qed.
Lemma items_sorted : StronglySorted (item_le desc) (walk_items w dc ds).
Proof.
  unfold walk_items, item_le. destruct desc eqn:Ed.
  - apply (weave_sorted ds true kd); [rewrite !length_rev; lia|by rewrite <- Permutation_rev; apply W|by rewrite <- Permutation_rev|..].
    + apply (StronglySorted_rev _ _ (wk_sorted _ _ _ W)).
    + apply (StronglySorted_rev _ _ Sdc).
  - apply (weave_sorted ds false kd); [lia|apply W|done|apply W|done].
Qed.
Lemma idx_rows l : (forall e, e ∈ l -> e ∈ snap) -> omap (item_row (rest w)) (map of_entry (kept l)) = hits g mb (map oe_pk (kept l)).
Proof.
  induction l as [|e l IH]; intros Hl; [done|]. rewrite list.filter_cons. specialize (IH (fun x Hx => Hl x (list_elem_of_further _ _ _ Hx))).
  destruct (decide (oe_pk e ∉ ds)) as [Hd|Hd]; [|exact IH]. cbn [map omap list_omap]. rewrite hits_cons. unfold item_row at 1. cbn [of_entry snd].
  rewrite IH.
  destruct (g !! oe_pk e) as [r|] eqn:Eg; [|done]. destruct (wk_fresh _ _ _ W e r) as [_ Em]; [apply Hl; by left|done|by rewrite <- Hds|].
  cbv beta. rewrite Em. by destruct (mb r).
Qed.
Lemma rows_perm : walk_rows w dc ds ≡ₚ matching.
Proof.
  unfold walk_rows. rewrite items_perm, omap_app, idx_rows by done.
  assert (Ed : omap (item_row (rest w)) (map of_dcand dc) ≡ₚ hits g mb (fresh ∅ d)).
  { rewrite Hdc. generalize (hits g mb (fresh ∅ d)). induction l as [|r l IH]; [done|]. cbn. by rewrite IH. }
  rewrite Ed. assert (Eh : hits g mb (map oe_pk (kept snap)) ++ hits g mb (fresh ∅ d) = hits g mb (map oe_pk (kept snap) ++ fresh ∅ d)).
  { unfold hits. by rewrite omap_app, list.filter_app. }
  rewrite Eh. apply (hits_all _ _ _ _ _ _ _ R).
  - apply list.NoDup_app. split_and!; [|intros x (e & -> & [He _]%list_elem_of_filter)%list_elem_of_fmap [Hx _]%fresh_elem; by rewrite Hds in He|apply fresh_nodup].
    pose proof (wk_nodup _ _ _ W) as Hn. revert Hn. generalize snap. induction l as [|e l IH]; [constructor|]. cbn [map]. intros Hn.
    apply list.NoDup_cons in Hn as [Hni Hn]. rewrite list.filter_cons. case_decide; [|by apply IH]. cbn [map]. apply list.NoDup_cons. split; [|by apply IH].
    intros (e' & Ee & [_ He']%list_elem_of_filter)%list_elem_of_fmap. apply Hni. rewrite Ee. by apply list_elem_of_fmap_2.
  - intros pk r Hg Hm. rewrite elem_of_app, fresh_elem. destruct (decide (pk ∈ d)) as [Hd|Hd]; [right; split; [done|apply not_elem_of_empty]|left].
    pose proof (wk_cover _ _ _ W pk r Hg Hm Hd) as (e & -> & He)%list_elem_of_fmap. apply list_elem_of_fmap_2, list_elem_of_filter. by rewrite Hds.
Qed.
Lemma item_key x r : x ∈ walk_items w dc ds -> item_row (rest w) x = Some r -> fst x = rk r.
Proof.
  rewrite items_perm, elem_of_app. intros [(e & -> & [Hd He]%list_elem_of_filter)%list_elem_of_fmap|(c & -> & Hc)%list_elem_of_fmap]; unfold item_row; cbn [of_entry of_dcand fst snd].
  - destruct (g !! oe_pk e) as [r'|] eqn:Eg; [|done]. destruct (wk_fresh _ _ _ W e r') as [Ek _]; [done..|by rewrite <- Hds|]. case_match; [|done]. by intros [= <-].
  - rewrite Hdc in Hc. apply list_elem_of_fmap in Hc as (r' & -> & _). by intros [= <-].
Qed.
Lemma rows_sorted : StronglySorted (in_order pl st) (walk_rows w dc ds).
Proof.
  assert (Hall : forall r, r ∈ walk_rows w dc ds -> r ∈ matching) by (intros r; by rewrite rows_perm).
  unfold walk_rows in *. pose proof items_sorted as Hs. pose proof item_key as Hk. revert Hs Hk Hall. generalize (walk_items w dc ds).
  induction l as [|x l IH]; intros Hs Hk Hall; [constructor|]. apply StronglySorted_cons in Hs as [Hx Hs].
  assert (IH' : StronglySorted (in_order pl st) (omap (item_row (rest w)) l)).
  { apply IH; [done|intros y r Hy; apply Hk; by right|]. intros r Hr. apply Hall. cbn [omap list_omap]. destruct (item_row _ x); [by right|done]. }
  cbn [omap list_omap] in Hall |- *. destruct (item_row (rest w) x) as [r|] eqn:Ex; [|done]. constructor; [done|].
  apply list.Forall_forall. intros r' Hr'. pose proof Hr' as (y & Hy & Ey)%list_elem_of_omap. apply (wk_order _ _ _ W); [apply Hall; by left|apply Hall; by right|].
  rewrite list.Forall_forall in Hx. specialize (Hx y Hy). unfold item_le in Hx.
  by rewrite (Hk x r ltac:(by left) Ex), (Hk y r' ltac:(by right) Ey) in Hx.
Qed.
End merged.

(** *** Materialized *)
Lemma walk_emit_ok bounded p b o pk : decides def ck p b -> exists packed,
  walk_emit pkHashSeed t pl st bounded p o pk =
  Ok (MkOut packed (match g !! pk with Some r => if b r then po_out o ++ [shown proj r] else po_out o | None => po_out o end)).
Proof.
  intros Hp. destruct o as [packed out]. unfold walk_emit. pose proof (append_match pkHashSeed def ck t ixs g d R ords (sel_starAll st) (sp_ords _ _ _ _ _ P) p b pk) as A.
  destruct bounded; rewrite (A _ Hp), ok_bind; destruct (g !! pk) as [r|]; try (destruct (b r)); cbv iota beta zeta;
    cbn [po_out po_packed]; rewrite ?drop_app_length; by eexists.
Qed.
Lemma run_rows eff bounded p b l : decides def ck p b -> (forall x r, x ∈ l -> snd x = inr r -> good def ck r) -> forall o, exists packed,
  run (full eff) (walk_emit pkHashSeed t pl st bounded p) (appendProjected ords (sel_starAll st) bounded) l o =
  Ok (MkOut packed (po_out o ++ map (shown proj) (upto eff (length (po_out o)) (omap (item_row b) l)))).
Proof.
  intros Hp. induction l as [|[k x] l IH]; intros Hg o; cbn [run].
  { exists (po_packed o). cbn. unfold upto. destruct (0 <=? eff); rewrite ?take_nil; cbn; rewrite app_nil_r; by destruct o. }
  assert (IH' := IH (fun y r Hy => Hg y r (list_elem_of_further _ _ _ Hy))). clear IH.
  destruct (full eff o) eqn:Ef. { exists (po_packed o). rewrite upto_full, app_nil_r by done. by destruct o. }
  cbn [omap list_omap]. assert (Hnext : forall packed r, exists packed',
    run (full eff) (walk_emit pkHashSeed t pl st bounded p) (appendProjected ords (sel_starAll st) bounded) l (MkOut packed (po_out o ++ [shown proj r])) =
    Ok (MkOut packed' (po_out o ++ map (shown proj) (upto eff (length (po_out o)) (r :: omap (item_row b) l))))).
  { intros packed r. destruct (IH' (MkOut packed (po_out o ++ [shown proj r]))) as (packed' & E). exists packed'. rewrite E. cbn [po_out].
    rewrite length_app, (upto_more _ _ _ _ Ef). cbn [length map]. rewrite Nat.add_1_r. by rewrite <- app_assoc. }
  unfold item_row at 1. cbn [snd]. destruct x as [pk|r].
  - destruct (walk_emit_ok bounded p b o pk Hp) as [packed ->]. rewrite ok_bind. destruct (g !! pk) as [r|]; [destruct (b r)|]; [apply Hnext|..];
      by apply (IH' (MkOut packed (po_out o))).
  - destruct (appendProjected_ok def ck ords (sel_starAll st) (sp_ords _ _ _ _ _ P) bounded o r) as [packed ->]; [apply (Hg (k, inr r)); [by left|done]|].
    rewrite ok_bind. apply Hnext.
Qed.
Lemma items_good kd rk w dc ds : walk_ok kd rk w -> (forall x, x ∈ ds <-> x ∈ d) -> dc ≡ₚ map (fun r => MkDcand (rk r) r) (hits g mb (fresh ∅ d)) ->
  forall x r, x ∈ walk_items w dc ds -> snd x = inr r -> good def ck r.
Proof.
  intros W Hds Hdc x r Hx Hr. assert (Hin : r ∈ walk_rows w dc ds).
  { unfold walk_rows. apply list_elem_of_omap. exists x. split; [done|]. unfold item_row. by rewrite Hr. }
  rewrite (rows_perm kd rk w W dc ds Hds Hdc) in Hin. apply (matching_elem _ _ _ _ _ _ _ R) in Hin as (_ & pk & Hg). by apply (rd_good _ _ _ _ _ _ _ R pk).
Qed.
Definition walk_fits (maxCells : Z) : Prop :=
  0 <= limit -> (limit + offset) * (if sel_starAll st then zlen (t_Columns (rt_def def)) else zlen ords) <= maxCells < 2 ^ 63.
Lemma walk_run maxCells kd rk w : walk_ok kd rk w -> limit <> 0 -> walk_fits maxCells -> exists dc ds,
  (forall x, x ∈ ds <-> x ∈ d) /\ dc ≡ₚ map (fun r => MkDcand (rk r) r) (hits g mb (fresh ∅ d)) /\
  Forall (fun x => key_canon kd (dc_key x)) dc /\ StronglySorted (fun a b => le_of kcmp (dc_key a) (dc_key b)) dc /\
  buildDirtyCands pkHashSeed SortFunc t (matcher st def args) (snd (fst w)) = Ok (dc, ds) /\
  orderedWalk pkHashSeed SortFunc maxCells t pl st def args w = Ok (window st (map (shown proj) (walk_rows w dc ds))).
Proof.
  intros W Hl Hm. destruct (dirty_cands kd rk w W) as (dc & ds & E & Hds & Hdc & Kdc & Sdc). exists dc, ds. split_and!; try done.
  unfold orderedWalk. destruct w as [[snap dirtyKey] residual]. cbn [fst snd] in *. rewrite (proj2 (Z.eqb_neq _ _) Hl), E, ok_bind. cbv beta zeta iota.
  set (bounded := 0 <=? fetchBound limit offset). pose proof (sp_offset _ _ _ _ _ P) as Ho. pose proof (sp_sum _ _ _ _ _ P) as Hs.
  assert (Em : (if bounded then make_cells maxCells (s64 (fetchBound limit offset * (if sel_starAll st then zlen (t_Columns (rt_def def)) else zlen ords))) else Ok tt) = Ok tt).
  { unfold bounded, fetchBound. destruct (Z.ltb_spec limit 0) as [Hn|Hn]; [done|]. rewrite (s64_idem (limit + offset)) by (unfold in_s64; lia).
    rewrite (proj2 (Z.leb_le _ _)) by lia. specialize (Hm Hn). set (wd := if sel_starAll st then _ else _) in *.
    assert (Hw : 0 <= wd) by (unfold wd; destruct (sel_starAll st); apply zlen_pos). assert (Hp : 0 <= (limit + offset) * wd) by lia.
    unfold make_cells. rewrite s64_idem by (unfold in_s64; lia). rewrite (proj2 (Z.leb_le 0 _)) by done. by rewrite (proj2 (Z.leb_le _ _)) by lia. }
  rewrite Em, ok_bind. unfold mergeOrderedStreams. rewrite merge_weave.
  set (p := if (length residual =? 0)%nat then None else _). set (b := fun r => forallb (fun c => matchb (rt_colByName def) args (Some c) r) residual).
  assert (Hp : decides def ck p b) by (apply conjuncts_decide; [apply P|apply (wk_bound _ _ _ W)]).
  destruct (run_rows (fetchBound limit offset) bounded p b (walk_items (snap, dirtyKey, residual) dc ds) Hp
    (items_good kd rk _ dc ds W Hds Hdc) (MkOut [] [])) as (packed & Er).
  unfold walk_items in Er. cbn [fst] in Er. rewrite Er, ok_bind. cbn [po_out length app]. f_equal.
  rewrite <- upto_map. by rewrite (window_slice def t pl st args P).
Qed.
Lemma answers_walk maxCells kd rk w : walk_ok kd rk w -> walk_fits maxCells ->
  answers def t pl st args (orderedWalk pkHashSeed SortFunc maxCells t pl st def args w).
Proof.
  intros W Hm. destruct (Z.eq_dec limit 0) as [Hz|Hz].
  { assert (E : orderedWalk pkHashSeed SortFunc maxCells t pl st def args w = Ok []) by (unfold orderedWalk; destruct w as [[??]?]; by rewrite Hz).
    rewrite E. by eapply (answers_zero pkHashSeed def ck t ixs g d R SortFunc). }
  destruct (walk_run maxCells kd rk w W Hz Hm) as (dc & ds & Hds & Hdc & Kdc & Sdc & _ & E). exists (walk_rows w dc ds). split_and!; [|intros _|done].
  - by apply (rows_perm kd rk).
  - by apply (rows_sorted kd rk).
Qed.

(** *** Streamed *)
Section each.
Context {A : Type} (visit : A -> Row -> A * bool).
(** The visitor over a list of rows. *)
Fixpoint visit_rows (a : A) (rows : list Row) : A :=
  match rows with
  | [] => a
  | r :: rows => let '(a, go) := visit a r in if go : bool then visit_rows a rows else a
  end.
Lemma deliver_ok o r : good def ck r -> deliver pl st visit o r =
  Ok (if sm_skipped o <? offset then MkStream (sm_state o) (sm_skipped o + 1) (sm_n o) (sm_stop o)
      else let '(a, go) := visit (sm_state o) (shown proj r) in
           if go : bool then MkStream a (sm_skipped o) (sm_n o + 1) ((0 <=? limit) && (sm_n o + 1 >=? limit)) else MkStream a (sm_skipped o) (sm_n o) true).
Proof.
  intros Hr. unfold deliver. destruct (sm_skipped o <? offset); [done|].
  assert (E : (if sel_starAll st then Ok r else get_cells r ords) = Ok (shown proj r)).
  { destruct (sel_starAll st); [done|]. by eapply (get_cells_shown def ck t pl st args P). }
  rewrite E, ok_bind. destruct (visit _ _) as [a []]; done.
Qed.
Lemma stream_emit_ok p b o pk : decides def ck p b -> stream_emit pkHashSeed t pl st visit p o pk =
  match g !! pk with Some r => if b r then deliver pl st visit o r else Ok o | None => Ok o end.
Proof.
  intros Hp. unfold stream_emit. rewrite live, ok_bind. destruct (g !! pk) as [r|] eqn:E; [|done].
  specialize (Hp r (rd_good _ _ _ _ _ _ _ R pk r E)). destruct p; [rewrite Hp, ok_bind|rewrite ok_bind, Hp]; done.
Qed.
Definition open_stream (o : stream (A := A)) : Prop :=
  sm_stop o = false /\ 0 <= sm_skipped o <= offset /\ 0 <= sm_n o /\ (0 <= limit -> sm_n o < limit).
Definition to_come (o : stream (A := A)) (rows : list Row) : list Row :=
  map (shown proj) (upto limit (Z.to_nat (sm_n o)) (drop (Z.to_nat (offset - sm_skipped o)) rows)).
Lemma stream_rows p b l : decides def ck p b -> (forall x r, x ∈ l -> item_row b x = Some r -> good def ck r) -> forall o, open_stream o ->
  exists o', run sm_stop (stream_emit pkHashSeed t pl st visit p) (deliver pl st visit) l o = Ok o' /\
    sm_state o' = visit_rows (sm_state o) (to_come o (omap (item_row b) l)).
Proof.
  intros Hp. induction l as [|[k x] l IH]; intros Hg o Ho; cbn [run].
  { exists o. split; [done|]. unfold to_come. cbn. rewrite drop_nil. unfold upto. by destruct (0 <=? limit); rewrite ?take_nil. }
  assert (IH' := IH (fun y r Hy => Hg y r (list_elem_of_further _ _ _ Hy))). clear IH. pose proof Ho as (E0 & Hsk & Hn & Hlim). rewrite E0.
  assert (Hdel : forall r, good def ck r -> exists o', (a ← deliver pl st visit o r; run sm_stop (stream_emit pkHashSeed t pl st visit p) (deliver pl st visit) l a) = Ok o' /\
    sm_state o' = visit_rows (sm_state o) (to_come o (r :: omap (item_row b) l))).
  { intros r Hr. rewrite deliver_ok, ok_bind by done. unfold to_come. destruct (Z.ltb_spec (sm_skipped o) offset) as [Hlt|Hge].
    - destruct (IH' (MkStream (sm_state o) (sm_skipped o + 1) (sm_n o) (sm_stop o))) as (o' & E & Es); [split_and!; cbn; lia || done|].
      exists o'. split; [done|]. rewrite Es. unfold to_come. cbn. by replace (Z.to_nat (offset - sm_skipped o)) with (S (Z.to_nat (offset - (sm_skipped o + 1)))) by lia.
    - replace (Z.to_nat (offset - sm_skipped o)) with 0%nat by lia. rewrite drop_0.
      assert (Eu : upto limit (Z.to_nat (sm_n o)) (r :: omap (item_row b) l) = r :: upto limit (S (Z.to_nat (sm_n o))) (omap (item_row b) l)).
      { destruct (Z.leb_spec 0 limit); [apply upto_cons; lia|]. unfold upto. by rewrite (proj2 (Z.leb_gt _ _)). }
      rewrite Eu. cbn [map visit_rows]. destruct (visit (sm_state o) (shown proj r)) as [a go]. destruct go.
      + destruct ((0 <=? limit) && (sm_n o + 1 >=? limit)) eqn:Ef.
        * exists (MkStream a (sm_skipped o) (sm_n o + 1) true). split; [by destruct l as [|[]]|]. cbn.
          apply andb_true_iff in Ef as [F1 F2]. apply Z.leb_le in F1. apply Z.geb_le in F2. unfold upto. rewrite (proj2 (Z.leb_le _ _)) by done.
          by replace (Z.to_nat limit - S (Z.to_nat (sm_n o)))%nat with 0%nat by lia.
        * destruct (IH' (MkStream a (sm_skipped o) (sm_n o + 1) false)) as (o' & E & Es).
          { split_and!; cbn; lia || done. }
          exists o'. split; [done|]. rewrite Es. unfold to_come. cbn. replace (Z.to_nat (offset - sm_skipped o)) with 0%nat by lia. rewrite drop_0.
          by replace (Z.to_nat (sm_n o + 1)) with (S (Z.to_nat (sm_n o))) by lia.
      + exists (MkStream a (sm_skipped o) (sm_n o) true). by destruct l as [|[]]. }
  cbn [omap list_omap]. destruct x as [pk|r].
  - rewrite (stream_emit_ok p b o pk Hp). unfold item_row at 1. cbn [snd]. pose proof (Hg (k, inl pk)) as Hgk. unfold item_row in Hgk. cbn [snd] in Hgk.
    destruct (g !! pk) as [r|]; [destruct (b r)|]; [|by apply IH'..]. apply Hdel. apply Hgk; [by left|done].
  - unfold item_row at 1. cbn [snd]. apply Hdel. apply (Hg (k, inr r)); [by left|done].
Qed.
Lemma walk_streams maxCells kd rk w a : walk_ok kd rk w -> walk_fits maxCells -> exists rows,
  orderedWalk pkHashSeed SortFunc maxCells t pl st def args w = Ok rows /\
  orderedWalkEach pkHashSeed SortFunc t pl st def visit args w a = Ok (visit_rows a rows).
Proof.
  intros W Hm. destruct (Z.eq_dec limit 0) as [Hz|Hz].
  { exists []. unfold orderedWalk, orderedWalkEach. destruct w as [[??]?]. by rewrite Hz. }
  destruct (walk_run maxCells kd rk w W Hz Hm) as (dc & ds & Hds & Hdc & Kdc & Sdc & Eb & E). eexists. split; [exact E|]. clear E.
  unfold orderedWalkEach. destruct w as [[snap dirtyKey] residual]. cbn [fst snd] in *. rewrite (proj2 (Z.eqb_neq _ _) Hz), Eb, ok_bind. cbv beta zeta iota.
  unfold mergeOrderedStreams. rewrite merge_weave. set (p := if (length residual =? 0)%nat then None else _).
  set (b := fun r => forallb (fun c => matchb (rt_colByName def) args (Some c) r) residual).
  assert (Hp : decides def ck p b) by (apply conjuncts_decide; [apply P|apply (wk_bound _ _ _ W)]).
  pose proof (sp_offset _ _ _ _ _ P) as Ho.
  destruct (stream_rows p b (walk_items (snap, dirtyKey, residual) dc ds) Hp) with (o := MkStream a 0 0 false) as (o' & Er & Es).
  - intros x r Hx Hr. assert (Hin : r ∈ walk_rows (snap, dirtyKey, residual) dc ds) by (apply list_elem_of_omap; by exists x).
    rewrite (rows_perm kd rk _ W dc ds Hds Hdc) in Hin. apply (matching_elem _ _ _ _ _ _ _ R) in Hin as (_ & pk & Hg). by apply (rd_good _ _ _ _ _ _ _ R pk).
  - split_and!; cbn; lia || done.
  - unfold walk_items in Er. cbn [fst] in Er. rewrite Er, ok_bind. rewrite Es. do 2 f_equal. cbn [sm_state]. unfold to_come, window, walk_rows. cbn [sm_n sm_skipped].
    rewrite Z.sub_0_r. unfold upto. cbn [Z.to_nat]. rewrite Nat.sub_0_r. destruct (Z.leb_spec 0 limit) as [Hl|Hl], (Z.ltb_spec limit 0); try lia.
    + by rewrite !fmap_take, !fmap_drop.
    + by rewrite fmap_drop.
Qed.
End each.
End walk.
