(* ===== verification/SelectSound.v ===== *)
(** * SelectSound: whatever access path the planner picks, a SELECT answers the
    window of the matching rows. *)
From S2P Require Import Prelude Bytes Order Uuid Value CompositeKey PkMap Codec Frame Journal Schema Catalog SecIndex IndexOk Store StoreOk StoreSim Merge MergeOk MergeSafe Ast Eval Filter TopN TopNOk Plan PlanJoin PlanOk PlanJoinOk Recovery Select SelectOk CandOk WalkOk.

Lemma nodup_slice {A} (l : list A) n s : NoDup l -> NoDup (take n (drop s l)).
Proof.
  intros H. rewrite <- (take_drop s l) in H. apply list.NoDup_app in H as (_ & _ & H). rewrite <- (take_drop n (drop s l)) in H. by apply list.NoDup_app in H as (H & _).
Qed.

Lemma filter_true {A} (l : list A) : filter (fun _ => True) l = l.
Proof. induction l as [|x l IH]; [done|]. rewrite list.filter_cons, decide_True by done. by rewrite IH. Qed.

Lemma same_columns_sym vs os : same_columns vs os -> same_columns os vs.
Proof. induction 1 as [|v o vs os (Hv & Ho & K) _ IH]; constructor; [by split_and!|done]. Qed.

Lemma uuid_value v : value_ok v -> Kind v = KindUUID -> v = UUIDVal (v_UUID v).
Proof. intros H%value_ok_kind K. by rewrite K in H. Qed.

(** ** Keys are ordered as the cells *)
Lemma kcmp_keyOf v o : indexable v -> indexable o -> Kind v = Kind o -> kcmp (keyOf v) (keyOf o) = vcmp v o.
Proof.
  intros Hv Ho K. pose proof (keyOf_canon v Hv) as Cv. pose proof (keyOf_canon o Ho) as Co. rewrite <- K in Co.
  assert (L : forall x y, indexable x -> indexable y -> Kind x = Kind y -> Kind x = Kind v -> kcmp (keyOf x) (keyOf y) = Lt <-> vcmp x y = Lt).
  { intros x y Hx Hy Kxy Kx. destruct (scalar_key_order x y Hx Hy Kxy) as [S _]. pose proof (keyOf_canon x Hx) as Cx. pose proof (keyOf_canon y Hy) as Cy.
    rewrite <- Kxy in Cy. rewrite (less_kltb _ _ _ Cx Cy) in S. unfold kltb, ltb_of in S. destruct Hx as [Hx Nx], Hy as [Hy Ny].
    rewrite (Compare_vcmp x y) in S by done. cbn [fst] in S. destruct (kcmp _ _), (vcmp x y); cbn in S; intuition congruence. }
  pose proof (L v o Hv Ho K eq_refl) as L1. pose proof (L o v Ho Hv (eq_sym K) (eq_sym K)) as L2.
  rewrite (tc_anti (keyOf v) (keyOf o)), (vcmp_anti v o K) in L2. destruct (kcmp (keyOf v) (keyOf o)), (vcmp v o); cbn in *; intuition congruence.
Qed.
Lemma kcmp_composite vs os : same_columns vs os -> kcmp (encodeCompositeKey vs) (encodeCompositeKey os) = tuple_cmp vs os.
Proof.
  intros H. pose proof (encoding_cmp vs os [] [] H) as E. rewrite !app_nil_r in E. unfold encoding in E.
  pose proof (composite_canon vs) as (K1 & _ & A0 & A1). pose proof (composite_canon os) as (K2 & _ & B0 & B1).
  unfold kcmp, key_tuple, lex_cmp. cbn [fst snd]. rewrite K1, K2, A0, A1, B0, B1. cbn in E |- *. rewrite E. by destruct (tuple_cmp vs os).
Qed.
Lemma tuple_le_at k : forall vs os v o, same_columns vs os -> take k vs = take k os -> vs !! k = Some v -> os !! k = Some o ->
  tuple_cmp vs os <> Gt -> vcmp v o <> Gt.
Proof.
  induction k as [|k IH]; intros vs os v o H Ht Hv Ho Hc; inversion H as [|x y vs' os' (Hx & Hy & K) H']; subst; try done; cbn in *.
  - injection Hv as ->. injection Ho as ->. by destruct (vcmp v o).
  - injection Ht as -> Ht. apply (IH vs' os'); [done..|]. by rewrite (proj2 (vcmp_eq y y (proj1 Hy) (proj1 Hy) eq_refl) eq_refl) in Hc.
Qed.

(** ** Range bounds of the order column *)
Definition bound_holds (op : tokenKind) (c : comparison) : Prop :=
  match op with tkGt => c = Gt | tkGte => c <> Lt | tkLt => c = Lt | tkLte => c <> Gt | _ => True end.
Section range.
Context (cols : gmap bytes nat) (args : list Value).
Local Abbreviation matches := (matches cols args).
Lemma range_matches ord op e c v row cell : range_of ord c = Some (op, e) -> ord_test op <> None -> evalLitOrParamValue e args = Ok v ->
  row !! ord = Some cell -> indexable cell -> indexable v -> Kind cell = Kind v -> matches row c -> bound_holds op (vcmp cell v).
Proof.
  intros Hc Hop Ev Hcell Ic Iv K Hm. destruct c as [q n o|u|i|op' l r|x|x b]; try done. cbn [range_of] in Hc.
  assert (Hcol : forall x, is_col ord x = true -> eval x (MkCtx row cols args) = Ok cell).
  { intros x Hx. destruct x; try done. cbn in Hx. apply Z.eqb_eq in Hx. subst. rewrite eval_col. by apply index_Ok. }
  destruct Hm as (w & Hw & Tw). destruct Ic as [Hc1 Hc2], Iv as [Hv1 Hv2].
  destruct (is_col ord l && isLitOrParam r) eqn:E1; [|destruct (is_col ord r && isLitOrParam l) eqn:E2; [|done]].
  - injection Hc as <- <-. apply andb_true_iff in E1 as [E1 _]. assert (Er : eval r (MkCtx row cols args) = Ok v) by (by apply value_of_eval).
    destruct op'; try done; cbn [eval] in Hw; rewrite (Hcol l E1), Er in Hw; cbn [mbind outcome_bind eval_op] in Hw;
      rewrite Compare_vcmp in Hw by done; cbn in Hw; injection Hw as <-; rewrite truthy_Bool in Tw; unfold bound_holds; by destruct (vcmp cell v).
  - injection Hc as <- <-. apply andb_true_iff in E2 as [E2 _]. assert (El : eval l (MkCtx row cols args) = Ok v) by (by apply value_of_eval).
    destruct op'; try done; cbn [eval] in Hw; rewrite (Hcol r E2), El in Hw; cbn [mbind outcome_bind eval_op] in Hw;
      rewrite Compare_vcmp in Hw by done; cbn in Hw; injection Hw as <-; rewrite truthy_Bool in Tw; unfold bound_holds; cbn [flipRangeOp];
      rewrite (vcmp_anti cell v K) in Tw; by destruct (vcmp cell v).
Qed.
(** A bound found comes from a conjunct. *)
Definition from_conj (conjs : list expr) (ord : nat) (ops : list tokenKind) (b : rangeBound) : Prop :=
  match b with
  | None => True
  | Some (v, op) => op ∈ ops /\ exists c e, c ∈ conjs /\ range_of ord c = Some (op, e) /\ evalLitOrParamValue e args = Ok v
  end.
Lemma take_bound_from conjs ord ops b op e c : from_conj conjs ord ops b -> c ∈ conjs -> range_of ord c = Some (op, e) -> op ∈ ops ->
  from_conj conjs ord ops (take_bound b op e args).
Proof.
  intros Hb Hc Hr Hop. destruct b as [[v o]|]; [done|]. cbn. destruct (evalLitOrParamValue e args) as [v| |] eqn:E; [|done..]. split; [done|by exists c, e].
Qed.
Lemma range_from conjs ord : let '(lo, hi) := orderColumnRange conjs ord args in
  from_conj conjs ord [tkGt; tkGte] lo /\ from_conj conjs ord [tkLt; tkLte] hi.
Proof.
  unfold orderColumnRange. assert (G : forall l lo hi, (forall c, c ∈ l -> c ∈ conjs) -> from_conj conjs ord [tkGt; tkGte] lo -> from_conj conjs ord [tkLt; tkLte] hi ->
    let '(lo, hi) := range_loop l ord args lo hi in from_conj conjs ord [tkGt; tkGte] lo /\ from_conj conjs ord [tkLt; tkLte] hi).
  { induction l as [|c l IH]; intros lo hi Hin Hlo Hhi; [done|]. cbn [range_loop].
    assert (Hl : forall c, c ∈ l -> c ∈ conjs) by (intros; apply Hin; by right). assert (Hc : c ∈ conjs) by (apply Hin; by left).
    destruct (range_of ord c) as [[op e]|] eqn:E; [|by apply IH]. destruct op; try (by apply IH).
    all: apply IH; try done; eapply take_bound_from; try eassumption; repeat (apply list_elem_of_here || apply list_elem_of_further). }
  by apply G.
Qed.
End range.

(** ** The clipped slice keeps every entry of a matching row *)
Section seek.
Context (cols : gmap bytes nat) (args : list Value) (kd : ValueKind) (m : gmap UUID indexKey).
Hypothesis Hm : canon_map kd m.
Context (conjs : list expr) (ord : nat).
Hypothesis conj_ok : Forall (fun c => forall op e v, range_of ord c = Some (op, e) -> evalLitOrParamValue e args = Ok v -> value_ok v) conjs.
Local Abbreviation snap := (sorted_view m).
Local Abbreviation holds row := (Forall (matches cols args row) conjs).

Lemma keyOf_kind v : IsNull v = false -> value_ok v -> indexable v /\ ik_kind (keyOf v) = Kind v.
Proof.
  intros Hn Hv. apply bool_decide_eq_false in Hn. assert (Iv : indexable v) by by split. split; [done|]. by destruct (keyOf_canon v Iv).
Qed.
Lemma bound_use ops v op row cell : from_conj args conjs ord ops (Some (v, op)) -> ord_test op <> None -> holds row -> row !! ord = Some cell ->
  indexable cell -> Kind cell = kd -> IsNull v = false -> ik_kind (keyOf v) = kd ->
  key_canon kd (keyOf v) /\ bound_holds op (kcmp (keyOf cell) (keyOf v)).
Proof.
  intros (_ & c & e & Hc & Hr & Ev) Hop Hh Hcell Ic Kc Hn Kv. rewrite list.Forall_forall in Hh. pose proof conj_ok as Hok. rewrite list.Forall_forall in Hok.
  pose proof (Hok c Hc op e v Hr Ev) as Hv. destruct (keyOf_kind v Hn Hv) as [Iv Ek]. rewrite Ek in Kv. split; [rewrite <- Kv; by apply keyOf_canon|].
  rewrite kcmp_keyOf by (done || congruence). eapply (range_matches cols args ord op e c v row cell); try done; [congruence|by apply Hh].
Qed.
Lemma seek_start_ok lo i x row cell : from_conj args conjs ord [tkGt; tkGte] lo -> snap !! i = Some x -> holds row -> row !! ord = Some cell ->
  indexable cell -> Kind cell = kd -> oe_key x = keyOf cell -> (seek_start snap kd lo <= i)%nat.
Proof.
  intros Hf Hx Hh Hcell Ic Kc Ek. destruct lo as [[v op]|]; cbn [seek_start]; [|lia]. cbv zeta.
  destruct (IsNull v) eqn:Hn; cbn [orb]; [lia|]. case_bool_decide as Kv; cbn [negb]; [|lia]. pose proof Hf as (Hop & _).
  destruct (bound_use _ v op row cell Hf) as [Kl Hb]; try done. { by apply elem_of_cons in Hop as [->|[->|?%elem_of_nil]%elem_of_cons]. }
  apply Nat.nlt_ge. intros Hlt.
  assert (G : forall p : ordEntry -> bool, upward p snap -> (i < Search (length snap) (at_ snap p))%nat -> p x = false).
  { intros p Hp Hi. destruct (Search_split snap p Hp) as (_ & Hfalse & _). rewrite Forall_lookup in Hfalse. apply (Hfalse i). by rewrite lookup_take_lt. }
  case_bool_decide as Eop.
  - subst op. rewrite (search_gt kd m _ Hm Kl) in Hlt. specialize (G _ (gt_upward m _) Hlt). cbv beta in G. unfold kltb, ltb_of in G. rewrite Ek in G.
    cbn in Hb. rewrite (tc_anti (keyOf cell) (keyOf v)), Hb in G. done.
  - assert (op = tkGte) as -> by (by apply elem_of_cons in Hop as [->|[->|?%elem_of_nil]%elem_of_cons]).
    rewrite (search_ge kd m _ Hm Kl) in Hlt. specialize (G _ (ge_upward m _) Hlt). cbv beta in G. unfold kltb, ltb_of in G. rewrite Ek in G.
    cbn in Hb. by destruct (kcmp _ _).
Qed.
Lemma seek_end_ok hi i x row cell : from_conj args conjs ord [tkLt; tkLte] hi -> snap !! i = Some x -> holds row -> row !! ord = Some cell ->
  indexable cell -> Kind cell = kd -> oe_key x = keyOf cell -> (i < seek_end snap kd hi)%nat.
Proof.
  intros Hf Hx Hh Hcell Ic Kc Ek. pose proof (lookup_lt_Some _ _ _ Hx) as Hlen. destruct hi as [[v op]|]; cbn [seek_end]; [|lia]. cbv zeta.
  destruct (IsNull v) eqn:Hn; cbn [orb]; [lia|]. case_bool_decide as Kv; cbn [negb]; [|lia]. pose proof Hf as (Hop & _).
  destruct (bound_use _ v op row cell Hf) as [Kl Hb]; try done. { by apply elem_of_cons in Hop as [->|[->|?%elem_of_nil]%elem_of_cons]. }
  apply Nat.nle_gt. intros Hge.
  assert (G : forall p : ordEntry -> bool, upward p snap -> (Search (length snap) (at_ snap p) <= i)%nat -> p x = true).
  { intros p Hp Hi. destruct (Search_split snap p Hp) as (_ & _ & Htrue). rewrite Forall_lookup in Htrue. apply (Htrue (i - Search (length snap) (at_ snap p))%nat).
    rewrite lookup_drop. by replace (Search (length snap) (at_ snap p) + (i - Search (length snap) (at_ snap p)))%nat with i by lia. }
  case_bool_decide as Eop.
  - subst op. rewrite (search_ge kd m _ Hm Kl) in Hge. specialize (G _ (ge_upward m _) Hge). cbv beta in G. unfold kltb, ltb_of in G. rewrite Ek in G.
    cbn in Hb. by rewrite Hb in G.
  - assert (op = tkLte) as -> by (by apply elem_of_cons in Hop as [->|[->|?%elem_of_nil]%elem_of_cons]).
    rewrite (search_gt kd m _ Hm Kl) in Hge. specialize (G _ (gt_upward m _) Hge). cbv beta in G. unfold kltb, ltb_of in G. rewrite Ek in G.
    cbn in Hb. rewrite (tc_anti (keyOf cell) (keyOf v)) in G. by destruct (kcmp _ _).
Qed.
(** Dropped entries fail a bound; the rest keeps its order. *)
Lemma seek_ok : exists s n, seekOrderedSnap snap conjs ord args = take n (drop s snap) /\
  forall x row cell, x ∈ snap -> holds row -> row !! ord = Some cell -> indexable cell -> Kind cell = kd -> oe_key x = keyOf cell ->
    x ∈ seekOrderedSnap snap conjs ord args.
Proof.
  unfold seekOrderedSnap. destruct snap as [|e0 l] eqn:Es.
  { exists 0%nat, 0%nat. split; [done|]. intros x ? ? Hx. by apply elem_of_nil in Hx. }
  assert (K0 : ik_kind (oe_key e0) = kd).
  { assert (H0 : e0 ∈ sorted_view m) by (rewrite Es; by left). apply sorted_view_elem in H0. by destruct (Hm _ _ H0). }
  rewrite K0, <- Es. clear K0 Es. pose proof (range_from args conjs ord) as Hr. destruct (orderColumnRange conjs ord args) as [lo hi]. destruct Hr as [Hlo Hhi].
  set (s := seek_start snap kd lo). set (f := seek_end snap kd hi). exists s, (f - s)%nat. destruct (Nat.leb_spec f s) as [Hle|Hgt].
  - split; [by replace (f - s)%nat with 0%nat by lia|]. intros x row cell [i Hi]%list_elem_of_lookup_1 Hh Hc Ic Kc Ek.
    pose proof (seek_start_ok lo i x row cell Hlo Hi Hh Hc Ic Kc Ek) as H1. pose proof (seek_end_ok hi i x row cell Hhi Hi Hh Hc Ic Kc Ek) as H2. unfold s, f in Hle. lia.
  - split; [done|]. intros x row cell [i Hi]%list_elem_of_lookup_1 Hh Hc Ic Kc Ek.
    pose proof (seek_start_ok lo i x row cell Hlo Hi Hh Hc Ic Kc Ek) as H1. pose proof (seek_end_ok hi i x row cell Hhi Hi Hh Hc Ic Kc Ek) as H2.
    fold s in H1. fold f in H2. apply (list_elem_of_lookup_2 _ (i - s)%nat). unfold slice. rewrite lookup_take_lt, lookup_drop by lia.
    by replace (s + (i - s))%nat with i by lia.
Qed.
End seek.

Lemma prefix_len_le ords eqs : (prefix_len ords eqs <= length ords)%nat.
Proof. induction ords as [|o ords IH]; cbn; [lia|]. destruct (eqs !! o); cbn; lia. Qed.

(** ** The shapes of an access path *)
Section path.
Context (rt : resolvedTable).
Inductive path : option expr -> access -> Prop :=
  | path_scan w : path w scan_path
  | path_pk w src : path (Some w) (with_pk src)
  | path_pk_order w src : path (Some w) (set_orderWalk (with_pk src))
  | path_idx w exact count : pinned_singles (rt_indexes rt) (collectEqConjuncts w ∅) <> [] ->
      let l := pinned_singles (rt_indexes rt) (collectEqConjuncts w ∅) in (count = true -> exact = true /\ length l = 1%nat) -> path (Some w) (with_idx (map fst l) (map snd l) exact count)
  | path_walk w ri k eqs res : (k <= prefix_len (ri_ordinals ri) eqs)%nat -> (forall c, c ∈ res -> c ∈ collectConjuncts w) ->
      path (Some w) (with_comp_walk ri k eqs res)
  | path_lookup w ri k eqs : (k <= prefix_len (ri_ordinals ri) eqs)%nat -> path (Some w) (with_comp_lookup ri k eqs)
  | path_order w : path w (set_orderWalk scan_path)
  | path_probe w src : path (Some w) (set_pkProbe scan_path src).
Lemma plan_where_path w ord count a : partitioned rt = false -> plan_where rt w ord count = Ok a -> path w a /\ a <> set_orderWalk scan_path /\
  (forall src, a <> set_orderWalk (with_pk src)) /\ forall src, a <> set_pkProbe scan_path src.
Proof.
  intros Hp H. unfold plan_where in H. destruct w as [w|]; [|injection H as <-; by split_and!; [constructor|..]]. inv_bind.
  destruct x as [src|]; [injection H as <-; by split_and!; [constructor|..]|]. rewrite Hp in H.
  case_bool_decide; [injection H as <-; by split_and!; [constructor|..]|]. unfold plan_index in H. inv_bind. destruct x as [a'|].
  - injection H as ->. unfold planCompositeWalk in H2. destruct (ord <? 0); [done|]. inv_bind. destruct x as [[ri k]|]; [|done].
    injection H2 as <-. split_and!; [|done..]. apply path_walk.
    + match goal with E : find_walk _ _ _ _ = Ok _ |- _ => by destruct (find_walk_prefix _ _ _ _ _ _ E) end.
    + intros c Hc. by apply list_elem_of_In, filter_In in Hc as [?%list_elem_of_In _].
  - case_bool_decide as El.
    + unfold planCompositeLookup in H. inv_bind. destruct x as [[ri k]|]; [|by split_and!; [constructor|..]].
      split_and!; [|done..]. apply path_lookup. match goal with E : find_prefix _ _ _ = Ok _ |- _ => by destruct (find_prefix_prefix _ _ _ _ _ E) end.
    + injection H as <-. split_and!; [|done..]. apply path_idx; [done|]. rewrite !andb_true_iff. intros ((_ & E%Nat.eqb_eq) & Eb). split; [|done].
      rewrite E. apply bool_decide_eq_true. destruct w as [| | |[] ? ?| |]; done.
Qed.
Lemma select_path w hasOrder ord count a : partitioned rt = false -> plan_select_path rt w hasOrder ord count = Ok a -> path w a.
Proof.
  intros Hp H. unfold plan_select_path in H. inv_bind. destruct (plan_where_path _ _ _ _ Hp H0) as (Hx & N1 & N2 & N3).
  assert (G : path w x0).
  { destruct (hasOrder && _ && _ && _ && _) eqn:E; [|by injection H1 as <-]. inv_bind. destruct (c_Nullable _); [done|].
    rewrite !andb_true_iff in E. destruct E as ((((_ & E1) & E2) & E3) & _). rewrite negb_true_iff in E1, E2, E3.
    destruct Hx; cbn in *; try done; try constructor; try (by destruct (N2 src)); try (by destruct (N3 src)).
    rewrite bool_decide_true in E1; [done|]. by intros ?%map_eq_nil. }
  unfold planPKProbe. destruct (bool_decide (w = None) || _ || _ || _ || _ || _ || _) eqn:E; [done|]. rewrite Hp.
  destruct (pins w !! _) as [src|]; [|done]. destruct (0 <=? rt_pkOrdinal rt); [|done]. rewrite !orb_false_iff in E. destruct E as ((((((E0 & E1) & E2) & E3) & E4) & E5) & E6).
  destruct w as [w|]; [clear E0|done].
  inversion G as [| | |w0 ? ? Hne ? ?| | | |]; subst; cbn in *; try done; try (apply path_probe).
  rewrite bool_decide_true in E2; [done|]. by intros ?%map_eq_nil.
Qed.
Lemma walk_ordered w hasOrder ord count a : plan_select_path rt w hasOrder ord count = Ok a -> orderWalk a = true -> 0 <= ord.
Proof.
  intros H. unfold plan_select_path in H. inv_bind. destruct (plan_where_source _ _ _ _ _ H0) as [_ Ho]. intros Hw.
  assert (E : orderWalk x0 = true) by (revert Hw; unfold planPKProbe; destruct (_ || orderWalk x0); [done|]; destruct (partitioned rt); [done|]; destruct (pins w !! _); [|done]; by destruct (0 <=? rt_pkOrdinal rt)).
  destruct (hasOrder && _ && _ && _ && _); [|injection H1 as ->; congruence]. inv_bind. unfold index_z in H. by destruct (Z.ltb_spec ord 0).
Qed.
End path.

(** ** Every path answers *)
Section sound.
Context (pkHashSeed : Z) (def : resolvedTable) (ck : nat -> ValueKind).
Local Abbreviation ncols := (length (t_Columns (rt_def def))).
Hypothesis Hrt : resolved_ok (rt_def def) def.
Context (t : tbl_state) (ixs : list secIndex) (g : gmap UUID Row) (d : list UUID).
Hypothesis R : readable pkHashSeed def ck t ixs g d.
Hypothesis rows_fit : forall pk r, g !! pk = Some r -> row_fits (t_Columns (rt_def def)) r.
Context (SortFunc : forall A : Type, (A -> A -> Z) -> list A -> list A) {sorts : forall A, SortsFunc (SortFunc A)}.
Context (maxCells : Z) (pl : plan) (st : selectStmt) (args : list Value).
Hypothesis P : sound_plan def t pl st args.
Local Abbreviation cols := (rt_colByName def).
Local Abbreviation mb := (mb def st args).
Local Abbreviation matching := (matching t mb).
Local Abbreviation pin_val := (pin_val ck args).
Local Abbreviation pin_ok := (pin_ok ck args).

(** A cell of a NOT NULL column. *)
Lemma cell_at o pk r : g !! pk = Some r -> not_null def o -> exists v, r !! o = Some v /\ indexable v /\ Kind v = ck o.
Proof.
  intros Hg (c & Hc & Hn). pose proof (rows_fit pk r Hg) as Hf. destruct (rd_good _ _ _ _ _ _ _ R pk r Hg) as ((_ & Hv) & Ht).
  destruct (Forall2_lookup_l _ _ _ _ _ Hf Hc) as (v & Ev & Cv). exists v. split; [done|].
  assert (Nv : Kind v <> KindNull) by (intros K; pose proof (validateValue_null c v Cv K); congruence).
  split; [split; [by eapply Forall_lookup_1|done]|]. by destruct (Ht _ _ Ev).
Qed.
Lemma matching_live r : r ∈ matching -> exists pk, g !! pk = Some r.
Proof. intros H. by apply (matching_elem _ _ _ _ _ _ _ R) in H as (_ & ?). Qed.
Lemma all_match_b l r : forallb (fun c => matchb cols args (Some c) r) l = true <-> Forall (matches cols args r) l.
Proof.
  rewrite forallb_forall, list.Forall_forall. split.
  - intros H c Hc. apply matchb_matches, H. by apply list_elem_of_In.
  - intros H c Hc. apply matchb_matches, H. by apply list_elem_of_In.
Qed.
Lemma mb_conjuncts r : mb r = true <-> Forall (matches cols args r) (conjuncts (sel_where st)).
Proof.
  unfold SelectOk.mb. destruct (sel_where st) as [w|]; cbn [conjuncts]; [|split; [constructor|done]]. by rewrite matchb_matches, matches_conjuncts.
Qed.
Lemma bool_iff (a b : bool) : (a = true <-> b = true) -> a = b.
Proof. destruct a, b; intuition congruence. Qed.
(** The order of cells of one kind is the order of the statement. *)
Lemma ordered_cells r r' v v' : r !! orderOrd pl = Some v -> r' !! orderOrd pl = Some v' -> indexable v -> indexable v' -> Kind v = Kind v' ->
  (if sel_orderDesc st then vcmp v' v <> Gt else vcmp v v' <> Gt) -> in_order pl st r r'.
Proof.
  intros E E' [Hv Nv] [Hv' Nv'] K H. unfold in_order, order_key. rewrite E, E'. cbn [default from_option id].
  rewrite (evictable_vcmp _ (Kind v)) by (done || split; (done || congruence)). destruct (sel_orderDesc st); by destruct (vcmp _ _).
Qed.

(** *** Walking a single-column index *)
Lemma order_walk_ok ri : 0 <= pl_orderOrdinal pl -> ri ∈ rt_indexes def -> ri_ordered ri = true -> ri_ordinals ri = [orderOrd pl] -> not_null def (orderOrd pl) ->
  exists w, orderedWalkArgs ixs pl st args = Some w /\
    walk_ok def t g d pl st args (ck (orderOrd pl)) (fun r => keyOf (order_key (orderOrd pl) r)) w.
Proof.
  intros Hpos Hri Hord Hos Hnn. set (o := orderOrd pl) in *.
  destruct (indexFor_single def ck pkHashSeed t ixs g d R o) as (si & Ei & Hsi & Eo); [by exists ri|].
  assert (Eord : si_ordered si = true).
  { destruct (composite_index def ck pkHashSeed t ixs g d R ri Hrt Hri) as (si' & Ei' & Hsi' & Eo' & Ex). rewrite Hos in Eo', Ei'.
    assert (si' = si) as ->; [|by rewrite Ex]. pose proof (rd_shape _ _ _ _ _ _ _ R) as Hs. unfold shape in Hs.
    assert (Hn : NoDup (map si_ordinals ixs)).
    { assert (Em : map si_ordinals ixs = map ri_ordinals (rt_indexes def)).
      { apply (f_equal (map fst)) in Hs. rewrite !map_map in Hs. exact Hs. }
      rewrite Em. apply (ro_sigs _ _ Hrt). }
    apply list_elem_of_lookup_1 in Hsi as [i Hi]. apply list_elem_of_lookup_1 in Hsi' as [j Hj]. assert (i = j) as ->; [|congruence].
    eapply (NoDup_lookup (si_ordinals <$> ixs)); [exact Hn|..]; rewrite list_lookup_fmap, ?Hi, ?Hj; cbn; [done|congruence]. }
  destruct (rd_ix _ _ _ _ _ _ _ R si Hsi) as (vis & [Hc1 Hc2] & Hvis). rewrite Eord in Hc2. destruct Hc2 as [Hc Esnap]. rewrite Eo in Hc, Hvis. cbn [kd_of] in Hc.
  unfold orderedWalkArgs. fold o. rewrite Ei. eexists. split; [done|]. unfold snapshot. rewrite Esnap.
  assert (Hconj : Forall (fun c => forall op e v, range_of o c = Some (op, e) -> evalLitOrParamValue e args = Ok v -> value_ok v) (conjuncts (sel_where st))).
  { pose proof (conjuncts_bound _ _ (sp_where _ _ _ _ _ P)) as Hb. eapply Forall_impl; [|exact Hb]. cbv beta. intros c Hcb op e v Hr Ev.
    assert (He : lit_ok e).
    { destruct c as [| | |op' l r| |]; try done. destruct Hcb as (_ & Hl & Hr'). cbn [range_of] in Hr.
      destruct (is_col o l && _); [injection Hr as _ <-; by eapply bound_lit|]. destruct (is_col o r && _); [injection Hr as _ <-; by eapply bound_lit|done]. }
    apply (litparam_ok ∅ args [] (sp_args _ _ _ _ _ P) e v); [by destruct e|done|by apply value_of_eval]. }
  destruct (seek_ok cols args (ck o) vis Hc (conjuncts (sel_where st)) o Hconj) as (s & n & Es & Hcov).
  set (snap := seekOrderedSnap _ _ _ _) in *.
  assert (Hsub : forall e, e ∈ snap -> e ∈ sorted_view vis).
  { intros e He. rewrite Es in He. apply (subseteq_drop s). by apply (subseteq_take n). }
  assert (Hkey : forall pk r v, g !! pk = Some r -> r !! o = Some v -> indexable v -> pk ∉ d -> vis !! pk = Some (keyOf v)).
  { intros pk r v Hg Ev [_ Nv] Hd. rewrite (Hvis pk r Hg Hd). unfold key_of, cells_of, keyFromCells, keyFromCellsInto. cbn [length Nat.eqb fmap list_fmap].
    rewrite Ev. cbn [default from_option id]. change (index [v] 0) with (Ok v). rewrite ok_bind. unfold IsNull. by rewrite bool_decide_false. }
  split; cbn [fst snd].
  - rewrite Es. apply (StronglySorted_app_1_l _ _ (drop n (drop s (sorted_view vis)))). rewrite take_drop.
    apply (StronglySorted_app_1_r _ (take s (sorted_view vis))). rewrite take_drop.
    eapply StronglySorted_impl; [|apply sorted_view_sorted]. apply le_ecmp_key.
  - rewrite Es. change (map oe_pk) with (fmap (M := list) oe_pk). rewrite fmap_take, fmap_drop. apply nodup_slice.
    pose proof (view_pks_nodup (fun _ => True) vis) as Hn. by rewrite filter_true in Hn.
  - apply list.Forall_forall. intros e He%Hsub%sorted_view_elem. by eapply Hc.
  - intros e r He%Hsub%sorted_view_elem Hg Hd. destruct (cell_at o _ r Hg Hnn) as (v & Ev & Iv & _).
    rewrite (Hkey _ r v Hg Ev Iv Hd) in He. injection He as <-. unfold order_key. rewrite Ev. split; [done|].
    apply bool_iff. by rewrite all_match_b, mb_conjuncts.
  - intros pk r Hg Hm Hd. destruct (cell_at o pk r Hg Hnn) as (v & Ev & Iv & Kv).
    assert (He : entry_of pk (keyOf v) ∈ snap).
    { eapply (Hcov _ r v); [apply sorted_view_elem; by apply (Hkey pk r)|by apply mb_conjuncts|done..]. }
    by apply (list_elem_of_fmap_2 oe_pk) in He.
  - apply conjuncts_bound, P.
  - intros r [pk Hg]%matching_live. destruct (cell_at o pk r Hg Hnn) as (v & Ev & Iv & Kv). unfold order_key. rewrite Ev. cbn [default from_option id].
    rewrite (index_Some _ _ _ Ev), ok_bind. split; [done|]. rewrite <- Kv. by apply keyOf_canon.
  - intros r r' [pk Hg]%matching_live [pk' Hg']%matching_live. destruct (cell_at o pk r Hg Hnn) as (v & Ev & Iv & Kv), (cell_at o pk' r' Hg' Hnn) as (v' & Ev' & Iv' & Kv').
    unfold order_key. rewrite Ev, Ev'. cbn [default from_option id]. intros H. apply (ordered_cells r r' v v'); [done..|congruence|].
    unfold key_le, le_of in H. destruct (sel_orderDesc st); by rewrite kcmp_keyOf in H by (done || congruence).
Qed.

(** *** Composite indexes *)
Lemma covering_full ri : covering def ri -> forall pk r, g !! pk = Some r -> full_on ck (ri_ordinals ri) r.
Proof.
  intros (_ & _ & _ & Hn) pk r Hg o Ho. rewrite list.Forall_forall in Hn. destruct (cell_at o pk r Hg (Hn o Ho)) as (v & ? & ? & ?). by exists v.
Qed.
Lemma full_in os r : full_on ck os r -> Forall (fun o => (o < length r)%nat) os.
Proof. intros H. apply list.Forall_forall. intros o Ho. destruct (H o Ho) as (v & E & _). by eapply lookup_lt_Some. Qed.
Lemma cells_lookup os r k o : os !! k = Some o -> cells_of os r !! k = Some (default Null (r !! o)).
Proof. intros E. unfold cells_of. by rewrite list_lookup_fmap, E. Qed.

Section composite.
Context (ri : resolvedIndex) (srcs : list expr).
Local Abbreviation os := (ri_ordinals ri).
Local Abbreviation pinned r := (Forall (pinned cols args r) (zip os srcs)).
Local Abbreviation comp_key r := (encodeCompositeKey (cells_of os r)).
Hypothesis Hcov : covering def ri.
Hypothesis Hlen : (length srcs <= length os)%nat.
Hypothesis Hpins : Forall pin_ok (zip os srcs).
(** The index, the pinned values and the run they select. *)
Lemma comp_run : exists si vs run, indexByOrdinals ixs os = Some si /\ si_ordinals si = os /\
  prefix_values srcs (sel_ctx def args) = Ok (Some vs) /\ length vs = length srcs /\ Forall2 pin_val (zip os srcs) vs /\
  snapshotPrefix si (encodeCompositeKey vs) = Ok run /\ prefixLookup si (encodeCompositeKey vs) = map oe_pk run /\
  StronglySorted (le_of ecmp) run /\ NoDup (map oe_pk run) /\ Forall (fun e => key_canon KindBytes (oe_key e)) run /\
  forall pk r, g !! pk = Some r -> pk ∉ d -> (pinned r <-> pk ∈ map oe_pk run) /\ (forall e, e ∈ run -> oe_pk e = pk -> oe_key e = comp_key r).
Proof.
  destruct Hcov as (Hri & Hord & H2 & _). destruct (composite_index def ck pkHashSeed t ixs g d R ri Hrt Hri) as (si & Ei & Hsi & Eo & Ex).
  destruct (prefix_vals ck args (sel_ctx def args) srcs os eq_refl Hlen Hpins) as (vs & Ev & El & HF). exists si, vs.
  pose proof (prefix_found def ck cols args pkHashSeed t ixs g d R si srcs vs Hsi) as F. rewrite Eo, Ex in F.
  destruct (F Hord H2 Hlen El HF (covering_full ri Hcov)) as (run & F1 & F2 & F3 & F4 & F5 & F6). exists run. by split_and!.
Qed.
Lemma comp_keys_of pk r : g !! pk = Some r -> get_cells r os = Ok (cells_of os r) /\ key_canon KindBytes (comp_key r).
Proof.
  intros Hg. pose proof (covering_full ri Hcov pk r Hg) as Hf. split; [apply get_cells_of; by apply full_in|]. apply composite_canon.
Qed.
Lemma comp_order k r r' pk pk' : k = length srcs -> os !! k = Some (orderOrd pl) -> g !! pk = Some r -> g !! pk' = Some r' -> pinned r -> pinned r' ->
  key_le (sel_orderDesc st) (comp_key r) (comp_key r') -> in_order pl st r r'.
Proof.
  intros Ek Eo Hg Hg' Hp Hp' Hle. destruct comp_run as (si & vs & run & _ & _ & _ & El & HF & _).
  pose proof (covering_full ri Hcov pk r Hg) as Hf. pose proof (covering_full ri Hcov pk' r' Hg') as Hf'.
  destruct (rd_good _ _ _ _ _ _ _ R pk r Hg) as ((_ & Hv) & _), (rd_good _ _ _ _ _ _ _ R pk' r' Hg') as ((_ & Hv') & _).
  destruct (prefix_cells ck cols args srcs os vs r El Hlen HF Hv Hf) as [_ P1]. destruct (prefix_cells ck cols args srcs os vs r' El Hlen HF Hv' Hf') as [_ P2].
  apply P1 in Hp. apply P2 in Hp'. rewrite El, <- Ek in Hp, Hp'.
  destruct (Hf (orderOrd pl)) as (v & Ev & Iv & Kv); [by eapply list_elem_of_lookup_2|]. destruct (Hf' (orderOrd pl)) as (v' & Ev' & Iv' & Kv'); [by eapply list_elem_of_lookup_2|].
  apply (ordered_cells r r' v v'); [done..|congruence|].
  assert (Hs : same_columns (cells_of os r) (cells_of os r')).
  { destruct (full_cells ck os r Hf) as [_ F1], (full_cells ck os r' Hf') as [_ F2]. revert F1 F2. generalize (cells_of os r), (cells_of os r'). generalize os. clear.
    intros os l l' F. revert l'. induction F as [|o x os l [Hx Kx] _ IH]; intros l' F2; inversion F2 as [|? y ? l'' [Hy Ky] F3]; subst; constructor; [|by apply IH].
    split_and!; [done..|congruence]. }
  pose proof (cells_lookup os r k _ Eo) as L. pose proof (cells_lookup os r' k _ Eo) as L'. rewrite Ev in L. rewrite Ev' in L'. cbn in L, L'.
  unfold key_le, le_of in Hle. destruct (sel_orderDesc st).
  - rewrite kcmp_composite in Hle by (by apply same_columns_sym). eapply (tuple_le_at k (cells_of os r') (cells_of os r)); [by apply same_columns_sym|congruence|done..].
  - rewrite kcmp_composite in Hle by done. eapply (tuple_le_at k (cells_of os r) (cells_of os r')); [done|congruence|done..].
Qed.
End composite.

(** *** The planned path *)
Section planned.
Context (hasOrder count : bool).
Hypothesis Hplan : plan_select_path def (sel_where st) hasOrder (pl_orderOrdinal pl) count = Ok (pl_access pl).
Hypothesis Hpart : partitioned def = false.
Hypothesis Hwhere : forall w, sel_where st = Some w -> named def w.
Hypothesis Hpins : Forall pin_ok (access_pins def (pl_access pl)).
Local Abbreviation pinned r l := (Forall (pinned cols args r) l).

(** What the access path guarantees and leaves to check is the WHERE. *)
Lemma planned_sound w pk r : sel_where st = Some w -> g !! pk = Some r ->
  mb r = true <-> pinned r (access_pins def (pl_access pl)) /\ Forall (matches cols args r) (access_rest (pl_access pl) w).
Proof.
  intros Ew Hg. unfold SelectOk.mb. rewrite Ew, matchb_matches. rewrite Ew in Hplan. destruct (rd_good _ _ _ _ _ _ _ R pk r Hg) as ((_ & Hv) & _).
  apply (select_path_ok (rt_def def) def Hrt cols args r Hv (sp_args _ _ _ _ _ P) w hasOrder (pl_orderOrdinal pl) count (pl_access pl) (Hwhere w Ew) Hplan).
Qed.

Lemma comp_walk_ok w k eqs ri res : pl_access pl = with_comp_walk ri k eqs res -> sel_where st = Some w -> (k <= prefix_len (ri_ordinals ri) eqs)%nat ->
  (forall c, c ∈ res -> c ∈ collectConjuncts w) ->
  exists x, compositeWalkArgs ixs pl def args = Ok (Some x) /\ exists os,
    walk_ok def t g d pl st args KindBytes (fun r => encodeCompositeKey (cells_of os r)) x.
Proof.
  intros Ea Ew Hk Hres. destruct (sources_cover _ _ _ _ _ _ Hplan) as [Hsrc _]. rewrite Ea in Hsrc. cbn in Hsrc.
  destruct (Hsrc eq_refl) as (ri' & Hcov & Eo & Hnext). specialize (Hnext eq_refl). 
  set (srcs := prefixSrcs ri eqs k) in *. assert (Elen : length srcs = k) by by apply prefixSrcs_len.
  assert (Hl : (length srcs <= length (ri_ordinals ri'))%nat). { apply lookup_lt_Some in Hnext. lia. }
  assert (Hp : Forall pin_ok (zip (ri_ordinals ri') srcs)). { pose proof Hpins as H. rewrite Ea in H. unfold access_pins in H. cbn in H. by rewrite <- Eo. }
  assert (Hsound : forall pk r, g !! pk = Some r -> mb r = true <-> pinned r (zip (ri_ordinals ri') srcs) /\ Forall (matches cols args r) res).
  { intros pk r Hg. rewrite (planned_sound w pk r Ew Hg), Ea. unfold access_pins, access_rest. cbn. by rewrite <- Eo. }
  destruct (comp_run ri' srcs Hcov Hl Hp) as (si & vs & run & Ei & Eio & Ev & El & HF & Esnap & _ & Hs & Hn & Hc & Hrun).
  unfold compositeWalkArgs. rewrite Ea. cbn [compOrdinals compPrefixSrcs compResidual with_comp_walk]. rewrite Eo, Ei. fold srcs. rewrite Ev, ok_bind, Esnap, ok_bind.
  eexists. split; [done|]. exists (ri_ordinals ri'). rewrite Eio. split; cbn [fst snd].
  - eapply StronglySorted_impl; [|exact Hs]. apply le_ecmp_key.
  - done.
  - done.
  - intros e r He Hg Hd. destruct (Hrun _ r Hg Hd) as [Hin Hkey]. split; [by apply Hkey|].
    apply bool_iff. rewrite all_match_b, (Hsound _ r Hg). split; [|by intros [_ ?]]. intros Hm. split; [|done]. apply Hin. by apply (list_elem_of_fmap_2 oe_pk).
  - intros pk r Hg Hm Hd. apply (Hrun pk r Hg Hd). by apply (Hsound pk r Hg).
  - pose proof (sp_where _ _ _ _ _ P) as Hb. rewrite Ew in Hb. pose proof (conjuncts_bound _ (Some w) Hb) as Hc'. cbn [conjuncts] in Hc'.
    rewrite list.Forall_forall in Hc'. apply list.Forall_forall. auto.
  - intros r [pk Hg]%matching_live. destruct (comp_keys_of ri' Hcov pk r Hg) as [-> ?]. by rewrite ok_bind.
  - intros r r' Hr Hr'. pose proof Hr as [Hm (pk & Hg)]%(matching_elem _ _ _ _ _ _ _ R). pose proof Hr' as [Hm' (pk' & Hg')]%(matching_elem _ _ _ _ _ _ _ R).
    apply (Hsound pk r Hg) in Hm as [Hm _]. apply (Hsound pk' r' Hg') in Hm' as [Hm' _].
    by apply (comp_order ri' srcs Hcov Hl Hp (length srcs) r r' pk pk').
Qed.

(** *** Candidate lists *)
Lemma none_matching : (forall pk r, g !! pk = Some r -> mb r = true -> False) -> matching = [].
Proof.
  intros H. destruct matching as [|r l] eqn:E; [done|]. exfalso. assert (Hr : r ∈ matching) by (rewrite E; by left).
  apply (matching_elem _ _ _ _ _ _ _ R) in Hr as (Hm & pk & Hg). by eapply H.
Qed.
(** Distinct candidates outside the overlay are exactly the pinned rows. *)
Definition exact_pks (l : list (nat * expr)) (pks : list UUID) : Prop :=
  NoDup pks /\ forall pk r, g !! pk = Some r -> pk ∉ d -> (pk ∈ pks <-> pinned r l).
Lemma overlay_answers w pks : sel_where st = Some w -> sel_limit st <> 0 -> exact_pks (access_pins def (pl_access pl)) pks ->
  (idxExact (pl_access pl) = true -> access_rest (pl_access pl) w = []) ->
  answers def t pl st args (cand ← with_overlay pkHashSeed t pks;
    match cand with None => Ok [] | Some cand => execCandidates pkHashSeed SortFunc t pl st def args cand end).
Proof.
  intros Ew Hl [Hn Hx] Hrest. rewrite (overlay_ok def ck pkHashSeed t ixs g d R), ok_bind.
  destruct (Nat.eqb_spec (length pks) 0) as [E1|E1], (Nat.eqb_spec (length d) 0) as [E2|E2]; cbn [andb].
  { apply (answers_none def t pl st args). apply none_matching. intros pk r Hg [Hp _]%(planned_sound w pk r Ew Hg).
    apply nil_length_inv in E1, E2. apply (Hx pk r Hg) in Hp; [rewrite E1 in Hp; by apply elem_of_nil in Hp|]. rewrite E2. by intros ?%elem_of_nil. }
  all: apply (answers_candidates pkHashSeed def ck t ixs g d R SortFunc pl st args P); cbn [cs_pks cs_dirty]; [done|done|..].
  all: try (intros pk r Hg [Hp _]%(planned_sound w pk r Ew Hg); destruct (dirty_decided d pk); [by right|left; by apply (Hx pk r Hg)]).
  all: intros Ex Ed pk r Hpk Hg; apply (planned_sound w pk r Ew Hg); rewrite (Hrest Ex); split; [|constructor].
  all: apply (Hx pk r Hg); [|done]; rewrite Ed; by intros ?%elem_of_nil.
Qed.
Lemma lookup_found k eqs ri : pl_access pl = with_comp_lookup ri k eqs -> (k <= prefix_len (ri_ordinals ri) eqs)%nat ->
  exists pks, compositeCandidates pkHashSeed t ixs pl (sel_ctx def args) = with_overlay pkHashSeed t pks /\ exact_pks (access_pins def (pl_access pl)) pks.
Proof.
  intros Ea Hk. destruct (sources_cover _ _ _ _ _ _ Hplan) as [Hsrc _]. rewrite Ea in Hsrc. destruct (Hsrc eq_refl) as (ri' & Hcov & Eo & _). cbn in Eo.
  set (srcs := prefixSrcs ri eqs k) in *. assert (Elen : length srcs = k) by by apply prefixSrcs_len.
  assert (Hl : (length srcs <= length (ri_ordinals ri'))%nat) by (rewrite <- Eo, Elen; etrans; [exact Hk|apply prefix_len_le]).
  assert (Ep : access_pins def (pl_access pl) = zip (ri_ordinals ri') srcs) by (rewrite Ea; unfold access_pins; cbn; by rewrite <- Eo).
  assert (Hp : Forall pin_ok (zip (ri_ordinals ri') srcs)) by by rewrite <- Ep.
  destruct (comp_run ri' srcs Hcov Hl Hp) as (si & vs & run & Ei & Eio & Ev & El & HF & _ & Elook & Hs & Hn & Hc & Hrun).
  exists (map oe_pk run). split.
  - unfold compositeCandidates. pose proof Ea as Ea'. rewrite Ea'. cbn [compOrdinals compPrefixSrcs with_comp_lookup]. rewrite Eo, Ei. fold srcs. by rewrite Ev, ok_bind, Elook.
  - rewrite Ep. split; [done|]. intros pk r Hg Hd. symmetry. by apply Hrun.
Qed.
Lemma lookup_answers w k eqs ri : pl_access pl = with_comp_lookup ri k eqs -> sel_where st = Some w -> (k <= prefix_len (ri_ordinals ri) eqs)%nat ->
  answers def t pl st args (execSelectCompositeLookup pkHashSeed SortFunc t ixs pl st def args).
Proof.
  intros Ea Ew Hk. unfold execSelectCompositeLookup.
  destruct (Z.eqb_spec (sel_limit st) 0) as [Hz|Hz]; [by apply (answers_zero pkHashSeed def ck t ixs g d R SortFunc pl st args P)|].
  destruct (lookup_found k eqs ri Ea Hk) as (pks & -> & Hx). apply (overlay_answers w); [done..|by rewrite Ea].
Qed.
(** The first row, without the list. *)
Lemma first_match_head pks : first_match pkHashSeed t pl st pks (matcher st def args) =
  Ok (head (map (shown (projOrNil (sel_starAll st) (pl_projOrdinals pl))) (hits g mb pks))).
Proof.
  induction pks as [|pk pks IH]; [done|]. cbn [first_match]. unfold getMatchProject. rewrite (rd_get _ _ _ _ _ _ (rd_stored _ _ _ _ _ _ _ R)), ok_bind, hits_cons.
  destruct (g !! pk) as [r|] eqn:Eg; rewrite ?ok_bind; [|exact IH]. pose proof (rd_good _ _ _ _ _ _ _ R pk r Eg) as Hr.
  rewrite (where_decides def ck t pl st args P r Hr), ok_bind. destruct (mb r); cbn [negb]; [|exact IH].
  pose proof Hr as ((_ & Hv) & _). destruct (sel_starAll st); [by rewrite ok_bind, Row_Clone_ok|]. by rewrite (project_ok def ck _ (sp_ords _ _ _ _ _ P) r Hr), !ok_bind.
Qed.
Lemma head_arranged l : l ⊆ matching -> (forall r, r ∈ matching -> l <> []) -> exists S, S ≡ₚ matching /\ head S = head l.
Proof.
  intros Hin Hnil. destruct l as [|r l].
  - exists []. split; [|done]. destruct matching as [|r m]; [done|]. exfalso. by apply (Hnil r); [left|].
  - destruct (proj1 (elem_of_Permutation matching r)) as [m Em]; [apply Hin; by left|]. exists (r :: m). by rewrite Em.
Qed.
(** QueryRow answers the first row of the window. *)
Definition answers_row (o : outcome (option Row)) : Prop := exists rows, answers def t pl st args (Ok rows) /\ o = Ok (head rows).
Lemma one_row l o : pl_orderOrdinal pl < 0 -> sel_offset st = 0 -> sel_limit st <> 0 -> l ⊆ matching -> (forall r, r ∈ matching -> l <> []) ->
  o = Ok (head (map (shown (projOrNil (sel_starAll st) (pl_projOrdinals pl))) l)) -> answers_row o.
Proof.
  intros Hord Hoff Hl Hin Hnil ->. destruct (head_arranged l Hin Hnil) as (S & PS & HS). eexists. split; [exists S; split_and!; [done|lia|done]|].
  unfold window. rewrite Hoff. cbn [Z.to_nat drop]. assert (E : forall B (f : Row -> B) k k', head k = head k' -> head (map f k) = head (map f k')).
  { intros B f [|x k] [|y k']; cbn; congruence. }
  rewrite <- (E _ _ _ _ HS). destruct (Z.ltb_spec (sel_limit st) 0); [done|]. destruct (Z.to_nat (sel_limit st)) eqn:En; [lia|]. by destruct S.
Qed.
Lemma hits_live pks : hits g mb pks ⊆ matching.
Proof. intros r (Hm & pk & _ & Hg)%hits_elem. apply (matching_elem _ _ _ _ _ _ _ R). eauto. Qed.

(** *** Single-column indexes *)
Section indexed.
Context (w : expr) (exact bucket : bool).
Local Abbreviation l := (pinned_singles (rt_indexes def) (collectEqConjuncts w ∅)).
Hypothesis Ea : pl_access pl = with_idx (map fst l) (map snd l) exact bucket.
Hypothesis Ew : sel_where st = Some w.
Hypothesis Hne : l <> [].
Lemma idx_access : access_pins def (pl_access pl) = l /\ idxExact (pl_access pl) = exact /\ (exact = true -> access_rest (pl_access pl) w = []) /\
  zip (idxCols (pl_access pl)) (idxSrcs (pl_access pl)) = l /\ idxLookup (pl_access pl) = true.
Proof.
  rewrite Ea. unfold access_pins, access_rest. cbn. rewrite app_nil_r, zip_pairs. split_and!; [done..|by intros ->|done|].
  apply bool_decide_eq_true. by intros ?%map_eq_nil.
Qed.
Lemma idx_pins : Forall pin_ok l /\ Forall (fun p => single_index ixs (fst p)) l.
Proof.
  split. { pose proof Hpins as H. by rewrite (proj1 idx_access) in H. }
  apply list.Forall_forall. intros [o v] H. apply (indexFor_single def ck pkHashSeed t ixs g d R). unfold pinned_singles in H.
  apply list_elem_of_omap in H as (ri & Hri & H). exists ri. split; [done|]. destruct (ri_ordinals ri) as [|x [|]]; try done.
  destruct (_ !! x); [|done]. by injection H as -> _.
Qed.
Lemma idx_found : exists pks, idx_loop ixs l None (sel_ctx def args) = Ok (Some pks) /\ exact_pks (access_pins def (pl_access pl)) pks.
Proof.
  destruct idx_pins as [Hp Hs]. destruct (idx_loop_ok def ck cols args pkHashSeed t ixs g d R (sel_ctx def args) l eq_refl Hp Hs None Hne) as (pks & E & Hn & Hx).
  exists pks. split; [done|]. rewrite (proj1 idx_access). split; [done|]. intros pk r Hg Hd. rewrite (Hx pk r Hg Hd). tauto.
Qed.
Lemma idx_candidates : exists pks, idxCandidates pkHashSeed t ixs pl (sel_ctx def args) = with_overlay pkHashSeed t pks /\
  exact_pks (access_pins def (pl_access pl)) pks.
Proof.
  destruct idx_found as (pks & E & Hx). exists pks. split; [|done]. unfold idxCandidates.
  destruct idx_access as (_ & _ & _ & -> & _). by rewrite E, ok_bind.
Qed.
(** The shortcut of a bucket of one. *)
Lemma point_read_ok off : exists fast, point_read pkHashSeed t ixs pl st off args = Ok fast /\
  match fast with
  | None => True
  | Some row => exists u, (forall pk r, g !! pk = Some r -> mb r = true -> pk = u) /\
      opt_row row = if 0 <? off then [] else map (shown (projOrNil (sel_starAll st) (pl_projOrdinals pl))) (hits g mb [u])
  end.
Proof.
  destruct idx_access as (Ep & Ex & Hrest & Ez & _). destruct idx_pins as [Hp Hs]. unfold point_read. rewrite Ex. pose proof Ea as Ea'. rewrite Ea'. cbn [idxCols idxSrcs with_idx].
  destruct (exact && _ && _) eqn:Ec; cbn [negb]; [|by exists None]. apply andb_true_iff in Ec as [Ec Ed]. apply andb_true_iff in Ec as [Ec El].
  apply Z.eqb_eq in Ed. apply (rd_clean _ _ _ _ _ _ (rd_stored _ _ _ _ _ _ _ R)) in Ed. rewrite length_map in El. apply Nat.eqb_eq in El.
  pose proof (Hrest Ec) as Er. assert (Hs1 : forall pk r, g !! pk = Some r -> mb r = true <-> pinned r l).
  { intros pk r Hg. rewrite (planned_sound w pk r Ew Hg), Er, Ep. split; [by intros [? _]|by split; [|constructor]]. }
  clear Ep Er Hrest Ez Ea'. destruct l as [|[o src] [|]] eqn:E; try (cbn in El; lia). cbn [map fst snd].
  apply Forall_cons_1 in Hp as [[v Hv] _]. apply Forall_cons_1 in Hs as [(si & Ei & Hsi & Eo) _]. cbn in Ei.
  change (index [src] 0) with (Ok src). rewrite ok_bind. pose proof Hv as (Ev & [_ Nv] & _). cbn [snd] in Ev. rewrite Ev, ok_bind.
  unfold IsNull. rewrite bool_decide_false by done. change (index [o] 0) with (Ok o). rewrite ok_bind, Ei, lookupOne_classifies.
  destruct (bucket_exact def ck cols args pkHashSeed t ixs g d R si o src v Hsi Eo Hv) as [Hn Hb].
  assert (Hm : forall pk r, g !! pk = Some r -> mb r = true <-> pk ∈ lookup si (keyOf v)).
  { intros pk r Hg. rewrite (Hs1 pk r Hg), (Hb pk r Hg) by (rewrite Ed; by intros ?%elem_of_nil). rewrite list.Forall_singleton. done. }
  destruct (lookup si (keyOf v)) as [|u [|u' us]]; cbn [negb].
  - exists (Some None). split; [done|]. exists zeroUUID. split; [by intros pk r Hg ?%(Hm pk r Hg)%elem_of_nil|]. cbn [opt_row]. destruct (0 <? off); [done|].
    rewrite hits_cons. destruct (g !! zeroUUID) as [r|] eqn:Eg; [|done]. destruct (mb r) eqn:Eb; [|done]. apply (Hm _ r Eg) in Eb. by apply elem_of_nil in Eb.
  - exists (Some (if 0 <? off then None else shown (projOrNil (sel_starAll st) (pl_projOrdinals pl)) <$> g !! u)).
    pose proof (read_pk pkHashSeed def ck t ixs g d R pl st args P u) as Erd. split.
    + destruct (0 <? off); [done|]. destruct (sel_starAll st); by rewrite Erd, ok_bind.
    + exists u. split; [by intros pk r Hg ?%(Hm pk r Hg)%list_elem_of_singleton|]. destruct (0 <? off); [done|]. rewrite hits_cons.
      destruct (g !! u) as [r|] eqn:Eg; [|done]. by rewrite (proj2 (Hm u r Eg)) by by left.
  - by exists None.
Qed.
Lemma idx_answers : (pkOrd def < ncols)%nat -> answers def t pl st args (execSelectIdx pkHashSeed SortFunc t ixs pl st def args).
Proof.
  intros Hpk. destruct idx_access as (Ep & Ex & Hrest & Ez & _). unfold execSelectIdx.
  destruct (Z.eqb_spec (sel_limit st) 0) as [Hz|Hz]; [by apply (answers_zero pkHashSeed def ck t ixs g d R SortFunc pl st args P)|].
  assert (Hslow : answers def t pl st args (cand ← idxCandidates pkHashSeed t ixs pl (sel_ctx def args);
    match cand with None => Ok [] | Some cand => execCandidates pkHashSeed SortFunc t pl st def args cand end)).
  { destruct idx_candidates as (pks & -> & Hx). apply (overlay_answers w); [done..|]. by rewrite Ex. }
  destruct (pl_orderOrdinal pl <? 0); [|by rewrite ok_bind].
  destruct (point_read_ok (sel_offset st)) as (fast & -> & Hf). rewrite ok_bind. destruct fast as [row|]; [|done]. destruct Hf as (u & Hu & ->).
  pose proof (answers_one pkHashSeed def ck t ixs g d R pl st args P Hpk u Hu) as A. by rewrite (proj2 (Z.eqb_neq _ _) Hz) in A.
Qed.

Lemma idx_one_answers : (pkOrd def < ncols)%nat -> pl_orderOrdinal pl < 0 -> sel_offset st = 0 ->
  answers_row (execSelectIdxOne pkHashSeed t ixs pl st def args).
Proof.
  intros Hpk Hord Hoff. destruct idx_access as (Ep & Ex & Hrest & Ez & _). unfold execSelectIdxOne.
  destruct (Z.eqb_spec (sel_limit st) 0) as [Hz|Hz]. { exists []. split; [|done]. by apply (answers_zero pkHashSeed def ck t ixs g d R SortFunc pl st args P). }
  destruct (point_read_ok 0) as (fast & -> & Hf). rewrite ok_bind. destruct fast as [row|].
  - destruct Hf as (u & Hu & Er). cbn in Er. pose proof (answers_one pkHashSeed def ck t ixs g d R pl st args P Hpk u Hu) as A.
    rewrite (proj2 (Z.eqb_neq _ _) Hz), Hoff in A. cbn in A. eexists. split; [exact A|]. cbn. rewrite <- Er. by destruct row.
  - rewrite Ez. destruct idx_found as (pks & -> & [_ Hx]). rewrite ok_bind. cbv zeta. rewrite first_match_head, ok_bind.
    assert (Hall : forall r, r ∈ matching -> r ∈ hits g mb pks \/ r ∈ hits g mb d).
    { intros r [Hm (pk & Hg)]%(matching_elem _ _ _ _ _ _ _ R). destruct (dirty_decided d pk) as [Hd|Hd]; [right|left]; apply hits_elem.
      - split; [done|]. by exists pk.
      - split; [done|]. exists pk. split; [|done]. apply (Hx pk r Hg Hd). by apply (planned_sound w pk r Ew Hg). }
    destruct (hits g mb pks) as [|r rs] eqn:Eh; cbn [map head].
    + rewrite (rd_dirty _ _ _ _ _ _ (rd_stored _ _ _ _ _ _ _ R)), ok_bind, first_match_head.
      eapply (one_row (hits g mb d)); [done..|apply hits_live| |done]. intros r [Hr%elem_of_nil|Hr]%Hall; [done|]. intros E. rewrite E in Hr. by apply elem_of_nil in Hr.
    + eapply (one_row (r :: rs)); [done..|rewrite <- Eh; apply hits_live|done|done].
Qed.
End indexed.

(** *** By primary key *)
Section keyed.
Hypothesis Hkind : ck (pkOrd def) = KindUUID.
Hypothesis Hnn : not_null def (pkOrd def).
Lemma pk_pinned src v pk r : pin_val (pkOrd def, src) v -> g !! pk = Some r -> PlanOk.pinned cols args r (pkOrd def, src) <-> pk = v_UUID v.
Proof.
  intros Hp Hg. destruct (rd_rows _ _ _ _ _ _ (rd_stored _ _ _ _ _ _ _ R) pk r Hg) as ((_ & Hv) & _ & Epk). rewrite (pinned_value ck cols args _ v r Hp Hv). cbn [fst].
  destruct (cell_at _ pk r Hg Hnn) as (c & Ec & [Hc _] & Kc). destruct Hp as (_ & [Hvv _] & Kv). cbn in Kv. rewrite Ec. unfold pkof in Epk. rewrite Ec in Epk. cbn in Epk. subst pk.
  split; [by intros [= ->]|]. intros E. f_equal. pose proof (uuid_value c Hc) as E1. pose proof (uuid_value v Hvv) as E2. rewrite E1, E2, E by congruence. done.
Qed.
Lemma pk_pin src rest : access_pins def (pl_access pl) = (Z.to_nat (rt_pkOrdinal def), src) :: rest -> exists v, pin_val (pkOrd def, src) v /\ value_ok v /\ Kind v = KindUUID /\
  evalExpr (Some src) (sel_ctx def args) = Ok v.
Proof.
  intros E. pose proof Hpins as H. rewrite E in H. apply Forall_cons_1 in H as [[v Hv] _]. exists v. pose proof Hv as (Ev & [Hok _] & Kv). split_and!; [done|done| |].
  - cbn in Kv. unfold pkOrd in Hkind. congruence.
  - cbn [evalExpr]. by apply value_of_eval.
Qed.
Lemma planned_answers : (pkOrd def < ncols)%nat -> walk_fits def pl st maxCells ->
  answers def t pl st args (execSelect pkHashSeed SortFunc maxCells t ixs pl st def args).
Proof.
  intros Hpk Hfit. pose proof (select_path def (sel_where st) hasOrder (pl_orderOrdinal pl) count (pl_access pl) Hpart Hplan) as Hpath.
  assert (Hkeyed : forall w src, sel_where st = Some w -> access_pins def (pl_access pl) = [(Z.to_nat (rt_pkOrdinal def), src)] ->
    exists v, value_ok v /\ Kind v = KindUUID /\ evalExpr (Some src) (sel_ctx def args) = Ok v /\ (forall pk r, g !! pk = Some r -> mb r = true -> pk = v_UUID v) /\
    (access_rest (pl_access pl) w = [] -> forall pk r, g !! pk = Some r -> mb r = true <-> pk = v_UUID v)).
  { intros w src Ew Epin. destruct (pk_pin src [] Epin) as (v & Hv & Hok & Kv & Ev). exists v.
    assert (Hp : forall pk r, g !! pk = Some r -> pinned r (access_pins def (pl_access pl)) <-> pk = v_UUID v).
    { intros pk r Hg. rewrite Epin, list.Forall_singleton. by apply pk_pinned. }
    split_and!; [done..| |].
    - intros pk r Hg [H _]%(planned_sound w pk r Ew Hg). by apply (Hp pk r Hg).
    - intros Er pk r Hg. rewrite (planned_sound w pk r Ew Hg), Er, (Hp pk r Hg). split; [by intros [? _]|by split; [|constructor]]. }
  pose proof (answers_pk pkHashSeed def ck t ixs g d R pl st args P Hpk) as Apk. pose proof (answers_probe pkHashSeed def ck t ixs g d R pl st args P Hpk) as Aprobe.
  assert (D : forall ow a, path def ow a -> sel_where st = ow -> pl_access pl = a -> answers def t pl st args (execSelect pkHashSeed SortFunc maxCells t ixs pl st def args)); [|by eapply D].
  clear Hpath. intros ow a Hpath Ew Ea. unfold execSelect. rewrite Ea.
  destruct Hpath as [w|w src|w src|w exact bucket Hne ? Hbk|w ri k eqs res Hk Hres|w ri k eqs Hk|w|w src]; cbn -[pinned_singles evalExpr].
  - by apply (answers_scan pkHashSeed def ck t ixs g d R SortFunc pl st args P).
  - destruct (Hkeyed w src) as (v & Hv & Kv & -> & _ & Hm); [done|by rewrite Ea|]. rewrite ok_bind. apply Apk; [done..|]. apply Hm. by rewrite Ea.
  - destruct (Hkeyed w src) as (v & Hv & Kv & -> & _ & Hm); [done|by rewrite Ea|]. rewrite ok_bind. apply Apk; [done..|]. apply Hm. by rewrite Ea.
  - destruct (idx_access w exact bucket) as (_ & _ & _ & _ & El); [done..|]. rewrite Ea in El. cbn -[pinned_singles] in El. rewrite El. by apply (idx_answers w exact bucket).
  - unfold execSelectCompositeWalk. destruct (comp_walk_ok w k eqs ri res) as (x & -> & os & W); [done..|]. rewrite ok_bind.
    by apply (answers_walk pkHashSeed def ck t ixs g d R SortFunc pl st args P maxCells KindBytes _ x W).
  - by apply (lookup_answers w k eqs ri).
  - destruct (sources_cover _ _ _ _ _ _ Hplan) as [_ Hsrc]. rewrite Ea in Hsrc. destruct (Hsrc eq_refl) as (ri & Hri & Hord & Hos & Hn).
    unfold execSelectOrderedWalk. destruct (order_walk_ok ri) as (x & -> & W); [apply (walk_ordered _ _ _ _ _ _ Hplan); by rewrite Ea|done..|].
    by apply (answers_walk pkHashSeed def ck t ixs g d R SortFunc pl st args P maxCells (ck (orderOrd pl)) _ x W).
  - destruct (Hkeyed w src) as (v & Hv & Kv & -> & Hm & _); [done|by rewrite Ea|]. rewrite ok_bind. by apply Aprobe.
Qed.
End keyed.
End planned.
End sound.
