(* ===== verification/SelectMain.v ===== *)
(** * SelectMain: SELECT from the planned statement to the rows, over any table
    the database can be in: booted, written to and merged in any interleaving. *)
From S2P Require Import Prelude Bytes Order Uuid Value CompositeKey PkMap Codec Frame Journal Schema Catalog SecIndex IndexOk Store StoreOk StoreSim Merge MergeOk MergeSafe Ast Eval Filter TopN TopNOk Plan PlanJoin PlanOk PlanJoinOk Recovery Replayer RecoveryOk Select SelectOk CandOk WalkOk SelectSound.

Section main.
Context {J : Type} `{Journal J} (pkHashSeed : Z) (def : resolvedTable) (max ext : Z) (ck : nat -> ValueKind).
Local Abbreviation ncols := (length (t_Columns (rt_def def))).
Hypothesis pk_in : (pkOrd def < ncols)%nat.
Hypothesis ords_in : Forall (fun ri => Forall (fun o => (o < ncols)%nat) (ri_ordinals ri)) (rt_indexes def).
Local Abbreviation sys := (sys (J := J)).
Local Abbreviation sys_step := (sys_step pkHashSeed def max ck).

(** What a statement can find: the state of an indexed table any number of
    writes and merge steps after boot, or of a table without indexes. *)
Inductive served : tbl_state -> list secIndex -> Prop :=
  | served_indexed (y0 y : sys) : 0 < nIndexes def -> booted pkHashSeed def max ext ck y0 -> shape def (y_ix y0) ->
      rtc sys_step y0 y -> served (y_t y) (y_ix y)
  | served_plain t g : rt_indexes def = [] -> tbl_ok pkHashSeed def max None ext t g -> map_Forall (fun _ => row_typed ck) g -> served t [].

Lemma sys_shape y y' : sys_step y y' -> shape def (y_ix y) -> shape def (y_ix y').
Proof. intros S Hs. destruct S as [? ? ? ? ? ? ? ? E| |]; cbn in *; [by eapply mstep_shape|done..]. Qed.
Lemma sys_shapes y y' : rtc sys_step y y' -> shape def (y_ix y) -> shape def (y_ix y').
Proof. induction 1 as [|y y1 y' S _ IH]; [done|]. intros Hs. by eapply IH, sys_shape. Qed.
Lemma served_readable t ixs : served t ixs -> exists g d, readable pkHashSeed def ck t ixs g d /\ forall pk, getByPK pkHashSeed t pk = Ok (g !! pk).
Proof.
  intros [y0 y Hix Hb Hsh Hr|t' g Hno Ht Hty].
  - destruct (reach_inv pkHashSeed def max ext ck pk_in Hix ords_in y0 y Hb Hr) as (fr & g & Hi).
    destruct (inv_readable pkHashSeed def ck max ext fr _ g _ _ pk_in (sys_shapes _ _ Hr Hsh) Hi) as [d R].
    exists g, d. split; [done|]. intros pk. eapply getByPK_ok. apply (iv_tbl _ _ _ _ _ _ _ _ _ _ Hi).
  - destruct (plain_readable pkHashSeed def ck max ext t' g pk_in Hno Ht Hty) as [d R]. exists g, d. split; [done|].
    intros pk. by eapply getByPK_ok.
Qed.

(** A plan that reads as another: the fields a SELECT's execution looks at. *)
Definition reads_as (pl0 pl : plan) : Prop :=
  pl_st pl = pl_st pl0 /\ pl_access pl = pl_access pl0 /\ pl_projOrdinals pl = pl_projOrdinals pl0 /\
  pl_orderOrdinal pl = pl_orderOrdinal pl0 /\ pl_joinPlan pl = pl_joinPlan pl0 /\ pl_countStar pl = pl_countStar pl0 /\
  pl_colNames pl = pl_colNames pl0.
(** The planner's output for a parsed single-table SELECT. *)
Definition planned_select (rt : tableRT) (cat : catalog) (s : selectStmt) (pl : plan) (st : selectStmt) : Prop :=
  opt_raw (sel_where s) /\ pl_st pl = SSelect st /\ exists pl0, plan_select rt s cat = Ok pl0 /\ reads_as pl0 pl.
(** What the executor may assume besides: arguments of the pinned columns'
    kinds, a window that fits an int, an order column without NULL among the
    matching rows. *)
Record select_req (t : tbl_state) (rt : tableRT) (pl : plan) (st : selectStmt) (args : list Value) : Prop := {
  sq_table : resolve_table (rt_def def) = Ok (table rt);
  sq_def : table rt = def;
  sq_flat : partitioned def = false;
  sq_rows pk r : getByPK pkHashSeed t pk = Ok (Some r) -> row_fits (t_Columns (rt_def def)) r;
  sq_kind : ck (pkOrd def) = KindUUID;
  sq_pk : not_null def (pkOrd def);
  sq_args : Forall value_ok args;
  sq_pins : Forall (pin_ok ck args) (access_pins def (pl_access pl));
  sq_offset : 0 <= sel_offset st;
  sq_sum : sel_limit st + sel_offset st < 2 ^ 63;
  sq_order r : 0 <= pl_orderOrdinal pl -> r ∈ matching t (mb def st args) -> Kind (order_key (orderOrd pl) r) <> KindNull;
}.
Lemma lits_raw e : raw_ok e -> lits_ok e.
Proof. induction e; cbn; intros; intuition. Qed.

Section one.
Context (t : tbl_state) (ixs : list secIndex) (rt : tableRT) (cat : catalog) (s : selectStmt) (pl : plan) (st : selectStmt) (args : list Value).
Hypothesis Hserved : served t ixs.
Hypothesis Hpl : planned_select rt cat s pl st.
Hypothesis Q : select_req t rt pl st args.
(** The parts of the plan. *)
Lemma planned_parts : exists hasOrder count, sel_starAll st = sel_starAll s /\ sel_limit st = sel_limit s /\ sel_offset st = sel_offset s /\
  plan_select_path def (sel_where st) hasOrder (pl_orderOrdinal pl) count = Ok (pl_access pl) /\
  (forall w, sel_where st = Some w -> named def w) /\ opt_bound ncols (sel_where st) /\
  Forall (fun o => (o < ncols)%nat) (pl_projOrdinals pl) /\ pl_orderOrdinal pl < Z.of_nat ncols /\ pl_joinPlan pl = None /\ pl_countStar pl = sel_countStar s.
Proof.
  destruct Hpl as (Hraw & Est & pl0 & Hp & (E1 & -> & -> & -> & -> & -> & _)). rewrite Est in E1. symmetry in E1. clear Est Hpl.
  pose proof (plan_select_safe (rt_def def) rt s cat (sq_table _ _ _ _ _ Q) Hraw) as Hsafe. rewrite Hp in Hsafe.
  destruct Hsafe as ((Hords & Hord) & Hst & _). unfold stmt_bound in Hst. rewrite E1 in Hst. unfold plan_select in Hp. cbv zeta in Hp.
  rewrite (sq_def _ _ _ _ _ Q) in Hp. inv_bind.
  cbn in E1, Hords, Hord, Hst |- *. unfold plan_width, PlanJoin.ncols in Hords, Hord, Hst. cbn in Hords, Hord, Hst. rewrite (sq_def _ _ _ _ _ Q) in Hords, Hord, Hst.
  injection E1 as <-. cbn [sel_where sel_set_where sel_starAll sel_limit sel_offset] in *. eexists _, _. split_and!; try done.
  intros w Ew. match goal with E : validateOpt _ _ _ = Ok _ |- _ => rename E into Hv end. unfold validateOpt in Hv.
  destruct (sel_where s) as [e|] eqn:Ee; [|congruence]. inv_bind.
  match goal with E : validateExpr _ _ _ = Ok ?y |- _ => assert (w = y) as -> by congruence end. by eapply validateExpr_named; [apply lits_raw|].
Qed.
Lemma req_sound : exists g d, readable pkHashSeed def ck t ixs g d /\ (forall pk, getByPK pkHashSeed t pk = Ok (g !! pk)) /\ sound_plan def t pl st args.
Proof.
  destruct (served_readable t ixs Hserved) as (g & d & R & Hg). exists g, d. split_and!; [done..|].
  destruct planned_parts as (hasOrder & count & _ & El & Eo & _ & _ & Hb & Hords & Hord & _). split; [done|done|apply Q|apply Q|apply Q|].
  intros Hpos. assert (Ho : (orderOrd pl < ncols)%nat) by (unfold orderOrd; lia). split; [done|].
  destruct (matching t (mb def st args)) as [|r0 l] eqn:E; [by exists KindInt; split; [|intros r ?%elem_of_nil]|].
  exists (ck (orderOrd pl)). rewrite <- E. assert (G : forall r, r ∈ matching t (mb def st args) -> Kind (order_key (orderOrd pl) r) = ck (orderOrd pl)).
  { intros r Hr. pose proof (sq_order _ _ _ _ _ Q r Hpos Hr) as Hn. apply (matching_elem _ _ _ _ _ _ _ R) in Hr as (_ & pk & Hgr).
    destruct (rd_good _ _ _ _ _ _ _ R pk r Hgr) as ((Hl & _) & Hty). destruct (lookup_lt_is_Some_2 r (orderOrd pl)) as [v Ev]; [by rewrite Hl|].
    unfold order_key in *. rewrite Ev in *. cbn in *. by destruct (Hty _ _ Ev). }
  split; [|done]. assert (Hr0 : r0 ∈ matching t (mb def st args)) by (rewrite E; by left). rewrite <- (G r0 Hr0). by apply (sq_order _ _ _ _ _ Q).
Qed.
Context (SortFunc : forall A : Type, (A -> A -> Z) -> list A -> list A) {sorts : forall A, SortsFunc (SortFunc A)}.
Lemma select_answered maxCells : walk_fits def pl st maxCells -> answers def t pl st args (execSelect pkHashSeed SortFunc maxCells t ixs pl st def args).
Proof.
  intros Hm. destruct req_sound as (g & d & R & Hg & P). destruct planned_parts as (hasOrder & count & _ & _ & _ & Hp & Hn & _).
  assert (Hrt : resolved_ok (rt_def def) def).
  { pose proof (resolved_table _ _ (sq_table _ _ _ _ _ Q)) as Hr. by rewrite (sq_def _ _ _ _ _ Q) in Hr. }
  assert (Hf : forall pk r, g !! pk = Some r -> row_fits (t_Columns (rt_def def)) r).
  { intros pk r Hgr. apply (sq_rows _ _ _ _ _ Q pk). by rewrite Hg, Hgr. }
  apply (planned_answers pkHashSeed def ck Hrt t ixs g d R Hf SortFunc maxCells pl st args P hasOrder count Hp); try apply Q; done.
Qed.
End one.

(** C5: SELECT is exact. On a booted table, after any writes and any steps of
    the background merge in any order, an execution of a planned single-table
    SELECT answers the window (OFFSET, LIMIT) of an arrangement of the projected
    rows the WHERE matches, each once, a sorted arrangement under ORDER BY. This
    holds of every access path the planner may choose: primary key, index
    buckets with the dirty overlay, composite prefixes, ordered walks, scans. *)
Theorem select_answers (SortFunc : forall A : Type, (A -> A -> Z) -> list A -> list A) {sorts : forall A, SortsFunc (SortFunc A)}
  t ixs rt cat s pl st args maxCells : served t ixs -> planned_select rt cat s pl st -> select_req t rt pl st args -> walk_fits def pl st maxCells ->
  exists S, S ≡ₚ filter (fun r => matchb (rt_colByName def) args (sel_where st) r = true) (rows_of t) /\
    (0 <= pl_orderOrdinal pl -> StronglySorted (in_order pl st) S) /\
    execSelect pkHashSeed SortFunc maxCells t ixs pl st def args =
      Ok (window st (map (shown (projOrNil (sel_starAll st) (pl_projOrdinals pl))) S)).
Proof. intros Hs Hp Q. by apply (select_answered t ixs rt cat s pl st args Hs Hp Q SortFunc). Qed.
End main.

(** ** The users table *)
Definition users_sort (A : Type) (cmp : A -> A -> Z) : list A -> list A := sort_by (fun a b => cmp a b <? 0).
#[local] Instance users_sorts A : SortsFunc (users_sort A) := insertion_sorts.
Definition users_select (sql : string) : plan :=
  match plan_select users_tab (ab_parsed sql) demo_cat with Ok pl => pl | _ => blank_plan (SDrop []) None demo_cat end.
Definition users_stmt (sql : string) : selectStmt := match pl_st (users_select sql) with SSelect s => s | _ => ab_parsed sql end.
Definition age_sql : string := "SELECT name FROM users WHERE age = ? ORDER BY name LIMIT 5".
Lemma users_wrote_tbl : tbl_ok 0 users_rt 1000 None 0 (y_t users_wrote) {[ada_id := ada 36 (lit "ada")]}.
Proof.
  assert (Hb : users_boot = MkSys t0 (y_ix users_boot) (y_m users_boot) None) by by vm_compute.
  destruct (insert_ok 0 users_rt 1000 None 0 ltac:(vm_compute; lia) true t0 (None : option (list (Z * bytes)))
    (ada 36 (lit "ada")) (fun w => mj_insert users_mj w (ada 36 (lit "ada"))) ∅ 8)
    as (t' & E & H1 & _); [apply t0_ok|apply t0_ok|by apply ada_wf|by left|].
  assert (Er : run_op 0 users_rt 1000 t0 (None : option (list (Z * bytes))) (OInsert (ada 36 (lit "ada")) users_mj) =
    Ok (t', None, ADone 1 None)).
  { cbn [run_op]. unfold insertJournaled. rewrite E. reflexivity. }
  unfold users_wrote. rewrite Hb at 1. cbn [y_t]. replace (y_t users_boot) with t0 by by vm_compute. rewrite Er. cbv beta iota.
  exact H1.
Qed.
Lemma users_served : served 0 users_rt 1000 0 users_ck (y_t users_wrote) (y_ix users_wrote).
Proof.
  destruct users_side as (_ & H2 & _). eapply served_indexed; [exact H2|exact users_boots| |exact users_writes]. by vm_compute.
Qed.
Lemma users_rows pk r : getByPK 0 (y_t users_wrote) pk = Ok (Some r) -> pk = ada_id /\ r = ada 36 (lit "ada").
Proof. rewrite (getByPK_ok _ _ _ _ _ _ _ pk users_wrote_tbl). intros [= [<- <-]%lookup_singleton_Some]. done. Qed.
Lemma users_planned : planned_select users_tab demo_cat (ab_parsed age_sql) (users_select age_sql) (users_stmt age_sql).
Proof. split_and!; [vm_compute; tauto|vm_compute; reflexivity|]. exists (users_select age_sql). split; [vm_compute; reflexivity|done]. Qed.
Lemma users_req : select_req 0 users_rt users_ck (y_t users_wrote) users_tab (users_select age_sql) (users_stmt age_sql) [Int 36].
Proof.
  split.
  - vm_compute. reflexivity.
  - reflexivity.
  - vm_compute. reflexivity.
  - intros pk r [_ ->]%users_rows. apply validateInsertRow_ok. by vm_compute.
  - reflexivity.
  - eexists. split; [vm_compute; reflexivity|reflexivity].
  - constructor; [|constructor]. apply ok_int. unfold in_s64. lia.
  - assert (E : access_pins users_rt (pl_access (users_select age_sql)) = [(1%nat, paramRef 0)]) by by vm_compute. rewrite E.
    constructor; [|constructor]. exists (Int 36). split_and!; [reflexivity|split; [apply ok_int; unfold in_s64; lia|discriminate]|reflexivity].
  - vm_compute. done.
  - vm_compute. reflexivity.
  - intros r _ Hr. destruct users_side as (H1 & H2 & H3). destruct (served_readable 0 users_rt 1000 0 users_ck H1 H3 _ _ users_served) as (g & d & R & Hg).
    apply (matching_elem _ _ _ _ _ _ _ R) in Hr as (_ & pk & Hr). destruct (users_rows pk r) as [_ ->]; [by rewrite Hg, Hr|]. by vm_compute.
Qed.
Lemma select_answers_witness : exists rows, execSelect 0 users_sort 1000 (y_t users_wrote) (y_ix users_wrote) (users_select age_sql) (users_stmt age_sql) users_rt [Int 36] = Ok rows /\
  rows = [[Str (lit "ada")]].
Proof.
  destruct users_side as (H1 & H2 & H3).
  destruct (select_answers 0 users_rt 1000 0 users_ck H1 H3 users_sort (y_t users_wrote) (y_ix users_wrote) users_tab demo_cat (ab_parsed age_sql)
    (users_select age_sql) (users_stmt age_sql) [Int 36] 1000 users_served users_planned users_req) as (S & PS & _ & E); [vm_compute; done|].
  exists [[Str (lit "ada")]]. split; [|reflexivity]. rewrite E.
  assert (ES : S = [ada 36 (lit "ada")]).
  { apply Permutation_singleton_r. etrans; [exact PS|]. vm_compute. reflexivity. }
  rewrite ES. vm_compute. reflexivity.
Defined.

(** ** What an index answers and a scan does not

    Two rows, [name] under an ordered index of its own, no write pending. *)
Definition named_def : TableDef := MkTable (lit "users") (t_Columns users_def) [MkIndex [] [lit "name"] true].
Definition named_rt : resolvedTable := match resolve_table named_def with Ok rt => rt | _ => users_rt end.
Definition named_cat : catalog := match newCatalog [named_def] with Ok c => c | _ => demo_cat end.
Definition named_pl (sql : string) : plan :=
  match plan_select (MkTableRT 0 named_rt) (ab_parsed sql) named_cat with Ok pl => pl | _ => blank_plan (SDrop []) None demo_cat end.
Definition named_st (sql : string) : selectStmt := match pl_st (named_pl sql) with SSelect s => s | _ => ab_parsed sql end.
Definition named_rows : tbl_state :=
  let run t r := match run_op 0 named_rt 1000 t (None : option (list (Z * bytes))) (OInsert r users_mj) with Ok (t, _, _) => t | _ => t end in
  run (run t0 [UUIDVal pk1; Null; Str (lit "a")]) [UUIDVal pk2; Int 2; Str (lit "b")].
Definition named_run (sql : string) (args : list Value) : outcome (list Row) :=
  match rebuildIndexes named_rt named_rows [newSecIndex [2%nat] true] with
  | Ok (t, ixs) => execSelect 0 users_sort (2 ^ 43) t ixs (named_pl sql) (named_st sql) named_rt args
  | Err e => Err e
  | Panic => Panic
  end.
(** An argument of another kind than the column's: the binary search of an
    ordered index compares keys by their words first, every entry passes, and the
    exact path re-checks none of them. *)
Example index_answers_another_kind :
  named_run "SELECT name FROM users WHERE name = ?" [Str (lit "b")] = Ok [[Str (lit "b")]] /\
  named_run "SELECT name FROM users WHERE name = ?" [Int 0] = Ok [[Str (lit "a")]; [Str (lit "b")]] /\
  forallb (fun r => negb (matchb (rt_colByName named_rt) [Int 0] (sel_where (named_st "SELECT name FROM users WHERE name = ?")) r)) (rows_of named_rows) = true.
Proof. vm_compute. done. Qed.
(** [col = NULL] holds of a NULL cell in a scan. *)
Example scan_matches_null :
  named_run "SELECT name FROM users WHERE age = ?" [Null] = Ok [[Str (lit "a")]] /\
  named_run "SELECT name FROM users WHERE name = ?" [Null] = Ok [].
Proof. vm_compute. done. Qed.
(** An ordered walk presizes its result by the LIMIT, not by the rows there are. *)
Example walk_presizes_by_limit :
  named_run "SELECT name FROM users ORDER BY name LIMIT 9223372036854775807" [] = Panic /\
  named_run "SELECT name FROM users ORDER BY name LIMIT 9" [] = Ok [[Str (lit "a")]; [Str (lit "b")]].
Proof. vm_compute. done. Qed.
