(* ===== verification/Join.v ===== *)
(** * Join: the two-table join executor of join.go.

    A driver side is read row by row and the other side probed for each, through
    its primary key or an index with the dirty overlay. As in Select, both tables
    are read in one state each. The buffers rows are fetched into are emptied
    before each fetch or only grow, and a row is consumed before the next fetch,
    so a row is the cells it was fetched with. *)
From S2P Require Import Prelude Bytes Order Uuid Value CompositeKey PkMap Schema Catalog SecIndex Store Merge Ast Eval Filter TopN Plan PlanJoin Recovery Select.

(** ** Reading a shard chunk by chunk *)
Fixpoint chunks {A} (fuel n : nat) (l : list A) : list (list A) :=
  match fuel with
  | O => []
  | S fuel => match l with [] => [] | _ => take n l :: chunks fuel n (drop n l) end
  end.
Section scan.
Context (pkHashSeed : Z) (def : resolvedTable) (keep : Row -> outcome bool).
Fixpoint live_keys (rows : list (option Row)) : outcome (list UUID) :=
  match rows with
  | [] => Ok []
  | None :: rows => live_keys rows
  | Some r :: rows => v ← index r (pkOrd def); l ← live_keys rows; Ok (v_UUID v :: l)
  end.
Fixpoint batch_rows (s : tableShard) (pks : list UUID) : outcome (list Row) :=
  match pks with
  | [] => Ok []
  | pk :: pks =>
      g ← lift (pk_get pkHashSeed (s_pk s) pk);
      let '(rowID, ok) := g in
      r ← (if negb ok then Ok None else index (s_rows s) (Z.to_nat rowID));
      b ← match r with Some r => keep r | None => Ok false end;
      l ← batch_rows s pks;
      Ok (match r with Some r => if b : bool then Row_Clone r :: l else l | None => l end)
  end.
Section process.
Context {A : Type} (process : A -> list Row -> outcome (A * bool)).
Fixpoint run_chunks (s : tableShard) (cs : list (list UUID)) (a : A) : outcome (A * bool) :=
  match cs with
  | [] => Ok (a, false)
  | c :: cs =>
      batch ← batch_rows s c;
      x ← (if (0 <? length batch)%nat then process a batch else Ok (a, false));
      if snd x : bool then Ok x else run_chunks s cs (fst x)
  end.
Fixpoint scan_batched (chunk : nat) (shards : list tableShard) (a : A) : outcome A :=
  match shards with
  | [] => Ok a
  | s :: shards =>
      pks ← live_keys (s_rows s);
      x ← run_chunks s (chunks (length pks) chunk pks) a;
      if snd x : bool then Ok (fst x) else scan_batched chunk shards (fst x)
  end.
Definition scanShardsBatched (t : tbl_state) (chunk : nat) (a : A) : outcome A := scan_batched chunk (t_shards t) a.
End process.
End scan.

(** ** Probing *)
Definition rowsCmp (ord : nat) (desc : bool) (a b : Row) : Z :=
  let '(c, ok) := Compare (default Null (a !! ord)) (default Null (b !! ord)) in
  if negb ok then 0 else if desc then - c else c.
Fixpoint projectRows (rows : list Row) (starAll : bool) (ords : list nat) : outcome (list Row) :=
  if starAll then Ok rows
  else match rows with
       | [] => Ok []
       | r :: rows => pr ← get_cells r ords; l ← projectRows rows starAll ords; Ok (pr :: l)
       end.

(** The buffer a probed row is fetched into. *)
Inductive buffer : Type := own_row | reuse_row | collect_row.

Section join.
Context (pkHashSeed : Z) (SortFunc : forall A : Type, (A -> A -> Z) -> list A -> list A).
(** The largest capacities [make] accepts for a []Value and a []Row. *)
Context (maxCells maxRows : Z).
Context (store : tableRT -> tbl_state * list secIndex).
Local Abbreviation tab rt := (fst (store rt)).
Local Abbreviation ixs rt := (snd (store rt)).

Definition fetch (buf : buffer) (rt : tableRT) (pk : UUID) : outcome (option Row) :=
  match buf with
  | own_row => getByPK pkHashSeed (tab rt) pk
  | reuse_row => x ← getByPKProjectInto pkHashSeed (tab rt) pk None []; Ok (if snd x : bool then Some (fst x) else None)
  | collect_row => x ← appendMatchProject pkHashSeed (tab rt) pk None [] true []; Ok (if snd x : bool then Some (fst x) else None)
  end.
Definition probeRows {A} (rt : tableRT) (onOrd : nat) (byPK : bool) (key : Value) (dirty : list UUID) (buf : buffer)
    (fn : A -> Row -> outcome (A * bool)) (a : A) : outcome A :=
  if IsNull key then Ok a
  else if byPK then
    match coerceToUUID key with
    | Ok pk => r ← fetch buf rt pk; match r with Some r => x ← fn a r; Ok (fst x) | None => Ok a end
    | _ => Ok a
    end
  else
    match probeIndexFor (ixs rt) onOrd with
    | None => Ok a
    | Some si =>
        emit (fun a pk =>
          r ← fetch buf rt pk;
          match r with
          | None => Ok (a, false)
          | Some r => c ← index r onOrd; if negb (Equal c key) then Ok (a, false) else fn a r
          end) (MkCand (lookupLeading si key) dirty) a
    end.

(** ** A SELECT with a join *)
Context (pl : plan) (st : selectStmt) (jp : joinPlan) (args : list Value).
Local Abbreviation nLeft := (jp_nLeft jp).
Local Abbreviation nRight := (jp_nRight jp).
Local Abbreviation limit := (sel_limit st).
Local Abbreviation offset := (sel_offset st).
Local Abbreviation starAll := (sel_starAll st).
Local Abbreviation desc := (sel_orderDesc st).
Local Abbreviation ords := (pl_projOrdinals pl).
Definition join_ctx : evalCtx := MkCtx [] ∅ args.
Definition ordered : bool := 0 <=? jp_orderOrdinal jp.
Definition streaming : bool := bool_decide (jp_driverIdx jp = None) && negb ordered.
Definition joinEff : Z := fetchBound limit offset.

(** [left.. right..], NULLs for the padded side. *)
Definition fillConcat (left_ right_ : option Row) : Row :=
  default (replicate nLeft Null) left_ ++ default (replicate nRight Null) right_.
Definition sides (drow prow : Row) : Row :=
  if jp_driverIsLeft jp then fillConcat (Some drow) (Some prow) else fillConcat (Some prow) (Some drow).
(** The scratch row of passDriver: the other side stays zero. *)
Definition driver_row (r : Row) : Row :=
  if jp_driverIsLeft jp then r ++ replicate nRight Null else replicate nLeft Null ++ r.
Definition passDriver (r : Row) : outcome bool :=
  if (length (jp_driverPreds jp) =? 0)%nat then Ok true else conjunctsMatcher (jp_driverPreds jp) ∅ args (driver_row r).
Definition passResidual : predicate := conjunctsMatcher (jp_residualPreds jp) ∅ args.

(** *** Phase 1: the drivers that are gathered *)
Definition keep_driver (acc : outcome (list Row)) (r : Row) : outcome (list Row) * bool :=
  (ds ← acc; b ← passDriver r; Ok (if b : bool then ds ++ [Row_Clone r] else ds), true).
Definition gatherDrivers : outcome (list Row) :=
  match jp_driverIdx jp with
  | Some (ord, src, byPK) =>
      if bool_decide (jp_driverCompWalk jp = None) then
        key ← evalExpr (Some src) join_ctx;
        dirty ← dirtyPKs pkHashSeed (tab (jp_driverRT jp));
        probeRows (jp_driverRT jp) ord byPK key dirty collect_row
          (fun ds dr => b ← passDriver dr; Ok (if b : bool then ds ++ [dr] else ds, false)) []
      else Ok []
  | None =>
      if negb streaming && bool_decide (jp_driverWalk jp = None) then scanAll (tab (jp_driverRT jp)) keep_driver (Ok [])
      else Ok []
  end.

(** *** Phase 2: probe and assemble *)
Section drive.
Context {A : Type} (probeDirty : list UUID) (emit_ : A -> option Row -> option Row -> outcome (A * bool)).
Definition emit_pair (a : A) (drow prow : Row) : outcome (A * bool) :=
  if jp_driverIsLeft jp then emit_ a (Some drow) (Some prow) else emit_ a (Some prow) (Some drow).
Definition probeAndEmit (a : A) (drow : Row) : outcome (A * bool) :=
  key ← index drow (jp_driverOnOrd jp);
  x ← probeRows (jp_probeRT jp) (jp_probeOnOrd jp) (jp_probeByPK jp) key probeDirty reuse_row
        (fun (s : A * bool * bool) prow => y ← emit_pair (fst (fst s)) drow prow; Ok ((fst y, true, snd y), snd y))
        (a, false, false);
  let '(a, matched, stop) := x in
  if stop : bool then Ok (a, true)
  else if negb matched then
    match jp_typ jp with
    | tkLeft => emit_ a (Some drow) None
    | tkRight => emit_ a None (Some drow)
    | _ => Ok (a, false)
    end
  else Ok (a, false).
Fixpoint each_driver (a : A) (drivers : list Row) : outcome (A * bool) :=
  match drivers with
  | [] => Ok (a, false)
  | d :: drivers => x ← probeAndEmit a d; if snd x : bool then Ok x else each_driver (fst x) drivers
  end.
Definition chunk_size : Z :=
  if (0 <=? joinEff) && (joinEff <? 256) then (if joinEff <? 32 then 32 else joinEff) else 256.
Definition drive (drivers : list Row) (a : A) : outcome A :=
  if negb streaming then x ← each_driver a drivers; Ok (fst x)
  else scanShardsBatched pkHashSeed (table (jp_driverRT jp)) passDriver each_driver (tab (jp_driverRT jp)) (Z.to_nat chunk_size) a.
End drive.

Definition out_width : Z := if starAll then Z.of_nat (nLeft + nRight) else zlen ords.
Definition make_out : outcome unit :=
  if 0 <=? joinEff then _ ← make_cells maxCells (s64 (joinEff * out_width)); make_cells maxRows joinEff else Ok tt.
(** A concat row that passes the residual joins the packed result. *)
Definition keep_row (o : packed_out) (row : Row) : outcome packed_out :=
  b ← passResidual row;
  if b : bool then appendProjected ords starAll (0 <=? joinEff) o row else Ok o.
Definition refetch (rt : tableRT) (pk : UUID) : outcome (option Row) := fetch reuse_row rt pk.

(** *** One driver, its probe rows walked in ORDER BY order *)
Definition probe_walk (si : secIndex) (drow : Row) (key : Value) : outcome (list Row) :=
  let prt := jp_probeRT jp in
  x ← buildDirtyCands pkHashSeed SortFunc (tab prt) (fun r => c ← index r (jp_probeOnOrd jp); Ok (Equal c key))
        (fun r => cells ← get_cells r (si_ordinals si); Ok (encodeCompositeKey cells));
  let '(dc, dirtySet) := x in
  snap ← snapshotPrefix si (encodeCompositeKey [key]);
  _ ← make_out;
  let keep o prow := keep_row o (sides drow prow) in
  o ← mergeOrderedStreams dirtySet desc (full joinEff)
        (fun o pk => r ← refetch prt pk; match r with Some r => keep o r | None => Ok o end) keep
        snap dc (MkOut [] []);
  Ok (sliceOffsetLimit (po_out o) offset limit).

(** *** The driver walked in ORDER BY order *)
Definition appendJoined (probeDirty : list UUID) (o : packed_out) (drow : Row) : outcome packed_out :=
  key ← index drow (jp_driverOnOrd jp);
  x ← probeRows (jp_probeRT jp) (jp_probeOnOrd jp) (jp_probeByPK jp) key probeDirty reuse_row
        (fun (s : packed_out * bool) prow =>
           o ← keep_row (fst s) (sides drow prow);
           Ok ((o, true), (0 <=? joinEff) && (zlen (po_out o) >=? joinEff)))
        (o, false);
  let '(o, matched) := x in
  if matched : bool then Ok o
  else match jp_typ jp with
       | tkLeft => keep_row o (fillConcat (Some drow) None)
       | tkRight => keep_row o (fillConcat None (Some drow))
       | _ => Ok o
       end.
Definition driver_walk (probeDirty : list UUID) (snap : list ordEntry) (dirtyKey : Row -> outcome indexKey) : outcome (list Row) :=
  let drt := jp_driverRT jp in
  _ ← make_out;
  x ← buildDirtyCands pkHashSeed SortFunc (tab drt) passDriver dirtyKey;
  let '(dc, dirtySet) := x in
  o ← mergeOrderedStreams dirtySet desc (full joinEff)
        (fun o pk =>
           r ← refetch drt pk;
           match r with
           | Some r => b ← passDriver r; if b : bool then appendJoined probeDirty o r else Ok o
           | None => Ok o
           end)
        (appendJoined probeDirty) snap dc (MkOut [] []);
  Ok (sliceOffsetLimit (po_out o) offset limit).
(** The slice to walk: None when there is no such index, Some None for a NULL in
    the pinned prefix. *)
Definition driver_slice : outcome (option (option (list ordEntry * (Row -> outcome indexKey)))) :=
  let drt := jp_driverRT jp in
  match jp_driverCompWalk jp with
  | Some (os, srcs) =>
      match indexByOrdinals (ixs drt) os with
      | None => Ok None
      | Some si =>
          prefix ← prefix_values srcs join_ctx;
          match prefix with
          | None => Ok (Some None)
          | Some prefix =>
              snap ← snapshotPrefix si (encodeCompositeKey prefix);
              Ok (Some (Some (snap, fun r => cells ← get_cells r (si_ordinals si); Ok (encodeCompositeKey cells))))
          end
      end
  | None =>
      match jp_driverWalk jp with
      | None => Ok None
      | Some ord =>
          match indexFor (ixs drt) ord with
          | None => Ok None
          | Some si => Ok (Some (Some (snapshot si, fun r => v ← index r ord; Ok (keyOf v))))
          end
      end
  end.

(** *** Sorted or gathered *)
Definition offer_pair (top : topN) (left_ right_ : option Row) : outcome (topN * bool) :=
  let row := fillConcat left_ right_ in
  b ← passResidual row;
  top ← (if b : bool then offer (Z.to_nat (jp_orderOrdinal jp)) desc joinEff (projOrNil starAll ords) top row else Ok top);
  Ok (top, false).
Definition gather_pair (out : list Row) (left_ right_ : option Row) : outcome (list Row * bool) :=
  let row := fillConcat left_ right_ in
  b ← passResidual row;
  if negb b then Ok (out, false)
  else let out := out ++ [row] in Ok (out, negb ordered && (0 <=? joinEff) && (zlen out >=? joinEff)).
Definition join_rows (probeDirty : list UUID) (drivers : list Row) : outcome (list Row) :=
  if ordered && (0 <=? limit) then
    top ← drive probeDirty offer_pair drivers topN_empty;
    Ok (sliceOffsetLimit (sorted_rows desc (SortFunc topEntry) top) offset limit)
  else
    out ← drive probeDirty gather_pair drivers [];
    let out := if ordered then SortFunc Row (rowsCmp (Z.to_nat (jp_orderOrdinal jp)) desc) out else out in
    projectRows (sliceOffsetLimit out offset limit) starAll ords.

Definition execJoin : outcome (list Row) :=
  if limit =? 0 then Ok []
  else
    drivers ← gatherDrivers;
    probeDirty ← dirtyPKs pkHashSeed (tab (jp_probeRT jp));
    let walk_driver :=
      slice ← driver_slice;
      match slice with
      | None => join_rows probeDirty drivers
      | Some None => Ok []
      | Some (Some (snap, dirtyKey)) => driver_walk probeDirty snap dirtyKey
      end in
    match jp_probeWalk jp, drivers with
    | Some os, [drow] =>
        if ordered then
          key ← index drow (jp_driverOnOrd jp);
          if IsNull key then Ok []
          else match indexByOrdinals (ixs (jp_probeRT jp)) os with
               | Some si => probe_walk si drow key
               | None => walk_driver
               end
        else walk_driver
    | _, _ => walk_driver
    end.
End join.
