(* ===== verification/Query.v ===== *)
(** * Query: the read entry points of db_query.go, query_stream.go and stmt.go,
    from SQL text and arguments to rows, on tables without a partition key.

    [store] holds the state of every table. Column names are the plan's. *)
From S2P Require Import Prelude Bytes Order Uuid Value CompositeKey PkMap Schema Catalog SecIndex Store Merge Ast Eval Filter TopN Plan PlanJoin Recovery Select Join.

(** ** Arguments *)
(** A Go value of type any, as toValue tells them apart. *)
Inductive goAny : Type :=
  | g_nil
  | g_int (z : Z)
  | g_int64 (z : Z)
  | g_int32 (z : Z)
  | g_string (s : bytes)
  | g_bytes (s : bytes)
  | g_bool (b : bool)
  | g_uuid (u : UUID)
  | g_value (v : Value)
  | g_other.
Definition toValue (a : goAny) : outcome Value :=
  match a with
  | g_nil => Ok Null
  | g_int z | g_int64 z | g_int32 z => Ok (Int z)
  | g_string s => Ok (Str s)
  | g_bytes s => Ok (Bytes (cloneBytes s))
  | g_bool b => Ok (Bool b)
  | g_uuid u => Ok (UUIDVal u)
  | g_value v => Ok (cloneValue v)
  | g_other => Err ErrTypeMismatch
  end.
Fixpoint toValues (args : list goAny) : outcome (list Value) :=
  match args with
  | [] => Ok []
  | a :: args => v ← toValue a; l ← toValues args; Ok (v :: l)
  end.
Definition checkArgs (pl : plan) (n : Z) : outcome unit := if n =? pl_nparams pl then Ok tt else Err ErrParamMismatch.
(** None sends the caller down the generic path. *)
Definition pkKeyFromArgs (pl : plan) (args : list goAny) : outcome (option Value) :=
  if negb (zlen args =? pl_nparams pl) then Ok None
  else match pkSource (pl_access pl) with
       | Some (paramRef i) =>
           if negb (pl_nparams pl =? 1) || negb (i =? 0) then Ok None
           else a ← index args 0; v ← toValue a; Ok (Some v)
       | Some (litValue v) => if negb (pl_nparams pl =? 0) then Ok None else Ok (Some v)
       | _ => Ok None
       end.
Definition lit_source (e : option expr) (args : list Value) : outcome Value :=
  match e with Some e => evalLitOrParamValue e args | None => Err errInternal end.

Section query.
Context (pkHashSeed : Z) (SortFunc : forall A : Type, (A -> A -> Z) -> list A -> list A).
Context (maxCells maxRows : Z).
Context (store : tableRT -> tbl_state * list secIndex).

(** ** Running a SELECT plan *)
Section plan.
Context (pl : plan) (st : selectStmt) (rt : tableRT).
Local Abbreviation acc := (pl_access pl).
Local Abbreviation t := (fst (store rt)).
Local Abbreviation ixs := (snd (store rt)).
Local Abbreviation def := (table rt).
Definition runSelect (args : list Value) : outcome (list Row) :=
  match pl_joinPlan pl with
  | Some jp => execJoin pkHashSeed SortFunc maxCells maxRows store pl st jp args
  | None => execSelect pkHashSeed SortFunc maxCells t ixs pl st def args
  end.

Section stream.
Context {A : Type} (visit : A -> Row -> A * bool).
Fixpoint replay (rows : list Row) (a : A) : A :=
  match rows with
  | [] => a
  | r :: rows => let '(a, go) := visit a r in if go : bool then replay rows a else a
  end.
(** A live row under its shard lock: WHERE, OFFSET, projection, visit, LIMIT;
    true to stop. *)
Definition consume (args : list Value) (o : stream) (r : Row) : outcome (stream * bool) :=
  b ← matcher st def args r;
  if negb b then Ok (o, false) else o ← deliver pl st visit o r; Ok (o, sm_stop o).
Definition consume_pk (args : list Value) (o : stream) (pk : UUID) : outcome (stream * bool) :=
  r ← live_row_at pkHashSeed t pk;
  match r with None => Ok (o, false) | Some r => consume args o r end.
Definition consume_row (args : list Value) (acc : outcome (stream (A := A))) (r : Row) : outcome stream * bool :=
  match (o ← acc; consume args o r) with
  | Ok (o, stop) => (Ok o, negb stop)
  | Err e => (Err e, false)
  | Panic => (Panic, false)
  end.
Definition stream_candidates (args : list Value) (cand : option idxCandidateSet) (a : A) : outcome A :=
  match cand with
  | None => Ok a
  | Some cand => o ← emit (consume_pk args) cand (MkStream a 0 0 false); Ok (sm_state o)
  end.
Definition streamSelect (args : list Value) (a : A) : outcome A :=
  if compWalk acc then execSelectCompositeWalkEach pkHashSeed SortFunc t ixs pl st def visit args a
  else if orderWalk acc then execSelectOrderedWalkEach pkHashSeed SortFunc t ixs pl st def visit args a
  else if (0 <=? pl_orderOrdinal pl) || pkLookup acc || negb (bool_decide (pl_joinPlan pl = None)) then
    rows ← runSelect args; Ok (replay rows a)
  else if sel_limit st =? 0 then Ok a
  else if idxLookup acc then
    cand ← idxCandidates pkHashSeed t ixs pl (sel_ctx def args);
    stream_candidates args cand a
  else if compLookup acc then
    cand ← compositeCandidates pkHashSeed t ixs pl (sel_ctx def args);
    stream_candidates args cand a
  else match pkProbe acc with
  | Some src =>
      keyVal ← evalExpr (Some src) (sel_ctx def args);
      if IsNull keyVal then Ok a
      else
        pk ← coerceToUUID keyVal;
        r ← getByPK pkHashSeed t pk;
        match r with
        | None => Ok a
        | Some r => x ← consume args (MkStream a 0 0 false) r; Ok (sm_state (fst x))
        end
  | None => o ← scanAll t (consume_row args) (Ok (MkStream a 0 0 false)); Ok (sm_state o)
  end.
End stream.

(** ** COUNT *)
Definition countRows (args : list Value) : outcome Z :=
  if pkLookup acc then
    keyVal ← lit_source (pkSource acc) args;
    rows ← execSelectPK pkHashSeed t pl st keyVal;
    Ok (zlen rows)
  else
    fast ← (if countIdxBucket acc then
              src ← index (idxSrcs acc) 0;
              keyVal ← evalLitOrParamValue src args;
              if IsNull keyVal then Ok (Some 0)
              else
                ord ← index (idxCols acc) 0;
                Ok (match indexFor ixs ord with Some si => Some (countKey si keyVal) | None => None end)
            else Ok None);
    match fast with
    | Some n => Ok n
    | None => streamSelect (fun n _ => (n + 1, true)) args 0
    end.
Definition selectEach {A} (visit : A -> Row -> A * bool) (args : list Value) (a : A) : outcome A :=
  args ← coerceParams (pl_paramWantUUID pl) args;
  if pl_countStar pl then n ← countRows args; Ok (fst (visit a [Int n])) else streamSelect visit args a.
Definition queryPlanV (args : list Value) : outcome (list Row) :=
  _ ← checkArgs pl (zlen args);
  args ← coerceParams (pl_paramWantUUID pl) args;
  if pl_countStar pl then n ← countRows args; Ok [[Int n]]
  else if pkLookup acc then keyVal ← lit_source (pkSource acc) args; execSelectPK pkHashSeed t pl st keyVal
  else if idxLookup acc then execSelectIdx pkHashSeed SortFunc t ixs pl st def args
  else runSelect args.
Definition queryRowPlanV (args : list Value) : outcome (option Row) :=
  _ ← checkArgs pl (zlen args);
  args ← coerceParams (pl_paramWantUUID pl) args;
  if pl_countStar pl then n ← countRows args; Ok (Some [Int n])
  else if pkLookup acc then keyVal ← lit_source (pkSource acc) args; execSelectPKOne pkHashSeed t pl st keyVal
  else if idxLookup acc && (pl_orderOrdinal pl <? 0) && (sel_offset st =? 0) then execSelectIdxOne pkHashSeed t ixs pl st def args
  else rows ← runSelect args; Ok (head rows).

(** A lone UUID bound to the PK parameter skips the conversion. *)
Definition direct_uuid (args : list goAny) : option UUID :=
  match args, pkSource acc with
  | [g_uuid u], Some (paramRef _) => if pl_nparams pl =? 1 then Some u else None
  | _, _ => None
  end.
Definition queryPlan (args : list goAny) : outcome (list Row) :=
  let generic := vargs ← toValues args; queryPlanV vargs in
  if pkLookup acc && negb (pl_countStar pl) then
    match direct_uuid args with
    | Some u => execSelectPKResolved pkHashSeed t pl st u
    | None =>
        key ← pkKeyFromArgs pl args;
        match key with Some keyVal => execSelectPK pkHashSeed t pl st keyVal | None => generic end
    end
  else generic.
Definition queryRowPlan (args : list goAny) : outcome (option Row) :=
  let generic := vargs ← toValues args; queryRowPlanV vargs in
  if pkLookup acc && negb (pl_countStar pl) then
    match direct_uuid args with
    | Some u => execSelectPKOneResolved pkHashSeed t pl st u
    | None =>
        key ← pkKeyFromArgs pl args;
        match key with Some keyVal => execSelectPKOne pkHashSeed t pl st keyVal | None => generic end
    end
  else generic.

(** ** Point reads of a prepared statement *)
(** The predicate records an evaluation error, which the caller returns. *)
Definition strict_match (args : list Value) (r : Row) : outcome bool :=
  v ← evalExpr (sel_where st) (MkCtx r (rt_colByName def) args); Ok (truthy v).
Fixpoint first_into (pks : list UUID) (args dst : list Value) : outcome (option Row) :=
  match pks with
  | [] => Ok None
  | pk :: pks =>
      x ← getMatchProjectInto pkHashSeed t pk (strict_match args) (pl_projOrdinals pl) (sel_starAll st) dst;
      if snd x : bool then Ok (Some (fst x)) else first_into pks args dst
  end.
Definition queryRowByIndex (key : Value) (dst : list Value) : outcome (option Row) :=
  if negb (idxLookup acc) || negb (length (idxCols acc) =? 1)%nat || (0 <=? pl_orderOrdinal pl) || negb (sel_offset st =? 0) || negb (sel_limit st =? 1)
  then Err errUsage
  else
    src ← index (idxSrcs acc) 0;
    keyVal ← evalExpr (Some src) (sel_ctx def [key]);
    if IsNull keyVal then Ok None
    else
      ord ← index (idxCols acc) 0;
      match indexFor ixs ord with
      | None => Ok None
      | Some si =>
          r ← first_into (lookup si (keyOf keyVal)) [key] dst;
          match r with
          | Some r => Ok (Some r)
          | None => d ← dirtyPKs pkHashSeed t; first_into d [key] dst
          end
      end.
End plan.
Definition queryRowByPK (pl : plan) (rt : tableRT) (pk : UUID) (dst : list Value) : outcome (list Value * bool) :=
  if negb (pkLookup (pl_access pl)) then Err errUsage
  else getByPKProjectInto pkHashSeed (fst (store rt)) pk
         (if (length (pl_projOrdinals pl) =? 0)%nat then None else Some (pl_projOrdinals pl)) dst.

(** ** The database handle *)
Record dbh : Type := MkDbh {
  db_closed : bool;
  db_cat : catalog;
  db_cache : gmap bytes plan;
}.
Context (stack : nat) (mapLower : bytes -> bytes) (live : tableRT -> Z).
Definition with_cache (db : dbh) (cache : gmap bytes plan) : dbh := MkDbh (db_closed db) (db_cat db) cache.
Definition prepared (db : dbh) (sql : bytes) {A} (k : plan -> outcome A) : dbh * outcome A :=
  match prepare stack mapLower live (db_closed db) sql (db_cat db) (db_cache db) with
  | Ok (pl, cache) => (with_cache db cache, k pl)
  | Err e => (db, Err e)
  | Panic => (db, Panic)
  end.
(** [pl.st.(type)] with the SELECT's table. *)
Definition on_select {A} (pl : plan) (k : selectStmt -> tableRT -> outcome A) : outcome A :=
  match pl_st pl with
  | SSelect st => match pl_rt pl with Some rt => k st rt | None => Panic end
  | _ => Err errUsage
  end.
Definition Query (db : dbh) (sql : bytes) (args : list goAny) : dbh * outcome (list bytes * list Row) :=
  prepared db sql (fun pl => on_select pl (fun st rt => rows ← queryPlan pl st rt args; Ok (pl_colNames pl, rows))).
Definition QueryRow (db : dbh) (sql : bytes) (args : list goAny) : dbh * outcome (list bytes * option Row) :=
  prepared db sql (fun pl => on_select pl (fun st rt => row ← queryRowPlan pl st rt args; Ok (pl_colNames pl, row))).
Definition QueryValues (db : dbh) (sql : bytes) (args : list Value) : dbh * outcome (list bytes * list Row) :=
  prepared db sql (fun pl => on_select pl (fun st rt => rows ← queryPlanV pl st rt args; Ok (pl_colNames pl, rows))).
Definition QueryRowValues (db : dbh) (sql : bytes) (args : list Value) : dbh * outcome (list bytes * option Row) :=
  prepared db sql (fun pl => on_select pl (fun st rt => row ← queryRowPlanV pl st rt args; Ok (pl_colNames pl, row))).
Definition QueryEach {A} (db : dbh) (sql : bytes) (args : list Value) (visit : A -> list bytes -> Row -> A * bool) (a : A) : dbh * outcome A :=
  prepared db sql (fun pl => on_select pl (fun st rt => selectEach pl st rt (fun a row => visit a (pl_colNames pl) row) args a)).

(** ** Prepared statements *)
Record Stmt : Type := MkStmt {
  sm_sql : bytes;
  sm_pl : plan;
}.
Definition Prepare (db : dbh) (sql : bytes) : dbh * outcome Stmt := prepared db sql (fun pl => Ok (MkStmt sql pl)).
(** The held plan, bound anew when the catalog has changed. *)
Definition bound_plan (db : dbh) (s : Stmt) : dbh * outcome Stmt :=
  if db_closed db then (db, Err ErrClosed)
  else if pl_catVersion (sm_pl s) =? version (db_cat db) then (db, Ok s)
  else prepared db (sm_sql s) (fun pl => Ok (MkStmt (sm_sql s) pl)).
Definition with_plan {A} (db : dbh) (s : Stmt) (k : plan -> outcome A) : dbh * Stmt * outcome A :=
  match bound_plan db s with
  | (db, Ok s) => (db, s, k (sm_pl s))
  | (db, Err e) => (db, s, Err e)
  | (db, Panic) => (db, s, Panic)
  end.
Definition Stmt_Query (db : dbh) (s : Stmt) (args : list goAny) : dbh * Stmt * outcome (list bytes * list Row) :=
  with_plan db s (fun pl => on_select pl (fun st rt => rows ← queryPlan pl st rt args; Ok (pl_colNames pl, rows))).
Definition Stmt_QueryRow (db : dbh) (s : Stmt) (args : list goAny) : dbh * Stmt * outcome (list bytes * option Row) :=
  with_plan db s (fun pl => on_select pl (fun st rt => row ← queryRowPlan pl st rt args; Ok (pl_colNames pl, row))).
Definition Stmt_QueryRowByPK (db : dbh) (s : Stmt) (pk : UUID) (dst : list Value) : dbh * Stmt * outcome (list Value * bool) :=
  with_plan db s (fun pl => match pl_rt pl with Some rt => queryRowByPK pl rt pk dst | None => if pkLookup (pl_access pl) then Panic else Err errUsage end).
Definition Stmt_QueryRowByIndex (db : dbh) (s : Stmt) (key : Value) (dst : list Value) : dbh * Stmt * outcome (option Row) :=
  with_plan db s (fun pl => on_select pl (fun st rt => queryRowByIndex pl st rt key dst)).
End query.
