(* ===== verification/QueryOk.v ===== *)
(** * QueryOk: what the read entry points promise — streams visit an answer,
    counts count the matching rows, and the statement cache is transparent. *)
From S2P Require Import Prelude Bytes Order Uuid Value CompositeKey PkMap Codec Frame Journal Schema Catalog SecIndex IndexOk Store StoreOk StoreSim Merge MergeOk MergeSafe Ast Eval Filter TopN TopNOk Plan PlanJoin PlanOk PlanJoinOk Recovery Replayer RecoveryOk Select SelectOk CandOk WalkOk SelectSound SelectMain Join Query.

(** ** Streams *)
Section streams.
Context (pkHashSeed : Z) (def : resolvedTable) (ck : nat -> ValueKind).
Local Abbreviation ncols := (length (t_Columns (rt_def def))).
Context (t : tbl_state) (ixs : list secIndex) (g : gmap UUID Row) (d : list UUID).
Hypothesis R : readable pkHashSeed def ck t ixs g d.
Context (SortFunc : forall A : Type, (A -> A -> Z) -> list A -> list A) {sorts : forall A, SortsFunc (SortFunc A)}.
Context (maxCells maxRows : Z) (store : tableRT -> tbl_state * list secIndex) (rt : tableRT).
Hypothesis Hstore : store rt = (t, ixs).
Hypothesis Hdef : table rt = def.
Context (pl : plan) (st : selectStmt) (args : list Value).
Hypothesis P : sound_plan def t pl st args.
Local Abbreviation limit := (sel_limit st).
Local Abbreviation offset := (sel_offset st).
Local Abbreviation proj := (projOrNil (sel_starAll st) (pl_projOrdinals pl)).
Local Abbreviation mb := (mb def st args).
Local Abbreviation matching := (matching t mb).
Local Abbreviation answers := (answers def t pl st args).

Section visit.
Context {A : Type} (visit : A -> Row -> A * bool).
Local Abbreviation run_items := (run sm_stop (stream_emit pkHashSeed t pl st visit (Some (matcher st def args))) (deliver pl st visit)).
Local Abbreviation visit_rows := (visit_rows visit).
Lemma replay_visit rows : forall a, replay visit rows a = visit_rows a rows.
Proof. induction rows as [|r rows IH]; intros a; cbn; [done|]. destruct (visit a r) as [b []]; [apply IH|done]. Qed.
Lemma consume_pk_step o pk : consume_pk pkHashSeed store pl st rt visit args o pk =
  (o' ← stream_emit pkHashSeed t pl st visit (Some (matcher st def args)) o pk; Ok (o', if g !! pk is Some r then (if mb r then sm_stop o' else false) else false)).
Proof.
  unfold consume_pk, stream_emit. rewrite Hstore. cbn [fst]. rewrite (rd_get _ _ _ _ _ _ (rd_stored _ _ _ _ _ _ _ R)), !ok_bind.
  destruct (g !! pk) as [r|] eqn:Eg; [|done]. unfold consume. rewrite Hdef, (where_decides def ck t pl st args P r (rd_good _ _ _ _ _ _ _ R pk r Eg)), !ok_bind.
  destruct (mb r); cbn [negb]; [|done]. by destruct (deliver pl st visit o r).
Qed.
Lemma run_stopped {B} (done : B -> bool) f h l (o : B) : done o = true -> run done f h l o = Ok o.
Proof. intros H. destruct l as [|[k x] l]; [done|]. cbn [run]. by rewrite H. Qed.
Lemma each_items l : forall o, sm_stop o = false ->
  (x ← each_pk (consume_pk pkHashSeed store pl st rt visit args) l o; Ok (fst x)) = run_items (map (fun pk => (keyOf Null, inl pk)) l) o.
Proof.
  induction l as [|pk l IH]; intros o Ho; [done|]. cbn [each_pk map run]. rewrite Ho, consume_pk_step.
  rewrite (stream_emit_ok pkHashSeed def ck t ixs g d R pl st visit _ mb o pk (where_decides def ck t pl st args P)).
  destruct (g !! pk) as [r|] eqn:Eg; [destruct (mb r)|]; rewrite ?ok_bind; cbn [fst snd]; try (by apply IH).
  destruct (deliver pl st visit o r) as [o'| |]; [|done..]. rewrite !ok_bind. cbn [fst snd]. destruct (sm_stop o') eqn:Es; [|by apply IH].
  by rewrite run_stopped.
Qed.
Lemma window_to_come (a : A) rows : to_come pl st (MkStream a 0 0 false) rows = map (shown proj) (window st rows).
Proof.
  unfold to_come, window. cbn [sm_n sm_skipped]. rewrite Z.sub_0_r. unfold upto. cbn [Z.to_nat]. rewrite Nat.sub_0_r.
  destruct (Z.leb_spec 0 limit), (Z.ltb_spec limit 0); try lia; done.
Qed.
Lemma window_map (f : Row -> Row) rows : window st (map f rows) = map f (window st rows).
Proof. unfold window. cbv zeta. destruct (limit <? 0); change (map f) with (fmap (M := list) f); by rewrite ?fmap_take, fmap_drop. Qed.
Lemma open_start (a : A) : limit <> 0 -> open_stream st (MkStream a 0 0 false).
Proof. intros Hl. pose proof (sp_offset _ _ _ _ _ P). split_and!; cbn; lia || done. Qed.
(** A stream over candidates that give the matching rows. *)
Lemma candidates_stream l a : limit <> 0 -> exists o, (x ← each_pk (consume_pk pkHashSeed store pl st rt visit args) l (MkStream a 0 0 false); Ok (fst x)) = Ok o /\
  sm_state o = visit_rows a (map (shown proj) (window st (hits g mb l))).
Proof.
  intros Hl. rewrite each_items by done. set (items := map _ l).
  destruct (stream_rows pkHashSeed def ck t ixs g d R pl st args P visit (Some (matcher st def args)) mb items (where_decides def ck t pl st args P))
    with (o := MkStream a 0 0 false) as (o & E & Es).
  - intros x r (pk & -> & _)%list_elem_of_fmap. unfold item_row. cbn [snd]. destruct (g !! pk) as [r'|] eqn:Eg; [|done]. destruct (mb r'); [|done]. intros [= <-]. by apply (rd_good _ _ _ _ _ _ _ R pk).
  - by apply open_start.
  - exists o. split; [done|]. rewrite Es, window_to_come. do 3 f_equal. unfold items, hits. clear. induction l as [|pk l IH]; [done|]. cbn [map omap list_omap]. unfold item_row at 1. cbn [snd].
    destruct (g !! pk) as [r|]; [|apply IH]. rewrite list.filter_cons. destruct (mb r); [rewrite decide_True by done|rewrite decide_False by done]; [f_equal; apply IH|apply IH].
Qed.
(** A stream over the scanned rows. *)
Lemma scan_items rows : Forall (good def ck) rows -> forall o, sm_stop o = false ->
  fst (scan_rows (Some <$> rows) (consume_row pl st rt visit args) (Ok o)) = run_items (map (fun r => (keyOf Null, inr r)) (filter (fun r => mb r = true) rows)) o.
Proof.
  induction 1 as [|r rows Hr _ IH]; intros o Ho; [done|]. cbn [fmap list_fmap scan_rows]. unfold consume_row at 1. rewrite ok_bind. unfold consume.
  rewrite Hdef, (where_decides def ck t pl st args P r Hr), ok_bind, list.filter_cons. destruct (mb r); cbn [negb]; [rewrite decide_True by done|rewrite decide_False by done; by apply IH].
  cbn [map run]. rewrite Ho. destruct (deliver pl st visit o r) as [o'|e|] eqn:Ed; rewrite ?ok_bind; [|done..]. destruct (sm_stop o') eqn:Es; cbn [negb]; [|by apply IH].
  by rewrite run_stopped.
Qed.
Hypothesis pk_in : (pkOrd def < ncols)%nat.
Lemma scan_stream a : limit <> 0 -> exists o, scanAll t (consume_row pl st rt visit args) (Ok (MkStream a 0 0 false)) = Ok o /\
  sm_state o = visit_rows a (map (shown proj) (window st matching)).
Proof.
  intros Hl. rewrite (scanAll_rows def t pk_in).
  rewrite scan_items; [|apply list.Forall_forall; apply (scan_good pkHashSeed def ck t ixs g d R)|done]. fold matching. set (items := map _ matching).
  destruct (stream_rows pkHashSeed def ck t ixs g d R pl st args P visit (Some (matcher st def args)) mb items (where_decides def ck t pl st args P))
    with (o := MkStream a 0 0 false) as (o & E & Es).
  - intros x r (r' & -> & Hr)%list_elem_of_fmap. unfold item_row. cbn [snd]. intros [= <-]. apply (matching_elem _ _ _ _ _ _ _ R) in Hr as (_ & pk & Hg). by apply (rd_good _ _ _ _ _ _ _ R pk).
  - by apply open_start.
  - exists o. split; [done|]. rewrite Es, window_to_come. do 3 f_equal. unfold items. clear. induction matching as [|r l IH]; [done|]. cbn [map omap list_omap]. unfold item_row at 1. cbn [snd]. f_equal. apply IH.
Qed.
End visit.

(** *** Every path *)
Hypothesis Hrt : resolved_ok (rt_def def) def.
Hypothesis rows_fit : forall pk r, g !! pk = Some r -> row_fits (t_Columns (rt_def def)) r.
Hypothesis pk_in : (pkOrd def < ncols)%nat.
Context (hasOrder count : bool).
Hypothesis Hplan : plan_select_path def (sel_where st) hasOrder (pl_orderOrdinal pl) count = Ok (pl_access pl).
Hypothesis Hpart : partitioned def = false.
Hypothesis Hwhere : forall w, sel_where st = Some w -> named def w.
Hypothesis Hpins : Forall (pin_ok ck args) (access_pins def (pl_access pl)).
Hypothesis Hkind : ck (pkOrd def) = KindUUID.
Hypothesis Hnn : not_null def (pkOrd def).
Hypothesis Hjoin : pl_joinPlan pl = None.
Hypothesis Hfit : walk_fits def pl st maxCells.
Local Abbreviation exact_pks := (exact_pks def g d args (access_pins def (pl_access pl))).

Lemma run_answers : answers (runSelect pkHashSeed SortFunc maxCells maxRows store pl st rt args).
Proof.
  unfold runSelect. rewrite Hjoin, Hstore, Hdef. cbn [fst snd].
  by apply (planned_answers pkHashSeed def ck Hrt t ixs g d R rows_fit SortFunc maxCells pl st args P hasOrder count Hplan Hpart Hwhere Hpins Hkind Hnn).
Qed.
Lemma answers_Ok o : answers o -> exists rows, o = Ok rows /\ answers (Ok rows).
Proof. intros (S & PS & HS & ->). eexists. split; [done|]. by exists S. Qed.
Lemma unordered S : S ≡ₚ matching -> pl_orderOrdinal pl < 0 -> answers (Ok (map (shown proj) (window st S))).
Proof. intros PS Hneg. exists S. split_and!; [done|lia|by rewrite window_map]. Qed.

Section visit.
Context {A : Type} (visit : A -> Row -> A * bool).
(** The visitor folded over what runSelect returns. *)
Definition streams (o : outcome A) (a : A) : Prop :=
  exists rows, runSelect pkHashSeed SortFunc maxCells maxRows store pl st rt args = Ok rows /\ o = Ok (visit_rows visit a rows).
Lemma streams_run rows a : runSelect pkHashSeed SortFunc maxCells maxRows store pl st rt args = Ok rows -> streams (Ok (visit_rows visit a rows)) a.
Proof. intros E. by exists rows. Qed.
(** Where at most one row matches, any answer is what runSelect returns. *)
Lemma streams_single rows a : (length matching <= 1)%nat -> answers (Ok rows) -> streams (Ok (visit_rows visit a rows)) a.
Proof. intros Hl A'. apply streams_run. apply (answers_single def t pl st args _ _ Hl run_answers A'). Qed.
Lemma at_most_one u : (forall pk r, g !! pk = Some r -> mb r = true -> pk = u) -> (length matching <= 1)%nat.
Proof.
  intros Hu. rewrite <- (hits_all pkHashSeed def ck t ixs g d R mb [u]); [|apply NoDup_singleton|intros pk r Hg Hm; rewrite (Hu pk r Hg Hm); by left].
  rewrite hits_cons. destruct (g !! u) as [r|]; [destruct (mb r)|]; cbn; lia.
Qed.
Lemma streams_none a : matching = [] -> streams (Ok a) a.
Proof. intros E. apply (streams_single []); [rewrite E; cbn; lia|by apply (answers_none def t pl st args)]. Qed.
(** Materialized and streamed candidates. *)
Lemma overlay_streams w pks a : sel_where st = Some w -> limit <> 0 -> pl_orderOrdinal pl < 0 -> exact_pks pks ->
  (idxExact (pl_access pl) = true -> access_rest (pl_access pl) w = []) ->
  exists rows, (cand ← with_overlay pkHashSeed t pks; match cand with None => Ok [] | Some cand => execCandidates pkHashSeed SortFunc t pl st def args cand end) = Ok rows /\
    (cand ← with_overlay pkHashSeed t pks; stream_candidates pkHashSeed store pl st rt visit args cand a) = Ok (visit_rows visit a rows).
Proof.
  intros Ew Hl Hneg [Hn Hx] Hrest. rewrite (overlay_ok def ck pkHashSeed t ixs g d R), !ok_bind.
  destruct (Nat.eqb_spec (length pks) 0) as [E1|E1], (Nat.eqb_spec (length d) 0) as [E2|E2]; cbn [andb stream_candidates].
  { by exists []. }
  all: set (cand := MkCand pks d); rewrite (candidates_unordered pkHashSeed def ck t ixs g d R SortFunc pl st args P cand Hneg Hl).
  all: try (eexists; split; [reflexivity|]; rewrite emit_visits; destruct (candidates_stream visit (visited cand) a Hl) as (o & -> & Es); by rewrite ok_bind, Es, window_map).
  all: intros Ex Ed pk r Hpk Hg; apply (planned_sound pkHashSeed def ck Hrt t ixs g d R pl st args P hasOrder count Hplan Hwhere w pk r Ew Hg); rewrite (Hrest Ex); split; [|constructor].
  all: apply (Hx pk r Hg); [|done]; cbn in Ed; rewrite Ed; by intros ?%elem_of_nil.
Qed.
Lemma streams_zero a : limit = 0 -> streams (Ok a) a.
Proof.
  intros Hz. destruct (answers_Ok _ run_answers) as (rows & E & (S & _ & _ & [= ->])). apply (streams_run []). rewrite E. unfold window. by rewrite Hz.
Qed.
Lemma walk_stream kd rk w a : walk_ok def t g d pl st args kd rk w ->
  runSelect pkHashSeed SortFunc maxCells maxRows store pl st rt args = orderedWalk pkHashSeed SortFunc maxCells t pl st def args w ->
  streams (orderedWalkEach pkHashSeed SortFunc t pl st def visit args w a) a.
Proof.
  intros W Er. destruct (walk_streams pkHashSeed def ck t ixs g d R SortFunc pl st args P visit maxCells kd rk w a W Hfit) as (rows & E & ->).
  apply streams_run. by rewrite Er.
Qed.
(** A path that pins the primary key lets one row through. *)
Lemma pinned_key_only w src rest : sel_where st = Some w -> access_pins def (pl_access pl) = (Z.to_nat (rt_pkOrdinal def), src) :: rest ->
  exists v, forall pk r, g !! pk = Some r -> mb r = true -> pk = v_UUID v.
Proof.
  intros Ew Epin. destruct (pk_pin def ck pl args Hpins Hkind src rest Epin) as (v & Hv & _). exists v. intros pk r Hg Hm.
  apply (planned_sound pkHashSeed def ck Hrt t ixs g d R pl st args P hasOrder count Hplan Hwhere w pk r Ew Hg) in Hm as [Hp _]. rewrite Epin in Hp.
  apply Forall_cons_1 in Hp as [Hp _]. by apply (pk_pinned pkHashSeed def ck t ixs g d R rows_fit args Hkind Hnn src v pk r Hv Hg).
Qed.
Lemma probe_stream w src a : sel_where st = Some w -> pl_access pl = set_pkProbe scan_path src -> limit <> 0 -> pl_orderOrdinal pl < 0 ->
  streams (keyVal ← evalExpr (Some src) (sel_ctx def args);
    if IsNull keyVal then Ok a
    else
      pk ← coerceToUUID keyVal;
      r ← getByPK pkHashSeed t pk;
      match r with
      | None => Ok a
      | Some r => x ← consume pl st rt visit args (MkStream a 0 0 false) r; Ok (sm_state (fst x))
      end) a.
Proof.
  intros Ew Ea Hl Hneg. destruct (pk_pin def ck pl args Hpins Hkind src []) as (v & Hv & Hok & Kv & ->); [by rewrite Ea|].
  rewrite ok_bind. unfold IsNull. rewrite bool_decide_false by congruence. unfold coerceToUUID. rewrite Kv, ok_bind, getByPK_live.
  assert (Hu : forall pk r, g !! pk = Some r -> mb r = true -> pk = v_UUID v).
  { intros pk r Hg [Hp _]%(planned_sound pkHashSeed def ck Hrt t ixs g d R pl st args P hasOrder count Hplan Hwhere w pk r Ew Hg). rewrite Ea in Hp.
    unfold access_pins in Hp. cbn in Hp. apply Forall_cons_1 in Hp as [Hp _]. by apply (pk_pinned pkHashSeed def ck t ixs g d R rows_fit args Hkind Hnn src v pk r Hv Hg). }
  destruct (candidates_stream visit [v_UUID v] a Hl) as (o & E & Es).
  assert (Eo : forall r, g !! v_UUID v = Some r -> (x ← consume pl st rt visit args (MkStream a 0 0 false) r; Ok (sm_state (fst x))) = Ok (sm_state o)).
  { intros r Eg. cbn [each_pk] in E. unfold consume_pk in E. rewrite Hstore in E. cbn [fst] in E. rewrite (rd_get _ _ _ _ _ _ (rd_stored _ _ _ _ _ _ _ R)), ok_bind, Eg in E.
    destruct (consume _ _ _ _ _ _ r) as [[o' stop]| |]; try done. destruct stop; cbn in E |- *; congruence. }
  assert (Hs : streams (Ok (sm_state o)) a).
  { rewrite Es. apply streams_single; [by eapply at_most_one|]. apply unordered; [|done]. apply (hits_all pkHashSeed def ck t ixs g d R); [apply NoDup_singleton|].
    intros pk r Hg Hm. rewrite (Hu pk r Hg Hm). by left. }
  rewrite (rd_get _ _ _ _ _ _ (rd_stored _ _ _ _ _ _ _ R)), ok_bind. destruct (g !! v_UUID v) as [r|] eqn:Eg; rewrite ok_bind.
  - rewrite Row_Clone_ok by apply (rd_good _ _ _ _ _ _ _ R _ r Eg). by rewrite (Eo r).
  - apply streams_none. apply (none_matching pkHashSeed def ck t ixs g d R). intros pk r Hg Hm. rewrite (Hu pk r Hg Hm) in Hg. congruence.
Qed.
Lemma select_streams a : streams (streamSelect pkHashSeed SortFunc maxCells maxRows store pl st rt visit args a) a.
Proof.
  pose proof (select_path def (sel_where st) hasOrder (pl_orderOrdinal pl) count (pl_access pl) Hpart Hplan) as Hpath.
  destruct (answers_Ok _ run_answers) as (rows & Erun & Arun).
  assert (Hmat : streams (rows ← runSelect pkHashSeed SortFunc maxCells maxRows store pl st rt args; Ok (replay visit rows a)) a).
  { exists rows. split; [done|]. by rewrite Erun, ok_bind, replay_visit. }
  assert (Hrun : runSelect pkHashSeed SortFunc maxCells maxRows store pl st rt args = execSelect pkHashSeed SortFunc maxCells t ixs pl st def args).
  { unfold runSelect. by rewrite Hjoin, Hstore, Hdef. }
  clear Erun Arun. unfold execSelect in Hrun.
  assert (Hordered : orderWalk (pl_access pl) = true -> pl_access pl = set_orderWalk scan_path \/ (length matching <= 1)%nat ->
    streams (execSelectOrderedWalkEach pkHashSeed SortFunc t ixs pl st def visit args a) a).
  { intros Ho Hor. destruct (sources_cover _ _ _ _ _ _ Hplan) as [_ Hsrc]. destruct (Hsrc Ho) as (ri & Hri & Hord & Hos & Hn).
    destruct (order_walk_ok pkHashSeed def ck Hrt t ixs g d R rows_fit pl st args P ri) as (x & E & W); [by apply (walk_ordered _ _ _ _ _ _ Hplan)|done..|].
    unfold execSelectOrderedWalkEach. rewrite E. destruct Hor as [Ea|Hone].
    - apply (walk_stream (ck (orderOrd pl)) _ x a W). rewrite Hrun, Ea. cbn. unfold execSelectOrderedWalk. by rewrite E.
    - destruct (walk_streams pkHashSeed def ck t ixs g d R SortFunc pl st args P visit maxCells _ _ x a W Hfit) as (rows' & E' & ->).
      apply streams_single; [done|]. rewrite <- E'. by apply (answers_walk pkHashSeed def ck t ixs g d R SortFunc pl st args P maxCells _ _ x W). }
  assert (D : forall ow a', path def ow a' -> sel_where st = ow -> pl_access pl = a' ->
    streams (streamSelect pkHashSeed SortFunc maxCells maxRows store pl st rt visit args a) a); [|by eapply D].
  clear Hpath. intros ow a' Hpath Ew Ea. unfold streamSelect. rewrite Hstore, Hdef, Hjoin, Ea. cbn [fst snd].
  rewrite Ea in Hordered, Hrun.
  rewrite (bool_decide_true (None = None)) by done. cbn [negb]. rewrite orb_false_r.
  destruct Hpath as [w|w src|w src|w exact bucket Hne ? Hbk|w ri k eqs res Hk Hres|w ri k eqs Hk|w|w src]; cbn -[pinned_singles evalExpr] in Hrun |- *; try done.
  all: try (by apply Hordered; [|left]).
  all: rewrite ?orb_true_r, ?orb_false_r; try exact Hmat.
  all: try (destruct (Z.leb_spec 0 (pl_orderOrdinal pl)) as [Hpos|Hneg]; [exact Hmat|]; destruct (Z.eqb_spec limit 0) as [Hz|Hz]; [by apply streams_zero|]).
  2: { destruct (pinned_key_only w src [] Ew) as (v & Hu); [by rewrite Ea|]. apply Hordered; [done|right; by apply (at_most_one (v_UUID v))]. }
  - destruct (scan_stream visit pk_in a Hz) as (o & -> & Es). rewrite ok_bind, Es. apply streams_run.
    rewrite Hrun, (scan_unordered pkHashSeed def ck t ixs g d R SortFunc pl st args P pk_in Hneg Hz). by rewrite window_map.
  - destruct (idx_candidates pkHashSeed def ck t ixs g d R pl args Hpins w exact bucket Ea Hne) as (pks & Ec & Hx). rewrite Ec.
    destruct (idx_access def pl w exact bucket Ea Hne) as (_ & Ex & Hrest & _).
    assert (Eb : bool_decide (map fst l <> []) = true) by (apply bool_decide_eq_true; by intros ?%map_eq_nil). fold l in Hrun |- *. rewrite Eb in Hrun |- *.
    destruct (overlay_streams w pks a Ew Hz Hneg Hx) as (rows2 & E1 & ->); [by rewrite Ex|].
    unfold execSelectIdx in Hrun. rewrite (proj2 (Z.eqb_neq _ _) Hz), (proj2 (Z.ltb_lt _ _) Hneg) in Hrun.
    destruct (point_read_ok pkHashSeed def ck Hrt t ixs g d R pl st args P hasOrder count Hplan Hwhere Hpins w exact bucket Ea Ew Hne (sel_offset st)) as (fast & Ef & Hf).
    rewrite Ef, ok_bind in Hrun. destruct fast as [row|]; [|apply streams_run; by rewrite Hrun, Ec].
    destruct Hf as (u & Hu & _). apply streams_single; [by eapply at_most_one|]. rewrite <- E1.
    apply (overlay_answers pkHashSeed def ck Hrt t ixs g d R SortFunc pl st args P hasOrder count Hplan Hwhere w pks Ew Hz Hx). by rewrite Ex.
  - destruct (comp_walk_ok pkHashSeed def ck Hrt t ixs g d R rows_fit pl st args P hasOrder count Hplan Hwhere Hpins w k eqs ri res Ea Ew Hk Hres) as (x & E & os & W).
    unfold execSelectCompositeWalkEach. rewrite E, ok_bind. apply (walk_stream _ _ _ a W). rewrite Hrun. unfold execSelectCompositeWalk. by rewrite E.
  - destruct (lookup_found pkHashSeed def ck Hrt t ixs g d R rows_fit pl st args hasOrder count Hplan Hpins k eqs ri Ea Hk) as (pks & Ec & Hx). rewrite Ec.
    destruct (overlay_streams w pks a Ew Hz Hneg Hx) as (rows2 & E1 & ->); [by rewrite Ea|]. apply streams_run.
    rewrite Hrun. unfold execSelectCompositeLookup. by rewrite (proj2 (Z.eqb_neq _ _) Hz), Ec.
  - by apply probe_stream with w.
Qed.
End visit.

(** *** Counts *)
(** What is queued for the merge. *)
Definition pending (t : tbl_state) : list UUID := concat (map (fun s => s_dirtyRead s ++ s_dirtyDel s) (t_shards t)).
Definition tracks (q : list UUID) (si : secIndex) : Prop :=
  exists vis, idx_ok (kd_of ck (si_ordinals si)) si vis /\ forall k, k ∉ q -> vis !! k = g !! k ≫= key_of (si_ordinals si).
Definition hitb (pk : UUID) : bool := match g !! pk with Some r => mb r | None => false end.
Lemma hits_length l : length (hits g mb l) = length (filter (fun pk => hitb pk = true) l).
Proof.
  induction l as [|pk l IH]; [done|]. rewrite hits_cons, list.filter_cons.
  destruct (hitb pk) eqn:E; [rewrite decide_True by done|rewrite decide_False by done]; unfold hitb in E; destruct (g !! pk) as [r|]; try done;
    destruct (mb r); cbn; by rewrite ?IH.
Qed.
Lemma to_set_size (l : list UUID) : (size (list_to_set l : gset UUID) <= length l)%nat.
Proof.
  induction l as [|x l IH]; [done|]. cbn. etrans; [|exact (le_n_S _ _ IH)]. rewrite size_union_alt, size_singleton.
  apply le_n_S, subseteq_size. by intros y [? _]%elem_of_difference.
Qed.
(** Up to the queued writes a bucket holds the matching rows. *)
Lemma bucket_count q si o src v : tracks q si -> si_ordinals si = [o] -> pin_val ck args (o, src) v ->
  (forall pk r, g !! pk = Some r -> mb r = true <-> pinned (rt_colByName def) args r (o, src)) ->
  Z.abs (zlen (lookup si (keyOf v)) - zlen matching) <= zlen q.
Proof.
  intros (vis & Hi & Hvis) Ho Hp Hm. pose proof Hp as (_ & Hv & Kv). cbn in Kv. rewrite Ho in Hi, Hvis.
  assert (Hc : key_canon (kd_of ck [o]) (keyOf v)) by (cbn; rewrite <- Kv; by apply keyOf_canon).
  destruct (lookup_pks _ _ _ _ Hi Hc) as [Hn Hl]. set (B := lookup si (keyOf v)) in *.
  assert (HB : forall pk, pk ∉ q -> pk ∈ B <-> hitb pk = true).
  { intros pk Hq. rewrite Hl, (Hvis pk Hq). unfold hitb. destruct (g !! pk) as [r|] eqn:Eg; cbn; [|done].
    destruct (rd_good _ _ _ _ _ _ _ R pk r Eg) as ((_ & Hr) & Ht). by rewrite (Hm pk r Eg), (pinned_key ck (rt_colByName def) args o src v r Hp Hr Ht). }
  set (X := list_to_set B ∪ list_to_set q : gset UUID).
  assert (PM : hits g mb (elements X) ≡ₚ matching).
  { apply (hits_all pkHashSeed def ck t ixs g d R); [apply NoDup_elements|]. intros pk r Hg Hb. unfold X. rewrite elem_of_elements, elem_of_union, !elem_of_list_to_set.
    destruct (decide (pk ∈ q)) as [|Hq]; [by right|left]. apply (HB pk Hq). unfold hitb. by rewrite Hg. }
  set (M := list_to_set (filter (fun pk => hitb pk = true) (elements X)) : gset UUID).
  assert (EM : size M = length matching) by (unfold M; rewrite size_list_to_set by (apply list.NoDup_filter, NoDup_elements); by rewrite <- hits_length, PM).
  pose proof (size_list_to_set (C := gset UUID) B Hn) as EB. pose proof (to_set_size q) as Eq.
  assert (L1 : (size M <= size X)%nat) by (apply subseteq_size; unfold M; intros pk; rewrite elem_of_list_to_set, list_elem_of_filter, elem_of_elements; tauto).
  assert (L2 : (size (list_to_set B : gset UUID) <= size (M ∪ list_to_set q))%nat).
  { apply subseteq_size. intros pk Hpk. destruct (decide (pk ∈ q)) as [|Hq]; [by apply elem_of_union_r, elem_of_list_to_set|]. apply elem_of_union_l. unfold M.
    rewrite elem_of_list_to_set, list_elem_of_filter, elem_of_elements. apply elem_of_list_to_set in Hpk. split; [by apply (HB pk Hq)|]. by apply elem_of_union_l, elem_of_list_to_set. }
  unfold X in L1. rewrite size_union_alt in L1, L2.
  assert (L3 : forall Y Z : gset UUID, (size (Y ∖ Z) <= size Y)%nat) by (intros Y Z; apply subseteq_size; by intros pk [? _]%elem_of_difference).
  pose proof (L3 (list_to_set q) (list_to_set B)). pose proof (L3 (list_to_set q) M). unfold zlen. lia.
Qed.
Lemma counted_rows rows : sel_limit st < 0 -> sel_offset st = 0 -> answers (Ok rows) -> zlen rows = zlen matching.
Proof.
  intros Hl Ho (S & PS & _ & [= ->]). unfold window. rewrite Ho. destruct (Z.ltb_spec (sel_limit st) 0); [|lia].
  unfold zlen. by rewrite drop_0, length_map, PS.
Qed.
Lemma visit_count rows : forall n, visit_rows (fun n _ => (n + 1, true)) n rows = n + zlen rows.
Proof. induction rows as [|r rows IH]; intros n; cbn [WalkOk.visit_rows]; [unfold zlen; cbn; lia|]. rewrite IH. unfold zlen. cbn [length]. lia. Qed.
Lemma keyed_source w src : sel_where st = Some w -> access_pins def (pl_access pl) = [(Z.to_nat (rt_pkOrdinal def), src)] ->
  access_rest (pl_access pl) w = [] ->
  exists v, value_ok v /\ Kind v = KindUUID /\ evalLitOrParamValue src args = Ok v /\ forall pk r, g !! pk = Some r -> mb r = true <-> pk = v_UUID v.
Proof.
  intros Ew Epin Er. destruct (pk_pin def ck pl args Hpins Hkind src [] Epin) as (v & Hv & Hok & Kv & _). exists v. split_and!; [done|done|apply Hv|].
  intros pk r Hg. rewrite (planned_sound pkHashSeed def ck Hrt t ixs g d R pl st args P hasOrder count Hplan Hwhere w pk r Ew Hg), Er, Epin, list.Forall_singleton.
  pose proof (pk_pinned pkHashSeed def ck t ixs g d R rows_fit args Hkind Hnn src v pk r Hv Hg) as Hp. unfold pkOrd in Hp. rewrite Hp. split; [by intros [? _]|by split; [|constructor]].
Qed.
Local Abbreviation singles w := (pinned_singles (rt_indexes def) (collectEqConjuncts w ∅)).
Lemma bucket_counted w q (k : outcome Z) : sel_where st = Some w -> (forall si, si ∈ ixs -> tracks q si) -> length (singles w) = 1%nat ->
  pl_access pl = with_idx (map fst (singles w)) (map snd (singles w)) true true ->
  exists n, (fast ← (src ← index (map snd (singles w)) 0;
    keyVal ← evalLitOrParamValue src args;
    if IsNull keyVal then Ok (Some 0)
    else ord ← index (map fst (singles w)) 0; Ok (match indexFor ixs ord with Some si => Some (countKey si keyVal) | None => None end));
    match fast with Some n => Ok n | None => k end) = Ok n /\ Z.abs (n - zlen matching) <= zlen q.
Proof.
  intros Ew Hq El Ea. assert (Hne : singles w <> []) by (intros E; by rewrite E in El).
  destruct (idx_access def pl w true true Ea Hne) as (Ep & _ & Er & _). specialize (Er eq_refl).
  destruct (idx_pins pkHashSeed def ck t ixs g d R pl args Hpins w true true Ea Hne) as [Hp Hs].
  assert (Hm : forall pk r, g !! pk = Some r -> mb r = true <-> Forall (pinned (rt_colByName def) args r) (singles w)).
  { intros pk r Hg. rewrite (planned_sound pkHashSeed def ck Hrt t ixs g d R pl st args P hasOrder count Hplan Hwhere w pk r Ew Hg), Er, Ep.
    split; [by intros [? _]|by split; [|constructor]]. }
  clear Ea Ep Er Hne. destruct (singles w) as [|[o src] [|]]; try done. apply Forall_cons_1 in Hp as [[v Hv] _]. apply Forall_cons_1 in Hs as [(si & Ei & Hsi & Eo) _].
  cbn in Ei. pose proof Hv as (Ev & [Hvo Hvn] & Kv). cbn in Ev, Kv. exists (countKey si v). change (index (map snd [(o, src)]) 0) with (Ok src). change (index (map fst [(o, src)]) 0) with (Ok o).
  rewrite !ok_bind, Ev, ok_bind. unfold IsNull. rewrite bool_decide_false, ok_bind, Ei, ok_bind by done. split; [done|].
  destruct (Hq si Hsi) as (vis & Hi & _). rewrite (countKey_length _ _ _ _ Hi) by (rewrite Eo; cbn; rewrite <- Kv; by apply keyOf_canon).
  apply (bucket_count q si o src v (Hq si Hsi) Eo Hv). intros pk r Hg. by rewrite (Hm pk r Hg), list.Forall_singleton.
Qed.
Lemma counts q : sel_limit st < 0 -> sel_offset st = 0 -> (forall si, si ∈ ixs -> tracks q si) ->
  exists n, countRows pkHashSeed SortFunc maxCells maxRows store pl st rt args = Ok n /\
    Z.abs (n - zlen matching) <= if countIdxBucket (pl_access pl) then zlen q else 0.
Proof.
  intros Hl Ho Hq. pose proof (select_path def (sel_where st) hasOrder (pl_orderOrdinal pl) count (pl_access pl) Hpart Hplan) as Hpath.
  assert (Hstream : exists n, streamSelect pkHashSeed SortFunc maxCells maxRows store pl st rt (fun n _ => (n + 1, true)) args 0 = Ok n /\ n = zlen matching).
  { destruct (select_streams (fun n _ => (n + 1, true)) 0) as (rows & E & ->). pose proof run_answers as A. rewrite E in A. eexists. split; [done|]. rewrite visit_count, (counted_rows rows Hl Ho A). lia. }
  assert (Hkeyed : forall w src, sel_where st = Some w -> access_pins def (pl_access pl) = [(Z.to_nat (rt_pkOrdinal def), src)] -> access_rest (pl_access pl) w = [] ->
    exists rows, (v ← evalLitOrParamValue src args; execSelectPK pkHashSeed t pl st v) = Ok rows /\ zlen rows = zlen matching).
  { intros w src Ew Epin Er. destruct (keyed_source w src Ew Epin Er) as (v & Hv & Kv & -> & Hm).
    destruct (answers_Ok _ (answers_pk pkHashSeed def ck t ixs g d R pl st args P pk_in v Hv Kv Hm)) as (rows & E & A). exists rows. split; [by rewrite ok_bind|by apply counted_rows]. }
  assert (D : forall ow a, path def ow a -> sel_where st = ow -> pl_access pl = a -> exists n, countRows pkHashSeed SortFunc maxCells maxRows store pl st rt args = Ok n /\
    Z.abs (n - zlen matching) <= if countIdxBucket (pl_access pl) then zlen q else 0); [|by eapply D].
  clear Hpath. intros ow a Hpath Ew Ea. unfold countRows. rewrite Hstore. cbn [fst snd].
  destruct Hpath as [w|w src|w src|w exact bucket Hne ? Hbk|w ri k eqs res Hk Hres|w ri k eqs Hk|w|w src]; rewrite Ea; cbn -[pinned_singles streamSelect].
  2,3: destruct (Hkeyed w src) as (rows & E & En); [done|by rewrite Ea|by rewrite Ea|]; destruct (evalLitOrParamValue src args); [|done..];
       rewrite ok_bind in E; rewrite ok_bind, E, ok_bind; eexists; (split; [done|lia]).
  2: destruct bucket; [|by destruct Hstream as (n & -> & ->); eexists; split; [done|lia]].
  2: { destruct (Hbk eq_refl) as [-> El]. by apply (bucket_counted w). }
  all: rewrite ?ok_bind; destruct Hstream as (n & -> & ->); eexists; (split; [done|lia]).
Qed.

(** *** The dispatch of the entry points *)
Definition rows_plan : outcome (list Row) :=
  if pkLookup (pl_access pl) then keyVal ← lit_source (pkSource (pl_access pl)) args; execSelectPK pkHashSeed t pl st keyVal
  else if idxLookup (pl_access pl) then execSelectIdx pkHashSeed SortFunc t ixs pl st def args
  else runSelect pkHashSeed SortFunc maxCells maxRows store pl st rt args.
Definition row_plan : outcome (option Row) :=
  if pkLookup (pl_access pl) then keyVal ← lit_source (pkSource (pl_access pl)) args; execSelectPKOne pkHashSeed t pl st keyVal
  else if idxLookup (pl_access pl) && (pl_orderOrdinal pl <? 0) && (sel_offset st =? 0) then execSelectIdxOne pkHashSeed t ixs pl st def args
  else rows ← runSelect pkHashSeed SortFunc maxCells maxRows store pl st rt args; Ok (head rows).
Lemma pk_one_head v : execSelectPKOne pkHashSeed t pl st v = (rows ← execSelectPK pkHashSeed t pl st v; Ok (head rows)).
Proof.
  unfold execSelectPKOne, execSelectPK, execSelectPKOneResolved, execSelectPKResolved. destruct (IsNull v); [done|]. destruct (coerceToUUID v) as [u| |]; [|done..].
  rewrite !ok_bind. destruct (_ || _); [done|]. destruct (sel_starAll st); [by destruct (getByPK _ _ _) as [[]| |]|by destruct (getByPKProject _ _ _ _) as [[]| |]].
Qed.
(** The source of a PK lookup is a literal or a parameter. *)
Lemma lit_eval w src : sel_where st = Some w -> access_pins def (pl_access pl) = [(Z.to_nat (rt_pkOrdinal def), src)] -> access_rest (pl_access pl) w = [] ->
  exists v, evalLitOrParamValue src args = Ok v /\ evalExpr (Some src) (sel_ctx def args) = Ok v.
Proof.
  intros Ew Epin Er. destruct (keyed_source w src Ew Epin Er) as (v & _ & _ & Ev & _). exists v. split; [done|]. cbn [evalExpr]. by apply value_of_eval.
Qed.
Lemma rows_plan_run : rows_plan = runSelect pkHashSeed SortFunc maxCells maxRows store pl st rt args.
Proof.
  pose proof (select_path def (sel_where st) hasOrder (pl_orderOrdinal pl) count (pl_access pl) Hpart Hplan) as Hpath.
  assert (D : forall ow a, path def ow a -> sel_where st = ow -> pl_access pl = a -> rows_plan = runSelect pkHashSeed SortFunc maxCells maxRows store pl st rt args); [|by eapply D].
  clear Hpath. intros ow a Hpath Ew Ea. unfold rows_plan, runSelect. rewrite Hjoin, Hstore, Hdef. cbn [fst snd]. unfold execSelect.
  destruct Hpath as [w|w src|w src|w exact bucket Hne ? Hbk|w ri k eqs res Hk Hres|w ri k eqs Hk|w|w src]; rewrite Ea; cbn -[pinned_singles evalExpr]; try done.
  1,2: destruct (lit_eval w src) as (v & -> & ->); [done|by rewrite Ea|by rewrite Ea|done].
  by destruct (bool_decide _).
Qed.
Lemma rows_plan_answers : answers rows_plan.
Proof. rewrite rows_plan_run. apply run_answers. Qed.
Lemma row_plan_answers : answers_row def t pl st args row_plan.
Proof.
  pose proof rows_plan_answers as A. pose proof rows_plan_run as Er. unfold row_plan, rows_plan in *. destruct (pkLookup (pl_access pl)) eqn:Ek.
  - destruct (lit_source _ args) as [v| |]; [|by destruct A as (S & _ & _ & [=])..]. rewrite ok_bind in A. rewrite ok_bind, pk_one_head.
    destruct (execSelectPK _ _ _ _ _) as [rows| |]; [|by destruct A as (S & _ & _ & [=])..]. by exists rows.
  - assert (H : answers_row def t pl st args (rows ← runSelect pkHashSeed SortFunc maxCells maxRows store pl st rt args; Ok (head rows))).
    { rewrite Er in A. destruct (answers_Ok _ A) as (rows & -> & A'). by exists rows. }
    destruct (idxLookup (pl_access pl) && _ && _) eqn:Ei; [|done]. clear A Er H. rewrite !andb_true_iff in Ei. destruct Ei as [[Ei Eo%Z.ltb_lt] Ef%Z.eqb_eq].
    pose proof (select_path def (sel_where st) hasOrder (pl_orderOrdinal pl) count (pl_access pl) Hpart Hplan) as Hpath.
    assert (D : forall ow a, path def ow a -> sel_where st = ow -> pl_access pl = a -> idxLookup a = true -> answers_row def t pl st args (execSelectIdxOne pkHashSeed t ixs pl st def args)); [|by eapply D].
    clear Hpath. intros ow a Hpath Ew Ea Hi. destruct Hpath as [w|w src|w src|w exact bucket Hne ? Hbk|w ri k eqs res Hk Hres|w ri k eqs Hk|w|w src]; try done.
    by apply (idx_one_answers pkHashSeed def ck Hrt t ixs g d R SortFunc pl st args P hasOrder count Hplan Hwhere Hpins w exact bucket Ea Ew Hne pk_in Eo Ef).
Qed.
End streams.
