(* ===== verification/ParserTree.v ===== *)
(** * ParserTree: the shape of the statements the parser builds — operators the
    evaluator knows, INSERT tuples as wide as the column list, COUNT alone — and
    that a statement without literals is one the planner accepts. *)
From S2P Require Import Prelude Bytes Value Schema Ast Eval Lexer Parser Plan PlanJoin PlanOk PlanJoinOk.

(** ** Trees *)
Fixpoint ops_ok (e : expr) : Prop :=
  match e with
  | binOp op l r => known_op op = true /\ ops_ok l /\ ops_ok r
  | notExpr e | isNullExpr e _ => ops_ok e
  | _ => True
  end.
Definition opt_ops (e : option expr) : Prop := match e with Some e => ops_ok e | None => True end.
Definition stmt_shape (st : stmt) : Prop :=
  match st with
  | SSelect s => opt_ops (sel_where s) /\
      (sel_countStar s = true -> sel_orderCol s = [] /\ sel_limit s = -1 /\ sel_offset s = 0 /\ sel_joins s = [])
  | SInsert _ cols rows => Forall (fun r => length r = length cols /\ Forall ops_ok r) rows
  | SUpdate _ sets w => Forall (fun s => ops_ok (set_val s)) sets /\ opt_ops w
  | SDelete _ w => opt_ops w
  | _ => True
  end.

(** ** Results of the parser's methods *)
Definition gives {A} (Q : A -> Prop) (m : P A) : Prop := forall p a p', m p = Ok (a, p') -> Q a.
Lemma gives_ret {A} (Q : A -> Prop) (a : A) : Q a -> gives Q (mret a).
Proof. by intros H p b p' [= <- _]. Qed.
Lemma gives_fail {A} (Q : A -> Prop) : gives Q fail.
Proof. done. Qed.
Lemma gives_panic {A} (Q : A -> Prop) : gives Q (fun _ => Panic).
Proof. done. Qed.
Lemma gives_bind {A B} (R : A -> Prop) (Q : B -> Prop) (m : P A) (k : A -> P B) : gives R m -> (forall a, R a -> gives Q (k a)) -> gives Q (m ≫= k).
Proof.
  intros Hm Hk p b p'. change ((m ≫= k) p) with (match m p with Ok (a, p) => k a p | Err e => Err e | Panic => Panic end).
  destruct (m p) as [[a p1]| |] eqn:E; [|done..]. by apply Hk, (Hm _ _ _ E).
Qed.
Lemma gives_any {A B} (Q : B -> Prop) (m : P A) (k : A -> P B) : (forall a, gives Q (k a)) -> gives Q (m ≫= k).
Proof. intros Hk. by apply (gives_bind (fun _ => True)). Qed.
Lemma gives_loop {A} (Q : A -> Prop) (round : A -> P (A * bool)) a : Q a -> (forall a, Q a -> gives (fun x => Q (fst x)) (round a)) -> gives Q (loop_toks round a).
Proof.
  intros Ha Hr p. unfold loop_toks. generalize (S (length (p_toks p))). intros n. revert a Ha p. induction n as [|n IH]; intros a Ha p b p'; [done|].
  apply (gives_bind (fun x => Q (fst x)) Q); [by apply Hr|]. intros [a' []] Ha'; [by intros q ? ?; apply IH|by apply gives_ret].
Qed.
Lemma gives_when {A} (Q : A -> Prop) k (m : P A) none : gives Q m -> Q none -> gives Q (when k m none).
Proof. intros Hm Hn. apply gives_any. intros []; [done|by apply gives_ret]. Qed.
Lemma gives_more_comma {A} (Q : A -> Prop) a : Q a -> gives (fun x => Q (fst x)) (more_comma a).
Proof. intros Ha. apply gives_any. intros []; [apply gives_any; intros _|]; by apply gives_ret. Qed.
Lemma gives_comma_list {A} (Q : A -> Prop) (item : P A) : gives Q item -> gives (Forall Q) (comma_list item).
Proof.
  intros Hi. apply gives_loop; [constructor|]. intros l Hl. apply (gives_bind Q); [done|]. intros x Hx. apply gives_more_comma.
  apply Forall_app. by split; [|constructor].
Qed.
Lemma gives_weaken {A} (R Q : A -> Prop) (m : P A) : (forall a, R a -> Q a) -> gives R m -> gives Q m.
Proof. intros H Hm p a p' E. by eapply H, Hm. Qed.

(** ** Expressions *)
(** The token just seen is the one consumed next. *)
Lemma gives_peek {A} (Q : A -> Prop) (k : token -> P A) :
  (forall t p a p', p_toks p !! p_pos p = Some t -> k t p = Ok (a, p') -> Q a) -> gives Q (peek ≫= k).
Proof.
  intros Hk p a p'. unfold peek, mbind, P_bind. destruct (p_toks p !! p_pos p) as [t|] eqn:E; [|done]. by apply Hk.
Qed.
Lemma at_advance {A} (Q : A -> Prop) t (k : token -> P A) p a p' : gives Q (k t) -> p_toks p !! p_pos p = Some t -> (advance ≫= k) p = Ok (a, p') -> Q a.
Proof. intros Hk E. unfold advance, mbind, P_bind. rewrite E. apply Hk. Qed.
Lemma gives_chain ops operand : (forall k, ops k = true -> known_op k = true) -> gives ops_ok operand -> gives ops_ok (bin_chain ops operand).
Proof.
  intros Hops Ho. apply (gives_bind ops_ok); [done|]. intros lhs Hl. apply gives_loop; [done|]. intros e He. apply gives_peek. intros t p x p' Ht.
  destruct (ops (tok_kind t)) eqn:Ek; [|by intros [= <- _]]. apply (at_advance (fun x : expr * bool => ops_ok (fst x)) t); [|done]. apply (gives_bind ops_ok); [done|]. intros rhs Hr.
  apply gives_ret. split_and!; [by apply Hops|done|done].
Qed.
Lemma exprs_shape stack : gives ops_ok (parseExpr stack) /\ gives ops_ok (parseOr stack) /\ gives ops_ok (parseAnd stack) /\ gives ops_ok (parseNot stack) /\
  gives ops_ok (parseCmp stack) /\ gives ops_ok (parseAddSub stack) /\ gives ops_ok (parseMulDiv stack) /\ gives ops_ok (parseAtom stack).
Proof.
  induction stack as [|stack (IE & IOr & IAnd & INot & ICmp & IAdd & IMul & IAtom)]; [split_and!; apply gives_panic|].
  split_and!; intros p; cbn [parseExpr parseOr parseAnd parseNot parseCmp parseAddSub parseMulDiv parseAtom]; revert p.
  - exact IOr.
  - apply gives_chain; [|done]. intros k. unfold is_or. case_bool_decide; by subst.
  - apply gives_chain; [|done]. intros k. unfold is_and. case_bool_decide; by subst.
  - apply gives_any. intros []; [|exact ICmp]. do 2 (apply gives_any; intros _). apply (gives_bind ops_ok); [done|]. intros e He.
    apply gives_any. intros _. by apply gives_ret.
  - apply (gives_bind ops_ok); [done|]. intros lhs Hl. apply gives_peek. intros t p e p' Ht.
    assert (Hop : known_op (tok_kind t) = true -> (op ← advance; rhs ← parseAddSub stack; mret (binOp (tok_kind op) lhs rhs)) p = Ok (e, p') -> ops_ok e).
    { intros Hk. apply (at_advance ops_ok t); [|done]. apply (gives_bind ops_ok); [done|]. intros rhs Hr. by apply gives_ret. }
    assert (Hret : (mret lhs : P expr) p = Ok (e, p') -> ops_ok e) by (by intros [= <- _]).
    destruct (tok_kind t) eqn:Ek; try exact Hret; try (by apply Hop). apply gives_any. intros _. apply gives_any. intros n. do 2 (apply gives_any; intros _). by apply gives_ret.
  - apply gives_chain; [|done]. intros k. unfold is_add. repeat case_bool_decide; by subst.
  - apply gives_chain; [|done]. intros k. unfold is_mul. case_bool_decide; by subst.
  - apply gives_any. intros t. destruct (tok_kind t); try apply gives_fail; apply gives_any; intros _; try (by apply gives_ret).
    + apply gives_any. intros []; [|by apply gives_ret]. do 2 (apply gives_any; intros ?). by apply gives_ret.
    + apply gives_any. intros n. by apply gives_ret.
    + apply gives_any. intros _. apply (gives_bind ops_ok); [done|]. intros e He. do 2 (apply gives_any; intros _). by apply gives_ret.
Qed.

(** ** Statements *)
Section statements.
Context (stack : nat).
Lemma gives_expr : gives ops_ok (parseExpr stack).
Proof. apply exprs_shape. Qed.
Lemma gives_where : gives opt_ops (opt_where stack).
Proof. apply gives_when; [|done]. apply gives_any. intros _. apply (gives_bind ops_ok); [apply gives_expr|]. intros e He. by apply gives_ret. Qed.
Ltac skip := repeat (apply gives_any; intros ?).
Lemma select_stmt_shape : gives stmt_shape (parseSelect stack).
Proof.
  unfold parseSelect. apply gives_any. intros _. apply gives_any. intros [[cols star] count]. do 4 (apply gives_any; intros ?).
  apply (gives_bind opt_ops); [apply gives_where|]. intros w Hw. apply gives_any. intros [[oc oq] od]. apply gives_any. intros lim. apply gives_any. intros off.
  destruct (count && _) eqn:E; [apply gives_fail|]. apply gives_ret. split; [done|]. cbn. intros ->. cbn [andb] in E. rewrite !orb_false_iff, !negb_false_iff in E.
  destruct E as (((E1 & E2) & E3) & E4). apply bool_decide_eq_true in E1. apply Z.eqb_eq in E2, E3. apply Nat.eqb_eq, nil_length_inv in E4. done.
Qed.
Lemma insert_stmt_shape : gives stmt_shape (parseInsert stack).
Proof.
  unfold parseInsert. do 4 (apply gives_any; intros ?). apply gives_any. intros cols. do 2 (apply gives_any; intros ?).
  apply (gives_bind (Forall (fun r => length r = length cols /\ Forall ops_ok r))); [|intros rows Hr; by apply gives_ret].
  apply gives_loop; [constructor|]. intros rows Hrows. apply gives_any. intros _. apply (gives_bind (Forall ops_ok)); [apply gives_comma_list, gives_expr|].
  intros tuple Ht. apply gives_any. intros _. destruct (Nat.eqb_spec (length tuple) (length cols)) as [E|]; cbn [negb]; [|apply gives_fail].
  apply gives_more_comma. apply Forall_app. split; [done|]. by constructor; [|constructor].
Qed.
Lemma update_stmt_shape : gives stmt_shape (parseUpdate stack).
Proof.
  unfold parseUpdate. do 3 (apply gives_any; intros ?). apply (gives_bind (Forall (fun s => ops_ok (set_val s)))).
  { apply gives_comma_list. do 2 (apply gives_any; intros ?). apply (gives_bind ops_ok); [apply gives_expr|]. intros v Hv. by apply gives_ret. }
  intros sets Hs. apply (gives_bind opt_ops); [apply gives_where|]. intros w Hw. by apply gives_ret.
Qed.
Lemma delete_stmt_shape : gives stmt_shape (parseDelete stack).
Proof. unfold parseDelete. do 3 (apply gives_any; intros ?). apply (gives_bind opt_ops); [apply gives_where|]. intros w Hw. by apply gives_ret. Qed.
Lemma create_stmt_shape : gives stmt_shape parseCreate.
Proof. unfold parseCreate. do 4 (apply gives_any; intros ?). apply gives_any. intros d. apply gives_any. intros _. by apply gives_ret. Qed.
Lemma drop_stmt_shape : gives stmt_shape parseDrop.
Proof. unfold parseDrop. do 2 (apply gives_any; intros ?). apply gives_any. intros tn. by apply gives_ret. Qed.
Lemma parse_shape mapLower sql st : parseSQL stack mapLower sql = Ok st -> stmt_shape st.
Proof.
  unfold parseSQL. destruct (tokenize mapLower sql) as [toks| |]; [|done..]. cbn [mbind outcome_bind].
  destruct (parse_rest stack _) as [[st' p]| |] eqn:E; [|done..]. cbn. intros [= <-]. revert E. generalize (MkParser toks 0 0). intros q E.
  refine (_ q st' p E). apply (gives_bind stmt_shape).
  - apply gives_any. intros t. destruct (tok_kind t); try apply gives_fail; auto using select_stmt_shape, insert_stmt_shape, update_stmt_shape, delete_stmt_shape, create_stmt_shape, drop_stmt_shape.
  - intros st Hst. apply gives_any. intros _. apply gives_any. intros []; [by apply gives_ret|apply gives_fail].
Qed.
End statements.

(** ** Without literals the planner takes them *)
Lemma number_lits e : forall n, has_literal (fst (number e n)) = has_literal e.
Proof.
  induction e as [q x o|v|i|op l IHl r IHr|e IH|e IH b]; intros n; cbn; try done.
  - pose proof (IHl n) as L. destruct (number l n) as [l' n']. pose proof (IHr n') as R. destruct (number r n') as [r' n'']. cbn in *. by rewrite L, R.
  - pose proof (IH n) as L. by destruct (number e n).
  - pose proof (IH n) as L. by destruct (number e n).
Qed.
Lemma number_raw e : ops_ok e -> has_literal e = false -> forall n, raw_ok (fst (number e n)).
Proof.
  induction e as [q x o|v|i|op l IHl r IHr|e IH|e IH b]; intros Ho Hl n; cbn in *; try done.
  - destruct Ho as (Hop & Ol & Or). apply orb_false_iff in Hl as [Ll Lr]. pose proof (IHl Ol Ll n) as L. destruct (number l n) as [l' n'].
    pose proof (IHr Or Lr n') as R. by destruct (number r n') as [r' n''].
  - pose proof (IH Ho Hl n) as L. by destruct (number e n).
  - pose proof (IH Ho Hl n) as L. by destruct (number e n).
Qed.
Lemma number_list_all {A} (f : A -> Z -> A * Z) (Q : A -> Prop) l : forall n, Forall (fun a => forall n, Q (fst (f a n))) l ->
  length (fst (number_list f l n)) = length l /\ Forall Q (fst (number_list f l n)).
Proof.
  induction l as [|a l IH]; intros n H; cbn; [done|]. apply Forall_cons_1 in H as [Ha Hl]. specialize (Ha n). destruct (f a n) as [a' n'].
  destruct (IH n' Hl) as [L F]. destruct (number_list f l n') as [l' n'']. cbn in *. split; [by rewrite L|by constructor].
Qed.
Lemma number_opt_raw w n : opt_ops w -> opt_any has_literal w = false -> opt_raw (fst (number_opt w n)) /\ opt_any has_literal (fst (number_opt w n)) = false.
Proof.
  destruct w as [e|]; [|done]. cbn. intros Ho Hl. pose proof (number_raw e Ho Hl n) as Hr. pose proof (number_lits e n) as El.
  destruct (number e n). cbn in *. split; [done|congruence].
Qed.
Lemma no_lits (l : list expr) : existsb has_literal l = false -> Forall ops_ok l -> Forall (fun e => forall n, raw_ok (fst (number e n))) l.
Proof.
  intros Hb Ho. induction l as [|e l IH]; [constructor|]. cbn in Hb. apply orb_false_iff in Hb as [He Hl]. apply Forall_cons_1 in Ho as [Oe Ol].
  constructor; [|by apply IH]. intros n. by apply number_raw.
Qed.
Definition literal_free (st : stmt) : Prop := match st with SSelect s => opt_any has_literal (sel_where s) = false | _ => True end.
Lemma accepted st : stmt_shape st -> rejectValueLiterals st = Ok tt -> stmt_raw (fst (assignParamIndices st)) /\ literal_free (fst (assignParamIndices st)).
Proof.
  intros Hs Hr. unfold rejectValueLiterals in Hr. destruct st as [s|tn cols rows|tn sets w|tn w|d|nm]; cbn [assignParamIndices stmt_shape] in *; try done.
  - destruct Hs as [Hw _]. destruct (opt_any has_literal (sel_where s)) eqn:E; [done|]. pose proof (number_opt_raw _ 0 Hw E) as H. by destruct (number_opt (sel_where s) 0).
  - destruct (existsb _ rows) eqn:E; [done|]. clear Hr. destruct (number_list_all (number_list number) (fun r => length r = length cols /\ Forall raw_ok r) rows 0) as [_ H].
    + induction rows as [|r rows IH]; [constructor|]. cbn in E. apply orb_false_iff in E as [Er El]. apply Forall_cons_1 in Hs as [[Hl Ho] Hs]. constructor; [|by apply IH].
      intros n. destruct (number_list_all number raw_ok r n (no_lits r Er Ho)) as [L F]. by rewrite L.
    + by destruct (number_list (number_list number) rows 0).
  - destruct Hs as [Hs Hw]. destruct (existsb _ sets || _) eqn:E; [done|]. clear Hr. apply orb_false_iff in E as [E Ew].
    destruct (number_list_all number_set (fun s => raw_ok (set_val s)) sets 0) as [_ H].
    { induction sets as [|a sets IH]; [constructor|]. cbn in E. apply orb_false_iff in E as [Ea El]. apply Forall_cons_1 in Hs as [Ha Hs]. constructor; [|by apply IH].
      intros n. unfold number_set. pose proof (number_raw _ Ha Ea n) as R. by destruct (number (set_val a) n). }
    destruct (number_list number_set sets 0) as [sets' n]. pose proof (number_opt_raw _ n Hw Ew) as Hw'. destruct (number_opt w n). cbn in *. tauto.
  - destruct (opt_any has_literal w) eqn:E; [done|]. pose proof (number_opt_raw _ 0 Hs E) as H. destruct (number_opt w 0). cbn in *. tauto.
Qed.
