(* ===== verification/Prepare.v ===== *)
(** * Prepare: what preparing a statement gives — a plan of the current catalog,
    never a stale one — and that binding a literal-free SELECT's parameters to
    UUID columns changes no part of it that is executed. *)
From S2P Require Import Prelude Bytes Uuid Value Schema Catalog Ast Eval Lexer Parser ParserOk ParserTree Plan PlanJoin PlanOk PlanJoinOk Store Merge Recovery SecIndex Select SelectMain Join Query.

(** ** Literal-free expressions are not rewritten *)
Definition free (e : expr) : Prop := has_literal e = false.
Lemma mark_free e want : free e -> fst (markValue e want) = e.
Proof. by destruct e. Qed.
Lemma walk_free is_uuid e : free e -> forall want, fst (walkWhere is_uuid e want) = e.
Proof.
  unfold free. induction e as [q x o|v|i|op l IHl r IHr|e IH|e IH b]; intros Hf want; cbn in Hf |- *; try done.
  - apply orb_false_iff in Hf as [Fl Fr].
    assert (Hc : forall op', fst (let '(r', want0) := if side is_uuid l then markValue r want else (r, want) in
      let '(l', want1) := if side is_uuid r' then markValue l want0 else (l, want0) in (binOp op' l' r', want1)) = binOp op' l r).
    { intros op'. pose proof (mark_free r want Fr) as Er. destruct (side is_uuid l); [|by destruct (side is_uuid r); [destruct (markValue l want) eqn:E; pose proof (mark_free l want Fl) as El; rewrite E in El; cbn in *; subst|]].
      destruct (markValue r want) as [r' want0]. cbn in Er. subst r'. pose proof (mark_free l want0 Fl) as El.
      destruct (side is_uuid r); [|done]. destruct (markValue l want0). cbn in *. by subst. }
    assert (Ha : forall op', fst (let '(l', want0) := walkWhere is_uuid l want in let '(r', want1) := walkWhere is_uuid r want0 in (binOp op' l' r', want1)) = binOp op' l r).
    { intros op'. pose proof (IHl Fl want) as El. destruct (walkWhere is_uuid l want) as [l' want0]. pose proof (IHr Fr want0) as Er.
      destruct (walkWhere is_uuid r want0). cbn in *. by subst. }
    destruct op; try done; first [apply Hc|apply Ha].
  - pose proof (IH Hf want) as E. destruct (walkWhere is_uuid e want). cbn in *. by subst.
Qed.
Lemma share_free b e : free e -> share_lit b e = e.
Proof. intros He. destruct b; [by apply mark_free|done]. Qed.
Lemma share_cols_free is_uuid ords srcs : Forall free srcs -> (length srcs <= length ords)%nat -> share_cols is_uuid ords srcs = srcs.
Proof.
  intros Hf. revert ords. induction Hf as [|e srcs He _ IH]; intros [|o ords] Hl; cbn in Hl; try done; [lia|]. unfold share_cols in *. cbn [zip_with].
  by rewrite share_free, IH by (done || lia).
Qed.

(** ** The sources of an access path come from the WHERE *)
Definition opt_free (e : option expr) : Prop := match e with Some e => free e | None => True end.
Record free_access (a : access) : Prop := {
  fa_pk : opt_free (pkSource a);
  fa_probe : opt_free (pkProbe a);
  fa_part : opt_free (partSource a);
  fa_idx : Forall free (idxSrcs a) /\ (length (idxSrcs a) <= length (idxCols a))%nat;
  fa_comp : Forall free (compPrefixSrcs a) /\ (length (compPrefixSrcs a) <= length (compOrdinals a))%nat;
  fa_res : Forall free (compResidual a);
}.
Lemma share_access_free is_uuid pk part a : free_access a -> share_access is_uuid pk part a = a.
Proof.
  intros [F1 F2 F3 [F4 L4] [F5 L5] F6]. destruct a as [a1 a2 a3 a4 a5 a6 a7 a8 a9 a10 a11 a12 a13 a14 a15 a16]. cbn in *. unfold share_access. cbn -[share_cols share_lit share_pred].
  assert (Ho : forall b o, opt_free o -> share_lit b <$> o = o) by (intros b [e|] He; cbn -[share_lit]; [by rewrite share_free|done]).
  rewrite !Ho by done. rewrite !share_cols_free by (rewrite ?length_map; done). f_equal.
  induction F6 as [|e l He _ IH]; [done|]. cbn [map]. unfold share_pred at 1. by rewrite IH, walk_free.
Qed.
Lemma pin_free l r o v : free l -> free r -> pin_of l r = Some (o, v) -> free v.
Proof.
  intros Hl Hr H. unfold pin_of in H. destruct l; try (by destruct r; try done; destruct (_ && _); simplify_eq).
Qed.
Lemma pins_free e : free e -> forall out, map_Forall (fun _ => free) out -> map_Forall (fun _ => free) (collectEqConjuncts e out).
Proof.
  unfold free at 1. induction e as [q x o|v|i|op l IHl r IHr|e IH|e IH b]; intros Hf out Ho; try done. cbn in Hf. apply orb_false_iff in Hf as [Fl Fr].
  destruct op; try done; cbn [collectEqConjuncts].
  - destruct (pin_of l r) as [[o v]|] eqn:E; [|done]. apply map_Forall_insert_2; [|done]. by apply (pin_free l r o v).
  - apply IHr; [done|]. by apply IHl.
Qed.
Lemma detect_free e rt o src : free e -> detectColEq e rt o = Ok (Some src) -> free src.
Proof.
  intros Hf H. destruct e as [q x ord|v|i|op l r|e|e b]; try done. unfold free in Hf. cbn in Hf. apply orb_false_iff in Hf as [Fl Fr].
  destruct op; try done. cbn in H. inv_bind. destruct (_ && isLitOrParam r); [by injection H as <-|]. destruct (_ && isLitOrParam l); [by injection H as <-|done].
Qed.
Lemma conjs_free e : free e -> Forall free (collectConjuncts e).
Proof.
  unfold free at 1. induction e as [q x o|v|i|op l IHl r IHr|e IH|e IH b]; intros Hf; cbn in Hf; try (by constructor).
  apply orb_false_iff in Hf as [Fl Fr]. destruct op; try (constructor; [|constructor]; unfold free; cbn; by rewrite Fl, Fr).
  cbn. apply Forall_app. split; [by apply IHl|by apply IHr].
Qed.
Lemma srcs_free ri eqs k : map_Forall (fun _ => free) eqs -> Forall free (prefixSrcs ri eqs k) /\ (length (prefixSrcs ri eqs k) <= length (ri_ordinals ri))%nat.
Proof.
  intros He. unfold prefixSrcs. generalize (ri_ordinals ri). intros l. revert k. induction l as [|o l IH]; intros [|k]; cbn; try by split; [constructor|lia].
  destruct (IH k) as [F L]. destruct (eqs !! o) as [e|] eqn:E; [|split; [done|lia]]. split; [constructor; [by apply (He o)|done]|cbn; lia].
Qed.
Lemma singles_free ixs eqs : map_Forall (fun _ => free) eqs -> Forall free (map snd (pinned_singles ixs eqs)).
Proof.
  intros He. induction ixs as [|ri ixs IH]; [constructor|]. unfold pinned_singles in *. cbn [omap list_omap]. destruct (ri_ordinals ri) as [|o [|]]; try done.
  destruct (eqs !! o) as [e|] eqn:E; [|done]. cbn. constructor; [by apply (He o)|done].
Qed.
Lemma scan_free : free_access scan_path.
Proof. split; try done; by split; [constructor|cbn; lia]. Qed.
Lemma pk_free src : free src -> free_access (with_pk src).
Proof. intros H. split; try done; by split; [constructor|cbn; lia]. Qed.
Lemma index_free rt w ord count a : free w -> plan_index rt w ord count = Ok a -> free_access a.
Proof.
  intros Hw H. assert (He : map_Forall (fun _ => free) (collectEqConjuncts w ∅)) by (by apply pins_free; [|apply map_Forall_empty]).
  unfold plan_index in H. inv_bind. destruct x as [a'|].
  - injection H as <-. unfold planCompositeWalk in H0. destruct (ord <? 0); [done|]. inv_bind. destruct x as [[ri k]|]; [|done]. injection H0 as <-.
    destruct (srcs_free ri _ k He). split; cbn; try done; try (by split; [constructor|lia]).
    apply list.Forall_forall. intros c [Hc _]%list_elem_of_In%filter_In. pose proof (conjs_free w Hw) as F. rewrite list.Forall_forall in F. apply F. by apply list_elem_of_In.
  - case_bool_decide.
    + unfold planCompositeLookup in H. inv_bind. destruct x as [[ri k]|]; [|apply scan_free]. destruct (srcs_free ri _ k He).
      split; cbn; try done; try (by split; [constructor|lia]).
    + injection H as <-. split; cbn; try done. split; [by apply singles_free|by rewrite !length_map].
Qed.
Lemma where_free rt w ord count a : (forall e, w = Some e -> free e) -> plan_where rt w ord count = Ok a -> free_access a.
Proof.
  intros Hw H. unfold plan_where in H. destruct w as [w|]; [|injection H as <-; apply scan_free]. specialize (Hw w eq_refl). inv_bind.
  destruct x as [src|]; [injection H as <-; by eapply pk_free, detect_free|]. destruct (partitioned rt).
  - inv_bind. destruct x as [src|]; [|apply scan_free]. split; cbn; try done; try (by split; [constructor|lia]). by eapply detect_free.
  - case_bool_decide; [injection H as <-; apply scan_free|by eapply index_free].
Qed.
Lemma path_free rt w hasOrder ord count a : (forall e, w = Some e -> free e) -> plan_select_path rt w hasOrder ord count = Ok a -> free_access a.
Proof.
  intros Hw H. unfold plan_select_path in H. inv_bind. pose proof (where_free _ _ _ _ _ Hw H0) as F.
  assert (G : free_access x0). { destruct (hasOrder && _ && _ && _ && _); [|by injection H1 as <-]. inv_bind. destruct (c_Nullable _); [done|]. destruct F. by split. }
  unfold planPKProbe. destruct (_ || _); [done|]. destruct (partitioned rt); [done|]. destruct (pins w !! _) as [src|] eqn:E; [|done].
  destruct (0 <=? _); [|done]. destruct G. split; cbn; try done. destruct w as [e|]; [|done]. pose proof (pins_free e (Hw e eq_refl) ∅ (map_Forall_empty _)) as Fp. by apply (Fp _ _ E).
Qed.
Lemma validate_free e rt alias e' : free e -> validateExpr e rt alias = Ok e' -> free e'.
Proof.
  unfold free. revert e'. induction e as [q x o|v|i|op l IHl r IHr|e IH|e IH b]; intros e' Hf H; cbn in Hf, H.
  - destruct (negb _); [done|]. destruct (rt_colByName rt !! x); by simplify_eq.
  - done.
  - by injection H as <-.
  - apply orb_false_iff in Hf as [Fl Fr]. inv_bind. cbn. by rewrite (IHl x Fl), (IHr x0 Fr).
  - inv_bind. cbn. by apply IH.
  - inv_bind. cbn. by apply IH.
Qed.

(** ** Binding *)
Lemma bound_reads rt s cat pl n : opt_any has_literal (sel_where s) = false -> plan_select rt s cat = Ok pl ->
  reads_as pl (bindParamUUIDCoercion (set_nparams pl n)) /\ (exists st, pl_st pl = SSelect st).
Proof.
  intros Hf Hp. unfold plan_select in Hp. cbv zeta in Hp. inv_bind. cbn. split; [|by eexists].
  match goal with E : validateOpt _ _ _ = Ok _ |- _ => rename E into Hv end.
  match goal with E : plan_select_path _ ?w _ _ _ = Ok _ |- _ => rename E into Ha; set (w0 := w) in * end.
  assert (Hw : forall e, w0 = Some e -> free e).
  { intros e Ee. unfold validateOpt in Hv. destruct (sel_where s) as [e0|] eqn:E0; [|congruence]. inv_bind. match goal with E : validateExpr _ _ _ = Ok ?y |- _ => assert (e = y) as -> by congruence end. by eapply validate_free. }
  pose proof (path_free _ _ _ _ _ _ Hw Ha) as F. unfold bindParamUUIDCoercion. cbn [pl_st set_nparams pl_rt pl_joinPlan].
  cbn [sel_where sel_set_where]. destruct (walk_opt _ w0 _) as [w' want] eqn:Ew.
  assert (w' = w0) as ->.
  { unfold walk_opt in Ew. destruct w0 as [e|]; [|congruence]. pose proof (walk_free (isUUIDCol (Some rt) None) e (Hw e eq_refl) (replicate (Z.to_nat n) false)) as E.
    cbn in E, Ew. destruct (walkWhere _ e _). cbn in E. congruence. }
  split_and!; cbn; try done. by apply share_access_free.
Qed.

(** ** Binding keeps a plan ready *)
Lemma mark_bound n e want : bound n e -> bound n (fst (markValue e want)).
Proof.
  intros H. destruct e as [q x o|v|i|op l r|e|e b]; cbn; try done. case_bool_decide; [|done].
  destruct (ParseUUID (v_Str v)) as [u| |] eqn:E; [|done..]. cbn. apply ok_uuid.
Qed.
Lemma walk_bound is_uuid n e : bound n e -> forall want, bound n (fst (walkWhere is_uuid e want)).
Proof.
  induction e as [q x o|v|i|op l IHl r IHr|e IH|e IH b]; intros Hb want; cbn in Hb |- *; try done.
  - destruct Hb as (Hk & Bl & Br).
    assert (Hc : bound n (fst (let '(r', want0) := if side is_uuid l then markValue r want else (r, want) in
      let '(l', want1) := if side is_uuid r' then markValue l want0 else (l, want0) in (binOp op l' r', want1)))).
    { pose proof (mark_bound n r want Br) as Br'.
      assert (G : forall r' want0, bound n r' -> bound n (fst (let '(l', want1) := if side is_uuid r' then markValue l want0 else (l, want0) in (binOp op l' r', want1)))).
      { intros r' want0 Hr'. pose proof (mark_bound n l want0 Bl) as Bl'. destruct (side is_uuid r'); [destruct (markValue l want0)|]; done. }
      destruct (side is_uuid l); [destruct (markValue r want)|]; by apply G. }
    assert (Ha : bound n (fst (let '(l', want0) := walkWhere is_uuid l want in let '(r', want1) := walkWhere is_uuid r want0 in (binOp op l' r', want1)))).
    { pose proof (IHl Bl want) as Bl'. destruct (walkWhere is_uuid l want) as [l' want0]. pose proof (IHr Br want0) as Br'. by destruct (walkWhere is_uuid r want0). }
    destruct op; try done; first [exact Hc|exact Ha].
  - pose proof (IH Hb want) as B. by destruct (walkWhere is_uuid e want).
Qed.
Lemma walk_opt_bound is_uuid n e want : opt_bound n e -> opt_bound n (fst (walk_opt is_uuid e want)).
Proof. destruct e as [e|]; [|done]. intros H. cbn. pose proof (walk_bound is_uuid n e H want) as B. by destruct (walkWhere is_uuid e want). Qed.
Lemma sets_bound rt n sets : forall want, Forall (fun s => bound n (set_val s)) sets -> Forall (fun s => bound n (set_val s)) (fst (mark_sets rt sets want)).
Proof.
  induction sets as [|s sets IH]; intros want H; cbn; [constructor|]. apply Forall_cons_1 in H as [Hs H].
  set (b := match rt_colByName rt !! set_col s with Some o => _ | None => false end). pose proof (mark_bound n (set_val s) want Hs) as Hs'.
  destruct b; [destruct (markValue (set_val s) want) as [v want']|set (v := set_val s) in *; set (want' := want)];
    pose proof (IH want' H) as Hl; destruct (mark_sets rt sets want'); by constructor.
Qed.
Lemma share_join_bound is_uuid jp : join_bound jp -> join_bound (share_join is_uuid jp).
Proof.
  intros (H1 & H2 & H3 & H4 & H5). unfold join_bound, share_join. cbn. split_and!; try done.
  all: apply Forall_map; eapply Forall_impl; [|eassumption]; intros e He; by apply walk_bound.
Qed.
Lemma bind_ready pl n : plan_ready pl -> plan_ready (bindParamUUIDCoercion (set_nparams pl n)).
Proof.
  destruct pl as [st rt ver np want ords names order iords tmpl uords dep count acc jp]. intros (Hb & Hst & Hj).
  assert (Hw : forall st' want', plan_width (set_params (set_nparams (MkPlan st rt ver np want ords names order iords tmpl uords dep count acc jp) n) st' want') =
    plan_width (MkPlan st rt ver np want ords names order iords tmpl uords dep count acc jp)) by (intros; by destruct jp).
  assert (G : forall st' want', stmt_bound (set_params (set_nparams (MkPlan st rt ver np want ords names order iords tmpl uords dep count acc jp) n) st' want') ->
    plan_ready (set_params (set_nparams (MkPlan st rt ver np want ords names order iords tmpl uords dep count acc jp) n) st' want')).
  { intros st' want' Hs. split; [|split; [done|]]. { unfold plan_bound. rewrite Hw. exact Hb. } cbn. destruct jp as [jp|]; [by apply share_join_bound|done]. }
  unfold stmt_bound in Hst. cbn [pl_st pl_updateOrdinals pl_insertOrdinals pl_insertTmpl] in Hst. unfold bindParamUUIDCoercion. cbn [pl_st set_nparams].
  set (w := plan_width _) in Hst. set (isu := isUUIDCol _ _). set (want0 := replicate _ _).
  assert (Gs : forall st' want', match st' with SSelect s => opt_bound w (sel_where s) | SInsert _ _ _ => below w iords /\ Forall (Forall (cell_ok w)) tmpl
    | SUpdate _ sets e => Forall (fun s => bound w (set_val s)) sets /\ opt_bound w e /\ below w uords | SDelete _ e => opt_bound w e | _ => True end ->
    plan_ready (set_params (set_nparams (MkPlan st rt ver np want ords names order iords tmpl uords dep count acc jp) n) st' want')).
  { intros st' want' H. apply G. unfold stmt_bound. rewrite Hw. exact H. }
  destruct st as [s|tn cols rows|tn sets e|tn e|d|nm]; try (by apply Gs).
  - pose proof (walk_opt_bound isu w (sel_where s) want0 Hst) as B. destruct (walk_opt isu (sel_where s) want0). by apply Gs.
  - destruct Hst as (H1 & H2 & H3). pose proof (walk_opt_bound isu w e want0 H2) as B. destruct (walk_opt isu e want0) as [e' want1]. cbn [pl_rt set_nparams].
    destruct rt as [rt|]; [|by apply Gs]. pose proof (sets_bound (table rt) w sets want1 H1) as B1. destruct (mark_sets (table rt) sets want1). apply Gs. split_and!; [exact B1|exact B|exact H3].
  - pose proof (walk_opt_bound isu w e want0 Hst) as B. destruct (walk_opt isu e want0). by apply Gs.
Qed.

(** ** Plans and the statement cache *)
Section cache.
Context (stack : nat) (mapLower : bytes -> bytes).
(** What preparing [sql] on the catalog [cat] gives, no cache in sight. *)
Definition planned (live : tableRT -> Z) (sql : bytes) (cat : catalog) : outcome plan :=
  x ← build_plan stack mapLower live sql cat ∅; Ok (fst x).
Lemma build_planned live sql cat cache : build_plan stack mapLower live sql cat cache = (pl ← planned live sql cat; Ok (pl, <[sql := pl]> cache)).
Proof.
  unfold planned, build_plan. destruct (parseSQL stack mapLower sql) as [st| |]; [|done..]. cbn. destruct (rejectValueLiterals st); [|done..]. cbn.
  destruct (assignParamIndices st) as [st' n]. by destruct (do_plan live st' cat).
Qed.
Lemma do_plan_version live st cat pl : do_plan live st cat = Ok pl -> pl_catVersion pl = version cat.
Proof.
  intros H. unfold do_plan in H. destruct st as [s|tn cols rows|tn sets w|tn w|d|nm]; cbn [stmt_table] in H; try (by injection H as <-).
  all: destruct (byName cat !! _) as [rt|]; [|done].
  - case_bool_decide; [unfold plan_select in H|]; cbv zeta in H; inv_bind; [done|]. destruct x as [[[w ords] names] jp]. by injection H as <-.
  - unfold plan_insert in H. by inv_bind.
  - unfold plan_update in H. inv_bind. destruct x as [[ss os] dep]. by inv_bind.
  - unfold plan_delete in H. by inv_bind.
Qed.
Lemma bind_version pl n : pl_catVersion (bindParamUUIDCoercion (set_nparams pl n)) = pl_catVersion pl.
Proof.
  unfold bindParamUUIDCoercion. destruct (pl_st (set_nparams pl n)); try done; [by destruct (walk_opt _ _ _)| |by destruct (walk_opt _ _ _)].
  destruct (walk_opt _ _ _). destruct (pl_rt _); [by destruct (mark_sets _ _ _)|done].
Qed.
Lemma planned_version live sql cat pl : planned live sql cat = Ok pl -> pl_catVersion pl = version cat.
Proof.
  unfold planned, build_plan. destruct (parseSQL stack mapLower sql) as [st| |]; [|done..]. cbn. destruct (rejectValueLiterals st); [|done..]. cbn.
  destruct (assignParamIndices st) as [st' n]. destruct (do_plan live st' cat) as [pl0| |] eqn:E; [|done..]. cbn. intros [= <-].
  rewrite bind_version. by eapply do_plan_version.
Qed.

(** A plan kept under its text: current while its version is the catalog's. *)
Definition plan_kept (cat : catalog) (sql : bytes) (pl : plan) : Prop :=
  0 <= pl_catVersion pl <= version cat /\ (pl_catVersion pl = version cat -> exists live, planned live sql cat = Ok pl).
Definition all_kept (db : dbh) (ss : list Stmt) : Prop :=
  0 <= version (db_cat db) < 2 ^ 64 /\ map_Forall (plan_kept (db_cat db)) (db_cache db) /\ Forall (fun s => plan_kept (db_cat db) (sm_sql s) (sm_pl s)) ss.
(** A connection: statements prepared and bound anew through the cache, among
    the catalog's changes. *)
Definition with_cat (db : dbh) (cat : catalog) : dbh := MkDbh (db_closed db) cat (db_cache db).
Inductive conn_step : dbh * list Stmt -> dbh * list Stmt -> Prop :=
  | cs_prepare live db ss sql db' o : Prepare stack mapLower live db sql = (db', o) ->
      conn_step (db, ss) (db', match o with Ok s => s :: ss | _ => ss end)
  | cs_bind live db ss s db' o : s ∈ ss -> bound_plan stack mapLower live db s = (db', o) ->
      conn_step (db, ss) (db', match o with Ok s => s :: ss | _ => ss end)
  | cs_create db ss rt : version (db_cat db) + 1 < 2 ^ 64 -> conn_step (db, ss) (with_cat db (withTable (db_cat db) rt), ss)
  | cs_drop db ss name : version (db_cat db) + 1 < 2 ^ 64 -> conn_step (db, ss) (with_cat db (withoutTable (db_cat db) name), ss)
  | cs_close db ss : conn_step (db, ss) (MkDbh true (db_cat db) (db_cache db), ss).

Definition answers_prepared (closed : bool) (live : tableRT -> Z) (sql : bytes) (cat : catalog) (o : outcome plan) : Prop :=
  match o with
  | Ok pl => closed = false /\ exists live, planned live sql cat = Ok pl
  | o => (closed = true /\ o = Err ErrClosed) \/ (closed = false /\ planned live sql cat = o)
  end.
Lemma kept_planned live sql cat pl : 0 <= version cat -> planned live sql cat = Ok pl -> plan_kept cat sql pl.
Proof. intros Hv H. unfold plan_kept. rewrite (planned_version _ _ _ _ H). split; [lia|eauto]. Qed.
Lemma prepare_kept live db ss sql : all_kept db ss ->
  let o := prepare stack mapLower live (db_closed db) sql (db_cat db) (db_cache db) in
  answers_prepared (db_closed db) live sql (db_cat db) (x ← o; Ok (fst x)) /\
  forall pl cache, o = Ok (pl, cache) -> plan_kept (db_cat db) sql pl /\ map_Forall (plan_kept (db_cat db)) cache.
Proof.
  intros (Hv & Hc & _). unfold prepare. destruct (db_closed db); [by split; [left|]|].
  assert (G : let o := build_plan stack mapLower live sql (db_cat db) (db_cache db) in answers_prepared false live sql (db_cat db) (x ← o; Ok (fst x)) /\
    forall pl cache, o = Ok (pl, cache) -> plan_kept (db_cat db) sql pl /\ map_Forall (plan_kept (db_cat db)) cache).
  { cbv zeta. rewrite build_planned. destruct (planned live sql (db_cat db)) as [pl|e|] eqn:E; cbn; [|by split; [right|]..].
    split; [by split; [|exists live]|]. intros pl' cache [= <- <-]. pose proof (kept_planned _ _ _ _ (proj1 Hv) E) as K. split; [done|by apply map_Forall_insert_2]. }
  destruct (db_cache db !! sql) as [pl|] eqn:Ec; [|done]. destruct (Z.eqb_spec (pl_catVersion pl) (version (db_cat db))) as [Ev|]; [|done].
  pose proof (Hc _ _ Ec) as K. split; [split; [done|by apply K]|]. by intros ? ? [= <- <-].
Qed.
Lemma step_kept c c' : conn_step c c' -> all_kept (fst c) (snd c) -> all_kept (fst c') (snd c').
Proof.
  assert (Hbump : forall cat cat' sql pl, version cat' = version cat + 1 -> plan_kept cat sql pl -> plan_kept cat' sql pl).
  { intros cat cat' sql pl E [Hv _]. split; [lia|]. intros E'. lia. }
  assert (Hdb : forall db db' ss live sql s o, prepared stack mapLower live db sql (fun pl => Ok (MkStmt s pl)) = (db', o) -> s = sql -> all_kept db ss ->
    all_kept db' (match o with Ok s => s :: ss | _ => ss end)).
  { intros db db' ss live sql s o H -> K. destruct (prepare_kept live db ss sql K) as [_ P]. unfold prepared in H. pose proof K as (Hv & Hc & Hs).
    destruct (prepare _ _ _ _ _ _ _) as [[pl cache]| |]; injection H as <- <-; [|done..]. destruct (P _ _ eq_refl) as [K1 K2]. split; [done|]. split; [done|by constructor]. }
  assert (Hcat : forall db ss cat', version cat' = version (db_cat db) + 1 -> version (db_cat db) + 1 < 2 ^ 64 -> all_kept db ss -> all_kept (with_cat db cat') ss).
  { intros db ss cat' E Hlt (Hv & Hc & Hs). split; [cbn; lia|]. split; [intros k pl Hk; eapply Hbump; [exact E|by apply Hc]|]. eapply Forall_impl; [|exact Hs]. intros s. by apply Hbump. }
  assert (Hver : forall db, 0 <= version (db_cat db) < 2 ^ 64 -> version (db_cat db) + 1 < 2 ^ 64 -> u64 (version (db_cat db) + 1) = version (db_cat db) + 1).
  { intros db H1 H2. apply Z.mod_small. lia. }
  intros S. destruct S as [live db ss sql db' o H|live db ss s db' o Hin H|db ss rt H|db ss name H|db ss]; cbn [fst snd]; intros K.
  - by eapply (Hdb db).
  - unfold bound_plan in H. destruct (db_closed db); [by injection H as <- <-|]. destruct (_ =? _); [|by eapply (Hdb db)]. injection H as <- <-.
    destruct K as (Hv & Hc & Hs). split; [done|]. split; [done|]. constructor; [|done]. rewrite list.Forall_forall in Hs. by apply Hs.
  - apply (Hcat db); [|done..]. cbn. apply (Hver db); [apply K|done].
  - apply (Hcat db); [|done..]. cbn. apply (Hver db); [apply K|done].
  - exact K.
Qed.
Lemma steps_kept c c' : rtc conn_step c c' -> all_kept (fst c) (snd c) -> all_kept (fst c') (snd c').
Proof. induction 1 as [|c c1 c' S _ IH]; [done|]. intros K. by eapply IH, step_kept. Qed.

(** C11: no stale plan. Whatever a connection prepared, bound anew or closed
    among any CREATEs and DROPs, preparing a text answers — from the cache or not
    — with a plan made from that text on the current catalog, or the error that
    making it gives; and a statement held since any earlier catalog runs on such a
    plan of its own text. *)
Theorem plan_never_stale db db' ss : 0 <= version (db_cat db) < 2 ^ 64 -> db_cache db = ∅ -> rtc conn_step (db, []) (db', ss) ->
  (forall live sql, answers_prepared (db_closed db') live sql (db_cat db')
    (x ← prepare stack mapLower live (db_closed db') sql (db_cat db') (db_cache db'); Ok (fst x))) /\
  forall live s, s ∈ ss -> answers_prepared (db_closed db') live (sm_sql s) (db_cat db')
    (s' ← snd (bound_plan stack mapLower live db' s); Ok (sm_pl s')).
Proof.
  intros Hv Hc Hs. assert (K : all_kept db' ss).
  { apply (steps_kept (db, []) (db', ss)); [done|]. split; [done|]. cbn. rewrite Hc. split; [apply map_Forall_empty|constructor]. }
  split; [intros live sql; by apply prepare_kept with ss|]. intros live s Hin. unfold bound_plan, prepared.
  pose proof (prepare_kept live db' ss (sm_sql s) K) as [A _]. destruct (db_closed db') eqn:Ecl; [by left|].
  destruct (Z.eqb_spec (pl_catVersion (sm_pl s)) (version (db_cat db'))) as [Ev|_].
  - split; [done|]. destruct K as (_ & _ & F). rewrite list.Forall_forall in F. by apply (F s Hin).
  - rewrite <- Ecl in A |- *. destruct (prepare _ _ _ _ _ _ _) as [[pl cache]| |]; exact A.
Qed.

(** Preparing is total. Over tables the schema resolved, any SQL text is
    refused with an error or gives a plan whose every ordinal — projection, ORDER
    BY, SET, INSERT and both sides of a join — and every column of its expressions
    lies inside the row it is read from. *)
Theorem prepare_total live closed sql cat cache : (8 + frames 0 <= stack)%nat -> tables_resolved cat -> map_Forall (fun _ => plan_ready) cache ->
  safe (fun r => plan_ready (fst r) /\ map_Forall (fun _ => plan_ready) (snd r)) (prepare stack mapLower live closed sql cat cache).
Proof.
  intros Hst Hcat Hc. unfold prepare. destruct closed; [done|].
  assert (G : safe (fun r => plan_ready (fst r) /\ map_Forall (fun _ => plan_ready) (snd r)) (build_plan stack mapLower live sql cat cache)).
  { unfold build_plan. destruct (parseSQL stack mapLower sql) as [st| |] eqn:Ep; [|done|].
    2: { pose proof (parse_safe stack Hst mapLower sql) as T. by rewrite Ep in T. }
    cbn. destruct (rejectValueLiterals st) as [[]| |] eqn:Er; [|done|by unfold rejectValueLiterals in Er; destruct (match st with SSelect _ => _ | _ => _ end)].
    cbn. destruct (accepted st (parse_shape _ _ _ _ Ep) Er) as [Hraw _]. destruct (assignParamIndices st) as [st' n]. cbn in Hraw.
    pose proof (do_plan_total live st' cat Hcat Hraw) as S. destruct (do_plan live st' cat) as [pl| |]; [|done|done]. cbn in S |- *.
    pose proof (bind_ready pl n S). split; [done|by apply map_Forall_insert_2]. }
  destruct (cache !! sql) as [pl|] eqn:Ec; [|done]. destruct (_ =? _); [|done]. split; [by apply (Hc _ _ Ec)|done].
Qed.
End cache.

(** ** A plan, and then its table dropped *)
Definition live1 (rt : tableRT) : Z := 1.
Definition age_text : bytes := lit "SELECT name FROM users WHERE age = ?".
Definition db_then : dbh := fst (Prepare 2056 id live1 (MkDbh false demo_cat ∅) age_text).
Definition stmts_then : list Stmt := match snd (Prepare 2056 id live1 (MkDbh false demo_cat ∅) age_text) with Ok s => [s] | _ => [] end.
Definition db_dropped : dbh := with_cat db_then (withoutTable (db_cat db_then) (lit "users")).
Lemma plan_never_stale_witness : rtc (conn_step 2056 id) (MkDbh false demo_cat ∅, []) (db_dropped, stmts_then) /\
  answers_prepared 2056 id (db_closed db_dropped) live1 age_text (db_cat db_dropped)
    (x ← prepare 2056 id live1 (db_closed db_dropped) age_text (db_cat db_dropped) (db_cache db_dropped); Ok (fst x)).
Proof.
  assert (S : rtc (conn_step 2056 id) (MkDbh false demo_cat ∅, []) (db_dropped, stmts_then)).
  { eapply rtc_l; [apply (cs_prepare 2056 id live1 (MkDbh false demo_cat ∅) [] age_text db_then _ (surjective_pairing _))|]. apply rtc_once.
    apply cs_drop. vm_compute. done. }
  split; [exact S|]. apply (proj1 (plan_never_stale 2056 id (MkDbh false demo_cat ∅) db_dropped stmts_then ltac:(vm_compute; done) eq_refl S)).
Defined.
(** The cached plan is not used. *)
Example dropped_table_refused : (x ← prepare 2056 id live1 false age_text (db_cat db_dropped) (db_cache db_dropped); Ok (pl_nparams (fst x))) = Err ErrUnknownTable.
Proof. vm_compute. reflexivity. Qed.
Lemma prepare_total_witness : safe (fun r => plan_ready (fst r) /\ map_Forall (fun _ => plan_ready) (snd r)) (prepare 2056 id live1 false age_text demo_cat ∅).
Proof. apply (prepare_total 2056 id live1 false age_text demo_cat ∅); [vm_compute; lia|exact demo_cat_resolved|apply map_Forall_empty]. Defined.
