(* ===== verification/QueryMain.v ===== *)
(** * QueryMain: from SQL text to rows — the read entry points over any reachable
    table state. *)
From S2P Require Import Prelude Bytes Order Uuid Value CompositeKey PkMap Codec Frame Journal Schema Catalog SecIndex IndexOk Store StoreOk StoreSim Merge MergeOk MergeSafe Ast Eval Filter Lexer Parser ParserOk ParserTree TopN TopNOk Plan PlanJoin PlanOk PlanJoinOk Recovery Replayer RecoveryOk Select SelectOk CandOk WalkOk SelectSound SelectMain Join Query QueryOk Prepare.

(** ** What the text says *)
(** A single-table SELECT without literals, its parameters numbered. *)
Definition asks (stack : nat) (mapLower : bytes -> bytes) (cat : catalog) (sql : bytes) (rt : tableRT) (s : selectStmt) (n : Z) : Prop :=
  exists st, parseSQL stack mapLower sql = Ok st /\ rejectValueLiterals st = Ok tt /\ assignParamIndices st = (SSelect s, n) /\
    sel_joins s = [] /\ byName cat !! sel_table s = Some rt.
Lemma asked_plan stack mapLower cat sql rt s n live pl : asks stack mapLower cat sql rt s n -> planned stack mapLower live sql cat = Ok pl ->
  exists st, planned_select rt cat s pl st /\ pl_rt pl = Some rt /\ pl_nparams pl = n /\
    (sel_countStar s = true -> sel_limit s = -1 /\ sel_offset s = 0).
Proof.
  intros (st0 & Ep & Er & En & Ej & Et) H. pose proof (parse_shape _ _ _ _ Ep) as Hs. pose proof (accepted st0 Hs Er) as Ha.
  unfold planned, build_plan in H. rewrite Ep in H. cbn in H. rewrite Er in H. cbn in H. rewrite En in H, Ha. cbn in Ha. destruct Ha as [Hraw Hlit].
  unfold do_plan in H. cbn [stmt_table] in H. rewrite Et in H. rewrite bool_decide_true in H by done.
  destruct (plan_select rt s cat) as [pl0| |] eqn:E0; [|done..]. cbn in H. injection H as <-. destruct (bound_reads rt s cat pl0 n Hlit E0) as [Hread [st Est]].
  exists st. split; [|split; [|split]].
  - split; [done|]. destruct Hread as (E1 & Hrest). split; [by rewrite E1|]. exists pl0. by split.
  - unfold plan_select in E0. cbv zeta in E0. inv_bind. unfold bindParamUUIDCoercion. cbn. by destruct (walk_opt _ _ _).
  - unfold plan_select in E0. cbv zeta in E0. inv_bind. unfold bindParamUUIDCoercion. cbn. by destruct (walk_opt _ _ _).
  - unfold assignParamIndices in En. destruct st0 as [s0| | | | |]; cbn in En; repeat case_match; try done. simplify_eq. cbn. intros Hc. destruct Hs as [_ Hs]. by destruct (Hs Hc) as (_ & ? & ? & _).
Qed.

Section main.
Context {J : Type} `{Journal J} (pkHashSeed : Z) (def : resolvedTable) (max ext : Z) (ck : nat -> ValueKind).
Local Abbreviation ncols := (length (t_Columns (rt_def def))).
Hypothesis pk_in : (pkOrd def < ncols)%nat.
Hypothesis ords_in : Forall (fun ri => Forall (fun o => (o < ncols)%nat) (ri_ordinals ri)) (rt_indexes def).
Local Abbreviation served := (served pkHashSeed def max ext ck).

(** ** The indexes up to the queued writes *)
Lemma fold_sum {A} (f : A -> list UUID) l : forall z, fold_left (fun z s => z + zlen (f s)) l z = z + zlen (concat (map f l)).
Proof. induction l as [|s l IH]; intros z; cbn; [unfold zlen; cbn; lia|]. rewrite IH. unfold zlen. rewrite length_app. lia. Qed.
Lemma pending_size t : zlen (pending t) = zlen (concat (map s_dirtyRead (t_shards t))) + zlen (concat (map s_dirtyDel (t_shards t))).
Proof. unfold pending. induction (t_shards t) as [|s l IH]; [done|]. cbn. unfold zlen in *. rewrite !length_app. lia. Qed.
Lemma served_tracks t ixs g : served t ixs -> (forall pk, getByPK pkHashSeed t pk = Ok (g !! pk)) ->
  zlen (pending t) = t_readDirty t + t_delDirty t /\ forall si, si ∈ ixs -> tracks ck g (pending t) si.
Proof.
  intros [y0 y Hix Hb Hsh Hr|t' g' Hno Ht Hty] Hg.
  - destruct (reach_inv pkHashSeed def max ext ck pk_in Hix ords_in y0 y Hb Hr) as (fr & g' & Hi). pose proof (iv_tbl _ _ _ _ _ _ _ _ _ _ Hi) as Ht.
    assert (g' = g) as ->. { apply map_eq. intros pk. pose proof (Hg pk) as E. rewrite (getByPK_ok _ _ _ _ _ _ _ pk Ht) in E. congruence. }
    destruct (tb_dirty _ _ _ _ _ _ _ Ht) as [E1 E2]. rewrite fold_sum in E1, E2. rewrite pending_size. split; [lia|].
    destruct (iv_ix _ _ _ _ _ _ _ _ _ _ Hi) as [Hlen Hinv]. intros si (x & Hx)%list_elem_of_lookup_1.
    destruct (lookup_lt_is_Some_2 (m_changed (y_m y)) x) as [ch Hch]; [rewrite <- Hlen; by eapply lookup_lt_Some|].
    destruct (Hinv _ _ _ Hx Hch) as (vis & I1 & I2 & _). exists vis. split; [done|]. intros k Hk.
    destruct (lookup_row pkHashSeed def max None ext (y_t y) g k Ht) as (s & Hst & _). destruct (I2 k s Hst) as (_ & _ & W). cbn in W. rewrite !drop_0 in W.
    assert (Hq : (k ∉ s_dirtyRead s) /\ (k ∉ s_dirtyDel s)).
    { assert (Hin : s_dirtyRead s ++ s_dirtyDel s ⊆ pending (y_t y)).
      { intros u Hu. unfold pending. apply list_elem_of_In, in_concat. exists (s_dirtyRead s ++ s_dirtyDel s). split; [|by apply list_elem_of_In].
        apply (in_map (fun s => s_dirtyRead s ++ s_dirtyDel s)), list_elem_of_In. by eapply list_elem_of_lookup_2. }
      split; intros Hs; apply Hk, Hin, elem_of_app; auto. }
    destruct Hq as [Hq1 Hq2]. destruct (g !! k) as [r|]; cbn; [by destruct W as [W|W]|]. by destruct W as [W|[W|W]].
  - destruct (tb_dirty _ _ _ _ _ _ _ Ht) as [E1 E2]. rewrite fold_sum in E1, E2. rewrite pending_size. split; [lia|]. by intros si ?%elem_of_nil.
Qed.

(** ** The entry points *)
Context (SortFunc : forall A : Type, (A -> A -> Z) -> list A -> list A) {sorts : forall A, SortsFunc (SortFunc A)}.
Context (maxCells maxRows : Z) (store : tableRT -> tbl_state * list secIndex) (stack : nat) (mapLower : bytes -> bytes) (live : tableRT -> Z).
(** A result of a planned SELECT: an answer, or under COUNT one cell that counts
    the matching rows — up to the writes queued for the merge where the bucket of
    an index is counted. *)
Definition result (t : tbl_state) (pl : plan) (st : selectStmt) (args : list Value) (rows : list Row) : Prop :=
  if pl_countStar pl
  then exists n, rows = [[Int n]] /\ Z.abs (n - zlen (matching t (mb def st args))) <= if countIdxBucket (pl_access pl) then t_readDirty t + t_delDirty t else 0
  else answers def t pl st args (Ok rows).
(** An open handle is asked a SELECT whose arguments, coerced, meet what its plan
    requires of them. *)
Record query_req (t : tbl_state) (db : dbh) (sql : bytes) (rt : tableRT) (pl : plan) (st : selectStmt) (args args' : list Value) : Prop := {
  qr_open : db_closed db = false;
  qr_kept : all_kept stack mapLower db [];
  qr_asks : exists s n, asks stack mapLower (db_cat db) sql rt s n;
  qr_plan : exists cache, prepare stack mapLower live (db_closed db) sql (db_cat db) (db_cache db) = Ok (pl, cache);
  qr_st : pl_st pl = SSelect st;
  qr_count : zlen args = pl_nparams pl;
  qr_args : coerceParams (pl_paramWantUUID pl) args = Ok args';
  qr_req : select_req pkHashSeed def ck t rt pl st args';
  qr_fits : walk_fits def pl st maxCells;
}.

Section one.
Context (t : tbl_state) (ixs : list secIndex) (db : dbh) (sql : bytes) (rt : tableRT) (pl : plan) (st : selectStmt) (args args' : list Value).
Hypothesis Hserved : served t ixs.
Hypothesis Hstore : store rt = (t, ixs).
Hypothesis Q : query_req t db sql rt pl st args args'.
Lemma req_planned : exists s, planned_select rt (db_cat db) s pl st /\ pl_rt pl = Some rt /\ (sel_countStar s = true -> sel_limit s = -1 /\ sel_offset s = 0).
Proof.
  destruct (qr_asks _ _ _ _ _ _ _ _ Q) as (s & n & Ha). destruct (qr_plan _ _ _ _ _ _ _ _ Q) as (cache & Ep).
  destruct (prepare_kept stack mapLower live db [] sql (qr_kept _ _ _ _ _ _ _ _ Q)) as [A _]. rewrite Ep in A. cbn in A. destruct A as (_ & live' & E).
  destruct (asked_plan _ _ _ _ _ _ _ _ _ Ha E) as (st' & Hp & Hr & _ & Hc). exists s. split_and!; [|done|done].
  assert (st' = st) as ->; [|done]. destruct Hp as (_ & E1 & _). rewrite (qr_st _ _ _ _ _ _ _ _ Q) in E1. congruence.
Qed.
Lemma req_parts : exists g d hasOrder count, readable pkHashSeed def ck t ixs g d /\ sound_plan def t pl st args' /\ resolved_ok (rt_def def) def /\
  (forall pk r, g !! pk = Some r -> row_fits (t_Columns (rt_def def)) r) /\ (forall pk, getByPK pkHashSeed t pk = Ok (g !! pk)) /\
  plan_select_path def (sel_where st) hasOrder (pl_orderOrdinal pl) count = Ok (pl_access pl) /\ (forall w, sel_where st = Some w -> named def w) /\
  pl_joinPlan pl = None /\ (pl_countStar pl = true -> sel_limit st < 0 /\ sel_offset st = 0).
Proof.
  destruct req_planned as (s & Hp & _ & Hc). pose proof (qr_req _ _ _ _ _ _ _ _ Q) as R.
  destruct (req_sound pkHashSeed def max ext ck pk_in ords_in t ixs rt (db_cat db) s pl st args' Hserved Hp R) as (g & d & Hr & Hg & P).
  destruct (planned_parts pkHashSeed def ck t rt (db_cat db) s pl st args' Hp R) as (hasOrder & count & _ & El & Eo & Hpath & Hn & _ & _ & _ & Hj & Ec).
  exists g, d, hasOrder, count. split_and!; try done.
  - pose proof (resolved_table _ _ (sq_table _ _ _ _ _ _ _ _ R)) as Hrt. by rewrite (sq_def _ _ _ _ _ _ _ _ R) in Hrt.
  - intros pk r Hgr. apply (sq_rows _ _ _ _ _ _ _ _ R pk). by rewrite Hg, Hgr.
  - rewrite Ec, El, Eo. intros H1. destruct (Hc H1). lia.
Qed.
Lemma req_rt : pl_rt pl = Some rt.
Proof. by destruct req_planned as (s & _ & ? & _). Qed.
Lemma counted (Hcount : pl_countStar pl = true) : exists n, countRows pkHashSeed SortFunc maxCells maxRows store pl st rt args' = Ok n /\ result t pl st args' [[Int n]].
Proof.
  destruct req_parts as (g & d & hasOrder & count & R & P & Hrt & Hf & Hg & Hpath & Hn & Hj & Hc). pose proof (qr_req _ _ _ _ _ _ _ _ Q) as Rq. destruct (Hc Hcount) as [Hl Ho].
  destruct (served_tracks t ixs g Hserved Hg) as [Hsize Htr].
  destruct (counts pkHashSeed def ck t ixs g d R SortFunc maxCells maxRows store rt Hstore (sq_def _ _ _ _ _ _ _ _ Rq) pl st args' P Hrt Hf pk_in hasOrder count Hpath
    (sq_flat _ _ _ _ _ _ _ _ Rq) Hn (sq_pins _ _ _ _ _ _ _ _ Rq) (sq_kind _ _ _ _ _ _ _ _ Rq) (sq_pk _ _ _ _ _ _ _ _ Rq) Hj (qr_fits _ _ _ _ _ _ _ _ Q) (pending t) Hl Ho Htr) as (n & E & Hb).
  exists n. split; [done|]. unfold result. rewrite Hcount. exists n. by rewrite <- Hsize.
Qed.
(** The three dispatches, after the argument checks. *)
Lemma rows_result : exists rows, queryPlanV pkHashSeed SortFunc maxCells maxRows store pl st rt args = Ok rows /\ result t pl st args' rows.
Proof.
  unfold queryPlanV, checkArgs. rewrite (qr_count _ _ _ _ _ _ _ _ Q), Z.eqb_refl, ok_bind, (qr_args _ _ _ _ _ _ _ _ Q), ok_bind.
  destruct (pl_countStar pl) eqn:Ec. { destruct (counted Ec) as (n & -> & Hn). rewrite ok_bind. by eexists. }
  destruct req_parts as (g & d & hasOrder & count & R & P & Hrt & Hf & Hg & Hpath & Hn & Hj & Hc). pose proof (qr_req _ _ _ _ _ _ _ _ Q) as Rq.
  pose proof (rows_plan_answers pkHashSeed def ck t ixs g d R SortFunc maxCells maxRows store rt Hstore (sq_def _ _ _ _ _ _ _ _ Rq) pl st args' P Hrt Hf pk_in hasOrder count Hpath
    (sq_flat _ _ _ _ _ _ _ _ Rq) Hn (sq_pins _ _ _ _ _ _ _ _ Rq) (sq_kind _ _ _ _ _ _ _ _ Rq) (sq_pk _ _ _ _ _ _ _ _ Rq) Hj (qr_fits _ _ _ _ _ _ _ _ Q)) as A.
  destruct (answers_Ok _ _ _ _ _ _ A) as (rows & E & A'). exists rows. unfold result. rewrite Ec. split; [|done].
  rewrite <- E. unfold rows_plan. rewrite Hstore. cbn [fst snd]. by rewrite (sq_def _ _ _ _ _ _ _ _ Rq).
Qed.
Lemma row_result : exists rows, queryRowPlanV pkHashSeed SortFunc maxCells maxRows store pl st rt args = Ok (head rows) /\ result t pl st args' rows.
Proof.
  unfold queryRowPlanV, checkArgs. rewrite (qr_count _ _ _ _ _ _ _ _ Q), Z.eqb_refl, ok_bind, (qr_args _ _ _ _ _ _ _ _ Q), ok_bind.
  destruct (pl_countStar pl) eqn:Ec. { destruct (counted Ec) as (n & -> & Hn). rewrite ok_bind. exists [[Int n]]. by split. }
  destruct req_parts as (g & d & hasOrder & count & R & P & Hrt & Hf & Hg & Hpath & Hn & Hj & Hc). pose proof (qr_req _ _ _ _ _ _ _ _ Q) as Rq.
  destruct (row_plan_answers pkHashSeed def ck t ixs g d R SortFunc maxCells maxRows store rt Hstore (sq_def _ _ _ _ _ _ _ _ Rq) pl st args' P Hrt Hf pk_in hasOrder count Hpath
    (sq_flat _ _ _ _ _ _ _ _ Rq) Hn (sq_pins _ _ _ _ _ _ _ _ Rq) (sq_kind _ _ _ _ _ _ _ _ Rq) (sq_pk _ _ _ _ _ _ _ _ Rq) Hj (qr_fits _ _ _ _ _ _ _ _ Q)) as (rows & A & E).
  exists rows. unfold result. rewrite Ec. split; [|done]. rewrite <- E. unfold row_plan. rewrite Hstore. cbn [fst snd]. by rewrite (sq_def _ _ _ _ _ _ _ _ Rq).
Qed.
Lemma each_result {A} (visit : A -> Row -> A * bool) a : exists rows, queryPlanV pkHashSeed SortFunc maxCells maxRows store pl st rt args = Ok rows /\
  selectEach pkHashSeed SortFunc maxCells maxRows store pl st rt visit args a = Ok (visit_rows visit a rows).
Proof.
  unfold queryPlanV, selectEach, checkArgs. rewrite (qr_count _ _ _ _ _ _ _ _ Q), Z.eqb_refl, ok_bind, (qr_args _ _ _ _ _ _ _ _ Q), !ok_bind.
  destruct (pl_countStar pl) eqn:Ec.
  { destruct (counted Ec) as (n & -> & Hn). rewrite !ok_bind. exists [[Int n]]. split; [done|]. cbn [visit_rows]. by destruct (visit a [Int n]) as [b []]. }
  destruct req_parts as (g & d & hasOrder & count & R & P & Hrt & Hf & Hg & Hpath & Hn & Hj & Hc). pose proof (qr_req _ _ _ _ _ _ _ _ Q) as Rq.
  destruct (select_streams pkHashSeed def ck t ixs g d R SortFunc maxCells maxRows store rt Hstore (sq_def _ _ _ _ _ _ _ _ Rq) pl st args' P Hrt Hf pk_in hasOrder count Hpath
    (sq_flat _ _ _ _ _ _ _ _ Rq) Hn (sq_pins _ _ _ _ _ _ _ _ Rq) (sq_kind _ _ _ _ _ _ _ _ Rq) (sq_pk _ _ _ _ _ _ _ _ Rq) Hj (qr_fits _ _ _ _ _ _ _ _ Q) visit a) as (rows & E & E').
  exists rows. split; [|done]. rewrite <- (rows_plan_run pkHashSeed def ck t ixs g d R SortFunc maxCells maxRows store rt Hstore (sq_def _ _ _ _ _ _ _ _ Rq) pl st args' P Hrt Hf hasOrder count Hpath
    (sq_flat _ _ _ _ _ _ _ _ Rq) Hn (sq_pins _ _ _ _ _ _ _ _ Rq) (sq_kind _ _ _ _ _ _ _ _ Rq) (sq_pk _ _ _ _ _ _ _ _ Rq) Hj) in E.
  rewrite <- E. unfold rows_plan. rewrite Hstore. cbn [fst snd]. by rewrite (sq_def _ _ _ _ _ _ _ _ Rq).
Qed.
End one.

(** C4: QueryValues and QueryRowValues are exact from the text on. On any
    reachable state of a table, an open handle asked a single-table SELECT — its
    plan from the cache or made now, on any access path — returns under the
    plan's column names the OFFSET/LIMIT window of the matching rows in order,
    the row form the first of such a window; COUNT returns the number of matching
    rows, off by at most the writes queued for the merge where it reads the size
    of an index bucket. *)
Theorem query_values_exact t ixs db sql rt pl st args args' : served t ixs -> store rt = (t, ixs) -> query_req t db sql rt pl st args args' ->
  (exists rows, snd (QueryValues pkHashSeed SortFunc maxCells maxRows store stack mapLower live db sql args) = Ok (pl_colNames pl, rows) /\ result t pl st args' rows) /\
  exists rows, snd (QueryRowValues pkHashSeed SortFunc maxCells maxRows store stack mapLower live db sql args) = Ok (pl_colNames pl, head rows) /\ result t pl st args' rows.
Proof.
  intros Hs Ht Q. destruct (qr_plan _ _ _ _ _ _ _ _ Q) as (cache & Ep). unfold QueryValues, QueryRowValues, prepared. rewrite Ep. cbn [snd]. unfold on_select.
  rewrite (qr_st _ _ _ _ _ _ _ _ Q), (req_rt t db sql rt pl st args args' Q). split.
  - destruct (rows_result t ixs db sql rt pl st args args' Hs Ht Q) as (rows & -> & Hr). by exists rows.
  - destruct (row_result t ixs db sql rt pl st args args' Hs Ht Q) as (rows & -> & Hr). by exists rows.
Qed.
(** C40: QueryEach is QueryValues row by row. On the same state, handle, text and
    arguments, folding any visitor over the stream is folding it over the very rows
    QueryValues returns — the same rows in the same order, the same LIMIT subset
    and the same COUNT, under the same column names — up to where the visitor stops.
    This holds although the two take different paths: streams skip the point-read
    shortcut, and walk an ORDER BY index where QueryValues reads one primary key. *)
Theorem query_each_visits t ixs db sql rt pl st args args' : served t ixs -> store rt = (t, ixs) -> query_req t db sql rt pl st args args' ->
  forall A (visit : A -> list bytes -> Row -> A * bool) a, exists rows,
    snd (QueryValues pkHashSeed SortFunc maxCells maxRows store stack mapLower live db sql args) = Ok (pl_colNames pl, rows) /\
    snd (QueryEach pkHashSeed SortFunc maxCells maxRows store stack mapLower live db sql args visit a) =
      Ok (visit_rows (fun a row => visit a (pl_colNames pl) row) a rows).
Proof.
  intros Hs Ht Q A visit a. destruct (qr_plan _ _ _ _ _ _ _ _ Q) as (cache & Ep). unfold QueryValues, QueryEach, prepared. rewrite Ep. cbn [snd]. unfold on_select.
  rewrite (qr_st _ _ _ _ _ _ _ _ Q), (req_rt t db sql rt pl st args args' Q).
  destruct (each_result t ixs db sql rt pl st args args' Hs Ht Q (fun a row => visit a (pl_colNames pl) row) a) as (rows & -> & ->). by exists rows.
Qed.
End main.

(** ** The users table *)
Lemma select_req_reads pkHashSeed def ck t rt pl0 pl st args : reads_as pl0 pl -> select_req pkHashSeed def ck t rt pl0 st args -> select_req pkHashSeed def ck t rt pl st args.
Proof. intros (_ & Ea & _ & Eo & _) []. split; try done; [by rewrite Ea|]. unfold orderOrd. by rewrite Eo. Qed.
Definition users_db : dbh := MkDbh false demo_cat ∅.
Definition users_store (rt : tableRT) : tbl_state * list secIndex := (y_t users_wrote, y_ix users_wrote).
Definition users_prepared (sql : string) : plan :=
  match planned 2056 id (fun _ => 1) (lit sql) demo_cat with Ok pl => pl | _ => blank_plan (SDrop []) None demo_cat end.
Definition users_parsed (sql : string) : stmt := match parseSQL 2056 id (lit sql) with Ok st => st | _ => SDrop [] end.
Definition users_numbered (sql : string) : selectStmt := match assignParamIndices (users_parsed sql) with (SSelect s, _) => s | _ => ab_parsed sql end.
Lemma users_asks : asks 2056 id demo_cat (lit age_sql) users_tab (users_numbered age_sql) 1.
Proof. exists (users_parsed age_sql). split_and!; vm_compute; reflexivity. Qed.
Lemma users_query_req : query_req 0 users_rt users_ck 1000 2056 id (fun _ => 1) (y_t users_wrote) users_db (lit age_sql) users_tab (users_prepared age_sql) (users_stmt age_sql) [Int 36] [Int 36].
Proof.
  split.
  - done.
  - split; [vm_compute; done|]. split; [apply map_Forall_empty|constructor].
  - exists (users_numbered age_sql), 1. exact users_asks.
  - exists (<[lit age_sql := users_prepared age_sql]> ∅). unfold prepare. cbn [db_closed users_db db_cache db_cat]. rewrite lookup_empty, build_planned.
    assert (E : planned 2056 id (fun _ => 1) (lit age_sql) demo_cat = Ok (users_prepared age_sql)) by (vm_compute; reflexivity). by rewrite E.
  - vm_compute. reflexivity.
  - vm_compute. reflexivity.
  - vm_compute. reflexivity.
  - apply (select_req_reads _ _ _ _ _ (users_select age_sql)); [split_and!; vm_compute; reflexivity|exact users_req].
  - vm_compute. done.
Qed.
Definition users_query := QueryValues 0 users_sort 1000 1000 users_store 2056 id (fun _ => 1) users_db (lit age_sql) [Int 36].
Lemma query_values_exact_witness : exists rows, snd users_query = Ok ([lit "name"], rows) /\
  result users_rt (y_t users_wrote) (users_prepared age_sql) (users_stmt age_sql) [Int 36] rows.
Proof.
  destruct users_side as (H1 & H2 & H3).
  destruct (query_values_exact 0 users_rt 1000 0 users_ck H1 H3 users_sort 1000 1000 users_store 2056 id (fun _ => 1) (y_t users_wrote) (y_ix users_wrote) users_db (lit age_sql) users_tab
    (users_prepared age_sql) (users_stmt age_sql) [Int 36] [Int 36] users_served eq_refl users_query_req) as [(rows & E & Hr) _].
  exists rows. split; [|exact Hr]. assert (En : pl_colNames (users_prepared age_sql) = [lit "name"]) by (vm_compute; reflexivity). rewrite En in E. exact E.
Defined.
Lemma query_each_visits_witness : exists rows, snd users_query = Ok ([lit "name"], rows) /\
  snd (QueryEach 0 users_sort 1000 1000 users_store 2056 id (fun _ => 1) users_db (lit age_sql) [Int 36]
    (fun n names row => (n + zlen row, true)) 0) = Ok (visit_rows (fun n row => (n + zlen row, true)) 0 rows).
Proof.
  destruct users_side as (H1 & H2 & H3).
  assert (En : pl_colNames (users_prepared age_sql) = [lit "name"]) by (vm_compute; reflexivity). unfold users_query. rewrite <- En.
  exact (query_each_visits 0 users_rt 1000 0 users_ck H1 H3 users_sort 1000 1000 users_store 2056 id (fun _ => 1) (y_t users_wrote) (y_ix users_wrote) users_db (lit age_sql) users_tab
    (users_prepared age_sql) (users_stmt age_sql) [Int 36] [Int 36] users_served eq_refl users_query_req Z (fun n names row => (n + zlen row, true)) 0).
Defined.
Example users_query_runs : snd users_query = Ok ([lit "name"], [[Str (lit "ada")]]).
Proof. vm_compute. reflexivity. Qed.
(** The bucket of an index is counted as of the last merge. *)
Definition users_count (t : tbl_state * list secIndex) : outcome (list bytes * list Row) :=
  snd (QueryValues 0 users_sort 1000 1000 (fun _ => t) 2056 id (fun _ => 1) users_db (lit "SELECT COUNT(*) FROM users WHERE age = ?") [Int 36]).
Example count_before_merge : users_count (y_t users_wrote, y_ix users_wrote) = Ok ([lit "count"], [[Int 0]]).
Proof. vm_compute. reflexivity. Qed.
(** QueryEach does not count its arguments: a parameter without one fails every
    row's comparison, and the query quietly visits nothing. *)
Example each_skips_arg_count :
  snd (QueryEach 0 users_sort 1000 1000 users_store 2056 id (fun _ => 1) users_db (lit "SELECT age FROM users WHERE name = ?") [] (fun n _ _ => (n + 1, true)) 0) = Ok 0 /\
  snd (QueryValues 0 users_sort 1000 1000 users_store 2056 id (fun _ => 1) users_db (lit "SELECT age FROM users WHERE name = ?") []) = Err ErrParamMismatch.
Proof. vm_compute. done. Qed.
(** QueryRowByPK takes any statement that pins the primary key: a prepared DELETE
    reads its row, and LIMIT 0 is not looked at. *)
Definition users_by_pk (sql : string) : outcome (list Value * bool) :=
  match Prepare 2056 id (fun _ => 1) users_db (lit sql) with
  | (db, Ok s) => snd (Stmt_QueryRowByPK 0 users_store 2056 id (fun _ => 1) db s ada_id [])
  | (_, Err e) => Err e
  | (_, Panic) => Panic
  end.
Example by_pk_takes_any_statement :
  users_by_pk "DELETE FROM users WHERE id = ?" = Ok (ada 36 (lit "ada"), true) /\
  users_by_pk "SELECT name FROM users WHERE id = ? LIMIT 0" = Ok ([Str (lit "ada")], true).
Proof. vm_compute. done. Qed.
