(* ===== verification/Json.v ===== *)
(** * Json: the pieces of Go's standard library wire.go leans on — the decoder of
    encoding/json (for an [any] under [UseNumber]), unicode/utf8 as that decoder
    uses it, and encoding/base64's StdEncoding.

    The decoder is also the reference the encoders of [Wire] are read back with. *)
From S2P Require Import Prelude Bytes Uuid Value Schema.

(** ** Decoded values: a number keeps its text (json.Number), an object its members. *)
Inductive jval : Type :=
  | JNull
  | JBool (b : bool)
  | JNum (s : bytes)
  | JStr (s : bytes)
  | JArr (l : list jval)
  | JObj (l : list (bytes * jval)).

Definition is_char (z : Z) (c : Init.Byte.byte) : bool := b2z c =? z.
Definition is_space (c : Init.Byte.byte) : bool :=
  is_char 0x20 c || is_char 0x09 c || is_char 0x0a c || is_char 0x0d c.
Fixpoint skip_space (s : bytes) : bytes :=
  match s with c :: r => if is_space c then skip_space r else s | [] => [] end.

(** ** Strings *)

(** The length of the rune at the head of [s], 0 if its bytes are not UTF-8. *)
Definition rune_len (s : bytes) : nat :=
  let ok n := (n <=? length s)%nat && ValidString (take n s) in
  if ok 1%nat then 1%nat else if ok 2%nat then 2%nat else if ok 3%nat then 3%nat
  else if ok 4%nat then 4%nat else 0%nat.

(** utf8.AppendRune, for a code point below 0x110000 that is not a surrogate. *)
Definition utf8_encode (z : Z) : bytes :=
  if z <? 0x80 then [z2b z]
  else if z <? 0x800 then [z2b (0xC0 + Z.shiftr z 6); z2b (0x80 + Z.land z 0x3F)]
  else if z <? 0x10000 then
    [z2b (0xE0 + Z.shiftr z 12); z2b (0x80 + Z.land (Z.shiftr z 6) 0x3F); z2b (0x80 + Z.land z 0x3F)]
  else
    [z2b (0xF0 + Z.shiftr z 18); z2b (0x80 + Z.land (Z.shiftr z 12) 0x3F);
     z2b (0x80 + Z.land (Z.shiftr z 6) 0x3F); z2b (0x80 + Z.land z 0x3F)].
Definition runeError : bytes := utf8_encode 0xFFFD.

(** The four digits of a [\u] escape. *)
Definition hex4 (s : bytes) : option (Z * bytes) :=
  match s with
  | a :: b :: c :: d :: r =>
      let h := map hexNibble [a; b; c; d] in
      if existsb (fun n => n =? 0xFF) h then None
      else Some (fold_left (fun z n => 16 * z + n) h 0, r)
  | _ => None
  end.

Definition esc_char (c : Init.Byte.byte) : option Z :=
  let z := b2z c in
  if (z =? 0x22) || (z =? 0x5c) || (z =? 0x2f) then Some z
  else if z =? 0x62 then Some 0x08 else if z =? 0x66 then Some 0x0c
  else if z =? 0x6e then Some 0x0a else if z =? 0x72 then Some 0x0d
  else if z =? 0x74 then Some 0x09 else None.

(** The body of a string literal after its opening quote: the bytes it denotes
    and what follows the closing quote. A surrogate that is not the first half of
    a pair, and a byte that is not UTF-8, denote U+FFFD. *)
Fixpoint p_string (fuel : nat) (s : bytes) : option (bytes * bytes) :=
  match fuel with
  | O => None
  | S fuel =>
      let emit u r := match p_string fuel r with Some (v, r) => Some (u ++ v, r) | None => None end in
      match s with
      | [] => None
      | c :: r =>
          if is_char 0x22 c then Some ([], r)
          else if is_char 0x5c c then
            match r with
            | [] => None
            | e :: r =>
                if is_char 0x75 e then
                  match hex4 r with
                  | None => None
                  | Some (z, r) =>
                      if (0xD800 <=? z) && (z <? 0xE000) then
                        match r with
                        | b :: u :: r' =>
                            if is_char 0x5c b && is_char 0x75 u then
                              match hex4 r' with
                              | Some (z2, r'') =>
                                  if (z <? 0xDC00) && (0xDC00 <=? z2) && (z2 <? 0xE000)
                                  then emit (utf8_encode (0x10000 + Z.shiftl (z - 0xD800) 10 + (z2 - 0xDC00))) r''
                                  else emit runeError r
                              | None => None
                              end
                            else emit runeError r
                        | _ => emit runeError r
                        end
                      else emit (utf8_encode z) r
                  end
                else match esc_char e with Some z => emit [z2b z] r | None => None end
            end
          else if b2z c <? 0x20 then None
          else match rune_len s with
               | O => emit runeError r
               | n => emit (take n s) (drop n s)
               end
      end
  end.

(** ** Numbers: [-]int[frac][exp] *)
Definition is_digit (c : Init.Byte.byte) : bool := (48 <=? b2z c) && (b2z c <=? 57).
Fixpoint span_digits (s : bytes) : bytes * bytes :=
  match s with
  | c :: r => if is_digit c then let '(d, r) := span_digits r in (c :: d, r) else ([], s)
  | [] => ([], [])
  end.
Definition p_digits1 (s : bytes) : option (bytes * bytes) :=
  match span_digits s with ([], _) => None | x => Some x end.
Definition p_int (s : bytes) : option (bytes * bytes) :=
  match s with
  | c :: r => if is_char 48 c then Some ([c], r) else p_digits1 s
  | [] => None
  end.
Definition p_frac (s : bytes) : option (bytes * bytes) :=
  match s with
  | c :: r => if is_char 0x2e c
              then match p_digits1 r with Some (d, r) => Some (c :: d, r) | None => None end
              else Some ([], s)
  | [] => Some ([], s)
  end.
Definition p_exp (s : bytes) : option (bytes * bytes) :=
  match s with
  | e :: r =>
      if is_char 0x65 e || is_char 0x45 e then
        let '(sg, r) := match r with
                        | c :: r' => if is_char 0x2b c || is_char 0x2d c then ([c], r') else ([], r)
                        | [] => ([], r)
                        end in
        match p_digits1 r with Some (d, r) => Some (e :: sg ++ d, r) | None => None end
      else Some ([], s)
  | [] => Some ([], s)
  end.
Definition p_number (s : bytes) : option (bytes * bytes) :=
  let '(sg, r) := match s with
                  | c :: r => if is_char 0x2d c then ([c], r) else ([], s)
                  | [] => ([], s)
                  end in
  match p_int r with
  | None => None
  | Some (i, r) =>
      match p_frac r with
      | None => None
      | Some (f, r) => match p_exp r with Some (e, r) => Some (sg ++ i ++ f ++ e, r) | None => None end
      end
  end.

(** ** Values *)
Fixpoint p_value (fuel : nat) (s : bytes) {struct fuel} : option (jval * bytes) :=
  match fuel with
  | O => None
  | S fuel =>
      match skip_space s with
      | [] => None
      | (c :: r) as s =>
          if is_char 0x22 c then
            match p_string (S (length r)) r with Some (v, r) => Some (JStr v, r) | None => None end
          else if is_char 0x5b c then
            match skip_space r with
            | d :: r' => if is_char 0x5d d then Some (JArr [], r')
                         else match p_elems fuel r with Some (l, r) => Some (JArr l, r) | None => None end
            | [] => None
            end
          else if is_char 0x7b c then
            match skip_space r with
            | d :: r' => if is_char 0x7d d then Some (JObj [], r')
                         else match p_members fuel r with Some (l, r) => Some (JObj l, r) | None => None end
            | [] => None
            end
          else if has_prefix s (lit "null") then Some (JNull, drop 4 s)
          else if has_prefix s (lit "true") then Some (JBool true, drop 4 s)
          else if has_prefix s (lit "false") then Some (JBool false, drop 5 s)
          else match p_number s with Some (n, r) => Some (JNum n, r) | None => None end
      end
  end
with p_elems (fuel : nat) (s : bytes) {struct fuel} : option (list jval * bytes) :=
  match fuel with
  | O => None
  | S fuel =>
      match p_value fuel s with
      | None => None
      | Some (v, r) =>
          match skip_space r with
          | c :: r =>
              if is_char 0x2c c then
                match p_elems fuel r with Some (l, r) => Some (v :: l, r) | None => None end
              else if is_char 0x5d c then Some ([v], r)
              else None
          | [] => None
          end
      end
  end
with p_members (fuel : nat) (s : bytes) {struct fuel} : option (list (bytes * jval) * bytes) :=
  match fuel with
  | O => None
  | S fuel =>
      match skip_space s with
      | [] => None
      | q :: r =>
          if negb (is_char 0x22 q) then None
          else match p_string (S (length r)) r with
          | None => None
          | Some (k, r) =>
              match skip_space r with
              | [] => None
              | c :: r =>
                  if negb (is_char 0x3a c) then None
                  else match p_value fuel r with
                  | None => None
                  | Some (v, r) =>
                      match skip_space r with
                      | c :: r =>
                          if is_char 0x2c c then
                            match p_members fuel r with Some (l, r) => Some ((k, v) :: l, r) | None => None end
                          else if is_char 0x7d c then Some ([(k, v)], r)
                          else None
                      | [] => None
                      end
                  end
              end
          end
      end
  end.

(** Decoder.Decode: the first value of the input and what follows it. *)
Definition json_decode (s : bytes) : option (jval * bytes) := p_value (2 * length s + 2) s.

(** ** base64.StdEncoding *)
Definition b64chars : bytes := lit "ABCDEFGHIJKLMNOPQRSTUVWXYZabcdefghijklmnopqrstuvwxyz0123456789+/".
Definition b64digit (z : Z) : Init.Byte.byte := nth (Z.to_nat z) b64chars Byte.x00.
Definition b64pad : Init.Byte.byte := z2b 0x3d.
Fixpoint base64_encode (s : bytes) : bytes :=
  match s with
  | a :: b :: c :: r =>
      let v := Z.shiftl (b2z a) 16 + Z.shiftl (b2z b) 8 + b2z c in
      b64digit (Z.shiftr v 18) :: b64digit (Z.land (Z.shiftr v 12) 0x3F) ::
      b64digit (Z.land (Z.shiftr v 6) 0x3F) :: b64digit (Z.land v 0x3F) :: base64_encode r
  | [a; b] =>
      let v := Z.shiftl (b2z a) 16 + Z.shiftl (b2z b) 8 in
      [b64digit (Z.shiftr v 18); b64digit (Z.land (Z.shiftr v 12) 0x3F);
       b64digit (Z.land (Z.shiftr v 6) 0x3F); b64pad]
  | [a] =>
      let v := Z.shiftl (b2z a) 16 in
      [b64digit (Z.shiftr v 18); b64digit (Z.land (Z.shiftr v 12) 0x3F); b64pad; b64pad]
  | [] => []
  end.

Definition b64val (c : Init.Byte.byte) : option Z :=
  let z := b2z c in
  if (65 <=? z) && (z <=? 90) then Some (z - 65)
  else if (97 <=? z) && (z <=? 122) then Some (z - 71)
  else if (48 <=? z) && (z <=? 57) then Some (z + 4)
  else if z =? 43 then Some 62 else if z =? 47 then Some 63 else None.
(** Four characters to three bytes; padding ends the text. *)
Fixpoint base64_decode (s : bytes) : option bytes :=
  match s with
  | [] => Some []
  | c0 :: c1 :: c2 :: c3 :: r =>
      match b64val c0, b64val c1 with
      | Some v0, Some v1 =>
          let b0 := z2b (v0 * 4 + v1 / 16) in
          match b64val c2, b64val c3 with
          | Some v2, Some v3 =>
              match base64_decode r with
              | Some t => Some (b0 :: z2b (v1 * 16 + v2 / 4) :: z2b (v2 * 64 + v3) :: t)
              | None => None
              end
          | Some v2, None => if is_char 0x3d c3 && (length r =? 0)%nat then Some [b0; z2b (v1 * 16 + v2 / 4)] else None
          | None, _ => if is_char 0x3d c2 && is_char 0x3d c3 && (length r =? 0)%nat then Some [b0] else None
          end
      | _, _ => None
      end
  | _ => None
  end.

(** Literals with apostrophes for quotation marks. *)
Definition qlit (s : string) : bytes := map (fun c => if is_char 0x27 c then Byte.x22 else c) (lit s).
Example decode_sample :
  json_decode (qlit " {'a':[1,-2.5e+3 , null],'b':'x\n\u00e9\ud83d\ude00'} z") =
  Some (JObj [(lit "a", JArr [JNum (lit "1"); JNum (lit "-2.5e+3"); JNull]);
              (lit "b", JStr (lit "x" ++ [Byte.x0a] ++ lit "é" ++ lit "😀"))], lit " z").
Proof. vm_compute. reflexivity. Qed.
Example base64_sample : base64_encode (lit "hazedb!") = lit "aGF6ZWRiIQ==".
Proof. vm_compute. reflexivity. Qed.
Example base64_decode_sample : base64_decode (lit "aGF6ZWRiIQ==") = Some (lit "hazedb!").
Proof. vm_compute. reflexivity. Qed.

Lemma b64val_digit z : 0 <= z < 64 -> b64val (b64digit z) = Some z.
Proof.
  intros Hz. assert (H : forallb (fun n => bool_decide (b64val (b64digit (Z.of_nat n)) = Some (Z.of_nat n))) (seq 0 64) = true) by (vm_compute; reflexivity).
  rewrite forallb_forall in H. specialize (H (Z.to_nat z)). rewrite in_seq, Z2Nat.id in H by lia.
  assert (H' := H ltac:(lia)). by apply bool_decide_eq_true in H'.
Qed.
Lemma z2b_eq a z : b2z a = z mod 256 -> z2b z = a.
Proof. intros H. apply b2z_inj. by rewrite b2z_z2b. Qed.
Lemma land63 z : Z.land z 0x3F = z mod 64.
Proof. apply (Z.land_ones z 6). lia. Qed.
Ltac b64_lia := Z.to_euclidean_division_equations; lia.
Ltac b64_norm :=
  rewrite ?Z.shiftr_div_pow2, ?Z.shiftl_mul_pow2 by lia;
  rewrite ?land63; change (2 ^ 8) with 256; change (2 ^ 12) with 4096;
  change (2 ^ 16) with 65536; change (2 ^ 18) with 262144.
Lemma base64_roundtrip s : base64_decode (base64_encode s) = Some s.
Proof.
  revert s. fix IH 1. intros [|a [|b [|c r]]]; [done|..]; cbn [base64_encode];
    try pose proof (b2z_range a); try pose proof (b2z_range b); try pose proof (b2z_range c);
    b64_norm; cbn [base64_decode]; rewrite !b64val_digit by b64_lia.
  - change (b64val b64pad) with (@None Z). cbn. do 2 f_equal. apply z2b_eq. b64_lia.
  - change (b64val b64pad) with (@None Z). cbn. do 2 f_equal; [|f_equal]; apply z2b_eq; b64_lia.
  - rewrite IH. do 2 f_equal; [|f_equal; [|f_equal]]; apply z2b_eq; b64_lia.
Qed.
