(* ===== verification/Wire.v ===== *)
(** * Wire: wire.go — result rows out as JSON, SQL arguments in as JSON, the
    boundary every adapter outside the Go API goes through.

    The encoders append to a byte slice the caller owns, here the list [b]; the
    capacity hints are not observable. *)
From S2P Require Import Prelude Bytes Uuid Value Schema Json.

Definition jsonHexDigits : bytes := hexdigits.

(** ** Values out *)

(** What the [switch] of appendJSONString appends for an escaped byte. *)
Definition json_escape (c : Init.Byte.byte) : bytes :=
  if is_char 0x22 c then lit "\" ++ [c]
  else if is_char 0x5c c then lit "\\"
  else if is_char 0x0a c then lit "\n"
  else if is_char 0x0d c then lit "\r"
  else if is_char 0x09 c then lit "\t"
  else lit "\u00" ++ [nth (Z.to_nat (Z.shiftr (b2z c) 4)) jsonHexDigits Byte.x00;
                      nth (Z.to_nat (Z.land (b2z c) 0xf)) jsonHexDigits Byte.x00].
Definition json_special (c : Init.Byte.byte) : bool :=
  is_char 0x22 c || is_char 0x5c c || (b2z c <? 0x20).

(** The loop; [run] is [s[last:i]], appended in bulk at the next escape. *)
Fixpoint json_string_loop (s run b : bytes) : bytes :=
  match s with
  | [] => b ++ run
  | c :: s =>
      if json_special c then json_string_loop s [] (b ++ run ++ json_escape c)
      else json_string_loop s (run ++ [c]) b
  end.
Definition quote : bytes := [z2b 0x22].
Definition appendJSONString (b s : bytes) : bytes := json_string_loop s [] (b ++ quote) ++ quote.

(** The group loop of appendUUIDJSON: [n] bytes from offset [off], for each [n]. *)
Fixpoint uuid_groups (u : bytes) (first : bool) (off : nat) (ns : list nat) (b : bytes) : bytes :=
  match ns with
  | [] => b
  | n :: ns =>
      let b := if first then b else b ++ lit "-" in
      uuid_groups u false (off + n) ns
        (fold_left (fun b c => b ++ [nth (Z.to_nat (Z.shiftr (b2z c) 4)) jsonHexDigits Byte.x00;
                                     nth (Z.to_nat (Z.land (b2z c) 0xf)) jsonHexDigits Byte.x00])
           (slice u off (off + n)) b)
  end.
Definition appendUUIDJSON (b : bytes) (u : UUID) : bytes :=
  uuid_groups (ubytes u) true 0 [4; 2; 2; 2; 6]%nat (b ++ quote) ++ quote.

Definition appendValueJSON (b : bytes) (v : Value) : bytes :=
  match Kind v with
  | KindNull => b ++ lit "null"
  | KindInt => b ++ FormatInt (v_Int v)
  | KindBool => if v_Bool v then b ++ lit "true" else b ++ lit "false"
  | KindString => appendJSONString b (v_Str v)
  | KindBytes => (b ++ quote) ++ base64_encode (v_Bytes v) ++ quote
  | KindUUID => appendUUIDJSON b (v_UUID v)
  end.

(** [for i := range l { if i > 0 { b = append(b, ',') }; b = f(b, l[i]) }] *)
Fixpoint comma_loop {A} (f : bytes -> A -> bytes) (first : bool) (l : list A) (b : bytes) : bytes :=
  match l with
  | [] => b
  | x :: l => comma_loop f false l (f (if first then b else b ++ lit ",") x)
  end.

Definition appendRowJSONObject (b : bytes) (cols : list bytes) (row : Row) : bytes :=
  comma_loop (fun b jc =>
    let b := match cols !! fst jc with
             | Some c => appendJSONString b c
             | None => appendJSONString b []
             end in
    appendValueJSON (b ++ lit ":") (snd jc)) true (imap pair row) (b ++ lit "{") ++ lit "}".

(** [row[ord]] panics out of range. *)
Fixpoint project_loop (cols : list bytes) (row : Row) (j : nat) (ords : list nat) (b : bytes) : outcome bytes :=
  match ords with
  | [] => Ok b
  | ord :: ords =>
      let b := if (0 <? j)%nat then b ++ lit "," else b in
      let b := match cols !! j with
               | Some c => appendJSONString b c
               | None => appendJSONString b []
               end in
      v ← index row ord;
      project_loop cols row (S j) ords (appendValueJSON (b ++ lit ":") v)
  end.
Definition appendRowJSONObjectProject (b : bytes) (cols : list bytes) (row : Row) (ords : list nat) : outcome bytes :=
  b ← project_loop cols row 0 ords (b ++ lit "{"); Ok (b ++ lit "}").

Definition appendRowJSONObjectPre (b : bytes) (prefix : list bytes) (row : Row) : bytes :=
  comma_loop (fun b jc =>
    let b := match prefix !! fst jc with
             | Some p => b ++ p
             | None => b ++ quote ++ quote ++ lit ":"
             end in
    appendValueJSON b (snd jc)) true (imap pair row) (b ++ lit "{") ++ lit "}".

(** colJSONPrefix (plan.go, join.go): the escaped column names with their colons. *)
Definition colJSONPrefix (names : list bytes) : list bytes := map (fun name => appendJSONString [] name ++ lit ":") names.
Definition appendJSONRows (b : bytes) (cols : list bytes) (rows : list Row) : bytes :=
  let b := b ++ qlit "{'columns':[" in
  let b := comma_loop appendJSONString true cols b in
  let b := b ++ qlit "],'rows':[" in
  let b := comma_loop (fun b row => comma_loop appendValueJSON true row (b ++ lit "[") ++ lit "]") true rows b in
  b ++ lit "]}".
Definition RowsToJSON (cols : list bytes) (rows : list Row) : bytes := appendJSONRows [] cols rows.
Definition RowsToJSONObjects (cols : list bytes) (rows : list Row) : bytes :=
  comma_loop (fun b row => appendRowJSONObject b cols row) true rows (lit "[") ++ lit "]".
Definition RowToJSONObject (cols : list bytes) (row : Row) : bytes := appendRowJSONObject [] cols row.

Definition ExecResultJSON (affected : Z) : bytes := qlit "{'affected':" ++ FormatInt (s64 affected) ++ lit "}".

(** json.Marshal of a string: HTML characters, U+2028/9 and bytes that are not
    UTF-8 are escaped as well. *)
Fixpoint marshal_string (fuel : nat) (s : bytes) : bytes :=
  match fuel with
  | O => []
  | S fuel =>
      match s with
      | [] => []
      | c :: r =>
          let u := lit "\u00" ++ [nth (Z.to_nat (Z.shiftr (b2z c) 4)) jsonHexDigits Byte.x00;
                                  nth (Z.to_nat (Z.land (b2z c) 0xf)) jsonHexDigits Byte.x00] in
          if is_char 0x08 c then lit "\b" ++ marshal_string fuel r
          else if is_char 0x0c c then lit "\f" ++ marshal_string fuel r
          else if json_special c then json_escape c ++ marshal_string fuel r
          else if is_char 0x3c c || is_char 0x3e c || is_char 0x26 c then u ++ marshal_string fuel r
          else match rune_len s with
               | O => lit "\ufffd" ++ marshal_string fuel r
               | n =>
                   (if bool_decide (take n s = utf8_encode 0x2028) then lit "\u2028"
                    else if bool_decide (take n s = utf8_encode 0x2029) then lit "\u2029"
                    else take n s) ++ marshal_string fuel (drop n s)
               end
      end
  end.
Definition ErrorJSON (msg : bytes) : bytes :=
  qlit "{'error':'" ++ marshal_string (length msg) msg ++ qlit "'}".

(** ** Arguments in *)

(** The [any]s ArgsFromJSON and QueryArgs put in a [[]any]. *)
Inductive arg : Type :=
  | ANil
  | ABool (b : bool)
  | AStr (s : bytes)
  | AInt (n : Z).

Definition maxArgsDepth : Z := 32.

(** The scan of argsNestingOK; [true] at the end of the input. *)
Fixpoint nesting_loop (raw : bytes) (depth : Z) (inStr : bool) : bool :=
  match raw with
  | [] => true
  | c :: raw =>
      if inStr then
        if is_char 0x5c c then match raw with [] => true | _ :: raw => nesting_loop raw depth true end
        else if is_char 0x22 c then nesting_loop raw depth false
        else nesting_loop raw depth true
      else if is_char 0x22 c then nesting_loop raw depth true
      else if is_char 0x5b c || is_char 0x7b c then
        let depth := depth + 1 in
        if depth >? maxArgsDepth then false else nesting_loop raw depth false
      else if is_char 0x5d c || is_char 0x7d c then nesting_loop raw (depth - 1) false
      else nesting_loop raw depth false
  end.
Definition argsNestingOK (raw : bytes) : bool := nesting_loop raw 0 false.

(** The [switch x := a.(type)]. json.Number.Int64 is strconv.ParseInt. *)
Definition arg_of (a : jval) : outcome arg :=
  match a with
  | JNull => Ok ANil
  | JBool x => Ok (ABool x)
  | JStr x => Ok (AStr x)
  | JNum x => match ParseInt x with Ok n => Ok (AInt n) | Err _ => Err errArgs | Panic => Panic end
  | JArr _ | JObj _ => Err errArgs
  end.
Fixpoint args_of (arr : list jval) : outcome (list arg) :=
  match arr with
  | [] => Ok []
  | a :: arr => x ← arg_of a; xs ← args_of arr; Ok (x :: xs)
  end.

Definition ArgsFromJSON (raw : bytes) : outcome (list arg) :=
  match TrimSpace raw with
  | [] => Ok []
  | _ =>
      if negb (argsNestingOK raw) then Err ErrParse
      else match json_decode raw with
      | Some (JArr arr, rest) =>
          match skip_space rest with [] => args_of arr | _ :: _ => Err errArgs end
      | Some (JNull, rest) =>
          (* null decodes to a nil slice *)
          match skip_space rest with [] => Ok [] | _ :: _ => Err errArgs end
      | _ => Err errArgs
      end
  end.
Definition QueryArgs (s : bytes) : outcome (list arg) :=
  match TrimSpace s with
  | [] => Ok []
  | (c :: _) as t => if is_char 0x5b c then ArgsFromJSON t else Ok [AStr s]
  end.

Example rows_sample :
  RowsToJSON [lit "id"; lit "v"] [[Int (-3); Str (qlit "a'b")]; [Null; Bytes (lit "hi")]] =
  qlit "{'columns':['id','v'],'rows':[[-3,'a\'b'],[null,'aGk=']]}".
Proof. vm_compute. reflexivity. Qed.
Example uuid_sample :
  appendUUIDJSON [] (uuid_of (map (fun z => z2b (17 * z)) (seqZ 0 16))) =
  qlit "'00112233-4455-6677-8899-aabbccddeeff'".
Proof. vm_compute. reflexivity. Qed.
Example args_sample :
  QueryArgs (qlit "  [1, 'x', null, true, -7] ") = Ok [AInt 1; AStr (lit "x"); ANil; ABool true; AInt (-7)].
Proof. vm_compute. reflexivity. Qed.
Example args_bare : QueryArgs (lit " k ") = Ok [AStr (lit " k ")].
Proof. vm_compute. reflexivity. Qed.
Example args_float : QueryArgs (lit "[1.5]") = Err errArgs.
Proof. vm_compute. reflexivity. Qed.
Example args_two : ArgsFromJSON (lit "[1] 2") = Err errArgs.
Proof. vm_compute. reflexivity. Qed.
