(* ===== verification/WireOk.v ===== *)
(** * WireOk: the JSON wire.go writes reads back as the values it was made of, and
    the arguments it reads are the ones a caller wrote. *)
From S2P Require Import Prelude Bytes Uuid Value Schema Json Wire.

(** ** Strings *)
Definition esc (c : Init.Byte.byte) : bytes := if json_special c then json_escape c else [c].
Definition esc_string (s : bytes) : bytes := flat_map esc s.
Lemma json_string_loop_flat s : forall run b, json_string_loop s run b = b ++ run ++ esc_string s.
Proof.
  induction s as [|c s IH]; intros run b; cbn [json_string_loop esc_string flat_map]; [by rewrite app_nil_r|].
  unfold esc. destruct (json_special c); rewrite IH; unfold esc_string; by rewrite <- ?app_assoc, ?app_nil_l.
Qed.
Definition string_json (s : bytes) : bytes := quote ++ esc_string s ++ quote.
Lemma appendJSONString_text b s : appendJSONString b s = b ++ string_json s.
Proof. unfold appendJSONString, string_json. rewrite json_string_loop_flat. by rewrite <- !app_assoc. Qed.

(** A text of runes is empty or starts with one, which the decoder sees whatever
    follows. *)
Definition rune (u : bytes) : Prop :=
  ((exists c, u = [c] /\ b2z c < 0x80) \/ (u <> [] /\ Forall (fun c => 0x80 <= b2z c) u)) /\ forall t, rune_len (u ++ t) = length u.
Lemma lead b0 : b2z b0 < 0x80 \/ (forall s, utf8_loop (b0 :: s) 0 0x80 0xBF = false) \/
  (0x80 <= b2z b0 /\ exists k lo hi, (1 <= k <= 3)%nat /\ 0x80 <= lo /\ forall s, utf8_loop (b0 :: s) 0 0x80 0xBF = utf8_loop s k lo hi).
Proof.
  destruct b0; first [by left | right; left; reflexivity
    | right; right; split; [done|]; eexists _, _, _; split_and!; [..|reflexivity]; lia].
Qed.
Lemma continues k : forall s lo hi, 0x80 <= lo -> utf8_loop s k lo hi = true -> exists u r, s = u ++ r /\ length u = k /\
  Forall (fun c => 0x80 <= b2z c) u /\ ValidString r = true /\ utf8_loop u k lo hi = true /\ forall j, (j < k)%nat -> utf8_loop (take j u) k lo hi = false.
Proof.
  induction k as [|k IH]; intros s lo hi Hlo H.
  - exists [], s. split_and!; try done; [|lia]. by destruct s.
  - destruct s as [|c s]; [done|]. cbn [utf8_loop] in H. apply andb_true_iff in H as [[H1 H2]%andb_true_iff H].
    destruct (IH s 0x80 0xBF ltac:(lia) H) as (u & r & -> & Hl & Hu & Hr & Hc & Hj). exists (c :: u), r.
    cbn [length utf8_loop]. rewrite H1, H2. split_and!; [done|lia| |done|done|].
    + constructor; [lia|done].
    + intros [|j] Hlt; [done|]. cbn [take utf8_loop]. rewrite H1, H2. apply Hj. lia.
Qed.
Lemma valid_head s : ValidString s = true -> s = [] \/ exists u r, s = u ++ r /\ rune u /\ ValidString r = true.
Proof.
  destruct s as [|b0 s]; [by left|]. intros H. right. destruct (lead b0) as [H0|[H0|(H0 & k & lo & hi & Hk & Hlo & E)]].
  - exists [b0], s. unfold ValidString in H. cbn [utf8_loop] in H. rewrite (proj2 (Z.ltb_lt _ _) H0) in H. split_and!; [done| |done].
    split; [left; by exists b0|]. intros t. unfold rune_len, ValidString. cbn [app length take utf8_loop]. by rewrite (proj2 (Z.ltb_lt _ _) H0).
  - unfold ValidString in H. by rewrite H0 in H.
  - unfold ValidString in H. rewrite E in H. destruct (continues k s lo hi Hlo H) as (u & r & -> & Hl & Hu & Hr & Hc & Hj).
    exists (b0 :: u), r. split_and!; [done| |done]. split; [right; split; [done|by constructor]|]. intros t.
    assert (Hok : forall j, ((S j <=? length ((b0 :: u) ++ t))%nat && ValidString (take (S j) ((b0 :: u) ++ t))) =
      ((S j <=? length ((b0 :: u) ++ t))%nat && utf8_loop (take j (u ++ t)) k lo hi)).
    { intros j. unfold ValidString. cbn [app take]. by rewrite E. }
    assert (Hlen : (length ((b0 :: u) ++ t) = S k + length t)%nat) by (cbn; rewrite length_app; lia).
    assert (Hbad : forall j, (j < k)%nat -> ((S j <=? length ((b0 :: u) ++ t))%nat && ValidString (take (S j) ((b0 :: u) ++ t))) = false).
    { intros j Hlt. rewrite Hok, take_app_le by lia. rewrite Hj by done. by rewrite andb_false_r. }
    assert (Hgood : ((S k <=? length ((b0 :: u) ++ t))%nat && ValidString (take (S k) ((b0 :: u) ++ t))) = true).
    { rewrite Hok, Hlen, take_app_length' by done. rewrite Hc. by rewrite (proj2 (Nat.leb_le _ _)) by lia. }
    unfold rune_len. cbn [length]. rewrite Hl. destruct k as [|[|[|[|k]]]]; [lia| | | |lia];
      rewrite ?(Hbad 0%nat), ?(Hbad 1%nat), ?(Hbad 2%nat), Hgood by lia; done.
Qed.

(** What an escape denotes. *)
Lemma p_escape c f r : json_special c = true ->
  p_string (S f) (json_escape c ++ r) = match p_string f r with Some (v, r) => Some ([c] ++ v, r) | None => None end.
Proof. destruct c; try discriminate; reflexivity. Qed.
Lemma p_rune u f r : u <> [] -> head u <> Some (z2b 0x22) -> head u <> Some (z2b 0x5c) -> (forall c, head u = Some c -> 0x20 <= b2z c) ->
  rune_len (u ++ r) = length u ->
  p_string (S f) (u ++ r) = match p_string f r with Some (v, r) => Some (u ++ v, r) | None => None end.
Proof.
  destruct u as [|c u]; [done|]. intros _ Hq Hb Hc Hl. cbn [p_string app]. cbn [app] in Hl.
  assert (Hn : forall z, b2z (z2b z) = z -> head (c :: u) <> Some (z2b z) -> is_char z c = false).
  { intros z Hz Hh. unfold is_char. apply Z.eqb_neq. intros E. apply Hh. cbn. f_equal. apply b2z_inj. congruence. }
  rewrite (Hn 0x22), (Hn 0x5c) by done. destruct (Z.ltb_spec (b2z c) 0x20) as [H|H]; [specialize (Hc c eq_refl); lia|].
  rewrite Hl. cbn [length]. by rewrite (take_app_length (c :: u) r : take (S (length u)) (c :: u ++ r) = _), (drop_app_length (c :: u) r : drop (S (length u)) (c :: u ++ r) = _).
Qed.
Lemma esc_high u : Forall (fun c => 0x80 <= b2z c) u -> esc_string u = u.
Proof.
  induction 1 as [|c u Hc Hu IH]; [done|]. unfold esc_string in *. cbn [flat_map]. rewrite IH. unfold esc, json_special, is_char.
  rewrite !(proj2 (Z.eqb_neq _ _)), (proj2 (Z.ltb_ge _ _)) by lia. done.
Qed.
Lemma esc_app a b : esc_string (a ++ b) = esc_string a ++ esc_string b.
Proof. apply flat_map_app. Qed.
Lemma p_string_esc : forall fuel s rest, ValidString s = true -> (length (esc_string s) < fuel)%nat ->
  p_string fuel (esc_string s ++ quote ++ rest) = Some (s, rest).
Proof.
  induction fuel as [|fuel IH]; intros s rest Hv Hl; [lia|]. destruct (valid_head s Hv) as [->|(u & r & -> & [Hu Hn] & Hr)]; [done|].
  rewrite esc_app, <- app_assoc. rewrite esc_app, length_app in Hl. destruct Hu as [(c & -> & Hc)|[Hne Hu]].
  - cbn [esc_string flat_map] in *. rewrite app_nil_r in *. unfold esc in *. destruct (json_special c) eqn:Es.
    + rewrite p_escape by done. rewrite IH; [done|done|]. assert (1 <= length (json_escape c))%nat by (destruct c; try discriminate; cbn; lia). lia.
    + unfold json_special, is_char in Es. apply orb_false_iff in Es as [[E1 E2]%orb_false_iff E3]. rewrite p_rune; [|done|..].
      * rewrite IH; [done|done|]. cbn in Hl. lia.
      * cbn. intros [= ->]. by rewrite b2z_z2b in E1.
      * cbn. intros [= ->]. by rewrite b2z_z2b in E2.
      * intros ? [= <-]. lia.
      * apply Hn.
  - rewrite esc_high in * by done. rewrite p_rune; [|done|..].
    + rewrite IH; [done|done|]. destruct u; [done|]. cbn in Hl. lia.
    + destruct Hu as [|c u Hc Hu]; [done|]. cbn. intros [= ->]. by rewrite b2z_z2b in Hc.
    + destruct Hu as [|c u Hc Hu]; [done|]. cbn. intros [= ->]. by rewrite b2z_z2b in Hc.
    + destruct Hu as [|c u Hc Hu]; [done|]. intros ? [= <-]. lia.
    + apply Hn.
Qed.

(** ** The strings of json.Marshal *)
Lemma marshal_low c fuel r : b2z c < 0x80 -> exists x, marshal_string (S fuel) (c :: r) = x ++ marshal_string fuel r /\ x <> [] /\
  forall f t, p_string (S f) (x ++ t) = match p_string f t with Some (v, t) => Some ([c] ++ v, t) | None => None end.
Proof. intros H. destruct c; try (exfalso; cbv in H; discriminate H); (eexists; split; [reflexivity|split; [discriminate|reflexivity]]). Qed.
Lemma marshal_high u fuel r : u <> [] -> Forall (fun c => 0x80 <= b2z c) u -> (forall t, rune_len (u ++ t) = length u) ->
  exists x, marshal_string (S fuel) (u ++ r) = x ++ marshal_string fuel r /\ x <> [] /\
  forall f t, p_string (S f) (x ++ t) = match p_string f t with Some (v, t) => Some (u ++ v, t) | None => None end.
Proof.
  intros Hne Hu Hn. destruct u as [|c u]; [done|]. inversion Hu as [|? ? Hc _]; subst. clear Hne.
  assert (Hp : forall f t, p_string (S f) ((c :: u) ++ t) = match p_string f t with Some (v, t) => Some ((c :: u) ++ v, t) | None => None end).
  { intros f t. apply p_rune; [done| | | |apply Hn].
    - cbn. intros [= ->]. by rewrite b2z_z2b in Hc.
    - cbn. intros [= ->]. by rewrite b2z_z2b in Hc.
    - intros ? [= <-]. lia. }
  assert (Hz : forall z, z < 0x80 -> is_char z c = false) by (intros z Hz; unfold is_char; lia).
  assert (Hs : json_special c = false) by (unfold json_special; rewrite !Hz by lia; by rewrite (proj2 (Z.ltb_ge _ _)) by lia).
  cbn [app marshal_string]. rewrite !Hz, Hs by lia. cbn [orb]. rewrite (Hn r : rune_len (c :: u ++ r) = _). cbn [length].
  rewrite (take_app_length (c :: u) r : take (S (length u)) (c :: u ++ r) = _), (drop_app_length (c :: u) r : drop (S (length u)) (c :: u ++ r) = _).
  destruct (bool_decide_reflect (c :: u = utf8_encode 0x2028)) as [E|_]; [vm_compute in E; injection E as -> ->; by exists (lit "\u2028")|].
  destruct (bool_decide_reflect (c :: u = utf8_encode 0x2029)) as [E|_]; [vm_compute in E; injection E as -> ->; by exists (lit "\u2029")|]. by exists (c :: u).
Qed.
Lemma p_marshal fuel : forall s f rest, ValidString s = true -> (length s <= fuel)%nat -> (length (marshal_string fuel s) < f)%nat ->
  p_string f (marshal_string fuel s ++ quote ++ rest) = Some (s, rest).
Proof.
  induction fuel as [|fuel IH]; intros s f rest Hv Hl Hf.
  { destruct s; [|cbn in Hl; lia]. destruct f; [cbn in Hf; lia|done]. }
  destruct (valid_head s Hv) as [->|(u & r & -> & [Hu Hn] & Hr)]; [destruct f; [cbn in Hf; lia|done]|].
  assert (G : u <> [] /\ exists x, marshal_string (S fuel) (u ++ r) = x ++ marshal_string fuel r /\ x <> [] /\
    forall f t, p_string (S f) (x ++ t) = match p_string f t with Some (v, t) => Some (u ++ v, t) | None => None end).
  { destruct Hu as [(c & -> & Hc)|[Hne Hu]]; split; [done|by apply marshal_low|done|by apply marshal_high]. }
  destruct G as (Hne & x & E & Hx & Hp). rewrite E in Hf |- *. rewrite <- app_assoc. destruct f as [|f]; [lia|]. rewrite length_app in Hl, Hf. rewrite Hp.
  destruct u, x; try done. cbn [length] in Hl, Hf. by rewrite IH by (done || lia).
Qed.

(** ** Numbers *)
Lemma digits_S fuel n acc : digits (S fuel) n acc =
  if n <? 10 then z2b (48 + n mod 10) :: acc else digits fuel (n / 10) (z2b (48 + n mod 10) :: acc).
Proof. done. Qed.
Lemma digits_shape fuel : forall n acc, 0 <= n < 10 ^ Z.of_nat (S fuel) -> exists ds, digits (S fuel) n acc = ds ++ acc /\ Forall (fun c => is_digit c = true) ds /\
  ds <> [] /\ (n = 0 -> ds = [z2b 48]) /\ (0 < n -> forall c, head ds = Some c -> is_char 48 c = false).
Proof.
  induction fuel as [|fuel IH]; intros n acc Hn; rewrite digits_S.
  all: assert (Hd : b2z (z2b (48 + n mod 10)) = 48 + n mod 10) by (rewrite b2z_z2b; apply Z.mod_small; pose proof (Z.mod_pos_bound n 10 ltac:(lia)); lia).
  all: assert (Hdig : is_digit (z2b (48 + n mod 10)) = true) by (unfold is_digit; rewrite Hd; pose proof (Z.mod_pos_bound n 10 ltac:(lia)); lia).
  all: destruct (Z.ltb_spec n 10) as [H|H].
  - exists [z2b (48 + n mod 10)]. split_and!; [done|by constructor|done|by intros ->|].
    intros H0 c [= <-]. unfold is_char. rewrite Hd, Z.mod_small by lia. lia.
  - change (10 ^ Z.of_nat 1) with 10 in Hn. lia.
  - exists [z2b (48 + n mod 10)]. split_and!; [done|by constructor|done|by intros ->|].
    intros H0 c [= <-]. unfold is_char. rewrite Hd, Z.mod_small by lia. lia.
  - rewrite Nat2Z.inj_succ, Z.pow_succ_r in Hn by lia.
    destruct (IH (n / 10) (z2b (48 + n mod 10) :: acc)) as (ds & E & Hf & Hne & _ & Hh).
    { split; [apply Z.div_pos; lia|]. apply Z.div_lt_upper_bound; lia. }
    exists (ds ++ [z2b (48 + n mod 10)]). rewrite E, <- app_assoc. split_and!; [done|apply Forall_app_2; [done|by constructor]|by destruct ds|lia|].
    intros _ c Hc. destruct ds as [|d ds]; [done|]. apply Hh; [|done]. apply Z.div_str_pos. lia.
Qed.
(** A value ends at a comma, a bracket, a brace or the end of the text. *)
Definition stop (rest : bytes) : Prop := match rest with [] => True | c :: _ => is_char 0x2c c = true \/ is_char 0x5d c = true \/ is_char 0x7d c = true end.
Lemma span_all ds rest : Forall (fun c => is_digit c = true) ds -> stop rest -> span_digits (ds ++ rest) = (ds, rest).
Proof.
  induction 1 as [|c ds Hc Hds IH]; intros Hs; cbn [app span_digits]; [|by rewrite Hc, IH].
  destruct rest as [|c rest]; [done|]. cbn. destruct (is_digit c) eqn:E; [|done]. unfold stop, is_char, is_digit in *. lia.
Qed.
Lemma p_tail rest : stop rest -> p_frac rest = Some ([], rest) /\ p_exp rest = Some ([], rest).
Proof.
  destruct rest as [|c rest]; [done|]. intros Hs. unfold p_frac, p_exp, stop, is_char in *.
  rewrite (proj2 (Z.eqb_neq (b2z c) 0x2e)), (proj2 (Z.eqb_neq (b2z c) 0x65)), (proj2 (Z.eqb_neq (b2z c) 0x45)) by lia. done.
Qed.
Lemma p_int_digits n rest : 0 <= n < 10 ^ 20 -> stop rest -> p_int (digits 20 n [] ++ rest) = Some (digits 20 n [], rest).
Proof.
  intros Hn Hs. destruct (digits_shape 19 n [] Hn) as (ds & E & Hf & Hne & H0 & Hh). rewrite E, app_nil_r. destruct (decide (n = 0)) as [->|].
  - by rewrite (H0 eq_refl).
  - destruct ds as [|d ds]; [done|]. cbn [app p_int]. rewrite (Hh ltac:(lia) d eq_refl). unfold p_digits1.
    by rewrite (span_all (d :: ds) rest Hf Hs : span_digits (d :: ds ++ rest) = _).
Qed.
Lemma p_number_int z rest : in_s64 z -> stop rest -> p_number (FormatInt z ++ rest) = Some (FormatInt z, rest).
Proof.
  intros Hz Hs. destruct (p_tail rest Hs) as [Hf He]. unfold in_s64 in Hz. unfold FormatInt. destruct (Z.ltb_spec z 0) as [H|H].
  - change (lit "-") with [Byte.x2d]. unfold p_number. cbn [app]. change (is_char 0x2d Byte.x2d) with true. cbn match.
    rewrite p_int_digits, Hf, He by (done || lia). by rewrite !app_nil_r.
  - pose proof (p_int_digits z rest ltac:(lia) Hs) as Hp. destruct (digits_shape 19 z [] ltac:(lia)) as (ds & E & Hd & Hne & _).
    unfold p_number. rewrite E, app_nil_r in *. destruct Hd as [|d ds Hd Hds]; [done|]. cbn [app] in *.
    replace (is_char 0x2d d) with false by (unfold is_char, is_digit in *; lia). rewrite Hp, Hf, He. by rewrite !app_nil_r.
Qed.

(** ** Values *)
(** [e] is JSON text of [j], wherever it stands. *)
Definition reads (e : bytes) (j : jval) : Prop :=
  (exists c r, e = c :: r /\ is_space c = false /\ is_char 0x5d c = false) /\
  forall fuel rest, (length e <= fuel)%nat -> stop rest -> p_value fuel (e ++ rest) = Some (j, rest).
Lemma reads_decode e j rest : reads e j -> stop rest -> json_decode (e ++ rest) = Some (j, rest).
Proof. intros [_ H] Hs. apply H; [|done]. rewrite length_app. lia. Qed.
Lemma skip_solid c r : is_space c = false -> skip_space (c :: r) = c :: r.
Proof. cbn. by intros ->. Qed.

Lemma p_value_quote fuel r : p_value (S fuel) (quote ++ r) =
  match p_string (S (length r)) r with Some (v, r) => Some (JStr v, r) | None => None end.
Proof. done. Qed.
Lemma p_value_bracket fuel r : p_value (S fuel) (lit "[" ++ r) =
  match skip_space r with
  | d :: r' => if is_char 0x5d d then Some (JArr [], r')
               else match p_elems fuel r with Some (l, r) => Some (JArr l, r) | None => None end
  | [] => None
  end.
Proof. done. Qed.
Lemma p_value_brace fuel r : p_value (S fuel) (lit "{" ++ r) =
  match skip_space r with
  | d :: r' => if is_char 0x7d d then Some (JObj [], r')
               else match p_members fuel r with Some (l, r) => Some (JObj l, r) | None => None end
  | [] => None
  end.
Proof. done. Qed.

Lemma reads_word w j : (w, j) ∈ [(lit "null", JNull); (lit "true", JBool true); (lit "false", JBool false)] -> reads w j.
Proof.
  intros H. rewrite !elem_of_cons, elem_of_nil in H. destruct H as [H|[H|[H|[]]]]; injection H as -> ->;
    (split; [by eexists _, _|intros [|fuel] rest Hf Hs; [cbn in Hf; lia|destruct rest; reflexivity]]).
Qed.
Lemma reads_string s : ValidString s = true -> reads (string_json s) (JStr s).
Proof.
  intros Hv. split; [by eexists _, _|]. intros [|fuel] rest Hf Hs; [cbn in Hf; lia|]. unfold string_json. rewrite <- !app_assoc.
  rewrite (p_value_quote fuel (esc_string s ++ quote ++ rest)).
  rewrite p_string_esc; [done|done|]. rewrite length_app. lia.
Qed.
(** Bytes a string literal holds as they are. *)
Definition plain (s : bytes) : Prop := Forall (fun c => json_special c = false /\ b2z c < 0x80) s.
Lemma plain_string s : plain s -> ValidString s = true /\ esc_string s = s.
Proof.
  induction 1 as [|c s [Hc Ha] Hs [IH1 IH2]]; [done|]. split.
  - unfold ValidString in *. cbn [utf8_loop]. by rewrite (proj2 (Z.ltb_lt _ _) Ha).
  - unfold esc_string in *. cbn [flat_map]. rewrite IH2. unfold esc. by rewrite Hc.
Qed.
Lemma reads_plain s : plain s -> reads (quote ++ s ++ quote) (JStr s).
Proof. intros [Hv He]%plain_string. pose proof (reads_string s Hv) as H. unfold string_json in H. by rewrite He in H. Qed.
Lemma reads_int z : in_s64 z -> reads (FormatInt z) (JNum (FormatInt z)).
Proof.
  intros Hz. assert (Hh : exists c r, FormatInt z = c :: r /\ (is_char 0x2d c = true \/ is_digit c = true)).
  { unfold FormatInt. destruct (Z.ltb_spec z 0); [eexists _, _; split; [done|by left]|]. unfold in_s64 in Hz.
    destruct (digits_shape 19 z [] ltac:(lia)) as (ds & E & Hf & Hne & _). rewrite E, app_nil_r. destruct Hf; [done|]. eexists _, _; split; [done|by right]. }
  destruct Hh as (c & r & E & Hc). split.
  { exists c, r. unfold is_space, is_digit, is_char in *. split_and!; [done|lia..]. }
  intros [|fuel] rest Hf Hs; [rewrite E in Hf; cbn in Hf; lia|]. pose proof (p_number_int z rest Hz Hs) as Hp. rewrite E in *. cbn [app] in *. cbn [p_value].
  rewrite skip_solid by (unfold is_space, is_digit, is_char in *; lia).
  assert (Hw : forall b w, 57 < b2z b -> has_prefix (c :: r ++ rest) (b :: w) = false).
  { intros b w Hb. cbn [has_prefix]. rewrite bool_decide_false; [done|]. intros ->. unfold is_digit, is_char in *. lia. }
  change (lit "null") with (Byte.x6e :: lit "ull"). change (lit "true") with (Byte.x74 :: lit "rue"). change (lit "false") with (Byte.x66 :: lit "alse").
  rewrite !Hw by (cbn; lia).
  replace (is_char 0x22 c) with false by (unfold is_digit, is_char in *; lia). replace (is_char 0x5b c) with false by (unfold is_digit, is_char in *; lia).
  replace (is_char 0x7b c) with false by (unfold is_digit, is_char in *; lia). by rewrite Hp.
Qed.

(** ** Arrays and objects *)
Fixpoint commas (es : list bytes) : bytes :=
  match es with [] => [] | [e] => e | e :: es => e ++ lit "," ++ commas es end.
Lemma commas_cons e es : es <> [] -> commas (e :: es) = e ++ lit "," ++ commas es.
Proof. by destruct es. Qed.
Lemma solid_head c d s : is_char d c = true -> d <> 0x20 -> d <> 0x09 -> d <> 0x0a -> d <> 0x0d -> skip_space (c :: s) = c :: s.
Proof. intros H ????. apply skip_solid. unfold is_space, is_char in *. lia. Qed.
Lemma p_elems_commas es js : Forall2 reads es js -> es <> [] -> forall fuel rest, (length (commas es) < fuel)%nat ->
  p_elems fuel (commas es ++ lit "]" ++ rest) = Some (js, rest).
Proof.
  induction 1 as [|e j es js He Hes IH]; [done|]. intros _ [|fuel] rest Hf; [lia|]. cbn [p_elems]. destruct (decide (es = [])) as [->|Hne].
  - inversion Hes; subst. cbn [commas] in *. rewrite (proj2 He) by (lia || by right; left). done.
  - rewrite commas_cons in * by done. rewrite !length_app in Hf. cbn [length lit String.list_byte_of_string map] in Hf. rewrite <- !app_assoc, (proj2 He) by (cbn in Hf; lia || by left).
    change (lit "," ++ ?x) with (Byte.x2c :: x). cbn [skip_space]. change (is_space Byte.x2c) with false. change (is_char 0x2c Byte.x2c) with true. cbn match.
    rewrite IH; [done|done|]. cbn in Hf. lia.
Qed.
Lemma reads_array es js : Forall2 reads es js -> reads (lit "[" ++ commas es ++ lit "]") (JArr js).
Proof.
  intros H. split; [by eexists _, _|]. intros [|fuel] rest Hf Hs; [cbn in Hf; lia|]. rewrite <- !app_assoc. rewrite !length_app in Hf. cbn [length] in Hf.
  rewrite (p_value_bracket fuel (commas es ++ lit "]" ++ rest)). pose proof (p_elems_commas es js H) as Hp. destruct H as [|e j es js He Hes].
  - done.
  - destruct (proj1 He) as (c & r & -> & Hc & Hd).
    assert (E : exists t, commas ((c :: r) :: es) = c :: t) by (destruct es; eexists; reflexivity). destruct E as [t E].
    rewrite E at 1. cbn [app]. rewrite skip_solid by done. rewrite Hd. rewrite Hp; [done|done|]. change (length (lit "[")) with 1%nat in Hf. change (length (lit "]")) with 1%nat in Hf. lia.
Qed.

Definition member_text (m : bytes * bytes) : bytes := string_json (fst m) ++ lit ":" ++ snd m.
Definition member_reads (m : bytes * bytes) (n : bytes * jval) : Prop := fst n = fst m /\ ValidString (fst m) = true /\ reads (snd m) (snd n).
Lemma p_members_commas ms ns : Forall2 member_reads ms ns -> ms <> [] -> forall fuel rest, (length (commas (map member_text ms)) < fuel)%nat ->
  p_members fuel (commas (map member_text ms) ++ lit "}" ++ rest) = Some (ns, rest).
Proof.
  induction 1 as [|[k e] [k' j] ms ns (Hk & Hv & He) Hms IH]; [done|]. intros _ [|fuel] rest Hf; [lia|]. cbn [fst snd] in *. subst k'.
  assert (Hm : forall t fuel, (length (member_text (k, e)) < S fuel)%nat -> (match t with [] => False | c :: _ => stop [c] end) -> p_members (S fuel) (member_text (k, e) ++ t) =
    match skip_space t with
    | c :: r => if is_char 0x2c c then match p_members fuel r with Some (l, r) => Some ((k, j) :: l, r) | None => None end
                else if is_char 0x7d c then Some ([(k, j)], r) else None
    | [] => None
    end).
  { intros t f Hl Ht. unfold member_text, string_json in *. cbn [fst snd] in *. rewrite <- !app_assoc. rewrite !length_app in Hl. cbn [p_members].
    set (r := esc_string k ++ quote ++ lit ":" ++ e ++ t). change (quote ++ r) with (Byte.x22 :: r). cbn [skip_space].
    change (is_space Byte.x22) with false. change (is_char 0x22 Byte.x22) with true. cbn [negb]. cbn match. subst r.
    rewrite p_string_esc by (done || rewrite length_app; lia). change (lit ":" ++ e ++ t) with (Byte.x3a :: e ++ t). cbn [skip_space].
    change (is_space Byte.x3a) with false. change (is_char 0x3a Byte.x3a) with true. cbn [negb]. cbn match.
    rewrite (proj2 He); [done| |]; [|destruct t; [done|]; apply Ht]. change (length quote) with 1%nat in Hl. lia. }
  cbn [map] in *. destruct (decide (ms = [])) as [->|Hne].
  - inversion Hms; subst. cbn [map commas] in *. rewrite Hm; [done|done|]. by right; right.
  - assert (Hne' : map member_text ms <> []) by (by destruct ms). rewrite commas_cons in * by done. rewrite !length_app in Hf. change (length (lit ",")) with 1%nat in Hf.
    rewrite <- !app_assoc, Hm by (lia || by left). change (lit "," ++ ?x) with (Byte.x2c :: x). cbn [skip_space].
    change (is_space Byte.x2c) with false. change (is_char 0x2c Byte.x2c) with true. cbn match. rewrite IH; [done|done|lia].
Qed.
Lemma reads_object ms ns : Forall2 member_reads ms ns -> reads (lit "{" ++ commas (map member_text ms) ++ lit "}") (JObj ns).
Proof.
  intros H. split; [by eexists _, _|]. intros [|fuel] rest Hf Hs; [cbn in Hf; lia|]. rewrite <- !app_assoc. rewrite !length_app in Hf.
  change (length (lit "{")) with 1%nat in Hf. change (length (lit "}")) with 1%nat in Hf.
  rewrite (p_value_brace fuel (commas (map member_text ms) ++ lit "}" ++ rest)). pose proof (p_members_commas ms ns H) as Hp. destruct H as [|m n ms ns He Hes].
  - done.
  - assert (E : exists t, commas (map member_text (m :: ms)) = Byte.x22 :: t) by (destruct ms; eexists; reflexivity). destruct E as [t E].
    rewrite E at 1. cbn [app skip_space]. change (is_space Byte.x22) with false. change (is_char 0x7d Byte.x22) with false. cbn match. rewrite Hp; [done|done|lia].
Qed.

(** ** Cells *)
(** The JSON of a cell, as the header of wire.go lists it. *)
Definition cell_json (v : Value) : jval :=
  match Kind v with
  | KindNull => JNull
  | KindInt => JNum (FormatInt (v_Int v))
  | KindBool => JBool (v_Bool v)
  | KindString => JStr (v_Str v)
  | KindBytes => JStr (base64_encode (v_Bytes v))
  | KindUUID => JStr (UUID_String (v_UUID v))
  end.
(** A reader that knows the kind of a column makes the cell again. *)
Definition json_cell (k : ValueKind) (j : jval) : option Value :=
  match j, k with
  | JNull, _ => Some Null
  | JNum s, KindInt => match ParseInt s with Ok z => Some (Int z) | _ => None end
  | JBool b, KindBool => Some (Bool b)
  | JStr s, KindString => Some (Str s)
  | JStr s, KindBytes => match base64_decode s with Some b => Some (Bytes b) | None => None end
  | JStr s, KindUUID => match ParseUUIDOk s with Some u => Some (UUIDVal u) | None => None end
  | _, _ => None
  end.
Definition of_kind (k : ValueKind) (v : Value) : Prop := Kind v = k \/ v = Null.
Lemma cell_read_back k v : value_ok v -> of_kind k v -> json_cell k (cell_json v) = Some v.
Proof.
  intros Hv [Hk| ->]; [|done]. destruct Hv; rewrite ?Kind_Str, ?Kind_Bytes in Hk; cbn in Hk; subst k; unfold cell_json; rewrite ?Kind_Str, ?Kind_Bytes.
  - done.
  - cbn [Kind Int json_cell]. rewrite v_Int_Int by done. by rewrite ParseInt_FormatInt.
  - cbn [Kind Bool json_cell]. by rewrite v_Bool_Bool.
  - cbn [json_cell]. by rewrite v_Str_Str.
  - cbn [json_cell]. rewrite v_Bytes_Bytes by done. by rewrite base64_roundtrip.
  - cbn [Kind UUIDVal json_cell]. rewrite v_UUID_UUIDVal. by rewrite parse_uuid_string.
Qed.

Lemma plain_app a b : plain a -> plain b -> plain (a ++ b).
Proof. apply Forall_app_2. Qed.
Lemma plain_hex b : plain (hex_encode b).
Proof.
  unfold hex_encode. induction b as [|x b IH]; [constructor|]. cbn [flat_map app].
  constructor; [destruct x; done|]. constructor; [destruct x; done|done].
Qed.
Lemma plain_uuid u : plain (UUID_String u).
Proof.
  unfold UUID_String, writeHyphenated. assert (plain (lit "-")) by (by constructor). repeat apply plain_app; try done; apply plain_hex.
Qed.
Lemma plain_digit z : 0 <= z < 64 -> json_special (b64digit z) = false /\ b2z (b64digit z) < 0x80.
Proof.
  intros Hz. assert (H : forallb (fun n => negb (json_special (b64digit (Z.of_nat n))) && (b2z (b64digit (Z.of_nat n)) <? 0x80)) (seq 0 64) = true) by (vm_compute; reflexivity).
  rewrite forallb_forall in H. specialize (H (Z.to_nat z)). rewrite in_seq, Z2Nat.id in H by lia.
  assert (H' := H ltac:(lia)). apply andb_true_iff in H' as [H1%negb_true_iff H2%Z.ltb_lt]. done.
Qed.
Lemma plain_base64 s : plain (base64_encode s).
Proof.
  assert (Hp : json_special b64pad = false /\ b2z b64pad < 0x80) by done.
  revert s. fix IH 1. intros [|a [|b [|c r]]]; [constructor|..]; cbn [base64_encode];
    try pose proof (b2z_range a); try pose proof (b2z_range b); try pose proof (b2z_range c);
    b64_norm; repeat (constructor; [first [exact Hp|apply plain_digit; b64_lia]|]); [constructor..|apply IH].
Qed.

Lemma appendUUIDJSON_text b u : appendUUIDJSON b u = b ++ quote ++ UUID_String u ++ quote.
Proof.
  unfold UUID_String, writeHyphenated, appendUUIDJSON. pose proof (length_ubytes u) as Hl.
  destruct (ubytes u) as [|x0 [|x1 [|x2 [|x3 [|x4 [|x5 [|x6 [|x7 [|x8 [|x9 [|x10 [|x11
    [|x12 [|x13 [|x14 [|x15 [|? ?]]]]]]]]]]]]]]]]]; try discriminate Hl. clear Hl.
  cbn [uuid_groups slice take drop Nat.sub Nat.add fold_left hex_encode flat_map app]. by rewrite <- !app_assoc.
Qed.
Definition value_text (v : Value) : bytes := appendValueJSON [] v.
Lemma appendValueJSON_text b v : appendValueJSON b v = b ++ value_text v.
Proof.
  unfold value_text, appendValueJSON. destruct (Kind v); try done.
  - by rewrite !appendJSONString_text.
  - by rewrite <- !app_assoc.
  - by destruct (v_Bool v).
  - by rewrite !appendUUIDJSON_text.
Qed.
Definition text_ok (v : Value) : Prop := Kind v = KindString -> ValidString (v_Str v) = true.
Lemma reads_cell v : text_ok v -> reads (value_text v) (cell_json v).
Proof.
  intros Ht. unfold value_text, appendValueJSON, cell_json, text_ok in *. destruct (Kind v).
  - apply reads_word. by left.
  - apply reads_int, s64_range.
  - rewrite appendJSONString_text. apply reads_string. by apply Ht.
  - rewrite app_nil_l. apply reads_plain, plain_base64.
  - destruct (v_Bool v); apply reads_word; [by right; left|by right; right; left].
  - rewrite appendUUIDJSON_text. apply reads_plain, plain_uuid.
Qed.

(** ** Rows *)
Lemma comma_loop_text {A} (f : bytes -> A -> bytes) (g : A -> bytes) : (forall b x, f b x = b ++ g x) ->
  forall l b, comma_loop f true l b = b ++ commas (map g l).
Proof.
  intros Hf. assert (H : forall l b, comma_loop f false l b = b ++ match l with [] => [] | _ => lit "," ++ commas (map g l) end).
  { induction l as [|x l IH]; intros b; cbn [comma_loop]; [by rewrite app_nil_r|]. rewrite IH, Hf, <- !app_assoc. cbn [map].
    destruct l; [by rewrite app_nil_r|]. by rewrite commas_cons. }
  intros [|x l] b; cbn [comma_loop]; [by rewrite app_nil_r|]. rewrite H, Hf, <- app_assoc. cbn [map]. destruct l; [by rewrite app_nil_r|]. by rewrite commas_cons.
Qed.
(** Every cell with its column's name; a cell past the names has the empty one. *)
Definition keyed (names : list bytes) (row : Row) : list (bytes * Value) := imap (fun j v => (default [] (names !! j), v)) row.
Definition row_members (names : list bytes) (row : Row) : list (bytes * bytes) := map (fun m => (fst m, value_text (snd m))) (keyed names row).
Definition row_text (names : list bytes) (row : Row) : bytes := lit "{" ++ commas (map member_text (row_members names row)) ++ lit "}".
Definition object_json (names : list bytes) (row : Row) : jval := JObj (map (fun m => (fst m, cell_json (snd m))) (keyed names row)).

Lemma pair_members (g : nat * Value -> bytes) names row :
  (forall j v, g (j, v) = member_text (default [] (names !! j), value_text v)) -> map g (imap pair row) = map member_text (row_members names row).
Proof.
  intros Hg. unfold row_members, keyed. rewrite map_map. change (@map) with (fun A B => @fmap list _ A B). cbn beta.
  rewrite !fmap_imap. apply imap_ext. intros j v _. cbn. apply Hg.
Qed.
Lemma appendRowJSONObject_text b names row : appendRowJSONObject b names row = b ++ row_text names row.
Proof.
  unfold appendRowJSONObject, row_text. rewrite (comma_loop_text _ (fun jc => member_text (default [] (names !! fst jc), value_text (snd jc)))).
  - rewrite (pair_members _ names row) by done. by rewrite <- !app_assoc.
  - intros b' [j v]. cbn [fst snd]. rewrite appendValueJSON_text. unfold member_text. cbn [fst snd]. destruct (names !! j); rewrite appendJSONString_text; by rewrite <- !app_assoc.
Qed.
Lemma appendRowJSONObjectPre_text b names row : appendRowJSONObjectPre b (colJSONPrefix names) row = b ++ row_text names row.
Proof.
  unfold appendRowJSONObjectPre, row_text. rewrite (comma_loop_text _ (fun jc => member_text (default [] (names !! fst jc), value_text (snd jc)))).
  - rewrite (pair_members _ names row) by done. by rewrite <- !app_assoc.
  - intros b' [j v]. cbn [fst snd]. rewrite appendValueJSON_text. unfold member_text, colJSONPrefix. cbn [fst snd]. change (@map) with (fun A B => @fmap list _ A B). cbn beta.
    rewrite list_lookup_fmap. destruct (names !! j); cbn [fmap option_fmap option_map]; rewrite ?appendJSONString_text, <- ?app_assoc; reflexivity.
Qed.
Lemma project_loop_text names row ords cells : Forall2 (fun o v => row !! o = Some v) ords cells -> forall j b,
  project_loop names row j ords b = Ok (b ++ match cells with [] => [] | _ => if (0 <? j)%nat then lit "," else [] end ++
    commas (map member_text (imap (fun i v => (default [] (names !! (j + i)%nat), value_text v)) cells))).
Proof.
  induction 1 as [|o v ords cells Ho Hos IH]; intros j b; cbn [project_loop]; [by rewrite app_nil_r|]. unfold index. rewrite Ho. cbn [mbind outcome_bind]. rewrite IH. clear IH.
  rewrite (imap_cons _ v cells). cbn [map Nat.ltb]. rewrite Nat.add_0_r, appendValueJSON_text. set (m := member_text (default [] (names !! j), value_text v)).
  assert (Em : match names !! j with Some c => appendJSONString (if (0 <? j)%nat then b ++ lit "," else b) c | None => appendJSONString (if (0 <? j)%nat then b ++ lit "," else b) [] end ++ lit ":" =
    b ++ (if (0 <? j)%nat then lit "," else []) ++ string_json (default [] (names !! j)) ++ lit ":").
  { destruct (0 <? j)%nat, (names !! j); rewrite appendJSONString_text, <- ?app_assoc; reflexivity. }
  rewrite Em. f_equal. rewrite <- !app_assoc. f_equal. f_equal. subst m. unfold member_text. cbn [fst snd].
  assert (Ei : imap (fun i v => (default [] (names !! (S j + i)%nat), value_text v)) cells = imap ((fun i v => (default [] (names !! (j + i)%nat), value_text v)) ∘ S) cells).
  { apply imap_ext. intros i x _. cbn. by rewrite Nat.add_succ_r. }
  rewrite Ei. destruct cells as [|x cells]; [by rewrite !app_nil_r|]. rewrite commas_cons by done. by rewrite <- !app_assoc.
Qed.
Lemma appendRowJSONObjectProject_text b names row ords cells : Forall2 (fun o v => row !! o = Some v) ords cells ->
  appendRowJSONObjectProject b names row ords = Ok (b ++ row_text names cells).
Proof.
  intros H. unfold appendRowJSONObjectProject. rewrite (project_loop_text _ _ _ _ H). cbn [mbind outcome_bind]. unfold row_text, row_members, keyed.
  change (@map) with (fun A B => @fmap list _ A B). cbn beta. rewrite !fmap_imap, <- !app_assoc. by destruct cells.
Qed.
Lemma keyed_ok names row : Forall (fun n => ValidString n = true) names -> Forall text_ok row ->
  Forall2 member_reads (row_members names row) (map (fun m => (fst m, cell_json (snd m))) (keyed names row)).
Proof.
  intros Hn Hr. unfold row_members, keyed. change (@map) with (fun A B => @fmap list _ A B). cbn beta. rewrite Forall2_fmap.
  apply Forall_Forall2_diag, list.Forall_forall. intros m (j & v & -> & Hv)%elem_of_lookup_imap. split_and!; [done| |].
  - cbn. destruct (names !! j) as [n|] eqn:E; [|done]. rewrite list.Forall_forall in Hn. eapply Hn, list_elem_of_lookup_2, E.
  - cbn. apply reads_cell. rewrite list.Forall_forall in Hr. eapply Hr, list_elem_of_lookup_2, Hv.
Qed.
Lemma reads_row names row : Forall (fun n => ValidString n = true) names -> Forall text_ok row -> reads (row_text names row) (object_json names row).
Proof. intros Hn Hr. apply reads_object, keyed_ok; done. Qed.

(** A reader that knows the columns' kinds gets the row again, name by name. *)
Fixpoint read_members (ks : list ValueKind) (ms : list (bytes * jval)) : option (list (bytes * Value)) :=
  match ks, ms with
  | [], [] => Some []
  | k :: ks, (n, j) :: ms =>
      match json_cell k j, read_members ks ms with Some v, Some l => Some ((n, v) :: l) | _, _ => None end
  | _, _ => None
  end.
Definition read_object (ks : list ValueKind) (j : jval) : option (list (bytes * Value)) :=
  match j with JObj ms => read_members ks ms | _ => None end.
Lemma read_members_back ks : forall (l : list (bytes * Value)), Forall2 (fun k m => value_ok (snd m) /\ of_kind k (snd m)) ks l ->
  read_members ks (map (fun m => (fst m, cell_json (snd m))) l) = Some l.
Proof.
  induction 1 as [|k [n v] ks l [Hv Hk] Hl IH]; [done|]. cbn [map read_members fst snd] in *. by rewrite cell_read_back, IH.
Qed.
Lemma read_object_back names ks row : Forall value_ok row -> Forall2 of_kind ks row -> read_object ks (object_json names row) = Some (keyed names row).
Proof.
  intros Hv Hk. apply read_members_back. unfold keyed. apply Forall2_same_length_lookup_2.
  { rewrite length_imap. by eapply Forall2_length. }
  intros i k m Hi Hm. rewrite list_lookup_imap in Hm. destruct (row !! i) as [v|] eqn:E; [|done]. injection Hm as <-. cbn. split.
  - rewrite list.Forall_forall in Hv. eapply Hv, list_elem_of_lookup_2, E.
  - by eapply (Forall2_lookup_lr _ _ _ _ _ _ Hk).
Qed.

(** ** Result sets *)
Definition rows_text (names : list bytes) (rows : list Row) : bytes := lit "[" ++ commas (map (row_text names) rows) ++ lit "]".
Lemma RowsToJSONObjects_text names rows : RowsToJSONObjects names rows = rows_text names rows.
Proof.
  unfold RowsToJSONObjects, rows_text. rewrite (comma_loop_text _ (row_text names)) by (intros; apply appendRowJSONObject_text). by rewrite <- app_assoc.
Qed.
Definition readable_rows (names : list bytes) (rows : list Row) : Prop :=
  Forall (fun n => ValidString n = true) names /\ Forall (Forall text_ok) rows.
Lemma reads_rows names rows : readable_rows names rows -> reads (rows_text names rows) (JArr (map (object_json names) rows)).
Proof.
  intros [Hn Hr]. apply reads_array. change (@map) with (fun A B => @fmap list _ A B). cbn beta. rewrite Forall2_fmap.
  apply Forall_Forall2_diag. eapply list.Forall_impl; [exact Hr|]. intros row H. by apply reads_row.
Qed.
Definition table_json (names : list bytes) (rows : list Row) : jval :=
  JObj [(lit "columns", JArr (map JStr names)); (lit "rows", JArr (map (fun row => JArr (map cell_json row)) rows))].
Lemma RowsToJSON_text names rows : RowsToJSON names rows = lit "{" ++ commas (map member_text
  [(lit "columns", lit "[" ++ commas (map string_json names) ++ lit "]");
   (lit "rows", lit "[" ++ commas (map (fun row => lit "[" ++ commas (map value_text row) ++ lit "]") rows) ++ lit "]")]) ++ lit "}".
Proof.
  unfold RowsToJSON, appendJSONRows. rewrite (comma_loop_text appendJSONString string_json) by apply appendJSONString_text.
  rewrite (comma_loop_text _ (fun row => lit "[" ++ commas (map value_text row) ++ lit "]")).
  - rewrite app_nil_l. cbn [map commas]. unfold member_text. cbn [fst snd]. rewrite <- !app_assoc. reflexivity.
  - intros b row. rewrite (comma_loop_text appendValueJSON value_text) by apply appendValueJSON_text. by rewrite <- !app_assoc.
Qed.
Lemma reads_table names rows : readable_rows names rows -> reads (RowsToJSON names rows) (table_json names rows).
Proof.
  intros [Hn Hr]. rewrite RowsToJSON_text. apply reads_object.
  apply Forall2_cons_2; [|apply Forall2_cons_2; [|constructor]]; (split; [done|split; [done|]]; cbn [fst snd]).
  all: apply reads_array; change (@map) with (fun A B => @fmap list _ A B); cbn beta; rewrite Forall2_fmap; apply Forall_Forall2_diag.
  - eapply list.Forall_impl; [exact Hn|]. apply reads_string.
  - eapply list.Forall_impl; [exact Hr|]. intros row H. apply reads_array. rewrite Forall2_fmap. apply Forall_Forall2_diag.
    eapply list.Forall_impl; [exact H|]. apply reads_cell.
Qed.

(** ErrorJSON's text holds the message. *)
Theorem error_reads_back msg : ValidString msg = true -> json_decode (ErrorJSON msg) = Some (JObj [(lit "error", JStr msg)], []).
Proof.
  intros Hv. pose (m := quote ++ marshal_string (length msg) msg ++ quote). assert (Hm : reads m (JStr msg)).
  { split; [by eexists _, _|]. intros [|fuel] rest Hf Hs; [cbn in Hf; lia|]. unfold m. rewrite <- !app_assoc.
    rewrite (p_value_quote fuel (marshal_string (length msg) msg ++ quote ++ rest)). rewrite p_marshal; [done|done|done|]. rewrite length_app. lia. }
  assert (R : reads (lit "{" ++ commas (map member_text [(lit "error", m)]) ++ lit "}") (JObj [(lit "error", JStr msg)])).
  { apply reads_object. apply Forall2_cons_2; [|constructor]. split; [done|by split]. }
  pose proof (reads_decode _ _ [] R I) as D. rewrite app_nil_r in D. rewrite <- D. f_equal. unfold ErrorJSON, m, member_text. cbn [map commas fst snd].
  rewrite <- !app_assoc. reflexivity.
Qed.
Lemma error_reads_back_witness : json_decode (ErrorJSON (lit "a <b>")) = Some (JObj [(lit "error", JStr (lit "a <b>"))], []).
Proof. apply error_reads_back. vm_compute. reflexivity. Defined.

(** ** Arguments *)
Definition arg_ok (a : arg) : Prop := match a with AStr s => ValidString s = true | AInt z => in_s64 z | _ => True end.
(** What a client writes for an argument, and for a list of them. *)
Definition arg_text (a : arg) : bytes :=
  match a with ANil => lit "null" | ABool b => if b then lit "true" else lit "false" | AStr s => string_json s | AInt z => FormatInt z end.
Definition args_text (args : list arg) : bytes := lit "[" ++ commas (map arg_text args) ++ lit "]".
Definition arg_json (a : arg) : jval :=
  match a with ANil => JNull | ABool b => JBool b | AStr s => JStr s | AInt z => JNum (FormatInt z) end.
Lemma reads_arg a : arg_ok a -> reads (arg_text a) (arg_json a).
Proof.
  destruct a as [|[]|s|z]; intros Ha; [apply reads_word; by left|apply reads_word; by right; left|apply reads_word; by right; right; left|by apply reads_string|by apply reads_int].
Qed.
Lemma args_of_json args : Forall arg_ok args -> args_of (map arg_json args) = Ok args.
Proof.
  induction 1 as [|a args Ha Hs IH]; [done|]. cbn [map args_of]. assert (E : arg_of (arg_json a) = Ok a).
  { destruct a; try done. cbn. by rewrite ParseInt_FormatInt. }
  rewrite E. cbn [mbind outcome_bind]. by rewrite IH.
Qed.

Definition flat_char (c : Init.Byte.byte) : Prop :=
  is_char 0x22 c = false /\ is_char 0x5b c = false /\ is_char 0x7b c = false /\ is_char 0x5d c = false /\ is_char 0x7d c = false.
Lemma nest_flat e d r : Forall flat_char e -> nesting_loop (e ++ r) d false = nesting_loop r d false.
Proof. induction 1 as [|c e (H1 & H2 & H3 & H4 & H5) He IH]; [done|]. cbn [app nesting_loop]. by rewrite H1, H2, H3, H4, H5. Qed.
Lemma nest_esc c d r : nesting_loop (esc c ++ r) d true = nesting_loop r d true.
Proof. destruct c; reflexivity. Qed.
Lemma nest_string s d r : nesting_loop (string_json s ++ r) d false = nesting_loop r d false.
Proof.
  unfold string_json. rewrite <- !app_assoc. change (nesting_loop (quote ++ ?x) d false) with (nesting_loop x d true).
  induction s as [|c s IH]; [done|]. unfold esc_string in *. cbn [flat_map]. by rewrite <- app_assoc, nest_esc.
Qed.
Lemma flat_digits ds : Forall (fun c => is_digit c = true) ds -> Forall flat_char ds.
Proof. intros H. eapply list.Forall_impl; [exact H|]. intros c Hc. unfold flat_char, is_digit, is_char in *. lia. Qed.
Lemma flat_int z : in_s64 z -> Forall flat_char (FormatInt z).
Proof.
  intros Hz. unfold in_s64 in Hz. unfold FormatInt. destruct (Z.ltb_spec z 0).
  - destruct (digits_shape 19 (- z) [] ltac:(lia)) as (ds & -> & Hf & _). rewrite app_nil_r. constructor; [done|by apply flat_digits].
  - destruct (digits_shape 19 z [] ltac:(lia)) as (ds & -> & Hf & _). rewrite app_nil_r. by apply flat_digits.
Qed.
Lemma nest_arg a d r : arg_ok a -> nesting_loop (arg_text a ++ r) d false = nesting_loop r d false.
Proof.
  destruct a as [|[]|s|z]; intros Ha; cbn [arg_text]; [done..|by apply nest_string|]. apply nest_flat. by apply flat_int.
Qed.
Lemma nest_commas args d r : Forall arg_ok args -> nesting_loop (commas (map arg_text args) ++ r) d false = nesting_loop r d false.
Proof.
  induction 1 as [|a args Ha Hs IH]; [done|]. cbn [map]. destruct args as [|b args]; [by apply nest_arg|].
  rewrite commas_cons by done. rewrite <- !app_assoc, nest_arg by done. change (nesting_loop (lit "," ++ ?x) d false) with (nesting_loop x d false). apply IH.
Qed.
Lemma args_nesting args : Forall arg_ok args -> argsNestingOK (args_text args) = true.
Proof.
  intros H. unfold argsNestingOK, args_text. change (nesting_loop (lit "[" ++ ?x) 0 false) with (nesting_loop x 1 false). by rewrite nest_commas.
Qed.
Lemma trim_solid s : TrimSpace (lit "[" ++ s ++ lit "]") = lit "[" ++ s ++ lit "]".
Proof.
  unfold TrimSpace. set (t := lit "[" ++ s ++ lit "]"). assert (El : forall n, trim_left n white_space t = t) by (intros [|n]; reflexivity).
  rewrite El. assert (Er : reverse t = Byte.x5d :: reverse (lit "[" ++ s)) by (subst t; by rewrite app_assoc, reverse_app).
  assert (E : forall n, trim_left n (map reverse white_space) (reverse t) = reverse t) by (rewrite Er; intros [|n]; reflexivity).
  by rewrite E, reverse_involutive.
Qed.

(** The arguments a client writes are the arguments the statement gets: for any
    nils, booleans, 64-bit integers and UTF-8 strings, whatever brackets, quotes
    or escapes the strings hold, ArgsFromJSON and QueryArgs read them back. *)
Theorem args_read_back args : Forall arg_ok args -> ArgsFromJSON (args_text args) = Ok args /\ QueryArgs (args_text args) = Ok args.
Proof.
  intros H. assert (G : ArgsFromJSON (args_text args) = Ok args).
  { unfold ArgsFromJSON. unfold args_text at 1. rewrite trim_solid. cbn [app lit String.list_byte_of_string]. rewrite args_nesting by done. cbn [negb].
    assert (R : reads (args_text args) (JArr (map arg_json args))).
    { apply reads_array. change (@map) with (fun A B => @fmap list _ A B). cbn beta. rewrite Forall2_fmap. apply Forall_Forall2_diag.
      eapply list.Forall_impl; [exact H|]. apply reads_arg. }
    pose proof (reads_decode _ _ [] R I) as E. rewrite app_nil_r in E. rewrite E. cbn [skip_space]. by apply args_of_json. }
  split; [done|]. unfold QueryArgs, args_text. rewrite trim_solid. exact G.
Qed.
Lemma args_read_back_witness : ArgsFromJSON (args_text [AStr (qlit "]}'["); AInt (-7); ANil; ABool true]) = Ok [AStr (qlit "]}'["); AInt (-7); ANil; ABool true].
Proof. apply (args_read_back [AStr (qlit "]}'["); AInt (-7); ANil; ABool true]). repeat constructor; cbn; unfold in_s64; lia. Defined.
