(* ===== verification/QueryJson.v ===== *)
(** * QueryJson: the read entry points that encode their rows as JSON
    (query_stream.go, db_query.go, the point reads of store_read.go and
    exec_select.go), and what their text says. *)
From S2P Require Import Prelude Bytes Order Uuid Value CompositeKey PkMap Codec Frame Journal Schema Catalog SecIndex IndexOk Store StoreOk StoreSim Merge MergeOk MergeSafe Ast Eval Filter Lexer Parser ParserOk ParserTree TopN TopNOk Plan PlanJoin PlanOk PlanJoinOk Recovery Replayer RecoveryOk Select SelectOk CandOk WalkOk SelectSound SelectMain Join Query QueryOk Prepare QueryMain Json Wire WireOk.

Section json.
Context (pkHashSeed : Z) (SortFunc : forall A : Type, (A -> A -> Z) -> list A -> list A).
Context (maxCells maxRows : Z).
Context (store : tableRT -> tbl_state * list secIndex).

(** ** Point reads *)
(** Nil ordinals stand for every column. *)
Definition getByPKJSONInto (t : tbl_state) (pk : UUID) (cols : list bytes) (ords : option (list nat)) (dst : bytes) : outcome (bytes * bool) :=
  s ← index (t_shards t) (idx t pk);
  g ← lift (pk_get pkHashSeed (s_pk s) pk);
  let '(rowID, ok) := g in
  if negb ok then Ok (dst, false)
  else r ← index (s_rows s) (Z.to_nat rowID);
       match r with
       | None => Ok (dst, false)
       | Some r =>
           match ords with
           | None => Ok (appendRowJSONObject dst cols r, true)
           | Some ords => b ← appendRowJSONObjectProject dst cols r ords; Ok (b, true)
           end
       end.
Definition appendMatchJSON (t : tbl_state) (pk : UUID) (pred : predicate) (cols : list bytes) (ords : list nat) (starAll : bool) (dst : bytes)
  : outcome (bytes * bool) :=
  s ← index (t_shards t) (idx t pk);
  g ← lift (pk_get pkHashSeed (s_pk s) pk);
  let '(rowID, ok) := g in
  if negb ok then Ok (dst, false)
  else r ← index (s_rows s) (Z.to_nat rowID);
       match r with
       | None => Ok (dst, false)
       | Some r =>
           b ← pred r;
           if negb b then Ok (dst, false)
           else if starAll then Ok (appendRowJSONObject dst cols r, true)
           else b ← appendRowJSONObjectProject dst cols r ords; Ok (b, true)
       end.
(** The two candidate loops: the first match ends the search. *)
Fixpoint first_json (t : tbl_state) (pks : list UUID) (pred : predicate) (cols : list bytes) (ords : list nat) (starAll : bool) (dst : bytes)
  : outcome (bytes * bool) :=
  match pks with
  | [] => Ok (dst, false)
  | pk :: pks =>
      x ← appendMatchJSON t pk pred cols ords starAll dst;
      if snd x : bool then Ok x else first_json t pks pred cols ords starAll dst
  end.
Definition index_json (pl : plan) (st : selectStmt) (rt : tableRT) (key : Value) (dst : bytes) : outcome (bytes * bool) :=
  let t := fst (store rt) in
  let ixs := snd (store rt) in
  let acc := pl_access pl in
  if negb (idxLookup acc) || negb (length (idxCols acc) =? 1)%nat || (0 <=? pl_orderOrdinal pl) || negb (sel_offset st =? 0) || negb (sel_limit st =? 1)
  then Err errUsage
  else
    kargs ← coerceParams (pl_paramWantUUID pl) [key];
    src ← index (idxSrcs acc) 0;
    keyVal ← evalExpr (Some src) (sel_ctx (table rt) kargs);
    if IsNull keyVal then Ok (dst, false)
    else
      ord ← index (idxCols acc) 0;
      match indexFor ixs ord with
      | None => Ok (dst, false)
      | Some si =>
          let pred := strict_match st rt kargs in
          x ← first_json t (lookup si (keyOf keyVal)) pred (pl_colNames pl) (pl_projOrdinals pl) (sel_starAll st) dst;
          if snd x : bool then Ok x
          else d ← dirtyPKs pkHashSeed t; first_json t d pred (pl_colNames pl) (pl_projOrdinals pl) (sel_starAll st) dst
      end.

(** ** Result sets *)
(** QueryJSONInto's visitor: the buffer and whether a row came before. *)
Definition json_visit (prefix : list bytes) (s : bytes * bool) (row : Row) : (bytes * bool) * bool :=
  let '(buf, first) := s in
  let buf := if first : bool then buf else buf ++ lit "," in
  ((appendRowJSONObjectPre buf prefix row, false), true).
Definition select_json (pl : plan) (st : selectStmt) (rt : tableRT) (dst : bytes) (args : list Value) : outcome bytes :=
  let prefix := colJSONPrefix (pl_colNames pl) in
  if pl_countStar pl then
    n ← countRows pkHashSeed SortFunc maxCells maxRows store pl st rt args;
    p ← index prefix 0;
    Ok ((((dst ++ lit "[{") ++ p) ++ FormatInt (s64 n)) ++ lit "}]")
  else
    s ← selectEach pkHashSeed SortFunc maxCells maxRows store pl st rt (json_visit prefix) args (dst ++ lit "[", true);
    Ok (fst s ++ lit "]").

Context (stack : nat) (mapLower : bytes -> bytes) (live : tableRT -> Z).
Definition QueryJSONInto (db : dbh) (dst : bytes) (sql : bytes) (args : list Value) : dbh * outcome (list bytes * bytes) :=
  prepared stack mapLower live db sql (fun pl => on_select pl (fun st rt => text ← select_json pl st rt dst args; Ok (pl_colNames pl, text))).
Definition QueryJSON (db : dbh) (sql : bytes) (args : list Value) : dbh * outcome (list bytes * bytes) := QueryJSONInto db [] sql args.
(** [pl.rt] of a plan that pins the primary key, whatever its statement. *)
Definition QueryRowJSONByPK (db : dbh) (dst : bytes) (sql : bytes) (id : UUID) : dbh * outcome (bytes * bool) :=
  prepared stack mapLower live db sql (fun pl =>
    if negb (pkLookup (pl_access pl)) then Err errUsage
    else match pl_rt pl with
    | Some rt => getByPKJSONInto (fst (store rt)) id (pl_colNames pl) (if (length (pl_projOrdinals pl) =? 0)%nat then None else Some (pl_projOrdinals pl)) dst
    | None => Panic
    end).
Definition QueryRowJSONByIndex (db : dbh) (dst : bytes) (sql : bytes) (key : Value) : dbh * outcome (bytes * bool) :=
  prepared stack mapLower live db sql (fun pl => on_select pl (fun st rt => index_json pl st rt key dst)).
End json.

(** ** The text *)
Lemma json_visits prefix : forall rows buf first, visit_rows (json_visit prefix) (buf, first) rows =
  (comma_loop (fun b row => appendRowJSONObjectPre b prefix row) first rows buf, match rows with [] => first | _ => false end).
Proof.
  induction rows as [|row rows IH]; intros buf first; [done|]. cbn [visit_rows json_visit comma_loop]. rewrite IH.
  destruct rows; done.
Qed.
Lemma value_ok_Int z : value_ok (Int z).
Proof.
  replace (Int z) with (Int (s64 z)); [apply ok_int, s64_range|]. unfold Int. f_equal. unfold s64, u64. destruct (z mod 2 ^ 64 <? 2 ^ 63).
  - by rewrite Z.mod_mod by lia.
  - replace (z mod 2 ^ 64 - 2 ^ 64) with (z mod 2 ^ 64 + (-1) * 2 ^ 64) by lia. by rewrite Z.mod_add, Z.mod_mod by lia.
Qed.
Lemma count_text n : value_text (Int n) = FormatInt (s64 n).
Proof. unfold value_text, appendValueJSON. cbn [Kind Int]. rewrite app_nil_l. unfold v_Int. cbn. f_equal. unfold s64, u64. by rewrite Z.mod_mod by lia. Qed.

(** A column a CREATE TABLE can declare. *)
Definition known_type (c : ColumnDef) : Prop := c_Type c ∈ [TypeInt; TypeString; TypeBytes; TypeBool; TypeUUID].
Lemma fits_text c v : known_type c -> cell_fits c v -> text_ok v.
Proof.
  unfold known_type, cell_fits, validateValue, text_ok, IsNull. intros Ht H Hk. rewrite Hk in H. rewrite bool_decide_false in H by done.
  destruct (c_Type c =? TypeInt) eqn:E1; [done|]. destruct (c_Type c =? TypeString) eqn:E2; [cbn in H; by destruct (ValidString (v_Str v))|].
  destruct (c_Type c =? TypeBytes) eqn:E3; [done|]. destruct (c_Type c =? TypeBool) eqn:E4; [done|]. destruct (c_Type c =? TypeUUID) eqn:E5; [done|].
  rewrite !elem_of_cons, elem_of_nil in Ht. lia.
Qed.
Lemma row_text_ok cols r : Forall known_type cols -> row_fits cols r -> Forall text_ok r.
Proof.
  intros Hc H. induction H as [|c v cols r Hv Hr IH]; [constructor|]. inversion Hc; subst. constructor; [by eapply fits_text|by apply IH].
Qed.
(** Every shown cell is a cell of the row or a zero. *)
Lemma shown_forall (P : Value -> Prop) proj r : P zeroCell -> Forall P r -> Forall P (shown proj r).
Proof.
  intros Hz Hr. unfold shown. destruct proj as [ords|]; [|done]. apply list.Forall_forall. intros v (o & <- & _)%list_elem_of_In%in_map_iff.
  destruct (r !! o) as [x|] eqn:E; [|done]. rewrite list.Forall_forall in Hr. cbn. eapply Hr, list_elem_of_lookup_2, E.
Qed.
Lemma window_forall (P : Row -> Prop) st l : Forall P l -> Forall P (window st l).
Proof. intros H. unfold window. destruct (_ <? 0); [by apply Forall_drop|by apply Forall_take, Forall_drop]. Qed.
Lemma count_name rt cat s pl st : planned_select rt cat s pl st -> pl_countStar pl = true -> pl_colNames pl = [lit "count"].
Proof.
  intros (_ & _ & pl0 & Hp & (_ & _ & _ & _ & _ & -> & ->)). unfold plan_select in Hp. cbv zeta in Hp. inv_bind. cbn. by intros ->.
Qed.

(** ** Point reads *)
Lemma project_cells row ords : Forall (fun o => (o < length row)%nat) ords -> Forall2 (fun o v => row !! o = Some v) ords (map (fun o => default zeroCell (row !! o)) ords).
Proof.
  induction 1 as [|o ords Ho Hos IH]; [constructor|]. cbn [map]. constructor; [|done]. by destruct (lookup_lt_is_Some_2 row o Ho) as [v ->].
Qed.
(** The JSON point read is the live row under the key: the columns asked for, in
    order, after what the buffer held; a missing key leaves the buffer alone. *)
Theorem json_point_read pkHashSeed def ck t g d pk names ords dst : stored pkHashSeed def ck t g d ->
  Forall (fun o => (o < length (t_Columns (rt_def def)))%nat) (default [] ords) ->
  getByPKJSONInto pkHashSeed t pk names ords dst = match g !! pk with Some r => Ok (dst ++ row_text names (shown ords r), true) | None => Ok (dst, false) end.
Proof.
  intros St Ho. pose proof (rd_get _ _ _ _ _ _ St pk) as E. unfold live_row_at in E. unfold getByPKJSONInto.
  destruct (index (t_shards t) (idx t pk)) as [s| |]; [|done..]. cbn [mbind outcome_bind] in E |- *.
  destruct (lift (pk_get pkHashSeed (s_pk s) pk)) as [[rowID ok]| |]; [|done..]. cbn [mbind outcome_bind] in E |- *.
  destruct ok; cbn [negb] in E |- *; [|by injection E as <-]. rewrite E. cbn [mbind outcome_bind].
  destruct (g !! pk) as [r|] eqn:Hg; [|done]. destruct (rd_rows _ _ _ _ _ _ St pk r Hg) as ((Hl & _) & _). destruct ords as [ords|].
  - rewrite (appendRowJSONObjectProject_text dst names r ords (shown (Some ords) r)); [done|]. apply project_cells. by rewrite Hl.
  - by rewrite appendRowJSONObject_text.
Qed.

Section main.
Context {J : Type} `{Journal J} (pkHashSeed : Z) (def : resolvedTable) (max ext : Z) (ck : nat -> ValueKind).
Local Abbreviation ncols := (length (t_Columns (rt_def def))).
Hypothesis pk_in : (pkOrd def < ncols)%nat.
Hypothesis ords_in : Forall (fun ri => Forall (fun o => (o < ncols)%nat) (ri_ordinals ri)) (rt_indexes def).
Context (SortFunc : forall A : Type, (A -> A -> Z) -> list A -> list A) {sorts : forall A, SortsFunc (SortFunc A)}.
Context (maxCells maxRows : Z) (store : tableRT -> tbl_state * list secIndex) (stack : nat) (mapLower : bytes -> bytes) (live : tableRT -> Z).
Local Abbreviation served := (served pkHashSeed def max ext ck).
Local Abbreviation query_req := (query_req pkHashSeed def ck maxCells stack mapLower live).

Section one.
Context (t : tbl_state) (ixs : list secIndex) (db : dbh) (sql : bytes) (rt : tableRT) (pl : plan) (st : selectStmt) (args args' : list Value).
Hypothesis Hserved : served t ixs.
Hypothesis Hstore : store rt = (t, ixs).
Hypothesis Q : query_req t db sql rt pl st args args'.
Lemma result_cells rows : Forall known_type (t_Columns (rt_def def)) -> result def t pl st args' rows ->
  Forall (Forall text_ok) rows /\ Forall (Forall value_ok) rows.
Proof.
  intros Hk Hr. unfold result in Hr. destruct (pl_countStar pl) eqn:Ec.
  { destruct Hr as (n & -> & _). split; apply list.Forall_singleton, list.Forall_singleton; [done|apply value_ok_Int]. }
  destruct (req_parts pkHashSeed def max ext ck pk_in ords_in maxCells stack mapLower live t ixs db sql rt pl st args args' Hserved Q)
    as (g & d & _ & _ & R & _ & _ & Hf & _). destruct Hr as (S & PS & _ & [= ->]).
  assert (G : Forall (fun r => Forall text_ok r /\ Forall value_ok r) S).
  { apply list.Forall_forall. intros r Hin. rewrite PS in Hin. apply (matching_elem _ _ _ _ _ _ _ R) in Hin as (_ & pk & Hg).
    split; [by eapply row_text_ok, Hf|]. destruct (rd_good pkHashSeed def ck t ixs g d R pk r Hg) as [[_ Hv] _]. exact Hv. }
  split; apply window_forall, Forall_map; (eapply list.Forall_impl; [exact G|]); intros r [G1 G2]; apply shown_forall; try done; constructor.
Qed.
Lemma json_result dst : (pl_countStar pl = true -> args' = args) -> exists rows,
  queryPlanV pkHashSeed SortFunc maxCells maxRows store pl st rt args = Ok rows /\ result def t pl st args' rows /\
  select_json pkHashSeed SortFunc maxCells maxRows store pl st rt dst args = Ok (dst ++ rows_text (pl_colNames pl) rows).
Proof.
  intros Hcount. destruct (rows_result pkHashSeed def max ext ck pk_in ords_in SortFunc maxCells maxRows store stack mapLower live t ixs db sql rt pl st args args' Hserved Hstore Q) as (rows & E & Hr).
  exists rows. split_and!; [done..|]. unfold select_json. destruct (pl_countStar pl) eqn:Ec.
  - destruct (req_planned pkHashSeed def ck maxCells stack mapLower live t db sql rt pl st args args' Q) as (s & Hp & _). pose proof (count_name _ _ _ _ _ Hp Ec) as En.
    pose proof Q as [_ _ _ _ _ Hn Hargs _ _]. unfold queryPlanV, checkArgs in E. rewrite Hn, Z.eqb_refl, ok_bind, Hargs, ok_bind, Ec, (Hcount eq_refl) in E.
    destruct (countRows _ _ _ _ _ _ _ _ _) as [n| |]; [|done..]. cbn [mbind outcome_bind] in E |- *. injection E as <-. rewrite En.
    assert (Ei : index (colJSONPrefix [lit "count"]) 0 = Ok (string_json (lit "count") ++ lit ":")) by (vm_compute; reflexivity).
    rewrite Ei. cbn [mbind outcome_bind]. f_equal. unfold rows_text, row_text, row_members, keyed. cbn [map commas imap]. unfold member_text. cbn [fst snd].
    rewrite count_text, <- !app_assoc. reflexivity.
  - destruct (each_result pkHashSeed def max ext ck pk_in ords_in SortFunc maxCells maxRows store stack mapLower live t ixs db sql rt pl st args args' Hserved Hstore Q
      (json_visit (colJSONPrefix (pl_colNames pl))) (dst ++ lit "[", true)) as (rows' & E' & ->).
    assert (rows' = rows) as -> by congruence. rewrite ok_bind, json_visits. cbn [fst]. f_equal.
    rewrite (comma_loop_text _ (row_text (pl_colNames pl))) by (intros; apply appendRowJSONObjectPre_text). unfold rows_text. by rewrite <- !app_assoc.
Qed.
End one.

(** C30: the JSON of a query is its rows. QueryJSON, which encodes live rows as it
    streams them and never builds the result, appends to the caller's buffer a
    text that a JSON decoder reads as one array with an object per row QueryValues
    returns, in the same order; each object names the columns in order, and a
    reader that knows the columns' kinds gets every cell again - integers of any
    size, bytes, identifiers, and text whatever quotes, control characters or
    runes are in it. Names and text are UTF-8 (writes check text; names are the
    schema's). A COUNT is asked with arguments that need no coercion: QueryJSON,
    unlike QueryValues, does not coerce them ([json_count_skips_coercion]). *)
Theorem query_json_reads_back t ixs db sql rt pl st args args' dst : served t ixs -> store rt = (t, ixs) -> query_req t db sql rt pl st args args' ->
  Forall known_type (t_Columns (rt_def def)) -> Forall (fun n => ValidString n = true) (pl_colNames pl) -> (pl_countStar pl = true -> args' = args) ->
  exists rows text,
    snd (QueryValues pkHashSeed SortFunc maxCells maxRows store stack mapLower live db sql args) = Ok (pl_colNames pl, rows) /\
    snd (QueryJSONInto pkHashSeed SortFunc maxCells maxRows store stack mapLower live db dst sql args) = Ok (pl_colNames pl, dst ++ text) /\
    json_decode text = Some (JArr (map (object_json (pl_colNames pl)) rows), []) /\
    forall row ks, row ∈ rows -> Forall2 of_kind ks row -> read_object ks (object_json (pl_colNames pl) row) = Some (keyed (pl_colNames pl) row).
Proof.
  intros Hs Ht Q Hk Hn Hc. destruct (json_result t ixs db sql rt pl st args args' Hs Ht Q dst Hc) as (rows & E & Hr & Ej).
  destruct (result_cells t ixs db sql rt pl st args args' Hs Q rows Hk Hr) as [Htext Hval]. exists rows, (rows_text (pl_colNames pl) rows).
  pose proof Q as [_ _ _ (cache & Ep) Hst _ _ _ _]. unfold QueryValues, QueryJSONInto, prepared. rewrite Ep. cbn [snd]. unfold on_select.
  rewrite Hst, (req_rt pkHashSeed def ck maxCells stack mapLower live t db sql rt pl st args args' Q), E, Ej. split_and!; [done..| |].
  - pose proof (reads_decode _ _ [] (reads_rows _ _ (conj Hn Htext)) I) as D. by rewrite app_nil_r in D.
  - intros row ks Hin Hks. apply read_object_back; [|done]. rewrite list.Forall_forall in Hval. by apply Hval.
Qed.
End main.

(** ** The users table *)
Lemma query_json_reads_back_witness : exists rows text, snd users_query = Ok ([lit "name"], rows) /\
  snd (QueryJSONInto 0 users_sort 1000 1000 users_store 2056 id (fun _ => 1) users_db (lit "> ") (lit age_sql) [Int 36]) = Ok ([lit "name"], lit "> " ++ text) /\
  json_decode text = Some (JArr (map (object_json [lit "name"]) rows), []) /\
  forall row ks, row ∈ rows -> Forall2 of_kind ks row -> read_object ks (object_json [lit "name"] row) = Some (keyed [lit "name"] row).
Proof.
  destruct users_side as (H1 & H2 & H3).
  assert (En : pl_colNames (users_prepared age_sql) = [lit "name"]) by (vm_compute; reflexivity). unfold users_query. rewrite <- En.
  apply (query_json_reads_back 0 users_rt 1000 0 users_ck H1 H3 users_sort 1000 1000 users_store 2056 id (fun _ => 1) (y_t users_wrote) (y_ix users_wrote) users_db (lit age_sql) users_tab
    (users_prepared age_sql) (users_stmt age_sql) [Int 36] [Int 36] (lit "> ") users_served eq_refl users_query_req).
  - apply (bool_decide_unpack (Forall known_type _)). vm_compute. done.
  - rewrite En. repeat constructor.
  - done.
Defined.
Definition users_json (sql : string) (args : list Value) : outcome (list bytes * bytes) :=
  snd (QueryJSON 0 users_sort 1000 1000 users_store 2056 id (fun _ => 1) users_db (lit sql) args).
Example users_json_runs : users_json age_sql [Int 36] = Ok ([lit "name"], qlit "[{'name':'ada'}]").
Proof. vm_compute. reflexivity. Qed.
Example users_point_read :
  snd (QueryRowJSONByPK 0 users_store 2056 id (fun _ => 1) users_db [] (lit "SELECT age, name FROM users WHERE id = ?") ada_id) =
  Ok (qlit "{'age':36,'name':'ada'}", true).
Proof. vm_compute. reflexivity. Qed.
(** COUNT under QueryJSON does not coerce its arguments: an identifier given as
    text, which every other entry point parses, counts nothing. *)
Example json_count_skips_coercion :
  let sql := "SELECT COUNT(*) FROM users WHERE id = ? OR age = ?" in
  let args := [Str (UUID_String ada_id); Int 7] in
  snd (QueryValues 0 users_sort 1000 1000 users_store 2056 id (fun _ => 1) users_db (lit sql) args) = Ok ([lit "count"], [[Int 1]]) /\
  users_json sql args = Ok ([lit "count"], qlit "[{'count':0}]").
Proof. vm_compute. done. Qed.
