(* ===== verification/Partition.v ===== *)
(** * Partition: partition_store.go and the partitioned arms of store_compact.go and
    compact.go — a table whose rows are routed by their partition value, with a
    table-wide directory from primary key to place.

    A method holds the directory lock and the shard locks it takes to its end, so
    it is one step of the table, as in [Store]. The point reads take the two locks
    one after the other: they run over the states they find ([seen]). *)
From S2P Require Import Prelude Bytes Uuid Value PkMap Codec Frame Journal Schema Store Wire.

(** Row ids are arena places. [p_tails] lists a partition's row ids in insertion
    order, dead ones included; [p_dead] counts those. *)
Record pshard : Type := MkPShard {
  p_rows : list (option Row);
  p_tails : gmap UUID (list nat);
  p_dead : gmap UUID Z;
  p_live : Z;
  p_bytes : Z;
}.
Record rowLocation : Type := MkLoc {
  loc_shard : nat;
  loc_rowID : nat;
}.
Record ptable : Type := MkPTable {
  pt_shards : list pshard;
  pt_dir : gmap UUID rowLocation;
  pt_total : Z;
}.
Definition pkRetryBudget : nat := 8.
Definition minTailPrune : Z := 16.

Section partition.
Context {J : Type} `{Journal J} (def : resolvedTable) (max : Z).
Definition partOrd : nat := Z.to_nat (rt_partitionOrdinal def).

Definition newPartitioned (ncpu total : Z) : ptable :=
  MkPTable (replicate (Z.to_nat (shardCount ncpu)) (MkPShard [] ∅ ∅ 0 0)) ∅ total.
Definition pt_idx (t : ptable) (u : UUID) : nat := shardIdxOf (zlen (pt_shards t) - 1) u.
Definition pt_put (t : ptable) (i : nat) (s : pshard) : ptable :=
  MkPTable (<[i := s]> (pt_shards t)) (pt_dir t) (pt_total t).
Definition pt_set_total (t : ptable) (total : Z) : ptable := MkPTable (pt_shards t) (pt_dir t) total.
Definition pt_set_dir (t : ptable) (dir : gmap UUID rowLocation) : ptable := MkPTable (pt_shards t) dir (pt_total t).
Definition p_set_row (s : pshard) (n : nat) (r : option Row) : pshard :=
  MkPShard (<[n := r]> (p_rows s)) (p_tails s) (p_dead s) (p_live s) (p_bytes s).

(** ** Inserts *)
Definition p_addRow (s : pshard) (row : Row) (cost : Z) : pshard * nat :=
  (MkPShard (p_rows s ++ [Some row]) (p_tails s) (p_dead s) (p_live s + 1) (p_bytes s + cost), length (p_rows s)).
Definition p_tail_add (s : pshard) (part : UUID) (rowID : nat) : pshard :=
  MkPShard (p_rows s) (<[part := default [] (p_tails s !! part) ++ [rowID]]> (p_tails s)) (p_dead s) (p_live s) (p_bytes s).
Definition insertPartitioned (t : ptable) (w : option J) (row : Row) (j : mutJournal)
  : outcome (ptable * option J * option error) :=
  pkv ← index row (pkOrd def);
  partv ← index row partOrd;
  let pk := v_UUID pkv in
  let part := v_UUID partv in
  let i := pt_idx t part in
  s ← index (pt_shards t) i;
  match pt_dir t !! pk with
  | Some _ => Ok (t, w, Some ErrDuplicatePK)
  | None =>
      let cost := rowCost row (nIndexes def) in
      let '(total, ok) := budget_reserve max (pt_total t) cost in
      let t := pt_set_total t total in
      if negb ok then Ok (t, w, Some ErrCapacity)
      else
        let '(w, jerr) := mj_insert j w row in
        match jerr with
        | Some e => Ok (pt_set_total t (budget_release max (pt_total t) cost), w, Some e)
        | None =>
            let '(s, rowID) := p_addRow s row cost in
            let s := p_tail_add s part rowID in
            Ok (pt_set_dir (pt_put t i s) (<[pk := MkLoc i rowID]> (pt_dir t)), w, None)
        end
  end.

(** ** Scans *)
(** [fn] threads a state and answers false to stop. *)
Fixpoint tail_loop {A} (rows : list (option Row)) (ids : list nat) (fn : A -> Row -> A * bool) (a : A) : A :=
  match ids with
  | [] => a
  | id :: ids =>
      match rows !! id with
      | Some (Some r) => let '(a, go) := fn a r in if negb go then a else tail_loop rows ids fn a
      | _ => tail_loop rows ids fn a
      end
  end.
Definition scanPartition {A} (t : ptable) (part : UUID) (fn : A -> Row -> A * bool) (a : A) : outcome A :=
  s ← index (pt_shards t) (pt_idx t part);
  Ok (tail_loop (p_rows s) (default [] (p_tails s !! part)) fn a).
Definition scanPartitionRev {A} (t : ptable) (part : UUID) (fn : A -> Row -> A * bool) (a : A) : outcome A :=
  s ← index (pt_shards t) (pt_idx t part);
  Ok (tail_loop (p_rows s) (rev (default [] (p_tails s !! part))) fn a).
Fixpoint p_scan_shards {A} (shards : list pshard) (fn : A -> Row -> A * bool) (a : A) : A :=
  match shards with
  | [] => a
  | s :: shards => let '(a, go) := scan_rows (p_rows s) fn a in if negb go then a else p_scan_shards shards fn a
  end.
Definition p_scanAll {A} (t : ptable) (fn : A -> Row -> A * bool) (a : A) : A := p_scan_shards (pt_shards t) fn a.

(** ** Point reads *)
(** The [n]-th attempt reads the directory in the first state of [seen n] and the
    shard in the second; a stale place makes the next attempt. *)
Fixpoint resolve {A} (fuel n : nat) (seen : nat -> ptable * ptable) (pk : UUID) (read : Row -> outcome A) : outcome (option A) :=
  match fuel with
  | O => Ok None
  | S fuel =>
      match pt_dir (fst (seen n)) !! pk with
      | None => Ok None
      | Some loc =>
          s ← index (pt_shards (snd (seen n))) (loc_shard loc);
          match p_rows s !! loc_rowID loc with
          | Some (Some r) =>
              pkv ← index r (pkOrd def);
              if bool_decide (v_UUID pkv = pk) then a ← read r; Ok (Some a)
              else resolve fuel (S n) seen pk read
          | _ => resolve fuel (S n) seen pk read
          end
      end
  end.
Definition getByPKPartitioned (seen : nat -> ptable * ptable) (pk : UUID) : outcome (option Row) :=
  resolve pkRetryBudget 0 seen pk (fun r => Ok (Row_Clone r)).
Definition getByPKProjectPartitioned (seen : nat -> ptable * ptable) (pk : UUID) (ords : list nat) : outcome (option Row) :=
  resolve pkRetryBudget 0 seen pk (fun r => projectClone r ords).
Definition or_missing {A} (o : outcome (option A)) (a : A) : outcome (A * bool) :=
  x ← o; Ok (match x with Some x => (x, true) | None => (a, false) end).
Definition getByPKProjectIntoPartitioned (seen : nat -> ptable * ptable) (pk : UUID) (ords : option (list nat)) (dst : list Value)
  : outcome (list Value * bool) :=
  or_missing (resolve pkRetryBudget 0 seen pk (fun r =>
    match ords with None => Ok (appendRowClone (take 0 dst) r) | Some ords => appendProjectClone (take 0 dst) r ords end)) (take 0 dst).
Definition getByPKJSONIntoPartitioned (seen : nat -> ptable * ptable) (pk : UUID) (cols : list bytes) (ords : option (list nat)) (dst : bytes)
  : outcome (bytes * bool) :=
  or_missing (resolve pkRetryBudget 0 seen pk (fun r =>
    match ords with None => Ok (appendRowJSONObject dst cols r) | Some ords => appendRowJSONObjectProject dst cols r ords end)) dst.

(** ** Updates *)
(** The row a directory entry points to, if it still is the key's. *)
Definition placed (t : ptable) (pk : UUID) : outcome (option (nat * nat * pshard * Row)) :=
  match pt_dir t !! pk with
  | None => Ok None
  | Some loc =>
      s ← index (pt_shards t) (loc_shard loc);
      match p_rows s !! loc_rowID loc with
      | Some (Some r) =>
          pkv ← index r (pkOrd def);
          Ok (if bool_decide (v_UUID pkv = pk) then Some (loc_shard loc, loc_rowID loc, s, r) else None)
      | _ => Ok None
      end
  end.
Definition p_addBytes (t : ptable) (i : nat) (s : pshard) (delta : Z) : ptable :=
  pt_put (pt_set_total t (budget_adjust max (pt_total t) delta)) i
    (MkPShard (p_rows s) (p_tails s) (p_dead s) (p_live s) (p_bytes s + delta)).
Definition updateByPKJournaledPartitioned (t : ptable) (w : option J) (pk : UUID) (ords : list nat)
    (compute : Row -> outcome (list Value)) (j : mutJournal) : outcome (ptable * option J * (bool * option error)) :=
  p ← placed t pk;
  match p with
  | None => Ok (t, w, (false, None))
  | Some (i, n, s, r) =>
      match compute r with
      | Err e => Ok (t, w, (false, Some e))
      | Panic => Panic
      | Ok vals =>
          match w with
          | None =>
              rd ← set_cells_delta r ords vals 0;
              Ok (p_addBytes t i (p_set_row s n (Some (fst rd))) (snd rd), w, (true, None))
          | Some _ =>
              old ← get_cells r ords;
              nr ← set_cells r ords vals;
              je ← mj_update j w nr;
              let '(w, jerr) := je in
              match jerr with
              | Some e => r ← set_cells nr ords old; Ok (pt_put t i (p_set_row s n (Some r)), w, (false, Some e))
              | None => Ok (p_addBytes t i (p_set_row s n (Some nr)) (sum_deltas old (take (length ords) vals)), w, (true, None))
              end
          end
      end
  end.
(** The one-column twin, which builds no slices. *)
Definition updateByPKOneJournaledPartitioned (t : ptable) (w : option J) (pk : UUID) (ord : nat)
    (compute : Row -> outcome Value) (j : mutJournal) : outcome (ptable * option J * (bool * option error)) :=
  updateByPKJournaledPartitioned t w pk [ord] (fun r => v ← compute r; Ok [v]) j.
(** The replay path: [mutate] edits the arena row in place and returns a row or
    nil; a dead place hands it nil. *)
Definition updatePartitioned (t : ptable) (pk : UUID) (mutate : Row -> Row * option Row) : outcome (ptable * bool) :=
  match pt_dir t !! pk with
  | None => Ok (t, false)
  | Some loc =>
      s ← index (pt_shards t) (loc_shard loc);
      match p_rows s !! loc_rowID loc with
      | None => Ok (t, false)
      | Some cell =>
          let r := default [] cell in
          let before := rowCost r (nIndexes def) in
          let '(r', res) := mutate r in
          let bad := pt_put t (loc_shard loc) (p_set_row s (loc_rowID loc) (match cell with Some _ => Some r' | None => None end)) in
          match res with
          | None => Ok (bad, false)
          | Some nr =>
              pkv ← index nr (pkOrd def);
              if bool_decide (v_UUID pkv <> pk) then Ok (bad, false)
              else Ok (p_addBytes t (loc_shard loc) (p_set_row s (loc_rowID loc) (Some nr)) (rowCost nr (nIndexes def) - before), true)
          end
      end
  end.

(** ** Deletes *)
Definition p_tombstone (t : ptable) (s : pshard) (n : nat) : outcome (ptable * pshard) :=
  r ← index (p_rows s) n;
  let cost := rowCost (default [] r) (nIndexes def) in
  Ok (pt_set_total t (budget_release max (pt_total t) cost),
      MkPShard (<[n := None]> (p_rows s)) (p_tails s) (p_dead s) (p_live s - 1) (p_bytes s - cost)).
Definition is_live (rows : list (option Row)) (id : nat) : bool := match rows !! id with Some (Some _) => true | _ => false end.
(** One more dead row id in the list of [part]; at half of a long list the dead
    ones are dropped. *)
Definition tailsTombstone (s : pshard) (part : UUID) : pshard :=
  let dead := default 0 (p_dead s !! part) + 1 in
  let ids := default [] (p_tails s !! part) in
  if (dead * 2 <? zlen ids) || (zlen ids <? minTailPrune) then
    MkPShard (p_rows s) (p_tails s) (<[part := dead]> (p_dead s)) (p_live s) (p_bytes s)
  else
    match List.filter (is_live (p_rows s)) ids with
    | [] => MkPShard (p_rows s) (delete part (p_tails s)) (delete part (p_dead s)) (p_live s) (p_bytes s)
    | live => MkPShard (p_rows s) (<[part := live]> (p_tails s)) (<[part := 0]> (p_dead s)) (p_live s) (p_bytes s)
    end.
Definition deleteByPKJournaledPartitioned (t : ptable) (w : option J) (pk : UUID) (j : mutJournal)
  : outcome (ptable * option J * (bool * option error)) :=
  match pt_dir t !! pk with
  | None => Ok (t, w, (false, None))
  | Some loc =>
      s ← index (pt_shards t) (loc_shard loc);
      let '(w, jerr) := mj_delete j w in
      match jerr with
      | Some e => Ok (t, w, (false, Some e))
      | None =>
          let gone := fun t => pt_set_dir t (delete pk (pt_dir t)) in
          match p_rows s !! loc_rowID loc with
          | None => Ok (gone t, w, (true, None))
          | Some cell =>
              r ← lift cell;
              partv ← index r partOrd;
              ts ← p_tombstone t s (loc_rowID loc);
              let '(t, s) := ts in
              Ok (gone (pt_put t (loc_shard loc) (tailsTombstone s (v_UUID partv))), w, (true, None))
          end
      end
  end.
(** Nothing is journaled on the replay path. *)
Definition deleteByPKPartitioned (t : ptable) (pk : UUID) : outcome (ptable * bool) :=
  x ← deleteByPKJournaledPartitioned t None pk (MkMJ 0 [] 0 Null); Ok (fst (fst x), fst (snd x)).

(** Pass 1 of deleteWhereAllPartitioned: shard, row id, key, partition. *)
Definition p_cells_of (i : nat) (s : pshard) : list (nat * nat * Row) :=
  omap (fun jr => match snd jr with Some r => Some (i, fst jr, r) | None => None end) (imap pair (p_rows s)).
Definition p_cells (t : ptable) : list (nat * nat * Row) := concat (imap p_cells_of (pt_shards t)).
Fixpoint p_pend (cells : list (nat * nat * Row)) (match_ : Row -> bool) : outcome (list (nat * nat * UUID * UUID) * list Value) :=
  match cells with
  | [] => Ok ([], [])
  | (i, n, r) :: cells =>
      if negb (match_ r) then p_pend cells match_
      else
        pkv ← index r (pkOrd def);
        partv ← index r partOrd;
        p ← p_pend cells match_;
        Ok ((i, n, v_UUID pkv, v_UUID partv) :: fst p, pkv :: snd p)
  end.
Definition p_apply_delete (t : ptable) (p : nat * nat * UUID * UUID) : outcome ptable :=
  let '(i, n, pk, part) := p in
  s ← index (pt_shards t) i;
  ts ← p_tombstone t s n;
  let '(t, s) := ts in
  let t := pt_put t i (tailsTombstone s part) in
  Ok (pt_set_dir t (delete pk (pt_dir t))).
Fixpoint p_apply_deletes (t : ptable) (ps : list (nat * nat * UUID * UUID)) : outcome ptable :=
  match ps with
  | [] => Ok t
  | p :: ps => t ← p_apply_delete t p; p_apply_deletes t ps
  end.
Definition deleteWhereAllPartitioned (t : ptable) (w : option J) (match_ : Row -> bool) (encode : Value -> bytes)
  : outcome (ptable * option J * (Z * option error)) :=
  p ← p_pend (p_cells t) match_;
  let '(w, jerr) := journal_bodies w (map encode (snd p)) in
  match jerr with
  | Some e => Ok (t, w, (0, Some e))
  | None => t ← p_apply_deletes t (fst p); Ok (t, w, (zlen (fst p), None))
  end.

(** ** Compaction *)
(** The loop of compactShardLocked: the rows kept so far, the lists, the directory. *)
Fixpoint p_compact (i : nat) (rows : list (option Row)) (newRows : list (option Row)) (tails : gmap UUID (list nat))
    (dir : gmap UUID rowLocation) : outcome (list (option Row) * gmap UUID (list nat) * gmap UUID rowLocation) :=
  match rows with
  | [] => Ok (newRows, tails, dir)
  | None :: rows => p_compact i rows newRows tails dir
  | Some r :: rows =>
      partv ← index r partOrd;
      pkv ← index r (pkOrd def);
      let id := length newRows in
      let part := v_UUID partv in
      p_compact i rows (newRows ++ [Some r]) (<[part := default [] (tails !! part) ++ [id]]> tails)
        (<[v_UUID pkv := MkLoc i id]> dir)
  end.
Definition p_compactShard (t : ptable) (i : nat) : outcome ptable :=
  s ← index (pt_shards t) i;
  x ← p_compact i (p_rows s) [] ∅ (pt_dir t);
  let '(rows, tails, dir) := x in
  Ok (pt_set_dir (pt_put t i (MkPShard rows tails ∅ (p_live s) (p_bytes s))) dir).
Definition p_dense (s : pshard) : bool :=
  (zlen (p_rows s) - p_live s >? p_live s) && (zlen (p_rows s) >=? compactMinSlots).
Definition p_compactIfDense (t : ptable) (i : nat) : outcome ptable :=
  s ← index (pt_shards t) i;
  if negb (p_dense s) then Ok t else p_compactShard t i.
End partition.
