(* ===== verification/PartitionOk.v ===== *)
(** * PartitionOk: a partitioned table is the list of its rows in the order they
    were inserted - whatever was deleted, pruned or compacted in between. *)
From S2P Require Import Prelude Bytes Uuid Value PkMap Codec Frame Journal Schema Store StoreOk Wire Partition.

(** ** Arenas *)
Definition live (rows : list (option Row)) : list Row := omap id rows.
Lemma live_app a b : live (a ++ b) = live a ++ live b.
Proof. apply omap_app. Qed.
Lemma split_at {A} (l : list A) n x : l !! n = Some x -> l = take n l ++ x :: drop (S n) l.
Proof. intros H. symmetry. by apply take_drop_middle. Qed.
Lemma live_split rows n r : rows !! n = Some (Some r) -> live rows = live (take n rows) ++ r :: live (drop (S n) rows).
Proof. intros H. rewrite (split_at rows n _ H) at 1. by rewrite live_app. Qed.
Lemma live_set rows n c : (n < length rows)%nat ->
  live (<[n := c]> rows) = live (take n rows) ++ (match c with Some r => [r] | None => [] end) ++ live (drop (S n) rows).
Proof. intros H. rewrite insert_take_drop by done. rewrite live_app. by destruct c. Qed.
Lemma live_elem rows r : r ∈ live rows <-> exists n, rows !! n = Some (Some r).
Proof.
  unfold live. rewrite list_elem_of_omap. split.
  - intros (c & Hc & E). cbn in E. subst c. by apply list_elem_of_lookup_1 in Hc.
  - intros [n Hn]. exists (Some r). split; [by eapply list_elem_of_lookup_2|done].
Qed.

(** The row ids of one partition. *)
Section tails.
Context (partof : Row -> UUID).
Definition in_part (rows : list (option Row)) (part : UUID) (n : nat) : bool :=
  match rows !! n with Some (Some r) => bool_decide (partof r = part) | _ => false end.
Definition row_at (rows : list (option Row)) (n : nat) : option Row := match rows !! n with Some (Some r) => Some r | _ => None end.
Definition part_ids (rows : list (option Row)) (part : UUID) : list nat := List.filter (in_part rows part) (seq 0 (length rows)).

Lemma omap_live rows ids : omap (row_at rows) (List.filter (is_live rows) ids) = omap (row_at rows) ids.
Proof.
  induction ids as [|id ids IH]; [done|]. cbn [List.filter omap list_omap]. unfold is_live at 1, row_at at 2.
  destruct (rows !! id) as [[r|]|] eqn:E; [|done..]. cbn [omap list_omap]. unfold row_at at 1. rewrite E. by rewrite IH.
Qed.
Lemma omap_live_length rows ids : length (omap (row_at rows) (List.filter (is_live rows) ids)) = length (List.filter (is_live rows) ids).
Proof.
  induction ids as [|id ids IH]; [done|]. cbn [List.filter]. destruct (is_live rows id) eqn:El; [|exact IH]. unfold is_live in El.
  cbn [omap list_omap length]. unfold row_at at 1. destruct (rows !! id) as [[r|]|]; [|done..]. cbn [length]. by rewrite IH.
Qed.
Lemma omap_seq rows0 rows part : forall k, drop k rows0 = rows -> 
  omap (row_at rows0) (List.filter (in_part rows0 part) (seq k (length rows))) = List.filter (fun r => bool_decide (partof r = part)) (live rows).
Proof.
  induction rows as [|c rows IH]; intros k Hk; [done|]. cbn [length seq List.filter].
  assert (Ec : rows0 !! k = Some c) by (rewrite <- (Nat.add_0_r k), <- lookup_drop, Hk; done).
  assert (Ek : drop (S k) rows0 = rows) by (rewrite <- Nat.add_1_r, <- drop_drop, Hk; done).
  unfold in_part at 1. rewrite Ec. destruct c as [r|]; cbn [live omap list_omap id]; [|by apply IH].
  cbn [List.filter]. destruct (bool_decide (partof r = part)); [|by apply IH]. cbn [omap list_omap]. unfold row_at at 1. rewrite Ec. f_equal. by apply IH.
Qed.
Lemma omap_part rows part : omap (row_at rows) (part_ids rows part) = List.filter (fun r => bool_decide (partof r = part)) (live rows).
Proof. by apply omap_seq. Qed.

(** A partition's list: every live row of it in arena order, its dead count, and
    few dead ids - at most 15 of them, or fewer than the live ones. *)
Record tail_ok (rows : list (option Row)) (ids : list nat) (dead : Z) (part : UUID) : Prop := {
  tl_in : Forall (fun id => (id < length rows)%nat) ids;
  tl_live : List.filter (is_live rows) ids = part_ids rows part;
  tl_dead : dead = zlen ids - zlen (part_ids rows part);
  tl_bound : dead <= 15 \/ 2 * dead < zlen ids;
}.
Lemma filter_ext_in' {A} (f g : A -> bool) l : (forall x, x ∈ l -> f x = g x) -> List.filter f l = List.filter g l.
Proof. intros H. apply filter_ext_in. intros x Hx. apply H. by apply list_elem_of_In. Qed.
Lemma filter_true_all {A} (l : list A) : List.filter (fun _ => true) l = l.
Proof. induction l as [|x l IH]; [done|]. cbn. by rewrite IH. Qed.
Lemma part_ids_app rows r part : part_ids (rows ++ [Some r]) part = part_ids rows part ++ (if bool_decide (partof r = part) then [length rows] else []).
Proof.
  unfold part_ids. rewrite length_app, seq_app, List.filter_app. cbn [length seq List.filter Nat.add]. f_equal.
  - apply filter_ext_in'. intros n Hn%elem_of_seq. unfold in_part. by rewrite lookup_app_l by lia.
  - unfold in_part. rewrite lookup_app_r, Nat.sub_diag by lia. cbn. by destruct (bool_decide _).
Qed.
Lemma live_ids_app rows c ids : Forall (fun id => (id < length rows)%nat) ids -> List.filter (is_live (rows ++ [c])) ids = List.filter (is_live rows) ids.
Proof.
  intros H. apply filter_ext_in'. intros n Hn. rewrite list.Forall_forall in H. specialize (H n Hn). unfold is_live. by rewrite lookup_app_l by lia.
Qed.
Lemma tail_add rows ids dead part r : tail_ok rows ids dead part ->
  tail_ok (rows ++ [Some r]) (ids ++ (if bool_decide (partof r = part) then [length rows] else [])) dead part.
Proof.
  intros [H1 H2 H3 H4]. assert (H1' : Forall (fun id => (id < length (rows ++ [Some r]))%nat) ids).
  { eapply list.Forall_impl; [exact H1|]. intros id Hid. cbn in *. rewrite length_app. cbn. lia. }
  assert (E : List.filter (is_live (rows ++ [Some r])) [length rows] = [length rows]).
  { cbn [List.filter]. unfold is_live. by rewrite lookup_app_r, Nat.sub_diag by lia. }
  split.
  - apply Forall_app_2; [done|]. destruct (bool_decide _); [|constructor]. apply list.Forall_singleton. rewrite length_app. cbn. lia.
  - rewrite List.filter_app, live_ids_app, part_ids_app, H2 by done. f_equal. by destruct (bool_decide _).
  - rewrite part_ids_app. unfold zlen in *. rewrite !length_app. lia.
  - unfold zlen in *. rewrite length_app. lia.
Qed.
Lemma tail_set rows ids dead part n r nr : rows !! n = Some (Some r) -> partof nr = partof r -> tail_ok rows ids dead part -> tail_ok (<[n := Some nr]> rows) ids dead part.
Proof.
  intros Hn Hp [H1 H2 H3 H4]. pose proof (lookup_lt_Some _ _ _ Hn) as Hlt.
  assert (El : forall id, is_live (<[n := Some nr]> rows) id = is_live rows id).
  { intros id. unfold is_live. destruct (decide (id = n)) as [->|]; [by rewrite list_lookup_insert_eq, Hn|by rewrite list_lookup_insert_ne]. }
  assert (Ep : part_ids (<[n := Some nr]> rows) part = part_ids rows part).
  { unfold part_ids. rewrite length_insert. apply filter_ext_in'. intros id _. unfold in_part.
    destruct (decide (id = n)) as [->|]; [by rewrite list_lookup_insert_eq, Hn, Hp|by rewrite list_lookup_insert_ne]. }
  split; rewrite ?Ep, ?length_insert; try done. rewrite <- H2. apply filter_ext_in'. intros id _. apply El.
Qed.

(** Tombstoning place [n]. *)
Lemma is_live_dead rows n id : is_live (<[n := None]> rows) id = is_live rows id && negb (id =? n)%nat.
Proof.
  unfold is_live. destruct (Nat.eqb_spec id n) as [->|Hne]; [|by rewrite list_lookup_insert_ne, andb_true_r].
  destruct (decide (n < length rows)%nat); [rewrite list_lookup_insert_eq by done; by rewrite andb_false_r|].
  rewrite list_insert_ge by lia. rewrite lookup_ge_None_2 by lia. done.
Qed.
Lemma in_part_dead rows part n id : in_part (<[n := None]> rows) part id = in_part rows part id && negb (id =? n)%nat.
Proof.
  unfold in_part. destruct (Nat.eqb_spec id n) as [->|Hne]; [|by rewrite list_lookup_insert_ne, andb_true_r].
  destruct (decide (n < length rows)%nat); [rewrite list_lookup_insert_eq by done; by rewrite andb_false_r|].
  rewrite list_insert_ge by lia. rewrite lookup_ge_None_2 by lia. done.
Qed.
Lemma filter_and {A} (f g : A -> bool) l : List.filter (fun x => f x && g x) l = List.filter g (List.filter f l).
Proof. induction l as [|x l IH]; [done|]. cbn. destruct (f x); cbn; [destruct (g x); by rewrite IH|done]. Qed.
Lemma part_ids_dead rows part n : part_ids (<[n := None]> rows) part = List.filter (fun id => negb (id =? n)%nat) (part_ids rows part).
Proof.
  unfold part_ids. rewrite length_insert, <- filter_and. apply filter_ext_in'. intros id _. apply in_part_dead.
Qed.
Lemma filter_one (l : list nat) n : NoDup l -> zlen (List.filter (fun id => negb (id =? n)%nat) l) = zlen l - (if bool_decide (n ∈ l) then 1 else 0).
Proof.
  unfold zlen. induction 1 as [|x l Hx Hl IH]; [done|]. cbn [List.filter]. destruct (Nat.eqb_spec x n) as [->|Hne]; cbn [negb length].
  - rewrite IH, (bool_decide_false (n ∈ l)), (bool_decide_true (n ∈ n :: l)) by (done || by left). cbn [length]. lia.
  - cbn [length]. rewrite Nat2Z.inj_succ, IH. destruct (bool_decide_reflect (n ∈ l)) as [Hi|Hi].
    + rewrite bool_decide_true by (by right). lia.
    + rewrite bool_decide_false; [lia|]. by intros [->|?]%elem_of_cons.
Qed.
Lemma part_ids_nodup rows part : NoDup (part_ids rows part).
Proof. unfold part_ids. apply NoDup_ListNoDup, List.NoDup_filter, NoDup_ListNoDup, NoDup_seq. Qed.
Lemma part_ids_elem rows part n : n ∈ part_ids rows part <-> exists r, rows !! n = Some (Some r) /\ partof r = part.
Proof.
  unfold part_ids. rewrite list_elem_of_In, filter_In, <- list_elem_of_In, elem_of_seq. unfold in_part. split.
  - intros [_ H]. destruct (rows !! n) as [[r|]|]; [|done..]. exists r. split; [done|]. by apply bool_decide_eq_true in H.
  - intros (r & E & Hp). pose proof (lookup_lt_Some _ _ _ E). split; [lia|]. rewrite E. by apply bool_decide_eq_true.
Qed.
Lemma tail_other rows ids dead part n r : rows !! n = Some (Some r) -> partof r <> part -> tail_ok rows ids dead part -> tail_ok (<[n := None]> rows) ids dead part.
Proof.
  intros Hn Hp [H1 H2 H3 H4]. assert (E : part_ids (<[n := None]> rows) part = part_ids rows part).
  { rewrite part_ids_dead. rewrite <- (filter_true_all (part_ids rows part)) at 2. apply filter_ext_in'. intros id Hid%part_ids_elem.
    destruct Hid as (r' & E & Hr'). destruct (Nat.eqb_spec id n) as [->|]; [congruence|done]. }
  split; rewrite ?E, ?length_insert; try done. rewrite <- H2, (filter_ext_in' _ (fun id => is_live rows id && negb (id =? n)%nat)) by (intros; apply is_live_dead).
  rewrite filter_and, H2. by rewrite <- part_ids_dead, E.
Qed.
Definition tails_ok (rows : list (option Row)) (tails : gmap UUID (list nat)) (dead : gmap UUID Z) : Prop :=
  forall part, tail_ok rows (default [] (tails !! part)) (default 0 (dead !! part)) part.
Lemma filter_filter {A} (f : A -> bool) l : List.filter f (List.filter f l) = List.filter f l.
Proof. rewrite <- filter_and. apply filter_ext_in'. intros x _. by destruct (f x). Qed.
Lemma tailsTombstone_keeps s part : p_rows (tailsTombstone s part) = p_rows s /\ p_live (tailsTombstone s part) = p_live s /\ p_bytes (tailsTombstone s part) = p_bytes s.
Proof. unfold tailsTombstone. destruct ((_ <? _) || _); [done|]. by destruct (List.filter _ _). Qed.
Lemma tails_dead s n r lv by_ : tails_ok (p_rows s) (p_tails s) (p_dead s) -> p_rows s !! n = Some (Some r) ->
  let s' := tailsTombstone (MkPShard (<[n := None]> (p_rows s)) (p_tails s) (p_dead s) lv by_) (partof r) in
  tails_ok (p_rows s') (p_tails s') (p_dead s').
Proof.
  intros Ht Hn. cbv zeta. pose proof (Ht (partof r)) as [H1 H2 H3 H4]. set (part := partof r) in *. set (rows' := <[n := None]> (p_rows s)).
  set (ids := default [] (p_tails s !! part)) in *. set (d := default 0 (p_dead s !! part)) in *.
  assert (Hother : forall p, p <> part -> tail_ok rows' (default [] (p_tails s !! p)) (default 0 (p_dead s !! p)) p).
  { intros p Hp. by apply (tail_other _ _ _ _ _ r). }
  assert (H1' : Forall (fun id => (id < length rows')%nat) ids) by (unfold rows'; by rewrite length_insert).
  assert (H2' : List.filter (is_live rows') ids = part_ids rows' part).
  { rewrite (filter_ext_in' _ (fun id => is_live (p_rows s) id && negb (id =? n)%nat)) by (intros; apply is_live_dead). by rewrite filter_and, H2, <- part_ids_dead. }
  assert (H3' : d + 1 = zlen ids - zlen (part_ids rows' part)).
  { unfold rows'. rewrite part_ids_dead, filter_one by apply part_ids_nodup. rewrite bool_decide_true by (apply part_ids_elem; by exists r). lia. }
  unfold tailsTombstone. cbn [p_rows p_tails p_dead]. fold part ids d rows'. destruct ((_ <? _) || _) eqn:Eb.
  - cbn [p_rows p_tails p_dead]. intros p. destruct (decide (p = part)) as [->|Hp]; [|rewrite lookup_insert_ne by done; by apply Hother].
    rewrite lookup_insert_eq. cbn. split; [done..|]. fold ids. unfold minTailPrune in Eb. unfold zlen in *. lia.
  - rewrite H2'. assert (Hd : tail_ok rows' (part_ids rows' part) 0 part).
    { split; [|by rewrite <- H2', filter_filter|lia|by left]. rewrite <- H2'. rewrite list.Forall_forall in H1' |- *. intros id Hid.
      apply H1'. apply list_elem_of_In in Hid. apply filter_In in Hid as [Hid _]. by apply list_elem_of_In. }
    destruct (part_ids rows' part) as [|id l] eqn:El; cbn [p_rows p_tails p_dead]; intros p; (destruct (decide (p = part)) as [->|Hp];
      [rewrite ?lookup_delete_eq, ?lookup_insert_eq; exact Hd|rewrite ?lookup_delete_ne, ?lookup_insert_ne by done; by apply Hother]).
Qed.
Lemma tails_add rows tails dead r : tails_ok rows tails dead ->
  tails_ok (rows ++ [Some r]) (<[partof r := default [] (tails !! partof r) ++ [length rows]]> tails) dead.
Proof.
  intros H p. specialize (H p). apply (tail_add _ _ _ _ r) in H. destruct (decide (partof r = p)) as [<-|Hp].
  - rewrite lookup_insert_eq. by rewrite bool_decide_true in H by done.
  - rewrite lookup_insert_ne by done. by rewrite bool_decide_false, app_nil_r in H by done.
Qed.
Lemma tails_set rows tails dead n r nr : tails_ok rows tails dead -> rows !! n = Some (Some r) -> partof nr = partof r -> tails_ok (<[n := Some nr]> rows) tails dead.
Proof. intros H Hn Hp p. by eapply tail_set. Qed.
Lemma tails_empty : tails_ok [] ∅ ∅.
Proof. intros p. rewrite !lookup_empty. split; [constructor|done|done|by left]. Qed.
End tails.

#[local] Arguments live : simpl never.
Section table.
Context {J : Type} `{Journal J} (def : resolvedTable) (max ext : Z).
Local Abbreviation ncols := (length (t_Columns (rt_def def))).
Local Abbreviation pkof := (pkof def).
Local Abbreviation row_wf := (row_wf def).
Local Abbreviation cost_of := (cost_of def).
Hypothesis pk_in : (pkOrd def < ncols)%nat.
Hypothesis part_in : (partOrd def < ncols)%nat.

Definition partof (r : Row) : UUID := v_UUID (default Null (r !! partOrd def)).
Definition list_cost (L : list Row) : Z := foldr (fun r z => cost_of r + z) 0 L.
Definition homed (t : ptable) (i : nat) (r : Row) : bool := (pt_idx t (partof r) =? i)%nat.
Definition tails_fit (s : pshard) : Prop := tails_ok partof (p_rows s) (p_tails s) (p_dead s).

(** The table holds the rows [L], in insertion order. *)
Record part_ok (t : ptable) (L : list Row) : Prop := {
  po_count : exists p, length (pt_shards t) = (2 ^ p)%nat /\ (p <= 32)%nat;
  po_keys : NoDup (map pkof L);
  po_wf : Forall row_wf L;
  po_rows i s : pt_shards t !! i = Some s -> live (p_rows s) = List.filter (homed t i) L;
  po_dir pk loc : pt_dir t !! pk = Some loc <-> exists s r, pt_shards t !! loc_shard loc = Some s /\ p_rows s !! loc_rowID loc = Some (Some r) /\ pkof r = pk;
  po_tails i s : pt_shards t !! i = Some s -> tails_fit s;
  po_live i s : pt_shards t !! i = Some s -> p_live s = zlen (live (p_rows s));
  po_bytes i s : pt_shards t !! i = Some s -> p_bytes s = list_cost (live (p_rows s));
  po_total : max <> 0 -> pt_total t = ext + list_cost L;
}.

Lemma index_at {A} (l : list A) i x : l !! i = Some x -> index l i = Ok x.
Proof. intros E. unfold index. by rewrite E. Qed.
Lemma index_col row o : row_wf row -> (o < ncols)%nat -> exists v, index row o = Ok v /\ v = default Null (row !! o).
Proof. intros [Hl _] Ho. destruct (lookup_lt_is_Some_2 row o) as [v E]; [by rewrite Hl|]. exists v. by rewrite (index_at _ _ _ E), E. Qed.
Lemma home_shard t L u : part_ok t L -> exists s, pt_shards t !! pt_idx t u = Some s.
Proof.
  intros Ht. destruct (po_count _ _ Ht) as (p & Hl & Hp). apply lookup_lt_is_Some_2. unfold pt_idx, zlen. rewrite Hl. by apply shardIdxOf_lt.
Qed.
Lemma list_cost_cons r L : list_cost (r :: L) = cost_of r + list_cost L.
Proof. done. Qed.
Lemma list_cost_app a b : list_cost (a ++ b) = list_cost a + list_cost b.
Proof. induction a as [|r a IH]; cbn; [done|]. unfold list_cost in *. cbn. lia. Qed.

(** Where a row is. *)
Lemma held_row t L i s n r : part_ok t L -> pt_shards t !! i = Some s -> p_rows s !! n = Some (Some r) -> r ∈ L /\ pt_idx t (partof r) = i.
Proof.
  intros Ht Hs Hn. assert (Hin : r ∈ live (p_rows s)) by (apply live_elem; eauto). rewrite (po_rows _ _ Ht i s Hs) in Hin.
  apply list_elem_of_In, filter_In in Hin as [Hin Hh]. split; [by apply list_elem_of_In|]. by apply Nat.eqb_eq in Hh.
Qed.
Lemma row_place t L r : part_ok t L -> r ∈ L -> exists s n, pt_shards t !! pt_idx t (partof r) = Some s /\ p_rows s !! n = Some (Some r).
Proof.
  intros Ht Hr. destruct (home_shard t L (partof r) Ht) as [s Hs]. exists s. assert (Hin : r ∈ live (p_rows s)).
  { rewrite (po_rows _ _ Ht _ s Hs). apply list_elem_of_In, filter_In. split; [by apply list_elem_of_In|]. by apply Nat.eqb_eq. }
  apply live_elem in Hin as [n Hn]. by exists n.
Qed.
Lemma keys_unique L r r' : NoDup (map pkof L) -> r ∈ L -> r' ∈ L -> pkof r = pkof r' -> r = r'.
Proof.
  induction L as [|x L IH]; [by intros _ ?%elem_of_nil|]. cbn [map]. intros [Hx Hnd]%list.NoDup_cons Hr Hr' E.
  apply elem_of_cons in Hr as [->|Hr], Hr' as [->|Hr']; [done| | |by apply IH].
  - destruct Hx. rewrite E. apply list_elem_of_In, in_map. by apply list_elem_of_In.
  - destruct Hx. rewrite <- E. apply list_elem_of_In, in_map. by apply list_elem_of_In.
Qed.
Definition find_row (pk : UUID) (L : list Row) : option Row := List.find (fun r => bool_decide (pkof r = pk)) L.
Lemma find_row_Some pk L r : find_row pk L = Some r -> r ∈ L /\ pkof r = pk.
Proof. intros [H1 H2]%find_some. split; [by apply list_elem_of_In|]. by apply bool_decide_eq_true in H2. Qed.
Lemma find_row_None pk L : find_row pk L = None <-> pk ∉ map pkof L.
Proof.
  split.
  - intros Hf (r & <- & Hr)%list_elem_of_In%in_map_iff. pose proof (find_none _ _ Hf r Hr) as Hb. by apply bool_decide_eq_false in Hb.
  - intros Hn. destruct (find_row pk L) as [r|] eqn:E; [|done]. apply find_row_Some in E as [Hr <-]. destruct Hn. apply list_elem_of_In, in_map. by apply list_elem_of_In.
Qed.
Lemma dir_row t L pk : part_ok t L -> match find_row pk L with
  | None => pt_dir t !! pk = None
  | Some r => exists loc s, pt_dir t !! pk = Some loc /\ pt_shards t !! loc_shard loc = Some s /\ p_rows s !! loc_rowID loc = Some (Some r) /\
      loc_shard loc = pt_idx t (partof r)
  end.
Proof.
  intros Ht. destruct (find_row pk L) as [r|] eqn:E.
  - apply find_row_Some in E as [Hr Hk]. destruct (row_place t L r Ht Hr) as (s & n & Hs & Hn). exists (MkLoc (pt_idx t (partof r)) n), s.
    split_and!; [|done..]. apply (po_dir _ _ Ht). by exists s, r.
  - apply find_row_None in E. destruct (pt_dir t !! pk) as [loc|] eqn:Ed; [|done]. apply (po_dir _ _ Ht) in Ed as (s & r & Hs & Hn & Hk).
    destruct (held_row t L _ s _ r Ht Hs Hn) as [Hr _]. destruct E. rewrite <- Hk. apply list_elem_of_In, in_map. by apply list_elem_of_In.
Qed.

(** ** Reads *)
(** [fn] over the rows, until it stops. *)
Fixpoint visits {A} (fn : A -> Row -> A * bool) (L : list Row) (a : A) : A :=
  match L with [] => a | r :: L => let '(a, go) := fn a r in if negb go then a else visits fn L a end.
Lemma tail_loop_visits {A} rows ids (fn : A -> Row -> A * bool) : forall a, tail_loop rows ids fn a = visits fn (omap (row_at rows) ids) a.
Proof.
  induction ids as [|id ids IH]; intros a; [done|]. cbn [tail_loop omap list_omap]. unfold row_at at 1. destruct (rows !! id) as [[r|]|]; [|apply IH..].
  cbn [visits]. destruct (fn a r) as [b []]; cbn [negb]; [apply IH|done].
Qed.
Lemma omap_rev {A B} (f : A -> option B) l : omap f (rev l) = rev (omap f l).
Proof. induction l as [|x l IH]; [done|]. cbn [rev omap list_omap]. rewrite omap_app, IH. cbn. destruct (f x); cbn; [done|by rewrite app_nil_r]. Qed.
Definition of_part (part : UUID) (L : list Row) : list Row := List.filter (fun r => bool_decide (partof r = part)) L.
Lemma tail_rows t L part s : part_ok t L -> pt_shards t !! pt_idx t part = Some s ->
  omap (row_at (p_rows s)) (default [] (p_tails s !! part)) = of_part part L.
Proof.
  intros Ht Hs. destruct (po_tails _ _ Ht _ s Hs part) as [_ H2 _ _]. rewrite <- omap_live, H2, omap_part, (po_rows _ _ Ht _ s Hs). unfold of_part.
  rewrite <- filter_and. apply filter_ext_in'. intros r _. unfold homed. destruct (bool_decide_reflect (partof r = part)) as [->|]; [by rewrite Nat.eqb_refl|by rewrite andb_false_r].
Qed.
Lemma scan_ok {A} t L part (fn : A -> Row -> A * bool) a : part_ok t L ->
  scanPartition t part fn a = Ok (visits fn (of_part part L) a) /\ scanPartitionRev t part fn a = Ok (visits fn (rev (of_part part L)) a).
Proof.
  intros Ht. destruct (home_shard t L part Ht) as [s Hs]. unfold scanPartition, scanPartitionRev. rewrite (index_at _ _ _ Hs). cbn [mbind outcome_bind].
  rewrite !tail_loop_visits, omap_rev, (tail_rows t L part s Ht Hs). done.
Qed.
(** The list a scan walks is at most twice the partition's rows and fifteen. *)
Lemma scan_short t L part s : part_ok t L -> pt_shards t !! pt_idx t part = Some s ->
  zlen (default [] (p_tails s !! part)) <= 2 * zlen (of_part part L) + 15.
Proof.
  intros Ht Hs. destruct (po_tails _ _ Ht _ s Hs part) as [_ H2 H3 H4]. assert (E : zlen (of_part part L) = zlen (part_ids partof (p_rows s) part)).
  { rewrite <- (tail_rows t L part s Ht Hs), <- omap_live. unfold zlen. by rewrite omap_live_length, H2. }
  rewrite E. unfold zlen in *. lia.
Qed.

(** ** Changing one shard *)
Lemma part_total t L total : part_ok t L -> (max <> 0 -> total = pt_total t) -> part_ok (pt_set_total t total) L.
Proof.
  intros [] Htot. split; try done. intros Hm. cbn. rewrite Htot by done. auto.
Qed.
Definition dir_ok (shards : list pshard) (dir : gmap UUID rowLocation) : Prop := forall pk loc, dir !! pk = Some loc <->
  exists s r, shards !! loc_shard loc = Some s /\ p_rows s !! loc_rowID loc = Some (Some r) /\ pkof r = pk.
Lemma part_put t L i s s' dir total L' : part_ok t L -> pt_shards t !! i = Some s ->
  NoDup (map pkof L') -> Forall row_wf L' -> live (p_rows s') = List.filter (homed t i) L' ->
  (forall k, k <> i -> List.filter (homed t k) L' = List.filter (homed t k) L) -> dir_ok (<[i := s']> (pt_shards t)) dir ->
  tails_fit s' -> p_live s' = zlen (live (p_rows s')) -> p_bytes s' = list_cost (live (p_rows s')) -> (max <> 0 -> total = ext + list_cost L') ->
  part_ok (MkPTable (<[i := s']> (pt_shards t)) dir total) L'.
Proof.
  intros Ht Hs Hk Hw Hl Ho Hd Htl Hlv Hb Htot. pose proof (lookup_lt_Some _ _ _ Hs) as Hlt.
  assert (Hh : forall k, homed (MkPTable (<[i := s']> (pt_shards t)) dir total) k = homed t k).
  { intros k. unfold homed, pt_idx, zlen. cbn. by rewrite length_insert. }
  split; cbn; try done.
  - rewrite length_insert. apply Ht.
  - intros k x Hx. rewrite Hh. destruct (decide (k = i)) as [->|Hne].
    + rewrite list_lookup_insert_eq in Hx by done. injection Hx as <-. done.
    + rewrite list_lookup_insert_ne in Hx by done. rewrite Ho by done. by apply Ht.
  - intros k x Hx. destruct (decide (k = i)) as [->|Hne]; [rewrite list_lookup_insert_eq in Hx by done; by injection Hx as <-|].
    rewrite list_lookup_insert_ne in Hx by done. by eapply po_tails.
  - intros k x Hx. destruct (decide (k = i)) as [->|Hne]; [rewrite list_lookup_insert_eq in Hx by done; by injection Hx as <-|].
    rewrite list_lookup_insert_ne in Hx by done. by eapply po_live.
  - intros k x Hx. destruct (decide (k = i)) as [->|Hne]; [rewrite list_lookup_insert_eq in Hx by done; by injection Hx as <-|].
    rewrite list_lookup_insert_ne in Hx by done. by eapply po_bytes.
Qed.
(** Places of one shard against the rest of the directory. *)
Lemma dir_places t L i s rows' dir' : part_ok t L -> pt_shards t !! i = Some s ->
  (forall pk loc, loc_shard loc <> i -> dir' !! pk = Some loc <-> pt_dir t !! pk = Some loc) ->
  (forall pk n, dir' !! pk = Some (MkLoc i n) <-> exists r, rows' !! n = Some (Some r) /\ pkof r = pk) ->
  forall s', p_rows s' = rows' -> dir_ok (<[i := s']> (pt_shards t)) dir'.
Proof.
  intros Ht Hs Hother Hi s' <- pk [k n]. cbn. pose proof (lookup_lt_Some _ _ _ Hs) as Hlt. destruct (decide (k = i)) as [->|Hne].
  - rewrite Hi, list_lookup_insert_eq by done. split; [intros (r & E & Hk); by exists s', r|intros (? & r & [= <-] & E & Hk); by exists r].
  - rewrite Hother by done. rewrite list_lookup_insert_ne by done. apply (po_dir _ _ Ht pk (MkLoc k n)).
Qed.
Lemma own_place t L i s pk n : part_ok t L -> pt_shards t !! i = Some s ->
  pt_dir t !! pk = Some (MkLoc i n) <-> exists r, p_rows s !! n = Some (Some r) /\ pkof r = pk.
Proof. intros Ht Hs. rewrite (po_dir _ _ Ht pk (MkLoc i n)). cbn. rewrite Hs. split; [intros (? & r & [= <-] & E & Hk); by exists r|intros (r & E & Hk); by exists s, r]. Qed.

(** ** Insert *)
Definition sp_insert (L : list Row) (w : option J) (row : Row) (j : mutJournal) : list Row * option J * option error :=
  match find_row (pkof row) L with
  | Some _ => (L, w, Some ErrDuplicatePK)
  | None =>
      if negb (max =? 0) && (ext + list_cost L + cost_of row >? max) then (L, w, Some ErrCapacity)
      else match mj_insert j w row with
           | (w, Some e) => (L, w, Some e)
           | (w, None) => (L ++ [row], w, None)
           end
  end.
Lemma insert_place t L row s total : part_ok t L -> row_wf row -> find_row (pkof row) L = None -> pt_shards t !! pt_idx t (partof row) = Some s ->
  (max <> 0 -> total = pt_total t + cost_of row) ->
  part_ok (MkPTable (<[pt_idx t (partof row) := p_tail_add (fst (p_addRow s row (cost_of row))) (partof row) (length (p_rows s))]> (pt_shards t))
    (<[pkof row := MkLoc (pt_idx t (partof row)) (length (p_rows s))]> (pt_dir t)) total) (L ++ [row]).
Proof.
  intros Ht Hr Hf Hs Htot. set (i := pt_idx t (partof row)) in *. assert (Hn : pkof row ∉ map pkof L) by (by apply find_row_None).
  assert (Hfree : pt_dir t !! pkof row = None) by (pose proof (dir_row t L (pkof row) Ht) as Hd; by rewrite Hf in Hd).
  apply (part_put t L i s); try done.
  - rewrite map_app. apply list.NoDup_app. split_and!; [apply Ht| |apply list.NoDup_singleton]. intros k Hk ->%list_elem_of_singleton. done.
  - apply Forall_app_2; [apply Ht|by apply list.Forall_singleton].
  - cbn. rewrite live_app, (po_rows _ _ Ht i s Hs), List.filter_app. f_equal. cbn. unfold homed. fold i. by rewrite Nat.eqb_refl.
  - intros k Hk. rewrite List.filter_app. cbn [List.filter]. unfold homed at 2. fold i. rewrite (proj2 (Nat.eqb_neq _ _)) by done. by rewrite app_nil_r.
  - apply (dir_places t L i s (p_rows s ++ [Some row])); try done.
    + intros pk loc Hl. destruct (decide (pk = pkof row)) as [->|Hp]; [|by rewrite lookup_insert_ne by done].
      rewrite lookup_insert_eq, Hfree. split; [by intros [= <-]|done].
    + intros pk n. destruct (decide (pk = pkof row)) as [->|Hp].
      * rewrite lookup_insert_eq. split.
        -- intros [= <-]. exists row. split; [|done]. by rewrite lookup_app_r, Nat.sub_diag by lia.
        -- intros (r & Hx & Hk). apply lookup_app_Some in Hx as [Hx|[Hge Hx]].
           ++ destruct Hn. rewrite <- Hk. apply list_elem_of_In, in_map, list_elem_of_In. by eapply held_row.
           ++ apply list_lookup_singleton_Some in Hx as [Hz _]. do 2 f_equal. lia.
      * rewrite lookup_insert_ne by done. rewrite (own_place t L i s pk n Ht Hs). split; intros (r & Hx & Hk); exists r; (split; [|done]).
        -- by apply lookup_app_l_Some.
        -- apply lookup_app_Some in Hx as [Hx|[Hge Hx]]; [done|]. apply list_lookup_singleton_Some in Hx as [_ Hx]. congruence.
  - apply (tails_add partof (p_rows s) (p_tails s) (p_dead s) row). by apply (po_tails _ _ Ht i).
  - cbn. rewrite live_app. change (live [Some row]) with [row]. unfold zlen. rewrite length_app. cbn. pose proof (po_live _ _ Ht i s Hs). unfold zlen in *. lia.
  - cbn. rewrite live_app. change (live [Some row]) with [row]. rewrite list_cost_app, (po_bytes _ _ Ht i s Hs). cbn. lia.
  - intros Hm. rewrite Htot, (po_total _ _ Ht), list_cost_app by done. cbn. lia.
Qed.
Lemma part_insert_ok t L w row j : part_ok t L -> row_wf row -> let '(L', w', e) := sp_insert L w row j in
  exists t', insertPartitioned def max t w row j = Ok (t', w', e) /\ part_ok t' L'.
Proof.
  intros Ht Hr. destruct (index_col row (pkOrd def) Hr pk_in) as (pkv & Epk & Hpk). destruct (index_col row (partOrd def) Hr part_in) as (partv & Epa & Hpa).
  assert (Ek : v_UUID pkv = pkof row) by (by rewrite Hpk). assert (Ep : v_UUID partv = partof row) by (by rewrite Hpa).
  destruct (home_shard t L (partof row) Ht) as [s Hs]. unfold insertPartitioned. rewrite Epk, Epa. cbn [mbind outcome_bind]. rewrite Ek, Ep, (index_at _ _ _ Hs). cbn [mbind outcome_bind].
  unfold sp_insert. pose proof (dir_row t L (pkof row) Ht) as Hd. destruct (find_row (pkof row) L) as [r|] eqn:Ef.
  { destruct Hd as (loc & s0 & -> & _). by exists t. }
  rewrite Hd. unfold budget_reserve. fold (cost_of row). destruct (Z.eqb_spec max 0) as [Hm|Hm]; cbn [negb andb].
  - destruct (mj_insert j w row) as [w' [e|]].
    + eexists. split; [done|]. apply (part_total t); [done|lia].
    + eexists. split; [done|]. by apply (insert_place t L row s (pt_total t)).
  - rewrite <- (po_total _ _ Ht) by done. destruct (Z.gtb_spec (pt_total t + cost_of row) max); cbn [negb].
    + eexists. split; [done|]. apply (part_total t); [done|]. cbn. lia.
    + destruct (mj_insert j w row) as [w' [e|]].
      * eexists. split; [done|]. apply (part_total t); [done|]. intros _. unfold budget_release. rewrite (proj2 (Z.eqb_neq _ _) Hm). cbn. lia.
      * eexists. split; [done|]. by apply (insert_place t L row s (pt_total t + cost_of row)).
Qed.

(** ** Update and delete *)
Definition upd (pk : UUID) (nr : Row) (L : list Row) : list Row := map (fun x => if bool_decide (pkof x = pk) then nr else x) L.
Definition without (pk : UUID) (L : list Row) : list Row := List.filter (fun x => bool_decide (pkof x <> pk)) L.
Lemma upd_absent pk nr L : pk ∉ map pkof L -> upd pk nr L = L.
Proof.
  induction L as [|x L IH]; [done|]. cbn [map upd]. intros [Hx HL]%not_elem_of_cons. rewrite bool_decide_false by done. f_equal. by apply IH.
Qed.
Lemma without_absent pk L : pk ∉ map pkof L -> without pk L = L.
Proof.
  induction L as [|x L IH]; [done|]. cbn [map without List.filter]. intros [Hx HL]%not_elem_of_cons. rewrite bool_decide_true by done. f_equal. by apply IH.
Qed.
Lemma keys_around A r B : NoDup (map pkof (A ++ r :: B)) -> ~ pkof r ∈ map pkof A /\ ~ pkof r ∈ map pkof B.
Proof.
  rewrite map_app. cbn [map]. intros (HA & Hdis & HB)%list.NoDup_app. apply list.NoDup_cons in HB as [HB _]. split; [|done].
  intros Hin. apply (Hdis _ Hin). by left.
Qed.
Lemma upd_around pk nr A r B : NoDup (map pkof (A ++ r :: B)) -> pkof r = pk -> upd pk nr (A ++ r :: B) = A ++ nr :: B.
Proof.
  intros [HA HB]%keys_around <-. unfold upd. rewrite map_app. cbn [map]. fold (upd (pkof r) nr A). fold (upd (pkof r) nr B).
  rewrite !upd_absent by done. by rewrite bool_decide_true.
Qed.
Lemma without_around pk A r B : NoDup (map pkof (A ++ r :: B)) -> pkof r = pk -> without pk (A ++ r :: B) = A ++ B.
Proof.
  intros [HA HB]%keys_around <-. unfold without. rewrite List.filter_app. cbn [List.filter]. fold (without (pkof r) A). fold (without (pkof r) B).
  rewrite !without_absent by done. by rewrite bool_decide_false by (intros []; done).
Qed.
Lemma upd_keys pk nr L : pkof nr = pk -> map pkof (upd pk nr L) = map pkof L.
Proof. intros Hn. unfold upd. rewrite map_map. apply map_ext. intros x. by destruct (bool_decide_reflect (pkof x = pk)) as [->|]. Qed.
Lemma keys_filter f L : NoDup (map pkof L) -> NoDup (map pkof (List.filter f L)).
Proof.
  induction L as [|x L IH]; [done|]. cbn [map List.filter]. intros [Hx HL]%list.NoDup_cons. destruct (f x); [|by apply IH]. cbn [map]. constructor; [|by apply IH].
  intros (y & Hy & Hin)%list_elem_of_In%in_map_iff. apply filter_In in Hin as [Hin _]. apply Hx. rewrite <- Hy. by apply list_elem_of_In, in_map.
Qed.
Lemma upd_homed t k pk nr r L : NoDup (map pkof L) -> r ∈ L -> pkof r = pk -> partof nr = partof r ->
  List.filter (homed t k) (upd pk nr L) = upd pk nr (List.filter (homed t k) L).
Proof.
  intros Hk Hr Hpk Hpart. assert (E : forall x, x ∈ L -> homed t k (if bool_decide (pkof x = pk) then nr else x) = homed t k x).
  { intros x Hx. destruct (bool_decide_reflect (pkof x = pk)) as [Ex|]; [|done]. assert (x = r) as -> by (apply (keys_unique L); congruence). unfold homed. by rewrite Hpart. }
  clear Hk Hr. revert E. induction L as [|x L IH]; intros E; [done|]. cbn [upd map List.filter]. rewrite (E x) by (by left). fold (upd pk nr L).
  destruct (homed t k x); cbn [map upd]; rewrite IH; try done; intros y Hy; apply E; by right.
Qed.
Lemma without_homed t k pk L : List.filter (homed t k) (without pk L) = without pk (List.filter (homed t k) L).
Proof. unfold without. rewrite <- !filter_and. apply filter_ext_in'. intros x _. apply andb_comm. Qed.
Lemma not_homed t L k i r : NoDup (map pkof L) -> r ∈ L -> pt_idx t (partof r) = i -> k <> i -> pkof r ∉ map pkof (List.filter (homed t k) L).
Proof.
  intros Hk Hr Hi Hne (y & Hy & Hin)%list_elem_of_In%in_map_iff. apply filter_In in Hin as [Hin Hh]. apply Nat.eqb_eq in Hh.
  assert (y = r) as -> by (apply (keys_unique L); [done|by apply list_elem_of_In|done|done]). congruence.
Qed.

Section place.
Context (t : ptable) (L : list Row) (i n : nat) (s : pshard) (r : Row).
Hypothesis Ht : part_ok t L.
Hypothesis Hs : pt_shards t !! i = Some s.
Hypothesis Hn : p_rows s !! n = Some (Some r).
Local Abbreviation A := (live (take n (p_rows s))).
Local Abbreviation B := (live (drop (S n) (p_rows s))).
Lemma place_facts : r ∈ L /\ pt_idx t (partof r) = i /\ (n < length (p_rows s))%nat /\ List.filter (homed t i) L = A ++ r :: B /\ NoDup (map pkof (A ++ r :: B)).
Proof.
  destruct (held_row t L i s n r Ht Hs Hn) as [Hr Hi]. assert (E : List.filter (homed t i) L = A ++ r :: B) by (rewrite <- (po_rows _ _ Ht i s Hs); by apply live_split).
  split_and!; [done|done|by eapply lookup_lt_Some|done|]. rewrite <- E. apply keys_filter, Ht.
Qed.
Lemma place_unique m r' : p_rows s !! m = Some (Some r') -> pkof r' = pkof r -> m = n.
Proof.
  intros Hm Hk. assert (E1 : pt_dir t !! pkof r = Some (MkLoc i n)) by (apply (own_place t L i s _ n Ht Hs); by exists r).
  assert (E2 : pt_dir t !! pkof r = Some (MkLoc i m)) by (apply (own_place t L i s _ m Ht Hs); by exists r'). congruence.
Qed.
Lemma replace_place nr delta : row_wf nr -> pkof nr = pkof r -> partof nr = partof r -> delta = cost_of nr - cost_of r ->
  part_ok (p_addBytes max t i (p_set_row s n (Some nr)) delta) (upd (pkof r) nr L).
Proof.
  intros Hw Hpk Hpa ->. destruct place_facts as (Hr & Hi & Hlt & Ef & Hnd). destruct Ht as [_ Hk Hwf _ _ _ _ _ _].
  assert (El : live (<[n := Some nr]> (p_rows s)) = A ++ nr :: B) by (by rewrite live_set).
  assert (Ec : list_cost (upd (pkof r) nr L) = list_cost L + (cost_of nr - cost_of r)).
  { apply list_elem_of_split in Hr as (l1 & l2 & ->). rewrite upd_around by done. rewrite !list_cost_app, ?list_cost_cons. lia. }
  apply (part_put t L i s); try done.
  - by rewrite upd_keys.
  - apply list.Forall_forall. intros x Hx. unfold upd in Hx. apply list_elem_of_In, in_map_iff in Hx as (y & <- & Hy%list_elem_of_In).
    destruct (bool_decide _); [done|]. rewrite list.Forall_forall in Hwf. by apply Hwf.
  - cbn. rewrite El, (upd_homed t i (pkof r) nr r L) by done. by rewrite Ef, upd_around.
  - intros k Hne. rewrite (upd_homed t k (pkof r) nr r L) by done. apply upd_absent. by apply (not_homed t L k i).
  - apply (dir_places t L i s (<[n := Some nr]> (p_rows s))); try done. intros pk m. cbn. rewrite (own_place t L i s pk m Ht Hs). destruct (decide (m = n)) as [->|Hne].
    + rewrite list_lookup_insert_eq, Hn by done. split; intros (x & [= <-] & E); eexists; (split; [done|]); congruence.
    + by rewrite list_lookup_insert_ne by done.
  - apply (tails_set partof (p_rows s) (p_tails s) (p_dead s) n r nr); [by apply (po_tails _ _ Ht i)|done|done].
  - cbn. rewrite El, (po_live _ _ Ht i s Hs), (po_rows _ _ Ht i s Hs), Ef. unfold zlen. by rewrite !length_app.
  - cbn. rewrite El, (po_bytes _ _ Ht i s Hs), (po_rows _ _ Ht i s Hs), Ef, !list_cost_app, ?list_cost_cons. lia.
  - intros Hm. rewrite Ec. cbn. unfold budget_adjust. rewrite (proj2 (Z.eqb_neq _ _) Hm), (po_total _ _ Ht) by done. cbn [negb andb].
    destruct (Z.eqb_spec (cost_of nr - cost_of r) 0); cbn [negb]; lia.
Qed.
Lemma remove_place total : (max <> 0 -> total = pt_total t - cost_of r) ->
  part_ok (MkPTable (<[i := tailsTombstone (MkPShard (<[n := None]> (p_rows s)) (p_tails s) (p_dead s) (p_live s - 1) (p_bytes s - cost_of r)) (partof r)]> (pt_shards t))
    (delete (pkof r) (pt_dir t)) total) (without (pkof r) L).
Proof.
  intros Htot. destruct place_facts as (Hr & Hi & Hlt & Ef & Hnd). destruct Ht as [_ Hk Hwf _ _ _ _ _ _].
  assert (El : live (<[n := None]> (p_rows s)) = A ++ B) by (by rewrite live_set).
  assert (Ec : list_cost (without (pkof r) L) = list_cost L - cost_of r).
  { apply list_elem_of_split in Hr as (l1 & l2 & ->). rewrite without_around by done. rewrite !list_cost_app, ?list_cost_cons. lia. }
  set (s1 := MkPShard _ _ _ _ _). destruct (tailsTombstone_keeps s1 (partof r)) as (K1 & K2 & K3).
  apply (part_put t L i s); try done; rewrite ?K1, ?K2, ?K3.
  - apply list_elem_of_split in Hr as (l1 & l2 & E). rewrite E in Hk |- *. rewrite without_around by done. rewrite map_app in Hk |- *. cbn [map] in Hk.
    apply list.NoDup_app in Hk as (H1 & H2 & H3). apply list.NoDup_cons in H3 as [_ H3]. apply list.NoDup_app. split_and!; [done| |done]. intros k Hin Hin'. apply (H2 k Hin). by right.
  - apply list.Forall_forall. intros x Hx. apply list_elem_of_In, filter_In in Hx as [Hx%list_elem_of_In _]. rewrite list.Forall_forall in Hwf. by apply Hwf.
  - subst s1. cbn [p_rows]. rewrite El, without_homed, Ef. by rewrite without_around.
  - intros k Hne. rewrite without_homed. apply without_absent. by apply (not_homed t L k i).
  - apply (dir_places t L i s (<[n := None]> (p_rows s))); try done.
    + intros pk loc Hl. destruct (decide (pk = pkof r)) as [->|Hne]; [|by rewrite lookup_delete_ne by done]. rewrite lookup_delete_eq. split; [done|].
      intros E. assert (E2 : pt_dir t !! pkof r = Some (MkLoc i n)) by (apply (own_place t L i s _ n Ht Hs); by exists r). rewrite E in E2. injection E2 as ->. done.
    + intros pk m. destruct (decide (pk = pkof r)) as [->|Hne].
      * rewrite lookup_delete_eq. split; [done|]. intros (x & Hx & Ex). destruct (decide (m = n)) as [->|Hmn]; [by rewrite list_lookup_insert_eq in Hx|].
        rewrite list_lookup_insert_ne in Hx by done. destruct Hmn. by eapply place_unique.
      * rewrite lookup_delete_ne by done. rewrite (own_place t L i s pk m Ht Hs). destruct (decide (m = n)) as [->|Hmn].
        -- rewrite list_lookup_insert_eq, Hn by done. split; [intros (x & [= <-] & E); congruence|by intros (x & ? & _)].
        -- by rewrite list_lookup_insert_ne by done.
  - apply (tails_dead partof s n r); [by apply (po_tails _ _ Ht i)|done].
  - subst s1. cbn [p_rows p_live]. rewrite El, (po_live _ _ Ht i s Hs), (po_rows _ _ Ht i s Hs), Ef. unfold zlen. rewrite !length_app. cbn. lia.
  - subst s1. cbn [p_rows p_bytes]. rewrite El, (po_bytes _ _ Ht i s Hs), (po_rows _ _ Ht i s Hs), Ef, !list_cost_app, ?list_cost_cons. lia.
  - intros Hm. rewrite Ec, Htot, (po_total _ _ Ht) by done. lia.
Qed.
End place.

(** The row of a key, as the keyed writes find it. *)
Lemma placed_ok t L pk : part_ok t L -> match find_row pk L with
  | None => placed def t pk = Ok None
  | Some r => exists i n s, placed def t pk = Ok (Some (i, n, s, r)) /\ pt_shards t !! i = Some s /\ p_rows s !! n = Some (Some r) /\ pkof r = pk
  end.
Proof.
  intros Ht. pose proof (dir_row t L pk Ht) as Hd. unfold placed. destruct (find_row pk L) as [r|] eqn:Ef; [|by rewrite Hd].
  destruct Hd as ([i n] & s & -> & Hs & Hn & _). cbn [loc_shard loc_rowID] in *. rewrite (index_at _ _ _ Hs). cbn [mbind outcome_bind]. rewrite Hn.
  apply find_row_Some in Ef as [Hr Hk]. assert (Hw : row_wf r) by (pose proof (po_wf _ _ Ht) as Hw; rewrite list.Forall_forall in Hw; by apply Hw).
  destruct (index_col r (pkOrd def) Hw pk_in) as (v & -> & Hv). cbn [mbind outcome_bind]. assert (E : v_UUID v = pk) by (rewrite Hv; exact Hk).
  rewrite bool_decide_true by done. by exists i, n, s.
Qed.
Definition sp_update (L : list Row) (w : option J) (pk : UUID) (ords : list nat) (compute : Row -> outcome (list Value)) (j : mutJournal)
  : outcome (list Row * option J * (bool * option error)) :=
  match find_row pk L with
  | None => Ok (L, w, (false, None))
  | Some r =>
      match compute r with
      | Err e => Ok (L, w, (false, Some e))
      | Panic => Panic
      | Ok vals =>
          je ← mj_update j w (assign r ords vals);
          Ok (match je with (w, Some e) => (L, w, (false, Some e)) | (w, None) => (upd pk (assign r ords vals) L, w, (true, None)) end)
      end
  end.
Lemma upd_self t L r : part_ok t L -> r ∈ L -> upd (pkof r) r L = L.
Proof.
  intros Ht Hr. pose proof (po_keys _ _ Ht) as Hk. apply list_elem_of_split in Hr as (l1 & l2 & ->). by rewrite upd_around.
Qed.
Lemma put_back t L i n s r : part_ok t L -> pt_shards t !! i = Some s -> p_rows s !! n = Some (Some r) -> part_ok (pt_put t i (p_set_row s n (Some r))) L.
Proof.
  intros Ht Hs Hn. assert (E : p_set_row s n (Some r) = s) by (unfold p_set_row; rewrite list_insert_id by done; by destruct s).
  rewrite E. unfold pt_put. rewrite list_insert_id by done. by destruct t.
Qed.
Lemma part_update_ok t L w pk ords compute j o : part_ok t L -> partOrd def ∉ ords -> (is_Some w -> NoDup ords) ->
  (forall r vals, row_wf r -> compute r = Ok vals -> args_wf def ords vals) -> sp_update L w pk ords compute j = Ok o ->
  exists t', updateByPKJournaledPartitioned def max t w pk ords compute j = Ok (t', snd (fst o), snd o) /\ part_ok t' (fst (fst o)).
Proof.
  intros Ht Hpo Hnd Hc E. pose proof (placed_ok t L pk Ht) as Hp. unfold sp_update in E. unfold updateByPKJournaledPartitioned. destruct (find_row pk L) as [r|] eqn:Ef.
  2: { rewrite Hp. injection E as <-. by exists t. }
  destruct Hp as (i & n & s & -> & Hs & Hn & Hk). cbn [mbind outcome_bind]. destruct (compute r) as [vals|e|] eqn:Ec; [|injection E as <-; by exists t|done].
  apply find_row_Some in Ef as [Hr _]. assert (Hw : row_wf r) by (pose proof (po_wf _ _ Ht) as Hw; rewrite list.Forall_forall in Hw; by apply Hw).
  pose proof (Hc r vals Hw Ec) as Hargs. assert (Hnw : row_wf (assign r ords vals)) by (by apply assign_wf).
  assert (Hnk : pkof (assign r ords vals) = pkof r) by (by apply assign_pk). assert (Hnp : partof (assign r ords vals) = partof r) by (unfold partof; by rewrite assign_notin).
  destruct (mj_update j w (assign r ords vals)) as [[w' je]| |] eqn:Ej; [|done..]. cbn [mbind outcome_bind] in E. injection E as <-.
  assert (Hdone : forall delta, delta = cost_of (assign r ords vals) - cost_of r -> part_ok (p_addBytes max t i (p_set_row s n (Some (assign r ords vals))) delta) (upd pk (assign r ords vals) L)).
  { intros delta Hdelta. rewrite <- Hk. by apply replace_place. }
  destruct w as [w|].
  - destruct (get_cells_ok r ords) as (old & Hget & Hold). { destruct Hargs as (_ & _ & Ho). eapply list.Forall_impl; [exact Ho|]. intros o [? _]. by rewrite (proj1 Hw). }
    rewrite Hget. cbn [mbind outcome_bind]. rewrite (set_cells_assign def) by (apply Hw || done). cbn [mbind outcome_bind]. rewrite Ej. cbn [mbind outcome_bind].
    destruct je as [e|].
    + rewrite (set_cells_assign def).
      2: by rewrite assign_length; apply Hw.
      2: { destruct Hargs as (_ & _ & Ho). split; [by rewrite (Forall2_length Hold)|]. split; [|done]. apply list.Forall_forall. intros v (m & Hv)%list_elem_of_lookup_1.
           destruct (Forall2_lookup_r _ _ _ _ _ Hold Hv) as (o & _ & E). destruct Hw as [_ Hvals]. rewrite list.Forall_forall in Hvals. eapply Hvals, list_elem_of_lookup_2, E. }
      cbn [mbind outcome_bind]. rewrite (assign_revert r _ _ _ Hold); [|by rewrite assign_length|intros; by rewrite assign_notin].
      eexists. split; [done|]. cbn. by apply put_back.
    + eexists. split; [done|]. cbn. apply Hdone. apply (sum_deltas_cost def); [apply Hnd; by eexists|apply Hargs|done].
  - unfold mj_update in Ej. injection Ej as <- <-. rewrite (set_cells_delta_assign def) by (apply Hw || done). cbn [mbind outcome_bind fst snd].
    eexists. split; [done|]. cbn. apply Hdone. lia.
Qed.

Definition sp_delete (L : list Row) (w : option J) (pk : UUID) (j : mutJournal) : list Row * option J * (bool * option error) :=
  match find_row pk L with
  | None => (L, w, (false, None))
  | Some _ => match mj_delete j w with
              | (w, Some e) => (L, w, (false, Some e))
              | (w, None) => (without pk L, w, (true, None))
              end
  end.
Lemma part_delete_ok t L w pk j : part_ok t L -> let '(L', w', res) := sp_delete L w pk j in
  exists t', deleteByPKJournaledPartitioned def max t w pk j = Ok (t', w', res) /\ part_ok t' L'.
Proof.
  intros Ht. unfold sp_delete, deleteByPKJournaledPartitioned. pose proof (dir_row t L pk Ht) as Hd. destruct (find_row pk L) as [r|] eqn:Ef; [|rewrite Hd; by exists t].
  destruct Hd as ([i n] & s & -> & Hs & Hn & _). cbn [loc_shard loc_rowID] in *. rewrite (index_at _ _ _ Hs). cbn [mbind outcome_bind].
  destruct (mj_delete j w) as [w' [e|]]; [by exists t|]. rewrite Hn. cbn [lift mbind outcome_bind].
  apply find_row_Some in Ef as [Hr Hk]. assert (Hw : row_wf r) by (pose proof (po_wf _ _ Ht) as Hw; rewrite list.Forall_forall in Hw; by apply Hw).
  destruct (index_col r (partOrd def) Hw part_in) as (v & -> & Hv). cbn [mbind outcome_bind]. assert (E : v_UUID v = partof r) by (by rewrite Hv).
  unfold p_tombstone. rewrite (index_at _ _ _ Hn). cbn [mbind outcome_bind default from_option id]. fold (cost_of r). rewrite E, <- Hk.
  eexists. split; [done|]. apply (remove_place t L i n s r Ht Hs Hn (budget_release max (pt_total t) (cost_of r))).
  intros Hm. unfold budget_release. rewrite (proj2 (Z.eqb_neq _ _) Hm). cbn. lia.
Qed.
End table.
