(* ===== verification/PartitionSim.v ===== *)
(** * PartitionSim: compaction, DELETE over a whole partitioned table, the point
    reads against moving rows, and every history of operations on a partitioned
    table as a history of the list of its rows. *)
From S2P Require Import Prelude Bytes Uuid Value PkMap Codec Frame Journal Schema Store StoreOk StoreSim Ast Filter Plan Wire Partition PartitionOk.

Lemma live_Some_map (L : list Row) : live (map Some L) = L.
Proof. induction L as [|r L IH]; [done|]. unfold live in *. cbn. by rewrite IH. Qed.
(** Rows dealt out to [n] places by [f]. *)
Lemma deal_one {A} (f : A -> nat) (x : A) (g : nat -> list A) n : forall a, (a <= f x < a + n)%nat ->
  concat (map (fun i => if (f x =? i)%nat then x :: g i else g i) (seq a n)) ≡ₚ x :: concat (map g (seq a n)).
Proof.
  induction n as [|n IH]; intros a Ha; [lia|]. cbn [seq map concat]. destruct (Nat.eqb_spec (f x) a) as [E|E].
  - cbn [app]. f_equiv. f_equiv. apply Permutation_refl'. f_equal. apply map_ext_in. intros i Hi%in_seq. by rewrite (proj2 (Nat.eqb_neq _ _)) by lia.
  - rewrite IH by lia. by rewrite Permutation_middle.
Qed.
Lemma deal_all {A} (f : A -> nat) n (L : list A) : Forall (fun x => (f x < n)%nat) L ->
  concat (map (fun i => List.filter (fun x => (f x =? i)%nat) L) (seq 0 n)) ≡ₚ L.
Proof.
  induction 1 as [|x L Hx HL IH].
  - cbn. apply Permutation_refl'. induction (seq 0 n) as [|i l IHl]; [done|]. cbn. by rewrite IHl.
  - cbn [List.filter]. rewrite (deal_one f x (fun i => List.filter (fun x => (f x =? i)%nat) L)) by lia. by rewrite IH.
Qed.

Inductive part_op : Type :=
  | PGet (k : UUID)
  | PScan (part : UUID) (desc : bool)
  | PScanAll
  | PInsert (row : Row) (j : mutJournal)
  | PUpdate (k : UUID) (ords : list nat) (compute : Row -> outcome (list Value)) (j : mutJournal)
  | PDelete (k : UUID) (j : mutJournal)
  | PDeleteWhere (match_ : Row -> bool) (encode : Value -> bytes)
  | PCompact (i : nat).

Section sim.
Context {J : Type} `{Journal J} (def : resolvedTable) (max ext : Z).
Local Abbreviation ncols := (length (t_Columns (rt_def def))).
Local Abbreviation pkof := (pkof def).
Local Abbreviation partof := (partof def).
Local Abbreviation row_wf := (row_wf def).
Local Abbreviation cost_of := (cost_of def).
Hypothesis pk_in : (pkOrd def < ncols)%nat.
Hypothesis part_in : (partOrd def < ncols)%nat.
Local Abbreviation part_ok := (part_ok def max ext).
Local Abbreviation homed := (homed def).
Local Abbreviation tails_ok := (tails_ok partof).

(** ** Every row, in shard order *)
Definition shard_rows (t : ptable) : list Row := concat (map (fun s => live (p_rows s)) (pt_shards t)).
Lemma rows_of_deal t L : part_ok t L -> shard_rows t = concat (map (fun i => List.filter (homed t i) L) (seq 0 (length (pt_shards t)))).
Proof.
  intros Ht. unfold shard_rows. f_equal. apply list_eq. intros i. rewrite !list_lookup_fmap. destruct (pt_shards t !! i) as [s|] eqn:Hs.
  - rewrite lookup_seq_lt by (by eapply lookup_lt_Some). cbn. f_equal. by apply (po_rows _ _ _ _ _ Ht).
  - rewrite lookup_seq_ge by (by apply lookup_ge_None). done.
Qed.
Lemma rows_of_perm t L : part_ok t L -> shard_rows t ≡ₚ L.
Proof.
  intros Ht. rewrite (rows_of_deal t L Ht). apply (deal_all (fun r => pt_idx t (partof r))). apply list.Forall_forall. intros r Hr.
  destruct (home_shard def max ext t L (partof r) Ht) as [s Hs]. by eapply lookup_lt_Some.
Qed.
Lemma visits_app {A} (fn : A -> Row -> A * bool) l1 l2 : forall a, (forall a r, snd (fn a r) = true) -> visits fn (l1 ++ l2) a = visits fn l2 (visits fn l1 a).
Proof.
  induction l1 as [|r l1 IH]; intros a Hg; [done|]. cbn [app visits]. specialize (Hg a r) as Hr. destruct (fn a r) as [b g]. cbn in Hr. subst g. by apply IH.
Qed.

(** ** Compaction *)
Lemma p_compact_ok i rest : forall rows tails dir, Forall row_wf (live rest) -> tails_ok rows tails ∅ -> NoDup (map pkof (live rest)) ->
  exists tails' dir', p_compact def i rest rows tails dir = Ok (rows ++ map Some (live rest), tails', dir') /\
    tails_ok (rows ++ map Some (live rest)) tails' ∅ /\
    (forall pk, pk ∉ map pkof (live rest) -> dir' !! pk = dir !! pk) /\
    (forall k r, live rest !! k = Some r -> dir' !! pkof r = Some (MkLoc i (length rows + k))).
Proof.
  induction rest as [|[r|] rest IH]; intros rows tails dir Hw Ht Hk; cbn [p_compact].
  - cbn. rewrite app_nil_r. exists tails, dir. done.
  - change (live (Some r :: rest)) with (r :: live rest) in *. apply list.Forall_cons in Hw as [Hr Hw]. cbn [map] in Hk. apply list.NoDup_cons in Hk as [Hn Hk].
    destruct (index_col def r (partOrd def) Hr part_in) as (pv & -> & Epv). destruct (index_col def r (pkOrd def) Hr pk_in) as (kv & -> & Ekv). cbn [mbind outcome_bind].
    assert (Ep : v_UUID pv = partof r) by (by rewrite Epv). assert (Ek : v_UUID kv = pkof r) by (by rewrite Ekv). rewrite Ep, Ek.
    destruct (IH (rows ++ [Some r]) (<[partof r := default [] (tails !! partof r) ++ [length rows]]> tails) (<[pkof r := MkLoc i (length rows)]> dir) Hw)
      as (tails' & dir' & E & Ht' & Hd1 & Hd2); [by apply tails_add|done|].
    exists tails', dir'. rewrite E. cbn [map]. rewrite <- !app_assoc in *. split; [done|]. split; [done|]. split.
    + intros pk [Hne Hpk]%not_elem_of_cons. rewrite Hd1 by done. by rewrite lookup_insert_ne by done.
    + intros [|k] x Hx; cbn in Hx.
      * injection Hx as <-. rewrite Hd1 by done. rewrite lookup_insert_eq. do 2 f_equal. lia.
      * rewrite (Hd2 k x Hx), length_app. cbn. do 2 f_equal. lia.
  - change (live (None :: rest)) with (live rest) in *. by apply IH.
Qed.
Lemma compact_shard_ok t L i s : part_ok t L -> pt_shards t !! i = Some s -> exists t', p_compactShard def t i = Ok t' /\ part_ok t' L.
Proof.
  intros Ht Hs. unfold p_compactShard. rewrite (index_at _ _ _ Hs). cbn [mbind outcome_bind].
  assert (Hl := po_rows _ _ _ _ _ Ht i s Hs). assert (Hnd : NoDup (map pkof (live (p_rows s)))) by (rewrite Hl; apply keys_filter, Ht).
  assert (Hw : Forall row_wf (live (p_rows s))). { rewrite Hl. apply list.Forall_forall. intros r Hr%list_elem_of_In%filter_In.
    pose proof (po_wf _ _ _ _ _ Ht) as Hw. rewrite list.Forall_forall in Hw. apply Hw, list_elem_of_In, Hr. }
  destruct (p_compact_ok i (p_rows s) [] ∅ (pt_dir t) Hw (tails_empty _) Hnd) as (tails' & dir' & E & Ht' & Hd1 & Hd2). cbn [app length Nat.add] in *.
  rewrite E. cbn [mbind outcome_bind]. eexists. split; [done|]. unfold pt_put, pt_set_dir. cbn.
  set (s' := MkPShard _ _ _ _ _). assert (El : live (p_rows s') = live (p_rows s)) by apply live_Some_map.
  assert (Hheld : forall pk loc, pk ∈ map pkof (live (p_rows s)) -> pt_dir t !! pk = Some loc -> loc_shard loc = i).
  { intros pk [k n] (r & <- & (m & Hm)%list_elem_of_In%live_elem)%list_elem_of_In%in_map_iff E'.
    assert (E2 : pt_dir t !! pkof r = Some (MkLoc i m)) by (apply (own_place def max ext t L i s _ m Ht Hs); by exists r). rewrite E' in E2. by injection E2 as ->. }
  assert (Hown : forall pk loc, pk ∈ map pkof (live (p_rows s)) -> dir' !! pk = Some loc -> loc_shard loc = i).
  { intros pk loc (r & <- & (k & Hk)%list_elem_of_In%list_elem_of_lookup_1)%list_elem_of_In%in_map_iff E'. rewrite (Hd2 k r Hk) in E'. by injection E' as <-. }
  apply (part_put def max ext t L i s); rewrite ?El; try done; try apply Ht; try done.
  - apply (dir_places def max ext t L i s (p_rows s')); try done.
    + intros pk loc Hloc. destruct (decide (pk ∈ map pkof (live (p_rows s)))) as [Hin|Hin]; [|by rewrite Hd1 by done].
      split; intros E'; destruct Hloc; [by eapply Hown|by eapply Hheld].
    + intros pk n. split.
      * intros E'. destruct (decide (pk ∈ map pkof (live (p_rows s)))) as [Hin|Hin].
        -- apply list_elem_of_In, in_map_iff in Hin as (r & <- & (k & Hk)%list_elem_of_In%list_elem_of_lookup_1). rewrite (Hd2 k r Hk) in E'. injection E' as <-.
           exists r. split; [|done]. subst s'. cbn. rewrite list_lookup_fmap. by rewrite Hk.
        -- rewrite Hd1 in E' by done. apply (own_place def max ext t L i s pk n Ht Hs) in E' as (r & Hr & <-). destruct Hin.
           apply list_elem_of_In, in_map, list_elem_of_In, live_elem. by exists n.
      * intros (r & Hr & <-). subst s'. cbn in Hr. rewrite list_lookup_fmap in Hr. destruct (live (p_rows s) !! n) as [x|] eqn:Ex; [|done]. injection Hr as ->. by apply Hd2.
  - apply (po_live _ _ _ _ _ Ht i s Hs).
  - apply (po_bytes _ _ _ _ _ Ht i s Hs).
Qed.
Lemma part_compact_ok t L i s : part_ok t L -> pt_shards t !! i = Some s -> exists t', p_compactIfDense def t i = Ok t' /\ part_ok t' L.
Proof.
  intros Ht Hs. unfold p_compactIfDense. rewrite (index_at _ _ _ Hs). cbn [mbind outcome_bind]. destruct (p_dense s); cbn [negb]; [|by exists t]. by eapply compact_shard_ok.
Qed.
(** ** Scans of the whole table *)
Lemma scan_rows_visits {A} rows (fn : A -> Row -> A * bool) : forall a rest, (let '(a, go) := scan_rows rows fn a in if negb go then a else visits fn rest a) = visits fn (live rows ++ rest) a.
Proof.
  induction rows as [|[r|] rows IH]; intros a rest; cbn [scan_rows]; [done| |by apply IH].
  change (live (Some r :: rows)) with (r :: live rows). cbn [app visits]. destruct (fn a r) as [b []]; cbn [negb]; [apply IH|done].
Qed.
Lemma scan_all_ok {A} t L (fn : A -> Row -> A * bool) a : part_ok t L -> exists rs, rs ≡ₚ L /\ p_scanAll t fn a = visits fn rs a.
Proof.
  intros Ht. exists (shard_rows t). split; [by apply rows_of_perm|]. unfold p_scanAll, shard_rows. clear Ht. revert a.
  induction (pt_shards t) as [|s l IH]; intros a; [done|]. cbn [p_scan_shards map concat]. rewrite <- scan_rows_visits.
  destruct (scan_rows (p_rows s) fn a) as [b []]; cbn [negb]; [apply IH|done].
Qed.

(** ** DELETE over the whole table *)
Definition victim_key (p : nat * nat * UUID * UUID) : UUID := let '(_, _, pk, _) := p in pk.
(** Where a pending delete's row is. *)
Definition place_holds (t : ptable) (i n : nat) (r : Row) : Prop := exists s, pt_shards t !! i = Some s /\ p_rows s !! n = Some (Some r).
Definition pending_at (t : ptable) (p : nat * nat * UUID * UUID) : Prop :=
  let '(i, n, pk, part) := p in exists r, place_holds t i n r /\ pkof r = pk /\ partof r = part.
Lemma p_cells_elem t i n r : (i, n, r) ∈ p_cells t <-> place_holds t i n r.
Proof.
  unfold p_cells, place_holds. rewrite list_elem_of_In, in_concat. split.
  - intros (l & (k & s & -> & Hs)%list_elem_of_In%elem_of_lookup_imap & Hin). apply list_elem_of_In in Hin. unfold p_cells_of in Hin.
    apply list_elem_of_omap in Hin as ([m c] & Hm & E). apply elem_of_lookup_imap in Hm as (m' & c' & [= -> ->] & Hc). cbn in E. destruct c' as [x|]; [|done]. injection E as -> -> ->. by exists s.
  - intros (s & Hs & Hn). exists (p_cells_of i s). split; [apply list_elem_of_In, elem_of_lookup_imap; by exists i, s|].
    apply list_elem_of_In. unfold p_cells_of. apply list_elem_of_omap. exists (n, Some r). split; [|done]. apply elem_of_lookup_imap. by exists n, (Some r).
Qed.
Lemma cells_rows i s : map snd (p_cells_of i s) = live (p_rows s).
Proof.
  unfold p_cells_of. assert (E : forall rows k, map snd (omap (fun jr : nat * option Row => match snd jr with Some r => Some (i, fst jr, r) | None => None end) (imap (fun n x => (k + n, x)%nat) rows)) = live rows).
  { induction rows as [|[r|] rows IH]; intros k; [done| |]; cbn [imap omap list_omap snd map]; unfold compose.
    - change (live (Some r :: rows)) with (r :: live rows). f_equal. rewrite <- (IH (S k)). do 2 f_equal. apply imap_ext. intros n x _. cbn. f_equal. lia.
    - change (live (None :: rows)) with (live rows). rewrite <- (IH (S k)). do 2 f_equal. apply imap_ext. intros n x _. cbn. f_equal. lia. }
  apply (E (p_rows s) 0%nat).
Qed.
Lemma p_cells_rows t : map snd (p_cells t) = shard_rows t.
Proof.
  unfold p_cells, shard_rows. rewrite concat_map. f_equal. apply list_eq. intros i. rewrite !list_lookup_fmap, list_lookup_imap.
  destruct (pt_shards t !! i) as [s|]; [|done]. cbn. f_equal. apply cells_rows.
Qed.
Definition victim (c : nat * nat * Row) : nat * nat * UUID * UUID := let '(i, n, r) := c in (i, n, pkof r, partof r).
Lemma p_pend_ok match_ cells : Forall row_wf (map snd cells) ->
  let vs := List.filter (fun c => match_ (snd c)) cells in
  p_pend def cells match_ = Ok (map victim vs, map (fun c => default Null (snd c !! pkOrd def)) vs).
Proof.
  cbv zeta. induction cells as [|[[i n] r] cells IH]; [done|]. cbn [map snd p_pend List.filter]. intros [Hr Hw]%list.Forall_cons.
  destruct (match_ r); cbn [negb]; [|by apply IH]. destruct (index_col def r (pkOrd def) Hr pk_in) as (kv & -> & Ek). destruct (index_col def r (partOrd def) Hr part_in) as (pv & -> & Ep).
  cbn [mbind outcome_bind]. rewrite IH by done. cbn [mbind outcome_bind fst snd map victim]. by rewrite Ek, Ep.
Qed.
Lemma p_apply_delete_ok t L p : part_ok t L -> pending_at t p ->
  exists t', p_apply_delete def max t p = Ok t' /\ part_ok t' (without def (victim_key p) L) /\ (forall q, pending_at t q -> victim_key q <> victim_key p -> pending_at t' q).
Proof.
  destruct p as [[[i n] pk] part]. intros Ht (r & (s & Hs & Hn) & <- & <-). unfold p_apply_delete. rewrite (index_at _ _ _ Hs). cbn [mbind outcome_bind].
  unfold p_tombstone. rewrite (index_at _ _ _ Hn). cbn [mbind outcome_bind default from_option id victim_key]. fold (cost_of r). eexists. split; [done|]. split.
  - apply (remove_place def max ext pk_in part_in t L i n s r Ht Hs Hn (budget_release max (pt_total t) (cost_of r))).
    intros Hm. unfold budget_release. rewrite (proj2 (Z.eqb_neq _ _) Hm). cbn. lia.
  - intros [[[i' n'] pk'] part'] (x & (s' & Hs' & Hn') & <- & <-) Hne. cbn [victim_key] in Hne. exists x. split; [|done]. unfold place_holds. cbn.
    destruct (decide (i' = i)) as [->|Hi]; [|exists s'; by rewrite list_lookup_insert_ne by done]. rewrite Hs in Hs'. injection Hs' as <-.
    eexists. split; [apply list_lookup_insert_eq; by eapply lookup_lt_Some|]. set (s1 := MkPShard _ _ _ _ _).
    destruct (tailsTombstone_keeps s1 (partof r)) as (-> & _). subst s1. cbn. rewrite list_lookup_insert_ne; [done|]. intros ->. congruence.
Qed.
Lemma p_apply_deletes_ok ps : forall t L, part_ok t L -> Forall (pending_at t) ps -> NoDup (map victim_key ps) ->
  exists t', p_apply_deletes def max t ps = Ok t' /\ part_ok t' (List.filter (fun r => bool_decide (pkof r ∉ map victim_key ps)) L).
Proof.
  induction ps as [|p ps IH]; intros t L Ht Hp Hk.
  - exists t. split; [done|]. by rewrite filter_true_all.
  - apply list.Forall_cons in Hp as [Hp Hps]. cbn [map] in *. apply list.NoDup_cons in Hk as [Hn Hk]. cbn [p_apply_deletes].
    destruct (p_apply_delete_ok t L p Ht Hp) as (t1 & -> & Ht1 & Hq). cbn [mbind outcome_bind].
    destruct (IH t1 _ Ht1) as (t2 & E & Ht2); [|done|].
    + rewrite list.Forall_forall in Hps |- *. intros q Hin. apply Hq; [by apply Hps|]. intros Eq. destruct Hn. rewrite <- Eq. by apply list_elem_of_In, in_map, list_elem_of_In.
    + exists t2. split; [done|]. unfold without in Ht2. rewrite <- filter_and in Ht2. erewrite filter_ext_in'; [exact Ht2|]. intros r _. cbn.
      rewrite <- bool_decide_and. apply bool_decide_ext. by rewrite not_elem_of_cons.
Qed.
Lemma filter_perm {A} (f : A -> bool) l l' : l ≡ₚ l' -> List.filter f l ≡ₚ List.filter f l'.
Proof.
  induction 1 as [|x l l' Hl IH|x y l|l1 l2 l3 H1 IH1 H2 IH2]; [done| | |by transitivity (List.filter f l2)]; cbn [List.filter].
  - destruct (f x); [by f_equiv|done].
  - destruct (f x), (f y); [apply Permutation_swap|done..].
Qed.
Lemma spared match_ rows r : NoDup (map pkof rows) -> r ∈ rows ->
  bool_decide (pkof r ∉ map pkof (List.filter match_ rows)) = negb (match_ r).
Proof.
  intros Hnd Hr. destruct (match_ r) eqn:Em; cbn [negb].
  - apply bool_decide_eq_false. intros Hn. apply Hn. apply list_elem_of_In, in_map, filter_In. split; [by apply list_elem_of_In|done].
  - apply bool_decide_eq_true. intros (x & Hk & Hx)%list_elem_of_In%in_map_iff. apply filter_In in Hx as [Hx Hm].
    assert (x = r) as -> by (apply (keys_unique def rows); [done|by apply list_elem_of_In|done..]). congruence.
Qed.
(** What DELETE without an access path promises: one journal call over the
    matching rows in some order, then all of them gone - or none. *)
Definition sp_delete_where (L : list Row) (w : option J) (match_ : Row -> bool) (encode : Value -> bytes)
    (L' : list Row) (w' : option J) (res : Z * option error) : Prop :=
  exists vs je, vs ≡ₚ List.filter match_ L /\ journal_bodies w (map (fun r => encode (default Null (r !! pkOrd def))) vs) = (w', je) /\
    match je with
    | Some e => L' = L /\ res = (0, Some e)
    | None => L' = List.filter (fun r => negb (match_ r)) L /\ res = (zlen vs, None)
    end.
Lemma delete_where_ok t L w match_ encode : part_ok t L ->
  exists t' L' w' res, deleteWhereAllPartitioned def max t w match_ encode = Ok (t', w', res) /\ part_ok t' L' /\ sp_delete_where L w match_ encode L' w' res.
Proof.
  intros Ht. pose proof (rows_of_perm t L Ht) as Hperm. set (cs := List.filter (fun c => match_ (snd c)) (p_cells t)).
  assert (Hvs : map snd cs = List.filter match_ (shard_rows t)).
  { rewrite <- p_cells_rows. subst cs. induction (p_cells t) as [|c l IH]; [done|]. cbn. destruct (match_ (snd c)); cbn; by rewrite IH. }
  assert (Hkeys : map victim_key (map victim cs) = map pkof (map snd cs)) by (rewrite !map_map; apply map_ext; by intros [[i n] r]).
  assert (Hnd : NoDup (map pkof (shard_rows t))) by (rewrite (Permutation_map pkof Hperm); apply Ht).
  unfold deleteWhereAllPartitioned. rewrite p_pend_ok; [|rewrite p_cells_rows, Hperm; apply Ht]. fold cs. cbn [mbind outcome_bind fst snd]. rewrite map_map.
  assert (Ebodies : map (fun c : nat * nat * Row => encode (default Null (snd c !! pkOrd def))) cs = map (fun r => encode (default Null (r !! pkOrd def))) (map snd cs)) by (by rewrite map_map).
  rewrite Ebodies, Hvs. destruct (journal_bodies w _) as [w' je] eqn:Ej. assert (Hvp : List.filter match_ (shard_rows t) ≡ₚ List.filter match_ L) by (by apply filter_perm).
  destruct je as [e|].
  - exists t, L, w', (0, Some e). split; [done|]. split; [done|]. by exists (List.filter match_ (shard_rows t)), (Some e).
  - destruct (p_apply_deletes_ok (map victim cs) t L Ht) as (t' & -> & Ht').
    + apply list.Forall_forall. intros p ([[i n] r] & <- & Hin)%list_elem_of_In%in_map_iff. apply filter_In in Hin as [Hin _]. exists r. split; [|done]. by apply p_cells_elem, list_elem_of_In.
    + rewrite Hkeys, Hvs. by apply keys_filter.
    + cbn [mbind outcome_bind]. exists t', (List.filter (fun r => negb (match_ r)) L), w', (zlen (map victim cs), None). split; [done|]. split; [|].
      * erewrite filter_ext_in'; [exact Ht'|]. intros r Hr. rewrite Hkeys, Hvs. symmetry. apply spared; [done|by rewrite Hperm].
      * exists (List.filter match_ (shard_rows t)), None. split; [done|]. split; [done|]. split; [done|]. rewrite <- Hvs. unfold zlen. by rewrite !length_map.
Qed.
(** ** Point reads *)
Lemma find_row_elem L r : NoDup (map pkof L) -> r ∈ L -> find_row def (pkof r) L = Some r.
Proof.
  intros Hk Hr. destruct (find_row def (pkof r) L) as [x|] eqn:E.
  - apply find_row_Some in E as [Hx Ex]. f_equal. by apply (keys_unique def L).
  - apply find_row_None in E. destruct E. by apply list_elem_of_In, in_map, list_elem_of_In.
Qed.
(** The row the shard holds at a place, when the row is the key's. *)
Lemma place_row t L pk loc s : part_ok t L -> pt_shards t !! loc_shard loc = Some s ->
  match p_rows s !! loc_rowID loc with
  | Some (Some r) => row_wf r /\ r ∈ L /\ (pkof r = pk -> find_row def pk L = Some r /\ pt_dir t !! pk = Some loc)
  | _ => pt_dir t !! pk <> Some loc
  end.
Proof.
  intros Ht Hs. destruct (p_rows s !! loc_rowID loc) as [[r|]|] eqn:Hn.
  - destruct (held_row def max ext t L _ s _ r Ht Hs Hn) as [Hr _]. pose proof (po_wf _ _ _ _ _ Ht) as Hw. rewrite list.Forall_forall in Hw.
    split; [by apply Hw|]. split; [done|]. intros <-. split; [apply find_row_elem; [apply Ht|done]|]. apply (po_dir _ _ _ _ _ Ht). by exists s, r.
  - intros (x & r & Hx & Hr & _)%(po_dir _ _ _ _ _ Ht). congruence.
  - intros (x & r & Hx & Hr & _)%(po_dir _ _ _ _ _ Ht). congruence.
Qed.
Section reads.
Context (seen : nat -> ptable * ptable) (D S : nat -> list Row).
(** What each attempt sees is a table that holds some rows. *)
Hypothesis seen_dir : forall n, part_ok (fst (seen n)) (D n).
Hypothesis seen_shard : forall n, part_ok (snd (seen n)) (S n).
Hypothesis seen_size : forall n, length (pt_shards (fst (seen n))) = length (pt_shards (snd (seen n))).
Definition sees (n : nat) (pk : UUID) : option Row := find_row def pk (S n).
(** Between the two locks of attempt [n], the key's row was moved or removed. *)
Definition raced (n : nat) (pk : UUID) : Prop := pt_dir (fst (seen n)) !! pk <> pt_dir (snd (seen n)) !! pk.
Lemma resolve_ok {A} (read : Row -> outcome A) pk : (forall r, row_wf r -> exists a, read r = Ok a) -> forall fuel n,
  match resolve def fuel n seen pk read with
  | Ok (Some a) => exists m r, (n <= m < n + fuel)%nat /\ sees m pk = Some r /\ read r = Ok a
  | Ok None => (exists m, (n <= m < n + fuel)%nat /\ find_row def pk (D m) = None) \/ (forall m, (n <= m < n + fuel)%nat -> raced m pk)
  | _ => False
  end.
Proof.
  intros Hread fuel. induction fuel as [|fuel IH]; intros n; cbn [resolve]; [right; lia|].
  pose proof (dir_row def max ext _ _ pk (seen_dir n)) as Hd. destruct (find_row def pk (D n)) as [r0|] eqn:Ef.
  2: { rewrite Hd. left. exists n. split; [lia|done]. }
  destruct Hd as (loc & s0 & Hd & Hs0 & _). rewrite Hd. destruct (lookup_lt_is_Some_2 (pt_shards (snd (seen n))) (loc_shard loc)) as [s Hs].
  { rewrite <- seen_size. by eapply lookup_lt_Some. }
  rewrite (index_at _ _ _ Hs). cbn [mbind outcome_bind].
  assert (Hretry : raced n pk -> match resolve def fuel (Datatypes.S n) seen pk read with
    | Ok (Some a) => exists m r, (n <= m < n + Datatypes.S fuel)%nat /\ sees m pk = Some r /\ read r = Ok a
    | Ok None => (exists m, (n <= m < n + Datatypes.S fuel)%nat /\ find_row def pk (D m) = None) \/ (forall m, (n <= m < n + Datatypes.S fuel)%nat -> raced m pk)
    | _ => False end).
  { intros Hr. specialize (IH (Datatypes.S n)). destruct (resolve def fuel (Datatypes.S n) seen pk read) as [[a|]| |]; try done.
    - destruct IH as (m & r & Hm & H1 & H2). exists m, r. split; [lia|done].
    - destruct IH as [(m & Hm & E)|Hall]; [left; exists m; split; [lia|done]|right]. intros m Hm. destruct (decide (m = n)) as [->|]; [done|]. apply Hall. lia. }
  pose proof (place_row _ _ pk loc s (seen_shard n) Hs) as Hp. destruct (p_rows s !! loc_rowID loc) as [[r|]|] eqn:Hn; [|apply Hretry; unfold raced; congruence..].
  destruct Hp as (Hw & Hr & Hk). destruct (index_col def r (pkOrd def) Hw pk_in) as (kv & -> & Ek). cbn [mbind outcome_bind].
  assert (E : v_UUID kv = pkof r) by (by rewrite Ek). rewrite E. destruct (bool_decide_reflect (pkof r = pk)) as [Epk|Epk].
  - destruct (Hread r Hw) as [a Ea]. rewrite Ea. cbn [mbind outcome_bind]. exists n, r. split; [lia|]. split; [by apply Hk|done].
  - apply Hretry. unfold raced. rewrite Hd. intros Eq. symmetry in Eq. apply (po_dir _ _ _ _ _ (seen_shard n)) in Eq as (x & y & Hx & Hy & Ey).
    rewrite Hs in Hx. injection Hx as <-. congruence.
Qed.
(** A point read never answers another key's row, and answers none only if the
    key was absent at one of its attempts, or its row moved under all eight. *)
Theorem partitioned_point_read pk :
  match getByPKPartitioned def seen pk with
  | Ok (Some r) => exists m, (m < pkRetryBudget)%nat /\ sees m pk = Some r
  | Ok None => (exists m, (m < pkRetryBudget)%nat /\ find_row def pk (D m) = None) \/ (forall m, (m < pkRetryBudget)%nat -> raced m pk)
  | _ => False
  end.
Proof.
  unfold getByPKPartitioned. pose proof (resolve_ok (fun r => Ok (Row_Clone r)) pk ltac:(by eexists) pkRetryBudget 0) as Hr.
  destruct (resolve def pkRetryBudget 0 seen pk _) as [[r|]| |]; try done.
  - destruct Hr as (m & x & Hm & Hs & [= <-]). exists m. split; [lia|]. destruct (find_row_Some def pk (S m) x Hs) as [Hx _].
    pose proof (po_wf _ _ _ _ _ (seen_shard m)) as Hw. rewrite list.Forall_forall in Hw. by rewrite Row_Clone_ok by apply (Hw x Hx).
  - destruct Hr as [(m & Hm & E)|Hall]; [left; exists m; split; [lia|done]|right]. intros m Hm. apply Hall. lia.
Qed.
End reads.
(** With no write in between, the read is the lookup. *)
Lemma point_read_still t L pk : part_ok t L -> getByPKPartitioned def (fun _ => (t, t)) pk = Ok (find_row def pk L).
Proof.
  intros Ht. pose proof (partitioned_point_read (fun _ => (t, t)) (fun _ => L) (fun _ => L) (fun _ => Ht) (fun _ => Ht) (fun _ => eq_refl) pk) as Hr.
  destruct (getByPKPartitioned def _ pk) as [[r|]| |]; try done.
  - destruct Hr as (m & _ & <-). done.
  - destruct Hr as [(m & _ & <-)|Hall]; [done|]. by destruct (Hall 0%nat); [unfold pkRetryBudget; lia|].
Qed.
(** ** Histories *)
(** A scan that keeps every row it is given. *)
Definition append_row (acc : list Row) (r : Row) : list Row * bool := (acc ++ [r], true).
Lemma visits_collect L : forall acc, visits append_row L acc = acc ++ L.
Proof. induction L as [|r L IH]; intros acc; cbn [visits append_row negb]; [by rewrite app_nil_r|]. by rewrite IH, <- app_assoc. Qed.
Definition run_part (t : ptable) (w : option J) (op : part_op) : outcome (ptable * option J * answer) :=
  match op with
  | PGet k => r ← getByPKPartitioned def (fun _ => (t, t)) k; Ok (t, w, ARow r)
  | PScan part desc => rs ← (if desc : bool then scanPartitionRev t part append_row [] else scanPartition t part append_row []); Ok (t, w, ARows rs)
  | PScanAll => Ok (t, w, ARows (p_scanAll t append_row []))
  | PInsert row j =>
      x ← insertPartitioned def max t w row j;
      let '(t, w, e) := x in Ok (t, w, ADone (b2n (bool_decide (e = None))) e)
  | PUpdate k ords compute j =>
      x ← updateByPKJournaledPartitioned def max t w k ords compute j;
      let '(t, w, (ok, e)) := x in Ok (t, w, ADone (b2n ok) e)
  | PDelete k j =>
      x ← deleteByPKJournaledPartitioned def max t w k j;
      let '(t, w, (ok, e)) := x in Ok (t, w, ADone (b2n ok) e)
  | PDeleteWhere match_ encode =>
      x ← deleteWhereAllPartitioned def max t w match_ encode;
      let '(t, w, (n, e)) := x in Ok (t, w, ADone n e)
  | PCompact i =>
      (* the sweeper ranges over the table's shards *)
      if (i <? length (pt_shards t))%nat then t ← p_compactIfDense def t i; Ok (t, w, ADone 0 None) else Ok (t, w, ADone 0 None)
  end.
Fixpoint run_parts (t : ptable) (w : option J) (ops : list part_op) : outcome (ptable * option J * list answer) :=
  match ops with
  | [] => Ok (t, w, [])
  | op :: ops =>
      x ← run_part t w op; let '(t, w, a) := x in
      y ← run_parts t w ops; let '(t, w, l) := y in Ok (t, w, a :: l)
  end.
(** What each operation promises on the list of rows in insertion order. *)
Inductive part_step (L : list Row) (w : option J) : part_op -> list Row -> option J -> answer -> Prop :=
  | ps_get k : part_step L w (PGet k) L w (ARow (find_row def k L))
  | ps_scan part : part_step L w (PScan part false) L w (ARows (of_part def part L))
  | ps_scan_rev part : part_step L w (PScan part true) L w (ARows (rev (of_part def part L)))
  | ps_scan_all rs : rs ≡ₚ L -> part_step L w PScanAll L w (ARows rs)
  | ps_insert row j L' w' e : sp_insert def max ext L w row j = (L', w', e) ->
      part_step L w (PInsert row j) L' w' (ADone (b2n (bool_decide (e = None))) e)
  | ps_update k ords compute j L' w' ok e : sp_update def L w k ords compute j = Ok (L', w', (ok, e)) ->
      part_step L w (PUpdate k ords compute j) L' w' (ADone (b2n ok) e)
  | ps_delete k j L' w' ok e : sp_delete def L w k j = (L', w', (ok, e)) -> part_step L w (PDelete k j) L' w' (ADone (b2n ok) e)
  | ps_delete_where match_ encode L' w' n e : sp_delete_where L w match_ encode L' w' (n, e) ->
      part_step L w (PDeleteWhere match_ encode) L' w' (ADone n e)
  | ps_compact i : part_step L w (PCompact i) L w (ADone 0 None).
Inductive part_steps : list Row -> option J -> list part_op -> list Row -> option J -> list answer -> Prop :=
  | pss_nil L w : part_steps L w [] L w []
  | pss_cons L w op L1 w1 a ops L2 w2 l : part_step L w op L1 w1 a -> part_steps L1 w1 ops L2 w2 l -> part_steps L w (op :: ops) L2 w2 (a :: l).
(** Validated rows; SET lists that avoid both keys and name no column twice;
    callbacks that do not panic on such rows. *)
Definition part_wf (op : part_op) : Prop :=
  match op with
  | PInsert row _ => row_wf row
  | PUpdate k ords compute j =>
      NoDup ords /\ ~ partOrd def ∈ ords /\ mj_wf def j /\ (forall r, row_wf r -> compute r <> Panic) /\
      forall r vals, row_wf r -> compute r = Ok vals -> args_wf def ords vals
  | _ => True
  end.
Lemma sp_update_total L w k ords compute j : Forall row_wf L -> part_wf (PUpdate k ords compute j) -> exists o, sp_update def L w k ords compute j = Ok o.
Proof.
  intros Hw (_ & _ & Hj & Hnp & Hc). unfold sp_update. destruct (find_row def k L) as [r|] eqn:Ef; [|by eexists].
  apply find_row_Some in Ef as [Hr _]. rewrite list.Forall_forall in Hw. specialize (Hw r Hr). destruct (compute r) as [vals|e|] eqn:Ec; [|by eexists|by destruct (Hnp r Hw)].
  destruct (mj_update_total def j w (assign r ords vals) Hj) as (w' & e & ->); [apply assign_wf; eauto|]. by eexists.
Qed.
Lemma part_sim t L w op : part_ok t L -> part_wf op ->
  exists t' L' w' a, run_part t w op = Ok (t', w', a) /\ part_step L w op L' w' a /\ part_ok t' L'.
Proof.
  intros Ht Hop. destruct op as [k|part desc| |row j|k ords compute j|k j|match_ encode|i]; cbn [run_part].
  - rewrite (point_read_still t L k Ht). eexists _, _, _, _. split; [done|]. split; [constructor|done].
  - destruct (scan_ok def max ext t L part append_row [] Ht) as [E1 E2]. destruct desc; rewrite ?E1, ?E2, visits_collect; cbn [mbind outcome_bind app];
      (eexists _, _, _, _; split; [done|]; split; [constructor|done]).
  - destruct (scan_all_ok t L append_row [] Ht) as (rs & Hp & ->). rewrite visits_collect. eexists _, _, _, _. split; [done|]. split; [by constructor|done].
  - pose proof (part_insert_ok def max ext pk_in part_in t L w row j Ht Hop) as Hi. destruct (sp_insert def max ext L w row j) as [[L' w'] e] eqn:E. destruct Hi as (t' & -> & Ht').
    eexists _, _, _, _. split; [done|]. split; [by constructor|done].
  - destruct (sp_update_total L w k ords compute j (po_wf _ _ _ _ _ Ht) Hop) as [[[L' w'] [ok e]] E]. destruct Hop as (Hnd & Hpo & _ & _ & Hc).
    destruct (part_update_ok def max ext pk_in part_in t L w k ords compute j _ Ht Hpo (fun _ => Hnd) Hc E) as (t' & -> & Ht').
    eexists _, _, _, _. split; [done|]. split; [by constructor|done].
  - pose proof (part_delete_ok def max ext pk_in part_in t L w k j Ht) as Hd. destruct (sp_delete def L w k j) as [[L' w'] [ok e]] eqn:E. destruct Hd as (t' & -> & Ht').
    eexists _, _, _, _. split; [done|]. split; [by constructor|done].
  - destruct (delete_where_ok t L w match_ encode Ht) as (t' & L' & w' & [n e] & -> & Ht' & Hs). eexists _, _, _, _. split; [done|]. split; [by constructor|done].
  - destruct (Nat.ltb_spec i (length (pt_shards t))) as [Hlt|_]; [|eexists _, _, _, _; split; [done|]; split; [constructor|done]].
    destruct (lookup_lt_is_Some_2 _ _ Hlt) as [s Hs]. destruct (part_compact_ok t L i s Ht Hs) as (t' & -> & Ht').
    eexists _, _, _, _. split; [done|]. split; [constructor|done].
Qed.
Lemma new_part_ok ncpu total : (max <> 0 -> total = ext) -> part_ok (newPartitioned ncpu total) [].
Proof.
  intros Htot. destruct (shardCount_pow def pk_in ncpu) as (p & Esc & Hp). unfold newPartitioned. rewrite Esc, Nat2Z.id.
  split; cbn; try (intros i s [-> _]%lookup_replicate); try apply tails_empty; try by constructor.
  - exists p. rewrite length_replicate. split; [done|lia].
  - intros pk loc. split; [by rewrite lookup_empty|]. by intros (s & r & [-> _]%lookup_replicate & ? & _).
  - intros Hm. rewrite Htot by done. lia.
Qed.
(** Every history of operations on a partitioned table is a history of the list
    of its rows: the directory, the row-id lists with their pruning, the routing
    and the compaction are invisible. *)
Theorem partition_refines_rows t L w ops : part_ok t L -> Forall part_wf ops ->
  exists t' L' w' l, run_parts t w ops = Ok (t', w', l) /\ part_steps L w ops L' w' l /\ part_ok t' L'.
Proof.
  intros Ht Hops. revert t L w Ht. induction Hops as [|op ops Hop Hops IH]; intros t L w Ht.
  - eexists _, _, _, _. split; [done|]. by split; [constructor|].
  - destruct (part_sim t L w op Ht Hop) as (t1 & L1 & w1 & a & E & Hs & Ht1). destruct (IH t1 L1 w1 Ht1) as (t2 & L2 & w2 & l & E2 & Hss & Ht2).
    cbn [run_parts]. rewrite E. cbn [mbind outcome_bind]. rewrite E2. cbn [mbind outcome_bind]. eexists _, _, _, _. split; [done|]. split; [by econstructor|done].
Qed.
End sim.

(** ** A run of a messages table *)
Definition msgs_def : TableDef :=
  MkTable (lit "msgs")
    [MkCol (lit "id") TypeUUID true false false false;
     MkCol (lit "room") TypeUUID false false true true;
     MkCol (lit "body") TypeString false false false false] [].
Definition msgs_rt : resolvedTable := match resolve_table msgs_def with Ok rt => rt | _ => MkResolved msgs_def ∅ 0 0 [] end.
Definition uid (n : Z) : UUID := uuid_of (replicate 16 (z2b n)).
Definition msg (id : Z) (part : Value) (body : string) : Row := [UUIDVal (uid id); part; Str (lit body)].
Definition msg_mj (id : Z) : mutJournal := MkMJ 1 [2%nat] 0 (UUIDVal (uid id)).
Definition in_room (n : Z) : Value := UUIDVal (uid n).
(** Two rooms; twenty messages come and go, so a list is pruned. *)
Definition churn : list part_op :=
  concat (map (fun n => [PInsert (msg (100 + Z.of_nat n) (in_room 7) "x") (msg_mj 100); PDelete (uid (100 + Z.of_nat n)) (msg_mj 100)]) (seq 0 20)).
Definition msgs_ops : list part_op :=
  PInsert (msg 1 (in_room 7) "a") (msg_mj 1) :: churn ++
  [PInsert (msg 2 (in_room 8) "b") (msg_mj 2);
   PInsert (msg 3 (in_room 7) "c") (msg_mj 3);
   PInsert (msg 3 (in_room 8) "twin") (msg_mj 3);
   PUpdate (uid 1) [2%nat] (fun _ => Ok [Str (lit "A")]) (msg_mj 1);
   PScan (uid 7) false;
   PCompact (pt_idx (newPartitioned 1 0) (uid 7));
   PScan (uid 7) true;
   PGet (uid 2);
   PDeleteWhere (fun r => bool_decide (r !! 1%nat = Some (in_room 7))) (fun v => encodeDeleteMutation [] 1 v);
   PScan (uid 7) false;
   PScanAll].
Definition msgs_run (ops : list part_op) : nat * list answer :=
  match run_parts msgs_rt 100000 (newPartitioned 1 0) (Some ([] : list (Z * bytes))) ops with
  | Ok (_, Some w, l) => (length w, l)
  | _ => (0%nat, [])
  end.
Example msgs_answers :
  (let '(n, l) := msgs_run msgs_ops in (n, drop 41 l)) =
  (45%nat, [ADone 1 None; ADone 1 None; ADone 0 (Some ErrDuplicatePK); ADone 1 None;
    ARows [msg 1 (in_room 7) "A"; msg 3 (in_room 7) "c"]; ADone 0 None;
    ARows [msg 3 (in_room 7) "c"; msg 1 (in_room 7) "A"]; ARow (Some (msg 2 (in_room 8) "b"));
    ADone 2 None; ARows []; ARows [msg 2 (in_room 8) "b"]]).
Proof. vm_compute. reflexivity. Qed.
Lemma msg_wf id r body : value_ok r -> zlen (lit body) < 2 ^ 63 -> row_wf msgs_rt (msg id r body).
Proof.
  intros. split; [done|]. unfold msg. apply Forall_cons_2; [apply ok_uuid|]. apply Forall_cons_2; [done|]. apply Forall_cons_2; [by apply ok_str|]. constructor.
Qed.
Lemma partition_refines_rows_witness :
  exists t' L' w' l, run_parts msgs_rt 100000 (newPartitioned 1 0) (Some ([] : list (Z * bytes))) msgs_ops = Ok (t', w', l) /\
    part_steps msgs_rt 100000 0 [] (Some []) msgs_ops L' w' l /\ part_ok msgs_rt 100000 0 t' L'.
Proof.
  apply partition_refines_rows; [vm_compute; lia|vm_compute; lia|apply new_part_ok; (done || vm_compute; lia)|].
  assert (Hu : forall n, value_ok (in_room n)) by (intros; apply ok_uuid).
  unfold msgs_ops. apply Forall_cons_2; [by apply msg_wf|]. apply Forall_app_2.
  - apply Forall_concat, Forall_map, Forall_forall. intros n _. repeat apply Forall_cons_2; [by apply msg_wf|done|constructor].
  - repeat apply Forall_cons_2; try constructor; try done; try (by apply msg_wf).
    + repeat constructor. by intros ?%not_elem_of_nil.
    + split; [vm_compute; intros ?%list_elem_of_singleton; done|]. split; [split; [vm_compute; lia|repeat constructor]|]. split; [done|].
      intros r vals _ [= <-]. split; [done|]. split; (apply Forall_cons_2; [|constructor]); [by apply ok_str|vm_compute; done].
Defined.

(** A NULL partition value and the zero UUID share a list. A nullable partition
    key is accepted, a NULL cell routes as the zero UUID, and a SELECT that pins
    the partition re-checks no row: it answers the NULL row, which its WHERE does
    not match. *)
Definition room_is_zero : expr := binOp tkEq (colRef [] (lit "room") 1) (paramRef 0).
Example null_partition_answers_zero :
  is_ok (resolve_table msgs_def) = true /\
  plan_select_path msgs_rt (Some room_is_zero) false (-1) false = Ok (with_part (paramRef 0)) /\
  msgs_run [PInsert (msg 1 Null "lost") (msg_mj 1); PScan zeroUUID false] = (1%nat, [ADone 1 None; ARows [msg 1 Null "lost"]]) /\
  rowMatcher (Some room_is_zero) ∅ [UUIDVal zeroUUID] (msg 1 Null "lost") = Ok false.
Proof. split_and!; vm_compute; reflexivity. Qed.
