(* ===== verification/Commit.v ===== *)
(** * Commit: the atomic commit of txn.go over one table without a partition key.

    It serves transactions and multi-row INSERTs. The shard locks it takes are
    held to the end, so it is one step of the table; [collectShards] is the lock
    list, and the theorems show the commit writes no other shard. *)
From S2P Require Import Prelude Bytes Uuid Value PkMap Codec Frame Journal Schema Catalog Store Ast Eval Plan PlanJoin.

Definition maxTxnMutations : Z := 1000.

Inductive stagedMut : Type :=
  | st_insert (pk : UUID) (row : Row)
  | st_update (pk : UUID) (pl : plan) (args : list Value)
  | st_delete (pk : UUID).
Definition st_pk (m : stagedMut) : UUID :=
  match m with st_insert pk _ | st_update pk _ _ | st_delete pk => pk end.

Inductive txAct : Type :=
  | act_insert (pk : UUID) (row : Row) (cost : Z)
  | act_update (pk : UUID) (row : Row) (ords : list nat) (cost : Z)
  | act_delete (pk : UUID) (cost : Z).

(** The SET right-hand sides on a row, each checked against its column. *)
Fixpoint eval_sets (sets : list setAssign) (ords : list nat) (cols : list ColumnDef) (ctx : evalCtx) : outcome (list Value) :=
  match sets with
  | [] => Ok []
  | a :: sets =>
      v ← evalExpr (Some (set_val a)) ctx;
      match ords with
      | [] => Panic
      | o :: ords =>
          col ← index cols o;
          _ ← validateValue col v;
          vs ← eval_sets sets ords cols ctx;
          Ok (v :: vs)
      end
  end.
Definition computeSets (pl : plan) (args : list Value) (row : Row) : outcome (list Value) :=
  match pl_st pl, pl_rt pl with
  | SUpdate _ sets _, Some rt =>
      eval_sets sets (pl_updateOrdinals pl) (t_Columns (rt_def (table rt))) (MkCtx row (rt_colByName (table rt)) args)
  | _, _ => Panic
  end.

Section commit.
Context (pkHashSeed : Z) {J : Type} `{Journal J} (def : resolvedTable) (max : Z) (tid : Z).

(** ** Lock-free bodies *)
Definition txGetLocked (t : tbl_state) (pk : UUID) : outcome (option Row) :=
  s ← index (t_shards t) (idx t pk);
  g ← lift (pk_get pkHashSeed (s_pk s) pk);
  let '(rowID, ok) := g in
  if negb ok then Ok None else index (s_rows s) (Z.to_nat rowID).
Definition txInsertLocked (t : tbl_state) (row : Row) (cost : Z) : outcome tbl_state :=
  pkv ← index row (pkOrd def);
  let pk := v_UUID pkv in
  let i := idx t pk in
  s ← index (t_shards t) i;
  let '(s, rowID) := addRowLocked s row cost in
  m ← lift (pk_put pkHashSeed (s_pk s) pk rowID);
  Ok (markDirtyLocked def t i (set_pk s m) pk).
Definition txReplaceLocked (t : tbl_state) (pk : UUID) (nr : Row) (cost : Z) (touch : bool) : outcome tbl_state :=
  let i := idx t pk in
  s ← index (t_shards t) i;
  g ← lift (pk_get pkHashSeed (s_pk s) pk);
  _ ← index (s_rows s) (Z.to_nat (fst g));
  let s := add_bytes (set_row s (Z.to_nat (fst g)) (Some nr)) cost in
  Ok (if touch then markDirtyLocked def t i s pk else put_shard t i s).
Definition txDeleteLocked (t : tbl_state) (pk : UUID) (cost : Z) : outcome tbl_state :=
  let i := idx t pk in
  s ← index (t_shards t) i;
  d ← lift (pk_del pkHashSeed (s_pk s) pk);
  let '(m, rowID, _) := d in
  _ ← index (s_rows s) (Z.to_nat rowID);
  Ok (markDelDirtyLocked def t i
        (MkShard (<[Z.to_nat rowID := None]> (s_rows s)) m (s_live s - 1) (s_bytes s + cost) (s_dirtyRead s) (s_dirtyDel s)) pk).

(** ** The shards to lock, each once, ascending *)
Fixpoint insert_shard (v : nat) (out : list nat) : list nat :=
  match out with
  | [] => [v]
  | x :: out => if (v <? x)%nat then v :: x :: out else x :: insert_shard v out
  end.
Definition collectShards (t : tbl_state) (staged : list stagedMut) : list nat :=
  fold_left (fun out v => insert_shard v out)
    (fold_left (fun out m => let i := idx t (st_pk m) in
                 if existsb (fun x => (x =? i)%nat) out then out else out ++ [i]) staged []) [].

(** ** The walk

    [overlay]: the row an earlier statement left, or none where it deleted it.
    Without one ([skipDup]) a write to it is a write to a nil map. *)
Definition present (t : tbl_state) (overlay : option (gmap UUID (option Row))) (pk : UUID) : outcome (option Row) :=
  match overlay with
  | Some o => match o !! pk with Some r => Ok r | None => txGetLocked t pk end
  | None => txGetLocked t pk
  end.
Definition overlay_put (overlay : option (gmap UUID (option Row))) (pk : UUID) (r : option Row) : outcome (option (gmap UUID (option Row))) :=
  match overlay with Some o => Ok (Some (<[pk := r]> o)) | None => Panic end.
Fixpoint commit_walk (t : tbl_state) (skipDup : bool) (staged : list stagedMut) (overlay : option (gmap UUID (option Row)))
  : outcome (list txAct * Z) :=
  match staged with
  | [] => Ok ([], 0)
  | st_insert pk row :: staged =>
      overlay ← (if negb skipDup then
                   r ← present t overlay pk;
                   match r with Some _ => Err ErrDuplicatePK | None => overlay_put overlay pk (Some row) end
                 else Ok overlay);
      let cost := rowCost row (nIndexes def) in
      x ← commit_walk t skipDup staged overlay;
      Ok (act_insert pk row cost :: fst x, cost + snd x)
  | st_update pk pl args :: staged =>
      cur ← present t overlay pk;
      match cur with
      | None => commit_walk t skipDup staged overlay
      | Some cur =>
          let nr := Row_Clone cur in
          vals ← computeSets pl args nr;
          nr ← set_cells nr (pl_updateOrdinals pl) vals;
          overlay ← overlay_put overlay pk (Some nr);
          let cost := rowCost nr (nIndexes def) - rowCost cur (nIndexes def) in
          x ← commit_walk t skipDup staged overlay;
          Ok (act_update pk nr (pl_updateOrdinals pl) cost :: fst x, cost + snd x)
      end
  | st_delete pk :: staged =>
      cur ← present t overlay pk;
      match cur with
      | None => commit_walk t skipDup staged overlay
      | Some cur =>
          overlay ← overlay_put overlay pk None;
          let cost := - rowCost cur (nIndexes def) in
          x ← commit_walk t skipDup staged overlay;
          Ok (act_delete pk cost :: fst x, cost + snd x)
      end
  end.

(** ** The envelope, encoded in place *)
Definition encode_act (buf : bytes) (a : txAct) : outcome bytes :=
  match a with
  | act_insert _ row _ => Ok (encodeInsertMutation buf tid row)
  | act_update _ row ords _ => pk ← index row (pkOrd def); encodeUpdateMutation buf tid pk ords row
  | act_delete pk _ => Ok (encodeDeleteMutation buf tid (UUIDVal pk))
  end.
Definition putU32LE (buf : bytes) (at_ : nat) (v : Z) : bytes := take at_ buf ++ le_put 4 v ++ drop (at_ + 4) buf.
Fixpoint encode_acts (buf : bytes) (acts : list txAct) : outcome bytes :=
  match acts with
  | [] => Ok buf
  | a :: acts =>
      let lenAt := length buf in
      buf ← encode_act (appendU32LE buf 0) a;
      encode_acts (putU32LE buf lenAt (u32 (zlen buf - Z.of_nat lenAt - 4))) acts
  end.

(** ** Applying *)
Definition apply_act (t : tbl_state) (a : txAct) : outcome tbl_state :=
  match a with
  | act_insert _ row cost => txInsertLocked t row cost
  | act_update pk row ords cost => txReplaceLocked t pk row cost (updateTouchesIndex def ords)
  | act_delete pk cost => txDeleteLocked t pk cost
  end.
Fixpoint apply_acts (t : tbl_state) (acts : list txAct) : outcome tbl_state :=
  match acts with
  | [] => Ok t
  | a :: acts => t ← apply_act t a; apply_acts t acts
  end.

(** The effects of the walk, from the budget to the store. *)
Definition commit_acts (t : tbl_state) (w : option J) (acts : list txAct) (byteDelta : Z)
  : outcome (tbl_state * option J * option error) :=
  let '(total, ok) := if byteDelta >? 0 then budget_reserve max (t_total t) byteDelta else (t_total t, true) in
  let t := set_total t total in
  if negb ok then Ok (t, w, Some ErrCapacity)
  else
    je ← match w with
         | None => Ok (w, None)
         | Some _ =>
             buf ← encode_acts (appendU16LE [] (u16 (zlen acts))) acts;
             Ok (jwrite_opt w recTxn buf)
         end;
    let '(w, werr) := je in
    match werr with
    | Some e => Ok (if byteDelta >? 0 then set_total t (budget_release max (t_total t) byteDelta) else t, w, Some e)
    | None =>
        let t := if byteDelta <? 0 then set_total t (budget_release max (t_total t) (- byteDelta)) else t in
        t ← apply_acts t acts;
        Ok (t, w, None)
    end.

(** [live]: the staged table is still the one registered under its id. *)
Definition commit (closed live : bool) (t : tbl_state) (w : option J) (staged : list stagedMut) (skipDup : bool)
  : outcome (tbl_state * option J * option error) :=
  if (length staged =? 0)%nat then Ok (t, w, None)
  else if zlen staged >? maxTxnMutations then Ok (t, w, Some ErrBatchTooLarge)
  else if closed then Ok (t, w, Some ErrClosed)
  else if negb live then Ok (t, w, Some ErrTxConflict)
  else
    match commit_walk t skipDup staged (if skipDup then None else Some ∅) with
    | Err e => Ok (t, w, Some e)
    | Panic => Panic
    | Ok (acts, byteDelta) =>
        if (length acts =? 0)%nat then Ok (t, w, None)
        else commit_acts t w acts byteDelta
    end.
End commit.

(** The registry check of a commit: tables are compared by identity, and an id
    never names a second table. *)
Definition still_registered (cat : catalog) (rt : tableRT) : bool :=
  match byID cat !! Z.to_nat (tableID rt) with
  | Some (Some r) => tableID r =? tableID rt
  | _ => false
  end.
