(* ===== verification/CommitOk.v ===== *)
(** * CommitOk: a commit applies its staged statements to the map of the table,
    all of them or none, and journals them in one record. *)
From S2P Require Import Prelude Bytes Order Uuid Value PkMap Codec Frame Journal Schema Catalog Store StoreOk StoreSim Ast Eval Plan PlanJoin PlanJoinOk Recovery Replayer RecoveryOk Commit.

(** ** The envelope written in place is the encoder's *)
Lemma putU32LE_at (p q body : bytes) v : length q = 4%nat -> putU32LE (p ++ q ++ body) (length p) v = p ++ le_put 4 v ++ body.
Proof.
  intros Hq. unfold putU32LE. rewrite take_app_length. do 2 f_equal.
  rewrite app_assoc. apply drop_app_length'. rewrite length_app. lia.
Qed.

Section commit.
Context (pkHashSeed : Z) {J : Type} `{Journal J} (def : resolvedTable) (max : Z) (tid : Z).
Local Abbreviation pkof := (pkof def).
Local Abbreviation row_wf := (row_wf def).
Local Abbreviation cost_of := (cost_of def).
Local Abbreviation map_cost := (map_cost def).
Local Abbreviation encode_act := (encode_act def tid).
Hypothesis pk_in : (pkOrd def < length (t_Columns (rt_def def)))%nat.

Lemma encode_act_buf buf a b : encode_act [] a = Ok b -> encode_act buf a = Ok (buf ++ b).
Proof.
  assert (Hs : forall ords row p q, encode_sets p ords row = Ok q -> forall buf, encode_sets (buf ++ p) ords row = Ok (buf ++ q)).
  { induction ords as [|o ords IH]; intros row p q E bf; cbn [encode_sets] in *; [by injection E as <-|].
    apply bind_Ok in E as (v & -> & E). cbn [mbind outcome_bind]. rewrite encodeCell_buf in E |- *.
    unfold appendU16LE in *. rewrite <- !app_assoc in *. by apply IH. }
  destruct a as [pk row c|pk row ords c|pk c]; cbn [Commit.encode_act].
  - intros [= <-]. unfold encodeInsertMutation, appendU16LE. rewrite !encodeRow_cells. by rewrite <- !app_assoc.
  - destruct (index row (pkOrd def)) as [pkv| |]; [|done..]. cbn [mbind outcome_bind]. unfold encodeUpdateMutation.
    intros E. rewrite (encodeCell_buf (appendU16LE (buf ++ _) _)). rewrite (encodeCell_buf (appendU16LE ([] ++ _) _)) in E.
    unfold appendU16LE in *. rewrite <- !app_assoc in *. cbn [app] in *. by apply Hs.
  - intros [= <-]. unfold encodeDeleteMutation. rewrite (encodeCell_buf (appendU16LE (buf ++ _) _)), (encodeCell_buf (appendU16LE ([] ++ _) _)).
    unfold appendU16LE. by rewrite <- !app_assoc.
Qed.
Lemma encode_acts_txn acts bodies : Forall2 (fun a b => encode_act [] a = Ok b) acts bodies ->
  forall buf, encode_acts def tid buf acts = Ok (buf ++ txn_bytes bodies).
Proof.
  induction 1 as [|a b acts bodies E Es IH]; intros buf; cbn [encode_acts txn_bytes]; [by rewrite app_nil_r|].
  unfold appendU32LE. rewrite (encode_act_buf _ _ _ E). cbn [mbind outcome_bind]. rewrite <- app_assoc, putU32LE_at by done.
  rewrite !zlen_app. change (zlen (le_put 4 0)) with 4. replace (zlen buf + (4 + zlen b) - Z.of_nat (length buf) - 4) with (zlen b) by (unfold zlen; lia).
  rewrite IH. by rewrite <- !app_assoc.
Qed.

(** ** What the staged statements mean *)
Definition tx_step (g : gmap UUID Row) (m : stagedMut) : outcome (gmap UUID Row * list bytes) :=
  match m with
  | st_insert pk row =>
      match g !! pk with Some _ => Err ErrDuplicatePK | None => Ok (<[pk := row]> g, [encodeInsertMutation [] tid row]) end
  | st_update pk pl args =>
      match g !! pk with
      | None => Ok (g, [])
      | Some r =>
          vals ← computeSets pl args r;
          let nr := assign r (pl_updateOrdinals pl) vals in
          b ← encodeUpdateMutation [] tid (pk_cell def nr) (pl_updateOrdinals pl) nr;
          Ok (<[pk := nr]> g, [b])
      end
  | st_delete pk =>
      match g !! pk with None => Ok (g, []) | Some _ => Ok (delete pk g, [encodeDeleteMutation [] tid (UUIDVal pk)]) end
  end.
Fixpoint tx_run (g : gmap UUID Row) (ms : list stagedMut) : outcome (gmap UUID Row * list bytes) :=
  match ms with
  | [] => Ok (g, [])
  | m :: ms => x ← tx_step g m; y ← tx_run (fst x) ms; Ok (fst y, snd x ++ snd y)
  end.
(** The result of a commit on the map, given what other tables hold. *)
Definition commit_spec (ext : Z) (closed live : bool) (g : gmap UUID Row) (w : option J) (ms : list stagedMut)
  : outcome (gmap UUID Row * option J * option error) :=
  if (length ms =? 0)%nat then Ok (g, w, None)
  else if zlen ms >? maxTxnMutations then Ok (g, w, Some ErrBatchTooLarge)
  else if closed then Ok (g, w, Some ErrClosed)
  else if negb live then Ok (g, w, Some ErrTxConflict)
  else match tx_run g ms with
  | Err e => Ok (g, w, Some e)
  | Panic => Panic
  | Ok (g', bodies) =>
      if (length bodies =? 0)%nat then Ok (g, w, None)
      else if negb (max =? 0) && (map_cost g' >? map_cost g) && (ext + map_cost g' >? max) then Ok (g, w, Some ErrCapacity)
      else match jwrite_opt w recTxn (encodeTxn [] bodies) with
           | (w', Some e) => Ok (g, w', Some e)
           | (w', None) => Ok (g', w', None)
           end
  end.

(** What staging guarantees of a statement. *)
Definition staged_wf (m : stagedMut) : Prop :=
  match m with
  | st_insert pk row => row_wf row /\ pk = pkof row
  | st_update _ pl args => forall r, row_wf r -> safe (args_wf def (pl_updateOrdinals pl)) (computeSets pl args r)
  | st_delete _ => True
  end.

(** The effects as a run over the map. *)
Inductive acts_run : gmap UUID Row -> list txAct -> gmap UUID Row -> Prop :=
  | ar_nil g : acts_run g [] g
  | ar_insert g pk row acts g' : g !! pk = None -> row_wf row -> pk = pkof row -> acts_run (<[pk := row]> g) acts g' ->
      acts_run g (act_insert pk row (cost_of row) :: acts) g'
  | ar_update g pk r nr ords acts g' : g !! pk = Some r -> row_wf nr -> pkof nr = pk -> agree_off ords r nr ->
      acts_run (<[pk := nr]> g) acts g' -> acts_run g (act_update pk nr ords (cost_of nr - cost_of r) :: acts) g'
  | ar_delete g pk r acts g' : g !! pk = Some r -> acts_run (delete pk g) acts g' ->
      acts_run g (act_delete pk (- cost_of r) :: acts) g'.

(** ** Applying the effects *)
Section apply.
Context (tr : option (track def)).
Local Abbreviation tbl_ok := (tbl_ok pkHashSeed def max tr).

Lemma set_total_ok ext d t g : tbl_ok ext t g -> forall total, (max <> 0 -> total = t_total t + d) -> tbl_ok (ext + d) (set_total t total) g.
Proof. intros [H1 H2 H3 H4 H5 H6 H7] total Ht. split; try done. intros Hm. cbn. rewrite Ht, H3 by done. lia. Qed.
Lemma shift_total ext d t g : tbl_ok ext t g -> tbl_ok (ext + d) (set_total t (t_total t + d)) g.
Proof. intros Ht. by eapply set_total_ok. Qed.
Lemma set_total_back t z : set_total (set_total t z) (t_total t) = t.
Proof. by destruct t. Qed.

Lemma get_locked ext t g pk : tbl_ok ext t g -> txGetLocked pkHashSeed t pk = Ok (g !! pk).
Proof.
  intros Ht. unfold txGetLocked. destruct (lookup_row pkHashSeed def max tr ext t g pk Ht) as (s & Hs & G).
  rewrite (index_Some _ _ _ Hs). cbn [mbind outcome_bind]. destruct (g !! pk) as [r|].
  - destruct G as (n & E & Hn & _). rewrite (lift_Some _ _ E). cbn. by rewrite Nat2Z.id, (index_Some _ _ _ Hn).
  - by rewrite (lift_Some _ _ G).
Qed.
Lemma apply_insert ext t g row n : tbl_ok ext t g -> room (S n) t -> row_wf row -> g !! pkof row = None ->
  exists t', txInsertLocked pkHashSeed def t row (cost_of row) = Ok t' /\ room n t' /\
    tbl_ok (ext - cost_of row) t' (<[pkof row := row]> g).
Proof.
  intros Ht Hr Hrow Hk. unfold txInsertLocked. destruct (index_pk def row Hrow pk_in) as (v & -> & Ev). cbn [mbind outcome_bind]. rewrite Ev.
  destruct (tbl_shard pkHashSeed def max tr ext t g (pkof row) Ht) as (s & Hs & Hsh & Hg).
  rewrite (index_Some _ _ _ Hs). cbn [mbind outcome_bind addRowLocked s_pk].
  pose proof (Forall_lookup_1 _ _ _ _ Hr Hs) as Hsz. cbv beta in Hsz.
  destruct (sh_reserve pkHashSeed def s _ row Hsh Hrow ltac:(lia)) as (pk' & q & E & _ & Hins). rewrite Hg, Hk in E, Hins.
  rewrite bool_decide_eq_false_2 in E by (by intros [? [=]]).
  unfold pk_put. rewrite E. cbn. eexists. split; [done|].
  pose proof (shift_total ext (- cost_of row) t g Ht) as Ht0.
  pose proof (insert_applied pkHashSeed def max tr (ext + - cost_of row) pk_in true _ g row s pk' q (t_total t) n Ht0 Hr Hs Hk) as I.
  cbv zeta in I. destruct I as [I1 I2]; [by apply Hins|cbn; lia|by right|]. rewrite set_total_back in I1, I2. replace (ext - cost_of row) with (ext + - cost_of row) by lia. by split.
Qed.
Lemma apply_replace ext t g pk r nr ords n : tbl_ok ext t g -> room n t -> g !! pk = Some r -> row_wf nr -> pkof nr = pk ->
  agree_off ords r nr ->
  exists t', txReplaceLocked pkHashSeed def t pk nr (cost_of nr - cost_of r) (updateTouchesIndex def ords) = Ok t' /\ room n t' /\
    tbl_ok (ext - (cost_of nr - cost_of r)) t' (<[pk := nr]> g).
Proof.
  intros Ht Hr Hk Hnr Hpk Ha. unfold txReplaceLocked. destruct (lookup_row pkHashSeed def max tr ext t g pk Ht) as (s & Hs & G).
  rewrite Hk in G. destruct G as (m & E & Hm & Hpr & _). rewrite (index_Some _ _ _ Hs). cbn [mbind outcome_bind].
  rewrite (lift_Some _ _ E). cbn [mbind outcome_bind fst]. rewrite Nat2Z.id, (index_Some _ _ _ Hm). cbn [mbind outcome_bind].
  eexists. split; [done|]. set (s1 := add_bytes (set_row s m (Some nr)) (cost_of nr - cost_of r)).
  destruct (tbl_shard pkHashSeed def max tr ext t g pk Ht) as (s0 & Hs0 & Hsh & Hg). rewrite Hs in Hs0. injection Hs0 as <-.
  pose proof (shift_total ext (- (cost_of nr - cost_of r)) t g Ht) as Ht0.
  set (t0 := set_total t (t_total t + - (cost_of nr - cost_of r))) in *.
  assert (Hp : puts t0 (idx t pk) s1 (t_total t) (if updateTouchesIndex def ords then marks def pk else []) []
    (if updateTouchesIndex def ords then markDirtyLocked def t (idx t pk) s1 pk else put_shard t (idx t pk) s1)).
  { apply puts_if; [exact (puts_mark def t (idx t pk) s1 pk)|exact (puts_put t (idx t pk) s1)]. }
  split.
  - eapply (room_put def); [exact (Hr : room n t0)|exact Hp|exact Hs| |lia]. unfold s1. cbn [s_rows add_bytes set_row]. unfold zlen. rewrite length_insert. lia.
  - replace (ext - (cost_of nr - cost_of r)) with (ext + - (cost_of nr - cost_of r)) by lia.
    eapply tbl_replace; [exact Ht0|exact Hk|exact Hp|by eapply stands_of| | |cbn; lia].
    + unfold s1. pose proof (sh_replace pkHashSeed def s _ m r nr Hsh Hm ltac:(congruence) Hnr) as S. by rewrite Hpr in S.
    + intros tk Etr. destruct (agree_key def tk ords r nr Ha) as [->|]; [right; by eapply marks_in|by left].
Qed.
Lemma apply_remove ext t g pk r n : tbl_ok ext t g -> room n t -> g !! pk = Some r ->
  exists t', txDeleteLocked pkHashSeed def t pk (- cost_of r) = Ok t' /\ room n t' /\ tbl_ok (ext - (- cost_of r)) t' (delete pk g).
Proof.
  intros Ht Hr Hk. unfold txDeleteLocked. destruct (tbl_shard pkHashSeed def max tr ext t g pk Ht) as (s & Hs & Hsh & Hg).
  rewrite (index_Some _ _ _ Hs). cbn [mbind outcome_bind]. pose proof (sh_get pkHashSeed def s _ pk Hsh) as F. rewrite Hg, Hk in F.
  destruct F as (m & _ & Hm & Epk). destruct (sh_del pkHashSeed def s _ m r Hsh Hm) as (pk' & Hd & Hsh'). rewrite Epk in Hd, Hsh'.
  rewrite (lift_Some _ _ Hd). cbn [mbind outcome_bind]. rewrite Nat2Z.id, (index_Some _ _ _ Hm). cbn [mbind outcome_bind].
  eexists. split; [done|]. set (s1 := MkShard _ _ _ _ _ _).
  pose proof (shift_total ext (cost_of r) t g Ht) as Ht0. set (t0 := set_total t (t_total t + cost_of r)) in *.
  assert (Hp : puts t0 (idx t pk) s1 (t_total t) [] (marks def pk) (markDelDirtyLocked def t (idx t pk) s1 pk))
    by exact (puts_markdel def t (idx t pk) s1 pk).
  replace (ext - - cost_of r) with (ext + cost_of r) by lia. split.
  - eapply (room_put def); [exact (Hr : room n t0)|exact Hp|exact Hs| |lia]. unfold s1. cbn [s_rows]. unfold zlen. rewrite length_insert. lia.
  - eapply tbl_delete; [exact Ht0|exact Hk|exact Hp|by eapply stands_of| |intros tk Etr; by eapply marks_in|cbn; lia].
    unfold s1. replace (s_bytes s + - cost_of r) with (s_bytes s - cost_of r) by lia. exact Hsh'.
Qed.
Lemma apply_acts_ok g acts g' : acts_run g acts g' -> forall ext t n, tbl_ok ext t g -> room (length acts + n) t ->
  exists t', apply_acts pkHashSeed def t acts = Ok t' /\ room n t' /\ tbl_ok (ext - (map_cost g' - map_cost g)) t' g'.
Proof.
  induction 1 as [g|g pk row acts g' Hk Hrow -> _ IH|g pk r nr ords acts g' Hk Hnr Hpk Ha _ IH|g pk r acts g' Hk _ IH];
    intros ext t n Ht Hr; cbn [apply_acts length Nat.add apply_act] in *.
  - exists t. split; [done|]. split; [done|]. by rewrite Z.sub_diag, Z.sub_0_r.
  - destruct (apply_insert ext t g row (length acts + n) Ht Hr Hrow Hk) as (t1 & -> & Hr1 & Ht1). cbn [mbind outcome_bind].
    destruct (IH _ t1 n Ht1 Hr1) as (t2 & -> & Hr2 & Ht2). exists t2. split; [done|]. split; [done|].
    rewrite map_cost_insert in Ht2 by done. by replace (ext - (map_cost g' - map_cost g)) with (ext - cost_of row - (map_cost g' - (map_cost g + cost_of row))) by lia.
  - destruct (apply_replace ext t g pk r nr ords (length acts + n) Ht) as (t1 & -> & Hr1 & Ht1); [eapply Forall_impl; [|exact Hr]; cbv beta; lia|done..|]. cbn [mbind outcome_bind].
    destruct (IH _ t1 n Ht1 Hr1) as (t2 & -> & Hr2 & Ht2). exists t2. split; [done|]. split; [done|].
    rewrite (map_cost_replace def _ _ _ _ Hk) in Ht2.
    match type of Ht2 with StoreOk.tbl_ok _ _ _ _ ?e _ _ => by replace (ext - (map_cost g' - map_cost g)) with e by lia end.
  - destruct (apply_remove ext t g pk r (length acts + n) Ht) as (t1 & -> & Hr1 & Ht1); [eapply Forall_impl; [|exact Hr]; cbv beta; lia|done..|]. cbn [mbind outcome_bind].
    destruct (IH _ t1 n Ht1 Hr1) as (t2 & -> & Hr2 & Ht2). exists t2. split; [done|]. split; [done|].
    rewrite (map_cost_delete def _ _ _ Hk) in Ht2.
    match type of Ht2 with StoreOk.tbl_ok _ _ _ _ ?e _ _ => by replace (ext - (map_cost g' - map_cost g)) with e by lia end.
Qed.
End apply.

(** ** The walk *)
Definition good (g : gmap UUID Row) : Prop := map_Forall (fun k r => row_wf r /\ pkof r = k) g.
Lemma tbl_good tr ext t g : tbl_ok pkHashSeed def max tr ext t g -> good g.
Proof.
  intros Ht k r Hk. destruct (lookup_row pkHashSeed def max tr ext t g k Ht) as (s & _ & G). rewrite Hk in G.
  by destruct G as (_ & _ & _ & E & Hr).
Qed.
Lemma encode_update_total ords vals nr : args_wf def ords vals -> row_wf nr ->
  exists b, encodeUpdateMutation [] tid (pk_cell def nr) ords nr = Ok b /\ index nr (pkOrd def) = Ok (pk_cell def nr).
Proof.
  intros (_ & _ & Ho) [Hl _]. unfold encodeUpdateMutation.
  destruct (encode_sets_total (appendU16LE (encodeCell (appendU16LE ([] ++ [z2b opUpdate]) tid) (pk_cell def nr)) (u16 (zlen ords))) ords nr) as (b & E).
  { eapply Forall_impl; [|exact Ho]. cbv beta. intros o [Hlt _]. by rewrite Hl. }
  exists b. split; [exact E|]. destruct (index_lt nr (pkOrd def)) as (v & E' & Ev); [by rewrite Hl|]. unfold pk_cell. by rewrite Ev.
Qed.
Definition view (g0 : gmap UUID Row) (o : gmap UUID (option Row)) (g : gmap UUID Row) : Prop :=
  forall pk, g !! pk = match o !! pk with Some r => r | None => g0 !! pk end.
Lemma view_put g0 o g pk r g' : view g0 o g -> g' !! pk = r -> (forall k, k <> pk -> g' !! k = g !! k) -> view g0 (<[pk := r]> o) g'.
Proof.
  intros Hv Hr Hk k. destruct (decide (k = pk)) as [->|Hne]; [by rewrite lookup_insert_eq|]. rewrite lookup_insert_ne by done. by rewrite Hk, Hv.
Qed.
Definition walked (g : gmap UUID Row) (o : outcome (gmap UUID Row * list bytes)) (walk : outcome (list txAct * Z)) : Prop :=
  match o with
  | Ok (g', bodies) => exists acts, walk = Ok (acts, map_cost g' - map_cost g) /\ acts_run g acts g' /\
      Forall2 (fun a b => encode_act [] a = Ok b) acts bodies
  | Err e => walk = Err e
  | Panic => False
  end.
Lemma walked_skip g o w : walked g o w -> walked g (y ← o; Ok (fst y, [] ++ snd y)) w.
Proof. by destruct o as [[g' bs]| |]. Qed.
Lemma walked_cons g g1 a b c o w : walked g1 o w -> map_cost g1 = map_cost g + c -> encode_act [] a = Ok b ->
  (forall acts g', acts_run g1 acts g' -> acts_run g (a :: acts) g') ->
  walked g (y ← o; Ok (fst y, [b] ++ snd y)) (x ← w; Ok (a :: fst x, c + snd x)).
Proof.
  intros Hw Hc Hb Hr. destruct o as [[g' bs]| |]; cbn in *; [|by rewrite Hw|done]. destruct Hw as (acts & -> & Ha & Hf). cbn.
  exists (a :: acts). split; [|split; [by apply Hr|by constructor]]. do 2 f_equal. lia.
Qed.
Section walk.
Context (tr : option (track def)) (ext : Z) (t : tbl_state) (g0 : gmap UUID Row).
Hypothesis Ht : tbl_ok pkHashSeed def max tr ext t g0.
Lemma present_ok o g pk : view g0 o g -> present pkHashSeed t (Some o) pk = Ok (g !! pk).
Proof. intros Hv. unfold present. rewrite Hv. destruct (o !! pk); [done|]. by eapply get_locked. Qed.
Lemma walk_ok ms : Forall staged_wf ms -> forall g o, good g -> view g0 o g ->
  walked g (tx_run g ms) (commit_walk pkHashSeed def t false ms (Some o)).
Proof.
  induction 1 as [|m ms Hm _ IH]; intros g o Hg Hv; cbn [tx_run commit_walk].
  { exists []. rewrite Z.sub_diag. repeat constructor. }
  destruct m as [pk row|pk pl args|pk]; cbn [tx_step commit_walk negb staged_wf] in *; rewrite (present_ok o g pk Hv); cbn [mbind outcome_bind].
  - destruct (g !! pk) as [r|] eqn:Hk; [done|]. cbn. destruct Hm as [Hrow ->].
    eapply walked_cons; [apply IH| | |].
    + by apply map_Forall_insert_2.
    + eapply view_put; [done|by rewrite lookup_insert_eq|intros; by rewrite lookup_insert_ne].
    + by apply map_cost_insert.
    + done.
    + intros acts g' Ha. by apply ar_insert.
  - destruct (g !! pk) as [r|] eqn:Hk; [|by apply walked_skip, IH]. destruct (Hg _ _ Hk) as [Hr Hpk].
    rewrite Row_Clone_ok by apply Hr. specialize (Hm r Hr). destruct (computeSets pl args r) as [vals| |]; [|done..]. cbn in Hm |- *.
    pose proof (assign_wf def r _ _ Hr Hm) as Hnr. set (nr := assign r (pl_updateOrdinals pl) vals) in *.
    rewrite (set_cells_assign def) by (try apply Hr; done). cbn. fold nr.
    destruct (encode_update_total _ _ nr Hm Hnr) as (b & Eb & Epk). rewrite Eb. cbn.
    eapply walked_cons; [apply IH| | |].
    + apply map_Forall_insert_2; [|done]. split; [done|]. unfold nr. by rewrite (assign_pk def _ _ _ Hm).
    + eapply view_put; [done|by rewrite lookup_insert_eq|intros; by rewrite lookup_insert_ne].
    + rewrite (map_cost_replace def _ _ _ _ Hk). unfold StoreOk.cost_of. lia.
    + cbn. by rewrite Epk.
    + intros acts g' Ha. apply ar_update; try done.
      * unfold nr. rewrite (assign_pk def _ _ _ Hm). done.
      * intros o' Ho'. by apply assign_notin.
  - destruct (g !! pk) as [r|] eqn:Hk; [|by apply walked_skip, IH]. cbn. eapply walked_cons; [apply IH| | |].
    + by apply map_Forall_delete.
    + eapply view_put; [done|by rewrite lookup_delete_eq|intros; by rewrite lookup_delete_ne].
    + rewrite (map_cost_delete def _ _ _ Hk). unfold StoreOk.cost_of. lia.
    + done.
    + intros acts g' Ha. by apply ar_delete.
Qed.
(** Without the overlay: only inserts of keys that are new and distinct. *)
Definition all_new (g : gmap UUID Row) (ms : list stagedMut) : Prop :=
  NoDup (map st_pk ms) /\ Forall (fun m => (match m with st_insert _ _ => True | _ => False end) /\ g !! st_pk m = None) ms.
Lemma walk_skip_ok ms : Forall staged_wf ms -> forall g, all_new g ms ->
  walked g (tx_run g ms) (commit_walk pkHashSeed def t true ms None).
Proof.
  induction 1 as [|m ms Hm _ IH]; intros g [Hnd Hnew]; cbn [tx_run commit_walk].
  { exists []. rewrite Z.sub_diag. repeat constructor. }
  apply list.Forall_cons in Hnew as [[Hi Hk] Hnew]. cbn [map] in Hnd. apply list.NoDup_cons in Hnd as [Hnin Hnd].
  destruct m as [pk row|pk pl args|pk]; try done. cbn [st_pk tx_step staged_wf negb] in *. rewrite Hk. cbn. destruct Hm as [Hrow ->].
  eapply walked_cons; [apply IH| | |].
  - split; [done|]. apply list.Forall_forall. intros m Hin. rewrite list.Forall_forall in Hnew. destruct (Hnew m Hin) as [H1 H2]. split; [done|].
    rewrite lookup_insert_ne; [done|]. intros E. apply Hnin. rewrite E. by apply (list_elem_of_fmap_2 st_pk).
  - by apply map_cost_insert.
  - done.
  - intros acts g' Ha. by apply ar_insert.
Qed.
End walk.

(** ** The commit *)
Lemma tx_run_length ms : forall g g' bodies, tx_run g ms = Ok (g', bodies) -> (length bodies <= length ms)%nat.
Proof.
  induction ms as [|m ms IH]; intros g g' bodies E; cbn [tx_run] in E; [by injection E as <- <-|].
  apply bind_Ok in E as ([g1 b1] & E1 & E). apply bind_Ok in E as ([g2 b2] & E2 & [= <- <-]). apply IH in E2. cbn [snd length].
  rewrite length_app. enough (length b1 <= 1)%nat by lia.
  destruct m as [pk row|pk pl args|pk]; cbn [tx_step] in E1; destruct (g !! pk) as [r|]; try done; try (injection E1 as <- <-; cbn; lia).
  apply bind_Ok in E1 as (vals & _ & E1). by apply bind_Ok in E1 as (b & _ & [= <- <-]).
Qed.
Lemma envelope acts bodies : Forall2 (fun a b => encode_act [] a = Ok b) acts bodies ->
  encode_acts def tid (appendU16LE [] (u16 (zlen acts))) acts = Ok (encodeTxn [] bodies).
Proof.
  intros Hf. rewrite (encode_acts_txn _ _ Hf), encodeTxn_bytes. unfold appendU16LE. pose proof (Forall2_length Hf) as L.
  unfold zlen. by rewrite L, <- app_assoc.
Qed.
Section whole.
Context (tr : option (track def)) (ext : Z).
Local Abbreviation tbl_ok := (tbl_ok pkHashSeed def max tr).
Definition applied (n : nat) (o : outcome (tbl_state * option J * option error)) (s : outcome (gmap UUID Row * option J * option error)) : Prop :=
  exists t' g' w' e, o = Ok (t', w', e) /\ s = Ok (g', w', e) /\ tbl_ok ext t' g' /\ room n t'.
(** The totals two budget moves leave. *)
Ltac settle E :=
  match type of E with apply_acts _ _ ?u _ = _ =>
    match goal with |- context [apply_acts _ _ ?v _] =>
      replace v with u; [rewrite E; reflexivity|] end end;
  unfold set_total; cbn [t_total t_shards t_readDirty t_delDirty];
  repeat match goal with |- context [?a <? ?b] => destruct (a <? b) end; cbn [t_total t_shards t_readDirty t_delDirty]; f_equal; lia.
Lemma commit_acts_ok t g w acts g' bodies n : tbl_ok ext t g -> room (length acts + n) t -> acts_run g acts g' ->
  Forall2 (fun a b => encode_act [] a = Ok b) acts bodies ->
  applied n (commit_acts pkHashSeed def max tid t w acts (map_cost g' - map_cost g))
    (if negb (max =? 0) && (map_cost g' >? map_cost g) && (ext + map_cost g' >? max) then Ok (g, w, Some ErrCapacity)
     else match jwrite_opt w recTxn (encodeTxn [] bodies) with
          | (w', Some e) => Ok (g, w', Some e)
          | (w', None) => Ok (g', w', None)
          end).
Proof.
  intros Ht Hr Hrun Hb. unfold commit_acts. set (d := map_cost g' - map_cost g).
  assert (Hr0 : room n t) by (eapply Forall_impl; [|exact Hr]; cbv beta; lia).
  assert (Hsame : forall total, (max <> 0 -> total = t_total t) -> tbl_ok ext (set_total t total) g).
  { intros total Htot. replace ext with (ext + 0) by lia. apply set_total_ok; [done|]. intros Hm. rewrite Htot by done. lia. }
  assert (Hgo : forall total, (max <> 0 -> total = t_total t + d) -> exists t', apply_acts pkHashSeed def (set_total t total) acts = Ok t' /\ room n t' /\ tbl_ok ext t' g').
  { intros total Htot. destruct (apply_acts_ok tr g acts g' Hrun (ext + d) (set_total t total) n) as (t' & E & Hr' & Ht'); [by apply set_total_ok|done|].
    exists t'. split; [done|]. split; [done|]. unfold d in Ht'. by replace ext with (ext + (map_cost g' - map_cost g) - (map_cost g' - map_cost g)) by lia. }
  assert (Ed : (d >? 0) = (map_cost g' >? map_cost g)).
  { unfold d. rewrite !Z.gtb_ltb. destruct (Z.ltb_spec 0 (map_cost g' - map_cost g)), (Z.ltb_spec (map_cost g) (map_cost g')); lia. }
  rewrite <- Ed. assert (Hj : forall w0 : option J, (je ← match w0 with None => Ok (w0, None) | Some _ => buf ← encode_acts def tid (appendU16LE [] (u16 (zlen acts))) acts;
      Ok (jwrite_opt w0 recTxn buf) end; Ok je) = Ok (jwrite_opt w0 recTxn (encodeTxn [] bodies))).
  { intros [j|]; [|done]. by rewrite (envelope _ _ Hb). }
  assert (Ht' : max <> 0 -> ext + map_cost g' = t_total t + d).
  { intros Hm. rewrite (tb_total _ _ _ _ _ _ _ Ht Hm). unfold d. lia. }
  unfold budget_reserve, budget_release, applied.
  destruct (Z.eqb_spec max 0) as [E0|E0]; cbn [negb andb].
  - replace (if d >? 0 then (t_total t, true) else (t_total t, true)) with (t_total t, true) by by destruct (d >? 0).
    cbn [negb]. destruct w as [j|]; [rewrite (envelope _ _ Hb)|]; cbn [mbind outcome_bind].
    + destruct (jwrite_opt (Some j) recTxn (encodeTxn [] bodies)) as [w' [e|]].
      * eexists _, g, w', (Some e). split; [reflexivity|]. split; [done|]. split; [|by destruct (d >? 0)]. destruct (d >? 0); by apply Hsame.
      * destruct (Hgo (t_total t)) as (t' & E & Hr' & Ht1); [done|]. exists t', g', w', None. split; [|done]. settle E.
    + destruct (Hgo (t_total t)) as (t' & E & Hr' & Ht1); [done|]. exists t', g', None, None. split; [|done]. settle E.
  - rewrite (Ht' E0). destruct (d >? 0) eqn:Hd; cbn [andb].
    + destruct (t_total t + d >? max) eqn:Hc; cbn [negb].
      { eexists _, g, w, _. split; [reflexivity|]. split; [done|]. split; [|done]. apply Hsame. intros _. lia. }
      rewrite (proj2 (Z.ltb_ge d 0)) by (rewrite Z.gtb_ltb in Hd; apply Z.ltb_lt in Hd; lia).
      destruct (Hgo (t_total t + d)) as (t' & E & Hr' & Ht1); [done|].
      destruct w as [j|]; [rewrite (envelope _ _ Hb)|]; cbn [mbind outcome_bind].
      * destruct (jwrite_opt (Some j) recTxn (encodeTxn [] bodies)) as [w' [e|]].
        -- eexists _, g, w', (Some e). split; [reflexivity|]. split; [done|]. split; [|done]. apply Hsame. cbn. intros _. lia.
        -- exists t', g', w', None. split; [|done]. settle E.
      * exists t', g', None, None. split; [|done]. settle E.
    + cbn [negb]. destruct (Hgo (if d <? 0 then t_total t + d else t_total t)) as (t' & E & Hr' & Ht1).
      { intros _. destruct (Z.ltb_spec d 0); [done|]. rewrite Z.gtb_ltb in Hd. apply Z.ltb_ge in Hd. lia. }
      destruct w as [j|]; [rewrite (envelope _ _ Hb)|]; cbn [mbind outcome_bind].
      * destruct (jwrite_opt (Some j) recTxn (encodeTxn [] bodies)) as [w' [e|]].
        -- eexists _, g, w', (Some e). split; [reflexivity|]. split; [done|]. split; [|done]. by apply Hsame.
        -- exists t', g', w', None. split; [|done]. settle E.
      * exists t', g', None, None. split; [|done]. settle E.
Qed.
Lemma commit_applies closed live t g w ms skipDup n : tbl_ok ext t g -> room (length ms + n) t -> Forall staged_wf ms ->
  (skipDup = true -> all_new g ms) ->
  applied n (commit pkHashSeed def max tid closed live t w ms skipDup) (commit_spec ext closed live g w ms).
Proof.
  intros Ht Hr Hms Hskip. assert (Hr0 : room n t) by (eapply Forall_impl; [|exact Hr]; cbv beta; lia).
  assert (Hsame : forall e, applied n (Ok (t, w, e)) (Ok (g, w, e))) by (intros e; by exists t, g, w, e).
  unfold commit, commit_spec. destruct (length ms =? 0)%nat; [apply Hsame|]. destruct (zlen ms >? maxTxnMutations); [apply Hsame|].
  destruct closed; [apply Hsame|]. destruct live; cbn [negb]; [|apply Hsame].
  assert (Hw : walked g (tx_run g ms) (commit_walk pkHashSeed def t skipDup ms (if skipDup then None else Some ∅))).
  { destruct skipDup; [by apply walk_skip_ok, Hskip|]. eapply walk_ok; [done|done|by eapply tbl_good|]. intros pk. by rewrite lookup_empty. }
  destruct (tx_run g ms) as [[g' bodies]|e|] eqn:Er; cbn [walked] in Hw; [|rewrite Hw; apply Hsame|done].
  destruct Hw as (acts & -> & Hrun & Hb). cbv beta iota. pose proof (Forall2_length Hb) as L. rewrite L.
  destruct (length bodies =? 0)%nat; [apply Hsame|]. apply commit_acts_ok; [done| |done..].
  eapply Forall_impl; [|exact Hr]. cbv beta. pose proof (tx_run_length _ _ _ _ Er). lia.
Qed.
End whole.

(** ** The locks *)
Definition only (i : nat) (t t' : tbl_state) : Prop :=
  length (t_shards t') = length (t_shards t) /\ forall j, j <> i -> t_shards t' !! j = t_shards t !! j.
Lemma put_only t i s : only i t (put_shard t i s).
Proof. split; cbn; [apply length_insert|]. intros j Hj. by rewrite list_lookup_insert_ne. Qed.
Lemma mark_only t i s pk : only i t (markDirtyLocked def t i s pk).
Proof. unfold markDirtyLocked. destruct (0 <? nIndexes def); [|apply put_only]. split; cbn; [apply length_insert|]. intros j Hj. by rewrite list_lookup_insert_ne. Qed.
Lemma markdel_only t i s pk : only i t (markDelDirtyLocked def t i s pk).
Proof. unfold markDelDirtyLocked. destruct (0 <? nIndexes def); [|apply put_only]. split; cbn; [apply length_insert|]. intros j Hj. by rewrite list_lookup_insert_ne. Qed.
Definition act_pk (a : txAct) : UUID := match a with act_insert pk _ _ | act_update pk _ _ _ | act_delete pk _ => pk end.
Definition act_at (a : txAct) : Prop := match a with act_insert pk row _ => pk = pkof row | _ => True end.
Lemma apply_act_only t a t' : apply_act pkHashSeed def t a = Ok t' -> act_at a -> only (idx t (act_pk a)) t t'.
Proof.
  destruct a as [pk row c|pk row ords c|pk c]; cbn [apply_act act_pk act_at]; intros E Ha.
  - unfold txInsertLocked in E. apply bind_Ok in E as (v & Ev & E). apply bind_Ok in E as (s & _ & E). cbn [addRowLocked] in E.
    apply bind_Ok in E as (m & _ & [= <-]). assert (v_UUID v = pk) as ->; [|apply mark_only].
    apply index_Ok in Ev. rewrite Ha. unfold StoreOk.pkof. by rewrite Ev.
  - unfold txReplaceLocked in E. apply bind_Ok in E as (s & _ & E). apply bind_Ok in E as (g & _ & E). apply bind_Ok in E as (r & _ & [= <-]).
    destruct (updateTouchesIndex def ords); [apply mark_only|apply put_only].
  - unfold txDeleteLocked in E. apply bind_Ok in E as (s & _ & E). apply bind_Ok in E as ([[m rowID] b] & _ & E). apply bind_Ok in E as (r & _ & [= <-]).
    apply markdel_only.
Qed.
Lemma apply_acts_only (L : list nat) acts : forall t t', apply_acts pkHashSeed def t acts = Ok t' ->
  Forall (fun a => act_at a /\ idx t (act_pk a) ∈ L) acts -> forall i, i ∉ L -> t_shards t' !! i = t_shards t !! i.
Proof.
  induction acts as [|a acts IH]; intros t t' E Ha i Hi; cbn [apply_acts] in E; [by injection E as <-|].
  apply bind_Ok in E as (t1 & E1 & E). apply list.Forall_cons in Ha as [[Ha Hin] Hacts]. destruct (apply_act_only _ _ _ E1 Ha) as [Hl Ho].
  rewrite <- (Ho i) by (intros ->; by apply Hi). apply (IH t1 t' E); [|done].
  assert (Em : forall pk, idx t1 pk = idx t pk) by (intros pk; unfold idx, mask, zlen; by rewrite Hl).
  eapply Forall_impl; [|exact Hacts]. cbv beta. intros b. by rewrite Em.
Qed.
Lemma walk_acts_of t skipDup ms : Forall staged_wf ms -> forall o acts d, commit_walk pkHashSeed def t skipDup ms o = Ok (acts, d) ->
  Forall (fun a => act_at a /\ act_pk a ∈ map st_pk ms) acts.
Proof.
  assert (Hin : forall m ms acts, Forall (fun a => act_at a /\ act_pk a ∈ map st_pk ms) acts -> Forall (fun a => act_at a /\ act_pk a ∈ map st_pk (m :: ms)) acts).
  { intros m l acts. apply Forall_impl. intros a [? ?]. split; [done|by right]. }
  induction 1 as [|m ms Hm _ IH]; intros o acts d E; cbn [commit_walk] in E; [injection E as <- <-; constructor|].
  destruct m as [pk row|pk pl args|pk].
  - apply bind_Ok in E as (o1 & _ & E). apply bind_Ok in E as ([acts1 d1] & E1 & [= <- <-]). constructor; [|by eapply Hin, IH].
    split; [apply Hm|by left].
  - apply bind_Ok in E as ([r|] & _ & E); [|by eapply Hin, IH]. cbv zeta in E. apply bind_Ok in E as (vals & _ & E).
    apply bind_Ok in E as (nr & _ & E). apply bind_Ok in E as (o1 & _ & E). apply bind_Ok in E as ([acts1 d1] & E1 & [= <- <-]).
    constructor; [by split; [|left]|by eapply Hin, IH].
  - apply bind_Ok in E as ([r|] & _ & E); [|by eapply Hin, IH]. apply bind_Ok in E as (o1 & _ & E). apply bind_Ok in E as ([acts1 d1] & E1 & [= <- <-]).
    constructor; [by split; [|left]|by eapply Hin, IH].
Qed.
Lemma insert_shard_perm v l : insert_shard v l ≡ₚ v :: l.
Proof. induction l as [|x l IH]; cbn [insert_shard]; [done|]. destruct (v <? x)%nat; [done|]. rewrite IH. apply Permutation_swap. Qed.
Lemma insert_shard_sorted v l : v ∉ l -> StronglySorted lt l -> StronglySorted lt (insert_shard v l).
Proof.
  induction l as [|x l IH]; intros Hv Hl; cbn [insert_shard]; [repeat constructor|].
  apply not_elem_of_cons in Hv as [Hx Hv]. inversion Hl as [|? ? Hs Hf]; subst. destruct (Nat.ltb_spec v x) as [Hlt|Hge].
  - constructor; [done|]. constructor; [done|]. eapply Forall_impl; [|exact Hf]. cbv beta. lia.
  - constructor; [by apply IH|]. apply list.Forall_forall. intros y. rewrite (insert_shard_perm v l), elem_of_cons.
    intros [->|Hy]; [lia|]. rewrite list.Forall_forall in Hf. by apply Hf.
Qed.
Lemma sort_shards l : forall out, NoDup (l ++ out) -> StronglySorted lt out ->
  let r := fold_left (fun out v => insert_shard v out) l out in StronglySorted lt r /\ r ≡ₚ l ++ out.
Proof.
  induction l as [|v l IH]; intros out Hnd Hs; cbn [fold_left app]; [done|]. cbn in Hnd. apply list.NoDup_cons in Hnd as [Hv Hnd].
  rewrite elem_of_app in Hv. destruct (IH (insert_shard v out)) as [H1 H2].
  - rewrite insert_shard_perm, <- Permutation_middle. apply list.NoDup_cons. rewrite elem_of_app. by split.
  - apply insert_shard_sorted; [|done]. tauto.
  - split; [exact H1|]. rewrite H2, insert_shard_perm, <- Permutation_middle. done.
Qed.
Lemma touched_shards (f : stagedMut -> nat) ms : forall out, NoDup out ->
  let r := fold_left (fun out m => if existsb (fun x => (x =? f m)%nat) out then out else out ++ [f m]) ms out in
  NoDup r /\ forall i, i ∈ r <-> i ∈ out \/ exists m, m ∈ ms /\ f m = i.
Proof.
  induction ms as [|m ms IH]; intros out Hnd; cbn [fold_left].
  { split; [done|]. intros i. split; [by left|]. intros [?|(m & ?%elem_of_nil & _)]; done. }
  assert (Hex : existsb (fun x => (x =? f m)%nat) out = true <-> f m ∈ out).
  { rewrite existsb_exists. split; [intros (x & Hx & ->%Nat.eqb_eq); by apply list_elem_of_In|].
    intros Hm. exists (f m). rewrite Nat.eqb_refl. split; [by apply list_elem_of_In|done]. }
  set (out1 := if existsb _ out then out else out ++ [f m]).
  assert (H1 : NoDup out1 /\ forall i, i ∈ out1 <-> i ∈ out \/ i = f m).
  { unfold out1. destruct (existsb _ out) eqn:Ex.
    - split; [done|]. intros i. split; [by left|]. intros [?| ->]; [done|by apply Hex].
    - assert (Hnin : f m ∉ out) by (intros Hc; apply Hex in Hc; congruence). split.
      + apply list.NoDup_app. split_and!; [done| |apply NoDup_singleton]. intros i Hi ->%list_elem_of_singleton. done.
      + intros i. by rewrite elem_of_app, list_elem_of_singleton. }
  destruct H1 as [N1 E1]. destruct (IH out1 N1) as [N2 E2]. split; [exact N2|]. intros i. rewrite E2, E1. split.
  - intros [[?| ->]|(m' & Hm & <-)]; [by left|right; exists m; split; [by left|done]|right; exists m'; split; [by right|done]].
  - intros [?|(m' & [->|Hm]%elem_of_cons & <-)]; [by left; left|by left; right|right; by exists m'].
Qed.
Lemma locks_ok closed live t w ms skipDup : Forall staged_wf ms ->
  let locks := collectShards t ms in
  StronglySorted lt locks /\ (forall i, i ∈ locks <-> exists m, m ∈ ms /\ idx t (st_pk m) = i) /\
  forall t' w' e, commit pkHashSeed def max tid closed live t w ms skipDup = Ok (t', w', e) ->
    forall i, i ∉ locks -> t_shards t' !! i = t_shards t !! i.
Proof.
  intros Hms locks. destruct (touched_shards (fun m => idx t (st_pk m)) ms [] (NoDup_nil_2)) as [Hnd Hel].
  destruct (sort_shards _ [] (eq_ind_r NoDup Hnd (app_nil_r _)) (SSorted_nil _)) as [Hs Hp].
  assert (Hin : forall i, i ∈ locks <-> exists m, m ∈ ms /\ idx t (st_pk m) = i).
  { intros i. unfold locks, collectShards. rewrite Hp, app_nil_r, Hel. split; [intros [?%elem_of_nil|?]; done|by right]. }
  split; [exact Hs|]. split; [exact Hin|]. intros t' w' e E i Hi. unfold commit in E.
  destruct (length ms =? 0)%nat; [by injection E as <- _ _|]. destruct (zlen ms >? maxTxnMutations); [by injection E as <- _ _|].
  destruct closed; [by injection E as <- _ _|]. destruct (negb live); [by injection E as <- _ _|].
  destruct (commit_walk _ _ _ _ _ _) as [[acts d]| |] eqn:Ew; [|by injection E as <- _ _|done].
  destruct (length acts =? 0)%nat; [by injection E as <- _ _|]. unfold commit_acts in E.
  pose proof (walk_acts_of t skipDup ms Hms _ _ _ Ew) as Ha.
  assert (Hgo : forall total t2, apply_acts pkHashSeed def (set_total t total) acts = Ok t2 -> t_shards t2 !! i = t_shards t !! i).
  { intros total t2 E2. apply (apply_acts_only locks acts (set_total t total) t2 E2); [|done]. eapply Forall_impl; [|exact Ha].
    cbv beta. intros a [Hat Hpk]. split; [done|]. apply Hin. apply list_elem_of_fmap in Hpk as (m & -> & Hm). by exists m. }
  destruct (if d >? 0 then _ else _) as [total ok]. destruct (negb ok); [by injection E as <- _ _|].
  apply bind_Ok in E as ([w1 [e1|]] & _ & E); [destruct (d >? 0); by injection E as <- _ _|].
  apply bind_Ok in E as (t2 & E2 & [= <- _ _]). destruct (d <? 0); by eapply Hgo.
Qed.
End commit.
