(* ===== verification/Exec.v ===== *)
(** * Exec: the write statements of exec_write.go and db_exec.go over one table
    without a partition key.

    A statement runs on one state of the table. The match predicates of the store
    lanes are boolean: an evaluation error is a row that does not match, as in the
    code, and a bound WHERE does not panic ([Eval.eval_total]). [newUUID n] is the
    n-th identifier NewUUIDv7 hands out; the count of them is threaded. *)
From S2P Require Import Prelude Bytes Order Uuid Value CompositeKey PkMap Codec Frame Journal Schema Catalog SecIndex Store Merge Ast Eval Filter TopN Plan PlanJoin Recovery Select Query Commit.

(** ** Rows of an INSERT *)
Definition cell_value (c : insCell) (args : list Value) : outcome Value :=
  if 0 <=? ic_arg c then (if ic_arg c >=? zlen args then Err ErrParamMismatch else index args (Z.to_nat (ic_arg c)))
  else evalExpr (ic_expr c) (MkCtx [] ∅ args).
(** A string bound for a UUID column is parsed. *)
Definition coerce_cell (col : ColumnDef) (v : Value) : outcome Value :=
  if (c_Type col =? TypeUUID) && bool_decide (Kind v = KindString) then u ← ParseUUID (v_Str v); Ok (UUIDVal u) else Ok v.
Fixpoint fill_row (cols : list ColumnDef) (pk : nat) (tmpl : list insCell) (args : list Value) (row : Row) (pkProvided : bool) : outcome (Row * bool) :=
  match tmpl with
  | [] => Ok (row, pkProvided)
  | c :: tmpl =>
      v ← cell_value c args;
      col ← index cols (ic_ord c);
      v ← coerce_cell col v;
      _ ← validateValue col v;
      if (ic_ord c <? length row)%nat
      then fill_row cols pk tmpl args (<[ic_ord c := v]> row) (pkProvided || (ic_ord c =? pk)%nat)
      else Panic
  end.

Section exec.
Context (pkHashSeed : Z) {J : Type} `{Journal J} (newUUID : nat -> UUID) (max : Z).

Section table.
Context (def : resolvedTable) (tid : Z) (pl : plan).
Local Abbreviation cols := (t_Columns (rt_def def)).
Local Abbreviation pkOrd := (pkOrd def).
Local Abbreviation ords := (pl_updateOrdinals pl).
Local Abbreviation acc := (pl_access pl).

Definition buildRowFromTmpl (ids : nat) (tmpl : list insCell) (args : list Value) : outcome (Row * nat) :=
  x ← fill_row cols pkOrd tmpl args (replicate (length cols) Null) false;
  let '(row, pkProvided) := x in
  if pkProvided : bool then Ok (row, ids)
  else if (pkOrd <? length row)%nat then Ok (<[pkOrd := UUIDVal (newUUID ids)]> row, S ids) else Panic.
Definition row_pk (row : Row) : outcome UUID := v ← index row pkOrd; Ok (v_UUID v).

(** ** INSERT *)
Definition execInsert1 (ids : nat) (t : tbl_state) (w : option J) (args : list Value) : outcome (tbl_state * option J * nat * (Z * option error)) :=
  tmpl ← index (pl_insertTmpl pl) 0;
  match buildRowFromTmpl ids tmpl args with
  | Err e => Ok (t, w, ids, (0, Some e))
  | Panic => Panic
  | Ok (row, ids) =>
      x ← insertJournaled pkHashSeed def max t w row (MkMJ tid [] 0 Null);
      let '(t, w, e) := x in
      Ok (t, w, ids, (match e with None => 1 | _ => 0 end, e))
  end.
(** The staged rows, and the identifiers used up, also by a row that fails. *)
Fixpoint stage_rows (ids : nat) (tmpls : list (list insCell)) (args : list Value) : nat * outcome (list stagedMut) :=
  match tmpls with
  | [] => (ids, Ok [])
  | tmpl :: tmpls =>
      match (x ← buildRowFromTmpl ids tmpl args; pk ← row_pk (fst x); Ok (fst x, snd x, pk)) with
      | Ok (row, ids, pk) =>
          let '(ids, ms) := stage_rows ids tmpls args in
          (ids, l ← ms; Ok (st_insert pk row :: l))
      | Err e => (ids, Err e)
      | Panic => (ids, Panic)
      end
  end.
Definition auto_pk (tmpl : list insCell) : bool := negb (existsb (fun c => (ic_ord c =? pkOrd)%nat) tmpl).
Definition execInsertBatch (closed live : bool) (ids : nat) (t : tbl_state) (w : option J) (args : list Value)
  : outcome (tbl_state * option J * nat * (Z * option error)) :=
  if zlen (pl_insertTmpl pl) >? maxTxnMutations then Ok (t, w, ids, (0, Some ErrBatchTooLarge))
  else
    tmpl ← index (pl_insertTmpl pl) 0;
    match stage_rows ids (pl_insertTmpl pl) args with
    | (ids, Err e) => Ok (t, w, ids, (0, Some e))
    | (_, Panic) => Panic
    | (ids, Ok staged) =>
        x ← commit pkHashSeed def max tid closed live t w staged (auto_pk tmpl);
        let '(t, w, e) := x in
        Ok (t, w, ids, (match e with None => zlen staged | _ => 0 end, e))
    end.
Definition execInsert (closed live : bool) (ids : nat) (t : tbl_state) (w : option J) (args : list Value)
  : outcome (tbl_state * option J * nat * (Z * option error)) :=
  if (1 <? length (pl_insertTmpl pl))%nat then execInsertBatch closed live ids t w args else execInsert1 ids t w args.

(** ** UPDATE and DELETE *)
Section write.
Context (ixs : list secIndex) (t : tbl_state) (w : option J).
Local Abbreviation wres := (outcome (tbl_state * option J * (Z * option error))).
(** [if err != nil { return 0, err }] *)
Definition early {A} (o : outcome A) (k : A -> wres) : wres :=
  match o with Ok a => k a | Err e => Ok (t, w, (0, Some e)) | Panic => Panic end.
Local Notation "x ?← o ; k" := (early o (fun x => k)) (at level 20, o at level 100, k at level 200, only parsing).
Definition nothing : wres := Ok (t, w, (0, None)).
(** [if err != nil { return 0, err }; if ok { return 1, nil }; return 0, nil] *)
Definition counted (x : tbl_state * option J * (bool * option error)) : wres :=
  let '(t, w, (ok, e)) := x in Ok (t, w, (match e with None => if ok : bool then 1 else 0 | Some _ => 0 end, e)).

Definition where_match (where_ : option expr) (args : list Value) : Row -> bool := fun r =>
  match evalExpr where_ (MkCtx r (rt_colByName def) args) with Ok v => truthy v | _ => false end.
Definition scan_match (where_ : option expr) (args : list Value) : Row -> bool := fun r =>
  match rowMatcher where_ (rt_colByName def) args r with Ok b => b | _ => false end.
(** The candidates as one list: the bucket alone, or without duplicates when
    dirty rows may overlap it. *)
Definition cand_pks (c : idxCandidateSet) : outcome (list UUID) :=
  if (0 <? length (cs_dirty c))%nat then emit (fun l pk => Ok (l ++ [pk], false)) c [] else Ok (cs_pks c).

Section update.
Context (sets : list setAssign) (where_ : option expr) (args : list Value).
Definition mj : mutJournal := MkMJ tid ords pkOrd Null.
Definition evalSet (r : Row) : outcome (list Value) := eval_sets sets ords cols (MkCtx r (rt_colByName def) args).
Definition computeOne (ord : nat) (r : Row) : outcome Value :=
  col ← index cols ord;
  a ← index sets 0;
  v ← evalExpr (Some (set_val a)) (MkCtx r (rt_colByName def) args);
  _ ← validateValue col v;
  Ok v.
(** SET values that depend on no column are evaluated once, up front. *)
Definition evaluated {A} (f : Row -> outcome A) : outcome (Row -> outcome A) :=
  if pl_setRowDependent pl then Ok f else v ← f []; Ok (fun _ => Ok v).
Definition first_of (compute : Row -> outcome (list Value)) (r : Row) : outcome Value := vs ← compute r; index vs 0.
Definition encode_update (nr : Row) : outcome bytes :=
  pk ← index nr pkOrd; encodeUpdateMutation [] tid pk ords nr.

Definition update_pk_one (ord : nat) : wres :=
  computeOne ?← evaluated (computeOne ord);
  keyVal ?← lit_source (pkSource acc) args;
  if IsNull keyVal then nothing
  else
    pk ?← coerceToUUID keyVal;
    x ← updateByPKOneJournaled pkHashSeed def max t w pk ord computeOne mj;
    counted x.
Definition update_pk (compute : Row -> outcome (list Value)) : wres :=
  keyVal ?← lit_source (pkSource acc) args;
  if IsNull keyVal then nothing
  else
    pk ?← coerceToUUID keyVal;
    x ← updateByPKJournaled pkHashSeed def max t w pk ords compute mj;
    counted x.
Definition update_idx (compute : Row -> outcome (list Value)) : wres :=
  cand ?← idxCandidates pkHashSeed t ixs pl (sel_ctx def args);
  match cand with
  | None => nothing
  | Some cand =>
      pks ← cand_pks cand;
      match pks, ords with
      | [pk], [ord] => updateOneByCandidate pkHashSeed def max t w pk ord (where_match where_ args) (first_of compute) mj
      | _, _ => updateByCandidates pkHashSeed def max t w pks (where_match where_ args) ords compute encode_update
      end
  end.
Definition update_probe (src : expr) (compute : Row -> outcome (list Value)) : wres :=
  keyVal ?← evalExpr (Some src) (sel_ctx def args);
  if IsNull keyVal then nothing
  else
    pk ?← coerceToUUID keyVal;
    match ords with
    | [ord] => updateOneByCandidate pkHashSeed def max t w pk ord (where_match where_ args) (first_of compute) mj
    | _ => updateByCandidates pkHashSeed def max t w [pk] (where_match where_ args) ords compute encode_update
    end.
(** From the SET buffer on. *)
Definition update_general : wres :=
  compute ?← evaluated evalSet;
  if pkLookup acc then update_pk compute
  else if idxLookup acc && negb (dirtyTooDenseForScan t) then update_idx compute
  else match pkProbe acc with
  | Some src => update_probe src compute
  | None => updateWhereAll def max t w (scan_match where_ args) ords compute encode_update
  end.
(** One indexed equality and no dirty row: the lone candidate, without a copy of
    the bucket. Several candidates fall through. *)
Definition update_idx_one (ord : nat) (si : secIndex) : wres :=
  src ?← index (idxSrcs acc) 0;
  keyVal ?← evalLitOrParamValue src args;
  if IsNull keyVal then nothing
  else
    let '(pk, found, one) := lookupOne si (keyOf keyVal) in
    if negb found then nothing
    else if one : bool then
      computeOne ?← evaluated (computeOne ord);
      updateOneByCandidate pkHashSeed def max t w pk ord (where_match where_ args) computeOne mj
    else update_general.
Definition execUpdate : wres :=
  match ords with
  | [ord] =>
      if pkLookup acc then update_pk_one ord
      else if idxLookup acc && (length (idxCols acc) =? 1)%nat && (t_readDirty t =? 0) then
        c ?← index (idxCols acc) 0;
        match indexFor ixs c with
        | Some si => update_idx_one ord si
        | None => update_general
        end
      else update_general
  | _ => update_general
  end.
End update.

Section delete.
Context (where_ : option expr) (args : list Value).
Definition encode_delete (pk : Value) : bytes := encodeDeleteMutation [] tid pk.
Definition mj_of (pk : UUID) : mutJournal := MkMJ tid [] 0 (UUIDVal pk).
Definition delete_one (pk : UUID) : wres :=
  x ← deleteOneByCandidate pkHashSeed def max t w pk (Some (where_match where_ args)) (mj_of pk);
  counted x.
Definition delete_candidates : wres :=
  cand ?← idxCandidates pkHashSeed t ixs pl (sel_ctx def args);
  match cand with
  | None => nothing
  | Some cand =>
      pks ← cand_pks cand;
      deleteByCandidates pkHashSeed def max t w pks (where_match where_ args) encode_delete
  end.
Definition delete_idx : wres :=
  if (length (idxCols acc) =? 1)%nat && (t_readDirty t =? 0) then
    src ?← index (idxSrcs acc) 0;
    keyVal ?← evalLitOrParamValue src args;
    if IsNull keyVal then nothing
    else
      c ?← index (idxCols acc) 0;
      match indexFor ixs c with
      | Some si =>
          let '(pk, found, one) := lookupOne si (keyOf keyVal) in
          if found && one then delete_one pk
          else if negb found then nothing
          else delete_candidates
      | None => delete_candidates
      end
  else delete_candidates.
Definition execDelete : wres :=
  if pkLookup acc then
    keyVal ?← lit_source (pkSource acc) args;
    if IsNull keyVal then nothing
    else
      pk ?← coerceToUUID keyVal;
      x ← deleteByPKJournaled pkHashSeed def max t w pk (mj_of pk);
      counted x
  else if idxLookup acc && negb (dirtyTooDenseForScan t) then delete_idx
  else match pkProbe acc with
  | Some src =>
      keyVal ?← evalExpr (Some src) (sel_ctx def args);
      if IsNull keyVal then nothing else pk ?← coerceToUUID keyVal; delete_one pk
  | None => deleteWhereAll pkHashSeed def max t w (scan_match where_ args) encode_delete
  end.
End delete.
End write.
End table.
End exec.
