(* ===== verification/WriteOk.v ===== *)
(** * WriteOk: UPDATE and DELETE, whatever path the planner picked, change exactly
    the rows their WHERE matches, all or none, behind one journal record. *)
From S2P Require Import Prelude Bytes Order Uuid Value CompositeKey PkMap Codec Frame Journal Schema Catalog SecIndex IndexOk Store StoreOk StoreSim Merge MergeOk MergeSafe Ast Eval Filter TopN TopNOk Plan PlanJoin PlanOk PlanJoinOk Recovery Replayer RecoveryOk Select SelectOk CandOk WalkOk SelectSound Query Commit CommitOk Exec.

(** ** Evaluation without the row *)
Lemma eval_no_column e row row' cols args : exprRefsColumn e = false -> eval e (MkCtx row cols args) = eval e (MkCtx row' cols args).
Proof.
  induction e as [| | |op l IHl r IHr|e IH|e IH not]; cbn; intros Hc; try done.
  - apply orb_false_iff in Hc as [H1 H2]. rewrite IHl, IHr by done. done.
  - by rewrite IH.
  - by rewrite IH.
Qed.

(** ** What a statement promises on the map *)
Section spec.
Context {J : Type} `{Journal J}.
(** One record for the whole statement: the mutation itself, or a transaction. *)
Definition record_of (bodies : list bytes) (t : Z) (p : bytes) : Prop :=
  (bodies = [p] /\ t = recMutation) \/ (p = encodeTxn [] bodies /\ t = recTxn).
Definition journaled (w : option J) (bodies : list bytes) (w' : option J) (e : option error) : Prop :=
  (bodies = [] /\ w' = w /\ e = None) \/ (bodies <> [] /\ exists t p, record_of bodies t p /\ jwrite_opt w t p = (w', e)).

Context (mb : Row -> bool).
Implicit Type g : gmap UUID Row.
Definition hits_in (g : gmap UUID Row) : gmap UUID Row := filter (fun kr => mb (snd kr) = true) g.
Definition all_done {A} (e : option error) (yes no : A) : A := match e with None => yes | Some _ => no end.

(** [run]: the SET values of a row. Values no column influences may fail before any
    row is read. *)
Inductive updates (run : Row -> outcome (list Value)) (ords : list nat) (body : Row -> outcome bytes)
    (g : gmap UUID Row) (w : option J) : gmap UUID Row -> option J -> Z -> option error -> Prop :=
  | up_early e : (forall r, run r = run []) -> run [] = Err e -> updates run ords body g w g w 0 (Some e)
  | up_fail k r e : g !! k = Some r -> mb r = true -> run r = Err e -> updates run ords body g w g w 0 (Some e)
  | up_done l bodies w' e : NoDup l.*1 -> (forall k r, (k, r) ∈ l <-> g !! k = Some r /\ mb r = true) ->
      Forall2 (fun kr b => exists vals, run (snd kr) = Ok vals /\ body (assign (snd kr) ords vals) = Ok b) l bodies ->
      journaled w bodies w' e ->
      updates run ords body g w
        (all_done e ((fun r => if mb r then new_row ords run r else r) <$> g) g) w' (all_done e (Z.of_nat (size (hits_in g))) 0) e.
Inductive deletes (body : Row -> bytes) (g : gmap UUID Row) (w : option J) : gmap UUID Row -> option J -> Z -> option error -> Prop :=
  | de_done l w' e : NoDup l.*1 -> (forall k r, (k, r) ∈ l <-> g !! k = Some r /\ mb r = true) ->
      journaled w (map (fun kr => body (snd kr)) l) w' e ->
      deletes body g w (all_done e (filter (fun kr => mb (snd kr) = false) g) g) w' (all_done e (Z.of_nat (size (hits_in g))) 0) e.

Lemma hits_lookup g k r : hits_in g !! k = Some r <-> g !! k = Some r /\ mb r = true.
Proof. unfold hits_in. by rewrite map_lookup_filter_Some. Qed.
Lemma hits_size g l : NoDup l.*1 -> (forall k r, (k, r) ∈ l <-> g !! k = Some r /\ mb r = true) -> zlen l = Z.of_nat (size (hits_in g)).
Proof.
  intros Hn Hl. unfold zlen. f_equal. rewrite <- length_map_to_list. apply Permutation_length. apply NoDup_Permutation.
  - eapply NoDup_fmap_1, Hn.
  - apply NoDup_map_to_list.
  - intros [k r]. by rewrite elem_of_map_to_list, hits_lookup, Hl.
Qed.
Lemma no_hits_list g : (forall k r, g !! k = Some r -> mb r = false) ->
  NoDup (@nil (UUID * Row)).*1 /\ forall k r, (k, r) ∈ (@nil (UUID * Row)) <-> g !! k = Some r /\ mb r = true.
Proof.
  intros Hno. split; [constructor|]. intros k r. split; [by intros ?%elem_of_nil|]. intros [Hg Hm]. rewrite (Hno _ _ Hg) in Hm. done.
Qed.
Lemma no_hits_same (f : Row -> Row) g : (forall k r, g !! k = Some r -> mb r = false) -> (fun r => if mb r then f r else r) <$> g = g.
Proof. intros Hno. apply map_eq. intros k. rewrite lookup_fmap. destruct (g !! k) as [r|] eqn:E; [|done]. cbn. by rewrite (Hno _ _ E). Qed.
Lemma updates_none run ords body g w : (forall k r, g !! k = Some r -> mb r = false) -> updates run ords body g w g w 0 None.
Proof.
  intros Hno. destruct (no_hits_list g Hno) as [N E]. pose proof (up_done run ords body g w [] [] w None N E (Forall2_nil _)) as U.
  cbn [all_done] in U. rewrite <- (hits_size g [] N E), no_hits_same in U by done. apply U. by left.
Qed.
Lemma one_hit_list g pk r : g !! pk = Some r -> mb r = true -> (forall k r', g !! k = Some r' -> mb r' = true -> k = pk) ->
  NoDup [(pk, r)].*1 /\ forall k r', (k, r') ∈ [(pk, r)] <-> g !! k = Some r' /\ mb r' = true.
Proof.
  intros Hg Hm Hu. split; [apply NoDup_singleton|]. intros k r'. rewrite list_elem_of_singleton. split; [by intros [= -> ->]|].
  intros [Hg' Hm']. assert (k = pk) as -> by by eapply Hu. congruence.
Qed.
Lemma updates_one run ords (body : Row -> outcome bytes) g w pk r vals b w' e : g !! pk = Some r -> mb r = true -> (forall k r', g !! k = Some r' -> mb r' = true -> k = pk) ->
  run r = Ok vals -> body (assign r ords vals) = Ok b -> jwrite_opt w recMutation b = (w', e) ->
  updates run ords body g w (all_done e (<[pk := assign r ords vals]> g) g) w' (all_done e 1 0) e.
Proof.
  intros Hg Hm Hu Hr Hb Hj. destruct (one_hit_list g pk r Hg Hm Hu) as [N E].
  pose proof (up_done run ords body g w [(pk, r)] [b] w' e N E) as U. rewrite <- (hits_size g _ N E) in U.
  assert (Ef : (fun r => if mb r then new_row ords run r else r) <$> g = <[pk := assign r ords vals]> g).
  { apply map_eq. intros k. rewrite lookup_fmap. destruct (decide (k = pk)) as [->|Hne].
    - rewrite Hg, lookup_insert_eq. cbn. rewrite Hm. unfold new_row. by rewrite Hr.
    - rewrite lookup_insert_ne by done. destruct (g !! k) as [r'|] eqn:E'; [|done]. cbn. destruct (mb r') eqn:Hm'; [|done]. by destruct Hne; eapply Hu. }
  rewrite Ef in U. apply U; [constructor; [by exists vals|constructor]|]. right. split; [done|]. exists recMutation, b. split; [by left|done].
Qed.
Lemma deletes_none body g w : (forall k r, g !! k = Some r -> mb r = false) -> deletes body g w g w 0 None.
Proof.
  intros Hno. destruct (no_hits_list g Hno) as [N E]. pose proof (de_done body g w [] w None N E) as U. rewrite <- (hits_size g [] N E) in U. cbn [all_done] in U.
  assert (Ef : filter (fun kr : UUID * Row => mb (snd kr) = false) g = g).
  { apply map_filter_id. intros k r Hk. cbn. by eapply Hno. }
  rewrite Ef in U. apply U. by left.
Qed.
Lemma deletes_one body g w pk r w' e : g !! pk = Some r -> mb r = true -> (forall k r', g !! k = Some r' -> mb r' = true -> k = pk) ->
  jwrite_opt w recMutation (body r) = (w', e) -> deletes body g w (all_done e (delete pk g) g) w' (all_done e 1 0) e.
Proof.
  intros Hg Hm Hu Hj. destruct (one_hit_list g pk r Hg Hm Hu) as [N E]. pose proof (de_done body g w [(pk, r)] w' e N E) as U. rewrite <- (hits_size g _ N E) in U.
  assert (Ef : filter (fun kr : UUID * Row => mb (snd kr) = false) g = delete pk g).
  { apply map_eq. intros k. apply option_eq. intros r'. rewrite map_lookup_filter_Some, lookup_delete_Some. cbn. split.
    - intros [Hg' Hm']. split; [|done]. intros <-. congruence.
    - intros [Hne Hg']. split; [done|]. destruct (mb r') eqn:Hm'; [|done]. destruct Hne. symmetry. by eapply Hu. }
  rewrite Ef in U. apply U. right. split; [done|]. exists recMutation, (body r). split; [by left|done].
Qed.
Lemma journaled_bodies w bodies w' e : journal_bodies w bodies = (w', e) -> journaled w bodies w' e.
Proof.
  unfold journal_bodies. destruct bodies as [|b bodies]; [destruct w; intros [= <- <-]; by left|]. intros E. right. split; [done|].
  exists recTxn, (encodeTxn [] (b :: bodies)). split; [by right|]. by destruct w.
Qed.
End spec.

(** *** The store's promise, by operation *)
Section promise.
Context {J : Type} `{Journal J} (def : resolvedTable) (max ext : Z).
Implicit Types (g : gmap UUID Row) (w : option J).
Local Abbreviation spec_step := (spec_step def max ext).
Lemma promise_update g w k ords compute j g' w' z e : spec_step g w (OUpdate k ords compute j) g' w' (ADone z e) ->
  (g !! k = None /\ g' = g /\ w' = w /\ z = 0 /\ e = None) \/
  exists r, g !! k = Some r /\
    ((exists x, compute r = Err x /\ g' = g /\ w' = w /\ z = 0 /\ e = Some x) \/
     exists vals, compute r = Ok vals /\ mj_update j w (assign r ords vals) = Ok (w', e) /\
       g' = all_done e (<[k := assign r ords vals]> g) g /\ z = all_done e 1 0).
Proof.
  intros S. inversion S; subst; [by left|right; eexists; split; [eassumption|]..]; [left; by eexists|right]. eexists. split_and!; [eassumption..|by destruct e|by destruct e].
Qed.
Lemma promise_update1 g w k ord compute j g' w' z e : spec_step g w (OUpdateOne k ord compute j) g' w' (ADone z e) ->
  (g !! k = None /\ g' = g /\ w' = w /\ z = 0 /\ e = None) \/
  exists r, g !! k = Some r /\
    ((exists x, compute r = Err x /\ g' = g /\ w' = w /\ z = 0 /\ e = Some x) \/
     exists v, compute r = Ok v /\ mj_update j w (<[ord := v]> r) = Ok (w', e) /\
       g' = all_done e (<[k := <[ord := v]> r]> g) g /\ z = all_done e 1 0).
Proof.
  intros S. inversion S; subst; [by left|right; eexists; split; [eassumption|]..]; [left; by eexists|right]. eexists. split_and!; [eassumption..|by destruct e|by destruct e].
Qed.
Lemma promise_delete g w k j g' w' z e : spec_step g w (ODelete k j) g' w' (ADone z e) ->
  (g !! k = None /\ g' = g /\ w' = w /\ z = 0 /\ e = None) \/
  (is_Some (g !! k) /\ mj_delete j w = (w', e) /\ g' = all_done e (delete k g) g /\ z = all_done e 1 0).
Proof. intros S. inversion S; subst; [by left|right]. split_and!; [by eexists|eassumption|by destruct e|by destruct e]. Qed.
Lemma promise_updatew g w pks match_ ords compute encode g' w' z e : spec_step g w (OUpdateWhere pks match_ ords compute encode) g' w' (ADone z e) ->
  (exists k r x, g !! k = Some r /\ match_ r = true /\ compute r = Err x /\ g' = g /\ w' = w /\ z = 0 /\ e = Some x) \/
  exists l bodies, affected g pks match_ l /\ (forall k r, (k, r) ∈ l -> exists vals, compute r = Ok vals) /\
    Forall2 (fun kr b => encode (new_row ords compute (snd kr)) = Ok b) l bodies /\ journal_bodies w bodies = (w', e) /\
    z = all_done e (zlen l) 0 /\
    forall k, g' !! k = all_done e ((fun r => if decide ((k, r) ∈ l) then new_row ords compute r else r) <$> g !! k) (g !! k).
Proof.
  intros S. inversion S; subst; [left; by repeat eexists|right; eexists _, _; split_and!; done|].
  right. eexists _, _. split_and!; [done..|]. intros k0. cbn. match goal with Hg : forall k, g' !! k = _ |- _ => rewrite (Hg k0) end. by destruct (g !! k0).
Qed.
Lemma promise_deletew g w pks match_ encode g' w' z e : spec_step g w (ODeleteWhere pks match_ encode) g' w' (ADone z e) ->
  exists l, affected g pks match_ l /\ journal_bodies w (map (fun kr => encode (pk_cell def (snd kr))) l) = (w', e) /\ z = all_done e (zlen l) 0 /\
    forall k, g' !! k = all_done e (r ← g !! k; if decide ((k, r) ∈ l) then None else Some r) (g !! k).
Proof.
  intros S. inversion S; subst; eexists; (split_and!; [eassumption..|done|]); [done|]. intros k0. cbn. match goal with Hg : forall k, g' !! k = _ |- _ => rewrite (Hg k0) end. by destruct (g !! k0).
Qed.
End promise.

(** ** The lanes of the store *)
Section lanes.
Context (pkHashSeed : Z) {J : Type} `{Journal J} (def : resolvedTable) (max : Z) (tr : option (track def)) (ext : Z) (tid : Z) (pl : plan).
Local Abbreviation pkof := (pkof def).
Local Abbreviation row_wf := (row_wf def).
Local Abbreviation tbl_ok := (tbl_ok pkHashSeed def max tr ext).
Local Abbreviation ords := (pl_updateOrdinals pl).
Local Abbreviation body := (encode_update def tid pl).
Local Abbreviation spec_step := (spec_step def max ext).
Local Abbreviation run_op := (run_op pkHashSeed def max).
Local Abbreviation ncols := (length (t_Columns (rt_def def))).
Hypothesis pk_in : (pkOrd def < ncols)%nat.
Hypothesis ords_in : Forall (fun o => (o < ncols)%nat) ords.
Context (t : tbl_state) (g : gmap UUID Row) (w : option J) (n : nat).
Hypothesis Ht : tbl_ok t g.
Hypothesis Hroom : room (S n) t.
Context (mb : Row -> bool).

(** A lane's answer and the state it leaves: that of no operation of the store or
    of one. *)
Definition lane (P : gmap UUID Row -> option J -> Z -> option error -> Prop) (o : outcome (tbl_state * option J * (Z * option error))) : Prop :=
  exists t' w' z e g', o = Ok (t', w', (z, e)) /\ P g' w' z e /\ tbl_ok t' g' /\ room n t' /\
    ((t' = t /\ w' = w) \/ exists op, op_wf def op /\ run_op t w op = Ok (t', w', ADone z e)).
Lemma lane_stay (P : gmap UUID Row -> option J -> Z -> option error -> Prop) z e : P g w z e -> lane P (Ok (t, w, (z, e))).
Proof. intros HP. exists t, w, z, e, g. split_and!; [done..| |by left]. eapply Forall_impl; [|exact Hroom]; cbv beta; lia. Qed.
Lemma lane_counted (P : gmap UUID Row -> option J -> Z -> option error -> Prop) op (o : outcome (tbl_state * option J * (bool * option error))) :
  run_op t w op = (x ← o; let '(t, w, (ok, e)) := x in Ok (t, w, ADone (b2n ok) e)) -> op_wf def op ->
  (forall g' w' z e, spec_step g w op g' w' (ADone z e) -> P g' w' z e /\ (e <> None -> z = 0)) -> lane P (mbind counted o).
Proof.
  intros Er Hop HP. destruct (sim_step pkHashSeed def max tr ext pk_in t g w op n Ht Hroom Hop) as (t' & g' & w' & a & E & S & Ht' & Hr').
  pose proof E as E0. rewrite Er in E. apply bind_Ok in E as ([[t1 w1] [ok e]] & Eo & E). injection E as -> -> <-. destruct (HP _ _ _ _ S) as [HP' Hz].
  exists t', w', (b2n ok), e, g'. split_and!; [|done..|by right; exists op]. rewrite Eo. cbn. destruct e; [by rewrite Hz|by destruct ok].
Qed.
Lemma lane_done (P : gmap UUID Row -> option J -> Z -> option error -> Prop) op (o : outcome (tbl_state * option J * (Z * option error))) :
  run_op t w op = (x ← o; let '(t, w, (n, e)) := x in Ok (t, w, ADone n e)) -> op_wf def op ->
  (forall g' w' z e, spec_step g w op g' w' (ADone z e) -> P g' w' z e) -> lane P o.
Proof.
  intros Er Hop HP. destruct (sim_step pkHashSeed def max tr ext pk_in t g w op n Ht Hroom Hop) as (t' & g' & w' & a & E & S & Ht' & Hr').
  pose proof E as E0. rewrite Er in E. apply bind_Ok in E as ([[t1 w1] [z e]] & Eo & E). injection E as -> -> <-.
  exists t', w', z, e, g'. split_and!; [done|by apply HP|done..|by right; exists op].
Qed.
Lemma good_row k r : g !! k = Some r -> row_wf r /\ pkof r = k.
Proof. intros Hk. exact (tbl_good pkHashSeed def max tr ext t g Ht k r Hk). Qed.
(** The candidate's row, re-checked. *)
Definition recheck (match_ : Row -> bool) (pk : UUID) (o : outcome (tbl_state * option J * (bool * option error))) : outcome (tbl_state * option J * (Z * option error)) :=
  match g !! pk with
  | None => Ok (t, w, (0, None))
  | Some r => if match_ r then mbind counted o else Ok (t, w, (0, None))
  end.
Lemma update_candidate (match_ : Row -> bool) ord (one : Row -> outcome Value) pk j :
  updateOneByCandidate pkHashSeed def max t w pk ord match_ one j = recheck match_ pk (updateByPKOneJournaled pkHashSeed def max t w pk ord one j).
Proof.
  unfold updateOneByCandidate, updateByPKOneJournaled, recheck. destruct (lookup_row pkHashSeed def max tr ext t g pk Ht) as (s & Hs & G).
  rewrite (index_Some _ _ _ Hs). cbn [mbind outcome_bind]. destruct (g !! pk) as [r|]; [|by rewrite (lift_Some _ _ G)].
  destruct G as (m & E & Hm & _). rewrite (lift_Some _ _ E). cbn [mbind outcome_bind negb lift]. unfold live_row. rewrite Nat2Z.id, (index_Some _ _ _ Hm).
  cbn [mbind outcome_bind lift]. destruct (match_ r); cbn [negb]; [|done]. destruct (one r); [|done..]. cbn [mbind outcome_bind].
  destruct (set_row_journaled _ _ _ _ _ _ _ _ _ _ _ _) as [[[t1 w1] [e|]]| |]; done.
Qed.
Lemma delete_candidate (match_ : Row -> bool) pk j :
  mbind counted (deleteOneByCandidate pkHashSeed def max t w pk (Some match_) j) = recheck match_ pk (deleteByPKJournaled pkHashSeed def max t w pk j).
Proof.
  unfold deleteOneByCandidate, deleteByPKJournaled, recheck. destruct (tbl_shard pkHashSeed def max tr ext t g pk Ht) as (s & Hs & Hsh & Hg).
  rewrite (index_Some _ _ _ Hs). cbn [mbind outcome_bind]. pose proof (sh_find pkHashSeed def s _ pk Hsh) as F. rewrite Hg in F.
  destruct (g !! pk) as [r|]; [|by rewrite (lift_Some _ _ F)]. destruct F as (q & m & pk' & F & Hm & _). rewrite (lift_Some _ _ F).
  cbn [mbind outcome_bind negb]. rewrite Nat2Z.id, (index_Some _ _ _ Hm). cbn [mbind outcome_bind]. by destruct (match_ r).
Qed.
Lemma lane_recheck (P : gmap UUID Row -> option J -> Z -> option error -> Prop) match_ pk o : (forall k r, g !! k = Some r -> match_ r = mb r) ->
  (forall k r, g !! k = Some r -> mb r = true -> k = pk) -> ((forall k r, g !! k = Some r -> mb r = false) -> P g w 0 None) ->
  (forall r, g !! pk = Some r -> mb r = true -> lane P (mbind counted o)) -> lane P (recheck match_ pk o).
Proof.
  intros Hmm Hcov Hnone Hone. unfold recheck.
  assert (Hno : g !! pk = None \/ (exists r, g !! pk = Some r /\ mb r = false) -> lane P (Ok (t, w, (0, None)))).
  { intros Hc. apply lane_stay, Hnone. intros k r Hk. destruct (mb r) eqn:E; [|done]. pose proof (Hcov k r Hk E) as ->.
    destruct Hc as [Hc|(r' & Hc & Hm)]; congruence. }
  destruct (g !! pk) as [r|] eqn:Hk; [|by apply Hno; left]. rewrite (Hmm pk r Hk).
  destruct (mb r) eqn:Hm; [by eapply Hone|]. apply Hno. right. by exists r.
Qed.
Lemma affected_hits pks (match_ : Row -> bool) l : (forall k r, g !! k = Some r -> match_ r = mb r) -> (forall k r, g !! k = Some r -> mb r = true -> StoreSim.visited pks k) ->
  affected g pks match_ l -> NoDup l.*1 /\ forall k r, (k, r) ∈ l <-> g !! k = Some r /\ mb r = true.
Proof.
  intros Hmm Hcov [N E]. split; [done|]. intros k r. rewrite E. split; [intros (Hk & Hm & _); by rewrite (Hmm k r Hk) in Hm|].
  intros [Hk Hm]. split; [done|]. split; [by rewrite (Hmm k r Hk)|by eapply Hcov].
Qed.

Section update.
Context (run : Row -> outcome (list Value)).
Hypothesis run_ok : forall r, row_wf r -> safe (args_wf def ords) (run r).
Local Abbreviation updates := (updates (J := J) mb run ords body g w).
Lemma body_total r : row_wf r -> exists b, body r = Ok b.
Proof.
  intros [Hl _]. unfold encode_update. destruct (index_lt r (pkOrd def)) as (pk & -> & _); [by rewrite Hl|]. cbn [mbind outcome_bind].
  unfold encodeUpdateMutation.
  destruct (encode_sets_total (appendU16LE (encodeCell (appendU16LE ([] ++ [z2b opUpdate]) tid) pk) (u16 (zlen ords))) ords r) as [b ->]; [|by exists b].
  eapply Forall_impl; [|exact ords_in]. cbv beta. intros o Ho. by rewrite Hl.
Qed.
Lemma mj_ok : mj_wf def (mj def tid pl).
Proof. split; [exact pk_in|exact ords_in]. Qed.
Lemma mj_body nr w' e : row_wf nr -> mj_update (mj def tid pl) w nr = Ok (w', e) -> exists b, body nr = Ok b /\ jwrite_opt w recMutation b = (w', e).
Proof.
  intros Hr. destruct (body_total nr Hr) as [b Hb]. exists b. split; [done|]. revert H0. unfold mj_update, mj. cbn [mj_pkOrd mj_tableID mj_ords].
  destruct w as [j|]; [|by intros [= <- <-]]. unfold encode_update in Hb.
  destruct (index nr (pkOrd def)); [|done..]. cbn in Hb |- *. rewrite Hb. cbn. by intros [= <-].
Qed.
Lemma run_wf r vals : row_wf r -> run r = Ok vals -> args_wf def ords vals.
Proof. intros Hr E. pose proof (run_ok r Hr) as Hv. by rewrite E in Hv. Qed.
Lemma run_safe r : row_wf r -> run r <> Panic.
Proof. intros Hr E. pose proof (run_ok r Hr) as Hv. by rewrite E in Hv. Qed.

(** One row, found by its key. *)
Lemma lane_pk pk : NoDup ords -> (forall k r, g !! k = Some r -> (mb r = true <-> k = pk)) ->
  lane updates (mbind counted (updateByPKJournaled pkHashSeed def max t w pk ords run (mj def tid pl))).
Proof.
  intros Hnd Hm. apply (lane_counted _ (OUpdate pk ords run (mj def tid pl))); [done| |].
  { split_and!; [done|apply mj_ok|apply run_safe|apply run_wf]. }
  assert (Hu : forall k r, g !! k = Some r -> mb r = true -> k = pk) by (intros k r Hk; apply (Hm k r Hk)).
  intros g' w' z e [(Hk & -> & -> & -> & ->)|(r & Hk & [(x & Er & -> & -> & -> & ->)|(vals & Er & Ej & -> & ->)])]%promise_update.
  - split; [|done]. apply updates_none. intros k r Hk'. destruct (mb r) eqn:E; [|done]. apply (Hm k r Hk') in E as ->. congruence.
  - split; [|done]. eapply up_fail; [eassumption| |eassumption]. by eapply Hm.
  - destruct (good_row pk r Hk) as [Hr _]. destruct (mj_body (assign r ords vals) w' e) as (b & Hb & Hj); [|done|].
    { apply assign_wf; [done|]. by eapply run_wf. }
    split; [|by destruct e]. eapply updates_one; try eassumption. by apply (Hm pk r).
Qed.
(** One column of one row: the value is the head of the list. *)
Lemma one_vals ord vals v : ords = [ord] -> args_wf def ords vals -> index vals 0 = Ok v ->
  args_wf def [ord] [v] /\ forall r, assign r ords vals = <[ord := v]> r.
Proof.
  intros Ho (Hl & Hf & Hp) Hv. rewrite Ho in *. destruct vals as [|x vals]; [done|]. injection Hv as ->. split; [|by intros; destruct vals].
  split; [cbn; lia|]. split; [|done]. by inversion Hf; constructor.
Qed.
Lemma lane_one ord (one : Row -> outcome Value) pk r0 : ords = [ord] -> (forall r, row_wf r -> one r = (vs ← run r; index vs 0)) ->
  g !! pk = Some r0 -> mb r0 = true -> (forall k r, g !! k = Some r -> mb r = true -> k = pk) ->
  lane updates (mbind counted (updateByPKOneJournaled pkHashSeed def max t w pk ord one (mj def tid pl))).
Proof.
  intros Ho Hone Hk0 Hm0 Hu. apply (lane_counted _ (OUpdateOne pk ord one (mj def tid pl))); [done| |].
  { split_and!; [apply mj_ok| |].
    - intros r Hr. rewrite (Hone r Hr). pose proof (run_ok r Hr) as Hv. destruct (run r) as [vals| |]; [|done..]. cbn in Hv |- *.
      destruct Hv as (Hl & _). rewrite Ho in Hl. destruct vals; [cbn in Hl; lia|done].
    - intros r v Hr. rewrite (Hone r Hr). pose proof (run_ok r Hr) as Hv. destruct (run r) as [vals| |]; [|done..]. cbn in Hv |- *.
      intros Ev. by eapply one_vals. }
  destruct (good_row pk r0 Hk0) as [Hr _].
  intros g' w' z e [(Hk & _)|(r & Hk & G)]%promise_update1; [congruence|]. assert (r = r0) as -> by congruence. rewrite (Hone r0 Hr) in G.
  destruct G as [(x & Er & -> & -> & -> & ->)|(v & Ev & Ej & -> & ->)].
  - split; [|done]. pose proof (run_ok r0 Hr) as Hv. destruct (run r0) as [vals|x'|] eqn:Ex; [|injection Er as ->; by eapply up_fail|done]. by destruct vals.
  - apply bind_Ok in Ev as (vals & Er & Ev). pose proof (run_wf r0 vals Hr Er) as Hv. destruct (one_vals ord vals v Ho Hv Ev) as [_ Ha]. rewrite <- Ha in Ej |- *.
    destruct (mj_body (assign r0 ords vals) w' e) as (b & Hb & Hj); [by apply assign_wf|done|]. split; [|by destruct e]. by eapply updates_one.
Qed.
Lemma lane_candidate (match_ : Row -> bool) ord (one : Row -> outcome Value) pk : ords = [ord] -> (forall r, row_wf r -> one r = (vs ← run r; index vs 0)) ->
  (forall k r, g !! k = Some r -> match_ r = mb r) -> (forall k r, g !! k = Some r -> mb r = true -> k = pk) ->
  lane updates (updateOneByCandidate pkHashSeed def max t w pk ord match_ one (mj def tid pl)).
Proof.
  intros Ho Hone Hmm Hcov. rewrite update_candidate. apply lane_recheck; [done..|apply updates_none|]. intros r Hk Hm. by eapply lane_one.
Qed.
(** Any candidates that cover the hits, and the whole table. *)
Lemma updates_of_spec pks (match_ : Row -> bool) g' w' z e : (forall k r, g !! k = Some r -> match_ r = mb r) ->
  (forall k r, g !! k = Some r -> mb r = true -> StoreSim.visited pks k) ->
  spec_step g w (OUpdateWhere pks match_ ords run body) g' w' (ADone z e) -> updates g' w' z e.
Proof.
  intros Hmm Hcov [(k & r & x & Hk & Hm & Er & -> & -> & -> & ->)|(l & bodies & Ha & Hall & Hf & Hj & -> & Hg)]%promise_updatew.
  { eapply up_fail; [exact Hk| |exact Er]. by rewrite <- (Hmm k r Hk). }
  destruct (affected_hits pks match_ l Hmm Hcov Ha) as [N E].
  assert (Hf' : Forall2 (fun kr b => exists vals, run (snd kr) = Ok vals /\ body (assign (snd kr) ords vals) = Ok b) l bodies).
  { clear Ha N E Hj Hg. induction Hf as [|[k r] b l bodies Hbd Hf IH]; constructor.
    - destruct (Hall k r) as [vals Er]; [by left|]. exists vals. split; [done|]. cbn [snd] in *. unfold new_row in Hbd. by rewrite Er in Hbd.
    - apply IH. intros k' r' Hin. apply (Hall k' r'). by right. }
  rewrite (hits_size mb g l N E).
  replace g' with (all_done e ((fun r => if mb r then new_row ords run r else r) <$> g) g); [apply (up_done mb run ords body g w l bodies w' e N E Hf'); by apply journaled_bodies|].
  apply map_eq. intros k. rewrite Hg. destruct e; [done|]. cbn [all_done]. rewrite lookup_fmap. destruct (g !! k) as [r|] eqn:Hk; [|done]. cbn. f_equal.
  specialize (E k r). destruct (mb r); case_decide as D; try done; [destruct D; by apply E|by apply E in D as [_ ?]].
Qed.
Lemma lane_where pks (match_ : Row -> bool) : pks_wf pks -> (forall k r, g !! k = Some r -> match_ r = mb r) ->
  (forall k r, g !! k = Some r -> mb r = true -> StoreSim.visited pks k) ->
  lane updates (match pks with
                | None => updateWhereAll def max t w match_ ords run body
                | Some pks => updateByCandidates pkHashSeed def max t w pks match_ ords run body
                end).
Proof.
  intros Hp Hmm Hcov. eapply (lane_done _ (OUpdateWhere pks match_ ords run body)); [done| |].
  - split_and!; [done|apply run_safe|apply run_wf|apply body_total].
  - intros g' w' z e S. by eapply updates_of_spec.
Qed.
End update.

Section delete.
Context (cell_of : forall k r, g !! k = Some r -> pk_cell def r = UUIDVal k).
Definition gone (r : Row) : bytes := encode_delete tid (pk_cell def r).
Local Abbreviation deletes := (deletes (J := J) mb gone g w).
Lemma lane_delete_one pk r0 : g !! pk = Some r0 -> mb r0 = true -> (forall k r, g !! k = Some r -> mb r = true -> k = pk) ->
  lane deletes (mbind counted (deleteByPKJournaled pkHashSeed def max t w pk (mj_of tid pk))).
Proof.
  intros Hk0 Hm0 Hu. apply (lane_counted _ (ODelete pk (mj_of tid pk))); [done..|]. intros g' w' z e [(Hk & _)|(_ & Hj & -> & ->)]%promise_delete; [congruence|].
  split; [|by destruct e]. eapply deletes_one; [eassumption..|]. unfold gone. by rewrite (cell_of pk r0 Hk0).
Qed.
Lemma lane_delete_pk pk : (forall k r, g !! k = Some r -> (mb r = true <-> k = pk)) ->
  lane deletes (mbind counted (deleteByPKJournaled pkHashSeed def max t w pk (mj_of tid pk))).
Proof.
  intros Hm. assert (Hu : forall k r, g !! k = Some r -> mb r = true -> k = pk) by (intros k r Hk; apply (Hm k r Hk)).
  destruct (g !! pk) as [r|] eqn:Hk; [eapply lane_delete_one; [done|by apply (Hm pk r)|done]|].
  apply (lane_counted _ (ODelete pk (mj_of tid pk))); [done..|]. intros g' w' z e [(_ & -> & -> & -> & ->)|([r Hr] & _)]%promise_delete; [|congruence].
  split; [|done]. apply deletes_none. intros k r Hk'. destruct (mb r) eqn:E; [|done]. rewrite (Hu k r Hk' E) in Hk'. congruence.
Qed.
Lemma lane_delete_where pks (match_ : Row -> bool) : pks_wf pks -> (forall k r, g !! k = Some r -> match_ r = mb r) ->
  (forall k r, g !! k = Some r -> mb r = true -> StoreSim.visited pks k) ->
  lane deletes (match pks with
                | None => deleteWhereAll pkHashSeed def max t w match_ (encode_delete tid)
                | Some pks => deleteByCandidates pkHashSeed def max t w pks match_ (encode_delete tid)
                end).
Proof.
  intros Hp Hmm Hcov. eapply (lane_done _ (ODeleteWhere pks match_ (encode_delete tid))); [done..|].
  intros g' w' z e (l & Ha & Hj & -> & Hg)%promise_deletew. destruct (affected_hits pks match_ l Hmm Hcov Ha) as [N E]. rewrite (hits_size mb g l N E).
  replace g' with (all_done e (filter (fun kr => mb (snd kr) = false) g) g); [apply (de_done mb gone g w l w' e N E); by apply journaled_bodies|].
  apply map_eq. intros k. rewrite Hg. destruct e; [done|]. cbn [all_done]. apply option_eq. intros r'. rewrite map_lookup_filter_Some. cbn [snd].
  destruct (g !! k) as [r|] eqn:Hk; simpl; [|split; [by intros [? _]|done]]. specialize (E k r). case_decide as D.
  - apply E in D as [_ D]. split; [|done]. intros [[= <-] ?]. congruence.
  - destruct (mb r) eqn:Em; [destruct D; by apply E|]. split; [by intros [? _]|by intros [= <-]].
Qed.
End delete.
End lanes.
