(* ===== verification/ExecOk.v ===== *)
(** * ExecOk: UPDATE and DELETE from the plan to the store

    On a readable table, whatever path the planner picked for the WHERE (primary
    key, index buckets with the dirty overlay, key probe, scan), [execUpdate] and
    [execDelete] end as [WriteOk.updates] and [WriteOk.deletes] say. *)
From S2P Require Import Prelude Bytes Order Uuid Value CompositeKey PkMap Codec Frame Journal Schema Catalog SecIndex IndexOk Store StoreOk StoreSim Merge MergeOk MergeSafe Ast Eval Filter TopN TopNOk Plan PlanJoin PlanOk PlanJoinOk Recovery Replayer RecoveryOk Select SelectOk CandOk WalkOk SelectSound Query Commit CommitOk Exec WriteOk.

(** ** The planner's choice *)
Lemma write_path_shape rt w a : partitioned rt = false -> plan_write_path rt (Some w) = Ok a ->
  (exists src, a = with_pk src) \/
  (pinned_singles (rt_indexes rt) (collectEqConjuncts w ∅) <> [] /\
    a = with_idx (map fst (pinned_singles (rt_indexes rt) (collectEqConjuncts w ∅))) (map snd (pinned_singles (rt_indexes rt) (collectEqConjuncts w ∅))) false false) \/
  a = scan_path \/ exists src, a = set_pkProbe scan_path src.
Proof.
  intros Hp H. unfold plan_write_path in H. inv_bind. destruct x as [src|]; injection H as <-; [left; by exists src|]. right.
  assert (Hs : planPKProbe rt scan_path (Some w) = scan_path \/ exists src, planPKProbe rt scan_path (Some w) = set_pkProbe scan_path src).
  { unfold planPKProbe. cbn [pkLookup idxLookup partLookup compLookup compWalk orderWalk scan_path orb]. rewrite bool_decide_false by done. cbn [orb]. rewrite Hp.
    destruct (_ !! _) as [src|]; [|by left]. destruct (0 <=? _); [right; by exists src|by left]. }
  unfold planIndexEq. cbv zeta. cbn [pins]. rewrite (bool_decide_false (Some w = None)) by done. cbn [orb]. case_bool_decide; [by right|].
  destruct (pinned_singles _ _) as [|p l] eqn:E; [by right|]. left. split; [done|].
  unfold planPKProbe. cbn [pkLookup idxLookup with_idx]. rewrite (bool_decide_true (map fst (p :: l) <> [])) by done. by rewrite !orb_true_r, ?orb_true_l.
Qed.
Lemma single_case {A} (l : list nat) (f : nat -> A) (d : A) (Q : A -> Prop) : (forall o, l = [o] -> Q (f o)) -> Q d -> Q (match l with [o] => f o | _ => d end).
Proof. intros H1 H2. destruct l as [|o [|]]; auto. Qed.

(** ** SET values *)
Section sets.
Context (def : resolvedTable) (args : list Value).
Local Abbreviation cols := (t_Columns (rt_def def)).
Local Abbreviation ncols := (length (t_Columns (rt_def def))).
Hypothesis Hargs : Forall value_ok args.
Lemma validate_safe c v : safe (fun _ => True) (validateValue c v).
Proof. unfold validateValue. repeat case_match; done. Qed.
Lemma eval_sets_safe sets r : Forall (fun s => bound ncols (set_val s)) sets -> row_wf def r -> forall ords, length ords = length sets ->
  Forall (fun o => (o < ncols)%nat) ords ->
  safe (fun vs => length vs = length sets /\ Forall value_ok vs) (eval_sets sets ords cols (MkCtx r (rt_colByName def) args)).
Proof.
  intros Hs [Hl Hv]. induction Hs as [|a sets Ha _ IH]; intros [|o ords] Hlen Ho; cbn in Hlen; try lia; cbn [eval_sets evalExpr]; [by split|].
  apply list.Forall_cons in Ho as [Ho Hos]. pose proof (eval_typed (set_val a) (MkCtx r (rt_colByName def) args)) as T. cbn [c_row c_args] in T.
  rewrite Hl in T. specialize (T Ha Hv Hargs). destruct (eval _ _) as [v| |]; [|done..]. destruct T as [T _]. cbn [mbind outcome_bind].
  destruct (index_lt cols o Ho) as (c & -> & _). cbn [mbind outcome_bind].
  pose proof (validate_safe c v) as Hc. destruct (validateValue c v); [|done..]. cbn [mbind outcome_bind].
  pose proof (IH ords ltac:(lia) Hos) as G. destruct (eval_sets _ _ _ _); [|done..]. cbn in G |- *. destruct G. split; [lia|by constructor].
Qed.
Lemma eval_sets_const sets : existsb (fun a => exprRefsColumn (set_val a)) sets = false -> forall ords r r',
  eval_sets sets ords cols (MkCtx r (rt_colByName def) args) = eval_sets sets ords cols (MkCtx r' (rt_colByName def) args).
Proof.
  induction sets as [|a sets IH]; intros Hd ords r r'; [done|]. cbn in Hd. apply orb_false_iff in Hd as [Ha Hd]. cbn [eval_sets evalExpr].
  rewrite (eval_no_column (set_val a) r r') by done. destruct (eval _ _); [|done..]. cbn [mbind outcome_bind]. destruct ords as [|o ords]; [done|].
  destruct (index _ _); [|done..]. cbn [mbind outcome_bind]. destruct (validateValue _ _); [|done..]. cbn [mbind outcome_bind]. by rewrite (IH Hd ords r r').
Qed.
End sets.

(** ** One table, one write statement *)
Section exec.
Context (pkHashSeed : Z) {J : Type} `{Journal J} (def : resolvedTable) (ck : nat -> ValueKind) (max ext tid : Z) (pl : plan).
Local Abbreviation ncols := (length (t_Columns (rt_def def))).
Local Abbreviation ords := (pl_updateOrdinals pl).
Local Abbreviation acc := (pl_access pl).
Hypothesis pk_in : (pkOrd def < ncols)%nat.
Hypothesis Hrt : resolved_ok (rt_def def) def.
Hypothesis Hpart : partitioned def = false.
Context (t : tbl_state) (ixs : list secIndex) (g : gmap UUID Row) (d : list UUID) (w : option J) (n : nat).
Hypothesis Ht : tbl_ok pkHashSeed def max None ext t g.
Hypothesis Hroom : room (S n) t.
Hypothesis R : readable pkHashSeed def ck t ixs g d.
Hypothesis rows_fit : forall k r, g !! k = Some r -> row_fits (t_Columns (rt_def def)) r.
Context (where_ : option expr) (args : list Value).
Hypothesis Hargs : Forall value_ok args.
Hypothesis Hwhere : forall e, where_ = Some e -> named def e.
Hypothesis Hbound : opt_bound ncols where_.
Hypothesis Hpath : plan_write_path def where_ = Ok acc.
Hypothesis Hpins : Forall (pin_ok ck args) (access_pins def acc).
Hypothesis Hkind : ck (pkOrd def) = KindUUID.
Hypothesis Hnn : not_null def (pkOrd def).
Local Abbreviation mb := (matchb (rt_colByName def) args where_).
Local Abbreviation pinned r l := (Forall (PlanOk.pinned (rt_colByName def) args r) l).
Local Abbreviation lane := (lane pkHashSeed def max None ext t w n).
Local Abbreviation body := (encode_update def tid pl).

Lemma where_is k r : g !! k = Some r -> where_match def where_ args r = mb r.
Proof.
  intros _. unfold where_match, matchb. destruct where_ as [e|]; [|done]. cbn [evalExpr]. unfold interpreted.
  destruct (eval e _) as [v| |]; cbn; [|by rewrite bool_decide_false..]. destruct (truthy v); [by rewrite bool_decide_true|by rewrite bool_decide_false].
Qed.
Lemma scan_is k r : g !! k = Some r -> scan_match def where_ args r = mb r.
Proof.
  intros Hk. unfold scan_match. by rewrite (matcher_decides def ck (rt_colByName def) args Hargs where_ Hbound r (rd_good _ _ _ _ _ _ _ R k r Hk)).
Qed.
Lemma planned e k r : where_ = Some e -> g !! k = Some r -> mb r = true <-> pinned r (access_pins def acc) /\ Forall (matches (rt_colByName def) args r) (access_rest acc e).
Proof.
  intros Ew Hk. destruct (rd_good _ _ _ _ _ _ _ R k r Hk) as ((_ & Hv) & _). rewrite Ew, matchb_matches. rewrite Ew in Hpath.
  exact (write_path_ok _ _ Hrt (rt_colByName def) args r Hv Hargs e acc (Hwhere e Ew) Hpath).
Qed.
Lemma cell_of k r : g !! k = Some r -> pk_cell def r = UUIDVal k.
Proof.
  intros Hk. destruct (cell_at pkHashSeed def ck t ixs g d R rows_fit (pkOrd def) k r Hk Hnn) as (v & Ev & [Hv _] & Kv).
  destruct (rd_rows _ _ _ _ _ _ (rd_stored _ _ _ _ _ _ _ R) k r Hk) as (_ & _ & Epk). unfold pk_cell. unfold pkof in Epk. rewrite Ev in *. cbn in *.
  rewrite <- Epk. apply uuid_value; [done|congruence].
Qed.

(** The key a plan pins: the one row that may match. *)
Lemma keyed src : access_pins def acc = [(Z.to_nat (rt_pkOrdinal def), src)] -> exists v, evalLitOrParamValue src args = Ok v /\ IsNull v = false /\
  coerceToUUID v = Ok (v_UUID v) /\ (forall k r, g !! k = Some r -> pinned r (access_pins def acc) <-> k = v_UUID v).
Proof.
  intros E. pose proof Hpins as Hp. rewrite E in Hp. apply Forall_cons_1 in Hp as [[v Hv] _]. exists v. pose proof Hv as (Ev & [Hok Hnn'] & Kv). cbn in Ev, Kv.
  unfold pkOrd in Hkind. rewrite Hkind in Kv. split_and!; [done|unfold IsNull; by rewrite bool_decide_false|unfold coerceToUUID; by rewrite Kv|].
  intros k r Hk. rewrite E, list.Forall_singleton. by apply (pk_pinned pkHashSeed def ck t ixs g d R rows_fit args).
Qed.

(** The index candidates cover the matching rows. *)
Section idx.
Context (e : expr).
Hypothesis Ew : where_ = Some e.
Local Abbreviation l := (pinned_singles (rt_indexes def) (collectEqConjuncts e ∅)).
Hypothesis Hne : l <> [].
Hypothesis Ea : acc = with_idx (map fst l) (map snd l) false false.
Lemma exec_idx_pins : access_pins def acc = l /\ Forall (pin_ok ck args) l /\ Forall (fun p => single_index ixs (fst p)) l /\
  zip (idxCols acc) (idxSrcs acc) = l.
Proof.
  assert (E : access_pins def acc = l) by (rewrite Ea; unfold access_pins; cbn; by rewrite app_nil_r, zip_pairs). split; [done|]. split; [by rewrite <- E|]. split.
  - apply list.Forall_forall. intros [o v] Hin. apply (indexFor_single def ck pkHashSeed t ixs g d R). unfold pinned_singles in Hin.
    apply list_elem_of_omap in Hin as (ri & Hri & Hin). exists ri. split; [done|]. destruct (ri_ordinals ri) as [|x [|]]; try done.
    destruct (_ !! x); [|done]. by injection Hin as -> _.
  - rewrite Ea. cbn. apply zip_pairs.
Qed.
Lemma idx_matched k r : g !! k = Some r -> mb r = true -> pinned r l.
Proof. intros Hk Hm. apply (planned e k r Ew Hk) in Hm as [Hm _]. by rewrite (proj1 exec_idx_pins) in Hm. Qed.
Definition covers (pks : list UUID) : Prop := NoDup pks /\ forall k r, g !! k = Some r -> mb r = true -> k ∈ pks.
Lemma candidates : exists c, idxCandidates pkHashSeed t ixs pl (sel_ctx def args) = Ok c /\
  match c with
  | None => forall k r, g !! k = Some r -> mb r = false
  | Some c => exists pks, cand_pks c = Ok pks /\ covers pks
  end.
Proof.
  destruct exec_idx_pins as (_ & Hp & Hs & Ez). unfold idxCandidates. rewrite Ez.
  destruct (idx_loop_ok def ck (rt_colByName def) args pkHashSeed t ixs g d R (sel_ctx def args) l eq_refl Hp Hs None Hne) as (pks & E & Hn & Hx).
  rewrite E, ok_bind, (overlay_ok def ck pkHashSeed t ixs g d R).
  assert (Hc : forall k r, g !! k = Some r -> mb r = true -> k ∈ pks \/ k ∈ d).
  { intros k r Hk Hm. destruct (dirty_decided d k) as [?|Hd]; [by right|left]. apply (Hx k r Hk Hd). split; [done|]. by eapply idx_matched. }
  destruct (_ && _) eqn:El; eexists; (split; [done|]).
  - apply andb_true_iff in El as [E1%Nat.eqb_eq%nil_length_inv E2%Nat.eqb_eq%nil_length_inv]. intros k r Hk. destruct (mb r) eqn:Em; [|done].
    rewrite E1, E2 in Hc. by destruct (Hc k r Hk Em) as [?%elem_of_nil|?%elem_of_nil].
  - exists (visited (MkCand pks d)). split.
    + unfold cand_pks. destruct (Nat.ltb_spec 0 (length (cs_dirty (MkCand pks d)))) as [Hl|Hl].
      * rewrite emit_visits. assert (G : forall m a, each_pk (fun l pk => Ok (l ++ [pk], false)) m a = Ok (a ++ m, false)).
        { induction m as [|pk m IH]; intros a; cbn [each_pk]; [by rewrite app_nil_r|]. cbn [mbind outcome_bind fst snd]. rewrite IH, <- app_assoc. done. }
        by rewrite G.
      * unfold visited. by rewrite (proj2 (Nat.eqb_eq _ _)) by lia.
    + split; [by apply visited_nodup|]. intros k r Hk Hm. apply visited_elem. by apply (Hc k r).
Qed.
(** One pin and no dirty row: the bucket. *)
Lemma bucket : length (idxCols acc) = 1%nat -> t_readDirty t = 0 -> exists o src v si, l = [(o, src)] /\ idxCols acc = [o] /\ idxSrcs acc = [src] /\
  evalLitOrParamValue src args = Ok v /\ IsNull v = false /\ indexFor ixs o = Some si /\ covers (lookup si (keyOf v)).
Proof.
  intros Hl Hd. apply (rd_clean _ _ _ _ _ _ (rd_stored _ _ _ _ _ _ _ R)) in Hd. destruct exec_idx_pins as (_ & Hp & Hs & _). pose proof idx_matched as Hm. rewrite Ea in *. cbn [idxCols idxSrcs with_idx] in *.
  destruct l as [|[o src] [|]]; try done. cbn [map fst snd] in *. apply Forall_cons_1 in Hp as [[v Hv] _]. apply Forall_cons_1 in Hs as [(si & Ei & Hsi & Eo) _].
  pose proof Hv as (Ev & [_ Nv] & _). destruct (bucket_exact def ck (rt_colByName def) args pkHashSeed t ixs g d R si o src v Hsi Eo Hv) as [Hn Hb].
  exists o, src, v, si. split_and!; try done; [unfold IsNull; by rewrite bool_decide_false|]. split; [done|]. intros k r Hk Hmb. apply (Hb k r Hk); [rewrite Hd; by intros ?%elem_of_nil|].
  specialize (Hm k r Hk Hmb). by rewrite list.Forall_singleton in Hm.
Qed.
End idx.

Lemma lane_early {A} P (o : outcome A) k : match o with Ok a => lane P (k a) | Err e => P g w 0 (Some e) | Panic => False end -> lane P (early t w o k).
Proof. destruct o; [done| |done]. intros HP. by apply (lane_stay pkHashSeed def max None ext pk_in t g w n Ht Hroom). Qed.
Lemma lane_key P src k : access_pins def acc = [(Z.to_nat (rt_pkOrdinal def), src)] ->
  (forall u, (forall k r, g !! k = Some r -> pinned r (access_pins def acc) <-> k = u) -> lane P (k u)) ->
  lane P (early t w (evalLitOrParamValue src args) (fun v => if IsNull v then nothing t w else early t w (coerceToUUID v) k)).
Proof.
  intros E HP. destruct (keyed src E) as (v & Ev & Nv & Cv & Hk). rewrite Ev. cbn [early]. rewrite Nv, Cv. cbn [early]. by apply HP.
Qed.
Lemma pk_exact src e u : where_ = Some e -> acc = with_pk src -> (forall k r, g !! k = Some r -> pinned r (access_pins def acc) <-> k = u) ->
  forall k r, g !! k = Some r -> (mb r = true <-> k = u).
Proof.
  intros Ew Ea Hk k r Hg. rewrite (planned e k r Ew Hg), (Hk k r Hg). replace (access_rest acc e) with (@nil expr) by by rewrite Ea.
  split; [by intros [? _]|by split; [|constructor]].
Qed.
Lemma probe_covers e u : where_ = Some e -> (forall k r, g !! k = Some r -> pinned r (access_pins def acc) <-> k = u) ->
  forall k r, g !! k = Some r -> mb r = true -> k = u.
Proof. intros Ew Hk k r Hg Hm. apply (planned e k r Ew Hg) in Hm as [Hm _]. by apply (Hk k r Hg). Qed.

(** *** DELETE *)
Local Abbreviation deletes := (deletes (J := J) mb (gone def tid) g w).
Lemma lane_nothing : (forall k r, g !! k = Some r -> mb r = false) -> lane deletes (nothing t w).
Proof. intros Hno. apply (lane_stay pkHashSeed def max None ext pk_in t g w n Ht Hroom). by apply deletes_none. Qed.
Lemma lane_delete_of pk : (forall k r, g !! k = Some r -> mb r = true -> k = pk) -> lane deletes (delete_one pkHashSeed max def tid t w where_ args pk).
Proof.
  intros Hu. unfold delete_one. change (_ ≫= _) with (mbind counted (deleteOneByCandidate pkHashSeed def max t w pk (Some (where_match def where_ args)) (mj_of tid pk))).
  rewrite (delete_candidate pkHashSeed def max None ext t g w Ht). apply (lane_recheck pkHashSeed def max None ext pk_in t g w n Ht Hroom mb); [apply where_is|done|by apply deletes_none|].
  intros r Hk Hm. by eapply lane_delete_one; [..|apply cell_of|exact Hk|exact Hm|].
Qed.
Lemma lane_delete_cands e : where_ = Some e -> pinned_singles (rt_indexes def) (collectEqConjuncts e ∅) <> [] ->
  acc = with_idx (map fst (pinned_singles (rt_indexes def) (collectEqConjuncts e ∅))) (map snd (pinned_singles (rt_indexes def) (collectEqConjuncts e ∅))) false false ->
  lane deletes (delete_candidates pkHashSeed max def tid pl ixs t w where_ args).
Proof.
  intros Ew Hne Ea. unfold delete_candidates. destruct (candidates e Ew Hne Ea) as ([c|] & -> & Hc); cbn [early]; [|by apply lane_nothing].
  destruct Hc as (pks & -> & Hn & Hcov). rewrite ok_bind.
  apply (lane_delete_where pkHashSeed def max None ext tid pk_in t g w n Ht Hroom mb (Some pks)); [done|apply where_is|done].
Qed.
(** The shapes of the plan. *)
Lemma shapes : (exists e src, where_ = Some e /\ acc = with_pk src) \/
  (exists e, where_ = Some e /\ pinned_singles (rt_indexes def) (collectEqConjuncts e ∅) <> [] /\
    acc = with_idx (map fst (pinned_singles (rt_indexes def) (collectEqConjuncts e ∅))) (map snd (pinned_singles (rt_indexes def) (collectEqConjuncts e ∅))) false false) \/
  acc = scan_path \/ exists e src, where_ = Some e /\ acc = set_pkProbe scan_path src.
Proof.
  pose proof Hpath as Hp. destruct where_ as [e|]; [|injection Hp as <-; by right; right; left].
  destruct (write_path_shape def e acc Hpart Hp) as [[src E]|[[Hne E]|[E|[src E]]]]; [left; by exists e, src|right; left; by exists e|by right; right; left|right; right; right; by exists e, src].
Qed.
Lemma pk_access src : acc = with_pk src -> access_pins def acc = [(Z.to_nat (rt_pkOrdinal def), src)].
Proof. intros ->. done. Qed.
Lemma probe_access src : acc = set_pkProbe scan_path src -> access_pins def acc = [(Z.to_nat (rt_pkOrdinal def), src)].
Proof. intros ->. done. Qed.
Lemma probe_value src row cols : access_pins def acc = [(Z.to_nat (rt_pkOrdinal def), src)] -> evalExpr (Some src) (MkCtx row cols args) = evalLitOrParamValue src args.
Proof. intros E. destruct (keyed src E) as (v & Ev & _). rewrite Ev. cbn [evalExpr]. by apply value_of_eval. Qed.
Lemma lane_delete_scan : lane deletes (deleteWhereAll pkHashSeed def max t w (scan_match def where_ args) (encode_delete tid)).
Proof. apply (lane_delete_where pkHashSeed def max None ext tid pk_in t g w n Ht Hroom mb None); [done|apply scan_is|done]. Qed.
Lemma lane_delete_idx e : where_ = Some e -> pinned_singles (rt_indexes def) (collectEqConjuncts e ∅) <> [] ->
  acc = with_idx (map fst (pinned_singles (rt_indexes def) (collectEqConjuncts e ∅))) (map snd (pinned_singles (rt_indexes def) (collectEqConjuncts e ∅))) false false ->
  lane deletes (delete_idx pkHashSeed max def tid pl ixs t w where_ args).
Proof.
  intros Ew Hne Ea. pose proof (lane_delete_cands e Ew Hne Ea) as HC. unfold delete_idx. destruct (_ && _) eqn:E1; [|done].
  apply andb_true_iff in E1 as [E1%Nat.eqb_eq E2%Z.eqb_eq]. destruct (bucket e Ew Hne Ea E1 E2) as (o & src & v & si & _ & Eo & Es & Ev & Nv & Ei & Hn & Hcov).
  rewrite Eo, Es. change (index [src] 0) with (Ok src). change (index [o] 0) with (Ok o). cbn [early]. rewrite Ev. cbn [early]. rewrite Nv, Ei, lookupOne_classifies.
  destruct (lookup si (keyOf v)) as [|u [|u' us]]; cbn [andb negb].
  - apply lane_nothing. intros k r Hk. destruct (mb r) eqn:Em; [|done]. by apply (Hcov k r Hk) in Em as ?%elem_of_nil.
  - apply lane_delete_of. intros k r Hk Hm. by apply (Hcov k r Hk) in Hm as ?%list_elem_of_singleton.
  - done.
Qed.
Lemma execDelete_ok : lane deletes (execDelete pkHashSeed max def tid pl ixs t w where_ args).
Proof.
  unfold execDelete. destruct shapes as [(e & src & Ew & Ea)|[(e & Ew & Hne & Ea)|[Ea|(e & src & Ew & Ea)]]].
  - assert (Ep : pkLookup acc = true /\ pkSource acc = Some src) by by rewrite Ea. destruct Ep as [Ep1 Ep2]. rewrite ?Ep1, ?Ep2. cbn [lit_source]. apply lane_key; [by apply pk_access|]. intros u Hu.
    apply (lane_delete_pk pkHashSeed def max None ext tid pk_in t g w n Ht Hroom mb cell_of). by eapply pk_exact.
  - pose proof (lane_delete_idx e Ew Hne Ea) as HI. assert (Ep : pkLookup acc = false /\ pkProbe acc = None) by by rewrite Ea. destruct Ep as [-> ->].
    destruct (_ && _); [done|apply lane_delete_scan].
  - assert (Ep : pkLookup acc = false /\ idxLookup acc = false /\ pkProbe acc = None) by by rewrite Ea. destruct Ep as (-> & -> & ->). cbn [andb]. apply lane_delete_scan.
  - pose proof (probe_access src Ea) as Epin. assert (Ep : pkLookup acc = false /\ idxLookup acc = false /\ pkProbe acc = Some src) by by rewrite Ea. destruct Ep as (Ep1 & Ep2 & Ep3). rewrite ?Ep1, ?Ep2, ?Ep3. cbn [andb]. unfold sel_ctx. rewrite probe_value by done.
    apply lane_key; [done|]. intros u Hu. apply lane_delete_of. by eapply probe_covers.
Qed.

(** *** UPDATE *)
Section update.
Context (sets : list setAssign).
Hypothesis Hdep : pl_setRowDependent pl = existsb (fun a => exprRefsColumn (set_val a)) sets.
Hypothesis Hsets : Forall (fun s => bound ncols (set_val s)) sets.
Hypothesis Hlen : length ords = length sets.
Hypothesis Hords : Forall (fun o => (o < ncols)%nat /\ o <> pkOrd def) ords.
Hypothesis Hnd : NoDup ords.
Local Abbreviation run := (evalSet def pl sets args).
Local Abbreviation updates f := (updates (J := J) mb f ords body g w).
Lemma ords_below : Forall (fun o => (o < ncols)%nat) ords.
Proof. eapply Forall_impl; [|exact Hords]. by intros o [? _]. Qed.
Lemma run_ok r : row_wf def r -> safe (args_wf def ords) (run r).
Proof.
  intros Hr. pose proof (eval_sets_safe def args Hargs sets r Hsets Hr ords Hlen ords_below) as S. unfold evalSet. destruct (eval_sets _ _ _ _); [|done..].
  destruct S as [S1 S2]. split; [lia|by split].
Qed.
Lemma run_const r : pl_setRowDependent pl = false -> run r = run [].
Proof. intros E. rewrite Hdep in E. by apply eval_sets_const. Qed.
Lemma null_row : row_wf def (replicate ncols Null).
Proof. split; [apply length_replicate|]. apply Forall_replicate. exact ok_null. Qed.
Lemma run_nil : pl_setRowDependent pl = false -> run [] <> Panic.
Proof. intros E X. pose proof (run_ok _ null_row) as S. by rewrite run_const, X in S. Qed.
Lemma one_is ord r : ords = [ord] -> computeOne def sets args ord r = (vs ← run r; index vs 0).
Proof.
  intros Eo. pose proof Hlen as Hl. rewrite Eo in Hl. destruct sets as [|a [|]]; try (cbn in Hl; lia).
  pose proof ords_below as Hb. rewrite Eo in Hb. apply Forall_cons_1 in Hb as [Hb _]. unfold computeOne, evalSet. rewrite Eo. cbn [eval_sets].
  destruct (index_lt (t_Columns (rt_def def)) ord Hb) as (c & -> & _). change (index [a] 0) with (Ok a). cbn [mbind outcome_bind].
  destruct (evalExpr _ _) as [v| |]; [|done..]. cbn [mbind outcome_bind]. destruct (validateValue c v); [|done..]. done.
Qed.
Lemma updates_ext f f' g' w' z e : (forall r, f r = f' r) -> updates f g' w' z e -> updates f' g' w' z e.
Proof.
  intros Hf U. destruct U as [e He Hx|k r e Hk Hm Hx|l bodies w' e Hn Hl Hb Hj].
  - apply up_early; [intros r; rewrite <- !Hf; apply He|by rewrite <- Hf].
  - eapply up_fail; [done..|by rewrite <- Hf].
  - replace ((fun r => if mb r then new_row ords f r else r) <$> g) with ((fun r => if mb r then new_row ords f' r else r) <$> g).
    + eapply up_done; [done..| |done]. eapply Forall2_impl; [|exact Hb]. intros kr b (vals & E1 & E2). exists vals. by rewrite <- Hf.
    + apply map_fmap_ext. intros k r _. unfold new_row. by rewrite Hf.
Qed.
Lemma lane_ext f o : (forall r, f r = run r) -> lane (updates f) o -> lane (updates run) o.
Proof.
  intros Hf (t' & w' & z & e & g' & Eo & U & HH). exists t', w', z, e, g'. split; [done|]. split; [by eapply updates_ext|done].
Qed.
(** Values no column influences are evaluated before any row. *)
Lemma lane_evaluated {A} (f : Row -> outcome A) k : (pl_setRowDependent pl = false -> forall r, f r = f []) ->
  (pl_setRowDependent pl = false -> match f [] with Err e => run [] = Err e | Panic => run [] = Panic | Ok _ => True end) ->
  (forall f', (forall r, f' r = f r) -> lane (updates run) (k f')) -> lane (updates run) (early t w (evaluated pl f) k).
Proof.
  intros Hc He Hk. apply lane_early. unfold evaluated. assert (E : pl_setRowDependent pl = true \/ pl_setRowDependent pl = false) by (destruct (pl_setRowDependent pl); auto).
  destruct E as [E|E]; rewrite E; [by apply Hk|]. specialize (Hc E). specialize (He E).
  destruct (f []) as [v|x|] eqn:Ef; cbn [mbind outcome_bind].
  - apply Hk. intros r. by rewrite Hc.
  - apply up_early; [|done]. intros r. by apply run_const.
  - by destruct (run_nil E).
Qed.
Lemma lane_evalSet k : (forall f, (forall r, f r = run r) -> lane (updates run) (k f)) -> lane (updates run) (early t w (evaluated pl run) k).
Proof. intros Hk. apply lane_evaluated; [intros E r; by apply run_const|by intros _; destruct (run [])|done]. Qed.
Lemma lane_computeOne ord k : ords = [ord] -> (forall f, (forall r, f r = (vs ← run r; index vs 0)) -> lane (updates run) (k f)) ->
  lane (updates run) (early t w (evaluated pl (computeOne def sets args ord)) k).
Proof.
  intros Eo Hk. apply lane_evaluated.
  - intros E r. rewrite !one_is by done. by rewrite run_const.
  - intros E. rewrite one_is by done. pose proof (run_ok _ null_row) as S. rewrite run_const in S by done. destruct (run []) as [vals| |]; [|done..].
    destruct S as (Hl & _). rewrite Eo in Hl. destruct vals; [cbn in Hl; lia|done].
  - intros f Hf. apply Hk. intros r. rewrite Hf. by apply one_is.
Qed.
Lemma lane_quiet : (forall k r, g !! k = Some r -> mb r = false) -> lane (updates run) (nothing t w).
Proof. intros Hno. apply (lane_stay pkHashSeed def max None ext pk_in t g w n Ht Hroom). by apply updates_none. Qed.
Lemma lane_pk_one ord f u : ords = [ord] -> (forall r, f r = (vs ← run r; index vs 0)) -> (forall k r, g !! k = Some r -> mb r = true <-> k = u) ->
  lane (updates run) (mbind counted (updateByPKOneJournaled pkHashSeed def max t w u ord f (mj def tid pl))).
Proof.
  intros Eo Hf Hu. assert (Hcov : forall k r, g !! k = Some r -> mb r = true -> k = u) by (intros k r Hk; apply (Hu k r Hk)). destruct (g !! u) as [r|] eqn:Hk.
  - by eapply (lane_one pkHashSeed def max None ext tid pl pk_in ords_below t g w n Ht Hroom mb run run_ok ord f u r); [..|apply (Hu u r Hk)|].
  - pose proof (updateOne_ok pkHashSeed def max None ext pk_in t w g u ord f (mj def tid pl) (S n) Ht Hroom) as U. cbv zeta in U. rewrite Hk in U. rewrite U.
    apply lane_quiet. intros k r Hk'. destruct (mb r) eqn:Em; [|done]. apply (Hcov k r Hk') in Em as ->. congruence.
Qed.
Lemma lane_cand ord f u : ords = [ord] -> (forall r, f r = (vs ← run r; index vs 0)) -> (forall k r, g !! k = Some r -> mb r = true -> k = u) ->
  lane (updates run) (updateOneByCandidate pkHashSeed def max t w u ord (where_match def where_ args) f (mj def tid pl)).
Proof.
  intros Eo Hf Hu. apply (lane_candidate pkHashSeed def max None ext tid pl pk_in ords_below t g w n Ht Hroom mb run run_ok); [done|by intros r _|apply where_is|done].
Qed.
Lemma lane_covers f pks : (forall r, f r = run r) -> covers pks ->
  lane (updates run) (updateByCandidates pkHashSeed def max t w pks (where_match def where_ args) ords f body).
Proof.
  intros Hf [Hn Hcov]. eapply lane_ext; [exact Hf|]. apply (lane_where pkHashSeed def max None ext tid pl pk_in ords_below t g w n Ht Hroom mb f) with (pks := Some pks);
    [intros r; rewrite Hf; apply run_ok|done|apply where_is|done].
Qed.
Lemma lane_scan f : (forall r, f r = run r) -> lane (updates run) (updateWhereAll def max t w (scan_match def where_ args) ords f body).
Proof.
  intros Hf. eapply lane_ext; [exact Hf|]. apply (lane_where pkHashSeed def max None ext tid pl pk_in ords_below t g w n Ht Hroom mb f) with (pks := None);
    [intros r; rewrite Hf; apply run_ok|done|apply scan_is|done].
Qed.
Lemma first_is f r : (forall r, f r = run r) -> first_of f r = (vs ← run r; index vs 0).
Proof. intros Hf. unfold first_of. by rewrite Hf. Qed.
(** The lone candidate under one SET column, or the walk over the candidates. *)
Lemma lane_pks f pks : (forall r, f r = run r) -> covers pks ->
  lane (updates run) (match pks, ords with
    | [pk], [ord] => updateOneByCandidate pkHashSeed def max t w pk ord (where_match def where_ args) (first_of f) (mj def tid pl)
    | _, _ => updateByCandidates pkHashSeed def max t w pks (where_match def where_ args) ords f body
    end).
Proof.
  intros Hf Hc. pose proof (lane_covers f pks Hf Hc) as HC. destruct pks as [|u [|]]; [done| |done]. apply single_case; [|done]. intros ord Eo.
  apply lane_cand; [done|intros r; by apply first_is|]. intros k r Hk Hm. apply list_elem_of_singleton. by eapply (proj2 Hc).
Qed.
Lemma lane_update_idx e f : where_ = Some e -> pinned_singles (rt_indexes def) (collectEqConjuncts e ∅) <> [] ->
  acc = with_idx (map fst (pinned_singles (rt_indexes def) (collectEqConjuncts e ∅))) (map snd (pinned_singles (rt_indexes def) (collectEqConjuncts e ∅))) false false ->
  (forall r, f r = run r) -> lane (updates run) (update_idx pkHashSeed max def tid pl ixs t w where_ args f).
Proof.
  intros Ew Hne Ea Hf. unfold update_idx. destruct (candidates e Ew Hne Ea) as ([c|] & -> & Hc); cbn [early]; [|by apply lane_quiet].
  destruct Hc as (pks & -> & Hc). rewrite ok_bind. by apply lane_pks.
Qed.
Lemma lane_general : lane (updates run) (update_general pkHashSeed max def tid pl ixs t w sets where_ args).
Proof.
  unfold update_general. apply lane_evalSet. intros f Hf. destruct shapes as [(e & src & Ew & Ea)|[(e & Ew & Hne & Ea)|[Ea|(e & src & Ew & Ea)]]].
  - unfold update_pk. assert (Ep : pkLookup acc = true /\ pkSource acc = Some src) by by rewrite Ea. destruct Ep as [Ep1 Ep2]. rewrite ?Ep1, ?Ep2. cbn [lit_source]. apply lane_key; [by apply pk_access|]. intros u Hu. eapply lane_ext; [exact Hf|].
    apply (lane_pk pkHashSeed def max None ext tid pl pk_in ords_below t g w n Ht Hroom mb f); [intros r; rewrite Hf; apply run_ok|done|by eapply pk_exact].
  - pose proof (lane_update_idx e f Ew Hne Ea Hf) as HI. assert (Ep : pkLookup acc = false /\ pkProbe acc = None) by by rewrite Ea. destruct Ep as [-> ->].
    destruct (_ && _); [done|by apply lane_scan].
  - assert (Ep : pkLookup acc = false /\ idxLookup acc = false /\ pkProbe acc = None) by by rewrite Ea. destruct Ep as (-> & -> & ->). cbn [andb]. by apply lane_scan.
  - pose proof (probe_access src Ea) as Epin. assert (Ep : pkLookup acc = false /\ idxLookup acc = false /\ pkProbe acc = Some src) by by rewrite Ea. destruct Ep as (Ep1 & Ep2 & Ep3). rewrite ?Ep1, ?Ep2, ?Ep3. cbn [andb]. unfold update_probe, sel_ctx. rewrite probe_value by done.
    apply lane_key; [done|]. intros u Hu. assert (Hcov : forall k r, g !! k = Some r -> mb r = true -> k = u) by by eapply probe_covers.
    apply single_case; [intros ord Eo; apply lane_cand; [done|intros r; by apply first_is|done]|]. apply lane_covers; [done|]. split; [apply NoDup_singleton|].
    intros k r Hk Hm. apply list_elem_of_singleton. by eapply Hcov.
Qed.
Lemma execUpdate_ok : lane (updates run) (execUpdate pkHashSeed max def tid pl ixs t w sets where_ args).
Proof.
  unfold execUpdate. apply single_case; [|apply lane_general]. intros ord Eo. pose proof lane_general as HG.
  destruct shapes as [(e & src & Ew & Ea)|[(e & Ew & Hne & Ea)|Ea]].
  - assert (Ep : pkLookup acc = true /\ pkSource acc = Some src) by by rewrite Ea. destruct Ep as [Ep1 Ep2]. rewrite ?Ep1. unfold update_pk_one. apply lane_computeOne; [done|]. intros f Hf. rewrite Ep2. cbn [lit_source].
    apply lane_key; [by apply pk_access|]. intros u Hu. apply lane_pk_one; [done..|]. by eapply pk_exact.
  - assert (Ep : pkLookup acc = false) by by rewrite Ea. rewrite Ep. destruct (idxLookup acc && _ && _) eqn:E; [|done].
    apply andb_true_iff in E as [E E2%Z.eqb_eq]. apply andb_true_iff in E as [_ E1%Nat.eqb_eq].
    destruct (bucket e Ew Hne Ea E1 E2) as (o & src & v & si & _ & Ec & Es & Ev & Nv & Ei & Hn & Hcov).
    rewrite Ec. change (index [o] 0) with (Ok o). cbn [early]. rewrite Ei. unfold update_idx_one. rewrite Es.
    change (index [src] 0) with (Ok src). cbn [early]. rewrite Ev. cbn [early]. rewrite Nv, lookupOne_classifies.
    destruct (lookup si (keyOf v)) as [|u [|u' us]]; cbn [negb].
    + apply lane_quiet. intros k r Hk. destruct (mb r) eqn:Em; [|done]. by apply (Hcov k r Hk) in Em as ?%elem_of_nil.
    + apply lane_computeOne; [done|]. intros f Hf. apply lane_cand; [done..|]. intros k r Hk Hm. by apply (Hcov k r Hk) in Hm as ?%list_elem_of_singleton.
    + done.
  - assert (Ep : pkLookup acc = false /\ idxLookup acc = false) by (destruct Ea as [->|(e & src & _ & ->)]; done). destruct Ep as [-> ->]. done.
Qed.
End update.
End exec.
