(* ===== verification/WriteMain.v ===== *)
(** * WriteMain: UPDATE and DELETE from the planned statement to the table, over
    any state the database can be in. *)
From S2P Require Import Prelude Bytes Order Uuid Value CompositeKey PkMap Codec Frame Journal Schema Catalog SecIndex IndexOk Store StoreOk StoreSim Merge MergeOk MergeSafe Ast Eval Filter Lexer Parser TopN TopNOk Plan PlanJoin PlanOk PlanJoinOk Recovery Replayer RecoveryOk Select SelectOk CandOk WalkOk SelectSound SelectMain Query Commit CommitOk Exec WriteOk ExecOk.

(** ** What planning leaves of a SET list *)
Lemma plan_sets_parts rt sets ss os dep : plan_sets rt sets = Ok (ss, os, dep) ->
  length os = length ss /\ dep = existsb (fun a => exprRefsColumn (set_val a)) ss /\ Forall (fun o => Z.of_nat o <> rt_pkOrdinal rt) os.
Proof.
  revert ss os dep. induction sets as [|a sets IH]; intros ss os dep; cbn [plan_sets]; [by intros [= <- <- <-]|]. intros E.
  apply bind_Ok in E as (o & _ & E). destruct (Z.eqb_spec (Z.of_nat o) (rt_pkOrdinal rt)) as [|Ne]; [done|]. destruct (_ =? _); [done|].
  apply bind_Ok in E as (c & _ & E). destruct (c_Immutable c); [done|]. apply bind_Ok in E as (v & _ & E). apply bind_Ok in E as ([[ss' os'] dep'] & E' & E).
  injection E as <- <- <-. destruct (IH ss' os' dep' E') as (H1 & -> & H3). split_and!; [cbn; lia|done|by constructor].
Qed.

Section main.
Context {J : Type} `{Journal J} (pkHashSeed : Z) (def : resolvedTable) (max ext tid : Z) (ck : nat -> ValueKind).
Local Abbreviation ncols := (length (t_Columns (rt_def def))).
Local Abbreviation cols := (rt_colByName def).
Hypothesis pk_in : (pkOrd def < ncols)%nat.
Hypothesis ords_in : Forall (fun ri => Forall (fun o => (o < ncols)%nat) (ri_ordinals ri)) (rt_indexes def).
Local Abbreviation served := (served (J := J) pkHashSeed def max ext ck).

Lemma served_state t ixs : served t ixs -> exists g d, readable pkHashSeed def ck t ixs g d /\ tbl_ok pkHashSeed def max None ext t g.
Proof.
  intros [y0 y Hix Hb Hsh Hr|t' g Hno Ht Hty].
  - destruct (reach_inv pkHashSeed def max ext ck pk_in Hix ords_in y0 y Hb Hr) as (fr & g & Hi).
    destruct (inv_readable pkHashSeed def ck max ext fr _ g _ _ pk_in (sys_shapes _ _ _ _ _ _ Hr Hsh) Hi) as [d R].
    exists g, d. split; [done|]. apply (iv_tbl _ _ _ _ _ _ _ _ _ _ Hi).
  - destruct (plain_readable pkHashSeed def ck max ext t' g pk_in Hno Ht Hty) as [d R]. by exists g, d.
Qed.

(** What the executor may assume of the table and the arguments. *)
Record write_req (t : tbl_state) (rt : tableRT) (pl : plan) (args : list Value) : Prop := {
  wq_table : resolve_table (rt_def def) = Ok (table rt);
  wq_def : table rt = def;
  wq_flat : partitioned def = false;
  wq_rows pk r : getByPK pkHashSeed t pk = Ok (Some r) -> row_fits (t_Columns (rt_def def)) r;
  wq_kind : ck (pkOrd def) = KindUUID;
  wq_pk : not_null def (pkOrd def);
  wq_args : Forall value_ok args;
  wq_pins : Forall (pin_ok ck args) (access_pins def (pl_access pl));
}.
(** The table before and after as maps, the journal before and after, and the
    answer: [z] rows and maybe an error. *)
Definition wrote (n : nat) (P : gmap UUID Row -> option J -> gmap UUID Row -> option J -> Z -> option error -> Prop)
    (t : tbl_state) (w : option J) (o : outcome (tbl_state * option J * (Z * option error))) : Prop :=
  exists g g' t' w' z e, o = Ok (t', w', (z, e)) /\ (forall pk, getByPK pkHashSeed t pk = Ok (g !! pk)) /\ (forall pk, getByPK pkHashSeed t' pk = Ok (g' !! pk)) /\
    P g w g' w' z e /\ room n t' /\
    ((t' = t /\ w' = w) \/ exists op, op_wf def op /\ run_op pkHashSeed def max t w op = Ok (t', w', ADone z e)).
Lemma lane_wrote n P t g w o : tbl_ok pkHashSeed def max None ext t g -> lane pkHashSeed def max None ext t w n (P g w) o -> wrote n P t w o.
Proof.
  intros Ht (t' & w' & z & e & g' & E & HP & Ht' & Hr & Hop). exists g, g', t', w', z, e. split_and!; try done; intros pk; by eapply getByPK_ok.
Qed.

Section one.
Context (t : tbl_state) (ixs : list secIndex) (rt : tableRT) (cat : catalog) (tname : bytes) (pl : plan) (args : list Value) (w : option J) (n : nat).
Hypothesis Hserved : served t ixs.
Hypothesis Hroom : room (S n) t.
Hypothesis Q : write_req t rt pl args.
Lemma resolved : resolved_ok (rt_def def) def.
Proof. pose proof (resolved_table _ _ (wq_table _ _ _ _ Q)) as Hr. by rewrite (wq_def _ _ _ _ Q) in Hr. Qed.
Lemma where_planned where0 where1 : opt_raw where0 -> validateOpt where0 (table rt) [] = Ok where1 ->
  opt_bound ncols where1 /\ forall e, where1 = Some e -> named def e.
Proof.
  intros Hraw Hv. pose proof (validateOpt_safe (rt_def def) (table rt) [] where0 (wq_table _ _ _ _ Q) Hraw) as S. rewrite Hv, (wq_def _ _ _ _ Q) in S. split; [exact S|].
  intros e ->. unfold validateOpt in Hv. destruct where0 as [e0|]; [|done]. apply bind_Ok in Hv as (e1 & Hv & E). injection E as ->.
  rewrite (wq_def _ _ _ _ Q) in Hv. eapply validateExpr_named; [by apply lits_raw|exact Hv].
Qed.
Lemma updated sets0 where0 sets where1 : plan_update rt tname sets0 where0 cat = Ok pl -> pl_st pl = SUpdate tname sets where1 ->
  Forall (fun s => raw_ok (set_val s)) sets0 -> opt_raw where0 -> NoDup (pl_updateOrdinals pl) ->
  wrote n (fun g w => updates (matchb cols args where1) (evalSet def pl sets args) (pl_updateOrdinals pl) (encode_update def tid pl) g w) t w
    (execUpdate pkHashSeed max def tid pl ixs t w sets where1 args).
Proof.
  intros Hp Est Hs Hraw Hnd. destruct (served_state t ixs Hserved) as (g & d & R & Ht). eapply lane_wrote; [exact Ht|].
  unfold plan_update in Hp. apply bind_Ok in Hp as ([[ss os] dep] & Eps & Hp). apply bind_Ok in Hp as (w1 & Ev & Hp). apply bind_Ok in Hp as (a & Ea & Hp).
  pose proof (plan_sets_safe (rt_def def) (table rt) sets0 (wq_table _ _ _ _ Q) Hs) as S. rewrite Eps in S. destruct S as [S1 S2]. cbn [fst snd] in S1, S2.
  destruct (plan_sets_parts _ _ _ _ _ Eps) as (P1 & P2 & P3). rewrite (wq_def _ _ _ _ Q) in S1, S2, P3, Ea.
  destruct (where_planned where0 w1 Hraw Ev) as [B1 B2].
  assert (Epl : pl_st pl = SUpdate tname ss w1 /\ pl_updateOrdinals pl = os /\ pl_setRowDependent pl = dep /\ pl_access pl = a) by by injection Hp as <-.
  destruct Epl as (E1 & E2 & E3 & E4). rewrite Est in E1. injection E1 as -> ->. rewrite <- E4 in Ea. rewrite <- E2 in S2, P1, P3.
  eapply execUpdate_ok; try done; try apply Q; [apply resolved| |congruence|].
  - intros k r Hk. apply (wq_rows _ _ _ _ Q k). rewrite (getByPK_ok _ _ _ _ _ _ _ k Ht). by rewrite Hk.
  - apply list.Forall_forall. intros o Ho. split; [by eapply (proj1 (list.Forall_forall _ _)) in S2|].
    pose proof (proj1 (list.Forall_forall _ _) P3 o Ho) as Ne. cbv beta in Ne. intros ->. apply Ne. unfold pkOrd. destruct (pk_valid _ _ resolved) as (p & Ep & _). rewrite Ep. lia.
Qed.
Lemma deleted where0 where1 : plan_delete rt tname where0 cat = Ok pl -> pl_st pl = SDelete tname where1 -> opt_raw where0 ->
  wrote n (fun g w => deletes (matchb cols args where1) (gone def tid) g w) t w (execDelete pkHashSeed max def tid pl ixs t w where1 args).
Proof.
  intros Hp Est Hraw. destruct (served_state t ixs Hserved) as (g & d & R & Ht). eapply lane_wrote; [exact Ht|].
  unfold plan_delete in Hp. apply bind_Ok in Hp as (w1 & Ev & Hp). apply bind_Ok in Hp as (a & Ea & Hp). rewrite (wq_def _ _ _ _ Q) in Ea.
  destruct (where_planned where0 w1 Hraw Ev) as [B1 B2].
  assert (Epl : pl_st pl = SDelete tname w1 /\ pl_access pl = a) by by injection Hp as <-.
  destruct Epl as (E1 & E4). rewrite Est in E1. injection E1 as ->. rewrite <- E4 in Ea.
  eapply execDelete_ok; try done; try apply Q; [apply resolved|].
  intros k r Hk. apply (wq_rows _ _ _ _ Q k). rewrite (getByPK_ok _ _ _ _ _ _ _ k Ht). by rewrite Hk.
Qed.
End one.

(** C1: UPDATE is exact and atomic. On any state the table can be in, an execution
    of a planned UPDATE, whatever its access path, either changes exactly the rows
    the WHERE matches, each to its own SET values, answers their number and has
    put the one journal record of all the new rows before them, or reports an
    error and changes no row. It is at most one operation of the store, so the
    theorems on histories of those apply to it. *)
Theorem update_exact t ixs rt cat tname sets0 where0 pl sets where1 args (w : option J) n :
  served t ixs -> room (S n) t -> write_req t rt pl args ->
  plan_update rt tname sets0 where0 cat = Ok pl -> pl_st pl = SUpdate tname sets where1 ->
  Forall (fun s => raw_ok (set_val s)) sets0 -> opt_raw where0 -> NoDup (pl_updateOrdinals pl) ->
  wrote n (updates (matchb cols args where1) (evalSet def pl sets args) (pl_updateOrdinals pl) (encode_update def tid pl)) t w
    (execUpdate pkHashSeed max def tid pl ixs t w sets where1 args).
Proof. intros Hs Hr Q. by apply (updated t ixs rt cat tname pl args w n Hs Hr Q). Qed.
(** C6: DELETE is exact and atomic: the rows the WHERE matches are gone behind one
    journal record of them all, or an error is reported and every row stays. *)
Theorem delete_exact t ixs rt cat tname where0 pl where1 args (w : option J) n :
  served t ixs -> room (S n) t -> write_req t rt pl args ->
  plan_delete rt tname where0 cat = Ok pl -> pl_st pl = SDelete tname where1 -> opt_raw where0 ->
  wrote n (deletes (matchb cols args where1) (gone def tid)) t w (execDelete pkHashSeed max def tid pl ixs t w where1 args).
Proof. intros Hs Hr Q. by apply (deleted t ixs rt cat tname pl args w n Hs Hr Q). Qed.
End main.

(** ** The users table *)
Definition users_text (sql : string) : stmt := match parseSQL 2056 id (lit sql) with Ok st => fst (assignParamIndices st) | _ => SDrop [] end.
Definition users_sets (st : stmt) : list setAssign := match st with SUpdate _ sets _ => sets | _ => [] end.
Definition users_where (st : stmt) : option expr := match st with SUpdate _ _ w | SDelete _ w => w | _ => None end.
Definition users_planned (sql : string) : plan :=
  let st := users_text sql in
  match (match st with SUpdate t sets w => plan_update users_tab t sets w demo_cat | SDelete t w => plan_delete users_tab t w demo_cat | _ => Panic end) with
  | Ok pl => pl
  | _ => blank_plan (SDrop []) None demo_cat
  end.
Definition rename_sql : string := "UPDATE users SET name = ? WHERE age = ?".
Definition purge_sql : string := "DELETE FROM users WHERE age = ?".
Lemma users_room : room 4 (y_t users_wrote).
Proof.
  assert (E : forallb (fun s => zlen (s_rows s) + 4 <=? 2 ^ 56) (t_shards (y_t users_wrote)) = true) by (vm_compute; reflexivity).
  apply Forall_forall. intros s Hs. rewrite forallb_forall in E. specialize (E s Hs). cbv beta in E. lia.
Qed.
Lemma users_write_req sql args : Forall value_ok args -> access_pins users_rt (pl_access (users_planned sql)) = [(1%nat, paramRef (zlen args - 1))] ->
  index args (length args - 1) = Ok (Int 36) -> write_req 0 users_rt users_ck (y_t users_wrote) users_tab (users_planned sql) args.
Proof.
  intros Ha Ep Ei. split.
  - vm_compute. reflexivity.
  - reflexivity.
  - vm_compute. reflexivity.
  - intros pk r [_ ->]%users_rows. apply validateInsertRow_ok. by vm_compute.
  - reflexivity.
  - eexists. split; [vm_compute; reflexivity|reflexivity].
  - done.
  - rewrite Ep. constructor; [|constructor]. exists (Int 36). split_and!; [|split; [apply ok_int; unfold in_s64; lia|discriminate]|reflexivity].
    cbn [snd evalLitOrParamValue]. unfold param. destruct args as [|v args]; [done|].
    assert (El : (zlen (v :: args) - 1 <? 0) || (zlen (v :: args) - 1 >=? zlen (v :: args)) = false).
    { apply orb_false_iff. unfold zlen. cbn [length]. split; [apply Z.ltb_ge; lia|]. rewrite Z.geb_leb. apply Z.leb_gt. lia. }
    rewrite El. replace (Z.to_nat (zlen (v :: args) - 1)) with (length (v :: args) - 1)%nat by (unfold zlen; lia). done.
Qed.
Lemma update_exact_witness : wrote (J := list (Z * bytes)) 0 users_rt 1000 3
  (updates (matchb (rt_colByName users_rt) [Str (lit "bob"); Int 36] (users_where (pl_st (users_planned rename_sql))))
    (evalSet users_rt (users_planned rename_sql) (users_sets (pl_st (users_planned rename_sql))) [Str (lit "bob"); Int 36]) [2%nat] (encode_update users_rt 0 (users_planned rename_sql)))
  (y_t users_wrote) None
  (execUpdate 0 1000 users_rt 0 (users_planned rename_sql) (y_ix users_wrote) (y_t users_wrote) None (users_sets (pl_st (users_planned rename_sql)))
    (users_where (pl_st (users_planned rename_sql))) [Str (lit "bob"); Int 36]).
Proof.
  destruct users_side as (H1 & H2 & H3).
  apply (update_exact 0 users_rt 1000 0 0 users_ck H1 H3 (y_t users_wrote) (y_ix users_wrote) users_tab demo_cat (lit "users")
    (users_sets (users_text rename_sql)) (users_where (users_text rename_sql)) (users_planned rename_sql)).
  - exact users_served.
  - apply users_room.
  - apply users_write_req; [|vm_compute; reflexivity|reflexivity]. constructor; [apply ok_str; vm_compute; reflexivity|constructor; [apply ok_int; unfold in_s64; lia|constructor]].
  - vm_compute. reflexivity.
  - vm_compute. reflexivity.
  - vm_compute. repeat constructor.
  - vm_compute. repeat constructor.
  - vm_compute. apply NoDup_singleton.
Defined.
Lemma delete_exact_witness : wrote (J := list (Z * bytes)) 0 users_rt 1000 3
  (deletes (matchb (rt_colByName users_rt) [Int 36] (users_where (pl_st (users_planned purge_sql)))) (gone users_rt 0)) (y_t users_wrote) None
  (execDelete 0 1000 users_rt 0 (users_planned purge_sql) (y_ix users_wrote) (y_t users_wrote) None (users_where (pl_st (users_planned purge_sql))) [Int 36]).
Proof.
  destruct users_side as (H1 & H2 & H3).
  apply (delete_exact 0 users_rt 1000 0 0 users_ck H1 H3 (y_t users_wrote) (y_ix users_wrote) users_tab demo_cat (lit "users")
    (users_where (users_text purge_sql)) (users_planned purge_sql)).
  - exact users_served.
  - apply users_room.
  - apply users_write_req; [|vm_compute; reflexivity|reflexivity]. constructor; [apply ok_int; unfold in_s64; lia|constructor].
  - vm_compute. reflexivity.
  - vm_compute. reflexivity.
  - vm_compute. repeat constructor.
Defined.
