(* ===== verification/InsertOk.v ===== *)
(** * InsertOk: INSERT builds rows that fit their columns and adds all of them or
    none. *)
From S2P Require Import Prelude Bytes Order Uuid Value PkMap Codec Frame Journal Schema Catalog Store StoreOk StoreSim Ast Eval Lexer Parser Plan PlanJoin PlanOk PlanJoinOk Recovery Replayer RecoveryOk Select Query Commit CommitOk Exec ExecOk.

(** ** What planning leaves of the column list *)
Lemma tuple_cells_ords ords : forall tuple cells, tuple_cells ords tuple = Ok cells -> map ic_ord cells = ords.
Proof.
  induction ords as [|o ords IH]; intros tuple cells; cbn [tuple_cells]; [by intros [= <-]|]. destruct tuple as [|e tuple]; [done|].
  destruct (exprRefsColumn e); [done|]. intros E. apply bind_Ok in E as (l & E & El). injection El as <-. cbn. rewrite (IH _ _ E). by destruct e.
Qed.
Lemma all_tuples_ords ords rows : forall tmpls, all_tuples ords rows = Ok tmpls -> length tmpls = length rows /\ Forall (fun tm => map ic_ord tm = ords) tmpls.
Proof.
  induction rows as [|r rows IH]; intros tmpls; cbn [all_tuples]; [by intros [= <-]|]. intros E. apply bind_Ok in E as (c & Ec & E). apply bind_Ok in E as (l & El & E).
  injection E as <-. destruct (IH l El) as [H1 H2]. split; [cbn; lia|]. constructor; [by eapply tuple_cells_ords|done].
Qed.
Lemma omitted_covers p pk cs : forall i, omitted_ok cs i p pk = Ok tt ->
  forall k c, cs !! k = Some c -> (i + k)%nat ∈ p \/ Z.of_nat (i + k) = pk \/ c_Nullable c = true.
Proof.
  induction cs as [|c cs IH]; intros i; cbn [omitted_ok]; [done|]. destruct (negb _ && _ && _) eqn:E; [done|]. intros H [|k] c' Hk.
  - injection Hk as <-. rewrite Nat.add_0_r. rewrite !andb_false_iff, !negb_false_iff in E. destruct E as [[E|E]|E].
    + left. by apply bool_decide_eq_true in E.
    + right; left. lia.
    + by right; right.
  - replace (i + S k)%nat with (S i + k)%nat by lia. by apply (IH (S i)).
Qed.

Lemma existsb_ord k tmpl : existsb (fun c => (ic_ord c =? k)%nat) tmpl = bool_decide (k ∈ map ic_ord tmpl).
Proof.
  apply eq_true_iff_eq. rewrite existsb_exists, bool_decide_eq_true, list_elem_of_In, in_map_iff. split.
  - intros (c & Hc & <-%Nat.eqb_eq). by exists c.
  - intros (c & <- & Hc). exists c. by rewrite Nat.eqb_refl.
Qed.

Section rows.
Context (def : resolvedTable) (newUUID : nat -> UUID) (args : list Value) (iords : list nat).
Local Abbreviation cols := (t_Columns (rt_def def)).
Local Abbreviation ncols := (length (t_Columns (rt_def def))).
Local Abbreviation row_wf := (row_wf def).
Local Abbreviation pkof := (pkof def).
Hypothesis Hrt : resolved_ok (rt_def def) def.
Hypothesis Hargs : Forall value_ok args.
Hypothesis Hcover : omitted_ok cols 0 iords (rt_pkOrdinal def) = Ok tt.

Lemma cell_value_ok c : cell_ok ncols c -> safe value_ok (cell_value c args).
Proof.
  intros [_ He]. unfold cell_value. destruct (Z.leb_spec 0 (ic_arg c)) as [Hp|Hp].
  - rewrite Z.geb_leb. destruct (Z.leb_spec (zlen args) (ic_arg c)) as [|Hl]; [done|].
    destruct (index_lt args (Z.to_nat (ic_arg c))) as (v & -> & Hv); [unfold zlen in Hl; lia|]. cbn. by eapply Forall_lookup_1.
  - destruct (ic_expr c) as [e|]; [|constructor]. cbn [evalExpr]. pose proof (eval_typed e (MkCtx [] ∅ args)) as T. cbn [c_row c_args length] in T.
    specialize (T He (Forall_nil_2 _) Hargs). destruct (eval _ _); [by destruct T|done..].
Qed.
Lemma coerce_cell_ok col v : value_ok v -> safe value_ok (coerce_cell col v).
Proof. intros Hv. unfold coerce_cell. destruct (_ && _); [|done]. unfold ParseUUID. case_match; [constructor|done]. Qed.

(** The row under construction: the cells of [done] fit, the others are NULL. *)
Definition filled (done : list nat) (row : Row) : Prop :=
  row_wf row /\ forall o c v, cols !! o = Some c -> row !! o = Some v -> if decide (o ∈ done) then cell_fits c v else v = Null.
Lemma filled_set done row o c v : filled done row -> cols !! o = Some c -> cell_fits c v -> value_ok v -> filled (o :: done) (<[o := v]> row).
Proof.
  intros [[Hl Hv] Hf] Hc Hfit Hok. split.
  - split; [by rewrite length_insert|by apply Forall_insert].
  - intros o' c' v' Hc' Hv'. destruct (decide (o' = o)) as [->|Hne].
    + rewrite decide_True by by left. rewrite list_lookup_insert_eq in Hv' by (rewrite Hl; by eapply lookup_lt_Some). congruence.
    + rewrite list_lookup_insert_ne in Hv' by done. specialize (Hf o' c' v' Hc' Hv'). destruct (decide (o' ∈ done)) as [H1|H1], (decide (o' ∈ o :: done)) as [H2|H2]; try done.
      * destruct H2. by right.
      * by apply elem_of_cons in H2 as [?|?].
Qed.
Lemma fill_row_ok pk tmpl : forall done row prov, Forall (cell_ok ncols) tmpl -> filled done row ->
  safe (fun x => filled (rev (map ic_ord tmpl) ++ done) (fst x) /\ snd x = prov || existsb (fun c => (ic_ord c =? pk)%nat) tmpl) (fill_row cols pk tmpl args row prov).
Proof.
  induction tmpl as [|c tmpl IH]; intros done row prov Ht Hf; cbn [fill_row].
  { split; [done|]. cbn. by rewrite orb_false_r. }
  apply list.Forall_cons in Ht as [Hc Ht]. eapply safe_bind; [by apply cell_value_ok|]. intros v0 Hv0.
  destruct (index_lt cols (ic_ord c) (proj1 Hc)) as (col & -> & Hcol). cbn [mbind outcome_bind].
  eapply safe_bind; [by apply coerce_cell_ok|]. intros v Hv. destruct (validateValue col v) as [[]| |] eqn:Ev; [|done|by pose proof (validate_safe col v) as S; rewrite Ev in S].
  cbn [mbind outcome_bind]. destruct Hf as [[Hl Hvs] Hf]. destruct (Nat.ltb_spec (ic_ord c) (length row)) as [_|C]; [|destruct Hc; lia].
  eapply safe_weaken; [apply (IH (ic_ord c :: done)); [done|]; eapply filled_set; [by split|done..]|]. intros x [H1 H2]. split.
  - cbn [map rev]. by rewrite <- app_assoc.
  - rewrite H2. cbn. by rewrite orb_assoc.
Qed.
Lemma filled_fits done row : filled done row -> (forall o, o ∈ iords \/ Z.of_nat o = rt_pkOrdinal def -> o ∈ done) -> row_fits cols row.
Proof.
  intros [[Hl Hv] Hf] Hd. apply Forall2_same_length_lookup_2; [done|]. intros o c v Hc Hr. specialize (Hf o c v Hc Hr).
  destruct (decide (o ∈ done)) as [|Hn]; [done|]. subst v. destruct (omitted_covers _ _ _ 0 Hcover o c Hc) as [H|[H|H]].
  - destruct Hn. apply Hd. by left.
  - destruct Hn. apply Hd. by right.
  - unfold cell_fits, validateValue, IsNull. cbn. by rewrite H.
Qed.

(** A built row fits its columns; a row without a key is given the next one. *)
Definition built (ids : nat) (x : Row * nat) : Prop :=
  row_wf (fst x) /\ row_fits cols (fst x) /\ (if bool_decide (pkOrd def ∈ iords) then snd x = ids else snd x = S ids /\ pkof (fst x) = newUUID ids).
Lemma build_row_ok ids tmpl : Forall (cell_ok ncols) tmpl -> map ic_ord tmpl = iords -> safe (built ids) (buildRowFromTmpl newUUID def ids tmpl args).
Proof.
  intros Ht Eo. destruct (pk_valid _ _ Hrt) as (p & Ep & Hp). destruct (ro_pk _ _ Hrt) as (p' & c & Ep' & Hc & _ & Hty). assert (p' = p) as -> by lia.
  assert (Epk : pkOrd def = p) by (unfold pkOrd; lia). unfold buildRowFromTmpl.
  eapply safe_bind. { apply (fill_row_ok (pkOrd def) tmpl [] (replicate ncols Null) false Ht). split; [split; [apply length_replicate|apply Forall_replicate; constructor]|].
    intros o co v _ Hr. apply lookup_replicate in Hr as [-> _]. rewrite decide_False; [done|apply not_elem_of_nil]. }
  intros [row prov] [Hf Hprov]. cbn [fst snd orb] in Hf, Hprov. rewrite app_nil_r, Eo in Hf.
  assert (Hex : prov = bool_decide (pkOrd def ∈ iords)) by (by rewrite Hprov, existsb_ord, Eo). rewrite Hex.
  assert (Hin : forall o, o ∈ rev iords <-> o ∈ iords) by (intros o; by rewrite !list_elem_of_In, <- in_rev).
  unfold built. case_bool_decide as Hpk; cbn [fst snd safe].
  - split; [apply Hf|]. split; [|done]. eapply filled_fits; [exact Hf|]. intros o. rewrite Hin. intros [?|E]; [done|]. replace o with (pkOrd def); [done|lia].
  - destruct Hf as [[Hl Hv] Hf]. rewrite (proj2 (Nat.ltb_lt _ _)) by (rewrite Hl, Epk; by eapply lookup_lt_Some). cbn [fst snd safe].
    assert (Hs : filled (pkOrd def :: rev iords) (<[pkOrd def := UUIDVal (newUUID ids)]> row)).
    { eapply filled_set; [by split|by rewrite Epk| |constructor]. unfold cell_fits, validateValue, IsNull. by rewrite Hty. }
    split; [apply Hs|]. split; [|split; [done|]].
    + eapply filled_fits; [exact Hs|]. intros o [Ho|Ho]; [right; by apply Hin|]. replace o with (pkOrd def) by lia. by left.
    + unfold StoreOk.pkof. rewrite list_lookup_insert_eq by (rewrite Hl, Epk; by eapply lookup_lt_Some). cbn. by rewrite v_UUID_UUIDVal.
Qed.

(** Every tuple of the statement, or the error of the first that fails. *)
Definition staged_row (m : stagedMut) : Prop := match m with st_insert pk row => row_wf row /\ row_fits cols row /\ pk = pkof row | _ => False end.
Lemma stage_rows_ok tmpls : Forall (fun tm => Forall (cell_ok ncols) tm /\ map ic_ord tm = iords) tmpls -> forall ids,
  match stage_rows newUUID def ids tmpls args with
  | (ids', Ok ms) => length ms = length tmpls /\ Forall staged_row ms /\ (pkOrd def ∉ iords -> ids' = (ids + length tmpls)%nat /\ map st_pk ms = map newUUID (seq ids (length tmpls)))
  | (_, Err _) => True
  | (_, Panic) => False
  end.
Proof.
  induction 1 as [|tm tmpls [Ht Eo] _ IH]; intros ids; cbn [stage_rows].
  { split; [done|]. split; [by apply List.Forall_nil|]. intros _. split; [cbn; lia|done]. }
  pose proof (build_row_ok ids tm Ht Eo) as B. destruct (buildRowFromTmpl _ _ _ _ _) as [[row ids1]| |]; [|done..]. destruct B as (Hw & Hf & Hk). cbn [fst snd mbind outcome_bind] in *.
  unfold row_pk. destruct (index_lt row (pkOrd def)) as (v & Ev & Hv).
  { destruct Hw as [Hl _]. rewrite Hl. destruct (pk_valid _ _ Hrt) as (p & Ep & Hp). unfold pkOrd. lia. }
  rewrite Ev. cbn [mbind outcome_bind]. assert (Epk : v_UUID v = pkof row) by (unfold StoreOk.pkof; by rewrite Hv).
  specialize (IH ids1). destruct (stage_rows _ _ _ _ _) as [ids2 [ms| |]]; cbn [mbind outcome_bind]; [|done..]. destruct IH as (I1 & I2 & I3).
  split; [cbn; lia|]. split; [constructor; [by split_and!|done]|]. intros Hn. rewrite bool_decide_false in Hk by done. destruct Hk as [-> Hk].
  destruct (I3 Hn) as [-> E]. split; [cbn; lia|]. cbn [map seq length st_pk]. by rewrite E, Epk, Hk.
Qed.
Lemma auto_pk_is tm : map ic_ord tm = iords -> auto_pk def tm = bool_decide (pkOrd def ∉ iords).
Proof. intros <-. unfold auto_pk. rewrite existsb_ord. by rewrite bool_decide_not. Qed.
End rows.

(** ** The statement *)
Section insert.
Context (pkHashSeed : Z) {J : Type} `{Journal J} (newUUID : nat -> UUID) (def : resolvedTable) (max ext tid : Z) (tr : option (track def)).
Local Abbreviation cols := (t_Columns (rt_def def)).
Local Abbreviation ncols := (length (t_Columns (rt_def def))).
Local Abbreviation pkof := (pkof def).
Local Abbreviation spec_step := (spec_step def max ext).
Local Abbreviation commit_spec := (commit_spec def max tid ext).
Local Abbreviation tbl_ok := (tbl_ok pkHashSeed def max tr ext).
Hypothesis pk_in : (pkOrd def < ncols)%nat.

(** What an INSERT of the templates [tmpls] may do to the map, the journal and the
    answer. The rows are those [stage_rows] builds. *)
Inductive inserts (tmpls : list (list insCell)) (args : list Value) (closed live : bool) (ids : nat) (g : gmap UUID Row) (w : option J)
    : gmap UUID Row -> option J -> Z -> option error -> Prop :=
  | in_large : maxTxnMutations < zlen tmpls -> inserts tmpls args closed live ids g w g w 0 (Some ErrBatchTooLarge)
  | in_bad x : snd (stage_rows newUUID def ids tmpls args) = Err x -> inserts tmpls args closed live ids g w g w 0 (Some x)
  | in_one row g' w' z e : snd (stage_rows newUUID def ids tmpls args) = Ok [st_insert (pkof row) row] -> staged_row def (st_insert (pkof row) row) ->
      spec_step g w (OInsert row (MkMJ tid [] 0 Null)) g' w' (ADone z e) -> inserts tmpls args closed live ids g w g' w' z e
  | in_many ms g' w' e : snd (stage_rows newUUID def ids tmpls args) = Ok ms -> Forall (staged_row def) ms ->
      commit_spec closed live g w ms = Ok (g', w', e) -> inserts tmpls args closed live ids g w g' w' (match e with None => zlen ms | Some _ => 0 end) e.

Section one.
Context (pl : plan) (args : list Value) (iords : list nat) (closed live : bool) (ids : nat) (t : tbl_state) (g : gmap UUID Row) (w : option J) (n : nat).
Hypothesis Hrt : resolved_ok (rt_def def) def.
Hypothesis Hargs : Forall value_ok args.
Hypothesis Hcover : omitted_ok cols 0 iords (rt_pkOrdinal def) = Ok tt.
Hypothesis Htm : Forall (fun tm => Forall (cell_ok ncols) tm /\ map ic_ord tm = iords) (pl_insertTmpl pl).
Hypothesis Hne : pl_insertTmpl pl <> [].
Hypothesis Ht : tbl_ok t g.
Hypothesis Hroom : room (S (length (pl_insertTmpl pl)) + n) t.
(** The generator's identifiers are new and distinct. *)
Local Abbreviation handed := (map newUUID (seq ids (length (pl_insertTmpl pl)))).
Hypothesis Hfresh : pkOrd def ∉ iords -> NoDup handed /\ Forall (fun u => g !! u = None) handed.
Local Abbreviation inserts := (inserts (pl_insertTmpl pl) args closed live ids g w).
Definition inserted (o : outcome (tbl_state * option J * nat * (Z * option error))) : Prop :=
  exists t' g' w' z e ids', o = Ok (t', w', ids', (z, e)) /\ inserts g' w' z e /\ tbl_ok t' g' /\ room n t'.
Lemma inserted_stay ids' z e : inserts g w z e -> inserted (Ok (t, w, ids', (z, e))).
Proof. intros Hi. exists t, g, w, z, e, ids'. split_and!; try done. eapply Forall_impl; [|exact Hroom]; cbv beta; lia. Qed.
Lemma insert_one tm : pl_insertTmpl pl = [tm] -> inserted (execInsert1 pkHashSeed newUUID max def tid pl ids t w args).
Proof.
  intros E. pose proof (stage_rows_ok def newUUID args iords Hrt Hargs Hcover _ Htm ids) as S. unfold execInsert1. rewrite E. change (index [tm] 0) with (Ok tm). cbn [mbind outcome_bind].
  pose proof (in_bad (pl_insertTmpl pl) args closed live ids g w) as Hbad. pose proof (in_one (pl_insertTmpl pl) args closed live ids g w) as Hone.
  assert (Es : stage_rows newUUID def ids (pl_insertTmpl pl) args = stage_rows newUUID def ids [tm] args) by by rewrite E. rewrite Es in S, Hbad, Hone.
  cbn [stage_rows] in S, Hbad, Hone. destruct (buildRowFromTmpl newUUID def ids tm args) as [[row ids1]|x|]; cbn [mbind outcome_bind fst snd] in S, Hbad, Hone |- *; [|apply inserted_stay; by apply Hbad|done].
  unfold row_pk in S, Hbad, Hone. destruct (index row (pkOrd def)) as [v| |] eqn:Ev; cbn [mbind outcome_bind fst snd] in S, Hbad, Hone; [|exfalso|done].
  2: { unfold index in Ev. by destruct (row !! _). }
  destruct S as (_ & S & _). apply list.Forall_singleton in S as (Hw & Hf & Epk). rewrite Epk in Hone.
  destruct (sim_insert pkHashSeed def max tr ext pk_in t g w row (MkMJ tid [] 0 Null) n Ht) as (t' & g' & w' & a & Er & Sp & Ht' & Hr'); [eapply Forall_impl; [|exact Hroom]; cbv beta; lia|done|].
  cbn [run_op] in Er. apply bind_Ok in Er as ([[t1 w1] e] & Eo & Er). injection Er as -> -> <-. rewrite Eo. cbn [mbind outcome_bind].
  exists t', g', w', (b2n (bool_decide (e = None))), e, ids1. split; [by destruct e|]. split; [|done]. by apply (Hone row).
Qed.
Lemma insert_batch : inserted (execInsertBatch pkHashSeed newUUID max def tid pl closed live ids t w args).
Proof.
  pose proof (stage_rows_ok def newUUID args iords Hrt Hargs Hcover _ Htm ids) as S. unfold execInsertBatch. rewrite Z.gtb_ltb.
  destruct (Z.ltb_spec maxTxnMutations (zlen (pl_insertTmpl pl))) as [Hl|Hl]; [by apply inserted_stay, in_large|].
  assert (Etm : exists tm, index (pl_insertTmpl pl) 0 = Ok tm /\ map ic_ord tm = iords).
  { pose proof Htm as Htm0. pose proof Hne as Hne0. destruct (pl_insertTmpl pl) as [|tm tmpls]; [done|]. exists tm. split; [done|]. by apply list.Forall_cons in Htm0 as [[_ Eo] _]. }
  destruct Etm as (tm & -> & Eo). cbn [mbind outcome_bind]. rewrite (auto_pk_is def iords Hcover tm Eo).
  destruct (stage_rows newUUID def ids (pl_insertTmpl pl) args) as [ids' [ms|x|]] eqn:Es; [|apply inserted_stay, in_bad; by rewrite Es|done].
  destruct S as (S1 & S2 & S3). 
  assert (Hwf : Forall (staged_wf def) ms). { eapply Forall_impl; [|exact S2]. intros [pk row|pk pl' a|pk]; [by intros (? & _ & ->)|done..]. }
  destruct (commit_applies pkHashSeed def max tid pk_in tr ext closed live t g w ms (bool_decide (pkOrd def ∉ iords)) n Ht) as (t' & g' & w' & e & Ec & Sp & Ht' & Hr').
  - eapply Forall_impl; [|exact Hroom]; cbv beta; lia.
  - done.
  - intros Ha%bool_decide_eq_true. destruct (S3 Ha) as [_ Epk]. split.
    + rewrite Epk. by apply Hfresh.
    + apply list.Forall_forall. intros m Hm. split; [pose proof (proj1 (list.Forall_forall _ _) S2 _ Hm) as Hs; by destruct m|].
      assert (Hin : st_pk m ∈ map newUUID (seq ids (length (pl_insertTmpl pl)))) by (rewrite <- Epk; apply list_elem_of_In, in_map; by apply list_elem_of_In).
      exact (proj1 (list.Forall_forall _ _) (proj2 (Hfresh Ha)) _ Hin).
  - rewrite Ec. cbn [mbind outcome_bind]. exists t', g', w', (match e with None => zlen ms | Some _ => 0 end), e, ids'. split; [done|]. split; [|done]. eapply in_many; [by rewrite Es|done..].
Qed.
Lemma execInsert_ok : inserted (execInsert pkHashSeed newUUID max def tid pl closed live ids t w args).
Proof.
  unfold execInsert. destruct (Nat.ltb_spec 1 (length (pl_insertTmpl pl))) as [Hl|Hl]; [apply insert_batch|].
  assert (Etm : exists tm, pl_insertTmpl pl = [tm]).
  { pose proof Hne as Hne0. destruct (pl_insertTmpl pl) as [|tm [|]]; [done|by exists tm|cbn in Hl; lia]. }
  destruct Etm as (tm & E). by eapply insert_one.
Qed.
End one.
End insert.

(** C7: INSERT is exact and atomic. The rows an INSERT builds fit their columns,
    NULLs and types included, a missing key taken from the generator; one row is
    one insert of the store, several are one commit, and a statement that fails
    in building, on a duplicate key, on the byte limit or in the journal leaves
    every row as it was. The batch that skips the duplicate check is safe while
    the generator's keys are new and distinct. *)
Theorem insert_exact {J : Type} `{Journal J} pkHashSeed newUUID rt def max ext tid tr tname names rows cat pl args closed live ids t g (w : option J) n :
  resolve_table (rt_def def) = Ok (table rt) -> table rt = def -> plan_insert rt (SInsert tname names rows) names rows cat = Ok pl ->
  Forall (fun r => length r = length names /\ Forall raw_ok r) rows -> rows <> [] -> Forall value_ok args ->
  tbl_ok pkHashSeed def max tr ext t g -> room (S (length rows) + n) t ->
  (pkOrd def ∉ pl_insertOrdinals pl -> NoDup (map newUUID (seq ids (length rows))) /\ Forall (fun u => g !! u = None) (map newUUID (seq ids (length rows)))) ->
  inserted pkHashSeed newUUID def max ext tid tr pl args closed live ids g w n (execInsert pkHashSeed newUUID max def tid pl closed live ids t w args).
Proof.
  intros Hr Hd Hp Hrows Hne Hargs Ht Hroom Hfresh. pose proof (resolved_table _ _ Hr) as Hrt. rewrite Hd in Hrt.
  pose proof (plan_insert_safe (rt_def def) rt tname names rows cat Hr Hrows) as Hs. rewrite Hp in Hs. destruct Hs as (_ & Hs & _). unfold stmt_bound in Hs.
  unfold plan_insert in Hp. cbv zeta in Hp. apply bind_Ok in Hp as (ords & Eo & Hp). apply bind_Ok in Hp as (tmpls & Et & Hp). apply bind_Ok in Hp as ([] & Ec & Hp).
  injection Hp as <-. destruct (all_tuples_ords _ _ _ Et) as [Hl Hm]. cbn in Hs, Hroom, Hfresh. unfold plan_width, PlanJoin.ncols in Hs. cbn in Hs. rewrite Hd in Hs, Ec.
  destruct (pk_valid _ _ Hrt) as (p & Ep & Hpk). rewrite <- Hl in Hroom, Hfresh.
  eapply execInsert_ok; try done; [unfold pkOrd; lia|..].
  - cbn. apply list.Forall_forall. intros tm Htm. split; [by apply (proj1 (list.Forall_forall _ _) (proj2 Hs))|by apply (proj1 (list.Forall_forall _ _) Hm)].
  - cbn. intros ->. by destruct rows.
Qed.

(** ** The users table *)
Definition add_sql : string := "INSERT INTO users (id, age, name) VALUES (?, ?, ?), (?, ?, ?)".
Definition users_insert (sql : string) : list bytes * list (list expr) :=
  match parseSQL 2056 Datatypes.id (lit sql) with
  | Ok st => match fst (assignParamIndices st) with SInsert _ cols rows => (cols, rows) | _ => ([], []) end
  | _ => ([], [])
  end.
Definition users_insert_plan (sql : string) : plan :=
  let '(cols, rows) := users_insert sql in
  match plan_insert users_tab (SInsert (lit "users") cols rows) cols rows cat0 with Ok pl => pl | _ => blank_plan (SDrop []) None cat0 end.
Definition add_args : list Value := [UUIDVal ada_id; Int 36; Str (lit "ada"); UUIDVal zeroUUID; Null; Str (lit "eve")].
Lemma insert_exact_witness : inserted (J := list (Z * bytes)) 0 (fun _ => zeroUUID) users_rt 1000 0 0 None (users_insert_plan add_sql) add_args false true 0 ∅ (Some []) 6
  (execInsert 0 (fun _ => zeroUUID) 1000 users_rt 0 (users_insert_plan add_sql) false true 0 t0 (Some []) add_args).
Proof.
  apply (insert_exact 0 (fun _ => zeroUUID) users_tab users_rt 1000 0 0 None (lit "users") (fst (users_insert add_sql)) (snd (users_insert add_sql)) cat0).
  - vm_compute. reflexivity.
  - reflexivity.
  - vm_compute. reflexivity.
  - vm_compute. repeat constructor.
  - vm_compute. discriminate.
  - repeat (apply Forall_cons_2; [first [constructor; vm_compute; done|constructor; split; vm_compute; congruence]|]). constructor.
  - apply t0_ok.
  - apply (room_mono users_rt 9); [vm_compute; lia|apply t0_ok].
  - intros Hn. destruct Hn. vm_compute. left.
Defined.
