(* ===== verification/CommitReplay.v ===== *)
(** * CommitReplay: histories of statements and commits, and their replay. *)
From S2P Require Import Prelude Bytes Order Uuid Value PkMap Codec Frame Journal Schema Catalog Store StoreOk StoreSim Ast Eval Plan PlanJoin PlanJoinOk Recovery Replayer Commit CommitOk.

Section replay.
Context (pkHashSeed max : Z) (rt : tableRT) (ext : Z).
Local Abbreviation def := (table rt).
Local Abbreviation id := (tableID rt).
Local Abbreviation cols := (t_Columns (rt_def (table rt))).
Local Abbreviation row_good := (row_good rt).
Local Abbreviation good_map := (good_map rt).
Local Abbreviation tx_step := (tx_step def id).
Local Abbreviation tx_run := (tx_run def id).
Hypothesis pk_in : (pkOrd (table rt) < length (t_Columns (rt_def (table rt))))%nat.
Hypothesis pk_uuid : forall c, t_Columns (rt_def (table rt)) !! pkOrd (table rt) = Some c -> c_Type c = TypeUUID /\ c_Nullable c = false.

(** What staging guarantees besides: rows and SET values that validate and encode. *)
Definition staged_good (m : stagedMut) : Prop :=
  match m with
  | st_insert _ row => row_good row
  | st_update _ pl args => zlen (pl_updateOrdinals pl) < 2 ^ 16 /\
      forall r vals, row_wf def r -> computeSets pl args r = Ok vals -> set_fits rt (pl_updateOrdinals pl) vals
  | st_delete _ => True
  end.
(** Every insert of the group fits on its own: replay admits the mutations one by
    one, where the commit admitted their net cost. *)
Fixpoint steps_fit (g : gmap UUID Row) (ms : list stagedMut) : Prop :=
  match ms with
  | [] => True
  | m :: ms =>
      match tx_step g m with
      | Ok (g', _) => (match m with st_insert _ _ => max <> 0 -> ext + map_cost def g' <= max | _ => True end) /\ steps_fit g' ms
      | _ => True
      end
  end.
(** The sub-mutation lengths are 32 bits wide. *)
Definition bodies_small (g : gmap UUID Row) (ms : list stagedMut) : Prop :=
  match tx_run g ms with Ok (_, bodies) => Forall (fun b => zlen b < 2 ^ 32) bodies | _ => True end.

(** Any consumer of the log. *)
Section consumer.
Context {ST : Type} {mut : ST -> bytes -> outcome ST} {rc : ST -> Z -> bytes -> outcome ST} {R : Replayer max rt ext mut rc}.
Local Abbreviation rep := (rp_rep max rt ext (mut := mut) (rc := rc)).
Local Abbreviation apply_mut := mut.
Local Abbreviation apply_rec := rc.

Lemma step_replayed n db g m g' bodies : staged_wf def m -> staged_good m -> good_map g -> rep (S n) db g -> tx_step g m = Ok (g', bodies) ->
  (match m with st_insert _ _ => max <> 0 -> ext + map_cost def g' <= max | _ => True end) ->
  good_map g' /\ exists db', apply_all apply_mut bodies db = Ok db' /\ rep n db' g'.
Proof.
  intros Hwf Hgood Hg Hrep E Hfit. assert (Hr : rep n db g) by (eapply rp_mono; [|exact Hrep]; lia).
  destruct m as [pk row|pk pl args|pk]; cbn [CommitOk.tx_step] in E.
  - destruct (g !! pk) as [r|] eqn:Hk; [done|]. injection E as <- <-. destruct Hwf as [_ ->]. split; [by apply good_insert|].
    destruct (rp_insert max rt ext n db g row Hrep Hgood Hk Hfit) as (db' & Ea & Hrep').
    exists db'. split; [|done]. cbn [apply_all]. by rewrite Ea.
  - destruct (g !! pk) as [r|] eqn:Hk; [|injection E as <- <-; split; [done|]; by exists db]. destruct (Hg pk r Hk) as [Hrow Hpk]. pose proof (proj1 Hrow) as Hw.
    apply bind_Ok in E as (vals & Ev & E). apply bind_Ok in E as (b & Eb & E). injection E as <- <-. destruct Hgood as [Hl Hset].
    pose proof (Hwf r Hw) as Ha. rewrite Ev in Ha. cbn in Ha. specialize (Hset r vals Hw Ev). split.
    + apply good_insert; [done|by apply assign_good|]. rewrite <- Hpk. by apply assign_pk.
    + destruct (rep_assign max rt ext pk_in pk_uuid n db g pk r _ vals Hr Hk Hrow Hpk Ha Hset Hl) as (v & body & db' & Epk & Ebody & Eapp & Hrep').
      unfold pk_cell in Eb. rewrite Epk in Eb. cbn [default from_option Datatypes.id] in Eb. rewrite Eb in Ebody. injection Ebody as <-. exists db'. split; [|done]. cbn [apply_all]. by rewrite Eapp.
  - destruct (g !! pk) as [r|] eqn:Hk; [|injection E as <- <-; split; [done|]; by exists db]. injection E as <- <-. split; [by apply map_Forall_delete|].
    destruct (rp_delete max rt ext n db g pk (UUIDVal pk) Hr) as (db' & Eapp & Hrep').
    + unfold coerceToUUID. cbn [Kind UUIDVal]. by rewrite v_UUID_UUIDVal.
    + by apply wire_uuid.
    + exists db'. split; [|done]. cbn [apply_all]. by rewrite Eapp.
Qed.
Lemma apply_all_app l k db db' : apply_all apply_mut l db = Ok db' -> apply_all apply_mut (l ++ k) db = apply_all apply_mut k db'.
Proof.
  revert db. induction l as [|b l IH]; intros db; cbn [apply_all app]; [by intros [= ->]|]. intros E. apply bind_Ok in E as (db1 & -> & E). cbn [mbind outcome_bind]. by apply IH.
Qed.
Lemma run_replayed ms : forall n db g g' bodies, Forall (staged_wf def) ms -> Forall staged_good ms -> good_map g -> rep (length ms + n) db g ->
  tx_run g ms = Ok (g', bodies) -> steps_fit g ms -> good_map g' /\ exists db', apply_all apply_mut bodies db = Ok db' /\ rep n db' g'.
Proof.
  induction ms as [|m ms IH]; intros n db g g' bodies Hwf Hgood Hg Hrep E Hfit; [injection E as <- <-; split; [done|]; by exists db|].
  apply list.Forall_cons in Hwf as [Hm Hwf]. apply list.Forall_cons in Hgood as [Hmg Hgood]. cbn [CommitOk.tx_run steps_fit] in *.
  apply bind_Ok in E as ([g1 b1] & E1 & E). apply bind_Ok in E as ([g2 b2] & E2 & E). injection E as <- <-. rewrite E1 in Hfit. cbn [fst snd] in *. destruct Hfit as [Hf Hfit].
  destruct (step_replayed (length ms + n) db g m g1 b1 Hm Hmg Hg Hrep E1 Hf) as (Hg1 & db1 & A1 & R1).
  destruct (IH n db1 g1 g2 b2 Hwf Hgood Hg1 R1 E2 Hfit) as (Hg2 & db2 & A2 & R2). split; [done|]. exists db2. by rewrite (apply_all_app _ _ _ _ A1).
Qed.

Section journal.
Context {J : Type} `{Journal J}.
Local Abbreviation commit := (commit (J := J) pkHashSeed def max id).
Local Abbreviation commit_spec := (commit_spec (J := J) def max id ext).
Local Abbreviation tbl_ok := (tbl_ok pkHashSeed def max None ext).

(** What a journaled commit did: its one record replays to the new contents. *)
Lemma spec_replayed n (j : J) db closed live g ms g' w' e : Forall (staged_wf def) ms -> Forall staged_good ms -> good_map g -> rep (length ms + n) db g ->
  steps_fit g ms -> bodies_small g ms -> commit_spec closed live g (Some j) ms = Ok (g', w', e) ->
  good_map g' /\ replays max rt ext (mut := mut) (rc := rc) n j db w' g g'.
Proof.
  intros Hwf Hgood Hg Hrep Hfit Hsm E. assert (Hr : rep n db g) by (eapply rp_mono; [|exact Hrep]; lia).
  assert (Hsame : forall x, Ok (g, Some j, x) = Ok (g', w', e) -> good_map g' /\ replays max rt ext (mut := mut) (rc := rc) n j db w' g g').
  { intros x [= <- <- _]. split; [done|]. by apply replays_none. }
  unfold CommitOk.commit_spec in E. destruct (length ms =? 0)%nat; [by eapply Hsame|]. destruct (zlen ms >? maxTxnMutations) eqn:El; [by eapply Hsame|].
  destruct closed; [by eapply Hsame|]. destruct (negb live); [by eapply Hsame|]. unfold bodies_small in Hsm.
  destruct (tx_run g ms) as [[g1 bodies]|x|] eqn:Er; [|by eapply Hsame|done]. destruct (length bodies =? 0)%nat; [by eapply Hsame|].
  destruct (_ && _); [by eapply Hsame|]. destruct (run_replayed ms n db g g1 bodies Hwf Hgood Hg Hrep Er Hfit) as (Hg1 & db1 & A1 & R1).
  destruct (jwrite_opt (Some j) recTxn (encodeTxn [] bodies)) as [w1 [x|]] eqn:Ej; injection E as <- <- <-.
  - split; [done|]. by eapply replays_err.
  - split; [done|]. eapply replays_ok; [exact Ej| |exact R1]. rewrite (apply_rec_txn max rt ext); [done|done|].
    pose proof (tx_run_length def id pk_in ms g g1 bodies Er). rewrite Z.gtb_ltb in El. apply Z.ltb_ge in El. unfold maxTxnMutations, zlen in *. lia.
Qed.
Lemma spec_dead (j : J) closed live g ms g' w' e : dead (Some j) -> commit_spec closed live g (Some j) ms = Ok (g', w', e) -> g' = g /\ w' = Some j.
Proof.
  intros (j0 & e0 & [= <-] & Hd) E. unfold CommitOk.commit_spec in E.
  assert (Hw : forall t p w' e, jwrite_opt (Some j) t p = (w', e) -> w' = Some j /\ e = Some e0).
  { intros t p w0 e1 Ew. unfold jwrite_opt in Ew. rewrite Hd in Ew. by injection Ew as <- <-. }
  destruct (length ms =? 0)%nat; [by injection E as <- <- _|]. destruct (zlen ms >? _); [by injection E as <- <- _|]. destruct closed; [by injection E as <- <- _|].
  destruct (negb live); [by injection E as <- <- _|]. destruct (tx_run g ms) as [[g1 bodies]|x|]; [|by injection E as <- <- _|done].
  destruct (length bodies =? 0)%nat; [by injection E as <- <- _|]. destruct (_ && _); [by injection E as <- <- _|].
  destruct (jwrite_opt (Some j) recTxn (encodeTxn [] bodies)) as [w1 e1] eqn:Ej. destruct (Hw _ _ _ _ Ej) as [-> ->]. by injection E as <- <- _.
Qed.

(** Statements and commits in any order; [n] bounds the rows they insert. *)
Inductive history : nat -> tbl_state -> option J -> tbl_state -> option J -> Prop :=
  | h_nil n t w : history n t w t w
  | h_op n t w op t1 w1 a t' w' : op_wf def op -> op_good rt op -> small a -> run_op pkHashSeed def max t w op = Ok (t1, w1, a) ->
      history n t1 w1 t' w' -> history (S n) t w t' w'
  | h_commit n t w closed live ms skipDup t1 w1 e t' w' : Forall (staged_wf def) ms -> Forall staged_good ms ->
      (forall g, tbl_ok t g -> steps_fit g ms /\ bodies_small g ms /\ (skipDup = true -> all_new g ms)) ->
      commit closed live t w ms skipDup = Ok (t1, w1, e) -> history n t1 w1 t' w' -> history (length ms + n) t w t' w'.

Lemma history_dead n (j : J) t w t' w' g : history n t w t' w' -> w = Some j -> dead w -> tbl_ok t g -> room n t -> good_map g ->
  tbl_ok t' g /\ w' = Some j.
Proof.
  intros Hh. revert g. induction Hh as [n t w|n t w op t1 w1 a t' w' Hop Hgo Ha E Hh IH|n t w closed live ms skipDup t1 w1 e t' w' Hwf Hgood Hside E Hh IH]; intros g -> Hd Ht Hr Hg; [done| |].
  - destruct (sim_step pkHashSeed def max None ext pk_in t g (Some j) op n Ht Hr Hop) as (t2 & g2 & w2 & a2 & E2 & S & Ht2 & Hr2).
    rewrite E in E2. injection E2 as <- <- <-. destruct (step_dead max rt ext j g op g2 w1 a Hd Hop Hg S) as [-> ->]. by apply IH.
  - destruct (Hside g Ht) as (_ & _ & Hnew).
    destruct (commit_applies pkHashSeed def max id pk_in None ext closed live t g (Some j) ms skipDup n Ht Hr Hwf Hnew) as (t2 & g2 & w2 & e2 & E2 & S & Ht2 & Hr2).
    rewrite E in E2. injection E2 as <- <- <-. destruct (spec_dead j _ _ _ _ _ _ _ Hd S) as [-> ->]. by apply IH.
Qed.
Lemma history_replay n t w t' w' : history n t w t' w' -> forall (j : J) g db, w = Some j -> tbl_ok t g -> room n t -> good_map g -> rep n db g ->
  exists j' recs g' db', w' = Some j' /\ tbl_ok t' g' /\ apply_records apply_rec recs db = (db', Ok tt) /\ rep 0 db' g' /\
    (jlog j' = jlog j ++ recs \/ (dead w' /\ exists r, jlog j' = jlog j ++ recs ++ [r])).
Proof.
  assert (Hgo : forall n (j : J) t1 w1 t' w' g g1 db, history n t1 w1 t' w' -> tbl_ok t1 g1 -> room n t1 -> good_map g1 -> rep n db g ->
    replays max rt ext (mut := mut) (rc := rc) n j db w1 g g1 ->
    (forall (j : J) g db, w1 = Some j -> tbl_ok t1 g -> room n t1 -> good_map g -> rep n db g ->
      exists j' recs g' db', w' = Some j' /\ tbl_ok t' g' /\ apply_records apply_rec recs db = (db', Ok tt) /\ rep 0 db' g' /\
        (jlog j' = jlog j ++ recs \/ (dead w' /\ exists r, jlog j' = jlog j ++ recs ++ [r]))) ->
    exists j' recs g' db', w' = Some j' /\ tbl_ok t' g' /\ apply_records apply_rec recs db = (db', Ok tt) /\ rep 0 db' g' /\
      (jlog j' = jlog j ++ recs \/ (dead w' /\ exists r, jlog j' = jlog j ++ recs ++ [r]))).
  { intros n0 j t1 w1 t0 w0 g g1 db Hh Ht1 Hr1 Hg1 Hrep [(j1 & recs & db1 & -> & Hl & Happ & Hrep1)|(Hd & -> & j1 & -> & Hl)] IH.
    - destruct (IH j1 g1 db1 eq_refl Ht1 Hr1 Hg1 Hrep1) as (j' & recs' & g' & db' & -> & Ht' & Happ' & Hrep' & Hlog).
      exists j', (recs ++ recs'), g', db'. rewrite (replay_app _ _ _ _ Happ). do 4 (split; [done|]).
      destruct Hlog as [Hlog|(Hd & x & Hlog)]; [left|right; split; [done|]; exists x]; by rewrite Hlog, Hl, <- !app_assoc.
    - destruct (history_dead n0 j1 t1 (Some j1) t0 w0 g Hh eq_refl Hd Ht1 Hr1 Hg1) as [Ht2 ->]. exists j1, [], g, db. do 3 (split; [done|]).
      split; [eapply rp_mono; [|exact Hrep]; lia|]. cbn [app]. rewrite app_nil_r. destruct Hl as [Hl|Hl]; [by left|by right]. }
  induction 1 as [n t w|n t w op t1 w1 a t' w' Hop Hgd Ha E Hh IH|n t w closed live ms skipDup t1 w1 e t' w' Hwf Hgood Hside E Hh IH]; intros j g db -> Ht Hr Hg Hrep.
  - exists j, [], g, db. rewrite app_nil_r. do 3 (split; [done|]). split; [eapply rp_mono; [|exact Hrep]; lia|by left].
  - destruct (sim_step pkHashSeed def max None ext pk_in t g (Some j) op n Ht Hr Hop) as (t2 & g2 & w2 & a2 & E2 & S & Ht2 & Hr2).
    rewrite E in E2. injection E2 as <- <- <-.
    destruct (step_replays max rt ext (mut := mut) (rc := rc) pk_in pk_uuid n j db g op g2 w1 a S Hop Hgd Ha Hg Hrep) as [Hg2 Hrp].
    eapply Hgo; [exact Hh|exact Ht2|exact Hr2|exact Hg2| |exact Hrp|exact IH]. eapply rp_mono; [|exact Hrep]; lia.
  - destruct (Hside g Ht) as (Hfit & Hsm & Hnew).
    destruct (commit_applies pkHashSeed def max id pk_in None ext closed live t g (Some j) ms skipDup n Ht Hr Hwf Hnew) as (t2 & g2 & w2 & e2 & E2 & S & Ht2 & Hr2).
    rewrite E in E2. injection E2 as <- <- <-. destruct (spec_replayed n j db closed live g ms g2 w1 e Hwf Hgood Hg Hrep Hfit Hsm S) as [Hg2 Hrp].
    eapply Hgo; [exact Hh|exact Ht2|exact Hr2|exact Hg2| |exact Hrp|exact IH]. eapply rp_mono; [|exact Hrep]; lia.
Qed.
End journal.
End consumer.
End replay.
