(* ===== verification/CommitMain.v ===== *)
(** * CommitMain: what a commit promises, and the log of a history with commits. *)
From S2P Require Import Prelude Bytes Order Uuid Value CompositeKey PkMap Codec Frame Journal Schema Catalog SecIndex Store StoreOk StoreSim Ast Eval Lexer Parser Plan PlanJoin PlanJoinOk Recovery Replayer RecoveryOk Commit CommitOk CommitReplay WriteMain.

(** C2: a commit is atomic. A group of staged statements - a transaction, or the
    rows of a multi-row INSERT - either leaves the map its statements make one
    after the other, each seeing the ones before it, behind one TXN record of all
    their effects, or reports an error and leaves every row; the table stays
    well formed, its byte total exact, in both cases. *)
Theorem commit_atomic {J : Type} `{Journal J} pkHashSeed def max tid tr ext closed live t g (w : option J) ms skipDup n :
  (pkOrd def < length (t_Columns (rt_def def)))%nat -> tbl_ok pkHashSeed def max tr ext t g -> room (length ms + n) t ->
  Forall (staged_wf def) ms -> (skipDup = true -> all_new g ms) ->
  applied pkHashSeed def max tr ext n (commit pkHashSeed def max tid closed live t w ms skipDup) (commit_spec def max tid ext closed live g w ms).
Proof. intros Hpk. by apply commit_applies. Qed.
(** C12: the locks of a commit are the shards its statements address, each once and
    in ascending order, and it writes no other shard. *)
Theorem commit_locks {J : Type} `{Journal J} pkHashSeed def max tid closed live t (w : option J) ms skipDup :
  (pkOrd def < length (t_Columns (rt_def def)))%nat -> Forall (staged_wf def) ms ->
  StronglySorted lt (collectShards t ms) /\ (forall i, i ∈ collectShards t ms <-> exists m, m ∈ ms /\ idx t (st_pk m) = i) /\
  forall t' w' e, commit pkHashSeed def max tid closed live t w ms skipDup = Ok (t', w', e) ->
    forall i, i ∉ collectShards t ms -> t_shards t' !! i = t_shards t !! i.
Proof. intros Hpk. by apply locks_ok. Qed.
(** C3: the log of a history of statements and commits in any order is enough:
    replayed on the initial contents it rebuilds those of the live table. A failed
    write may leave one more record, after which nothing is journaled or applied. A
    commit's inserts must fit one by one: replay admits each of them. *)
Theorem history_replays {J : Type} `{Journal J} pkHashSeed max ncpu sizeHint rt ext n t (j : J) t' w' g db :
  0 <= tableID rt < 2 ^ 16 -> zlen (t_Columns (rt_def (table rt))) < 2 ^ 16 ->
  (pkOrd (table rt) < length (t_Columns (rt_def (table rt))))%nat ->
  (forall c, t_Columns (rt_def (table rt)) !! pkOrd (table rt) = Some c -> c_Type c = TypeUUID /\ c_Nullable c = false) ->
  history pkHashSeed max rt ext n t (Some j) t' w' -> tbl_ok pkHashSeed (table rt) max None ext t g -> room n t -> good_map rt g ->
  rep pkHashSeed max rt ext n db g ->
  exists j' recs g' db', w' = Some j' /\ tbl_ok pkHashSeed (table rt) max None ext t' g' /\
    apply_records (applyReplayRecord pkHashSeed max ncpu sizeHint) recs db = (db', Ok tt) /\ rep pkHashSeed max rt ext 0 db' g' /\
    (jlog j' = jlog j ++ recs \/ (dead w' /\ exists r, jlog j' = jlog j ++ recs ++ [r])).
Proof.
  intros H1 H2 H3 H4 Hh Ht Hr Hg Hrep.
  eapply (history_replay pkHashSeed max rt ext H3 H4 (R := rdb_replayer pkHashSeed max ncpu sizeHint rt ext H1 H2 H3 H4)); done.
Qed.

(** ** The users table *)
Definition rename_pk_sql : string := "UPDATE users SET name = ? WHERE id = ?".
Definition tx_args : list Value := [Str (lit "bob"); UUIDVal ada_id].
Definition tx_group : list stagedMut := [st_insert ada_id (ada 36 (lit "ada")); st_update ada_id (users_planned rename_pk_sql) tx_args].
Lemma tx_sets r : computeSets (users_planned rename_pk_sql) tx_args r = Ok [Str (lit "bob")] /\ pl_updateOrdinals (users_planned rename_pk_sql) = [2%nat].
Proof.
  assert (E : exists c, pl_st (users_planned rename_pk_sql) = SUpdate (lit "users") [MkSet (lit "name") (paramRef 0)] c /\
    pl_rt (users_planned rename_pk_sql) = Some users_tab /\ pl_updateOrdinals (users_planned rename_pk_sql) = [2%nat]).
  { eexists. split_and!; vm_compute; reflexivity. }
  destruct E as (c & E1 & E2 & E3). split; [|done]. unfold computeSets. by rewrite E1, E2, E3.
Qed.
Lemma tx_wf : Forall (staged_wf users_rt) tx_group.
Proof.
  apply Forall_cons_2; [split; [by apply ada_wf|by vm_compute]|]. apply Forall_cons_2; [|constructor]. intros r _. destruct (tx_sets r) as [-> ->].
  split; [done|]. split; apply list.Forall_singleton; [by apply ok_str|vm_compute; split; lia].
Qed.
Lemma tx_good : Forall (staged_good users_tab) tx_group.
Proof.
  apply Forall_cons_2; [by apply ada_good|]. apply Forall_cons_2; [|constructor]. destruct (tx_sets []) as [_ Eo]. split; [by rewrite Eo|].
  intros r vals _. destruct (tx_sets r) as [-> ->]. intros [= <-]. constructor; [|constructor]. eexists. split; [vm_compute; reflexivity|].
  split; [vm_compute; reflexivity|]. split; [by apply ok_str|]. vm_compute. by split.
Qed.
Lemma tx_runs : tx_run users_rt 0 ∅ tx_group = Ok ({[ada_id := ada 36 (lit "bob")]}, [encodeInsertMutation [] 0 (ada 36 (lit "ada")); default [] (match encodeUpdateMutation [] 0 (UUIDVal ada_id) [2%nat] (ada 36 (lit "bob")) with Ok b => Some b | _ => None end)]).
Proof.
  unfold tx_group. cbn [tx_run tx_step]. rewrite lookup_empty. cbn [mbind outcome_bind fst snd]. rewrite lookup_insert_eq.
  destruct (tx_sets (ada 36 (lit "ada"))) as [-> ->]. cbn [mbind outcome_bind assign].
  assert (Er : <[2%nat:=Str (lit "bob")]> (ada 36 (lit "ada")) = ada 36 (lit "bob")) by (vm_compute; reflexivity).
  assert (Ek : pk_cell users_rt (ada 36 (lit "bob")) = UUIDVal ada_id) by (vm_compute; reflexivity). rewrite Er, Ek.
  assert (Ee : exists b, encodeUpdateMutation [] 0 (UUIDVal ada_id) [2%nat] (ada 36 (lit "bob")) = Ok b) by (eexists; vm_compute; reflexivity).
  destruct Ee as [b ->]. cbn [mbind outcome_bind fst snd app default]. by rewrite insert_insert_eq.
Qed.
Lemma commit_atomic_witness : applied 0 users_rt 1000 None 0 7 (commit 0 users_rt 1000 0 false true t0 (Some ([] : list (Z * bytes))) tx_group false)
  (commit_spec users_rt 1000 0 0 false true ∅ (Some []) tx_group).
Proof. apply (commit_atomic 0 users_rt 1000 0 None 0 false true t0 ∅ (Some ([] : list (Z * bytes))) tx_group false 7); [vm_compute; lia|apply t0_ok..|exact tx_wf|done]. Defined.
Lemma commit_locks_witness : StronglySorted lt (collectShards t0 tx_group) /\ collectShards t0 tx_group <> [].
Proof.
  destruct (commit_locks (J := list (Z * bytes)) 0 users_rt 1000 0 false true t0 None tx_group false) as (Hs & Hi & _); [vm_compute; lia|exact tx_wf|]. split; [exact Hs|].
  intros E. rewrite E in Hi. apply (elem_of_nil (idx t0 ada_id)). apply Hi. exists (st_insert ada_id (ada 36 (lit "ada"))). split; [by left|done].
Defined.
Lemma users_ok_unique t g g' : tbl_ok 0 users_rt 1000 None 0 t g -> tbl_ok 0 users_rt 1000 None 0 t g' -> g = g'.
Proof.
  intros H1 H2. apply map_eq. intros k. pose proof (getByPK_ok _ _ _ _ _ _ _ k H1) as E. rewrite (getByPK_ok _ _ _ _ _ _ _ k H2) in E. congruence.
Qed.
Lemma tx_side : forall g, tbl_ok 0 users_rt 1000 None 0 t0 g ->
  steps_fit 1000 users_tab 0 g tx_group /\ bodies_small users_tab g tx_group /\ (false = true -> all_new g tx_group).
Proof.
  intros g Hg. rewrite (users_ok_unique t0 g ∅ Hg (proj1 t0_ok)). split; [|split; [|done]].
  - unfold tx_group. cbn [steps_fit tx_step]. rewrite lookup_empty. split.
    { intros _. rewrite map_cost_insert by apply lookup_empty. unfold map_cost. rewrite map_fold_empty. by vm_compute. }
    rewrite lookup_insert_eq.
    destruct (tx_sets (ada 36 (lit "ada"))) as [-> ->]. cbn [mbind outcome_bind]. by destruct (encodeUpdateMutation _ _ _ _ _).
  - unfold bodies_small. change (tableID users_tab) with 0. change (table users_tab) with users_rt. rewrite tx_runs. cbv beta iota. repeat (apply Forall_cons_2; [by vm_compute|]). constructor.
Qed.
Lemma history_replays_witness : exists t' j' recs g' db', history 0 1000 users_tab 0 3 t0 (Some ([] : list (Z * bytes))) t' (Some j') /\
  apply_records (applyReplayRecord 0 1000 1 0) recs db0 = (db', Ok tt) /\ rep 0 1000 users_tab 0 0 db' g' /\
  (j' = recs \/ dead (Some j') /\ exists r, j' = recs ++ [r]).
Proof.
  destruct (commit_applies 0 users_rt 1000 0 ltac:(vm_compute; lia) None 0 false true t0 ∅ (Some ([] : list (Z * bytes))) tx_group false 7)
    as (t1 & g1 & w1 & e1 & E1 & S1 & Ht1 & Hr1); [apply t0_ok|apply t0_ok|exact tx_wf|done|].
  destruct (sim_step 0 users_rt 1000 None 0 ltac:(vm_compute; lia) t1 g1 w1 (ODelete ada_id users_mj) 6 Ht1 Hr1 I) as (t2 & g2 & w2 & a2 & E2 & S2 & Ht2 & Hr2).
  assert (Hsm : small a2) by (inversion S2; subst; cbn; try lia; by destruct e).
  assert (Hh : history 0 1000 users_tab 0 3 t0 (Some ([] : list (Z * bytes))) t2 w2).
  { apply (h_commit 0 1000 users_tab 0 1 t0 (Some []) false true tx_group false t1 w1 e1); [exact tx_wf|exact tx_good|exact tx_side|exact E1|].
    apply (h_op 0 1000 users_tab 0 0 t1 w1 (ODelete ada_id users_mj) t2 w2 a2 t2 w2); [exact I|split; reflexivity|exact Hsm|exact E2|apply h_nil]. }
  destruct (history_replays 0 1000 1 0 users_tab 0 3 t0 ([] : list (Z * bytes)) t2 w2 ∅ db0) as (j' & recs & g' & db' & -> & H1 & H2 & H3 & H4).
  - vm_compute; split; congruence.
  - vm_compute; congruence.
  - vm_compute; lia.
  - exact users_pk_uuid.
  - exact Hh.
  - apply t0_ok.
  - apply (room_mono users_rt 9); [lia|apply t0_ok].
  - apply map_Forall_empty.
  - by apply db0_rep.
  - exists t2, j', recs, g', db'. split; [exact Hh|]. split; [exact H2|]. split; [exact H3|].
    destruct H4 as [H4|[Hd [r H4]]]; [left; exact H4|right; split; [exact Hd|]; exists r; exact H4].
Defined.
