(* ===== verification/Drain.v ===== *)
(** * Drain: drain.go and the SQL side of recover_sqlite.go — the SQLite
    companion as a mirror of the log.

    SQLite itself is the [Sqlite] parameter: the effect of one statement on the
    content of the file, and the rows a query answers. A transaction works on its
    own copy of the content, which COMMIT installs and ROLLBACK drops; the
    handle's table map is ordinary memory and keeps what the transaction did to
    it in both cases. A failing statement is [errIO]. *)
From S2P Require Import Prelude Bytes Uuid Value PkMap Codec Frame Wal Journal Schema Catalog Store StoreOk StoreSim Recovery.

(** What database/sql passes: nil, int64, string and []byte, and a float64 by its
    formatted text. *)
Inductive sqlVal : Type :=
  | SNull
  | SInt (z : Z)
  | SText (s : bytes)
  | SBlob (b : bytes)
  | SReal (s : bytes).

Class Sqlite (Q : Type) : Type := {
  sq_exec : Q -> bytes -> list sqlVal -> option Q;
  sq_query : Q -> bytes -> option (list (list sqlVal));
}.

(** ** Building SQL *)
Definition dquote : Init.Byte.byte := Byte.x22.
Definition quoteIdent (s : bytes) : bytes :=
  [dquote] ++ flat_map (fun b => if bool_decide (b = dquote) then [dquote; dquote] else [b]) s ++ [dquote].

Definition sqlColType (t : Z) : bytes :=
  if (t =? TypeInt) || (t =? TypeBool) then lit "INTEGER"
  else if t =? TypeString then lit "TEXT"
  else if (t =? TypeBytes) || (t =? TypeUUID) then lit "BLOB"
  else lit "BLOB".

(** [sep] between the pieces, as the [if i > 0] of each builder loop. *)
Fixpoint join_with (sep : bytes) (l : list bytes) : bytes :=
  match l with
  | [] => []
  | [x] => x
  | x :: l => x ++ sep ++ join_with sep l
  end.

Definition column_sql (c : ColumnDef) : bytes :=
  quoteIdent (c_Name c) ++ lit " " ++ sqlColType (c_Type c) ++
  (if c_PK c then lit " PRIMARY KEY" else if negb (c_Nullable c) then lit " NOT NULL" else []).
Definition createTableSQL (td : TableDef) : bytes :=
  lit "CREATE TABLE IF NOT EXISTS " ++ quoteIdent (t_Name td) ++ lit " (" ++
  join_with (lit ", ") (map column_sql (t_Columns td)) ++ lit ")".

Record drainTable : Type := MkDrainTable {
  dt_name : bytes;
  dt_def : TableDef;
  dt_cols : list ColumnDef;
  dt_pkOrd : nat;
  dt_insertSQL : bytes;
  dt_deleteSQL : bytes;
}.

(** The last column flagged PK, else the first column. *)
Fixpoint pk_column (cols : list ColumnDef) (i pk : nat) : nat :=
  match cols with
  | [] => pk
  | c :: cols => pk_column cols (S i) (if c_PK c then i else pk)
  end.
Definition buildDrainTable (td : TableDef) : outcome drainTable :=
  let pkOrd := pk_column (t_Columns td) 0 0 in
  let cols := join_with (lit ", ") (map (fun c => quoteIdent (c_Name c)) (t_Columns td)) in
  let ph := join_with (lit ", ") (map (fun _ => lit "?") (t_Columns td)) in
  pk ← index (t_Columns td) pkOrd;
  Ok (MkDrainTable (t_Name td) td (t_Columns td) pkOrd
    (lit "INSERT OR REPLACE INTO " ++ quoteIdent (t_Name td) ++ lit " (" ++ cols ++ lit ") VALUES (" ++ ph ++ lit ")")
    (lit "DELETE FROM " ++ quoteIdent (t_Name td) ++ lit " WHERE " ++ quoteIdent (c_Name pk) ++ lit " = ?")).

Definition valueToArg (v : Value) : sqlVal :=
  match Kind v with
  | KindNull => SNull
  | KindInt => SInt (v_Int v)
  | KindBool => if v_Bool v then SInt 1 else SInt 0
  | KindString => SText (v_Str v)
  | KindBytes => SBlob (v_Bytes v)
  | KindUUID => SBlob (ubytes (v_UUID v))
  end.

Section mirror.
Context {Q : Type} `{Sqlite Q}.
(** The order of a range over the table map. *)
Context (iter : gmap Z drainTable -> list (Z * drainTable)).

(** The content of the file (or of the open transaction) and [m.tables]. *)
Abbreviation mir := (Q * gmap Z drainTable)%type.

Definition sql (q : Q) (text : bytes) (args : list sqlVal) : outcome Q :=
  match sq_exec q text args with Some q => Ok q | None => Err errIO end.
(** A method that may stop between two statements: what it did so far and its error. *)
Definition step_sql (m : mir) (text : bytes) (args : list sqlVal) (k : mir -> mir * outcome unit) : mir * outcome unit :=
  match sq_exec (fst m) text args with
  | Some q => k (q, snd m)
  | None => (m, Err errIO)
  end.
Definition done_ (r : mir * outcome unit) : outcome mir :=
  match r with (m, Ok _) => Ok m | (_, Err e) => Err e | (_, Panic) => Panic end.

(** ** Registering and dropping tables *)
Definition insert_registry : bytes := lit "INSERT OR REPLACE INTO _hz_tables (table_id, name, def) VALUES (?, ?, ?)".
Definition register (m : mir) (tableID : Z) (td : TableDef) : mir * outcome unit :=
  step_sql m (createTableSQL td) [] (fun m =>
  step_sql m insert_registry [SInt tableID; SText (t_Name td); SBlob (encodeCreateTable [] tableID td)] (fun m =>
  match buildDrainTable td with
  | Ok dt => ((fst m, <[tableID := dt]> (snd m)), Ok tt)
  | Err e => (m, Err e)
  | Panic => (m, Panic)
  end)).

Definition dropTable_ (m : mir) (name : bytes) : mir * outcome unit :=
  step_sql m (lit "DROP TABLE IF EXISTS " ++ quoteIdent name) [] (fun m =>
  match List.find (fun kd => bool_decide (dt_name (snd kd) = name)) (iter (snd m)) with
  | Some (id, _) =>
      step_sql m (lit "DELETE FROM _hz_tables WHERE table_id = ?") [SInt id] (fun m =>
      ((fst m, delete id (snd m)), Ok tt))
  | None => (m, Ok tt)
  end).

(** ** One mutation *)

(** The SET callback: the text so far and the arguments. *)
Definition mirror_set (dt : drainTable) (a : bytes * list sqlVal) (ord : nat) (v : Value) : outcome (bytes * list sqlVal) :=
  if (length (dt_cols dt) <=? ord)%nat then Err ErrWALCorrupt
  else
    c ← index (dt_cols dt) ord;
    _ ← wrap ErrWALCorrupt (validateValue c v);
    let set := if (0 <? zlen (fst a)) then fst a ++ lit ", " else fst a in
    Ok (set ++ quoteIdent (c_Name c) ++ lit " = ?", snd a ++ [valueToArg v]).
Definition updateSQL (dt : drainTable) (set : bytes) : outcome bytes :=
  pk ← index (dt_cols dt) (dt_pkOrd dt);
  Ok (lit "UPDATE " ++ quoteIdent (dt_name dt) ++ lit " SET " ++ set ++ lit " WHERE " ++ quoteIdent (c_Name pk) ++ lit " = ?").

Definition mirror_op (q : Q) (dt : drainTable) (op : Z) (body : bytes) : outcome Q :=
  if op =? opInsert then
    row ← decodeRow body;
    _ ← validateInsertRow (dt_cols dt) row;
    sql q (dt_insertSQL dt) (map valueToArg row)
  else if op =? opUpdate then
    pa ← decodeUpdateMutation body (mirror_set dt) ([], []);
    let '(pk, (set, args)) := pa in
    pkU ← wrap ErrWALCorrupt (coerceToUUID pk);
    text ← updateSQL dt set;
    sql q text (args ++ [valueToArg (UUIDVal pkU)])
  else if op =? opDelete then
    pk ← decodeDeleteBody body;
    pkU ← wrap ErrWALCorrupt (coerceToUUID pk);
    sql q (dt_deleteSQL dt) [valueToArg (UUIDVal pkU)]
  else Err ErrWALCorrupt.
Definition mirror_mutation (m : mir) (payload : bytes) : outcome mir :=
  if zlen payload <? 3 then Err ErrWALCorrupt
  else
    op ← index payload 0;
    h ← slice_o payload 1 3;
    match snd m !! le_get h with
    | None => Err ErrWALCorrupt
    | Some dt => body ← slice_o payload 3 (zlen payload); q ← mirror_op (fst m) dt (b2z op) body; Ok (q, snd m)
    end.

(** applyRecord. A failing record leaves the table map as it was, and the caller
    rolls the content back. *)
Definition mirror_record (m : mir) (recType : Z) (payload : bytes) : outcome mir :=
  if recType =? recCreateTable then r ← decodeCreateTable payload; done_ (register m (fst r) (snd r))
  else if recType =? recDropTable then name ← decodeDropTable payload; done_ (dropTable_ m name)
  else if recType =? recCheckpoint then Ok m
  else if recType =? recMutation then mirror_mutation m payload
  else if recType =? recTxn then forEachTxnMutation payload mirror_mutation m
  else Err ErrWALCorrupt.

(** ** Draining *)

(** The handle, with the WAL directory it drains. *)
Record drainer : Type := MkDrainer {
  d_sdb : Q;
  d_tables : gmap Z drainTable;
  d_last : Z;
  d_disk : disk;
}.
(** Which of os.Open, Begin, Commit and os.Remove succeed on a segment. *)
Record seg_io : Type := MkIo { io_open : bool; io_begin : bool; io_commit : bool; io_remove : bool }.
Definition io_ok : seg_io := MkIo true true true true.

Definition set_cursor : bytes :=
  lit "INSERT INTO _hz_meta (k, v) VALUES ('last_drained_segment', ?) ON CONFLICT(k) DO UPDATE SET v=excluded.v".
Definition insert_event : bytes := lit "INSERT INTO _hz_events (ts, level, kind, message) VALUES (?, ?, ?, ?)".
(** The clock and the formatted message of an event. *)
Context (event_row : Z -> list sqlVal).
(** logEvent: a companion error is swallowed. *)
Definition logEvent (q : Q) (n : Z) : Q := default q (sq_exec q insert_event (event_row n)).

Definition drainSegment (io : seg_io) (d : drainer) (n : Z) : drainer * outcome unit :=
  match vis (d_disk d) !! segPath n with
  | Some (f, _) =>
      if negb (io_open io) then (d, Err errIO)
      else if negb (io_begin io) then (d, Err errIO)
      else
        let '((q, tables), applyErr) := scanRecords mirror_record f (d_sdb d, d_tables d) in
        let rolled_back := MkDrainer (d_sdb d) tables (d_last d) (d_disk d) in
        let commit (bad : bool) :=
          match sq_exec q set_cursor [SInt (s64 n)] with
          | None => (rolled_back, Err errIO)
          | Some q =>
              if negb (io_commit io) then (rolled_back, Err errIO)
              else
                let disk := if io_remove io then MkDisk (delete (segPath n) (vis (d_disk d))) (dur (d_disk d)) else d_disk d in
                (MkDrainer (if bad then logEvent q n else q) tables n disk, Ok tt)
          end in
        match applyErr with
        | Ok _ => commit false
        | Err e => if bool_decide (e = errWALFraming) then commit true else (rolled_back, Err e)
        | Panic => (rolled_back, Panic)
        end
  | None => (d, Err errIO)
  end.

Fixpoint drain_loop (io : Z -> seg_io) (d : drainer) (sealed : list Z) (expected : Z) : drainer * outcome unit :=
  match sealed with
  | [] => (d, Ok tt)
  | n :: sealed =>
      if n <? expected then drain_loop io d sealed expected
      else if negb (n =? expected) then (d, Err errWALMissingSegment)
      else match drainSegment (io n) d n with
           | (d, Ok _) => drain_loop io d sealed (n + 1)
           | r => r
           end
  end.
(** sealedSegments: every segment on the disk. *)
Definition sealedSegments (d : disk) : list Z := listSegments d.
Definition drainOnce (mirrorOn : bool) (io : Z -> seg_io) (d : drainer) : drainer * outcome unit :=
  if negb mirrorOn then (d, Ok tt)
  else drain_loop io d (sealedSegments (d_disk d)) (d_last d + 1).
End mirror.
