(* ===== verification/Companion.v ===== *)
(** * Companion: opening the SQLite companion and recovering from it — the opening
    half of drain.go, recover_sqlite.go, and Open's recovery sequence (db.go). *)
From S2P Require Import Prelude Bytes Uuid Value PkMap Codec Frame Wal Journal Schema Catalog Store StoreOk StoreSim Recovery Drain.

(** ** Row.Scan, as database/sql converts *)
Definition scan_int64 (v : sqlVal) : outcome Z :=
  match v with
  | SInt z => Ok z
  | SText s | SBlob s | SReal s => ParseInt s
  | SNull => Err errIO
  end.
Definition scan_string (v : sqlVal) : outcome bytes :=
  match v with
  | SText s | SBlob s | SReal s => Ok s
  | SInt z => Ok (FormatInt z)
  | SNull => Err errIO
  end.
Definition scan_bytes (v : sqlVal) : outcome bytes :=
  match v with
  | SText s | SBlob s | SReal s => Ok s
  | SInt z => Ok (FormatInt z)
  | SNull => Ok []
  end.

(** ** Cells *)

(** sqliteValToValue. *)
Definition sqliteValToValue (t : Z) (x : sqlVal) : outcome Value :=
  match x with
  | SNull => Ok Null
  | _ =>
      if t =? TypeInt then match x with SInt i => Ok (Int i) | _ => Err ErrMirrorCorrupt end
      else if t =? TypeBool then
        match x with
        | SInt i => if (i =? 0) || (i =? 1) then Ok (Bool (i =? 1)) else Err ErrMirrorCorrupt
        | _ => Err ErrMirrorCorrupt
        end
      else if t =? TypeString then match x with SText s | SBlob s => Ok (Str s) | _ => Err ErrMirrorCorrupt end
      else if t =? TypeBytes then match x with SBlob b => Ok (Bytes b) | _ => Err ErrMirrorCorrupt end
      else if t =? TypeUUID then
        match x with
        | SBlob b => if (length b =? 16)%nat then Ok (UUIDVal (uuid_of b)) else Err ErrMirrorCorrupt
        | _ => Err ErrMirrorCorrupt
        end
      else Err ErrMirrorCorrupt
  end.
(** One scanned row: convert and check, cell by cell. *)
Fixpoint scan_cells (cols : list ColumnDef) (raw : list sqlVal) : outcome Row :=
  match cols, raw with
  | [], [] => Ok []
  | c :: cols, x :: raw =>
      v ← sqliteValToValue (c_Type c) x;
      _ ← wrap ErrMirrorCorrupt (validateValue c v);
      row ← scan_cells cols raw;
      Ok (v :: row)
  | _, _ => Err errIO
  end.
Definition select_all (dt : drainTable) : bytes :=
  lit "SELECT " ++ join_with (lit ", ") (map (fun c => quoteIdent (c_Name c)) (dt_cols dt)) ++
  lit " FROM " ++ quoteIdent (dt_name dt).

Definition sameColumn (a b : ColumnDef) : bool :=
  bool_decide (c_Name a = c_Name b) && (c_Type a =? c_Type b) && Bool.eqb (c_PK a) (c_PK b) &&
  Bool.eqb (c_Immutable a) (c_Immutable b) && Bool.eqb (c_PartitionKey a) (c_PartitionKey b) &&
  Bool.eqb (c_Nullable a) (c_Nullable b).
Fixpoint all2 {A} (f : A -> A -> bool) (l k : list A) : bool :=
  match l, k with
  | x :: l, y :: k => f x y && all2 f l k
  | [], [] => true
  | _, _ => false
  end.
Definition sameIndex (x y : IndexDef) : bool :=
  bool_decide (ix_Name x = ix_Name y) && Bool.eqb (ix_Ordered x) (ix_Ordered y) &&
  all2 (fun a b => bool_decide (a = b)) (ix_Columns x) (ix_Columns y).
Definition sameTableDef (a b : TableDef) : bool :=
  bool_decide (t_Name a = t_Name b) && all2 sameColumn (t_Columns a) (t_Columns b) &&
  all2 sameIndex (t_Indexes a) (t_Indexes b).

Section companion.
Context {Q : Type} `{Sqlite Q}.
Context (iter : gmap Z drainTable -> list (Z * drainTable)).
Context (pkHashSeed max ncpu sizeHint : Z).
Abbreviation mir := (Q * gmap Z drainTable)%type.

(** Statements run for their effect, each stopping the method on an error. *)
Fixpoint sql_all (q : Q) (texts : list bytes) : Q * outcome unit :=
  match texts with
  | [] => (q, Ok tt)
  | t :: texts => match sq_exec q t [] with Some q => sql_all q texts | None => (q, Err errIO) end
  end.
Definition pragmas : list bytes :=
  [lit "PRAGMA journal_mode=WAL"; lit "PRAGMA synchronous=FULL"; lit "PRAGMA busy_timeout=5000"].
Definition ops_tables : list bytes :=
  [lit "CREATE TABLE IF NOT EXISTS _hz_events (
	id      INTEGER PRIMARY KEY,
	ts      INTEGER NOT NULL,
	level   TEXT    NOT NULL,
	kind    TEXT    NOT NULL,
	message TEXT    NOT NULL,
	data    TEXT
)"; lit "CREATE INDEX IF NOT EXISTS _hz_events_ts ON _hz_events(ts)"].
Definition ensureOps (q : Q) : Q * outcome unit := sql_all q ops_tables.
(** openCompanion past the directory and sql.Open, whose success is given. *)
Definition openCompanion (mkdir_ok open_ok : bool) (q : Q) : Q * outcome (gmap Z drainTable) :=
  if negb mkdir_ok || negb open_ok then (q, Err errIO)
  else
    match sql_all q pragmas with
    | (q, Ok _) =>
        match ensureOps q with
        | (q, Ok _) => (q, Ok ∅)
        | (q, Err e) => (q, Err e)
        | (q, Panic) => (q, Panic)
        end
    | (q, Err e) => (q, Err e)
    | (q, Panic) => (q, Panic)
    end.

Definition meta_tables : list bytes :=
  [lit "CREATE TABLE IF NOT EXISTS _hz_meta (k TEXT PRIMARY KEY, v INTEGER)";
   lit "CREATE TABLE IF NOT EXISTS _hz_tables (table_id INTEGER PRIMARY KEY, name TEXT, def BLOB)"].
Definition ensureMirrorMeta (q : Q) : Q * outcome unit := sql_all q meta_tables.

Definition select_cursor : bytes := lit "SELECT v FROM _hz_meta WHERE k='last_drained_segment'".
Definition loadCursor (q : Q) : outcome Z :=
  match sq_query q select_cursor with
  | None => Err errIO
  | Some [] => Ok 0
  | Some ([x] :: _) => v ← scan_int64 x; if v <? 0 then Err ErrWALCorrupt else Ok (u64 v)
  | Some _ => Err errIO
  end.

Definition select_registry : bytes := lit "SELECT table_id, name, def FROM _hz_tables".
Fixpoint load_registry (rows : list (list sqlVal)) (tables : gmap Z drainTable) : outcome (gmap Z drainTable) :=
  match rows with
  | [] => Ok tables
  | [i; n; d] :: rows =>
      id ← scan_int64 i;
      name ← scan_string n;
      def ← scan_bytes d;
      if (id <? 0) || (id >? 65535) then Err ErrWALCorrupt
      else
        r ← decodeCreateTable def;
        if negb (fst r =? u16 id) || negb (bool_decide (t_Name (snd r) = name)) then Err ErrWALCorrupt
        else
          dt ← buildDrainTable (snd r);
          load_registry rows (<[u16 id := dt]> tables)
  | _ :: _ => Err errIO
  end.
Definition loadTables (q : Q) (tables : gmap Z drainTable) : outcome (gmap Z drainTable) :=
  match sq_query q select_registry with
  | None => Err errIO
  | Some rows => load_registry rows tables
  end.

(** The bootstrap tables the mirror does not know. *)
Fixpoint seed_tables (m : mir) (byID_ : list (option tableRT)) : mir * outcome unit :=
  match byID_ with
  | [] => (m, Ok tt)
  | None :: l => seed_tables m l
  | Some rt :: l =>
      match snd m !! tableID rt with
      | Some _ => seed_tables m l
      | None =>
          match register m (tableID rt) (rt_def (table rt)) with
          | (m, Ok _) => seed_tables m l
          | r => r
          end
      end
  end.
Definition activateMirror (m : mir) (c : catalog) : mir * outcome Z :=
  match ensureMirrorMeta (fst m) with
  | (q, Ok _) =>
      match loadCursor q with
      | Ok last =>
          match loadTables q (snd m) with
          | Ok tables =>
              match seed_tables (q, tables) (byID c) with
              | (m, Ok _) => (m, Ok last)
              | (m, Err e) => (m, Err e)
              | (m, Panic) => (m, Panic)
              end
          | Err e => ((q, snd m), Err e)
          | Panic => ((q, snd m), Panic)
          end
      | Err e => ((q, snd m), Err e)
      | Panic => ((q, snd m), Panic)
      end
  | (q, Err e) => ((q, snd m), Err e)
  | (q, Panic) => ((q, snd m), Panic)
  end.

(** ** Recovery *)
Fixpoint load_rows (db : rdb) (rt : tableRT) (cols : list ColumnDef) (raws : list (list sqlVal)) : outcome rdb :=
  match raws with
  | [] => Ok db
  | raw :: raws =>
      row ← scan_cells cols raw;
      db ← tab_insert pkHashSeed max db rt row;
      load_rows db rt cols raws
  end.
Definition load_table (q : Q) (dt : drainTable) (rt : tableRT) (db : rdb) : outcome rdb :=
  match sq_query q (select_all dt) with
  | None => Err errIO
  | Some raws => load_rows db rt (dt_cols dt) raws
  end.

(** The catalog reconciled with the mirror's tables. *)
Fixpoint reconcile (db : rdb) (l : list (Z * drainTable)) : outcome rdb :=
  match l with
  | [] => Ok db
  | (id, dt) :: l =>
      match byID (r_cat db) !! Z.to_nat id with
      | Some (Some rt) => if sameTableDef (rt_def (table rt)) (dt_def dt) then reconcile db l else Err ErrMirrorSchema
      | _ =>
          resolved ← resolveSchema [dt_def dt];
          match resolved !! dt_name dt with
          | None => Panic
          | Some r =>
              t ← newTable ncpu sizeHint (r_total db);
              reconcile (MkRdb (withTable (r_cat db) (MkTableRT id r)) (<[id := t]> (r_tabs db)) (r_total db)) l
          end
      end
  end.
Fixpoint load_tables_rows (q : Q) (db : rdb) (l : list (Z * drainTable)) : outcome rdb :=
  match l with
  | [] => Ok db
  | (id, dt) :: l =>
      rt ← index (byID (r_cat db)) (Z.to_nat id);
      match rt with
      | None => Err errInternal
      | Some rt => db ← load_table q dt rt db; load_tables_rows q db l
      end
  end.
Definition recoverFromSQLite (q : Q) (tables : gmap Z drainTable) (db : rdb) : outcome rdb :=
  db ← reconcile db (iter tables);
  load_tables_rows q db (iter tables).

(** Open with the WAL on, up to the background loops: the mirror, then the
    undrained tail; numbering stays above the cursor. *)
Definition openMirrored (q : Q) (d : disk) (db : rdb) : mir * disk * outcome (wal * rdb * Z * list Z) :=
  let '(w, d) := openWAL d in
  match activateMirror (q, ∅) (r_cat db) with
  | (m, Ok last) =>
      match recoverFromSQLite (fst m) (snd m) db with
      | Ok db =>
          let d := removeDrainedSegments d last in
          match replaySegments (applyReplayRecord pkHashSeed max ncpu sizeHint) d last db with
          | (db, bad, Ok _) =>
              let w := if w_seg w <? last then MkWal (w_buf w) last (w_recs w) (w_err w) (w_failWrites w) else w in
              (m, d, Ok (w, db, last, bad))
          | (_, _, Err e) => (m, d, Err e)
          | (_, _, Panic) => (m, d, Panic)
          end
      | Err e => (m, d, Err e)
      | Panic => (m, d, Panic)
      end
  | (m, Err e) => (m, d, Err e)
  | (m, Panic) => (m, d, Panic)
  end.

(** The drain loop's two bodies: a tick, and the final one that seals the buffer
    first. *)
Context (event_row : Z -> list sqlVal).
Definition drain_tick (io : Z -> seg_io) (d : drainer) : drainer :=
  match drainOnce iter event_row true io d with
  | (d, Ok _) => d
  | (d, _) => MkDrainer (logEvent event_row (d_sdb d) (-1)) (d_tables d) (d_last d) (d_disk d)
  end.
Definition drain_final (flt : fault) (io : Z -> seg_io) (w : wal) (d : drainer) : wal * drainer :=
  let '(w, disk, _) := flushLocked flt w (d_disk d) in
  (w, drain_tick io (MkDrainer (d_sdb d) (d_tables d) (d_last d) disk)).
End companion.
