(* ===== verification/Mirror.v ===== *)
(** * Mirror: what a record does to a table's rows, and the mirror doing the same.

    [map_record] is the reference: the effect of a data record on a map of rows,
    read off its bytes. It is a [Replayer], so the log of any history runs on it;
    [mirror_follows] shows the drain's SQL has the same effect on the SQLite
    table, given what SQLite documents of the five statements used
    ([MirrorSqlite]). *)
From S2P Require Import Prelude Bytes Uuid Value PkMap Codec Frame Wal Journal Schema Catalog Store StoreOk StoreSim Recovery Replayer Drain Companion.

Section mirror.
Context (rt : tableRT).
Local Abbreviation def := (table rt).
Local Abbreviation id := (tableID rt).
Local Abbreviation td := (rt_def (table rt)).
Local Abbreviation cols := (t_Columns (rt_def (table rt))).
Local Abbreviation pkof := (pkof (table rt)).

(** ** The reference *)
Definition map_op (g : gmap UUID Row) (op : Z) (body : bytes) : outcome (gmap UUID Row) :=
  if op =? opInsert then
    row ← decodeRow body;
    _ ← validateInsertRow cols row;
    match g !! pkof row with
    | Some _ => Err ErrDuplicatePK
    | None => Ok (<[pkof row := row]> g)
    end
  else if op =? opUpdate then
    pu ← decodeUpdateMutation body (replay_set cols) ([], []);
    let '(pk, (ords, vals)) := pu in
    k ← wrap ErrWALCorrupt (coerceToUUID pk);
    match g !! k with
    | Some r => let nr := assign r ords vals in
                if bool_decide (pkof nr = k) then Ok (<[k := nr]> g) else Err ErrWALCorrupt
    | None => Err ErrWALCorrupt
    end
  else if op =? opDelete then
    pk ← decodeDeleteBody body;
    k ← wrap ErrWALCorrupt (coerceToUUID pk);
    Ok (delete k g)
  else Err ErrWALCorrupt.
Definition map_mutation (g : gmap UUID Row) (payload : bytes) : outcome (gmap UUID Row) :=
  if zlen payload <? 3 then Err ErrWALCorrupt
  else
    op ← index payload 0;
    h ← slice_o payload 1 3;
    if negb (le_get h =? id) then Err ErrWALCorrupt
    else body ← slice_o payload 3 (zlen payload); map_op g (b2z op) body.
Definition map_record (g : gmap UUID Row) (recType : Z) (payload : bytes) : outcome (gmap UUID Row) :=
  if recType =? recCheckpoint then Ok g
  else if recType =? recMutation then map_mutation g payload
  else if recType =? recTxn then forEachTxnMutation payload map_mutation g
  else Err ErrWALCorrupt.

Section reference.
Context (max ext : Z).
Hypothesis id_u16 : 0 <= tableID rt < 2 ^ 16.
Hypothesis ncols_u16 : zlen (t_Columns (rt_def (table rt))) < 2 ^ 16.
Hypothesis pk_in : (pkOrd (table rt) < length (t_Columns (rt_def (table rt))))%nat.
Hypothesis pk_uuid : forall c, t_Columns (rt_def (table rt)) !! pkOrd (table rt) = Some c ->
  c_Type c = TypeUUID /\ c_Nullable c = false.

Lemma map_header g op body : 0 <= op < 256 -> map_mutation g (z2b op :: le_put 2 id ++ body) = map_op g op body.
Proof.
  intros Hop. unfold map_mutation. pose proof (zlen_pos body). rewrite zlen_cons, zlen_app, zlen_le_put.
  destruct (Z.ltb_spec (1 + (Z.of_nat 2 + zlen body)) 3) as [C|_]; [lia|].
  cbn [index lookup list_lookup mbind outcome_bind].
  change (z2b op :: le_put 2 id ++ body) with ([z2b op] ++ le_put 2 id ++ body).
  rewrite (slice_o_mid [z2b op] (le_put 2 id) body 1 3); [|done|by rewrite zlen_le_put]. cbn [mbind outcome_bind].
  rewrite le_get_put by (cbn; lia). rewrite Z.eqb_refl. cbn [negb].
  rewrite app_assoc, (slice_o_tail ([z2b op] ++ le_put 2 id) body); [|done|lia].
  cbn [mbind outcome_bind]. by rewrite b2z_z2b, Z.mod_small.
Qed.

(** The log of a history runs on the reference. *)
Definition map_replayer : Replayer max rt ext map_mutation map_record.
Proof.
  refine {| rp_rep := fun _ s g => s = g |}.
  - intros n m s g _ ->. done.
  - intros n s g row -> (Hwf & Hfit & Hwire) Hk _. eexists. split; [|done].
    assert (Eb : encodeInsertMutation [] id row = z2b opInsert :: le_put 2 id ++ encodeRow [] row).
    { unfold encodeInsertMutation. rewrite encodeRow_cells, (encodeRow_cells []).
      unfold appendU16LE. by rewrite <- app_assoc. }
    rewrite Eb, map_header by done. unfold map_op. change (opInsert =? opInsert) with true. cbv iota.
    rewrite row_roundtrip; [|done|unfold zlen in *; by rewrite (proj1 Hwf)]. cbn [mbind outcome_bind].
    rewrite (proj2 (validateInsertRow_ok cols row) Hfit). cbn [mbind outcome_bind]. by rewrite Hk.
  - intros n s g k r nr ords pk -> Hk Hgood Hp Hpk Hlen Hsame Hsets. pose proof Hgood as (Hwf & _ & _).
    destruct (good_pk rt pk_in pk_uuid nr Hgood) as (v & Ev & Hkind & Hco & Hwire). rewrite Hpk in Ev. injection Ev as <-.
    destruct (sets_of_total ords nr) as [sets Es].
    { destruct Hsets as (Ho & _). eapply Forall_impl; [|exact Ho]. cbv beta. intros ? ?. by rewrite (proj1 Hwf). }
    destruct (replay_sets rt ncols_u16 pk_in ords nr sets ([], []) Hsets Es) as (Ea & Hok & H2).
    destruct (update_roundtrip (replay_set cols) id pk ords nr sets ([], []) Hwire Es Hok) as (body & Eb & Ed);
      [apply Hsets|].
    exists (z2b opUpdate :: le_put 2 id ++ body). eexists. split; [exact Eb|]. split; [|done].
    rewrite map_header by done. unfold map_op. change (opUpdate =? opInsert) with false.
    change (opUpdate =? opUpdate) with true. cbv iota.
    rewrite Ed, Ea. cbn [mbind outcome_bind fst snd app]. rewrite Hco. cbn [wrap mbind outcome_bind]. rewrite Hp, Hk.
    assert (Eas : assign r ords (map snd sets) = nr).
    { apply (assign_revert nr r); [done|done|]. intros i Hi. by rewrite Hsame. }
    rewrite Eas, bool_decide_eq_true_2 by done. done.
  - intros n s g k pk -> Hco Hw. eexists. split; [|done]. destruct (delete_roundtrip id pk Hw) as (body & -> & Ed).
    rewrite map_header by done. unfold map_op. change (opDelete =? opInsert) with false.
    change (opDelete =? opUpdate) with false. change (opDelete =? opDelete) with true. cbv iota.
    rewrite Ed. cbn [mbind outcome_bind]. rewrite Hco. done.
  - done.
  - done.
Defined.
End reference.

(** ** SQLite's part *)

(** The storage class of a column's cells. *)
Definition arg_ok (c : ColumnDef) (a : sqlVal) : Prop :=
  match a with
  | SNull => c_Nullable c = true
  | SInt z => in_s64 z /\ (c_Type c = TypeInt \/ c_Type c = TypeBool /\ (z = 0 \/ z = 1))
  | SText s => c_Type c = TypeString /\ ValidString s = true
  | SBlob b => c_Type c = TypeBytes \/ c_Type c = TypeUUID /\ length b = 16%nat
  | SReal _ => False
  end.
Definition set_args (r : list sqlVal) (ords : list nat) (vals : list sqlVal) : list sqlVal :=
  fold_left (fun r ov => <[fst ov := snd ov]> r) (zip ords vals) r.
Definition col_name (o : nat) : bytes := match cols !! o with Some c => c_Name c | None => [] end.
Definition set_text (ords : list nat) : bytes :=
  join_with (lit ", ") (map (fun o => quoteIdent (col_name o) ++ lit " = ?") ords).
Definition update_text (dt : drainTable) (ords : list nat) : bytes :=
  lit "UPDATE " ++ quoteIdent (dt_name dt) ++ lit " SET " ++ set_text ords ++ lit " WHERE " ++
  quoteIdent (col_name (dt_pkOrd dt)) ++ lit " = ?".

(** What SQLite documents of the statements of the mirror, for a table of this
    shape. [sq_rows q] is the table, by the BLOB of its primary key. Every law is
    about a statement that succeeded: a full disk may fail any of them. An UPDATE
    with an empty SET list is a syntax error; of a column assigned twice the
    rightmost assignment counts. *)
Class MirrorSqlite {Q} `{Sqlite Q} (dt : drainTable) (sq_rows : Q -> option (gmap UUID (list sqlVal))) : Prop := {
  law_insert q q' m k args : sq_rows q = Some m -> Forall2 arg_ok cols args ->
    args !! dt_pkOrd dt = Some (SBlob (ubytes k)) -> sq_exec q (dt_insertSQL dt) args = Some q' ->
    sq_rows q' = Some (<[k := args]> m);
  law_update q q' m k ords vals : sq_rows q = Some m ->
    Forall2 (fun o v => exists c, cols !! o = Some c /\ arg_ok c v) ords vals ->
    (forall r, m !! k = Some r -> set_args r ords vals !! dt_pkOrd dt = Some (SBlob (ubytes k))) ->
    sq_exec q (update_text dt ords) (vals ++ [SBlob (ubytes k)]) = Some q' ->
    ords <> [] /\
    sq_rows q' = Some (match m !! k with Some r => <[k := set_args r ords vals]> m | None => m end);
  law_delete q q' m k : sq_rows q = Some m -> sq_exec q (dt_deleteSQL dt) [SBlob (ubytes k)] = Some q' ->
    sq_rows q' = Some (delete k m);
  law_bookkeeping q q' m text args : sq_rows q = Some m -> text = set_cursor \/ text = insert_event ->
    sq_exec q text args = Some q' -> sq_rows q' = Some m;
  law_select q m l : sq_rows q = Some m -> sq_query q (select_all dt) = Some l -> l ≡ₚ (map_to_list m).*2;
}.

(** ** Cells *)
Lemma value_arg c v : value_ok v -> cell_fits c v -> 1 <= c_Type c <= 5 ->
  arg_ok c (valueToArg v) /\ sqliteValToValue (c_Type c) (valueToArg v) = Ok v.
Proof.
  intros Hv Hf Ht. assert (T : c_Type c = 1 \/ c_Type c = 2 \/ c_Type c = 3 \/ c_Type c = 4 \/ c_Type c = 5) by lia.
  unfold cell_fits, validateValue, IsNull in Hf. unfold valueToArg.
  destruct Hv as [|z Hz|b|s Hs|s Hs|u].
  - cbn in *. destruct (c_Nullable c); [|done]. done.
  - cbn [Kind Int] in *. rewrite bool_decide_eq_false_2 in Hf by done. rewrite v_Int_Int by done.
    destruct T as [E|[E|[E|[E|E]]]]; rewrite E in *; cbn in *; try done. split; [|done]. split; [done|]. by left.
  - cbn [Kind Bool] in *. rewrite bool_decide_eq_false_2 in Hf by done.
    destruct T as [E|[E|[E|[E|E]]]]; rewrite E in *; cbn in *; try done.
    destruct b; cbn; (split; [|done]); (split; [split; vm_compute; congruence|]); rewrite E; auto.
  - assert (Ek : Kind (Str s) = KindString) by (unfold Str; by destruct (_ =? _)%nat). rewrite Ek in *.
    rewrite bool_decide_eq_false_2 in Hf by done. rewrite v_Str_Str in * by done.
    destruct T as [E|[E|[E|[E|E]]]]; rewrite E in *; cbn in *; try done.
    destruct (ValidString s) eqn:Eu; [|done]. done.
  - assert (Ek : Kind (Bytes s) = KindBytes) by (unfold Bytes; by destruct (_ =? _)%nat). rewrite Ek in *.
    rewrite bool_decide_eq_false_2 in Hf by done. rewrite v_Bytes_Bytes by done.
    destruct T as [E|[E|[E|[E|E]]]]; rewrite E in *; cbn in *; try done. split; [by left|done].
  - cbn [Kind UUIDVal] in *. rewrite bool_decide_eq_false_2 in Hf by done. rewrite v_UUID_UUIDVal.
    destruct T as [E|[E|[E|[E|E]]]]; rewrite E in *; cbn in *; try done. rewrite length_ubytes. cbn.
    split; [by right|]. by rewrite uuid_of_ubytes.
Qed.
Lemma value_args cs row : Forall value_ok row -> row_fits cs row -> Forall (fun c => 1 <= c_Type c <= 5) cs ->
  Forall2 arg_ok cs (map valueToArg row) /\ scan_cells cs (map valueToArg row) = Ok row.
Proof.
  intros Hv Hf. induction Hf as [|c v cs row Hc Hf IH]; intros Ht; [by split|].
  apply list.Forall_cons in Hv as [Hv Hvs]. apply list.Forall_cons in Ht as [Ht Hts].
  destruct (value_arg c v Hv Hc Ht) as [Ha Hs]. destruct (IH Hvs Hts) as [Has Hss].
  split; [by constructor|]. cbn [map scan_cells]. rewrite Hs. cbn [mbind outcome_bind].
  rewrite (Hc : validateValue c v = Ok tt). cbn [wrap mbind outcome_bind]. by rewrite Hss.
Qed.
Lemma map_assign r ords vals : length ords = length vals ->
  map valueToArg (assign r ords vals) = set_args (map valueToArg r) ords (map valueToArg vals).
Proof.
  revert r vals. induction ords as [|o ords IH]; intros r [|v vals] Hl; try done. cbn [assign map set_args zip zip_with fold_left fst snd] in *.
  rewrite IH by (cbn in Hl; lia). unfold set_args. by rewrite <- (list_fmap_insert valueToArg).
Qed.

(** ** The mirror follows the reference *)

(** Two SET callbacks run side by side over the same record. *)
Lemma decode_sets_sim {S1 S2} (P : S1 -> S2 -> Prop) (f1 : S1 -> nat -> Value -> outcome S1) (f2 : S2 -> nat -> Value -> outcome S2) :
  (forall a b o v a', value_ok v -> P a b -> f1 a o v = Ok a' -> exists b', f2 b o v = Ok b' /\ P a' b') ->
  forall n body a b rest a', P a b -> decode_sets n body f1 a = Ok (rest, a') ->
  exists b', decode_sets n body f2 b = Ok (rest, b') /\ P a' b'.
Proof.
  intros Hf. induction n as [|n IH]; intros body a b rest a' HP E; cbn [decode_sets] in *.
  { injection E as <- <-. by exists b. }
  destruct (zlen body <? 2); [done|]. apply bind_Ok in E as (h & -> & E). apply bind_Ok in E as (b1 & -> & E).
  apply bind_Ok in E as (vm & Ev & E). apply bind_Ok in E as (a1 & Ea & E). apply bind_Ok in E as (b2 & Eb & E).
  cbn [mbind outcome_bind]. rewrite Ev. pose proof (decodeCell_clean b1) as Hc. rewrite Ev in Hc. destruct Hc as [Hv _].
  cbn [mbind outcome_bind]. destruct (Hf _ _ _ _ _ Hv HP Ea) as (b' & -> & HP'). cbn [mbind outcome_bind]. rewrite Eb.
  cbn [mbind outcome_bind]. by apply (IH _ a1).
Qed.
Lemma decode_update_sim {S1 S2} (P : S1 -> S2 -> Prop) (f1 : S1 -> nat -> Value -> outcome S1) (f2 : S2 -> nat -> Value -> outcome S2) body a b pk a' :
  (forall a b o v a', value_ok v -> P a b -> f1 a o v = Ok a' -> exists b', f2 b o v = Ok b' /\ P a' b') ->
  P a b -> decodeUpdateMutation body f1 a = Ok (pk, a') ->
  exists b', decodeUpdateMutation body f2 b = Ok (pk, b') /\ P a' b'.
Proof.
  intros Hf HP. unfold decodeUpdateMutation. intros E.
  apply bind_Ok in E as (pn & -> & E). apply bind_Ok in E as (b1 & E1 & E). cbn [mbind outcome_bind]. rewrite E1. cbn [mbind outcome_bind].
  destruct (zlen b1 <? 2); [done|]. apply bind_Ok in E as (h & E2 & E). apply bind_Ok in E as (b2 & E3 & E).
  apply bind_Ok in E as ([rest a1] & E4 & E). rewrite E2. cbn [mbind outcome_bind]. rewrite E3. cbn [mbind outcome_bind].
  destruct (decode_sets_sim P f1 f2 Hf _ _ _ _ _ _ HP E4) as (b' & -> & HP'). cbn [mbind outcome_bind fst snd] in *.
  destruct (negb _); [done|]. injection E as <- <-. by exists b'.
Qed.

Lemma join_with_snoc sep l x : join_with sep (l ++ [x]) = if decide (l = []) then x else join_with sep l ++ sep ++ x.
Proof.
  induction l as [|y l IH]; [by cbn|]. rewrite decide_False by done. destruct l as [|z l]; [by cbn|].
  change (join_with sep ((y :: z :: l) ++ [x])) with (y ++ sep ++ join_with sep ((z :: l) ++ [x])). rewrite IH, decide_False by done.
  change (join_with sep (y :: z :: l)) with (y ++ sep ++ join_with sep (z :: l)). by rewrite <- !app_assoc.
Qed.
Lemma set_text_pos o ords : 0 < zlen (set_text (o :: ords)).
Proof.
  unfold set_text. cbn [map join_with]. destruct (map _ ords); unfold quoteIdent; rewrite <- !app_assoc; cbn [app]; rewrite zlen_cons;
    pose proof (zlen_pos (flat_map (fun b => if bool_decide (b = dquote) then [dquote; dquote] else [b]) (col_name o))); rewrite ?zlen_app;
    repeat match goal with |- context [zlen ?x] => pose proof (zlen_pos x); generalize dependent (zlen x); intros end; lia.
Qed.

Lemma txn_both {S1 S2} (P : S1 -> S2 -> Prop) (f1 : S1 -> bytes -> outcome S1) (f2 : S2 -> bytes -> outcome S2) payload a b a' b' :
  (forall a b m a' b', P a b -> f1 a m = Ok a' -> f2 b m = Ok b' -> P a' b') ->
  P a b -> forEachTxnMutation payload f1 a = Ok a' -> forEachTxnMutation payload f2 b = Ok b' -> P a' b'.
Proof.
  intros Hf HP. unfold forEachTxnMutation. destruct (zlen payload <? 2); [done|]. intros E1 E2.
  apply bind_Ok in E1 as (h & Eh & E1). rewrite Eh in E2. cbn [mbind outcome_bind] in E2.
  apply bind_Ok in E1 as ([o1 a1] & L1 & E1). apply bind_Ok in E2 as ([o2 b1] & L2 & E2). cbn [fst snd] in *.
  destruct (negb (o1 =? _)); [done|]. destruct (negb (o2 =? _)); [done|]. injection E1 as <-. injection E2 as <-.
  revert L1 L2. generalize 2%Z. generalize (Z.to_nat (le_get h)). intros n. revert a b HP.
  induction n as [|n IH]; intros a b HP off L1 L2; cbn [txn_loop] in *; [by injection L1 as _ <-; injection L2 as _ <-|].
  destruct (off + 4 >? zlen payload); [done|]. apply bind_Ok in L1 as (l & El & L1). rewrite El in L2. cbn [mbind outcome_bind] in L2.
  destruct (_ || _); [done|]. apply bind_Ok in L1 as (m & Em & L1). rewrite Em in L2. cbn [mbind outcome_bind] in L2.
  apply bind_Ok in L1 as (a2 & A & L1). apply bind_Ok in L2 as (b2 & B & L2). eapply IH; [by eapply Hf|exact L1|exact L2].
Qed.

Definition set_valid (o : nat) (v : Value) : Prop := exists c, cols !! o = Some c /\ cell_fits c v /\ value_ok v.
Definition sets_follow (a : list nat * list Value) (b : bytes * list sqlVal) : Prop :=
  fst b = set_text (fst a) /\ snd b = map valueToArg (snd a) /\ Forall2 set_valid (fst a) (snd a).
Lemma mirror_set_follows dt a b o v a' : dt_cols dt = cols -> value_ok v -> sets_follow a b -> replay_set cols a o v = Ok a' ->
  exists b', mirror_set dt b o v = Ok b' /\ sets_follow a' b'.
Proof.
  intros Hc Hv (E1 & E2 & Hf) E. unfold replay_set, mirror_set in *. rewrite Hc. destruct (length cols <=? o)%nat; [done|].
  apply bind_Ok in E as (c & Ec & E). rewrite Ec. apply index_Ok in Ec. cbn [mbind outcome_bind].
  destruct (validateValue c v) as [[]|e|] eqn:Ev; cbn [wrap mbind outcome_bind] in *; [|done..]. injection E as <-.
  eexists. split; [done|]. split; [|split]; cbn [fst snd].
  - unfold set_text. rewrite map_app. cbn [map]. rewrite join_with_snoc.
    assert (En : col_name o = c_Name c) by (unfold col_name; by rewrite Ec). rewrite En, E1.
    destruct (fst a) as [|o' os]; [by cbn|]. pose proof (set_text_pos o' os). rewrite (proj2 (Z.ltb_lt _ _)) by done.
    rewrite decide_False by done. unfold set_text. by rewrite <- !app_assoc.
  - rewrite E2. by rewrite map_app.
  - apply Forall2_app; [done|]. constructor; [|constructor]. by exists c.
Qed.

(** ** Rows stay well formed *)
Local Abbreviation row_held := (row_held rt).
Definition held (g : gmap UUID Row) : Prop := map_Forall (fun k r => row_held r /\ pkof r = k) g.
Lemma assign_held r ords vals : row_held r -> Forall2 set_valid ords vals -> row_held (assign r ords vals).
Proof.
  intros [[Hl Hv] Hf] Hs. revert r Hl Hv Hf. induction Hs as [|o v ords vals (c & Ec & Hc & Hw) Hs IH]; intros r Hl Hv Hf; [by split|].
  cbn [assign]. apply IH; [by rewrite length_insert|by apply Forall_insert|].
  unfold row_fits in *. rewrite Forall2_lookup in Hf |- *. intros i. specialize (Hf i).
  destruct (decide (i = o)) as [->|Hne]; [|by rewrite list_lookup_insert_ne]. rewrite Ec in *.
  inversion Hf as [? x Hx Eo Ex|]; subst. rewrite list_lookup_insert_eq by (by eapply lookup_lt_Some). by constructor.
Qed.
Lemma decoded_row_held body row : decodeRow body = Ok row -> validateInsertRow cols row = Ok tt -> row_held row.
Proof.
  intros Er Ev. apply validateInsertRow_ok in Ev. pose proof (decodeRow_clean body) as Hc. rewrite Er in Hc. cbn in Hc.
  split; [|done]. split; [|done]. symmetry. by eapply Forall2_length.
Qed.
Lemma decoded_sets_valid body pk ords vals : decodeUpdateMutation body (replay_set cols) ([], []) = Ok (pk, (ords, vals)) ->
  Forall2 set_valid ords vals.
Proof.
  intros Ed. destruct (decode_update_sim (fun a b => a = b /\ Forall2 set_valid (fst a) (snd a)) (replay_set cols) (replay_set cols) body ([], []) ([], []) pk (ords, vals)) as (_ & _ & _ & Hs).
  - intros a b o v a' Hv [<- Hf] Ea. exists a'. split; [done|]. split; [done|]. unfold replay_set in Ea. destruct (length cols <=? o)%nat; [done|].
    apply bind_Ok in Ea as (c & Ec & Ea). apply index_Ok in Ec. destruct (validateValue c v) as [[]| |] eqn:Evc; cbn [wrap mbind outcome_bind] in Ea; [|done..].
    injection Ea as <-. cbn [fst snd]. apply Forall2_app; [done|]. constructor; [|constructor]. by exists c.
  - split; [done|constructor].
  - exact Ed.
  - exact Hs.
Qed.
Lemma held_op g op body g' : held g -> map_op g op body = Ok g' -> held g'.
Proof.
  intros Hg E. unfold map_op in E. destruct (op =? opInsert).
  { apply bind_Ok in E as (row & Er & E). apply bind_Ok in E as ([] & Ev & E). destruct (g !! pkof row); [done|]. injection E as <-.
    apply map_Forall_insert_2; [|done]. split; [by eapply decoded_row_held|done]. }
  destruct (op =? opUpdate).
  { apply bind_Ok in E as ([pk [ords vals]] & Ed & E). apply bind_Ok in E as (k & _ & E). destruct (g !! k) as [r|] eqn:Hk; [|done].
    destruct (bool_decide_reflect (pkof (assign r ords vals) = k)) as [Hp|]; [|done]. injection E as <-.
    apply map_Forall_insert_2; [|done]. split; [|done]. apply assign_held; [by apply (Hg k r)|by eapply decoded_sets_valid]. }
  destruct (op =? opDelete); [|done]. apply bind_Ok in E as (pk & _ & E). apply bind_Ok in E as (k & _ & E). injection E as <-.
  by apply map_Forall_delete.
Qed.
Lemma held_mutation g payload g' : held g -> map_mutation g payload = Ok g' -> held g'.
Proof.
  intros Hg E. unfold map_mutation in E. destruct (zlen payload <? 3); [done|]. apply bind_Ok in E as (op & _ & E).
  apply bind_Ok in E as (h & _ & E). destruct (negb _); [done|]. apply bind_Ok in E as (body & _ & E). by eapply held_op.
Qed.
Lemma held_record g t payload g' : held g -> map_record g t payload = Ok g' -> held g'.
Proof.
  intros Hg E. unfold map_record in E. destruct (t =? recCheckpoint); [by injection E as <-|]. destruct (t =? recMutation); [by eapply held_mutation|].
  destruct (t =? recTxn); [|done]. eapply (txn_both (fun g _ => held g) map_mutation map_mutation); [|exact Hg|exact E|exact E]. intros. by eapply held_mutation.
Qed.

Section follows.
Context {Q : Type} `{Sqlite Q} (dt : drainTable) (sq_rows : Q -> option (gmap UUID (list sqlVal))) `{!MirrorSqlite dt sq_rows}.
Context (iter : gmap Z drainTable -> list (Z * drainTable)).
Hypothesis built : buildDrainTable (rt_def (table rt)) = Ok dt.
Hypothesis same_pk : dt_pkOrd dt = pkOrd (table rt).
Hypothesis pk_in : (pkOrd (table rt) < length (t_Columns (rt_def (table rt))))%nat.
Hypothesis pk_uuid : forall c, t_Columns (rt_def (table rt)) !! pkOrd (table rt) = Some c ->
  c_Type c = TypeUUID /\ c_Nullable c = false.
Hypothesis types : Forall (fun c => 1 <= c_Type c <= 5) (t_Columns (rt_def (table rt))).

Definition args_of (g : gmap UUID Row) : gmap UUID (list sqlVal) := map valueToArg <$> g.

Lemma built_fields : dt_name dt = t_Name td /\ dt_cols dt = cols /\ dt_def dt = td.
Proof. pose proof built as E. unfold buildDrainTable in E. apply bind_Ok in E as (pk & _ & [= <-]). done. Qed.
Lemma updateSQL_text ords : updateSQL dt (set_text ords) = Ok (update_text dt ords).
Proof.
  destruct built_fields as (_ & Ec & _). pose proof built as E. unfold buildDrainTable in E. apply bind_Ok in E as (pk & Ei & E).
  assert (Ep : dt_pkOrd dt = pk_column cols 0 0) by (by injection E as <-). rewrite <- Ep in Ei.
  unfold updateSQL, update_text. rewrite Ec, Ei. cbn [mbind outcome_bind]. apply index_Ok in Ei.
  assert (En : col_name (dt_pkOrd dt) = c_Name pk) by (unfold col_name; by rewrite Ei). by rewrite En.
Qed.
Lemma held_pk r : row_held r -> map valueToArg r !! pkOrd def = Some (SBlob (ubytes (pkof r))).
Proof.
  intros ((Hl & _) & Hf). destruct (lookup_lt_is_Some_2 r (pkOrd def)) as [v E]; [by rewrite Hl|].
  destruct (lookup_lt_is_Some_2 cols (pkOrd def) pk_in) as [c Ec]. destruct (pk_uuid c Ec) as [Hty Hnn].
  assert (Hk : Kind v = KindUUID).
  { apply (validateValue_uuid c); [|done..]. by eapply (Forall2_lookup_lr _ _ _ _ _ _ Hf). }
  change (map valueToArg r) with (valueToArg <$> r). rewrite list_lookup_fmap, E. cbn [fmap option_fmap option_map].
  unfold valueToArg, StoreOk.pkof. by rewrite Hk, E.
Qed.
Lemma set_args_ok ords vals : Forall2 set_valid ords vals ->
  Forall2 (fun o v => exists c, cols !! o = Some c /\ arg_ok c v) ords (map valueToArg vals).
Proof.
  induction 1 as [|o v ords vals (c & Ec & Hc & Hw) Hs IH]; constructor; [|done]. exists c. split; [done|].
  rewrite list.Forall_forall in types. apply (value_arg c v Hw Hc). apply types. by apply list_elem_of_lookup_2 in Ec.
Qed.

(** One operation: whatever the reference does to the rows, the mirror's statement,
    if SQLite executes it, does to its table. *)
Lemma op_follows q q' g g' op body : held g -> sq_rows q = Some (args_of g) -> map_op g op body = Ok g' ->
  mirror_op q dt op body = Ok q' -> sq_rows q' = Some (args_of g').
Proof.
  intros Hg Hq Em Eq. destruct built_fields as (_ & Ec & _). unfold map_op, mirror_op, sql in *.
  destruct (op =? opInsert).
  { apply bind_Ok in Em as (row & Er & Em). rewrite Er in Eq. cbn [mbind outcome_bind] in Eq. apply bind_Ok in Em as ([] & Ev & Em).
    rewrite Ec, Ev in Eq. cbn [mbind outcome_bind] in Eq. destruct (g !! pkof row) as [x|] eqn:Hk; [done|]. injection Em as <-.
    pose proof (decoded_row_held body row Er Ev) as Hr.
    destruct (sq_exec q _ _) as [q1|] eqn:Ex; [injection Eq as <-|done].
    rewrite (law_insert q q1 _ (pkof row) (map valueToArg row) Hq); [unfold args_of; by rewrite fmap_insert|apply value_args; [apply Hr|apply Hr|done]| |done].
    rewrite same_pk. by apply held_pk. }
  destruct (op =? opUpdate).
  { apply bind_Ok in Em as ([pk [ords vals]] & Ed & Em).
    destruct (decode_update_sim sets_follow (replay_set cols) (mirror_set dt) body ([], []) ([], []) pk (ords, vals)) as ([set args] & Ed' & E1 & E2 & Hs); cbn [fst snd] in *.
    { intros. by eapply mirror_set_follows. }
    { by split. }
    { done. }
    subst set args. rewrite Ed' in Eq. cbn [mbind outcome_bind] in Eq. apply bind_Ok in Em as (k & Ek & Em). rewrite Ek in Eq. cbn [mbind outcome_bind] in Eq.
    rewrite updateSQL_text in Eq. cbn [mbind outcome_bind] in Eq.
    destruct (g !! k) as [r|] eqn:Hk; [|done]. destruct (bool_decide_reflect (pkof (assign r ords vals) = k)) as [Hp|]; [|done]. injection Em as <-.
    destruct (Hg k r Hk) as [Hr _]. pose proof (assign_held r ords vals Hr Hs) as Hr'.
    destruct (sq_exec q _ _) as [q1|] eqn:Ex; [injection Eq as <-|done].
    unfold valueToArg at 2 in Ex. cbn [Kind UUIDVal] in Ex. rewrite v_UUID_UUIDVal in Ex.
    assert (Hgk : args_of g !! k = Some (map valueToArg r)) by (unfold args_of; by rewrite lookup_fmap, Hk).
    assert (Hpk : set_args (map valueToArg r) ords (map valueToArg vals) !! dt_pkOrd dt = Some (SBlob (ubytes k))).
    { rewrite <- map_assign by (by eapply Forall2_length). rewrite same_pk, <- Hp. by apply held_pk. }
    destruct (law_update q q1 _ k ords (map valueToArg vals) Hq (set_args_ok ords vals Hs)) as [_ E]; [intros x; rewrite Hgk; by intros [= <-]|exact Ex|].
    rewrite E, Hgk, <- map_assign by (by eapply Forall2_length). unfold args_of. by rewrite fmap_insert. }
  destruct (op =? opDelete); [|done].
  apply bind_Ok in Em as (pk & Ep & Em). rewrite Ep in Eq. cbn [mbind outcome_bind] in Eq. apply bind_Ok in Em as (k & Ek & Em).
  rewrite Ek in Eq. cbn [mbind outcome_bind] in Eq. injection Em as <-.
  destruct (sq_exec q _ _) as [q1|] eqn:Ex; [injection Eq as <-|done].
  unfold valueToArg in Ex. cbn [Kind UUIDVal] in Ex. rewrite v_UUID_UUIDVal in Ex.
  rewrite (law_delete q q1 _ k Hq Ex). unfold args_of. by rewrite fmap_delete.
Qed.

(** The mirror holds [g]: its table map knows the table, and the table's rows are
    those of [g]. *)
Definition mirrors (T : gmap Z drainTable) (g : gmap UUID Row) (m : Q * gmap Z drainTable) : Prop :=
  snd m = T /\ T !! id = Some dt /\ held g /\ sq_rows (fst m) = Some (args_of g).
Lemma mutation_follows T g m payload g' m' : mirrors T g m -> map_mutation g payload = Ok g' ->
  mirror_mutation m payload = Ok m' -> mirrors T g' m'.
Proof.
  intros (ET & Hid & Hg & Hq) Em Eq. unfold map_mutation, mirror_mutation in *. destruct (zlen payload <? 3); [done|].
  apply bind_Ok in Em as (op & Eo & Em). rewrite Eo in Eq. cbn [mbind outcome_bind] in Eq.
  apply bind_Ok in Em as (h & Eh & Em). rewrite Eh in Eq. cbn [mbind outcome_bind] in Eq.
  destruct (Z.eqb_spec (le_get h) id) as [El|]; cbn [negb] in Em; [|done]. rewrite El, ET, Hid in Eq.
  apply bind_Ok in Em as (body & Eb & Em). rewrite Eb in Eq. cbn [mbind outcome_bind] in Eq.
  apply bind_Ok in Eq as (q1 & Ex & Eq). injection Eq as <-.
  pose proof (op_follows _ _ _ _ _ _ Hg Hq Em Ex). split; [done|]. split; [done|]. split; [by eapply held_op|done].
Qed.
Lemma record_follows T g m t payload g' m' : mirrors T g m -> map_record g t payload = Ok g' ->
  mirror_record iter m t payload = Ok m' -> mirrors T g' m'.
Proof.
  intros Hm Em Eq. unfold map_record, mirror_record in *.
  destruct (Z.eqb_spec t recCheckpoint) as [->|]; [cbn in Eq; by injection Em as <-; injection Eq as <-|].
  destruct (Z.eqb_spec t recMutation) as [->|].
  { cbn in Eq. by eapply mutation_follows. }
  destruct (Z.eqb_spec t recTxn) as [->|]; [|done]. change (recTxn =? recCreateTable) with false in Eq.
  change (recTxn =? recDropTable) with false in Eq. cbv iota in Eq.
  eapply (txn_both (mirrors T)); [|exact Hm|exact Em|exact Eq]. intros. by eapply mutation_follows.
Qed.
Lemma records_follow T recs : forall g m g' m', mirrors T g m -> apply_records map_record recs g = (g', Ok tt) ->
  apply_records (mirror_record iter) recs m = (m', Ok tt) -> mirrors T g' m'.
Proof.
  induction recs as [|[t p] recs IH]; intros g m g' m' Hm E1 E2; cbn [apply_records] in *; [by injection E1 as <-; injection E2 as <-|].
  destruct (map_record g t p) as [g1| |] eqn:Eg; [|done..]. destruct (mirror_record iter m t p) as [m1| |] eqn:Em; [|done..].
  eapply IH; [by eapply record_follows|exact E1|exact E2].
Qed.

(** Segments drained one after the other: the records of each, then the cursor. *)
Fixpoint drained (T : gmap Z drainTable) (lo : Z) (q : Q) (chunks : list (list (Z * bytes))) (q' : Q) : Prop :=
  match chunks with
  | [] => q' = q
  | c :: chunks => exists q1 q2, apply_records (mirror_record iter) c (q, T) = ((q1, T), Ok tt) /\
      sq_exec q1 set_cursor [SInt (s64 (lo + 1))] = Some q2 /\ drained T (lo + 1) q2 chunks q'
  end.
Lemma drained_follows T chunks : forall lo q q' g g', mirrors T g (q, T) -> drained T lo q chunks q' ->
  apply_records map_record (concat chunks) g = (g', Ok tt) -> mirrors T g' (q', T).
Proof.
  induction chunks as [|c chunks IH]; intros lo q q' g g' Hm Hd E; cbn [drained concat] in *.
  { injection E as <-. by rewrite Hd. }
  destruct Hd as (q1 & q2 & E1 & E2 & Hd).
  assert (Ec : exists g1, apply_records map_record c g = (g1, Ok tt) /\ apply_records map_record (concat chunks) g1 = (g', Ok tt)).
  { clear -E. revert g E. induction c as [|[t p] c IH]; intros g E; cbn [apply_records app] in *; [by exists g|].
    destruct (map_record g t p) as [g1| |]; [|done..]. by apply IH. }
  destruct Ec as (g1 & Ec & E'). destruct (records_follow T c g (q, T) g1 (q1, T) Hm Ec E1) as (_ & Hid & Hg & Hq).
  apply (IH (lo + 1) q2 q' g1 g'); [|done..]. split; [done|]. split; [done|]. split; [done|].
  eapply law_bookkeeping; [exact Hq|by left|exact E2].
Qed.
End follows.
End mirror.
