(* ===== verification/MirrorOk.v ===== *)
(** * MirrorOk: recovering from the mirror — its rows load back as they were, and
    the undrained tail replays on top of them. *)
From S2P Require Import Prelude Bytes Order Uuid Value PkMap Codec Frame Wal Journal Schema Catalog Store StoreOk StoreSim Ast Eval Plan PlanJoin PlanJoinOk Recovery Replayer RecoveryOk Commit CommitOk CommitReplay Drain Companion Mirror.

Section recover.
Context (pkHashSeed max ncpu sizeHint : Z) (rt : tableRT) (ext : Z).
Local Abbreviation def := (table rt).
Local Abbreviation id := (tableID rt).
Local Abbreviation cols := (t_Columns (rt_def (table rt))).
Local Abbreviation pkof := (pkof (table rt)).
Local Abbreviation rep := (rep pkHashSeed max rt ext).
Local Abbreviation held := (held rt).
Local Abbreviation row_held := (row_held rt).
Local Abbreviation apply_mut := (applyMutationRecord pkHashSeed max).
Local Abbreviation apply_rec := (applyReplayRecord pkHashSeed max ncpu sizeHint).
Hypothesis id_u16 : 0 <= tableID rt < 2 ^ 16.
Hypothesis ncols_u16 : zlen (t_Columns (rt_def (table rt))) < 2 ^ 16.
Hypothesis pk_in : (pkOrd (table rt) < length (t_Columns (rt_def (table rt))))%nat.
Hypothesis pk_uuid : forall c, t_Columns (rt_def (table rt)) !! pkOrd (table rt) = Some c ->
  c_Type c = TypeUUID /\ c_Nullable c = false.

(** ** The tail *)

(** Replay does to the store what the reference does to the map, or the cap
    refuses an insert. *)
Definition replayed (n : nat) (o : outcome rdb) (g' : gmap UUID Row) : Prop :=
  (max <> 0 /\ o = Err ErrCapacity) \/ exists db', o = Ok db' /\ rep n db' g'.

Lemma op_replayed n db g op body g' : rep (S n) db g -> held g -> map_op rt g op body = Ok g' ->
  replayed n (applyMutation pkHashSeed max db rt op body) g'.
Proof.
  intros Hrep Hg E. assert (Hr : rep n db g) by (apply (rep_mono pkHashSeed max rt ext pk_in (S n)); [lia|done]). unfold map_op, applyMutation in *.
  destruct (op =? opInsert).
  { apply bind_Ok in E as (row & Er & E). rewrite Er. apply bind_Ok in E as ([] & Ev & E). cbn [mbind outcome_bind]. rewrite Ev. cbn [mbind outcome_bind].
    destruct (g !! pkof row) eqn:Hk; [done|]. injection E as <-.
    pose proof (tab_insert_ok pkHashSeed max rt ext pk_in n db g row Hrep (decoded_row_held rt body row Er Ev) Hk) as H.
    destruct (Z.eqb_spec max 0); cbn [negb andb] in H; [by right|]. destruct (_ >? max); [by left|by right]. }
  destruct (rep_get pkHashSeed max rt ext n db g Hr) as (t & Et & Ht & Hroom). destruct (op =? opUpdate).
  { apply bind_Ok in E as ([pk [ords vals]] & Ed & E). rewrite Ed. apply bind_Ok in E as (k & Ek & E). cbn [mbind outcome_bind]. rewrite Ek, Et. cbn [mbind outcome_bind].
    destruct (g !! k) as [r|] eqn:Hk; [|done]. destruct (bool_decide_reflect (pkof (assign r ords vals) = k)) as [Hp|]; [|done]. injection E as <-.
    destruct (Hg k r Hk) as [Hrow _]. pose proof (assign_held rt r ords vals Hrow (decoded_sets_valid rt body pk ords vals Ed)) as Hrow'. right.
    destruct (t_update_ok pkHashSeed max rt ext pk_in t g k r (assign r ords vals) (fun r => (assign r ords vals, Some (assign r ords vals))) n)
      as (t' & -> & Ht' & Hroom'); try done; [apply Hrow'|]. cbn [mbind outcome_bind fst snd negb]. eexists. split; [done|]. by eapply rep_put. }
  destruct (op =? opDelete); [|done]. right.
  apply bind_Ok in E as (pk & Ep & E). rewrite Ep. apply bind_Ok in E as (k & Ek & E). cbn [mbind outcome_bind]. rewrite Ek, Et. cbn [mbind outcome_bind]. injection E as <-.
  destruct (deleteByPK_ok pkHashSeed def max None ext pk_in t g k n Ht Hroom) as (t' & -> & Hroom' & Ht').
  cbn [mbind outcome_bind fst]. eexists. split; [done|]. by eapply rep_put.
Qed.
Lemma mutation_replayed n db g payload g' : rep (S n) db g -> held g -> map_mutation rt g payload = Ok g' ->
  replayed n (apply_mut db payload) g'.
Proof.
  intros Hrep Hg E. unfold map_mutation, applyMutationRecord in *. destruct (zlen payload <? 3); [done|].
  apply bind_Ok in E as (op & Eo & E). rewrite Eo. apply bind_Ok in E as (h & Eh & E). cbn [mbind outcome_bind]. rewrite Eh. cbn [mbind outcome_bind].
  destruct (Z.eqb_spec (le_get h) id) as [->|]; cbn [negb] in E; [|done]. rewrite (proj1 Hrep).
  apply bind_Ok in E as (body & Eb & E). rewrite Eb. cbn [mbind outcome_bind]. by eapply op_replayed.
Qed.
Lemma loop_replayed k : forall n payload off db g off' g', rep (k + n) db g -> held g -> txn_loop k payload off (map_mutation rt) g = Ok (off', g') ->
  (max <> 0 /\ txn_loop k payload off apply_mut db = Err ErrCapacity) \/
  exists db', txn_loop k payload off apply_mut db = Ok (off', db') /\ rep n db' g'.
Proof.
  induction k as [|k IH]; intros n payload off db g off' g' Hrep Hg E; cbn [txn_loop] in *; [injection E as <- <-; right; by exists db|].
  destruct (off + 4 >? zlen payload); [done|]. apply bind_Ok in E as (l & -> & E). cbn [mbind outcome_bind].
  destruct (_ || _); [done|]. apply bind_Ok in E as (m & Em & E). rewrite Em. cbn [mbind outcome_bind].
  apply bind_Ok in E as (g1 & E1 & E). destruct (mutation_replayed (k + n) db g m g1 Hrep Hg E1) as [[Hm ->]|(db1 & -> & Hrep1)]; cbn [mbind outcome_bind]; [by left|].
  eapply IH; [done| |done]. by eapply held_mutation.
Qed.

(** A record holds fewer than 65536 mutations. *)
Definition per_record : nat := Z.to_nat 65536.
Lemma record_replayed n db g t payload g' : rep (per_record + n) db g -> held g -> map_record rt g t payload = Ok g' ->
  replayed n (apply_rec db t payload) g'.
Proof.
  intros Hrep Hg E. assert (Hm : forall k, (k <= per_record + n)%nat -> rep k db g) by (intros k Hk; by apply (rep_mono pkHashSeed max rt ext pk_in (per_record + n))).
  unfold map_record, applyReplayRecord in *. destruct (Z.eqb_spec t recCheckpoint) as [->|]; [injection E as <-; right; exists db; split; [done|apply Hm; lia]|].
  destruct (Z.eqb_spec t recMutation) as [->|]; [cbn; eapply mutation_replayed; [apply Hm; unfold per_record; lia|done..]|].
  destruct (Z.eqb_spec t recTxn) as [->|]; [|done]. change (recTxn =? recCreateTable) with false. change (recTxn =? recDropTable) with false. cbv iota.
  unfold forEachTxnMutation in *. destruct (zlen payload <? 2); [done|]. apply bind_Ok in E as (h & Eh & E). rewrite Eh. cbn [mbind outcome_bind].
  apply bind_Ok in E as ([off g1] & El & E). cbn [fst snd] in *. destruct (negb (off =? _)) eqn:En; [done|]. injection E as <-.
  assert (Hh : zlen h = 2). { unfold slice_o in Eh. destruct (_ && _) eqn:Eb; [|done]. injection Eh as <-. unfold slice, zlen. rewrite length_take, length_drop. unfold zlen in Eb. lia. }
  pose proof (le_get_lt h 2 Hh) as Hlt.
  destruct (loop_replayed (Z.to_nat (le_get h)) n payload 2 db g off g1) as [[Hmx ->]|(db' & -> & Hrep')]; cbn [mbind outcome_bind fst snd].
  - apply Hm. unfold per_record. lia.
  - done.
  - done.
  - by left.
  - rewrite En. right. by exists db'.
Qed.
Definition replayed_to (n : nat) (r : rdb * outcome unit) (g' : gmap UUID Row) : Prop :=
  (max <> 0 /\ snd r = Err ErrCapacity) \/ exists db', r = (db', Ok tt) /\ rep n db' g'.
Lemma records_replayed recs : forall n db g g', rep (length recs * per_record + n) db g -> held g -> apply_records (map_record rt) recs g = (g', Ok tt) ->
  replayed_to n (apply_records apply_rec recs db) g'.
Proof.
  induction recs as [|[t p] recs IH]; intros n db g g' Hrep Hg E; cbn [apply_records length] in *; [injection E as <-; right; by exists db|].
  destruct (map_record rt g t p) as [g1| |] eqn:E1; [|done..].
  destruct (record_replayed (length recs * per_record + n) db g t p g1) as [[Hm ->]|(db1 & -> & Hrep1)]; [|done|done|by left|].
  - replace (per_record + (length recs * per_record + n))%nat with (S (length recs) * per_record + n)%nat by lia. done.
  - eapply IH; [done| |done]. by eapply held_record.
Qed.

(** ** The rows *)
Lemma load_rows_typed db rows : Forall row_held rows -> Forall (fun c => 1 <= c_Type c <= 5) cols ->
  load_rows pkHashSeed max db rt cols (map (map valueToArg) rows) = loadTableRows pkHashSeed max db rt rows.
Proof.
  intros Hr Ht. revert db. induction Hr as [|r rows [Hw Hf] Hr IH]; intros db; [done|]. cbn [map load_rows loadTableRows].
  destruct (value_args cols r (proj2 Hw) Hf Ht) as [_ ->]. rewrite (validate_mirror_ok cols r Hf). cbn [mbind outcome_bind].
  destruct (tab_insert pkHashSeed max db rt r) as [db1| |]; [|done..]. cbn [mbind outcome_bind]. apply IH.
Qed.
Lemma rows_rebuild (g : gmap UUID Row) rows : held g -> rows ≡ₚ (map_to_list g).*2 ->
  Forall row_held rows /\ NoDup (pkof <$> rows) /\
  fold_left (fun g kr => <[fst kr := snd kr]> g) ((fun r => (pkof r, r)) <$> rows) ∅ = g.
Proof.
  intros Hg Hp.
  assert (Hin : forall r, r ∈ rows <-> exists k, g !! k = Some r).
  { intros r. rewrite Hp, list_elem_of_fmap. split.
    - intros ([k x] & -> & Hk%elem_of_map_to_list). by exists k.
    - intros (k & Hk). exists (k, r). split; [done|]. by apply elem_of_map_to_list. }
  assert (Hk : pkof <$> rows ≡ₚ (map_to_list g).*1).
  { rewrite Hp, <- list_fmap_compose.
    assert (Ek : (pkof ∘ snd) <$> map_to_list g = (map_to_list g).*1); [|by rewrite Ek].
    apply Forall_fmap_ext_1, list.Forall_forall. intros [k r] Hkr%elem_of_map_to_list. by apply (Hg k r). }
  assert (Hn : NoDup (pkof <$> rows)) by (rewrite Hk; apply NoDup_fst_map_to_list).
  split; [|split; [done|]].
  { apply list.Forall_forall. intros r [k Hr]%Hin. by apply (Hg k r). }
  assert (Ef : ((fun r : Row => (pkof r, r)) <$> rows).*1 = pkof <$> rows) by (rewrite <- list_fmap_compose; by apply list_fmap_ext).
  apply map_eq. intros k. destruct (g !! k) as [r|] eqn:Hr.
  - apply fold_insert_in; [by rewrite Ef|]. apply list_elem_of_fmap. exists r. destruct (Hg k r Hr) as [_ <-]. split; [done|]. apply Hin. by exists (pkof r).
  - rewrite fold_insert_notin; [apply lookup_empty|]. rewrite Ef. intros (r & Hp' & [k' Hr']%Hin)%list_elem_of_fmap.
    destruct (Hg k' r Hr') as [_ E]. congruence.
Qed.

Section sqlite.
Context {Q : Type} `{Sqlite Q} (dt : drainTable) (sq_rows : Q -> option (gmap UUID (list sqlVal))) `{!MirrorSqlite rt dt sq_rows}.
Context (iter : gmap Z drainTable -> list (Z * drainTable)).
Hypothesis built : buildDrainTable (rt_def (table rt)) = Ok dt.
Hypothesis same_pk : dt_pkOrd dt = pkOrd (table rt).
Hypothesis types : Forall (fun c => 1 <= c_Type c <= 5) (t_Columns (rt_def (table rt))).
Local Abbreviation mirrors := (mirrors rt dt sq_rows).

(** Loading the mirror into an empty table: exactly its rows, or the cap refuses
    them. *)
Lemma load_mirror n T g q db o : mirrors T g (q, T) -> rep (size g + n) db ∅ -> (max <> 0 -> ext <= max) ->
  sq_query q (select_all dt) <> None -> load_table pkHashSeed max q dt rt db = o -> replayed n o g.
Proof.
  intros (_ & _ & Hg & Hq) Hrep Hext Hok <-. unfold load_table. destruct (sq_query q (select_all dt)) as [raws|] eqn:Er; [|done].
  pose proof (law_select _ q _ raws Hq Er) as Hp. unfold args_of in Hp. rewrite map_to_list_fmap, <- list_fmap_compose in Hp.
  assert (E : exists rows, raws = map (map valueToArg) rows /\ rows ≡ₚ (map_to_list g).*2).
  { assert (Hp' : map (map valueToArg) ((map_to_list g).*2) ≡ₚ raws).
    { rewrite Hp. change (map (map valueToArg)) with (fmap (M := list) (map valueToArg)). by rewrite <- list_fmap_compose. }
    symmetry in Hp'. apply Permutation_map_inv in Hp' as (rows & -> & Hr). exists rows. split; [done|]. by symmetry. }
  destruct E as (rows & -> & Hr). destruct (rows_rebuild g rows Hg Hr) as (Hh & Hn & Ef).
  assert (Edc : dt_cols dt = cols) by (pose proof built as Eb; unfold buildDrainTable in Eb; apply bind_Ok in Eb as (pk & _ & [= <-]); done). rewrite Edc. rewrite load_rows_typed by done.
  assert (El : length rows = size g) by (rewrite Hr, length_fmap; apply length_map_to_list).
  pose proof (mirror_load_budget pkHashSeed max rt ext pk_in n rows db ∅) as L. rewrite Ef in L.
  rewrite El in L. specialize (L Hrep Hh Hn). unfold map_cost in L. rewrite map_fold_empty, Z.add_0_r in L.
  assert (Hnew : Forall (fun r => (∅ : gmap UUID Row) !! pkof r = None) rows) by (apply list.Forall_forall; intros; apply lookup_empty).
  specialize (L Hnew Hext). unfold replayed. destruct (Z.eqb_spec max 0); cbn [negb andb] in L; [by right|].
  destruct (_ >? max); [by left|by right].
Qed.

(** The mirror and the tail. Whatever part of the log has been drained, loading the
    table from the mirror and replaying the rest rebuilds what the whole log makes. *)
Lemma recovered n T lo q q' g g' chunks tail : mirrors T g (q, T) -> drained iter T lo q chunks q' ->
  apply_records (map_record rt) (concat chunks ++ tail) g = (g', Ok tt) ->
  exists gd, mirrors T gd (q', T) /\ forall db o, rep (size gd + (length tail * per_record + n)) db ∅ -> (max <> 0 -> ext <= max) ->
    sq_query q' (select_all dt) <> None -> load_table pkHashSeed max q' dt rt db = o ->
    (max <> 0 /\ o = Err ErrCapacity) \/
    exists db1, o = Ok db1 /\ replayed_to n (apply_records apply_rec tail db1) g'.
Proof.
  intros Hm Hd E.
  assert (Es : exists gd, apply_records (map_record rt) (concat chunks) g = (gd, Ok tt) /\ apply_records (map_record rt) tail gd = (g', Ok tt)).
  { clear -E. revert g E. induction (concat chunks) as [|[t p] c IH]; intros g E; cbn [apply_records app] in *; [by exists g|].
    destruct (map_record rt g t p) as [g1| |]; [|done..]. by apply IH. }
  destruct Es as (gd & E1 & E2).
  pose proof (drained_follows rt dt sq_rows iter built same_pk pk_in pk_uuid types T chunks lo q q' g gd Hm Hd E1) as Hm'.
  exists gd. split; [done|]. intros db o Hrep Hext Hok Ho.
  destruct (load_mirror (length tail * per_record + n) T gd q' db o Hm' Hrep Hext Hok Ho) as [?|(db1 & -> & Hrep1)]; [by left|].
  right. exists db1. split; [done|]. eapply records_replayed; [exact Hrep1| |exact E2]. apply Hm'.
Qed.
End sqlite.
End recover.
