(* ===== verification/DrainOk.v ===== *)
(** * DrainOk: what draining commits, and what a crash leaves of the companion and
    the log together. *)
From S2P Require Import Prelude Bytes Uuid Value PkMap Codec Frame Wal Journal Schema Catalog Store StoreOk StoreSim Recovery Replayer Drain Companion Mirror.

Section drain.
Context {Q : Type} `{Sqlite Q}.
Context (iter : gmap Z drainTable -> list (Z * drainTable)) (event_row : Z -> list sqlVal).
Local Abbreviation mirror_record := (mirror_record iter).
Local Abbreviation drainSegment := (drainSegment iter event_row).
Local Abbreviation drain_loop := (drain_loop iter event_row).
Local Abbreviation drainOnce := (drainOnce iter event_row).
Local Abbreviation drained := (drained iter).

(** ** Data records *)

(** Not a CREATE or a DROP. *)
Definition is_data (r : Z * bytes) : Prop := fst r <> recCreateTable /\ fst r <> recDropTable.
Lemma mutation_tables (m m' : Q * gmap Z drainTable) p : mirror_mutation m p = Ok m' -> snd m' = snd m.
Proof.
  unfold mirror_mutation. destruct (zlen p <? 3); [done|]. intros E. apply bind_Ok in E as (op & _ & E). apply bind_Ok in E as (h & _ & E).
  destruct (snd m !! le_get h); [|done]. apply bind_Ok in E as (b & _ & E). by apply bind_Ok in E as (q & _ & [= <-]).
Qed.
Lemma record_tables (m m' : Q * gmap Z drainTable) t p : is_data (t, p) -> mirror_record m t p = Ok m' -> snd m' = snd m.
Proof.
  intros [H1 H2] E. unfold Drain.mirror_record in E. cbn [fst] in *. rewrite (proj2 (Z.eqb_neq _ _) H1), (proj2 (Z.eqb_neq _ _) H2) in E.
  destruct (t =? recCheckpoint); [by injection E as <-|]. destruct (t =? recMutation); [by eapply mutation_tables|].
  destruct (t =? recTxn); [|done]. eapply (txn_both (fun a b => snd a = snd m) mirror_mutation mirror_mutation p m m m' m'); try done.
  intros a b x a' b' Ha Ea _. by rewrite (mutation_tables _ _ _ Ea).
Qed.
Lemma records_tables c : forall (m m' : Q * gmap Z drainTable) o, Forall is_data c -> apply_records mirror_record c m = (m', o) -> snd m' = snd m.
Proof.
  induction c as [|[t p] c IH]; intros m m' o Hd E; cbn [apply_records] in E; [by injection E as <- _|].
  apply list.Forall_cons in Hd as [Hr Hd]. destruct (mirror_record m t p) as [m1|e|] eqn:Em; [|by injection E as <- _..].
  rewrite (IH _ _ _ Hd E). by eapply record_tables.
Qed.

(** No method of the mirror reports a framing error: only the scan does. *)
Definition unframed {A} (o : outcome A) : Prop := o <> Err errWALFraming.
Lemma unframed_bind {A B} (m : outcome A) (k : A -> outcome B) : unframed m -> (forall a, unframed (k a)) -> unframed (m ≫= k).
Proof. destruct m; cbn; auto; unfold unframed; congruence. Qed.
Lemma clean_unframed {A} (P : A -> Prop) o : clean P o -> unframed o.
Proof. destruct o; cbn; unfold unframed; congruence. Qed.
Lemma unframed_slice (l : bytes) lo hi : unframed (slice_o l lo hi).
Proof. unfold slice_o. by destruct (_ && _). Qed.
Lemma unframed_index {A} (l : list A) i : unframed (index l i).
Proof. unfold index. by destruct (l !! i). Qed.
Lemma unframed_wrap {A} (o : outcome A) : unframed (wrap ErrWALCorrupt o).
Proof. by destruct o. Qed.
Lemma mirror_set_clean dt a ord v : clean (fun _ => True) (mirror_set dt a ord v).
Proof.
  unfold mirror_set. destruct (Nat.leb_spec (length (dt_cols dt)) ord); [done|].
  destruct (index_lt (dt_cols dt) ord) as (c & -> & _); [done|]. cbn [mbind outcome_bind].
  destruct (validateValue c v) as [[]|e|] eqn:E; try done. exfalso. revert E. unfold validateValue. repeat case_match; done.
Qed.
Lemma op_unframed (q : Q) dt op body : unframed (mirror_op q dt op body).
Proof.
  assert (Hs : forall text args, unframed (sql q text args)) by (intros; unfold sql; by destruct (sq_exec q text args)).
  unfold mirror_op. destruct (op =? opInsert).
  { apply unframed_bind; [apply (clean_unframed _ _ (decodeRow_clean body))|]. intros row. apply unframed_bind; [|intros _; apply Hs].
    destruct (validateInsertRow_ok (dt_cols dt) row) as [_ _]. unfold validateInsertRow. destruct (negb _); [done|].
    generalize (dt_cols dt). induction row as [|v row IH]; intros [|c cs]; cbn; try done. destruct (validateValue c v); [apply IH|done..]. }
  destruct (op =? opUpdate).
  { apply unframed_bind; [apply (clean_unframed (fun r => value_ok (fst r))), decodeUpdateMutation_clean; intros; apply mirror_set_clean|]. intros [pk [set args]].
    apply unframed_bind; [apply unframed_wrap|]. intros k. apply unframed_bind; [|intros; apply Hs].
    unfold updateSQL. apply unframed_bind; [apply unframed_index|done]. }
  destruct (op =? opDelete); [|done]. apply unframed_bind.
  { unfold decodeDeleteBody. apply unframed_bind; [apply (clean_unframed _ _ (decodeCell_clean body))|]. intros pn. by destruct (negb _). }
  intros pk. apply unframed_bind; [apply unframed_wrap|]. intros k. apply Hs.
Qed.
Lemma mutation_unframed (m : Q * gmap Z drainTable) p : unframed (mirror_mutation m p).
Proof.
  unfold mirror_mutation. destruct (zlen p <? 3); [done|]. apply unframed_bind; [apply unframed_index|]. intros op.
  apply unframed_bind; [apply unframed_slice|]. intros h. destruct (snd m !! le_get h); [|done].
  apply unframed_bind; [apply unframed_slice|]. intros b. apply unframed_bind; [apply op_unframed|done].
Qed.
Lemma txn_unframed {S} (f : S -> bytes -> outcome S) p s : (forall s m, unframed (f s m)) -> unframed (forEachTxnMutation p f s).
Proof.
  intros Hf. unfold forEachTxnMutation. destruct (zlen p <? 2); [done|]. apply unframed_bind; [apply unframed_slice|]. intros h.
  apply unframed_bind; [|intros r; by destruct (negb _)]. generalize 2. generalize s. induction (Z.to_nat (le_get h)) as [|n IH]; intros s0 off; [done|].
  cbn [txn_loop]. destruct (_ >? _); [done|]. apply unframed_bind; [apply unframed_slice|]. intros l. destruct (_ || _); [done|].
  apply unframed_bind; [apply unframed_slice|]. intros b. apply unframed_bind; [apply Hf|]. intros s1. apply IH.
Qed.
Lemma record_unframed (m : Q * gmap Z drainTable) t p : is_data (t, p) -> unframed (mirror_record m t p).
Proof.
  intros [H1 H2]. unfold Drain.mirror_record. cbn [fst] in *. rewrite (proj2 (Z.eqb_neq _ _) H1), (proj2 (Z.eqb_neq _ _) H2).
  destruct (t =? recCheckpoint); [done|]. destruct (t =? recMutation); [apply mutation_unframed|].
  destruct (t =? recTxn); [|done]. apply txn_unframed. intros. apply mutation_unframed.
Qed.
Lemma records_unframed c : forall m, Forall is_data c -> unframed (snd (apply_records mirror_record c m)).
Proof.
  induction c as [|[t p] c IH]; intros m Hd; [done|]. apply list.Forall_cons in Hd as [Hr Hd]. cbn [apply_records].
  pose proof (record_unframed m t p Hr) as U. destruct (mirror_record m t p); [by apply IH| |done]. intros [= ->]. by apply U.
Qed.

(** ** Segments *)
Section segments.
Context (T : gmap Z drainTable).

Lemma segment_drained io d c d' r : d_tables d = T -> Forall rec_ok c -> Forall is_data c ->
  vis (d_disk d) !! segPath (d_last d + 1) = Some (frames c, true) ->
  drainSegment io d (d_last d + 1) = (d', r) ->
  (d' = d /\ r <> Ok tt) \/
  (r = Ok tt /\ d_tables d' = T /\ d_last d' = d_last d + 1 /\ dur (d_disk d') = dur (d_disk d) /\
   (vis (d_disk d') = vis (d_disk d) \/ vis (d_disk d') = delete (segPath (d_last d + 1)) (vis (d_disk d))) /\
   exists q1, apply_records mirror_record c (d_sdb d, T) = ((q1, T), Ok tt) /\
     sq_exec q1 set_cursor [SInt (s64 (d_last d + 1))] = Some (d_sdb d')).
Proof.
  intros HT Hok Hd Hv E. unfold Drain.drainSegment in E. rewrite Hv in E.
  destruct (io_open io); cbn [negb] in E; [|injection E as <- <-; by left].
  destruct (io_begin io); cbn [negb] in E; [|injection E as <- <-; by left].
  rewrite scan_written in E by done. rewrite HT in E.
  destruct (apply_records mirror_record c (d_sdb d, T)) as [[q tables] o] eqn:Ea.
  pose proof (records_tables c _ _ _ Hd Ea) as Et. cbn [snd] in Et. subst tables.
  assert (Eroll : MkDrainer (d_sdb d) T (d_last d) (d_disk d) = d) by (rewrite <- HT; by destruct d). rewrite Eroll in E.
  pose proof (records_unframed c (d_sdb d, T) Hd) as U. rewrite Ea in U. cbn [snd] in U.
  destruct o as [[]|e|].
  - destruct (sq_exec q set_cursor _) as [q2|] eqn:Ec; [|injection E as <- <-; by left].
    destruct (io_commit io); cbn [negb] in E; [|injection E as <- <-; by left]. injection E as <- <-. right. cbn [d_tables d_last d_disk d_sdb].
    do 3 (split; [done|]). split; [by destruct (io_remove io)|]. split; [destruct (io_remove io); [by right|by left]|]. by exists q.
  - rewrite bool_decide_eq_false_2 in E by (intros ->; by apply U). injection E as <- <-. by left.
  - injection E as <- <-. by left.
Qed.

Lemma segs_are_next lo D c cs : segs_are lo D (sealed_map lo (c :: cs)) -> segs_are (lo + 1) D (sealed_map (lo + 1) cs).
Proof.
  assert (Hm : forall n, lo + 1 < n -> sealed_map lo (c :: cs) !! n = sealed_map (lo + 1) cs !! n).
  { intros n Hn. apply option_eq. intros x. unfold sealed_map. rewrite !lookup_map_seqZ_Some. cbn [map].
    replace (Z.to_nat (n - (lo + 1))) with (S (Z.to_nat (n - (lo + 1 + 1)))) by lia. cbn [lookup list_lookup]. intuition lia. }
  intros [H1 H2]. split.
  - intros n x Hn. assert (lo + 1 < n). { apply lookup_map_seqZ_Some in Hn as [? _]. lia. }
    rewrite <- Hm in Hn by done. destruct (H1 n x Hn) as [? ?]. split; [lia|done].
  - intros name f n Hf En Hlt. destruct (H2 name f n Hf En) as [-> [x Hx]]; [lia|]. split; [done|]. exists x. by rewrite <- Hm.
Qed.
Lemma loop_drained io cs : forall d d' r, 0 <= d_last d -> d_tables d = T -> Forall (Forall rec_ok) cs -> Forall (Forall is_data) cs ->
  segs_are (d_last d) (vis (d_disk d)) (sealed_map (d_last d) cs) ->
  drain_loop io d (seqZ (d_last d + 1) (zlen cs)) (d_last d + 1) = (d', r) ->
  exists k, (k <= length cs)%nat /\ drained T (d_last d) (d_sdb d) (take k cs) (d_sdb d') /\ d_last d' = d_last d + Z.of_nat k /\
    d_tables d' = T /\ dur (d_disk d') = dur (d_disk d) /\
    segs_are (d_last d') (vis (d_disk d')) (sealed_map (d_last d') (drop k cs)) /\ (r = Ok tt -> k = length cs).
Proof.
  induction cs as [|c cs IH]; intros d d' r Hlo HT Hok Hd Hs E.
  { injection E as <- <-. exists 0%nat. rewrite Z.add_0_r. by split_and!. }
  apply list.Forall_cons in Hok as [Hc Hok]. apply list.Forall_cons in Hd as [Hdc Hd].
  rewrite zlen_cons in E. rewrite seqZ_cons in E by (pose proof (zlen_pos cs); lia). cbn [Drain.drain_loop] in E.
  rewrite Z.ltb_irrefl, Z.eqb_refl in E. cbn [negb] in E.
  assert (Hm : sealed_map (d_last d) (c :: cs) !! (d_last d + 1) = Some (frames c)).
  { unfold sealed_map. apply lookup_map_seqZ_Some. split; [lia|]. by rewrite Z.sub_diag. }
  destruct (proj1 Hs _ _ Hm) as [Hr Hv].
  destruct (drainSegment (io (d_last d + 1)) d (d_last d + 1)) as [d1 r1] eqn:E1.
  destruct (segment_drained _ _ _ _ _ HT Hc Hdc Hv E1) as [[-> Hr1]|(-> & HT1 & Hl1 & Hdur & Hvis & q1 & Ea & Ec)].
  - assert (Er : (d', r) = (d, r1)) by (destruct r1 as [[]| |]; done). injection Er as -> ->.
    exists 0%nat. rewrite Z.add_0_r. split; [lia|]. by split_and!.
  - assert (Hs1 : segs_are (d_last d1) (vis (d_disk d1)) (sealed_map (d_last d1) cs)).
    { rewrite Hl1. apply segs_are_next in Hs. destruct Hvis as [-> | ->]; [done|]. apply segs_are_del_other; [| |exact Hs]; [lia|].
      intros n. rewrite seg_num_segPath by lia. intros [= <-]. lia. }
    rewrite <- Hl1 in E. replace (Z.succ (d_last d1 - 0)) with (d_last d1 + 1) in E by lia.
    destruct (IH d1 d' r) as (k & Hk & Hdr & Hl' & HT' & Hdur' & Hs' & Hfull); [lia|done..| |].
    { rewrite Hl1. rewrite Hl1 in E. replace (Z.succ (d_last d + 1)) with (d_last d + 1 + 1) in E by lia.
      replace (Z.pred (1 + zlen cs)) with (zlen cs) in E by lia. exact E. }
    exists (S k). cbn [length take drop Mirror.drained]. split; [lia|]. split; [exists q1, (d_sdb d1); split; [done|]; split; [done|]; by rewrite <- Hl1|].
    split; [lia|]. split; [done|]. split; [by rewrite Hdur'|]. split; [done|]. intros Er. by rewrite Hfull.
Qed.
Lemma filter_above lo (l : list Z) : (forall x, x ∈ l -> lo < x) -> filter (fun n => lo < n) l = l.
Proof.
  induction l as [|y l IH]; intros Hl; [done|]. rewrite filter_cons_True by (apply Hl; by left). f_equal. apply IH. intros x Hx. apply Hl. by right.
Qed.
Lemma loop_skip io d l lo : Sorted Z.le l -> drain_loop io d l (lo + 1) = drain_loop io d (filter (fun n => lo < n) l) (lo + 1).
Proof.
  intros Hl. apply Sorted_StronglySorted in Hl; [|intros ???; lia]. induction Hl as [|n l Hl IH Hn]; [done|].
  destruct (decide (lo < n)) as [Hlt|Hge]; [rewrite filter_cons_True by done|rewrite filter_cons_False by done].
  - rewrite filter_above; [done|]. intros x Hx. rewrite list.Forall_forall in Hn. specialize (Hn x Hx). lia.
  - cbn [Drain.drain_loop]. destruct (Z.ltb_spec n (lo + 1)); [done|lia].
Qed.
Lemma once_drained io cs d d' r : 0 <= d_last d -> d_tables d = T -> Forall (Forall rec_ok) cs -> Forall (Forall is_data) cs ->
  segs_are (d_last d) (vis (d_disk d)) (sealed_map (d_last d) cs) -> drainOnce true io d = (d', r) ->
  exists k, (k <= length cs)%nat /\ drained T (d_last d) (d_sdb d) (take k cs) (d_sdb d') /\ d_last d' = d_last d + Z.of_nat k /\
    d_tables d' = T /\ dur (d_disk d') = dur (d_disk d) /\
    segs_are (d_last d') (vis (d_disk d')) (sealed_map (d_last d') (drop k cs)) /\ (r = Ok tt -> k = length cs).
Proof.
  intros Hlo HT Hok Hd Hs E. unfold Drain.drainOnce, sealedSegments in E. cbn [negb] in E.
  rewrite loop_skip in E by apply listSegments_sorted. rewrite (listSegments_seqZ _ Hlo _ (map frames cs)) in E by done.
  unfold zlen in E. rewrite length_map in E. by eapply loop_drained.
Qed.
Lemma drained_app a : forall lo q q1 b q2, drained T lo q a q1 -> drained T (lo + zlen a) q1 b q2 -> drained T lo q (a ++ b) q2.
Proof.
  induction a as [|c a IH]; intros lo q q1 b q2 Ha Hb; cbn [Mirror.drained app] in *; [subst q1; by rewrite Z.add_0_r in Hb|].
  destruct Ha as (x & y & E1 & E2 & Ha). exists x, y. split; [done|]. split; [done|]. eapply IH; [exact Ha|].
  rewrite zlen_cons in Hb. by replace (lo + 1 + zlen a) with (lo + (1 + zlen a)) by lia.
Qed.
Lemma segs_are_drop D cs k : forall lo, segs_are lo D (sealed_map lo cs) -> (k <= length cs)%nat ->
  segs_are (lo + Z.of_nat k) D (sealed_map (lo + Z.of_nat k) (drop k cs)).
Proof.
  revert cs. induction k as [|k IH]; intros cs lo Hs Hk; [by rewrite Z.add_0_r|].
  destruct cs as [|c cs]; cbn [length] in Hk; [lia|]. apply segs_are_next in Hs. cbn [drop].
  replace (lo + Z.of_nat (S k)) with (lo + 1 + Z.of_nat k) by lia. apply IH; [done|lia].
Qed.
Lemma segs_are_beyond D cs lo lo' : segs_are lo D (sealed_map lo cs) -> lo + zlen cs <= lo' -> segs_are lo' D (sealed_map lo' []).
Proof.
  intros [_ H2] Hle. split; [intros n c; change (sealed_map lo' []) with (∅ : gmap Z bytes); by rewrite lookup_empty|].
  intros name f n Hf En Hlt. pose proof (zlen_pos cs). destruct (H2 name f n Hf En) as [_ [x Hx]]; [lia|].
  apply lookup_map_seqZ_Some in Hx as [_ Hx]. apply lookup_lt_Some in Hx. rewrite length_map in Hx. unfold zlen in *. lia.
Qed.

(** ** Lifetimes of the log and its mirror together *)
Inductive mev : Type :=
  | MWal (ev : wev)
  | MDrain (io : Z -> seg_io).
Record msys : Type := MkMsys {
  ms_life : lifetime;
  ms_sdb : Q;
  ms_tables : gmap Z drainTable;
  ms_last : Z;
}.
Definition msys_step (s : msys) (e : mev) : msys :=
  match e with
  | MWal ev => MkMsys (life_step (ms_life s) ev) (ms_sdb s) (ms_tables s) (ms_last s)
  | MDrain io =>
      let l := ms_life s in
      let d := fst (drainOnce true io (MkDrainer (ms_sdb s) (ms_tables s) (ms_last s) (l_disk l))) in
      MkMsys (MkLife (l_wal l) (d_disk d) (l_log l) (l_sealed l)) (d_sdb d) (d_tables d) (d_last d)
  end.
Definition mrun (s : msys) (evs : list mev) : msys := fold_left msys_step evs s.
Definition mev_ok (e : mev) : Prop :=
  match e with
  | MWal (EvWrite flt t p) => ev_ok (EvWrite flt t p) /\ is_data (t, p)
  | _ => True
  end.

(** [dr] is in the mirror, [chunks] sealed above the cursor, [pend] in the buffer;
    a failed flush may have left its segment for the drain to take, and then the
    log is dead and everything is in the mirror. *)
Record minv (base : list (Z * bytes)) (lo0 : Z) (q0 : Q) (bound : Z) (s : msys) (dr chunks : list (list (Z * bytes))) (pend : list (Z * bytes)) (w0 : wal) : Prop := {
  mi_drained : drained T lo0 q0 dr (ms_sdb s);
  mi_last : ms_last s = lo0 + zlen dr;
  mi_tables : ms_tables s = T;
  mi_winv : winv (ms_last s) w0 (l_disk (ms_life s)) chunks pend;
  mi_seg : w_seg w0 <= bound;
  mi_log : base ++ l_log (ms_life s) = concat dr ++ concat chunks ++ pend;
  mi_data : Forall is_data (base ++ l_log (ms_life s));
  mi_writer : (w0 = l_wal (ms_life s) /\ (l_sealed (ms_life s) + length pend = length (l_log (ms_life s)))%nat) \/
    (w_err (l_wal (ms_life s)) <> None /\ w_err w0 = None /\ chunks = [] /\ pend = [] /\ (l_sealed (ms_life s) <= length (l_log (ms_life s)))%nat);
}.
Lemma data_chunks base log dr chunks pend : base ++ log = concat dr ++ concat chunks ++ pend -> Forall is_data (base ++ log) ->
  Forall (Forall is_data) chunks /\ Forall is_data pend.
Proof.
  intros -> [_ [Hc Hp]%Forall_app]%Forall_app. split; [|done]. clear -Hc. induction chunks as [|c cs IH]; [done|]. cbn [concat] in Hc.
  apply Forall_app in Hc as [H1 H2]. constructor; auto.
Qed.

Lemma wal_minv base lo0 q0 bound s ev dr chunks pend w0 : minv base lo0 q0 bound s dr chunks pend w0 -> mev_ok (MWal ev) -> bound + 1 < 2 ^ 64 ->
  exists chunks pend w0, minv base lo0 q0 (bound + 1) (msys_step s (MWal ev)) dr chunks pend w0.
Proof.
  intros [H1 H2 H3 H4 H5 H6 H7 H8] Hev Hb. destruct s as [[w d log sealed] q tb last]. cbn [ms_life ms_sdb ms_tables ms_last l_wal l_disk l_log l_sealed msys_step] in *.
  assert (He : ev_ok ev) by (destruct ev; [apply Hev|done..]).
  assert (Hacc : Forall is_data (accepted w ev)).
  { destruct ev as [flt t p| |]; cbn [accepted]; [|constructor..]. destruct (w_err w); [constructor|]. destruct (w_failWrites w); [constructor|].
    apply list.Forall_singleton, Hev. }
  destruct H8 as [[-> Hsl]|(Herr & Herr0 & -> & -> & Hsl)].
  - destruct (life_step_inv last base (concat dr) (MkLife w d log sealed) ev) as [(chunks' & pend' & Hw & Hlog & Hs') Hseg]; [by exists chunks, pend|done|cbn; lia|].
    cbn [l_wal l_disk l_log l_sealed] in Hseg. exists chunks', pend', (l_wal (life_step (MkLife w d log sealed) ev)).
    split; cbn [ms_life ms_sdb ms_tables ms_last]; try done; [lia| |by left].
    unfold life_step. cbn [l_wal l_disk l_log l_sealed]. destruct (wal_step w d ev) as [[w1 d1] e1]. cbn [l_log]. rewrite app_assoc. by apply Forall_app.
  - destruct (w_err w) as [e|] eqn:Ew; [|done]. unfold life_step. cbn [l_wal l_disk l_log l_sealed]. rewrite (wal_sticky w d ev e Ew).
    assert (Ea : accepted w ev = []) by (destruct ev; cbn [accepted]; by rewrite ?Ew). rewrite Ea, app_nil_r.
    exists [], [], w0. split; cbn [ms_life ms_sdb ms_tables ms_last l_wal l_disk l_log l_sealed]; try done; [lia|].
    right. rewrite Ew. do 4 (split; [done|]). destruct (_ =? _)%nat; lia.
Qed.

Lemma drain_minv base lo0 q0 bound s io dr chunks pend w0 : minv base lo0 q0 bound s dr chunks pend w0 -> bound + 1 < 2 ^ 64 ->
  exists dr chunks pend w0, minv base lo0 q0 (bound + 1) (msys_step s (MDrain io)) dr chunks pend w0.
Proof.
  intros [H1 H2 H3 H4 H5 H6 H7 H8] Hb. destruct s as [[w d log sealed] q tb last]. cbn [ms_life ms_sdb ms_tables ms_last l_wal l_disk l_log l_sealed msys_step] in *.
  destruct (data_chunks _ _ _ _ _ H6 H7) as [Hdc Hdp]. pose proof H4 as [Hlo Hseg Hbuf [Hokp Hokc] Hdur Hvis].
  destruct (drainOnce true io (MkDrainer q tb last d)) as [d1 r1] eqn:Ed. cbn [fst].
  assert (Hstay : forall k, (k <= length chunks)%nat -> drained T last q (take k chunks) (d_sdb d1) -> d_last d1 = last + Z.of_nat k -> d_tables d1 = T ->
    dur (d_disk d1) = dur d ->
    (segs_are (d_last d1) (vis (d_disk d1)) (sealed_map (d_last d1) (drop k chunks)) \/
     (w_err w0 <> None /\ segs_are (d_last d1) (vis (d_disk d1)) (<[d_last d1 + zlen (drop k chunks) + 1 := frames pend]> (sealed_map (d_last d1) (drop k chunks))))) ->
    exists dr chunks pend w0, minv base lo0 q0 (bound + 1) (MkMsys (MkLife w (d_disk d1) log sealed) (d_sdb d1) (d_tables d1) (d_last d1)) dr chunks pend w0).
  { intros k Hk Hdr Hl HT' Hdu Hv. exists (dr ++ take k chunks), (drop k chunks), pend, w0.
    assert (Ez : zlen (take k chunks) = Z.of_nat k) by (unfold zlen; rewrite length_take; lia).
    assert (Ed' : zlen (drop k chunks) = zlen chunks - Z.of_nat k) by (unfold zlen; rewrite length_drop; lia).
    split; cbn [ms_life ms_sdb ms_tables ms_last l_wal l_disk l_log l_sealed]; try done.
    - eapply drained_app; [exact H1|]. by rewrite <- H2.
    - rewrite zlen_app. lia.
    - split; [lia|lia|done| | |done].
      + split; [done|]. by apply Forall_drop.
      + rewrite Hdu, Hl. by apply segs_are_drop.
    - lia.
    - rewrite concat_app, <- app_assoc. rewrite (app_assoc (concat (take k chunks))), <- concat_app, take_drop. done.
    - destruct H8 as [H8|(? & ? & -> & -> & ?)]; [by left|]. right. by rewrite drop_nil. }
  destruct Hvis as [Hvis|[Herr Hvis]].
  - destruct (once_drained io chunks (MkDrainer q tb last d) d1 r1) as (k & Hk & Hdr & Hl & HT' & Hdu & Hs & _); try done.
    eapply Hstay; try done. by left.
  - rewrite <- sealed_map_snoc in Hvis.
    destruct (once_drained io (chunks ++ [pend]) (MkDrainer q tb last d) d1 r1) as (k & Hk & Hdr & Hl & HT' & Hdu & Hs & _); try done.
    { apply Forall_app. split; [done|]. by apply list.Forall_singleton. }
    { apply Forall_app. split; [done|]. by apply list.Forall_singleton. }
    cbn [d_last d_sdb d_disk] in *. rewrite length_app in Hk. cbn [length] in Hk. destruct (decide (k <= length chunks)%nat) as [Hle|Hgt].
    { rewrite take_app_le in Hdr by done. rewrite drop_app_le in Hs by done. rewrite sealed_map_snoc in Hs. eapply Hstay; try done. by right. }
    assert (Ek : k = length (chunks ++ [pend])) by (rewrite length_app; cbn; lia). rewrite Ek in *. rewrite firstn_all in Hdr. rewrite drop_all in Hs.
    rewrite length_app in Hl. cbn [length] in Hl.
    assert (Hw : w0 = w /\ (sealed + length pend = length log)%nat) by (destruct H8 as [H8|(_ & C & _)]; [done|by destruct Herr]). destruct Hw as [-> Hsl].
    exists (dr ++ chunks ++ [pend]), [], [], (MkWal [] (d_last d1) 0 None false).
    split; cbn [ms_life ms_sdb ms_tables ms_last l_wal l_disk l_log l_sealed w_seg]; try done.
    + eapply drained_app; [exact H1|]. by rewrite <- H2.
    + rewrite !zlen_app. change (zlen [pend]) with 1. unfold zlen in *. lia.
    + split; cbn [w_seg w_buf w_err]; [lia|unfold zlen; cbn [length]; lia|done|split; constructor| |by left].
      rewrite Hdu. eapply segs_are_beyond; [exact Hdur|]. unfold zlen. lia.
    + unfold zlen in *. lia.
    + rewrite !concat_app. cbn [concat]. rewrite !app_nil_r. by rewrite H6.
    + right. cbn [w_err]. do 4 (split; [done|]). lia.
Qed.
Lemma mrun_minv base lo0 q0 evs : forall bound s dr chunks pend w0, minv base lo0 q0 bound s dr chunks pend w0 -> Forall mev_ok evs -> bound + zlen evs + 1 < 2 ^ 64 ->
  exists dr chunks pend w0, minv base lo0 q0 (bound + zlen evs) (mrun s evs) dr chunks pend w0.
Proof.
  induction evs as [|e evs IH]; intros bound s dr chunks pend w0 Hi Hev Hb; [rewrite Z.add_0_r; by exists dr, chunks, pend, w0|].
  apply list.Forall_cons in Hev as [He Hev]. rewrite zlen_cons in *. pose proof (zlen_pos evs).
  assert (Hs : exists dr chunks pend w0, minv base lo0 q0 (bound + 1) (msys_step s e) dr chunks pend w0).
  { destruct e as [ev|io]; [|eapply drain_minv; [exact Hi|lia]]. destruct (wal_minv _ _ _ _ _ _ _ _ _ _ Hi He) as (c & p & w1 & H'); [lia|]. by exists dr, c, p, w1. }
  destruct Hs as (dr1 & c1 & p1 & w1 & H1). change (mrun s (e :: evs)) with (mrun (msys_step s e) evs).
  replace (bound + (1 + zlen evs)) with (bound + 1 + zlen evs) by lia. eapply IH; [exact H1|done|lia].
Qed.

(** The companion and the log across a crash. *)
Lemma mirror_crash {S} (apply : S -> Z -> bytes -> outcome S) lo w d chunks q evs d' s :
  (forall s t p, apply s t p <> Err errWALFraming) ->
  winv lo w d chunks [] -> w_err w = None -> Forall is_data (concat chunks) -> Forall mev_ok evs -> w_seg w + zlen evs + 1 < 2 ^ 64 ->
  let m := mrun (MkMsys (MkLife w d [] 0) q T lo) evs in
  crash (l_disk (ms_life m)) d' ->
  exists n dr rest, (l_sealed (ms_life m) <= n <= length (l_log (ms_life m)))%nat /\
    concat dr ++ concat rest = concat chunks ++ take n (l_log (ms_life m)) /\
    drained T lo q dr (ms_sdb m) /\ ms_last m = lo + zlen dr /\
    let '(w', d'', r) := bootWAL apply (ms_last m) (booted d') s in
    winv (ms_last m) w' d'' rest [] /\ w_err w' = None /\
    r = (let '(s, o) := apply_records apply (concat rest) s in (s, [], o)).
Proof.
  intros Hap Hi He Hdc Hev Hb m Hcr.
  assert (H0 : minv (concat chunks) lo q (w_seg w) (MkMsys (MkLife w d [] 0) q T lo) [] chunks [] w).
  { split; cbn [ms_life ms_sdb ms_tables ms_last l_wal l_disk l_log l_sealed]; try done; [by rewrite Z.add_0_r|by rewrite app_nil_r|by left]. }
  destruct (mrun_minv _ _ _ evs _ _ _ _ _ _ H0 Hev Hb) as (dr & ch & pend & w0 & [M1 M2 M3 M4 M5 M6 M7 M8]). fold m in M1, M2, M3, M4, M6, M7, M8.
  destruct (wi_ok _ _ _ _ _ M4) as [Hokp Hokc]. pose proof (wi_lo _ _ _ _ _ M4) as Hlo.
  assert (Hsl : (l_sealed (ms_life m) + length pend <= length (l_log (ms_life m)))%nat) by (destruct M8 as [[_ ?]|(_ & _ & _ & -> & ?)]; cbn; lia).
  assert (Hall : (length (concat chunks) + length (l_log (ms_life m)) = length (concat dr ++ concat ch) + length pend)%nat).
  { apply (f_equal length) in M6. rewrite !length_app in M6. rewrite length_app. lia. }
  destruct (crash_segs _ _ _ ch pend d' M4) as [Hseg|[_ Hseg]]; [lia|done| |].
  - exists (length (l_log (ms_life m)) - length pend)%nat, dr, ch. split; [lia|]. split; [|split; [done|split; [done|by apply boot_segs]]].
    apply (f_equal (take (length (concat dr ++ concat ch)))) in M6. rewrite app_assoc in M6. rewrite take_app_length in M6. rewrite <- M6.
    rewrite take_app. rewrite take_ge by lia. do 2 f_equal. lia.
  - exists (length (l_log (ms_life m))), dr, (ch ++ [pend]). split; [lia|]. split; [|split; [done|split; [done|]]].
    + rewrite concat_app. cbn [concat]. by rewrite app_nil_r, firstn_all, M6.
    + apply boot_segs; try done. apply Forall_app. split; [done|]. by apply list.Forall_singleton.
Qed.
End segments.
End drain.
