(* ===== verification/DrainMain.v ===== *)
(** * DrainMain: the drain commits whole segments, the companion and the log survive
    a crash together, and the mirror with the undrained tail is the live table. *)
From S2P Require Import Prelude Bytes Order Uuid Value PkMap Codec Frame Wal Journal Schema Catalog Store StoreOk StoreSim Ast Eval Plan PlanJoin PlanJoinOk Recovery Replayer RecoveryOk Commit CommitOk CommitReplay CommitMain Drain Companion Mirror MirrorOk DrainOk.

(** ** Segments are drained whole *)
Section atomic.
Context {Q : Type} `{Sqlite Q}.
Context (iter : gmap Z drainTable -> list (Z * drainTable)) (event_row : Z -> list sqlVal).

(** [k] segments above the cursor, each in one transaction with the cursor's move:
    all its records or, of a segment with unreadable bytes, those before them. The
    file goes last, if at all. *)
Inductive commits : drainer (Q := Q) -> nat -> drainer (Q := Q) -> Prop :=
  | commits_none d : commits d 0 d
  | commits_segment d f synced q1 T1 e q2 d1 k d2 :
      vis (d_disk d) !! segPath (d_last d + 1) = Some (f, synced) ->
      scanRecords (mirror_record iter) f (d_sdb d, d_tables d) = ((q1, T1), e) ->
      sq_exec q1 set_cursor [SInt (s64 (d_last d + 1))] = Some q2 ->
      (e = Ok tt /\ d_sdb d1 = q2) \/ (e = Err errWALFraming /\ d_sdb d1 = logEvent event_row q2 (d_last d + 1)) ->
      d_last d1 = d_last d + 1 -> d_tables d1 = T1 ->
      d_disk d1 = d_disk d \/ d_disk d1 = MkDisk (delete (segPath (d_last d + 1)) (vis (d_disk d))) (dur (d_disk d)) ->
      commits d1 k d2 -> commits d (S k) d2.

Lemma segment_atomic io d d' r : drainSegment iter event_row io d (d_last d + 1) = (d', r) ->
  (r = Ok tt /\ d_last d' = d_last d + 1 /\ commits d 1 d') \/
  (r <> Ok tt /\ d_sdb d' = d_sdb d /\ d_last d' = d_last d /\ d_disk d' = d_disk d).
Proof.
  unfold drainSegment. destruct (vis (d_disk d) !! segPath (d_last d + 1)) as [[f b]|] eqn:Ev; [|intros [= <- <-]; by right].
  destruct (io_open io); cbn [negb]; [|intros [= <- <-]; by right]. destruct (io_begin io); cbn [negb]; [|intros [= <- <-]; by right].
  destruct (scanRecords _ f _) as [[q1 T1] e] eqn:Es.
  assert (Hc : forall bad, (e = Ok tt /\ bad = false) \/ (e = Err errWALFraming /\ bad = true) ->
    match sq_exec q1 set_cursor [SInt (s64 (d_last d + 1))] with
    | Some q => if negb (io_commit io) then (MkDrainer (d_sdb d) T1 (d_last d) (d_disk d), Err errIO)
                else (MkDrainer (if bad then logEvent event_row q (d_last d + 1) else q) T1 (d_last d + 1)
                  (if io_remove io then MkDisk (delete (segPath (d_last d + 1)) (vis (d_disk d))) (dur (d_disk d)) else d_disk d), Ok tt)
    | None => (MkDrainer (d_sdb d) T1 (d_last d) (d_disk d), Err errIO)
    end = (d', r) ->
    (r = Ok tt /\ d_last d' = d_last d + 1 /\ commits d 1 d') \/ (r <> Ok tt /\ d_sdb d' = d_sdb d /\ d_last d' = d_last d /\ d_disk d' = d_disk d)).
  { intros bad Hbad. destruct (sq_exec q1 _ _) as [q2|] eqn:Ex; [|intros [= <- <-]; by right].
    destruct (io_commit io); cbn [negb]; intros [= <- <-]; [left|by right]. split; [done|]. split; [done|].
    econstructor; [exact Ev|exact Es|exact Ex| | | | |constructor]; cbn [d_sdb d_last d_tables d_disk]; try done.
    - destruct Hbad as [[-> ->]|[-> ->]]; [by left|by right].
    - destruct (io_remove io); [by right|by left]. }
  destruct e as [[]|e|].
  - intros E. apply (Hc false); [by left|]. exact E.
  - destruct (bool_decide_reflect (e = errWALFraming)) as [->|]; [|intros [= <- <-]; by right]. intros E. apply (Hc true); [by right|]. exact E.
  - intros [= <- <-]. by right.
Qed.
Lemma loop_atomic io l : forall d d' r, Sorted Z.le l -> drain_loop iter event_row io d l (d_last d + 1) = (d', r) ->
  exists k d1, commits d k d1 /\ d_sdb d' = d_sdb d1 /\ d_last d' = d_last d1 /\ d_disk d' = d_disk d1 /\ d_last d1 = d_last d + Z.of_nat k /\
    (r = Ok tt -> d' = d1 /\ forall n, n ∈ l -> n <= d_last d').
Proof.
  induction l as [|n l IH]; intros d d' r Hl E; cbn [drain_loop] in E.
  { injection E as <- <-. exists 0%nat, d. split; [constructor|]. split_and!; try done; [lia|]. intros _. split; [done|]. by intros n ?%elem_of_nil. }
  assert (Hl' : Sorted Z.le l) by (by inversion Hl).
  destruct (Z.ltb_spec n (d_last d + 1)).
  { destruct (IH d d' r Hl' E) as (k & d1 & Hc & H1 & H2 & H3 & H4 & H5). exists k, d1. split_and!; try done. intros Hr. destruct (H5 Hr) as [-> Ha]. split; [done|].
    intros m [->|Hm]%elem_of_cons; [lia|by apply Ha]. }
  destruct (Z.eqb_spec n (d_last d + 1)) as [->|]; cbn [negb] in E.
  2: { injection E as <- <-. exists 0%nat, d. split; [constructor|]. split_and!; try done. lia. }
  destruct (drainSegment iter event_row (io (d_last d + 1)) d (d_last d + 1)) as [d1 r1] eqn:E1.
  destruct (segment_atomic _ _ _ _ E1) as [(-> & Hlast & Hc)|(Hr & H1 & H2 & H3)].
  - rewrite <- Hlast in E. destruct (IH d1 d' r Hl' E) as (k & d2 & Hc2 & H1 & H2 & H3 & H4 & H5). exists (S k), d2.
    split; [inversion Hc as [|? ? ? ? ? ? ? ? ? ? V S X Y Z0 W D C]; subst; inversion C; subst; by econstructor|].
    split_and!; try done; [lia|]. intros Hr. destruct (H5 Hr) as [-> Ha]. split; [done|]. intros m [->|Hm]%elem_of_cons; [lia|by apply Ha].
  - assert (Er : (d', r) = (d1, r1)) by (destruct r1 as [[]| |]; done). injection Er as -> ->. exists 0%nat, d. split; [constructor|]. split_and!; try done; lia.
Qed.
End atomic.

(** C15: draining is atomic by segment. Whatever system call or statement fails, the
    committed content of the companion and its cursor are those of some number of
    whole segments after the old cursor, in order and without a gap; a segment
    that fails leaves content, cursor and files as they were; and a drain that
    succeeds has passed every sealed segment. *)
Theorem drain_atomic {Q} `{Sqlite Q} iter event_row io (d d' : drainer) r :
  drainOnce iter event_row true io d = (d', r) ->
  exists k d1, commits iter event_row d k d1 /\ d_sdb d' = d_sdb d1 /\ d_last d' = d_last d1 /\ d_disk d' = d_disk d1 /\
    d_last d1 = d_last d + Z.of_nat k /\ (r = Ok tt -> d' = d1 /\ forall n, n ∈ sealedSegments (d_disk d) -> n <= d_last d').
Proof. intros E. eapply loop_atomic; [apply listSegments_sorted|exact E]. Qed.

(** C9: for a log of data records, the companion and the log survive a crash
    together. The records, those there were and those written since, are all
    [is_data]: mutations, TXN envelopes, checkpoints, no CREATE or DROP TABLE.
    Then through any lifetime of writes, flushes and drains, with any call failing,
    and a crash at any moment: what the companion has committed and what recovery
    then replays from the log above its cursor are, together and in order, the
    records there were and a prefix of those written since - at least every sealed
    one. None is lost between the two, none is applied twice. DDL is left out
    because a drain whose COMMIT fails keeps the table map of the failed attempt:
    [drain_retry_stalls] and [retried_drop_keeps_registry_row] below show what a
    retried CREATE or DROP then does. *)
Theorem companion_survives_crash {Q S} `{Sqlite Q} iter event_row (apply : S -> Z -> bytes -> outcome S) T lo w d chunks (q : Q) evs d' s :
  (forall s t p, apply s t p <> Err errWALFraming) ->
  winv lo w d chunks [] -> w_err w = None -> Forall is_data (concat chunks) -> Forall mev_ok evs -> w_seg w + zlen evs + 1 < 2 ^ 64 ->
  let m := mrun iter event_row (MkMsys (MkLife w d [] 0) q T lo) evs in
  crash (l_disk (ms_life m)) d' ->
  exists n dr rest, (l_sealed (ms_life m) <= n <= length (l_log (ms_life m)))%nat /\
    concat dr ++ concat rest = concat chunks ++ take n (l_log (ms_life m)) /\
    drained iter T lo q dr (ms_sdb m) /\ ms_last m = lo + zlen dr /\
    let '(w', d'', r) := bootWAL apply (ms_last m) (booted d') s in
    winv (ms_last m) w' d'' rest [] /\ w_err w' = None /\
    r = (let '(s, o) := apply_records apply (concat rest) s in (s, [], o)).
Proof. apply mirror_crash. Qed.

(** C8: the mirror with the undrained tail is the live table. Take the log of any
    history of statements and commits on a table, drained up to any segment: the
    mirror's table holds the rows of that prefix, and loading them into an empty
    table and replaying the rest rebuilds the rows of the live table - or MaxBytes
    refuses them. SQLite enters by what it documents of the statements used. *)
Theorem mirror_rebuilds {J Q : Type} `{Journal J} `{Sqlite Q} pkHashSeed max ncpu sizeHint rt ext dt sq_rows `{!MirrorSqlite rt dt sq_rows} iter n t (j : J) t' w' g T lo (q : Q) :
  0 <= tableID rt < 2 ^ 16 -> zlen (t_Columns (rt_def (table rt))) < 2 ^ 16 ->
  (pkOrd (table rt) < length (t_Columns (rt_def (table rt))))%nat ->
  (forall c, t_Columns (rt_def (table rt)) !! pkOrd (table rt) = Some c -> c_Type c = TypeUUID /\ c_Nullable c = false) ->
  buildDrainTable (rt_def (table rt)) = Ok dt -> dt_pkOrd dt = pkOrd (table rt) ->
  Forall (fun c => 1 <= c_Type c <= 5) (t_Columns (rt_def (table rt))) ->
  history pkHashSeed max rt ext n t (Some j) t' w' -> tbl_ok pkHashSeed (table rt) max None ext t g -> room n t -> good_map rt g ->
  mirrors rt dt sq_rows T g (q, T) ->
  exists j' recs g', w' = Some j' /\ tbl_ok pkHashSeed (table rt) max None ext t' g' /\
    (jlog j' = jlog j ++ recs \/ (dead w' /\ exists r, jlog j' = jlog j ++ recs ++ [r])) /\
    forall chunks tail q', recs = concat chunks ++ tail -> drained iter T lo q chunks q' ->
    exists gd, mirrors rt dt sq_rows T gd (q', T) /\
      forall db o, rep pkHashSeed max rt ext (size gd + (length tail * per_record + 0)) db ∅ -> (max <> 0 -> ext <= max) ->
        sq_query q' (select_all dt) <> None -> load_table pkHashSeed max q' dt rt db = o ->
        (max <> 0 /\ o = Err ErrCapacity) \/
        exists db1, o = Ok db1 /\ replayed_to pkHashSeed max rt ext 0 (apply_records (applyReplayRecord pkHashSeed max ncpu sizeHint) tail db1) g'.
Proof.
  intros H1 H2 H3 H4 Hb Hpk Ht Hh Hok Hr Hg Hm.
  destruct (history_replay pkHashSeed max rt ext H3 H4 (R := map_replayer rt max ext H1 H2 H3 H4) n t (Some j) t' w' Hh j g g eq_refl Hok Hr Hg eq_refl)
    as (j' & recs & g' & g2 & -> & Hok' & Ha & Eg & Hl). cbn in Eg. subst g2. exists j', recs, g'. split; [done|]. split; [done|]. split; [done|].
  intros chunks tail q' -> Hd. destruct (recovered pkHashSeed max ncpu sizeHint rt ext H3 H4 dt sq_rows iter Hb Hpk Ht 0 T lo q q' g g' chunks tail) as (gd & Hm' & Hrec); [done..|].
  exists gd. split; [done|]. intros db o. by apply Hrec.
Qed.

(** ** A SQLite for the users table

    Just enough of an engine to run the mirror's statements: it reads the SET list
    of an UPDATE back from its text. *)
Definition users_dt : drainTable :=
  match buildDrainTable users_def with Ok dt => dt | _ => MkDrainTable [] users_def [] 0 [] [] end.
Record toy : Type := MkToy { ty_rows : gmap UUID (list sqlVal); ty_cursor : list sqlVal }.

Definition set_piece (o : nat) : bytes := quoteIdent (col_name users_tab o) ++ lit " = ?".
Definition parse_piece (text : bytes) : option (nat * bytes) :=
  match List.find (fun o => has_prefix text (set_piece o)) [0; 1; 2]%nat with
  | Some o => Some (o, drop (length (set_piece o)) text)
  | None => None
  end.
Fixpoint parse_sets (fuel : nat) (text : bytes) : option (list nat * bytes) :=
  match fuel with
  | O => None
  | S fuel =>
      match parse_piece text with
      | None => None
      | Some (o, rest) =>
          if has_prefix rest (lit ", ")
          then match parse_sets fuel (drop 2 rest) with Some (ords, rest) => Some (o :: ords, rest) | None => None end
          else Some ([o], rest)
      end
  end.
Definition update_head : bytes := lit "UPDATE " ++ quoteIdent (lit "users") ++ lit " SET ".
Definition update_tail : bytes := lit " WHERE " ++ quoteIdent (lit "id") ++ lit " = ?".
Definition key_of (args : list sqlVal) (i : nat) : option UUID :=
  match args !! i with Some (SBlob b) => Some (uuid_of b) | _ => None end.
Definition toy_exec (q : toy) (text : bytes) (args : list sqlVal) : option toy :=
  if has_prefix text update_head then
    match parse_sets (length text) (drop (length update_head) text) with
    | Some (ords, rest) =>
        if bool_decide (rest = update_tail) then
          match key_of args (length ords) with
          | Some k => Some (MkToy (match ty_rows q !! k with
                                   | Some r => <[k := set_args r ords (take (length ords) args)]> (ty_rows q)
                                   | None => ty_rows q
                                   end) (ty_cursor q))
          | None => None
          end
        else None
    | None => None
    end
  else if bool_decide (text = dt_insertSQL users_dt) then
    match key_of args 0 with Some k => Some (MkToy (<[k := args]> (ty_rows q)) (ty_cursor q)) | None => None end
  else if bool_decide (text = dt_deleteSQL users_dt) then
    match key_of args 0 with Some k => Some (MkToy (delete k (ty_rows q)) (ty_cursor q)) | None => None end
  else if bool_decide (text = set_cursor) then Some (MkToy (ty_rows q) args)
  else Some q.
#[local] Instance toy_sqlite : Sqlite toy := {|
  sq_exec := toy_exec;
  sq_query q text := if bool_decide (text = select_all users_dt) then Some ((map_to_list (ty_rows q)).*2) else Some [];
|}.

Lemma prefix_same p x : has_prefix (p ++ x) p = true.
Proof. apply has_prefix_spec. by exists x. Qed.
Lemma parse_piece_ok o x : (o < 3)%nat -> parse_piece (set_piece o ++ x) = Some (o, x).
Proof.
  intros Ho. unfold parse_piece.
  assert (E : List.find (fun i => has_prefix (set_piece o ++ x) (set_piece i)) [0; 1; 2]%nat = Some o).
  { destruct o as [|[|[|o]]]; [..|lia]; cbn [List.find].
    - by rewrite prefix_same.
    - change (has_prefix (set_piece 1 ++ x) (set_piece 0)) with false. by rewrite prefix_same.
    - change (has_prefix (set_piece 2 ++ x) (set_piece 0)) with false. change (has_prefix (set_piece 2 ++ x) (set_piece 1)) with false.
      by rewrite prefix_same. }
  rewrite E. by rewrite drop_app_length.
Qed.
Lemma parse_sets_ok ords : forall fuel, (length ords <= fuel)%nat -> ords <> [] -> Forall (fun o => (o < 3)%nat) ords ->
  parse_sets fuel (set_text users_tab ords ++ update_tail) = Some (ords, update_tail).
Proof.
  induction ords as [|o ords IH]; intros fuel Hf Hne Ho; [done|]. apply list.Forall_cons in Ho as [Ho Hos].
  destruct fuel as [|fuel]; cbn [length] in Hf; [lia|]. cbn [parse_sets]. destruct ords as [|o' ords].
  - change (set_text users_tab [o]) with (set_piece o). rewrite parse_piece_ok by done. reflexivity.
  - change (set_text users_tab (o :: o' :: ords)) with (set_piece o ++ lit ", " ++ set_text users_tab (o' :: ords)).
    rewrite <- !app_assoc. rewrite parse_piece_ok by done.
    rewrite prefix_same.
    change (drop 2 (lit ", " ++ set_text users_tab (o' :: ords) ++ update_tail)) with (set_text users_tab (o' :: ords) ++ update_tail).
    rewrite IH; [done|cbn [length] in *; lia|done|done].
Qed.
Lemma parse_no_sets fuel : parse_sets fuel update_tail = None.
Proof. by destruct fuel. Qed.
Lemma update_text_users ords : update_text users_tab users_dt ords = update_head ++ set_text users_tab ords ++ update_tail.
Proof. reflexivity. Qed.
#[local] Instance toy_mirror : MirrorSqlite users_tab users_dt (fun q => Some (ty_rows q)).
Proof.
  split.
  - intros q q' m k args [= <-] _ Hk. cbn [sq_exec toy_sqlite]. unfold toy_exec.
    change (has_prefix (dt_insertSQL users_dt) update_head) with false. rewrite bool_decide_eq_true_2 by done. cbv iota.
    change (dt_pkOrd users_dt) with 0%nat in Hk. unfold key_of. rewrite Hk, uuid_of_ubytes. by intros [= <-].
  - intros q q' m k ords vals [= <-] Hv _. cbn [sq_exec toy_sqlite]. unfold toy_exec. rewrite update_text_users.
    rewrite prefix_same.
    rewrite drop_app_length. assert (Ho : Forall (fun o => (o < 3)%nat) ords).
    { clear -Hv. induction Hv as [|o v ords vals (c & Hc & _) Hv IH]; constructor; [|done]. apply lookup_lt_Some in Hc. exact Hc. }
    destruct (decide (ords = [])) as [->|Hne]; [cbn [set_text map join_with app]; by rewrite parse_no_sets|].
    rewrite parse_sets_ok; [|rewrite !length_app; assert (length ords <= length (set_text users_tab ords))%nat; [|lia]|done|done].
    2: { clear -Ho. induction Ho as [|o ords Hlt Ho IH]; [done|]. destruct ords as [|o' ords].
         - pose proof (set_text_pos users_tab o []) as H. unfold zlen in H. cbn [length]. lia.
         - change (set_text users_tab (o :: o' :: ords)) with (set_piece o ++ lit ", " ++ set_text users_tab (o' :: ords)).
           rewrite !length_app. cbn [length] in *. change (length (lit ", ")) with 2%nat. lia. }
    rewrite bool_decide_eq_true_2 by done. pose proof (Forall2_length Hv) as El. unfold key_of.
    rewrite lookup_app_r by lia. rewrite El, Nat.sub_diag. cbn [lookup list_lookup]. rewrite uuid_of_ubytes.
    rewrite take_app_length. intros [= <-]. split; [done|]. done.
  - intros q q' m k [= <-]. cbn [sq_exec toy_sqlite]. unfold toy_exec.
    change (has_prefix (dt_deleteSQL users_dt) update_head) with false. cbv iota.
    change (bool_decide (dt_deleteSQL users_dt = dt_insertSQL users_dt)) with false. rewrite bool_decide_eq_true_2 by done. cbv iota.
    unfold key_of. cbn [lookup list_lookup]. rewrite uuid_of_ubytes. by intros [= <-].
  - intros q q' m text args [= <-] [-> | ->]; cbn [sq_exec toy_sqlite]; unfold toy_exec.
    + change (has_prefix set_cursor update_head) with false. change (bool_decide (set_cursor = dt_insertSQL users_dt)) with false.
      change (bool_decide (set_cursor = dt_deleteSQL users_dt)) with false. rewrite bool_decide_eq_true_2 by done. cbv iota. by intros [= <-].
    + change (has_prefix insert_event update_head) with false. change (bool_decide (insert_event = dt_insertSQL users_dt)) with false.
      change (bool_decide (insert_event = dt_deleteSQL users_dt)) with false. change (bool_decide (insert_event = set_cursor)) with false. cbv iota. by intros [= <-].
  - intros q m l [= <-]. cbn [sq_query toy_sqlite]. rewrite bool_decide_eq_true_2 by done. by intros [= <-].
Qed.

(** ** The theorems on it *)
Definition by_id (m : gmap Z drainTable) : list (Z * drainTable) := map_to_list m.
Definition no_event (n : Z) : list sqlVal := [SInt 0; SText (lit "error"); SText (lit "wal-corruption"); SText []].
Definition users_mirror : gmap Z drainTable := {[0 := users_dt]}.
Definition toy0 : toy := MkToy ∅ [].
Definition ada_inserted : Z * bytes := (recMutation, encodeInsertMutation [] 0 (ada 36 (lit "ada"))).
Definition one_segment : drainer (Q := toy) := MkDrainer toy0 users_mirror 0 (booted {[segPath 1 := frames [ada_inserted]]}).

Lemma drain_atomic_witness : exists d' k d1, drainOnce by_id no_event true (fun _ => io_ok) one_segment = (d', Ok tt) /\
  commits by_id no_event one_segment k d1 /\ d_last d' = 0 + Z.of_nat k /\ d_last d' = 1.
Proof.
  destruct (drainOnce by_id no_event true (fun _ => io_ok) one_segment) as [d' r] eqn:E.
  assert (Er : r = Ok tt).
  { assert (X : snd (drainOnce by_id no_event true (fun _ => io_ok) one_segment) = Ok tt) by (vm_compute; reflexivity). by rewrite E in X. }
  assert (El : d_last d' = 1).
  { assert (X : d_last (fst (drainOnce by_id no_event true (fun _ => io_ok) one_segment)) = 1) by (vm_compute; reflexivity). by rewrite E in X. }
  destruct (drain_atomic by_id no_event (fun _ => io_ok) one_segment d' r E) as (k & d1 & Hc & _ & H2 & _ & H4 & _).
  exists d', k, d1. split; [by rewrite Er|]. split; [exact Hc|]. split; [|exact El]. rewrite H2. exact H4.
Defined.

Definition log_events : list mev :=
  [MWal (EvWrite None recMutation (snd ada_inserted)); MWal (EvFlush None); MDrain (fun _ => io_ok);
   MWal (EvWrite None recMutation (encodeDeleteMutation [] 0 (UUIDVal ada_id)))].
Definition log_end : msys (Q := toy) := mrun by_id no_event (MkMsys (MkLife (MkWal [] 0 0 None false) (booted ∅) [] 0) toy0 users_mirror 0) log_events.
Lemma companion_survives_crash_witness : exists n dr rest, (1 <= n <= 2)%nat /\
  concat dr ++ concat rest = take n (l_log (ms_life log_end)) /\
  drained by_id users_mirror 0 toy0 dr (ms_sdb log_end) /\ ms_last log_end = zlen dr /\ ms_last log_end = 1.
Proof.
  destruct (companion_survives_crash by_id no_event log_record users_mirror 0 (MkWal [] 0 0 None false) (booted ∅) [] toy0 log_events
    (fst <$> vis (l_disk (ms_life log_end))) []) as (n & dr & rest & Hn & Hc & Hd & Hl & _).
  - done.
  - exact winv_fresh.
  - done.
  - constructor.
  - assert (Hr : forall p, zlen p < 2 ^ 32 -> mev_ok (MWal (EvWrite None recMutation p))) by (intros p Hp; split; [split; [by vm_compute|done]|by split]).
    apply Forall_cons_2; [apply Hr; by vm_compute|]. do 2 (apply Forall_cons_2; [done|]). apply Forall_cons_2; [apply Hr; by vm_compute|constructor].
  - by vm_compute.
  - apply crash_visible.
  - exists n, dr, rest. assert (E1 : l_sealed (ms_life log_end) = 1%nat) by (vm_compute; reflexivity).
    assert (E2 : length (l_log (ms_life log_end)) = 2%nat) by (vm_compute; reflexivity). fold log_end in Hn. rewrite E1, E2 in Hn. split; [exact Hn|]. split; [exact Hc|]. split; [exact Hd|]. split; [exact Hl|].
    vm_compute. reflexivity.
Defined.

Lemma users_empty : mirrors users_tab users_dt (fun q : toy => Some (ty_rows q)) users_mirror ∅ (toy0, users_mirror).
Proof. split; [done|]. split; [apply lookup_singleton_eq|]. split; [apply map_Forall_empty|]. unfold args_of. by rewrite fmap_empty. Qed.
(** An insert: its history, and its log drained. *)
Lemma ada_history : exists t1, history 0 1000 users_tab 0 1 t0 (Some ([] : list (Z * bytes))) t1 (Some [ada_inserted]).
Proof.
  set (op := OInsert (ada 36 (lit "ada")) users_mj).
  assert (Hop : op_wf users_rt op) by (by apply ada_wf).
  destruct (sim_step 0 users_rt 1000 None 0 ltac:(vm_compute; lia) t0 ∅ (Some ([] : list (Z * bytes))) op 0) as (t1 & g1 & w1 & a1 & E1 & S1 & _ & _);
    [apply t0_ok|apply (room_mono users_rt 9); [lia|apply t0_ok]|done|].
  assert (X : match run_op 0 users_rt 1000 t0 (Some ([] : list (Z * bytes))) op with Ok (_, w, _) => w | _ => None end = Some [ada_inserted]) by (vm_compute; reflexivity).
  rewrite E1 in X. subst w1. exists t1. eapply h_op; [exact Hop|split; [by apply ada_good|reflexivity]| |exact E1|apply h_nil].
  inversion S1; subst; cbn; try lia; by destruct e.
Qed.
Lemma ada_drained : exists q', drained by_id users_mirror 0 toy0 [[ada_inserted]] q' /\ size (ty_rows q') = 1%nat.
Proof.
  destruct (apply_records (mirror_record by_id) [ada_inserted] (toy0, users_mirror)) as [[q1 T1] o] eqn:Ea.
  assert (Eo : o = Ok tt).
  { assert (X : snd (apply_records (mirror_record by_id) [ada_inserted] (toy0, users_mirror)) = Ok tt) by (vm_compute; reflexivity). by rewrite Ea in X. }
  assert (ET : T1 = users_mirror).
  { apply (records_tables by_id [ada_inserted] (toy0, users_mirror) (q1, T1) o); [|exact Ea]. apply list.Forall_singleton. by split. }
  assert (Esz : size (ty_rows q1) = 1%nat).
  { assert (X : size (ty_rows (fst (fst (apply_records (mirror_record by_id) [ada_inserted] (toy0, users_mirror))))) = 1%nat) by (vm_compute; reflexivity).
    by rewrite Ea in X. }
  subst o T1. exists (MkToy (ty_rows q1) [SInt (s64 (0 + 1))]). split; [|done]. exists q1, (MkToy (ty_rows q1) [SInt (s64 (0 + 1))]).
  split; [exact Ea|]. split; [|done]. cbn [sq_exec toy_sqlite]. unfold toy_exec.
  change (has_prefix set_cursor update_head) with false. change (bool_decide (set_cursor = dt_insertSQL users_dt)) with false.
  change (bool_decide (set_cursor = dt_deleteSQL users_dt)) with false. by rewrite bool_decide_eq_true_2 by done.
Qed.
(** Drained, then loaded back. *)
Lemma mirror_rebuilds_witness : exists t' g' q',
  history 0 1000 users_tab 0 1 t0 (Some ([] : list (Z * bytes))) t' (Some [ada_inserted]) /\ tbl_ok 0 users_rt 1000 None 0 t' g' /\
  drained by_id users_mirror 0 toy0 [[ada_inserted]] q' /\
  (load_table 0 1000 q' users_dt users_tab db0 = Err ErrCapacity \/
   exists db1, load_table 0 1000 q' users_dt users_tab db0 = Ok db1 /\ replayed_to 0 1000 users_tab 0 0 (db1, Ok tt) g').
Proof.
  destruct ada_history as [t1 Hh]. destruct ada_drained as (q' & Hd & Hsz).
  destruct (mirror_rebuilds (J := list (Z * bytes)) 0 1000 1 0 users_tab 0 users_dt (fun q : toy => Some (ty_rows q)) by_id 1 t0 [] t1 (Some [ada_inserted]) ∅ users_mirror 0 toy0)
    as (j' & recs & g' & [= <-] & Hok' & Hl & Hrec).
  - vm_compute; split; congruence.
  - vm_compute; congruence.
  - vm_compute; lia.
  - exact users_pk_uuid.
  - vm_compute; reflexivity.
  - vm_compute; reflexivity.
  - repeat (apply Forall_cons_2; [vm_compute; split; congruence|]). constructor.
  - exact Hh.
  - apply t0_ok.
  - apply (room_mono users_rt 9); [lia|apply t0_ok].
  - apply map_Forall_empty.
  - exact users_empty.
  - assert (Er : recs = [ada_inserted]).
    { destruct Hl as [Hl|[(j & e & [= <-] & He) _]]; [exact (eq_sym Hl)|]. by specialize (He 0 []). }
    subst recs. destruct (Hrec [[ada_inserted]] [] q' eq_refl Hd) as (gd & (_ & _ & _ & Hrows) & Hload).
    assert (Egd : size gd = 1%nat).
    { injection Hrows as Hrows. cbn [fst] in Hrows. rewrite Hrows in Hsz. unfold args_of in Hsz. by rewrite map_size_fmap in Hsz. }
    exists t1, g', q'. split; [exact Hh|]. split; [exact Hok'|]. split; [exact Hd|].
    destruct (Hload db0 (load_table 0 1000 q' users_dt users_tab db0)) as [[_ Hc]|(db1 & E & Hdb)].
    + rewrite Egd. apply db0_rep. cbn [length]. lia.
    + intros _. lia.
    + cbn [sq_query toy_sqlite]. by rewrite bool_decide_eq_true_2 by done.
    + done.
    + left. exact Hc.
    + right. exists db1. split; [exact E|exact Hdb].
Defined.

(** ** A table map that outlives its transaction

    [register] and [dropTable] change [m.tables] while their transaction is open, and
    a rollback does not restore it. *)
#[local] Instance statement_log : Sqlite (list (bytes * list sqlVal)) := {|
  sq_exec q text args := Some (q ++ [(text, args)]);
  sq_query q text := Some [];
|}.
Definition users_dropped : Z * bytes := (recDropTable, encodeDropTable [] (lit "users")).
Definition drop_segment (recs : list (Z * bytes)) : drainer (Q := list (bytes * list sqlVal)) :=
  MkDrainer [] users_mirror 0 (booted {[segPath 1 := frames recs]}).
Definition commit_fails (n : Z) : seg_io := MkIo true true false true.
Definition drain_twice (recs : list (Z * bytes)) : drainer (Q := list (bytes * list sqlVal)) * outcome unit :=
  drainOnce by_id no_event true (fun _ => io_ok) (fst (drainOnce by_id no_event true commit_fails (drop_segment recs))).

(** A segment with an insert and then the DROP of its table drains; but if its COMMIT
    fails once, the retry meets the insert with the table forgotten and reports
    corruption, and so does every retry until a restart rebuilds the map. *)
Example drain_retry_stalls :
  snd (drainOnce by_id no_event true (fun _ => io_ok) (drop_segment [ada_inserted; users_dropped])) = Ok tt /\
  snd (drain_twice [ada_inserted; users_dropped]) = Err ErrWALCorrupt /\
  snd (drainOnce by_id no_event true (fun _ => io_ok) (fst (drain_twice [ada_inserted; users_dropped]))) = Err ErrWALCorrupt.
Proof. vm_compute. split; [reflexivity|split; reflexivity]. Qed.
(** With the DROP alone the retry succeeds, without removing the table from the
    registry: the next Open believes the table is there. *)
Example retried_drop_keeps_registry_row :
  map fst (d_sdb (fst (drainOnce by_id no_event true (fun _ => io_ok) (drop_segment [users_dropped])))) =
    [lit "DROP TABLE IF EXISTS " ++ quoteIdent (lit "users"); lit "DELETE FROM _hz_tables WHERE table_id = ?"; set_cursor] /\
  snd (drain_twice [users_dropped]) = Ok tt /\
  map fst (d_sdb (fst (drain_twice [users_dropped]))) = [lit "DROP TABLE IF EXISTS " ++ quoteIdent (lit "users"); set_cursor].
Proof. vm_compute. split; [reflexivity|split; reflexivity]. Qed.
