(* ===== verification/DbExec.v ===== *)
(** * DbExec: the write entry points of db_exec.go and stmt.go, from SQL text and
    arguments to the tables, the registry and the log.

    [wdb] is the database a caller holds. The storage of a dropped table stays:
    a plan made before the drop still points to it. *)
From S2P Require Import Prelude Bytes Order Uuid Value CompositeKey PkMap Codec Frame Journal Schema Catalog SecIndex Store Merge Ast Lexer Eval Filter TopN Plan PlanJoin Recovery Select Query Commit Exec.

Section db.
Context (pkHashSeed : Z) {J : Type} `{Journal J} (newUUID : nat -> UUID) (max ncpu sizeHint : Z).
Context (stack : nat) (mapLower : bytes -> bytes) (live : tableRT -> Z).

Record wdb : Type := MkWdb {
  wd_closed : bool;
  wd_db : rdb;
  wd_ixs : gmap Z (list secIndex);
  wd_cache : gmap bytes plan;
  wd_wal : option J;
  wd_ids : nat;      (* identifiers NewUUIDv7 has handed out *)
}.
Definition wd_cat (db : wdb) : catalog := r_cat (wd_db db).
Definition wd_with (db : wdb) (r : rdb) (w : option J) (ids : nat) : wdb :=
  MkWdb (wd_closed db) r (wd_ixs db) (wd_cache db) w ids.
Definition wd_with_cache (db : wdb) (cache : gmap bytes plan) : wdb :=
  MkWdb (wd_closed db) (wd_db db) (wd_ixs db) cache (wd_wal db) (wd_ids db).
Definition wd_ixs_of (db : wdb) (rt : tableRT) : list secIndex := default [] (wd_ixs db !! tableID rt).

(** A statement on its table; the table's storage carries the shared total. *)
Definition on_table (db : wdb) (rt : tableRT)
    (k : tbl_state -> option J -> outcome (tbl_state * option J * nat * (Z * option error))) : wdb * outcome Z :=
  match (t ← get_tab (wd_db db) (tableID rt); k t (wd_wal db)) with
  | Ok (t, w, ids, (n, e)) =>
      (wd_with db (put_tab (wd_db db) (tableID rt) t) w ids, match e with None => Ok n | Some e => Err e end)
  | Err e => (db, Err e)
  | Panic => (db, Panic)
  end.
Definition same_ids (ids : nat) (o : outcome (tbl_state * option J * (Z * option error)))
  : outcome (tbl_state * option J * nat * (Z * option error)) :=
  x ← o; let '(t, w, r) := x in Ok (t, w, ids, r).

(** A new table has empty indexes. *)
Definition exec_create (db : wdb) (td : TableDef) : wdb * outcome Z :=
  match db_create ncpu sizeHint (wd_db db) (wd_wal db) td with
  | Ok (r, w, Ok _) =>
      let ixs := match byName (r_cat r) !! t_Name td with
                 | Some rt => <[tableID rt := map (fun ri => newSecIndex (ri_ordinals ri) (ri_ordered ri)) (rt_indexes (table rt))]> (wd_ixs db)
                 | None => wd_ixs db
                 end in
      (MkWdb (wd_closed db) r ixs (wd_cache db) w (wd_ids db), Ok 0)
  | Ok (r, w, Err e) => (wd_with db r w (wd_ids db), Err e)
  | Ok (_, _, Panic) => (db, Panic)
  | Err e => (db, Err e)
  | Panic => (db, Panic)
  end.
Definition exec_drop (db : wdb) (name : bytes) : wdb * outcome Z :=
  let '(r, w, e) := db_drop (wd_db db) (wd_wal db) name in
  (wd_with db (MkRdb (r_cat r) (r_tabs (wd_db db)) (r_total r)) w (wd_ids db),
   match e with Ok _ => Ok 0 | Err e => Err e | Panic => Panic end).

Definition execWrite (db : wdb) (pl : plan) (vargs : list Value) : wdb * outcome Z :=
  match (_ ← checkArgs pl (zlen vargs); coerceParams (pl_paramWantUUID pl) vargs) with
  | Err e => (db, Err e)
  | Panic => (db, Panic)
  | Ok vargs =>
      match pl_st pl, pl_rt pl with
      | SCreate td, _ => exec_create db td
      | SDrop name, _ => exec_drop db name
      | SInsert _ _ _, Some rt =>
          on_table db rt (fun t w => execInsert pkHashSeed newUUID max (table rt) (tableID rt) pl (wd_closed db)
            (still_registered (wd_cat db) rt) (wd_ids db) t w vargs)
      | SUpdate _ sets w_, Some rt =>
          on_table db rt (fun t w => same_ids (wd_ids db)
            (execUpdate pkHashSeed max (table rt) (tableID rt) pl (wd_ixs_of db rt) t w sets w_ vargs))
      | SDelete _ w_, Some rt =>
          on_table db rt (fun t w => same_ids (wd_ids db)
            (execDelete pkHashSeed max (table rt) (tableID rt) pl (wd_ixs_of db rt) t w w_ vargs))
      | SSelect _, _ => (db, Err errUsage)
      | _, None => (db, Panic)
      end
  end.
Definition execPlan (db : wdb) (pl : plan) (args : list goAny) : wdb * outcome Z :=
  match toValues args with
  | Ok vargs => execWrite db pl vargs
  | Err e => (db, Err e)
  | Panic => (db, Panic)
  end.
Definition execPlanValues (db : wdb) (pl : plan) (args : list Value) : wdb * outcome Z :=
  execWrite db pl (map cloneValue args).

(** prepare on a catalog, the cache kept. *)
Definition wd_prepare (db : wdb) (sql : bytes) (cat : catalog) : wdb * outcome plan :=
  match prepare stack mapLower live (wd_closed db) sql cat (wd_cache db) with
  | Ok (pl, cache) => (wd_with_cache db cache, Ok pl)
  | Err e => (db, Err e)
  | Panic => (db, Panic)
  end.
Definition and_then {A} (x : wdb * outcome plan) (k : wdb -> plan -> wdb * outcome A) : wdb * outcome A :=
  match x with
  | (db, Ok pl) => k db pl
  | (db, Err e) => (db, Err e)
  | (db, Panic) => (db, Panic)
  end.
Definition Exec (db : wdb) (sql : bytes) (args : list goAny) : wdb * outcome Z :=
  and_then (wd_prepare db sql (wd_cat db)) (fun db pl => execPlan db pl args).
Definition ExecValues (db : wdb) (sql : bytes) (args : list Value) : wdb * outcome Z :=
  and_then (wd_prepare db sql (wd_cat db)) (fun db pl => execPlanValues db pl args).
(** The write half of a prepared statement. *)
Definition wd_bound (db : wdb) (s : Stmt) : wdb * outcome plan :=
  if wd_closed db then (db, Err ErrClosed)
  else if pl_catVersion (sm_pl s) =? version (wd_cat db) then (db, Ok (sm_pl s))
  else wd_prepare db (sm_sql s) (wd_cat db).
Definition Stmt_Exec (db : wdb) (s : Stmt) (args : list goAny) : wdb * outcome Z :=
  and_then (wd_bound db s) (fun db pl => execPlan db pl args).

(** ** Scripts: the text between top-level semicolons, statement by statement *)
Definition run_script (db : wdb) (script : bytes) (start end_ total : Z) : wdb * (Z * outcome unit) :=
  match slice_o script start end_ with
  | Ok piece =>
      let s := TrimSpace piece in
      if bool_decide (s = []) then (db, (total, Ok tt))
      else match prepareTrusted stack mapLower live s (wd_cat db) with
      | Ok pl =>
          match execPlanValues db pl [] with
          | (db, Ok n) => (db, (total + n, Ok tt))
          | (db, Err e) => (db, (total, Err e))
          | (db, Panic) => (db, (total, Panic))
          end
      | Err e => (db, (total, Err e))
      | Panic => (db, (total, Panic))
      end
  | Err e => (db, (total, Err e))
  | Panic => (db, (total, Panic))
  end.
Fixpoint script_loop (db : wdb) (script : bytes) (toks : list token) (start total : Z) : wdb * (Z * outcome unit) :=
  match toks with
  | [] => run_script db script start (zlen script) total
  | t :: toks =>
      if bool_decide (tok_kind t = tkSemi) then
        match run_script db script start (tok_pos t) total with
        | (db, (total, Ok _)) => script_loop db script toks (tok_pos t + 1) total
        | r => r
        end
      else script_loop db script toks start total
  end.
Definition ExecScript (db : wdb) (script : bytes) : wdb * (Z * outcome unit) :=
  if wd_closed db then (db, (0, Err ErrClosed))
  else match tokenize mapLower script with
  | Ok toks => script_loop db script toks 0 0
  | Err e => (db, (0, Err e))
  | Panic => (db, (0, Panic))
  end.
End db.
