(* ===== verification/Txn.v ===== *)
(** * Txn: transactions (txn.go): staging statements and the closure that issues
    them. The commit is [Commit]. *)
From S2P Require Import Prelude Bytes Order Uuid Value CompositeKey PkMap Codec Frame Journal Schema Catalog SecIndex Store Merge Ast Eval Filter TopN Plan PlanJoin Recovery Select Query Commit Exec DbExec.

(** The catalog snapshot of the transaction is an argument of its methods. *)
Record Tx : Type := MkTx {
  tx_rt : option tableRT;
  tx_staged : list stagedMut;
  tx_err : option error;
}.
Definition tx_new : Tx := MkTx None [] None.
Definition tx_poison (tx : Tx) (e : error) : Tx := MkTx (tx_rt tx) (tx_staged tx) (Some e).

Definition resolvePK (pl : plan) (args : list Value) : outcome UUID :=
  v ← evalExpr (pkSource (pl_access pl)) (MkCtx [] ∅ args);
  if IsNull v then Err ErrTxUnsupported else coerceToUUID v.

Section txn.
Context (pkHashSeed : Z) {J : Type} `{Journal J} (newUUID : nat -> UUID) (max : Z).
Context (stack : nat) (mapLower : bytes -> bytes) (live : tableRT -> Z).
Local Abbreviation wdb := (wdb (J := J)).
Local Abbreviation wd_prepare := (wd_prepare stack mapLower live).

Definition stage (cat : catalog) (db : wdb) (tx : Tx) (sql : bytes) (args : list goAny) : wdb * Tx * outcome Z :=
  match wd_prepare db sql cat with
  | (db, Err e) => (db, tx, Err e)
  | (db, Panic) => (db, tx, Panic)
  | (db, Ok pl) =>
      match pl_st pl with
      | SSelect _ | SCreate _ | SDrop _ => (db, tx, Err ErrTxUnsupported)
      | st =>
          match pl_rt pl with
          | None => (db, tx, Panic)
          | Some rt =>
              let other := match tx_rt tx with None => false | Some r => negb (tableID r =? tableID rt) end in
              if other then (db, tx, Err ErrTxUnsupported)
              else
                let tx := MkTx (Some (default rt (tx_rt tx))) (tx_staged tx) (tx_err tx) in
                match (vargs ← toValues args; _ ← checkArgs pl (zlen vargs); Ok vargs) with
                | Err e => (db, tx, Err e)
                | Panic => (db, tx, Panic)
                | Ok vargs =>
                    let pinned (k : UUID -> stagedMut) :=
                      if negb (pkLookup (pl_access pl)) then (db, tx, Err ErrTxUnsupported)
                      else match resolvePK pl vargs with
                      | Ok pk => (db, MkTx (tx_rt tx) (tx_staged tx ++ [k pk]) (tx_err tx), Ok 1)
                      | Err e => (db, tx, Err e)
                      | Panic => (db, tx, Panic)
                      end in
                    match st with
                    | SInsert _ _ _ =>
                        let '(ids, ms) := stage_rows newUUID (table rt) (wd_ids db) (pl_insertTmpl pl) vargs in
                        let db := wd_with db (wd_db db) (wd_wal db) ids in
                        match ms with
                        | Ok ms => (db, MkTx (tx_rt tx) (tx_staged tx ++ ms) (tx_err tx), Ok (zlen (pl_insertTmpl pl)))
                        | Err e => (db, tx, Err e)   (* the rows before the failing one never commit *)
                        | Panic => (db, tx, Panic)
                        end
                    | SUpdate _ _ _ => pinned (fun pk => st_update pk pl vargs)
                    | _ => pinned st_delete
                    end
                end
          end
      end
  end.
(** The first error poisons the transaction. *)
Definition tx_Exec (cat : catalog) (db : wdb) (tx : Tx) (sql : bytes) (args : list goAny) : wdb * Tx * outcome Z :=
  match tx_err tx with
  | Some e => (db, tx, Err e)
  | None =>
      match stage cat db tx sql args with
      | (db, tx, Err e) => (db, tx_poison tx e, Err e)
      | r => r
      end
  end.

(** The closure: what it issues may depend on what it was answered. *)
Inductive txn_fn : Type :=
  | fn_return (cerr : option error)
  | fn_exec (sql : bytes) (args : list goAny) (k : outcome Z -> txn_fn).
(** A panic in a call leaves the closure and the transaction. *)
Fixpoint run_fn (cat : catalog) (db : wdb) (tx : Tx) (fn : txn_fn) : wdb * Tx * outcome (option error) :=
  match fn with
  | fn_return cerr => (db, tx, Ok cerr)
  | fn_exec sql args k =>
      match tx_Exec cat db tx sql args with
      | (db, tx, Panic) => (db, tx, Panic)
      | (db, tx, o) => run_fn cat db tx (k o)
      end
  end.
(** The closure has no way to change the registry; [between] is what others did
    to the database while it ran. *)
Definition tx_commit (db : wdb) (tx : Tx) : wdb * outcome unit :=
  match tx_rt tx with
  | None => (db, Ok tt)          (* nothing was staged *)
  | Some rt =>
      match (t ← get_tab (wd_db db) (tableID rt);
             commit pkHashSeed (table rt) max (tableID rt) (wd_closed db) (still_registered (wd_cat db) rt) t (wd_wal db) (tx_staged tx) false) with
      | Ok (t, w, e) => (wd_with db (put_tab (wd_db db) (tableID rt) t) w (wd_ids db), match e with None => Ok tt | Some e => Err e end)
      | Err e => (db, Err e)
      | Panic => (db, Panic)
      end
  end.
Definition Transaction (between : wdb -> wdb) (db : wdb) (fn : txn_fn) : wdb * outcome unit :=
  if wd_closed db then (db, Err ErrClosed)
  else
    match run_fn (wd_cat db) db tx_new fn with
    | (db, _, Panic) => (db, Panic)
    | (db, _, Err e) => (db, Err e)
    | (db, tx, Ok cerr) =>
        match tx_err tx, cerr with
        | Some e, _ => (db, Err e)
        | None, Some e => (db, Err e)
        | None, None => tx_commit (between db) tx
        end
    end.
End txn.
