(* ===== verification/TxnOk.v ===== *)
(** * TxnOk: a transaction that does not commit leaves no trace. *)
From S2P Require Import Prelude Bytes Order Uuid Value CompositeKey PkMap Codec Frame Journal Schema Catalog SecIndex Store StoreOk StoreSim Merge Ast Lexer Eval Filter TopN Plan PlanJoin Recovery Replayer RecoveryOk Select Query Commit CommitOk Exec DbExec Txn.

Section txn.
Context (pkHashSeed : Z) {J : Type} `{Journal J} (newUUID : nat -> UUID) (max : Z).
Context (stack : nat) (mapLower : bytes -> bytes) (live : tableRT -> Z).
Local Abbreviation wdb := (wdb (J := J)).
Local Abbreviation stage := (stage newUUID stack mapLower live).
Local Abbreviation tx_Exec := (tx_Exec newUUID stack mapLower live).
Local Abbreviation run_fn := (run_fn newUUID stack mapLower live).
Local Abbreviation Transaction := (Transaction pkHashSeed newUUID max stack mapLower live).

(** Tables, registry, indexes and log; the statement cache and the identifiers
    handed out are the caller's to spend. *)
Definition same_store (db db' : wdb) : Prop :=
  wd_closed db' = wd_closed db /\ wd_db db' = wd_db db /\ wd_ixs db' = wd_ixs db /\ wd_wal db' = wd_wal db.
#[local] Instance same_store_preorder : PreOrder same_store.
Proof. split; [by intros db|]. intros a b c (A1 & A2 & A3 & A4) (B1 & B2 & B3 & B4). split_and!; congruence. Qed.
Lemma prepare_keeps db sql cat : same_store db (fst (wd_prepare stack mapLower live db sql cat)).
Proof. unfold wd_prepare. destruct (prepare _ _ _ _ _ _ _) as [[pl cache]| |]; done. Qed.
(** What staging may add: statements at the end of the group, and the table. *)
Definition grows (tx tx' : Tx) : Prop := (exists ms, tx_staged tx' = tx_staged tx ++ ms) /\ (tx_err tx <> None -> tx' = tx).
#[local] Instance grows_preorder : PreOrder grows.
Proof.
  split; [intros tx; split; [exists []; by rewrite app_nil_r|done]|]. intros a b c [[ms Ha] Ea] [[ms' Hb] Eb]. split.
  - exists (ms ++ ms'). by rewrite Hb, Ha, <- app_assoc.
  - intros Hn. specialize (Ea Hn). subst b. by apply Eb.
Qed.
Lemma stage_keeps cat db tx sql args : tx_err tx = None ->
  let '(db', tx', o) := stage cat db tx sql args in same_store db db' /\ grows tx tx' /\ tx_err tx' = None.
Proof.
  intros He. pose proof (prepare_keeps db sql cat) as Hp. unfold Txn.stage. destruct (wd_prepare stack mapLower live db sql cat) as [db1 [pl|x|]]; [|by split_and!..].
  cbn [fst] in Hp. assert (G : forall r ms, grows tx (MkTx r (tx_staged tx ++ ms) (tx_err tx))) by (intros r ms; split; [by exists ms|by rewrite He]).
  assert (G0 : forall r, grows tx (MkTx r (tx_staged tx) (tx_err tx))) by (intros r; specialize (G r []); by rewrite app_nil_r in G).
  destruct (pl_st pl); try (by split_and!).
  all: destruct (pl_rt pl) as [rt|]; [|by split_and!]; cbv zeta; destruct (match tx_rt tx with None => false | Some r => _ end); [by split_and!|].
  all: destruct (toValues args ≫= _) as [vargs|x|]; [|by split_and!..]; cbn [tx_rt tx_staged tx_err].
  - destruct (stage_rows _ _ _ _ _) as [ids [ms|x|]]; (split; [destruct Hp as (? & ? & ? & ?); by split_and!|]); by split.
  - destruct (negb _); [by split_and!|]. destruct (resolvePK _ _); by split_and!.
  - destruct (negb _); [by split_and!|]. destruct (resolvePK _ _); by split_and!.
Qed.
Lemma tx_Exec_keeps cat db tx sql args :
  let '(db', tx', o) := tx_Exec cat db tx sql args in same_store db db' /\ grows tx tx' /\
    (forall e, o = Err e -> tx_err tx' = Some e) /\ (forall z, o = Ok z -> tx_err tx' = None).
Proof.
  unfold Txn.tx_Exec. destruct (tx_err tx) as [e|] eqn:He; [split_and!; [done|done|intros x [= <-]; done|done]|].
  pose proof (stage_keeps cat db tx sql args He) as S. destruct (stage cat db tx sql args) as [[db' tx'] [z|x|]]; destruct S as (S1 & [S2 _] & S3).
  - split_and!; [done|by split|done|done].
  - split_and!; [done|by split; [|by rewrite He]|intros y [= <-]; done|done].
  - split_and!; [done|by split|done|done].
Qed.
Lemma run_fn_keeps fn : forall cat db tx, let '(db', tx', o) := run_fn cat db tx fn in same_store db db' /\ grows tx tx'.
Proof.
  induction fn as [cerr|sql args k IH]; intros cat db tx; cbn [Txn.run_fn]; [by split|].
  pose proof (tx_Exec_keeps cat db tx sql args) as S. destruct (tx_Exec cat db tx sql args) as [[db1 tx1] o]. destruct S as (S1 & S2 & _).
  assert (G : forall o, let '(db', tx', o) := run_fn cat db1 tx1 (k o) in same_store db db' /\ grows tx tx').
  { intros o'. specialize (IH o' cat db1 tx1). destruct (run_fn cat db1 tx1 (k o')) as [[db' tx'] o'']. destruct IH as [I1 I2]. split; by etrans. }
  destruct o; [apply G..|by split].
Qed.
(** Once a call has failed, every later one answers its error and stages nothing. *)
Lemma poisoned_stays cat (db : wdb) tx e sql args : tx_err tx = Some e -> tx_Exec cat db tx sql args = (db, tx, Err e).
Proof. intros He. unfold Txn.tx_Exec. by rewrite He. Qed.

Lemma poison_sticks cat (db db1 : wdb) tx tx1 sql args e fn : tx_Exec cat db tx sql args = (db1, tx1, Err e) ->
  let '(_, tx', _) := run_fn cat db1 tx1 fn in tx_err tx' = Some e.
Proof.
  intros E. pose proof (tx_Exec_keeps cat db tx sql args) as S. rewrite E in S. destruct S as (_ & _ & He & _). specialize (He e eq_refl).
  pose proof (run_fn_keeps fn cat db1 tx1) as R. destruct (run_fn cat db1 tx1 fn) as [[db' tx'] o]. destruct R as [_ [_ R]]. by rewrite R by by rewrite He.
Qed.

(** C10: a transaction that does not commit leaves no trace. Staging and the
    closure's calls change no table, no registry and no log; once a call failed,
    the transaction ends with that call's error, whatever the closure does next and
    returns; an error of the closure rolls back as well, and only a clean return
    reaches the commit, with the statements in the order they were staged. *)
Theorem transaction_rolls_back between (db : wdb) fn : wd_closed db = false ->
  let '(db1, tx, o) := run_fn (wd_cat db) db tx_new fn in
  same_store db db1 /\
  (match o, tx_err tx with
   | Ok _, Some e | Ok (Some e), None => Transaction between db fn = (db1, Err e)
   | Ok None, None => Transaction between db fn = tx_commit pkHashSeed max (between db1) tx
   | _, _ => True
   end) /\
  forall (db2 db3 : wdb) tx2 tx3 sql args e rest, tx_Exec (wd_cat db) db2 tx2 sql args = (db3, tx3, Err e) ->
    let '(_, tx', _) := run_fn (wd_cat db) db3 tx3 rest in tx_err tx' = Some e.
Proof.
  intros Hc. pose proof (run_fn_keeps fn (wd_cat db) db tx_new) as S. destruct (run_fn (wd_cat db) db tx_new fn) as [[db1 tx] o] eqn:E. destruct S as [S _].
  split; [done|]. split; [|by apply poison_sticks]. unfold Txn.Transaction. rewrite Hc, E. by destruct o as [[x|]| |], (tx_err tx).
Qed.
End txn.

(** ** The users table *)
Definition users_db : wdb (J := list (Z * bytes)) := MkWdb false db0 ∅ ∅ (Some []) 0.
Definition fails_late : txn_fn :=
  fn_exec (lit "DELETE FROM users WHERE id = ?") [g_uuid zeroUUID] (fun _ => fn_exec (lit "DELETE FROM users") [] (fun _ => fn_return None)).
Lemma transaction_rolls_back_witness : exists db1, Transaction 0 (fun _ => zeroUUID) 1000 2056 id (fun _ => 1) id users_db fails_late = (db1, Err ErrTxUnsupported) /\ same_store users_db db1.
Proof.
  pose proof (transaction_rolls_back 0 (fun _ => zeroUUID) 1000 2056 id (fun _ => 1) id users_db fails_late eq_refl) as T.
  destruct (run_fn (fun _ => zeroUUID) 2056 id (fun _ => 1) (wd_cat users_db) users_db tx_new fails_late) as [[db1 tx] o] eqn:E.
  assert (Eo : match o with Ok None => true | _ => false end = true /\ tx_err tx = Some ErrTxUnsupported).
  { assert (X : (fun r : wdb (J := list (Z * bytes)) * Tx * outcome (option error) => (match snd r with Ok None => true | _ => false end, tx_err (snd (fst r))))
      (run_fn (fun _ => zeroUUID) 2056 id (fun _ => 1) (wd_cat users_db) users_db tx_new fails_late) = (true, Some ErrTxUnsupported)) by (vm_compute; reflexivity).
    rewrite E in X. cbn in X. injection X as X1 X2. by split. }
  destruct Eo as [Eo Et]. destruct o as [[x|]| |]; try discriminate Eo. rewrite Et in T. destruct T as (S & T & _). exists db1. split; [exact T|exact S].
Defined.
