(* ===== verification/ExecMain.v ===== *)
(** * ExecMain: whole statements on small databases — what runs end to end, and
    three places where the code's own paths disagree. *)
From S2P Require Import Prelude Bytes Order Uuid Value CompositeKey PkMap Codec Frame Journal Schema Catalog SecIndex Store StoreSim Merge Ast Lexer Eval Filter TopN Plan PlanJoin Recovery Replayer RecoveryOk Select Query Commit Exec DbExec Txn.

Definition main_uuid (n : nat) : UUID := uuid_of (replicate 16 (z2b (7 + Z.of_nat n))).
Definition empty_db : wdb (J := list (Z * bytes)) := MkWdb false (MkRdb (MkCatalog 0 ∅ []) ∅ 0) ∅ ∅ (Some []) 0.
Definition main_exec (db : wdb (J := list (Z * bytes))) (sql : string) (args : list Value) : wdb * outcome Z :=
  ExecValues 0 main_uuid 100000 1 0 2056 id (fun _ => 1) db (lit sql) args.
(** Statements one after the other, with their answers. *)
Fixpoint main_runs (db : wdb (J := list (Z * bytes))) (l : list (string * list Value)) : wdb * list (outcome Z) :=
  match l with
  | [] => (db, [])
  | (sql, args) :: l => let '(db, o) := main_exec db sql args in let '(db, os) := main_runs db l in (db, o :: os)
  end.
Definition main_replay (w : option (list (Z * bytes))) : outcome unit :=
  snd (apply_records (applyReplayRecord 0 100000 1 0) (default [] w) (MkRdb (MkCatalog 0 ∅ []) ∅ 0)).
Definition main_table : string * list Value := ("CREATE TABLE users (id uuid PRIMARY KEY, age int, name string NULL, boss uuid NULL, INDEX (age))", []).
Definition main_story : list (string * list Value) :=
  [main_table;
   ("INSERT INTO users (age, name) VALUES (?, ?), (?, ?)", [Int 3; Str (lit "bob"); Int 5; Str (lit "cy")]);
   ("INSERT INTO users (id, age) VALUES (?, ?)", [UUIDVal (main_uuid 0); Int 9]);
   ("UPDATE users SET age = age + ? WHERE age = ?", [Int 3; Int 3]);
   ("DELETE FROM users WHERE age > ?", [Int 5]);
   ("DROP TABLE users", [])].
(** Answers, and a log that replays. *)
Example statements_run :
  let '(db, os) := main_runs empty_db main_story in
  os = [Ok 0; Ok 2; Err ErrDuplicatePK; Ok 1; Ok 1; Ok 0] /\ length (default [] (wd_wal db)) = 5%nat /\ main_replay (wd_wal db) = Ok tt.
Proof. vm_compute. split_and!; reflexivity. Qed.

(** A plan made before a DROP still writes: the mutation is journaled under the id
    of a dropped table, behind the drop, and the log no longer replays. A commit
    checks the registry ([still_registered]); a plain write does not. *)
Definition old_plan (db : wdb (J := list (Z * bytes))) (sql : string) : outcome plan := snd (wd_prepare 2056 id (fun _ => 1) db (lit sql) (wd_cat db)).
Example write_after_drop_unreplayable :
  let '(db, _) := main_runs empty_db [main_table] in
  match old_plan db "INSERT INTO users (age) VALUES (?)" with
  | Ok pl =>
      let '(db, _) := main_exec db "DROP TABLE users" [] in
      let '(db', o) := execPlanValues 0 main_uuid 100000 1 0 db pl [Int 1] in
      o = Ok 1 /\ main_replay (wd_wal db) = Ok tt /\ main_replay (wd_wal db') = Err ErrWALCorrupt
  | _ => False
  end.
Proof. vm_compute. split_and!; reflexivity. Qed.

(** Staging does not convert string arguments to UUIDs: the UPDATE that Exec takes
    fails in a transaction. *)
Definition boss_sql : string := "UPDATE users SET boss = ? WHERE id = ?".
Definition boss_text : bytes := lit "00000000-0000-7000-8000-000000000001".
Example transaction_skips_coercion :
  let '(db, _) := main_runs empty_db [main_table; ("INSERT INTO users (age) VALUES (?)", [Int 1])] in
  snd (main_exec db boss_sql [Str boss_text; UUIDVal (main_uuid 0)]) = Ok 1 /\
  snd (Transaction 0 main_uuid 100000 2056 id (fun _ => 1) id db
    (fn_exec (lit boss_sql) [g_string boss_text; g_uuid (main_uuid 0)] (fun _ => fn_return None))) = Err errExpectsType.
Proof. vm_compute. split_and!; reflexivity. Qed.

(** A SET value that fails for every row is an error on the scan even when no row
    matches, and no error on the index lane that finds no key. *)
Example constant_set_errors_by_path :
  let '(db, _) := main_runs empty_db [main_table] in
  snd (main_exec db "UPDATE users SET name = ? WHERE name = ?" [Int 1; Str (lit "zed")]) = Err errExpectsType /\
  snd (main_exec db "UPDATE users SET name = ? WHERE age = ?" [Int 1; Int 77]) = Ok 0.
Proof. vm_compute. split_and!; reflexivity. Qed.
